(* ===== verification/_CoqProject ===== *)
-Q . S2P
Prelude.v
Hash.v
Double.v
Format.v
Config.v
Value.v
Tuple.v
Raw.v
Bloom.v
Page.v
Lexer.v
Ast.v
Parser.v
Catalog.v
CatalogJson.v
Eval.v
Select.v
Streaming.v
Optimizer.v
OptimizerProofs.v
OptimizerSound.v
CodeGen.v
Sql.v
Cache.v
Compiler.v
Wal.v
Lock.v
BTree.v
Storage.v
Heap.v
HeapSpec.v
Store.v
Engine.v
Snapshot.v
Shards.v
Constraints.v
Integrity.v
Statements.v
Vector.v
VectorSpec.v
Stats.v
Ranges.v
Direct.v
DirectSpec.v
DirectSound.v
Point.v
PointSpec.v
Join.v
JoinSpec.v
CostSpec.v
Prompt.v
Context.v
Views.v
ContextSpec.v
