(* ===== verification/Prelude.v ===== *)
(** * A verification development of SkibidiQL

    SkibidiQL is a SQL dialect with slang keywords, a compiler to SQL and a
    storage engine of its own, in C++ under [src/src/] (the paths below are
    relative to it).  This library translates the parts that carry the logic of
    the program into executable definitions and proves what makes them correct.
    It is plain Gallina with stdpp's maps and lists.

    ** The program and its model

    A source text is lexed ([lexer.cpp]: [Lexer.v]), parsed ([parser.cpp],
    [ast.h]: [Parser.v], [Ast.v]), optimized against the catalog
    ([optimizer.cpp]: [Optimizer.v], [OptimizerProofs.v], [OptimizerSound.v]) and
    turned into SQL for SQLite ([codegen.cpp]: [CodeGen.v], with [Sql.v], a reader
    of the generated texts).  [compiler.cpp] puts the passes together and caches
    their results ([cache.cpp]): [Compiler.v], [Cache.v].

    The native engine ([native_engine.cpp]) runs the optimized tree itself.
    Values and rows: [Value.v], [Tuple.v] ([native_storage.cpp]), and fields read
    straight from the bytes of a row ([native_raw.cpp]): [Raw.v]; expressions:
    [Eval.v].  CREATE, DROP, INSERT, UPDATE, DELETE and the primary-key lookup are
    in [Engine.v]; what the tables then satisfy in [Constraints.v],
    [Integrity.v] and [Statements.v].  The statements about dataset snapshots are
    in [Snapshot.v] and [Shards.v].

    [executeSelect] has several ways to one answer.  [Select.v] (with
    [Streaming.v]) is everything it does once the rows of the FROM clause are
    there, one row at a time, and the reference for the others.  [Vector.v] is
    the evaluation in batches of typed vectors ([native_vectorized.cpp]),
    [Direct.v] the aggregation from the bytes of the rows or from the statistics
    alone ([native_aggregates.cpp]), [Point.v] the row of a primary key
    ([native_fast_paths.cpp]) and the choice between these ways; [VectorSpec.v],
    [DirectSpec.v], [DirectSound.v] and [PointSpec.v] compare them with
    [Select.v].  [Stats.v] holds the statistics of columns, their cache and what
    makes it forget them; its [planner] is the engine with this cache, and
    [Ranges.v] follows it through any statements.  [Join.v] is the joins, in
    source order with hashes and Bloom filters ([Bloom.v]) or in the order of
    least cost ([native_joins.cpp]); [JoinSpec.v] and [CostSpec.v] specify them.

    [Prompt.v], [Context.v] and [Views.v] are the statements about conversation
    contexts ([native_prompt.cpp]): the facts inferred from a message, the tabs
    and their facts, and the cached views of them; [ContextSpec.v] has their
    theorems.

    The engine stands on heap files of slotted pages in a buffer pool
    ([native_storage.cpp]: [Page.v], [Storage.v], [Heap.v], specified in
    [HeapSpec.v]), a B+ tree ([native_index.cpp]: [BTree.v]), an undo log
    ([native_wal.cpp]: [Wal.v]), statement locks ([native_lock.cpp]: [Lock.v]) and
    the catalog ([metadata.cpp]: [Catalog.v], its JSON file [CatalogJson.v]).
    [Hash.v], [Double.v], [Format.v] and [Config.v] hold the hash functions
    ([hash_utils.h]), binary64 numbers, the printing and reading of numbers, and
    the tunables ([skibidi_config.cpp]).

    ** How it is modelled

    - Failures are values: [exec A] is an answer or a [failure], which is an
      exception with its message ([Throw]) or undefined behaviour ([Undefined]:
      an access out of bounds, a signed overflow).  A theorem that an operation
      answers says that neither happens.
    - State is passed explicitly: [action S A] is a state and error monad that
      keeps the state when an exception is thrown; [cleanup] is [catch] and
      rethrow.  [zoom] runs an action on a part of the state, so the buffer pool,
      the file object on it and the engine keep the layers of the code.
    - Machine integers are [Z] with the wrap-around written out ([wrap], [i64],
      [u64]); doubles are 64-bit patterns; strings are [string], files and pages
      lists of bytes.
    - [std::unordered_map] is [gmap]; where the code depends on an iteration
      order, or on which of two equal elements [std::sort] puts first, the order
      is a parameter of the definitions.
    - [HeapFiles] and [HeapFilesLaws] ([Store.v]) are the interface between the
      engine and its storage: the theorems about the engine, from
      [Constraints.v] to [PointSpec.v], are proved against it and [Heap.v]
      implements it.

    ** What is shown

    - Front end: the lexer loses nothing and ends; printing tokens and lexing
      them is the identity; the parser ends on every input.  The generated SQL of
      an expression without FLOAT literals determines what it means; quoted
      strings read back.
    - Optimizer: an optimized SELECT gives the result of the one written, on the
      rows a table with its constraints can hold, without NaN and without aliases
      on folded columns; an aggregation evaluates alike in every non-empty group;
      folding is idempotent; where it is undefined.
    - Cache and compiler: the cache is the bounded list of the most recent
      entries, its index agrees with it, and with it every request is answered
      as without it.
    - Expressions: evaluation in a well-formed row reads nothing out of range and
      divides no integer by zero; only a signed overflow is undefined.
    - Values: [compare] is a preorder on the values of one column, agrees with
      [operator==] and the hash there, and is no order elsewhere; rows and the
      catalog file read back as written; the catalog's fingerprint is that of its
      contents.
    - Storage: each layer refines an abstract state - a page a slot directory, a
      set of heap files in one pool ordered maps of rows, the B+ tree a sorted
      list of logarithmic height.
    - Log and locks: after a crash at any point recovery gives the files before
      or after a transaction; threads that call [acquireAll] while they hold
      nothing are never deadlocked, and a writer or a transaction runs alone.
    - Engine: after any data statements every constraint of the catalog holds,
      a statement has the effect it describes or none, and the index finds what
      a scan finds.  A snapshot splits its rows by key, and the batches of all
      ranks are its rows.
    - SELECT: the streaming aggregation computes what grouping does, LONE-WOLF
      excepted; the vectors,
      the statistics, the array of groups and the row of a key answer as the
      row-at-a-time SELECT, and so does a statement without joins whichever way
      it takes; the statistics are always those of the rows.  The conditions
      these theorems need (no NaN, integers exact as doubles, a literal of the
      type of the key, no DISTINCT inside an aggregate) are each shown to be
      needed by a statement whose answers differ.
    - Joins: joins in source order are nested loops, row by row of the first
      table; planned joins find every combination of rows once; a Bloom filter
      rejects no value that was added.
    - Contexts: active facts stored with one tab never contradict each other, the
      cache of views is invisible, a spilled view fits its budget, and the values
      of confidential facts and the texts of confidential messages stay hidden,
      not the keys made of their words.

    ** Fuel

    Recursion that is not structural takes a number of steps: the lexer and the
    JSON reader one per character left, the parser one per token and one per
    nesting level, page and tree walks one per slot or level; a lookup that
    rebuilds its index takes two.  Running out of it
    is the failure [Undefined "unbounded recursion"]; for each there is a
    theorem that the fuel the definitions pass is enough
    ([Lexer.tokenize_lossless], [Parser.parse_terminates],
    [CatalogJson.load_total], [BTree.btree_refines_sorted_list], [Statements.index_lookup_is_scan]).

    ** Not modelled

    The aggregation over lookups of row identifiers
    ([executeRowIdSeekJoinAggregateSelect] in [native_joins.cpp]): it reads the
    rows of the joined tables inside the visitor of the scan, through mapped
    files.  The choice of a way for a statement with joins, which tries it, is
    therefore not modelled either.  The SQLite back end ([executor.cpp]), which
    only calls the SQLite library, the command line ([main.cpp]), Python bindings,
    benchmarks and tests.  The operating system appears as maps from names to
    bytes whose reads and writes succeed; the failures of files, the counters
    ([NativeEngineStats]) and the printing of results are left out. *)

From Stdlib Require Export ZArith Lia Ascii.
From Stdlib Require Export Strings.Byte.
From coqutil Require Export Byte Word.LittleEndianList.
From stdpp Require Export base numbers gmap strings list list_numbers sorting
  option fin_maps.

#[global] Open Scope Z_scope.
#[global] Set Default Goal Selector "!".

(** * Results of fallible code

    [result E A] is the outcome of a C++ function that returns an [A] or throws
    an [E].  The notations live in [result_scope]. *)

Inductive result (E A : Type) : Type :=
  | Ok (a : A)
  | Err (e : E).
Arguments Ok {E A} _.
Arguments Err {E A} _.

Definition rbind {E A B : Type} (m : result E A) (k : A → result E B)
    : result E B :=
  match m with
  | Ok a => k a
  | Err e => Err e
  end.

Definition is_ok {E A : Type} (m : result E A) : bool :=
  match m with Ok _ => true | Err _ => false end.

Definition ok_value {E A : Type} (m : result E A) : option A :=
  match m with Ok a => Some a | Err _ => None end.

Declare Scope result_scope.
Delimit Scope result_scope with res.
Notation "'let*' p ':=' m 'in' k" := (rbind m (λ p, k))
  (at level 10, p pattern, m at level 100, k at level 200)
  : result_scope.
#[global] Open Scope result_scope.

(** What a C++ function does instead of returning: throw an exception with a
    message, or run into behaviour the language leaves undefined. *)
Inductive failure : Type :=
  | Throw (what : string)
  | Undefined (why : string).
Abbreviation exec := (result failure) (only parsing).

(** [rmap f l]: run [f] on every element from the left, stop at the first
    exception. *)
Fixpoint rmap {E A B : Type} (f : A → result E B) (l : list A)
    : result E (list B) :=
  match l with
  | [] => Ok []
  | x :: l' =>
      let* y := f x in
      let* ys := rmap f l' in
      Ok (y :: ys)
  end.

(** [rfold f l a]: thread [a] through [f] over the elements of [l]. *)
Fixpoint rfold {E A B : Type} (f : B → A → result E B) (l : list A) (b : B)
    : result E B :=
  match l with
  | [] => Ok b
  | x :: l' => let* b := f b x in rfold f l' b
  end.

Lemma rbind_Ok {E A B} (m : result E A) (k : A → result E B) (b : B) :
  rbind m k = Ok b → ∃ a, m = Ok a ∧ k a = Ok b.
Proof. destruct m as [a|e]; simpl; [eauto | discriminate]. Qed.

(** Take apart every [let*] of a hypothesis that says the whole succeeded. *)
Ltac res_inv :=
  repeat match goal with
  | H : rbind ?m ?k = Ok _ |- _ =>
      let a := fresh "a" in let Ha := fresh "Ha" in
      apply rbind_Ok in H as [a [Ha H]]
  | H : Ok _ = Ok _ |- _ => injection H as H
  | H : Err _ = Ok _ |- _ => discriminate H
  end.

(** ** Computations that succeed alike

    Two computations are alike when they succeed with the same result; when
    one fails so does the other, perhaps for another reason. *)

Definition alike {E A : Type} (m n : result E A) : Prop := ∀ a, m = Ok a ↔ n = Ok a.
Infix "≈" := alike (at level 70, no associativity).

#[global] Instance alike_equivalence {E A} : Equivalence (@alike E A).
Proof.
  split; [intros m a; done|intros m n H a; by rewrite (H a)|].
  intros m n o H1 H2 a. by rewrite (H1 a), (H2 a).
Qed.

#[global] Instance rbind_alike {E A B} :
  Proper (alike ==> pointwise_relation A alike ==> alike) (@rbind E A B).
Proof.
  intros m n Hmn k l Hkl b. split; intros H; apply rbind_Ok in H as (a & Ha & H).
  - rewrite (proj1 (Hmn a) Ha). by apply Hkl.
  - rewrite (proj2 (Hmn a) Ha). by apply Hkl.
Qed.

Lemma alike_errors {E A} (e f : E) : @Err E A e ≈ Err f.
Proof. done. Qed.

Lemma rbind_assoc {E A B C} (m : result E A) (k : A → result E B) (l : B → result E C) :
  rbind (rbind m k) l = rbind m (λ a, rbind (k a) l).
Proof. by destruct m. Qed.

(** The order of two computations only decides which failure is reported. *)
Lemma rbind_swap {E A B C} (m : result E A) (n : result E B) (k : A → B → result E C) :
  (let* a := m in let* b := n in k a b) ≈ (let* b := n in let* a := m in k a b).
Proof. by destruct m, n. Qed.

Lemma rfold_app {E A B} (f : B → A → result E B) l l' b :
  rfold f (l ++ l') b = let* b := rfold f l b in rfold f l' b.
Proof.
  revert b. induction l as [|x l IH]; intros b; [done|]. simpl.
  destruct (f b x); [apply IH|done].
Qed.

Lemma rmap_Ok {E A B} (f : A → result E B) l l' :
  rmap f l = Ok l' ↔ Forall2 (λ x y, f x = Ok y) l l'.
Proof.
  split.
  - revert l'. induction l as [|x l IH]; intros l' H; cbn in H; [by injection H as <-|].
    destruct (f x) as [y|] eqn:Hy; [cbn in H|done].
    destruct (rmap f l) as [ys|]; [cbn in H|done]. injection H as <-. auto.
  - induction 1 as [|x y l l' Hy _ IH]; [done|]. cbn. by rewrite Hy, IH.
Qed.

Lemma FOP_rmap {E A B} (R : A → A → Prop) (S : B → B → Prop) (f : A → result E B) l l' :
  (∀ a b x y, R a b → f a = Ok x → f b = Ok y → S x y) →
  ForallOrdPairs R l → rmap f l = Ok l' → ForallOrdPairs S l'.
Proof.
  intros HRS HR Hm. apply rmap_Ok in Hm. revert HR.
  induction Hm as [|x y l l' Hxy Hl IH]; intros HR; [constructor|].
  inversion HR as [|? ? Hx Hr]; subst. constructor; [|auto].
  clear IH HR Hr. induction Hl as [|x' y' l l' Hxy' _ IH']; [constructor|].
  inversion Hx; subst. constructor; eauto.
Qed.

Lemma rmap_ext {E A A' B} (f : A → result E B) (g : A' → result E B) l l' :
  Forall2 (λ x y, g y = f x) l l' → rmap g l' = rmap f l.
Proof. induction 1 as [|x y l l' Hy _ IH]; [done|]. cbn. by rewrite Hy, IH. Qed.

Lemma rmap_ext_in {E A B} (f g : A → result E B) l :
  (∀ x, x ∈ l → g x = f x) → rmap g l = rmap f l.
Proof.
  induction l as [|x l IH]; intros H; [done|]. cbn.
  rewrite H by apply list_elem_of_here. rewrite IH; [done|]. intros y Hy.
  by apply H, list_elem_of_further.
Qed.

(** ** Code that keeps a state

    [action S A]: a C++ function that reads and changes an [S] and returns an
    [A] or throws; what it changed before it threw stays changed. *)

Definition action (S A : Type) : Type := S → exec A * S.

#[global] Instance action_ret {S} : MRet (action S) := λ A a s, (Ok a, s).
#[global] Instance action_bind {S} : MBind (action S) := λ A B k m s,
  match m s with
  | (Ok a, s') => k a s'
  | (Err e, s') => (Err e, s')
  end.

Definition raise {S A} (e : failure) : action S A := λ s, (Err e, s).
Definition lift {S A} (m : exec A) : action S A := λ s, (m, s).
Definition gets {S A} (f : S → A) : action S A := λ s, (Ok (f s), s).
Definition modify {S} (f : S → S) : action S () := λ s, (Ok (), f s).

(** [try { m } catch (...) { handler; throw; }] *)
Definition cleanup {S A} (m : action S A) (handler : action S ()) : action S A := λ s,
  match m s with
  | (Ok a, s') => (Ok a, s')
  | (Err e, s') =>
      match handler s' with
      | (Ok _, s'') => (Err e, s'')
      | (Err e', s'') => (Err e', s'')
      end
  end.

(** Run [f] on every element from the left. *)
Fixpoint for_each {S A} (f : A → action S ()) (l : list A) : action S () :=
  match l with
  | [] => mret ()
  | x :: l' => _ ← f x; for_each f l'
  end.

(** An [action] on a part of a larger state. *)
Definition zoom {S T A} (get : T → S) (set : S → T → T) (m : action S A) : action T A := λ t,
  let (r, s) := m (get t) in (r, set s t).

(** * Machine integers

    An unsigned integer of width [w] is the [Z] in [0, 2^w); [wrap w] is the
    reduction the C++ arithmetic performs after every operation. *)

Definition wrap (w z : Z) : Z := z `mod` 2 ^ w.
Definition uint (w z : Z) : Prop := 0 ≤ z < 2 ^ w.

Abbreviation u16 := (uint 16).
Abbreviation u32 := (uint 32).
Abbreviation u64 := (uint 64).
Abbreviation wrap16 := (wrap 16).
Abbreviation wrap32 := (wrap 32).
Abbreviation wrap64 := (wrap 64).

(** A signed integer of width [w], and the reading of an unsigned pattern as a
    two's complement number. *)
Definition sint (w z : Z) : Prop := - 2 ^ (w - 1) ≤ z < 2 ^ (w - 1).
Definition to_signed (w z : Z) : Z :=
  if decide (z < 2 ^ (w - 1)) then z else z - 2 ^ w.
Abbreviation i64 := (sint 64).

#[global] Instance uint_dec w z : Decision (uint w z).
Proof. unfold uint. apply _. Defined.
#[global] Instance sint_dec w z : Decision (sint w z).
Proof. unfold sint. apply _. Defined.

Create HintDb machine.

Lemma pow2_pos w : 0 ≤ w → 0 < 2 ^ w.
Proof. intros Hw. apply Z.pow_pos_nonneg; lia. Qed.

Lemma wrap_uint w z : 0 ≤ w → uint w (wrap w z).
Proof. intros Hw. apply Z.mod_pos_bound, pow2_pos, Hw. Qed.

Lemma wrap_small w z : uint w z → wrap w z = z.
Proof. intros Hz. apply Z.mod_small, Hz. Qed.

Lemma uint_testbit_high w z i : uint w z → 0 ≤ w ≤ i → Z.testbit z i = false.
Proof.
  intros [Hz1 Hz2] Hi.
  rewrite <- (Z.mod_small z (2 ^ w)) by lia.
  apply Z.mod_pow2_bits_high; lia.
Qed.

Lemma bit_set w i : 0 ≤ i → (Z.land w (Z.shiftl 1 i) =? 0) = negb (Z.testbit w i).
Proof.
  intros Hi. rewrite Z.shiftl_1_l. destruct (Z.eqb_spec (Z.land w (2 ^ i)) 0) as [H|H].
  - apply (f_equal (λ z, Z.testbit z i)) in H.
    rewrite Z.land_spec, Z.pow2_bits_true, Z.bits_0, andb_true_r in H by done. by rewrite H.
  - destruct (Z.testbit w i) eqn:Hb; [done|]. destruct H. apply Z.bits_inj'. intros j Hj.
    rewrite Z.land_spec, Z.bits_0. destruct (decide (i = j)) as [<-|Hne].
    + by rewrite Hb.
    + by rewrite Z.pow2_bits_false, andb_false_r by done.
Qed.

Lemma testbit_single i j : Z.testbit (Z.shiftl 1 (Z.of_nat i)) (Z.of_nat j) = bool_decide (i = j).
Proof.
  rewrite Z.shiftl_1_l. case_bool_decide as H.
  - subst. apply Z.pow2_bits_true. lia.
  - apply Z.pow2_bits_false. lia.
Qed.

Lemma uint_of_bits w z :
  0 ≤ w → (∀ i, w ≤ i → Z.testbit z i = false) → uint w z.
Proof.
  intros Hw Hbits. assert (wrap w z = z) as <-; [|by apply wrap_uint].
  unfold wrap. apply Z.bits_inj'. intros i Hi. destruct (decide (w ≤ i)).
  - rewrite Z.mod_pow2_bits_high by lia. by rewrite Hbits by lia.
  - by rewrite Z.mod_pow2_bits_low by lia.
Qed.

Lemma lxor_uint w a b : 0 ≤ w → uint w a → uint w b → uint w (Z.lxor a b).
Proof.
  intros Hw Ha Hb. apply uint_of_bits; [done|]. intros i Hi.
  rewrite Z.lxor_spec, (uint_testbit_high w a), (uint_testbit_high w b) by
    (done || lia). done.
Qed.

Lemma shiftr_uint w a n : 0 ≤ w → 0 ≤ n → uint w a → uint w (Z.shiftr a n).
Proof.
  intros Hw Hn Ha. apply uint_of_bits; [done|]. intros i Hi.
  rewrite Z.shiftr_spec by lia. apply (uint_testbit_high w); [done|lia].
Qed.

Lemma byte_uint b : uint 8 (byte.unsigned b).
Proof. apply byte.unsigned_range. Qed.

Lemma uint_le v w z : v ≤ w → uint v z → uint w z.
Proof.
  intros Hvw [Hz1 Hz2]. split; [done|].
  apply Z.lt_le_trans with (2 ^ v); [done|]. by apply Z.pow_le_mono_r.
Qed.

#[export] Hint Resolve wrap_uint lxor_uint shiftr_uint byte_uint : machine.
#[export] Hint Extern 2 (_ ≤ _) => lia : machine.

(** * Characters of the "C" locale ([<cctype>]) *)

Definition code (c : ascii) : Z := Z.of_N (N_of_ascii c).
Definition in_range (lo hi : ascii) (c : ascii) : bool :=
  (code lo <=? code c) && (code c <=? code hi).

Definition isdigit (c : ascii) : bool := in_range "0" "9" c.
Definition islower (c : ascii) : bool := in_range "a" "z" c.
Definition isupper (c : ascii) : bool := in_range "A" "Z" c.
Definition isalpha (c : ascii) : bool := islower c || isupper c.
Definition isalnum (c : ascii) : bool := isalpha c || isdigit c.
Definition isspace (c : ascii) : bool :=
  (code c =? 32) || ((9 <=? code c) && (code c <=? 13)).
Definition tolower (c : ascii) : ascii :=
  if isupper c then ascii_of_N (N_of_ascii c + 32)%N else c.
Definition toupper (c : ascii) : ascii :=
  if islower c then ascii_of_N (N_of_ascii c - 32)%N else c.

Lemma string_app_cons c s t : String c s +:+ t = String c (s +:+ t).
Proof. done. Qed.

Lemma string_app_nil_l s : "" +:+ s = s.
Proof. done. Qed.

Lemma string_app_nil_r s : s +:+ "" = s.
Proof.
  induction s as [|c s IH]; [done|]. by rewrite string_app_cons, IH.
Qed.

Lemma string_app_assoc s t u : (s +:+ t) +:+ u = s +:+ (t +:+ u).
Proof.
  induction s as [|c s IH]; [done|]. by rewrite !string_app_cons, IH.
Qed.

Fixpoint string_map (f : ascii → ascii) (s : string) : string :=
  match s with
  | EmptyString => EmptyString
  | String c s' => String (f c) (string_map f s')
  end.
Definition lower (s : string) : string := string_map tolower s.
Definition upper (s : string) : string := string_map toupper s.

(** A statement about one character is checked on the 256 of them. *)
Definition all_ascii : list ascii := ascii_of_nat <$> seq 0 256.

Lemma all_ascii_complete c : c ∈ all_ascii.
Proof.
  rewrite <- (ascii_nat_embedding c). unfold all_ascii.
  apply list_elem_of_fmap_2, elem_of_seq.
  pose proof (nat_ascii_bounded c). lia.
Qed.

Lemma ascii_forallb (f : ascii → bool) :
  forallb f all_ascii = true → ∀ c, f c = true.
Proof.
  intros H c. apply (proj1 (forallb_forall f all_ascii) H).
  apply list_elem_of_In, all_ascii_complete.
Qed.

(** Decide a universally quantified boolean fact about a character. *)
Ltac by_all_ascii c :=
  revert c;
  match goal with
  | |- ∀ c : ascii, @?f c = true => apply (ascii_forallb f); vm_compute; reflexivity
  end.

(** * Lexicographic comparison of byte strings, bytes unsigned *)

#[global] Instance byte_eq_dec : EqDecision byte := Byte.byte_eq_dec.

Fixpoint bytes_compare (a b : list byte) : comparison :=
  match a, b with
  | [], [] => Eq
  | [], _ :: _ => Lt
  | _ :: _, [] => Gt
  | x :: a', y :: b' =>
      match byte.unsigned x ?= byte.unsigned y with
      | Eq => bytes_compare a' b'
      | c => c
      end
  end.

Lemma bytes_compare_eq a b : bytes_compare a b = Eq ↔ a = b.
Proof.
  revert b. induction a as [|x a IH]; intros [|y b]; simpl; try done.
  destruct (Z.compare_spec (byte.unsigned x) (byte.unsigned y)) as [H|H|H].
  - apply byte.unsigned_inj in H as ->. rewrite IH. split; congruence.
  - split; [done|]. intros [= -> ->]. lia.
  - split; [done|]. intros [= -> ->]. lia.
Qed.

Lemma bytes_compare_antisym a b : bytes_compare b a = CompOpp (bytes_compare a b).
Proof.
  revert b. induction a as [|x a IH]; intros [|y b]; simpl; try done.
  rewrite (Z.compare_antisym (byte.unsigned x)).
  destruct (byte.unsigned x ?= byte.unsigned y); simpl; auto.
Qed.

Lemma bytes_compare_le_trans a b c :
  bytes_compare a b ≠ Gt → bytes_compare b c ≠ Gt → bytes_compare a c ≠ Gt.
Proof.
  revert b c. induction a as [|x a IH]; intros [|y b] [|z c]; simpl; try done.
  destruct (Z.compare_spec (byte.unsigned x) (byte.unsigned y)),
    (Z.compare_spec (byte.unsigned y) (byte.unsigned z)),
    (Z.compare_spec (byte.unsigned x) (byte.unsigned z)); try done; try lia; eauto.
Qed.

(** * Byte strings *)

Abbreviation bytes := (list byte) (only parsing).

Definition bytes_of (s : string) : bytes := String.list_byte_of_string s.
Definition string_of (bs : bytes) : string := String.string_of_list_byte bs.

Lemma string_of_bytes_of s : string_of (bytes_of s) = s.
Proof. apply String.string_of_list_byte_of_string. Qed.

Lemma bytes_of_string_of bs : bytes_of (string_of bs) = bs.
Proof. apply String.list_byte_of_string_of_list_byte. Qed.

Lemma length_bytes_of s : length (bytes_of s) = String.length s.
Proof.
  unfold bytes_of, String.list_byte_of_string.
  rewrite length_map. by induction s as [|c s IH]; simpl; [|rewrite IH].
Qed.

(** Little-endian objects of [n] bytes, as [memcpy] sees them. *)
Abbreviation le_bytes := LittleEndianList.le_split.
Abbreviation le_value := LittleEndianList.le_combine.

#[global] Arguments LittleEndianList.le_split : simpl never.
#[global] Arguments LittleEndianList.le_combine : simpl never.
#[global] Arguments Z.pow : simpl never.

Lemma le_value_bytes n z :
  0 ≤ z < 2 ^ (Z.of_nat n * 8) → le_value (le_bytes n z) = z.
Proof. intros Hz. by rewrite LittleEndianList.le_combine_split, Z.mod_small. Qed.

Lemma length_le_bytes n z : length (le_bytes n z) = n.
Proof. apply LittleEndianList.length_le_split. Qed.

Lemma le_value_uint n bs :
  length bs = n → uint (8 * Z.of_nat n) (le_value bs).
Proof. intros <-. apply LittleEndianList.le_combine_bound. Qed.

(** * [List.filter] *)

Lemma filter_true {A} (p : A → bool) l : Forall (λ x, p x = true) l → List.filter p l = l.
Proof. induction 1 as [|x l Hx _ IH]; [done|]. cbn. by rewrite Hx, IH. Qed.
Lemma filter_false {A} (p : A → bool) l : Forall (λ x, p x = false) l → List.filter p l = [].
Proof. induction 1 as [|x l Hx _ IH]; [done|]. cbn. by rewrite Hx. Qed.

Lemma filter_filter {A} (p q : A → bool) l :
  List.filter p (List.filter q l) = List.filter (λ x, p x && q x) l.
Proof.
  induction l as [|x l IH]; [done|]. cbn. destruct (q x) eqn:Hq; cbn.
  - rewrite IH. by destruct (p x).
  - by rewrite andb_false_r.
Qed.
