(* ===== verification/Hash.v ===== *)
(** The 64-bit hash functions of [src/hash_utils.h]: the FNV-1a style running
    hash that fingerprints the catalog and keys the plan cache, the avalanche
    step that derives snapshot shuffles and Bloom-filter probes, and the
    seed/value combiner that hashes tuples and buffer-pool page keys.  Every
    operation works on a 64-bit pattern and wraps around as the C++ does
    ([std::size_t] is taken to be 64 bits wide). *)

From S2P Require Import Prelude.

Definition kFnv1a64OffsetBasis : Z := 1469598103934665603.
Definition kFnv1a64Prime : Z := 1099511628211.
Definition kFnv1a64FieldSeparator : byte := Byte.xff.
Definition kGoldenRatio64 : Z := 0x9e3779b97f4a7c15.
Definition kSplitMix64Multiplier1 : Z := 0xff51afd7ed558ccd.
Definition kSplitMix64Multiplier2 : Z := 0xc4ceb9fe1a85ec53.

Definition fnv1a64AppendByte (hash : Z) (b : byte) : Z :=
  wrap64 (Z.lxor hash (byte.unsigned b) * kFnv1a64Prime).

Definition fnv1a64Append (hash : Z) (text : bytes) : Z :=
  fold_left fnv1a64AppendByte text hash.

Definition fnv1a64 (text : bytes) : Z :=
  fnv1a64Append kFnv1a64OffsetBasis text.

Definition xorshift33 (value : Z) : Z := Z.lxor value (Z.shiftr value 33).

Definition avalanche64 (value : Z) : Z :=
  let value := xorshift33 value in
  let value := wrap64 (value * kSplitMix64Multiplier1) in
  let value := xorshift33 value in
  let value := wrap64 (value * kSplitMix64Multiplier2) in
  xorshift33 value.

Definition combine (seed value : Z) : Z :=
  Z.lxor seed
    (wrap64 (value + kGoldenRatio64 + wrap64 (Z.shiftl seed 6)
             + Z.shiftr seed 2)).

(** ** Multiplication by an odd constant is invertible modulo 2^64 *)

Definition inverse64 (m k : Z) : Prop := wrap64 (m * k) = 1.

Lemma wrap64_mul_inverse m k x :
  inverse64 m k → u64 x → wrap64 (wrap64 (x * m) * k) = x.
Proof.
  unfold inverse64, wrap. intros Hmk Hx.
  rewrite Z.mul_mod_idemp_l, <- Z.mul_assoc by done.
  rewrite <- Z.mul_mod_idemp_r by done. rewrite Hmk, Z.mul_1_r.
  by apply Z.mod_small.
Qed.

(** The multiplicative inverses, used only to state invertibility. *)
Definition fnvPrimeInverse : Z := 14886173955864302971.
Definition multiplier1Inverse : Z := 5725274745694666757.
Definition multiplier2Inverse : Z := 11291846944257947611.

Lemma xorshift33_u64 x : u64 x → u64 (xorshift33 x).
Proof. unfold xorshift33. auto with machine. Qed.

Lemma xorshift33_involutive x : u64 x → xorshift33 (xorshift33 x) = x.
Proof.
  intros Hx. unfold xorshift33. apply Z.bits_inj'. intros i Hi.
  rewrite !Z.lxor_spec, !Z.shiftr_spec, Z.lxor_spec, Z.shiftr_spec by lia.
  rewrite (uint_testbit_high 64 x (i + 33 + 33)) by (done || lia).
  rewrite xorb_false_r, xorb_assoc, xorb_nilpotent. apply xorb_false_r.
Qed.

Lemma fnv1a64AppendByte_u64 h b : u64 (fnv1a64AppendByte h b).
Proof. unfold fnv1a64AppendByte. auto with machine. Qed.

Lemma fnv1a64Append_u64 h text : u64 h → u64 (fnv1a64Append h text).
Proof.
  unfold fnv1a64Append. revert h.
  induction text as [|b text IH]; simpl; auto using fnv1a64AppendByte_u64.
Qed.

Lemma fnv1a64Append_app h t1 t2 :
  fnv1a64Append h (t1 ++ t2) = fnv1a64Append (fnv1a64Append h t1) t2.
Proof. apply fold_left_app. Qed.

(** The step of the running hash that undoes [fnv1a64AppendByte _ b]. *)
Definition unappendByte (hash : Z) (b : byte) : Z :=
  Z.lxor (wrap64 (hash * fnvPrimeInverse)) (byte.unsigned b).

Lemma unappendByte_appendByte h b :
  u64 h → unappendByte (fnv1a64AppendByte h b) b = h.
Proof.
  intros Hh. unfold unappendByte, fnv1a64AppendByte.
  rewrite wrap64_mul_inverse; [| reflexivity |].
  - by rewrite Z.lxor_assoc, Z.lxor_nilpotent, Z.lxor_0_r.
  - apply lxor_uint; [lia | done |]. apply (uint_le 8); [lia | apply byte_uint].
Qed.

Lemma fnv1a64Append_inj h1 h2 text :
  u64 h1 → u64 h2 → fnv1a64Append h1 text = fnv1a64Append h2 text → h1 = h2.
Proof.
  revert h1 h2. induction text as [|b text IH]; simpl; [done|].
  intros h1 h2 H1 H2 Heq. apply IH in Heq; [|apply fnv1a64AppendByte_u64..].
  rewrite <- (unappendByte_appendByte h1 b), <- (unappendByte_appendByte h2 b);
    congruence.
Qed.

Definition unavalanche64 (value : Z) : Z :=
  let value := xorshift33 value in
  let value := wrap64 (value * multiplier2Inverse) in
  let value := xorshift33 value in
  let value := wrap64 (value * multiplier1Inverse) in
  xorshift33 value.

Lemma avalanche64_u64 x : u64 x → u64 (avalanche64 x).
Proof. intros Hx. unfold avalanche64. auto using xorshift33_u64 with machine. Qed.

Lemma combine_u64 seed value : u64 seed → u64 (combine seed value).
Proof. intros Hs. unfold combine. auto with machine. Qed.

#[export] Hint Resolve xorshift33_u64 fnv1a64AppendByte_u64 fnv1a64Append_u64
  avalanche64_u64 combine_u64 : machine.

(** The avalanche step [avalanche64] is a permutation of the 64-bit
    patterns: [unavalanche64] is its two-sided inverse, so two different values
    never collide in a Bloom-filter probe or a snapshot shuffle key because of
    this step, and the result always fits 64 bits. *)
Theorem avalanche64_permutation (x : Z) :
  u64 x →
  u64 (avalanche64 x) ∧
  unavalanche64 (avalanche64 x) = x ∧
  avalanche64 (unavalanche64 x) = x.
Proof.
  intros Hx. split; [by apply avalanche64_u64|].
  unfold avalanche64, unavalanche64.
  split; rewrite xorshift33_involutive, wrap64_mul_inverse,
    xorshift33_involutive, wrap64_mul_inverse, xorshift33_involutive;
    auto with machine; reflexivity.
Qed.

Example avalanche64_permutation_witness :
  u64 42 ∧ u64 (avalanche64 42) ∧
  unavalanche64 (avalanche64 42) = 42 ∧ avalanche64 (unavalanche64 42) = 42.
Proof.
  assert (H : u64 42) by (unfold uint; lia).
  split; [exact H | exact (avalanche64_permutation 42 H)].
Defined.
