(* ===== verification/Double.v ===== *)
(** C++ [double] as its IEEE-754 binary64 bit pattern, an integer in
    [0, 2^64).  Keeping the pattern (and not a real number) models what the
    storage layer copies with [memcpy], NaN payloads and signed zeros included.
    Comparison and arithmetic go through the standard library's executable
    specification [SpecFloat]; conversions from [int64_t] round to nearest even.
    [dkey] is the integer whose order is the order of the non-NaN doubles; the
    lemmas below reduce every comparison of doubles to one of integers. *)

From Stdlib Require Export Floats.SpecFloat.
From S2P Require Import Prelude.

Abbreviation double := Z (only parsing).

Definition dsign (d : double) : bool := bool_decide (2 ^ 63 ≤ d).
Definition dmag (d : double) : Z := d `mod` 2 ^ 63.
Definition is_nan (d : double) : bool := bool_decide (2047 * 2 ^ 52 < dmag d).

(** The number a pattern stands for. *)
Definition SF_of (d : double) : spec_float :=
  let s := dsign d in
  let ex := dmag d `div` 2 ^ 52 in
  let man := dmag d `mod` 2 ^ 52 in
  if decide (ex = 2047) then
    (if decide (man = 0) then S754_infinity s else S754_nan)
  else if decide (ex = 0) then
    (if decide (man = 0) then S754_zero s
     else S754_finite s (Z.to_pos man) (-1074))
  else S754_finite s (Z.to_pos (man + 2 ^ 52)) (ex - 1075).

Definition sign_bit (s : bool) : Z := if s then 2 ^ 63 else 0.

(** The 64-bit pattern of a number; NaN is the default quiet NaN. *)
Definition bits_of (f : spec_float) : double :=
  wrap64 match f with
  | S754_zero s => sign_bit s
  | S754_infinity s => sign_bit s + 2047 * 2 ^ 52
  | S754_nan => 4095 * 2 ^ 51
  | S754_finite s m e =>
      sign_bit s +
      (if decide (Zpos m < 2 ^ 52) then Zpos m
       else (e + 1075) * 2 ^ 52 + (Zpos m - 2 ^ 52))
  end.

Definition dcompare (a b : double) : option comparison :=
  SFcompare (SF_of a) (SF_of b).
Definition dltb (a b : double) : bool := SFltb (SF_of a) (SF_of b).
Definition dgtb (a b : double) : bool := dltb b a.
Definition deqb (a b : double) : bool := SFeqb (SF_of a) (SF_of b).
Definition dleb (a b : double) : bool := SFleb (SF_of a) (SF_of b).

Definition dadd (a b : double) : double := bits_of (SFadd 53 1024 (SF_of a) (SF_of b)).
Definition dsub (a b : double) : double := bits_of (SFsub 53 1024 (SF_of a) (SF_of b)).
Definition dmul (a b : double) : double := bits_of (SFmul 53 1024 (SF_of a) (SF_of b)).
Definition ddiv (a b : double) : double := bits_of (SFdiv 53 1024 (SF_of a) (SF_of b)).
Definition dopp (a : double) : double :=
  if dsign a then a - 2 ^ 63 else a + 2 ^ 63.

Definition dzero : double := 0.
Definition done_ : double := 1023 * 2 ^ 52.

(** [static_cast<double>(z)] for an [int64_t]: round to nearest, ties to even.
    The rounded significand is added to the exponent field, so a carry out of
    the significand increments the exponent. *)
Definition pos_bits (a : Z) : Z :=
  let l := Z.log2 a in
  if decide (l ≤ 52) then (l + 1023) * 2 ^ 52 + (a * 2 ^ (52 - l) - 2 ^ 52)
  else
    let h := 2 ^ (l - 52) in
    let q := a `div` h in
    let r := a `mod` h in
    let up := if decide (h < 2 * r ∨ (2 * r = h ∧ Z.odd q = true))
              then 1 else 0 in
    (l + 1023) * 2 ^ 52 + (q + up - 2 ^ 52).

Definition of_int (z : Z) : double :=
  if decide (z = 0) then 0
  else sign_bit (bool_decide (z < 0)) + pos_bits (Z.abs z).

(** [static_cast<int64_t>(d)]: truncation toward zero, [None] where the C++
    conversion is undefined (NaN, infinity, out of range). *)
Definition to_int (d : double) : option Z :=
  match SF_of d with
  | S754_zero _ => Some 0
  | S754_finite s m e =>
      let a := if decide (0 ≤ e) then Zpos m * 2 ^ e else Zpos m `div` 2 ^ (- e) in
      let z := if s then - a else a in
      if decide (i64 z) then Some z else None
  | _ => None
  end.

(** ** The integer key of a double *)

Definition dkey (d : double) : Z := if dsign d then - dmag d else dmag d.

Lemma dmag_range d : 0 ≤ dmag d < 2 ^ 63.
Proof. apply Z.mod_pos_bound. lia. Qed.

Lemma compare_lex (b x1 y1 x2 y2 : Z) :
  0 ≤ y1 < b → 0 ≤ y2 < b →
  (x1 * b + y1 ?= x2 * b + y2) =
  match x1 ?= x2 with Eq => y1 ?= y2 | c => c end.
Proof.
  intros H1 H2. destruct (Z.compare_spec x1 x2) as [->|Hlt|Hgt].
  - destruct (Z.compare_spec y1 y2);
      [apply Z.compare_eq_iff|apply Z.compare_lt_iff|apply Z.compare_gt_iff]; lia.
  - apply Z.compare_lt_iff. nia.
  - apply Z.compare_gt_iff. nia.
Qed.

(** The comparison of two finite positive patterns is the one of the patterns. *)
Definition finite_exp (mag : Z) : Z := Z.max 1 (mag `div` 2 ^ 52).
Definition finite_man (mag : Z) : Z :=
  if decide (mag `div` 2 ^ 52 = 0) then mag `mod` 2 ^ 52
  else mag `mod` 2 ^ 52 + 2 ^ 52.

Lemma finite_mag mag :
  0 ≤ mag → mag = (finite_exp mag - 1) * 2 ^ 52 + finite_man mag.
Proof.
  intros Hm. unfold finite_exp, finite_man.
  pose proof (Z.div_mod mag (2 ^ 52) ltac:(lia)) as Hd.
  pose proof (Z.div_pos mag (2 ^ 52) ltac:(lia) ltac:(lia)).
  case_decide; lia.
Qed.

Lemma compare_mag m1 m2 :
  0 ≤ m1 → 0 ≤ m2 →
  (m1 ?= m2) =
  match finite_exp m1 ?= finite_exp m2 with
  | Eq => finite_man m1 ?= finite_man m2
  | c => c
  end.
Proof.
  intros H1 H2.
  pose proof (Z.mod_pos_bound m1 (2 ^ 52) ltac:(lia)).
  pose proof (Z.mod_pos_bound m2 (2 ^ 52) ltac:(lia)).
  pose proof (Z.div_pos m1 (2 ^ 52) ltac:(lia) ltac:(lia)).
  pose proof (Z.div_pos m2 (2 ^ 52) ltac:(lia) ltac:(lia)).
  rewrite (finite_mag m1 H1) at 1. rewrite (finite_mag m2 H2) at 1.
  destruct (Z.compare_spec (finite_exp m1) (finite_exp m2)) as [->|Hlt|Hgt].
  - destruct (Z.compare_spec (finite_man m1) (finite_man m2));
      [apply Z.compare_eq_iff|apply Z.compare_lt_iff|apply Z.compare_gt_iff]; lia.
  - apply Z.compare_lt_iff. revert Hlt. unfold finite_exp, finite_man.
    repeat case_decide; lia.
  - apply Z.compare_gt_iff. revert Hgt. unfold finite_exp, finite_man.
    repeat case_decide; lia.
Qed.

(** The four classes of patterns, with the magnitude of each. *)
Inductive SF_class (d : double) : spec_float → Prop :=
  | Class_zero : dmag d = 0 → SF_class d (S754_zero (dsign d))
  | Class_infinity :
      dmag d = 2047 * 2 ^ 52 → SF_class d (S754_infinity (dsign d))
  | Class_nan : 2047 * 2 ^ 52 < dmag d → SF_class d S754_nan
  | Class_finite :
      0 < dmag d < 2047 * 2 ^ 52 → 0 < finite_man (dmag d) →
      SF_class d
        (S754_finite (dsign d) (Z.to_pos (finite_man (dmag d)))
           (finite_exp (dmag d) - 1075)).

Lemma SF_of_class d : SF_class d (SF_of d).
Proof.
  pose proof (dmag_range d) as Hm. unfold SF_of.
  pose proof (Z.div_mod (dmag d) (2 ^ 52) ltac:(lia)) as Hd.
  pose proof (Z.mod_pos_bound (dmag d) (2 ^ 52) ltac:(lia)).
  pose proof (Z.div_pos (dmag d) (2 ^ 52) ltac:(lia) ltac:(lia)).
  assert (dmag d `div` 2 ^ 52 < 2048) by (apply Z.div_lt_upper_bound; lia).
  repeat case_decide.
  - apply Class_infinity. lia.
  - apply Class_nan. lia.
  - apply Class_zero. lia.
  - replace (dmag d `mod` 2 ^ 52) with (finite_man (dmag d))
      by (unfold finite_man; rewrite decide_True; done).
    replace (-1074) with (finite_exp (dmag d) - 1075) by (unfold finite_exp; lia).
    apply Class_finite; [lia|]. unfold finite_man. rewrite decide_True by done. lia.
  - replace (dmag d `mod` 2 ^ 52 + 2 ^ 52) with (finite_man (dmag d))
      by (unfold finite_man; rewrite decide_False; done).
    replace (dmag d `div` 2 ^ 52) with (finite_exp (dmag d)) by (unfold finite_exp; lia).
    apply Class_finite; [lia|]. unfold finite_man. rewrite decide_False by done. lia.
Qed.

Lemma is_nan_false d : is_nan d = false ↔ dmag d ≤ 2047 * 2 ^ 52.
Proof. unfold is_nan. rewrite bool_decide_eq_false. lia. Qed.

Lemma pos_compare_Z m1 m2 :
  0 < m1 → 0 < m2 →
  Pos.compare_cont Eq (Z.to_pos m1) (Z.to_pos m2) = (m1 ?= m2).
Proof.
  intros H1 H2. rewrite <- (Z2Pos.id m1) at 2 by done.
  rewrite <- (Z2Pos.id m2) at 2 by done. done.
Qed.

(** Close a goal [c = (x ?= y)] by comparing [x] and [y] with [lia]. *)
Ltac by_compare :=
  symmetry; first
    [ apply Z.compare_eq_iff; lia
    | apply Z.compare_lt_iff; lia
    | apply Z.compare_gt_iff; lia ].

(** Comparing non-NaN doubles is comparing their keys. *)
Lemma dcompare_key a b :
  is_nan a = false → is_nan b = false →
  dcompare a b = Some (dkey a ?= dkey b).
Proof.
  intros Ha%is_nan_false Hb%is_nan_false.
  unfold dcompare, dkey. pose proof (dmag_range a). pose proof (dmag_range b).
  destruct (SF_of_class a); destruct (SF_of_class b); try lia;
    destruct (dsign a), (dsign b); cbn [SFcompare]; f_equal; try by_compare.
  all: rewrite ?pos_compare_Z by done.
  all: rewrite ?Z.compare_opp, (compare_mag (dmag _) (dmag _)) by lia.
  all: rewrite <- ?(Z.compare_antisym (finite_man _)).
  all: destruct (Z.compare_spec (finite_exp (dmag a) - 1075) (finite_exp (dmag b) - 1075)),
    (Z.compare_spec (finite_exp (dmag a)) (finite_exp (dmag b))); try lia; try done.
  all: rewrite (Z.compare_antisym (finite_exp (dmag a))).
  all: by_compare || (destruct (Z.compare_spec (finite_exp (dmag a)) (finite_exp (dmag b))); try lia; done).
Qed.

Lemma dltb_key a b :
  is_nan a = false → is_nan b = false → dltb a b = (dkey a <? dkey b).
Proof.
  intros Ha Hb. unfold dltb, SFltb. fold (dcompare a b).
  rewrite dcompare_key by done. unfold Z.ltb. by destruct (_ ?= _).
Qed.

Lemma deqb_key a b :
  is_nan a = false → is_nan b = false → deqb a b = (dkey a =? dkey b).
Proof.
  intros Ha Hb. unfold deqb, SFeqb. fold (dcompare a b).
  rewrite dcompare_key, Z.eqb_compare by done. by destruct (_ ?= _).
Qed.

Lemma dcompare_nan a b : is_nan a = true ∨ is_nan b = true → dcompare a b = None.
Proof.
  unfold is_nan. rewrite !bool_decide_eq_true.
  unfold dcompare. destruct (SF_of_class a), (SF_of_class b); intros [?|?];
    done || lia.
Qed.

(** ** Conversion from integers *)

Lemma pos_bits_bounds a :
  0 < a →
  (Z.log2 a + 1023) * 2 ^ 52 ≤ pos_bits a ≤ (Z.log2 a + 1024) * 2 ^ 52.
Proof.
  intros Ha. unfold pos_bits. pose proof (Z.log2_spec a Ha) as [Hlo Hhi].
  rewrite Z.pow_succ_r in Hhi by apply Z.log2_nonneg.
  pose proof (Z.log2_nonneg a). case_decide.
  - assert (2 ^ 52 = 2 ^ Z.log2 a * 2 ^ (52 - Z.log2 a)) as Hp
      by (rewrite <- Z.pow_add_r by lia; f_equal; lia).
    assert (0 < 2 ^ (52 - Z.log2 a)) by (apply pow2_pos; lia). nia.
  - assert (2 ^ Z.log2 a = 2 ^ 52 * 2 ^ (Z.log2 a - 52)) as Hp
      by (rewrite <- Z.pow_add_r by lia; f_equal; lia).
    set (h := 2 ^ (Z.log2 a - 52)) in *.
    assert (0 < h) by (apply pow2_pos; lia).
    assert (2 ^ 52 ≤ a `div` h) by (apply Z.div_le_lower_bound; nia).
    assert (a `div` h < 2 ^ 53) by (apply Z.div_lt_upper_bound; nia).
    case_decide; nia.
Qed.

Lemma log2_i64 z : z ≠ 0 → i64 z → 0 ≤ Z.log2 (Z.abs z) ≤ 63.
Proof.
  intros Hz [Hl Hh]. split; [apply Z.log2_nonneg|].
  change 63 with (Z.log2 (2 ^ 63)). apply Z.log2_le_mono. lia.
Qed.

(** Where the pattern of an integer lands. *)
Lemma of_int_shape z :
  i64 z → z ≠ 0 →
  dsign (of_int z) = bool_decide (z < 0) ∧
  dmag (of_int z) = pos_bits (Z.abs z) ∧
  0 < pos_bits (Z.abs z) < 2047 * 2 ^ 52.
Proof.
  intros Hz Hnz. pose proof (pos_bits_bounds (Z.abs z) ltac:(lia)) as Hb.
  pose proof (log2_i64 z Hnz Hz) as Hl.
  assert (0 < pos_bits (Z.abs z) < 2047 * 2 ^ 52) as Hp by lia.
  unfold of_int, dsign, dmag. rewrite decide_False by done.
  destruct (decide (z < 0)); [rewrite (bool_decide_eq_true_2 (z < 0)) by done
    |rewrite (bool_decide_eq_false_2 (z < 0)) by done]; unfold sign_bit; split_and!; try lia.
  - apply bool_decide_eq_true_2. lia.
  - rewrite <- Z.add_mod_idemp_l by lia. rewrite Z.mod_same by lia.
    apply Z.mod_small. lia.
  - apply bool_decide_eq_false_2. lia.
  - apply Z.mod_small. lia.
Qed.

Lemma of_int_not_nan z : i64 z → is_nan (of_int z) = false.
Proof.
  intros Hz. apply is_nan_false. destruct (decide (z = 0)) as [->|Hnz].
  - unfold of_int. rewrite decide_True by done. vm_compute. discriminate.
  - destruct (of_int_shape z Hz Hnz) as (_ & -> & ?). lia.
Qed.

Lemma of_int_u64 z : i64 z → u64 (of_int z).
Proof.
  intros Hz. unfold of_int, uint. case_decide; [lia|].
  pose proof (of_int_shape z Hz ltac:(done)) as (_ & _ & Hb).
  unfold sign_bit. case_bool_decide; lia.
Qed.

Lemma dkey_of_int z :
  i64 z →
  dkey (of_int z) =
  if decide (z = 0) then 0 else Z.sgn z * pos_bits (Z.abs z).
Proof.
  intros Hz. case_decide as Hz0.
  - unfold of_int. by rewrite decide_True.
  - destruct (of_int_shape z Hz Hz0) as (Hs & Hm & Hp). unfold dkey.
    rewrite Hs, Hm. case_bool_decide; [rewrite Z.sgn_neg|rewrite Z.sgn_pos]; lia.
Qed.

(** Below 2^53 the conversion is exact, hence strictly increasing. *)
Lemma pos_bits_mono a b :
  0 < a < b → b ≤ 2 ^ 53 → pos_bits a < pos_bits b.
Proof.
  intros [Ha Hab] Hb.
  pose proof (pos_bits_bounds a ltac:(lia)). pose proof (pos_bits_bounds b ltac:(lia)).
  assert (Z.log2 a ≤ Z.log2 b) as [Hlt|Heq]%Z.lt_eq_cases by (apply Z.log2_le_mono; lia).
  - assert (Z.log2 a ≤ 52) as H52.
    { assert (Z.log2 b ≤ 53); [|lia]. change 53 with (Z.log2 (2 ^ 53)).
      by apply Z.log2_le_mono. }
    assert (pos_bits a < (Z.log2 a + 1024) * 2 ^ 52); [|nia].
    unfold pos_bits. rewrite decide_True by done.
    pose proof (Z.log2_spec a Ha) as [_ Hhi]. pose proof (Z.log2_nonneg a).
    assert (2 ^ 53 = 2 ^ Z.succ (Z.log2 a) * 2 ^ (52 - Z.log2 a)) as Hp
      by (rewrite <- Z.pow_add_r by lia; f_equal; lia).
    assert (0 < 2 ^ (52 - Z.log2 a)) by (apply pow2_pos; lia). nia.
  - assert (Z.log2 a ≤ 52) as H52.
    { destruct (decide (b = 2 ^ 53)) as [->|]; [|
        enough (Z.log2 b < 53) by lia; apply Z.log2_lt_pow2; lia].
      assert (Z.log2 a < 53) by (apply Z.log2_lt_pow2; lia). lia. }
    unfold pos_bits. rewrite <- Heq, !decide_True by done.
    assert (0 < 2 ^ (52 - Z.log2 a)) by (apply pow2_pos; lia). nia.
Qed.

Lemma dkey_of_int_mono a b :
  - 2 ^ 53 ≤ a → a < b → b ≤ 2 ^ 53 → dkey (of_int a) < dkey (of_int b).
Proof.
  intros Ha Hab Hb. rewrite !dkey_of_int by (unfold sint; lia).
  assert (∀ z, 0 < z ≤ 2 ^ 53 → 0 < pos_bits z) as Hpos.
  { intros z Hz. pose proof (pos_bits_bounds z ltac:(lia)).
    pose proof (Z.log2_nonneg z). lia. }
  repeat case_decide; subst; try lia.
  - pose proof (Hpos b). rewrite Z.sgn_pos, Z.abs_eq; lia.
  - pose proof (Hpos (- a)). rewrite Z.sgn_neg, Z.abs_neq; lia.
  - destruct (decide (0 < a)), (decide (b < 0));
      rewrite ?(Z.sgn_pos a), ?(Z.sgn_neg a), ?(Z.sgn_pos b), ?(Z.sgn_neg b),
        ?(Z.abs_eq a), ?(Z.abs_eq b), ?(Z.abs_neq a), ?(Z.abs_neq b) by lia.
    + lia.
    + pose proof (pos_bits_mono a b). lia.
    + pose proof (pos_bits_mono (- b) (- a)). lia.
    + pose proof (Hpos (- a)). pose proof (Hpos b). lia.
Qed.

#[export] Hint Resolve of_int_not_nan of_int_u64 : machine.

(** ** The operations give 64-bit patterns *)

Lemma bits_of_u64 f : u64 (bits_of f).
Proof. by apply wrap_uint. Qed.

Lemma dopp_u64 a : u64 a → u64 (dopp a).
Proof. unfold dopp, dsign, uint. intros Ha. case_bool_decide; lia. Qed.
