(* ===== verification/Format.v ===== *)
(** Numbers as text, as the C++ standard library prints and reads them:
    [std::to_string] of the integer types and of [double] ("%f"), [operator<<]
    of a [double] at a given precision ("%g"), and the decimal readers
    [std::stoull], [std::stoll] and [std::stod] on the digit strings the lexer
    and the catalog reader hand them. *)

From S2P Require Import Prelude.
From S2P Require Import Double.

(** * Decimal integers *)

Definition digit_char (d : Z) : ascii := ascii_of_N (48 + Z.to_N d).
Definition digit_value (c : ascii) : Z := code c - 48.

Fixpoint dec_digits (fuel : nat) (n : Z) (acc : string) : string :=
  match fuel with
  | O => acc
  | S fuel' =>
      let acc := String (digit_char (n `mod` 10)) acc in
      if n <? 10 then acc else dec_digits fuel' (n `div` 10) acc
  end.

(** [std::to_string] of an unsigned integer. *)
Definition dec_unsigned (n : Z) : string :=
  dec_digits (S (Z.to_nat (Z.log2 n))) n "".

(** [std::to_string] of a signed integer. *)
Definition dec_signed (z : Z) : string :=
  if z <? 0 then String "-" (dec_unsigned (- z)) else dec_unsigned z.

Fixpoint dec_value_from (acc : Z) (s : string) : Z :=
  match s with
  | EmptyString => acc
  | String c s' => dec_value_from (acc * 10 + digit_value c) s'
  end.
Definition dec_value (s : string) : Z := dec_value_from 0 s.

Fixpoint all_chars (p : ascii → bool) (s : string) : bool :=
  match s with
  | EmptyString => true
  | String c s' => p c && all_chars p s'
  end.
Definition all_digits (s : string) : bool := all_chars isdigit s.

(** [std::stoull] and [std::stoll] on a non-empty digit string. *)
Definition stoull (s : string) : exec Z :=
  if decide (dec_value s < 2 ^ 64) then Ok (dec_value s)
  else Err (Throw "stoull").
Definition stoll (s : string) : exec Z :=
  if decide (dec_value s < 2 ^ 63) then Ok (dec_value s)
  else Err (Throw "stoll").

Lemma all_chars_app p s t : all_chars p (s +:+ t) = all_chars p s && all_chars p t.
Proof.
  induction s as [|c s IH]; [done|]. rewrite string_app_cons. cbn. rewrite IH.
  apply andb_assoc.
Qed.

Lemma all_chars_impl (p q : ascii → bool) s :
  (∀ c, p c = true → q c = true) → all_chars p s = true → all_chars q s = true.
Proof.
  intros Hpq. induction s as [|c s IH]; [done|]. cbn.
  intros [Hc Hs]%andb_prop. by rewrite Hpq, IH.
Qed.

Lemma digit_char_value d : 0 ≤ d < 10 → digit_value (digit_char d) = d.
Proof.
  intros Hd. unfold digit_value, digit_char, code.
  rewrite N_ascii_embedding by lia. lia.
Qed.

Lemma digit_char_isdigit d : 0 ≤ d < 10 → isdigit (digit_char d) = true.
Proof.
  intros Hd. unfold isdigit, in_range, digit_char, code.
  rewrite !N_ascii_embedding by lia. apply andb_true_intro.
  split; apply Z.leb_le; change (N_of_ascii "0") with 48%N;
    change (N_of_ascii "9") with 57%N; lia.
Qed.

Lemma dec_digits_spec fuel n acc :
  0 ≤ n < 2 ^ Z.of_nat fuel →
  ∃ s, dec_digits fuel n acc = (s +:+ acc) ∧ all_digits s = true ∧
       (fuel ≠ O → s ≠ "") ∧ ∀ a, ∃ p, dec_value_from a s = a * p + n.
Proof.
  revert n acc. induction fuel as [|fuel IH]; intros n acc Hn.
  - exists "". repeat split; try done. intros a. exists 1. simpl in *. lia.
  - rewrite Nat2Z.inj_succ, Z.pow_succ_r in Hn by lia. cbn [dec_digits].
    pose proof (Z.mod_pos_bound n 10 ltac:(lia)).
    destruct (Z.ltb_spec n 10) as [Hlt|Hge].
    + exists (String (digit_char (n `mod` 10)) ""). split; [done|]. simpl.
      unfold all_digits. simpl. rewrite digit_char_isdigit by done.
      split; [done|]. split; [done|]. intros a. exists 10.
      rewrite digit_char_value, Z.mod_small by lia. lia.
    + destruct (IH (n `div` 10) (String (digit_char (n `mod` 10)) acc))
        as (s & -> & Hs & _ & Hv).
      { split; [apply Z.div_pos; lia|]. apply Z.div_lt_upper_bound; lia. }
      exists (s +:+ String (digit_char (n `mod` 10)) "").
      split; [|split; [|split]].
      * by rewrite string_app_assoc.
      * clear Hv. unfold all_digits in *. induction s as [|c s IHs]; simpl in *.
        -- by rewrite digit_char_isdigit.
        -- apply andb_prop in Hs as [-> Hs]. auto.
      * intros _. by destruct s.
      * intros a. destruct (Hv a) as [p Hp]. exists (p * 10).
        assert (∀ t b, dec_value_from b (t +:+ String (digit_char (n `mod` 10)) "")
                       = dec_value_from b t * 10 + n `mod` 10) as ->.
        { clear -H. induction t as [|c t IHt]; intros b.
          - rewrite string_app_nil_l. simpl. by rewrite digit_char_value.
          - rewrite string_app_cons. apply IHt. }
        rewrite Hp. pose proof (Z.div_mod n 10 ltac:(lia)). lia.
Qed.

Lemma log2_fuel n : 0 ≤ n → n < 2 ^ Z.of_nat (S (Z.to_nat (Z.log2 n))).
Proof.
  intros Hn. rewrite Nat2Z.inj_succ, Z2Nat.id by apply Z.log2_nonneg.
  destruct (decide (n = 0)) as [->|]; [done|]. apply Z.log2_spec. lia.
Qed.

(** Printing then reading an unsigned integer. *)
Lemma dec_value_unsigned n : 0 ≤ n → dec_value (dec_unsigned n) = n.
Proof.
  intros Hn. unfold dec_unsigned.
  destruct (dec_digits_spec _ n "" (conj Hn (log2_fuel n Hn))) as (s & -> & _ & _ & Hv).
  destruct (Hv 0) as [p Hp]. unfold dec_value.
  rewrite string_app_nil_r. lia.
Qed.

Lemma dec_unsigned_digits n :
  0 ≤ n → all_digits (dec_unsigned n) = true ∧ dec_unsigned n ≠ "".
Proof.
  intros Hn. unfold dec_unsigned.
  destruct (dec_digits_spec _ n "" (conj Hn (log2_fuel n Hn))) as (s & -> & Hs & Hne & _).
  rewrite string_app_nil_r. auto.
Qed.

(** * Doubles *)

Definition round_div_even (n d : Z) : Z :=
  let q := n `div` d in
  let r := n `mod` d in
  if decide (d < 2 * r ∨ (2 * r = d ∧ Z.odd q = true)) then q + 1 else q.

Fixpoint zeros (n : nat) : string :=
  match n with O => "" | S n' => String "0" (zeros n') end.

Definition pad_left (n : nat) (s : string) : string :=
  zeros (n - String.length s) +:+ s.

Fixpoint strip_zeros (s : string) : string :=
  match s with
  | EmptyString => EmptyString
  | String c s' =>
      match strip_zeros s' with
      | EmptyString => if ascii_dec c "0" then EmptyString else String c ""
      | t => String c t
      end
  end.

(** The largest [k] with [10^k <= num/den], for [num, den > 0]. *)
Fixpoint log10_up (fuel : nat) (k num den : Z) : Z :=
  match fuel with
  | O => k
  | S f => if 10 * den <=? num then log10_up f (k + 1) num (den * 10) else k
  end.
Fixpoint log10_down (fuel : nat) (k num den : Z) : Z :=
  match fuel with
  | O => k
  | S f => if num <? den then log10_down f (k - 1) (num * 10) den else k
  end.
Definition log10_floor (num den : Z) : Z :=
  if num <? den then log10_down 400 0 num den else log10_up 400 0 num den.

Definition scale10 (num den k : Z) : Z :=
  if 0 <=? k then round_div_even (num * 10 ^ k) den
  else round_div_even num (den * 10 ^ (- k)).

Definition ratio_of (m : positive) (e : Z) : Z * Z :=
  if 0 <=? e then (Zpos m * 2 ^ e, 1) else (Zpos m, 2 ^ (- e)).

Definition with_point (int_part frac : string) : string :=
  match frac with
  | EmptyString => int_part
  | _ => int_part +:+ "." +:+ frac
  end.

Definition take_string (n : nat) (s : string) : string := String.substring 0 n s.
Definition drop_string (n : nat) (s : string) : string :=
  String.substring n (String.length s - n) s.

Definition exponent_text (x : Z) : string :=
  (if x <? 0 then "e-" else "e+") +:+ pad_left 2 (dec_unsigned (Z.abs x)).

(** "%.<prec>g" of a positive number. *)
Definition format_g_pos (prec : Z) (num den : Z) : string :=
  let x0 := log10_floor num den in
  let d0 := scale10 num den (prec - 1 - x0) in
  let '(d, x) :=
    if decide (d0 = 10 ^ prec) then (10 ^ (prec - 1), x0 + 1) else (d0, x0) in
  let digits := dec_unsigned d in
  if decide (-4 ≤ x ∧ x < prec) then
    if 0 <=? x then
      with_point (take_string (Z.to_nat (x + 1)) digits)
        (strip_zeros (drop_string (Z.to_nat (x + 1)) digits))
    else with_point "0" (strip_zeros (zeros (Z.to_nat (- x - 1)) +:+ digits))
  else
    with_point (take_string 1 digits) (strip_zeros (drop_string 1 digits))
      +:+ exponent_text x.

Definition sign_text (s : bool) : string := if s then "-" else "".

(** [out << std::setprecision(prec) << d]; the stream default is 6. *)
Definition format_g (prec : Z) (d : double) : string :=
  match SF_of d with
  | S754_zero s => sign_text s +:+ "0"
  | S754_infinity s => sign_text s +:+ "inf"
  | S754_nan => sign_text (dsign d) +:+ "nan"
  | S754_finite s m e =>
      let '(num, den) := ratio_of m e in
      sign_text s +:+ format_g_pos prec num den
  end.

(** [std::to_string(double)]: "%f". *)
Definition format_f (d : double) : string :=
  match SF_of d with
  | S754_zero s => sign_text s +:+ "0.000000"
  | S754_infinity s => sign_text s +:+ "inf"
  | S754_nan => sign_text (dsign d) +:+ "nan"
  | S754_finite s m e =>
      let '(num, den) := ratio_of m e in
      let v := scale10 num den 6 in
      sign_text s +:+ dec_unsigned (v `div` 10 ^ 6) +:+ "." +:+
        pad_left 6 (dec_unsigned (v `mod` 10 ^ 6))
  end.

(** ** [std::stod] on digits[.digits][(e|E)[+|-]digits] *)

Fixpoint span_digits (s : string) : string * string :=
  match s with
  | EmptyString => ("", "")
  | String c s' =>
      if isdigit c then let '(a, b) := span_digits s' in (String c a, b)
      else ("", s)
  end.

Definition read_exponent (s : string) : Z :=
  match s with
  | String c s' =>
      if ascii_dec c "-" then - dec_value s'
      else if ascii_dec c "+" then dec_value s'
      else dec_value s
  | EmptyString => 0
  end.

Definition stod (s : string) : exec double :=
  let '(ip, rest) := span_digits s in
  let '(fp, rest) :=
    match rest with
    | String c r => if ascii_dec c "." then span_digits r else ("", rest)
    | EmptyString => ("", "")
    end in
  let e10 := match rest with String _ r => read_exponent r | EmptyString => 0 end in
  let m := dec_value (ip +:+ fp) in
  let k := e10 - Z.of_nat (String.length fp) in
  match m with
  | Zpos p =>
      let '(num, den) := if 0 <=? k then (m * 10 ^ k, 1) else (m, 10 ^ (- k)) in
      let f := SFdiv 53 1024 (S754_finite false (Z.to_pos num) 0)
                 (S754_finite false (Z.to_pos den) 0) in
      let tiny :=
        match f with
        | S754_zero _ => true
        | S754_finite _ q e =>
            let '(n2, d2) := ratio_of q e in
            (Zpos q <? 2 ^ 52) && negb (num * d2 =? n2 * den)
        | _ => false
        end in
      let d := bits_of f in
      if is_nan d || (dmag d =? 2047 * 2 ^ 52) || tiny
      then Err (Throw "stod") else Ok d
  | _ => Ok 0
  end.

(** ** Runs of digits *)

Lemma dec_value_from_nonneg s a :
  all_digits s = true → 0 ≤ a → 0 ≤ dec_value_from a s.
Proof.
  revert a. induction s as [|c s IH]; intros a Hs Ha; [done|].
  unfold all_digits in *. cbn in *. apply andb_prop in Hs as [Hc Hs].
  apply IH; [done|]. unfold isdigit, in_range in Hc. unfold digit_value.
  change (code "0") with 48 in Hc. lia.
Qed.

Lemma span_digits_all s t : span_digits s = (t, "") ↔ s = t ∧ all_digits s = true.
Proof.
  revert t. unfold all_digits. induction s as [|c s IH]; intros t; cbn.
  { split; [intros [= <-]; done|]. by intros [<- _]. }
  destruct (isdigit c); cbn.
  - destruct (span_digits s) as [a b]. split.
    + intros [= <- ->]. destruct (proj1 (IH a) eq_refl) as [-> ?]. auto.
    + intros [<- Hs]. injection (proj2 (IH s) (conj eq_refl Hs)) as -> ->. done.
  - split; [intros [=]|]. by intros [_ ?].
Qed.

Lemma span_digits_fst s : all_digits (span_digits s).1 = true.
Proof.
  unfold all_digits. induction s as [|c s IH]; cbn; [done|].
  destruct (isdigit c) eqn:Hc; [|done].
  destruct (span_digits s). cbn in *. by rewrite Hc.
Qed.

Lemma digit_not_space c : isdigit c = true → isspace c = false.
Proof.
  intros Hc. enough (implb (isdigit c) (negb (isspace c)) = true) as H.
  { rewrite Hc in H. by destruct (isspace c). }
  clear Hc. by_all_ascii c.
Qed.

Example format_g_examples :
  (format_g 6 (of_int 42), format_g 6 (ddiv (of_int 1) (of_int 3)),
   format_g 15 (ddiv (of_int 1) (of_int 10)), format_g 6 (of_int 123456789),
   format_f (ddiv (of_int (-7)) (of_int 2)), ok_value (stod "0.1"), format_g 6 0)
  = ("42", "0.333333", "0.1", "1.23457e+08", "-3.500000",
     Some (ddiv (of_int 1) (of_int 10)), "0").
Proof. vm_compute. reflexivity. Qed.
