(* ===== verification/Config.v ===== *)
(** Constants and tunables: [src/skibidi_config.h] and [src/skibidi_config.cpp].
    The process environment is an argument; the [static const] locals of the
    code keep the first value read, so one environment describes a process. *)

From S2P Require Import Prelude.
From S2P Require Import Format.

Definition kPageSizeBytes : Z := 4096.
Definition kSlottedPageMagic : Z := 0x534B5047.
Definition kDefaultBufferPoolPages : Z := 1024.
Definition kDefaultCompilationCacheEntries : Z := 128.
Definition kDefaultMaxCompilationCacheBytes : Z := 4 * 1024 * 1024.
Definition kDefaultSqliteStatementCacheEntries : Z := 128.
Definition kEstimatedIndexLevelBytes : Z := 1024.
Definition kStatisticsBucketCount : Z := 16.
Definition kDefaultExactValueCountLimit : Z := 4096.
Definition kDenseGroupMaxDomainSpan : Z := 4096.
Definition kDefaultBloomMinimumBits : Z := 64.
Definition kDefaultBloomBitsPerValue : Z := 12.
Definition kDefaultVectorBatchRows : Z := 1024.
Definition kSnapshotSplitBuckets : Z := 100.
Definition kDefaultTrainSplitPercent : Z := 80.
Definition kDefaultValidationSplitPercent : Z := 10.

(** ** [std::strtoull(raw, &end, 10)]

    White space, an optional sign and the longest run of digits.  The result is
    [None] when no digit was read ([end = raw]), else the value, whether
    [errno] was set, and the text [end] points to.  A minus sign negates the
    value modulo [2^64]. *)

Fixpoint skip_space (s : string) : string :=
  match s with
  | String c s' => if isspace c then skip_space s' else s
  | EmptyString => s
  end.

Definition read_sign (s : string) : bool * string :=
  match s with
  | String "-" s' => (true, s')
  | String "+" s' => (false, s')
  | _ => (false, s)
  end.

Definition strtoull (s : string) : option (Z * bool * string) :=
  let '(negative, s) := read_sign (skip_space s) in
  match span_digits s with
  | (EmptyString, _) => None
  | (digits, rest) =>
      let v := dec_value digits in
      if decide (2 ^ 64 ≤ v) then Some (2 ^ 64 - 1, true, rest)
      else Some (if negative then wrap64 (- v) else v, false, rest)
  end.

Definition readEnvSizeT (raw : option string) (fallback minimum : Z) : Z :=
  match raw with
  | None | Some EmptyString => fallback
  | Some raw =>
      match strtoull raw with
      | Some (value, false, EmptyString) =>
          if value <? minimum then minimum else value
      | _ => fallback
      end
  end.

Section Tunables.
Context (getenv : string → option string).

Definition defaultBufferPoolPages : Z :=
  readEnvSizeT (getenv "SKIBIDI_BUFFER_PAGES") kDefaultBufferPoolPages 1.
Definition defaultCompilationCacheEntries : Z :=
  readEnvSizeT (getenv "SKIBIDI_CACHE_ENTRIES") kDefaultCompilationCacheEntries 1.
Definition defaultSqliteStatementCacheEntries : Z :=
  readEnvSizeT (getenv "SKIBIDI_STATEMENT_CACHE_ENTRIES")
    kDefaultSqliteStatementCacheEntries 1.
Definition bloomMinimumBits : Z :=
  readEnvSizeT (getenv "SKIBIDI_BLOOM_MIN_BITS") kDefaultBloomMinimumBits 1.
Definition bloomBitsPerValue : Z :=
  readEnvSizeT (getenv "SKIBIDI_BLOOM_BITS_PER_VALUE") kDefaultBloomBitsPerValue 1.
Definition exactValueCountLimit : Z :=
  readEnvSizeT (getenv "SKIBIDI_EXACT_VALUE_COUNT_LIMIT")
    kDefaultExactValueCountLimit 0.
Definition vectorBatchRows : Z :=
  readEnvSizeT (getenv "SKIBIDI_VECTOR_BATCH_ROWS") kDefaultVectorBatchRows 1.
End Tunables.

(** ** Lemmas *)

Lemma strtoull_u64 s v e r : strtoull s = Some (v, e, r) → u64 v.
Proof.
  unfold strtoull. destruct (read_sign _) as [neg t].
  pose proof (span_digits_fst t) as Hd.
  destruct (span_digits t) as [[|c d] rest]; [done|].
  case_decide as Hv; [by intros [= <- _ _]|].
  pose proof (dec_value_from_nonneg (String c d) 0 Hd ltac:(lia)).
  destruct neg; intros [= <- _ _]; [by apply wrap_uint|].
  unfold dec_value in *. split; lia.
Qed.

Lemma readEnvSizeT_u64 raw fallback minimum :
  u64 fallback → u64 minimum → u64 (readEnvSizeT raw fallback minimum).
Proof.
  intros Hf Hm. unfold readEnvSizeT.
  destruct raw as [[|c s]|]; [done| |done].
  destruct (strtoull _) as [[[v []] [|? ?]]|] eqn:E; try done.
  apply strtoull_u64 in E. by destruct (_ <? _).
Qed.

Lemma digit_no_sign c s :
  isdigit c = true → read_sign (String c s) = (false, String c s).
Proof.
  intros Hc. unfold read_sign.
  destruct c as [[] [] [] [] [] [] [] []]; done.
Qed.

Lemma readEnvSizeT_dec n fallback minimum :
  0 ≤ n →
  readEnvSizeT (Some (dec_unsigned n)) fallback minimum =
    if decide (2 ^ 64 ≤ n) then fallback
    else if n <? minimum then minimum else n.
Proof.
  intros Hn. destruct (dec_unsigned_digits n Hn) as [Hd Hne].
  pose proof (dec_value_unsigned n Hn) as Hv.
  destruct (dec_unsigned n) as [|c s] eqn:E; [done|].
  assert (isdigit c = true) as Hc.
  { unfold all_digits in Hd. cbn in Hd. by apply andb_prop in Hd as [? _]. }
  unfold readEnvSizeT, strtoull. cbn [skip_space].
  rewrite (digit_not_space c Hc), (digit_no_sign c s Hc).
  rewrite (proj2 (span_digits_all _ _) (conj eq_refl Hd)), Hv.
  by case_decide.
Qed.

(** A tunable is always a 64-bit number that is at least its minimum (or
    its default), whatever the environment holds; an unset, empty, malformed or
    out-of-range variable gives the default, and a variable that is the
    decimal text of a number [n] of at least the minimum gives [n]. *)
Theorem readEnvSizeT_spec raw fallback minimum :
  u64 fallback → u64 minimum → minimum ≤ fallback →
  u64 (readEnvSizeT raw fallback minimum) ∧
  minimum ≤ readEnvSizeT raw fallback minimum ∧
  (∀ n, minimum ≤ n → u64 n → raw = Some (dec_unsigned n) →
     readEnvSizeT raw fallback minimum = n) ∧
  (∀ n, 2 ^ 64 ≤ n → raw = Some (dec_unsigned n) →
     readEnvSizeT raw fallback minimum = fallback).
Proof.
  intros Hf Hm Hle. split; [by apply readEnvSizeT_u64|]. split; [|split].
  - unfold readEnvSizeT. destruct raw as [[|c s]|]; [done| |done].
    destruct (strtoull _) as [[[v []] [|? ?]]|]; try done.
    destruct (Z.ltb_spec v minimum); lia.
  - intros n Hn Hu ->. rewrite readEnvSizeT_dec by apply Hu.
    rewrite decide_False by (unfold uint in Hu; lia).
    destruct (Z.ltb_spec n minimum); lia.
  - intros n Hn ->. rewrite readEnvSizeT_dec by lia. by rewrite decide_True.
Qed.

Lemma readEnvSizeT_spec_witness :
  readEnvSizeT (Some (dec_unsigned 256)) kDefaultBufferPoolPages 1 = 256.
Proof.
  assert (u64 kDefaultBufferPoolPages) as Hf by (split; [done|reflexivity]).
  assert (u64 1) as Hm by (split; [done|reflexivity]).
  destruct (readEnvSizeT_spec (Some (dec_unsigned 256)) kDefaultBufferPoolPages 1
              Hf Hm ltac:(vm_compute; discriminate)) as (_ & _ & H & _).
  apply H; [lia|split; [done|reflexivity]|reflexivity].
Defined.
