(* ===== verification/Value.v ===== *)
(** Values of the native engine: class [Value] of [src/native_storage.h] and
    [src/native_storage.cpp].  The C++ variant is an inductive type with the
    constructors in variant order; the accessors return [Err] where the code
    throws.  [compare] is the order the B+ tree, the sorter and the min/max
    statistics use.  The file shows on which values it is a total preorder
    (instance [value_compare_order]), that [operator==] agrees with it there,
    and on which values it is not an order at all. *)

From S2P Require Import Prelude.
From S2P Require Import Hash.
From S2P Require Import Double.
From S2P Require Import Format.

Inductive ValueType : Type :=
  | Null | Integer | Real | Text | Boolean | Blob.

#[global] Instance ValueType_eq_dec : EqDecision ValueType.
Proof. solve_decision. Defined.

Definition ValueType_code (t : ValueType) : Z :=
  match t with
  | Null => 0 | Integer => 1 | Real => 2 | Text => 3 | Boolean => 4 | Blob => 5
  end.

Inductive Value : Type :=
  | VNull
  | VInteger (value : Z)
  | VReal (value : double)
  | VText (value : string)
  | VBoolean (value : bool)
  | VBlob (value : bytes).

#[global] Instance Value_eq_dec : EqDecision Value.
Proof. solve_decision. Defined.

Definition type (v : Value) : ValueType :=
  match v with
  | VNull => Null
  | VInteger _ => Integer
  | VReal _ => Real
  | VText _ => Text
  | VBoolean _ => Boolean
  | VBlob _ => Blob
  end.

Definition isNull (v : Value) : bool := bool_decide (type v = Null).

Definition isNumeric (v : Value) : bool :=
  bool_decide (type v = Integer) || bool_decide (type v = Real)
  || bool_decide (type v = Boolean).

Definition asInteger (v : Value) : exec Z :=
  match v with
  | VInteger z => Ok z
  | VReal d =>
      match to_int d with
      | Some z => Ok z
      | None => Err (Undefined "double to int64_t conversion out of range")
      end
  | VBoolean b => Ok (if b then 1 else 0)
  | _ => Err (Throw "Value is not numeric")
  end.

Definition asReal (v : Value) : exec double :=
  match v with
  | VReal d => Ok d
  | VInteger z => Ok (of_int z)
  | VBoolean b => Ok (if b then of_int 1 else of_int 0)
  | _ => Err (Throw "Value is not numeric")
  end.

Definition asBoolean (v : Value) : bool :=
  match v with
  | VNull => false
  | VBoolean b => b
  | VInteger z => negb (deqb (of_int z) dzero)
  | VReal d => negb (deqb d dzero)
  | VText s => negb (bool_decide (s = ""))
  | VBlob bs => negb (bool_decide (bs = []))
  end.

Definition asText (v : Value) : exec string :=
  match v with
  | VText s => Ok s
  | _ => Err (Throw "Value is not text")
  end.

Definition asBlob (v : Value) : exec bytes :=
  match v with
  | VBlob bs => Ok bs
  | _ => Err (Throw "Value is not a blob")
  end.

Definition hex_digit (n : Z) : ascii :=
  if n <? 10 then ascii_of_N (48 + Z.to_N n) else ascii_of_N (87 + Z.to_N n).

Definition hex_byte (b : byte) : string :=
  String (hex_digit (byte.unsigned b `div` 16))
    (String (hex_digit (byte.unsigned b `mod` 16)) "").

Definition toString (v : Value) : string :=
  match v with
  | VNull => "NULL"
  | VInteger z => dec_signed z
  | VReal d => format_g 15 d
  | VText s => s
  | VBoolean b => if b then "1" else "0"
  | VBlob bs => "0x" +:+ foldr (λ b s, hex_byte b +:+ s) "" bs
  end.

(** [operator==] *)
Definition value_eqb (a b : Value) : bool :=
  if isNull a || isNull b then isNull a && isNull b
  else
    match asReal a, asReal b with
    | Ok x, Ok y => deqb x y
    | _, _ => bool_decide (a = b)
    end.

Definition sign_of (c : comparison) : Z :=
  match c with Lt => -1 | Eq => 0 | Gt => 1 end.

Definition compare (a b : Value) : Z :=
  if isNull a || isNull b then
    if isNull a && isNull b then 0
    else if isNull a then -1 else 1
  else
    match asReal a, asReal b with
    | Ok l, Ok r => if dltb l r then -1 else if dgtb l r then 1 else 0
    | _, _ =>
        if decide (type a ≠ type b) then
          if ValueType_code (type a) <? ValueType_code (type b) then -1 else 1
        else
          match a, b with
          | VText x, VText y => sign_of (bytes_compare (bytes_of x) (bytes_of y))
          | VBlob x, VBlob y =>
              if bool_decide (x = y) then 0
              else match bytes_compare x y with Lt => -1 | _ => 1 end
          | _, _ => 0
          end
    end.

(** A column of values has one type and a boolean and a text never meet; a
    NaN is not ordered.  [well_ordered t] picks the values that may live
    together: [t] says whether texts or booleans are admitted. *)
Inductive family : Type := WithText | WithBoolean.

Definition well_ordered (f : family) (v : Value) : Prop :=
  match v with
  | VInteger z => i64 z
  | VReal d => is_nan d = false
  | VText _ => f = WithText
  | VBoolean _ => f = WithBoolean
  | _ => True
  end.

#[global] Instance well_ordered_dec f v : Decision (well_ordered f v).
Proof. destruct f, v; simpl; apply _ || (left; done) || (right; done). Defined.

(** The C++ representation of the numbers. *)
Definition scalar (v : Value) : Prop :=
  match v with
  | VInteger z => i64 z
  | VReal d => u64 d
  | _ => True
  end.

#[global] Instance scalar_dec v : Decision (scalar v).
Proof. destruct v; simpl; apply _ || (left; done). Defined.

Lemma asReal_u64 v d : scalar v → asReal v = Ok d → u64 d.
Proof.
  destruct v; cbn; try done.
  - intros Hz [= <-]. by apply of_int_u64.
  - by intros Hd [= <-].
  - intros _ [= <-]. destruct value; apply of_int_u64; unfold sint; lia.
Qed.

Lemma asInteger_i64 v z : scalar v → asInteger v = Ok z → i64 z.
Proof.
  destruct v; cbn; try done.
  - by intros Hz [= <-].
  - intros _. unfold to_int. destruct (SF_of value); try done.
    + intros [= <-]. unfold sint. lia.
    + case_match eqn:E; [|done]. case_decide; [|done]. injection E as <-. by intros [= <-].
  - intros _ [= <-]. destruct value; unfold sint; lia.
Qed.

(** ** The interface of a comparison function

    [TotalPreorder P cmp]: on the elements of [P], [cmp] behaves as a
    three-way comparison of a total preorder.  The index is proved against
    this interface. *)
Class TotalPreorder {K : Type} (P : K → Prop) (cmp : K → K → Z) : Prop := {
  cmp_antisym x y : P x → P y → Z.sgn (cmp y x) = - Z.sgn (cmp x y);
  cmp_le_trans x y z :
    P x → P y → P z → cmp x y ≤ 0 → cmp y z ≤ 0 → cmp x z ≤ 0;
}.

Section TotalPreorder.
Context {K : Type} {P : K → Prop} {cmp : K → K → Z} `{!TotalPreorder P cmp}.

Lemma cmp_refl x : P x → cmp x x = 0.
Proof. intros Hx. pose proof (cmp_antisym x x Hx Hx). lia. Qed.

Lemma cmp_flip_lt x y : P x → P y → cmp x y < 0 ↔ 0 < cmp y x.
Proof. intros Hx Hy. pose proof (cmp_antisym x y Hx Hy). lia. Qed.

Lemma cmp_flip_le x y : P x → P y → cmp x y ≤ 0 ↔ 0 ≤ cmp y x.
Proof. intros Hx Hy. pose proof (cmp_antisym x y Hx Hy). lia. Qed.

Lemma cmp_flip_eq x y : P x → P y → cmp x y = 0 ↔ cmp y x = 0.
Proof. intros Hx Hy. pose proof (cmp_antisym x y Hx Hy). lia. Qed.

Lemma cmp_lt_le_trans x y z :
  P x → P y → P z → cmp x y < 0 → cmp y z ≤ 0 → cmp x z < 0.
Proof.
  intros Hx Hy Hz Hxy Hyz.
  destruct (decide (cmp x z < 0)) as [|Hn]; [done|exfalso].
  assert (cmp z x ≤ 0) as Hzx by (apply cmp_flip_le; [done..|lia]).
  pose proof (cmp_le_trans y z x Hy Hz Hx Hyz Hzx).
  apply cmp_flip_lt in Hxy; [lia|done..].
Qed.

Lemma cmp_le_lt_trans x y z :
  P x → P y → P z → cmp x y ≤ 0 → cmp y z < 0 → cmp x z < 0.
Proof.
  intros Hx Hy Hz Hxy Hyz.
  destruct (decide (cmp x z < 0)) as [|Hn]; [done|exfalso].
  assert (cmp z x ≤ 0) as Hzx by (apply cmp_flip_le; [done..|lia]).
  pose proof (cmp_le_trans z x y Hz Hx Hy Hzx Hxy).
  apply cmp_flip_lt in Hyz; [lia|done..].
Qed.

Lemma cmp_eq_trans x y z :
  P x → P y → P z → cmp x y = 0 → cmp y z = 0 → cmp x z = 0.
Proof.
  intros Hx Hy Hz Hxy Hyz.
  pose proof (cmp_le_trans (cmp:=cmp) x y z Hx Hy Hz ltac:(lia) ltac:(lia)).
  apply cmp_flip_eq in Hxy; [|done..]. apply cmp_flip_eq in Hyz; [|done..].
  pose proof (cmp_le_trans (cmp:=cmp) z y x Hz Hy Hx ltac:(lia) ltac:(lia)) as Hzx.
  apply cmp_flip_le in Hzx; [lia|done..].
Qed.
End TotalPreorder.

(** ** [compare] as a lexicographic comparison of keys *)

Record order_key := OrderKey { ok_rank : Z; ok_number : Z; ok_bytes : bytes }.

Definition key_of (v : Value) : order_key :=
  match v with
  | VNull => OrderKey 0 0 []
  | VText s => OrderKey 3 0 (bytes_of s)
  | VBlob bs => OrderKey 5 0 bs
  | v => OrderKey 1 (dkey (match asReal v with Ok d => d | Err _ => 0 end)) []
  end.

Definition key_compare (a b : order_key) : comparison :=
  match ok_rank a ?= ok_rank b with
  | Eq =>
      match ok_number a ?= ok_number b with
      | Eq => bytes_compare (ok_bytes a) (ok_bytes b)
      | c => c
      end
  | c => c
  end.

Lemma key_compare_antisym a b : key_compare b a = CompOpp (key_compare a b).
Proof.
  unfold key_compare. rewrite (Z.compare_antisym (ok_rank a)).
  destruct (ok_rank a ?= ok_rank b); simpl; [|done..].
  rewrite (Z.compare_antisym (ok_number a)).
  destruct (ok_number a ?= ok_number b); simpl; [|done..].
  apply bytes_compare_antisym.
Qed.

Lemma key_compare_le_trans a b c :
  key_compare a b ≠ Gt → key_compare b c ≠ Gt → key_compare a c ≠ Gt.
Proof.
  unfold key_compare.
  destruct (Z.compare_spec (ok_rank a) (ok_rank b)),
    (Z.compare_spec (ok_rank b) (ok_rank c)),
    (Z.compare_spec (ok_rank a) (ok_rank c)); try done; try lia.
  destruct (Z.compare_spec (ok_number a) (ok_number b)),
    (Z.compare_spec (ok_number b) (ok_number c)),
    (Z.compare_spec (ok_number a) (ok_number c)); try done; try lia.
  apply bytes_compare_le_trans.
Qed.

Lemma key_compare_eq a b : key_compare a b = Eq ↔ a = b.
Proof.
  destruct a as [r1 n1 b1], b as [r2 n2 b2]. unfold key_compare. simpl.
  destruct (Z.compare_spec r1 r2), (Z.compare_spec n1 n2); subst;
    rewrite ?bytes_compare_eq; split; try done; try congruence;
    intros [=]; lia.
Qed.

Lemma well_ordered_real f v d :
  well_ordered f v → asReal v = Ok d → is_nan d = false.
Proof.
  destruct v; simpl; try done.
  - intros Hz [= <-]. by apply of_int_not_nan.
  - by intros Hn [= <-].
  - intros _ [= <-]. by destruct value.
Qed.

Lemma sign_of_bytes_eqb (x y : bytes) :
  (if bool_decide (x = y) then 0
   else match bytes_compare x y with Lt => -1 | _ => 1 end)
  = sign_of (bytes_compare x y).
Proof.
  case_bool_decide as H.
  - by rewrite (proj2 (bytes_compare_eq x y) H).
  - destruct (bytes_compare x y) eqn:Hc; [|done..].
    by apply bytes_compare_eq in Hc.
Qed.

Lemma numeric_compare_key f a b x y :
  well_ordered f a → well_ordered f b →
  asReal a = Ok x → asReal b = Ok y →
  (if dltb x y then -1 else if dgtb x y then 1 else 0) = sign_of (dkey x ?= dkey y).
Proof.
  intros Ha Hb Hx Hy. unfold dgtb.
  pose proof (well_ordered_real f a x Ha Hx). pose proof (well_ordered_real f b y Hb Hy).
  rewrite !dltb_key by done.
  destruct (Z.compare_spec (dkey x) (dkey y)); simpl;
    repeat match goal with |- context[?p <? ?q] => destruct (Z.ltb_spec p q) end; lia.
Qed.

Lemma compare_key f a b :
  well_ordered f a → well_ordered f b →
  compare a b = sign_of (key_compare (key_of a) (key_of b)).
Proof.
  intros Ha Hb.
  pose proof (numeric_compare_key f a b) as Hnum.
  destruct a, b; simpl in Ha, Hb; try congruence;
    unfold compare, key_compare; simpl in *; rewrite ?sign_of_bytes_eqb; try done;
    (rewrite (Hnum _ _ Ha Hb eq_refl eq_refl);
     match goal with |- context[?p ?= ?q] => by destruct (p ?= q) end).
Qed.

Lemma sgn_sign_of c : Z.sgn (sign_of c) = sign_of c.
Proof. by destruct c. Qed.

Lemma sign_of_le c : sign_of c ≤ 0 ↔ c ≠ Gt.
Proof. destruct c; simpl; split; intros; done || lia. Qed.

#[export] Instance value_compare_order f : TotalPreorder (well_ordered f) compare.
Proof.
  split.
  - intros x y Hx Hy. rewrite !(compare_key f), !sgn_sign_of, key_compare_antisym by done.
    by destruct (key_compare _ _).
  - intros x y z Hx Hy Hz. rewrite !(compare_key f), !sign_of_le by done.
    apply key_compare_le_trans.
Qed.

Lemma sign_of_zero c : sign_of c = 0 ↔ c = Eq.
Proof. by destruct c. Qed.

Lemma bytes_of_inj s t : bytes_of s = bytes_of t ↔ s = t.
Proof.
  split; [|congruence]. intros H.
  by rewrite <- (string_of_bytes_of s), H, string_of_bytes_of.
Qed.

Lemma value_eqb_compare f a b :
  well_ordered f a → well_ordered f b →
  value_eqb a b = true ↔ compare a b = 0.
Proof.
  intros Ha Hb.
  assert (∀ x y, asReal a = Ok x → asReal b = Ok y →
    deqb x y = true ↔ (if dltb x y then -1 else if dgtb x y then 1 else 0) = 0) as Hnum.
  { intros x y Hx Hy. rewrite (numeric_compare_key f a b) by done.
    pose proof (well_ordered_real f a x Ha Hx).
    pose proof (well_ordered_real f b y Hb Hy). rewrite deqb_key by done.
    rewrite Z.eqb_eq. destruct (Z.compare_spec (dkey x) (dkey y)); simpl; lia. }
  destruct a, b; try congruence; unfold value_eqb, compare; simpl in *;
    try (apply Hnum; done); try done; try congruence;
    rewrite ?bool_decide_eq_true, ?sign_of_bytes_eqb;
    try (split; [congruence|discriminate]); try (split; lia);
    rewrite sign_of_zero, bytes_compare_eq, ?bytes_of_inj; split; congruence.
Qed.

(** [Value::hash].  [std::hash<double>] and [std::hash<std::string>] are
    parameters; what is used of them is that equal keys hash equally. *)
Section Hash.
Context (std_hash_double : double → Z) (std_hash_string : string → Z).

Definition hash (v : Value) : Z :=
  match asReal v with
  | Ok d => Hash.combine (ValueType_code Real) (std_hash_double d)
  | Err _ =>
      match v with
      | VText s => Hash.combine (ValueType_code Text) (std_hash_string s)
      | VBlob bs =>
          fold_left (λ seed b, Hash.combine seed (byte.unsigned b)) bs
            (ValueType_code Blob)
      | _ => ValueType_code (type v)
      end
  end.

Lemma hash_respects_eqb a b :
  (∀ x y, deqb x y = true → std_hash_double x = std_hash_double y) →
  value_eqb a b = true → hash a = hash b.
Proof.
  intros Hd. destruct a, b; unfold value_eqb, hash; simpl; try done;
    rewrite ?bool_decide_eq_true; try congruence; intros H; by rewrite (Hd _ _ H).
Qed.
End Hash.

Lemma deqb_true x y :
  deqb x y = true → is_nan x = false ∧ is_nan y = false ∧ dkey x = dkey y.
Proof.
  intros H. assert (is_nan x = false ∧ is_nan y = false) as [Hx Hy].
  { destruct (is_nan x) eqn:Ex; [|destruct (is_nan y) eqn:Ey; [|done]];
      unfold deqb, SFeqb in H; fold (dcompare x y) in H;
      rewrite dcompare_nan in H by auto; discriminate H. }
  split_and!; [done..|]. rewrite deqb_key in H by done. by apply Z.eqb_eq.
Qed.

Lemma deqb_sym x y : deqb x y = true → deqb y x = true.
Proof.
  intros (Hx & Hy & E)%deqb_true. rewrite deqb_key by done. by apply Z.eqb_eq.
Qed.

Lemma deqb_trans x y z : deqb x y = true → deqb y z = true → deqb x z = true.
Proof.
  intros (Hx & Hy & E1)%deqb_true (_ & Hz & E2)%deqb_true.
  rewrite deqb_key by done. apply Z.eqb_eq. congruence.
Qed.

Lemma value_eqb_sym a b : value_eqb a b = true → value_eqb b a = true.
Proof.
  destruct a, b; unfold value_eqb; simpl; try done;
    rewrite ?bool_decide_eq_true; first [apply deqb_sym | congruence].
Qed.

Lemma value_eqb_comm a b : value_eqb a b = value_eqb b a.
Proof. apply eq_true_iff_eq. by split; apply value_eqb_sym. Qed.

Lemma value_eqb_trans a b c :
  value_eqb a b = true → value_eqb b c = true → value_eqb a c = true.
Proof.
  destruct a, b; unfold value_eqb; simpl; try done;
    destruct c; simpl; try done; rewrite ?bool_decide_eq_true;
    first [apply deqb_trans | congruence].
Qed.

Lemma deqb_dkey x y : deqb x y = true → dkey x = dkey y.
Proof.
  destruct (is_nan x) eqn:Hx; [|destruct (is_nan y) eqn:Hy].
  - unfold deqb, SFeqb. fold (dcompare x y). by rewrite dcompare_nan by auto.
  - unfold deqb, SFeqb. fold (dcompare x y). by rewrite dcompare_nan by auto.
  - rewrite deqb_key by done. apply Z.eqb_eq.
Qed.

Lemma compare_integers a b :
  - 2 ^ 53 ≤ a ≤ 2 ^ 53 → - 2 ^ 53 ≤ b ≤ 2 ^ 53 →
  compare (VInteger a) (VInteger b) = sign_of (a ?= b).
Proof.
  intros Ha Hb. rewrite (compare_key WithText) by (simpl; unfold sint; lia).
  unfold key_compare. simpl. f_equal.
  pose proof (dkey_of_int_mono a b). pose proof (dkey_of_int_mono b a).
  destruct (Z.compare_spec a b) as [->|Hlt|Hgt].
  - by rewrite Z.compare_refl.
  - by rewrite (proj2 (Z.compare_lt_iff _ _)) by lia.
  - by rewrite (proj2 (Z.compare_gt_iff _ _)) by lia.
Qed.

(** C30: on the values of one column (64-bit integers, non-NaN doubles, blobs,
    NULLs and either texts or booleans) [Value::compare] is the three-way
    comparison of a total preorder, and it answers 0 exactly on the pairs
    [operator==] calls equal. *)
Theorem compare_total_preorder (f : family) (a b c : Value) :
  well_ordered f a → well_ordered f b → well_ordered f c →
  (compare a b = -1 ∨ compare a b = 0 ∨ compare a b = 1) ∧
  compare b a = - compare a b ∧
  (compare a b ≤ 0 → compare b c ≤ 0 → compare a c ≤ 0) ∧
  (compare a b = 0 ↔ value_eqb a b = true).
Proof.
  intros Ha Hb Hc. split_and!.
  - rewrite (compare_key f) by done. destruct (key_compare _ _); auto.
  - pose proof (cmp_antisym (P:=well_ordered f) a b Ha Hb) as H.
    rewrite !(compare_key f), !sgn_sign_of in * by done. done.
  - by apply (cmp_le_trans (P:=well_ordered f)).
  - by rewrite (value_eqb_compare f).
Qed.

Example compare_total_preorder_witness :
  well_ordered WithText (VInteger 3) ∧
  compare (VReal (of_int 4)) (VInteger 3) = - compare (VInteger 3) (VReal (of_int 4)) ∧
  compare (VInteger 3) (VText "a") ≤ 0.
Proof.
  assert (H1 : well_ordered WithText (VInteger 3)) by (simpl; unfold sint; lia).
  assert (H2 : well_ordered WithText (VReal (of_int 4))) by reflexivity.
  assert (H3 : well_ordered WithText (VText "a")) by reflexivity.
  destruct (compare_total_preorder WithText _ _ _ H1 H2 H3) as (_ & Hsym & Htrans & _).
  split; [exact H1|]. split; [exact Hsym|].
  apply Htrans; vm_compute; discriminate.
Defined.

(** Outside those columns [Value::compare] is not an order: an integer, a
    text and a boolean form a strict cycle, because numbers are compared by
    value (a boolean counts as 0 or 1) but a text is placed between the
    integers and the booleans by its type code; and a NaN is "equal" to every
    number although [operator==] denies it. *)
Theorem compare_not_an_order :
  compare (VInteger 5) (VText "a") = -1 ∧
  compare (VText "a") (VBoolean true) = -1 ∧
  compare (VBoolean true) (VInteger 5) = -1 ∧
  (∃ nan, is_nan nan = true ∧
     compare (VReal nan) (VInteger 5) = 0 ∧ compare (VReal nan) (VInteger 6) = 0 ∧
     value_eqb (VReal nan) (VReal nan) = false).
Proof.
  split; [by vm_compute|]. split; [by vm_compute|]. split; [by vm_compute|].
  exists (bits_of S754_nan). by vm_compute.
Qed.

(** Integers are compared exactly up to 2^53 in magnitude; beyond that the
    comparison goes through [double] and identifies distinct integers, here
    2^53 and 2^53 + 1, which [operator==] then also calls equal. *)
Theorem compare_integer_precision (a b : Z) :
  - 2 ^ 53 ≤ a ≤ 2 ^ 53 → - 2 ^ 53 ≤ b ≤ 2 ^ 53 →
  compare (VInteger a) (VInteger b) = sign_of (a ?= b) ∧
  compare (VInteger (2 ^ 53)) (VInteger (2 ^ 53 + 1)) = 0 ∧
  value_eqb (VInteger (2 ^ 53)) (VInteger (2 ^ 53 + 1)) = true.
Proof. intros Ha Hb. split; [by apply compare_integers | by vm_compute]. Qed.

Example compare_integer_precision_witness :
  compare (VInteger (-7)) (VInteger 9) = -1.
Proof.
  destruct (compare_integer_precision (-7) 9) as [H _]; [lia|lia|exact H].
Defined.

(** C31: values that compare equal with [operator==] have the same
    [Value::hash], whatever the standard library's string and double hashes
    are, as long as equal doubles hash equally: the hash joins and GROUP BY
    tables keyed by [ValueHash] never miss an equal key. *)
Theorem hash_agrees_with_equality
    (std_hash_double : double → Z) (std_hash_string : string → Z) (a b : Value) :
  (∀ x y, deqb x y = true → std_hash_double x = std_hash_double y) →
  value_eqb a b = true →
  hash std_hash_double std_hash_string a = hash std_hash_double std_hash_string b.
Proof. apply hash_respects_eqb. Qed.

Example hash_agrees_with_equality_witness :
  hash (λ d, wrap64 (dkey d)) (λ s, fnv1a64 (bytes_of s)) (VInteger 1)
  = hash (λ d, wrap64 (dkey d)) (λ s, fnv1a64 (bytes_of s)) (VBoolean true).
Proof.
  refine (hash_agrees_with_equality (λ d, wrap64 (dkey d))
            (λ s, fnv1a64 (bytes_of s)) (VInteger 1) (VBoolean true) _ _).
  - intros x y Hxy. exact (f_equal wrap64 (deqb_dkey x y Hxy)).
  - vm_compute. reflexivity.
Defined.
