(* ===== verification/Tuple.v ===== *)
(** The on-disk form of a row: [HeapFile::encodeTuple], [decodeTuple] and
    [decodeTupleProjected] of [src/native_storage.cpp].  A read cursor
    ([bytes] plus [offset] in the code) is modelled by the bytes that remain
    after the offset.  Integers, doubles and lengths are little-endian, as
    [memcpy] lays them out on the machines the format is written on. *)

From S2P Require Import Prelude.
From S2P Require Import Double.
From S2P Require Import Value.

Abbreviation Tuple := (list Value) (only parsing).

(** [RowId] and [StoredRow] of [src/native_storage.h]. *)
Record RowId : Type := mkRowId { rowPage : Z; rowSlot : Z }.
Record StoredRow : Type := mkStoredRow { storedId : RowId; storedValues : Tuple }.

#[global] Instance RowId_eq_dec : EqDecision RowId.
Proof. solve_decision. Defined.

(** [appendPod] / [readPod] of an object of [n] bytes. *)
Definition appendPod (n : nat) (z : Z) : bytes := le_bytes n z.

Definition readPod (n : nat) (rest : bytes) : exec (Z * bytes) :=
  if decide (length rest < n)%nat then Err (Throw "Corrupt tuple payload")
  else Ok (le_value (take n rest), drop n rest).

Definition tag (t : ValueType) : byte :=
  match t with
  | Null => Byte.x00 | Integer => Byte.x01 | Real => Byte.x02
  | Text => Byte.x03 | Boolean => Byte.x04 | Blob => Byte.x05
  end.

#[global] Arguments appendPod : simpl never.
#[global] Arguments readPod : simpl never.

(** The bytes one field contributes in the loop of [encodeTuple]. *)
Definition encodeField (v : Value) : bytes :=
  tag (type v) ::
  match v with
  | VNull => []
  | VInteger z => appendPod 8 z
  | VReal d => appendPod 8 d
  | VBoolean b => [if b then Byte.x01 else Byte.x00]
  | VText s => appendPod 4 (Z.of_nat (String.length s)) ++ bytes_of s
  | VBlob bs => appendPod 4 (Z.of_nat (length bs)) ++ bs
  end.

Definition encodeTuple (t : Tuple) : exec bytes :=
  if decide (65535 < Z.of_nat (length t)) then Err (Throw "Too many tuple fields")
  else Ok (appendPod 2 (Z.of_nat (length t)) ++ concat (encodeField <$> t)).

(** A length-prefixed run of bytes. *)
Definition readRun (what : string) (rest : bytes) : exec (bytes * bytes) :=
  let* (len, rest) := readPod 4 rest in
  if decide (Z.of_nat (length rest) < len) then Err (Throw what)
  else Ok (take (Z.to_nat len) rest, drop (Z.to_nat len) rest).

(** One iteration of the field loop: the field and the bytes after it. *)
Definition decodeField (rest : bytes) : exec (Value * bytes) :=
  match rest with
  | [] => Err (Throw "Corrupt tuple type tag")
  | t :: rest =>
      match t with
      | Byte.x00 => Ok (VNull, rest)
      | Byte.x01 =>
          let* (z, rest) := readPod 8 rest in
          Ok (VInteger (to_signed 64 z), rest)
      | Byte.x02 =>
          let* (d, rest) := readPod 8 rest in Ok (VReal d, rest)
      | Byte.x03 =>
          let* (s, rest) := readRun "Corrupt text tuple field" rest in
          Ok (VText (string_of s), rest)
      | Byte.x04 =>
          match rest with
          | [] => Err (Throw "Corrupt boolean tuple field")
          | b :: rest => Ok (VBoolean (negb (bool_decide (b = Byte.x00))), rest)
          end
      | Byte.x05 =>
          let* (bs, rest) := readRun "Corrupt blob tuple field" rest in
          Ok (VBlob bs, rest)
      | _ => Err (Throw "Unknown tuple field type")
      end
  end.

(** The loop of [decodeTupleProjected]: [n] fields are left, the next one has
    number [index], [columns] are the projected columns not yet met. *)
Fixpoint decodeFields (n index : nat) (columns : list nat) (rest : bytes)
    : exec Tuple :=
  match n with
  | O => Ok []
  | S n' =>
      let* (v, rest) := decodeField rest in
      match columns with
      | c :: columns' =>
          if decide (c = index) then
            match columns' with
            | [] => Ok [v]
            | _ :: _ =>
                let* vs := decodeFields n' (S index) columns' rest in
                Ok (v :: vs)
            end
          else decodeFields n' (S index) columns rest
      | [] => decodeFields n' (S index) columns rest
      end
  end.

Fixpoint is_sorted (l : list nat) : bool :=
  match l with
  | x :: (y :: _) as l' => (x <=? y)%nat && is_sorted l'
  | _ => true
  end.
Fixpoint has_adjacent_equal (l : list nat) : bool :=
  match l with
  | x :: (y :: _) as l' => (x =? y)%nat || has_adjacent_equal l'
  | _ => false
  end.

Definition decodeTupleProjected (bs : bytes) (columns : list nat) : exec Tuple :=
  match last columns with
  | None => Ok []
  | Some back =>
      let* (count, rest) := readPod 2 bs in
      if (Z.to_nat count <=? back)%nat || negb (is_sorted columns)
         || has_adjacent_equal columns
      then Err (Throw "Invalid projected tuple columns")
      else decodeFields (Z.to_nat count) 0 columns rest
  end.

Definition decodeTuple (bs : bytes) : exec Tuple :=
  let* (count, _) := readPod 2 bs in
  decodeTupleProjected bs (seq 0 (Z.to_nat count)).

(** A value the format can hold: its C++ representation and a length that fits
    the 32-bit prefix. *)
Definition storable (v : Value) : Prop :=
  match v with
  | VInteger z => i64 z
  | VReal d => u64 d
  | VText s => Z.of_nat (String.length s) < 2 ^ 32
  | VBlob bs => Z.of_nat (length bs) < 2 ^ 32
  | _ => True
  end.

#[global] Instance storable_dec v : Decision (storable v).
Proof. destruct v; simpl; apply _. Defined.

(** ** Lemmas *)

Lemma readPod_app n z rest :
  readPod n (le_bytes n z ++ rest) = Ok (z `mod` 2 ^ (Z.of_nat n * 8), rest).
Proof.
  unfold readPod. rewrite decide_False by (rewrite length_app, length_le_bytes; lia).
  rewrite take_app_length', drop_app_length' by (by rewrite length_le_bytes).
  by rewrite LittleEndianList.le_combine_split.
Qed.

Lemma readRun_app what bs rest :
  Z.of_nat (length bs) < 2 ^ 32 →
  readRun what (appendPod 4 (Z.of_nat (length bs)) ++ bs ++ rest) = Ok (bs, rest).
Proof.
  intros Hlen. unfold readRun, appendPod. rewrite readPod_app. simpl.
  rewrite Z.mod_small by lia.
  rewrite decide_False by (rewrite length_app; lia).
  by rewrite take_app_length', drop_app_length' by lia.
Qed.

Lemma to_signed_mod z : i64 z → to_signed 64 (z `mod` 2 ^ 64) = z.
Proof.
  intros [Hl Hh]. unfold to_signed. destruct (decide (0 ≤ z)).
  - rewrite Z.mod_small by lia. rewrite decide_True by lia. done.
  - rewrite <- (Z.mod_add z 1) by lia. rewrite Z.mod_small by lia.
    rewrite decide_False by lia. lia.
Qed.

Lemma decodeField_encodeField v rest :
  storable v → decodeField (encodeField v ++ rest) = Ok (v, rest).
Proof.
  destruct v as [|z|d|s|b|bs]; cbn [storable]; intros Hv; [done|..];
    unfold encodeField; cbn [decodeField type tag app].
  - unfold appendPod. rewrite readPod_app. cbn [rbind]. by rewrite to_signed_mod.
  - unfold appendPod. rewrite readPod_app. cbn [rbind]. by rewrite Z.mod_small.
  - rewrite <- length_bytes_of in *. rewrite <- app_assoc, readRun_app by done.
    cbn [rbind]. by rewrite string_of_bytes_of.
  - by destruct b.
  - by rewrite <- app_assoc, readRun_app.
Qed.

Lemma decodeFields_all (t : Tuple) (index : nat) :
  t ≠ [] → Forall storable t →
  ∀ rest, decodeFields (length t) index (seq index (length t))
            (concat (encodeField <$> t) ++ rest) = Ok t.
Proof.
  revert index. induction t as [|v t IH]; intros index Hne Ht rest; [done|].
  apply Forall_cons in Ht as [Hv Ht]. cbn [length seq fmap list_fmap concat].
  rewrite <- app_assoc. cbn [decodeFields].
  rewrite decodeField_encodeField by done. cbn [rbind].
  rewrite decide_True by done.
  destruct t as [|w t]; [done|].
  cbn [length seq]. cbn [length seq] in IH. by rewrite IH.
Qed.

Lemma is_sorted_seq i n : is_sorted (seq i n) = true.
Proof.
  revert i. induction n as [|[|n] IH]; intros i; [done..|].
  cbn [seq]. cbn [is_sorted]. rewrite (proj2 (Nat.leb_le i (S i))) by lia. apply IH.
Qed.

Lemma has_adjacent_equal_seq i n : has_adjacent_equal (seq i n) = false.
Proof.
  revert i. induction n as [|[|n] IH]; intros i; [done..|].
  cbn [seq has_adjacent_equal]. rewrite (proj2 (Nat.eqb_neq i (S i))) by lia. apply IH.
Qed.

Lemma last_seq i n : last (seq i (S n)) = Some (i + n)%nat.
Proof. rewrite seq_S. apply last_snoc. Qed.

Lemma decodeTuple_encoded t rest :
  Forall storable t → Z.of_nat (length t) ≤ 65535 →
  decodeTuple (appendPod 2 (Z.of_nat (length t)) ++ concat (encodeField <$> t) ++ rest)
  = Ok t.
Proof.
  intros Ht Hlen. unfold decodeTuple, appendPod. rewrite readPod_app. cbn [rbind].
  rewrite Z.mod_small, Nat2Z.id by lia. unfold decodeTupleProjected.
  destruct t as [|v t]; [done|]. cbn [length]. rewrite last_seq, readPod_app. cbn [rbind].
  rewrite Z.mod_small, Nat2Z.id by (cbn [length] in *; lia).
  rewrite is_sorted_seq, has_adjacent_equal_seq.
  rewrite (proj2 (Nat.leb_gt _ _)) by lia. cbn [orb negb].
  by apply (decodeFields_all (v :: t) 0).
Qed.

(** *** Projection *)

(** Strictly increasing column lists, which is what the guard admits. *)
Lemma columns_guard c columns :
  is_sorted (c :: columns) = true → has_adjacent_equal (c :: columns) = false →
  is_sorted columns = true ∧ has_adjacent_equal columns = false ∧
  Forall (λ d, c < d)%nat columns.
Proof.
  revert c. induction columns as [|d columns IH]; intros c; [done|].
  cbn [is_sorted has_adjacent_equal].
  intros [Hcd Hs]%andb_prop [Hne Ha]%orb_false_elim.
  apply Nat.leb_le in Hcd. apply Nat.eqb_neq in Hne.
  destruct (IH d Hs Ha) as (? & ? & Hf). split_and!; [done..|].
  constructor; [lia|]. eapply Forall_impl; [exact Hf|]. simpl. lia.
Qed.

Lemma decodeFields_full_cons n index rest t :
  decodeFields (S n) index (seq index (S n)) rest = Ok t →
  ∃ v rest' ws, t = v :: ws ∧ decodeField rest = Ok (v, rest') ∧
    (n ≠ O → decodeFields n (S index) (seq (S index) n) rest' = Ok ws).
Proof.
  cbn [decodeFields seq]. destruct (decodeField rest) as [[v rest']|]; simpl; [|done].
  rewrite decide_True by done. destruct n as [|n]; cbn [seq].
  - intros [= <-]. by exists v, rest', [].
  - destruct (decodeFields (S n) (S index) _ rest') as [ws|] eqn:Hd; simpl; [|done].
    intros [= <-]. by exists v, rest', ws.
Qed.

Lemma shift_lookup index (v : Value) ws (columns : list nat) vs :
  Forall (λ c, index < c)%nat columns →
  Forall2 (λ c u, ws !! (c - S index)%nat = Some u) columns vs →
  Forall2 (λ c u, (v :: ws) !! (c - index)%nat = Some u) columns vs.
Proof.
  intros Hc H. induction H as [|c u columns vs Hcu _ IH]; constructor.
  - apply Forall_cons in Hc as [Hc _].
    by replace (c - index)%nat with (S (c - S index)) by lia.
  - apply IH. by apply Forall_cons in Hc as [_ Hc].
Qed.

Lemma decodeFields_project n index columns rest t :
  decodeFields n index (seq index n) rest = Ok t →
  columns ≠ [] →
  is_sorted columns = true → has_adjacent_equal columns = false →
  Forall (λ c, index ≤ c < index + n)%nat columns →
  ∃ vs, decodeFields n index columns rest = Ok vs ∧
        Forall2 (λ c v, t !! (c - index)%nat = Some v) columns vs.
Proof.
  revert index columns rest t.
  induction n as [|n IH]; intros index columns rest t Ht Hne Hs Ha Hc.
  { destruct columns as [|c columns]; [done|]. apply Forall_cons in Hc as [? _]. lia. }
  apply decodeFields_full_cons in Ht as (v & rest' & ws & -> & Hv & Hn).
  destruct columns as [|c columns]; [done|].
  cbn [decodeFields]. rewrite Hv. cbn [rbind].
  apply Forall_cons in Hc as [Hc Hcs].
  destruct (columns_guard c columns Hs Ha) as (Hs' & Ha' & Hlt).
  assert (∀ cs, Forall (λ d, index < d)%nat cs →
    Forall (λ d, index ≤ d < index + S n)%nat cs →
    Forall (λ d, S index ≤ d < S index + n)%nat cs) as Hrange.
  { intros cs H1 H2. apply Forall_forall. intros d Hd.
    rewrite Forall_forall in H1, H2. specialize (H1 d Hd). specialize (H2 d Hd). lia. }
  case_decide as Heq.
  - subst c. destruct columns as [|d columns].
    { exists [v]. split; [done|]. constructor; [|constructor]. by rewrite Nat.sub_diag. }
    assert (n ≠ O) as Hn1.
    { apply Forall_cons in Hcs as [? _]. apply Forall_cons in Hlt as [? _]. lia. }
    destruct (IH (S index) (d :: columns) rest' ws (Hn Hn1)) as (us & -> & Hus); auto.
    exists (v :: us). split; [done|]. constructor; [by rewrite Nat.sub_diag|].
    by apply shift_lookup.
  - assert (Forall (λ d, index < d)%nat (c :: columns)) as Hgt.
    { constructor; [lia|]. eapply Forall_impl; [exact Hlt|]. simpl. lia. }
    destruct (IH (S index) (c :: columns) rest' ws (Hn ltac:(lia)))
      as (us & -> & Hus); auto.
    exists us. split; [done|]. by apply shift_lookup.
Qed.

Lemma decodeFields_length n index rest t :
  decodeFields n index (seq index n) rest = Ok t → length t = n.
Proof.
  revert index rest t. induction n as [|n IH]; intros index rest t; [by intros [= <-]|].
  intros H. destruct (decide (n = O)) as [->|Hn].
  - revert H. cbn [decodeFields seq]. destruct (decodeField rest) as [[v r]|]; simpl; [|done].
    rewrite decide_True by done. by intros [= <-].
  - apply decodeFields_full_cons in H as (v & r & ws & -> & _ & Hws).
    simpl. f_equal. by eapply IH, Hws.
Qed.

Lemma last_Some_elem_of {A} (l : list A) x : last l = Some x → x ∈ l.
Proof. rewrite last_Some. intros [l' ->]. set_solver. Qed.

(** *** Truncation *)

Lemma readPod_short n p : (length p < n)%nat → is_ok (readPod n p) = false.
Proof. intros H. unfold readPod. by rewrite decide_True. Qed.

Lemma rbind_not_ok {A B} (m : exec A) (k : A → exec B) :
  is_ok m = false → is_ok (rbind m k) = false.
Proof. by destruct m. Qed.

(** A cut through a length-prefixed run. *)
Lemma readRun_short what bs p q :
  Z.of_nat (length bs) < 2 ^ 32 →
  appendPod 4 (Z.of_nat (length bs)) ++ bs = p ++ q → q ≠ [] →
  is_ok (readRun what p) = false.
Proof.
  intros Hlen Heq Hq. unfold readRun, appendPod in *.
  destruct (decide (length p < 4)%nat) as [Hp|Hp].
  { by apply rbind_not_ok, readPod_short. }
  apply app_eq_inv in Heq as [(k & Hk & ->)|(k & -> & Hk)].
  - assert (length k = O) as Hk0.
    { apply (f_equal length) in Hk. rewrite length_app, length_le_bytes in Hk. lia. }
    apply nil_length_inv in Hk0 as ->. rewrite app_nil_r in Hk. subst p.
    rewrite <- (app_nil_r (le_bytes 4 _)), readPod_app. cbn [rbind].
    destruct bs as [|b bs]; [done|]. rewrite Z.mod_small by lia.
    by rewrite decide_True by (simpl; lia).
  - rewrite readPod_app. cbn [rbind]. rewrite Z.mod_small by lia.
    rewrite decide_True; [done|]. subst bs. rewrite length_app.
    destruct q; [done|]. simpl. lia.
Qed.

Lemma decodeField_short v p q :
  storable v → encodeField v = p ++ q → q ≠ [] → is_ok (decodeField p) = false.
Proof.
  intros Hv Heq Hq. unfold encodeField in Heq.
  destruct p as [|t p]; [done|]. injection Heq as <- Heq.
  assert (∀ n z, appendPod n z = p ++ q → (length p < n)%nat) as Hpod.
  { intros n z H%(f_equal length). unfold appendPod in H.
    rewrite length_app, length_le_bytes in H. destruct q; [done|]. simpl in H. lia. }
  destruct v as [|z|d|s|b|bs]; cbn [decodeField type tag] in *.
  - by destruct p, q.
  - by apply rbind_not_ok, readPod_short, (Hpod 8%nat z).
  - by apply rbind_not_ok, readPod_short, (Hpod 8%nat d).
  - apply rbind_not_ok. simpl in Hv. rewrite <- length_bytes_of in Hv, Heq.
    by apply (readRun_short _ (bytes_of s) p q).
  - destruct p as [|x p]; [done|]. by destruct p, q.
  - by apply rbind_not_ok, (readRun_short _ bs p q).
Qed.

Lemma decodeFields_short (t : Tuple) index p q :
  Forall storable t → concat (encodeField <$> t) = p ++ q → q ≠ [] →
  is_ok (decodeFields (length t) index (seq index (length t)) p) = false.
Proof.
  revert index p. induction t as [|v t IH]; intros index p Ht Heq Hq.
  { by destruct p, q. }
  apply Forall_cons in Ht as [Hv Ht]. cbn [length seq decodeFields].
  cbn [fmap list_fmap concat] in Heq.
  apply app_eq_inv in Heq as [(k & Hk & ->)|(k & -> & Hk)].
  - destruct k as [|x k].
    + rewrite app_nil_r in Hk. subst p.
      rewrite <- (app_nil_r (encodeField v)), decodeField_encodeField by done.
      cbn [rbind]. rewrite decide_True by done.
      destruct t as [|w t]; [done|]. cbn [length seq]. apply rbind_not_ok.
      by apply (IH (S index) []).
    + apply rbind_not_ok. by apply (decodeField_short v p (x :: k)).
  - rewrite decodeField_encodeField by done. cbn [rbind]. rewrite decide_True by done.
    destruct t as [|w t]; [by destruct k, q|]. cbn [length seq]. apply rbind_not_ok.
    by apply (IH (S index) k).
Qed.

(** ** Properties *)

(** C29: a row that is encoded and read back is the same row, field by field and
    type by type, even when other bytes follow it; encoding fails only on more
    than 65535 fields. *)
Theorem decodeTuple_encodeTuple (t : Tuple) (rest : bytes) :
  Forall storable t →
  if decide (Z.of_nat (length t) ≤ 65535) then
    ∃ bs, encodeTuple t = Ok bs ∧ decodeTuple (bs ++ rest) = Ok t
  else encodeTuple t = Err (Throw "Too many tuple fields").
Proof.
  intros Ht. unfold encodeTuple. case_decide as Hlen.
  - rewrite decide_False by lia. eexists. split; [done|].
    rewrite <- app_assoc. by apply decodeTuple_encoded.
  - by rewrite decide_True by lia.
Qed.

Example decodeTuple_encodeTuple_witness :
  let t := [VInteger (-5); VText "ab"; VNull; VBoolean true; VReal 7; VBlob [Byte.xff]] in
  Forall storable t ∧
  ∃ bs, encodeTuple t = Ok bs ∧ decodeTuple (bs ++ []) = Ok t.
Proof.
  intros t.
  assert (Ht : Forall storable t)
    by (repeat constructor; simpl; unfold sint, uint; try lia; reflexivity).
  split; [exact Ht | exact (decodeTuple_encodeTuple t [] Ht)].
Defined.

(** On any bytes that decode to a row, reading a projection (a strictly
    increasing, non-empty list of column numbers below the field count)
    succeeds and gives exactly those fields of the row. *)
Lemma decodeTupleProjected_selects (bs : bytes) (t : Tuple) (columns : list nat) :
  decodeTuple bs = Ok t →
  columns ≠ [] → is_sorted columns = true → has_adjacent_equal columns = false →
  Forall (λ c, c < length t)%nat columns →
  ∃ vs, decodeTupleProjected bs columns = Ok vs ∧
        Forall2 (λ c v, t !! c = Some v) columns vs.
Proof.
  unfold decodeTuple. intros Hdec Hne Hs Ha Hc.
  destruct (readPod 2 bs) as [[count rest]|] eqn:Hpod; [|done]. cbn [rbind] in Hdec.
  unfold decodeTupleProjected in *. rewrite Hpod in *. cbn [rbind] in *.
  set (n := Z.to_nat count) in *.
  destruct n as [|n'] eqn:Hn.
  { injection Hdec as <-. destruct columns as [|c columns]; [done|].
    apply Forall_cons in Hc as [Hc _]. simpl in Hc. lia. }
  rewrite last_seq, is_sorted_seq, has_adjacent_equal_seq in Hdec.
  rewrite (proj2 (Nat.leb_gt _ _)) in Hdec by lia. cbn [orb negb] in Hdec.
  rewrite (decodeFields_length _ _ _ _ Hdec) in Hc.
  destruct (decodeFields_project _ _ columns _ _ Hdec Hne Hs Ha) as (vs & Hvs & Hsel).
  { eapply Forall_impl; [exact Hc|]. simpl. lia. }
  destruct (last columns) as [back|] eqn:Hback; [|by apply last_None in Hback].
  assert (back < S n')%nat as Hlt.
  { rewrite Forall_forall in Hc. apply Hc. by apply last_Some_elem_of. }
  rewrite Hs, Ha, (proj2 (Nat.leb_gt _ _)) by lia. cbn [orb negb].
  exists vs. split; [done|]. eapply Forall2_impl; [exact Hsel|]. simpl.
  intros c v. by rewrite Nat.sub_0_r.
Qed.

(** A row cut short is never misread: decoding any strict prefix of an
    encoding throws. *)
Theorem decodeTuple_truncated (t : Tuple) (bs p q : bytes) :
  Forall storable t → encodeTuple t = Ok bs → bs = p ++ q → q ≠ [] →
  is_ok (decodeTuple p) = false.
Proof.
  unfold encodeTuple. case_decide as Hlen; [done|].
  intros Ht Hbs Hpq Hq. unfold decodeTuple, appendPod in *.
  assert (le_bytes 2 (Z.of_nat (length t)) ++ concat (encodeField <$> t) = p ++ q)
    as Heq by congruence. clear Hbs Hpq bs.
  apply app_eq_inv in Heq as [(k & Hk & ->)|(k & -> & Hk)].
  - destruct k as [|x k].
    + rewrite app_nil_r in Hk. rewrite <- Hk, <- (app_nil_r (le_bytes _ _)), readPod_app.
      cbn [rbind]. rewrite Z.mod_small, Nat2Z.id by lia.
      destruct t as [|v t]; [done|].
      unfold decodeTupleProjected. cbn [length]. rewrite last_seq, readPod_app. cbn [rbind].
      rewrite Z.mod_small, Nat2Z.id by (cbn [length] in *; lia).
      rewrite is_sorted_seq, has_adjacent_equal_seq, (proj2 (Nat.leb_gt _ _)) by lia.
      by apply (decodeFields_short (v :: t) 0 []  _ Ht eq_refl).
    + apply rbind_not_ok, readPod_short.
      apply (f_equal length) in Hk. rewrite length_app, length_le_bytes in Hk.
      simpl in Hk. lia.
  - rewrite readPod_app. cbn [rbind]. rewrite Z.mod_small, Nat2Z.id by lia.
    destruct t as [|v t]; [by destruct k, q|].
    unfold decodeTupleProjected. cbn [length]. rewrite last_seq, readPod_app. cbn [rbind].
    rewrite Z.mod_small, Nat2Z.id by (cbn [length] in *; lia).
    rewrite is_sorted_seq, has_adjacent_equal_seq, (proj2 (Nat.leb_gt _ _)) by lia.
    by apply (decodeFields_short (v :: t) 0 k q Ht Hk).
Qed.

Example decodeTuple_truncated_witness :
  ∃ p q, encodeTuple [VText "hello"] = Ok (p ++ q) ∧ q ≠ [] ∧
         is_ok (decodeTuple p) = false.
Proof.
  eexists (take 9 _), (drop 9 _).
  split; [rewrite take_drop; vm_compute; reflexivity|].
  split; [discriminate|].
  eapply (decodeTuple_truncated [VText "hello"]);
    [ repeat constructor; simpl; lia
    | vm_compute; reflexivity
    | symmetry; apply take_drop
    | discriminate ].
Defined.
