(* ===== verification/Raw.v ===== *)
(** Reading fields of a row without building the row ([src/native_raw.cpp]):
    what the point queries, the vectorised scans, the column statistics and the
    direct aggregates decode.  The file shows that the raw decoders give the
    fields that the row decoder of [Tuple.v] gives, on any bytes, failures
    included, and that a raw comparison is [Value.compare]. *)

From S2P Require Import Prelude.
From S2P Require Import Double.
From S2P Require Import Value.
From S2P Require Import Tuple.

#[local] Open Scope string_scope.

(** A field with its type tag; the members of the other types stay as they are
    initialised. *)
Record RawField : Type := mkRawField {
  rf_type : ValueType;
  rf_isNull : bool;
  rf_integer : Z;
  rf_real : double;
  rf_boolean : bool;
  rf_text : string;
  rf_blob : bytes;
}.

Definition raw_empty : RawField := mkRawField Null true 0 dzero false "" [].

(** [field.type = type; field.isNull = type == ValueType::Null;] *)
Definition raw_typed (t : ValueType) : RawField :=
  mkRawField t (bool_decide (t = Null)) 0 dzero false "" [].

Definition raw_numeric (f : RawField) : bool :=
  negb (rf_isNull f)
  && (bool_decide (rf_type f = Integer) || bool_decide (rf_type f = Real)
      || bool_decide (rf_type f = Boolean)).

Definition raw_asReal (f : RawField) : exec double :=
  match rf_type f with
  | Real => Ok (rf_real f)
  | Integer => Ok (of_int (rf_integer f))
  | Boolean => Ok (if rf_boolean f then of_int 1 else of_int 0)
  | _ => Err (Throw "Raw field is not numeric")
  end.

Definition toValue (f : RawField) : Value :=
  if rf_isNull f then VNull
  else
    match rf_type f with
    | Integer => VInteger (rf_integer f)
    | Real => VReal (rf_real f)
    | Text => VText (rf_text f)
    | Boolean => VBoolean (rf_boolean f)
    | Blob => VBlob (rf_blob f)
    | Null => VNull
    end.

(** [readRawPod] of an object of [n] bytes. *)
Definition readRawPod (n : nat) (rest : bytes) : exec (Z * bytes) :=
  if decide (length rest < n)%nat then Err (Throw "Corrupt tuple payload")
  else Ok (le_value (take n rest), drop n rest).

#[global] Arguments readRawPod : simpl never.

(** A length-prefixed run, copied only when the field is wanted. *)
Definition readRawRun (what : string) (materialize : bool) (rest : bytes) : exec (bytes * bytes) :=
  let* (len, rest) := readRawPod 4 rest in
  if decide (Z.of_nat (length rest) < len) then Err (Throw what)
  else Ok (if materialize then take (Z.to_nat len) rest else [], drop (Z.to_nat len) rest).

(** The body of the field loop: the field and the bytes after it. *)
Definition decodeRawField (materialize : bool) (rest : bytes) : exec (RawField * bytes) :=
  match rest with
  | [] => Err (Throw "Corrupt tuple type tag")
  | t :: rest =>
      match t with
      | Byte.x00 => Ok (raw_typed Null, rest)
      | Byte.x01 =>
          let* (z, rest) := readRawPod 8 rest in
          Ok (mkRawField Integer false (to_signed 64 z) dzero false "" [], rest)
      | Byte.x02 =>
          let* (d, rest) := readRawPod 8 rest in
          Ok (mkRawField Real false 0 d false "" [], rest)
      | Byte.x03 =>
          let* (s, rest) := readRawRun "Corrupt text tuple field" materialize rest in
          Ok (mkRawField Text false 0 dzero false (string_of s) [], rest)
      | Byte.x04 =>
          match rest with
          | [] => Err (Throw "Corrupt boolean tuple field")
          | b :: rest =>
              Ok (mkRawField Boolean false 0 dzero (negb (bool_decide (b = Byte.x00))) "" [], rest)
          end
      | Byte.x05 =>
          let* (bs, rest) := readRawRun "Corrupt blob tuple field" materialize rest in
          Ok (mkRawField Blob false 0 dzero false "" bs, rest)
      | _ => Err (Throw "Unknown tuple field type")
      end
  end.

(** The loop of [decodeRawProjectedInto]: [n] fields are left, the next one has
    number [index], [projected] of the [columns] are in [fields]. *)
Fixpoint decodeRawFields (n index : nat) (columns : list nat) (projected : nat)
    (fields : list RawField) (rest : bytes) : exec (list RawField) :=
  match n with
  | O => Ok fields
  | S n =>
      let materialize := bool_decide (columns !! projected = Some index) in
      let* (field, rest) := decodeRawField materialize rest in
      if materialize then
        let fields := <[projected := field]> fields in
        if decide (S projected = length columns) then Ok fields
        else decodeRawFields n (S index) columns (S projected) fields rest
      else decodeRawFields n (S index) columns projected fields rest
  end.

Definition decodeRawProjectedInto (data : bytes) (columns : list nat) : exec (list RawField) :=
  match last columns with
  | None => Ok []
  | Some back =>
      let* (count, rest) := readRawPod 2 data in
      if (Z.to_nat count <=? back)%nat || negb (is_sorted columns) || has_adjacent_equal columns
      then Err (Throw "Invalid projected tuple columns")
      else
        decodeRawFields (Z.to_nat count) 0 columns 0 (replicate (length columns) raw_empty) rest
  end.

(** The loop of [decodeRawColumn]. *)
Fixpoint decodeRawAt (n index column : nat) (rest : bytes) : exec RawField :=
  match n with
  | O => Err (Throw "Invalid projected tuple column")
  | S n =>
      let materialize := (index =? column)%nat in
      let* (field, rest) := decodeRawField materialize rest in
      if materialize then Ok field else decodeRawAt n (S index) column rest
  end.

Definition decodeRawColumn (data : bytes) (column : nat) : exec RawField :=
  let* (count, rest) := readRawPod 2 data in
  if (Z.to_nat count <=? column)%nat then Err (Throw "Invalid projected tuple column")
  else decodeRawAt (Z.to_nat count) 0 column rest.

Definition compareRawToValue (left : RawField) (right : Value) : exec Z :=
  if rf_isNull left || isNull right then
    if rf_isNull left && isNull right then Ok 0
    else if rf_isNull left then Ok (-1) else Ok 1
  else if raw_numeric left && isNumeric right then
    let* l := raw_asReal left in
    let* r := asReal right in
    Ok (if dltb l r then -1 else if dgtb l r then 1 else 0)
  else Ok (compare (toValue left) right).

Definition comparisonMatches (op : string) (order : Z) : exec bool :=
  if op =? "=" then Ok (order =? 0)%Z
  else if op =? "!=" then Ok (negb (order =? 0)%Z)
  else if op =? "<" then Ok (order <? 0)%Z
  else if op =? ">" then Ok (0 <? order)%Z
  else if op =? "<=" then Ok (order <=? 0)%Z
  else if op =? ">=" then Ok (0 <=? order)%Z
  else Err (Throw ("Unsupported comparison operator: " +:+ op)).

Definition normalizeColumnPredicateOp (op : string) (columnOnLeft : bool) : string :=
  if columnOnLeft then op
  else if op =? "<" then ">"
  else if op =? ">" then "<"
  else if op =? "<=" then ">="
  else if op =? ">=" then "<="
  else op.

(** ** The raw decoders and the row decoder *)

Lemma readRawPod_spec n rest : readRawPod n rest = readPod n rest.
Proof. done. Qed.

(** A field that is read; one that is skipped ends at the same byte. *)
Lemma decodeRawField_spec rest :
  (let* (f, rest) := decodeRawField true rest in Ok (toValue f, rest)) = decodeField rest.
Proof.
  destruct rest as [|t rest]; [done|].
  destruct t; cbn [decodeRawField decodeField]; try done;
    unfold readRawRun, readRun; rewrite ?readRawPod_spec.
  - by destruct (readPod 8 rest) as [[]|].
  - by destruct (readPod 8 rest) as [[]|].
  - destruct (readPod 4 rest) as [[]|]; [|done]. cbn. by case_decide.
  - by destruct rest.
  - destruct (readPod 4 rest) as [[]|]; [|done]. cbn. by case_decide.
Qed.

Lemma decodeRawField_skip rest :
  (let* (_, rest) := decodeRawField false rest in Ok rest)
  = (let* (_, rest) := decodeField rest in Ok rest).
Proof.
  destruct rest as [|t rest]; [done|].
  destruct t; cbn [decodeRawField decodeField]; try done;
    unfold readRawRun, readRun; rewrite ?readRawPod_spec.
  - by destruct (readPod 8 rest) as [[]|].
  - by destruct (readPod 8 rest) as [[]|].
  - destruct (readPod 4 rest) as [[]|]; [|done]. cbn. by case_decide.
  - by destruct rest.
  - destruct (readPod 4 rest) as [[]|]; [|done]. cbn. by case_decide.
Qed.

Lemma decodeRawField_split b rest :
  match decodeRawField b rest, decodeField rest with
  | Ok (f, rest1), Ok (v, rest2) => rest1 = rest2 ∧ (b = true → toValue f = v)
  | Err e1, Err e2 => e1 = e2
  | _, _ => False
  end.
Proof.
  destruct b.
  - pose proof (decodeRawField_spec rest) as H.
    destruct (decodeRawField true rest) as [[]|], (decodeField rest) as [[]|]; cbn in H;
      try done; by injection H as <- <- || injection H as <-.
  - pose proof (decodeRawField_skip rest) as H.
    destruct (decodeRawField false rest) as [[]|], (decodeField rest) as [[]|]; cbn in H;
      try done; by injection H as <-.
Qed.

(** The loop after [done] of the columns: what is in [fields] before is kept. *)
Lemma decodeRawFields_spec n index before columns prefix blank rest :
  columns ≠ [] → length before = length prefix → length blank = length columns →
  match decodeRawFields n index (before ++ columns)%list (length before) (prefix ++ blank)%list rest,
        decodeFields n index columns rest with
  | Ok fields, Ok values =>
      (length columns <= length values)%nat → toValue <$> fields = ((toValue <$> prefix) ++ values)%list
  | Err e1, Err e2 => e1 = e2
  | _, _ => False
  end.
Proof.
  revert index before columns prefix blank rest.
  induction n as [|n IH]; intros index before columns prefix blank rest Hne Hp Hb; cbn.
  { intros Hlen. destruct columns; [done|cbn in Hlen; lia]. }
  destruct columns as [|c columns]; [done|]. destruct blank as [|x blank]; [done|].
  assert (Hc : (before ++ c :: columns)%list !! length before = Some c).
  { by rewrite lookup_app_r, Nat.sub_diag by lia. }
  rewrite Hc. assert (Hdec : bool_decide (Some c = Some index) = bool_decide (c = index)).
  { apply bool_decide_ext. naive_solver. }
  rewrite Hdec. destruct (decide (c = index)) as [Hci|Hci];
    [rewrite bool_decide_eq_true_2 by done|rewrite bool_decide_eq_false_2 by done].
  - subst c. pose proof (decodeRawField_split true rest) as Hf.
    destruct (decodeRawField true rest) as [[f r1]|e1], (decodeField rest) as [[v r2]|e2];
      cbn; [|done..].
    destruct Hf as [<- Hv]. specialize (Hv eq_refl).
    rewrite Hp, insert_app_r_alt, Nat.sub_diag by lia. cbn [insert list_insert].
    destruct columns as [|d columns].
    + rewrite length_app. cbn. rewrite decide_True by lia. intros _.
      destruct blank; [|done]. by rewrite fmap_app, <- Hv.
    + rewrite length_app. cbn [length]. rewrite decide_False by lia.
      specialize (IH (S index) (before ++ [index])%list (d :: columns) (prefix ++ [f])%list blank r1).
      rewrite <- !app_assoc, !length_app in IH. cbn [app length] in IH.
      replace (length before + 1)%nat with (S (length prefix)) in IH by lia.
      specialize (IH ltac:(done) ltac:(lia) ltac:(cbn in Hb; lia)).
      destruct (decodeRawFields n (S index) _ _ _ r1), (decodeFields n (S index) _ r1); cbn; try done.
      intros Hlen. rewrite IH by (cbn in *; lia). by rewrite fmap_app, <- app_assoc, <- Hv.
  - pose proof (decodeRawField_split false rest) as Hf.
    destruct (decodeRawField false rest) as [[f r1]|e1], (decodeField rest) as [[v r2]|e2];
      cbn; [|done..].
    destruct Hf as [<- _]. by apply (IH (S index) before (c :: columns) prefix (x :: blank) r1).
Qed.

Lemma decodeFields_width n index columns rest values :
  is_sorted columns = true → has_adjacent_equal columns = false →
  Forall (λ c, index ≤ c < index + n)%nat columns →
  decodeFields n index columns rest = Ok values → length values = length columns.
Proof.
  revert index columns rest values.
  induction n as [|n IH]; intros index columns rest values Hs Ha Hc Hd; cbn in Hd.
  { injection Hd as <-. destruct columns; [done|]. apply Forall_cons in Hc as [? _]. lia. }
  apply rbind_Ok in Hd as ([v rest'] & _ & Hd).
  assert (Hmore : ∀ cs, Forall (λ d, index ≤ d < index + S n)%nat cs →
    Forall (λ d, index < d)%nat cs → Forall (λ d, S index ≤ d < S index + n)%nat cs).
  { intros cs H1 H2. eapply Forall_impl; [apply Forall_and; split; [exact H1|exact H2]|].
    cbn. lia. }
  destruct columns as [|c columns]; [by eapply (IH (S index) []) in Hd|].
  destruct (columns_guard c columns Hs Ha) as (Hs' & Ha' & Hlt).
  apply Forall_cons in Hc as [Hc Hcs]. case_decide as Hci.
  - subst c. destruct columns as [|d columns]; [by injection Hd as <-|].
    apply rbind_Ok in Hd as (vs & Hd & [= <-]). cbn. f_equal.
    eapply (IH (S index) (d :: columns)); eauto.
  - eapply (IH (S index)); [done..| |exact Hd]. apply Hmore; [by constructor|].
    constructor; [lia|]. eapply Forall_impl; [exact Hlt|]. cbn. lia.
Qed.

Lemma sorted_below columns back :
  is_sorted columns = true → has_adjacent_equal columns = false →
  last columns = Some back → Forall (λ c, c <= back)%nat columns.
Proof.
  induction columns as [|c columns IH]; [done|]. intros Hs Ha Hl.
  destruct (columns_guard c columns Hs Ha) as (Hs' & Ha' & Hlt).
  destruct columns as [|d columns]; [injection Hl as <-; by repeat constructor|].
  specialize (IH Hs' Ha' Hl). constructor; [|done].
  apply Forall_cons in IH as [? _]. apply Forall_cons in Hlt as [? _]. lia.
Qed.

Lemma decodeRawAt_spec n index column rest :
  (index <= column < index + n)%nat →
  (let* f := decodeRawAt n index column rest in Ok [toValue f])
  = decodeFields n index [column] rest.
Proof.
  revert index rest. induction n as [|n IH]; intros index rest Hc; [lia|]. cbn.
  pose proof (decodeRawField_split (index =? column)%nat rest) as Hf.
  destruct (decodeRawField _ rest) as [[f r1]|e1], (decodeField rest) as [[v r2]|e2];
    cbn; try done; [|by subst].
  destruct Hf as [<- Hv]. destruct (Nat.eqb_spec index column) as [->|Hne].
  - rewrite decide_True by done. cbn. by rewrite Hv.
  - rewrite decide_False by done. apply IH. lia.
Qed.

(** Comparisons of fields that were decoded. *)
Definition raw_wf (f : RawField) : Prop := rf_isNull f = bool_decide (rf_type f = Null).

Lemma raw_numeric_spec f : raw_wf f → raw_numeric f = isNumeric (toValue f).
Proof.
  unfold raw_wf, raw_numeric, toValue. intros ->. by destruct (rf_type f).
Qed.

Lemma decodeRawField_wf b rest f rest' : decodeRawField b rest = Ok (f, rest') → raw_wf f.
Proof.
  destruct rest as [|t rest]; [done|].
  destruct t; cbn [decodeRawField]; intros H;
    repeat match goal with
    | H : rbind _ _ = Ok _ |- _ => apply rbind_Ok in H as ([] & _ & H)
    | H : match ?l with [] => _ | _ :: _ => _ end = Ok _ |- _ => destruct l; [done|]
    end; try discriminate; by injection H as <- <-.
Qed.

(** Decoding a projection into raw fields gives, on any bytes, the values
    the row decoder gives for that projection, and it fails with the same
    message when the row decoder does. *)
Lemma projection_decodes data columns :
  (let* fields := decodeRawProjectedInto data columns in Ok (toValue <$> fields))
  = decodeTupleProjected data columns.
Proof.
  unfold decodeRawProjectedInto, decodeTupleProjected.
  destruct (last columns) as [back|] eqn:Hl; [|done]. rewrite readRawPod_spec.
  destruct (readPod 2 data) as [[count rest]|]; [|done]. cbn.
  destruct (Z.to_nat count <=? back)%nat eqn:Hcount; [done|].
  destruct (is_sorted columns) eqn:Hs, (has_adjacent_equal columns) eqn:Ha; cbn; try done.
  apply Nat.leb_gt in Hcount.
  assert (Hne : columns ≠ []) by (by intros ->).
  pose proof (decodeRawFields_spec (Z.to_nat count) 0 [] columns [] (replicate (length columns) raw_empty)
    rest Hne eq_refl ltac:(apply length_replicate)) as H.
  cbn in H. destruct (decodeRawFields _ 0 _ 0 _ rest) as [fields|],
    (decodeFields _ 0 columns rest) as [values|] eqn:Hd; cbn; try done; [|by subst].
  rewrite H; [done|]. erewrite decodeFields_width; [done..| |exact Hd].
  eapply Forall_impl; [by eapply sorted_below|]. cbn. lia.
Qed.

(** The same of one column; the messages differ when there is no such column. *)
Lemma raw_column_decodes data column :
  (let* f := decodeRawColumn data column in Ok [toValue f])
  ≈ decodeTupleProjected data [column].
Proof.
  unfold decodeRawColumn, decodeTupleProjected. cbn. rewrite readRawPod_spec.
  destruct (readPod 2 data) as [[count rest]|e]; [|done]. cbn.
  destruct (Z.to_nat count <=? column)%nat eqn:Hcount; [done|]. apply Nat.leb_gt in Hcount.
  cbn. by rewrite decodeRawAt_spec by lia.
Qed.

Lemma decodeRawAt_wf n index column rest f : decodeRawAt n index column rest = Ok f → raw_wf f.
Proof.
  revert index rest. induction n as [|n IH]; intros index rest; [done|]. cbn. intros Hd.
  apply rbind_Ok in Hd as ([g r1] & Hg & Hd). destruct (index =? column)%nat; [|by eapply IH].
  injection Hd as <-. by eapply decodeRawField_wf.
Qed.

(** One column of bytes that hold a row. *)
Lemma raw_column_of_row bs t column v :
  decodeTuple bs = Ok t → t !! column = Some v →
  ∃ f, decodeRawColumn bs column = Ok f ∧ raw_wf f ∧ toValue f = v.
Proof.
  intros Hdec Hv.
  destruct (decodeTupleProjected_selects bs t [column] Hdec) as (vs & Hvs & Hall); try done.
  { constructor; [by eapply lookup_lt_Some|constructor]. }
  apply (raw_column_decodes bs column) in Hvs. apply rbind_Ok in Hvs as (f & Hf & [= <-]).
  apply Forall2_cons in Hall as [Hfv _]. exists f. split; [done|]. split; [|congruence].
  unfold decodeRawColumn in Hf. apply rbind_Ok in Hf as ([count rest] & _ & Hf).
  destruct (_ <=? _)%nat; [done|]. by eapply decodeRawAt_wf.
Qed.

(** A projection of bytes that hold a row. *)
Lemma raw_fields_of_row bs t columns :
  decodeTuple bs = Ok t →
  columns ≠ [] → is_sorted columns = true → has_adjacent_equal columns = false →
  Forall (λ c, c < length t)%nat columns →
  ∃ fields, decodeRawProjectedInto bs columns = Ok fields ∧
    Forall2 (λ c f, t !! c = Some (toValue f)) columns fields.
Proof.
  intros Hdec Hne Hs Ha Hc.
  destruct (decodeTupleProjected_selects bs t columns Hdec Hne Hs Ha Hc) as (vs & Hvs & Hall).
  rewrite <- projection_decodes in Hvs. apply rbind_Ok in Hvs as (fields & Hf & [= <-]).
  exists fields. split; [done|]. by apply Forall2_fmap_r in Hall.
Qed.

(** A raw comparison is [Value.compare]. *)
Lemma compareRawToValue_spec f v :
  raw_wf f → compareRawToValue f v = Ok (compare (toValue f) v).
Proof.
  intros Hf. unfold compareRawToValue. rewrite raw_numeric_spec by done.
  unfold raw_wf in Hf. unfold compare, toValue, isNull, raw_asReal. rewrite Hf.
  by destruct (rf_type f), v.
Qed.

(** Exchanging the operands of a comparison. *)
Lemma normalizeColumnPredicateOp_flips op order :
  comparisonMatches (normalizeColumnPredicateOp op false) (- order) = comparisonMatches op order.
Proof.
  unfold normalizeColumnPredicateOp, comparisonMatches.
  repeat match goal with
  | |- context[(?a =? ?b)%string] =>
      is_var a; destruct (String.eqb_spec a b) as [->|]; cbn
  end; try done; f_equal; lia.
Qed.

(** ** Property *)

(** Decoding a projection into raw fields gives, on any bytes, the values
    the row decoder gives for that projection, and it fails with the same
    message when the row decoder does; comparing a field that was decoded with
    a value is [Value.compare] of the two. *)
Theorem raw_fields_are_row_fields data columns :
  (let* fields := decodeRawProjectedInto data columns in Ok (toValue <$> fields))
    = decodeTupleProjected data columns ∧
  ∀ column f v, decodeRawColumn data column = Ok f →
    decodeTupleProjected data [column] = Ok [toValue f] ∧
    compareRawToValue f v = Ok (compare (toValue f) v).
Proof.
  split; [apply projection_decodes|]. intros column f v Hf. split.
  - apply raw_column_decodes. by rewrite Hf.
  - apply compareRawToValue_spec. unfold decodeRawColumn in Hf.
    apply rbind_Ok in Hf as ([count rest] & _ & Hf).
    destruct (_ <=? _)%nat; [done|]. by eapply decodeRawAt_wf.
Qed.
