(* ===== verification/Bloom.v ===== *)
(** The Bloom filter of the hash joins ([src/native_joins.cpp]): the sizing
    loop of the constructor, [add] and [mayContain].  A filter never rejects a
    value that was added, nor one that is equal to it, and no access leaves its
    words; the sizing loop ends for the sizes it can represent and for no
    others. *)

From S2P Require Import Prelude.
From S2P Require Import Hash.
From S2P Require Import Double.
From S2P Require Import Config.
From S2P Require Import Value.

Record BloomFilter : Type := mkBloom { words_ : list Z; bitMask_ : Z }.

(** [while (bits < wanted) bits <<= 1;] *)
Fixpoint bloom_grow (fuel : nat) (bits wanted : Z) : option Z :=
  if bits <? wanted then
    match fuel with
    | O => None
    | S fuel => bloom_grow fuel (wrap64 (Z.shiftl bits 1)) wanted
    end
  else Some bits.

(** A 64-bit number is zero after 64 doublings, and stays zero. *)
Definition bloom_fuel : nat := 65.

Definition bloom_mix (value : Z) : Z := Z.lor (avalanche64 value) 1.

Definition bloom_set (b : BloomFilter) (hash : Z) : exec BloomFilter :=
  let bit := Z.land hash (bitMask_ b) in
  let n := Z.to_nat (bit `div` 64) in
  match words_ b !! n with
  | Some w => Ok (mkBloom (<[n := Z.lor w (Z.shiftl 1 (bit `mod` 64))]> (words_ b)) (bitMask_ b))
  | None => Err (Undefined "vector index out of range")
  end.

Definition bloom_test (b : BloomFilter) (hash : Z) : exec bool :=
  let bit := Z.land hash (bitMask_ b) in
  match words_ b !! Z.to_nat (bit `div` 64) with
  | Some w => Ok (negb (Z.land w (Z.shiftl 1 (bit `mod` 64)) =? 0))
  | None => Err (Undefined "vector index out of range")
  end.

Section Bloom.
Context (getenv : string → option string).
Context (std_hash_double : double → Z) (std_hash_string : string → Z).

(** A loop that does nothing for ever is undefined behaviour. *)
Definition newBloom (expectedValues : Z) : exec BloomFilter :=
  let minimum := bloomMinimumBits getenv in
  let wanted := Z.max minimum (wrap64 (expectedValues * bloomBitsPerValue getenv)) in
  match bloom_grow bloom_fuel minimum wanted with
  | None => Err (Undefined "endless loop without effects")
  | Some bits =>
      Ok (mkBloom (replicate (Z.to_nat (wrap64 (bits + 63) `div` 64)) 0) (wrap64 (bits - 1)))
  end.

(** The three probes of a value. *)
Definition bloom_probes (v : Value) : list Z :=
  let hash := Value.hash std_hash_double std_hash_string v in
  [hash; wrap64 (hash + bloom_mix hash);
   wrap64 (hash + bloom_mix (Z.lxor hash kGoldenRatio64))].

Definition bloom_add (b : BloomFilter) (v : Value) : exec BloomFilter :=
  rfold bloom_set (bloom_probes v) b.

Fixpoint bloom_all (b : BloomFilter) (probes : list Z) : exec bool :=
  match probes with
  | [] => Ok true
  | probe :: probes =>
      let* t := bloom_test b probe in
      if t : bool then bloom_all b probes else Ok false
  end.

Definition mayContain (b : BloomFilter) (v : Value) : exec bool := bloom_all b (bloom_probes v).

(** ** The sizing loop *)

Lemma bloom_grow_ok fuel bits wanted :
  0 < bits → wanted ≤ bits * 2 ^ Z.of_nat fuel → wanted ≤ 2 ^ 63 →
  ∃ n, bloom_grow fuel bits wanted = Some n ∧ wanted ≤ n ∧ bits ≤ n ≤ Z.max bits (2 * wanted).
Proof.
  revert bits. induction fuel as [|fuel IH]; intros bits Hbits Hfuel Hw; cbn [bloom_grow];
    destruct (Z.ltb_spec bits wanted) as [Hlt|Hge]; try (exists bits; split_and!; done || lia).
  rewrite Z.shiftl_mul_pow2 by done. rewrite wrap_small by (unfold uint; lia).
  rewrite Nat2Z.inj_succ, Z.pow_succ_r in Hfuel by lia.
  destruct (IH (bits * 2 ^ 1)) as (n & Hn & H1 & H2); [lia..|]. exists n. split_and!; [done|lia..].
Qed.

Lemma bloom_grow_zero fuel wanted : 0 < wanted → bloom_grow fuel 0 wanted = None.
Proof.
  intros Hw. induction fuel as [|fuel IH]; cbn [bloom_grow];
    destruct (Z.ltb_spec 0 wanted); (done || lia).
Qed.

(** A power of two above [2 ^ 63] cannot be reached. *)
Lemma bloom_grow_diverges fuel k wanted :
  0 ≤ k ≤ 63 → 2 ^ 63 < wanted → bloom_grow fuel (2 ^ k) wanted = None.
Proof.
  revert k. induction fuel as [|fuel IH]; intros k Hk Hw; cbn [bloom_grow];
    assert (2 ^ k ≤ 2 ^ 63) by (apply Z.pow_le_mono_r; lia);
    destruct (Z.ltb_spec (2 ^ k) wanted); try done; try lia.
  rewrite Z.shiftl_mul_pow2, <- Z.pow_add_r by lia. destruct (decide (k = 63)) as [->|Hne].
  - change (wrap64 (2 ^ (63 + 1))) with 0. apply bloom_grow_zero. lia.
  - rewrite wrap_small; [apply IH; lia|]. split; [lia|]. apply Z.pow_lt_mono_r; lia.
Qed.

(** ** No false negatives *)

(** Every masked probe has its word. *)
Definition bloom_ok (b : BloomFilter) : Prop :=
  0 ≤ bitMask_ b ∧ bitMask_ b `div` 64 < Z.of_nat (length (words_ b)) ∧
  Forall (λ w, 0 ≤ w) (words_ b).

Definition bloom_has (b : BloomFilter) (hash : Z) : Prop := bloom_test b hash = Ok true.

Lemma land_le a m : 0 ≤ m → 0 ≤ Z.land a m ≤ m.
Proof.
  intros Hm. split; [apply Z.land_nonneg; by right|].
  assert (Z.ldiff m (Z.land a m) = m - Z.land a m) as Hd.
  { symmetry. apply Z.sub_nocarry_ldiff. apply Z.bits_inj'. intros i Hi.
    rewrite Z.ldiff_spec, Z.land_spec, Z.bits_0.
    by destruct (Z.testbit a i), (Z.testbit m i). }
  assert (0 ≤ Z.ldiff m (Z.land a m)) by (apply Z.ldiff_nonneg; by left). lia.
Qed.

Lemma bloom_word b hash :
  bloom_ok b → ∃ w, words_ b !! Z.to_nat (Z.land hash (bitMask_ b) `div` 64) = Some w ∧ 0 ≤ w.
Proof.
  intros (Hm & Hlen & Hw). pose proof (land_le hash (bitMask_ b) Hm) as Hl.
  assert (Z.land hash (bitMask_ b) `div` 64 ≤ bitMask_ b `div` 64) by (apply Z.div_le_mono; lia).
  assert (0 ≤ Z.land hash (bitMask_ b) `div` 64) by (apply Z.div_pos; lia).
  destruct (lookup_lt_is_Some_2 (words_ b) (Z.to_nat (Z.land hash (bitMask_ b) `div` 64)))
    as [w Hin]; [lia|]. exists w. split; [done|]. by eapply Forall_lookup_1 in Hw.
Qed.

(** A test reads one bit. *)
Lemma bloom_test_spec b hash w :
  words_ b !! Z.to_nat (Z.land hash (bitMask_ b) `div` 64) = Some w →
  bloom_test b hash = Ok (Z.testbit w (Z.land hash (bitMask_ b) `mod` 64)).
Proof.
  intros Hw. unfold bloom_test. rewrite Hw, bit_set, negb_involutive; [done|].
  apply Z.mod_pos_bound. lia.
Qed.

Lemma bloom_set_ok b hash :
  bloom_ok b →
  ∃ b', bloom_set b hash = Ok b' ∧ bloom_ok b' ∧ bitMask_ b' = bitMask_ b ∧
    bloom_has b' hash ∧ ∀ other, bloom_has b other → bloom_has b' other.
Proof.
  intros Hb. destruct (bloom_word b hash Hb) as (w & Hw & Hpos).
  pose proof Hb as (Hm & Hlen & Hall). unfold bloom_set. rewrite Hw.
  set (i := Z.land hash (bitMask_ b) `mod` 64). set (n := Z.to_nat _) in *.
  assert (Hi : 0 ≤ i) by (apply Z.mod_pos_bound; lia).
  assert (Hn : (n < length (words_ b))%nat) by (by eapply lookup_lt_Some).
  eexists. split; [done|]. split; [|split; [done|split]].
  - split_and!; cbn; [done|by rewrite length_insert|]. apply Forall_insert; [done|].
    apply Z.lor_nonneg. split; [done|]. apply Z.shiftl_nonneg. lia.
  - unfold bloom_has. erewrite bloom_test_spec; [|cbn; by apply list_lookup_insert_eq].
    cbn [bitMask_]. fold i. rewrite Z.lor_spec, Z.shiftl_1_l, Z.pow2_bits_true by done.
    by rewrite orb_true_r.
  - intros other. unfold bloom_has. destruct (bloom_word b other Hb) as (w' & Hw' & _).
    rewrite (bloom_test_spec _ _ _ Hw'). intros [= Hbit].
    destruct (decide (Z.to_nat (Z.land other (bitMask_ b) `div` 64) = n)) as [Heq|Hne].
    + erewrite bloom_test_spec; [|cbn; rewrite Heq; by apply list_lookup_insert_eq].
      rewrite Heq in Hw'. assert (w' = w) as -> by congruence. cbn [bitMask_].
      by rewrite Z.lor_spec, Hbit.
    + erewrite bloom_test_spec; [|cbn; by rewrite list_lookup_insert_ne by done].
      cbn [bitMask_]. by rewrite Hbit.
Qed.

Lemma bloom_sets_ok probes b :
  bloom_ok b →
  ∃ b', rfold bloom_set probes b = Ok b' ∧ bloom_ok b' ∧
    (∀ probe, probe ∈ probes → bloom_has b' probe) ∧
    ∀ other, bloom_has b other → bloom_has b' other.
Proof.
  revert b. induction probes as [|probe probes IH]; intros b Hb; cbn.
  { exists b. split_and!; try done. by intros ? ?%elem_of_nil. }
  destruct (bloom_set_ok b probe Hb) as (b1 & -> & Hb1 & _ & Hhas & Hkeep). cbn.
  destruct (IH b1 Hb1) as (b2 & Hrun & Hb2 & Hall & Hkeep2). exists b2. split_and!; try done; [|auto].
  intros p [->|Hp]%elem_of_cons; auto.
Qed.

Lemma bloom_all_true b probes :
  (∀ probe, probe ∈ probes → bloom_has b probe) → bloom_all b probes = Ok true.
Proof.
  induction probes as [|probe probes IH]; intros H; [done|]. cbn.
  rewrite (H probe) by apply list_elem_of_here. cbn. apply IH. intros p Hp.
  by apply H, list_elem_of_further.
Qed.

Lemma bloom_all_total b probes : bloom_ok b → is_ok (bloom_all b probes) = true.
Proof.
  intros Hb. induction probes as [|probe probes IH]; [done|]. cbn.
  destruct (bloom_word b probe Hb) as (w & Hw & _). rewrite (bloom_test_spec _ _ _ Hw). cbn.
  by destruct (Z.testbit _ _).
Qed.

Lemma bloom_adds vs b : rfold bloom_add vs b = rfold bloom_set (concat (bloom_probes <$> vs)) b.
Proof.
  revert b. induction vs as [|v vs IH]; intros b; [done|].
  rewrite fmap_cons. cbn [concat]. rewrite rfold_app. cbn [rfold].
  unfold bloom_add at 1. destruct (rfold bloom_set (bloom_probes v) b); [apply IH|done].
Qed.

(** What a join relies on: the filter answers, and says yes to whatever equals
    a value that was added to it. *)
Definition bloom_admits (b : BloomFilter) (vs : list Value) : Prop :=
  bloom_ok b ∧ ∀ v w, v ∈ vs → value_eqb v w = true → mayContain b w = Ok true.

Context (Hhash : ∀ x y, deqb x y = true → std_hash_double x = std_hash_double y).

Lemma bloom_adds_ok vs b :
  bloom_ok b → ∃ b', rfold bloom_add vs b = Ok b' ∧ bloom_admits b' vs.
Proof.
  intros Hb. rewrite bloom_adds.
  destruct (bloom_sets_ok (concat (bloom_probes <$> vs)) b Hb) as (b' & Hrun & Hb' & Hall & _).
  exists b'. split; [done|]. split; [done|]. intros v w Hv Heq. apply bloom_all_true.
  intros probe Hp. apply Hall. apply list_elem_of_In, in_concat. exists (bloom_probes v). split.
  - by apply list_elem_of_In, list_elem_of_fmap_2.
  - apply list_elem_of_In. unfold bloom_probes in *.
    by rewrite (hash_respects_eqb _ std_hash_string v w Hhash Heq).
Qed.

(** Sizes whose filter has less than [2 ^ 63] bits. *)
Definition bloom_size_ok (expectedValues : Z) : Prop :=
  bloomMinimumBits getenv ≤ 2 ^ 62 ∧
  wrap64 (expectedValues * bloomBitsPerValue getenv) ≤ 2 ^ 62.

Lemma bloomMinimumBits_pos : 0 < bloomMinimumBits getenv.
Proof.
  unfold bloomMinimumBits, readEnvSizeT.
  destruct (getenv _) as [[|ch s]|]; [done| |done].
  destruct (strtoull _) as [[[v []] [|? ?]]|]; try done. destruct (Z.ltb_spec v 1); lia.
Qed.

Lemma newBloom_ok n : bloom_size_ok n → ∃ b, newBloom n = Ok b ∧ bloom_ok b.
Proof.
  intros [Hmin Hw]. unfold newBloom. pose proof bloomMinimumBits_pos as Hpos.
  set (m := bloomMinimumBits getenv) in *. set (w := wrap64 _) in *.
  assert (0 ≤ w) by (apply wrap_uint; done).
  destruct (bloom_grow_ok bloom_fuel m (Z.max m w)) as (bits & -> & H1 & H2 & H3);
    [done|unfold bloom_fuel; lia|lia|].
  eexists. split; [done|].
  rewrite !wrap_small by (unfold uint; lia). split_and!; cbn.
  - lia.
  - rewrite length_replicate, Z2Nat.id by (apply Z.div_pos; lia).
    replace (bits + 63) with (bits - 1 + 1 * 64) by lia. rewrite Z.div_add by lia. lia.
  - by apply Forall_replicate.
Qed.

(** C40: a filter of any size below [2 ^ 63] bits is built, every value that is
    added to it and every value equal to one of them is let through, and no
    access leaves the filter's words. *)
Theorem bloom_no_false_negatives expectedValues vs :
  bloom_size_ok expectedValues →
  ∃ b b', newBloom expectedValues = Ok b ∧ rfold bloom_add vs b = Ok b' ∧
    (∀ v w, v ∈ vs → value_eqb v w = true → mayContain b' w = Ok true) ∧
    ∀ w, is_ok (mayContain b' w) = true.
Proof.
  intros Hsize. destruct (newBloom_ok expectedValues Hsize) as (b & Hnew & Hb).
  destruct (bloom_adds_ok vs b Hb) as (b' & Hrun & Hb' & Hin).
  exists b, b'. split_and!; try done. intros w. by apply bloom_all_total.
Qed.

(** A number of bits per value for which [wanted] is above [2 ^ 63]: the
    constructor never ends. *)
Lemma newBloom_diverges expectedValues k :
  0 ≤ k ≤ 63 → bloomMinimumBits getenv = 2 ^ k →
  2 ^ 63 < wrap64 (expectedValues * bloomBitsPerValue getenv) →
  ∀ fuel, bloom_grow fuel (bloomMinimumBits getenv)
    (Z.max (bloomMinimumBits getenv) (wrap64 (expectedValues * bloomBitsPerValue getenv))) = None.
Proof. intros Hk -> Hw fuel. apply bloom_grow_diverges; lia. Qed.
End Bloom.

(** A hash for the examples: equal doubles have equal keys. *)
Definition demo_hash_double (d : double) : Z := wrap64 (dkey d).
Definition demo_hash_string (s : string) : Z := fnv1a64 (bytes_of s).

Lemma demo_hash_ok x y : deqb x y = true → demo_hash_double x = demo_hash_double y.
Proof. unfold demo_hash_double. by intros (_ & _ & ->)%deqb_true. Qed.

Example bloom_no_false_negatives_witness :
  bloom_size_ok (λ _, None) 3 ∧
  ∃ b b', newBloom (λ _, None) 3 = Ok b ∧
    rfold (bloom_add demo_hash_double demo_hash_string)
      [VInteger 1; VText "a"; VNull] b = Ok b' ∧
    (∀ v w, v ∈ [VInteger 1; VText "a"; VNull] → value_eqb v w = true →
       mayContain demo_hash_double demo_hash_string b' w = Ok true) ∧
    ∀ w, is_ok (mayContain demo_hash_double demo_hash_string b' w) = true.
Proof.
  assert (H : bloom_size_ok (λ _, None) 3) by (split; vm_compute; congruence).
  split; [exact H|].
  exact (bloom_no_false_negatives (λ _, None) demo_hash_double demo_hash_string demo_hash_ok
    3 [VInteger 1; VText "a"; VNull] H).
Defined.
