(* ===== verification/Page.v ===== *)
(** The slotted page: class [SlottedPage] of [src/native_storage.cpp] and the
    read-only accessors of [MappedHeapFile] on the same layout.  A page is the
    list of its 4096 bytes.  Every access goes through [load] and [memcpy],
    which report an access outside the array as undefined behaviour, so a
    theorem that an operation returns also says that it stays in bounds.

    A page holds a header (magic, slot count, end of the slot directory, start
    of the row area), a directory of six-byte slots that grows upwards from
    byte 16 and rows that grow downwards from the end of the page.  The
    abstract page is its directory [list (option bytes)]: the row in each slot,
    [None] for a free slot. *)

From S2P Require Import Prelude.
From S2P Require Import Config.

Definition PAGE_SIZE : Z := kPageSizeBytes.
Definition MAGIC : Z := kSlottedPageMagic.

Abbreviation page := (list byte) (only parsing).
Abbreviation len l := (Z.of_nat (length l)).

(** * Memory access *)

Definition slice (p : page) (off n : Z) : bytes :=
  take (Z.to_nat n) (drop (Z.to_nat off) p).

Definition splice (p : page) (off : Z) (bs : bytes) : page :=
  take (Z.to_nat off) p ++ bs ++ drop (Z.to_nat off + length bs) p.

Definition load (p : page) (off n : Z) : exec bytes :=
  if decide (0 ≤ off ∧ 0 ≤ n ∧ off + n ≤ len p) then Ok (slice p off n)
  else Err (Undefined "read outside the page").

(** [std::memcpy(bytes_.data() + off, bs.data(), bs.size())] *)
Definition memcpy (p : page) (off : Z) (bs : bytes) : exec page :=
  if decide (0 ≤ off ∧ off + len bs ≤ len p) then Ok (splice p off bs)
  else Err (Undefined "write outside the page").

Definition read16 (p : page) (off : Z) : exec Z :=
  let* b := load p off 2 in Ok (le_value b).
Definition read32 (p : page) (off : Z) : exec Z :=
  let* b := load p off 4 in Ok (le_value b).
Definition write16 (p : page) (off v : Z) : exec page :=
  memcpy p off (le_bytes 2 v).
Definition write32 (p : page) (off v : Z) : exec page :=
  memcpy p off (le_bytes 4 v).

(** * Operations *)

Definition slotOffset (slot : Z) : Z := 16 + slot * 6.

Definition initialize (p : page) : exec page :=
  let p := repeat Byte.x00 (length p) in
  let* p := write32 p 0 MAGIC in
  let* p := write16 p 4 0 in
  let* p := write16 p 6 16 in
  write16 p 8 (wrap16 PAGE_SIZE).

Definition valid (p : page) : exec bool :=
  let* m := read32 p 0 in Ok (m =? MAGIC).

Definition freeSpace (p : page) : exec Z :=
  let* v := valid p in
  if negb v then Ok 0
  else
    let* start := read16 p 6 in
    let* fin := read16 p 8 in
    Ok (if start <=? fin then fin - start else 0).

Definition slotCount (p : page) : exec Z :=
  let* v := valid p in
  if v then read16 p 4 else Ok 0.

(** [valid() && slot < slotCount()] and the slot is live: its offset and
    length.  The guards with which [erase], [read], [readView] and [update]
    begin. *)
Definition liveSlot (p : page) (slot : Z) : exec (option (Z * Z)) :=
  let* v := valid p in
  if negb v then Ok None
  else
    let* n := slotCount p in
    if n <=? slot then Ok None
    else
      let position := slotOffset slot in
      let* live := read16 p (position + 4) in
      if live =? 0 then Ok None
      else
        let* offset := read16 p position in
        let* length := read16 p (position + 2) in
        Ok (Some (offset, length)).

(** [readView]: where the row is; [read]: the row. *)
Definition readView (p : page) (slot : Z) : exec (option (Z * Z)) :=
  let* s := liveSlot p slot in
  match s with
  | None => Ok None
  | Some (offset, length) =>
      if PAGE_SIZE <? offset + length then Err (Throw "Corrupt slotted page")
      else Ok (Some (offset, length))
  end.

Definition read (p : page) (slot : Z) : exec (option bytes) :=
  let* v := readView p slot in
  match v with
  | None => Ok None
  | Some (offset, length) => let* row := load p offset length in Ok (Some row)
  end.

(** The first loop of [compact]: the rows of the live slots, in slot order. *)
Fixpoint live_rows (p : page) (slots : list Z) : exec (list (Z * bytes)) :=
  match slots with
  | [] => Ok []
  | slot :: slots' =>
      let* row := read p slot in
      let* rest := live_rows p slots' in
      Ok (match row with Some r => (slot, r) :: rest | None => rest end)
  end.

(** One iteration of its second loop. *)
Definition compact_row (st : Z * page) (item : Z * bytes) : exec (Z * page) :=
  let '(fin, p) := st in
  let '(slot, row) := item in
  let fin := wrap16 (fin - len row) in
  let* p := memcpy p fin row in
  let position := slotOffset slot in
  let* p := write16 p position fin in
  let* p := write16 p (position + 2) (wrap16 (len row)) in
  let* p := write16 p (position + 4) 1 in
  Ok (fin, p).

Definition compact (p : page) : exec page :=
  let* n := slotCount p in
  let* rows := live_rows p (seqZ 0 n) in
  let* (fin, p) := rfold compact_row rows (wrap16 PAGE_SIZE, p) in
  write16 p 8 fin.

(** The search of [insert] for a free slot. *)
Fixpoint find_reusable (p : page) (slots : list Z) : exec (option Z) :=
  match slots with
  | [] => Ok None
  | slot :: slots' =>
      let* live := read16 p (slotOffset slot + 4) in
      if live =? 0 then Ok (Some slot) else find_reusable p slots'
  end.

(** [insert]: the slot, or [None] when the row does not fit, and the page. *)
Definition insert (p : page) (row : bytes) : exec (option Z * page) :=
  let* v := valid p in
  let* p := if v then Ok p else initialize p in
  if 65535 <? len row then Err (Throw "Tuple is too large")
  else
    let* n := slotCount p in
    let* reusable := find_reusable p (seqZ 0 n) in
    let slotBytes := match reusable with Some _ => 0 | None => 6 end in
    let* free := freeSpace p in
    let* p := if free <? len row + slotBytes then compact p else Ok p in
    let* free := freeSpace p in
    if free <? len row + slotBytes then Ok (None, p)
    else
      let* fin := read16 p 8 in
      let newEnd := wrap16 (fin - len row) in
      let* p := memcpy p newEnd row in
      let* p := write16 p 8 newEnd in
      let* (slot, p) :=
        match reusable with
        | Some slot => Ok (slot, p)
        | None =>
            let* slot := read16 p 4 in
            let* p := write16 p 4 (wrap16 (slot + 1)) in
            let* p := write16 p 6 (wrap16 (16 + (slot + 1) * 6)) in
            Ok (slot, p)
        end in
      let position := slotOffset slot in
      let* p := write16 p position newEnd in
      let* p := write16 p (position + 2) (wrap16 (len row)) in
      let* p := write16 p (position + 4) 1 in
      Ok (Some slot, p).

Definition erase (p : page) (slot : Z) : exec (bool * page) :=
  let* s := liveSlot p slot in
  match s with
  | None => Ok (false, p)
  | Some _ =>
      let position := slotOffset slot in
      let* p := write16 p (position + 4) 0 in
      let* p := write16 p (position + 2) 0 in
      Ok (true, p)
  end.

Definition update (p : page) (slot : Z) (row : bytes) : exec (bool * page) :=
  let* s := liveSlot p slot in
  match s with
  | None => Ok (false, p)
  | Some (offset, length) =>
      if length <? len row then Ok (false, p)
      else
        let* p := memcpy p offset row in
        let* p := write16 p (slotOffset slot + 2) (wrap16 (len row)) in
        Ok (true, p)
  end.

(** * The abstract page *)

Abbreviation directory := (list (option bytes)) (only parsing).

Definition row_size (e : option bytes) : Z := from_option (λ r, len r) 0 e.
Fixpoint live_bytes (d : directory) : Z :=
  match d with [] => 0 | e :: d' => row_size e + live_bytes d' end.

Fixpoint first_free (d : directory) : option nat :=
  match d with
  | [] => None
  | None :: _ => Some O
  | Some _ :: d' => S <$> first_free d'
  end.

(** A row fits when the directory, the live rows and the new row fit. *)
Definition dir_insert (d : directory) (row : bytes) : option (nat * directory) :=
  match first_free d with
  | Some i =>
      if decide (16 + 6 * len d + live_bytes d + len row ≤ PAGE_SIZE)
      then Some (i, <[i := Some row]> d) else None
  | None =>
      if decide (16 + 6 * (len d + 1) + live_bytes d + len row ≤ PAGE_SIZE)
      then Some (length d, d ++ [Some row]) else None
  end.

Definition dir_read (d : directory) (i : nat) : option bytes := mjoin (d !! i).

Definition dir_erase (d : directory) (i : nat) : option directory :=
  _ ← dir_read d i; Some (<[i := None]> d).

(** An update in place never grows a row. *)
Definition dir_update (d : directory) (i : nat) (row : bytes) : option directory :=
  old ← dir_read d i;
  if decide (len row ≤ len old) then Some (<[i := Some row]> d) else None.

(** * Reading what was written *)

Definition peek16 (p : page) (off : Z) : Z := le_value (slice p off 2).
Definition poke16 (p : page) (off v : Z) : page := splice p off (le_bytes 2 v).

Lemma length_splice p off bs :
  0 ≤ off → off + len bs ≤ len p → length (splice p off bs) = length p.
Proof.
  intros H1 H2. unfold splice. rewrite !length_app, length_take, length_drop. lia.
Qed.

Lemma slice_splice_eq p off bs :
  0 ≤ off → off + len bs ≤ len p → slice (splice p off bs) off (len bs) = bs.
Proof.
  intros H1 H2. unfold slice, splice.
  rewrite drop_app_length' by (rewrite length_take; lia).
  by rewrite take_app_length' by lia.
Qed.

Lemma slice_splice_ne p off bs off' n :
  0 ≤ off → off + len bs ≤ len p → 0 ≤ off' → 0 ≤ n →
  off' + n ≤ off ∨ off + len bs ≤ off' →
  slice (splice p off bs) off' n = slice p off' n.
Proof.
  intros H1 H2 H3 H4 [H|H]; unfold slice, splice.
  - rewrite drop_app_le by (rewrite length_take; lia).
    rewrite take_app_le by (rewrite length_drop, length_take; lia).
    rewrite <- (take_drop (Z.to_nat off) p) at 2.
    rewrite drop_app_le by (rewrite length_take; lia).
    by rewrite take_app_le by (rewrite length_drop, length_take; lia).
  - rewrite app_assoc, drop_app_ge by (rewrite length_app, length_take; lia).
    rewrite drop_drop. do 2 f_equal. rewrite length_app, length_take. lia.
Qed.

Lemma peek16_u16 p off : len (slice p off 2) = 2 → u16 (peek16 p off).
Proof.
  intros H. unfold peek16. apply (le_value_uint 2). lia.
Qed.

Lemma length_slice p off n :
  0 ≤ off → 0 ≤ n → off + n ≤ len p → len (slice p off n) = n.
Proof. intros. unfold slice. rewrite length_take, length_drop. lia. Qed.

Lemma len_poke16 p off v : 0 ≤ off → off + 2 ≤ len p → len (poke16 p off v) = len p.
Proof.
  intros. unfold poke16. rewrite length_splice; rewrite ?length_le_bytes; lia.
Qed.

Lemma peek16_poke16_eq p off v :
  0 ≤ off → off + 2 ≤ len p → u16 v → peek16 (poke16 p off v) off = v.
Proof.
  intros H1 H2 Hv. unfold peek16, poke16.
  pose proof (slice_splice_eq p off (le_bytes 2 v) H1) as E.
  rewrite length_le_bytes in E. change (Z.of_nat 2) with 2 in E. rewrite E by lia.
  apply le_value_bytes. exact Hv.
Qed.

Lemma slice_poke16_ne p off v off' n :
  0 ≤ off → off + 2 ≤ len p → 0 ≤ off' → 0 ≤ n → off' + n ≤ off ∨ off + 2 ≤ off' →
  slice (poke16 p off v) off' n = slice p off' n.
Proof. intros. apply slice_splice_ne; rewrite ?length_le_bytes; lia. Qed.

Lemma peek16_poke16_ne p off v off' :
  0 ≤ off → off + 2 ≤ len p → 0 ≤ off' → off' + 2 ≤ off ∨ off + 2 ≤ off' →
  peek16 (poke16 p off v) off' = peek16 p off'.
Proof. intros. unfold peek16. by rewrite slice_poke16_ne by lia. Qed.

Lemma peek16_splice_ne p off bs off' :
  0 ≤ off → off + len bs ≤ len p → 0 ≤ off' → off' + 2 ≤ off ∨ off + len bs ≤ off' →
  peek16 (splice p off bs) off' = peek16 p off'.
Proof. intros. unfold peek16. by rewrite slice_splice_ne by lia. Qed.

Lemma read16_ok p off : 0 ≤ off → off + 2 ≤ len p → read16 p off = Ok (peek16 p off).
Proof. intros. unfold read16, load. by rewrite decide_True by lia. Qed.

Lemma write16_ok p off v :
  0 ≤ off → off + 2 ≤ len p → write16 p off v = Ok (poke16 p off v).
Proof.
  intros. unfold write16, memcpy. rewrite length_le_bytes. by rewrite decide_True by lia.
Qed.

Lemma memcpy_ok p off bs :
  0 ≤ off → off + len bs ≤ len p → memcpy p off bs = Ok (splice p off bs).
Proof. intros. unfold memcpy. by rewrite decide_True by lia. Qed.

(** Bounds: the length of a written page is the length of the page. *)
Ltac page_bounds :=
  first
    [ lia
    | rewrite len_poke16 by page_bounds; page_bounds
    | rewrite length_splice by page_bounds; page_bounds ].

(** Run the memory accesses at the head of the goal. *)
Ltac page_run :=
  repeat first
    [ rewrite read16_ok by page_bounds
    | rewrite write16_ok by page_bounds
    | rewrite memcpy_ok by page_bounds
    | progress cbn [rbind negb] ].

(** Read back through writes. *)
Ltac page_peek :=
  repeat first
    [ rewrite len_poke16 by page_bounds
    | rewrite length_splice by page_bounds
    | rewrite peek16_poke16_eq by first [page_bounds | done]
    | rewrite peek16_poke16_ne by page_bounds
    | rewrite peek16_splice_ne by page_bounds
    | rewrite slice_poke16_ne by page_bounds
    | rewrite slice_splice_eq by page_bounds
    | rewrite slice_splice_ne by page_bounds ].

(** * The representation invariant *)

(** A table gives the offset and the row of every live slot. *)
Abbreviation table := (list (option (Z * bytes))) (only parsing).

Definition slot_rep (p : page) (fin : Z) (i : nat) (e : option (Z * bytes)) : Prop :=
  let position := slotOffset (Z.of_nat i) in
  match e with
  | None => peek16 p (position + 4) = 0
  | Some (o, row) =>
      peek16 p (position + 4) ≠ 0 ∧ peek16 p position = o ∧
      peek16 p (position + 2) = len row ∧ fin ≤ o ∧ o + len row ≤ PAGE_SIZE ∧
      slice p o (len row) = row
  end.

Definition apart (a b : Z * bytes) : Prop :=
  a.1 + len a.2 ≤ b.1 ∨ b.1 + len b.2 ≤ a.1.

Record slots_rep (p : page) (fin : Z) (t : table) : Prop := SlotsRep {
  slots_each i e : t !! i = Some e → slot_rep p fin i e;
  slots_apart i j a b :
    t !! i = Some (Some a) → t !! j = Some (Some b) → i ≠ j → apart a b;
}.

Record header_rep (p : page) (n : Z) : Prop := HeaderRep {
  hd_len : len p = PAGE_SIZE;
  hd_magic : le_value (slice p 0 4) = MAGIC;
  hd_count : peek16 p 4 = n;
  hd_start : peek16 p 6 = 16 + 6 * n;
}.

Definition rows_of (t : table) : directory := option_map snd <$> t.

Record page_rep (p : page) (fin : Z) (t : table) : Prop := PageRep {
  rep_header : header_rep p (len t);
  rep_fin : peek16 p 8 = fin;
  rep_dir : 16 + 6 * len t ≤ fin;
  rep_room : fin + live_bytes (rows_of t) ≤ PAGE_SIZE;
  rep_slots : slots_rep p fin t;
}.

(** [page_ok p d]: the bytes [p] are a well-formed page with directory [d]. *)
Definition page_ok (p : page) (d : directory) : Prop :=
  ∃ fin t, page_rep p fin t ∧ d = rows_of t.

(** ** Framing *)

Lemma live_bytes_nonneg d : 0 ≤ live_bytes d.
Proof. induction d as [|[r|] d IH]; cbn; lia. Qed.

Lemma live_bytes_app d1 d2 : live_bytes (d1 ++ d2) = live_bytes d1 + live_bytes d2.
Proof. induction d1 as [|e d1 IH]; cbn; lia. Qed.

Lemma live_bytes_insert d i e e' :
  d !! i = Some e → live_bytes (<[i := e']> d) = live_bytes d - row_size e + row_size e'.
Proof.
  revert i. induction d as [|x d IH]; intros [|i] Hi; simpl in *; simplify_eq; [lia|].
  rewrite (IH i) by done. lia.
Qed.

Lemma live_bytes_lookup d i e : d !! i = Some e → row_size e ≤ live_bytes d.
Proof.
  revert i. induction d as [|x d IH]; intros [|i] Hi; simpl in *; simplify_eq.
  - pose proof (live_bytes_nonneg d). lia.
  - specialize (IH i Hi). destruct x; cbn; lia.
Qed.

(** A write that misses the slot, its row and the header is not seen. *)
Lemma slot_rep_splice p fin i e off bs :
  slot_rep p fin i e → len p = PAGE_SIZE → 0 ≤ off → off + len bs ≤ len p →
  slotOffset (Z.of_nat i) + 6 ≤ fin → fin ≤ PAGE_SIZE →
  off + len bs ≤ slotOffset (Z.of_nat i) ∨ slotOffset (Z.of_nat i) + 6 ≤ off →
  (∀ o row, e = Some (o, row) → off + len bs ≤ o ∨ o + len row ≤ off) →
  slot_rep (splice p off bs) fin i e.
Proof.
  unfold slot_rep, slotOffset. intros Hrep Hlen ? ? ? ? ? Hrow.
  destruct e as [[o row]|].
  - destruct Hrep as (Hv & Ho & Hl & Hfo & Hend & Hs).
    specialize (Hrow o row eq_refl). page_peek.
    by repeat split.
  - by page_peek.
Qed.

Lemma slots_rep_splice p fin t off bs :
  slots_rep p fin t → len p = PAGE_SIZE → 0 ≤ off → off + len bs ≤ fin →
  16 + 6 * len t ≤ fin → fin ≤ PAGE_SIZE →
  off + len bs ≤ 16 ∨ 16 + 6 * len t ≤ off →
  slots_rep (splice p off bs) fin t.
Proof.
  intros [Heach Hapart] Hlen ? ? ? ? ?. split; [|done]. intros i e Hi.
  pose proof (lookup_lt_Some _ _ _ Hi). apply slot_rep_splice; try done.
  - by apply Heach.
  - lia.
  - unfold slotOffset. lia.
  - unfold slotOffset. lia.
  - intros o row ->. pose proof (Heach _ _ Hi) as Hs. cbn in Hs. lia.
Qed.

Lemma slots_rep_poke16 p fin t off v :
  slots_rep p fin t → len p = PAGE_SIZE → 0 ≤ off → off + 2 ≤ 16 →
  16 + 6 * len t ≤ fin → fin ≤ PAGE_SIZE →
  slots_rep (poke16 p off v) fin t.
Proof. intros. apply slots_rep_splice; rewrite ?length_le_bytes; done || lia. Qed.

Lemma slots_rep_lower p fin fin' t :
  slots_rep p fin t → fin' ≤ fin → slots_rep p fin' t.
Proof.
  intros [Heach Hapart] Hle. split; [|done]. intros i e Hi.
  specialize (Heach i e Hi). destruct e as [[o row]|]; cbn in *; [|done].
  repeat split; lia || tauto.
Qed.

(** The three writes that fill a slot. *)
Definition poke_slot (p : page) (i : nat) (o l : Z) : page :=
  let position := slotOffset (Z.of_nat i) in
  poke16 (poke16 (poke16 p position o) (position + 2) l) (position + 4) 1.

Lemma poke_slot_spec p i o l :
  len p = PAGE_SIZE → slotOffset (Z.of_nat i) + 6 ≤ PAGE_SIZE →
  (let position := slotOffset (Z.of_nat i) in
   let* p := write16 p position o in
   let* p := write16 p (position + 2) l in
   let* p := write16 p (position + 4) 1 in Ok p) = Ok (poke_slot p i o l).
Proof.
  intros Hlen Hi. cbn zeta. unfold slotOffset in *. page_run. done.
Qed.

Lemma len_poke_slot p i o l :
  len p = PAGE_SIZE → slotOffset (Z.of_nat i) + 6 ≤ PAGE_SIZE →
  len (poke_slot p i o l) = PAGE_SIZE.
Proof. intros. unfold poke_slot, slotOffset in *. page_peek. done. Qed.

Lemma peek16_poke_slot_ne p i o l off :
  len p = PAGE_SIZE → slotOffset (Z.of_nat i) + 6 ≤ PAGE_SIZE → 0 ≤ off →
  off + 2 ≤ slotOffset (Z.of_nat i) ∨ slotOffset (Z.of_nat i) + 6 ≤ off →
  peek16 (poke_slot p i o l) off = peek16 p off.
Proof. intros. unfold poke_slot, slotOffset in *. by page_peek. Qed.

Lemma slice_poke_slot_ne p i o l off n :
  len p = PAGE_SIZE → slotOffset (Z.of_nat i) + 6 ≤ PAGE_SIZE → 0 ≤ off → 0 ≤ n →
  off + n ≤ slotOffset (Z.of_nat i) ∨ slotOffset (Z.of_nat i) + 6 ≤ off →
  slice (poke_slot p i o l) off n = slice p off n.
Proof. intros. unfold poke_slot, slotOffset in *. by page_peek. Qed.

Lemma slot_rep_poke_slot_ne p fin i j o l e :
  slot_rep p fin j e → j ≠ i → len p = PAGE_SIZE →
  slotOffset (Z.of_nat i) + 6 ≤ fin → slotOffset (Z.of_nat j) + 6 ≤ fin →
  fin ≤ PAGE_SIZE →
  slot_rep (poke_slot p i o l) fin j e.
Proof.
  intros Hrep Hji Hlen Hi Hj Hfin. unfold slot_rep in *.
  destruct e as [[o' row]|].
  - destruct Hrep as (? & ? & ? & ? & ? & ?).
    rewrite !peek16_poke_slot_ne, slice_poke_slot_ne
      by (unfold slotOffset in *; lia).
    by repeat split.
  - by rewrite peek16_poke_slot_ne by (unfold slotOffset in *; lia).
Qed.

Lemma slot_rep_poke_slot_eq p fin i o row :
  len p = PAGE_SIZE → slotOffset (Z.of_nat i) + 6 ≤ fin → fin ≤ o →
  o + len row ≤ PAGE_SIZE → slice p o (len row) = row →
  slot_rep (poke_slot p i o (len row)) fin i (Some (o, row)).
Proof.
  intros Hlen Hi Ho Hrow Hs. change PAGE_SIZE with 4096 in *.
  cbn. unfold poke_slot, slotOffset in *.
  assert (u16 o ∧ u16 (len row) ∧ u16 1) as (? & ? & ?) by (unfold uint; lia).
  page_peek. repeat split; done || lia.
Qed.

(** Fill slot [i], which was free or did not exist. *)
Lemma slots_rep_fill p fin t t' i o row :
  slots_rep p fin t → len p = PAGE_SIZE → fin ≤ PAGE_SIZE →
  (∀ j, j ≠ i → t' !! j = t !! j) → t' !! i = Some (Some (o, row)) →
  o + len row ≤ fin → 16 + 6 * len t' ≤ o → slice p o (len row) = row →
  slots_rep (poke_slot p i o (len row)) o t'.
Proof.
  intros [Heach Hapart] Hlen Hfin Hne Hi Ho Hdir Hs.
  pose proof (lookup_lt_Some _ _ _ Hi) as Hilt.
  assert (∀ j o' row', j ≠ i → t' !! j = Some (Some (o', row')) → fin ≤ o') as Hfar.
  { intros j o' row' Hji Hj. rewrite Hne in Hj by done. apply (Heach _ _ Hj). }
  split.
  - intros j e Hj. pose proof (lookup_lt_Some _ _ _ Hj) as Hjlt.
    destruct (decide (j = i)) as [->|Hji].
    + rewrite Hi in Hj. injection Hj as <-.
      apply slot_rep_poke_slot_eq; unfold slotOffset; done || lia.
    + apply slot_rep_poke_slot_ne; try done; unfold slotOffset; try lia.
      rewrite Hne in Hj by done.
      specialize (Heach j e Hj). destruct e as [[o' row']|]; cbn in *; [|done].
      repeat split; lia || tauto.
  - intros j k [oj rj] [ok rk] Hj Hk Hjk. unfold apart. cbn.
    destruct (decide (j = i)) as [->|Hji]; [|destruct (decide (k = i)) as [->|Hki]].
    + rewrite Hi in Hj. injection Hj as <- <-.
      specialize (Hfar k ok rk (not_eq_sym Hjk) Hk). lia.
    + rewrite Hi in Hk. injection Hk as <- <-. specialize (Hfar j oj rj Hjk Hj). lia.
    + rewrite Hne in Hj, Hk by done. apply (Hapart j k _ _ Hj Hk Hjk).
Qed.

(** ** The guards *)

Lemma rows_of_lookup t i : rows_of t !! i = option_map snd <$> t !! i.
Proof. apply list_lookup_fmap. Qed.

Lemma length_rows_of t : length (rows_of t) = length t.
Proof. apply length_fmap. Qed.

Lemma rows_of_insert t i e : rows_of (<[i := e]> t) = <[i := option_map snd e]> (rows_of t).
Proof. apply list_fmap_insert. Qed.

Lemma dir_read_rows_of t i :
  dir_read (rows_of t) i = snd <$> mjoin (t !! i).
Proof. unfold dir_read. rewrite rows_of_lookup. by destruct (t !! i) as [[[]|]|]. Qed.

Lemma header_valid p n : header_rep p n → valid p = Ok true.
Proof.
  intros [Hlen Hmagic _ _]. unfold valid, read32, load.
  rewrite decide_True by (rewrite Hlen; vm_compute; intuition discriminate).
  cbn [rbind]. rewrite Hmagic. done.
Qed.

Lemma header_slotCount p n : header_rep p n → slotCount p = Ok n.
Proof.
  intros Hh. unfold slotCount. rewrite (header_valid p n Hh). cbn [rbind].
  destruct Hh as [Hlen _ <- _]. rewrite read16_ok; [done|lia|].
  rewrite Hlen. vm_compute. discriminate.
Qed.

Lemma header_splice p n off bs :
  header_rep p n → 10 ≤ off → off + len bs ≤ PAGE_SIZE →
  header_rep (splice p off bs) n.
Proof.
  intros [Hlen Hmagic Hcount Hstart] Hoff Hend. split; page_peek; done || lia.
Qed.

Lemma header_poke_slot p n i o l :
  header_rep p n → slotOffset (Z.of_nat i) + 6 ≤ PAGE_SIZE →
  header_rep (poke_slot p i o l) n.
Proof.
  intros Hh Hi. pose proof (hd_len _ _ Hh) as Hlen. unfold poke_slot.
  assert (16 ≤ slotOffset (Z.of_nat i)) by (unfold slotOffset; lia).
  repeat (apply header_splice; [|lia|rewrite length_le_bytes; lia]). done.
Qed.

Lemma header_poke8 p n v : header_rep p n → header_rep (poke16 p 8 v) n.
Proof.
  intros [Hlen Hmagic Hcount Hstart]. change PAGE_SIZE with 4096 in *.
  split; change PAGE_SIZE with 4096; page_peek; done.
Qed.

(** What [liveSlot] sees of a table. *)
Definition extent (t : table) (i : nat) : option (Z * Z) :=
  '(o, row) ← mjoin (t !! i); Some (o, len row).

Lemma liveSlot_ok p fin t i :
  page_rep p fin t → liveSlot p (Z.of_nat i) = Ok (extent t i).
Proof.
  intros [Hh Hfin Hdir Hroom [Heach _]]. unfold liveSlot, extent.
  rewrite (header_valid _ _ Hh), (header_slotCount _ _ Hh). cbn [rbind negb].
  destruct (t !! i) as [e|] eqn:Hi.
  2:{ apply lookup_ge_None in Hi. destruct (Z.leb_spec (len t) (Z.of_nat i)); [done|lia]. }
  pose proof (lookup_lt_Some _ _ _ Hi).
  destruct (Z.leb_spec (len t) (Z.of_nat i)); [lia|].
  destruct Hh as [Hlen _ _ _]. specialize (Heach i e Hi).
  pose proof (live_bytes_nonneg (rows_of t)).
  unfold slot_rep, slotOffset in *.
  destruct e as [[o row]|]; page_run.
  - destruct Heach as (Hv & -> & -> & _).
    by destruct (Z.eqb_spec (peek16 p (16 + Z.of_nat i * 6 + 4)) 0).
  - by rewrite Heach.
Qed.

Lemma read_rep p fin t i :
  page_rep p fin t → read p (Z.of_nat i) = Ok (dir_read (rows_of t) i).
Proof.
  intros Hrep. unfold read, readView.
  rewrite (liveSlot_ok p fin t) by done. cbn [rbind]. unfold extent.
  rewrite dir_read_rows_of.
  destruct (t !! i) as [[[o row]|]|] eqn:Hi; [|done..]. cbn.
  destruct Hrep as [[Hlen _ _ _] Hfin Hdir Hroom [Heach _]].
  destruct (Heach _ _ Hi) as (_ & _ & _ & Hlo & Hhi & Hs).
  destruct (Z.ltb_spec PAGE_SIZE (o + len row)); [lia|]. cbn [rbind].
  unfold load. rewrite decide_True by lia. cbn [rbind]. by rewrite Hs.
Qed.

Lemma freeSpace_rep p fin t :
  page_rep p fin t → freeSpace p = Ok (fin - (16 + 6 * len t)).
Proof.
  intros [Hh Hfin Hdir Hroom _]. unfold freeSpace.
  rewrite (header_valid _ _ Hh). cbn [rbind negb]. destruct Hh as [Hlen _ _ Hstart].
  change PAGE_SIZE with 4096 in *. page_run. rewrite Hfin, Hstart.
  by destruct (Z.leb_spec (16 + 6 * len t) fin); [|lia].
Qed.

(** ** [compact] keeps the directory and packs the rows *)

Fixpoint numbered (k : nat) (t : table) : list (Z * bytes) :=
  match t with
  | [] => []
  | None :: t' => numbered (S k) t'
  | Some (_, row) :: t' => (Z.of_nat k, row) :: numbered (S k) t'
  end.

Lemma live_rows_ok p t k :
  (∀ j, read p (Z.of_nat (k + j)) = Ok (snd <$> mjoin (t !! j))) →
  live_rows p (seqZ (Z.of_nat k) (len t)) = Ok (numbered k t).
Proof.
  revert k. induction t as [|e t IH]; intros k Hread; [done|].
  rewrite seqZ_cons by (cbn; lia). cbn [live_rows].
  specialize (Hread O) as H0. rewrite Nat.add_0_r in H0. rewrite H0. cbn [rbind].
  replace (Z.succ (Z.of_nat k)) with (Z.of_nat (S k)) by lia.
  replace (Z.pred (len (e :: t))) with (len t) by (cbn; lia).
  rewrite IH.
  - by destruct e as [[]|].
  - intros j. specialize (Hread (S j)). replace (S k + j)%nat with (k + S j)%nat by lia. done.
Qed.

Record compacting (p : page) (fin : Z) (t rest : table) : Prop := Compacting {
  cp_header : header_rep p (len t + len rest);
  cp_slots : slots_rep p fin t;
  cp_packed : fin + live_bytes (rows_of t) = PAGE_SIZE;
  cp_room : 16 + 6 * (len t + len rest) + live_bytes (rows_of rest) ≤ fin;
  cp_free j : rest !! j = Some None → slot_rep p fin (length t + j) None;
}.

Lemma compacting_skip p fin t rest :
  compacting p fin t (None :: rest) → compacting p fin (t ++ [None]) rest.
Proof.
  intros [Hh [Heach Hapart] Hpack Hroom Hfree].
  assert (∀ j e, (t ++ [None]) !! j = Some (Some e) → t !! j = Some (Some e)) as Hold.
  { intros j e. rewrite lookup_app. destruct (t !! j) eqn:E; [done|].
    by destruct (j - length t)%nat. }
  split.
  - rewrite length_app. cbn [length] in *.
    by replace (Z.of_nat (length t + 1) + len rest)
      with (len t + Z.of_nat (S (length rest))) by lia.
  - split.
    + intros j e Hj. apply lookup_app_Some in Hj as [Hj|[Hlen Hj]]; [by apply Heach|].
      apply list_lookup_singleton_Some in Hj as [Hj <-].
      replace j with (length t + 0)%nat by lia. by apply Hfree.
    + intros i j a b Hi Hj. by apply Hapart; apply Hold.
  - unfold rows_of in *. rewrite fmap_app, live_bytes_app. cbn. lia.
  - rewrite length_app.
    change (live_bytes (rows_of (None :: rest))) with (live_bytes (rows_of rest)) in Hroom.
    cbn [length] in *. lia.
  - intros j Hj. rewrite length_app. cbn [length].
    replace (length t + 1 + j)%nat with (length t + S j)%nat by lia. by apply Hfree.
Qed.

Lemma compacting_row p fin t o row rest :
  compacting p fin t (Some (o, row) :: rest) →
  ∃ p', compact_row (fin, p) (Z.of_nat (length t), row) = Ok (fin - len row, p') ∧
    compacting p' (fin - len row) (t ++ [Some (fin - len row, row)]) rest.
Proof.
  intros [Hh Hslots Hpack Hroom Hfree]. cbn [length] in *.
  pose proof (live_bytes_nonneg (rows_of t)). pose proof (live_bytes_nonneg (rows_of rest)).
  pose proof (hd_len _ _ Hh) as Hlen. change PAGE_SIZE with 4096 in *.
  change (live_bytes (rows_of (Some (o, row) :: rest)))
    with (len row + live_bytes (rows_of rest)) in *.
  set (fin' := fin - len row) in *. set (k := length t) in *.
  set (q := splice p fin' row).
  assert (len q = 4096) as Hq by (unfold q; by page_peek).
  exists (poke_slot q k fin' (len row)). split.
  - unfold compact_row. fold fin'.
    rewrite (wrap_small 16 fin') by (unfold uint; lia).
    rewrite (wrap_small 16 (len row)) by (unfold uint; lia).
    rewrite memcpy_ok by lia. cbn [rbind]. fold q.
    pose proof (poke_slot_spec q k fin' (len row) Hq) as Hpoke.
    change PAGE_SIZE with 4096 in Hpoke. unfold slotOffset in *.
    unfold poke_slot, slotOffset. page_run. done.
  - assert (∀ j, rest !! j = Some None →
              slot_rep (poke_slot q k fin' (len row)) fin' (k + S j) None) as Hdead.
    { intros j Hj. pose proof (lookup_lt_Some _ _ _ Hj). unfold slot_rep, slotOffset.
      rewrite peek16_poke_slot_ne by (unfold slotOffset; change PAGE_SIZE with 4096; lia).
      unfold q. rewrite peek16_splice_ne by lia. apply (Hfree (S j) Hj). }
    split.
    + rewrite length_app. cbn [length]. replace (Z.of_nat (length t + 1) + len rest)
        with (Z.of_nat k + Z.of_nat (S (length rest))) by lia.
      apply header_poke_slot; [|unfold slotOffset; change PAGE_SIZE with 4096; lia].
      apply header_splice; change PAGE_SIZE with 4096; done || lia.
    + apply slots_rep_fill with fin t; change PAGE_SIZE with 4096; try lia.
      * apply slots_rep_splice; change PAGE_SIZE with 4096; done || lia.
      * intros j Hj. destruct (decide (j < k)%nat); [by rewrite lookup_app_l|].
        by rewrite !lookup_ge_None_2 by (rewrite ?length_app; cbn; lia).
      * unfold k. by rewrite lookup_app_r, Nat.sub_diag by lia.
      * rewrite length_app. cbn. lia.
      * unfold q. by page_peek.
    + unfold rows_of in *. rewrite fmap_app, live_bytes_app. cbn.
      change PAGE_SIZE with 4096. lia.
    + rewrite length_app. cbn [length]. lia.
    + intros j Hj. rewrite length_app. cbn [length].
      replace (length t + 1 + j)%nat with (k + S j)%nat by lia. by apply Hdead.
Qed.

Lemma compact_fold rest : ∀ p fin t,
  compacting p fin t rest →
  ∃ p' fin' t', rfold compact_row (numbered (length t) rest) (fin, p) = Ok (fin', p') ∧
    compacting p' fin' t' [] ∧ rows_of t' = rows_of t ++ rows_of rest.
Proof.
  induction rest as [|[[o row]|] rest IH]; intros p fin t Hc.
  - exists p, fin, t. split; [done|]. split; [done|]. by rewrite app_nil_r.
  - destruct (compacting_row _ _ _ _ _ _ Hc) as (q & Hstep & Hq).
    destruct (IH _ _ _ Hq) as (p' & fin' & t' & Hrun & Hp' & Hrows).
    exists p', fin', t'. split; [|split; [done|]].
    + cbn [numbered rfold]. rewrite Hstep. cbn [rbind].
      rewrite length_app in Hrun. cbn in Hrun.
      by replace (length t + 1)%nat with (S (length t)) in Hrun by lia.
    + rewrite Hrows. unfold rows_of. by rewrite fmap_app, <- app_assoc.
  - destruct (IH _ _ _ (compacting_skip _ _ _ _ Hc)) as (p' & fin' & t' & Hrun & Hp' & Hrows).
    exists p', fin', t'. split; [|split; [done|]].
    + cbn [numbered]. rewrite length_app in Hrun. cbn in Hrun.
      by replace (length t + 1)%nat with (S (length t)) in Hrun by lia.
    + rewrite Hrows. unfold rows_of. by rewrite fmap_app, <- app_assoc.
Qed.

Lemma compact_rep p fin t :
  page_rep p fin t →
  ∃ p' fin' t', compact p = Ok p' ∧ page_rep p' fin' t' ∧ rows_of t' = rows_of t ∧
    fin' + live_bytes (rows_of t) = PAGE_SIZE.
Proof.
  intros Hrep. pose proof Hrep as [Hh Hfin Hdir Hroom [Heach Hapart]].
  assert (compacting p PAGE_SIZE [] t) as Hstart.
  { split; cbn; [done| |done|lia|].
    - by split.
    - intros j Hj. apply (Heach j None Hj). }
  destruct (compact_fold t p PAGE_SIZE [] Hstart)
    as (q & fin' & t' & Hrun & [Hq Hqs Hqp Hqr _] & Hrows).
  cbn in Hrows, Hq, Hqr, Hrun. rewrite Z.add_0_r in Hq, Hqr.
  assert (len t' = len t) as Hlen by (by rewrite <- !(length_rows_of), Hrows).
  pose proof (live_bytes_nonneg (rows_of t')).
  pose proof (hd_len _ _ Hq) as Hlq. change PAGE_SIZE with 4096 in *.
  exists (poke16 q 8 fin'), fin', t'. split; [|split; [|split; [done|by rewrite <- Hrows]]].
  - unfold compact. rewrite (header_slotCount _ _ Hh). cbn [rbind].
    change 0 with (Z.of_nat 0) at 1. rewrite (live_rows_ok p t 0).
    2:{ intros j. rewrite (read_rep p fin t) by done. by rewrite dir_read_rows_of. }
    cbn [rbind]. change (wrap16 PAGE_SIZE) with 4096. rewrite Hrun. cbn [rbind].
    by page_run.
  - split.
    + by apply header_poke8.
    + assert (u16 fin') by (unfold uint; lia). by page_peek.
    + lia.
    + change PAGE_SIZE with 4096. lia.
    + apply slots_rep_poke16; change PAGE_SIZE with 4096; try lia. done.
Qed.

(** ** [insert] *)

Lemma find_reusable_ok p t k :
  (∀ j e, t !! j = Some e → ∃ live,
     read16 p (slotOffset (Z.of_nat (k + j)) + 4) = Ok live ∧ (live = 0 ↔ e = None)) →
  find_reusable p (seqZ (Z.of_nat k) (len t))
  = Ok ((λ i, Z.of_nat (k + i)) <$> first_free (rows_of t)).
Proof.
  revert k. induction t as [|e t IH]; intros k Hread; [done|].
  rewrite seqZ_cons by (cbn; lia). cbn [find_reusable].
  destruct (Hread O e eq_refl) as (live & Hl & Hlive).
  rewrite Nat.add_0_r in Hl. rewrite Hl. cbn [rbind].
  destruct (Z.eqb_spec live 0) as [->|Hne].
  - assert (e = None) as -> by (by apply Hlive). cbn. by rewrite Nat.add_0_r.
  - destruct e as [[o row]|]; [|by destruct Hne; apply Hlive].
    replace (Z.succ (Z.of_nat k)) with (Z.of_nat (S k)) by lia.
    replace (Z.pred (len (Some (o, row) :: t))) with (len t) by (cbn; lia).
    rewrite IH.
    + cbn. fold (rows_of t). destruct (first_free (rows_of t)); [|done].
      cbn. do 2 f_equal. lia.
    + intros j e' Hj. replace (S k + j)%nat with (k + S j)%nat by lia. by apply Hread.
Qed.

Lemma first_free_spec d i : first_free d = Some i → d !! i = Some None.
Proof.
  revert i. induction d as [|[r|] d IH]; intros i Hi; simpl in *; [done| |by simplify_eq].
  apply fmap_Some in Hi as (j & Hj & ->). by apply IH.
Qed.

Lemma find_reusable_rep p fin t :
  page_rep p fin t →
  find_reusable p (seqZ 0 (len t)) = Ok (Z.of_nat <$> first_free (rows_of t)).
Proof.
  intros [[Hlen _ _ _] Hfin Hdir Hroom [Heach _]].
  change 0 with (Z.of_nat 0). rewrite find_reusable_ok; [done|].
  intros j e Hj. exists (peek16 p (slotOffset (Z.of_nat j) + 4)).
  pose proof (lookup_lt_Some _ _ _ Hj). pose proof (live_bytes_nonneg (rows_of t)).
  split; [apply read16_ok; unfold slotOffset; lia|].
  specialize (Heach j e Hj). destruct e as [[o row]|]; cbn in Heach; [|tauto].
  split; [tauto|done].
Qed.

(** The writes of [insert] once the room is known: slot [i] of a directory of
    [n] slots afterwards. *)
Definition fill (p : page) (fin : Z) (i : nat) (grow : bool) (row : bytes) : page :=
  let newEnd := fin - len row in
  let p := poke16 (splice p newEnd row) 8 newEnd in
  let p :=
    if grow then poke16 (poke16 p 4 (Z.of_nat i + 1)) 6 (16 + (Z.of_nat i + 1) * 6)
    else p in
  poke_slot p i newEnd (len row).

Lemma fill_rep p fin t t' i (grow : bool) row :
  page_rep p fin t →
  (∀ j, j ≠ i → t' !! j = t !! j) → t' !! i = Some (Some (fin - len row, row)) →
  (if grow then i = length t else (i < length t)%nat) →
  length t' = (if grow then S (length t) else length t) →
  live_bytes (rows_of t') = live_bytes (rows_of t) + len row →
  16 + 6 * len t' ≤ fin - len row →
  page_rep (fill p fin i grow row) (fin - len row) t'.
Proof.
  intros [Hh Hfin Hdir Hroom Hslots] Hne Hi Hgrow Hlen' Hlive Hfit.
  pose proof Hh as [Hlen Hmagic Hcount Hstart].
  pose proof (live_bytes_nonneg (rows_of t)).
  change PAGE_SIZE with 4096 in *. set (newEnd := fin - len row) in *.
  assert (u16 newEnd ∧ newEnd + len row = fin) as [Hu Hend] by (unfold uint; lia).
  assert (len t ≤ len t') as Hle by (destruct grow; lia).
  set (q := poke16 (splice p newEnd row) 8 newEnd).
  set (r := if grow then poke16 (poke16 q 4 (Z.of_nat i + 1)) 6 (16 + (Z.of_nat i + 1) * 6)
            else q).
  assert (slotOffset (Z.of_nat i) + 6 ≤ newEnd) as Hslot
    by (unfold slotOffset; destruct grow; lia).
  assert (len q = 4096) as Hq by (unfold q; by page_peek).
  assert (len r = 4096) as Hr by (unfold r; destruct grow; by page_peek).
  assert (slots_rep q fin t) as Hqs.
  { unfold q. apply slots_rep_poke16; change PAGE_SIZE with 4096; try lia; [|by page_peek].
    apply slots_rep_splice; change PAGE_SIZE with 4096; done || lia. }
  assert (slots_rep r fin t) as Hrs.
  { unfold r. destruct grow; [|done].
    apply slots_rep_poke16; change PAGE_SIZE with 4096; try lia; [|by page_peek].
    apply slots_rep_poke16; change PAGE_SIZE with 4096; done || lia. }
  assert (peek16 r 8 = newEnd ∧ slice r newEnd (len row) = row ∧ header_rep r (len t'))
    as (Hr8 & Hrow & Hhr).
  { unfold r, q. split; [|split]; [destruct grow; by page_peek..|].
    split; destruct grow; change PAGE_SIZE with 4096; page_peek; try done; try lia.
    - rewrite peek16_poke16_eq by (page_bounds || (unfold uint; lia)). lia.
    - rewrite peek16_poke16_eq by (page_bounds || (unfold uint; lia)). lia. }
  unfold fill. fold newEnd q r.
  split; change PAGE_SIZE with 4096; try lia.
  - apply header_poke_slot; [done|]. change PAGE_SIZE with 4096. lia.
  - rewrite peek16_poke_slot_ne; try lia; change PAGE_SIZE with 4096; try lia.
    unfold slotOffset. lia.
  - apply slots_rep_fill with fin t; try done; change PAGE_SIZE with 4096; lia.
Qed.

Lemma insert_room p fin t (row : bytes) :
  page_rep p fin t → len row ≤ 65535 →
  let slotBytes := match first_free (rows_of t) with Some _ => 0 | None => 6 end in
  ∃ p' fin' t',
    (let* free := freeSpace p in
     if free <? len row + slotBytes then compact p else Ok p) = Ok p' ∧
    page_rep p' fin' t' ∧ rows_of t' = rows_of t ∧
    (fin' - (16 + 6 * len t') < len row + slotBytes ↔
     PAGE_SIZE < 16 + 6 * len t + slotBytes + live_bytes (rows_of t) + len row).
Proof.
  intros Hrep Hrow slotBytes. rewrite (freeSpace_rep p fin t) by done. cbn [rbind].
  destruct (Z.ltb_spec (fin - (16 + 6 * len t)) (len row + slotBytes)) as [Hlt|Hge].
  - destruct (compact_rep p fin t Hrep) as (p' & fin' & t' & Hrun & Hp' & Hrows & Hpacked).
    exists p', fin', t'. repeat (split; [done|]).
    assert (len t' = len t) by (by rewrite <- (length_rows_of t'), <- (length_rows_of t), Hrows). lia.
  - exists p, fin, t. repeat (split; [done|]).
    pose proof (rep_room _ _ _ Hrep). lia.
Qed.

Lemma insert_rep p d row :
  page_ok p d → len row ≤ 65535 →
  match dir_insert d row with
  | Some (i, d') => ∃ p', insert p row = Ok (Some (Z.of_nat i), p') ∧ page_ok p' d'
  | None => ∃ p', insert p row = Ok (None, p') ∧ page_ok p' d
  end.
Proof.
  intros (fin & t & Hrep & ->) Hrow. unfold insert, dir_insert.
  pose proof (rep_header _ _ _ Hrep) as Hh.
  rewrite (header_valid _ _ Hh). cbn [rbind].
  destruct (Z.ltb_spec 65535 (len row)); [lia|].
  rewrite (header_slotCount _ _ Hh). cbn [rbind].
  rewrite (find_reusable_rep p fin t) by done. cbn [rbind].
  destruct (insert_room p fin t row Hrep Hrow) as (q & fin' & t' & Hq & Hqr & Hrows & Hroom).
  rewrite length_rows_of.
  assert (length t' = length t) as Hlen by (by rewrite <- (length_rows_of t'), <- (length_rows_of t), Hrows).
  rewrite (freeSpace_rep p fin t) in Hq |- * by done. cbn [rbind] in Hq |- *.
  pose proof (rep_dir _ _ _ Hqr). pose proof (rep_fin _ _ _ Hqr) as Hfin.
  pose proof (rep_room _ _ _ Hqr). pose proof (live_bytes_nonneg (rows_of t')).
  pose proof (hd_len _ _ (rep_header _ _ _ Hqr)) as Hlq.
  pose proof (hd_count _ _ (rep_header _ _ _ Hqr)) as Hcount.
  change PAGE_SIZE with 4096 in *.
  destruct (first_free (rows_of t)) as [i|] eqn:Hfree; cbn [fmap option_fmap option_map].
  - rewrite Hq. cbn [rbind]. rewrite (freeSpace_rep q fin' t') by done. cbn [rbind].
    destruct (Z.ltb_spec (fin' - (16 + 6 * len t')) (len row + 0)) as [Hlt|Hge].
    { rewrite decide_False by lia. exists q. split; [done|]. by exists fin', t'. }
    rewrite decide_True by lia.
    apply first_free_spec in Hfree. rewrite <- Hrows in Hfree.
    pose proof (lookup_lt_Some _ _ _ Hfree) as Hi. rewrite length_rows_of in Hi.
    rewrite read16_ok by lia. cbn [rbind]. rewrite Hfin.
    rewrite (wrap_small 16 (fin' - len row)) by (unfold uint; lia).
    rewrite (wrap_small 16 (len row)) by (unfold uint; lia).
    exists (fill q fin' i false row). split.
    + unfold fill, poke_slot, slotOffset. page_run. done.
    + exists (fin' - len row), (<[i := Some (fin' - len row, row)]> t').
      split; [|by rewrite rows_of_insert, Hrows].
      apply fill_rep with t'; try done; rewrite ?length_insert; try lia.
      * intros j Hj. by rewrite list_lookup_insert_ne.
      * by rewrite list_lookup_insert_eq.
      * rewrite rows_of_insert, (live_bytes_insert _ _ None) by done. cbn. lia.
  - rewrite Hq. cbn [rbind]. rewrite (freeSpace_rep q fin' t') by done. cbn [rbind].
    destruct (Z.ltb_spec (fin' - (16 + 6 * len t')) (len row + 6)) as [Hlt|Hge].
    { rewrite decide_False by lia. exists q. split; [done|]. by exists fin', t'. }
    rewrite decide_True by lia.
    rewrite read16_ok by lia. cbn [rbind]. rewrite Hfin.
    rewrite (wrap_small 16 (fin' - len row)) by (unfold uint; lia).
    rewrite (wrap_small 16 (len row)) by (unfold uint; lia).
    exists (fill q fin' (length t) true row). split.
    + rewrite memcpy_ok by lia. cbn [rbind]. rewrite write16_ok by page_bounds.
      cbn [rbind]. rewrite (read16_ok _ 4) by page_bounds. cbn [rbind].
      rewrite peek16_poke16_ne by page_bounds. rewrite peek16_splice_ne by lia.
      rewrite Hcount, Hlen.
      rewrite (wrap_small 16 (len t + 1)) by (unfold uint; lia).
      rewrite (wrap_small 16 (16 + (len t + 1) * 6)) by (unfold uint; lia).
      unfold fill, poke_slot, slotOffset. page_run. done.
    + exists (fin' - len row), (t' ++ [Some (fin' - len row, row)]). split.
      * apply fill_rep with t'; try done; rewrite ?length_app; cbn [length]; try lia.
        -- intros j Hj. destruct (decide (j < length t')%nat); [by rewrite lookup_app_l|].
           by rewrite !lookup_ge_None_2 by (rewrite ?length_app; cbn [length]; lia).
        -- by rewrite lookup_app_r, <- Hlen, Nat.sub_diag by lia.
        -- unfold rows_of. rewrite fmap_app, live_bytes_app. cbn. lia.
      * unfold rows_of in *. rewrite fmap_app, Hrows. done.
Qed.

(** ** [erase] and [update] *)

Lemma page_rep_slot p p' fin t i e :
  page_rep p fin t → (i < length t)%nat → header_rep p' (len t) → peek16 p' 8 = fin →
  slot_rep p' fin i e →
  (∀ j e', j ≠ i → t !! j = Some e' → slot_rep p' fin j e') →
  (∀ j a b, j ≠ i → t !! j = Some (Some a) → e = Some b → apart a b) →
  live_bytes (rows_of (<[i := e]> t)) ≤ live_bytes (rows_of t) →
  page_rep p' fin (<[i := e]> t).
Proof.
  intros [Hh Hfin Hdir Hroom [Heach Hapart]] Hi Hh' Hfin' He Hothers Hap Hlive.
  split; rewrite ?length_insert; try done; [lia|]. split.
  - intros j e' Hj. destruct (decide (j = i)) as [->|Hji].
    + rewrite list_lookup_insert_eq in Hj by done. by simplify_eq.
    + rewrite list_lookup_insert_ne in Hj by done. by apply Hothers.
  - intros j k a b Hj Hk Hjk. destruct (decide (j = i)) as [->|Hji].
    + rewrite list_lookup_insert_eq in Hj by done. simplify_eq.
      rewrite list_lookup_insert_ne in Hk by done.
      destruct (Hap k b a) as [?|?]; try done; [right|left]; done.
    + rewrite list_lookup_insert_ne in Hj by done. destruct (decide (k = i)) as [->|Hki].
      * rewrite list_lookup_insert_eq in Hk by done. simplify_eq.
        by apply (Hap j a b).
      * rewrite list_lookup_insert_ne in Hk by done. by apply (Hapart j k).
Qed.

Lemma extent_None t i : extent t i = None ↔ dir_read (rows_of t) i = None.
Proof.
  rewrite dir_read_rows_of. unfold extent. by destruct (t !! i) as [[[]|]|].
Qed.

Lemma erase_rep p d i :
  page_ok p d →
  match dir_erase d i with
  | Some d' => ∃ p', erase p (Z.of_nat i) = Ok (true, p') ∧ page_ok p' d'
  | None => erase p (Z.of_nat i) = Ok (false, p)
  end.
Proof.
  intros (fin & t & Hrep & ->). unfold erase, dir_erase.
  rewrite (liveSlot_ok p fin t) by done. cbn [rbind].
  pose proof (extent_None t i) as Hnone.
  destruct (t !! i) as [[[o row]|]|] eqn:Hi.
  2,3: assert (dir_read (rows_of t) i = None) as -> by
         (rewrite dir_read_rows_of, Hi; done);
       by rewrite (proj2 Hnone) by (rewrite dir_read_rows_of, Hi; done).
  unfold extent. rewrite dir_read_rows_of, Hi. cbn.
  pose proof (lookup_lt_Some _ _ _ Hi) as Hlt.
  pose proof Hrep as [Hh Hfin Hdir Hroom [Heach Hapart]].
  pose proof (hd_len _ _ Hh) as Hlen. pose proof (live_bytes_nonneg (rows_of t)).
  unfold slotOffset. change PAGE_SIZE with 4096 in *. page_run.
  eexists. split; [done|].
  exists fin, (<[i := None]> t). split; [|by rewrite rows_of_insert].
  apply page_rep_slot with p; try done.
  - do 2 (apply header_splice; rewrite ?length_le_bytes;
      change PAGE_SIZE with 4096; try lia). done.
  - by page_peek.
  - unfold slot_rep, slotOffset. assert (u16 0) by done. by page_peek.
  - intros j e' Hj He'. pose proof (lookup_lt_Some _ _ _ He').
    specialize (Heach j e' He'). unfold slot_rep, slotOffset in *.
    change PAGE_SIZE with 4096 in *. destruct e' as [[o' row']|].
    + destruct Heach as (? & ? & ? & ? & ? & ?). page_peek. by repeat split.
    + by page_peek.
  - rewrite rows_of_insert, (live_bytes_insert _ _ (Some row))
      by (by rewrite rows_of_lookup, Hi). cbn. lia.
Qed.

Lemma take_slice p o n m : 0 ≤ o → 0 ≤ n ≤ m → slice p o n = take (Z.to_nat n) (slice p o m).
Proof. intros. unfold slice. rewrite take_take. f_equal. lia. Qed.

Lemma update_rep p d i row :
  page_ok p d →
  match dir_update d i row with
  | Some d' => ∃ p', update p (Z.of_nat i) row = Ok (true, p') ∧ page_ok p' d'
  | None => update p (Z.of_nat i) row = Ok (false, p)
  end.
Proof.
  intros (fin & t & Hrep & ->). unfold update, dir_update.
  rewrite (liveSlot_ok p fin t) by done. cbn [rbind].
  pose proof (extent_None t i) as Hnone.
  destruct (t !! i) as [[[o old]|]|] eqn:Hi.
  2,3: assert (dir_read (rows_of t) i = None) as -> by
         (rewrite dir_read_rows_of, Hi; done);
       by rewrite (proj2 Hnone) by (rewrite dir_read_rows_of, Hi; done).
  unfold extent. rewrite dir_read_rows_of, Hi. cbn.
  destruct (Z.ltb_spec (len old) (len row)) as [Hlt|Hle]; [by rewrite decide_False by lia|].
  rewrite decide_True by lia.
  pose proof (lookup_lt_Some _ _ _ Hi) as Hilt.
  pose proof Hrep as [Hh Hfin Hdir Hroom [Heach Hapart]].
  pose proof (hd_len _ _ Hh) as Hlen. pose proof (live_bytes_nonneg (rows_of t)).
  destruct (Heach _ _ Hi) as (Hlive & Ho & Hl & Hlo & Hhi & Hs).
  unfold slotOffset in *. change PAGE_SIZE with 4096 in *.
  rewrite (wrap_small 16 (len row)) by (unfold uint; lia). page_run.
  eexists. split; [done|].
  exists fin, (<[i := Some (o, row)]> t). split; [|by rewrite rows_of_insert].
  assert (u16 (len row)) by (unfold uint; lia).
  apply page_rep_slot with p; try done.
  - do 2 (apply header_splice; rewrite ?length_le_bytes;
      change PAGE_SIZE with 4096; try lia). done.
  - by page_peek.
  - unfold slot_rep, slotOffset. change PAGE_SIZE with 4096. page_peek.
    repeat split; done || lia.
  - intros j e' Hj He'. pose proof (lookup_lt_Some _ _ _ He').
    pose proof (Heach j e' He') as Hj'. unfold slot_rep, slotOffset in *.
    change PAGE_SIZE with 4096 in *. destruct e' as [[o' row']|].
    + destruct Hj' as (? & ? & ? & ? & ? & ?).
      destruct (Hapart j i _ _ He' Hi Hj) as [Hap|Hap]; cbn in Hap;
        page_peek; by repeat split.
    + by page_peek.
  - intros j [oa ra] b Hj Ha [= <-]. destruct (Hapart j i _ _ Ha Hi Hj) as [Hap|Hap];
      unfold apart; cbn in *; lia.
  - rewrite rows_of_insert, (live_bytes_insert _ _ (Some old))
      by (by rewrite rows_of_lookup, Hi). cbn. lia.
Qed.

Lemma initialize_rep p : len p = PAGE_SIZE → ∃ p', initialize p = Ok p' ∧ page_ok p' [].
Proof.
  intros Hlen. unfold initialize. replace (length p) with 4096%nat by
    (change PAGE_SIZE with 4096 in Hlen; lia).
  eexists. split; [vm_compute; reflexivity|].
  exists 4096, []. split; [|done]. by split.
Qed.

(** ** Sequences of operations *)

Inductive page_op : Type :=
  | PInsert (row : bytes)
  | PErase (slot : nat)
  | PUpdate (slot : nat) (row : bytes)
  | PRead (slot : nat).

Inductive page_reply : Type :=
  | RSlot (slot : option Z)
  | RFlag (done : bool)
  | RRow (row : option bytes).

Definition page_step (p : page) (op : page_op) : exec (page_reply * page) :=
  match op with
  | PInsert row => let* (s, p) := insert p row in Ok (RSlot s, p)
  | PErase i => let* (b, p) := erase p (Z.of_nat i) in Ok (RFlag b, p)
  | PUpdate i row => let* (b, p) := update p (Z.of_nat i) row in Ok (RFlag b, p)
  | PRead i => let* r := read p (Z.of_nat i) in Ok (RRow r, p)
  end.

Definition dir_step (d : directory) (op : page_op) : page_reply * directory :=
  match op with
  | PInsert row =>
      match dir_insert d row with
      | Some (i, d) => (RSlot (Some (Z.of_nat i)), d)
      | None => (RSlot None, d)
      end
  | PErase i =>
      match dir_erase d i with Some d => (RFlag true, d) | None => (RFlag false, d) end
  | PUpdate i row =>
      match dir_update d i row with
      | Some d => (RFlag true, d)
      | None => (RFlag false, d)
      end
  | PRead i => (RRow (dir_read d i), d)
  end.

Fixpoint page_run (p : page) (ops : list page_op) : exec (list page_reply * page) :=
  match ops with
  | [] => Ok ([], p)
  | op :: ops =>
      let* (r, p) := page_step p op in
      let* (rs, p) := page_run p ops in
      Ok (r :: rs, p)
  end.

Fixpoint dir_run (d : directory) (ops : list page_op) : list page_reply * directory :=
  match ops with
  | [] => ([], d)
  | op :: ops =>
      let '(r, d) := dir_step d op in
      let '(rs, d) := dir_run d ops in (r :: rs, d)
  end.

(** [insert] throws on a row of more than 65535 bytes. *)
Definition op_admissible (op : page_op) : Prop :=
  match op with PInsert row => len row ≤ 65535 | _ => True end.

#[global] Instance op_admissible_dec op : Decision (op_admissible op).
Proof. destruct op; simpl; apply _. Defined.

Lemma page_step_refines p d op :
  page_ok p d → op_admissible op →
  ∃ p', page_step p op = Ok ((dir_step d op).1, p') ∧ page_ok p' (dir_step d op).2.
Proof.
  intros Hp Hop. destruct op as [row|i|i row|i]; cbn in *.
  - pose proof (insert_rep p d row Hp Hop) as H.
    destruct (dir_insert d row) as [[i d']|]; destruct H as (p' & -> & Hp');
      by exists p'.
  - pose proof (erase_rep p d i Hp) as H.
    destruct (dir_erase d i) as [d'|]; [destruct H as (p' & -> & Hp')|rewrite H];
      by eexists.
  - pose proof (update_rep p d i row Hp) as H.
    destruct (dir_update d i row) as [d'|]; [destruct H as (p' & -> & Hp')|rewrite H];
      by eexists.
  - destruct Hp as (fin & t & Hp & ->). rewrite (read_rep p fin t i Hp).
    exists p. split; [done|]. by exists fin, t.
Qed.

Lemma page_run_refines ops : ∀ p d,
  page_ok p d → Forall op_admissible ops →
  ∃ p', page_run p ops = Ok ((dir_run d ops).1, p') ∧ page_ok p' (dir_run d ops).2.
Proof.
  induction ops as [|op ops IH]; intros p d Hp Hops; [by exists p|].
  apply Forall_cons in Hops as [Hop Hops]. cbn.
  destruct (page_step_refines p d op Hp Hop) as (q & -> & Hq). cbn.
  destruct (dir_step d op) as [r d']. cbn in *.
  destruct (IH q d' Hq Hops) as (p' & -> & Hp'). cbn.
  destruct (dir_run d' ops) as [rs d'']. by exists p'.
Qed.

(** ** Properties *)

(** C10: A slotted page implements its directory of rows: from a freshly
    initialised page, every sequence of inserts (of rows of at most 65535
    bytes), erases, in-place updates and reads runs without an exception and
    without an access outside the 4096 bytes, answers each operation as the
    abstract directory does - an insert takes the first free slot and is
    refused exactly when the directory, the live rows and the new row do not
    fit in a page, compaction included - and leaves a well-formed page. *)
Theorem page_refines_directory p ops :
  len p = PAGE_SIZE → Forall op_admissible ops →
  ∃ p0 p', initialize p = Ok p0 ∧
    page_run p0 ops = Ok ((dir_run [] ops).1, p') ∧ page_ok p' (dir_run [] ops).2.
Proof.
  intros Hlen Hops. destruct (initialize_rep p Hlen) as (p0 & -> & Hp0).
  exists p0. destruct (page_run_refines ops p0 [] Hp0 Hops) as (p' & Hrun & Hp').
  by exists p'.
Qed.

(** Three rows, an erase, a slot reused, an update that is refused. *)
Definition demo_ops : list page_op :=
  [PInsert (bytes_of "alpha"); PInsert (bytes_of "be"); PErase 0;
   PInsert (bytes_of "gamma-row"); PUpdate 1 (bytes_of "toolong"); PRead 0].

Lemma page_refines_directory_witness :
  (dir_run [] demo_ops).1 =
    [RSlot (Some 0); RSlot (Some 1); RFlag true; RSlot (Some 0); RFlag false;
     RRow (Some (bytes_of "gamma-row"))] ∧
  ∃ p0 p', initialize (repeat Byte.x00 (Z.to_nat 4096)) = Ok p0 ∧
    page_run p0 demo_ops = Ok ((dir_run [] demo_ops).1, p') ∧
    page_ok p' (dir_run [] demo_ops).2.
Proof.
  split; [vm_compute; reflexivity|].
  apply (page_refines_directory (repeat Byte.x00 (Z.to_nat 4096)) demo_ops).
  - vm_compute. reflexivity.
  - repeat constructor; vm_compute; discriminate.
Defined.

(** Compaction is invisible and leaves no hole: it keeps the row of every
    slot, and afterwards the free space is all that the directory and the
    live rows do not use. *)
Theorem compact_preserves p d :
  page_ok p d →
  ∃ p', compact p = Ok p' ∧ page_ok p' d ∧
    freeSpace p' = Ok (PAGE_SIZE - (16 + 6 * len d) - live_bytes d).
Proof.
  intros (fin & t & Hp & ->).
  destruct (compact_rep p fin t Hp) as (p' & fin' & t' & Hrun & Hp' & Hrows & Hpacked).
  exists p'. split; [done|]. split; [by exists fin', t'|].
  rewrite (freeSpace_rep p' fin' t') by done. f_equal.
  rewrite <- Hrows at 1. rewrite length_rows_of. lia.
Qed.

Lemma compact_preserves_witness :
  ∃ p p', page_ok p [None; Some (bytes_of "xyz")] ∧ compact p = Ok p' ∧
    page_ok p' [None; Some (bytes_of "xyz")] ∧ freeSpace p' = Ok 4065.
Proof.
  destruct (initialize_rep (repeat Byte.x00 (Z.to_nat 4096)) eq_refl) as (p0 & _ & Hp0).
  destruct (page_run_refines [PInsert (bytes_of "ab"); PInsert (bytes_of "xyz"); PErase 0]
              p0 [] Hp0) as (p & _ & Hp).
  { repeat constructor; vm_compute; discriminate. }
  cbn in Hp. exists p. destruct (compact_preserves p _ Hp) as (p' & Hrun & Hp' & Hfree).
  exists p'. split; [exact Hp|]. split; [exact Hrun|]. split; [exact Hp'|exact Hfree].
Defined.
