(* ===== verification/Lexer.v ===== *)
(** The lexer: [src/lexer.h] and [src/lexer.cpp].  The position [pos] in the
    source is modelled by the text from [pos] on; [line] and [col] are kept as
    the code keeps them, without the 32-bit bound of [int].  [peek] past the
    end reads the character 0.  Each scanner of the class is a function from a
    cursor to the token and the cursor after it. *)

From S2P Require Import Prelude.
From S2P Require Import Format.

Inductive TokenType : Type :=
  | SLAY | NO_CAP | ONLY_IF | LINK_UP | LEFT_LINK_UP | MID_LINK_UP | FR_FR
  | VIBE_CHECK | HITS_DIFFERENT | BUSSIN_ONLY | LOWKEY | PLUS | OR_NAH
  | NO_CAP_NOT | GHOSTED | UNIQUE_FR | CAP_AT | SKIP | UP_ONLY | DOWN_BAD
  | YEET_INTO | DRIP | GLOW_UP | BE_LIKE | RATIO | MANIFEST | RIZZ_DOWN
  | MANIFEST_DATASET | MANIFEST_SNAPSHOT | EXPORT_TORCH | SHIP_TORCH
  | EXPLAIN_BATCH | SPILL_BATCH | WITH_SEED | BATCH_SIZE | WORLD_SIZE
  | MAX_LEN | MANIFEST_CONTEXT | YEET_MEMORY | SPILL_CONTEXT
  | EXPLAIN_CONTEXT | SHOW_TABS | SHOW_CONTEXT_SCHEMAS
  | SHOW_CONTEXT_OBJECTS | ALIAS_TAB | MERGE_TABS | TOKEN_BUDGET | VIBE_TAB
  | MAIN_CHARACTER | SIDE_CHARACTER | HEADCOUNT | STACK | MID | GOAT
  | L_FUNC | LONE_WOLF | BIGGEST_W | BIGGEST_L | MID_FR | PERCENT_CHECK
  | ERA | SPLIT_BY | INTEGER_LIT | FLOAT_LIT | STRING_LIT | TRUE_LIT
  | FALSE_LIT | IDENTIFIER | EQ | NEQ | LT | GT | LTE | GTE | PLUS_OP
  | MINUS | STAR | SLASH | CONCAT | LPAREN | RPAREN | COMMA | SEMICOLON
  | DOT | EOF_TOKEN.

Definition token_types : list TokenType :=
  [SLAY; NO_CAP; ONLY_IF; LINK_UP; LEFT_LINK_UP; MID_LINK_UP; FR_FR;
   VIBE_CHECK; HITS_DIFFERENT; BUSSIN_ONLY; LOWKEY; PLUS; OR_NAH;
   NO_CAP_NOT; GHOSTED; UNIQUE_FR; CAP_AT; SKIP; UP_ONLY; DOWN_BAD;
   YEET_INTO; DRIP; GLOW_UP; BE_LIKE; RATIO; MANIFEST; RIZZ_DOWN;
   MANIFEST_DATASET; MANIFEST_SNAPSHOT; EXPORT_TORCH; SHIP_TORCH;
   EXPLAIN_BATCH; SPILL_BATCH; WITH_SEED; BATCH_SIZE; WORLD_SIZE; MAX_LEN;
   MANIFEST_CONTEXT; YEET_MEMORY; SPILL_CONTEXT; EXPLAIN_CONTEXT;
   SHOW_TABS; SHOW_CONTEXT_SCHEMAS; SHOW_CONTEXT_OBJECTS; ALIAS_TAB;
   MERGE_TABS; TOKEN_BUDGET; VIBE_TAB; MAIN_CHARACTER; SIDE_CHARACTER;
   HEADCOUNT; STACK; MID; GOAT; L_FUNC; LONE_WOLF; BIGGEST_W; BIGGEST_L;
   MID_FR; PERCENT_CHECK; ERA; SPLIT_BY; INTEGER_LIT; FLOAT_LIT;
   STRING_LIT; TRUE_LIT; FALSE_LIT; IDENTIFIER; EQ; NEQ; LT; GT; LTE; GTE;
   PLUS_OP; MINUS; STAR; SLASH; CONCAT; LPAREN; RPAREN; COMMA; SEMICOLON;
   DOT; EOF_TOKEN].

Definition TokenType_code (t : TokenType) : nat :=
  match t with
  | SLAY => 0 | NO_CAP => 1 | ONLY_IF => 2 | LINK_UP => 3
  | LEFT_LINK_UP => 4 | MID_LINK_UP => 5 | FR_FR => 6 | VIBE_CHECK => 7
  | HITS_DIFFERENT => 8 | BUSSIN_ONLY => 9 | LOWKEY => 10 | PLUS => 11
  | OR_NAH => 12 | NO_CAP_NOT => 13 | GHOSTED => 14 | UNIQUE_FR => 15
  | CAP_AT => 16 | SKIP => 17 | UP_ONLY => 18 | DOWN_BAD => 19
  | YEET_INTO => 20 | DRIP => 21 | GLOW_UP => 22 | BE_LIKE => 23
  | RATIO => 24 | MANIFEST => 25 | RIZZ_DOWN => 26 | MANIFEST_DATASET => 27
  | MANIFEST_SNAPSHOT => 28 | EXPORT_TORCH => 29 | SHIP_TORCH => 30
  | EXPLAIN_BATCH => 31 | SPILL_BATCH => 32 | WITH_SEED => 33
  | BATCH_SIZE => 34 | WORLD_SIZE => 35 | MAX_LEN => 36
  | MANIFEST_CONTEXT => 37 | YEET_MEMORY => 38 | SPILL_CONTEXT => 39
  | EXPLAIN_CONTEXT => 40 | SHOW_TABS => 41 | SHOW_CONTEXT_SCHEMAS => 42
  | SHOW_CONTEXT_OBJECTS => 43 | ALIAS_TAB => 44 | MERGE_TABS => 45
  | TOKEN_BUDGET => 46 | VIBE_TAB => 47 | MAIN_CHARACTER => 48
  | SIDE_CHARACTER => 49 | HEADCOUNT => 50 | STACK => 51 | MID => 52
  | GOAT => 53 | L_FUNC => 54 | LONE_WOLF => 55 | BIGGEST_W => 56
  | BIGGEST_L => 57 | MID_FR => 58 | PERCENT_CHECK => 59 | ERA => 60
  | SPLIT_BY => 61 | INTEGER_LIT => 62 | FLOAT_LIT => 63 | STRING_LIT => 64
  | TRUE_LIT => 65 | FALSE_LIT => 66 | IDENTIFIER => 67 | EQ => 68
  | NEQ => 69 | LT => 70 | GT => 71 | LTE => 72 | GTE => 73 | PLUS_OP => 74
  | MINUS => 75 | STAR => 76 | SLASH => 77 | CONCAT => 78 | LPAREN => 79
  | RPAREN => 80 | COMMA => 81 | SEMICOLON => 82 | DOT => 83
  | EOF_TOKEN => 84
  end%nat.

Lemma token_types_code t : token_types !! TokenType_code t = Some t.
Proof. by destruct t. Qed.

#[global] Instance TokenType_eq_dec : EqDecision TokenType.
Proof.
  intros a b. destruct (decide (TokenType_code a = TokenType_code b)) as [H|H].
  - left. apply (inj Some). by rewrite <- !token_types_code, H.
  - right. congruence.
Defined.

Record Token : Type := mkToken {
  tok_type : TokenType;
  tok_value : string;
  tok_line : Z;
  tok_col : Z;
}.

Record LexerError : Type := mkLexerError {
  lex_msg : string;
  lex_line : Z;
  lex_col : Z;
}.

Definition KEYWORDS : list (string * TokenType) :=
  [("no-cap-not", NO_CAP_NOT); ("left-link-up", LEFT_LINK_UP);
   ("mid-link-up", MID_LINK_UP); ("link-up", LINK_UP); ("no-cap", NO_CAP);
   ("only-if", ONLY_IF); ("fr-fr", FR_FR); ("vibe-check", VIBE_CHECK);
   ("hits-different", HITS_DIFFERENT); ("bussin-only", BUSSIN_ONLY);
   ("yeet-into", YEET_INTO); ("glow-up", GLOW_UP); ("be-like", BE_LIKE);
   ("rizz-down", RIZZ_DOWN); ("manifest-dataset", MANIFEST_DATASET);
   ("manifest-snapshot", MANIFEST_SNAPSHOT);
   ("export-torch", EXPORT_TORCH); ("ship-torch", SHIP_TORCH);
   ("explain-batch", EXPLAIN_BATCH); ("spill-batch", SPILL_BATCH);
   ("with-seed", WITH_SEED); ("batch-size", BATCH_SIZE);
   ("world-size", WORLD_SIZE); ("max-len", MAX_LEN);
   ("manifest-context", MANIFEST_CONTEXT); ("yeet-memory", YEET_MEMORY);
   ("spill-context", SPILL_CONTEXT); ("explain-context", EXPLAIN_CONTEXT);
   ("show-tabs", SHOW_TABS);
   ("show-context-schemas", SHOW_CONTEXT_SCHEMAS);
   ("show-context-objects", SHOW_CONTEXT_OBJECTS);
   ("alias-tab", ALIAS_TAB); ("merge-tabs", MERGE_TABS);
   ("token-budget", TOKEN_BUDGET); ("vibe-tab", VIBE_TAB);
   ("main-character", MAIN_CHARACTER); ("side-character", SIDE_CHARACTER);
   ("unique-fr", UNIQUE_FR); ("cap-at", CAP_AT); ("up-only", UP_ONLY);
   ("down-bad", DOWN_BAD); ("or-nah", OR_NAH); ("biggest-W", BIGGEST_W);
   ("biggest-L", BIGGEST_L); ("mid-fr", MID_FR);
   ("percent-check", PERCENT_CHECK); ("LONE-WOLF", LONE_WOLF);
   ("lone-wolf", LONE_WOLF); ("split-by", SPLIT_BY); ("slay", SLAY);
   ("lowkey", LOWKEY); ("ghosted", GHOSTED); ("drip", DRIP);
   ("ratio", RATIO); ("manifest", MANIFEST); ("headcount", HEADCOUNT);
   ("stack", STACK); ("mid", MID); ("goat", GOAT); ("era", ERA);
   ("skip", SKIP); ("plus", PLUS); ("select", SLAY); ("SELECT", SLAY);
   ("from", NO_CAP); ("FROM", NO_CAP); ("where", ONLY_IF);
   ("WHERE", ONLY_IF); ("as", LOWKEY); ("AS", LOWKEY); ("and", PLUS);
   ("AND", PLUS); ("or", OR_NAH); ("OR", OR_NAH); ("not", NO_CAP_NOT);
   ("NOT", NO_CAP_NOT); ("null", GHOSTED); ("NULL", GHOSTED);
   ("distinct", UNIQUE_FR); ("DISTINCT", UNIQUE_FR); ("limit", CAP_AT);
   ("LIMIT", CAP_AT); ("offset", SKIP); ("OFFSET", SKIP); ("asc", UP_ONLY);
   ("ASC", UP_ONLY); ("desc", DOWN_BAD); ("DESC", DOWN_BAD)].

Fixpoint find_keyword (word : string) (table : list (string * TokenType))
    : option TokenType :=
  match table with
  | [] => None
  | (k, t) :: table => if decide (k = word) then Some t else find_keyword word table
  end.

Definition keyword (word : string) : option TokenType := find_keyword word KEYWORDS.

(** [LexerError::what()] *)
Definition error_text (msg : string) (line col : Z) : string :=
  "Error at line " +:+ dec_signed line +:+ ", col " +:+ dec_signed col +:+ ": " +:+ msg.

(** * The cursor *)

Record cursor : Type := Cursor { rest : string; line : Z; col : Z }.

Definition newline : ascii := "010".
Definition NUL : ascii := "000".
Definition quote : ascii := "'".
Definition backslash : ascii := "\".

Definition Lexer (source : string) : cursor := Cursor source 1 1.

Definition peek (offset : nat) (k : cursor) : ascii :=
  default NUL (String.get offset (rest k)).

(** [advance]; every call is guarded by a character being left. *)
Definition advance (k : cursor) : cursor :=
  match rest k with
  | EmptyString => k
  | String c s =>
      if ascii_dec c newline then Cursor s (line k + 1) 1
      else Cursor s (line k) (col k + 1)
  end.

Fixpoint advance_by (n : nat) (k : cursor) : cursor :=
  match n with O => k | S n => advance_by n (advance k) end.

Definition at_end (k : cursor) : bool :=
  match rest k with EmptyString => true | _ => false end.

Abbreviation lexed := (result LexerError (Token * cursor)).

Definition lex_error {A} (msg : string) (k : cursor) : result LexerError A :=
  Err (mkLexerError msg (line k) (col k)).

Definition token_at (k : cursor) (t : TokenType) (v : string) : Token :=
  mkToken t v (line k) (col k).

(** * White space and comments *)

Fixpoint skip_spaces (s : string) (l c : Z) : cursor :=
  match s with
  | EmptyString => Cursor s l c
  | String ch s' =>
      if isspace ch then
        let k := advance (Cursor s l c) in skip_spaces s' (line k) (col k)
      else Cursor s l c
  end.
Definition skipWhitespace (k : cursor) : cursor :=
  skip_spaces (rest k) (line k) (col k).

Fixpoint skip_line (s : string) (l c : Z) : cursor :=
  match s with
  | EmptyString => Cursor s l c
  | String ch s' =>
      if ascii_dec ch newline then Cursor s l c
      else let k := advance (Cursor s l c) in skip_line s' (line k) (col k)
  end.
Definition skipLineComment (k : cursor) : cursor :=
  skip_line (rest k) (line k) (col k).

(** The text after the opening [/*]; [None] when no [*/] follows. *)
Fixpoint skip_block (s : string) (l c : Z) : option cursor :=
  match s with
  | EmptyString => None
  | String ch s' =>
      let k := Cursor s l c in
      if decide (ch = "*"%char ∧ peek 1 k = "/"%char) then Some (advance_by 2 k)
      else let k := advance k in skip_block s' (line k) (col k)
  end.
Definition skipBlockComment (k : cursor) : result LexerError cursor :=
  let body := advance_by 2 k in
  match skip_block (rest body) (line body) (col body) with
  | Some k' => Ok k'
  | None => lex_error "Unterminated block comment" k
  end.

(** * Words *)

Definition isWordStart (c : ascii) : bool := isalpha c || bool_decide (c = "_"%char).
Definition isWordContinue (c : ascii) : bool :=
  isalnum c || bool_decide (c = "_"%char) || bool_decide (c = "-"%char).

(** The loop of [readWord]: the word read and the text after it. *)
Fixpoint scan_word (s : string) : string * string :=
  match s with
  | EmptyString => ("", "")
  | String c s' =>
      if negb (isWordContinue c) then ("", s)
      else if decide (c = "-"%char) then
        match s' with
        | String d _ =>
            if isWordStart d then let '(w, r) := scan_word s' in (String c w, r)
            else ("", s)
        | EmptyString => ("", s)
        end
      else let '(w, r) := scan_word s' in (String c w, r)
  end.

(** [word.find('-')], splitting the word there. *)
Fixpoint split_hyphen (w : string) : option (string * string) :=
  match w with
  | EmptyString => None
  | String c w' =>
      if decide (c = "-"%char) then Some ("", w)
      else '(a, b) ← split_hyphen w'; Some (String c a, b)
  end.

Definition readWord (k : cursor) : Token * cursor :=
  let '(word, _) := scan_word (rest k) in
  let k' := advance_by (String.length word) k in
  if decide (word = "L") then (token_at k L_FUNC word, k')
  else
    match keyword word with
    | Some t => (token_at k t word, k')
    | None =>
        match split_hyphen word with
        | Some (ident, back) =>
            (token_at k IDENTIFIER ident,
             Cursor (back +:+ rest k') (line k') (col k' - Z.of_nat (String.length back)))
        | None => (token_at k IDENTIFIER word, k')
        end
    end.

(** * Numbers *)

Definition isExponent (c : ascii) : bool :=
  bool_decide (c = "e"%char) || bool_decide (c = "E"%char).
Definition isSign (c : ascii) : bool :=
  bool_decide (c = "+"%char) || bool_decide (c = "-"%char).

(** The optional fraction and the optional exponent: the text taken.  [None]
    is the invalid exponent. *)
Definition scan_fraction (s : string) : string * string :=
  match s with
  | String p (String d _ as s') =>
      if bool_decide (p = "."%char) && isdigit d
      then let '(ds, r) := span_digits s' in (String p ds, r)
      else ("", s)
  | _ => ("", s)
  end.

Definition scan_exponent (s : string) : option (string * string) :=
  match s with
  | String e s' =>
      if isExponent e then
        let '(sign, s'') :=
          match s' with
          | String g r => if isSign g then (String g "", r) else ("", s')
          | EmptyString => ("", s')
          end in
        match s'' with
        | String d _ =>
            if isdigit d then
              let '(ds, r) := span_digits s'' in Some (String e (sign +:+ ds), r)
            else None
        | EmptyString => None
        end
      else Some ("", s)
  | EmptyString => Some ("", s)
  end.

Definition readNumber (k : cursor) : lexed :=
  let '(int_part, r1) := span_digits (rest k) in
  let '(fraction, r2) := scan_fraction r1 in
  match scan_exponent r2 with
  | None => lex_error "Invalid number literal" k
  | Some (exponent, _) =>
      let num := int_part +:+ fraction +:+ exponent in
      let isFloat := negb (bool_decide (fraction = "" ∧ exponent = "")) in
      Ok (token_at k (if isFloat then FLOAT_LIT else INTEGER_LIT) num,
          advance_by (String.length num) k)
  end.

(** * Strings *)

Definition unescape (esc : ascii) : string :=
  if ascii_dec esc "n" then String newline ""
  else if ascii_dec esc "t" then String "009" ""
  else if ascii_dec esc "r" then String "013" ""
  else if ascii_dec esc backslash then String backslash ""
  else if ascii_dec esc quote then String quote ""
  else String backslash (String esc "").

(** The loop of [readString] after the opening quote: the value and how many
    characters it took, the closing quote included. *)
Fixpoint scan_string (s : string) : option (string * nat) :=
  match s with
  | EmptyString => None
  | String c s' =>
      if ascii_dec c quote then
        match s' with
        | String d s'' =>
            if ascii_dec d quote
            then '(v, n) ← scan_string s''; Some (String quote v, S (S n))
            else Some ("", 1%nat)
        | EmptyString => Some ("", 1%nat)
        end
      else if ascii_dec c backslash then
        match s' with
        | EmptyString => None
        | String esc s'' =>
            '(v, n) ← scan_string s''; Some (unescape esc +:+ v, S (S n))
        end
      else '(v, n) ← scan_string s'; Some (String c v, S n)
  end.

Definition readString (k : cursor) : lexed :=
  let body := advance k in
  match scan_string (rest body) with
  | Some (v, n) => Ok (token_at k STRING_LIT v, advance_by n body)
  | None => lex_error "Unterminated string literal" k
  end.

(** * Operators *)

Definition unexpected (c : ascii) : string :=
  "Unexpected character '" +:+ String c "'".

Definition readOperator (k : cursor) : lexed :=
  let one t := Ok (token_at k t (String (peek 0 k) ""), advance k) in
  let two t := Ok (token_at k t (String (peek 0 k) (String (peek 1 k) "")), advance_by 2 k) in
  let c := peek 0 k in
  if ascii_dec c "=" then one EQ
  else if ascii_dec c "!" then
    if ascii_dec (peek 1 k) "=" then two NEQ else lex_error (unexpected c) k
  else if ascii_dec c "<" then
    if ascii_dec (peek 1 k) "=" then two LTE else one LT
  else if ascii_dec c ">" then
    if ascii_dec (peek 1 k) "=" then two GTE else one GT
  else if ascii_dec c "+" then one PLUS_OP
  else if ascii_dec c "-" then one MINUS
  else if ascii_dec c "*" then one STAR
  else if ascii_dec c "/" then one SLASH
  else if ascii_dec c "|" then
    if ascii_dec (peek 1 k) "|" then two CONCAT
    else lex_error "Expected '||' for concatenation" k
  else if ascii_dec c "(" then one LPAREN
  else if ascii_dec c ")" then one RPAREN
  else if ascii_dec c "," then one COMMA
  else if ascii_dec c ";" then one SEMICOLON
  else if ascii_dec c "." then one DOT
  else lex_error (unexpected c) k.

(** * The main loop *)

(** One iteration of [tokenize] after the white space: a token, a comment
    skipped or an error. *)
Definition next (k : cursor) : result LexerError (option Token * cursor) :=
  let c := peek 0 k in
  if decide (c = "-"%char ∧ peek 1 k = "-"%char) then Ok (None, skipLineComment k)
  else if decide (c = "/"%char ∧ peek 1 k = "*"%char) then
    let* k' := skipBlockComment k in Ok (None, k')
  else if ascii_dec c quote then let* (t, k') := readString k in Ok (Some t, k')
  else if isdigit c then let* (t, k') := readNumber k in Ok (Some t, k')
  else if isWordStart c then let '(t, k') := readWord k in Ok (Some t, k')
  else let* (t, k') := readOperator k in Ok (Some t, k').

(** The loop takes fuel; [None] is running out of it. *)
Fixpoint tokenize_loop (fuel : nat) (k : cursor) : option (result LexerError (list Token)) :=
  match fuel with
  | O => None
  | S fuel =>
      let k := skipWhitespace k in
      if at_end k then Some (Ok [token_at k EOF_TOKEN ""])
      else
        match next k with
        | Err e => Some (Err e)
        | Ok (t, k') =>
            match tokenize_loop fuel k' with
            | Some (Ok ts) => Some (Ok (option_list t ++ ts))
            | r => r
            end
        end
  end.

Definition tokenize_fuel (source : string) : nat := S (String.length source).
Definition tokenize (source : string) : option (result LexerError (list Token)) :=
  tokenize_loop (tokenize_fuel source) (Lexer source).

Example tokenize_example :
  (r ← tokenize "slay a-b, 'it''s' -- c"; Some (rmap (λ t, Ok (E:=LexerError) (tok_type t, tok_value t)) (default [] (ok_value r))))
  = Some (Ok [(SLAY, "slay"); (IDENTIFIER, "a"); (MINUS, "-"); (IDENTIFIER, "b"); (COMMA, ",");
              (STRING_LIT, "it's"); (EOF_TOKEN, "")]).
Proof. vm_compute. reflexivity. Qed.

(** * What the scanners consume *)

(** The position after reading [w] from line [l], column [c]. *)
Fixpoint move (w : string) (l c : Z) : Z * Z :=
  match w with
  | EmptyString => (l, c)
  | String ch w =>
      if ascii_dec ch newline then move w (l + 1) 1 else move w l (c + 1)
  end.

(** [consumes k w k']: between the cursors lies the text [w]. *)
Definition consumes (k : cursor) (w : string) (k' : cursor) : Prop :=
  rest k = (w +:+ rest k') ∧ (line k', col k') = move w (line k) (col k).

Lemma move_app w1 w2 l c :
  move (w1 +:+ w2) l c = move w2 (move w1 l c).1 (move w1 l c).2.
Proof.
  revert l c. induction w1 as [|ch w1 IH]; intros l c; [done|].
  rewrite string_app_cons. cbn. destruct (ascii_dec ch newline); apply IH.
Qed.

Lemma consumes_refl k : consumes k "" k.
Proof. done. Qed.

Lemma consumes_at s k w k' :
  rest k = s → consumes (Cursor s (line k) (col k)) w k' → consumes k w k'.
Proof. intros <-. by destruct k. Qed.

Lemma consumes_trans k1 w1 k2 w2 k3 :
  consumes k1 w1 k2 → consumes k2 w2 k3 → consumes k1 (w1 +:+ w2) k3.
Proof.
  intros [Hr1 Hp1] [Hr2 Hp2]. split.
  - by rewrite string_app_assoc, <- Hr2.
  - rewrite move_app, <- Hp1. done.
Qed.

Lemma advance_consumes k c s :
  rest k = String c s → consumes k (String c "") (advance k) ∧ rest (advance k) = s.
Proof.
  intros Hk. unfold consumes, advance. rewrite Hk. cbn.
  by destruct (ascii_dec c newline).
Qed.

Lemma advance_by_consumes w k r :
  rest k = (w +:+ r) →
  consumes k w (advance_by (String.length w) k) ∧
  rest (advance_by (String.length w) k) = r.
Proof.
  revert k. induction w as [|c w IH]; intros k Hk; [by split|].
  rewrite string_app_cons in Hk. destruct (advance_consumes k c _ Hk) as [H1 H2].
  destruct (IH (advance k) H2) as [H3 H4]. cbn. split; [|done].
  apply (consumes_trans _ _ _ _ _ H1 H3).
Qed.

Lemma string_length_app s t :
  String.length (s +:+ t) = (String.length s + String.length t)%nat.
Proof.
  induction s as [|c s IH]; [done|]. rewrite string_app_cons. cbn. by rewrite IH.
Qed.

Lemma consumes_length k w k' :
  consumes k w k' → String.length (rest k) = (String.length w + String.length (rest k'))%nat.
Proof. intros [-> _]. apply string_length_app. Qed.

(** ** Trivia: white space and comments *)

Inductive trivia : string → Prop :=
  | trivia_nil : trivia ""
  | trivia_space c s : isspace c = true → trivia s → trivia (String c s)
  | trivia_line w s : trivia s → trivia ("--" +:+ w +:+ s)
  | trivia_block w s : trivia s → trivia ("/*" +:+ w +:+ "*/" +:+ s).

Lemma trivia_app s t : trivia s → trivia t → trivia (s +:+ t).
Proof.
  intros Hs Ht. induction Hs as [|c s Hc _ IH|w s _ IH|w s _ IH].
  - done.
  - rewrite string_app_cons. by constructor.
  - rewrite !string_app_assoc. by constructor.
  - rewrite !string_app_assoc. by constructor.
Qed.

Lemma skip_spaces_consumes s l c :
  ∃ w, consumes (Cursor s l c) w (skip_spaces s l c) ∧ trivia w ∧
    isspace (peek 0 (skip_spaces s l c)) = false.
Proof.
  revert l c. induction s as [|ch s IH]; intros l c; cbn.
  { exists "". repeat split; constructor. }
  destruct (isspace ch) eqn:Hch.
  - set (k := advance (Cursor (String ch s) l c)).
    destruct (advance_consumes (Cursor (String ch s) l c) ch s eq_refl) as [H1 H2].
    fold k in H1, H2. destruct (IH (line k) (col k)) as (w & Hw & Ht & He).
    exists (String ch w). split; [|split; [by constructor|done]].
    apply (consumes_trans _ (String ch "") k w); [done|]. by apply (consumes_at s).
  - exists "". repeat split; [constructor|done].
Qed.

Lemma skip_line_consumes s l c :
  ∃ w, consumes (Cursor s l c) w (skip_line s l c).
Proof.
  revert l c. induction s as [|ch s IH]; intros l c; cbn; [by exists ""|].
  destruct (ascii_dec ch newline) as [|Hne]; [by exists ""|].
  destruct (IH l (c + 1)) as (w & Hw). exists (String ch w).
  apply (consumes_trans _ (String ch "") (Cursor s l (c + 1)) w); [|done].
  split; [done|]. cbn. by destruct (ascii_dec ch newline).
Qed.

Lemma peek_0 k c s : rest k = String c s → peek 0 k = c.
Proof. unfold peek. by intros ->. Qed.

Lemma peek_1 k c d s : rest k = String c (String d s) → peek 1 k = d.
Proof. unfold peek. by intros ->. Qed.

Lemma peek_inv_0 k c : peek 0 k = c → c ≠ NUL → ∃ s, rest k = String c s.
Proof. unfold peek. destruct (rest k) as [|d s]; cbn; [congruence|]. intros <- _. by exists s. Qed.

Lemma peek_inv_2 k c d :
  peek 0 k = c → peek 1 k = d → c ≠ NUL → d ≠ NUL →
  ∃ s, rest k = String c (String d s).
Proof.
  unfold peek. destruct (rest k) as [|a [|b s]]; cbn; try congruence.
  intros <- <- _ _. by exists s.
Qed.

Lemma skip_block_consumes s : ∀ l c k',
  skip_block s l c = Some k' → ∃ w, consumes (Cursor s l c) (w +:+ "*/") k'.
Proof.
  induction s as [|ch s IH]; intros l c k'; cbn -[advance_by]; [done|]. case_decide as Hd.
  - intros [= <-]. destruct Hd as [-> Hp].
    destruct s as [|d s]; [done|]. cbn in Hp. subst d. exists "".
    apply (advance_by_consumes "*/" _ s). done.
  - set (k := advance (Cursor (String ch s) l c)).
    destruct (advance_consumes (Cursor (String ch s) l c) ch s eq_refl) as [H1 H2].
    fold k in H1, H2. intros Hs. destruct (IH _ _ _ Hs) as (w & Hw).
    exists (String ch w). rewrite string_app_cons.
    apply (consumes_trans _ (String ch "") k (w +:+ "*/")); [done|].
    by apply (consumes_at s).
Qed.

Lemma skipLineComment_consumes k :
  peek 0 k = "-"%char → peek 1 k = "-"%char →
  ∃ w, consumes k ("--" +:+ w) (skipLineComment k).
Proof.
  intros H0 H1. destruct (peek_inv_2 k _ _ H0 H1) as (s & Hs); [done..|].
  unfold skipLineComment. rewrite Hs.
  change (skip_line (String "-" (String "-" s)) (line k) (col k))
    with (skip_line s (line k) (col k + 1 + 1)).
  destruct (skip_line_consumes s (line k) (col k + 1 + 1)) as (w & Hw). exists w.
  apply (consumes_trans _ "--" (Cursor s (line k) (col k + 1 + 1)) w); [|done].
  split; [done|]. cbn. done.
Qed.

Lemma skipBlockComment_consumes k k' :
  peek 0 k = "/"%char → peek 1 k = "*"%char → skipBlockComment k = Ok k' →
  ∃ w, consumes k ("/*" +:+ w +:+ "*/") k'.
Proof.
  intros H0 H1. destruct (peek_inv_2 k _ _ H0 H1) as (s & Hs); [done..|].
  unfold skipBlockComment. destruct (advance_by_consumes "/*" k s Hs) as [Hc Hr].
  change (String.length "/*") with 2%nat in *.
  destruct (skip_block _ _ _) as [k''|] eqn:E; [|done]. intros [= <-].
  destruct (skip_block_consumes _ _ _ _ E) as (w & Hw). exists w.
  apply (consumes_trans _ "/*" (advance_by 2 k) _); [done|]. by apply (consumes_at _ _ _ _ eq_refl).
Qed.

(** ** Lexemes *)

Definition isNamePart (c : ascii) : bool := isalnum c || bool_decide (c = "_"%char).

Definition is_name (w : string) : bool :=
  match w with
  | String c w' => isWordStart c && all_chars isNamePart w'
  | EmptyString => false
  end.

(** [lexeme t w]: the text [w] in the source is the token [t]. *)
Definition lexeme (t : Token) (w : string) : Prop :=
  match tok_type t with
  | STRING_LIT =>
      ∃ body, w = String quote body ∧
        scan_string body = Some (tok_value t, String.length body)
  | EOF_TOKEN => False
  | INTEGER_LIT => w = tok_value t ∧ w ≠ "" ∧ all_digits w = true
  | IDENTIFIER => w = tok_value t ∧ is_name w = true
  | _ => w = tok_value t
  end.

Lemma span_digits_app s : s = ((span_digits s).1 +:+ (span_digits s).2).
Proof.
  induction s as [|c s IH]; [done|]. cbn. destruct (isdigit c); [|done].
  destruct (span_digits s) as [a b]. cbn in *. by rewrite string_app_cons, <- IH.
Qed.

Lemma span_digits_nonempty c s :
  isdigit c = true → ∃ a, (span_digits (String c s)).1 = String c a.
Proof. intros Hc. cbn. rewrite Hc. destruct (span_digits s). by eexists. Qed.

Lemma scan_fraction_app s : s = ((scan_fraction s).1 +:+ (scan_fraction s).2).
Proof.
  unfold scan_fraction. destruct s as [|p [|d s]]; [done..|].
  destruct (_ && _); [|done]. pose proof (span_digits_app (String d s)) as H.
  destruct (span_digits (String d s)). cbn [fst snd] in *.
  by rewrite string_app_cons, <- H.
Qed.

Lemma scan_exponent_app s x r : scan_exponent s = Some (x, r) → s = (x +:+ r).
Proof.
  unfold scan_exponent. destruct s as [|e s]; [by intros [= <- <-]|].
  destruct (isExponent e); [|by intros [= <- <-]].
  destruct s as [|g s]; [done|]. destruct (isSign g).
  - destruct s as [|d s]; [done|]. destruct (isdigit d); [|done].
    pose proof (span_digits_app (String d s)) as H.
    destruct (span_digits (String d s)). cbn [fst snd] in H. intros [= <- <-].
    by rewrite !string_app_cons, string_app_nil_l, <- H.
  - destruct (isdigit g); [|done].
    pose proof (span_digits_app (String g s)) as H.
    destruct (span_digits (String g s)). cbn [fst snd] in H. intros [= <- <-].
    by rewrite string_app_nil_l, string_app_cons, <- H.
Qed.

Lemma scan_word_app s : s = ((scan_word s).1 +:+ (scan_word s).2).
Proof.
  induction s as [|c s IH]; [done|]. cbn. destruct (negb _); [done|].
  assert (String c s = (String c (scan_word s).1 +:+ (scan_word s).2)) as H
    by (by rewrite string_app_cons, <- IH).
  case_decide; [|by destruct (scan_word s)].
  destruct s as [|d s]; [done|]. destruct (isWordStart d); [|done].
  by destruct (scan_word (String d s)).
Qed.

Lemma wordStart_facts c :
  isWordStart c = true → isWordContinue c = true ∧ c ≠ "-"%char ∧ c ≠ newline.
Proof.
  intros Hc.
  assert (implb (isWordStart c) (isWordContinue c && negb (bool_decide (c = "-"%char))
            && negb (bool_decide (c = newline))) = true) as H by (clear; by_all_ascii c).
  rewrite Hc in H. cbn in H. apply andb_prop in H as [[H1 H2]%andb_prop H3].
  apply negb_true_iff, bool_decide_eq_false in H2, H3. done.
Qed.

Lemma scan_word_start c s :
  isWordStart c = true →
  (scan_word (String c s)).1 = String c (scan_word s).1.
Proof.
  intros Hc. destruct (wordStart_facts c Hc) as (Hcont & Hhy & _). cbn. rewrite Hcont.
  cbn. rewrite decide_False by done. by destruct (scan_word s).
Qed.

Lemma scan_word_chars s : all_chars isWordContinue (scan_word s).1 = true.
Proof.
  induction s as [|c s IH]; [done|]. cbn.
  destruct (isWordContinue c) eqn:Hc; [|done]. cbn.
  assert (all_chars isWordContinue (String c (scan_word s).1) = true) as H
    by (cbn; by rewrite Hc).
  case_decide; [|by destruct (scan_word s)].
  destruct s as [|d s]; [done|]. destruct (isWordStart d); [|done].
  by destruct (scan_word (String d s)).
Qed.

Definition notHyphen (c : ascii) : bool := negb (bool_decide (c = "-"%char)).

Lemma split_hyphen_Some w a b :
  split_hyphen w = Some (a, b) →
  w = (a +:+ b) ∧ all_chars notHyphen a = true ∧ ∃ b', b = String "-" b'.
Proof.
  revert a b. induction w as [|c w IH]; intros a b; cbn; [done|].
  case_decide as Hc; [intros [= <- <-]; subst; by eauto|].
  destruct (split_hyphen w) as [[a' b']|]; cbn; [|done]. intros [= <- <-].
  destruct (IH a' b' eq_refl) as (-> & Ha & Hb). split; [done|]. split; [|done].
  cbn. unfold notHyphen at 1. by rewrite bool_decide_eq_false_2.
Qed.

Lemma split_hyphen_None w : split_hyphen w = None ↔ all_chars notHyphen w = true.
Proof.
  induction w as [|c w IH]; cbn; [done|].
  unfold notHyphen at 1. case_decide as Hc.
  - by rewrite bool_decide_eq_true_2.
  - rewrite bool_decide_eq_false_2 by done. cbn. rewrite <- IH.
    by destruct (split_hyphen w) as [[]|].
Qed.

Lemma namePart_spec c : isWordContinue c = true → notHyphen c = true → isNamePart c = true.
Proof.
  unfold isWordContinue, notHyphen, isNamePart.
  destruct (isalnum c), (bool_decide (c = "_"%char)), (bool_decide (c = "-"%char)); done.
Qed.

Lemma is_name_spec w :
  (∃ c w', w = String c w' ∧ isWordStart c = true) →
  all_chars isWordContinue w = true → all_chars notHyphen w = true → is_name w = true.
Proof.
  intros (c & w' & -> & Hc) Hcont Hhy. cbn in *. rewrite Hc. cbn.
  apply andb_prop in Hcont as [_ Hcont]. apply andb_prop in Hhy as [_ Hhy].
  induction w' as [|d w' IH]; [done|]. cbn in *.
  apply andb_prop in Hcont as [Hd Hcont]. apply andb_prop in Hhy as [Hd' Hhy].
  by rewrite namePart_spec, IH.
Qed.

(** On one line the column counts the characters. *)
Lemma move_line w l c :
  all_chars isWordContinue w = true → move w l c = (l, c + Z.of_nat (String.length w)).
Proof.
  revert c. induction w as [|ch w IH]; intros c; cbn; [by rewrite Z.add_0_r|].
  intros [Hc Hw]%andb_prop. destruct (ascii_dec ch newline) as [->|_]; [done|].
  rewrite IH by done. f_equal. lia.
Qed.

Lemma scan_string_local s v n :
  scan_string s = Some (v, n) →
  ∃ body r, s = (body +:+ r) ∧ String.length body = n ∧ scan_string body = Some (v, n).
Proof.
  revert v n. induction (Nat.lt_wf_0_projected String.length s) as [s _ IH].
  intros v n Hs. destruct s as [|c s]; [done|]. cbn in Hs.
  destruct (ascii_dec c quote) as [->|Hq]; [|destruct (ascii_dec c backslash) as [->|Hb]].
  - destruct s as [|d s]; [injection Hs as <- <-; by exists "'", ""|].
    destruct (ascii_dec d quote) as [->|Hd].
    + destruct (scan_string s) as [[v' n']|] eqn:E; [|done]. cbn in Hs.
      injection Hs as <- <-. destruct (IH s) with v' n' as (body & r & -> & <- & Hb);
        [cbn; lia|done|].
      exists (String quote (String quote body)), r. split; [done|]. split; [done|].
      cbn. by rewrite Hb.
    + injection Hs as <- <-. by exists "'", (String d s).
  - destruct s as [|esc s]; [done|].
    destruct (scan_string s) as [[v' n']|] eqn:E; [|done]. cbn [mbind option_bind] in Hs.
    injection Hs as <- <-. destruct (IH s) with v' n' as (body & r & -> & <- & Hb);
      [cbn; lia|done|].
    exists (String backslash (String esc body)), r. split; [done|]. split; [done|].
    cbn [scan_string]. destruct (ascii_dec backslash quote); [done|].
    destruct (ascii_dec backslash backslash); [|done]. by rewrite Hb.
  - destruct (scan_string s) as [[v' n']|] eqn:E; [|done]. cbn in Hs.
    injection Hs as <- <-. destruct (IH s) with v' n' as (body & r & -> & <- & Hb');
      [cbn; lia|done|].
    exists (String c body), r. split; [done|]. split; [done|]. cbn.
    destruct (ascii_dec c quote); [done|]. destruct (ascii_dec c backslash); [done|].
    by rewrite Hb'.
Qed.

(** ** One token *)

(** What a scanner that returns a token at [k] promises. *)
Definition takes (k : cursor) (t : Token) (k' : cursor) : Prop :=
  ∃ w, w ≠ "" ∧ consumes k w k' ∧ lexeme t w ∧ tok_line t = line k ∧ tok_col t = col k.

(** Hyphenated and plain keywords: none has one of the types a literal, a name
    or the end of the source has. *)
Definition plain_type (t : TokenType) : bool :=
  match t with
  | STRING_LIT | EOF_TOKEN | INTEGER_LIT | IDENTIFIER => false
  | _ => true
  end.

Lemma keyword_plain w t : keyword w = Some t → plain_type t = true.
Proof.
  unfold keyword. assert (forallb (λ kt, plain_type kt.2) KEYWORDS = true) as H
    by (vm_compute; reflexivity).
  revert H. generalize KEYWORDS. induction l as [|[k t'] l IH]; cbn; [done|].
  intros [Ht Hl]%andb_prop. case_decide; [by intros [= <-]|]. auto.
Qed.

Lemma lexeme_plain k t w : plain_type t = true → lexeme (token_at k t w) w.
Proof. by destruct t. Qed.

Lemma readWord_takes k t k' :
  isWordStart (peek 0 k) = true → readWord k = (t, k') → takes k t k'.
Proof.
  intros Hstart. destruct (peek_inv_0 k _ eq_refl) as (s & Hs).
  { intros E. rewrite E in Hstart. done. }
  set (c := peek 0 k) in *. unfold readWord.
  pose proof (scan_word_app (rest k)) as Happ.
  pose proof (scan_word_chars (rest k)) as Hchars.
  pose proof (scan_word_start c s Hstart) as Hw. rewrite <- Hs in Hw.
  destruct (scan_word (rest k)) as [word r]. cbn [fst snd] in *.
  destruct (advance_by_consumes word k r Happ) as [Hc Hr].
  set (k1 := advance_by (String.length word) k) in *.
  assert (word ≠ "") as Hne by (by rewrite Hw).
  assert (∀ ty, plain_type ty = true → takes k (token_at k ty word) k1) as Hplain.
  { intros ty Hty. exists word. split; [done|]. split; [done|].
    split; [by apply lexeme_plain|done]. }
  case_decide as HL; [intros [= <- <-]; by apply Hplain|].
  destruct (keyword word) as [ty|] eqn:Hk.
  { intros [= <- <-]. apply Hplain. by eapply keyword_plain. }
  destruct (split_hyphen word) as [[ident back]|] eqn:Hsplit.
  - destruct (split_hyphen_Some _ _ _ Hsplit) as (Hword & Hident & b' & Hback).
    intros [= <- <-]. exists ident.
    assert (∃ i', ident = String c i') as [i' Hi].
    { destruct ident as [|d i']; [|exists i'].
      - rewrite string_app_nil_l in Hword. rewrite Hword, Hback in Hw.
        injection Hw as ? ?. destruct (wordStart_facts c Hstart) as (_ & ? & _). congruence.
      - rewrite Hw, string_app_cons in Hword. by injection Hword as -> _. }
    rewrite Hword, all_chars_app in Hchars. apply andb_prop in Hchars as [Hci Hcb].
    split; [by rewrite Hi|]. split; [|split; [|done]].
    + destruct Hc as [Hc1 Hc2]. split; cbn [rest line col].
      * by rewrite Hc1, Hword, string_app_assoc.
      * rewrite Hword, move_app, !move_line in Hc2 by done. cbn in Hc2.
        rewrite move_line by done. injection Hc2 as -> ->. f_equal. lia.
    + split; [done|]. apply is_name_spec; [by eauto|done..].
  - intros [= <- <-]. exists word. split; [done|]. split; [done|]. split; [|done].
    split; [done|]. apply is_name_spec; [by eauto|done|]. by apply split_hyphen_None.
Qed.

Lemma readNumber_takes k t k' :
  isdigit (peek 0 k) = true → readNumber k = Ok (t, k') → takes k t k'.
Proof.
  intros Hstart. destruct (peek_inv_0 k _ eq_refl) as (s & Hs).
  { intros E. rewrite E in Hstart. done. }
  unfold readNumber. pose proof (span_digits_app (rest k)) as H1.
  pose proof (span_digits_fst (rest k)) as Hd.
  destruct (span_digits_nonempty (peek 0 k) s Hstart) as (a & Ha). rewrite <- Hs in Ha.
  destruct (span_digits (rest k)) as [ip r1]. cbn [fst snd] in *.
  pose proof (scan_fraction_app r1) as H2.
  destruct (scan_fraction r1) as [fp r2]. cbn [fst snd] in *.
  destruct (scan_exponent r2) as [[ep r3]|] eqn:H3; [|done].
  apply scan_exponent_app in H3. intros [= <- <-].
  set (num := (ip +:+ fp +:+ ep)).
  destruct (advance_by_consumes num k r3) as [Hc Hr].
  { unfold num. rewrite !string_app_assoc, <- H3, <- H2. exact H1. }
  exists num. split; [by unfold num; rewrite Ha|]. split; [done|]. split; [|done].
  case_bool_decide as Hf; [|done]. destruct Hf as [-> ->].
  unfold num. rewrite !string_app_nil_r. by rewrite Ha in *.
Qed.

Lemma readString_takes k t k' :
  peek 0 k = quote → readString k = Ok (t, k') → takes k t k'.
Proof.
  intros Hq. destruct (peek_inv_0 k _ Hq) as (s & Hs); [done|].
  unfold readString. destruct (advance_consumes k _ _ Hs) as [H1 H2]. rewrite H2.
  destruct (scan_string s) as [[v n]|] eqn:E; [|done]. intros [= <- <-].
  destruct (scan_string_local _ _ _ E) as (body & r & -> & <- & Hbody).
  destruct (advance_by_consumes body (advance k) r H2) as [H3 _].
  exists (String quote body). split; [done|]. split; [|split; [|done]].
  - apply (consumes_trans _ _ _ _ _ H1 H3).
  - by exists body.
Qed.

Lemma one_takes k t :
  peek 0 k ≠ NUL → plain_type t = true →
  takes k (token_at k t (String (peek 0 k) "")) (advance k).
Proof.
  intros Hn Ht. destruct (peek_inv_0 k _ eq_refl Hn) as (s & Hs).
  destruct (advance_consumes k _ _ Hs) as [H1 _].
  eexists. split; [|split; [apply H1|]]; [done|]. split; [by apply lexeme_plain|done].
Qed.

Lemma two_takes k t c d :
  peek 0 k = c → peek 1 k = d → c ≠ NUL → d ≠ NUL → plain_type t = true →
  takes k (token_at k t (String (peek 0 k) (String (peek 1 k) ""))) (advance_by 2 k).
Proof.
  intros Hc Hd Hcn Hdn Ht. destruct (peek_inv_2 k _ _ Hc Hd Hcn Hdn) as (s & Hs).
  destruct (advance_by_consumes (String c (String d "")) k s Hs) as [H1 _].
  rewrite Hc, Hd. eexists. split; [|split; [apply H1|]]; [done|].
  split; [by apply lexeme_plain|done].
Qed.

Lemma readOperator_takes k t k' : readOperator k = Ok (t, k') → takes k t k'.
Proof.
  unfold readOperator.
  repeat match goal with
  | |- context [if ascii_dec ?a ?b then _ else _] => destruct (ascii_dec a b) as [?H|_]
  end; intros E; try discriminate E; injection E as <- <-;
    first
      [ eapply two_takes; [eassumption|eassumption|discriminate..|reflexivity]
      | apply one_takes; [|reflexivity];
        match goal with H : peek 0 _ = _ |- _ => rewrite H; discriminate end ].
Qed.

(** One iteration of the main loop: a lexeme or trivia, never nothing. *)
Lemma next_spec k r k' :
  next k = Ok (r, k') →
  match r with
  | Some t => takes k t k'
  | None => ∃ w, w ≠ "" ∧ trivia w ∧ consumes k w k'
  end.
Proof.
  unfold next.
  case_decide as Hl.
  { intros [= <- <-]. destruct Hl as [H0 H1].
    destruct (skipLineComment_consumes k H0 H1) as (w & Hw).
    exists ("--" +:+ w). split; [done|]. split; [|done].
    rewrite <- (string_app_nil_r w). apply trivia_line, trivia_nil. }
  case_decide as Hb.
  { destruct (skipBlockComment k) as [k1|] eqn:E; cbn; [|done]. intros [= <- <-].
    destruct Hb as [H0 H1]. destruct (skipBlockComment_consumes k k1 H0 H1 E) as (w & Hw).
    exists ("/*" +:+ w +:+ "*/"). split; [done|]. split; [|done].
    rewrite <- (string_app_nil_r "*/"). apply trivia_block, trivia_nil. }
  destruct (ascii_dec _ quote) as [Hq|_].
  { destruct (readString k) as [[t k1]|] eqn:E; cbn; [|done]. intros [= <- <-].
    by apply readString_takes. }
  destruct (isdigit _) eqn:Hd.
  { destruct (readNumber k) as [[t k1]|] eqn:E; cbn; [|done]. intros [= <- <-].
    by apply readNumber_takes. }
  destruct (isWordStart _) eqn:Hw.
  { destruct (readWord k) as [t k1] eqn:E. intros [= <- <-]. by apply readWord_takes. }
  destruct (readOperator k) as [[t k1]|] eqn:E; cbn; [|done]. intros [= <- <-].
  by apply readOperator_takes.
Qed.

(** ** The whole source *)

(** [reads s l c ts]: the text [s], which starts at line [l] and column [c], is
    the lexemes of [ts] in order with trivia between them; every token carries
    the position of its lexeme and only the last is the end of the source. *)
Inductive reads : string → Z → Z → list Token → Prop :=
  | reads_end s l c l' c' :
      trivia s → move s l c = (l', c') → reads s l c [mkToken EOF_TOKEN "" l' c']
  | reads_token s w r l c l1 c1 l2 c2 t ts :
      trivia s → move s l c = (l1, c1) →
      lexeme t w → tok_line t = l1 → tok_col t = c1 →
      move w l1 c1 = (l2, c2) → reads r l2 c2 ts →
      reads (s +:+ w +:+ r) l c (t :: ts).

Lemma reads_trivia s r l c ts :
  trivia s → reads r (move s l c).1 (move s l c).2 ts → reads (s +:+ r) l c ts.
Proof.
  intros Hs Hr. inversion Hr as [s' l0 c0 l' c' Ht Hm|s' w r' l0 c0 l1 c1 l2 c2 t ts' Ht Hm];
    subst.
  - apply reads_end; [by apply trivia_app|]. by rewrite move_app.
  - rewrite <- string_app_assoc.
    eapply reads_token;
      [by apply trivia_app|rewrite move_app; eassumption|eassumption|done..|
       eassumption|eassumption].
Qed.

Lemma consumes_reads k w k' s l c ts :
  consumes k w k' → rest k = s → line k = l → col k = c → trivia w →
  reads (rest k') (line k') (col k') ts → reads s l c ts.
Proof.
  intros [Hr Hp] <- <- <- Hw Hts. rewrite Hr. apply reads_trivia; [done|].
  by rewrite <- Hp.
Qed.

Lemma skipWhitespace_spec k :
  ∃ w, consumes k w (skipWhitespace k) ∧ trivia w.
Proof.
  destruct (skip_spaces_consumes (rest k) (line k) (col k)) as (w & Hw & Ht & _).
  exists w. split; [|done]. by apply (consumes_at (rest k)).
Qed.

Lemma tokenize_loop_reads fuel : ∀ k ts,
  tokenize_loop fuel k = Some (Ok ts) → reads (rest k) (line k) (col k) ts.
Proof.
  induction fuel as [|fuel IH]; intros k ts; cbn; [done|].
  destruct (skipWhitespace_spec k) as (w & Hw & Htriv).
  set (k1 := skipWhitespace k) in *. intros Hts.
  apply (consumes_reads k w k1); [done..|].
  destruct (at_end k1) eqn:Hend.
  { injection Hts as <-. unfold at_end in Hend. destruct (rest k1); [|done].
    apply reads_end; [constructor|done]. }
  destruct (next k1) as [[r k2]|e] eqn:Hn; [|done].
  destruct (tokenize_loop fuel k2) as [[ts'|]|] eqn:Hloop; [|done..].
  injection Hts as <-. apply IH in Hloop. pose proof (next_spec k1 r k2 Hn) as Hs.
  destruct r as [t|].
  - destruct Hs as (w' & Hne & [Hr Hp] & Hlex & Hl & Hc). rewrite Hr.
    apply (reads_token "" w' (rest k2) _ _ (line k1) (col k1) (line k2) (col k2) t ts');
      try done. constructor.
  - destruct Hs as (w' & Hne & Hcons & Htriv'). by apply (consumes_reads k1 w' k2).
Qed.

(** Enough fuel: one unit per character and one for the end. *)
Lemma tokenize_loop_total fuel : ∀ k,
  (String.length (rest k) < fuel)%nat → is_Some (tokenize_loop fuel k).
Proof.
  induction fuel as [|fuel IH]; intros k Hk; cbn; [lia|].
  destruct (skipWhitespace_spec k) as (w & Hw & _). apply consumes_length in Hw.
  set (k1 := skipWhitespace k) in *.
  destruct (at_end k1); [by eexists|].
  destruct (next k1) as [[r k2]|e] eqn:Hn; [|by eexists].
  assert (∃ w', w' ≠ "" ∧ consumes k1 w' k2) as (w' & Hne & Hcons).
  { pose proof (next_spec k1 r k2 Hn) as Hs.
    destruct r; [destruct Hs as (w' & ? & ? & _)|destruct Hs as (w' & ? & _ & ?)]; eauto. }
  apply consumes_length in Hcons. destruct w' as [|? w']; [done|]. cbn in Hcons.
  destruct (IH k2) as [[ts|e] ->]; [lia| |]; by eexists.
Qed.

(** A token stream the parser can run on: the end of the source comes last and
    nowhere else. *)
Definition ends_with_eof (ts : list Token) : Prop :=
  ∃ pre e, ts = pre ++ [e] ∧ tok_type e = EOF_TOKEN ∧
    Forall (λ t, tok_type t ≠ EOF_TOKEN) pre.

Lemma reads_eof s l c ts : reads s l c ts → ends_with_eof ts.
Proof.
  induction 1 as [s l c l' c' _ _|s w r l c l1 c1 l2 c2 t ts _ _ Hlex _ _ _ _ IH].
  - eexists [], _. by split.
  - destruct IH as (pre & e & -> & He & Hpre). exists (t :: pre), e.
    split; [done|]. split; [done|]. constructor; [|done].
    intros Ht. unfold lexeme in Hlex. by rewrite Ht in Hlex.
Qed.

Lemma reads_lexeme s l c ts t :
  reads s l c ts → t ∈ ts → tok_type t = EOF_TOKEN ∨ ∃ w, lexeme t w.
Proof.
  induction 1 as [|s w r l c l1 c1 l2 c2 t' ts _ _ Hlex _ _ _ _ IH].
  - intros ->%list_elem_of_singleton. by left.
  - intros [->|Hin]%elem_of_cons; [right; by exists w|auto].
Qed.

(** * Printing tokens *)

Definition operator_text (t : TokenType) : option string :=
  match t with
  | EQ => Some "=" | NEQ => Some "!=" | LT => Some "<" | GT => Some ">"
  | LTE => Some "<=" | GTE => Some ">=" | PLUS_OP => Some "+" | MINUS => Some "-"
  | STAR => Some "*" | SLASH => Some "/" | CONCAT => Some "||" | LPAREN => Some "("
  | RPAREN => Some ")" | COMMA => Some "," | SEMICOLON => Some ";" | DOT => Some "."
  | _ => None
  end.

Definition is_float (v : string) : bool :=
  let '(ip, r1) := span_digits v in
  let '(fp, r2) := scan_fraction r1 in
  match ip, scan_exponent r2 with
  | String _ _, Some (ep, EmptyString) => negb (bool_decide (fp = "" ∧ ep = ""))
  | _, _ => false
  end.

(** A token whose type and value belong together. *)
Definition well_spelled (t : Token) : Prop :=
  let v := tok_value t in
  match tok_type t with
  | INTEGER_LIT => v ≠ "" ∧ all_digits v = true
  | FLOAT_LIT => is_float v = true
  | STRING_LIT => True
  | IDENTIFIER => is_name v = true ∧ keyword v = None ∧ v ≠ "L"
  | L_FUNC => v = "L"
  | EOF_TOKEN => False
  | ty =>
      match operator_text ty with
      | Some o => v = o
      | None => keyword v = Some ty
      end
  end.

#[global] Instance well_spelled_dec t : Decision (well_spelled t).
Proof. unfold well_spelled. destruct (tok_type t); cbn; apply _. Defined.

Fixpoint escape (v : string) : string :=
  match v with
  | EmptyString => EmptyString
  | String c v =>
      if ascii_dec c quote then String quote (String quote (escape v))
      else if ascii_dec c backslash then String backslash (String backslash (escape v))
      else String c (escape v)
  end.

Definition render_token (t : Token) : string :=
  if decide (tok_type t = STRING_LIT)
  then String quote (escape (tok_value t) +:+ String quote "")
  else tok_value t.

Fixpoint render (ts : list Token) : string :=
  match ts with
  | [] => ""
  | t :: ts => render_token t +:+ String " " (render ts)
  end.

(** ** Scanning up to a space *)

Lemma span_digits_space s r :
  span_digits (s +:+ String " " r)
  = ((span_digits s).1, (span_digits s).2 +:+ String " " r).
Proof.
  induction s as [|c s IH]; [done|]. rewrite string_app_cons. cbn.
  destruct (isdigit c); [|done]. rewrite IH. by destruct (span_digits s).
Qed.

Lemma scan_fraction_space s r :
  scan_fraction (s +:+ String " " r)
  = ((scan_fraction s).1, (scan_fraction s).2 +:+ String " " r).
Proof.
  destruct s as [|p [|d s]].
  - by destruct r.
  - rewrite string_app_cons, string_app_nil_l. unfold scan_fraction.
    change (isdigit " ") with false. by rewrite andb_false_r.
  - rewrite !string_app_cons. unfold scan_fraction. destruct (_ && _); [|done].
    rewrite <- string_app_cons, span_digits_space. by destruct (span_digits (String d s)).
Qed.

Lemma scan_exponent_space s x q r :
  scan_exponent s = Some (x, q) →
  scan_exponent (s +:+ String " " r) = Some (x, q +:+ String " " r).
Proof.
  destruct s as [|e s]; [by intros [= <- <-]|]. rewrite string_app_cons. unfold scan_exponent.
  destruct (isExponent e); [|by intros [= <- <-]].
  destruct s as [|g s]; [done|]. rewrite string_app_cons. destruct (isSign g).
  - destruct s as [|d s]; [done|]. rewrite string_app_cons. destruct (isdigit d); [|done].
    rewrite <- string_app_cons, span_digits_space.
    destruct (span_digits (String d s)). by intros [= <- <-].
  - destruct (isdigit g); [|done]. rewrite <- string_app_cons, span_digits_space.
    destruct (span_digits (String g s)). by intros [= <- <-].
Qed.

Lemma scan_word_space w r :
  scan_word w = (w, "") → scan_word (w +:+ String " " r) = (w, String " " r).
Proof.
  induction w as [|c w IH]; [done|]. rewrite string_app_cons. cbn.
  destruct (negb _); [done|]. case_decide as Hc.
  - destruct w as [|d w]; [done|]. rewrite string_app_cons.
    destruct (isWordStart d); [|done]. destruct (scan_word (String d w)) as [a b].
    intros [= -> ->]. rewrite <- string_app_cons, IH by done. done.
  - destruct (scan_word w) as [a b]. intros [= -> ->]. by rewrite IH.
Qed.

Lemma scan_string_escape v r :
  scan_string (escape v +:+ String quote (String " " r))
  = Some (v, String.length (escape v +:+ String quote "")).
Proof.
  induction v as [|c v IH]; [done|]. cbn [escape].
  destruct (ascii_dec c quote) as [->|Hq]; [|destruct (ascii_dec c backslash) as [->|Hb]];
    rewrite !string_app_cons; cbn [scan_string String.length].
  - destruct (ascii_dec quote quote); [|done]. by rewrite IH.
  - destruct (ascii_dec backslash quote); [done|].
    destruct (ascii_dec backslash backslash); [|done]. by rewrite IH.
  - destruct (ascii_dec c quote); [done|]. destruct (ascii_dec c backslash); [done|].
    by rewrite IH.
Qed.

Lemma is_name_scan w : is_name w = true → scan_word w = (w, "") ∧ split_hyphen w = None.
Proof.
  destruct w as [|c w]; [done|]. cbn [is_name]. intros [Hc Hw]%andb_prop.
  assert (∀ d, isNamePart d = true → isWordContinue d = true ∧ notHyphen d = true) as Hpart.
  { intros d Hd. enough (implb (isNamePart d) (isWordContinue d && notHyphen d) = true) as H.
    { rewrite Hd in H. by apply andb_prop in H. }
    clear. by_all_ascii d. }
  assert (isNamePart c = true) as Hc'.
  { destruct (wordStart_facts c Hc) as (? & ? & _). apply namePart_spec; [done|].
    unfold notHyphen. by rewrite bool_decide_eq_false_2. }
  assert (all_chars isNamePart (String c w) = true) as Hall by (cbn; by rewrite Hc').
  clear Hc Hw Hc'. split.
  - induction (String c w) as [|d s IH]; [done|]. cbn in *.
    apply andb_prop in Hall as [Hd Hs]. destruct (Hpart d Hd) as [-> Hh]. cbn.
    rewrite decide_False; [by rewrite IH|]. unfold notHyphen in Hh.
    by case_bool_decide.
  - apply split_hyphen_None. revert Hall. apply all_chars_impl. intros d Hd.
    by apply Hpart.
Qed.

Lemma find_keyword_forallb (p : string → bool) table w t :
  forallb (λ kt, p kt.1) table = true → find_keyword w table = Some t → p w = true.
Proof.
  induction table as [|[k t'] table IH]; cbn; [done|].
  intros [Hk Ht]%andb_prop. case_decide as Hd; [by subst|auto].
Qed.

Definition starts_word (w : string) : bool :=
  match w with String c _ => isWordStart c | EmptyString => false end.

Definition keyword_spelling (w : string) : bool :=
  bool_decide (scan_word w = (w, "")) && starts_word w && bool_decide (w ≠ "L").

Lemma keyword_word w t :
  keyword w = Some t → scan_word w = (w, "") ∧ starts_word w = true ∧ w ≠ "L".
Proof.
  intros Hk.
  assert (forallb (λ kt, keyword_spelling kt.1) KEYWORDS = true) as Hall
    by (vm_compute; reflexivity).
  pose proof (find_keyword_forallb keyword_spelling KEYWORDS w t Hall Hk) as H.
  apply andb_prop in H as [[H1%bool_decide_eq_true H2]%andb_prop H3%bool_decide_eq_true].
  done.
Qed.

(** ** A printed token is read back *)

Definition same_token (t u : Token) : Prop :=
  tok_type t = tok_type u ∧ tok_value t = tok_value u.

(** [yields k t r]: at [k] the main loop reads a token like [t] and leaves the
    text [r]. *)
Definition yields (k : cursor) (t : Token) (r : string) : Prop :=
  ∃ t' k', next k = Ok (Some t', k') ∧ same_token t' t ∧ rest k' = r.

Lemma next_word k c s :
  rest k = String c s → isWordStart c = true →
  next k = (let '(t, k') := readWord k in Ok (Some t, k')).
Proof.
  intros Hk Hc. unfold next. rewrite (peek_0 k c s Hk).
  assert (implb (isWordStart c) (negb (bool_decide (c = "-"%char)) &&
    negb (bool_decide (c = "/"%char)) && negb (bool_decide (c = quote)) &&
    negb (isdigit c)) = true) as H by (clear; by_all_ascii c).
  rewrite Hc in H. cbn in H. repeat apply andb_prop in H as [H ?].
  repeat match goal with
  | H : negb _ = true |- _ => apply negb_true_iff in H
  | H : bool_decide _ = false |- _ => apply bool_decide_eq_false in H
  end.
  rewrite !decide_False by tauto. destruct (ascii_dec c quote); [done|].
  by match goal with H : isdigit c = false |- _ => rewrite H, Hc end.
Qed.

Lemma next_number k c s :
  rest k = String c s → isdigit c = true →
  next k = (let* (t, k') := readNumber k in Ok (Some t, k')).
Proof.
  intros Hk Hc. unfold next. rewrite (peek_0 k c s Hk).
  assert (implb (isdigit c) (negb (bool_decide (c = "-"%char)) &&
    negb (bool_decide (c = "/"%char)) && negb (bool_decide (c = quote))) = true) as H
    by (clear; by_all_ascii c).
  rewrite Hc in H. cbn in H. repeat apply andb_prop in H as [H ?].
  repeat match goal with
  | H : negb _ = true |- _ => apply negb_true_iff in H
  | H : bool_decide _ = false |- _ => apply bool_decide_eq_false in H
  end.
  rewrite !decide_False by tauto. destruct (ascii_dec c quote); [done|]. by rewrite Hc.
Qed.

Lemma readWord_yields k t w r :
  rest k = (w +:+ String " " r) → starts_word w = true → scan_word w = (w, "") →
  tok_value t = w →
  (w = "L" ∧ tok_type t = L_FUNC ∨ w ≠ "L" ∧ keyword w = Some (tok_type t) ∨
   w ≠ "L" ∧ keyword w = None ∧ tok_type t = IDENTIFIER ∧ split_hyphen w = None) →
  yields k t (String " " r).
Proof.
  intros Hk Hstart Hscan Hv Hcase. destruct w as [|c w]; [done|].
  assert (Hk' := Hk). rewrite string_app_cons in Hk'. unfold yields.
  rewrite (next_word k c _ Hk' Hstart). unfold readWord.
  rewrite Hk, (scan_word_space (String c w) r Hscan).
  destruct (advance_by_consumes (String c w) k _ Hk) as [_ Hr].
  destruct Hcase as [[HL Ht]|[(HL & Hkw)|(HL & Hkw & Ht & Hs)]].
  - rewrite decide_True by done. rewrite HL in *. do 2 eexists. split; [done|]. split; [by split|exact Hr].
  - rewrite decide_False, Hkw by done. do 2 eexists. split; [done|]. split; [by split|exact Hr].
  - rewrite decide_False, Hkw, Hs by done. do 2 eexists. split; [done|]. split; [by split|exact Hr].
Qed.

Lemma readNumber_yields k t ip fp ep r :
  rest k = ((ip +:+ fp +:+ ep) +:+ String " " r) → ip ≠ "" →
  (let v := ip +:+ fp +:+ ep in
   ∃ r1 r2, span_digits v = (ip, r1) ∧ scan_fraction r1 = (fp, r2) ∧
     scan_exponent r2 = Some (ep, "")) →
  tok_value t = (ip +:+ fp +:+ ep) →
  tok_type t = (if bool_decide (fp = "" ∧ ep = "") then INTEGER_LIT else FLOAT_LIT) →
  yields k t (String " " r).
Proof.
  intros Hk Hip (r1 & r2 & H1 & H2 & H3) Hv Ht.
  assert (∃ c s, ip = String c s ∧ isdigit c = true) as (c & s & -> & Hc).
  { pose proof (span_digits_fst (ip +:+ fp +:+ ep)) as Hd. rewrite H1 in Hd. cbn in Hd.
    destruct ip as [|c s]; [done|]. exists c, s. split; [done|].
    unfold all_digits in Hd. cbn in Hd. by apply andb_prop in Hd as [? _]. }
  assert (Hk' := Hk). rewrite !string_app_cons in Hk'. unfold yields.
  rewrite (next_number k c _ Hk' Hc). unfold readNumber.
  rewrite Hk, span_digits_space, H1. cbn [fst snd].
  rewrite scan_fraction_space, H2. cbn [fst snd].
  rewrite (scan_exponent_space _ _ _ _ H3). cbn [rbind].
  destruct (advance_by_consumes _ k _ Hk) as [_ Hr].
  do 2 eexists. split; [done|]. split; [|exact Hr]. split; cbn [tok_type tok_value token_at].
  - rewrite Ht. by case_bool_decide.
  - by rewrite Hv.
Qed.

Lemma readOperator_yields k t r o :
  operator_text (tok_type t) = Some o → tok_value t = o →
  rest k = (o +:+ String " " r) → yields k t (String " " r).
Proof.
  intros Ho Hv Hk. destruct k as [s l c]. cbn in Hk. subst s. unfold yields.
  destruct (tok_type t) eqn:Ht; try discriminate Ho; injection Ho as <-;
    (do 2 eexists; split;
      [vm_compute; reflexivity|split; [split; [by rewrite Ht|by rewrite Hv]|vm_compute; reflexivity]]).
Qed.

Lemma readString_yields k t r :
  tok_type t = STRING_LIT → rest k = (render_token t +:+ String " " r) →
  yields k t (String " " r).
Proof.
  intros Ht Hk. unfold render_token in Hk. rewrite decide_True in Hk by done.
  assert (Hk' := Hk). rewrite string_app_cons in Hk'. unfold yields.
  unfold next. rewrite (peek_0 k quote _ Hk').
  rewrite !decide_False by (intros [[=] _]).
  destruct (ascii_dec quote quote); [|done]. unfold readString.
  destruct (advance_consumes k _ _ Hk') as [_ Hr]. rewrite Hr.
  rewrite string_app_assoc in Hr |- *. rewrite string_app_cons, string_app_nil_l in Hr |- *.
  rewrite scan_string_escape. cbn [rbind].
  assert (rest (advance k) = ((escape (tok_value t) +:+ String quote "") +:+ String " " r)) as Hr'
    by (rewrite Hr, string_app_assoc; done).
  destruct (advance_by_consumes _ (advance k) _ Hr') as [_ Hr2].
  do 2 eexists. split; [done|]. split; [|exact Hr2]. by split.
Qed.

Lemma is_name_start w : is_name w = true → starts_word w = true.
Proof. destruct w; [done|]. cbn. by intros [? _]%andb_prop. Qed.

Lemma well_spelled_yields k t r :
  well_spelled t → rest k = (render_token t +:+ String " " r) → yields k t (String " " r).
Proof.
  intros Hw Hk. destruct (decide (tok_type t = STRING_LIT)) as [Hs|Hs].
  { by apply readString_yields. }
  assert (rest k = (tok_value t +:+ String " " r)) as Hv
    by (unfold render_token in Hk; by rewrite decide_False in Hk).
  clear Hk. destruct (operator_text (tok_type t)) as [o|] eqn:Ho.
  { assert (tok_value t = o) as Hvo.
    { unfold well_spelled in Hw. by destruct (tok_type t); try discriminate Ho;
        injection Ho as <-. }
    rewrite Hvo in Hv. by apply (readOperator_yields k t r o). }
  assert (keyword (tok_value t) = Some (tok_type t) → yields k t (String " " r)) as Hkey.
  { intros Hk. destruct (keyword_word _ _ Hk) as (Hscan & Hstart & HL).
    apply (readWord_yields k t (tok_value t)); [done..|]. right. by left. }
  unfold well_spelled in Hw.
  destruct (tok_type t) eqn:Ht; try discriminate Ho; try (by apply Hkey); try done.
  - apply (readWord_yields k t (tok_value t)); rewrite Hw; try done.
    + by rewrite <- Hw.
    + left. done.
  - destruct Hw as [Hne Hd].
    apply (readNumber_yields k t (tok_value t) "" "" r); rewrite ?string_app_nil_r; try done.
    exists "", "". rewrite ?string_app_nil_r. split; [|done]. by apply span_digits_all.
  - unfold is_float in Hw. pose proof (span_digits_app (tok_value t)) as H1.
    destruct (span_digits (tok_value t)) as [ip r1] eqn:E1.
    pose proof (scan_fraction_app r1) as H2.
    destruct (scan_fraction r1) as [fp r2] eqn:E2. cbn [fst snd] in *.
    destruct ip as [|c ip]; [done|].
    destruct (scan_exponent r2) as [[ep [|]]|] eqn:E3; try done.
    pose proof (scan_exponent_app _ _ _ E3) as H3. rewrite string_app_nil_r in H3. subst r2.
    assert (tok_value t = (String c ip +:+ fp +:+ ep)) as Hval by (by rewrite <- H2).
    apply (readNumber_yields k t (String c ip) fp ep r); try done.
    + by rewrite <- Hval.
    + exists r1, ep. by rewrite <- Hval.
    + rewrite Ht. apply negb_true_iff in Hw. by rewrite Hw.
  - destruct Hw as (Hname & Hk & HL). destruct (is_name_scan _ Hname) as [Hscan Hsplit].
    apply (readWord_yields k t (tok_value t)); try done; [by apply is_name_start|].
    right. by right.
Qed.

Lemma render_start t r :
  well_spelled t → ∃ c s, render_token t +:+ String " " r = String c s ∧ isspace c = false.
Proof.
  intros Hw. unfold render_token. case_decide as Hs.
  { eexists _, _. by split. }
  assert (∀ c, isWordStart c = true → isspace c = false) as Hstart.
  { intros c Hc. enough (implb (isWordStart c) (negb (isspace c)) = true) as H
      by (rewrite Hc in H; by apply negb_true_iff).
    clear. by_all_ascii c. }
  assert (starts_word (tok_value t) = true →
    ∃ c s, tok_value t +:+ String " " r = String c s ∧ isspace c = false) as Hword.
  { destruct (tok_value t) as [|c s]; [done|]. intros Hc. do 2 eexists.
    split; [done|]. by apply Hstart. }
  assert (∀ c s, tok_value t = String c s → isdigit c = true →
    ∃ c s, tok_value t +:+ String " " r = String c s ∧ isspace c = false) as Hnum.
  { intros c s -> Hc. do 2 eexists. split; [done|]. by apply digit_not_space. }
  unfold well_spelled in Hw.
  destruct (tok_type t) eqn:Ht; cbn [operator_text] in Hw; try done;
    try (apply keyword_word in Hw as (_ & ? & _); by apply Hword);
    try (rewrite Hw; by do 2 eexists).
  - destruct Hw as [Hne Hd]. destruct (tok_value t) as [|c s] eqn:E; [done|].
    unfold all_digits in Hd. cbn in Hd. apply andb_prop in Hd as [Hc _]. by apply (Hnum c s).
  - unfold is_float in Hw. destruct (tok_value t) as [|c s] eqn:E; [done|].
    apply (Hnum c s); [done|]. cbn in Hw. destruct (isdigit c); [done|].
    by destruct (scan_fraction _).
  - apply Hword, is_name_start, Hw.
Qed.

Lemma skipWhitespace_sp k sp r :
  (sp = "" ∨ sp = " ") → rest k = (sp +:+ r) →
  match r with String c _ => isspace c = false | EmptyString => True end →
  rest (skipWhitespace k) = r.
Proof.
  intros Hsp Hk Hr. unfold skipWhitespace. rewrite Hk.
  assert (∀ l c, rest (skip_spaces r l c) = r) as Hstop.
  { intros l c. destruct r as [|d r]; [done|]. cbn. by rewrite Hr. }
  destruct Hsp as [-> | ->]; [apply Hstop|]. rewrite string_app_cons, string_app_nil_l.
  apply Hstop.
Qed.

Lemma tokenize_loop_render ts : ∀ fuel k sp,
  Forall well_spelled ts → (sp = "" ∨ sp = " ") → rest k = (sp +:+ render ts) →
  (String.length (rest k) < fuel)%nat →
  ∃ ts' e, tokenize_loop fuel k = Some (Ok (ts' ++ [e])) ∧ Forall2 same_token ts' ts ∧
    tok_type e = EOF_TOKEN ∧ tok_value e = "".
Proof.
  induction ts as [|t ts IH]; intros fuel k sp Hts Hsp Hk Hfuel.
  - destruct fuel as [|fuel]; [lia|]. cbn [tokenize_loop].
    pose proof (skipWhitespace_sp k sp "" Hsp Hk I) as Hr. unfold at_end. rewrite Hr.
    by eexists [], _.
  - apply Forall_cons in Hts as [Ht Hts]. destruct fuel as [|fuel]; [lia|].
    cbn [tokenize_loop]. cbn [render] in Hk.
    destruct (render_start t (render ts) Ht) as (c & s & Hcs & Hc).
    pose proof (skipWhitespace_sp k sp _ Hsp Hk ltac:(by rewrite Hcs)) as Hr.
    destruct (skipWhitespace_spec k) as (w & Hw & _). apply consumes_length in Hw.
    set (k1 := skipWhitespace k) in *.
    assert (at_end k1 = false) as -> by (unfold at_end; by rewrite Hr, Hcs).
    destruct (well_spelled_yields k1 t _ Ht Hr) as (t' & k2 & Hn & Hsame & Hr2).
    pose proof (next_spec _ _ _ Hn) as (w' & Hne & Hcons & _).
    apply consumes_length in Hcons. destruct w' as [|? w']; [done|]. cbn in Hcons.
    rewrite Hn.
    destruct (IH fuel k2 " " Hts (or_intror eq_refl)) as (ts' & e & -> & Hall & He).
    + by rewrite Hr2.
    + lia.
    + exists (t' :: ts'), e. split; [done|]. split; [by constructor|done].
Qed.

(** ** Properties *)

(** C23: The lexer is total and lossless: on every source it stops, with an
    error or with tokens such that the source is exactly their lexemes in
    order separated by white space and comments, every token carries the line
    and column of its lexeme, and the end-of-source token comes last and
    nowhere else. *)
Theorem tokenize_lossless source :
  match tokenize source with
  | None => False
  | Some (Err _) => True
  | Some (Ok ts) => reads source 1 1 ts ∧ ends_with_eof ts
  end.
Proof.
  unfold tokenize, tokenize_fuel.
  destruct (tokenize_loop_total (S (String.length source)) (Lexer source)) as [[ts|e] E];
    [cbn; lia| |by rewrite E].
  rewrite E. apply tokenize_loop_reads in E. split; [done|]. by eapply reads_eof.
Qed.

(** C24: Printing and lexing are inverse: a list of well-spelled tokens printed
    with a space after each, strings quoted and escaped, is lexed back to
    tokens of the same types and values, followed by the end of the source. *)
Theorem tokenize_render ts :
  Forall well_spelled ts →
  ∃ ts' e, tokenize (render ts) = Some (Ok (ts' ++ [e])) ∧ Forall2 same_token ts' ts ∧
    tok_type e = EOF_TOKEN ∧ tok_value e = "".
Proof.
  intros Hts. apply (tokenize_loop_render ts _ _ ""); auto.
Qed.

Definition demo_tokens : list Token :=
  [mkToken SLAY "slay" 1 1; mkToken IDENTIFIER "user_id" 1 6; mkToken MINUS "-" 1 1;
   mkToken FLOAT_LIT "1.5e-3" 1 1; mkToken STRING_LIT "it's a \ here" 1 1;
   mkToken LONE_WOLF "LONE-WOLF" 1 1; mkToken L_FUNC "L" 1 1; mkToken LTE "<=" 1 1].

Lemma tokenize_render_witness :
  ∃ ts' e, tokenize (render demo_tokens) = Some (Ok (ts' ++ [e])) ∧
    Forall2 same_token ts' demo_tokens ∧ tok_type e = EOF_TOKEN ∧ tok_value e = "".
Proof.
  apply (tokenize_render demo_tokens).
  repeat (constructor; [vm_compute; tauto || reflexivity || (repeat split; discriminate)|]).
  constructor.
Defined.
