(* ===== verification/Ast.v ===== *)
(** The syntax tree: [src/ast.h].  An expression is a [Node]; a [SELECT] is
    itself a node, since it occurs as a subquery.  The optional children of the
    code (null [unique_ptr]s) are options; the children the parser always
    sets are plain.  [clone] is translated member by member, so that a member a
    copy forgot would show. *)

From S2P Require Import Prelude.
From S2P Require Import Double.

#[local] Set Warnings "-register-all".

(** [line] and [col] of [ASTNode]. *)
Record loc : Type := Loc { loc_line : Z; loc_col : Z }.

(** [LiteralKind] with the member it selects. *)
Inductive literal : Type :=
  | LInt (ival : Z)
  | LFloat (fval : double)
  | LString (sval : string)
  | LNull
  | LBool (bval : bool).

Inductive JoinType : Type := INNER | LEFT | CROSS.

Record OrderItem (N : Type) : Type := mkOrderItem {
  oi_expr : N;
  oi_asc : bool;
}.
Arguments mkOrderItem {N}. Arguments oi_expr {N}. Arguments oi_asc {N}.

Record JoinClause (N : Type) : Type := mkJoin {
  jc_type : JoinType;
  jc_table : string;
  jc_alias : string;
  jc_condition : N;
}.
Arguments mkJoin {N}. Arguments jc_type {N}. Arguments jc_table {N}.
Arguments jc_alias {N}. Arguments jc_condition {N}.

Record SelectStmt (N : Type) : Type := mkSelect {
  s_distinct : bool;
  s_columns : list N;
  s_fromTable : string;
  s_fromAlias : string;
  s_joins : list (JoinClause N);
  s_where : option N;
  s_groupBy : list N;
  s_having : option N;
  s_orderBy : list (OrderItem N);
  s_limit : option N;
  s_offset : option N;
  s_loc : loc;
}.
Arguments mkSelect {N}. Arguments s_distinct {N}. Arguments s_columns {N}.
Arguments s_fromTable {N}. Arguments s_fromAlias {N}. Arguments s_joins {N}.
Arguments s_where {N}. Arguments s_groupBy {N}. Arguments s_having {N}.
Arguments s_orderBy {N}. Arguments s_limit {N}. Arguments s_offset {N}.
Arguments s_loc {N}.

Inductive Node : Type :=
  | Literal (value : literal) (at_ : loc)
  | ColumnRef (table column alias : string) (at_ : loc)
  | Wildcard (table alias : string) (at_ : loc)
  | BinaryOp (op : string) (lhs rhs : Node) (alias : string) (at_ : loc)
  | UnaryOp (op : string) (operand : Node) (alias : string) (at_ : loc)
  | FunctionCall (name : string) (args : list Node) (distinct : bool)
      (alias : string) (at_ : loc)
  | WindowFunc (funcName : string) (partition_by : list Node)
      (order_by : list (OrderItem Node)) (alias : string) (at_ : loc)
  | Select (stmt : SelectStmt Node).

Abbreviation Select_ := (SelectStmt Node).

(** * Statements *)

Record InsertStmt : Type := mkInsert {
  i_table : string;
  i_columns : list string;
  i_valueRows : list (list Node);
  i_loc : loc;
}.

Record Assignment : Type := mkAssignment {
  a_column : string;
  a_value : Node;
}.

Record UpdateStmt : Type := mkUpdate {
  u_table : string;
  u_sets : list Assignment;
  u_where : option Node;
  u_loc : loc;
}.

Record DeleteStmt : Type := mkDelete {
  d_table : string;
  d_where : option Node;
  d_loc : loc;
}.

Record ColumnDef : Type := mkColumnDef {
  cd_name : string;
  cd_type : string;
  cd_primary_key : bool;
  cd_not_null : bool;
  cd_fk_table : string;
  cd_fk_col : string;
}.

Record CreateStmt : Type := mkCreate {
  c_table : string;
  c_columns : list ColumnDef;
  c_ifNotExists : bool;
  c_loc : loc;
}.

Record DropStmt : Type := mkDrop {
  dr_table : string;
  dr_ifExists : bool;
  dr_loc : loc;
}.

Record FeatureSpec : Type := mkFeature {
  f_name : string;
  f_spec : string;
}.

Record CreateSnapshotStmt : Type := mkSnapshot {
  cs_name : string;
  cs_source : Select_;
  cs_splitBy : string;
  cs_seed : Z;
  cs_features : list FeatureSpec;
  cs_label : FeatureSpec;
  cs_loc : loc;
}.

Record ExportTorchStmt : Type := mkExport {
  et_dataset : string;
  et_batchSize : Z;
  et_deterministicShuffle : bool;
  et_epoch : Z;
  et_rank : Z;
  et_worldSize : Z;
  et_loc : loc;
}.

Record ExplainBatchStmt : Type := mkExplainBatch {
  eb_dataset : string;
  eb_batchSize : Z;
  eb_epoch : Z;
  eb_batch : Z;
  eb_rank : Z;
  eb_worldSize : Z;
  eb_loc : loc;
}.

Record CreateContextStmt : Type := mkCreateContext {
  cc_name : string;
  cc_loc : loc;
}.

Record AppendMemoryStmt : Type := mkAppendMemory {
  am_context : string;
  am_messageId : Z;
  am_speaker : string;
  am_text : string;
  am_tab : string;
  am_autoTab : bool;
  am_loc : loc;
}.

(** [SpillContextStmt] and [ExplainContextStmt] have the same members. *)
Record SpillContextStmt : Type := mkSpillContext {
  sc_context : string;
  sc_query : string;
  sc_tab : string;
  sc_tokenBudget : Z;
  sc_receipts : bool;
  sc_loc : loc;
}.

Record TagMemoryStmt : Type := mkTagMemory {
  tm_context : string;
  tm_messageId : Z;
  tm_tab : string;
  tm_loc : loc;
}.

Record ShowTabsStmt : Type := mkShowTabs {
  st_context : string;
  st_loc : loc;
}.

Record ShowContextObjectsStmt : Type := mkShowContextObjects {
  so_context : string;
  so_loc : loc;
}.

Record AliasTabStmt : Type := mkAliasTab {
  at_context : string;
  at_alias : string;
  at_target : string;
  at_loc : loc;
}.

Record MergeTabsStmt : Type := mkMergeTabs {
  mt_context : string;
  mt_fromTab : string;
  mt_toTab : string;
  mt_loc : loc;
}.

Inductive Stmt : Type :=
  | SSelect (s : Select_)
  | SInsert (s : InsertStmt)
  | SUpdate (s : UpdateStmt)
  | SDelete (s : DeleteStmt)
  | SCreate (s : CreateStmt)
  | SDrop (s : DropStmt)
  | SCreateSnapshot (s : CreateSnapshotStmt)
  | SExportTorch (s : ExportTorchStmt)
  | SExplainBatch (s : ExplainBatchStmt)
  | SCreateContext (s : CreateContextStmt)
  | SAppendMemory (s : AppendMemoryStmt)
  | SSpillContext (s : SpillContextStmt)
  | SExplainContext (s : SpillContextStmt)
  | STagMemory (s : TagMemoryStmt)
  | SShowTabs (s : ShowTabsStmt)
  | SShowContextSchemas (at_ : loc)
  | SShowContextObjects (s : ShowContextObjectsStmt)
  | SAliasTab (s : AliasTabStmt)
  | SMergeTabs (s : MergeTabsStmt).

(** * Children and induction *)

Definition select_children (s : Select_) : list Node :=
  s_columns s ++ (jc_condition <$> s_joins s) ++ option_list (s_where s) ++
  s_groupBy s ++ option_list (s_having s) ++ (oi_expr <$> s_orderBy s) ++
  option_list (s_limit s) ++ option_list (s_offset s).

Definition children (n : Node) : list Node :=
  match n with
  | Literal _ _ | ColumnRef _ _ _ _ | Wildcard _ _ _ => []
  | BinaryOp _ l r _ _ => [l; r]
  | UnaryOp _ e _ _ => [e]
  | FunctionCall _ args _ _ _ => args
  | WindowFunc _ ps os _ _ => ps ++ (oi_expr <$> os)
  | Select s => select_children s
  end.

Fixpoint sum (l : list nat) : nat :=
  match l with [] => O | x :: l => (x + sum l)%nat end.

(** The number of nodes of a tree. *)
Fixpoint node_size (n : Node) : nat :=
  let total (l : list Node) := sum (map node_size l) in
  let opt (o : option Node) := match o with Some n => node_size n | None => O end in
  let items (l : list (OrderItem Node)) := sum (map (λ i, node_size (oi_expr i)) l) in
  S match n with
  | Literal _ _ | ColumnRef _ _ _ _ | Wildcard _ _ _ => O
  | BinaryOp _ l r _ _ => node_size l + node_size r
  | UnaryOp _ e _ _ => node_size e
  | FunctionCall _ args _ _ _ => total args
  | WindowFunc _ ps os _ _ => total ps + items os
  | Select s =>
      total (s_columns s) + sum (map (λ j, node_size (jc_condition j)) (s_joins s)) +
      opt (s_where s) + total (s_groupBy s) + opt (s_having s) + items (s_orderBy s) +
      opt (s_limit s) + opt (s_offset s)
  end.

Lemma sum_elem_of (f : Node → nat) n l : n ∈ l → (f n ≤ sum (map f l))%nat.
Proof. induction 1 as [n l|n m l _ IH]; cbn; lia. Qed.

Lemma sum_option (f : Node → nat) o :
  match o with Some n => f n | None => O end = sum (map f (option_list o)).
Proof. destruct o; cbn; lia. Qed.

Lemma sum_app l1 l2 : sum (l1 ++ l2) = (sum l1 + sum l2)%nat.
Proof. induction l1; cbn; lia. Qed.

Lemma map_fmap {A B C} (f : B → C) (g : A → B) l : map f (g <$> l) = map (λ x, f (g x)) l.
Proof. induction l as [|x l IH]; [done|]. cbn. by rewrite <- IH. Qed.

Lemma node_size_children n : node_size n = S (sum (map node_size (children n))).
Proof.
  destruct n as [| | |op l r|op e|f args|f ps os|s]; cbn [node_size children map sum];
    f_equal; rewrite ?map_app, ?sum_app; try done; try lia.
  - by rewrite map_fmap.
  - unfold select_children. rewrite !map_app, !sum_app, !(sum_option node_size), !map_fmap.
    lia.
Qed.

Lemma child_smaller m n : m ∈ children n → (node_size m < node_size n)%nat.
Proof.
  intros Hm. rewrite (node_size_children n).
  pose proof (sum_elem_of node_size m (children n) Hm). lia.
Qed.

(** To prove a property of every tree, prove it assuming it of the children. *)
Lemma Node_children_ind (P : Node → Prop) :
  (∀ n, (∀ m, m ∈ children n → P m) → P n) → ∀ n, P n.
Proof.
  intros Hstep n. induction (Nat.lt_wf_0_projected node_size n) as [n _ IH].
  apply Hstep. intros m Hm. by apply IH, child_smaller.
Qed.

(** * Cloning *)

Definition map_order {N} (f : N → N) (o : OrderItem N) : OrderItem N :=
  mkOrderItem (f (oi_expr o)) (oi_asc o).

Definition map_join {N} (f : N → N) (j : JoinClause N) : JoinClause N :=
  mkJoin (jc_type j) (jc_table j) (jc_alias j) (f (jc_condition j)).

Definition map_select {N} (f : N → N) (s : SelectStmt N) : SelectStmt N :=
  mkSelect (s_distinct s) (map f (s_columns s)) (s_fromTable s) (s_fromAlias s)
    (map (map_join f) (s_joins s)) (option_map f (s_where s)) (map f (s_groupBy s))
    (option_map f (s_having s)) (map (map_order f) (s_orderBy s))
    (option_map f (s_limit s)) (option_map f (s_offset s)) (s_loc s).

Fixpoint clone (n : Node) : Node :=
  match n with
  | Literal v p => Literal v p
  | ColumnRef t c a p => ColumnRef t c a p
  | Wildcard t a p => Wildcard t a p
  | BinaryOp op l r a p => BinaryOp op (clone l) (clone r) a p
  | UnaryOp op e a p => UnaryOp op (clone e) a p
  | FunctionCall f args d a p => FunctionCall f (map clone args) d a p
  | WindowFunc f ps os a p => WindowFunc f (map clone ps) (map (map_order clone) os) a p
  | Select s => Select (map_select clone s)
  end.

Lemma map_id_in {A} (f : A → A) l : (∀ x, x ∈ l → f x = x) → map f l = l.
Proof.
  induction l as [|x l IH]; [done|]. intros H. cbn.
  rewrite H by apply list_elem_of_here. f_equal. apply IH. intros y Hy.
  apply H. by apply list_elem_of_further.
Qed.

Lemma option_map_id_in {A} (f : A → A) o : (∀ x, o = Some x → f x = x) → option_map f o = o.
Proof. destruct o; [|done]. intros H. cbn. by rewrite H. Qed.

Lemma map_order_id {N} (f : N → N) os :
  (∀ x, x ∈ oi_expr <$> os → f x = x) → map (map_order f) os = os.
Proof.
  intros H. apply map_id_in. intros [e a] Ho. unfold map_order. cbn.
  rewrite H; [done|]. by apply (list_elem_of_fmap_2 oi_expr) in Ho.
Qed.

Lemma map_select_id (f : Node → Node) s :
  (∀ m, m ∈ select_children s → f m = m) → map_select f s = s.
Proof.
  intros H. destruct s as [d cols ft fa joins wh gb hv ob li off p].
  unfold select_children in H. cbn in H.
  unfold map_select. cbn. f_equal.
  - apply map_id_in. set_solver.
  - apply map_id_in. intros [ty t a c] Hj. unfold map_join. cbn. rewrite H; [done|].
    apply (list_elem_of_fmap_2 jc_condition) in Hj. cbn in Hj. set_solver.
  - apply option_map_id_in. intros x ->. apply H. cbn. set_solver.
  - apply map_id_in. set_solver.
  - apply option_map_id_in. intros x ->. apply H. cbn. set_solver.
  - apply map_order_id. set_solver.
  - apply option_map_id_in. intros x ->. apply H. cbn. set_solver.
  - apply option_map_id_in. intros x ->. apply H. cbn. set_solver.
Qed.

(** A clone is an equal tree: no member of any node is lost or changed by
    [clone], in an expression or in a subquery at any depth. *)
Theorem clone_faithful n : clone n = n.
Proof.
  induction n as [n IH] using Node_children_ind.
  destruct n as [| | |op l r|op e|f args|f ps os|s]; cbn in *; try done.
  - by rewrite !IH by set_solver.
  - by rewrite IH by set_solver.
  - by rewrite map_id_in.
  - rewrite map_id_in by set_solver. rewrite map_order_id by set_solver. done.
  - by rewrite map_select_id.
Qed.
