(* ===== verification/Parser.v ===== *)
(** The parser: [src/parser.h] and [src/parser.cpp].  The parser never moves
    back, so the position [pos] in the token vector is modelled by the tokens
    from [pos] on; [advance] stays on the last one, the end of the source.

    The recursive descent is written with open recursion: the functions of the
    expression grammar take the parsers of a whole expression and of a whole
    [SELECT] as arguments, and [knot] ties them with one unit of fuel per nesting
    level.  The loops count the tokens that are left when they start. *)

From S2P Require Import Prelude.
From S2P Require Import Double.
From S2P Require Import Format.
From S2P Require Import Lexer.
From S2P Require Import Ast.

(** What a parse ends in besides a tree: [ParseError], another exception of the
    standard library, undefined behaviour (an empty token vector), or a model
    that ran out of fuel. *)
Inductive perror : Type :=
  | ParseError (msg : string) (line col : Z)
  | StdException (what : string)
  | NoTokens
  | OutOfFuel.

Definition parser (A : Type) : Type := list Token → result perror (A * list Token).

#[global] Instance parser_ret : MRet parser := λ A a ts, Ok (a, ts).
#[global] Instance parser_bind : MBind parser := λ A B f p ts,
  match p ts with
  | Ok (a, ts') => f a ts'
  | Err e => Err e
  end.

Definition throw {A} (e : perror) : parser A := λ _, Err e.

#[global] Instance parser_fmap : FMap parser := λ A B f p ts,
  match p ts with
  | Ok (a, ts') => Ok (f a, ts')
  | Err e => Err e
  end.

(** Run with the number of tokens left as a loop bound. *)
Definition bounded {A} (p : nat → parser A) : parser A := λ ts, p (S (length ts)) ts.

(** * Token navigation *)

Definition peek (offset : nat) : parser Token := λ ts,
  match ts !! offset with
  | Some t => Ok (t, ts)
  | None => match last ts with Some t => Ok (t, ts) | None => Err NoTokens end
  end.

Definition current : parser Token := peek 0.

Definition advance : parser Token := λ ts,
  match ts with
  | [] => Err NoTokens
  | [t] => Ok (t, [t])
  | t :: ts' => Ok (t, ts')
  end.

Definition check (ty : TokenType) : parser bool :=
  t ← current; mret (bool_decide (tok_type t = ty)).

Definition checkAny (tys : list TokenType) : parser bool :=
  t ← current; mret (bool_decide (tok_type t ∈ tys)).

Definition match_ (ty : TokenType) : parser bool :=
  b ← check ty;
  if (b : bool) then _ ← advance; mret true else mret false.

Definition got (msg : string) (t : Token) : string :=
  msg +:+ " (got '" +:+ tok_value t +:+ "')".

Definition expect (ty : TokenType) (msg : string) : parser Token :=
  t ← current;
  if decide (tok_type t = ty) then advance
  else throw (ParseError (got msg t) (tok_line t) (tok_col t)).

Definition lowerCopy (s : string) : string := lower s.

Definition wordEquals (t : Token) (value : string) : bool :=
  bool_decide (tok_type t = IDENTIFIER) &&
  bool_decide (lowerCopy (tok_value t) = lowerCopy value).

Definition checkWord (value : string) : parser bool :=
  t ← current; mret (wordEquals t value).

Definition peekWord (offset : nat) (value : string) : parser bool :=
  t ← peek offset; mret (wordEquals t value).

Definition matchWord (value : string) : parser bool :=
  b ← checkWord value;
  if (b : bool) then _ ← advance; mret true else mret false.

Definition expectWord (value msg : string) : parser Token :=
  t ← current;
  if wordEquals t value then advance
  else throw (ParseError (got msg t) (tok_line t) (tok_col t)).

Definition expectName (msg : string) : parser Token :=
  t ← current;
  if decide (tok_type t = IDENTIFIER) then advance
  else throw (ParseError (got msg t) (tok_line t) (tok_col t)).

(** [a || b] and [a && b] of two tests, the second only run when needed. *)
Definition or_else (a b : parser bool) : parser bool :=
  x ← a; if (x : bool) then mret true else b.
Definition and_also (a b : parser bool) : parser bool :=
  x ← a; if (x : bool) then b else mret false.

Definition here : parser loc :=
  t ← current; mret (Loc (tok_line t) (tok_col t)).

(** [throw ParseError(msg, current().line, current().col)] *)
Definition parse_error {A} (msg : string) : parser A :=
  t ← current; throw (ParseError msg (tok_line t) (tok_col t)).

Definition value_of (p : parser Token) : parser string :=
  t ← p; mret (tok_value t).

Definition lift_exec {A} (r : exec A) : parser A := λ ts,
  match r with
  | Ok a => Ok (a, ts)
  | Err (Throw s) | Err (Undefined s) => Err (StdException s)
  end.

(** * Loops *)

(** [while (match(ty)) list.push_back(p());] *)
Fixpoint while_match {A} (n : nat) (ty : TokenType) (p : parser A) : parser (list A) :=
  match n with
  | O => throw OutOfFuel
  | S n =>
      b ← match_ ty;
      if (b : bool) then x ← p; xs ← while_match n ty p; mret (x :: xs) else mret []
  end.

(** One element and the others after a comma each. *)
Definition comma_list {A} (p : parser A) : parser (list A) :=
  x ← p; xs ← bounded (λ n, while_match n COMMA p); mret (x :: xs).

(** [while (match(COMMA)) { if (check(RPAREN)) break; list.push_back(p()); }] *)
Fixpoint while_comma {A} (n : nat) (p : parser A) : parser (list A) :=
  match n with
  | O => throw OutOfFuel
  | S n =>
      b ← match_ COMMA;
      if (b : bool) then
        stop ← check RPAREN;
        if (stop : bool) then mret []
        else x ← p; xs ← while_comma n p; mret (x :: xs)
      else mret []
  end.

(** [while (!check(SEMICOLON) && !check(EOF_TOKEN)) s = step(s);] *)
Fixpoint options {S} (n : nat) (step : S → parser S) (s : S) : parser S :=
  match n with
  | O => throw OutOfFuel
  | Datatypes.S n =>
      stop ← or_else (check SEMICOLON) (check EOF_TOKEN);
      if (stop : bool) then mret s else s ← step s; options n step s
  end.

(** The left-associative loops of the expression grammar: while the current
    token is one of [tys], take it and an operand. *)
Fixpoint binary_loop (n : nat) (tys : list TokenType) (op : Token → string)
    (operand : parser Node) (left : Node) : parser Node :=
  match n with
  | O => throw OutOfFuel
  | S n =>
      more ← checkAny tys;
      if (more : bool) then
        t ← advance;
        right ← operand;
        binary_loop n tys op operand
          (BinaryOp (op t) left right "" (Loc (tok_line t) (tok_col t)))
      else mret left
  end.

Definition left_assoc (tys : list TokenType) (op : Token → string)
    (operand : parser Node) : parser Node :=
  left ← operand; bounded (λ n, binary_loop n tys op operand left).

(** [while (check(ty)) prefix operator] *)
Fixpoint prefix_ops (n : nat) (ty : TokenType) (op : string) (operand : parser Node)
    : parser Node :=
  match n with
  | O => throw OutOfFuel
  | S n =>
      b ← check ty;
      if (b : bool) then
        t ← advance;
        e ← prefix_ops n ty op operand;
        mret (UnaryOp op e "" (Loc (tok_line t) (tok_col t)))
      else operand
  end.

(** * Expressions *)

Section Expressions.
Context (parseExpr : parser Node) (parseSelect : parser Select_).

Definition parseColumnList : parser (list Node) := comma_list parseExpr.

Definition parseOrderItem : parser (OrderItem Node) :=
  e ← parseExpr;
  desc ← match_ DOWN_BAD;
  if (desc : bool) then mret (mkOrderItem e false)
  else _ ← match_ UP_ONLY; mret (mkOrderItem e true).

Definition parseOrderList : parser (list (OrderItem Node)) := comma_list parseOrderItem.

Definition parseEraExpr (p : loc) : parser Node :=
  split ← match_ SPLIT_BY;
  partition_by ← (if (split : bool) then parseColumnList else mret []);
  _ ← expect HITS_DIFFERENT "Expected 'hits-different' (ORDER BY) in era expression";
  order_by ← parseOrderList;
  mret (WindowFunc "RANK" partition_by order_by "" p).

Definition parseFunctionCall (name : string) (p : loc) : parser Node :=
  _ ← expect LPAREN "Expected '(' after function name";
  let headcount := bool_decide (name = "headcount") in
  star ← check STAR;
  if headcount && star then
    _ ← advance;
    _ ← expect RPAREN "Expected ')'";
    mret (FunctionCall name [Wildcard "" "" p] false "" p)
  else
    unique ← check UNIQUE_FR;
    if headcount && unique then
      _ ← advance;
      e ← parseExpr;
      _ ← expect RPAREN "Expected ')'";
      mret (FunctionCall name [e] true "" p)
    else
      empty ← check RPAREN;
      if (empty : bool) then _ ← advance; mret (FunctionCall name [] false "" p)
      else
        args ← comma_list parseExpr;
        _ ← expect RPAREN "Expected ')'";
        mret (FunctionCall name args false "" p).

Definition aggregates : list TokenType :=
  [HEADCOUNT; STACK; MID; GOAT; L_FUNC; BIGGEST_W; BIGGEST_L; MID_FR; PERCENT_CHECK;
   LONE_WOLF].

(** The branch of [parsePrimaryExpr] after an identifier. *)
Definition parseName (name : string) (p : loc) : parser Node :=
  dot ← check DOT;
  if (dot : bool) then
    _ ← advance;
    star ← check STAR;
    if (star : bool) then _ ← advance; mret (Wildcard name "" p)
    else
      col ← value_of (expect IDENTIFIER "Expected column name after '.'");
      call ← check LPAREN;
      if (call : bool) then parseFunctionCall (name +:+ "." +:+ col) p
      else mret (ColumnRef name col "" p)
  else
    call ← check LPAREN;
    if (call : bool) then parseFunctionCall name p
    else mret (ColumnRef "" name "" p).

Definition parseParenthesized : parser Node :=
  sub ← check SLAY;
  if (sub : bool) then
    s ← parseSelect;
    _ ← expect RPAREN "Expected ')'";
    mret (Select s)
  else
    e ← parseExpr;
    _ ← expect RPAREN "Expected ')'";
    mret e.

Definition parsePrimaryExpr : parser Node :=
  tok ← current;
  let p := Loc (tok_line tok) (tok_col tok) in
  match tok_type tok with
  | INTEGER_LIT => _ ← advance; v ← lift_exec (stoll (tok_value tok)); mret (Literal (LInt v) p)
  | FLOAT_LIT => _ ← advance; v ← lift_exec (stod (tok_value tok)); mret (Literal (LFloat v) p)
  | STRING_LIT => _ ← advance; mret (Literal (LString (tok_value tok)) p)
  | GHOSTED => _ ← advance; mret (Literal LNull p)
  | LPAREN => _ ← advance; parseParenthesized
  | STAR => _ ← advance; mret (Wildcard "" "" p)
  | ERA => _ ← advance; parseEraExpr p
  | IDENTIFIER => _ ← advance; parseName (tok_value tok) p
  | ty =>
      if decide (ty ∈ aggregates)
      then _ ← advance; parseFunctionCall (tok_value tok) p
      else
        throw (ParseError ("Expected expression (got '" +:+ tok_value tok +:+ "')")
                 (tok_line tok) (tok_col tok))
  end.

Definition parseUnaryExpr : parser Node :=
  bounded (λ n, prefix_ops n MINUS "-" parsePrimaryExpr).

Definition parseMulExpr : parser Node :=
  left_assoc [STAR; SLASH] tok_value parseUnaryExpr.

Definition parseAddExpr : parser Node :=
  left_assoc [PLUS_OP; MINUS; CONCAT] tok_value parseMulExpr.

Definition comparisons : list TokenType := [EQ; NEQ; LT; GT; LTE; GTE].

Definition parseCompareExpr : parser Node :=
  left ← parseAddExpr;
  cmp ← checkAny comparisons;
  if (cmp : bool) then
    t ← advance;
    right ← parseAddExpr;
    mret (BinaryOp (tok_value t) left right "" (Loc (tok_line t) (tok_col t)))
  else mret left.

Definition parseNotExpr : parser Node :=
  bounded (λ n, prefix_ops n NO_CAP_NOT "NOT" parseCompareExpr).

Definition parseAndExpr : parser Node := left_assoc [PLUS] (λ _, "AND") parseNotExpr.
Definition parseOrExpr : parser Node := left_assoc [OR_NAH] (λ _, "OR") parseAndExpr.

(** * SELECT *)

Definition set_alias (alias : string) (e : Node) : Node :=
  match e with
  | ColumnRef t c _ p => ColumnRef t c alias p
  | FunctionCall f args d _ p => FunctionCall f args d alias p
  | BinaryOp op l r _ p => BinaryOp op l r alias p
  | UnaryOp op e _ p => UnaryOp op e alias p
  | WindowFunc f ps os _ p => WindowFunc f ps os alias p
  | Wildcard t _ p => Wildcard t alias p
  | Literal _ _ | Select _ => e
  end.

Definition parseSelectItem : parser Node :=
  e ← parseExpr;
  b ← match_ LOWKEY;
  if (b : bool) then
    alias ← value_of (expect IDENTIFIER "Expected alias name");
    mret (set_alias alias e)
  else mret e.

Definition parseSelectList : parser (list Node) :=
  star ← check STAR;
  if (star : bool) then
    t ← advance; mret [Wildcard "" "" (Loc (tok_line t) (tok_col t))]
  else comma_list parseSelectItem.

Definition parseTableRef : parser (string * string) :=
  table ← value_of (expect IDENTIFIER "Expected table name");
  b ← match_ LOWKEY;
  if (b : bool) then
    alias ← value_of (expect IDENTIFIER "Expected alias name");
    mret (table, alias)
  else mret (table, "").

Definition parseJoin : parser (JoinClause Node) :=
  left ← match_ LEFT_LINK_UP;
  ty ← (if (left : bool) then mret LEFT
        else
          mid ← match_ MID_LINK_UP;
          if (mid : bool) then mret INNER
          else _ ← expect LINK_UP "Expected join keyword"; mret INNER);
  ref ← parseTableRef;
  _ ← expect FR_FR "Expected 'fr-fr' (ON)";
  condition ← parseExpr;
  mret (mkJoin ty ref.1 ref.2 condition).

Fixpoint parseJoins (n : nat) : parser (list (JoinClause Node)) :=
  match n with
  | O => throw OutOfFuel
  | S n =>
      more ← checkAny [LINK_UP; LEFT_LINK_UP; MID_LINK_UP];
      if (more : bool) then j ← parseJoin; js ← parseJoins n; mret (j :: js)
      else mret []
  end.

(** [if (match(ty)) member = p();] *)
Definition clause {A} (ty : TokenType) (p : parser A) : parser (option A) :=
  b ← match_ ty;
  if (b : bool) then x ← p; mret (Some x) else mret None.

Definition clause_list {A} (ty : TokenType) (p : parser (list A)) : parser (list A) :=
  b ← match_ ty;
  if (b : bool) then p else mret [].

Definition parseSelectBody : parser Select_ :=
  p ← here;
  _ ← expect SLAY "Expected 'slay'";
  distinct ← match_ UNIQUE_FR;
  columns ← parseSelectList;
  _ ← expect NO_CAP "Expected 'no-cap' (FROM)";
  from ← parseTableRef;
  joins ← bounded parseJoins;
  where_ ← clause ONLY_IF parseExpr;
  groupBy ← clause_list VIBE_CHECK parseColumnList;
  having ← clause BUSSIN_ONLY parseExpr;
  orderBy ← clause_list HITS_DIFFERENT parseOrderList;
  limit ← clause CAP_AT parseExpr;
  offset ← clause SKIP parseExpr;
  mret (mkSelect distinct columns from.1 from.2 joins where_ groupBy having orderBy limit
          offset p).

End Expressions.

(** The recursion of the grammar: [fuel] levels of nesting. *)
Fixpoint knot (fuel : nat) : parser Node * parser Select_ :=
  match fuel with
  | O => (throw OutOfFuel, throw OutOfFuel)
  | S fuel =>
      let '(e, s) := knot fuel in (parseOrExpr e s, parseSelectBody e)
  end.

(** One level per token is enough. *)
Definition parseExpr : parser Node := bounded (λ n, (knot n).1).
Definition parseSelect : parser Select_ := bounded (λ n, (knot n).2).

(** * Statements *)

Definition parseUnsignedOption (name : string) : parser Z :=
  t ← current;
  if decide (tok_type t = INTEGER_LIT) then
    _ ← advance; lift_exec (stoull (tok_value t))
  else throw (ParseError ("Expected integer for " +:+ name) (tok_line t) (tok_col t)).

Definition ident (msg : string) : parser string := value_of (expect IDENTIFIER msg).
Definition name_ (msg : string) : parser string := value_of (expectName msg).
Definition text (msg : string) : parser string := value_of (expect STRING_LIT msg).

Definition parseRow : parser (list Node) :=
  _ ← expect LPAREN "Expected '('";
  row ← comma_list parseExpr;
  _ ← expect RPAREN "Expected ')'";
  mret row.

Definition parseInsert : parser InsertStmt :=
  p ← here;
  _ ← expect YEET_INTO "Expected 'yeet-into'";
  table ← ident "Expected table name";
  paren ← match_ LPAREN;
  columns ← (if (paren : bool) then
               cs ← comma_list (ident "Expected column name");
               _ ← expect RPAREN "Expected ')'"; mret cs
             else mret []);
  _ ← expect DRIP "Expected 'drip' (VALUES)";
  rows ← comma_list parseRow;
  mret (mkInsert table columns rows p).

Definition parseAssignment : parser Assignment :=
  column ← ident "Expected column name";
  _ ← expect EQ "Expected '='";
  value ← parseExpr;
  mret (mkAssignment column value).

Definition parseUpdate : parser UpdateStmt :=
  p ← here;
  _ ← expect GLOW_UP "Expected 'glow-up'";
  table ← ident "Expected table name";
  _ ← expect BE_LIKE "Expected 'be-like' (SET)";
  sets ← comma_list parseAssignment;
  where_ ← clause ONLY_IF parseExpr;
  mret (mkUpdate table sets where_ p).

Definition parseDelete : parser DeleteStmt :=
  p ← here;
  _ ← expect RATIO "Expected 'ratio'";
  table ← ident "Expected table name";
  where_ ← clause ONLY_IF parseExpr;
  mret (mkDelete table where_ p).

(** The [while (true)] of [parseColumnDef]. *)
Fixpoint parseConstraints (n : nat) (d : ColumnDef) : parser ColumnDef :=
  match n with
  | O => throw OutOfFuel
  | S n =>
      pk ← match_ MAIN_CHARACTER;
      if (pk : bool) then
        parseConstraints n
          (mkColumnDef (cd_name d) (cd_type d) true (cd_not_null d) (cd_fk_table d) (cd_fk_col d))
      else
        nn ← check NO_CAP_NOT;
        if (nn : bool) then
          _ ← advance;
          _ ← expect GHOSTED "Expected 'ghosted' (NULL) after 'no-cap-not'";
          parseConstraints n
            (mkColumnDef (cd_name d) (cd_type d) (cd_primary_key d) true (cd_fk_table d) (cd_fk_col d))
        else
          fk ← match_ SIDE_CHARACTER;
          if (fk : bool) then
            refTok ← current;
            if decide (tok_type refTok = IDENTIFIER ∧ tok_value refTok = "references") then
              _ ← advance;
              fk_table ← ident "Expected foreign table name";
              _ ← expect LPAREN "Expected '('";
              fk_col ← ident "Expected foreign column name";
              _ ← expect RPAREN "Expected ')'";
              parseConstraints n
                (mkColumnDef (cd_name d) (cd_type d) (cd_primary_key d) (cd_not_null d) fk_table fk_col)
            else
              throw (ParseError "Expected 'references' after 'side-character'"
                       (tok_line refTok) (tok_col refTok))
          else mret d
  end.

Definition parseColumnDef : parser ColumnDef :=
  name ← ident "Expected column name";
  typeTok ← current;
  if decide (tok_type typeTok = IDENTIFIER) then
    _ ← advance;
    bounded (λ n, parseConstraints n (mkColumnDef name (tok_value typeTok) false false "" ""))
  else
    throw (ParseError "Expected type name (INTEGER, TEXT, REAL, BLOB)"
             (tok_line typeTok) (tok_col typeTok)).

Definition parseCreate : parser CreateStmt :=
  p ← here;
  _ ← expect MANIFEST "Expected 'manifest'";
  table ← ident "Expected table name";
  _ ← expect LPAREN "Expected '('";
  c ← parseColumnDef;
  cs ← bounded (λ n, while_comma n parseColumnDef);
  _ ← expect RPAREN "Expected ')'";
  mret (mkCreate table (c :: cs) false p).

Definition parseDrop : parser DropStmt :=
  p ← here;
  _ ← expect RIZZ_DOWN "Expected 'rizz-down'";
  table ← ident "Expected table name";
  mret (mkDrop table false p).

(** ** Snapshots *)

Definition isClauseBoundary (t : Token) : bool :=
  match tok_type t with
  | SEMICOLON | EOF_TOKEN | COMMA | RPAREN | SPLIT_BY | WITH_SEED | BATCH_SIZE
  | WORLD_SIZE => true
  | IDENTIFIER =>
      bool_decide (lowerCopy (tok_value t) ∈
        ["seed"; "with"; "features"; "feature"; "label"; "shuffle"; "epoch"; "rank";
         "worker"; "batch"; "world_size"; "batch_size"])
  | _ => false
  end.

Definition tokenText (t : Token) : string :=
  if decide (tok_type t = STRING_LIT) then "'" +:+ tok_value t +:+ "'" else tok_value t.

(** The loop of [parseFeatureSpec] and [parseLabelSpec]. *)
Fixpoint spec_words (n : nat) (first : bool) : parser string :=
  match n with
  | O => throw OutOfFuel
  | S n =>
      t ← current;
      if isClauseBoundary t then mret ""
      else
        _ ← advance;
        rest ← spec_words n false;
        mret ((if first then "" else " ") +:+ tokenText t +:+ rest)
  end.

Definition parseFeatureSpec : parser FeatureSpec :=
  name ← name_ "Expected feature column";
  spec ← bounded (λ n, spec_words n true);
  mret (mkFeature name spec).

Definition parseLabelSpec : parser FeatureSpec :=
  name ← name_ "Expected label column";
  spec ← bounded (λ n, spec_words n true);
  mret (mkFeature name spec).

Definition parseFeatureSpecs : parser (list FeatureSpec) :=
  paren ← match_ LPAREN;
  if (paren : bool) then
    empty ← check RPAREN;
    if (empty : bool) then _ ← advance; mret []
    else
      f ← parseFeatureSpec;
      fs ← bounded (λ n, while_comma n parseFeatureSpec);
      _ ← expect RPAREN "Expected ')' after feature list";
      mret (f :: fs)
  else f ← parseFeatureSpec; mret [f].

Definition parseSnapshotClause (s : CreateSnapshotStmt) : parser CreateSnapshotStmt :=
  let 'mkSnapshot name source splitBy seed features label p := s in
  split ← or_else (match_ SPLIT_BY) (matchWord "split");
  if (split : bool) then
    _ ← matchWord "by";
    random ← matchWord "random";
    _ ← (if (random : bool) then matchWord "by" else mret false);
    key ← name_ "Expected split key";
    mret (mkSnapshot name source key seed features label p)
  else
    seeded ← or_else (match_ WITH_SEED) (matchWord "seed");
    if (seeded : bool) then
      v ← parseUnsignedOption "seed";
      mret (mkSnapshot name source splitBy v features label p)
    else
      with_ ← matchWord "with";
      if (with_ : bool) then
        _ ← expectWord "seed" "Expected 'seed' after WITH";
        v ← parseUnsignedOption "seed";
        mret (mkSnapshot name source splitBy v features label p)
      else
        feats ← or_else (matchWord "features") (matchWord "feature");
        if (feats : bool) then
          fs ← parseFeatureSpecs;
          mret (mkSnapshot name source splitBy seed fs label p)
        else
          lab ← matchWord "label";
          if (lab : bool) then
            l ← parseLabelSpec;
            mret (mkSnapshot name source splitBy seed features l p)
          else
            parse_error
              "Expected snapshot clause (split-by, with-seed, features, label)".

(** [if (match(k1) || match(k2)) {} else { expectWord(w1); expectWord(w2); }] *)
Definition keyword_or_words (keywords : parser bool) (words : parser unit) : parser unit :=
  native ← keywords;
  if (native : bool) then mret tt else words.

Definition two_words (w1 w2 : string) : parser unit :=
  _ ← expectWord w1 ("Expected '" +:+ w1 +:+ "'");
  _ ← expectWord w2 ("Expected '" +:+ w2 +:+ "'");
  mret tt.

Definition parseCreateSnapshot : parser CreateSnapshotStmt :=
  p ← here;
  _ ← keyword_or_words (or_else (match_ MANIFEST_DATASET) (match_ MANIFEST_SNAPSHOT))
        (_ ← expectWord "create" "Expected 'create'";
         b ← or_else (matchWord "dataset") (matchWord "snapshot");
         if (b : bool) then mret tt
         else parse_error "Expected 'dataset' or 'snapshot' after CREATE");
  name ← name_ "Expected snapshot name";
  as_ ← or_else (match_ LOWKEY) (matchWord "as");
  if (as_ : bool) then
    source ← parseSelect;
    bounded (λ n, options n parseSnapshotClause
      (mkSnapshot name source "" 0 [] (mkFeature "" "") p))
  else parse_error "Expected 'lowkey'/'as' before snapshot query".

(** ** Training batches *)

Definition parseExportOption (s : ExportTorchStmt) : parser ExportTorchStmt :=
  let 'mkExport ds bs det ep rk ws p := s in
  b ← or_else (match_ BATCH_SIZE) (matchWord "batch_size");
  if (b : bool) then v ← parseUnsignedOption "batch-size"; mret (mkExport ds v det ep rk ws p)
  else
    b ← matchWord "shuffle";
    if (b : bool) then _ ← matchWord "deterministic"; mret (mkExport ds bs true ep rk ws p)
    else
      b ← matchWord "deterministic";
      if (b : bool) then mret (mkExport ds bs true ep rk ws p)
      else
        b ← matchWord "epoch";
        if (b : bool) then v ← parseUnsignedOption "epoch"; mret (mkExport ds bs det v rk ws p)
        else
          b ← matchWord "rank";
          if (b : bool) then v ← parseUnsignedOption "rank"; mret (mkExport ds bs det ep v ws p)
          else
            b ← or_else (match_ WORLD_SIZE) (matchWord "world_size");
            if (b : bool) then
              v ← parseUnsignedOption "world-size"; mret (mkExport ds bs det ep rk v p)
            else parse_error "Expected export option".

Definition parseExportTorch : parser ExportTorchStmt :=
  p ← here;
  _ ← keyword_or_words (or_else (match_ EXPORT_TORCH) (match_ SHIP_TORCH))
        (two_words "export" "torch");
  ds ← name_ "Expected snapshot name";
  bounded (λ n, options n parseExportOption (mkExport ds 256 true 0 0 1 p)).

Definition parseExplainOption (s : ExplainBatchStmt) : parser ExplainBatchStmt :=
  let 'mkExplainBatch ds bs ep bt rk ws p := s in
  b ← or_else (match_ BATCH_SIZE) (matchWord "batch_size");
  if (b : bool) then
    v ← parseUnsignedOption "batch-size"; mret (mkExplainBatch ds v ep bt rk ws p)
  else
    b ← matchWord "epoch";
    if (b : bool) then v ← parseUnsignedOption "epoch"; mret (mkExplainBatch ds bs v bt rk ws p)
    else
      b ← matchWord "batch";
      if (b : bool) then v ← parseUnsignedOption "batch"; mret (mkExplainBatch ds bs ep v rk ws p)
      else
        b ← matchWord "rank";
        if (b : bool) then v ← parseUnsignedOption "rank"; mret (mkExplainBatch ds bs ep bt v ws p)
        else
          b ← or_else (match_ WORLD_SIZE) (matchWord "world_size");
          if (b : bool) then
            v ← parseUnsignedOption "world-size"; mret (mkExplainBatch ds bs ep bt rk v p)
          else parse_error "Expected explain-batch option".

Definition parseExplainBatch : parser ExplainBatchStmt :=
  p ← here;
  _ ← keyword_or_words (or_else (match_ EXPLAIN_BATCH) (match_ SPILL_BATCH))
        (two_words "explain" "batch");
  ds ← name_ "Expected snapshot name";
  bounded (λ n, options n parseExplainOption (mkExplainBatch ds 256 0 0 0 1 p)).

(** ** Prompt contexts *)

Definition parseCreateContext : parser CreateContextStmt :=
  p ← here;
  _ ← keyword_or_words (match_ MANIFEST_CONTEXT) (two_words "create" "context");
  name ← name_ "Expected context name";
  mret (mkCreateContext name p).

Definition parseAppendMemory : parser AppendMemoryStmt :=
  p ← here;
  _ ← keyword_or_words (match_ YEET_MEMORY) (two_words "append" "memory");
  context ← name_ "Expected context name";
  _ ← expect DRIP "Expected 'drip' before memory tuple";
  _ ← expect LPAREN "Expected '('";
  messageId ← parseUnsignedOption "message-id";
  _ ← expect COMMA "Expected ',' after message id";
  speaker ← text "Expected speaker string";
  _ ← expect COMMA "Expected ',' after speaker";
  msg ← text "Expected message text";
  _ ← expect RPAREN "Expected ')'";
  tagged ← or_else (match_ VIBE_TAB) (matchWord "tab");
  if (tagged : bool) then
    auto_ ← matchWord "auto";
    if (auto_ : bool) then mret (mkAppendMemory context messageId speaker msg "" true p)
    else
      tab ← text "Expected tab string or auto";
      mret (mkAppendMemory context messageId speaker msg tab false p)
  else mret (mkAppendMemory context messageId speaker msg "" false p).

(** The option chain [parseSpillContext] and [parseExplainContext] share. *)
Definition parseContextOption (error : string) (s : SpillContextStmt)
    : parser SpillContextStmt :=
  let 'mkSpillContext ctx query tab budget receipts p := s in
  b ← or_else (match_ ONLY_IF) (matchWord "query");
  if (b : bool) then
    q ← text "Expected query string"; mret (mkSpillContext ctx q tab budget receipts p)
  else
    b ← or_else (match_ TOKEN_BUDGET) (matchWord "token_budget");
    if (b : bool) then
      v ← parseUnsignedOption "token-budget"; mret (mkSpillContext ctx query tab v receipts p)
    else
      b ← or_else (match_ VIBE_TAB) (matchWord "tab");
      if (b : bool) then
        t ← text "Expected tab string"; mret (mkSpillContext ctx query t budget receipts p)
      else
        b ← matchWord "receipts";
        if (b : bool) then
          off ← matchWord "off";
          if (off : bool) then mret (mkSpillContext ctx query tab budget false p)
          else _ ← matchWord "on"; mret (mkSpillContext ctx query tab budget true p)
        else parse_error error.

Definition parseSpillContext : parser SpillContextStmt :=
  p ← here;
  _ ← keyword_or_words (match_ SPILL_CONTEXT) (two_words "spill" "context");
  context ← name_ "Expected context name";
  bounded (λ n, options n (parseContextOption "Expected context option")
    (mkSpillContext context "" "" 1200 true p)).

Definition parseExplainContext : parser SpillContextStmt :=
  p ← here;
  _ ← keyword_or_words (match_ EXPLAIN_CONTEXT) (two_words "explain" "context");
  context ← name_ "Expected context name";
  bounded (λ n, options n (parseContextOption "Expected context explain option")
    (mkSpillContext context "" "" 1200 true p)).

Definition parseTagMemory : parser TagMemoryStmt :=
  p ← here;
  _ ← keyword_or_words (match_ VIBE_TAB) (two_words "tag" "memory");
  context ← name_ "Expected context name";
  _ ← expectWord "message" "Expected 'message'";
  messageId ← parseUnsignedOption "message-id";
  tab ← text "Expected tab string";
  mret (mkTagMemory context messageId tab p).

Definition parseShowTabs : parser ShowTabsStmt :=
  p ← here;
  _ ← keyword_or_words (match_ SHOW_TABS) (two_words "show" "tabs");
  context ← name_ "Expected context name";
  mret (mkShowTabs context p).

Definition parseShowContextSchemas : parser loc :=
  p ← here;
  _ ← keyword_or_words (match_ SHOW_CONTEXT_SCHEMAS)
        (_ ← expectWord "show" "Expected 'show'";
         context ← matchWord "context";
         if (context : bool) then _ ← expectWord "schemas" "Expected 'schemas'"; mret tt
         else
           hyphenated ← matchWord "context-schemas";
           if (hyphenated : bool) then mret tt
           else _ ← expectWord "schemas" "Expected 'schemas'"; mret tt);
  mret p.

Definition parseShowContextObjects : parser ShowContextObjectsStmt :=
  p ← here;
  _ ← keyword_or_words (match_ SHOW_CONTEXT_OBJECTS)
        (_ ← expectWord "show" "Expected 'show'";
         context ← matchWord "context";
         if (context : bool) then _ ← expectWord "objects" "Expected 'objects'"; mret tt
         else _ ← expectWord "context-objects" "Expected 'context-objects'"; mret tt);
  context ← name_ "Expected context name";
  mret (mkShowContextObjects context p).

Definition parseAliasTab : parser AliasTabStmt :=
  p ← here;
  _ ← keyword_or_words (match_ ALIAS_TAB) (two_words "alias" "tab");
  context ← name_ "Expected context name";
  alias ← text "Expected alias tab string";
  _ ← expectWord "to" "Expected 'to'";
  target ← text "Expected target tab string";
  mret (mkAliasTab context alias target p).

Definition parseMergeTabs : parser MergeTabsStmt :=
  p ← here;
  _ ← keyword_or_words (match_ MERGE_TABS) (two_words "merge" "tabs");
  context ← name_ "Expected context name";
  fromTab ← text "Expected source tab string";
  _ ← expectWord "into" "Expected 'into'";
  toTab ← text "Expected target tab string";
  mret (mkMergeTabs context fromTab toTab p).

(** ** Dispatch *)

(** [if (c) p else q], the condition being a test of the tokens. *)
Definition when {A} (c : parser bool) (p q : parser A) : parser A :=
  b ← c; if (b : bool) then p else q.

Definition words (w1 w2 : string) : parser bool :=
  and_also (checkWord w1) (peekWord 1 w2).

(** The alternatives that start with plain words. *)
Definition parseWordStatement : parser Stmt :=
  when (and_also (checkWord "create")
          (or_else (peekWord 1 "dataset") (peekWord 1 "snapshot")))
    (SCreateSnapshot <$> parseCreateSnapshot) $
  when (words "create" "context") (SCreateContext <$> parseCreateContext) $
  when (words "append" "memory") (SAppendMemory <$> parseAppendMemory) $
  when (words "tag" "memory") (STagMemory <$> parseTagMemory) $
  when (words "show" "tabs") (SShowTabs <$> parseShowTabs) $
  when (and_also (checkWord "show")
          (or_else (peekWord 1 "context-schemas")
             (or_else (peekWord 1 "schemas")
                (and_also (peekWord 1 "context") (peekWord 2 "schemas")))))
    (SShowContextSchemas <$> parseShowContextSchemas) $
  when (and_also (checkWord "show")
          (or_else (peekWord 1 "context-objects")
             (and_also (peekWord 1 "context") (peekWord 2 "objects"))))
    (SShowContextObjects <$> parseShowContextObjects) $
  when (words "alias" "tab") (SAliasTab <$> parseAliasTab) $
  when (words "merge" "tabs") (SMergeTabs <$> parseMergeTabs) $
  when (words "export" "torch") (SExportTorch <$> parseExportTorch) $
  when (words "explain" "batch") (SExplainBatch <$> parseExplainBatch) $
  when (words "explain" "context") (SExplainContext <$> parseExplainContext) $
  when (words "spill" "context") (SSpillContext <$> parseSpillContext) $
  parse_error "Expected statement keyword (slay, yeet-into, glow-up, ratio, manifest, rizz-down, manifest-snapshot, ship-torch, spill-batch, manifest-context, yeet-memory, spill-context, explain-context, show-tabs, show-context-schemas, show-context-objects, alias-tab, merge-tabs, vibe-tab)".

Definition parseOneStatement : parser Stmt :=
  tok ← current;
  match tok_type tok with
  | SLAY => SSelect <$> parseSelect
  | YEET_INTO => SInsert <$> parseInsert
  | GLOW_UP => SUpdate <$> parseUpdate
  | RATIO => SDelete <$> parseDelete
  | MANIFEST => SCreate <$> parseCreate
  | RIZZ_DOWN => SDrop <$> parseDrop
  | MANIFEST_DATASET | MANIFEST_SNAPSHOT => SCreateSnapshot <$> parseCreateSnapshot
  | EXPORT_TORCH | SHIP_TORCH => SExportTorch <$> parseExportTorch
  | EXPLAIN_BATCH | SPILL_BATCH => SExplainBatch <$> parseExplainBatch
  | MANIFEST_CONTEXT => SCreateContext <$> parseCreateContext
  | YEET_MEMORY => SAppendMemory <$> parseAppendMemory
  | SPILL_CONTEXT => SSpillContext <$> parseSpillContext
  | EXPLAIN_CONTEXT => SExplainContext <$> parseExplainContext
  | VIBE_TAB => STagMemory <$> parseTagMemory
  | SHOW_TABS => SShowTabs <$> parseShowTabs
  | SHOW_CONTEXT_SCHEMAS => SShowContextSchemas <$> parseShowContextSchemas
  | SHOW_CONTEXT_OBJECTS => SShowContextObjects <$> parseShowContextObjects
  | ALIAS_TAB => SAliasTab <$> parseAliasTab
  | MERGE_TABS => SMergeTabs <$> parseMergeTabs
  | _ => parseWordStatement
  end.

Definition parseStatement : parser Stmt :=
  stmt ← parseOneStatement;
  _ ← match_ SEMICOLON;
  mret stmt.

(** [while (match(SEMICOLON)) {}] *)
Definition skip_semicolons : parser (list unit) :=
  bounded (λ n, while_match n SEMICOLON (mret tt)).

Fixpoint parse_all (n : nat) : parser (list Stmt) :=
  match n with
  | O => throw OutOfFuel
  | S n =>
      stop ← check EOF_TOKEN;
      if (stop : bool) then mret []
      else
        s ← parseStatement;
        _ ← skip_semicolons;
        ss ← parse_all n;
        mret (s :: ss)
  end.

Definition parseAll : parser (list Stmt) := bounded parse_all.

Definition parse_source (source : string) : option (result perror (list Stmt)) :=
  match tokenize source with
  | Some (Ok ts) => Some (match parseAll ts with Ok (ss, _) => Ok ss | Err e => Err e end)
  | _ => None
  end.

Example parse_select_example :
  parse_source "slay a no-cap t only-if x + 2 * 3 = 7 plus no-cap-not (b);" =
  Some (Ok [SSelect
    (mkSelect false [ColumnRef "" "a" "" (Loc 1 6)] "t" "" []
       (Some
          (BinaryOp "AND"
             (BinaryOp "="
                (BinaryOp "+" (ColumnRef "" "x" "" (Loc 1 25))
                   (BinaryOp "*" (Literal (LInt 2) (Loc 1 29)) (Literal (LInt 3) (Loc 1 33))
                      "" (Loc 1 31)) "" (Loc 1 27))
                (Literal (LInt 7) (Loc 1 37)) "" (Loc 1 35))
             (UnaryOp "NOT" (ColumnRef "" "b" "" (Loc 1 56)) "" (Loc 1 44))
             "" (Loc 1 39)))
       [] None [] None None (Loc 1 1))]).
Proof. vm_compute. reflexivity. Qed.

(** * Termination

    [wp p ts Φ]: [p] started on [ts] stops within its fuel, and when it returns
    rather than throws, [Φ] holds of the result and the tokens left. *)

Definition wp {A} (p : parser A) (ts : list Token) (Φ : A → list Token → Prop) : Prop :=
  match p ts with
  | Ok (a, ts') => Φ a ts'
  | Err OutOfFuel | Err NoTokens => False
  | Err _ => True
  end.

(** [shrinks n k p]: on a stream of at most [n] tokens [p] stops, and on return
    it has consumed at least [k]. *)
Definition shrinks {A} (n k : nat) (p : parser A) : Prop :=
  ∀ ts, ends_with_eof ts → (length ts ≤ n)%nat →
    wp p ts (λ _ ts', ends_with_eof ts' ∧ (length ts' + k ≤ length ts)%nat).

Lemma wp_bind {A B} (p : parser A) (f : A → parser B) ts Φ :
  wp p ts (λ a ts', wp (f a) ts' Φ) → wp (p ≫= f) ts Φ.
Proof. unfold wp, mbind, parser_bind. by destruct (p ts) as [[]|]. Qed.

Lemma wp_ret {A} (a : A) ts (Φ : A → list Token → Prop) : Φ a ts → wp (mret a) ts Φ.
Proof. done. Qed.

Lemma wp_fmap {A B} (f : A → B) (p : parser A) ts Φ :
  wp p ts (λ a ts', Φ (f a) ts') → wp (f <$> p) ts Φ.
Proof. unfold wp, fmap, parser_fmap. by destruct (p ts) as [[]|]. Qed.

Lemma wp_mono {A} (p : parser A) ts (Φ Ψ : A → list Token → Prop) :
  wp p ts Φ → (∀ a ts', Φ a ts' → Ψ a ts') → wp p ts Ψ.
Proof. unfold wp. destruct (p ts) as [[]|[]]; auto. Qed.

Lemma wp_shrinks {A} n k (p : parser A) ts (Φ : A → list Token → Prop) :
  shrinks n k p → ends_with_eof ts → (length ts ≤ n)%nat →
  (∀ a ts', ends_with_eof ts' → (length ts' + k ≤ length ts)%nat → Φ a ts') →
  wp p ts Φ.
Proof. intros Hp Hts Hn HΦ. eapply wp_mono; [by apply Hp|]. cbn. intros a ts' []. auto. Qed.

Lemma shrinks_weaken {A} n n' k k' (p : parser A) :
  shrinks n k p → (n' ≤ n)%nat → (k' ≤ k)%nat → shrinks n' k' p.
Proof.
  intros Hp Hn Hk ts Hts Hlen. eapply wp_shrinks; [done..|lia|]. intros a ts' ? ?.
  split; [done|lia].
Qed.

(** ** Token navigation *)

Lemma eof_cons ts : ends_with_eof ts → ∃ t r, ts = t :: r.
Proof. intros (pre & e & -> & _). destruct pre; by eauto. Qed.

Lemma eof_tail t r : ends_with_eof (t :: r) → tok_type t ≠ EOF_TOKEN → ends_with_eof r.
Proof.
  intros (pre & e & Heq & He & Hpre) Ht. destruct pre as [|t' pre].
  - by injection Heq as -> ->.
  - injection Heq as -> ->. apply Forall_cons in Hpre as [_ Hpre]. by exists pre, e.
Qed.

Lemma eof_tail_cons t r :
  ends_with_eof (t :: r) → tok_type t ≠ EOF_TOKEN → ∃ t' r', r = t' :: r'.
Proof. intros H Ht. by apply eof_cons, (eof_tail t). Qed.

Lemma wp_current ts (Φ : Token → list Token → Prop) :
  ends_with_eof ts → (∀ t r, ts = t :: r → Φ t ts) → wp current ts Φ.
Proof. intros Hts HΦ. destruct (eof_cons ts Hts) as (t & r & ->). by eapply HΦ. Qed.

Lemma wp_peek k ts (Φ : Token → list Token → Prop) :
  ends_with_eof ts → (∀ t, Φ t ts) → wp (peek k) ts Φ.
Proof.
  intros Hts HΦ. unfold wp, peek. destruct (ts !! k); [apply HΦ|].
  destruct (last ts) eqn:E; [apply HΦ|]. apply last_None in E as ->.
  by destruct (eof_cons _ Hts) as (? & ? & ?).
Qed.

Lemma wp_advance t r (Φ : Token → list Token → Prop) :
  ends_with_eof (t :: r) → tok_type t ≠ EOF_TOKEN → (ends_with_eof r → Φ t r) →
  wp advance (t :: r) Φ.
Proof.
  intros Hts Ht HΦ. destruct (eof_tail_cons _ _ Hts Ht) as (t' & r' & ->).
  apply HΦ. by apply (eof_tail t).
Qed.

Lemma wp_match ty ts (Φ : bool → list Token → Prop) :
  ends_with_eof ts → ty ≠ EOF_TOKEN →
  (∀ ts', ends_with_eof ts' → (length ts' + 1 ≤ length ts)%nat → Φ true ts') →
  Φ false ts → wp (match_ ty) ts Φ.
Proof.
  intros Hts Hty Ht Hf. unfold match_. apply wp_bind. unfold check. apply wp_bind.
  apply wp_current; [done|]. intros t r ->. apply wp_ret.
  case_bool_decide as Hd; [|done]. apply wp_bind. apply wp_advance; [done|congruence|].
  intros Hr. apply wp_ret, Ht; [done|cbn; lia].
Qed.

Lemma wp_check ty ts (Φ : bool → list Token → Prop) :
  ends_with_eof ts → (∀ t r, ts = t :: r → tok_type t = ty → Φ true ts) → Φ false ts →
  wp (check ty) ts Φ.
Proof.
  intros Hts Ht Hf. unfold check. apply wp_bind, wp_current; [done|]. intros t r ->.
  apply wp_ret. case_bool_decide; [by eapply Ht|done].
Qed.

Lemma wp_checkAny tys ts (Φ : bool → list Token → Prop) :
  ends_with_eof ts → (∀ t r, ts = t :: r → tok_type t ∈ tys → Φ true ts) → Φ false ts →
  wp (checkAny tys) ts Φ.
Proof.
  intros Hts Ht Hf. unfold checkAny. apply wp_bind, wp_current; [done|]. intros t r ->.
  apply wp_ret. case_bool_decide; [by eapply Ht|done].
Qed.

Lemma wp_if_advance {A} (b : A) t r (Φ : A → list Token → Prop) :
  ends_with_eof (t :: r) → tok_type t ≠ EOF_TOKEN →
  (∀ r', ends_with_eof r' → (length r' + 1 ≤ length (t :: r))%nat → Φ b r') →
  wp (_ ← advance; mret b) (t :: r) Φ.
Proof.
  intros Hts Ht HΦ. apply wp_bind, wp_advance; [done..|]. intros Hr. apply wp_ret, HΦ; [done|].
  cbn. lia.
Qed.

Lemma wordEquals_not_eof t v : wordEquals t v = true → tok_type t ≠ EOF_TOKEN.
Proof. unfold wordEquals. intros [H%bool_decide_eq_true _]%andb_prop. congruence. Qed.

Lemma wp_matchWord v ts (Φ : bool → list Token → Prop) :
  ends_with_eof ts →
  (∀ ts', ends_with_eof ts' → (length ts' + 1 ≤ length ts)%nat → Φ true ts') →
  Φ false ts → wp (matchWord v) ts Φ.
Proof.
  intros Hts Ht Hf. unfold matchWord, checkWord. apply wp_bind, wp_bind.
  apply wp_current; [done|]. intros t r ->. apply wp_ret.
  destruct (wordEquals t v) eqn:Hw; [|done].
  apply wp_if_advance; [done|by eapply wordEquals_not_eof|done].
Qed.

Lemma wp_or_else a b ts (Φ : bool → list Token → Prop) :
  wp a ts (λ x ts', if x : bool then Φ true ts' else wp b ts' Φ) → wp (or_else a b) ts Φ.
Proof.
  intros H. unfold or_else. apply wp_bind. eapply wp_mono; [exact H|]. by intros [].
Qed.

Lemma wp_and_also a b ts (Φ : bool → list Token → Prop) :
  wp a ts (λ x ts', if x : bool then wp b ts' Φ else Φ false ts') → wp (and_also a b) ts Φ.
Proof.
  intros H. unfold and_also. apply wp_bind. eapply wp_mono; [exact H|]. by intros [].
Qed.

Lemma wp_expect ty msg ts (Φ : Token → list Token → Prop) :
  ends_with_eof ts → ty ≠ EOF_TOKEN →
  (∀ t ts', tok_type t = ty → ends_with_eof ts' → (length ts' + 1 ≤ length ts)%nat →
     Φ t ts') →
  wp (expect ty msg) ts Φ.
Proof.
  intros Hts Hty HΦ. unfold expect. apply wp_bind, wp_current; [done|]. intros t r ->.
  case_decide as Hd; [|done]. apply wp_advance; [done|congruence|]. intros Hr.
  apply HΦ; [done..|cbn; lia].
Qed.

Lemma wp_expectWord v msg ts (Φ : Token → list Token → Prop) :
  ends_with_eof ts →
  (∀ t ts', ends_with_eof ts' → (length ts' + 1 ≤ length ts)%nat → Φ t ts') →
  wp (expectWord v msg) ts Φ.
Proof.
  intros Hts HΦ. unfold expectWord. apply wp_bind, wp_current; [done|]. intros t r ->.
  destruct (wordEquals t v) eqn:Hw; [|done].
  apply wp_advance; [done|by eapply wordEquals_not_eof|]. intros Hr. apply HΦ; [done|cbn; lia].
Qed.

Lemma wp_lift_exec {A} (r : exec A) ts (Φ : A → list Token → Prop) :
  (∀ a, Φ a ts) → wp (lift_exec r) ts Φ.
Proof. intros H. unfold wp, lift_exec. destruct r as [a|[]]; [apply H|done..]. Qed.

Lemma wp_parse_error {A} msg ts (Φ : A → list Token → Prop) :
  ends_with_eof ts → wp (parse_error msg) ts Φ.
Proof.
  intros Hts. unfold parse_error. apply wp_bind, wp_current; [done|]. by intros.
Qed.

Lemma wp_here ts (Φ : loc → list Token → Prop) :
  ends_with_eof ts → (∀ p, Φ p ts) → wp here ts Φ.
Proof.
  intros Hts HΦ. unfold here. apply wp_bind, wp_current; [done|]. intros t r _. apply wp_ret, HΦ.
Qed.

Lemma wp_bounded {A} (p : nat → parser A) ts Φ :
  wp (p (S (length ts))) ts Φ → wp (bounded p) ts Φ.
Proof. done. Qed.

Lemma wp_expectName msg ts (Φ : Token → list Token → Prop) :
  ends_with_eof ts →
  (∀ t ts', ends_with_eof ts' → (length ts' + 1 ≤ length ts)%nat → Φ t ts') →
  wp (expectName msg) ts Φ.
Proof. intros Hts HΦ. apply wp_expect; [done..|]. eauto. Qed.

Create HintDb parser.

(** One step of the symbolic execution of a parser. *)
Ltac p_head :=
  lazymatch goal with
  | |- wp (_ ≫= _) _ _ => apply wp_bind
  | |- wp (mret _) _ _ => apply wp_ret
  | |- wp (_ <$> _) _ _ => apply wp_fmap
  | |- wp (throw (ParseError _ _ _)) _ _ => exact I
  | |- wp (parse_error _) _ _ => apply wp_parse_error; assumption
  | |- wp (match_ _) _ _ => apply wp_match; [assumption|first [discriminate|assumption]|intros ? ? ?|]
  | |- wp (matchWord _) _ _ => apply wp_matchWord; [assumption|intros ? ? ?|]
  | |- wp (expect _ _) _ _ => apply wp_expect; [assumption|discriminate|intros ? ? ? ? ?]
  | |- wp (expectWord _ _) _ _ => apply wp_expectWord; [assumption|intros ? ? ? ?]
  | |- wp (expectName _) _ _ => apply wp_expectName; [assumption|intros ? ? ? ?]
  | |- wp (check _) _ _ => apply wp_check; [assumption|intros ? ? ? ?; simplify_eq|]
  | |- wp (checkAny _) _ _ => apply wp_checkAny; [assumption|intros ? ? ? ?; simplify_eq|]
  | |- wp (or_else _ _) _ _ => apply wp_or_else
  | |- wp (and_also _ _) _ _ => apply wp_and_also
  | |- wp here _ _ => apply wp_here; [assumption|intros ?]
  | |- wp (peek _) _ _ => apply wp_peek; [assumption|intros ?]
  | |- wp current _ _ => apply wp_current; [assumption|intros ? ? ?; simplify_eq]
  | |- wp (lift_exec _) _ _ => apply wp_lift_exec; intros ?
  | |- wp advance (_ :: _) _ => apply wp_advance; [assumption|congruence|intros ?]
  | |- wp (if ?b then _ else _) _ _ => destruct b
  | |- wp (let '(_, _) := ?b in _) _ _ => destruct b
  end.

Ltac p_done := split; [assumption|cbn [length] in *; lia].

(** A compound parser whose lemma is in the database. *)
Ltac p_call :=
  lazymatch goal with
  | |- wp ?p _ _ =>
      eapply wp_shrinks; [solve [eauto with parser]|assumption
                         |cbn [length] in *; first [lia|apply le_n]|intros ? ? ? ?]
  end.

Ltac p_run := intros ? ? ?; repeat (first [p_head|p_call]; cbv beta iota); try p_done.

Lemma shrinks_value_of n k (p : parser Token) : shrinks n k p → shrinks n k (value_of p).
Proof. intros Hp. unfold value_of. p_run. Qed.

Lemma shrinks_expect n ty msg : ty ≠ EOF_TOKEN → shrinks n 1 (expect ty msg).
Proof. intros Hty ts Hts _. apply wp_expect; [done..|]. intros; p_done. Qed.

#[export] Hint Resolve shrinks_value_of shrinks_expect : parser.
#[export] Hint Extern 1 (_ ≠ EOF_TOKEN) => discriminate : parser.

Lemma shrinks_ident n msg : shrinks n 1 (ident msg).
Proof. unfold ident. eauto with parser. Qed.
Lemma shrinks_text n msg : shrinks n 1 (text msg).
Proof. unfold text. eauto with parser. Qed.
Lemma shrinks_name n msg : shrinks n 1 (name_ msg).
Proof. unfold name_. apply shrinks_value_of. p_run. Qed.
#[export] Hint Resolve shrinks_ident shrinks_text shrinks_name : parser.

(** ** Loops *)

Lemma wp_while_match {A} N ty (p : parser A) : ty ≠ EOF_TOKEN → shrinks N 0 p →
  ∀ n ts, ends_with_eof ts → (length ts < n)%nat → (length ts ≤ N)%nat →
  wp (while_match n ty p) ts
    (λ _ ts', ends_with_eof ts' ∧ (length ts' ≤ length ts)%nat).
Proof.
  intros Hty Hp. induction n as [|n IH]; intros ts Hts Hn HN; [lia|]. cbn [while_match].
  apply wp_bind, wp_match; [done..| |by apply wp_ret].
  intros ts1 H1 Hl1. apply wp_bind. eapply wp_shrinks; [exact Hp|done|lia|].
  intros x ts2 H2 Hl2. apply wp_bind. eapply wp_mono; [apply IH; [done|lia..]|].
  intros xs ts3 [H3 Hl3]. apply wp_ret. split; [done|lia].
Qed.

Lemma shrinks_while_match {A} N ty (p : parser A) :
  ty ≠ EOF_TOKEN → shrinks N 0 p → shrinks N 0 (bounded (λ n, while_match n ty p)).
Proof.
  intros Hty Hp ts Hts HN. apply wp_bounded.
  eapply wp_mono; [by apply (wp_while_match N); [..|lia|]|]. cbn. intros _ ts' []. split; [done|lia].
Qed.

Lemma shrinks_comma_list {A} N k (p : parser A) : shrinks N k p → shrinks N k (comma_list p).
Proof.
  intros Hp. unfold comma_list.
  pose proof (shrinks_while_match N COMMA p ltac:(done)
                (shrinks_weaken _ _ _ 0 _ Hp (le_n _) (Nat.le_0_l _))) as Hw.
  intros ts Hts Hl. apply wp_bind. eapply wp_shrinks; [exact Hp|done..|].
  intros x ts1 H1 Hl1. apply wp_bind. eapply wp_shrinks; [exact Hw|done|lia|].
  intros xs ts2 H2 Hl2. apply wp_ret. split; [done|lia].
Qed.

Lemma shrinks_while_comma {A} N (p : parser A) :
  shrinks N 0 p → shrinks N 0 (bounded (λ n, while_comma n p)).
Proof.
  intros Hp ts Hts HN. apply wp_bounded.
  assert (∀ n ts, ends_with_eof ts → (length ts < n)%nat → (length ts ≤ N)%nat →
    wp (while_comma n p) ts (λ _ ts', ends_with_eof ts' ∧ (length ts' ≤ length ts)%nat)) as H.
  { clear ts Hts HN. induction n as [|n IH]; intros ts Hts Hn HN; [lia|]. cbn [while_comma].
    apply wp_bind, wp_match; [done..| |by apply wp_ret].
    intros ts1 H1 Hl1. apply wp_bind. apply wp_check; [done| |].
    - intros t r -> Ht. apply wp_ret. split; [done|lia].
    - apply wp_bind. eapply wp_shrinks; [exact Hp|done|lia|].
      intros x ts2 H2 Hl2. apply wp_bind. eapply wp_mono; [apply IH; [done|lia..]|].
      intros xs ts3 [H3 Hl3]. apply wp_ret. split; [done|lia]. }
  eapply wp_mono; [by apply H; [|lia|]|]. cbn. intros _ ts' []. split; [done|lia].
Qed.

Lemma shrinks_options {S} N (step : S → parser S) (s : S) :
  (∀ s, shrinks N 1 (step s)) → shrinks N 0 (bounded (λ n, options n step s)).
Proof.
  intros Hstep ts Hts HN. apply wp_bounded.
  assert (∀ n ts s, ends_with_eof ts → (length ts < n)%nat → (length ts ≤ N)%nat →
    wp (options n step s) ts (λ _ ts', ends_with_eof ts' ∧ (length ts' ≤ length ts)%nat)) as H.
  { clear ts Hts HN s. induction n as [|n IH]; intros ts s Hts Hn HN; [lia|]. cbn [options].
    apply wp_bind, wp_or_else.
    apply wp_check; [done|intros t r -> _; by apply wp_ret|].
    apply wp_check; [done|intros t r -> _; by apply wp_ret|].
    apply wp_bind. eapply wp_shrinks; [apply Hstep|done..|].
    intros s' ts2 H2 Hl2. eapply wp_mono; [apply IH; [done|lia..]|].
    intros _ ts3 [H3 Hl3]. split; [done|lia]. }
  eapply wp_mono; [by apply H; [|lia|]|]. cbn. intros _ ts' []. split; [done|lia].
Qed.

Lemma shrinks_left_assoc N tys op operand :
  EOF_TOKEN ∉ tys → shrinks N 1 operand → shrinks N 1 (left_assoc tys op operand).
Proof.
  intros Htys Hop ts Hts HN. unfold left_assoc. apply wp_bind.
  eapply wp_shrinks; [exact Hop|done..|]. intros left ts1 H1 Hl1. apply wp_bounded.
  assert (∀ n ts left, ends_with_eof ts → (length ts < n)%nat → (length ts ≤ N)%nat →
    wp (binary_loop n tys op operand left) ts
      (λ _ ts', ends_with_eof ts' ∧ (length ts' ≤ length ts)%nat)) as H.
  { clear -Htys Hop. induction n as [|n IH]; intros ts left Hts Hn HN; [lia|].
    cbn [binary_loop]. apply wp_bind, wp_checkAny; [done| |by apply wp_ret].
    intros t r -> Ht. apply wp_bind, wp_advance; [done|congruence|]. intros Hr.
    cbn [length] in *. apply wp_bind. eapply wp_shrinks; [exact Hop|done|lia|].
    intros right ts2 H2 Hl2. eapply wp_mono; [apply IH; [done|lia..]|].
    intros _ ts3 [H3 Hl3]. split; [done|lia]. }
  eapply wp_mono; [apply H; [done|lia..]|]. cbn. intros _ ts' []. split; [done|lia].
Qed.

Lemma shrinks_prefix_ops N ty op operand :
  ty ≠ EOF_TOKEN → shrinks N 1 operand →
  shrinks N 1 (bounded (λ n, prefix_ops n ty op operand)).
Proof.
  intros Hty Hop ts Hts HN. apply wp_bounded.
  assert (∀ n ts, ends_with_eof ts → (length ts < n)%nat → (length ts ≤ N)%nat →
    wp (prefix_ops n ty op operand) ts
      (λ _ ts', ends_with_eof ts' ∧ (length ts' + 1 ≤ length ts)%nat)) as H.
  { clear -Hty Hop. induction n as [|n IH]; intros ts Hts Hn HN; [lia|].
    cbn [prefix_ops]. apply wp_bind, wp_check; [done| |].
    - intros t r -> Ht. apply wp_bind, wp_advance; [done|congruence|]. intros Hr.
      cbn [length] in *. apply wp_bind. eapply wp_mono; [apply IH; [done|lia..]|].
      intros e ts2 [H2 Hl2]. apply wp_ret. split; [done|lia].
    - eapply wp_shrinks; [exact Hop|done..|]. intros; p_done. }
  by apply H; [|lia|].
Qed.

#[export] Hint Resolve shrinks_while_match shrinks_comma_list shrinks_while_comma
  shrinks_options shrinks_left_assoc shrinks_prefix_ops : parser.

(** A decidable proposition, by evaluating its decision. *)
Ltac by_decide := apply (bool_decide_unpack _); vm_compute; exact I.

(** ** The expression grammar *)

Section Termination.
Context (n : nat) (e : parser Node) (s : parser Select_).
Hypothesis He : shrinks n 1 e.
Hypothesis Hs : shrinks n 1 s.

#[local] Hint Resolve He Hs : parser.

Lemma shrinks_parseColumnList : shrinks n 1 (parseColumnList e).
Proof. apply shrinks_comma_list, He. Qed.

Lemma shrinks_parseOrderItem : shrinks n 1 (parseOrderItem e).
Proof. unfold parseOrderItem. p_run. Qed.

Lemma shrinks_parseOrderList : shrinks n 1 (parseOrderList e).
Proof. apply shrinks_comma_list, shrinks_parseOrderItem. Qed.

#[local] Hint Resolve shrinks_parseColumnList shrinks_parseOrderItem
  shrinks_parseOrderList : parser.

Lemma shrinks_parseEraExpr p : shrinks n 1 (parseEraExpr e p).
Proof. unfold parseEraExpr. p_run. Qed.

Lemma shrinks_parseFunctionCall name p : shrinks (S n) 1 (parseFunctionCall e name p).
Proof.
  unfold parseFunctionCall. intros ts Hts Hl. apply wp_bind.
  apply wp_expect; [done..|]. intros _ ts1 _ H1 Hl1. cbn [mbind].
  set (headcount := bool_decide (name = "headcount")). clearbody headcount.
  destruct headcount; cbn [andb]; repeat (first [p_head|p_call]; cbv beta iota);
    try p_done.
Qed.

#[local] Hint Resolve shrinks_parseEraExpr shrinks_parseFunctionCall : parser.

Lemma shrinks_parseName name p : shrinks n 0 (parseName e name p).
Proof.
  assert (∀ name p, shrinks n 1 (parseFunctionCall e name p)) as Hcall.
  { intros. eapply shrinks_weaken; [apply shrinks_parseFunctionCall|lia..]. }
  unfold parseName. p_run.
Qed.

Lemma shrinks_parseParenthesized : shrinks n 1 (parseParenthesized e s).
Proof. unfold parseParenthesized. p_run. Qed.

#[local] Hint Resolve shrinks_parseName shrinks_parseParenthesized : parser.

Lemma eof_not_aggregate : EOF_TOKEN ∉ aggregates.
Proof. by_decide. Qed.

Lemma shrinks_parsePrimaryExpr : shrinks (S n) 1 (parsePrimaryExpr e s).
Proof.
  intros ts Hts Hl. unfold parsePrimaryExpr. apply wp_bind, wp_current; [done|].
  intros t r ->. cbv zeta. destruct (tok_type t) eqn:Ht;
    try (case_decide; [|exact I]);
    repeat (first [p_head|p_call]; cbv beta iota); try p_done.
  by destruct eof_not_aggregate.
Qed.

Lemma shrinks_parseUnaryExpr : shrinks (S n) 1 (parseUnaryExpr e s).
Proof. apply shrinks_prefix_ops; [done|]. apply shrinks_parsePrimaryExpr. Qed.

Lemma shrinks_parseMulExpr : shrinks (S n) 1 (parseMulExpr e s).
Proof.
  apply shrinks_left_assoc; [by_decide|]. apply shrinks_parseUnaryExpr.
Qed.

Lemma shrinks_parseAddExpr : shrinks (S n) 1 (parseAddExpr e s).
Proof.
  apply shrinks_left_assoc; [by_decide|]. apply shrinks_parseMulExpr.
Qed.

#[local] Hint Resolve shrinks_parseAddExpr : parser.

Lemma comparison_not_eof t : tok_type t ∈ comparisons → tok_type t ≠ EOF_TOKEN.
Proof. intros H E. rewrite E in H. revert H. by_decide. Qed.

Lemma shrinks_parseCompareExpr : shrinks (S n) 1 (parseCompareExpr e s).
Proof.
  unfold parseCompareExpr. intros ts Hts Hl. apply wp_bind. p_call.
  apply wp_bind, wp_checkAny; [done|intros t r -> Hc|by apply wp_ret; p_done].
  cbv beta iota. apply wp_bind, wp_advance; [done|by apply comparison_not_eof|].
  intros Hr. apply wp_bind. p_call. apply wp_ret. p_done.
Qed.

Lemma shrinks_parseNotExpr : shrinks (S n) 1 (parseNotExpr e s).
Proof. apply shrinks_prefix_ops; [done|]. apply shrinks_parseCompareExpr. Qed.

Lemma shrinks_parseAndExpr : shrinks (S n) 1 (parseAndExpr e s).
Proof.
  apply shrinks_left_assoc; [by_decide|]. apply shrinks_parseNotExpr.
Qed.

Lemma shrinks_parseOrExpr : shrinks (S n) 1 (parseOrExpr e s).
Proof.
  apply shrinks_left_assoc; [by_decide|]. apply shrinks_parseAndExpr.
Qed.

(** *** SELECT *)

Lemma shrinks_parseSelectItem : shrinks n 1 (parseSelectItem e).
Proof. unfold parseSelectItem. p_run. Qed.

#[local] Hint Resolve shrinks_parseSelectItem : parser.

Lemma shrinks_parseSelectList : shrinks n 1 (parseSelectList e).
Proof. unfold parseSelectList. p_run. Qed.

Lemma shrinks_parseTableRef m : shrinks m 1 parseTableRef.
Proof. unfold parseTableRef. p_run. Qed.

#[local] Hint Resolve shrinks_parseSelectList shrinks_parseTableRef : parser.

Lemma shrinks_parseJoin : shrinks n 1 (parseJoin e).
Proof. unfold parseJoin. p_run. Qed.

Lemma shrinks_parseJoins : shrinks n 0 (bounded (parseJoins e)).
Proof.
  intros ts Hts HN. apply wp_bounded.
  assert (∀ m ts, ends_with_eof ts → (length ts < m)%nat → (length ts ≤ n)%nat →
    wp (parseJoins e m) ts
      (λ _ ts', ends_with_eof ts' ∧ (length ts' + 0 ≤ length ts)%nat)) as H.
  { clear ts Hts HN. induction m as [|m IH]; intros ts Hts Hm Hn; [lia|].
    cbn [parseJoins]. apply wp_bind, wp_checkAny; [done|intros t r -> _|apply wp_ret; p_done].
    cbv beta iota. apply wp_bind. eapply wp_shrinks; [apply shrinks_parseJoin|done..|].
    intros j ts1 H1 Hl1. apply wp_bind. eapply wp_mono; [apply IH; [done|lia..]|].
    intros js ts2 [H2 Hl2]. apply wp_ret. p_done. }
  by apply H; [|lia|].
Qed.

Lemma shrinks_clause {A} m k ty (p : parser A) :
  ty ≠ EOF_TOKEN → shrinks m k p → shrinks m 0 (clause ty p).
Proof. intros Hty Hp. unfold clause. p_run. Qed.

Lemma shrinks_clause_list {A} m k ty (p : parser (list A)) :
  ty ≠ EOF_TOKEN → shrinks m k p → shrinks m 0 (clause_list ty p).
Proof. intros Hty Hp. unfold clause_list. p_run. Qed.

#[local] Hint Resolve shrinks_parseJoins shrinks_clause shrinks_clause_list : parser.

Lemma shrinks_parseSelectBody : shrinks (S n) 1 (parseSelectBody e).
Proof. unfold parseSelectBody. p_run. Qed.
End Termination.

#[export] Hint Resolve shrinks_clause shrinks_clause_list : parser.

Lemma shrinks_knot n : shrinks n 1 (knot n).1 ∧ shrinks n 1 (knot n).2.
Proof.
  induction n as [|n IH].
  - split; intros ts Hts Hl; destruct (eof_cons ts Hts) as (? & ? & ->); cbn in Hl; lia.
  - cbn. destruct (knot n) as [e s]. destruct IH as [He Hs]. cbn in *. split.
    + by apply shrinks_parseOrExpr.
    + by apply shrinks_parseSelectBody.
Qed.

Lemma shrinks_parseExpr n : shrinks n 1 parseExpr.
Proof.
  intros ts Hts _. unfold parseExpr. apply wp_bounded.
  by apply (shrinks_knot (S (length ts))); [|lia].
Qed.

Lemma shrinks_parseSelect n : shrinks n 1 parseSelect.
Proof.
  intros ts Hts _. unfold parseSelect. apply wp_bounded.
  by apply (shrinks_knot (S (length ts))); [|lia].
Qed.

#[export] Hint Resolve shrinks_parseExpr shrinks_parseSelect : parser.


(** ** Statements *)

Lemma shrinks_unsigned n name : shrinks n 1 (parseUnsignedOption name).
Proof.
  intros ts Hts Hl. unfold parseUnsignedOption. apply wp_bind, wp_current; [done|].
  intros t r ->. case_decide; [|exact I]. repeat (first [p_head|p_call]; cbv beta iota).
  p_done.
Qed.
#[export] Hint Resolve shrinks_unsigned : parser.

Lemma shrinks_parseRow n : shrinks n 1 parseRow.
Proof. unfold parseRow. p_run. Qed.
#[export] Hint Resolve shrinks_parseRow : parser.

Lemma shrinks_parseInsert n : shrinks n 1 parseInsert.
Proof. unfold parseInsert. p_run. Qed.

Lemma shrinks_parseAssignment n : shrinks n 1 parseAssignment.
Proof. unfold parseAssignment. p_run. Qed.
#[export] Hint Resolve shrinks_parseAssignment : parser.

Lemma shrinks_parseUpdate n : shrinks n 1 parseUpdate.
Proof. unfold parseUpdate. p_run. Qed.

Lemma shrinks_parseDelete n : shrinks n 1 parseDelete.
Proof. unfold parseDelete. p_run. Qed.

Lemma shrinks_parseConstraints n d : shrinks n 0 (bounded (λ m, parseConstraints m d)).
Proof.
  intros ts Hts HN. apply wp_bounded.
  assert (∀ m ts d, ends_with_eof ts → (length ts < m)%nat →
    wp (parseConstraints m d) ts
      (λ _ ts', ends_with_eof ts' ∧ (length ts' + 0 ≤ length ts)%nat)) as H.
  { clear. induction m as [|m IH]; intros ts d Hts Hm; [lia|].
    assert (∀ ts1 d, ends_with_eof ts1 → (length ts1 < length ts)%nat →
      wp (parseConstraints m d) ts1
        (λ _ ts', ends_with_eof ts' ∧ (length ts' + 0 ≤ length ts)%nat)) as Hrec.
    { intros ts1 d1 H1 Hl. eapply wp_mono; [apply IH; [done|lia]|].
      intros _ ts2 [? ?]. split; [done|lia]. }
    cbn [parseConstraints].
    repeat (first [apply Hrec; [assumption|cbn [length] in *; lia]
                  |case_decide as Href; [|exact I]|p_head|p_call]; cbv beta iota).
    - destruct Href as [Href _]. apply wp_advance; [done|congruence|]. intros ?.
      repeat (first [apply Hrec; [assumption|cbn [length] in *; lia]|p_head|p_call];
              cbv beta iota).
    - p_done. }
  by apply H; [|lia].
Qed.
#[export] Hint Resolve shrinks_parseConstraints : parser.

Lemma shrinks_parseColumnDef n : shrinks n 1 parseColumnDef.
Proof.
  intros ts Hts Hl. unfold parseColumnDef. apply wp_bind. p_call.
  apply wp_bind, wp_current; [done|]. intros t r ->. case_decide; [|exact I].
  repeat (first [p_head|p_call]; cbv beta iota). p_done.
Qed.
#[export] Hint Resolve shrinks_parseColumnDef : parser.

Lemma shrinks_weak {A} n (p : parser A) : shrinks n 1 p → shrinks n 0 p.
Proof. intros Hp. eapply shrinks_weaken; [exact Hp|lia..]. Qed.

Lemma shrinks_while_comma_1 {A} n (p : parser A) :
  shrinks n 1 p → shrinks n 0 (bounded (λ m, while_comma m p)).
Proof. intros Hp. by apply shrinks_while_comma, shrinks_weak. Qed.
#[export] Hint Resolve shrinks_while_comma_1 : parser.

Lemma shrinks_parseCreate n : shrinks n 1 parseCreate.
Proof. unfold parseCreate. p_run. Qed.

Lemma shrinks_parseDrop n : shrinks n 1 parseDrop.
Proof. unfold parseDrop. p_run. Qed.

Lemma boundary_eof t : isClauseBoundary t = false → tok_type t ≠ EOF_TOKEN.
Proof. unfold isClauseBoundary. intros H E. by rewrite E in H. Qed.

Lemma shrinks_spec_words n fst_ : shrinks n 0 (bounded (λ m, spec_words m fst_)).
Proof.
  intros ts Hts HN. apply wp_bounded.
  assert (∀ m ts fst_, ends_with_eof ts → (length ts < m)%nat →
    wp (spec_words m fst_) ts
      (λ _ ts', ends_with_eof ts' ∧ (length ts' + 0 ≤ length ts)%nat)) as H.
  { clear. induction m as [|m IH]; intros ts fst_ Hts Hm; [lia|]. cbn [spec_words].
    apply wp_bind, wp_current; [done|]. intros t r ->.
    destruct (isClauseBoundary t) eqn:Hb; [apply wp_ret; p_done|].
    apply wp_bind, wp_advance; [done|by apply boundary_eof|]. intros Hr.
    cbn [length] in *. apply wp_bind. eapply wp_mono; [apply IH; [done|lia]|].
    intros w ts2 [? ?]. apply wp_ret. split; [done|lia]. }
  apply H; [done|lia].
Qed.
#[export] Hint Resolve shrinks_spec_words : parser.

Lemma shrinks_parseFeatureSpec n : shrinks n 1 parseFeatureSpec.
Proof. unfold parseFeatureSpec. p_run. Qed.

Lemma shrinks_parseLabelSpec n : shrinks n 1 parseLabelSpec.
Proof. unfold parseLabelSpec. p_run. Qed.
#[export] Hint Resolve shrinks_parseFeatureSpec shrinks_parseLabelSpec : parser.

Lemma shrinks_parseFeatureSpecs n : shrinks n 1 parseFeatureSpecs.
Proof. unfold parseFeatureSpecs. p_run. Qed.
#[export] Hint Resolve shrinks_parseFeatureSpecs : parser.

Lemma shrinks_parseSnapshotClause n s : shrinks n 1 (parseSnapshotClause s).
Proof. destruct s. unfold parseSnapshotClause. p_run. Qed.
#[export] Hint Resolve shrinks_parseSnapshotClause : parser.

Lemma shrinks_two_words n w1 w2 : shrinks n 1 (two_words w1 w2).
Proof. unfold two_words. p_run. Qed.
#[export] Hint Resolve shrinks_two_words : parser.

Lemma shrinks_parseCreateSnapshot n : shrinks n 1 parseCreateSnapshot.
Proof. unfold parseCreateSnapshot, keyword_or_words. p_run. Qed.

Lemma shrinks_parseExportOption n s : shrinks n 1 (parseExportOption s).
Proof. destruct s. unfold parseExportOption. p_run. Qed.

Lemma shrinks_parseExplainOption n s : shrinks n 1 (parseExplainOption s).
Proof. destruct s. unfold parseExplainOption. p_run. Qed.

Lemma shrinks_parseContextOption n msg s : shrinks n 1 (parseContextOption msg s).
Proof. destruct s. unfold parseContextOption. p_run. Qed.
#[export] Hint Resolve shrinks_parseExportOption shrinks_parseExplainOption
  shrinks_parseContextOption : parser.

Lemma shrinks_parseExportTorch n : shrinks n 1 parseExportTorch.
Proof. unfold parseExportTorch, keyword_or_words. p_run. Qed.
Lemma shrinks_parseExplainBatch n : shrinks n 1 parseExplainBatch.
Proof. unfold parseExplainBatch, keyword_or_words. p_run. Qed.
Lemma shrinks_parseCreateContext n : shrinks n 1 parseCreateContext.
Proof. unfold parseCreateContext, keyword_or_words. p_run. Qed.
Lemma shrinks_parseAppendMemory n : shrinks n 1 parseAppendMemory.
Proof. unfold parseAppendMemory, keyword_or_words. p_run. Qed.
Lemma shrinks_parseSpillContext n : shrinks n 1 parseSpillContext.
Proof. unfold parseSpillContext, keyword_or_words. p_run. Qed.
Lemma shrinks_parseExplainContext n : shrinks n 1 parseExplainContext.
Proof. unfold parseExplainContext, keyword_or_words. p_run. Qed.
Lemma shrinks_parseTagMemory n : shrinks n 1 parseTagMemory.
Proof. unfold parseTagMemory, keyword_or_words. p_run. Qed.
Lemma shrinks_parseShowTabs n : shrinks n 1 parseShowTabs.
Proof. unfold parseShowTabs, keyword_or_words. p_run. Qed.
Lemma shrinks_parseShowContextSchemas n : shrinks n 1 parseShowContextSchemas.
Proof. unfold parseShowContextSchemas, keyword_or_words. p_run. Qed.
Lemma shrinks_parseShowContextObjects n : shrinks n 1 parseShowContextObjects.
Proof. unfold parseShowContextObjects, keyword_or_words. p_run. Qed.
Lemma shrinks_parseAliasTab n : shrinks n 1 parseAliasTab.
Proof. unfold parseAliasTab, keyword_or_words. p_run. Qed.
Lemma shrinks_parseMergeTabs n : shrinks n 1 parseMergeTabs.
Proof. unfold parseMergeTabs, keyword_or_words. p_run. Qed.

#[export] Hint Resolve shrinks_parseInsert shrinks_parseUpdate shrinks_parseDelete
  shrinks_parseCreate shrinks_parseDrop shrinks_parseCreateSnapshot
  shrinks_parseExportTorch shrinks_parseExplainBatch shrinks_parseCreateContext
  shrinks_parseAppendMemory shrinks_parseSpillContext shrinks_parseExplainContext
  shrinks_parseTagMemory shrinks_parseShowTabs shrinks_parseShowContextSchemas
  shrinks_parseShowContextObjects shrinks_parseAliasTab shrinks_parseMergeTabs : parser.

Lemma wp_when {A} (c : parser bool) (p q : parser A) ts Φ :
  wp c ts (λ b ts', wp (if b : bool then p else q) ts' Φ) → wp (when c p q) ts Φ.
Proof. intros H. unfold when. apply wp_bind. exact H. Qed.

(** A test only looks at the tokens. *)
Definition pure_test (c : parser bool) : Prop :=
  ∀ ts (Φ : bool → list Token → Prop), ends_with_eof ts → (∀ b, Φ b ts) → wp c ts Φ.

Lemma pure_checkWord v : pure_test (checkWord v).
Proof.
  intros ts Φ Hts HΦ. unfold checkWord. apply wp_bind, wp_current; [done|].
  intros t r _. apply wp_ret, HΦ.
Qed.

Lemma pure_peekWord k v : pure_test (peekWord k v).
Proof.
  intros ts Φ Hts HΦ. unfold peekWord. apply wp_bind, wp_peek; [done|].
  intros t. apply wp_ret, HΦ.
Qed.

Lemma pure_or_else a b : pure_test a → pure_test b → pure_test (or_else a b).
Proof.
  intros Ha Hb ts Φ Hts HΦ. apply wp_or_else, Ha; [done|]. intros []; [done|]. by apply Hb.
Qed.

Lemma pure_and_also a b : pure_test a → pure_test b → pure_test (and_also a b).
Proof.
  intros Ha Hb ts Φ Hts HΦ. apply wp_and_also, Ha; [done|]. intros []; [|done]. by apply Hb.
Qed.

Lemma pure_words v w : pure_test (words v w).
Proof. apply pure_and_also; [apply pure_checkWord|apply pure_peekWord]. Qed.

#[export] Hint Resolve pure_checkWord pure_peekWord pure_or_else pure_and_also pure_words
  : parser.

Lemma shrinks_fmap {A B} n k (f : A → B) p : shrinks n k p → shrinks n k (f <$> p).
Proof. intros Hp ts Hts Hl. apply wp_fmap. eapply wp_shrinks; [exact Hp|done..|]. intros; p_done. Qed.

Lemma shrinks_when {A} n k c (p q : parser A) :
  pure_test c → shrinks n k p → shrinks n k q → shrinks n k (when c p q).
Proof.
  intros Hc Hp Hq ts Hts Hl. apply wp_when, Hc; [done|]. intros []; [by apply Hp|by apply Hq].
Qed.

Lemma shrinks_parse_error {A} n k msg : shrinks n k (parse_error (A:=A) msg).
Proof. intros ts Hts _. by apply wp_parse_error. Qed.

#[export] Hint Resolve shrinks_fmap shrinks_when shrinks_parse_error : parser.

Lemma shrinks_parseWordStatement n : shrinks n 1 parseWordStatement.
Proof.
  unfold parseWordStatement.
  repeat (apply shrinks_when; [eauto 10 with parser|by apply shrinks_fmap; eauto with parser|]).
  apply shrinks_parse_error.
Qed.

Lemma shrinks_parseOneStatement n : shrinks n 1 parseOneStatement.
Proof.
  intros ts Hts Hl. unfold parseOneStatement. apply wp_bind, wp_current; [done|].
  intros t r ->.
  destruct (tok_type t);
    first [by apply (shrinks_parseWordStatement n)
          |eapply shrinks_fmap; [eauto with parser|done|apply Hl]].
Qed.
#[export] Hint Resolve shrinks_parseOneStatement : parser.

Lemma shrinks_parseStatement n : shrinks n 1 parseStatement.
Proof. unfold parseStatement. p_run. Qed.
#[export] Hint Resolve shrinks_parseStatement : parser.

Lemma shrinks_skip_semicolons n : shrinks n 0 skip_semicolons.
Proof. apply shrinks_while_match; [done|]. intros ts Hts _. apply wp_ret. p_done. Qed.
#[export] Hint Resolve shrinks_skip_semicolons : parser.

(** When [parseAll] returns, only the end of the source is left. *)
Lemma parseAll_wp ts :
  ends_with_eof ts →
  wp parseAll ts (λ _ ts', ∃ e, ts' = [e] ∧ tok_type e = EOF_TOKEN).
Proof.
  intros Hts. unfold parseAll. apply wp_bounded.
  assert (∀ n ts, ends_with_eof ts → (length ts < n)%nat →
    wp (parse_all n) ts (λ _ ts', ∃ e, ts' = [e] ∧ tok_type e = EOF_TOKEN)) as H;
    [|by apply H; [|lia]].
  clear. induction n as [|n IH]; intros ts Hts Hn; [lia|]. cbn [parse_all].
  apply wp_bind, wp_check; [done| |].
  - intros t r -> Ht. apply wp_ret. exists t. split; [|done]. f_equal.
    destruct Hts as (pre & e & Heq & He & Hpre). destruct pre as [|t' pre].
    + by injection Heq.
    + injection Heq as -> _. apply Forall_cons in Hpre as [? _]. done.
  - cbv beta iota. apply wp_bind.
    eapply wp_shrinks; [apply (shrinks_parseStatement (length ts))|done..|].
    intros s ts1 H1 Hl1. apply wp_bind.
    eapply wp_shrinks; [apply (shrinks_skip_semicolons (length ts))|done|lia|].
    intros _ ts2 H2 Hl2. apply wp_bind.
    eapply wp_mono; [apply IH; [done|lia]|]. intros ss ts3 H3. by apply wp_ret.
Qed.

(** ** Properties *)

(** C25: Parsing terminates: on the tokens of any source, whatever they are, the
    recursive descent with its loops stops - with a statement list whose
    parsing has consumed every token before the end of the source, or with an
    exception; it neither loops nor reads past the end of the token vector. *)
Theorem parse_terminates source ts :
  tokenize source = Some (Ok ts) →
  match parseAll ts with
  | Ok (_, rest) => ∃ e, rest = [e] ∧ tok_type e = EOF_TOKEN
  | Err OutOfFuel | Err NoTokens => False
  | Err (ParseError _ _ _) | Err (StdException _) => True
  end.
Proof.
  intros Hts. assert (ends_with_eof ts) as Heof.
  { unfold tokenize in Hts. apply tokenize_loop_reads in Hts. by eapply reads_eof. }
  pose proof (parseAll_wp ts Heof) as H. unfold wp in H.
  by destruct (parseAll ts) as [[]|[]].
Qed.

Lemma parse_terminates_witness :
  ∃ ts ss e, tokenize "slay headcount(*) no-cap t; ratio t only-if a < 3" = Some (Ok ts) ∧
    parseAll ts = Ok (ss, [e]) ∧ length ss = 2%nat ∧ tok_type e = EOF_TOKEN.
Proof.
  assert (∃ ts, tokenize "slay headcount(*) no-cap t; ratio t only-if a < 3" = Some (Ok ts))
    as [ts Hts] by (eexists; vm_compute; reflexivity).
  pose proof (parse_terminates _ _ Hts) as H.
  assert (∃ ss r, parseAll ts = Ok (ss, r) ∧ length ss = 2%nat) as (ss & r & Hp & Hl).
  { vm_compute in Hts. injection Hts as <-. vm_compute. by do 2 eexists. }
  rewrite Hp in H. destruct H as (e & -> & He). by exists ts, ss, e.
Defined.

(** An integer literal outside 64 bits is not reported as a parse error: the
    exception of the C++ number reader escapes without a position. *)
Theorem parse_integer_overflow :
  parse_source "slay 9223372036854775808 no-cap t" = Some (Err (StdException "stoll")) ∧
  parse_source "spill-context c token-budget 18446744073709551616"
    = Some (Err (StdException "stoull")) ∧
  ∀ t ts, tok_type t = INTEGER_LIT → ts ≠ [] → 2 ^ 63 ≤ dec_value (tok_value t) →
    parsePrimaryExpr parseExpr parseSelect (t :: ts) = Err (StdException "stoll").
Proof.
  split; [vm_compute; reflexivity|]. split; [vm_compute; reflexivity|].
  intros t ts Ht Hts Hv. destruct ts as [|t' ts]; [done|].
  unfold parsePrimaryExpr, mbind, parser_bind, current, peek. cbn -[stoll].
  rewrite Ht. cbn -[stoll]. unfold lift_exec, stoll. by rewrite decide_False by lia.
Qed.

(** The tests for the words [context-schemas] and [context-objects] in the
    parser never succeed: no token of any source is such a word, since the
    lexer never puts a hyphen in an identifier. *)
Theorem hyphenated_words_unreachable source ts t w :
  tokenize source = Some (Ok ts) → t ∈ ts →
  w = "context-schemas" ∨ w = "context-objects" → wordEquals t w = false.
Proof.
  intros Hts Hin Hw. unfold tokenize in Hts. apply tokenize_loop_reads in Hts.
  unfold wordEquals. case_bool_decide as Ht; [cbn|done].
  apply bool_decide_eq_false. intros Heq.
  destruct (reads_lexeme _ _ _ _ t Hts Hin) as [E|[v Hv]]; [congruence|].
  unfold lexeme in Hv. rewrite Ht in Hv. destruct Hv as [-> Hname].
  destruct (is_name_scan _ Hname) as [_ Hh%split_hyphen_None].
  assert (all_chars notHyphen (lowerCopy (tok_value t)) = true) as Hl.
  { revert Hh. generalize (tok_value t). unfold lowerCopy, lower.
    induction s as [|c s IH]; cbn; [done|]. intros [Hc Hs]%andb_prop. rewrite IH by done.
    enough (implb (notHyphen c) (notHyphen (tolower c)) = true) as H
      by (rewrite Hc in H; cbn in H; by rewrite H).
    clear. by_all_ascii c. }
  rewrite Heq in Hl. by destruct Hw as [-> | ->].
Qed.

Lemma hyphenated_words_unreachable_witness :
  ∃ ts, tokenize "show context-schemas" = Some (Ok ts) ∧
    ∀ t, t ∈ ts → wordEquals t "context-schemas" = false.
Proof.
  assert (∃ ts, tokenize "show context-schemas" = Some (Ok ts)) as [ts Hts]
    by (eexists; vm_compute; reflexivity).
  exists ts. split; [exact Hts|]. intros t Ht.
  apply (hyphenated_words_unreachable "show context-schemas" ts t "context-schemas" Hts Ht).
  left. reflexivity.
Defined.
