(* ===== verification/Catalog.v ===== *)
(** The catalog: [src/metadata.h] and the in-memory operations of
    [src/metadata.cpp].  The three unordered maps are [gmap]s (every use of
    their iteration order sorts the keys first); the file the catalog is saved
    to is the subject of [CatalogJson.v].  The file shows that the stored
    fingerprint is always the one of the contents, and which changes of the
    contents it is certain to notice. *)

From S2P Require Import Prelude.
From S2P Require Import Hash.
From S2P Require Import Format.

Record ColumnMeta : Type := mkColumnMeta {
  cm_name : string;
  cm_type : string;
  cm_primary_key : bool;
  cm_not_null : bool;
  cm_fk_table : string;
  cm_fk_col : string;
}.

Record TableMeta : Type := mkTableMeta {
  t_name : string;
  t_columns : list ColumnMeta;
}.

Record SnapshotFeatureMeta : Type := mkSnapshotFeature {
  sf_name : string;
  sf_spec : string;
}.

Record SnapshotRowMeta : Type := mkSnapshotRow {
  sr_rowid : string;
  sr_split : string;
}.

Record DatasetSnapshotMeta : Type := mkSnapshotMeta {
  ds_name : string;
  ds_queryText : string;
  ds_sourceTable : string;
  ds_schemaFingerprint : string;
  ds_tableVersion : string;
  ds_splitBy : string;
  ds_seed : Z;
  ds_features : list SnapshotFeatureMeta;
  ds_label : SnapshotFeatureMeta;
  ds_rows : list SnapshotRowMeta;
  ds_warnings : list string;
}.

Record ContextMessageMeta : Type := mkMessage {
  ms_id : Z;
  ms_speaker : string;
  ms_text : string;
  ms_tab : string;
  ms_schemaName : string;
  ms_schemaVersion : string;
  ms_storageRoute : string;
  ms_accessLabels : list string;
  ms_mentionedEntities : list string;
  ms_tags : list string;
  ms_tagReasons : list string;
}.

Record ContextAtomMeta : Type := mkAtom {
  ca_key : string;
  ca_value : string;
  ca_type : string;
  ca_status : string;
  ca_source : string;
  ca_invalidatedBy : string;
  ca_tab : string;
  ca_schemaName : string;
  ca_schemaVersion : string;
  ca_accessLabels : list string;
  ca_tags : list string;
  ca_extractorRule : string;
  ca_extractorConfidence : string;
  ca_sourceStart : Z;
  ca_sourceEnd : Z;
  ca_originalSnippet : string;
}.

Record ContextTabAliasMeta : Type := mkTabAlias {
  ta_alias : string;
  ta_target : string;
}.

Record ConversationContextMeta : Type := mkContext {
  cx_name : string;
  cx_messages : list ContextMessageMeta;
  cx_atoms : list ContextAtomMeta;
  cx_tabAliases : list ContextTabAliasMeta;
}.

#[global] Instance ColumnMeta_eq_dec : EqDecision ColumnMeta.
Proof. solve_decision. Defined.
#[global] Instance TableMeta_eq_dec : EqDecision TableMeta.
Proof. solve_decision. Defined.

(** Class [Catalog].  [revision_] is a 64-bit counter. *)
Record Catalog : Type := mkCatalog {
  tables : gmap string TableMeta;
  snapshots : gmap string DatasetSnapshotMeta;
  contexts : gmap string ConversationContextMeta;
  revision_ : Z;
  schemaFingerprint_ : Z;
}.

Definition emptyCatalog : Catalog := mkCatalog ∅ ∅ ∅ 0 kFnv1a64OffsetBasis.

(** ** Sorting of the names: [std::sort] on [std::string] *)

Definition string_le (s t : string) : Prop := bytes_compare (bytes_of s) (bytes_of t) ≠ Gt.

#[global] Instance string_le_dec s t : Decision (string_le s t).
Proof. unfold string_le. apply _. Defined.

Definition sortedNames {A} (m : gmap string A) : list string :=
  merge_sort string_le (map fst (map_to_list m)).

Definition tableNames (c : Catalog) : list string := map fst (map_to_list (tables c)).
Definition snapshotNames (c : Catalog) : list string := map fst (map_to_list (snapshots c)).
Definition contextNames (c : Catalog) : list string := map fst (map_to_list (contexts c)).

(** ** The fingerprint

    [append] of [recomputeFingerprint]; the [_fields] functions list the
    arguments of its calls in order. *)

Definition append (hash : Z) (value : string) : Z :=
  fnv1a64AppendByte (fnv1a64Append hash (bytes_of value)) kFnv1a64FieldSeparator.

Definition flag (b : bool) : string := if b then "1" else "0".

Definition column_fields (c : ColumnMeta) : list string :=
  [cm_name c; cm_type c; flag (cm_primary_key c); flag (cm_not_null c);
   cm_fk_table c; cm_fk_col c].

Definition table_fields (t : TableMeta) : list string :=
  concat (map column_fields (t_columns t)).

Definition feature_fields (f : SnapshotFeatureMeta) : list string :=
  [sf_name f; sf_spec f].

Definition snapshot_fields (s : DatasetSnapshotMeta) : list string :=
  [ds_queryText s; ds_sourceTable s; ds_schemaFingerprint s; ds_tableVersion s;
   ds_splitBy s; dec_unsigned (ds_seed s)] ++
  concat (map feature_fields (ds_features s)) ++
  feature_fields (ds_label s) ++
  [dec_unsigned (Z.of_nat (length (ds_rows s)))].

Definition message_fields (msg : ContextMessageMeta) : list string :=
  [dec_unsigned (ms_id msg); ms_speaker msg; ms_text msg; ms_tab msg] ++
  ms_tags msg ++ ms_tagReasons msg.

Definition atom_fields (a : ContextAtomMeta) : list string :=
  [ca_key a; ca_value a; ca_type a; ca_status a; ca_source a; ca_invalidatedBy a;
   ca_tab a] ++ ca_tags a ++
  [ca_extractorRule a; ca_extractorConfidence a; dec_unsigned (ca_sourceStart a);
   dec_unsigned (ca_sourceEnd a); ca_originalSnippet a].

Definition alias_fields (a : ContextTabAliasMeta) : list string :=
  [ta_alias a; ta_target a].

Definition context_fields (c : ConversationContextMeta) : list string :=
  concat (map message_fields (cx_messages c)) ++
  concat (map atom_fields (cx_atoms c)) ++
  concat (map alias_fields (cx_tabAliases c)).

(** The loop over the sorted names of one map: the name, then the fields of
    the entry ([tables.at(name)]). *)
Definition section_fields {A} (fields : A → list string) (m : gmap string A)
    : list string :=
  concat (map (λ name, name :: default [] (fields <$> m !! name)) (sortedNames m)).

Definition catalog_fields (ts : gmap string TableMeta)
    (ss : gmap string DatasetSnapshotMeta) (cs : gmap string ConversationContextMeta)
    : list string :=
  section_fields table_fields ts ++ section_fields snapshot_fields ss ++
  section_fields context_fields cs.

Definition fingerprint_of (fields : list string) : Z :=
  fold_left append fields kFnv1a64OffsetBasis.

Definition recomputeFingerprint (c : Catalog) : Catalog :=
  mkCatalog (tables c) (snapshots c) (contexts c) (revision_ c)
    (fingerprint_of (catalog_fields (tables c) (snapshots c) (contexts c))).

(** ** Operations *)

Definition set_tables (c : Catalog) (ts : gmap string TableMeta) : Catalog :=
  mkCatalog ts (snapshots c) (contexts c) (revision_ c) (schemaFingerprint_ c).
Definition set_snapshots (c : Catalog) (ss : gmap string DatasetSnapshotMeta) : Catalog :=
  mkCatalog (tables c) ss (contexts c) (revision_ c) (schemaFingerprint_ c).
Definition set_contexts (c : Catalog) (cs : gmap string ConversationContextMeta) : Catalog :=
  mkCatalog (tables c) (snapshots c) cs (revision_ c) (schemaFingerprint_ c).

(** [++revision_; recomputeFingerprint();] *)
Definition touch (c : Catalog) : Catalog :=
  recomputeFingerprint
    (mkCatalog (tables c) (snapshots c) (contexts c) (wrap64 (revision_ c + 1))
       (schemaFingerprint_ c)).

Definition addTable (c : Catalog) (table : TableMeta) : Catalog :=
  touch (set_tables c (<[t_name table := table]> (tables c))).

Definition hasTable (c : Catalog) (name : string) : bool :=
  bool_decide (is_Some (tables c !! name)).
Definition getTable (c : Catalog) (name : string) : option TableMeta := tables c !! name.

Definition removeTable (c : Catalog) (name : string) : Catalog :=
  if hasTable c name then
    let c := set_tables c (delete name (tables c)) in
    touch (set_snapshots c
             (filter (λ kv, ds_sourceTable kv.2 ≠ name) (snapshots c)))
  else c.

Definition addSnapshot (c : Catalog) (s : DatasetSnapshotMeta) : Catalog :=
  touch (set_snapshots c (<[ds_name s := s]> (snapshots c))).

Definition hasSnapshot (c : Catalog) (name : string) : bool :=
  bool_decide (is_Some (snapshots c !! name)).
Definition getSnapshot (c : Catalog) (name : string) : option DatasetSnapshotMeta :=
  snapshots c !! name.

Definition removeSnapshot (c : Catalog) (name : string) : Catalog :=
  if hasSnapshot c name then touch (set_snapshots c (delete name (snapshots c))) else c.

Definition addContext (c : Catalog) (x : ConversationContextMeta) : Catalog :=
  touch (set_contexts c (<[cx_name x := x]> (contexts c))).

Definition hasContext (c : Catalog) (name : string) : bool :=
  bool_decide (is_Some (contexts c !! name)).
Definition getContext (c : Catalog) (name : string) : option ConversationContextMeta :=
  contexts c !! name.

Definition removeContext (c : Catalog) (name : string) : Catalog :=
  if hasContext c name then touch (set_contexts c (delete name (contexts c))) else c.

Definition quote : string := "'".

Definition validateColumnRef (c : Catalog) (table col : string) : string :=
  if bool_decide (table = "") then ""
  else match getTable c table with
  | None => "Unknown table: " +:+ table
  | Some metadata =>
      if existsb (λ column, bool_decide (cm_name column = col)) (t_columns metadata)
      then ""
      else "Column '" +:+ col +:+ "' not found in table '" +:+ table +:+ quote
  end.

(** The calls that change the catalog. *)
Inductive catalog_op : Type :=
  | AddTable (t : TableMeta)
  | RemoveTable (name : string)
  | AddSnapshot (s : DatasetSnapshotMeta)
  | RemoveSnapshot (name : string)
  | AddContext (x : ConversationContextMeta)
  | RemoveContext (name : string).

Definition catalog_step (c : Catalog) (op : catalog_op) : Catalog :=
  match op with
  | AddTable t => addTable c t
  | RemoveTable name => removeTable c name
  | AddSnapshot s => addSnapshot c s
  | RemoveSnapshot name => removeSnapshot c name
  | AddContext x => addContext c x
  | RemoveContext name => removeContext c name
  end.

(** ** Sorted names *)

#[export] Instance string_le_total : Total string_le.
Proof.
  intros s t. unfold string_le. rewrite (bytes_compare_antisym (bytes_of s)).
  destruct (bytes_compare (bytes_of s) (bytes_of t)); simpl; auto.
Qed.

#[export] Instance string_le_trans : Transitive string_le.
Proof. intros s t u. unfold string_le. apply bytes_compare_le_trans. Qed.

#[export] Instance string_le_antisym : AntiSymm (=) string_le.
Proof.
  intros s t. unfold string_le. rewrite (bytes_compare_antisym (bytes_of s)).
  destruct (bytes_compare (bytes_of s) (bytes_of t)) eqn:E; simpl; try done.
  intros _ _. apply bytes_compare_eq in E.
  by rewrite <- (string_of_bytes_of s), E, string_of_bytes_of.
Qed.

Lemma string_le_app r s t : string_le s t → string_le (r +:+ s) (r +:+ t).
Proof.
  unfold string_le, bytes_of. induction r as [|ch r IH]; [done|]. intros H.
  rewrite !string_app_cons. cbn. rewrite Z.compare_refl. by apply IH.
Qed.

Lemma sortedNames_elem {A} (m : gmap string A) name :
  name ∈ sortedNames m ↔ is_Some (m !! name).
Proof.
  unfold sortedNames. rewrite merge_sort_Permutation. change map with (@fmap list _).
  rewrite list_elem_of_fmap. split.
  - intros ([k a] & -> & H). apply elem_of_map_to_list in H. by eexists.
  - intros [a H]. exists (name, a). by rewrite elem_of_map_to_list.
Qed.

Lemma sortedNames_NoDup {A} (m : gmap string A) : NoDup (sortedNames m).
Proof.
  unfold sortedNames. rewrite merge_sort_Permutation. apply NoDup_fst_map_to_list.
Qed.

Lemma sortedNames_Sorted {A} (m : gmap string A) : Sorted string_le (sortedNames m).
Proof. apply Sorted_merge_sort. apply _. Qed.

(** The sorted names depend on the set of keys only. *)
Lemma sortedNames_dom {A B} (m1 : gmap string A) (m2 : gmap string B) :
  (∀ k, is_Some (m1 !! k) ↔ is_Some (m2 !! k)) → sortedNames m1 = sortedNames m2.
Proof.
  intros H. apply (Sorted_unique string_le); [apply sortedNames_Sorted..|].
  apply NoDup_Permutation; [apply sortedNames_NoDup..|].
  intros k. by rewrite !sortedNames_elem.
Qed.

(** Replacing an entry replaces its fields and nothing else. *)
Lemma section_fields_replace {A} (f : A → list string) (m : gmap string A) k a :
  m !! k = Some a →
  ∃ l r, ∀ a', section_fields f (<[k := a']> m) = l ++ (k :: f a') ++ r.
Proof.
  intros Hk.
  assert (k ∈ sortedNames m) as Hin by (apply sortedNames_elem; eauto).
  apply list_elem_of_split in Hin as (l & r & Hlr).
  pose proof (sortedNames_NoDup m) as Hnd. rewrite Hlr in Hnd.
  apply NoDup_app in Hnd as (_ & Hl & Hr). apply NoDup_cons in Hr as [Hr _].
  set (g := λ name, name :: default [] (f <$> m !! name)).
  exists (concat (map g l)), (concat (map g r)). intros a'. unfold section_fields.
  rewrite (sortedNames_dom (<[k:=a']> m) m).
  2:{ intros j. destruct (decide (j = k)) as [->|Hj];
        [rewrite lookup_insert_eq, Hk | rewrite lookup_insert_ne by done];
        split; eauto. }
  rewrite Hlr, map_app, concat_app. cbn. rewrite lookup_insert_eq. cbn.
  f_equal; [|do 2 f_equal]; f_equal; apply map_ext_in; intros j Hj;
    apply list_elem_of_In in Hj; unfold g; rewrite lookup_insert_ne; try done;
    intros ->; [by apply (Hl j); [|apply list_elem_of_here] | done].
Qed.

(** ** The running fingerprint *)

Lemma append_u64 h s : u64 h → u64 (append h s).
Proof. intros H. unfold append. auto with machine. Qed.

Lemma fold_append_u64 l h : u64 h → u64 (fold_left append l h).
Proof. revert h. induction l; cbn; auto using append_u64. Qed.

Lemma fnv1a64AppendByte_inj_hash h1 h2 b :
  u64 h1 → u64 h2 → fnv1a64AppendByte h1 b = fnv1a64AppendByte h2 b → h1 = h2.
Proof. intros H1 H2 E. by apply (fnv1a64Append_inj h1 h2 [b]). Qed.

Lemma fnv1a64AppendByte_inj_byte h b1 b2 :
  u64 h → fnv1a64AppendByte h b1 = fnv1a64AppendByte h b2 → b1 = b2.
Proof.
  intros Hh E. unfold fnv1a64AppendByte in E.
  apply (f_equal (λ x, wrap64 (x * fnvPrimeInverse))) in E.
  assert (∀ b, u64 (Z.lxor h (byte.unsigned b))) as Hb.
  { intros b. apply lxor_uint; [lia|done|]. apply (uint_le 8); [lia|apply byte_uint]. }
  rewrite !wrap64_mul_inverse in E by (reflexivity || auto).
  apply byte.unsigned_inj.
  apply (f_equal (Z.lxor h)) in E. rewrite <- !Z.lxor_assoc, Z.lxor_nilpotent in E.
  by rewrite !Z.lxor_0_l in E.
Qed.

Lemma append_inj_hash h1 h2 s : u64 h1 → u64 h2 → append h1 s = append h2 s → h1 = h2.
Proof.
  intros H1 H2 E. apply fnv1a64AppendByte_inj_hash in E; auto with machine.
  by apply fnv1a64Append_inj in E.
Qed.

Lemma fold_append_inj l h1 h2 :
  u64 h1 → u64 h2 → fold_left append l h1 = fold_left append l h2 → h1 = h2.
Proof.
  revert h1 h2. induction l as [|s l IH]; cbn; [done|]. intros h1 h2 H1 H2 E.
  apply IH in E; [|by apply append_u64..]. by apply append_inj_hash in E.
Qed.

Lemma append_inj_char h c1 c2 :
  u64 h → append h (String c1 "") = append h (String c2 "") → c1 = c2.
Proof.
  intros Hh E. apply fnv1a64AppendByte_inj_hash in E; [|auto with machine..].
  cbn in E. apply fnv1a64AppendByte_inj_byte in E; [|done].
  by rewrite <- (Ascii.ascii_of_byte_of_ascii c1), E, Ascii.ascii_of_byte_of_ascii.
Qed.

Lemma offset_u64 : u64 kFnv1a64OffsetBasis.
Proof. split; [done|reflexivity]. Qed.

(** A one-character field that changes changes the fingerprint. *)
Lemma fingerprint_field l r c1 c2 :
  fingerprint_of (l ++ String c1 "" :: r) = fingerprint_of (l ++ String c2 "" :: r) →
  c1 = c2.
Proof.
  unfold fingerprint_of. rewrite !fold_left_app. cbn [fold_left]. intros E.
  pose proof (fold_append_u64 l _ offset_u64).
  apply fold_append_inj in E; [|by apply append_u64..]. by apply append_inj_char in E.
Qed.

Lemma fingerprint_flag l r b :
  fingerprint_of (l ++ flag b :: r) ≠ fingerprint_of (l ++ flag (negb b) :: r).
Proof. intros E. destruct b; apply fingerprint_field in E; discriminate E. Qed.

(** ** The invariant *)

Record catalog_ok (c : Catalog) : Prop := {
  ok_tables : ∀ k t, tables c !! k = Some t → t_name t = k;
  ok_snapshots : ∀ k s, snapshots c !! k = Some s → ds_name s = k;
  ok_contexts : ∀ k x, contexts c !! k = Some x → cx_name x = k;
  ok_revision : u64 (revision_ c);
  ok_fingerprint : schemaFingerprint_ c =
    fingerprint_of (catalog_fields (tables c) (snapshots c) (contexts c));
}.

Lemma emptyCatalog_ok : catalog_ok emptyCatalog.
Proof.
  split; cbn; try (intros k x; rewrite lookup_empty; discriminate).
  - split; [done|reflexivity].
  - reflexivity.
Qed.

Lemma keyed_insert {A} (key : A → string) (m : gmap string A) a :
  (∀ k x, m !! k = Some x → key x = k) →
  ∀ k x, <[key a := a]> m !! k = Some x → key x = k.
Proof. intros H k x [[<- <-]|[_ Hx]]%lookup_insert_Some; eauto. Qed.

Lemma keyed_delete {A} (key : A → string) (m : gmap string A) j :
  (∀ k x, m !! k = Some x → key x = k) →
  ∀ k x, delete j m !! k = Some x → key x = k.
Proof. intros H k x [_ Hx]%lookup_delete_Some; eauto. Qed.

Lemma touch_ok ts ss cs r h :
  (∀ k t, ts !! k = Some t → t_name t = k) →
  (∀ k s, ss !! k = Some s → ds_name s = k) →
  (∀ k x, cs !! k = Some x → cx_name x = k) →
  catalog_ok (touch (mkCatalog ts ss cs r h)).
Proof. split; cbn; eauto. by apply wrap_uint. Qed.

Lemma catalog_step_ok c op : catalog_ok c → catalog_ok (catalog_step c op).
Proof.
  intros [Ht Hs Hx Hr Hf]. assert (catalog_ok c) as Hc by done.
  destruct op; cbn; unfold removeTable, removeSnapshot, removeContext;
    try case_match; try done; apply touch_ok; cbn;
    eauto using keyed_insert, keyed_delete.
  intros k s [Hk _]%map_lookup_filter_Some. eauto.
Qed.

Lemma catalog_run_ok ops c : catalog_ok c → catalog_ok (fold_left catalog_step ops c).
Proof. revert c. induction ops; cbn; auto using catalog_step_ok. Qed.

(** A snapshot that survives is one that did not depend on the table. *)
Lemma removeTable_snapshots c name k :
  hasTable c name = true →
  snapshots (removeTable c name) !! k =
    match snapshots c !! k with
    | Some s => if decide (ds_sourceTable s = name) then None else Some s
    | None => None
    end.
Proof.
  intros H. unfold removeTable. rewrite H. cbn.
  destruct (snapshots c !! k) as [s|] eqn:E.
  - case_decide as Hn.
    + apply map_lookup_filter_None. right. intros s' Hs'. rewrite E in Hs'.
      injection Hs' as <-. cbn. by intros [].
    + apply map_lookup_filter_Some. by rewrite E.
  - apply map_lookup_filter_None. by left.
Qed.

(** C27: Whatever calls the engine makes, in whatever order, every table,
    snapshot and conversation context is stored under its own name and the
    stored fingerprint is the one of the present contents; dropping a table
    removes it and every dataset snapshot taken of it, and no other table,
    snapshot or context. *)
Theorem catalog_reachable_ok (ops : list catalog_op) (name : string) :
  let c := fold_left catalog_step ops emptyCatalog in
  catalog_ok c ∧
  tables (removeTable c name) = delete name (tables c) ∧
  contexts (removeTable c name) = contexts c ∧
  (hasTable c name = false → removeTable c name = c) ∧
  (hasTable c name = true → ∀ k s,
     snapshots (removeTable c name) !! k = Some s ↔
     snapshots c !! k = Some s ∧ ds_sourceTable s ≠ name).
Proof.
  intros c. split; [apply catalog_run_ok, emptyCatalog_ok|].
  split; [|split; [|split]]; [unfold removeTable; destruct (hasTable c name) eqn:E; cbn; try done..| |].
  - unfold hasTable in E. rewrite bool_decide_eq_false, <- eq_None_not_Some in E.
    by rewrite delete_id.
  - unfold removeTable. by intros ->.
  - intros H k s. rewrite removeTable_snapshots by done.
    destruct (snapshots c !! k) as [s'|]; [case_decide|]; naive_solver.
Qed.

(** ** Constraints and the fingerprint *)

Definition toggle_primary_key (c : ColumnMeta) : ColumnMeta :=
  mkColumnMeta (cm_name c) (cm_type c) (negb (cm_primary_key c)) (cm_not_null c)
    (cm_fk_table c) (cm_fk_col c).

Definition toggle_not_null (c : ColumnMeta) : ColumnMeta :=
  mkColumnMeta (cm_name c) (cm_type c) (cm_primary_key c) (negb (cm_not_null c))
    (cm_fk_table c) (cm_fk_col c).

(** The fingerprint of the catalog around one column. *)
Lemma column_context c name t pre col post :
  tables c !! name = Some t → t_columns t = pre ++ col :: post →
  ∃ l r, ∀ t', t_name t' = name → ∀ col', t_columns t' = pre ++ col' :: post →
    schemaFingerprint_ (addTable c t') = fingerprint_of (l ++ column_fields col' ++ r).
Proof.
  intros Ht Hcols.
  destruct (section_fields_replace table_fields _ _ _ Ht) as (l & r & Hlr).
  exists (l ++ name :: concat (map column_fields pre)),
    (concat (map column_fields post) ++ r ++
     section_fields snapshot_fields (snapshots c) ++
     section_fields context_fields (contexts c)).
  intros t' Hn col' Hc'. cbn. f_equal. unfold catalog_fields.
  rewrite Hn, Hlr. unfold table_fields. rewrite Hc', map_app, concat_app.
  change (column_fields col') with (column_fields col' ++ []).
  by do 3 (rewrite <- ?app_assoc; cbn).
Qed.

Lemma addTable_same c name t :
  catalog_ok c → tables c !! name = Some t →
  schemaFingerprint_ (addTable c t) = schemaFingerprint_ c.
Proof.
  intros Hc Ht. cbn. rewrite (ok_tables c Hc name t Ht), insert_id by done.
  symmetry. apply (ok_fingerprint c Hc).
Qed.

(** The fingerprint that keys the compilation cache is certain to notice a
    changed constraint: replacing a table by one that differs in a single
    PRIMARY KEY or NOT NULL flag always gives another fingerprint, so a plan
    the optimizer simplified because of that flag is not found again. *)
Theorem fingerprint_notices_constraint c name t pre col post :
  catalog_ok c → tables c !! name = Some t → t_columns t = pre ++ col :: post →
  schemaFingerprint_ (addTable c (mkTableMeta name (pre ++ toggle_primary_key col :: post)))
    ≠ schemaFingerprint_ c ∧
  schemaFingerprint_ (addTable c (mkTableMeta name (pre ++ toggle_not_null col :: post)))
    ≠ schemaFingerprint_ c.
Proof.
  intros Hc Ht Hcols. rewrite <- !(addTable_same c name t Hc Ht).
  destruct (column_context c name t pre col post Ht Hcols) as (l & r & H).
  rewrite (H t (ok_tables c Hc name t Ht) col Hcols), !(H (mkTableMeta _ _) eq_refl _ eq_refl).
  destruct col as [n ty pk nn ft fc]. unfold column_fields. cbn.
  split; apply not_eq_sym.
  - pose proof (fingerprint_flag (l ++ [n; ty]) (flag nn :: ft :: fc :: r) pk) as E.
    by rewrite <- !app_assoc in E.
  - pose proof (fingerprint_flag (l ++ [n; ty; flag pk]) (ft :: fc :: r) nn) as E.
    by rewrite <- !app_assoc in E.
Qed.

Lemma fingerprint_notices_constraint_witness :
  let col := mkColumnMeta "id" "INTEGER" true true "" "" in
  let c := addTable emptyCatalog (mkTableMeta "t" [col]) in
  schemaFingerprint_ (addTable c (mkTableMeta "t" [toggle_not_null col]))
    ≠ schemaFingerprint_ c.
Proof.
  intros col c.
  apply (fingerprint_notices_constraint c "t" (mkTableMeta "t" [col]) [] col []).
  - apply (catalog_step_ok emptyCatalog (AddTable (mkTableMeta "t" [col]))), emptyCatalog_ok.
  - reflexivity.
  - reflexivity.
Defined.
