(* ===== verification/CatalogJson.v ===== *)
(** The catalog file: [escapeJson], the [JsonReader] class, [Catalog::load] and
    [Catalog::save] of [src/metadata.cpp].  A reader takes the text from [pos_]
    on and returns the text it leaves.  The loops and the recursion of the
    reader are bounded by a fuel that the text's own length covers
    ([parseCatalog_total]); what [save] writes, [load] reads back. *)

From S2P Require Import Prelude.
From S2P Require Import Format.
From S2P Require Import Catalog.

Definition dq : ascii := "034".
Definition backslash : ascii := "092".

(** ** Writing *)

Definition hex_char (n : Z) : ascii :=
  default "0"%char (String.get (Z.to_nat n) "0123456789abcdef").

Definition escape_char (ch : ascii) : string :=
  let short (c : ascii) := String backslash (String c "") in
  if decide (ch = dq) then short dq
  else if decide (ch = backslash) then short backslash
  else if decide (code ch = 8) then short "b"%char
  else if decide (code ch = 12) then short "f"%char
  else if decide (code ch = 10) then short "n"%char
  else if decide (code ch = 13) then short "r"%char
  else if decide (code ch = 9) then short "t"%char
  else if decide (code ch < 32) then
    short "u"%char +:+ "00" +:+
    String (hex_char (Z.land (Z.shiftr (code ch) 4) 15))
      (String (hex_char (Z.land (code ch) 15)) "")
  else String ch "".

Fixpoint escapeJson (value : string) : string :=
  match value with
  | EmptyString => ""
  | String ch value => escape_char ch +:+ escapeJson value
  end.

Definition newline : string := String "010" "".

(** A text between double quotes, escaped, and the name of a member. *)
Definition quoted (value : string) : string :=
  String dq "" +:+ escapeJson value +:+ String dq "".
Definition key (name : string) : string := quoted name +:+ ": ".

(** [for (index ...) out << (index == 0 ? first : next) << item] *)
Fixpoint items_after {A} (next : string) (print : A → string) (l : list A) : string :=
  match l with
  | [] => ""
  | x :: l => next +:+ print x +:+ items_after next print l
  end.

Definition items {A} (first next : string) (print : A → string) (l : list A) : string :=
  match l with
  | [] => ""
  | x :: l => first +:+ print x +:+ items_after next print l
  end.

Definition closing {A} (indent : string) (l : list A) : string :=
  match l with [] => "" | _ :: _ => newline +:+ indent end.

Definition writeJsonStringArray (values : list string) : string :=
  "[" +:+ items "" ", " quoted values +:+ "]".

(** The arrays of objects: one per line, indented by eight. *)
Definition object_array {A} (print : A → string) (l : list A) : string :=
  "[" +:+ items (newline +:+ "        ") ("," +:+ newline +:+ "        ") print l +:+
  closing "      " l +:+ "]".

Definition print_bool (b : bool) : string := if b then "true" else "false".

Definition print_column (c : ColumnMeta) : string :=
  "{" +:+ key "name" +:+ quoted (cm_name c) +:+ ", " +:+
  key "type" +:+ quoted (cm_type c) +:+ ", " +:+
  key "primary_key" +:+ print_bool (cm_primary_key c) +:+ ", " +:+
  key "not_null" +:+ print_bool (cm_not_null c) +:+ ", " +:+
  key "fk_table" +:+ quoted (cm_fk_table c) +:+ ", " +:+
  key "fk_col" +:+ quoted (cm_fk_col c) +:+ "}".

Definition print_table (t : TableMeta) : string :=
  "{" +:+ newline +:+ "      " +:+
  key "columns" +:+ object_array print_column (t_columns t) +:+
  newline +:+ "    }".

Definition print_feature (f : SnapshotFeatureMeta) : string :=
  "{" +:+ key "name" +:+ quoted (sf_name f) +:+ ", " +:+
  key "spec" +:+ quoted (sf_spec f) +:+ "}".

Definition print_row (r : SnapshotRowMeta) : string :=
  "{" +:+ key "rowid" +:+ quoted (sr_rowid r) +:+ ", " +:+
  key "split" +:+ quoted (sr_split r) +:+ "}".

Definition next_member : string := "," +:+ newline +:+ "      ".

Definition print_snapshot (s : DatasetSnapshotMeta) : string :=
  "{" +:+ newline +:+ "      " +:+
  key "query_text" +:+ quoted (ds_queryText s) +:+ next_member +:+
  key "source_table" +:+ quoted (ds_sourceTable s) +:+ next_member +:+
  key "schema_fingerprint" +:+ quoted (ds_schemaFingerprint s) +:+ next_member +:+
  key "table_version" +:+ quoted (ds_tableVersion s) +:+ next_member +:+
  key "split_by" +:+ quoted (ds_splitBy s) +:+ next_member +:+
  key "seed" +:+ dec_unsigned (ds_seed s) +:+ next_member +:+
  key "features" +:+ object_array print_feature (ds_features s) +:+ next_member +:+
  key "label" +:+ print_feature (ds_label s) +:+ next_member +:+
  key "rows" +:+ object_array print_row (ds_rows s) +:+ next_member +:+
  key "warnings" +:+ writeJsonStringArray (ds_warnings s) +:+
  newline +:+ "    }".

Definition print_message (msg : ContextMessageMeta) : string :=
  "{" +:+ key "id" +:+ dec_unsigned (ms_id msg) +:+ ", " +:+
  key "speaker" +:+ quoted (ms_speaker msg) +:+ ", " +:+
  key "text" +:+ quoted (ms_text msg) +:+ ", " +:+
  key "tab" +:+ quoted (ms_tab msg) +:+ ", " +:+
  key "schema_name" +:+ quoted (ms_schemaName msg) +:+ ", " +:+
  key "schema_version" +:+ quoted (ms_schemaVersion msg) +:+ ", " +:+
  key "storage_route" +:+ quoted (ms_storageRoute msg) +:+ ", " +:+
  key "access_labels" +:+ writeJsonStringArray (ms_accessLabels msg) +:+ ", " +:+
  key "mentioned_entities" +:+ writeJsonStringArray (ms_mentionedEntities msg) +:+ ", " +:+
  key "tags" +:+ writeJsonStringArray (ms_tags msg) +:+ ", " +:+
  key "tag_reasons" +:+ writeJsonStringArray (ms_tagReasons msg) +:+ "}".

Definition print_atom (a : ContextAtomMeta) : string :=
  "{" +:+ key "key" +:+ quoted (ca_key a) +:+ ", " +:+
  key "value" +:+ quoted (ca_value a) +:+ ", " +:+
  key "type" +:+ quoted (ca_type a) +:+ ", " +:+
  key "status" +:+ quoted (ca_status a) +:+ ", " +:+
  key "source" +:+ quoted (ca_source a) +:+ ", " +:+
  key "invalidated_by" +:+ quoted (ca_invalidatedBy a) +:+ ", " +:+
  key "tab" +:+ quoted (ca_tab a) +:+ ", " +:+
  key "schema_name" +:+ quoted (ca_schemaName a) +:+ ", " +:+
  key "schema_version" +:+ quoted (ca_schemaVersion a) +:+ ", " +:+
  key "access_labels" +:+ writeJsonStringArray (ca_accessLabels a) +:+ ", " +:+
  key "tags" +:+ writeJsonStringArray (ca_tags a) +:+ ", " +:+
  key "extractor_rule" +:+ quoted (ca_extractorRule a) +:+ ", " +:+
  key "extractor_confidence" +:+ quoted (ca_extractorConfidence a) +:+ ", " +:+
  key "source_start" +:+ dec_unsigned (ca_sourceStart a) +:+ ", " +:+
  key "source_end" +:+ dec_unsigned (ca_sourceEnd a) +:+ ", " +:+
  key "original_snippet" +:+ quoted (ca_originalSnippet a) +:+ "}".

Definition print_alias (a : ContextTabAliasMeta) : string :=
  "{" +:+ key "alias" +:+ quoted (ta_alias a) +:+ ", " +:+
  key "target" +:+ quoted (ta_target a) +:+ "}".

Definition print_context (x : ConversationContextMeta) : string :=
  "{" +:+ newline +:+ "      " +:+
  key "messages" +:+ object_array print_message (cx_messages x) +:+ next_member +:+
  key "atoms" +:+ object_array print_atom (cx_atoms x) +:+ next_member +:+
  key "tab_aliases" +:+ object_array print_alias (cx_tabAliases x) +:+
  newline +:+ "    }".

(** One of the three maps, entries in the order of their names. *)
Definition print_map {A} (print : A → string) (entries : gmap string A) : string :=
  let names := sortedNames entries in
  "{" +:+
  items (newline +:+ "    ") ("," +:+ newline +:+ "    ")
    (λ name, key name +:+ default "" (print <$> entries !! name)) names +:+
  closing "  " names +:+ "}".

Definition next_section : string := "," +:+ newline +:+ "  ".

(** The text [save] writes. *)
Definition save (c : Catalog) : string :=
  "{" +:+ newline +:+ "  " +:+
  key "tables" +:+ print_map print_table (tables c) +:+ next_section +:+
  key "snapshots" +:+ print_map print_snapshot (snapshots c) +:+ next_section +:+
  key "contexts" +:+ print_map print_context (contexts c) +:+
  newline +:+ "}" +:+ newline.

(** ** Reading *)

Inductive json_failure : Type :=
  | JsonError (what : string)
  | JsonFuel.

Abbreviation jresult := (result json_failure) (only parsing).

(** A reader of an [A]: from the text at [pos_] to the value and the text left. *)
Abbreviation reader A := (string → jresult (A * string)) (only parsing).

Fixpoint whitespace (s : string) : string :=
  match s with
  | String c s' => if isspace c then whitespace s' else s
  | EmptyString => ""
  end.

Definition consume (expected : ascii) (s : string) : bool * string :=
  match whitespace s with
  | String c s' => if decide (c = expected) then (true, s') else (false, String c s')
  | EmptyString => (false, "")
  end.

Definition expect (expected : ascii) (s : string) : jresult string :=
  match consume expected s with
  | (true, s') => Ok s'
  | (false, _) => Err (JsonError "Malformed catalog JSON")
  end.

Definition finish (s : string) : jresult unit :=
  match whitespace s with
  | EmptyString => Ok tt
  | _ => Err (JsonError "Trailing catalog JSON content")
  end.

Definition hex_value (c : ascii) : option Z :=
  if isdigit c then Some (code c - 48)
  else if in_range "a" "f" c then Some (code c - 97 + 10)
  else if in_range "A" "F" c then Some (code c - 65 + 10)
  else None.

Definition unicode_escape (a b c d : ascii) : jresult ascii :=
  match hex_value a, hex_value b, hex_value c, hex_value d with
  | Some a, Some b, Some c, Some d =>
      let value := ((a * 16 + b) * 16 + c) * 16 + d in
      if value <=? 127 then Ok (ascii_of_N (Z.to_N value))
      else Err (JsonError "Non-ASCII catalog escape is unsupported")
  | _, _, _, _ => Err (JsonError "Invalid Unicode escape")
  end.

(** The character an escape other than [u] stands for. *)
Definition short_escape (escaped : ascii) : option ascii :=
  if decide (escaped = dq) then Some dq
  else if decide (escaped = backslash) then Some backslash
  else if decide (escaped = "/"%char) then Some "/"%char
  else if decide (escaped = "b"%char) then Some "008"%char
  else if decide (escaped = "f"%char) then Some "012"%char
  else if decide (escaped = "n"%char) then Some "010"%char
  else if decide (escaped = "r"%char) then Some "013"%char
  else if decide (escaped = "t"%char) then Some "009"%char
  else None.

Definition cons_char (c : ascii) (r : jresult (string * string)) : jresult (string * string) :=
  let* (out, rest) := r in Ok (String c out, rest).

(** [parseString] after the opening quote. *)
Fixpoint string_body (s : string) : jresult (string * string) :=
  match s with
  | EmptyString => Err (JsonError "Unterminated JSON string")
  | String ch s =>
      if decide (ch = dq) then Ok ("", s)
      else if decide (ch ≠ backslash) then cons_char ch (string_body s)
      else match s with
      | EmptyString => Err (JsonError "Invalid JSON escape")
      | String escaped s =>
          if decide (escaped = "u"%char) then
            match s with
            | String a (String b (String c (String d s))) =>
                let* ch := unicode_escape a b c d in cons_char ch (string_body s)
            | _ => Err (JsonError "Invalid Unicode escape")
            end
          else match short_escape escaped with
          | Some ch => cons_char ch (string_body s)
          | None => Err (JsonError "Invalid JSON escape")
          end
      end
  end.

Definition parseString : reader string := λ s,
  match whitespace s with
  | String c s => if decide (c = dq) then string_body s
                  else Err (JsonError "Expected JSON string")
  | EmptyString => Err (JsonError "Expected JSON string")
  end.

(** [strip_prefix p s]: [text_.compare(pos_, p.size(), p) == 0], then the text
    after it. *)
Fixpoint strip_prefix (p s : string) : option string :=
  match p, s with
  | EmptyString, _ => Some s
  | String a p, String b s => if decide (a = b) then strip_prefix p s else None
  | _, _ => None
  end.

Definition parseBool : reader bool := λ s,
  let s := whitespace s in
  match strip_prefix "true" s, strip_prefix "false" s with
  | Some s, _ => Ok (true, s)
  | None, Some s => Ok (false, s)
  | None, None => Err (JsonError "Expected JSON boolean")
  end.

Definition parseUnsigned : reader Z := λ s,
  match span_digits (whitespace s) with
  | (EmptyString, _) => Err (JsonError "Expected JSON integer")
  | (digits, rest) =>
      match stoull digits with
      | Ok value => Ok (value, rest)
      | Err _ => Err (JsonError "stoull")
      end
  end.

(** [CatalogData] *)
Abbreviation catalog_data :=
  (gmap string TableMeta * gmap string DatasetSnapshotMeta *
   gmap string ConversationContextMeta)%type (only parsing).

(** An alias without a name or a target is not kept. *)
Definition complete_alias (a : ContextTabAliasMeta) : Prop :=
  ta_alias a ≠ "" ∧ ta_target a ≠ "".
#[global] Instance complete_alias_dec a : Decision (complete_alias a).
Proof. unfold complete_alias. apply _. Defined.

Section Reader.
Context (fuel : nat).

(** [do { result.push_back(element); } while (consume(','));] *)
Fixpoint elements_loop {A} (n : nat) (element : reader A) : reader (list A) := λ s,
  match n with
  | O => Err JsonFuel
  | S n =>
      let* (x, s) := element s in
      match consume "," s with
      | (true, s) => let* (xs, s) := elements_loop n element s in Ok (x :: xs, s)
      | (false, s) => Ok ([x], s)
      end
  end.

Definition parseArray {A} (element : reader A) : reader (list A) := λ s,
  let* s := expect "[" s in
  match consume "]" s with
  | (true, s) => Ok ([], s)
  | (false, s) =>
      let* (xs, s) := elements_loop fuel element s in
      let* s := expect "]" s in
      Ok (xs, s)
  end.

Definition parseStringArray : reader (list string) := parseArray parseString.

(** [do { key = parseString(); expect(':'); ... } while (consume(','));] *)
Fixpoint members_loop {A} (n : nat) (member : string → A → reader A) (a : A) : reader A :=
  λ s,
  match n with
  | O => Err JsonFuel
  | S n =>
      let* (name, s) := parseString s in
      let* s := expect ":" s in
      let* (a, s) := member name a s in
      match consume "," s with
      | (true, s) => members_loop n member a s
      | (false, s) => Ok (a, s)
      end
  end.

(** [expect('{'); if (!consume('}')) { members; expect('}'); }], with whether
    there were members. *)
Definition parseMembers {A} (member : string → A → reader A) (a : A) : reader (bool * A) :=
  λ s,
  let* s := expect "{" s in
  match consume "}" s with
  | (true, s) => Ok ((false, a), s)
  | (false, s) =>
      let* (a, s) := members_loop fuel member a s in
      let* s := expect "}" s in
      Ok ((true, a), s)
  end.

Definition parseObject {A} (member : string → A → reader A) (a : A) : reader A := λ s,
  let* ((_, a), s) := parseMembers member a s in Ok (a, s).

(** The bare word of [skipValue]: up to white space or a closing character. *)
Fixpoint skip_word (s : string) : string :=
  match s with
  | String c s' =>
      if isspace c || bool_decide (c = ","%char) || bool_decide (c = "}"%char)
         || bool_decide (c = "]"%char)
      then s else skip_word s'
  | EmptyString => ""
  end.

Fixpoint skip_value (n : nat) : reader unit := λ s,
  match n with
  | O => Err JsonFuel
  | S n =>
      match whitespace s with
      | EmptyString => Err (JsonError "Missing JSON value")
      | String ch rest as s =>
          if decide (ch = dq) then let* (_, s) := parseString s in Ok (tt, s)
          else if decide (ch = "{"%char) then
            match consume "}" rest with
            | (true, s) => Ok (tt, s)
            | (false, s) =>
                let* (_, s) := members_loop fuel (λ _ _, skip_value n) tt s in
                let* s := expect "}" s in
                Ok (tt, s)
            end
          else if decide (ch = "["%char) then
            match consume "]" rest with
            | (true, s) => Ok (tt, s)
            | (false, s) =>
                let* (_, s) := elements_loop fuel (skip_value n) s in
                let* s := expect "]" s in
                Ok (tt, s)
            end
          else if decide (skip_word s = s) then Err (JsonError "Invalid JSON value")
          else Ok (tt, skip_word s)
      end
  end.

Definition skipValue : reader unit := skip_value fuel.

(** A member whose value goes through [r] and is stored by [put], and one that
    is skipped. *)
Definition store {A B} (r : reader B) (put : B → A) : reader A := λ s,
  let* (b, s) := r s in Ok (put b, s).
Definition ignore {A} (a : A) : reader A := store skipValue (λ _, a).

Open Scope string_scope.

Definition column_member (name : string) (c : ColumnMeta) : reader ColumnMeta :=
  let '(mkColumnMeta n ty pk nn ft fc) := c in
  if name =? "name" then store parseString (λ v, mkColumnMeta v ty pk nn ft fc)
  else if name =? "type" then store parseString (λ v, mkColumnMeta n v pk nn ft fc)
  else if name =? "primary_key" then store parseBool (λ v, mkColumnMeta n ty v nn ft fc)
  else if name =? "not_null" then store parseBool (λ v, mkColumnMeta n ty pk v ft fc)
  else if name =? "fk_table" then store parseString (λ v, mkColumnMeta n ty pk nn v fc)
  else if name =? "fk_col" then store parseString (λ v, mkColumnMeta n ty pk nn ft v)
  else ignore c.

Definition parseColumn : reader ColumnMeta := λ s,
  let* ((some, c), s) :=
    parseMembers column_member (mkColumnMeta "" "" false false "" "") s in
  if some && bool_decide (cm_type c = "") then
    Ok (mkColumnMeta (cm_name c) "TEXT" (cm_primary_key c) (cm_not_null c)
          (cm_fk_table c) (cm_fk_col c), s)
  else Ok (c, s).

Definition parseColumns : reader (list ColumnMeta) := parseArray parseColumn.

Definition table_member (name : string) (t : TableMeta) : reader TableMeta :=
  let '(mkTableMeta n cols) := t in
  if name =? "columns" then store parseColumns (λ v, mkTableMeta n v)
  else ignore t.

Definition parseTable (name : string) : reader TableMeta :=
  parseObject table_member (mkTableMeta name []).

(** [result[name] = parse(name)] for every member. *)
Definition parseMap {A} (entry : string → reader A) : reader (gmap string A) :=
  parseObject (λ name m, store (entry name) (λ v, <[name := v]> m)) ∅.

Definition parseTables : reader (gmap string TableMeta) := parseMap parseTable.

Definition feature_member (name : string) (f : SnapshotFeatureMeta)
    : reader SnapshotFeatureMeta :=
  let '(mkSnapshotFeature n sp) := f in
  if name =? "name" then store parseString (λ v, mkSnapshotFeature v sp)
  else if name =? "spec" then store parseString (λ v, mkSnapshotFeature n v)
  else ignore f.

Definition parseFeature : reader SnapshotFeatureMeta :=
  parseObject feature_member (mkSnapshotFeature "" "").
Definition parseFeatures : reader (list SnapshotFeatureMeta) := parseArray parseFeature.

Definition row_member (name : string) (r : SnapshotRowMeta) : reader SnapshotRowMeta :=
  let '(mkSnapshotRow i sp) := r in
  if name =? "rowid" then store parseString (λ v, mkSnapshotRow v sp)
  else if name =? "split" then store parseString (λ v, mkSnapshotRow i v)
  else ignore r.

Definition parseRow : reader SnapshotRowMeta :=
  parseObject row_member (mkSnapshotRow "" "").
Definition parseRows : reader (list SnapshotRowMeta) := parseArray parseRow.

Definition snapshot_member (name : string) (s : DatasetSnapshotMeta)
    : reader DatasetSnapshotMeta :=
  let '(mkSnapshotMeta n q st sf tv sb sd fs lb rs ws) := s in
  if name =? "query_text" then
    store parseString (λ v, mkSnapshotMeta n v st sf tv sb sd fs lb rs ws)
  else if name =? "source_table" then
    store parseString (λ v, mkSnapshotMeta n q v sf tv sb sd fs lb rs ws)
  else if name =? "schema_fingerprint" then
    store parseString (λ v, mkSnapshotMeta n q st v tv sb sd fs lb rs ws)
  else if name =? "table_version" then
    store parseString (λ v, mkSnapshotMeta n q st sf v sb sd fs lb rs ws)
  else if name =? "split_by" then
    store parseString (λ v, mkSnapshotMeta n q st sf tv v sd fs lb rs ws)
  else if name =? "seed" then
    store parseUnsigned (λ v, mkSnapshotMeta n q st sf tv sb v fs lb rs ws)
  else if name =? "features" then
    store parseFeatures (λ v, mkSnapshotMeta n q st sf tv sb sd v lb rs ws)
  else if name =? "label" then
    store parseFeature (λ v, mkSnapshotMeta n q st sf tv sb sd fs v rs ws)
  else if name =? "rows" then
    store parseRows (λ v, mkSnapshotMeta n q st sf tv sb sd fs lb v ws)
  else if name =? "warnings" then
    store parseStringArray (λ v, mkSnapshotMeta n q st sf tv sb sd fs lb rs v)
  else ignore s.

Definition parseSnapshot (name : string) : reader DatasetSnapshotMeta :=
  parseObject snapshot_member
    (mkSnapshotMeta name "" "" "" "" "" 0 [] (mkSnapshotFeature "" "") [] []).
Definition parseSnapshots : reader (gmap string DatasetSnapshotMeta) :=
  parseMap parseSnapshot.

Definition defaultStorageRoute : string :=
  "structured=catalog.contexts.messages; vector=ConversationMessage.content; blob=none".

Definition message_member (name : string) (msg : ContextMessageMeta)
    : reader ContextMessageMeta :=
  let '(mkMessage i sp tx tb sn sv sr al me tg tr) := msg in
  if name =? "id" then
    store parseUnsigned (λ v, mkMessage v sp tx tb sn sv sr al me tg tr)
  else if name =? "speaker" then
    store parseString (λ v, mkMessage i v tx tb sn sv sr al me tg tr)
  else if name =? "text" then
    store parseString (λ v, mkMessage i sp v tb sn sv sr al me tg tr)
  else if name =? "tab" then
    store parseString (λ v, mkMessage i sp tx v sn sv sr al me tg tr)
  else if name =? "schema_name" then
    store parseString (λ v, mkMessage i sp tx tb v sv sr al me tg tr)
  else if name =? "schema_version" then
    store parseString (λ v, mkMessage i sp tx tb sn v sr al me tg tr)
  else if name =? "storage_route" then
    store parseString (λ v, mkMessage i sp tx tb sn sv v al me tg tr)
  else if name =? "access_labels" then
    store parseStringArray (λ v, mkMessage i sp tx tb sn sv sr v me tg tr)
  else if name =? "mentioned_entities" then
    store parseStringArray (λ v, mkMessage i sp tx tb sn sv sr al v tg tr)
  else if name =? "tags" then
    store parseStringArray (λ v, mkMessage i sp tx tb sn sv sr al me v tr)
  else if name =? "tag_reasons" then
    store parseStringArray (λ v, mkMessage i sp tx tb sn sv sr al me tg v)
  else ignore msg.

(** [if (text.empty()) text = fallback;] *)
Definition or_default (text fallback : string) : string :=
  if decide (text = "") then fallback else text.

Definition normalizeMessage (msg : ContextMessageMeta) : ContextMessageMeta :=
  mkMessage (ms_id msg) (ms_speaker msg) (ms_text msg) (or_default (ms_tab msg) "main")
    (or_default (ms_schemaName msg) "ConversationMessage")
    (or_default (ms_schemaVersion msg) "v1")
    (or_default (ms_storageRoute msg) defaultStorageRoute)
    (ms_accessLabels msg) (ms_mentionedEntities msg) (ms_tags msg) (ms_tagReasons msg).

Definition parseMessage : reader ContextMessageMeta :=
  store
    (parseObject message_member
       (mkMessage 0 "" "" "" "ConversationMessage" "v1" defaultStorageRoute [] [] [] []))
    normalizeMessage.
Definition parseMessages : reader (list ContextMessageMeta) := parseArray parseMessage.

Definition atom_member (name : string) (a : ContextAtomMeta) : reader ContextAtomMeta :=
  let '(mkAtom k va ty st so iv tb sn sv al tg er ec ss se os) := a in
  if name =? "key" then
    store parseString (λ v, mkAtom v va ty st so iv tb sn sv al tg er ec ss se os)
  else if name =? "value" then
    store parseString (λ v, mkAtom k v ty st so iv tb sn sv al tg er ec ss se os)
  else if name =? "type" then
    store parseString (λ v, mkAtom k va v st so iv tb sn sv al tg er ec ss se os)
  else if name =? "status" then
    store parseString (λ v, mkAtom k va ty v so iv tb sn sv al tg er ec ss se os)
  else if name =? "source" then
    store parseString (λ v, mkAtom k va ty st v iv tb sn sv al tg er ec ss se os)
  else if name =? "invalidated_by" then
    store parseString (λ v, mkAtom k va ty st so v tb sn sv al tg er ec ss se os)
  else if name =? "tab" then
    store parseString (λ v, mkAtom k va ty st so iv v sn sv al tg er ec ss se os)
  else if name =? "schema_name" then
    store parseString (λ v, mkAtom k va ty st so iv tb v sv al tg er ec ss se os)
  else if name =? "schema_version" then
    store parseString (λ v, mkAtom k va ty st so iv tb sn v al tg er ec ss se os)
  else if name =? "access_labels" then
    store parseStringArray (λ v, mkAtom k va ty st so iv tb sn sv v tg er ec ss se os)
  else if name =? "tags" then
    store parseStringArray (λ v, mkAtom k va ty st so iv tb sn sv al v er ec ss se os)
  else if name =? "extractor_rule" then
    store parseString (λ v, mkAtom k va ty st so iv tb sn sv al tg v ec ss se os)
  else if name =? "extractor_confidence" then
    store parseString (λ v, mkAtom k va ty st so iv tb sn sv al tg er v ss se os)
  else if name =? "source_start" then
    store parseUnsigned (λ v, mkAtom k va ty st so iv tb sn sv al tg er ec v se os)
  else if name =? "source_end" then
    store parseUnsigned (λ v, mkAtom k va ty st so iv tb sn sv al tg er ec ss v os)
  else if name =? "original_snippet" then
    store parseString (λ v, mkAtom k va ty st so iv tb sn sv al tg er ec ss se v)
  else ignore a.

Definition normalizeAtom (a : ContextAtomMeta) : ContextAtomMeta :=
  mkAtom (ca_key a) (ca_value a) (ca_type a) (ca_status a) (ca_source a)
    (ca_invalidatedBy a) (or_default (ca_tab a) "main")
    (or_default (ca_schemaName a) "ContextAtom") (or_default (ca_schemaVersion a) "v1")
    (ca_accessLabels a) (ca_tags a) (ca_extractorRule a)
    (or_default (ca_extractorConfidence a) "1.00") (ca_sourceStart a) (ca_sourceEnd a)
    (ca_originalSnippet a).

Definition parseAtom : reader ContextAtomMeta :=
  store
    (parseObject atom_member
       (mkAtom "" "" "" "" "" "" "" "ContextAtom" "v1" [] [] "" "1.00" 0 0 ""))
    normalizeAtom.
Definition parseAtoms : reader (list ContextAtomMeta) := parseArray parseAtom.

Definition alias_member (name : string) (a : ContextTabAliasMeta)
    : reader ContextTabAliasMeta :=
  let '(mkTabAlias al tg) := a in
  if name =? "alias" then store parseString (λ v, mkTabAlias v tg)
  else if name =? "target" then store parseString (λ v, mkTabAlias al v)
  else ignore a.

Definition parseTabAlias : reader ContextTabAliasMeta :=
  parseObject alias_member (mkTabAlias "" "").

Definition parseTabAliases : reader (list ContextTabAliasMeta) :=
  store (parseArray parseTabAlias) (filter complete_alias).

Definition context_member (name : string) (x : ConversationContextMeta)
    : reader ConversationContextMeta :=
  let '(mkContext n ms ats als) := x in
  if name =? "messages" then store parseMessages (λ v, mkContext n v ats als)
  else if name =? "atoms" then store parseAtoms (λ v, mkContext n ms v als)
  else if name =? "tab_aliases" then store parseTabAliases (λ v, mkContext n ms ats v)
  else ignore x.

Definition parseContext (name : string) : reader ConversationContextMeta :=
  parseObject context_member (mkContext name [] [] []).
Definition parseContexts : reader (gmap string ConversationContextMeta) :=
  parseMap parseContext.

Definition catalog_member (name : string) (d : catalog_data) : reader catalog_data :=
  let '(ts, ss, cs) := d in
  if name =? "tables" then store parseTables (λ v, (v, ss, cs))
  else if name =? "snapshots" then store parseSnapshots (λ v, (ts, v, cs))
  else if name =? "contexts" then store parseContexts (λ v, (ts, ss, v))
  else ignore d.

(** An empty object is accepted without looking at what follows. *)
Definition parse_catalog (s : string) : jresult catalog_data :=
  let* ((some, d), s) := parseMembers catalog_member (∅, ∅, ∅) s in
  if some : bool then let* _ := finish s in Ok d else Ok d.
End Reader.

(** Every loop and every nesting level of the reader consumes a character. *)
Definition parseCatalog (s : string) : jresult catalog_data :=
  parse_catalog (S (String.length s)) s.

(** [load]: [file] is the content of the file, [None] when it cannot be opened.
    The entries read are added to those present; a malformed file changes
    nothing. *)
Definition load (file : option string) (c : Catalog) : Catalog :=
  match file with
  | None => c
  | Some text =>
      match parseCatalog text with
      | Ok (ts, ss, cs) =>
          touch (mkCatalog (ts ∪ tables c) (ss ∪ snapshots c) (cs ∪ contexts c)
                   (revision_ c) (schemaFingerprint_ c))
      | Err _ => c
      end
  end.

(** * The reader stops *)

Abbreviation len := String.length (only parsing).

(** The outcome of a reader that leaves fewer than [n] characters. *)
Definition advances {A} (n : nat) (o : jresult (A * string)) : Prop :=
  match o with
  | Ok (_, s) => (len s < n)%nat
  | Err e => e ≠ JsonFuel
  end.

(** The part of a reader's contract that the fuel concerns. *)
Definition productive {A} (fuel : nat) (r : reader A) : Prop :=
  ∀ s, (len s < fuel)%nat → advances (len s) (r s).

Create HintDb json.

Lemma advances_bind {A B} m n (o : jresult (A * string)) (k : A * string → jresult (B * string)) :
  advances m o → (∀ a s, (len s < m)%nat → advances n (k (a, s))) →
  advances n (rbind o k).
Proof. destruct o as [[a s]|e]; cbn; auto. Qed.

Lemma advances_le {A} m n (o : jresult (A * string)) :
  (m ≤ n)%nat → advances m o → advances n o.
Proof. destruct o as [[a s]|e]; cbn; [lia|done]. Qed.

Lemma whitespace_length s : (len (whitespace s) ≤ len s)%nat.
Proof. induction s as [|c s IH]; cbn; [done|]. case_match; cbn; lia. Qed.

Lemma consume_length c s b s' :
  consume c s = (b, s') → (len s' + (if b then 1 else 0) ≤ len s)%nat.
Proof.
  unfold consume. pose proof (whitespace_length s) as H.
  destruct (whitespace s) as [|d t]; [|case_decide]; intros [= <- <-]; cbn in *; lia.
Qed.

Lemma expect_length c s :
  match expect c s with Ok s' => (len s' < len s)%nat | Err e => e ≠ JsonFuel end.
Proof.
  unfold expect. destruct (consume c s) as [[] s'] eqn:E; [|done].
  apply consume_length in E. cbn in *. lia.
Qed.

Lemma advances_expect {A} n c s (k : string → jresult (A * string)) :
  (∀ s', (len s' < len s)%nat → advances n (k s')) → advances n (rbind (expect c s) k).
Proof. intros H. pose proof (expect_length c s). destruct (expect c s); cbn; auto. Qed.

Lemma cons_char_advances n c o : advances n o → advances n (cons_char c o).
Proof. by destruct o as [[a s]|e]. Qed.

Lemma string_body_advances s : advances (len s) (string_body s).
Proof.
  induction s as [s IH] using (induction_ltof1 _ String.length). unfold ltof in IH.
  assert (∀ t, (len t < len s)%nat → advances (len s) (string_body t)) as Ht.
  { intros t Hl. apply (advances_le (len t)); [lia|auto]. }
  destruct s as [|c s]; [done|]. cbn [string_body].
  case_decide; [cbn; lia|]. case_decide; [apply cons_char_advances, Ht; cbn; lia|].
  destruct s as [|e s]; [done|]. case_decide.
  - destruct s as [|a [|b [|x [|d s]]]]; try done.
    unfold unicode_escape. repeat case_match; try done.
    apply cons_char_advances, Ht. cbn. lia.
  - case_match; [|done]. apply cons_char_advances, Ht. cbn. lia.
Qed.

Lemma parseString_productive fuel : productive fuel parseString.
Proof.
  intros s _. unfold parseString. pose proof (whitespace_length s) as H.
  destruct (whitespace s) as [|c t]; [done|]. case_decide; [|done]. cbn in H.
  apply (advances_le (len t)); [lia|]. apply string_body_advances.
Qed.

Lemma strip_prefix_length p s s' : strip_prefix p s = Some s' → len s = (len p + len s')%nat.
Proof.
  revert s. induction p as [|a p IH]; intros [|b s]; cbn;
    try (intros [= <-]; done); try done.
  case_decide; [|done]. intros E. by rewrite (IH s E).
Qed.

Lemma parseBool_productive fuel : productive fuel parseBool.
Proof.
  intros s _. unfold parseBool. pose proof (whitespace_length s) as H.
  destruct (strip_prefix "true" _) eqn:E1; [|destruct (strip_prefix "false" _) eqn:E2; [|done]];
    [apply strip_prefix_length in E1; cbn in *; lia |
     apply strip_prefix_length in E2; cbn in *; lia].
Qed.

Lemma span_digits_length s : len s = (len (span_digits s).1 + len (span_digits s).2)%nat.
Proof.
  induction s as [|c s IH]; [done|]. cbn. case_match; [|done].
  destruct (span_digits s). cbn in *. lia.
Qed.

Lemma parseUnsigned_productive fuel : productive fuel parseUnsigned.
Proof.
  intros s _. unfold parseUnsigned. pose proof (whitespace_length s).
  pose proof (span_digits_length (whitespace s)) as H'.
  destruct (span_digits _) as [[|c d] r]; [done|]. cbn in H'.
  destruct (stoull _); cbn; [lia|done].
Qed.

#[export] Hint Resolve parseString_productive parseBool_productive
  parseUnsigned_productive : json.

Section Productive.
Context (fuel : nat).

Lemma elements_loop_advances {A} (element : reader A) b n s :
  productive b element → (len s < n)%nat → (len s < b)%nat →
  advances (len s) (elements_loop n element s).
Proof.
  intros He. revert s. induction n as [|n IH]; intros s Hn Hf; [lia|]. cbn.
  eapply advances_bind; [by apply He|]. intros x t Ht.
  destruct (consume "," t) as [[] t'] eqn:E; apply consume_length in E; [|cbn; lia].
  eapply advances_bind; [apply IH; lia|]. intros xs u Hu. cbn. lia.
Qed.

Lemma parseArray_productive {A} (element : reader A) :
  productive fuel element → productive fuel (parseArray fuel element).
Proof.
  intros He s Hs. unfold parseArray. apply advances_expect. intros t Ht.
  destruct (consume "]" t) as [[] u] eqn:E; apply consume_length in E; [cbn; lia|].
  eapply advances_bind; [apply (elements_loop_advances _ fuel); [done|lia..]|]. intros xs v Hv.
  apply advances_expect. intros w Hw. cbn. lia.
Qed.

Lemma members_loop_advances {A} (member : string → A → reader A) b n a s :
  (∀ name a, productive b (member name a)) → (len s < n)%nat → (len s < b)%nat →
  advances (len s) (members_loop n member a s).
Proof.
  intros Hm. revert a s. induction n as [|n IH]; intros a s Hn Hf; [lia|]. cbn.
  eapply advances_bind; [by apply (parseString_productive b)|]. intros name t Ht.
  apply advances_expect. intros u Hu.
  eapply advances_bind; [apply Hm; lia|]. intros a' v Hv.
  destruct (consume "," v) as [[] w] eqn:E; apply consume_length in E; [|cbn; lia].
  apply (advances_le (len w)); [lia|]. apply IH; lia.
Qed.

Lemma parseMembers_productive {A} (member : string → A → reader A) a :
  (∀ name a, productive fuel (member name a)) →
  productive fuel (parseMembers fuel member a).
Proof.
  intros Hm s Hs. unfold parseMembers. apply advances_expect. intros t Ht.
  destruct (consume "}" t) as [[] u] eqn:E; apply consume_length in E; [cbn; lia|].
  eapply advances_bind; [apply (members_loop_advances _ fuel); [done|lia..]|]. intros xs v Hv.
  apply advances_expect. intros w Hw. cbn. lia.
Qed.

Lemma parseObject_productive {A} (member : string → A → reader A) a :
  (∀ name a, productive fuel (member name a)) →
  productive fuel (parseObject fuel member a).
Proof.
  intros Hm s Hs. eapply advances_bind; [by apply parseMembers_productive|].
  by intros [] t Ht.
Qed.

Lemma skip_word_length s : (len (skip_word s) ≤ len s)%nat.
Proof. induction s as [|c s IH]; cbn; [done|]. case_match; cbn; lia. Qed.

Lemma skip_word_shorter s : skip_word s ≠ s → (len (skip_word s) < len s)%nat.
Proof.
  destruct s as [|c s]; [done|]. cbn. case_match; [done|]. intros _.
  pose proof (skip_word_length s). lia.
Qed.

Lemma skip_value_productive n : (n ≤ fuel)%nat → productive n (skip_value fuel n).
Proof.
  induction n as [|n IH]; intros Hn s Hs; [lia|]. cbn.
  pose proof (whitespace_length s) as Hw.
  destruct (whitespace s) as [|c t] eqn:Es; [done|]. cbn [String.length] in Hw.
  destruct (decide (c = dq)); [|destruct (decide (c = "{"%char));
    [|destruct (decide (c = "["%char)); [|case_decide; [done|]]]].
  - eapply advances_bind;
      [apply (parseString_productive (S fuel)); cbn; lia|].
    intros v u Hu. cbn in *. lia.
  - destruct (consume "}" t) as [[] u] eqn:E; apply consume_length in E; [cbn; lia|].
    eapply advances_bind.
    { apply (members_loop_advances _ n); [intros _ _; apply IH; lia|lia..]. }
    intros xs v Hv. apply advances_expect. intros w Hw'. cbn. lia.
  - destruct (consume "]" t) as [[] u] eqn:E; apply consume_length in E; [cbn; lia|].
    eapply advances_bind.
    { apply (elements_loop_advances _ n); [apply IH; lia|lia..]. }
    intros xs v Hv. apply advances_expect. intros w Hw'. cbn. lia.
  - apply (Nat.lt_le_trans _ (len (String c t))); [exact (skip_word_shorter (String c t) H)|exact Hw].
Qed.

Lemma store_productive {A B} (r : reader B) (put : B → A) :
  productive fuel r → productive fuel (store r put).
Proof. intros Hr s Hs. eapply advances_bind; [by apply Hr|]. by intros b t Ht. Qed.

Lemma ignore_productive {A} (a : A) : productive fuel (ignore fuel a).
Proof. by apply store_productive, skip_value_productive. Qed.

Lemma parseMap_productive {A} (entry : string → reader A) :
  (∀ name, productive fuel (entry name)) → productive fuel (parseMap fuel entry).
Proof. intros He. apply parseObject_productive. auto using store_productive. Qed.
End Productive.

#[export] Hint Resolve store_productive ignore_productive parseArray_productive
  parseObject_productive parseMap_productive : json.

(** A member function: whatever the name, the reader it picks is productive. *)
Ltac productive_member :=
  intros; repeat match goal with
  | |- productive _ (match ?x with _ => _ end) => destruct x
  | |- productive _ (if ?b then _ else _) => destruct b
  end; eauto 8 with json.

Section Total.
Context (fuel : nat).
#[local] Hint Unfold parseStringArray parseColumns parseFeatures parseRows parseMessages
  parseAtoms : json.

Lemma parseColumn_productive : productive fuel (parseColumn fuel).
Proof.
  intros s Hs. eapply advances_bind.
  { apply parseMembers_productive; [unfold column_member; productive_member|done]. }
  intros [some c] t Ht. by case_match.
Qed.
#[local] Hint Resolve parseColumn_productive : json.

Lemma parseTable_productive name : productive fuel (parseTable fuel name).
Proof. apply parseObject_productive. unfold table_member. productive_member. Qed.

Lemma parseFeature_productive : productive fuel (parseFeature fuel).
Proof. apply parseObject_productive. unfold feature_member. productive_member. Qed.

Lemma parseRow_productive : productive fuel (parseRow fuel).
Proof. apply parseObject_productive. unfold row_member. productive_member. Qed.
#[local] Hint Resolve parseTable_productive parseFeature_productive
  parseRow_productive : json.

Lemma parseSnapshot_productive name : productive fuel (parseSnapshot fuel name).
Proof. apply parseObject_productive. unfold snapshot_member. productive_member. Qed.

Lemma parseMessage_productive : productive fuel (parseMessage fuel).
Proof.
  apply store_productive, parseObject_productive. unfold message_member. productive_member.
Qed.

Lemma parseAtom_productive : productive fuel (parseAtom fuel).
Proof.
  apply store_productive, parseObject_productive. unfold atom_member. productive_member.
Qed.

Lemma parseTabAliases_productive : productive fuel (parseTabAliases fuel).
Proof.
  apply store_productive, parseArray_productive, parseObject_productive.
  unfold alias_member. productive_member.
Qed.
#[local] Hint Resolve parseSnapshot_productive parseMessage_productive
  parseAtom_productive parseTabAliases_productive : json.

Lemma parseContext_productive name : productive fuel (parseContext fuel name).
Proof. apply parseObject_productive. unfold context_member. productive_member. Qed.
#[local] Hint Resolve parseContext_productive : json.

Lemma parse_catalog_fuel s : (len s < fuel)%nat → parse_catalog fuel s ≠ Err JsonFuel.
Proof.
  intros Hs. unfold parse_catalog.
  assert (advances (len s) (parseMembers fuel (catalog_member fuel) (∅, ∅, ∅) s)) as H.
  { apply parseMembers_productive; [|done]. unfold catalog_member.
    unfold parseTables, parseSnapshots, parseContexts. productive_member. }
  destruct (parseMembers _ _ _ _) as [[[[] d] t]|e]; cbn in *; [|done|congruence].
  unfold finish. by destruct (whitespace t).
Qed.
End Total.

(** * Reading back what was written *)

(** White space, as the writer puts it between tokens. *)
Definition spaces (w : string) : bool := all_chars isspace w.

(** The text starts with something that is neither white space nor closing. *)
Definition opens (t : string) : bool :=
  match t with
  | String c _ =>
      negb (isspace c) && negb (bool_decide (c = "]"%char)) && negb (bool_decide (c = "}"%char))
  | EmptyString => false
  end.

(** [r] reads the text [t], after any white space and before any text, as [a]. *)
Definition reads {A} (r : reader A) (t : string) (a : A) : Prop :=
  ∀ w rest, spaces w = true → r (w +:+ t +:+ rest) = Ok (a, rest).

Lemma whitespace_spaces w s : spaces w = true → whitespace (w +:+ s) = whitespace s.
Proof.
  unfold spaces. induction w as [|c w IH]; [done|]. rewrite string_app_cons. cbn.
  intros [-> Hw]%andb_prop. auto.
Qed.

Lemma consume_hit w c s :
  spaces w = true → isspace c = false → consume c (w +:+ String c s) = (true, s).
Proof.
  intros Hw Hc. unfold consume. rewrite whitespace_spaces by done. cbn.
  by rewrite Hc, decide_True.
Qed.

Lemma consume_miss w c d s :
  spaces w = true → isspace d = false → d ≠ c →
  consume c (w +:+ String d s) = (false, String d s).
Proof.
  intros Hw Hc Hd. unfold consume. rewrite whitespace_spaces by done. cbn.
  by rewrite Hc, decide_False.
Qed.

Lemma consume_opens w c t rest :
  spaces w = true → opens t = true → c = "]"%char ∨ c = "}"%char →
  consume c (w +:+ t +:+ rest) = (false, t +:+ rest).
Proof.
  intros Hw Ht Hc. destruct t as [|d t]; [done|]. cbn in Ht.
  apply andb_prop in Ht as [[Hs H1]%andb_prop H2].
  apply negb_true_iff in Hs. apply negb_true_iff, bool_decide_eq_false in H1, H2.
  rewrite string_app_cons. apply consume_miss; [done..|]. destruct Hc; congruence.
Qed.

Lemma expect_hit w c s :
  spaces w = true → isspace c = false → expect c (w +:+ String c s) = Ok s.
Proof. intros Hw Hc. unfold expect. by rewrite consume_hit. Qed.

Lemma string_body_char c t : string_body (escape_char c +:+ t) = cons_char c (string_body t).
Proof. destruct c as [[] [] [] [] [] [] [] []]; reflexivity. Qed.

Lemma string_body_escape v rest :
  string_body (escapeJson v +:+ String dq rest) = Ok (v, rest).
Proof.
  induction v as [|c v IH]; [done|]. cbn [escapeJson].
  by rewrite string_app_assoc, string_body_char, IH.
Qed.

Lemma quoted_app v rest : quoted v +:+ rest = String dq (escapeJson v +:+ String dq rest).
Proof. unfold quoted. by rewrite !string_app_assoc. Qed.

Lemma reads_string v : reads parseString (quoted v) v.
Proof.
  intros w rest Hw. unfold parseString. rewrite whitespace_spaces, quoted_app by done.
  cbn. apply string_body_escape.
Qed.

Lemma reads_bool b : reads parseBool (print_bool b) b.
Proof.
  intros w rest Hw. unfold parseBool. rewrite whitespace_spaces by done. by destruct b.
Qed.

(** A number is read back when something other than a digit follows. *)
Definition no_digit (s : string) : bool :=
  match s with String c _ => negb (isdigit c) | EmptyString => true end.

Lemma span_digits_stop d s :
  all_digits d = true → no_digit s = true → span_digits (d +:+ s) = (d, s).
Proof.
  intros Hd Hs. induction d as [|c d IH].
  - rewrite string_app_nil_l. destruct s as [|c s]; [done|]. cbn in *.
    by apply negb_true_iff in Hs as ->.
  - rewrite string_app_cons. unfold all_digits in *. cbn in *.
    apply andb_prop in Hd as [-> Hd]. by rewrite IH.
Qed.

Lemma reads_unsigned n w rest :
  u64 n → spaces w = true → no_digit rest = true →
  parseUnsigned (w +:+ dec_unsigned n +:+ rest) = Ok (n, rest).
Proof.
  intros Hn Hw Hr. unfold parseUnsigned. rewrite whitespace_spaces by done.
  destruct (dec_unsigned_digits n (proj1 Hn)) as [Hd Hne].
  pose proof (dec_value_unsigned n (proj1 Hn)) as Hv.
  destruct (dec_unsigned n) as [|c d] eqn:E; [done|].
  rewrite string_app_cons. cbn [whitespace].
  pose proof Hd as Hd'. unfold all_digits in Hd'. cbn in Hd'.
  apply andb_prop in Hd' as [Hc _]. rewrite (digit_not_space c Hc), <- string_app_cons.
  rewrite span_digits_stop by done. unfold stoull. rewrite Hv.
  by rewrite decide_True by apply Hn.
Qed.

Section RoundTrip.
Context (fuel : nat).

(** ** Arrays *)

Lemma length_app_string s t : len (s +:+ t) = (len s + len t)%nat.
Proof. induction s as [|c s IH]; [done|]. rewrite string_app_cons. cbn. by rewrite IH. Qed.

Lemma items_after_length {A} next (print : A → string) l x :
  x ∈ l → (len (print x) ≤ len (items_after next print l))%nat.
Proof.
  induction 1; cbn; rewrite !length_app_string; lia.
Qed.

Lemma items_length {A} first next (print : A → string) l x :
  x ∈ l → (len (print x) ≤ len (items first next print l))%nat.
Proof.
  intros Hx. destruct l as [|y l]; [by apply not_elem_of_nil in Hx|]. cbn.
  rewrite !length_app_string. apply elem_of_cons in Hx as [->|Hx]; [lia|].
  pose proof (items_after_length next print l x Hx). lia.
Qed.

Lemma items_after_count {A} next (print : A → string) l :
  (∀ x, x ∈ l → opens (print x) = true) →
  (length l ≤ len (items_after next print l))%nat.
Proof.
  induction l as [|x l IH]; intros H; cbn; [lia|]. rewrite !length_app_string.
  specialize (IH (λ y Hy, H y (list_elem_of_further _ _ _ Hy))).
  specialize (H x (list_elem_of_here _ _)).
  destruct (print x) as [|c t]; [done|]. cbn. lia.
Qed.

Lemma items_count {A} first next (print : A → string) l :
  (∀ x, x ∈ l → opens (print x) = true) →
  (length l ≤ len (items first next print l))%nat.
Proof.
  intros H. pose proof (items_after_count next print l H) as Hc.
  destruct l as [|x l]; cbn in *; [lia|]. rewrite !length_app_string in *.
  pose proof (items_after_count next print l (λ y Hy, H y (list_elem_of_further _ _ _ Hy))).
  specialize (H x (list_elem_of_here _ _)).
  destruct (print x) as [|c t]; [done|]. cbn. lia.
Qed.

Lemma elements_loop_items {A} (element : reader A) print w' last l x n w rest :
  spaces w = true → spaces w' = true → spaces last = true →
  (∀ y, y ∈ x :: l → reads element (print y) y) →
  (length l < n)%nat →
  elements_loop n element
    (w +:+ print x +:+ items_after (String "," w') print l +:+ last +:+ String "]" rest) =
  Ok (x :: l, String "]" rest).
Proof.
  intros Hw Hw' Hlast. revert x n w Hw.
  induction l as [|y l IH]; intros x n w Hw Hr Hn; (destruct n as [|n]; [cbn in Hn; lia|]);
    cbn [elements_loop items_after].
  - rewrite Hr by (done || apply list_elem_of_here). cbn [rbind].
    by rewrite string_app_nil_l, consume_miss.
  - rewrite Hr by (done || apply list_elem_of_here). cbn [rbind].
    rewrite !string_app_assoc, string_app_cons.
    rewrite <- (string_app_nil_l (String "," _)), consume_hit by done.
    rewrite IH; [done|done| |cbn in Hn; lia].
    intros z Hz. apply Hr. by apply list_elem_of_further.
Qed.

Lemma reads_array {A} (element : reader A) print first w' last l :
  spaces first = true → spaces w' = true → spaces last = true →
  (∀ y, y ∈ l → reads element (print y) y ∧ opens (print y) = true) →
  (len (items first (String "," w') print l) ≤ fuel)%nat →
  reads (parseArray fuel element)
    ("[" +:+ items first (String "," w') print l +:+ last +:+ "]") l.
Proof.
  intros Hf Hw' Hlast Hr Hlen w rest Hw.
  pose proof (items_count first (String "," w') print l (λ y Hy, proj2 (Hr y Hy))) as Hc.
  unfold parseArray. rewrite !string_app_assoc, string_app_cons, string_app_nil_l.
  rewrite expect_hit by done. cbn [rbind].
  destruct l as [|x l]; cbn [items].
  - rewrite string_app_nil_l. change ("]" +:+ rest) with (String "]" rest).
    by rewrite (consume_hit last).
  - destruct (Hr x (list_elem_of_here _ _)) as [Hx Hox].
    rewrite !string_app_assoc, consume_opens by auto.
    change ("]" +:+ rest) with (String "]" rest).
    rewrite <- (string_app_nil_l (print x +:+ _)).
    rewrite elements_loop_items; [|done|done|done|intros y Hy; by apply Hr|cbn [length] in Hc; lia].
    cbn [rbind]. rewrite <- (string_app_nil_l (String "]" rest)). by rewrite expect_hit.
Qed.

Lemma reads_object_array {A} (element : reader A) print l :
  (∀ y, y ∈ l → reads element (print y) y ∧ opens (print y) = true) →
  (len (object_array print l) ≤ fuel)%nat →
  reads (parseArray fuel element) (object_array print l) l.
Proof.
  intros Hr Hl. unfold object_array in *. rewrite !length_app_string in Hl.
  apply (reads_array element print _ (newline +:+ "        ")); try done; [|].
  - by destruct l.
  - change (String "," (newline +:+ "        ")) with ("," +:+ newline +:+ "        "). lia.
Qed.

Lemma opens_quoted v : opens (quoted v) = true.
Proof. reflexivity. Qed.

Lemma reads_string_array l :
  (len (writeJsonStringArray l) ≤ fuel)%nat →
  reads (parseStringArray fuel) (writeJsonStringArray l) l.
Proof.
  intros Hl. unfold writeJsonStringArray in *. rewrite !length_app_string in Hl.
  apply (reads_array parseString quoted "" " " ""); try done.
  - intros y _. split; [apply reads_string|apply opens_quoted].
  - change (String "," " ") with ", ". lia.
Qed.

(** ** Objects *)

Definition print_member (m : string * string) : string := key m.1 +:+ m.2.

Lemma print_member_pair name text : print_member (name, text) = key name +:+ text.
Proof. done. Qed.

(** The members [ms], read in order by [member], turn [a] into [b]. *)
Inductive members_read {A} (member : string → A → reader A) : A → list (string * string) → A → Prop :=
  | members_nil a : members_read member a [] a
  | members_cons a name text a' ms b :
      (∀ w rest, spaces w = true → no_digit rest = true →
         member name a (w +:+ text +:+ rest) = Ok (a', rest)) →
      members_read member a' ms b →
      members_read member a ((name, text) :: ms) b.

Lemma no_digit_spaces w c s :
  spaces w = true → isdigit c = false → no_digit (w +:+ String c s) = true.
Proof.
  intros Hw Hc. destruct w as [|d w].
  { rewrite string_app_nil_l. unfold no_digit. by rewrite Hc. }
  unfold spaces in Hw. cbn in Hw. apply andb_prop in Hw as [Hd _].
  rewrite string_app_cons. unfold no_digit. destruct (isdigit d) eqn:E; [|done].
  by rewrite (digit_not_space d E) in Hd.
Qed.

Lemma parse_key w name s :
  spaces w = true → parseString (w +:+ key name +:+ s) = Ok (name, String ":" (" " +:+ s)).
Proof. intros Hw. unfold key. rewrite string_app_assoc. by rewrite reads_string. Qed.

Lemma members_loop_items {A} (member : string → A → reader A) w' last ms a b name text n w rest :
  spaces w = true → spaces w' = true → spaces last = true →
  members_read member a ((name, text) :: ms) b →
  (length ms < n)%nat →
  members_loop n member a
    (w +:+ print_member (name, text) +:+
     items_after (String "," w') print_member ms +:+ last +:+ String "}" rest) =
  Ok (b, String "}" rest).
Proof.
  intros Hw Hw' Hlast. revert a name text n w Hw.
  induction ms as [|[name' text'] ms IH]; intros a name text n w Hw Hr Hn;
    (destruct n as [|n]; [cbn in Hn; lia|]); inversion Hr as [|? ? ? a' ? ? Hm Hrest]; subst;
    cbn [members_loop items_after]; rewrite ?print_member_pair, ?string_app_assoc, parse_key by done; cbn [rbind];
    rewrite <- (string_app_nil_l (String ":" _)), expect_hit by done; cbn [rbind].
  - rewrite string_app_nil_l. inversion Hrest; subst.
    rewrite Hm by auto using no_digit_spaces. cbn [rbind]. by rewrite consume_miss.
  - rewrite (string_app_cons "," w'), Hm by done. cbn [rbind].
    rewrite <- (string_app_nil_l (String "," _)), consume_hit by done.
    specialize (IH a' name' text' n w' Hw' Hrest ltac:(cbn [length] in Hn; lia)).
    by rewrite print_member_pair, string_app_assoc in IH.
Qed.

Lemma reads_members {A} (member : string → A → reader A) first w' last ms a b :
  spaces first = true → spaces w' = true → spaces last = true →
  members_read member a ms b →
  (len (items first (String "," w') print_member ms) ≤ fuel)%nat →
  reads (parseMembers fuel member a)
    ("{" +:+ items first (String "," w') print_member ms +:+ last +:+ "}")
    (bool_decide (ms ≠ []), b).
Proof.
  intros Hf Hw' Hlast Hr Hlen w rest Hw.
  pose proof (items_count first (String "," w') print_member ms (λ _ _, eq_refl)) as Hc.
  unfold parseMembers. rewrite !string_app_assoc, string_app_cons, string_app_nil_l.
  rewrite expect_hit by done. cbn [rbind].
  destruct ms as [|[name text] ms]; cbn [items].
  - rewrite string_app_nil_l. change ("}" +:+ rest) with (String "}" rest).
    rewrite (consume_hit last) by done. by inversion Hr.
  - rewrite !string_app_assoc, consume_opens by auto.
    change ("}" +:+ rest) with (String "}" rest).
    rewrite <- (string_app_nil_l (print_member _ +:+ _)).
    rewrite (members_loop_items member w' last ms a b); [|done|done|done|done|cbn [length] in Hc; lia].
    cbn [rbind]. rewrite <- (string_app_nil_l (String "}" rest)). by rewrite expect_hit.
Qed.

Lemma reads_object {A} (member : string → A → reader A) first w' last ms a b t :
  t = "{" +:+ items first (String "," w') print_member ms +:+ last +:+ "}" →
  spaces first = true → spaces w' = true → spaces last = true →
  members_read member a ms b →
  (len t ≤ fuel)%nat →
  reads (parseObject fuel member a) t b.
Proof.
  intros -> Hf Hw' Hl Hr Hlen w rest Hw. unfold parseObject.
  rewrite !length_app_string in Hlen. by rewrite reads_members by (done || lia).
Qed.

Lemma reads_store {A B} (r : reader B) (put : B → A) t v :
  reads r t v → reads (store r put) t (put v).
Proof. intros Hr w rest Hw. unfold store. by rewrite Hr. Qed.

Lemma reads_store_unsigned {A} (put : Z → A) n w rest :
  u64 n → spaces w = true → no_digit rest = true →
  store parseUnsigned put (w +:+ dec_unsigned n +:+ rest) = Ok (put n, rest).
Proof. intros Hn Hw Hr. unfold store. by rewrite reads_unsigned. Qed.
#[local] Opaque store ignore.

(** One member of a record: find the reader its name selects, and read its
    text. *)
Ltac read_member :=
  eapply members_cons;
  [ let w := fresh in let rest := fresh in intros w rest ? ?;
    match goal with
    | |- ?f ?n ?a ?s = ?r => let g := eval hnf in (f n a) in change (g s = r)
    end;
    first [ eapply reads_store_unsigned; eassumption
          | eapply reads_store; eassumption
          | eapply reads_store; [|eassumption];
            first [apply reads_string | apply reads_bool | apply reads_string_array; lia] ]
  |].
Ltac read_members := repeat read_member; apply members_nil.

(** The text of a record as the list of its members. *)
Ltac as_items print ms :=
  unfold print, ms; cbn [items items_after]; unfold print_member; cbn [fst snd];
  rewrite ?string_app_assoc, ?string_app_nil_l; reflexivity.

Ltac lengths H := rewrite ?length_app_string in H.

Lemma reads_column c :
  cm_type c ≠ "" → (len (print_column c) ≤ fuel)%nat →
  reads (parseColumn fuel) (print_column c) c.
Proof.
  intros Hty Hlen w rest Hw. destruct c as [n ty pk nn ft fc].
  set (ms := [("name", quoted n); ("type", quoted ty); ("primary_key", print_bool pk);
              ("not_null", print_bool nn); ("fk_table", quoted ft); ("fk_col", quoted fc)]).
  assert (print_column (mkColumnMeta n ty pk nn ft fc) =
          "{" +:+ items "" (String "," " ") print_member ms +:+ "" +:+ "}") as E by as_items print_column ms.
  rewrite E in *. lengths Hlen. unfold parseColumn.
  erewrite reads_members; [|done|done|done|read_members|lia|done].
  cbn [rbind]. rewrite bool_decide_eq_true_2 by done. cbn [andb].
  by rewrite bool_decide_eq_false_2 by exact Hty.
Qed.

(** Unfold the length of a record's text in a copy of the bound on it. *)
Ltac text_length print H :=
  let Hl := fresh "Hl" in pose proof H as Hl; unfold print in Hl; lengths Hl.

Lemma reads_feature f :
  (len (print_feature f) ≤ fuel)%nat → reads (parseFeature fuel) (print_feature f) f.
Proof.
  intros Hlen. destruct f as [n sp].
  set (ms := [("name", quoted n); ("spec", quoted sp)]).
  apply (reads_object (feature_member fuel) "" " " "" ms);
    [as_items print_feature ms|done..| |done].
  read_members.
Qed.

Lemma reads_row r : (len (print_row r) ≤ fuel)%nat → reads (parseRow fuel) (print_row r) r.
Proof.
  intros Hlen. destruct r as [i sp].
  set (ms := [("rowid", quoted i); ("split", quoted sp)]).
  apply (reads_object (row_member fuel) "" " " "" ms);
    [as_items print_row ms|done..| |done].
  read_members.
Qed.

Lemma reads_alias a :
  (len (print_alias a) ≤ fuel)%nat → reads (parseTabAlias fuel) (print_alias a) a.
Proof.
  intros Hlen. destruct a as [al tg].
  set (ms := [("alias", quoted al); ("target", quoted tg)]).
  apply (reads_object (alias_member fuel) "" " " "" ms);
    [as_items print_alias ms|done..| |done].
  read_members.
Qed.

Lemma or_default_id text fallback : text ≠ "" → or_default text fallback = text.
Proof. apply decide_False. Qed.

(** What a message, an atom, ... must satisfy for [save] to be faithful: the
    numbers fit [uint64_t], and the texts [load] replaces by a default when
    they are empty are not empty. *)
Definition message_storable (msg : ContextMessageMeta) : Prop :=
  u64 (ms_id msg) ∧ ms_tab msg ≠ "" ∧ ms_schemaName msg ≠ "" ∧
  ms_schemaVersion msg ≠ "" ∧ ms_storageRoute msg ≠ "".

Definition atom_storable (a : ContextAtomMeta) : Prop :=
  u64 (ca_sourceStart a) ∧ u64 (ca_sourceEnd a) ∧ ca_tab a ≠ "" ∧
  ca_schemaName a ≠ "" ∧ ca_schemaVersion a ≠ "" ∧ ca_extractorConfidence a ≠ "".

Lemma reads_message msg :
  message_storable msg → (len (print_message msg) ≤ fuel)%nat →
  reads (parseMessage fuel) (print_message msg) msg.
Proof.
  intros (Hid & Htab & Hsn & Hsv & Hsr) Hlen.
  assert (normalizeMessage msg = msg) as <-.
  { destruct msg. unfold normalizeMessage. cbn in *. by rewrite !or_default_id. }
  apply reads_store. unfold normalizeMessage in *. rewrite !or_default_id in * by done.
  text_length print_message Hlen. destruct msg as [i sp tx tb sn sv sr al me tg tr]. cbn in *.
  set (ms := [("id", dec_unsigned i); ("speaker", quoted sp); ("text", quoted tx);
    ("tab", quoted tb); ("schema_name", quoted sn); ("schema_version", quoted sv);
    ("storage_route", quoted sr); ("access_labels", writeJsonStringArray al);
    ("mentioned_entities", writeJsonStringArray me); ("tags", writeJsonStringArray tg);
    ("tag_reasons", writeJsonStringArray tr)]).
  apply (reads_object (message_member fuel) "" " " "" ms);
    [as_items print_message ms|done..| |done].
  read_members.
Qed.

Lemma reads_atom a :
  atom_storable a → (len (print_atom a) ≤ fuel)%nat →
  reads (parseAtom fuel) (print_atom a) a.
Proof.
  intros (Hss & Hse & Htab & Hsn & Hsv & Hec) Hlen.
  assert (normalizeAtom a = a) as <-.
  { destruct a. unfold normalizeAtom. cbn in *. by rewrite !or_default_id. }
  apply reads_store. unfold normalizeAtom in *. rewrite !or_default_id in * by done.
  text_length print_atom Hlen.
  destruct a as [k va ty st so iv tb sn sv al tg er ec ss se os]. cbn in *.
  set (ms := [("key", quoted k); ("value", quoted va); ("type", quoted ty);
    ("status", quoted st); ("source", quoted so); ("invalidated_by", quoted iv);
    ("tab", quoted tb); ("schema_name", quoted sn); ("schema_version", quoted sv);
    ("access_labels", writeJsonStringArray al); ("tags", writeJsonStringArray tg);
    ("extractor_rule", quoted er); ("extractor_confidence", quoted ec);
    ("source_start", dec_unsigned ss); ("source_end", dec_unsigned se);
    ("original_snippet", quoted os)]).
  apply (reads_object (atom_member fuel) "" " " "" ms);
    [as_items print_atom ms|done..| |done].
  read_members.
Qed.

(** Arrays of objects whose elements satisfy [wf]. *)
Lemma reads_objects {A} (element : reader A) print (wf : A → Prop) l :
  (∀ y, wf y → (len (print y) ≤ fuel)%nat → reads element (print y) y) →
  (∀ y, opens (print y) = true) → Forall wf l →
  (len (object_array print l) ≤ fuel)%nat →
  reads (parseArray fuel element) (object_array print l) l.
Proof.
  intros Hr Ho Hwf Hlen. apply reads_object_array; [|done]. intros y Hy. split; [|done].
  rewrite Forall_forall in Hwf. apply Hr; [auto|].
  unfold object_array in Hlen. lengths Hlen.
  pose proof (items_length (newline +:+ "        ") ("," +:+ newline +:+ "        ")
                print l y Hy).
  lia.
Qed.

Lemma Forall_True {A} (l : list A) : Forall (λ _, True) l.
Proof. by apply Forall_true. Qed.

Definition column_storable (c : ColumnMeta) : Prop := cm_type c ≠ "".
Definition table_storable (t : TableMeta) : Prop := Forall column_storable (t_columns t).
Definition snapshot_storable (s : DatasetSnapshotMeta) : Prop := u64 (ds_seed s).
Definition context_storable (x : ConversationContextMeta) : Prop :=
  Forall message_storable (cx_messages x) ∧ Forall atom_storable (cx_atoms x) ∧
  Forall complete_alias (cx_tabAliases x).

Lemma reads_table t :
  table_storable t → (len (print_table t) ≤ fuel)%nat →
  reads (parseTable fuel (t_name t)) (print_table t) t.
Proof.
  intros Ht Hlen. text_length print_table Hlen. destruct t as [n cols]. cbn in *.
  set (ms := [("columns", object_array print_column cols)]).
  assert (reads (parseColumns fuel) (object_array print_column cols) cols).
  { apply (reads_objects _ _ column_storable); auto using reads_column. lia. }
  eapply (reads_object _ (newline +:+ "      ") (newline +:+ "      ")
            (newline +:+ "    ") ms); [as_items print_table ms|done..| |done].
  read_members.
Qed.

Lemma reads_snapshot s :
  snapshot_storable s → (len (print_snapshot s) ≤ fuel)%nat →
  reads (parseSnapshot fuel (ds_name s)) (print_snapshot s) s.
Proof.
  intros Hs Hlen. text_length print_snapshot Hlen.
  destruct s as [n q st sf tv sb sd fs lb rs ws]. unfold snapshot_storable in Hs. cbn in *.
  set (ms := [("query_text", quoted q); ("source_table", quoted st);
    ("schema_fingerprint", quoted sf); ("table_version", quoted tv);
    ("split_by", quoted sb); ("seed", dec_unsigned sd);
    ("features", object_array print_feature fs); ("label", print_feature lb);
    ("rows", object_array print_row rs); ("warnings", writeJsonStringArray ws)]).
  assert (reads (parseFeatures fuel) (object_array print_feature fs) fs).
  { apply (reads_objects _ _ (λ _, True)); auto using reads_feature, Forall_True. lia. }
  assert (reads (parseFeature fuel) (print_feature lb) lb) by (apply reads_feature; lia).
  assert (reads (parseRows fuel) (object_array print_row rs) rs).
  { apply (reads_objects _ _ (λ _, True)); auto using reads_row, Forall_True. lia. }
  eapply (reads_object _ (newline +:+ "      ") (newline +:+ "      ")
            (newline +:+ "    ") ms); [as_items print_snapshot ms|done..| |done].
  read_members.
Qed.

Lemma filter_all (l : list ContextTabAliasMeta) :
  Forall complete_alias l → filter complete_alias l = l.
Proof. induction 1; [done|]. by rewrite filter_cons_True, IHForall. Qed.

Lemma reads_context x :
  context_storable x → (len (print_context x) ≤ fuel)%nat →
  reads (parseContext fuel (cx_name x)) (print_context x) x.
Proof.
  intros (Hm & Ha & Hal) Hlen. text_length print_context Hlen.
  destruct x as [n mss ats als]. cbn in *.
  set (ms := [("messages", object_array print_message mss);
    ("atoms", object_array print_atom ats); ("tab_aliases", object_array print_alias als)]).
  assert (reads (parseMessages fuel) (object_array print_message mss) mss).
  { apply (reads_objects _ _ message_storable); auto using reads_message. lia. }
  assert (reads (parseAtoms fuel) (object_array print_atom ats) ats).
  { apply (reads_objects _ _ atom_storable); auto using reads_atom. lia. }
  assert (reads (parseTabAliases fuel) (object_array print_alias als) als).
  { rewrite <- (filter_all als Hal) at 2. apply reads_store.
    apply (reads_objects _ _ (λ _, True)); auto using reads_alias, Forall_True. lia. }
  eapply (reads_object _ (newline +:+ "      ") (newline +:+ "      ")
            (newline +:+ "    ") ms); [as_items print_context ms|done..| |done].
  read_members.
Qed.

(** ** Maps *)

Section Map.
Context {A : Type} (entry : string → reader A) (print : A → string) (m : gmap string A).

Definition entry_text (name : string) : string := default "" (print <$> m !! name).
Definition insert_entry (acc : gmap string A) (name : string) : gmap string A :=
  match m !! name with Some x => <[name := x]> acc | None => acc end.

Lemma items_after_map next names :
  items_after next (λ name, key name +:+ entry_text name) names =
  items_after next print_member (map (λ name, (name, entry_text name)) names).
Proof. induction names as [|x l IH]; cbn; [done|]. by rewrite IH. Qed.

Lemma items_map first next names :
  items first next (λ name, key name +:+ entry_text name) names =
  items first next print_member (map (λ name, (name, entry_text name)) names).
Proof. destruct names; cbn; [done|]. by rewrite items_after_map. Qed.

Lemma members_read_map names acc :
  (∀ name, name ∈ names → ∃ x, m !! name = Some x ∧ reads (entry name) (print x) x) →
  members_read (λ name m, store (entry name) (λ v, <[name := v]> m)) acc
    (map (λ name, (name, entry_text name)) names) (foldl insert_entry acc names).
Proof.
  revert acc. induction names as [|name names IH]; intros acc H; cbn; [apply members_nil|].
  destruct (H name (list_elem_of_here _ _)) as (x & Hx & Hr).
  unfold entry_text at 1, insert_entry at 2. rewrite Hx. cbn.
  eapply members_cons; [|apply IH; intros; by apply H, list_elem_of_further].
  intros w rest Hw _. by apply (reads_store _ (λ v, <[name := v]> acc)).
Qed.

Lemma foldl_insert_entry names acc k :
  foldl insert_entry acc names !! k =
    if decide (k ∈ names ∧ is_Some (m !! k)) then m !! k else acc !! k.
Proof.
  revert acc. induction names as [|name names IH]; intros acc; cbn.
  { rewrite decide_False; [done|]. intros [H _]. by apply not_elem_of_nil in H. }
  rewrite IH. unfold insert_entry.
  destruct (decide (k ∈ names ∧ is_Some (m !! k))) as [[H1 H2]|Hn].
  - rewrite decide_True; [done|]. split; [by apply list_elem_of_further|done].
  - destruct (decide (k = name)) as [->|Hk].
    + destruct (m !! name) as [x|] eqn:E.
      * rewrite lookup_insert_eq, decide_True; [done|]. split; [apply list_elem_of_here|done].
      * rewrite decide_False; [done|]. by intros [_ [? ?]].
    + rewrite decide_False by set_solver.
      destruct (m !! name) as [x|]; [by rewrite lookup_insert_ne|done].
Qed.

Lemma foldl_insert_names : foldl insert_entry ∅ (sortedNames m) = m.
Proof.
  apply map_eq. intros k. rewrite foldl_insert_entry.
  case_decide as H; [done|]. rewrite sortedNames_elem in H. rewrite lookup_empty. symmetry. apply eq_None_not_Some. tauto.
Qed.

Lemma reads_map :
  (∀ name x, m !! name = Some x → (len (print x) ≤ fuel)%nat →
     reads (entry name) (print x) x) →
  (len (print_map print m) ≤ fuel)%nat →
  reads (parseMap fuel entry) (print_map print m) m.
Proof.
  intros Hr Hlen. unfold parseMap.
  enough (reads (parseMap fuel entry) (print_map print m)
            (foldl insert_entry ∅ (sortedNames m))) as H
    by (by rewrite foldl_insert_names in H).
  pose proof Hlen as Hl. unfold print_map in Hl. lengths Hl.
  eapply (reads_object _ (newline +:+ "    ") (newline +:+ "    ")
            (closing "  " (sortedNames m))); [|done|done| | |done].
  - unfold print_map. fold entry_text. by rewrite items_map.
  - by destruct (sortedNames m).
  - apply members_read_map. intros name Hn. pose proof Hn as [x Hx]%sortedNames_elem.
    exists x. split; [done|]. apply Hr; [done|].
    pose proof (items_length (newline +:+ "    ") ("," +:+ newline +:+ "    ")
      (λ name, key name +:+ default "" (print <$> m !! name)) _ name Hn) as Hi.
    cbn beta in Hi. rewrite Hx in Hi. cbn in Hi. lengths Hi. lia.
Qed.
End Map.

(** ** The catalog *)

Record catalog_storable (c : Catalog) : Prop := {
  st_tables : ∀ k t, tables c !! k = Some t → table_storable t;
  st_snapshots : ∀ k s, snapshots c !! k = Some s → snapshot_storable s;
  st_contexts : ∀ k x, contexts c !! k = Some x → context_storable x;
}.

Lemma reads_catalog c :
  catalog_ok c → catalog_storable c → (len (save c) ≤ fuel)%nat →
  parse_catalog fuel (save c) = Ok (tables c, snapshots c, contexts c).
Proof.
  intros Hok Hst Hlen. text_length save Hlen.
  assert (reads (parseTables fuel) (print_map print_table (tables c)) (tables c)).
  { apply reads_map; [|lia]. intros name t Ht Hl'. pose proof Ht as Hn.
    apply (ok_tables c Hok) in Hn as <-. apply reads_table; [by eapply st_tables|done]. }
  assert (reads (parseSnapshots fuel) (print_map print_snapshot (snapshots c)) (snapshots c)).
  { apply reads_map; [|lia]. intros name s Hs Hl'. pose proof Hs as Hn.
    apply (ok_snapshots c Hok) in Hn as <-.
    apply reads_snapshot; [by eapply st_snapshots|done]. }
  assert (reads (parseContexts fuel) (print_map print_context (contexts c)) (contexts c)).
  { apply reads_map; [|lia]. intros name x Hx Hl'. pose proof Hx as Hn.
    apply (ok_contexts c Hok) in Hn as <-. apply reads_context; [by eapply st_contexts|done]. }
  set (ms := [("tables", print_map print_table (tables c));
    ("snapshots", print_map print_snapshot (snapshots c));
    ("contexts", print_map print_context (contexts c))]).
  assert (save c = "" +:+ ("{" +:+
    items (newline +:+ "  ") (String "," (newline +:+ "  ")) print_member ms +:+
    newline +:+ "}") +:+ newline) as E by as_items save ms.
  rewrite E in *. lengths Hlen. unfold parse_catalog.
  erewrite reads_members; [|done|done|done|read_members|lia|done].
  cbn [rbind]. by rewrite bool_decide_eq_true_2.
Qed.
End RoundTrip.

(** ** What [load] reads is keyed by name *)

(** Every value [r] can produce satisfies [P]. *)
Definition yields {A} (r : reader A) (P : A → Prop) : Prop :=
  ∀ s a s', r s = Ok (a, s') → P a.

Lemma yields_store {A B} (r : reader B) (put : B → A) (P : A → Prop) :
  (∀ v, P (put v)) → yields (store r put) P.
Proof. intros H s a s' E. unfold store in E. destruct (r s) as [[v t]|e]; [|done].
  injection E as <- <-. apply H.
Qed.

Lemma yields_store_strong {A B} (r : reader B) (put : B → A) (Q : B → Prop) (P : A → Prop) :
  yields r Q → (∀ v, Q v → P (put v)) → yields (store r put) P.
Proof.
  intros Hr H s a s' E. unfold store in E. destruct (r s) as [[v t]|e] eqn:Ev; [|done].
  injection E as <- <-. eapply H, Hr, Ev.
Qed.

Lemma yields_members_loop {A} n (member : string → A → reader A) a (P : A → Prop) :
  P a → (∀ name b, P b → yields (member name b) P) → yields (members_loop n member a) P.
Proof.
  intros Ha Hm. revert a Ha. induction n as [|n IH]; intros a Ha s b s' E; [done|].
  cbn in E. destruct (parseString s) as [[name t]|]; [cbn in E|done].
  destruct (expect ":" t) as [u|]; [cbn in E|done].
  destruct (member name a u) as [[a' v]|] eqn:Em; [cbn in E|done].
  apply (Hm name a Ha) in Em. destruct (consume "," v) as [[] w]; [by eapply IH|].
  by injection E as <- <-.
Qed.

Lemma yields_object {A} fuel (member : string → A → reader A) a (P : A → Prop) :
  P a → (∀ name b, P b → yields (member name b) P) → yields (parseObject fuel member a) P.
Proof.
  intros Ha Hm s b s' E. unfold parseObject, parseMembers in E.
  destruct (expect "{" s) as [t|]; [cbn in E|done].
  destruct (consume "}" t) as [[] u]; [by injection E as <- <-|].
  destruct (members_loop fuel member a u) as [[y v]|] eqn:Em; [cbn in E|done].
  destruct (expect "}" v) as [w|]; [cbn in E|done]. injection E as <- <-.
  by apply (yields_members_loop _ _ _ P Ha Hm) in Em.
Qed.

(** Members that leave the name alone. *)
Ltac yields_member :=
  intros ? [] ?; repeat case_match; by apply yields_store.

Lemma yields_table fuel name : yields (parseTable fuel name) (λ t, t_name t = name).
Proof. apply yields_object; [done|]. unfold table_member. yields_member. Qed.

Lemma yields_snapshot fuel name : yields (parseSnapshot fuel name) (λ s, ds_name s = name).
Proof. apply yields_object; [done|]. unfold snapshot_member. yields_member. Qed.

Lemma yields_context fuel name : yields (parseContext fuel name) (λ x, cx_name x = name).
Proof. apply yields_object; [done|]. unfold context_member. yields_member. Qed.

Definition keyed {A} (name_of : A → string) (m : gmap string A) : Prop :=
  ∀ k x, m !! k = Some x → name_of x = k.

Lemma yields_map {A} fuel (entry : string → reader A) (name_of : A → string) :
  (∀ name, yields (entry name) (λ x, name_of x = name)) →
  yields (parseMap fuel entry) (keyed name_of).
Proof.
  intros He. apply yields_object; [intros k x; by rewrite lookup_empty|].
  intros name m Hm. eapply yields_store_strong; [apply He|].
  intros v <- k x [[<- <-]|[_ Hx]]%lookup_insert_Some; eauto.
Qed.

Lemma keyed_union {A} (name_of : A → string) (m1 m2 : gmap string A) :
  keyed name_of m1 → keyed name_of m2 → keyed name_of (m1 ∪ m2).
Proof. intros H1 H2 k x [Hx|[_ Hx]]%lookup_union_Some_raw; eauto. Qed.

Lemma parse_catalog_keyed fuel s ts ss cs :
  parse_catalog fuel s = Ok (ts, ss, cs) →
  keyed t_name ts ∧ keyed ds_name ss ∧ keyed cx_name cs.
Proof.
  intros E. unfold parse_catalog in E.
  destruct (parseMembers _ _ _ s) as [[[some d] t]|] eqn:Ha; [cbn in E|done].
  set (P := λ d : gmap string TableMeta * gmap string DatasetSnapshotMeta *
                  gmap string ConversationContextMeta,
              keyed t_name d.1.1 ∧ keyed ds_name d.1.2 ∧ keyed cx_name d.2).
  assert (P d) as Hd.
  { apply (yields_object fuel (catalog_member fuel) (∅, ∅, ∅) P) with s t.
    - split; [|split]; cbn; intros k x H; by rewrite lookup_empty in H.
    - intros name [[ts' ss'] cs'] (H1 & H2 & H3). cbn in *. unfold catalog_member.
      repeat case_match; eapply yields_store_strong;
        eauto using yields_map, yields_table, yields_snapshot, yields_context;
        try (instantiate (1 := λ _, True); done); intros v Hv; by split_and!.
    - unfold parseObject. by rewrite Ha. }
  assert (d = (ts, ss, cs)) as -> by (destruct some; [destruct (finish t); [cbn in E|done]|]; congruence). done.
Qed.

(** ** Theorems *)

(** C26: The catalog file keeps everything: writing a catalog and loading the
    file at the next start gives back every table, dataset snapshot and
    conversation context, whatever bytes their texts contain, and the same
    schema fingerprint.  It applies to every catalog the operations reach whose
    numbers fit their 64 bits and in which the texts that [load] defaults when
    empty are present. *)
Theorem load_save (c : Catalog) :
  catalog_ok c → catalog_storable c →
  let c' := load (Some (save c)) emptyCatalog in
  tables c' = tables c ∧ snapshots c' = snapshots c ∧ contexts c' = contexts c ∧
  schemaFingerprint_ c' = schemaFingerprint_ c.
Proof.
  intros Hok Hst. unfold load, parseCatalog. rewrite reads_catalog by (done || lia).
  cbn. rewrite !map_union_empty. split_and!; try done.
  symmetry. apply (ok_fingerprint c Hok).
Qed.

Lemma load_save_witness :
  let c := addContext (addTable emptyCatalog
             (mkTableMeta "t" [mkColumnMeta "id" "INTEGER" true true "" ""]))
             (mkContext "chat" [] [] [mkTabAlias "m" "main"]) in
  tables (load (Some (save c)) emptyCatalog) = tables c.
Proof.
  intros c. refine (proj1 (load_save c _ _)).
  - apply (catalog_run_ok
      [AddTable (mkTableMeta "t" [mkColumnMeta "id" "INTEGER" true true "" ""]);
       AddContext (mkContext "chat" [] [] [mkTabAlias "m" "main"])] emptyCatalog).
    apply emptyCatalog_ok.
  - split; cbn.
    + intros k t [[_ <-]|[_ H]]%lookup_insert_Some; [|by rewrite lookup_empty in H].
      repeat constructor. discriminate.
    + intros k s H. by rewrite lookup_empty in H.
    + intros k x [[_ <-]|[_ H]]%lookup_insert_Some; [|by rewrite lookup_empty in H].
      repeat constructor; discriminate.
Defined.

(** C28: Loading a catalog ends for every content of the file: the recursive
    reader never needs more loop iterations or nesting levels than the file has
    characters.  A file it rejects leaves the catalog as it was; one it accepts
    gives a catalog in which every entry is stored under its own name and the
    fingerprint is the one of the contents. *)
Theorem load_total (text : string) (c : Catalog) :
  parseCatalog text ≠ Err JsonFuel ∧
  (is_ok (parseCatalog text) = false → load (Some text) c = c) ∧
  (catalog_ok c → catalog_ok (load (Some text) c)).
Proof.
  split; [|split].
  - apply parse_catalog_fuel. lia.
  - cbn. by destruct (parseCatalog text).
  - intros Hc. cbn. destruct (parseCatalog text) as [[[ts ss] cs]|e] eqn:E; [|done].
    apply parse_catalog_keyed in E as (H1 & H2 & H3).
    apply touch_ok.
    + exact (keyed_union t_name ts _ H1 (ok_tables c Hc)).
    + exact (keyed_union ds_name ss _ H2 (ok_snapshots c Hc)).
    + exact (keyed_union cx_name cs _ H3 (ok_contexts c Hc)).
Qed.
