(* ===== verification/Eval.v ===== *)
(** Expression evaluation of the native engine: [eval], [applyBinary],
    [applyUnary], [resolveColumn], the aggregates and the projections of
    [src/native_engine.cpp], and [countLoneWolves] of [src/native_raw.cpp].
    Signed overflow, an [int64_t] division that overflows and an out-of-range
    conversion from [double] are [Undefined], as in C++; exceptions are [Throw].
    Where C++ leaves the order of evaluation of two arguments open, the left one
    is evaluated first; this only selects which of two failures is reported.
    [std::sort] is a parameter, since it does not determine the order of equal
    elements. *)

From S2P Require Import Prelude.
From S2P Require Import Double.
From S2P Require Import Format.
From S2P Require Import Value.
From S2P Require Import Ast.
From S2P Require Import Catalog.

#[local] Set Warnings "-register-all".

Record BoundColumn : Type := mkBound {
  bc_table : string;
  bc_alias : string;
  bc_name : string;
}.

(** [columns] is a shared pointer; the default row has none. *)
Record EvalRow : Type := mkRow {
  columns : option (list BoundColumn);
  values : list Value;
}.

Definition nth_value (row : list Value) (index : nat) : exec Value :=
  match row !! index with
  | Some v => Ok v
  | None => Err (Undefined "vector index out of range")
  end.

(** The schema of the rows of one table in a query. *)
Definition boundSchema (catalog_ : Catalog) (table alias : string) : exec (list BoundColumn) :=
  match getTable catalog_ table with
  | None => Err (Throw ("Unknown table: " +:+ table))
  | Some metadata =>
      Ok (map (λ column, mkBound table alias (cm_name column)) (t_columns metadata))
  end.

Definition combineSchemas (a b : option (list BoundColumn)) : list BoundColumn :=
  default [] a ++ default [] b.

(** ** Column resolution *)

Definition qualifier_matches (table : string) (candidate : BoundColumn) : bool :=
  bool_decide (table = "") || bool_decide (table = bc_table candidate) ||
  (negb (bool_decide (bc_alias candidate = "")) && bool_decide (table = bc_alias candidate)).

Fixpoint resolve_loop (table column : string) (row : list Value)
    (candidates : list BoundColumn) (index : nat) (result : option Value)
    : exec (option Value) :=
  match candidates with
  | [] => Ok result
  | candidate :: rest =>
      if negb (bool_decide (bc_name candidate = column)) ||
         negb (qualifier_matches table candidate)
      then resolve_loop table column row rest (S index) result
      else if bool_decide (is_Some result) && bool_decide (table = "") then
        Err (Throw ("Ambiguous column: " +:+ column))
      else
        let* v := nth_value row index in
        resolve_loop table column row rest (S index) (Some v)
  end.

Definition resolveColumn (table column : string) (row : EvalRow) : exec Value :=
  match columns row with
  | None => Err (Throw "Expression row has no schema")
  | Some cols =>
      let* result := resolve_loop table column (values row) cols 0 None in
      match result with
      | Some v => Ok v
      | None =>
          Err (Throw ("Unknown column: " +:+
                 (if bool_decide (table = "") then "" else table +:+ ".") +:+ column))
      end
  end.

(** ** Operators *)

#[local] Open Scope string_scope.

(** The result of [int64_t] arithmetic. *)
Definition int_value (z : Z) : exec Value :=
  if decide (i64 z) then Ok (VInteger z) else Err (Undefined "signed integer overflow").

(** [+], [-] and [*]: on two integers as [int64_t], else as [double]. *)
Definition arithmetic (int_op : Z → Z → Z) (real_op : double → double → double)
    (left right : Value) : exec Value :=
  match left, right with
  | VInteger a, VInteger b => int_value (int_op a b)
  | _, _ =>
      let* x := asReal left in
      let* y := asReal right in
      Ok (VReal (real_op x y))
  end.

(** [/] of [int64_t]: truncating; dividing by zero is undefined, and so is the
    quotient of the least number by -1, which does not fit. *)
Definition int_divide (a b : Z) : exec Value :=
  if decide (b = 0)%Z then Err (Undefined "integer division by zero")
  else int_value (Z.quot a b).

Definition divide (left right : Value) : exec Value :=
  let* y := asReal right in
  if deqb y dzero then Ok VNull
  else
    match left, right with
    | VInteger a, VInteger b => int_divide a b
    | _, _ =>
        let* x := asReal left in
        let* y := asReal right in
        Ok (VReal (ddiv x y))
    end.

Definition applyBinary (op : string) (left right : Value) : exec Value :=
  if op =? "AND" then Ok (VBoolean (asBoolean left && asBoolean right))
  else if op =? "OR" then Ok (VBoolean (asBoolean left || asBoolean right))
  else if isNull left || isNull right then Ok VNull
  else if op =? "=" then Ok (VBoolean (value_eqb left right))
  else if op =? "!=" then Ok (VBoolean (negb (value_eqb left right)))
  else if op =? "<" then Ok (VBoolean (compare left right <? 0)%Z)
  else if op =? ">" then Ok (VBoolean (0 <? compare left right)%Z)
  else if op =? "<=" then Ok (VBoolean (compare left right <=? 0)%Z)
  else if op =? ">=" then Ok (VBoolean (0 <=? compare left right)%Z)
  else if op =? "||" then Ok (VText (toString left +:+ toString right))
  else if negb (isNumeric left) || negb (isNumeric right) then
    Err (Throw "Arithmetic requires numeric operands")
  else if op =? "+" then arithmetic Z.add dadd left right
  else if op =? "-" then arithmetic Z.sub dsub left right
  else if op =? "*" then arithmetic Z.mul dmul left right
  else if op =? "/" then divide left right
  else Err (Throw ("Unsupported binary operator: " +:+ op)).

Definition applyUnary (op : string) (value : Value) : exec Value :=
  if op =? "NOT" then Ok (VBoolean (negb (asBoolean value)))
  else if isNull value then Ok VNull
  else if (op =? "-") && isNumeric value then
    match value with
    | VInteger z => int_value (- z)
    | _ => let* d := asReal value in Ok (VReal (dopp d))
    end
  else Err (Throw ("Unsupported unary operator: " +:+ op)).

(** ** Aggregate names *)

Definition isLoneWolfName (name : string) : bool :=
  (name =? "LONE-WOLF") || (name =? "lone-wolf").

Definition aggregate_name (name : string) : bool :=
  (name =? "headcount") || (name =? "stack") || (name =? "mid") || (name =? "goat") ||
  (name =? "L") || (name =? "mid-fr") || (name =? "percent-check") ||
  isLoneWolfName name.

Fixpoint hasAggregate (expression : Node) : bool :=
  match expression with
  | FunctionCall name _ _ _ _ => aggregate_name name
  | BinaryOp _ l r _ _ => hasAggregate l || hasAggregate r
  | UnaryOp _ e _ _ => hasAggregate e
  | _ => false
  end.

Definition selectHasAggregate (statement : Select_) : bool :=
  existsb hasAggregate (s_columns statement) ||
  match s_having statement with Some e => hasAggregate e | None => false end.

(** ** Evaluation in a row *)

Definition literal_value (v : literal) : Value :=
  match v with
  | LInt z => VInteger z
  | LFloat d => VReal d
  | LString s => VText s
  | LNull => VNull
  | LBool b => VBoolean b
  end.

Fixpoint eval (expression : Node) (row : EvalRow) : exec Value :=
  match expression with
  | Literal v _ => Ok (literal_value v)
  | ColumnRef table column _ _ => resolveColumn table column row
  | BinaryOp op l r _ _ =>
      let* x := eval l row in
      let* y := eval r row in
      applyBinary op x y
  | UnaryOp op e _ _ =>
      let* value := eval e row in
      applyUnary op value
  | Wildcard _ _ _ => Err (Throw "Wildcard is not a scalar expression")
  | FunctionCall name _ _ _ _ =>
      if hasAggregate expression then
        Err (Throw "Aggregate used outside grouped evaluation")
      else Err (Throw ("Unknown scalar function: " +:+ name))
  | WindowFunc _ _ _ _ _ | Select _ => Err (Throw "Unsupported native expression")
  end.

(** ** Numbers of the aggregates *)

Definition dsqrt (a : double) : double := bits_of (SFsqrt 53 1024 (SF_of a)).
Definition dfabs (a : double) : double := dmag a.
(** [std::max(a, b)] *)
Definition dmax (a b : double) : double := if dltb a b then b else a.

Definition sum_of (samples : list double) : double := fold_left dadd samples dzero.

Definition countLoneWolves (samples : list double) : Z :=
  if (length samples <? 2)%nat then 0
  else
    let sum := sum_of samples in
    let sumSquares := fold_left (λ acc value, dadd acc (dmul value value)) samples dzero in
    let count := of_int (Z.of_nat (length samples)) in
    let mean := ddiv sum count in
    let variance := dmax dzero (dsub (ddiv sumSquares count) (dmul mean mean)) in
    let sigma := dsqrt variance in
    if deqb sigma dzero then 0
    else
      let threshold := dmul sigma (of_int 3) in
      Z.of_nat (length (List.filter (λ value, dgtb (dfabs (dsub value mean)) threshold) samples)).

(** [static_cast<size_t>(std::ceil(d))] of a number that is not negative. *)
Definition ceil_size (d : double) : option Z :=
  match SF_of d with
  | S754_zero _ => Some 0
  | S754_finite false m e =>
      let z := if decide (0 ≤ e)%Z then (Zpos m * 2 ^ e)%Z
               else ((Zpos m + 2 ^ (- e) - 1) `div` 2 ^ (- e))%Z in
      if decide (u64 z) then Some z else None
  | _ => None
  end.

(** [std::clamp(v, lo, hi)] *)
Definition dclamp (v lo hi : double) : double :=
  if dltb v lo then lo else if dltb hi v then hi else v.

(** ** Aggregates over a group of rows *)

Section Aggregates.
(** [std::sort(values.begin(), values.end(), compare < 0)] *)
Context (std_sort : list Value → list Value).

(** The argument in every row, without the nulls. *)
Fixpoint non_null_values (argument : Node) (rows : list EvalRow) : exec (list Value) :=
  match rows with
  | [] => Ok []
  | row :: rows =>
      let* value := eval argument row in
      let* values := non_null_values argument rows in
      Ok (if isNull value then values else value :: values)
  end.

(** The loop of [headcount]: [seen] is the hash set of a DISTINCT count. *)
Fixpoint count_loop (argument : Node) (distinct : bool) (rows : list EvalRow)
    (seen : list Value) (count : Z) : exec Z :=
  match rows with
  | [] => Ok count
  | row :: rows =>
      let* value := eval argument row in
      if isNull value then count_loop argument distinct rows seen count
      else if distinct && existsb (value_eqb value) seen then
        count_loop argument distinct rows seen count
      else count_loop argument distinct rows (value :: seen) (count + 1)%Z
  end.

Definition is_wildcard (n : Node) : bool :=
  match n with Wildcard _ _ _ => true | _ => false end.

(** [asReal] of every value, which must be numeric. *)
Definition samples_of (error : string) (values : list Value) : exec (list double) :=
  rmap (λ v, if isNumeric v then asReal v else Err (Throw error)) values.

Definition is_integer (v : Value) : bool := bool_decide (type v = Integer).

Definition sum_value (values : list Value) (sum : double) : exec Value :=
  if forallb is_integer values then
    match to_int sum with
    | Some z => Ok (VInteger z)
    | None => Err (Undefined "double to int64_t conversion out of range")
    end
  else Ok (VReal sum).

(** The loop of [goat] and [L]. *)
Definition extremum (better : Z → bool) (first : Value) (rest : list Value) : Value :=
  fold_left (λ result v, if better (compare v result) then v else result) rest first.

Definition dhundred : double := of_int 100.

Definition median (values : list Value) : exec Value :=
  let sorted := std_sort values in
  let middle := (length sorted / 2)%nat in
  if Nat.odd (length sorted) then nth_value sorted middle
  else
    let* lo := nth_value sorted (middle - 1) in
    let* hi := nth_value sorted middle in
    if isNumeric lo && isNumeric hi then
      let* x := asReal lo in
      let* y := asReal hi in
      Ok (VReal (ddiv (dadd x y) (of_int 2)))
    else Ok lo.

Definition percentile (values : list Value) (argument : Value) : exec Value :=
  let sorted := std_sort values in
  let* p := asReal argument in
  let pct := dclamp p dzero dhundred in
  match ceil_size (ddiv (dmul (of_int (Z.of_nat (length sorted))) pct) dhundred) with
  | Some rank => nth_value sorted (Z.to_nat (Z.max 1 rank - 1))
  | None => Err (Undefined "double to size_t conversion out of range")
  end.

Definition aggregate (name : string) (args : list Node) (distinct : bool)
    (rows : list EvalRow) : exec Value :=
  if name =? "headcount" then
    match args with
    | argument :: _ =>
        if is_wildcard argument then Ok (VInteger (Z.of_nat (length rows)))
        else let* count := count_loop argument distinct rows [] 0 in Ok (VInteger count)
    | [] => Ok (VInteger (Z.of_nat (length rows)))
    end
  else
    match args with
    | [] => Err (Throw "Aggregate requires an argument")
    | argument :: more =>
        let* values := non_null_values argument rows in
        match values with
        | [] => Ok VNull
        | first :: rest =>
            if (name =? "stack") || (name =? "mid") then
              let* samples := samples_of "Numeric aggregate on non-number" values in
              let sum := sum_of samples in
              if name =? "mid" then
                Ok (VReal (ddiv sum (of_int (Z.of_nat (length values)))))
              else sum_value values sum
            else if name =? "goat" then Ok (extremum (λ c, 0 <? c)%Z first rest)
            else if name =? "L" then Ok (extremum (λ c, c <? 0)%Z first rest)
            else if isLoneWolfName name then
              let* samples := samples_of "LONE-WOLF requires numeric operands" values in
              Ok (VInteger (countLoneWolves samples))
            else if name =? "mid-fr" then median values
            else if name =? "percent-check" then
              match more, rows with
              | second :: _, row :: _ =>
                  let* argument := eval second row in
                  percentile values argument
              | [], _ => Err (Throw "percent-check requires percentile")
              | _, [] => Err (Undefined "rows.front() of no rows")
              end
            else Err (Throw ("Unsupported aggregate: " +:+ name))
        end
    end.

Definition eval_front (expression : Node) (rows : list EvalRow) : exec Value :=
  match rows with
  | [] => Ok VNull
  | row :: _ => eval expression row
  end.

Fixpoint evalGrouped (expression : Node) (rows : list EvalRow) : exec Value :=
  match expression with
  | FunctionCall name args distinct _ _ =>
      if hasAggregate expression then aggregate name args distinct rows
      else eval_front expression rows
  | BinaryOp op l r _ _ =>
      let* x := evalGrouped l rows in
      let* y := evalGrouped r rows in
      applyBinary op x y
  | UnaryOp op e _ _ =>
      let* value := evalGrouped e rows in
      applyUnary op value
  | _ => eval_front expression rows
  end.

Definition projectGrouped (statement : Select_) (rows : list EvalRow) : exec (list Value) :=
  rmap (λ expression,
    if is_wildcard expression then
      Err (Throw "Wildcard is not supported in aggregate projection")
    else evalGrouped expression rows) (s_columns statement).
End Aggregates.

(** ** Window functions and projection *)

Fixpoint same_partition (partition_by : list Node) (candidate row : EvalRow) : exec bool :=
  match partition_by with
  | [] => Ok true
  | expression :: rest =>
      let* x := eval expression candidate in
      let* y := eval expression row in
      if value_eqb x y then same_partition rest candidate row else Ok false
  end.

Fixpoint precedes (order_by : list (OrderItem Node)) (candidate row : EvalRow) : exec bool :=
  match order_by with
  | [] => Ok false
  | order :: rest =>
      let* x := eval (oi_expr order) candidate in
      let* y := eval (oi_expr order) row in
      let comparison := compare x y in
      if (comparison =? 0)%Z then precedes rest candidate row
      else Ok (if oi_asc order then comparison <? 0 else 0 <? comparison)%Z
  end.

Definition windowValue (funcName : string) (partition_by : list Node)
    (order_by : list (OrderItem Node)) (row : EvalRow) (allRows : list EvalRow)
    : exec Value :=
  if negb (funcName =? "RANK") then
    Err (Throw ("Unsupported window function: " +:+ funcName))
  else
    let* rank := rfold (λ rank candidate,
      let* same := same_partition partition_by candidate row in
      if same : bool then
        let* before := precedes order_by candidate row in
        Ok (if before : bool then rank + 1 else rank)%Z
      else Ok rank) allRows 1%Z in
    Ok (VInteger rank).

Definition wildcard_matches (table : string) (column : BoundColumn) : bool :=
  (table =? "") || (table =? bc_table column) || (table =? bc_alias column).

Fixpoint expand_wildcard (table : string) (cols : list BoundColumn) (row : list Value)
    (index : nat) : exec (list Value) :=
  match cols with
  | [] => Ok []
  | column :: cols =>
      if wildcard_matches table column then
        let* v := nth_value row index in
        let* vs := expand_wildcard table cols row (S index) in
        Ok (v :: vs)
      else expand_wildcard table cols row (S index)
  end.

Definition project_one (row : EvalRow) (allRows : option (list EvalRow)) (expression : Node)
    : exec (list Value) :=
  match expression with
  | Wildcard table _ _ =>
      match columns row with
      | Some cols => expand_wildcard table cols (values row) 0
      | None => Err (Undefined "null schema of a row")
      end
  | WindowFunc f ps os _ _ =>
      match allRows with
      | Some rows => let* v := windowValue f ps os row rows in Ok [v]
      | None => Err (Throw "Window function requires an input relation")
      end
  | _ => let* v := eval expression row in Ok [v]
  end.

Definition project (statement : Select_) (row : EvalRow) (allRows : option (list EvalRow))
    : exec (list Value) :=
  let* parts := rmap (project_one row allRows) (s_columns statement) in
  Ok (concat parts).

(** ** Names of the output and sort keys *)

Definition expressionAlias (expression : Node) (fallback : nat) : string :=
  let or_position alias :=
    if alias =? "" then "expr" +:+ dec_unsigned (Z.of_nat (fallback + 1)) else alias in
  match expression with
  | ColumnRef _ column alias _ => if alias =? "" then column else alias
  | FunctionCall name _ _ alias _ => if alias =? "" then name else alias
  | BinaryOp _ _ _ alias _ => or_position alias
  | UnaryOp _ _ alias _ => or_position alias
  | WindowFunc funcName _ _ alias _ => if alias =? "" then funcName else alias
  | _ => or_position ""
  end.

Fixpoint resolveOutputColumn (column : string) (names : list string) (row : list Value)
    (index : nat) : exec Value :=
  match names with
  | [] => Err (Throw ("Unknown output column: " +:+ column))
  | name :: names =>
      if name =? column then nth_value row index
      else resolveOutputColumn column names row (S index)
  end.

(** [try { eval(...) } catch (runtime_error) { output column }] *)
Definition order_key (evaluated : exec Value) (expression : Node) (names : list string)
    (projected : list Value) : exec Value :=
  match evaluated with
  | Err (Throw what) =>
      match expression with
      | ColumnRef _ column _ _ => resolveOutputColumn column names projected 0
      | _ => Err (Throw what)
      end
  | other => other
  end.

Definition orderKeys (statement : Select_) (row : EvalRow) (names : list string)
    (projected : list Value) : exec (list Value) :=
  rmap (λ order, order_key (eval (oi_expr order) row) (oi_expr order) names projected)
    (s_orderBy statement).

Definition orderKeysGrouped (std_sort : list Value → list Value) (statement : Select_)
    (rows : list EvalRow) (names : list string) (projected : list Value)
    : exec (list Value) :=
  rmap (λ order, order_key (evalGrouped std_sort (oi_expr order) rows) (oi_expr order)
                   names projected)
    (s_orderBy statement).

(** * Division *)

(** The test for a zero divisor is made on doubles; it keeps a zero from the
    division of integers. *)
Lemma int_divide_guarded a b :
  deqb (of_int b) dzero = false → int_divide a b = int_value (Z.quot a b).
Proof. unfold int_divide. case_decide as Hb; [by subst b|done]. Qed.

Lemma divide_guarded x y :
  divide x y = (let* b := asReal y in
                if deqb b dzero then Ok VNull else arithmetic Z.quot ddiv x y).
Proof.
  unfold divide. destruct (asReal y) as [d|f] eqn:Hy; [cbn [rbind]|done].
  destruct (deqb d dzero) eqn:Hd; [done|].
  destruct x, y; try discriminate Hy; injection Hy as <-; try reflexivity.
  by apply int_divide_guarded.
Qed.

(** * Column resolution *)

Definition column_matches (table column : string) (candidate : BoundColumn) : bool :=
  bool_decide (bc_name candidate = column) && qualifier_matches table candidate.

(** The values of the columns a reference can mean, in schema order. *)
Fixpoint candidate_values (table column : string) (cols : list BoundColumn)
    (row : list Value) : list Value :=
  match cols, row with
  | c :: cols, v :: row =>
      if column_matches table column c then v :: candidate_values table column cols row
      else candidate_values table column cols row
  | _, _ => []
  end.

Definition last_value (v : Value) (more : list Value) : Value :=
  fold_left (λ _ w, w) more v.

(** What the loop of [resolveColumn] makes of the candidates still to come. *)
Definition resolve_candidates (table column : string) (result : option Value)
    (candidates : list Value) : exec (option Value) :=
  match candidates with
  | [] => Ok result
  | v :: more =>
      if bool_decide (is_Some result ∨ more ≠ []) && bool_decide (table = "") then
        Err (Throw ("Ambiguous column: " +:+ column))
      else Ok (Some (last_value v more))
  end.

Lemma resolve_candidates_cons table column result v more :
  resolve_candidates table column result (v :: more) =
  if bool_decide (is_Some result) && bool_decide (table = "") then
    Err (Throw ("Ambiguous column: " +:+ column))
  else resolve_candidates table column (Some v) more.
Proof.
  unfold resolve_candidates.
  destruct (decide (table = "")) as [Ht|Ht];
    [rewrite (bool_decide_eq_true_2 (table = "")) by done
    |rewrite (bool_decide_eq_false_2 (table = "")) by done];
    rewrite ?andb_true_r, ?andb_false_r.
  - destruct result as [w|].
    { by rewrite !bool_decide_eq_true_2 by (try left; by eexists). }
    rewrite (bool_decide_eq_false_2 (is_Some None)) by (by intros []).
    destruct more as [|w more]; [by rewrite bool_decide_eq_false_2 by naive_solver|].
    by rewrite !bool_decide_eq_true_2 by naive_solver.
  - by destruct more; rewrite ?andb_false_r.
Qed.

Lemma resolve_loop_candidates table column pre suf cols result :
  length suf = length cols →
  resolve_loop table column (pre ++ suf) cols (length pre) result =
  resolve_candidates table column result (candidate_values table column cols suf).
Proof.
  revert pre suf result. induction cols as [|c cols IH]; intros pre [|v suf] result Hl;
    try done. cbn [resolve_loop candidate_values].
  replace (pre ++ v :: suf)%list with ((pre ++ [v]) ++ suf)%list by (by rewrite <- app_assoc).
  injection Hl as Hl. specialize (IH (pre ++ [v])%list suf).
  rewrite length_app, Nat.add_1_r in IH. unfold column_matches.
  destruct (bool_decide (bc_name c = column)); cbn [negb orb andb]; [|by apply IH].
  destruct (qualifier_matches table c); cbn [negb]; [|by apply IH].
  rewrite resolve_candidates_cons.
  destruct (bool_decide (is_Some result) && bool_decide (table = "")); [done|].
  assert (nth_value ((pre ++ [v]) ++ suf) (length pre) = Ok v) as ->.
  { unfold nth_value. rewrite <- app_assoc. change ([v] ++ suf)%list with (v :: suf).
    by rewrite list_lookup_middle. }
  by apply IH.
Qed.

Lemma resolveColumn_candidates (table column : string) (row : EvalRow) (cols : list BoundColumn) :
  columns row = Some cols → length (values row) = length cols →
  resolveColumn table column row =
  match candidate_values table column cols (values row) with
  | [] => Err (Throw ("Unknown column: " +:+
                 (if bool_decide (table = "") then "" else table +:+ ".") +:+ column))
  | v :: more =>
      if bool_decide (more ≠ []) && bool_decide (table = "") then
        Err (Throw ("Ambiguous column: " +:+ column))
      else Ok (last_value v more)
  end.
Proof.
  intros Hc Hl. unfold resolveColumn. rewrite Hc.
  rewrite (resolve_loop_candidates table column [] (values row)) by done.
  unfold resolve_candidates. destruct (candidate_values _ _ _ _) as [|v more]; [done|].
  rewrite (bool_decide_ext (is_Some None ∨ more ≠ []) (more ≠ [])).
  - by destruct (bool_decide (more ≠ []) && bool_decide (table = "")).
  - split; [intros [[]|]; done|by right].
Qed.

(** Resolving a column reference in a row that has one value per column: a
    name that no column carries is an unknown column; an unqualified name that
    two columns carry is ambiguous; otherwise the result is the value of the
    matching column, the last one for a qualified name.  A reference matches a
    column by name and, when qualified, by the table's name or alias. *)
Theorem resolveColumn_spec (table column : string) (row : EvalRow) (cols : list BoundColumn) :
  columns row = Some cols → length (values row) = length cols →
  resolveColumn table column row =
  match candidate_values table column cols (values row) with
  | [] => Err (Throw ("Unknown column: " +:+
                 (if bool_decide (table = "") then "" else table +:+ ".") +:+ column))
  | v :: more =>
      if bool_decide (more ≠ []) && bool_decide (table = "") then
        Err (Throw ("Ambiguous column: " +:+ column))
      else Ok (last_value v more)
  end.
Proof. apply resolveColumn_candidates. Qed.

Example resolveColumn_spec_witness :
  resolveColumn "b" "x" (mkRow (Some [mkBound "t" "a" "x"; mkBound "t" "b" "x"])
                            [VInteger 1; VInteger 2]) = Ok (VInteger 2).
Proof.
  exact (resolveColumn_spec "b" "x"
    (mkRow (Some [mkBound "t" "a" "x"; mkBound "t" "b" "x"]) [VInteger 1; VInteger 2])
    [mkBound "t" "a" "x"; mkBound "t" "b" "x"] eq_refl eq_refl).
Defined.

(** * Evaluation is safe *)

(** The integer literals of an expression fit [int64_t], as the parser's do. *)
Fixpoint literals_ok (n : Node) : Prop :=
  match n with
  | Literal (LInt z) _ => i64 z
  | BinaryOp _ l r _ _ => literals_ok l ∧ literals_ok r
  | UnaryOp _ e _ _ => literals_ok e
  | _ => True
  end.

Definition int_ok (v : Value) : Prop :=
  match v with VInteger z => i64 z | _ => True end.

(** The only undefined behaviour of an outcome is a signed overflow, and an
    integer result fits [int64_t]. *)
Definition safe_outcome (o : exec Value) : Prop :=
  match o with
  | Ok v => int_ok v
  | Err (Throw _) => True
  | Err (Undefined why) => why = "signed integer overflow"
  end.

Lemma int_value_safe z : safe_outcome (int_value z).
Proof. unfold int_value. by case_decide. Qed.

Lemma asReal_cases v : (∃ d, asReal v = Ok d) ∨ asReal v = Err (Throw "Value is not numeric").
Proof. destruct v; cbn; eauto. Qed.

Lemma arithmetic_safe iop rop x y : safe_outcome (arithmetic iop rop x y).
Proof.
  assert (safe_outcome (let* a := asReal x in let* b := asReal y in Ok (VReal (rop a b)))).
  { destruct (asReal_cases x) as [[a ->]| ->]; [|done].
    by destruct (asReal_cases y) as [[b ->]| ->]. }
  destruct x, y; try done. apply int_value_safe.
Qed.

Lemma applyBinary_safe op x y : safe_outcome (applyBinary op x y).
Proof.
  unfold applyBinary. repeat case_match; try done; try apply arithmetic_safe.
  rewrite divide_guarded. destruct (asReal_cases y) as [[b ->]| ->]; [|done]. cbn [rbind].
  case_match; [done|apply arithmetic_safe].
Qed.

Lemma applyUnary_safe op x : safe_outcome (applyUnary op x).
Proof.
  unfold applyUnary. repeat case_match; try done; try apply int_value_safe.
Qed.

Lemma candidate_values_elem table column cols row v :
  v ∈ candidate_values table column cols row → v ∈ row.
Proof.
  revert row. induction cols as [|c cols IH]; intros [|w row]; cbn; try set_solver.
  case_match; set_solver.
Qed.

Lemma last_value_elem v more : last_value v more ∈ v :: more.
Proof.
  revert v. induction more as [|w more IH]; intros v; [apply list_elem_of_here|].
  apply list_elem_of_further, IH.
Qed.

Lemma resolveColumn_safe table column row cols :
  columns row = Some cols → length (values row) = length cols →
  Forall int_ok (values row) → safe_outcome (resolveColumn table column row).
Proof.
  intros Hc Hl Hok. unfold resolveColumn. rewrite Hc.
  rewrite (resolve_loop_candidates table column [] (values row)) by done.
  unfold resolve_candidates.
  destruct (candidate_values table column cols (values row)) as [|v more] eqn:E; [done|].
  case_match; [done|]. cbn. rewrite Forall_forall in Hok. apply Hok.
  apply (candidate_values_elem table column cols). rewrite E. apply last_value_elem.
Qed.

(** *** Results have the C++ representation *)

Fixpoint literals_scalar (n : Node) : Prop :=
  match n with
  | Literal v _ => scalar (literal_value v)
  | BinaryOp _ l r _ _ => literals_scalar l ∧ literals_scalar r
  | UnaryOp _ e _ _ => literals_scalar e
  | _ => True
  end.

Lemma resolve_loop_elem table column row cols index result v :
  resolve_loop table column row cols index result = Ok (Some v) →
  result = Some v ∨ v ∈ row.
Proof.
  revert index result. induction cols as [|c cols IH]; intros index result; cbn.
  - intros [= ->]. by left.
  - case_match; [apply IH|]. case_match; [done|]. unfold nth_value.
    destruct (row !! index) as [w|] eqn:Hw; [|done]. cbn [rbind]. intros [[= ->]|]%IH; [|by right].
    right. by eapply list_elem_of_lookup_2.
Qed.

Lemma arithmetic_scalar iop rop x y v :
  (∀ a b, u64 (rop a b)) → arithmetic iop rop x y = Ok v → scalar v.
Proof.
  intros Hr. assert (Hreal : (let* a := asReal x in let* b := asReal y in
    Ok (VReal (rop a b))) = Ok v → scalar v).
  { destruct (asReal x); [|done]. destruct (asReal y); [|done]. cbn. intros [= <-]. apply Hr. }
  unfold arithmetic. destruct x, y; try exact Hreal. unfold int_value. case_decide; [|done].
  by intros [= <-].
Qed.

Lemma applyBinary_scalar op x y v : applyBinary op x y = Ok v → scalar v.
Proof.
  assert (Hr : ∀ f, u64 (bits_of f)) by apply bits_of_u64.
  unfold applyBinary. intros H.
  repeat (case_match; [by injection H as <-|]). case_match; [done|].
  repeat (case_match; [eapply arithmetic_scalar; [|exact H]; intros; apply Hr|]).
  case_match; [|done]. rewrite divide_guarded in H.
  destruct (asReal y) as [b|]; [|done]. cbn [rbind] in H.
  case_match; [by injection H as <-|]. eapply arithmetic_scalar; [|exact H]. intros. apply Hr.
Qed.

Lemma applyUnary_scalar op x v : scalar x → applyUnary op x = Ok v → scalar v.
Proof.
  unfold applyUnary. intros Hx H. case_match; [by injection H as <-|].
  case_match; [by injection H as <-|]. case_match; [|done].
  assert (Hreal : (let* d := asReal x in Ok (VReal (dopp d))) = Ok v → scalar v).
  { destruct (asReal x) as [d|] eqn:Hd; [|done]. cbn [rbind]. intros [= <-].
    by apply dopp_u64, (asReal_u64 x). }
  destruct x; try by apply Hreal. unfold int_value in H. case_decide; [|done].
  by injection H as <-.
Qed.

Lemma eval_scalar e row v :
  Forall scalar (values row) → literals_scalar e → eval e row = Ok v → scalar v.
Proof.
  intros Hrow. revert v. induction e as [l p|tb c ? ?|?|op l IHl r IHr ? ?|op e IH ? ?|name ? ? ? ?|?|?];
    intros v Hlit H; try done.
  - by injection H as <-.
  - cbn in H. unfold resolveColumn in H. destruct (columns row) as [cols|]; [|done].
    destruct (resolve_loop _ _ _ _ _ _) as [[w|]|] eqn:Hw; try done. injection H as <-.
    apply resolve_loop_elem in Hw as [|Hw]; [done|]. by eapply Forall_forall.
  - cbn [eval] in H. destruct (eval l row) as [x|]; [|done]. destruct (eval r row) as [y|]; [|done].
    by eapply applyBinary_scalar.
  - cbn [eval] in H. destruct (eval e row) as [x|] eqn:Hx; [|done].
    eapply applyUnary_scalar; [|exact H]. by apply IH.
  - cbn [eval] in H. by case_match.
Qed.

(** C35: evaluating any expression in a row that has one value per column and
    whose integers fit [int64_t] (as the expression's literals do) never reads
    out of range and never divides an integer by zero; its only undefined
    behaviour is a signed overflow, and an integer it returns fits [int64_t]
    again. *)
Theorem eval_safe (e : Node) (row : EvalRow) (cols : list BoundColumn) :
  columns row = Some cols → length (values row) = length cols →
  Forall int_ok (values row) → literals_ok e → safe_outcome (eval e row).
Proof.
  intros Hc Hl Hok. induction e as [v p| | |op l IHl r IHr ? ?|op e IH ? ?| | |];
    intros Hlit; try done.
  - by destruct v.
  - by eapply resolveColumn_safe.
  - destruct Hlit as [Hll Hlr]. specialize (IHl Hll). specialize (IHr Hlr). cbn [eval].
    destruct (eval l row) as [x|]; [cbn [rbind]|done].
    destruct (eval r row) as [y|]; [cbn [rbind]|done]. apply applyBinary_safe.
  - specialize (IH Hlit). cbn [eval].
    destruct (eval e row) as [x|]; [cbn [rbind]|done]. apply applyUnary_safe.
  - cbn [eval]. by case_match.
Qed.

(** [7 / x + 9223372036854775807] where [x] is 0. *)
Example eval_safe_witness :
  safe_outcome (eval (BinaryOp "+"
      (BinaryOp "/" (Literal (LInt 7) (Loc 1 1)) (ColumnRef "" "x" "" (Loc 1 3)) "" (Loc 1 2))
      (Literal (LInt (2 ^ 63 - 1)) (Loc 1 5)) "" (Loc 1 4))
    (mkRow (Some [mkBound "t" "" "x"]) [VInteger 0])).
Proof.
  apply (eval_safe _ _ [mkBound "t" "" "x"]).
  - reflexivity.
  - reflexivity.
  - constructor; [|constructor]. split; [discriminate|reflexivity].
  - split; [split; [split; [discriminate|reflexivity]|exact I]|]. split; [discriminate|reflexivity].
Defined.

(** The three outcomes of an integer division. *)
Example integer_divisions :
  (applyBinary "/" (VInteger (-7)) (VInteger 2), applyBinary "/" (VInteger 7) (VInteger 0),
   applyBinary "/" (VInteger (- 2 ^ 63)) (VInteger (-1)))
  = (Ok (VInteger (-3)), Ok VNull, Err (Undefined "signed integer overflow")).
Proof. vm_compute. reflexivity. Qed.
