(* ===== verification/Select.v ===== *)
(** The row-at-a-time part of [NativeEngine::executeSelect]
    ([src/native_engine.cpp]): everything after the rows of the FROM clause are
    known and before the caller prints the result - WHERE, [biggest-W], grouping
    with its streaming shortcut, projection, DISTINCT, ORDER BY, LIMIT and
    OFFSET.  The access paths that produce the rows are not modelled here.
    [std::sort] and the iteration order of the hash maps are parameters. *)

From S2P Require Import Prelude.
From S2P Require Import Double.
From S2P Require Import Format.
From S2P Require Import Value.
From S2P Require Import Ast.
From S2P Require Import Catalog.
From S2P Require Import Eval.

#[local] Set Warnings "-register-all".
#[local] Open Scope string_scope.

Abbreviation tuple := (list Value) (only parsing).

(** [operator==] of two vectors of values. *)
Fixpoint tupleEqual (a b : tuple) : bool :=
  match a, b with
  | [], [] => true
  | x :: a, y :: b => value_eqb x y && tupleEqual a b
  | _, _ => false
  end.

Record OutputRow : Type := mkOutput {
  o_values : tuple;
  o_orderKeys : list Value;
}.

(** ** [std::stable_sort] with a strict weak order *)

Fixpoint stable_insert {A} (less : A → A → bool) (x : A) (l : list A) : list A :=
  match l with
  | [] => [x]
  | y :: l => if less y x then y :: stable_insert less x l else x :: y :: l
  end.

Definition stable_sort {A} (less : A → A → bool) (l : list A) : list A :=
  foldr (stable_insert less) [] l.

(** ** WHERE *)

(** [!condition || eval(condition, row).asBoolean()] *)
Definition keeps (condition : option Node) (row : EvalRow) : exec bool :=
  match condition with
  | None => Ok true
  | Some e => let* v := eval e row in Ok (asBoolean v)
  end.

Fixpoint filter_rows (condition : option Node) (rows : list EvalRow) : exec (list EvalRow) :=
  match rows with
  | [] => Ok []
  | row :: rows =>
      let* keep := keeps condition row in
      let* rest := filter_rows condition rows in
      Ok (if keep : bool then row :: rest else rest)
  end.

(** ** [biggest-W] and [biggest-L]

    The keys are evaluated when there is something to compare; the row that
    comes first in the stable order is kept. *)
Definition is_biggest (name : string) : bool := (name =? "biggest-W") || (name =? "biggest-L").

Fixpoint find_biggest (columns : list Node) : option (string * list Node) :=
  match columns with
  | [] => None
  | FunctionCall name args _ _ _ :: rest =>
      if is_biggest name then Some (name, args) else find_biggest rest
  | _ :: rest => find_biggest rest
  end.

Definition biggest_rows (name : string) (argument : Node) (rows : list EvalRow)
    : exec (list EvalRow) :=
  if (length rows <? 2)%nat then Ok rows
  else
    let* keyed := rmap (λ row, let* k := eval argument row in Ok (k, row)) rows in
    let less (a b : Value * EvalRow) :=
      if name =? "biggest-W" then (0 <? compare a.1 b.1)%Z else (compare a.1 b.1 <? 0)%Z in
    Ok (take 1 (map snd (stable_sort less keyed))).

(** The rows, and whether the whole row is the projection. *)
Definition apply_biggest (s : Select_) (rows : list EvalRow) : exec (list EvalRow * bool) :=
  match find_biggest (s_columns s) with
  | Some (name, argument :: _) =>
      let* rows := biggest_rows name argument rows in Ok (rows, true)
  | _ => Ok (rows, false)
  end.

(** ** Names of the result *)

Definition table_names (catalog_ : Catalog) (wildcard table alias : string) : list string :=
  if negb (wildcard =? "") && negb (wildcard =? table) && negb (wildcard =? alias) then []
  else match getTable catalog_ table with
  | None => []
  | Some metadata => map cm_name (t_columns metadata)
  end.

Definition wildcard_names (catalog_ : Catalog) (s : Select_) (sample : option (list BoundColumn))
    (wildcard : string) : list string :=
  match sample with
  | Some cols => map bc_name (List.filter (wildcard_matches wildcard) cols)
  | None =>
      table_names catalog_ wildcard (s_fromTable s) (s_fromAlias s) ++
      concat (map (λ join, table_names catalog_ wildcard (jc_table join) (jc_alias join))
                  (s_joins s))
  end.

Fixpoint output_names_from (catalog_ : Catalog) (s : Select_)
    (sample : option (list BoundColumn)) (columns : list Node) (index : nat) : list string :=
  match columns with
  | [] => []
  | expression :: columns =>
      (match expression with
       | Wildcard table _ _ => wildcard_names catalog_ s sample table
       | _ => [expressionAlias expression index]
       end ++ output_names_from catalog_ s sample columns (S index))%list
  end.

Definition outputNames (catalog_ : Catalog) (s : Select_) (sample : option (list BoundColumn))
    : list string :=
  output_names_from catalog_ s sample (s_columns s) 0.

(** ** DISTINCT, ORDER BY, LIMIT and OFFSET *)

Fixpoint distinct_from (seen : list tuple) (output : list OutputRow) : list OutputRow :=
  match output with
  | [] => []
  | row :: output =>
      if existsb (tupleEqual (o_values row)) seen then distinct_from seen output
      else row :: distinct_from (o_values row :: seen) output
  end.

Definition apply_distinct (distinct : bool) (output : list OutputRow) : list OutputRow :=
  if distinct then distinct_from [] output else output.

(** The comparison of two rows by their keys, each ascending or descending. *)
Fixpoint keys_before (orders : list (OrderItem Node)) (a b : list Value) : bool :=
  match orders, a, b with
  | order :: orders, x :: a, y :: b =>
      let comparison := compare x y in
      if (comparison =? 0)%Z then keys_before orders a b
      else if oi_asc order then (comparison <? 0)%Z else (0 <? comparison)%Z
  | _, _, _ => false
  end.

Definition apply_order (orders : list (OrderItem Node)) (output : list OutputRow)
    : list OutputRow :=
  match orders with
  | [] => output
  | _ :: _ => stable_sort (λ a b, keys_before orders (o_orderKeys a) (o_orderKeys b)) output
  end.

Definition integerLiteral (expression : option Node) (fallback : Z) : exec Z :=
  match expression with
  | Some (Literal (LInt z) _) => Ok z
  | Some (Literal (LFloat d) _) =>
      match to_int d with
      | Some z => Ok z
      | None => Err (Undefined "double to int64_t conversion out of range")
      end
  | _ => Ok fallback
  end.

Definition apply_limit (limit offset : option Node) (output : list OutputRow)
    : exec (list tuple) :=
  let* skip := integerLiteral offset 0 in
  let rest := drop (Z.to_nat skip) output in
  match limit with
  | None => Ok (map o_values rest)
  | Some _ =>
      let* count := integerLiteral limit 0 in
      Ok (map o_values (take (Z.to_nat count) rest))
  end.

(** ** Grouping *)

(** A hash map from tuples, in insertion order. *)
Fixpoint group_update {A} (key : tuple) (empty : A) (f : A → exec A) (groups : list (tuple * A))
    : exec (list (tuple * A)) :=
  match groups with
  | [] => let* a := f empty in Ok [(key, a)]
  | (k, a) :: groups =>
      if tupleEqual k key then let* a := f a in Ok ((k, a) :: groups)
      else let* groups := group_update key empty f groups in Ok ((k, a) :: groups)
  end.

Definition group_key (groupBy : list Node) (row : EvalRow) : exec tuple :=
  rmap (λ e, eval e row) groupBy.

Definition group_rows (groupBy : list Node) (rows : list EvalRow)
    : exec (list (tuple * list EvalRow)) :=
  match groupBy with
  | [] => Ok [([], rows)]
  | _ :: _ =>
      rfold (λ groups row,
        let* key := group_key groupBy row in
        group_update key [] (λ members, Ok (members ++ [row])%list) groups) rows []
  end.

(** *** The streaming shortcut *)

Inductive StreamAggregateKind : Type :=
  | StreamCount | StreamSum | StreamAverage | StreamMax | StreamMin | StreamLoneWolf.

Inductive StreamProjection : Type :=
  | Representative (expression : Node)
  | CountRows
  | Aggregate (kind : StreamAggregateKind) (argument : Node).

Record StreamAggregateState : Type := mkStreamState {
  sa_count : Z;
  sa_sum : double;
  sa_allIntegers : bool;
  sa_extremum : option Value;
  sa_samples : list double;
}.

Definition stream_start : StreamAggregateState := mkStreamState 0 dzero true None [].

Definition isSimpleAggregateName (name : string) : bool :=
  (name =? "headcount") || (name =? "stack") || (name =? "mid") || (name =? "goat") ||
  (name =? "L") || isLoneWolfName name.

Definition stream_kind (name : string) : StreamAggregateKind :=
  if name =? "headcount" then StreamCount
  else if name =? "stack" then StreamSum
  else if name =? "mid" then StreamAverage
  else if name =? "goat" then StreamMax
  else if name =? "L" then StreamMin
  else if isLoneWolfName name then StreamLoneWolf
  else StreamCount.

Definition stream_projection (column : Node) : option StreamProjection :=
  match column with
  | FunctionCall name args distinct _ _ =>
      if distinct || negb (isSimpleAggregateName name) then None
      else if (name =? "headcount") &&
              match args with [] => true | a :: _ => is_wildcard a end
      then Some CountRows
      else match args with
      | [argument] => Some (Aggregate (stream_kind name) argument)
      | _ => None
      end
  | _ => if hasAggregate column then None else Some (Representative column)
  end.

Fixpoint stream_projections (columns : list Node) : option (list StreamProjection) :=
  match columns with
  | [] => Some []
  | c :: columns =>
      match stream_projection c, stream_projections columns with
      | Some p, Some ps => Some (p :: ps)
      | _, _ => None
      end
  end.

Definition streamable (s : Select_) : bool :=
  match s_having s, s_distinct s, s_orderBy s, s_limit s, s_offset s with
  | None, false, [], None, None => true
  | _, _, _, _, _ => false
  end.

(** One aggregate takes one value in. *)
Definition stream_add (kind : StreamAggregateKind) (value : Value)
    (state : StreamAggregateState) : exec StreamAggregateState :=
  let '(mkStreamState count sum allIntegers ext samples) := state in
  if isNull value then Ok state
  else match kind with
  | StreamCount => Ok (mkStreamState (count + 1) sum allIntegers ext samples)
  | StreamSum | StreamAverage | StreamLoneWolf =>
      if negb (isNumeric value) then Err (Throw "Numeric aggregate on non-number")
      else
        let* numeric := asReal value in
        Ok (mkStreamState (count + 1) (dadd sum numeric)
              (allIntegers && is_integer value) ext
              (match kind with StreamLoneWolf => samples ++ [numeric] | _ => samples end)%list)
  | StreamMax | StreamMin =>
      let better comparison :=
        match kind with StreamMax => (0 <? comparison)%Z | _ => (comparison <? 0)%Z end in
      let ext := match ext with
                 | None => value
                 | Some best => if better (compare value best) then value else best
                 end in
      Ok (mkStreamState (count + 1) sum allIntegers (Some ext) samples)
  end.

(** One projected column of a group: the representative or the aggregate. *)
Definition stream_cell : Type := Value * StreamAggregateState.

Definition stream_step (row : EvalRow) (projection : StreamProjection) (cell : stream_cell)
    : exec stream_cell :=
  let '(representative, state) := cell in
  match projection with
  | Representative expression =>
      if isNull representative then
        let* v := eval expression row in Ok (v, state)
      else Ok cell
  | CountRows =>
      Ok (representative, mkStreamState (sa_count state + 1) (sa_sum state)
                            (sa_allIntegers state) (sa_extremum state) (sa_samples state))
  | Aggregate kind argument =>
      let* value := eval argument row in
      let* state := stream_add kind value state in
      Ok (representative, state)
  end.

Fixpoint stream_row (row : EvalRow) (projections : list StreamProjection)
    (cells : list stream_cell) : exec (list stream_cell) :=
  match projections, cells with
  | p :: projections, c :: cells =>
      let* c := stream_step row p c in
      let* cells := stream_row row projections cells in
      Ok (c :: cells)
  | _, _ => Ok []
  end.

Definition stream_cells (projections : list StreamProjection) : list stream_cell :=
  map (λ _, (VNull, stream_start)) projections.

Definition stream_groups (groupBy : list Node) (projections : list StreamProjection)
    (rows : list EvalRow) : exec (list (tuple * list stream_cell)) :=
  let start := match groupBy with [] => [([], stream_cells projections)] | _ :: _ => [] end in
  rfold (λ groups row,
    let* key := group_key groupBy row in
    group_update key (stream_cells projections) (stream_row row projections) groups) rows start.

(** The value of a column once all rows are in. *)
Definition stream_result (projection : StreamProjection) (cell : stream_cell) : exec Value :=
  let '(representative, state) := cell in
  match projection with
  | Representative _ => Ok representative
  | CountRows => Ok (VInteger (sa_count state))
  | Aggregate kind _ =>
      match kind with
      | StreamCount => Ok (VInteger (sa_count state))
      | StreamLoneWolf => Ok (VInteger (countLoneWolves (sa_samples state)))
      | _ =>
          if (sa_count state =? 0)%Z then Ok VNull
          else match kind with
          | StreamAverage => Ok (VReal (ddiv (sa_sum state) (of_int (sa_count state))))
          | StreamSum =>
              if sa_allIntegers state then
                match to_int (sa_sum state) with
                | Some z => Ok (VInteger z)
                | None => Err (Undefined "double to int64_t conversion out of range")
                end
              else Ok (VReal (sa_sum state))
          | _ => Ok (default VNull (sa_extremum state))
          end
      end
  end.

Fixpoint stream_results (projections : list StreamProjection) (cells : list stream_cell)
    : exec tuple :=
  match projections, cells with
  | p :: projections, c :: cells =>
      let* v := stream_result p c in
      let* vs := stream_results projections cells in
      Ok (v :: vs)
  | _, _ => Ok []
  end.

Section Execute.
Context (std_sort : list Value → list Value).
(** The order in which a hash map of groups is walked. *)
Context (iterate : ∀ A : Type, list (tuple * A) → list (tuple * A)).
Context (catalog_ : Catalog).

Definition stream_output (s : Select_) (projections : list StreamProjection)
    (rows : list EvalRow) : exec (list OutputRow) :=
  let* groups := stream_groups (s_groupBy s) projections rows in
  rmap (λ group, let* values := stream_results projections group.2 in Ok (mkOutput values []))
    (iterate _ groups).

(** Whether a group passes HAVING. *)
Definition keepsGrouped (condition : option Node) (rows : list EvalRow) : exec bool :=
  match condition with
  | None => Ok true
  | Some e => let* v := evalGrouped std_sort e rows in Ok (asBoolean v)
  end.

Definition group_output (s : Select_) (names : list string) (rows : list EvalRow)
    : exec (list OutputRow) :=
  let* keep := keepsGrouped (s_having s) rows in
  if keep : bool then
    let* values := projectGrouped std_sort s rows in
    let* keys := orderKeysGrouped std_sort s rows names values in
    Ok [mkOutput values keys]
  else Ok [].

Definition grouped_output (s : Select_) (names : list string) (rows : list EvalRow)
    : exec (list OutputRow) :=
  let* groups := group_rows (s_groupBy s) rows in
  let* outputs := rmap (λ group, group_output s names group.2) (iterate _ groups) in
  Ok (concat outputs).

Definition plain_output (s : Select_) (whole : bool) (names : list string)
    (rows : list EvalRow) : exec (list OutputRow) :=
  rmap (λ source,
    let* row := if whole then Ok (values source) else project s source (Some rows) in
    let* keys := orderKeys s source names row in
    Ok (mkOutput row keys)) rows.

Definition is_grouped (s : Select_) : bool :=
  match s_groupBy s with [] => selectHasAggregate s | _ :: _ => true end.

Definition select_output (s : Select_) (whole : bool) (names : list string)
    (rows : list EvalRow) : exec (list OutputRow) :=
  if is_grouped s then
    match (if streamable s then stream_projections (s_columns s) else None) with
    | Some projections => stream_output s projections rows
    | None => grouped_output s names rows
    end
  else plain_output s whole names rows.

Definition result_columns (s : Select_) (whole : bool) (rows : list EvalRow) : list string :=
  match rows with
  | [] => outputNames catalog_ s None
  | sample :: _ =>
      if whole then map bc_name (default [] (columns sample))
      else outputNames catalog_ s (Some (default [] (columns sample)))
  end.

(** [executeSelect] once the rows of the FROM clause are [rows]: the names and
    the rows of the result. *)
Definition executeSelect (s : Select_) (rows : list EvalRow)
    : exec (list string * list tuple) :=
  let* rows := filter_rows (s_where s) rows in
  let* (rows, whole) := apply_biggest s rows in
  let names := result_columns s whole rows in
  let* output := select_output s whole names rows in
  let output := apply_order (s_orderBy s) (apply_distinct (s_distinct s) output) in
  let* result := apply_limit (s_limit s) (s_offset s) output in
  Ok (names, result).
End Execute.
