(* ===== verification/Streaming.v ===== *)
(** The streaming shortcut of grouping ([tryStreamingAggregation] of
    [src/native_engine.cpp]) against the grouping it replaces: one pass that
    keeps a running state per group computes what collecting the rows of every
    group and aggregating them computes. *)

From S2P Require Import Prelude.
From S2P Require Import Double.
From S2P Require Import Value.
From S2P Require Import Ast.
From S2P Require Import Catalog.
From S2P Require Import Eval.
From S2P Require Import Select.

#[local] Set Warnings "-register-all".
#[local] Open Scope string_scope.

(** * One aggregate *)

Section Aggregate.
Context (std_sort : list Value → list Value).

Definition stream_values (kind : StreamAggregateKind) (l : list Value)
    (state : StreamAggregateState) : exec StreamAggregateState :=
  rfold (λ state value, stream_add kind value state) l state.

Lemma stream_values_cons kind v l state :
  stream_values kind (v :: l) state =
  let* state := stream_add kind v state in stream_values kind l state.
Proof. done. Qed.

Lemma stream_values_rows kind e rows state :
  rfold (λ state row, let* v := eval e row in stream_add kind v state) rows state ≈
  let* l := non_null_values e rows in stream_values kind l state.
Proof.
  revert state. induction rows as [|row rows IH]; intros state; [done|].
  cbn [rfold non_null_values]. rewrite !rbind_assoc.
  apply rbind_alike; [done|]. intros v. rewrite rbind_assoc. cbn [rbind].
  destruct (isNull v) eqn:Hv.
  - assert (stream_add kind v state = Ok state) as ->; [|apply IH].
    by destruct state; unfold stream_add; rewrite Hv.
  - setoid_rewrite IH. rewrite rbind_swap. apply rbind_alike; [done|]. intros l. done.
Qed.

Definition non_null (v : Value) : Prop := isNull v = false.

Lemma non_null_values_non_null e rows l : non_null_values e rows = Ok l → Forall non_null l.
Proof.
  revert l. induction rows as [|row rows IH]; intros l H; cbn in H; res_inv; subst; [done|].
  destruct (isNull a) eqn:Hnull; [by apply IH|]. constructor; [done|by apply IH].
Qed.

Lemma stream_values_count l state : Forall non_null l →
  stream_values StreamCount l state =
  Ok (mkStreamState (sa_count state + Z.of_nat (length l)) (sa_sum state)
        (sa_allIntegers state) (sa_extremum state) (sa_samples state)).
Proof.
  intros Hl. revert state. induction Hl as [|v l Hv Hl IH]; intros [c s a e x].
  - cbn. by rewrite Z.add_0_r.
  - rewrite stream_values_cons. cbn [stream_add]. rewrite Hv. cbn [rbind]. rewrite IH. cbn. do 2 f_equal. lia.
Qed.

(** The sum and the average. *)
Lemma stream_values_sum kind why l state :
  kind = StreamSum ∨ kind = StreamAverage → Forall non_null l →
  stream_values kind l state ≈
  let* samples := samples_of why l in
  Ok (mkStreamState (sa_count state + Z.of_nat (length l))
        (fold_left dadd samples (sa_sum state))
        (sa_allIntegers state && forallb is_integer l) (sa_extremum state) (sa_samples state)).
Proof.
  intros Hk Hl. revert state. induction Hl as [|v l Hv Hl IH]; intros [c s a e x].
  - cbn. by rewrite Z.add_0_r, andb_true_r.
  - rewrite stream_values_cons. cbn [stream_add]. rewrite Hv. unfold samples_of. cbn [rmap].
    destruct (isNumeric v) eqn:Hn; [|by destruct Hk as [-> | ->]].
    destruct (asReal v) as [d|err]; [|by destruct Hk as [-> | ->]]. cbn [rbind].
    transitivity (stream_values kind l (mkStreamState (c + 1) (dadd s d)
                                          (a && is_integer v) e x)).
    { by destruct Hk as [-> | ->]. }
    rewrite IH, rbind_assoc. apply rbind_alike; [done|]. intros samples. cbn.
    rewrite andb_assoc. intros ?. by replace (c + 1 + Z.of_nat (length l))
      with (c + Z.of_nat (S (length l))) by lia.
Qed.

Definition better (kind : StreamAggregateKind) (comparison : Z) : bool :=
  match kind with StreamMax => (0 <? comparison)%Z | _ => (comparison <? 0)%Z end.

Lemma stream_values_extremum kind l c s a best x :
  kind = StreamMax ∨ kind = StreamMin → Forall non_null l →
  stream_values kind l (mkStreamState c s a (Some best) x) =
  Ok (mkStreamState (c + Z.of_nat (length l)) s a
        (Some (extremum (better kind) best l)) x).
Proof.
  intros Hk Hl. revert c best. induction Hl as [|v l Hv Hl IH]; intros c best.
  - cbn. by rewrite Z.add_0_r.
  - rewrite stream_values_cons. cbn [stream_add]. rewrite Hv.
    destruct Hk as [-> | ->]; cbn [rbind]; rewrite IH; cbn [length extremum fold_left];
      do 2 f_equal; lia.
Qed.

Lemma count_loop_values e rows seen count :
  count_loop e false rows seen count =
  let* l := non_null_values e rows in Ok (count + Z.of_nat (length l))%Z.
Proof.
  revert seen count. induction rows as [|row rows IH]; intros seen count.
  - cbn. by rewrite Z.add_0_r.
  - cbn [count_loop non_null_values]. destruct (eval e row) as [v|]; [|done]. cbn [rbind].
    rewrite rbind_assoc. destruct (isNull v); cbn [andb rbind]; rewrite IH.
    + done.
    + destruct (non_null_values e rows); [|done]. cbn [rbind length]. f_equal. lia.
Qed.

(** One column of the state over the rows of a group. *)
Definition column_cells (p : StreamProjection) (rows : list EvalRow) (cell : stream_cell)
    : exec stream_cell :=
  rfold (λ cell row, stream_step row p cell) rows cell.

Definition start_cell : stream_cell := (VNull, stream_start).

Lemma column_cells_aggregate kind e rows r state :
  column_cells (Aggregate kind e) rows (r, state) ≈
  let* l := non_null_values e rows in
  let* state := stream_values kind l state in Ok (r, state).
Proof.
  rewrite <- rbind_assoc, <- stream_values_rows.
  revert state. induction rows as [|row rows IH]; intros state; [done|].
  unfold column_cells. cbn [rfold stream_step]. rewrite !rbind_assoc.
  apply rbind_alike; [done|]. intros v. rewrite !rbind_assoc.
  apply rbind_alike; [done|]. intros st. apply IH.
Qed.

Lemma column_cells_count rows r state :
  column_cells CountRows rows (r, state) =
  Ok (r, mkStreamState (sa_count state + Z.of_nat (length rows)) (sa_sum state)
           (sa_allIntegers state) (sa_extremum state) (sa_samples state)).
Proof.
  revert state. induction rows as [|row rows IH]; intros [c s a e x].
  - cbn. by rewrite Z.add_0_r.
  - unfold column_cells. cbn [rfold stream_step rbind]. fold (column_cells CountRows).
    unfold column_cells in IH. rewrite IH. cbn. do 3 f_equal. lia.
Qed.

Definition stream_column (p : StreamProjection) (rows : list EvalRow) : exec Value :=
  let* cell := column_cells p rows start_cell in stream_result p cell.

Lemma nonzero_length (v : Value) l : (0 + Z.of_nat (length (v :: l)) =? 0)%Z = false.
Proof. apply Z.eqb_neq. cbn [length]. lia. Qed.

Lemma nonzero_length_tail (l : list Value) : (0 + 1 + Z.of_nat (length l) =? 0)%Z = false.
Proof. apply Z.eqb_neq. lia. Qed.

Lemma stream_column_aggregate name e rows :
  isSimpleAggregateName name = true → isLoneWolfName name = false →
  (name =? "headcount") && is_wildcard e = false →
  stream_column (Aggregate (stream_kind name) e) rows ≈
  aggregate std_sort name [e] false rows.
Proof.
  intros Hs Hl Hw. unfold stream_column, start_cell. rewrite column_cells_aggregate, rbind_assoc.
  unfold aggregate. unfold isSimpleAggregateName in Hs. rewrite Hl, orb_false_r in Hs.
  destruct (String.eqb_spec name "headcount") as [->|_].
  { cbn in Hw. rewrite Hw, count_loop_values, rbind_assoc.
    destruct (non_null_values e rows) as [l|] eqn:El; [|done]. cbn [rbind].
    apply non_null_values_non_null in El. cbn [stream_kind String.eqb].
    change (stream_kind "headcount") with StreamCount. by rewrite stream_values_count. }
  cbn [orb] in Hs. destruct (non_null_values e rows) as [l|] eqn:El; [|done]. cbn [rbind].
  apply non_null_values_non_null in El. clear Hw Hl.
  assert (name = "stack" ∨ name = "mid" ∨ name = "goat" ∨ name = "L") as Hn.
  { repeat (apply orb_prop in Hs as [Hs|Hs]); apply String.eqb_eq in Hs; auto. }
  destruct Hn as [->|[->|[->| ->]]].
  - change (stream_kind "stack") with StreamSum.
    rewrite (stream_values_sum _ "Numeric aggregate on non-number") by auto.
    rewrite !rbind_assoc. destruct l as [|v l]; [done|]. cbn [String.eqb orb].
    apply rbind_alike; [done|]. intros samples. cbn [rbind stream_result].
    cbn [sa_count sa_allIntegers sa_sum stream_start]. by rewrite nonzero_length.
  - change (stream_kind "mid") with StreamAverage.
    rewrite (stream_values_sum _ "Numeric aggregate on non-number") by auto.
    rewrite !rbind_assoc. destruct l as [|v l]; [done|].
    apply rbind_alike; [done|]. intros samples. cbn [rbind stream_result].
    cbn [sa_count sa_allIntegers sa_sum stream_start]. by rewrite nonzero_length.
  - destruct l as [|v l]; [done|]. inversion El as [|? ? Hv Hl]; subst.
    change (stream_kind "goat") with StreamMax. rewrite stream_values_cons.
    cbn [stream_add stream_start]. rewrite Hv. cbn [rbind].
    rewrite stream_values_extremum by auto. cbn [rbind stream_result sa_count sa_extremum].
    by rewrite nonzero_length_tail.
  - destruct l as [|v l]; [done|]. inversion El as [|? ? Hv Hl]; subst.
    change (stream_kind "L") with StreamMin. rewrite stream_values_cons.
    cbn [stream_add stream_start]. rewrite Hv. cbn [rbind].
    rewrite stream_values_extremum by auto. cbn [rbind stream_result sa_count sa_extremum].
    by rewrite nonzero_length_tail.
Qed.

End Aggregate.

(** * All columns of a group *)

Section Columns.
Context (std_sort : list Value → list Value).

Definition group_cells (ps : list StreamProjection) (rows : list EvalRow)
    (cells : list stream_cell) : exec (list stream_cell) :=
  rfold (λ cells row, stream_row row ps cells) rows cells.

Lemma group_cells_cons p ps rows c cells :
  group_cells (p :: ps) rows (c :: cells) ≈
  let* c := column_cells p rows c in
  let* cells := group_cells ps rows cells in Ok (c :: cells).
Proof.
  revert c cells. induction rows as [|row rows IH]; intros c cells; [done|].
  change (group_cells (p :: ps) (row :: rows) (c :: cells)) with
    (let* cells := stream_row row (p :: ps) (c :: cells) in group_cells (p :: ps) rows cells).
  change (column_cells p (row :: rows) c) with
    (let* c := stream_step row p c in column_cells p rows c).
  cbn [stream_row]. rewrite !rbind_assoc. apply rbind_alike; [done|]. intros c1.
  rewrite rbind_assoc. cbn [rbind].
  transitivity (let* cells1 := stream_row row ps cells in
    let* c2 := column_cells p rows c1 in
    let* cells2 := group_cells ps rows cells1 in Ok (c2 :: cells2)).
  { apply rbind_alike; [done|]. intros cells1. apply IH. }
  rewrite rbind_swap. apply rbind_alike; [done|]. intros c2.
  rewrite <- rbind_assoc. done.
Qed.

Lemma group_cells_nil rows : group_cells [] rows [] = Ok [].
Proof. by induction rows. Qed.

Lemma group_columns ps rows :
  (let* cells := group_cells ps rows (stream_cells ps) in stream_results ps cells) ≈
  rmap (λ p, stream_column p rows) ps.
Proof.
  induction ps as [|p ps IH]; [by rewrite group_cells_nil|].
  cbn [stream_cells map rmap]. fold (stream_cells ps).
  rewrite group_cells_cons, rbind_assoc. unfold stream_column at 1. rewrite rbind_assoc.
  apply rbind_alike; [done|]. intros c. rewrite rbind_assoc. cbn [rbind stream_results].
  rewrite rbind_swap. apply rbind_alike; [done|]. intros v.
  rewrite <- IH, rbind_assoc. done.
Qed.

(** A group as the rows with equal keys: what [group_rows] builds. *)
Definition group_ok (groupBy : list Node) (g : tuple * list EvalRow) : Prop :=
  match g.2 with
  | [] => groupBy = []
  | first :: rest =>
      group_key groupBy first = Ok g.1 ∧
      ∀ row, row ∈ rest → ∃ k, group_key groupBy row = Ok k ∧ tupleEqual g.1 k = true
  end.

Lemma evalGrouped_plain e row rows :
  hasAggregate e = false → evalGrouped std_sort e (row :: rows) = eval e row.
Proof.
  induction e as [| | |op l IHl r IHr|op e IH| | |]; intros Ha; try done.
  - cbn in Ha. apply orb_false_elim in Ha as [Hl Hr]. cbn [evalGrouped eval].
    by rewrite IHl, IHr.
  - cbn [evalGrouped eval]. by rewrite IH.
  - cbn [evalGrouped]. by rewrite Ha.
Qed.

Lemma group_key_elem groupBy row k e :
  group_key groupBy row = Ok k → e ∈ groupBy →
  ∃ i v, groupBy !! i = Some e ∧ k !! i = Some v ∧ eval e row = Ok v.
Proof.
  intros Hk He. apply rmap_Ok in Hk. apply list_elem_of_lookup in He as [i Hi].
  destruct (Forall2_lookup_l _ _ _ _ _ Hk Hi) as (v & Hv & Ev). eauto.
Qed.

Lemma tupleEqual_lookup a b i x y :
  tupleEqual a b = true → a !! i = Some x → b !! i = Some y → value_eqb x y = true.
Proof.
  revert b i. induction a as [|x' a IH]; intros [|y' b] [|i] H Hx Hy; try done;
    cbn in H; apply andb_prop in H as [H1 H2]; cbn in Hx, Hy; [congruence|eauto].
Qed.

Lemma value_eqb_null v : value_eqb VNull v = true → v = VNull.
Proof. by destruct v. Qed.

(** A representative: the first value that is not null is the first value. *)
Lemma column_cells_representative e v rows state :
  (∀ row, row ∈ rows → ∃ w, eval e row = Ok w ∧ value_eqb v w = true) →
  column_cells (Representative e) rows (v, state) = Ok (v, state).
Proof.
  induction rows as [|row rows IH]; intros H; [done|].
  unfold column_cells. cbn [rfold stream_step].
  destruct (H row) as (w & Hw & Heq); [apply list_elem_of_here|].
  destruct (isNull v) eqn:Hn.
  - destruct v; try done. rewrite Hw. cbn [rbind]. apply value_eqb_null in Heq as ->.
    apply IH. intros row' Hr. by apply H, list_elem_of_further.
  - cbn [rbind]. apply IH. intros row' Hr. by apply H, list_elem_of_further.
Qed.

Lemma stream_column_representative groupBy e g :
  group_ok groupBy g → e ∈ groupBy → hasAggregate e = false →
  stream_column (Representative e) g.2 = evalGrouped std_sort e g.2 ∧ is_wildcard e = false.
Proof.
  destruct g as [k [|first rest]]; intros Hg He Ha; cbn in Hg.
  { subst groupBy. by apply not_elem_of_nil in He. }
  destruct Hg as [Hk Hrest]. cbn [snd].
  destruct (group_key_elem _ _ _ _ Hk He) as (i & v & Hi & Hki & Hv).
  split; [|by destruct e]. rewrite evalGrouped_plain, Hv by done.
  unfold stream_column, column_cells. cbn [rfold stream_step start_cell isNull].
  change (isNull VNull) with true. cbn [rbind]. rewrite Hv. cbn [rbind].
  pose proof (column_cells_representative e v rest stream_start) as Hc.
  unfold column_cells in Hc. rewrite Hc; [done|].
  intros row Hr. destruct (Hrest row Hr) as (k' & Hk' & Heq).
  apply rmap_Ok in Hk'. destruct (Forall2_lookup_l _ _ _ _ _ Hk' Hi) as (w & Hw & Ew).
  eauto using tupleEqual_lookup.
Qed.

(** The condition under which the shortcut is faithful: no LONE-WOLF, and what is
    not aggregated is grouped by. *)
Definition grouped_column (groupBy : list Node) (c : Node) : Prop :=
  match c with
  | FunctionCall name _ _ _ _ => isLoneWolfName name = false
  | _ => c ∈ groupBy
  end.

Definition grouped_value (c : Node) (rows : list EvalRow) : exec Value :=
  if is_wildcard c then Err (Throw "Wildcard is not supported in aggregate projection")
  else evalGrouped std_sort c rows.

Lemma stream_column_grouped groupBy c p g :
  stream_projection c = Some p → grouped_column groupBy c → group_ok groupBy g →
  stream_column p g.2 ≈ grouped_value c g.2.
Proof.
  intros Hp Hc Hg. unfold grouped_value.
  assert (hasAggregate c = false → c ∈ groupBy → p = Representative c →
          stream_column p g.2 ≈ (if is_wildcard c then
            Err (Throw "Wildcard is not supported in aggregate projection")
          else evalGrouped std_sort c g.2)) as Hrep.
  { intros Ha Hin ->. by destruct (stream_column_representative groupBy c g) as [-> ->]. }
  destruct c as [| | | | |name args distinct alias p'| |]; cbn [stream_projection] in Hp;
    try (destruct (hasAggregate _) eqn:Ha; [done|injection Hp as <-; by apply Hrep]).
  clear Hrep. cbn [is_wildcard grouped_column] in *.
  destruct distinct; [done|]. destruct (isSimpleAggregateName name) eqn:Hs; [|done].
  cbn [orb negb] in Hp. cbn [evalGrouped].
  assert (hasAggregate (FunctionCall name args false alias p') = true) as ->.
  { cbn [hasAggregate]. unfold aggregate_name, isLoneWolfName.
    unfold isSimpleAggregateName, isLoneWolfName in Hs.
    repeat (apply orb_prop in Hs as [Hs|Hs]); rewrite Hs; by rewrite ?orb_true_r. }
  destruct (name =? "headcount") eqn:Hname; cbn [andb] in Hp.
  - apply String.eqb_eq in Hname as ->.
    destruct args as [|a args]; [injection Hp as <-|].
    { unfold stream_column, start_cell. rewrite column_cells_count. done. }
    destruct (is_wildcard a) eqn:Hw; [injection Hp as <-|].
    { unfold stream_column, start_cell. rewrite column_cells_count. cbn. by rewrite Hw. }
    destruct args; [|done]. injection Hp as <-. by apply stream_column_aggregate.
  - destruct args as [|a [|? ?]]; [done| |done]. injection Hp as <-.
    apply stream_column_aggregate; [done..|]. by rewrite Hname.
Qed.

Lemma stream_columns_grouped groupBy columns ps g :
  stream_projections columns = Some ps → Forall (grouped_column groupBy) columns →
  group_ok groupBy g →
  (let* cells := group_cells ps g.2 (stream_cells ps) in stream_results ps cells) ≈
  rmap (λ c, grouped_value c g.2) columns.
Proof.
  intros Hp Hc Hg. rewrite group_columns. revert ps Hp.
  induction Hc as [|c columns Hc _ IH]; intros ps Hp; [by injection Hp as <-|].
  cbn [stream_projections] in Hp. destruct (stream_projection c) as [p|] eqn:E; [|done].
  destruct (stream_projections columns) as [ps'|]; [|done]. injection Hp as <-. cbn [rmap].
  apply rbind_alike; [by eapply stream_column_grouped|]. intros v.
  by rewrite (IH ps' eq_refl).
Qed.
End Columns.

(** * All groups *)

Section Groups.
Context (groupBy : list Node) (ps : list StreamProjection).

(** The running states of groups of rows. *)
Definition states (groups : list (tuple * list EvalRow))
    : exec (list (tuple * list stream_cell)) :=
  rmap (λ g, let* cells := group_cells ps g.2 (stream_cells ps) in Ok (g.1, cells)) groups.

Definition add_row (row : EvalRow) (members : list EvalRow) : exec (list EvalRow) :=
  Ok (members ++ [row])%list.

Lemma states_update row key groups :
  (let* gs := states groups in group_update key (stream_cells ps) (stream_row row ps) gs) ≈
  let* groups := group_update key [] (add_row row) groups in states groups.
Proof.
  induction groups as [|[k members] groups IH].
  - cbn. unfold group_cells. cbn [rfold]. by destruct (stream_row row ps (stream_cells ps)).
  - cbn [states rmap fst snd]. fold (states groups). rewrite !rbind_assoc. cbn [rbind].
    cbn [group_update]. destruct (tupleEqual k key) eqn:Hk; cbn [rbind add_row].
    + cbn [states rmap fst snd]. fold (states groups). unfold group_cells.
      rewrite rfold_app, !rbind_assoc. apply rbind_alike; [done|]. intros cells.
      rewrite rbind_assoc. cbn [rbind group_update]. rewrite Hk. cbn [rfold].
      rewrite rbind_swap, rbind_assoc. apply rbind_alike; [done|]. intros cells'. done.
    + rewrite rbind_assoc. cbn [rbind states rmap fst snd].
      transitivity (let* cells := group_cells ps members (stream_cells ps) in
        let* gs := (let* groups := group_update key [] (add_row row) groups in states groups) in
        Ok ((k, cells) :: gs)).
      * apply rbind_alike; [done|]. intros cells. rewrite rbind_assoc.
        rewrite <- IH, rbind_assoc. apply rbind_alike; [done|]. intros gs.
        cbn [rbind group_update]. by rewrite Hk.
      * rewrite rbind_swap, rbind_assoc. apply rbind_alike; [done|]. intros groups'.
        rewrite rbind_swap, rbind_assoc. done.
Qed.

Definition stream_rows (rows : list EvalRow) (gs : list (tuple * list stream_cell)) :=
  rfold (λ groups row,
    let* key := group_key groupBy row in
    group_update key (stream_cells ps) (stream_row row ps) groups) rows gs.

Definition collect_rows (rows : list EvalRow) (groups : list (tuple * list EvalRow)) :=
  rfold (λ groups row,
    let* key := group_key groupBy row in group_update key [] (add_row row) groups) rows groups.

Lemma states_rows rows groups :
  (let* gs := states groups in stream_rows rows gs) ≈
  let* groups := collect_rows rows groups in states groups.
Proof.
  revert groups. induction rows as [|row rows IH]; intros groups.
  - cbn. by destruct (states groups).
  - cbn [collect_rows rfold]. rewrite !rbind_assoc.
    transitivity (let* gs := states groups in let* key := group_key groupBy row in
      let* gs := group_update key (stream_cells ps) (stream_row row ps) gs in
      stream_rows rows gs).
    { apply rbind_alike; [done|]. intros gs. cbn [stream_rows rfold].
      by rewrite rbind_assoc. }
    rewrite rbind_swap. apply rbind_alike; [done|]. intros key.
    rewrite <- rbind_assoc, states_update, !rbind_assoc.
    apply rbind_alike; [done|]. intros groups'. apply IH.
Qed.

Lemma tupleEqual_length a b : tupleEqual a b = true → length a = length b.
Proof.
  revert b. induction a as [|x a IH]; intros [|y b] H; try done. cbn in H.
  apply andb_prop in H as [_ H]. cbn. by rewrite (IH b H).
Qed.

Lemma add_row_ok row key groups groups' :
  group_key groupBy row = Ok key → Forall (group_ok groupBy) groups →
  group_update key [] (add_row row) groups = Ok groups' → Forall (group_ok groupBy) groups'.
Proof.
  intros Hk Hg. revert groups'. induction Hg as [|[k members] groups Hg Hgs IH];
    intros groups' H; cbn in H.
  - injection H as <-. constructor; [|done]. split; [done|]. intros r Hr.
    by apply not_elem_of_nil in Hr.
  - destruct (tupleEqual k key) eqn:Heq.
    + injection H as <-. constructor; [|done]. destruct members as [|first rest]; cbn in *.
      { subst groupBy. cbn in Hk. injection Hk as <-. destruct k; [|done].
        split; [done|]. intros r Hr. by apply not_elem_of_nil in Hr. }
      destruct Hg as [Hf Hr]. split; [done|]. intros r [Hin|Hin]%elem_of_app; [by apply Hr|].
      apply list_elem_of_singleton in Hin as ->. eauto.
    + destruct (group_update key [] (add_row row) groups) as [gs|]; [|done].
      injection H as <-. constructor; [done|]. by apply IH.
Qed.

Lemma collect_rows_ok rows groups groups' :
  Forall (group_ok groupBy) groups → collect_rows rows groups = Ok groups' →
  Forall (group_ok groupBy) groups'.
Proof.
  revert groups. induction rows as [|row rows IH]; intros groups Hg H; cbn in H.
  { by injection H as <-. }
  destruct (group_key groupBy row) as [key|] eqn:Hk; [cbn in H|done].
  destruct (group_update key [] (add_row row) groups) as [gs|] eqn:Hu; [cbn in H|done].
  eapply IH; [|exact H]. by eapply add_row_ok.
Qed.
End Groups.

(** The groups that the shortcut starts with. *)
Definition start_groups (groupBy : list Node) : list (tuple * list EvalRow) :=
  match groupBy with [] => [([], [])] | _ :: _ => [] end.

Lemma collect_all rows members :
  collect_rows [] rows [([], members)] = Ok [([], members ++ rows)%list].
Proof.
  revert members. induction rows as [|row rows IH]; intros members.
  - cbn. by rewrite app_nil_r.
  - cbn. change (collect_rows [] rows [([], members ++ [row])%list] =
                 Ok [([], members ++ row :: rows)%list]).
    by rewrite IH, <- app_assoc.
Qed.

Lemma group_rows_collect groupBy rows :
  group_rows groupBy rows = collect_rows groupBy rows (start_groups groupBy).
Proof. destruct groupBy; [by cbn [start_groups]; rewrite collect_all|done]. Qed.

Lemma stream_groups_states groupBy ps rows :
  stream_groups groupBy ps rows ≈
  let* groups := group_rows groupBy rows in states ps groups.
Proof.
  rewrite group_rows_collect, <- states_rows. unfold stream_groups, stream_rows.
  by destruct groupBy.
Qed.

Lemma group_rows_ok groupBy rows groups :
  group_rows groupBy rows = Ok groups → Forall (group_ok groupBy) groups.
Proof.
  rewrite group_rows_collect. apply collect_rows_ok.
  destruct groupBy; repeat constructor.
Qed.

(** * The query *)

Lemma rmap_alike_in {E A B} (f g : A → result E B) l :
  (∀ x, x ∈ l → f x ≈ g x) → rmap f l ≈ rmap g l.
Proof.
  induction l as [|x l IH]; intros H; [done|]. cbn [rmap].
  apply rbind_alike; [apply H, list_elem_of_here|]. intros y.
  apply rbind_alike; [|done]. apply IH. intros z Hz. by apply H, list_elem_of_further.
Qed.

(** What the engine relies on of a hash map: its walk visits every entry once,
    in an order that depends on the keys only. *)
Record hash_walk (iterate : ∀ A : Type, list (tuple * A) → list (tuple * A)) : Prop := {
  walk_all : ∀ A l, iterate A l ≡ₚ l;
  walk_keys : ∀ A B (R : A → B → Prop) l l',
    Forall2 (λ x y, x.1 = y.1 ∧ R x.2 y.2) l l' →
    Forall2 (λ x y, x.1 = y.1 ∧ R x.2 y.2) (iterate A l) (iterate B l');
}.

Section Query.
Context (std_sort : list Value → list Value).
Context (iterate : ∀ A : Type, list (tuple * A) → list (tuple * A)).
Context (Hwalk : hash_walk iterate).

Definition row_of (values : tuple) : OutputRow := mkOutput values [].

Lemma states_walk ps groups gs (f : list stream_cell → exec OutputRow) :
  states ps groups = Ok gs →
  rmap (λ g, f g.2) (iterate _ gs) =
  rmap (λ g, let* cells := group_cells ps g.2 (stream_cells ps) in f cells)
    (iterate _ groups).
Proof.
  intros H. apply rmap_Ok in H. apply rmap_ext.
  assert (Forall2 (λ x y, x.1 = y.1 ∧ group_cells ps x.2 (stream_cells ps) = Ok y.2)
            groups gs) as HR.
  { eapply Forall2_impl; [exact H|]. intros [k m] [k' c] Hc. cbn [fst snd] in *.
    destruct (group_cells ps m (stream_cells ps)); [|done]. by injection Hc as <- <-. }
  apply (walk_keys _ Hwalk _ _ (λ m c, group_cells ps m (stream_cells ps) = Ok c)) in HR. eapply Forall2_impl; [exact HR|].
  intros [k m] [k' c] [_ Hc]. cbn in *. by rewrite Hc.
Qed.

Lemma states_total ps groups (f : list stream_cell → exec OutputRow) out :
  rmap (λ g, let* cells := group_cells ps g.2 (stream_cells ps) in f cells)
    (iterate _ groups) = Ok out →
  ∃ gs, states ps groups = Ok gs.
Proof.
  intros H. apply rmap_Ok in H.
  assert (Forall (λ g, ∃ cells, group_cells ps g.2 (stream_cells ps) = Ok cells) groups) as Hg.
  { rewrite <- (walk_all _ Hwalk). clear -H.
    induction H as [|x y l l' Hx _ IH]; [done|]. constructor; [|done].
    destruct (group_cells ps x.2 (stream_cells ps)) as [cells|] eqn:E; [|done].
    by exists cells. }
  clear H. induction Hg as [|g groups [cells Hc] _ [gs IH]]; [by exists []|].
  unfold states in *. cbn [rmap]. rewrite Hc, IH. cbn [rbind]. eauto.
Qed.

Lemma stream_output_states s ps rows :
  stream_output iterate s ps rows ≈
  let* groups := group_rows (s_groupBy s) rows in
  rmap (λ g, let* cells := group_cells ps g.2 (stream_cells ps) in
             let* values := stream_results ps cells in Ok (row_of values)) (iterate _ groups).
Proof.
  unfold stream_output. rewrite stream_groups_states, rbind_assoc.
  apply rbind_alike; [done|]. intros groups out.
  pose proof (states_walk ps groups) as Hw.
  pose proof (states_total ps groups) as Ht.
  set (f cells := let* values := stream_results ps cells in Ok (row_of values)) in *.
  split; intros H.
  - apply rbind_Ok in H as (gs & Hgs & H). rewrite <- H. symmetry. exact (Hw gs f Hgs).
  - destruct (Ht f out H) as [gs Hgs]. rewrite Hgs. cbn [rbind].
    rewrite <- H. exact (Hw gs f Hgs).
Qed.

Lemma grouped_output_values s names rows :
  streamable s = true →
  grouped_output std_sort iterate s names rows ≈
  let* groups := group_rows (s_groupBy s) rows in
  rmap (λ g, let* values := rmap (λ c, grouped_value std_sort c g.2) (s_columns s) in
             Ok (row_of values)) (iterate _ groups).
Proof.
  intros Hs. unfold streamable in Hs.
  destruct (s_having s) eqn:Eh, (s_distinct s), (s_orderBy s) eqn:Eo, (s_limit s), (s_offset s);
    try done.
  unfold grouped_output. apply rbind_alike; [done|]. intros groups.
  induction (iterate _ groups) as [|g gs IH]; [done|]. cbn [rmap].
  unfold group_output at 1. rewrite Eh. cbn [keepsGrouped rbind].
  unfold orderKeysGrouped. rewrite Eo. cbn [rmap rbind].
  change (projectGrouped std_sort s g.2) with
    (rmap (λ c, grouped_value std_sort c g.2) (s_columns s)).
  rewrite !rbind_assoc. apply rbind_alike; [done|]. intros values. cbn [rbind].
  rewrite <- IH, rbind_assoc, !rbind_assoc. apply rbind_alike; [done|]. intros outs. done.
Qed.

Lemma streaming_grouping s ps names rows :
  streamable s = true → stream_projections (s_columns s) = Some ps →
  Forall (grouped_column (s_groupBy s)) (s_columns s) →
  stream_output iterate s ps rows ≈ grouped_output std_sort iterate s names rows.
Proof.
  intros Hs Hp Hc. rewrite grouped_output_values, stream_output_states by done.
  intros out. destruct (group_rows (s_groupBy s) rows) as [groups|] eqn:Eg; [|done].
  cbn [rbind]. revert out. apply rmap_alike_in. intros g Hg.
  rewrite <- rbind_assoc. apply rbind_alike; [|done].
  eapply stream_columns_grouped; [done..|].
  apply group_rows_ok in Eg. rewrite Forall_forall in Eg. apply Eg.
  by rewrite (walk_all _ Hwalk) in Hg.
Qed.
End Query.

(** * Theorems *)

(** C36: The streaming shortcut computes the grouping it replaces.  For a query that
    takes the shortcut, whose columns are aggregates other than LONE-WOLF (see
    [lone_wolf_streaming_differs]) or among the GROUP BY expressions, the single pass with running states gives a result exactly when
    collecting the rows of every group and aggregating them does, and then the
    same rows in the same order, on any rows. *)
Theorem streaming_is_grouping std_sort iterate s ps names rows :
  hash_walk iterate → streamable s = true → stream_projections (s_columns s) = Some ps →
  Forall (grouped_column (s_groupBy s)) (s_columns s) →
  ∀ output, stream_output iterate s ps rows = Ok output ↔
            grouped_output std_sort iterate s names rows = Ok output.
Proof. intros Hw Hs Hp Hc. by apply streaming_grouping. Qed.

Module Demo.
Definition at_ : loc := Loc 1 1.
Definition schema : list BoundColumn := [mkBound "t" "" "team"; mkBound "t" "" "points"].
Definition row (team : string) (points : Value) : EvalRow :=
  mkRow (Some schema) [VText team; points].
Definition rows : list EvalRow := [row "a" (VInteger 1); row "b" VNull; row "a" (VInteger 4)].
Definition col (name : string) : Node := ColumnRef "" name "" at_.
Definition call (name : string) : Node := FunctionCall name [col "points"] false "" at_.

(** slay team, stack(points), headcount(points) from t squad by team *)
Definition query : Select_ :=
  mkSelect false [col "team"; call "stack"; call "headcount"] "t" "" [] None [col "team"]
    None [] None None at_.
Definition answer : list OutputRow :=
  [mkOutput [VText "a"; VInteger 5; VInteger 2] []; mkOutput [VText "b"; VNull; VInteger 0] []].

Definition wolves : Select_ :=
  mkSelect false [call "LONE-WOLF"] "t" "" [] None [] None [] None None at_.

Lemma walk_in_order : hash_walk (λ A l, l).
Proof. by split. Qed.
End Demo.

Example streaming_is_grouping_witness :
  grouped_output (λ l, l) (λ A l, l) Demo.query [] Demo.rows = Ok Demo.answer.
Proof.
  refine (proj1 (streaming_is_grouping (λ l, l) (λ A l, l) Demo.query
            [Representative (Demo.col "team"); Aggregate StreamSum (Demo.col "points");
             Aggregate StreamCount (Demo.col "points")] [] Demo.rows Demo.walk_in_order
            eq_refl eq_refl _ Demo.answer) _).
  - constructor; [apply list_elem_of_here|]. repeat constructor.
  - vm_compute. reflexivity.
Defined.

(** LONE-WOLF is the exception: over rows that have no value to look at, the
    shortcut answers 0 and the grouping it replaces answers NULL, so adding an
    ORDER BY or a LIMIT to the query changes the value it reports. *)
Theorem lone_wolf_streaming_differs std_sort iterate e name alias p s rows :
  isLoneWolfName name = true → hash_walk iterate →
  s_columns s = [FunctionCall name [e] false alias p] → s_groupBy s = [] → s_having s = None →
  s_orderBy s = [] → non_null_values e rows = Ok [] →
  stream_output iterate s [Aggregate StreamLoneWolf e] rows = Ok [mkOutput [VInteger 0] []] ∧
  grouped_output std_sort iterate s [] rows = Ok [mkOutput [VNull] []].
Proof.
  intros Hn Hw Hc Hg Hh Ho Hl.
  assert (∀ A (a : A), iterate A [([], a)] = [([], a)]) as Hone.
  { intros A a. apply Permutation_singleton_r, (walk_all _ Hw). }
  assert (stream_kind name = StreamLoneWolf ∧ aggregate_name name = true) as [_ Ha].
  { apply orb_prop in Hn as [->%String.eqb_eq | ->%String.eqb_eq]; done. }
  split.
  - apply stream_output_states; [done|]. rewrite Hg. cbn [group_rows rbind]. rewrite Hone.
    cbn [rmap fst snd].
    pose proof (group_columns [Aggregate StreamLoneWolf e] rows [VInteger 0]) as H.
    assert (stream_column (Aggregate StreamLoneWolf e) rows = Ok (VInteger 0)) as Hcol.
    { apply (proj2 (rbind_alike _ _ (column_cells_aggregate _ _ _ _ _) _ _ (λ _ _, iff_refl _) _)).
      rewrite Hl. reflexivity. }
    cbn [rmap] in H. rewrite Hcol in H.
    apply proj2 in H. specialize (H eq_refl). apply rbind_Ok in H as (cells & -> & H).
    cbn [rbind]. rewrite H. reflexivity.
  - unfold grouped_output, group_rows. rewrite Hg. cbn [rbind]. rewrite Hone. cbn [rmap snd].
    unfold group_output, projectGrouped, orderKeysGrouped. rewrite Hh, Hc, Ho.
    cbn [keepsGrouped rbind rmap is_wildcard evalGrouped hasAggregate]. rewrite Ha.
    unfold aggregate. destruct (String.eqb_spec name "headcount") as [->|_]; [done|].
    rewrite Hl. reflexivity.
Qed.

Example lone_wolf_streaming_differs_witness :
  stream_output (λ A l, l) Demo.wolves [Aggregate StreamLoneWolf (Demo.col "points")]
    [Demo.row "b" VNull] = Ok [mkOutput [VInteger 0] []].
Proof.
  exact (proj1 (lone_wolf_streaming_differs (λ l, l) (λ A l, l) (Demo.col "points") "LONE-WOLF" ""
    Demo.at_ Demo.wolves [Demo.row "b" VNull] eq_refl Demo.walk_in_order eq_refl eq_refl eq_refl
    eq_refl eq_refl)).
Defined.
