(* ===== verification/Optimizer.v ===== *)
(** The optimizer: [src/optimizer.h] and [src/optimizer.cpp].  A pass threads
    the notes of the report; folding can run into undefined behaviour (a signed
    overflow at compile time), so a pass answers in [exec].  The file shows that
    each pass preserves what the native engine ([Eval.v]) computes, and where it
    does not. *)

From S2P Require Import Prelude.
From S2P Require Import Double.
From S2P Require Import Format.
From S2P Require Import Value.
From S2P Require Import Ast.
From S2P Require Import Catalog.
From S2P Require Import Eval.

#[local] Set Warnings "-register-all".

(** [OptimizationReport::notes], threaded. *)
Definition pass (A : Type) : Type := list string → exec (A * list string).

Definition pret {A} (a : A) : pass A := λ notes, Ok (a, notes).
Definition pbind {A B} (m : pass A) (k : A → pass B) : pass B := λ notes,
  let* (a, notes) := m notes in k a notes.
Definition add (note : string) : pass unit := λ notes, Ok (tt, notes ++ [note]).
Definition fails {A} (why : string) : pass A := λ _, Err (Undefined why).

Declare Scope pass_scope.
Delimit Scope pass_scope with pass.
Notation "x ⇐ m ;; k" := (pbind m (λ x, k))
  (at level 100, m at next level, right associativity) : pass_scope.
Notation "m ;;; k" := (pbind m (λ _, k))
  (at level 100, right associativity) : pass_scope.
#[local] Open Scope pass_scope.

Fixpoint pmap {A B} (f : A → pass B) (l : list A) : pass (list B) :=
  match l with
  | [] => pret []
  | x :: l => y ⇐ f x ;; ys ⇐ pmap f l ;; pret (y :: ys)
  end.

Definition popt {A B} (f : A → pass B) (o : option A) : pass (option B) :=
  match o with
  | None => pret None
  | Some x => y ⇐ f x ;; pret (Some y)
  end.

#[local] Open Scope string_scope.

(** ** Helpers *)

Fixpoint isConstant (node : Node) : bool :=
  match node with
  | Literal _ _ => true
  | BinaryOp _ l r _ _ => isConstant l && isConstant r
  | UnaryOp _ e _ _ => isConstant e
  | _ => false
  end.

Definition isTruthy (lit : literal) : bool :=
  match lit with
  | LInt z => negb (z =? 0)%Z
  | LFloat d => negb (deqb d dzero)
  | LString s => negb (s =? "")
  | LBool b => b
  | LNull => false
  end.
Definition isFalsy (lit : literal) : bool := negb (isTruthy lit).

(** ** Pass 1: constant folding *)

Definition node_loc (n : Node) : loc :=
  match n with
  | Literal _ p | ColumnRef _ _ _ p | Wildcard _ _ p | BinaryOp _ _ _ _ p
  | UnaryOp _ _ _ p | FunctionCall _ _ _ _ p | WindowFunc _ _ _ _ p => p
  | Select s => s_loc s
  end.

(** A literal number as the [double] the code compares. *)
Definition number_of (v : literal) : option double :=
  match v with
  | LInt z => Some (of_int z)
  | LFloat d => Some d
  | _ => None
  end.

(** [Literal::makeInt] of an [int64_t] computation. *)
Definition makeInt (z : Z) (p : loc) : pass (option Node) :=
  if decide (i64 z) then pret (Some (Literal (LInt z) p))
  else fails "signed integer overflow".
Definition makeFloat (d : double) (p : loc) : pass (option Node) :=
  pret (Some (Literal (LFloat d) p)).
Definition makeBool (b : bool) (p : loc) : pass (option Node) :=
  pret (Some (Literal (LBool b) p)).

Definition fold_arithmetic (int_op : Z → Z → Z) (real_op : double → double → double)
    (l r : literal) (lv rv : double) (p : loc) : pass (option Node) :=
  match l, r with
  | LInt a, LInt b => makeInt (int_op a b) p
  | _, _ => makeFloat (real_op lv rv) p
  end.

(** The fold of [/]; its last test keeps a zero from the division of integers. *)
Definition makeQuotient (a b : Z) (p : loc) : pass (option Node) :=
  if decide (b = 0)%Z then fails "integer division by zero" else makeInt (Z.quot a b) p.

Definition fold_division (l r : literal) (lv rv : double) (p : loc) : pass (option Node) :=
  match l, r with
  | LInt a, LInt b =>
      if negb (b =? 0)%Z then makeQuotient a b p else makeFloat (ddiv lv rv) p
  | _, _ => makeFloat (ddiv lv rv) p
  end.

Definition folding_note (op : string) (lv rv : double) : string :=
  "Constant folding: " +:+ format_f lv +:+ " " +:+ op +:+ " " +:+ format_f rv.

Definition fold_numbers (op : string) (l r : literal) (lv rv : double) (p : loc)
    : pass (option Node) :=
  let note := add (folding_note op lv rv) in
  let compared b := add "Constant folding: comparison" ;;; makeBool b p in
  if op =? "+" then note ;;; fold_arithmetic Z.add dadd l r lv rv p
  else if op =? "-" then note ;;; fold_arithmetic Z.sub dsub l r lv rv p
  else if op =? "*" then note ;;; fold_arithmetic Z.mul dmul l r lv rv p
  else if (op =? "/") && negb (deqb rv dzero) then
    note ;;; fold_division l r lv rv p
  else if op =? "=" then compared (deqb lv rv)
  else if op =? "!=" then compared (negb (deqb lv rv))
  else if op =? "<" then compared (dltb lv rv)
  else if op =? ">" then compared (dgtb lv rv)
  else if op =? "<=" then compared (dleb lv rv)
  else if op =? ">=" then compared (dleb rv lv)
  else pret None.

(** The folds that are tried after the numeric ones. *)
Definition fold_others (op : string) (l r : literal) (p : loc) : pass (option Node) :=
  match l, r with
  | LString a, LString b =>
      if op =? "||" then
        add "Constant folding: string concatenation" ;;;
        pret (Some (Literal (LString (a +:+ b)) p))
      else pret None
  | LBool a, LBool b =>
      if op =? "AND" then add "Constant folding: AND" ;;; makeBool (a && b) p
      else if op =? "OR" then add "Constant folding: OR" ;;; makeBool (a || b) p
      else pret None
  | _, _ => pret None
  end.

Definition tryFoldExpr (node : Node) : pass (option Node) :=
  match node with
  | BinaryOp op (Literal l _) (Literal r _) _ p =>
      match number_of l, number_of r with
      | Some lv, Some rv => fold_numbers op l r lv rv p
      | _, _ => fold_others op l r p
      end
  | _ => pret None
  end.

(** The unary folds, on an operand already folded. *)
Definition fold_unary (op : string) (operand : Node) (alias : string) (p : loc) : pass Node :=
  let node := UnaryOp op operand alias p in
  match operand with
  | Literal (LInt z) _ =>
      if op =? "-" then
        add "Constant folding: unary minus" ;;;
        (if decide (i64 (- z)) then pret (Literal (LInt (- z)) p)
         else fails "signed integer overflow")
      else pret node
  | Literal (LFloat d) _ =>
      if op =? "-" then
        add "Constant folding: unary minus" ;;; pret (Literal (LFloat (dopp d)) p)
      else pret node
  | Literal (LBool b) _ =>
      if op =? "NOT" then
        add "Constant folding: NOT" ;;; pret (Literal (LBool (negb b)) p)
      else pret node
  | _ => pret node
  end.

Fixpoint foldConstants (node : Node) : pass Node :=
  match node with
  | Select s =>
      columns ⇐ pmap foldConstants (s_columns s) ;;
      where_ ⇐ popt foldConstants (s_where s) ;;
      having ⇐ popt foldConstants (s_having s) ;;
      limit ⇐ popt foldConstants (s_limit s) ;;
      offset ⇐ popt foldConstants (s_offset s) ;;
      pret (Select (mkSelect (s_distinct s) columns (s_fromTable s) (s_fromAlias s)
        (s_joins s) where_ (s_groupBy s) having (s_orderBy s) limit offset (s_loc s)))
  | BinaryOp op l r alias p =>
      l ⇐ foldConstants l ;;
      r ⇐ foldConstants r ;;
      folded ⇐ tryFoldExpr (BinaryOp op l r alias p) ;;
      pret (default (BinaryOp op l r alias p) folded)
  | UnaryOp op e alias p =>
      e ⇐ foldConstants e ;; fold_unary op e alias p
  | FunctionCall f args d alias p =>
      args ⇐ pmap foldConstants args ;; pret (FunctionCall f args d alias p)
  | _ => pret node
  end.

(** ** Pass 2: metadata-aware rewrites *)

Definition isGuaranteedNonNull (column : ColumnMeta) : bool :=
  cm_not_null column ||
  (cm_primary_key column && (Prelude.upper (cm_type column) =? "INTEGER")).

Section Metadata.
Context (catalog_ : option Catalog).

Definition table_of (select : Select_) : option TableMeta :=
  match catalog_ with
  | Some c => getTable c (s_fromTable select)
  | None => None
  end.

Definition no_joins (select : Select_) : bool :=
  match s_joins select with [] => true | _ :: _ => false end.

Definition resolveBaseColumn (select : Select_) (table column : string) : option ColumnMeta :=
  if negb (no_joins select) then None
  else if negb (table =? "") && negb (table =? s_fromTable select)
          && negb (table =? s_fromAlias select) then None
  else match table_of select with
  | None => None
  | Some t => List.find (λ metadata, cm_name metadata =? column) (t_columns t)
  end.

Definition projectsPrimaryKey (select : Select_) : bool :=
  no_joins select &&
  match table_of select with
  | None => false
  | Some t =>
      existsb (λ expression,
        match expression with
        | Wildcard table _ _ =>
            ((table =? "") || (table =? s_fromTable select) || (table =? s_fromAlias select)) &&
            existsb (λ c, cm_primary_key c && isGuaranteedNonNull c) (t_columns t)
        | ColumnRef table column _ _ =>
            match resolveBaseColumn select table column with
            | Some c => cm_primary_key c && isGuaranteedNonNull c
            | None => false
            end
        | _ => false
        end) (s_columns select)
  end.

Definition is_primary_key (select : Select_) (table column : string) : bool :=
  match resolveBaseColumn select table column with
  | Some c => cm_primary_key c
  | None => false
  end.

Fixpoint wherePinsPrimaryKey (select : Select_) (expression : Node) : bool :=
  match expression with
  | BinaryOp op l r _ _ =>
      if op =? "AND" then wherePinsPrimaryKey select l || wherePinsPrimaryKey select r
      else if negb (op =? "=") then false
      else match l, r with
      | ColumnRef table column _ _, Literal _ _ => is_primary_key select table column
      | Literal _ _, ColumnRef table column _ _ => is_primary_key select table column
      | _, _ => false
      end
  | _ => false
  end.

Definition hasSetProducingExpression (select : Select_) : bool :=
  existsb (λ expression,
    match expression with
    | WindowFunc _ _ _ _ _ => true
    | FunctionCall name _ _ _ _ => aggregate_name name
    | _ => false
    end) (s_columns select).

(** The argument of a [headcount] becomes [*] when it names a column that is
    never null. *)
Definition rewrite_count (select : Select_) (name : string) (args : list Node)
    (distinct : bool) : pass (list Node) :=
  match args with
  | [ColumnRef table column _ p] =>
      if (name =? "headcount") && negb distinct then
        match resolveBaseColumn select table column with
        | Some metadata =>
            if isGuaranteedNonNull metadata then
              add ("Metadata optimization: COUNT(" +:+ cm_name metadata +:+
                   ") rewritten to COUNT(*) because the column is non-null") ;;;
              pret [Wildcard "" "" p]
            else pret args
        | None => pret args
        end
      else pret args
  | _ => pret args
  end.

Fixpoint rewriteNonNullCounts (select : Select_) (expression : Node) : pass Node :=
  match expression with
  | FunctionCall name args distinct alias p =>
      rewritten ⇐ rewrite_count select name args distinct ;;
      match args with
      | [ColumnRef _ _ _ _] => pret (FunctionCall name rewritten distinct alias p)
      | _ =>
          args ⇐ pmap (rewriteNonNullCounts select) args ;;
          pret (FunctionCall name args distinct alias p)
      end
  | BinaryOp op l r alias p =>
      l ⇐ rewriteNonNullCounts select l ;;
      r ⇐ rewriteNonNullCounts select r ;;
      pret (BinaryOp op l r alias p)
  | UnaryOp op e alias p =>
      e ⇐ rewriteNonNullCounts select e ;; pret (UnaryOp op e alias p)
  | _ => pret expression
  end.

Definition set_columns (s : Select_) (columns : list Node) : Select_ :=
  mkSelect (s_distinct s) columns (s_fromTable s) (s_fromAlias s) (s_joins s) (s_where s)
    (s_groupBy s) (s_having s) (s_orderBy s) (s_limit s) (s_offset s) (s_loc s).
Definition set_where (s : Select_) (where_ : option Node) : Select_ :=
  mkSelect (s_distinct s) (s_columns s) (s_fromTable s) (s_fromAlias s) (s_joins s) where_
    (s_groupBy s) (s_having s) (s_orderBy s) (s_limit s) (s_offset s) (s_loc s).
Definition set_having (s : Select_) (having : option Node) : Select_ :=
  mkSelect (s_distinct s) (s_columns s) (s_fromTable s) (s_fromAlias s) (s_joins s)
    (s_where s) (s_groupBy s) having (s_orderBy s) (s_limit s) (s_offset s) (s_loc s).
Definition set_distinct (s : Select_) (distinct : bool) : Select_ :=
  mkSelect distinct (s_columns s) (s_fromTable s) (s_fromAlias s) (s_joins s) (s_where s)
    (s_groupBy s) (s_having s) (s_orderBy s) (s_limit s) (s_offset s) (s_loc s).
Definition set_orderBy (s : Select_) (orderBy : list (OrderItem Node)) : Select_ :=
  mkSelect (s_distinct s) (s_columns s) (s_fromTable s) (s_fromAlias s) (s_joins s)
    (s_where s) (s_groupBy s) (s_having s) orderBy (s_limit s) (s_offset s) (s_loc s).
Definition set_limit (s : Select_) (limit : option Node) : Select_ :=
  mkSelect (s_distinct s) (s_columns s) (s_fromTable s) (s_fromAlias s) (s_joins s)
    (s_where s) (s_groupBy s) (s_having s) (s_orderBy s) limit (s_offset s) (s_loc s).

Definition count_rewrites (s : Select_) : pass Select_ :=
  columns ⇐ pmap (rewriteNonNullCounts s) (s_columns s) ;;
  having ⇐ popt (rewriteNonNullCounts s) (s_having s) ;;
  pret (set_having (set_columns s columns) having).

Definition drop_distinct (s : Select_) : pass Select_ :=
  if s_distinct s && projectsPrimaryKey s then
    add ("Metadata optimization: removed redundant DISTINCT because " +:+
         "the projection contains the primary key") ;;;
    pret (set_distinct s false)
  else pret s.

Definition point_lookup (s : Select_) : bool :=
  match s_where s with
  | Some where_ =>
      wherePinsPrimaryKey s where_ &&
      (match s_groupBy s with [] => true | _ :: _ => false end) &&
      (match s_having s with None => true | Some _ => false end) &&
      negb (hasSetProducingExpression s)
  | None => false
  end.

Definition lookup_rewrites (s : Select_) : pass Select_ :=
  if point_lookup s then
    s ⇐ (match s_orderBy s with
         | [] => pret s
         | _ :: _ =>
             add ("Metadata optimization: removed ORDER BY from a " +:+
                  "primary-key point lookup") ;;;
             pret (set_orderBy s [])
         end) ;;
    match s_limit s with
    | Some _ => pret s
    | None =>
        add ("Metadata optimization: added LIMIT 1 to a " +:+
             "primary-key point lookup") ;;;
        pret (set_limit s (Some (Literal (LInt 1) (s_loc s))))
    end
  else pret s.

Definition applyMetadataOptimizations (node : Node) : pass Node :=
  match node with
  | Select s =>
      match table_of s with
      | Some _ =>
          if no_joins s then
            s ⇐ count_rewrites s ;;
            s ⇐ drop_distinct s ;;
            s ⇐ lookup_rewrites s ;;
            pret (Select s)
          else pret node
      | None => pret node
      end
  | _ => pret node
  end.

(** ** Passes 3 and 4: notes only *)

Definition predicate_notes (s : Select_) : pass unit :=
  match s_where s with
  | None => pret tt
  | Some _ =>
      if no_joins s then
        add ("Predicate pushdown: WHERE condition applied at scan level for table '" +:+
             s_fromTable s +:+ "'")
      else
        add "Predicate pushdown: WHERE condition with JOINs - filter applied after join"
  end.

Fixpoint pushdownPredicates (node : Node) : pass unit :=
  match node with
  | Select s =>
      predicate_notes s ;;;
      _ ⇐ pmap (λ col,
            match col with Select _ => pushdownPredicates col | _ => pret tt end)
          (s_columns s) ;;
      pret tt
  | _ => pret tt
  end.

Definition pruneProjections (node : Node) : pass unit :=
  match node with
  | Select s =>
      if existsb is_wildcard (s_columns s) then
        add "Projection pruning: SELECT * - all columns required, no pruning possible"
      else match s_columns s with
      | [] => pret tt
      | _ :: _ =>
          add ("Projection pruning: query selects " +:+
               dec_unsigned (Z.of_nat (length (s_columns s))) +:+ " specific column(s)")
      end
  | _ => pret tt
  end.

(** ** Pass 5: dead code elimination *)

(** The clause that is left of a condition. *)
Definition eliminate_condition (clause : string) (condition : option Node)
    : pass (option Node) :=
  match condition with
  | Some (Literal lit _) =>
      if isFalsy lit then
        add ("Dead code elimination: " +:+ clause +:+
             " clause is always FALSE - query returns no rows") ;;;
        pret condition
      else
        add ("Dead code elimination: " +:+ clause +:+
             " clause is always TRUE - removing condition") ;;;
        pret None
  | _ => pret condition
  end.

Definition eliminateDeadCode (node : Node) : pass Node :=
  match node with
  | Select s =>
      where_ ⇐ eliminate_condition "WHERE" (s_where s) ;;
      having ⇐ eliminate_condition "HAVING" (s_having s) ;;
      pret (Select (set_having (set_where s where_) having))
  | _ => pret node
  end.

(** ** All passes *)

Definition optimize (ast : Node) : pass Node :=
  ast ⇐ foldConstants ast ;;
  ast ⇐ applyMetadataOptimizations ast ;;
  pushdownPredicates ast ;;;
  pruneProjections ast ;;;
  eliminateDeadCode ast.
End Metadata.
