(* ===== verification/OptimizerProofs.v ===== *)
(** What the optimizer ([Optimizer.v]) preserves: constant folding and dead-code
    elimination against evaluation in a row, the metadata rewrites against the
    grouped evaluation and against the rows a table can hold. *)

From S2P Require Import Prelude.
From S2P Require Import Double.
From S2P Require Import Format.
From S2P Require Import Value.
From S2P Require Import Ast.
From S2P Require Import Catalog.
From S2P Require Import Eval.
From S2P Require Import Select.
From S2P Require Import Optimizer.

#[local] Open Scope string_scope.

(** ** The pass monad *)

Lemma pbind_Ok {A B} (m : pass A) (k : A → pass B) notes b notes' :
  pbind m k notes = Ok (b, notes') →
  ∃ a notes1, m notes = Ok (a, notes1) ∧ k a notes1 = Ok (b, notes').
Proof. unfold pbind. destruct (m notes) as [[a n1]|e]; cbn; [eauto|done]. Qed.

Lemma pret_Ok {A} (a b : A) notes notes' :
  pret a notes = Ok (b, notes') → a = b ∧ notes = notes'.
Proof. by intros [= -> ->]. Qed.

Lemma add_Ok note u notes notes' :
  add note notes = Ok (u, notes') → notes' = (notes ++ [note])%list.
Proof. by intros [= _ <-]. Qed.

(** Take apart a successful run of a pass. *)
Ltac pass_inv :=
  repeat match goal with
  | H : pbind ?m ?k ?n = Ok (_, _) |- _ =>
      let a := fresh "a" in let n1 := fresh "n" in
      let H1 := fresh "Hm" in let H2 := fresh "Hk" in
      apply pbind_Ok in H as (a & n1 & H1 & H2)
  | H : pret ?a ?n = Ok (?b, ?m) |- _ => apply pret_Ok in H as [H ?]; try subst b; try subst m
  | H : add ?a ?n = Ok (_, ?m) |- _ => apply add_Ok in H; try subst m
  | H : fails _ _ = Ok _ |- _ => discriminate H
  end.

Lemma pmap_Ok {A B} (f : A → pass B) l notes l' notes' :
  pmap f l notes = Ok (l', notes') →
  Forall2 (λ x y, ∃ n n', f x n = Ok (y, n')) l l'.
Proof.
  revert notes l'. induction l as [|x l IH]; intros notes l' H; cbn in H; pass_inv.
  - constructor.
  - constructor; eauto.
Qed.

Lemma popt_Ok {A B} (f : A → pass B) o notes o' notes' :
  popt f o notes = Ok (o', notes') →
  option_Forall2 (λ x y, ∃ n n', f x n = Ok (y, n')) o o'.
Proof. destruct o; cbn; intros H; pass_inv; constructor; eauto. Qed.

(** ** Folding computes what the engine computes *)

Definition ordering_op (op : string) : Prop := op = "<=" ∨ op = ">=".

(** No [<=] or [>=] of the expression compares a NaN in this row. *)
Fixpoint no_nan_ordering (row : EvalRow) (n : Node) : Prop :=
  match n with
  | BinaryOp op l r _ _ =>
      no_nan_ordering row l ∧ no_nan_ordering row r ∧
      (ordering_op op → ∀ x y dx dy,
         eval l row = Ok x → eval r row = Ok y → asReal x = Ok dx → asReal y = Ok dy →
         is_nan dx = false ∧ is_nan dy = false)
  | UnaryOp _ e _ _ => no_nan_ordering row e
  | _ => True
  end.

Lemma number_asReal v d : number_of v = Some d → asReal (literal_value v) = Ok d.
Proof. destruct v; intros [= <-]; reflexivity. Qed.

Lemma number_numeric v d :
  number_of v = Some d → isNull (literal_value v) = false ∧ isNumeric (literal_value v) = true.
Proof. by destruct v. Qed.

Lemma dgtb_asymmetric x y : dltb x y = true → dgtb x y = false.
Proof.
  unfold dgtb. destruct (is_nan x) eqn:Hx; [|destruct (is_nan y) eqn:Hy].
  - unfold dltb at 1, SFltb. fold (dcompare x y). by rewrite dcompare_nan by auto.
  - unfold dltb at 1, SFltb. fold (dcompare x y). by rewrite dcompare_nan by auto.
  - rewrite !dltb_key by done. rewrite Z.ltb_lt, Z.ltb_ge. lia.
Qed.

Lemma dleb_key a b : is_nan a = false → is_nan b = false → dleb a b = (dkey a <=? dkey b)%Z.
Proof.
  intros Ha Hb. unfold dleb, SFleb. fold (dcompare a b). rewrite dcompare_key by done.
  unfold Z.leb. by destruct (dkey a ?= dkey b)%Z.
Qed.

(** [compare] of two numbers, by the comparisons of doubles. *)
Lemma compare_numbers a b x y :
  number_of a = Some x → number_of b = Some y →
  compare (literal_value a) (literal_value b) =
    (if dltb x y then -1 else if dgtb x y then 1 else 0)%Z.
Proof. destruct a; intros [= <-]; destruct b; intros [= <-]; reflexivity. Qed.

Lemma value_eqb_numbers a b x y :
  number_of a = Some x → number_of b = Some y →
  value_eqb (literal_value a) (literal_value b) = deqb x y.
Proof. destruct a; intros [= <-]; destruct b; intros [= <-]; reflexivity. Qed.

Lemma fold_arithmetic_eval iop rop a b x y p notes n' notes' :
  number_of a = Some x → number_of b = Some y →
  fold_arithmetic iop rop a b x y p notes = Ok (Some n', notes') →
  ∃ v, n' = Literal v p ∧
    Ok (literal_value v) = arithmetic iop rop (literal_value a) (literal_value b).
Proof.
  intros Ha Hb H.
  destruct a; try discriminate Ha; destruct b; try discriminate Hb;
    unfold fold_arithmetic in H;
    try (unfold makeFloat in H; apply pret_Ok in H as [[= <-] ->];
         eexists; split; [done|]; cbn in *; congruence).
  unfold makeInt in H. unfold arithmetic, int_value. cbn.
  case_decide; [|done]. apply pret_Ok in H as [[= <-] ->].
  by eexists.
Qed.

Lemma fold_division_arithmetic a b x y p :
  number_of b = Some y → deqb y dzero = false →
  fold_division a b x y p = fold_arithmetic Z.quot ddiv a b x y p.
Proof.
  intros Hb Hy. destruct a, b; try done. injection Hb as <-. cbn [fold_division fold_arithmetic].
  unfold makeQuotient. destruct (Z.eqb_spec ival0 0) as [->|Hne]; [done|].
  cbn [negb]. by rewrite decide_False.
Qed.

Lemma makeBool_Ok b p notes n' notes' :
  makeBool b p notes = Ok (Some n', notes') → n' = Literal (LBool b) p.
Proof. by intros [= <- _]. Qed.

Lemma compare_lt0 (x y : double) :
  ((if dltb x y then -1 else if dgtb x y then 1 else 0) <? 0)%Z = dltb x y.
Proof. by destruct (dltb x y), (dgtb x y). Qed.

Lemma compare_gt0 (x y : double) :
  (0 <? (if dltb x y then -1 else if dgtb x y then 1 else 0))%Z = dgtb x y.
Proof.
  destruct (dltb x y) eqn:E; [by rewrite (dgtb_asymmetric x y E)|]. by destruct (dgtb x y).
Qed.

Lemma compare_le0 (x y : double) :
  is_nan x = false → is_nan y = false →
  ((if dltb x y then -1 else if dgtb x y then 1 else 0) <=? 0)%Z = dleb x y.
Proof.
  intros Hx Hy. unfold dgtb. rewrite !dltb_key, dleb_key by done.
  destruct (Z.ltb_spec (dkey x) (dkey y)), (Z.ltb_spec (dkey y) (dkey x)),
    (Z.leb_spec (dkey x) (dkey y)); try done; lia.
Qed.

Lemma compare_ge0 (x y : double) :
  is_nan x = false → is_nan y = false →
  (0 <=? (if dltb x y then -1 else if dgtb x y then 1 else 0))%Z = dleb y x.
Proof.
  intros Hx Hy. unfold dgtb. rewrite !dltb_key, dleb_key by done.
  destruct (Z.ltb_spec (dkey x) (dkey y)), (Z.ltb_spec (dkey y) (dkey x)),
    (Z.leb_spec (dkey y) (dkey x)); try done; lia.
Qed.

(** Pick the branch of a chain of tests on the operator. *)
Ltac case_op :=
  repeat match goal with
  | H : (if (?op =? ?s)%string then _ else _) _ = Ok _ |- _ =>
      destruct (String.eqb_spec op s); [subst op|]
  | H : (if (?op =? ?s)%string && ?b then _ else _) _ = Ok _ |- _ =>
      destruct (String.eqb_spec op s); cbn [andb] in H; [subst op; destruct b eqn:?|]
  end.

Lemma fold_numbers_eval op a b x y p notes n' notes' :
  number_of a = Some x → number_of b = Some y →
  (ordering_op op → is_nan x = false ∧ is_nan y = false) →
  fold_numbers op a b x y p notes = Ok (Some n', notes') →
  ∃ v, n' = Literal v p ∧
    Ok (literal_value v) = applyBinary op (literal_value a) (literal_value b).
Proof.
  intros Ha Hb Hnan H.
  destruct (number_numeric a x Ha) as [Hna Hma], (number_numeric b y Hb) as [Hnb Hmb].
  unfold fold_numbers in H. unfold applyBinary. rewrite Hna, Hnb, Hma, Hmb.
  rewrite (value_eqb_numbers a b x y), (compare_numbers a b x y) by done.
  case_op; cbn -[arithmetic divide]; pass_inv;
    try (eapply fold_arithmetic_eval; eassumption);
    try (apply makeBool_Ok in Hk as ->; eexists; split; [done|]).
  - rewrite divide_guarded, (number_asReal b y Hb). cbn [rbind].
    apply negb_true_iff in Heqb0 as Hy. rewrite Hy. eapply fold_arithmetic_eval; [done..|].
    by rewrite <- fold_division_arithmetic.
  - discriminate H.
  - done.
  - done.
  - by rewrite compare_lt0.
  - by rewrite compare_gt0.
  - rewrite compare_le0; [done|apply Hnan; by left..].
  - rewrite compare_ge0; [done|apply Hnan; by right..].
  - discriminate H.
Qed.

Lemma fold_others_eval op a b p notes n' notes' :
  fold_others op a b p notes = Ok (Some n', notes') →
  ∃ v, n' = Literal v p ∧
    Ok (literal_value v) = applyBinary op (literal_value a) (literal_value b).
Proof.
  intros H. unfold fold_others in H.
  destruct a, b; try discriminate H; case_op; try discriminate H; pass_inv;
    first [apply makeBool_Ok in Hk as -> | injection Hk as <-]; by eexists.
Qed.

Lemma tryFoldExpr_eval op l r alias p row notes n' notes' :
  tryFoldExpr (BinaryOp op l r alias p) notes = Ok (Some n', notes') →
  (ordering_op op → ∀ x y dx dy,
     eval l row = Ok x → eval r row = Ok y → asReal x = Ok dx → asReal y = Ok dy →
     is_nan dx = false ∧ is_nan dy = false) →
  eval n' row = eval (BinaryOp op l r alias p) row.
Proof.
  intros H Hnan. destruct l as [a ?| | | | | | |]; try discriminate H.
  destruct r as [b ?| | | | | | |]; try discriminate H. cbn [tryFoldExpr] in H. cbn [eval rbind].
  destruct (number_of a) as [x|] eqn:Ha; [destruct (number_of b) as [y|] eqn:Hb|];
    [|by apply fold_others_eval in H as (v & -> & E)..].
  apply (fold_numbers_eval op a b x y) in H as (v & -> & E); try done.
  intros Ho. eapply Hnan; eauto using number_asReal.
Qed.

Lemma fold_unary_eval op e alias p row notes n' notes' :
  fold_unary op e alias p notes = Ok (n', notes') →
  eval n' row = eval (UnaryOp op e alias p) row.
Proof.
  intros H. unfold fold_unary in H.
  destruct e as [[z|d|s| |b] ?| | | | | | |]; try (by pass_inv);
    case_op; pass_inv; try done; cbn.
  unfold int_value. case_decide; [|done]. by pass_inv.
Qed.

Lemma foldConstants_eval n row notes n' notes' :
  no_nan_ordering row n → foldConstants n notes = Ok (n', notes') →
  eval n' row = eval n row.
Proof.
  revert notes n' notes'.
  induction n as [| | |op l IHl r IHr alias p|op e IH alias p|f args d alias p| |s];
    intros notes n' notes' Hnan H; cbn [foldConstants] in H; pass_inv; try done.
  - destruct Hnan as (Hl & Hr & Hop).
    specialize (IHl _ _ _ Hl Hm). specialize (IHr _ _ _ Hr Hm0).
    destruct a1 as [folded|]; cbn [default]; unfold id; [|cbn [eval]; by rewrite IHl, IHr].
    rewrite (tryFoldExpr_eval _ _ _ _ _ row _ _ _ Hm1); [cbn [eval]; by rewrite IHl, IHr|].
    intros Ho x y dx dy. rewrite IHl, IHr. by apply Hop.
  - rewrite (fold_unary_eval _ _ _ _ row _ _ _ Hk). cbn [eval]. by erewrite IH.
Qed.

(** ** Folding is idempotent *)

(** A node that folding leaves alone. *)
Definition folded_form (n : Node) : Prop := ∀ notes, foldConstants n notes = Ok (n, notes).

Lemma fold_arithmetic_Some iop rop a b x y p notes o notes' :
  fold_arithmetic iop rop a b x y p notes = Ok (o, notes') → ∃ v, o = Some (Literal v p).
Proof.
  unfold fold_arithmetic, makeInt, makeFloat. intros H.
  destruct a, b; repeat case_decide; pass_inv; eauto.
Qed.

Lemma fold_division_Some a b x y p notes o notes' :
  fold_division a b x y p notes = Ok (o, notes') → ∃ v, o = Some (Literal v p).
Proof.
  unfold fold_division, makeQuotient, makeInt, makeFloat. intros H.
  destruct a, b; repeat case_match; pass_inv; eauto.
Qed.

Lemma fold_numbers_cases op a b x y p notes o notes' :
  fold_numbers op a b x y p notes = Ok (o, notes') →
  (∃ v, o = Some (Literal v p)) ∨
  (o = None ∧ ∀ m, fold_numbers op a b x y p m = Ok (None, m)).
Proof.
  intros H. unfold fold_numbers in *.
  repeat case_match; pass_inv; try (left; first [by eapply fold_arithmetic_Some | by eapply fold_division_Some]);
    try (left; injection Hk as <- _; by eexists).
  by right.
Qed.

Lemma fold_others_cases op a b p notes o notes' :
  fold_others op a b p notes = Ok (o, notes') →
  (∃ v, o = Some (Literal v p)) ∨
  (o = None ∧ ∀ m, fold_others op a b p m = Ok (None, m)).
Proof.
  intros H. unfold fold_others in *.
  repeat case_match; pass_inv; try (by right);
    left; first [injection Hk as <- _ | idtac]; by eexists.
Qed.

Lemma tryFoldExpr_cases node notes o notes' :
  tryFoldExpr node notes = Ok (o, notes') →
  (∃ v, o = Some (Literal v (node_loc node))) ∨
  (o = None ∧ ∀ m, tryFoldExpr node m = Ok (None, m)).
Proof.
  intros H. destruct node as [| | |op l r alias p| | | |];
    try (cbn in H; pass_inv; by right).
  destruct l as [a ?| | | | | | |], r as [b ?| | | | | | |];
    try (cbn in H; pass_inv; by right).
  cbn [tryFoldExpr node_loc] in *.
  destruct (number_of a), (number_of b);
    by first [apply fold_numbers_cases in H | apply fold_others_cases in H].
Qed.

Lemma fold_unary_cases op e alias p notes n' notes' :
  fold_unary op e alias p notes = Ok (n', notes') →
  (∃ v, n' = Literal v p) ∨
  (n' = UnaryOp op e alias p ∧ ∀ m, fold_unary op e alias p m = Ok (n', m)).
Proof.
  intros H. unfold fold_unary in *.
  repeat case_match; pass_inv; try (by right); left; by eexists.
Qed.

Lemma pmap_folded l l' :
  Forall2 (λ x y, ∃ n n', foldConstants x n = Ok (y, n')) l l' →
  (∀ x, x ∈ l → ∀ n y n', foldConstants x n = Ok (y, n') → folded_form y) →
  ∀ m, pmap foldConstants l' m = Ok (l', m).
Proof.
  induction 1 as [|x y l l' (n & n' & Hxy) _ IH]; intros Hf m; [done|].
  cbn. unfold pbind. rewrite (Hf x (list_elem_of_here _ _) n y n' Hxy m). cbn.
  rewrite IH; [done|]. intros z Hz. by apply Hf, list_elem_of_further.
Qed.

Lemma popt_folded o o' :
  option_Forall2 (λ x y, ∃ n n', foldConstants x n = Ok (y, n')) o o' →
  (∀ x, o = Some x → ∀ n y n', foldConstants x n = Ok (y, n') → folded_form y) →
  ∀ m, popt foldConstants o' m = Ok (o', m).
Proof.
  intros [x y (n & n' & Hxy)|] Hf m; [|done]. cbn. unfold pbind.
  by rewrite (Hf x eq_refl n y n' Hxy m).
Qed.

Lemma foldConstants_folded n notes n' notes' :
  foldConstants n notes = Ok (n', notes') → folded_form n'.
Proof.
  revert notes n' notes'. induction n as [n IH] using Node_children_ind.
  intros notes n' notes' H.
  destruct n as [| | |op l r alias p|op e alias p|f args d alias p| |s];
    cbn [foldConstants] in H; pass_inv; try (intros m; reflexivity).
  - assert (folded_form a) as Ha by (eapply IH; [|exact Hm]; cbn; set_solver).
    assert (folded_form a0) as Ha0 by (eapply IH; [|exact Hm0]; cbn; set_solver).
    destruct (tryFoldExpr_cases _ _ _ _ Hm1) as [[v ->]|[-> Hnone]]; [by intros m|].
    intros m. cbn [foldConstants default]. unfold pbind.
    rewrite Ha. cbn [rbind]. rewrite Ha0. cbn [rbind]. by rewrite Hnone.
  - assert (folded_form a) as Ha by (eapply IH; [|exact Hm]; cbn; set_solver).
    destruct (fold_unary_cases _ _ _ _ _ _ _ Hk) as [[v ->]|[-> Hsame]]; [by intros m|].
    intros m. cbn [foldConstants]. unfold pbind. rewrite Ha. cbn [rbind]. apply Hsame.
  - intros m. cbn [foldConstants]. unfold pbind.
    erewrite pmap_folded; [reflexivity|by eapply pmap_Ok|]. intros x Hx. eauto.
  - intros m. cbn [foldConstants s_columns s_where s_having s_limit s_offset]. unfold pbind.
    assert (∀ x, x ∈ select_children s → ∀ n y n',
      foldConstants x n = Ok (y, n') → folded_form y) as IH' by eauto. clear IH.
    unfold select_children in IH'.
    rewrite (pmap_folded (s_columns s)); [cbn [rbind]|by eapply pmap_Ok|set_solver].
    rewrite (popt_folded (s_where s)); [cbn [rbind]|by eapply popt_Ok|
      intros x E; apply IH'; rewrite E; set_solver].
    rewrite (popt_folded (s_having s)); [cbn [rbind]|by eapply popt_Ok|
      intros x E; apply IH'; rewrite E; set_solver].
    rewrite (popt_folded (s_limit s)); [cbn [rbind]|by eapply popt_Ok|
      intros x E; apply IH'; rewrite E; set_solver].
    rewrite (popt_folded (s_offset s)); [cbn [rbind]|by eapply popt_Ok|
      intros x E; apply IH'; rewrite E; set_solver].
    reflexivity.
Qed.

(** ** The WHERE clause *)

Lemma isTruthy_asBoolean v p :
  literals_ok (Literal v p) → isTruthy v = asBoolean (literal_value v).
Proof.
  destruct v as [z|d|s| |b]; cbn; try done.
  - intros Hz. rewrite deqb_key by auto with machine. rewrite dkey_of_int by done.
    case_decide as E; [by subst|].
    destruct (of_int_shape z Hz E) as (_ & _ & Hp).
    change (dkey dzero) with 0%Z. f_equal.
    destruct (Z.eqb_spec z 0), (Z.eqb_spec (Z.sgn z * pos_bits (Z.abs z)) 0); try done. lia.
  - intros _. destruct (String.eqb_spec s ""); [by subst|]. by rewrite bool_decide_eq_false_2.
Qed.

Lemma makeInt_ok z p notes n notes' :
  makeInt z p notes = Ok (Some n, notes') → literals_ok n.
Proof. unfold makeInt. intros H. case_decide; pass_inv. by injection H as <-. Qed.

Lemma tryFoldExpr_ok node notes n notes' :
  tryFoldExpr node notes = Ok (Some n, notes') → literals_ok n.
Proof.
  intros H. destruct node as [| | |op l r alias p| | | |]; try discriminate H.
  destruct l as [a ?| | | | | | |], r as [b ?| | | | | | |]; try discriminate H.
  cbn [tryFoldExpr] in H. unfold fold_numbers, fold_others, fold_arithmetic, fold_division, makeQuotient in H.
  repeat case_match; pass_inv;
    match goal with
    | H : makeInt _ _ _ = _ |- _ => by eapply makeInt_ok
    | H : makeFloat _ _ _ = Ok _ |- _ => by injection H as <- _
    | H : makeBool _ _ _ = Ok _ |- _ => by injection H as <- _
    | H : Some _ = Some _ |- _ => by injection H as <-
    | H : None = Some _ |- _ => discriminate H
    end.
Qed.

Lemma fold_unary_ok op e alias p notes n' notes' :
  literals_ok e → fold_unary op e alias p notes = Ok (n', notes') → literals_ok n'.
Proof.
  intros He H. unfold fold_unary in H. repeat case_match; pass_inv; try done.
Qed.

Lemma foldConstants_ok n notes n' notes' :
  literals_ok n → foldConstants n notes = Ok (n', notes') → literals_ok n'.
Proof.
  revert notes n' notes'.
  induction n as [| | |op l IHl r IHr alias p|op e IH alias p|f args d alias p| |s];
    intros notes n' notes' Hok H; cbn [foldConstants] in H; pass_inv; try done.
  - destruct Hok as [Hl Hr]. destruct a1 as [folded|]; cbn [default]; unfold id;
      [by eapply tryFoldExpr_ok|]. split; eauto.
  - eapply fold_unary_ok; [|done]. eauto.
Qed.

Lemma eliminate_condition_keeps clause c row notes c' notes' :
  (∀ e, c = Some e → literals_ok e) →
  eliminate_condition clause c notes = Ok (c', notes') → keeps c' row = keeps c row.
Proof.
  intros Hok H. unfold eliminate_condition in H.
  destruct c as [[v p| | | | | | |]|]; pass_inv; try done.
  destruct (isFalsy v) eqn:E; pass_inv; [done|]. unfold isFalsy in E.
  apply negb_false_iff in E. rewrite (isTruthy_asBoolean v p) in E by (by apply Hok).
  cbn. by rewrite E.
Qed.

(** The metadata rewrites leave the WHERE clause and the tables alone. *)
Lemma metadata_where cat s n notes notes' :
  applyMetadataOptimizations cat (Select s) notes = Ok (n, notes') →
  ∃ s', n = Select s' ∧ s_where s' = s_where s.
Proof.
  intros H. cbn in H.
  destruct (table_of cat s); [destruct (no_joins s)|]; pass_inv; try (by eexists).
  eexists; split; [done|]. unfold count_rewrites, drop_distinct, lookup_rewrites in *.
  repeat (case_match; pass_inv); done.
Qed.

Lemma fold_select s notes n notes' :
  foldConstants (Select s) notes = Ok (n, notes') →
  ∃ cols wh hv li off,
    n = Select (mkSelect (s_distinct s) cols (s_fromTable s) (s_fromAlias s) (s_joins s) wh
          (s_groupBy s) hv (s_orderBy s) li off (s_loc s)) ∧
    Forall2 (λ x y, ∃ n n', foldConstants x n = Ok (y, n')) (s_columns s) cols ∧
    option_Forall2 (λ x y, ∃ n n', foldConstants x n = Ok (y, n')) (s_where s) wh ∧
    option_Forall2 (λ x y, ∃ n n', foldConstants x n = Ok (y, n')) (s_having s) hv ∧
    option_Forall2 (λ x y, ∃ n n', foldConstants x n = Ok (y, n')) (s_limit s) li ∧
    option_Forall2 (λ x y, ∃ n n', foldConstants x n = Ok (y, n')) (s_offset s) off.
Proof.
  intros H. cbn [foldConstants] in H. pass_inv.
  do 5 eexists. split; [done|]. split_and!; by first [eapply pmap_Ok | eapply popt_Ok].
Qed.

(** The stages of [optimize] on a SELECT. *)
Lemma optimize_select cat s notes n notes' :
  optimize cat (Select s) notes = Ok (n, notes') →
  ∃ folded s1 s2 n1 n2 n3,
    foldConstants (Select s) notes = Ok (Select folded, n1) ∧
    applyMetadataOptimizations cat (Select folded) n1 = Ok (Select s1, n2) ∧
    eliminateDeadCode (Select s1) n3 = Ok (Select s2, notes') ∧ n = Select s2.
Proof.
  intros H. unfold optimize in H. pass_inv.
  pose proof Hm as Hf. apply fold_select in Hf as (cols & wh & hv & li & off & -> & _).
  pose proof Hm0 as Hd. apply metadata_where in Hd as (s1 & -> & _).
  match goal with H : eliminateDeadCode _ _ = Ok _ |- _ => pose proof H as He end.
  cbn [eliminateDeadCode] in He. pass_inv.
  do 6 eexists. by split_and!.
Qed.

Lemma optimize_where_keeps cat s notes s' notes' row :
  optimize cat (Select s) notes = Ok (Select s', notes') →
  (∀ e, s_where s = Some e → literals_ok e ∧ no_nan_ordering row e) →
  keeps (s_where s') row = keeps (s_where s) row.
Proof.
  intros H Hwf. apply optimize_select in H
    as (folded & s1 & s2 & n1 & n2 & n3 & Hf & Hm & He & [= ->]).
  apply fold_select in Hf as (cols & wh & hv & li & off & [= ->] & _ & Hwh & _).
  apply metadata_where in Hm as (s1' & [= <-] & Hs1). cbn in Hs1.
  cbn [eliminateDeadCode] in He. pass_inv.
  match goal with H : Select _ = Select s2 |- _ => injection H as <- end. cbn.
  assert (keeps wh row = keeps (s_where s) row ∧ ∀ e, wh = Some e → literals_ok e)
    as [Hkeep Hlit].
  { inversion Hwh as [e e' (m & m' & Hee') E1 E2|E1 E2].
    - destruct (Hwf e (eq_sym E1)) as [Hl Hn]. split.
      + cbn. by rewrite (foldConstants_eval e row m e' m').
      + intros ? [= <-]. by eapply foldConstants_ok.
    - split; [done|]. discriminate. }
  rewrite <- Hkeep, <- Hs1. eapply eliminate_condition_keeps; [|done].
  rewrite Hs1. done.
Qed.

(** ** Aggregates over a group

    [same_expression rows e e']: the two expressions evaluate alike in every row
    of the group and are wildcards alike. *)

Definition same_expression (rows : list EvalRow) (e e' : Node) : Prop :=
  is_wildcard e' = is_wildcard e ∧ ∀ row, row ∈ rows → eval e' row = eval e row.

Section Grouped.
Context (std_sort : list Value → list Value).

Lemma non_null_values_ext e e' rows :
  (∀ row, row ∈ rows → eval e' row = eval e row) →
  non_null_values e' rows = non_null_values e rows.
Proof.
  induction rows as [|row rows IH]; intros H; [done|]. cbn.
  rewrite H by apply list_elem_of_here. rewrite IH; [done|]. intros r Hr.
  by apply H, list_elem_of_further.
Qed.

Lemma count_loop_ext e e' distinct rows seen count :
  (∀ row, row ∈ rows → eval e' row = eval e row) →
  count_loop e' distinct rows seen count = count_loop e distinct rows seen count.
Proof.
  revert seen count. induction rows as [|row rows IH]; intros seen count H; [done|]. cbn.
  rewrite H by apply list_elem_of_here.
  assert (∀ r, r ∈ rows → eval e' r = eval e r) as Hr
    by (intros r Hr; by apply H, list_elem_of_further).
  destruct (eval e row); [cbn|done]. repeat case_match; auto.
Qed.

Lemma aggregate_ext name args args' distinct rows :
  Forall2 (same_expression rows) args args' →
  aggregate std_sort name args' distinct rows = aggregate std_sort name args distinct rows.
Proof.
  intros [|e e' more more' [Hw He] Hmore]; [done|]. unfold aggregate.
  rewrite Hw, (count_loop_ext e e'), (non_null_values_ext e e') by done.
  destruct (non_null_values e rows) as [[|v vs]|]; [done| |done]. cbn [rbind].
  destruct Hmore as [|f f' more more' [_ Hf] _]; [done|].
  destruct rows as [|row rows]; [done|]. by rewrite Hf by apply list_elem_of_here.
Qed.

(** The same for the whole group: a non-empty group, so that an expression and
    the literal it folds to are evaluated in the same front row. *)
Definition same_grouped (rows : list EvalRow) (e e' : Node) : Prop :=
  is_wildcard e' = is_wildcard e ∧ evalGrouped std_sort e' rows = evalGrouped std_sort e rows.

Lemma evalGrouped_literal v p rows :
  rows ≠ [] → evalGrouped std_sort (Literal v p) rows = Ok (literal_value v).
Proof. by destruct rows. Qed.

(** No [<=] or [>=] of the expression compares a NaN in this group. *)
Fixpoint no_nan_grouped (rows : list EvalRow) (n : Node) : Prop :=
  match n with
  | BinaryOp op l r _ _ =>
      no_nan_grouped rows l ∧ no_nan_grouped rows r ∧
      (ordering_op op → ∀ x y dx dy,
         evalGrouped std_sort l rows = Ok x → evalGrouped std_sort r rows = Ok y →
         asReal x = Ok dx → asReal y = Ok dy → is_nan dx = false ∧ is_nan dy = false)
  | UnaryOp _ e _ _ => no_nan_grouped rows e
  | FunctionCall _ args _ _ _ => ∀ row, row ∈ rows → Forall (no_nan_ordering row) args
  | _ => True
  end.

Lemma fold_is_wildcard n notes n' notes' :
  foldConstants n notes = Ok (n', notes') → is_wildcard n' = is_wildcard n.
Proof.
  intros H. destruct n; cbn [foldConstants] in H; pass_inv; try done.
  - destruct (tryFoldExpr_cases _ _ _ _ Hm1) as [[v ->]|[-> _]]; done.
  - destruct (fold_unary_cases _ _ _ _ _ _ _ Hk) as [[v ->]|[-> _]]; done.
Qed.

Lemma foldConstants_same rows n notes n' notes' :
  (∀ row, row ∈ rows → no_nan_ordering row n) →
  foldConstants n notes = Ok (n', notes') → same_expression rows n n'.
Proof.
  intros Hn H. split; [by eapply fold_is_wildcard|]. intros row Hr.
  eapply foldConstants_eval; eauto.
Qed.

Lemma foldConstants_grouped rows n notes n' notes' :
  rows ≠ [] → no_nan_grouped rows n → foldConstants n notes = Ok (n', notes') →
  evalGrouped std_sort n' rows = evalGrouped std_sort n rows.
Proof.
  intros Hne. revert notes n' notes'.
  induction n as [| | |op l IHl r IHr alias p|op e IH alias p|f args d alias p| |s];
    intros notes n' notes' Hnan H; cbn [foldConstants] in H; pass_inv; try done.
  - destruct Hnan as (Hl & Hr & Hop).
    specialize (IHl _ _ _ Hl Hm). specialize (IHr _ _ _ Hr Hm0).
    destruct a1 as [folded|]; cbn [default]; unfold id;
      [|cbn [evalGrouped]; by rewrite IHl, IHr].
    cbn [evalGrouped]. rewrite <- IHl, <- IHr in *.
    destruct a as [va ?| | | | | | |]; try discriminate Hm1.
    destruct a0 as [vb ?| | | | | | |]; try discriminate Hm1.
    rewrite !evalGrouped_literal in * by done.
    pose proof (tryFoldExpr_eval op (Literal va at_) (Literal vb at_0) alias p
                  (mkRow None []) n0 folded n1 Hm1 Hop) as E.
    destruct (tryFoldExpr_cases _ _ _ _ Hm1) as [[v [= ->]]|[[=] _]].
    rewrite evalGrouped_literal by done. exact E.
  - specialize (IH _ _ _ Hnan Hm). cbn [evalGrouped]. rewrite <- IH.
    pose proof (fold_unary_eval _ _ _ _ (mkRow None []) _ _ _ Hk) as E.
    destruct (fold_unary_cases _ _ _ _ _ _ _ Hk) as [[v ->]|[-> _]]; [|done].
    rewrite evalGrouped_literal by done.
    destruct a as [va ?| | | | | | |]; try discriminate Hk.
    by rewrite evalGrouped_literal by done.
  - cbn [evalGrouped hasAggregate].
    destruct (aggregate_name f); [|by destruct rows].
    apply aggregate_ext. apply pmap_Ok in Hm. cbn in Hnan.
    revert Hnan. induction Hm as [|x y xs ys (m & m' & Hxy) _ IHm]; intros Hnan; constructor.
    + eapply foldConstants_same; [|done]. intros row Hrow.
      by pose proof (Forall_inv (Hnan row Hrow)).
    + apply IHm. intros row Hrow. by pose proof (Forall_inv_tail (Hnan row Hrow)).
Qed.

(** ** COUNT of a column that is never null *)

Context (cat : Catalog).

(** A row of the base table of a SELECT, as [scanTable] binds it: one value per
    column, and no null where the metadata excludes it. *)
Record base_row (s : Select_) (t : TableMeta) (row : EvalRow) : Prop := {
  br_schema : ∃ cols, boundSchema cat (s_fromTable s) (s_fromAlias s) = Ok cols ∧
                      columns row = Some cols;
  br_width : length (values row) = length (t_columns t);
  br_not_null : ∀ i m v, t_columns t !! i = Some m → values row !! i = Some v →
                  isGuaranteedNonNull m = true → isNull v = false;
}.

Definition base_table (s : Select_) (t : TableMeta) : Prop :=
  table_of (Some cat) s = Some t ∧ NoDup (map cm_name (t_columns t)).

Lemma base_row_columns s t row :
  base_table s t → base_row s t row →
  columns row = Some (map (λ m, mkBound (s_fromTable s) (s_fromAlias s) (cm_name m))
                        (t_columns t)).
Proof.
  intros [Ht _] [(cols & Hb & Hc) _ _]. rewrite Hc. f_equal.
  unfold boundSchema in Hb. cbn in Ht. rewrite Ht in Hb. congruence.
Qed.

Lemma find_lookup {A} (f : A → bool) l x :
  List.find f l = Some x →
  ∃ pre post, l = (pre ++ x :: post)%list ∧ f x = true ∧ Forall (λ y, f y = false) pre.
Proof.
  induction l as [|y l IH]; [done|]. cbn. destruct (f y) eqn:E.
  - intros [= ->]. by exists [], l.
  - intros (pre & post & -> & Hx & Hpre)%IH. exists (y :: pre), post. by repeat constructor.
Qed.

Lemma candidate_values_app table column c1 c2 v1 v2 :
  length v1 = length c1 →
  candidate_values table column (c1 ++ c2) (v1 ++ v2) =
  (candidate_values table column c1 v1 ++ candidate_values table column c2 v2)%list.
Proof.
  revert v1. induction c1 as [|c c1 IH]; intros [|v v1] Hl; try done. cbn in *.
  injection Hl as Hl. rewrite IH by done. by case_match.
Qed.

Lemma candidate_values_none table column cols row :
  (∀ b, b ∈ cols → bc_name b ≠ column) → candidate_values table column cols row = [].
Proof.
  revert row. induction cols as [|c cols IH]; intros [|v row] H; try done. cbn.
  unfold column_matches. rewrite bool_decide_eq_false_2 by (apply H, list_elem_of_here).
  apply IH. intros b Hb. by apply H, list_elem_of_further.
Qed.

(** Where the metadata of a base column is found, so is its value. *)
Lemma resolve_base s t row table column m :
  base_table s t → base_row s t row →
  resolveBaseColumn (Some cat) s table column = Some m →
  ∃ i v, t_columns t !! i = Some m ∧ values row !! i = Some v ∧ cm_name m = column ∧
    resolveColumn table column row = Ok v.
Proof.
  intros Hbt Hbr Hres. pose proof (base_row_columns s t row Hbt Hbr) as Hcols.
  destruct Hbt as [Ht Hnd], Hbr as [_ Hw _]. unfold resolveBaseColumn in Hres.
  destruct (negb (no_joins s)); [done|].
  destruct (negb (table =? "") && _ && _) eqn:Hq; [done|]. rewrite Ht in Hres.
  apply find_lookup in Hres as (pre & post & Hsplit & Hm & _).
  apply String.eqb_eq in Hm.
  assert (length pre < length (values row))%nat as Hlt.
  { rewrite Hw, Hsplit, length_app. cbn. lia. }
  destruct (lookup_lt_is_Some_2 _ _ Hlt) as [v Hv].
  exists (length pre), v. split_and!; [by rewrite Hsplit, list_lookup_middle|done|done|].
  rewrite (resolveColumn_candidates _ _ _ _ Hcols) by (by rewrite length_map).
  pose proof (take_drop_middle _ _ _ Hv) as Htd. rewrite <- Htd, Hsplit, map_app.
  rewrite candidate_values_app by (rewrite length_take, length_map; lia).
  cbn [map candidate_values].
  rewrite Hsplit, map_app in Hnd. apply NoDup_app in Hnd as (_ & Hpre & Hpost).
  cbn in Hpost. apply NoDup_cons in Hpost as [Hpost _].
  rewrite candidate_values_none.
  2:{ intros b (m' & -> & Hb)%list_elem_of_fmap. cbn. rewrite <- Hm. intros E.
      apply (Hpre (cm_name m')); [by apply (list_elem_of_fmap_2 cm_name)|].
      rewrite E. apply list_elem_of_here. }
  rewrite candidate_values_none.
  2:{ intros b (m' & -> & Hb)%list_elem_of_fmap. cbn. rewrite <- Hm. intros E.
      apply Hpost. rewrite <- E. by apply (list_elem_of_fmap_2 cm_name). }
  assert (column_matches table column (mkBound (s_fromTable s) (s_fromAlias s) (cm_name m))
          = true) as ->; [|done].
  unfold column_matches, qualifier_matches. cbn. rewrite bool_decide_eq_true_2 by done.
  apply andb_false_iff in Hq as [[Hq|Hq]%andb_false_iff|Hq];
    apply negb_false_iff, String.eqb_eq in Hq; subst.
  - done.
  - rewrite (bool_decide_eq_true_2 (s_fromTable s = s_fromTable s)) by done.
    by rewrite orb_true_r.
  - rewrite (bool_decide_eq_true_2 (s_fromAlias s = s_fromAlias s)) by done.
    rewrite andb_true_r. destruct (decide (s_fromAlias s = "")) as [E|E].
    + by rewrite bool_decide_eq_true_2.
    + rewrite (bool_decide_eq_false_2 (s_fromAlias s = "")) by done. by rewrite !orb_true_r.
Qed.

Lemma rewrite_count_cases s name args distinct notes args' notes' :
  rewrite_count (Some cat) s name args distinct notes = Ok (args', notes') →
  args' = args ∨
  ∃ table column a p m, args = [ColumnRef table column a p] ∧ args' = [Wildcard "" "" p] ∧
    name = "headcount" ∧ distinct = false ∧
    resolveBaseColumn (Some cat) s table column = Some m ∧ isGuaranteedNonNull m = true.
Proof.
  intros H. unfold rewrite_count in H.
  destruct args as [|[|table column a p| | | | | |] [|]]; pass_inv; auto.
  destruct (String.eqb_spec name "headcount"), distinct; cbn [andb negb] in H; pass_inv; auto.
  destruct (resolveBaseColumn _ _ _ _) as [m|] eqn:Em; pass_inv; auto.
  destruct (isGuaranteedNonNull m) eqn:En; pass_inv; auto. right.
  by exists table, column, a, p, m.
Qed.

Lemma rewrite_same s e notes e' notes' :
  rewriteNonNullCounts (Some cat) s e notes = Ok (e', notes') →
  is_wildcard e' = is_wildcard e ∧ ∀ row, eval e' row = eval e row.
Proof.
  revert notes e' notes'.
  induction e as [| | |op l IHl r IHr alias p|op e IH alias p|f args d alias p| |];
    intros notes e' notes' H; cbn [rewriteNonNullCounts] in H; pass_inv; try done.
  - destruct (IHl _ _ _ Hm) as [_ El], (IHr _ _ _ Hm0) as [_ Er].
    split; [done|]. intros row. cbn [eval]. by rewrite El, Er.
  - destruct (IH _ _ _ Hm) as [_ E]. split; [done|]. intros row. cbn [eval]. by rewrite E.
  - repeat (case_match; pass_inv); done.
Qed.

Lemma count_loop_all e rows seen count :
  (∀ row, row ∈ rows → ∃ v, eval e row = Ok v ∧ isNull v = false) →
  count_loop e false rows seen count = Ok (count + Z.of_nat (length rows))%Z.
Proof.
  revert seen count. induction rows as [|row rows IH]; intros seen count H; cbn.
  - by rewrite Z.add_0_r.
  - destruct (H row (list_elem_of_here _ _)) as (v & -> & Hv). cbn. rewrite Hv.
    rewrite IH; [f_equal; lia|]. intros r Hr. by apply H, list_elem_of_further.
Qed.

Lemma headcount_not_null s t rows table column a p m :
  base_table s t → (∀ row, row ∈ rows → base_row s t row) →
  resolveBaseColumn (Some cat) s table column = Some m → isGuaranteedNonNull m = true →
  aggregate std_sort "headcount" [Wildcard "" "" p] false rows =
  aggregate std_sort "headcount" [ColumnRef table column a p] false rows.
Proof.
  intros Hbt Hbr Hres Hm. unfold aggregate. cbn [String.eqb Ascii.eqb Bool.eqb is_wildcard].
  rewrite count_loop_all; [done|]. intros row Hr.
  destruct (resolve_base s t row table column m Hbt (Hbr row Hr) Hres)
    as (i & v & Hi & Hv & _ & Hev).
  exists v. split; [done|]. by eapply (br_not_null _ _ _ (Hbr row Hr)).
Qed.

(** What becomes of a call: each argument keeps its meaning, or the call is a
    [headcount] of a column that is never null. *)
Lemma rewrite_call s rows f args d alias p notes e' notes' :
  rewriteNonNullCounts (Some cat) s (FunctionCall f args d alias p) notes = Ok (e', notes') →
  ∃ args', e' = FunctionCall f args' d alias p ∧
    (Forall2 (same_expression rows) args args' ∨
     ∃ table column a p m, args = [ColumnRef table column a p] ∧
       args' = [Wildcard "" "" p] ∧ f = "headcount" ∧ d = false ∧
       resolveBaseColumn (Some cat) s table column = Some m ∧
       isGuaranteedNonNull m = true).
Proof.
  intros H. cbn [rewriteNonNullCounts] in H. pass_inv. apply rewrite_count_cases in Hm.
  assert (∀ x, same_expression rows x x) as Hrefl by done.
  destruct Hm as [->|Hc].
  - destruct args as [|[|table column a0 p0| | | | | |] [|]]; pass_inv;
      (eexists; split; [done|]; left);
      try (eapply Forall2_impl; [by eapply pmap_Ok|]; intros x y (k & k' & Hxy);
           apply rewrite_same in Hxy as [? ?]; by split).
    by repeat constructor.
  - destruct Hc as (table & column & a0 & p0 & m & -> & -> & Hrest). pass_inv.
    eexists; split; [done|]. right. by exists table, column, a0, p0, m.
Qed.

Lemma rewrite_grouped s t rows e notes e' notes' :
  base_table s t → (∀ row, row ∈ rows → base_row s t row) →
  rewriteNonNullCounts (Some cat) s e notes = Ok (e', notes') → same_grouped rows e e'.
Proof.
  intros Hbt Hbr H. split; [by eapply rewrite_same|]. revert notes e' notes' H.
  induction e as [| | |op l IHl r IHr alias p|op e IH alias p|f args d alias p| |];
    intros notes e' notes' H; pose proof H as Hcall; cbn [rewriteNonNullCounts] in H;
    pass_inv; try done.
  - cbn [evalGrouped]. by rewrite (IHl _ _ _ Hm), (IHr _ _ _ Hm0).
  - cbn [evalGrouped]. by rewrite (IH _ _ _ Hm).
  - apply (rewrite_call s rows) in Hcall as (args' & -> & Hargs).
    cbn [evalGrouped hasAggregate]. destruct (aggregate_name f); [|by destruct rows].
    destruct Hargs as [Hargs|(table & column & a0 & p0 & m & -> & -> & -> & -> & Hres & Hm')].
    + by apply aggregate_ext.
    + by eapply headcount_not_null.
Qed.

(** ** The optimizer and grouped projection *)

Lemma projectGrouped_ext s s' rows :
  Forall2 (same_grouped rows) (s_columns s) (s_columns s') →
  projectGrouped std_sort s' rows = projectGrouped std_sort s rows.
Proof.
  intros H. apply rmap_ext. eapply Forall2_impl; [done|]. intros x y [-> ->]. done.
Qed.

Lemma eliminate_condition_grouped clause c rows notes c' notes' :
  rows ≠ [] → (∀ e, c = Some e → literals_ok e) →
  eliminate_condition clause c notes = Ok (c', notes') →
  keepsGrouped std_sort c' rows = keepsGrouped std_sort c rows.
Proof.
  intros Hne Hok H. unfold eliminate_condition in H.
  destruct c as [[v p| | | | | | |]|]; pass_inv; try done.
  destruct (isFalsy v) eqn:E; pass_inv; [done|]. unfold isFalsy in E.
  apply negb_false_iff in E. rewrite (isTruthy_asBoolean v p) in E by (by apply Hok).
  unfold keepsGrouped. rewrite evalGrouped_literal by done. cbn. by rewrite E.
Qed.

Lemma rewrite_literals_ok s e notes e' notes' :
  rewriteNonNullCounts (Some cat) s e notes = Ok (e', notes') → literals_ok e → literals_ok e'.
Proof.
  revert notes e' notes'.
  induction e as [| | |op l IHl r IHr alias p|op e IH alias p|f args d alias p| |];
    intros notes e' notes' H; cbn [rewriteNonNullCounts] in H; pass_inv; try done.
  - intros [Hl Hr]. split; eauto.
  - exact (IH _ _ _ Hm).
  - intros _. repeat (case_match; pass_inv); done.
Qed.

Lemma count_rewrites_grouped s t rows notes s' notes' :
  base_table s t → (∀ row, row ∈ rows → base_row s t row) →
  count_rewrites (Some cat) s notes = Ok (s', notes') →
  Forall2 (same_grouped rows) (s_columns s) (s_columns s') ∧
  option_Forall2 (λ x y, same_grouped rows x y ∧ (literals_ok x → literals_ok y))
    (s_having s) (s_having s').
Proof.
  intros Hbt Hbr H. unfold count_rewrites in H. pass_inv. split; cbn.
  - eapply Forall2_impl; [by eapply pmap_Ok|]. intros x y (m & m' & Hxy).
    by eapply rewrite_grouped.
  - apply popt_Ok in Hm0. destruct Hm0 as [x y (m & m' & Hxy)|]; constructor.
    split; [by eapply rewrite_grouped|by eapply rewrite_literals_ok].
Qed.

Lemma lookup_rewrites_same s notes s' notes' :
  lookup_rewrites (Some cat) s notes = Ok (s', notes') →
  s_columns s' = s_columns s ∧ s_having s' = s_having s.
Proof. unfold lookup_rewrites. intros H. repeat (case_match; pass_inv); done. Qed.

Lemma metadata_grouped s t rows n notes notes' :
  base_table s t → (∀ row, row ∈ rows → base_row s t row) →
  applyMetadataOptimizations (Some cat) (Select s) notes = Ok (n, notes') →
  ∃ s', n = Select s' ∧ Forall2 (same_grouped rows) (s_columns s) (s_columns s') ∧
    option_Forall2 (λ x y, same_grouped rows x y ∧ (literals_ok x → literals_ok y))
      (s_having s) (s_having s').
Proof.
  intros Hbt Hbr H. cbn [applyMetadataOptimizations] in H.
  rewrite (proj1 Hbt) in H. destruct (no_joins s); pass_inv.
  - match goal with
    | Hc : count_rewrites _ _ _ = _, Hl : lookup_rewrites _ _ _ = _ |- _ =>
        apply (count_rewrites_grouped _ _ _ _ _ _ Hbt Hbr) in Hc as [Hcols Hhav];
        apply lookup_rewrites_same in Hl as [El Eh]
    end.
    eexists; split; [done|]. rewrite El, Eh.
    match goal with H : drop_distinct _ _ _ = _ |- _ => unfold drop_distinct in H end.
    repeat (case_match; pass_inv); done.
  - eexists; split; [done|]. split.
    + apply Forall_Forall2_diag, Forall_true. by intros x.
    + destruct (s_having s); by constructor.
Qed.

(** The rows a group holds are unaffected by folding the SELECT. *)
Lemma base_row_fields s s' t row :
  s_fromTable s' = s_fromTable s → s_fromAlias s' = s_fromAlias s →
  base_row s t row → base_row s' t row.
Proof. intros E1 E2 [H1 H2 H3]. split; by rewrite ?E1, ?E2. Qed.

Lemma optimize_grouped_same s t rows notes s' notes' :
  base_table s t → rows ≠ [] → (∀ row, row ∈ rows → base_row s t row) →
  Forall (no_nan_grouped rows) (s_columns s) →
  (∀ e, s_having s = Some e → no_nan_grouped rows e ∧ literals_ok e) →
  optimize (Some cat) (Select s) notes = Ok (Select s', notes') →
  projectGrouped std_sort s' rows = projectGrouped std_sort s rows ∧
  keepsGrouped std_sort (s_having s') rows = keepsGrouped std_sort (s_having s) rows.
Proof.
  intros [Ht Hnd] Hne Hbr Hcols Hhav H. apply optimize_select in H
    as (folded & s1 & s2 & n1 & n2 & n3 & Hf & Hm & He & [= ->]).
  apply fold_select in Hf as (cols & wh & hv & li & off & [= ->] & Hc & _ & Hh & _).
  set (folded := mkSelect _ cols _ _ _ _ _ _ _ _ _ _) in *.
  assert (base_table folded t) as Hbt' by (by split).
  assert (∀ row, row ∈ rows → base_row folded t row) as Hbr'.
  { intros row Hr. by eapply base_row_fields; [| |apply Hbr]. }
  destruct (metadata_grouped folded t rows _ _ _ Hbt' Hbr' Hm) as (s1' & [= <-] & Hc' & Hh').
  cbn in Hc', Hh'. cbn [eliminateDeadCode] in He. pass_inv.
  match goal with H : Select _ = Select s2 |- _ => injection H as <- end. cbn.
  split.
  - apply projectGrouped_ext. cbn. clear -Hc Hc' Hcols Hne.
    revert Hcols. revert Hc'. generalize (s_columns s1) as cols'. revert cols Hc.
    induction (s_columns s) as [|x xs IH]; intros cols Hc cols' Hc' Hcols.
    { inversion Hc; subst. inversion Hc'; subst. constructor. }
    inversion Hc as [|? y ? ys (m & m' & Hxy) Hc2]; subst.
    inversion Hc' as [|? z ? zs [Hw Hz] Hc2']; subst.
    inversion Hcols as [|? ? Hx Hxs]; subst. constructor.
    + split; [by rewrite Hw; eapply fold_is_wildcard|].
      rewrite Hz. by eapply foldConstants_grouped.
    + by eapply IH.
  - assert (keepsGrouped std_sort (s_having s1) rows = keepsGrouped std_sort (s_having s) rows ∧
      ∀ e, s_having s1 = Some e → literals_ok e) as [<- Hlit].
    { inversion Hh as [x y (m & m' & Hxy) E1 E2|E1 E2]; subst hv;
        inversion Hh' as [y' z [[_ Hz] Hlz] E3 E4|E3 E4]; subst; try done.
      destruct (Hhav x (eq_sym E1)) as [Hnx Hlx]. split.
      - cbn. rewrite Hz. by erewrite foldConstants_grouped.
      - intros ? [= <-]. apply Hlz. by eapply foldConstants_ok. }
    match goal with H : eliminate_condition "HAVING" _ _ = Ok (?c, _) |- _ =>
      by apply (eliminate_condition_grouped _ _ rows _ c _ Hne Hlit H) end.
Qed.
End Grouped.
