(* ===== verification/OptimizerSound.v ===== *)
(** The optimizer is sound: the theorems about [Optimizer.optimize] against the
    engine's [executeSelect] ([Select.v]), from the lemmas of
    [OptimizerProofs.v]. *)

From S2P Require Import Prelude.
From S2P Require Import Double.
From S2P Require Import Format.
From S2P Require Import Value.
From S2P Require Import Ast.
From S2P Require Import Catalog.
From S2P Require Import Eval.
From S2P Require Import Select.
From S2P Require Import Optimizer.
From S2P Require Import OptimizerProofs.

#[local] Open Scope string_scope.

(** ** Equality of values is an equivalence on what is equal to itself *)

Lemma tupleEqual_Forall2 a b :
  tupleEqual a b = true ↔ Forall2 (λ x y, value_eqb x y = true) a b.
Proof.
  split.
  - revert b. induction a as [|x a IH]; intros [|y b]; cbn; try done.
    intros [Hx Hr]%andb_prop. constructor; auto.
  - induction 1 as [|x y a b Hxy _ IH]; [done|]. cbn. by rewrite Hxy, IH.
Qed.

(** ** The primary key *)

(** Two rows whose values differ in every primary-key column. *)
Definition different_keys (t : TableMeta) (r1 r2 : EvalRow) : Prop :=
  ∀ i m v1 v2,
    t_columns t !! i = Some m → cm_primary_key m = true →
    values r1 !! i = Some v1 → values r2 !! i = Some v2 → value_eqb v1 v2 = false.

(** No two rows of the table have equal values in a primary-key column. *)
Definition key_unique (t : TableMeta) (rows : list EvalRow) : Prop :=
  ForallOrdPairs (different_keys t) rows.

(** *** WHERE keeps a part of the rows *)

Lemma filter_rows_Ok c rows out :
  filter_rows c rows = Ok out →
  Forall (λ r, r ∈ rows ∧ keeps c r = Ok true) out ∧
  ∀ R, ForallOrdPairs R rows → ForallOrdPairs R out.
Proof.
  revert out. induction rows as [|row rows IH]; intros out H; cbn in H.
  { injection H as <-. auto. }
  destruct (keeps c row) as [b|] eqn:Hb; [cbn in H|done].
  destruct (filter_rows c rows) as [rest|]; [cbn in H|done].
  destruct (IH rest eq_refl) as [Hin Hfop].
  assert (Forall (λ r, r ∈ row :: rows ∧ keeps c r = Ok true) rest) as Hin'.
  { eapply Forall_impl; [done|]. intros r [Hr Hk]. split; [|done].
    by apply list_elem_of_further. }
  destruct b; injection H as <-; split.
  - constructor; [|done]. split; [apply list_elem_of_here|done].
  - intros R HR. inversion HR as [|? ? Hx Hr]; subst. constructor; [|auto].
    rewrite Forall_forall in Hx. eapply Forall_impl; [exact Hin|]. intros r [Hr' _].
    by apply Hx.
  - done.
  - intros R HR. inversion HR; subst. auto.
Qed.

Lemma filter_rows_ext c c' rows :
  (∀ row, row ∈ rows → keeps c' row = keeps c row) → filter_rows c' rows = filter_rows c rows.
Proof.
  induction rows as [|row rows IH]; intros H; [done|]. cbn.
  rewrite H by apply list_elem_of_here. rewrite IH; [done|].
  intros r Hr. by apply H, list_elem_of_further.
Qed.

Section Sound.
Context (std_sort : list Value → list Value).
Context (iterate : ∀ A : Type, list (tuple * A) → list (tuple * A)).
Context (cat : Catalog).

Lemma pinned_equal (x : exec Value) (v w : Value) :
  applyBinary "=" v w = x → (∃ r, x = Ok r ∧ asBoolean r = true) → value_eqb v w = true.
Proof.
  intros <- (r & H & Hr). unfold applyBinary in H. cbn in H.
  destruct (isNull v || isNull w); injection H as <-; [done|]. exact Hr.
Qed.

(** A condition that pins the primary key holds in rows with one key only. *)
Lemma wherePins_key s t e :
  base_table cat s t → wherePinsPrimaryKey (Some cat) s e = true →
  ∃ i m v, t_columns t !! i = Some m ∧ cm_primary_key m = true ∧
    ∀ row r, base_row cat s t row → eval e row = Ok r → asBoolean r = true →
      ∃ x, values row !! i = Some x ∧ value_eqb x v = true.
Proof.
  intros Hbt. induction e as [| | |op l IHl r IHr alias p| | | |]; try done. intros H.
  cbn [wherePinsPrimaryKey] in H. destruct (String.eqb_spec op "AND") as [->|_].
  - assert (∀ row w, eval (BinaryOp "AND" l r alias p) row = Ok w → asBoolean w = true →
      ∃ x y, eval l row = Ok x ∧ eval r row = Ok y ∧ asBoolean x = true ∧
             asBoolean y = true) as Hand.
    { intros row w Hw Hb. cbn [eval] in Hw.
      destruct (eval l row) as [x|]; [cbn [rbind] in Hw|done].
      destruct (eval r row) as [y|]; [cbn [rbind] in Hw|done].
      injection Hw as <-. cbn in Hb. apply andb_prop in Hb as [? ?]. by exists x, y. }
    apply orb_prop in H as [H|H]; [destruct (IHl H) as (i & m & v & Hi & Hm & Hrow)
                                  |destruct (IHr H) as (i & m & v & Hi & Hm & Hrow)];
      exists i, m, v; (split; [done|]); (split; [done|]); intros row w Hbr Hw Hb;
      destruct (Hand row w Hw Hb) as (x & y & Hx & Hy & Hbx & Hby); eauto.
  - destruct (String.eqb_spec op "=") as [->|_]; [cbn [negb] in H|done].
    assert (∀ table column m, resolveBaseColumn (Some cat) s table column = Some m →
      cm_primary_key m = true → ∃ i, t_columns t !! i = Some m ∧
        ∀ row, base_row cat s t row → ∃ x, values row !! i = Some x ∧
          resolveColumn table column row = Ok x) as Hcol.
    { intros table column m Hres Hm.
      pose proof Hres as Hres'. unfold resolveBaseColumn in Hres'.
      destruct (negb (no_joins s)); [done|]. destruct (negb _ && _ && _); [done|].
      rewrite (proj1 Hbt) in Hres'. apply find_lookup in Hres' as (pre & post & Hsplit & _ & _).
      exists (length pre). split; [by rewrite Hsplit, list_lookup_middle|].
      intros row Hbr.
      destruct (resolve_base cat s t row table column m Hbt Hbr Hres)
        as (i & x & Hi & Hx & _ & Hev).
      assert (i = length pre) as ->; [|by exists x].
      destruct Hbt as [_ Hnd]. eapply (NoDup_lookup (map cm_name (t_columns t)));
        [done|by rewrite list_lookup_fmap, Hi|].
      by rewrite list_lookup_fmap, Hsplit, list_lookup_middle. }
    assert (is_primary_key (Some cat) s = λ table column,
      match resolveBaseColumn (Some cat) s table column with
      | Some c => cm_primary_key c | None => false end) as Epk by done.
    destruct l as [lv ?|ltab lcol ? ?| | | | | |]; try done;
      destruct r as [rv ?|rtab rcol ? ?| | | | | |]; try done; rewrite Epk in H;
      [destruct (resolveBaseColumn (Some cat) s rtab rcol) as [m|] eqn:Em; [|done];
       destruct (Hcol rtab rcol m Em H) as (i & Hi & Hrow); exists i, m, (literal_value lv)
      |destruct (resolveBaseColumn (Some cat) s ltab lcol) as [m|] eqn:Em; [|done];
       destruct (Hcol ltab lcol m Em H) as (i & Hi & Hrow); exists i, m, (literal_value rv)];
      (split; [done|]); (split; [done|]); intros row w Hbr Hw Hb;
      destruct (Hrow row Hbr) as (x & Hx & Hev); exists x; (split; [done|]);
      cbn [eval rbind] in Hw; rewrite Hev in Hw; cbn [rbind] in Hw;
      [apply value_eqb_sym|]; eapply pinned_equal; eauto.
Qed.

(** A point lookup finds at most one row. *)
Lemma point_lookup_one s t rows out :
  base_table cat s t → (∀ row, row ∈ rows → base_row cat s t row) → key_unique t rows →
  point_lookup (Some cat) s = true → filter_rows (s_where s) rows = Ok out →
  (length out ≤ 1)%nat.
Proof.
  intros Hbt Hbr Hk Hp Hf. unfold point_lookup in Hp.
  destruct (s_where s) as [e|] eqn:Ew; [|done].
  apply andb_prop in Hp as [[[Hp _]%andb_prop _]%andb_prop _].
  destruct (wherePins_key s t e Hbt Hp) as (i & m & v & Hi & Hm & Hrow).
  apply filter_rows_Ok in Hf as [Hin Hfop]. specialize (Hfop _ Hk).
  destruct out as [|r1 [|r2 out]]; cbn; try lia. exfalso.
  assert (∀ r, r ∈ rows ∧ keeps (Some e) r = Ok true →
    ∃ x, values r !! i = Some x ∧ value_eqb x v = true) as Hval.
  { intros r [Hr Hkeep]. cbn in Hkeep. destruct (eval e r) as [w|] eqn:Ee; [|done].
    cbn in Hkeep. injection Hkeep as Hw. eauto. }
  inversion Hin as [|? ? H1 Hin']; subst. inversion Hin' as [|? ? H2 _]; subst.
  destruct (Hval r1 H1) as (x1 & Hx1 & He1), (Hval r2 H2) as (x2 & Hx2 & He2).
  inversion Hfop as [|? ? Hd _]; subst. inversion Hd as [|? ? Hd12 _]; subst.
  assert (value_eqb x1 x2 = true) as E.
  { eapply value_eqb_trans; [done|]. by apply value_eqb_sym. }
  by rewrite (Hd12 i m x1 x2 Hi Hm Hx1 Hx2) in E.
Qed.

(** ** A projection with the primary key has no duplicates *)

Lemma expand_wildcard_rel table cols v1 v2 index l1 l2 :
  expand_wildcard table cols v1 index = Ok l1 →
  expand_wildcard table cols v2 index = Ok l2 →
  length l1 = length l2 ∧
  (Forall2 (λ x y, value_eqb x y = true) l1 l2 →
   ∀ k c, cols !! k = Some c → wildcard_matches table c = true →
     ∃ x y, v1 !! (index + k)%nat = Some x ∧ v2 !! (index + k)%nat = Some y ∧
            value_eqb x y = true).
Proof.
  revert index l1 l2. induction cols as [|c cols IH]; intros index l1 l2 H1 H2.
  { cbn in *. injection H1 as <-. injection H2 as <-. done. }
  cbn [expand_wildcard] in *. destruct (wildcard_matches table c) eqn:Hc.
  - unfold nth_value in *.
    destruct (v1 !! index) as [x|] eqn:E1; [cbn [rbind] in H1|done].
    destruct (v2 !! index) as [y|] eqn:E2; [cbn [rbind] in H2|done].
    destruct (expand_wildcard table cols v1 (S index)) as [m1|] eqn:Em1; [cbn in H1|done].
    destruct (expand_wildcard table cols v2 (S index)) as [m2|] eqn:Em2; [cbn in H2|done].
    injection H1 as <-. injection H2 as <-. destruct (IH _ _ _ Em1 Em2) as [Hlen Hrel].
    split; [cbn; lia|]. intros HF [|k] d Hd Hdm; inversion HF; subst.
    + exists x, y. by rewrite Nat.add_0_r.
    + rewrite <- Nat.add_succ_comm. by apply (Hrel ltac:(done) k d).
  - destruct (IH _ _ _ H1 H2) as [Hlen Hrel]. split; [done|]. intros HF [|k] d Hd Hdm.
    + cbn in Hd. congruence.
    + rewrite <- Nat.add_succ_comm. by apply (Hrel HF k d).
Qed.

Lemma project_one_length s t r1 r2 all e p1 p2 :
  base_table cat s t → base_row cat s t r1 → base_row cat s t r2 →
  project_one r1 all e = Ok p1 → project_one r2 all e = Ok p2 → length p1 = length p2.
Proof.
  intros Hbt H1 H2 E1 E2.
  pose proof (base_row_columns cat s t r1 Hbt H1) as C1.
  pose proof (base_row_columns cat s t r2 Hbt H2) as C2.
  assert (∀ (o : exec Value) p, (let* v := o in Ok [v]) = Ok p → length p = 1%nat) as Hone.
  { intros o p H. destruct o; [|done]. by injection H as <-. }
  destruct e; cbn [project_one] in *;
    try (apply Hone in E1; apply Hone in E2; congruence).
  - rewrite C1 in E1. rewrite C2 in E2. by eapply expand_wildcard_rel.
  - destruct all as [rows|]; [|done].
    apply Hone in E1; apply Hone in E2; congruence.
Qed.

Lemma Forall2_concat {A} (R : A → A → Prop) (p1 p2 : list (list A)) :
  Forall2 (λ a b, length a = length b) p1 p2 → Forall2 R (concat p1) (concat p2) →
  Forall2 (Forall2 R) p1 p2.
Proof.
  induction 1 as [|a b p1 p2 Hl _ IH]; [constructor|]. cbn. intros H.
  apply Forall2_app_inv in H as [Ha Hb]; [|done]. constructor; auto.
Qed.

Lemma find_index s t table column m :
  base_table cat s t → resolveBaseColumn (Some cat) s table column = Some m →
  ∃ i, t_columns t !! i = Some m.
Proof.
  intros Hbt H. unfold resolveBaseColumn in H.
  destruct (negb (no_joins s)); [done|]. destruct (negb _ && _ && _); [done|].
  rewrite (proj1 Hbt) in H. apply find_lookup in H as (pre & post & -> & _ & _).
  exists (length pre). by rewrite list_lookup_middle.
Qed.

Lemma project_same_key s t r1 r2 all t1 t2 :
  base_table cat s t → base_row cat s t r1 → base_row cat s t r2 →
  projectsPrimaryKey (Some cat) s = true →
  project s r1 all = Ok t1 → project s r2 all = Ok t2 → tupleEqual t1 t2 = true →
  ¬ different_keys t r1 r2.
Proof.
  intros Hbt H1 H2 Hpk E1 E2 Heq Hdiff. unfold project in *.
  destruct (rmap (project_one r1 all) (s_columns s)) as [parts1|] eqn:P1; [|done].
  destruct (rmap (project_one r2 all) (s_columns s)) as [parts2|] eqn:P2; [|done].
  cbn in E1, E2. injection E1 as <-. injection E2 as <-.
  apply rmap_Ok in P1, P2. apply tupleEqual_Forall2 in Heq.
  apply Forall2_concat in Heq.
  2:{ clear Heq Hpk Hdiff. revert parts2 P2.
      induction P1 as [|e p1 es ps1 Ep1 _ IH]; intros parts2 P2; inversion P2; subst;
        constructor; eauto using project_one_length. }
  unfold projectsPrimaryKey in Hpk. rewrite (proj1 Hbt) in Hpk.
  apply andb_prop in Hpk as [Hj Hpk]. apply existsb_exists in Hpk as (e & He & Hpk).
  apply list_elem_of_In, list_elem_of_lookup in He as [n He].
  destruct (Forall2_lookup_l _ _ _ _ _ P1 He) as (p1 & Hp1 & Ep1).
  destruct (Forall2_lookup_l _ _ _ _ _ P2 He) as (p2 & Hp2 & Ep2).
  pose proof (Forall2_lookup_lr _ _ _ _ _ _ Heq Hp1 Hp2) as Hpp.
  destruct e as [|table column ? ?|table ? ?| | | | |]; try done; cbn [project_one eval] in *.
  - destruct (resolveBaseColumn (Some cat) s table column) as [m|] eqn:Em; [|done].
    apply andb_prop in Hpk as [Hm _].
    destruct (resolve_base cat s t r1 table column m Hbt H1 Em) as (i & x & Hi & Hx & Hn & Hev1).
    destruct (resolve_base cat s t r2 table column m Hbt H2 Em) as (i' & y & Hi' & Hy & _ & Hev2).
    assert (i' = i) as ->.
    { eapply (NoDup_lookup (map cm_name (t_columns t))); [apply Hbt| |];
        by rewrite list_lookup_fmap, ?Hi, ?Hi'. }
    rewrite Hev1 in Ep1. rewrite Hev2 in Ep2. injection Ep1 as <-. injection Ep2 as <-.
    inversion Hpp as [|? ? ? ? Hxy _]; subst. by rewrite (Hdiff i m x y Hi Hm Hx Hy) in Hxy.
  - apply andb_prop in Hpk as [Hq Hpk]. apply existsb_exists in Hpk as (m & Hm & Hpk).
    apply andb_prop in Hpk as [Hpk _].
    apply list_elem_of_In, list_elem_of_lookup in Hm as [i Hi].
    rewrite (base_row_columns cat s t r1 Hbt H1) in Ep1.
    rewrite (base_row_columns cat s t r2 Hbt H2) in Ep2.
    destruct (expand_wildcard_rel _ _ _ _ _ _ _ Ep1 Ep2) as [_ Hrel].
    destruct (Hrel Hpp i (mkBound (s_fromTable s) (s_fromAlias s) (cm_name m)))
      as (x & y & Hx & Hy & Hxy).
    + by rewrite list_lookup_fmap, Hi.
    + unfold wildcard_matches. cbn. done.
    + by rewrite (Hdiff i m x y Hi Hpk Hx Hy) in Hxy.
Qed.

(** ** Two SELECTs whose columns mean the same *)

Definition is_special (n : Node) : bool :=
  match n with Wildcard _ _ _ | WindowFunc _ _ _ _ _ => true | _ => false end.

Definition is_call (n : Node) : bool :=
  match n with FunctionCall _ _ _ _ _ => true | _ => false end.

Record same_column (rows : list EvalRow) (x y : Node) : Prop := {
  sc_special : is_special x = true → y = x;
  sc_special_eq : is_special y = is_special x;
  sc_eval : ∀ row, row ∈ rows → eval y row = eval x row;
  sc_call : is_call y = is_call x;
  sc_args : ∀ f args d a p, x = FunctionCall f args d a p →
    ∃ args', y = FunctionCall f args' d a p ∧
      (is_biggest f = true → Forall2 (same_expression rows) args args');
  sc_name : ∀ i, expressionAlias y i = expressionAlias x i;
  sc_aggregate : hasAggregate y = hasAggregate x;
}.

Lemma same_column_refl rows x : same_column rows x x.
Proof.
  split; try done. intros f args d a p ->. exists args. split; [done|]. intros _.
  by apply Forall_Forall2_diag, Forall_true.
Qed.

Lemma project_one_same rows row all x y :
  same_column rows x y → row ∈ rows → project_one row all y = project_one row all x.
Proof.
  intros H Hr. destruct (is_special x) eqn:Ex; [by rewrite (sc_special _ _ _ H Ex)|].
  pose proof (sc_special_eq _ _ _ H) as Ey. rewrite Ex in Ey.
  pose proof (sc_eval _ _ _ H row Hr) as E.
  destruct x; try discriminate Ex; destruct y; try discriminate Ey;
    cbn [project_one]; by rewrite E.
Qed.

Lemma Forall2_same_existsb rows l l' :
  Forall2 (same_column rows) l l' → existsb hasAggregate l' = existsb hasAggregate l.
Proof.
  induction 1 as [|x y l l' H _ IH]; [done|]. cbn. by rewrite IH, (sc_aggregate _ _ _ H).
Qed.

Lemma output_names_same (s s' : Select_) sample rows l l' i :
  s_fromTable s' = s_fromTable s → s_fromAlias s' = s_fromAlias s → s_joins s' = s_joins s →
  Forall2 (same_column rows) l l' →
  output_names_from cat s' sample l' i = output_names_from cat s sample l i.
Proof.
  intros E1 E2 E3 H. revert i. induction H as [|x y l l' H _ IH]; intros i; [done|].
  cbn [output_names_from]. rewrite IH. f_equal.
  destruct (is_special x) eqn:Ex.
  - rewrite (sc_special _ _ _ H Ex). destruct x; try done.
    unfold wildcard_names. by rewrite E1, E2, E3.
  - pose proof (sc_special_eq _ _ _ H) as Ey. rewrite Ex in Ey.
    pose proof (sc_name _ _ _ H i) as E.
    destruct x; try discriminate Ex; destruct y; try discriminate Ey; by rewrite E.
Qed.

Lemma find_biggest_same rows l l' :
  Forall2 (same_column rows) l l' →
  match find_biggest l, find_biggest l' with
  | None, None => True
  | Some (f, args), Some (f', args') => f' = f ∧ Forall2 (same_expression rows) args args'
  | _, _ => False
  end.
Proof.
  induction 1 as [|x y l l' H _ IH]; [done|].
  pose proof (sc_call _ _ _ H) as Hc.
  destruct x as [| | | | |f args d a p| |]; destruct y; try discriminate Hc; try exact IH.
  destruct (sc_args _ _ _ H f args d a p eq_refl) as (args' & [= -> -> -> -> ->] & Hargs).
  cbn [find_biggest]. destruct (is_biggest f); [split; auto|exact IH].
Qed.

Lemma biggest_rows_same f e e' rows rows' :
  rows' ⊆ rows → same_expression rows e e' → biggest_rows f e' rows' = biggest_rows f e rows'.
Proof.
  intros Hsub [_ He]. unfold biggest_rows. destruct (_ <? _)%nat; [done|].
  rewrite (rmap_ext_in (λ row, let* k := eval e row in Ok (k, row))); [done|].
  intros row Hr. by rewrite He by auto.
Qed.

Lemma stable_insert_elem {A} less (x y : A) l :
  y ∈ stable_insert less x l → y = x ∨ y ∈ l.
Proof.
  induction l as [|z l IH]; cbn; [set_solver|]. destruct (less z x); set_solver.
Qed.

Lemma stable_sort_elem {A} less (y : A) l : y ∈ stable_sort less l → y ∈ l.
Proof.
  induction l as [|x l IH]; [done|]. cbn.
  intros [->|H]%stable_insert_elem; [apply list_elem_of_here|].
  apply list_elem_of_further, IH, H.
Qed.

Lemma biggest_rows_sub f e rows out :
  biggest_rows f e rows = Ok out → out ⊆ rows ∧ (length out ≤ 1)%nat.
Proof.
  unfold biggest_rows. destruct (Nat.ltb_spec (length rows) 2).
  { intros [= <-]. split; [done|lia]. }
  destruct (rmap _ rows) as [keyed|] eqn:E; [|done]. cbn [rbind]. intros [= <-].
  split; [|rewrite length_take; lia]. intros r Hr.
  apply elem_of_take in Hr as (n & Hr & _). apply list_elem_of_lookup_2 in Hr.
  apply list_elem_of_fmap in Hr as ([k r'] & -> & Hr). apply stable_sort_elem in Hr.
  apply rmap_Ok in E. apply list_elem_of_lookup in Hr as [i Hr].
  destruct (Forall2_lookup_r _ _ _ _ _ E Hr) as (row & Hrow & Ek).
  destruct (eval e row); [|done]. injection Ek as <- <-.
  by apply list_elem_of_lookup_2 in Hrow.
Qed.

Lemma apply_biggest_same s s' rows rows' :
  rows' ⊆ rows → Forall2 (same_column rows) (s_columns s) (s_columns s') →
  apply_biggest s' rows' = apply_biggest s rows'.
Proof.
  intros Hsub H. unfold apply_biggest. pose proof (find_biggest_same _ _ _ H) as Hb.
  destruct (find_biggest (s_columns s)) as [[f args]|],
    (find_biggest (s_columns s')) as [[f' args']|]; try done.
  destruct Hb as [-> Hargs]. destruct Hargs as [|e e' args args' He _]; [done|].
  by rewrite (biggest_rows_same f e e' rows rows').
Qed.

Lemma apply_biggest_sub s rows out whole :
  apply_biggest s rows = Ok (out, whole) →
  out ⊆ rows ∧ (whole = true → (length out ≤ 1)%nat) ∧ (whole = false → out = rows).
Proof.
  unfold apply_biggest. intros H.
  destruct (find_biggest (s_columns s)) as [[f [|e args]]|];
    [by injection H as <- <-| |by injection H as <- <-].
  destruct (biggest_rows f e rows) as [r|] eqn:E; [|done]. injection H as <- <-.
  by apply biggest_rows_sub in E as [? ?].
Qed.

(** The lemma behind every pass that only touches expressions. *)
Lemma executeSelect_ext s s' rows :
  (∀ row, row ∈ rows → keeps (s_where s') row = keeps (s_where s) row) →
  Forall2 (same_column rows) (s_columns s) (s_columns s') →
  s_distinct s' = s_distinct s → s_fromTable s' = s_fromTable s →
  s_fromAlias s' = s_fromAlias s → s_joins s' = s_joins s → s_orderBy s' = s_orderBy s →
  s_limit s' = s_limit s → s_offset s' = s_offset s →
  is_grouped s = false → is_grouped s' = false →
  executeSelect std_sort iterate cat s' rows = executeSelect std_sort iterate cat s rows.
Proof.
  intros Hw Hc Ed Et Ea Ej Eo El Ef Hg Hg'. unfold executeSelect, select_output.
  rewrite Hg, Hg', Ed, Eo, El, Ef, (filter_rows_ext (s_where s) (s_where s')) by done.
  destruct (filter_rows (s_where s) rows) as [kept|] eqn:Hf; [cbn [rbind]|done].
  assert (kept ⊆ rows) as Hsub.
  { apply filter_rows_Ok in Hf as [Hin _]. rewrite Forall_forall in Hin.
    intros r Hr. by apply Hin. }
  rewrite (apply_biggest_same s s' rows) by done.
  destruct (apply_biggest s kept) as [[out whole]|] eqn:Hb; [cbn [rbind]|done].
  apply apply_biggest_sub in Hb as (Hsub' & _).
  assert (result_columns cat s' whole out = result_columns cat s whole out) as ->.
  { unfold result_columns, outputNames.
    destruct out as [|r out]; [by eapply output_names_same|].
    destruct whole; [done|]. by eapply output_names_same. }
  assert (plain_output s' whole (result_columns cat s whole out) out =
          plain_output s whole (result_columns cat s whole out) out) as ->; [|done].
  unfold plain_output. apply rmap_ext_in. intros r Hr.
  assert (project s' r (Some out) = project s r (Some out)) as ->.
  { unfold project. rewrite (rmap_ext (project_one r (Some out)) (project_one r (Some out))
                               (s_columns s)); [done|].
    eapply Forall2_impl; [exact Hc|]. intros x y Hxy.
    eapply project_one_same; [done|]. by apply Hsub, Hsub'. }
  unfold orderKeys. by rewrite Eo.
Qed.

(** ** What each pass makes of a column *)

Definition column_no_nan (rows : list EvalRow) (x : Node) : Prop :=
  match x with
  | FunctionCall _ args _ _ _ => ∀ row, row ∈ rows → Forall (no_nan_ordering row) args
  | _ => ∀ row, row ∈ rows → no_nan_ordering row x
  end.

(** Folding a literal operation drops its alias; see [fold_drops_alias]. *)
Definition unaliased (x : Node) : Prop :=
  match x with
  | BinaryOp _ _ _ alias _ | UnaryOp _ _ alias _ => alias = ""
  | _ => True
  end.

Lemma fold_hasAggregate x n y n' :
  foldConstants x n = Ok (y, n') → hasAggregate y = hasAggregate x.
Proof.
  revert n y n'. induction x as [| | |op l IHl r IHr alias p|op e IH alias p|f args d alias p| |];
    intros n y n' H; cbn [foldConstants] in H; pass_inv; try done.
  - specialize (IHl _ _ _ Hm). specialize (IHr _ _ _ Hm0).
    destruct (tryFoldExpr_cases _ _ _ _ Hm1) as [[v ->]|[-> _]]; cbn [default]; unfold id;
      cbn [hasAggregate]; [|by rewrite IHl, IHr].
    destruct a as [| | | | | | |]; try discriminate Hm1.
    destruct a0 as [| | | | | | |]; try discriminate Hm1. by rewrite <- IHl, <- IHr.
  - specialize (IH _ _ _ Hm).
    destruct (fold_unary_cases _ _ _ _ _ _ _ Hk) as [[v ->]|[-> _]]; cbn [hasAggregate];
      [|done].
    destruct a as [| | | | | | |]; try discriminate Hk. done.
Qed.

Lemma fold_same_column rows x n y n' :
  column_no_nan rows x → unaliased x → foldConstants x n = Ok (y, n') →
  same_column rows x y.
Proof.
  intros Hn Ha H. pose proof (fold_hasAggregate _ _ _ _ H) as Hagg.
  assert (∀ row, row ∈ rows → eval y row = eval x row) as Heval.
  { intros row Hr. destruct x; try (eapply foldConstants_eval; [by apply Hn|done]).
    cbn [foldConstants] in H. by pass_inv. }
  destruct x as [| | |op l r alias p|op e alias p|f args d alias p| |];
    cbn [foldConstants] in H; pass_inv; try apply same_column_refl.
  - cbn in Ha. subst alias.
    destruct (tryFoldExpr_cases _ _ _ _ Hm1) as [[v ->]|[-> _]]; by split.
  - cbn in Ha. subst alias.
    destruct (fold_unary_cases _ _ _ _ _ _ _ Hk) as [[v ->]|[-> _]]; by split.
  - split; try done. intros f' args' d' a' p' [= <- <- <- <- <-]. exists a. split; [done|].
    intros _. apply pmap_Ok in Hm. cbn in Hn. clear -Hm Hn. revert Hn.
    induction Hm as [|x y xs ys (m & m' & Hxy) _ IH]; intros Hn; constructor.
    + eapply foldConstants_same; [|done]. intros row Hr. by apply (Forall_inv (Hn row Hr)).
    + apply IH. intros row Hr. by apply (Forall_inv_tail (Hn row Hr)).
  - by split.
Qed.

Lemma rewrite_hasAggregate s x n y n' :
  rewriteNonNullCounts (Some cat) s x n = Ok (y, n') → hasAggregate y = hasAggregate x.
Proof.
  revert n y n'. induction x as [| | |op l IHl r IHr alias p|op e IH alias p|f args d alias p| |];
    intros n y n' H; cbn [rewriteNonNullCounts] in H; pass_inv; try done.
  - cbn [hasAggregate]. by rewrite (IHl _ _ _ Hm), (IHr _ _ _ Hm0).
  - cbn [hasAggregate]. by rewrite (IH _ _ _ Hm).
  - repeat (case_match; pass_inv); done.
Qed.

Lemma rewrite_same_column s rows x n y n' :
  rewriteNonNullCounts (Some cat) s x n = Ok (y, n') → same_column rows x y.
Proof.
  intros H. pose proof (rewrite_hasAggregate _ _ _ _ _ H) as Hagg.
  destruct (rewrite_same _ _ _ _ _ _ H) as [Hw He]. pose proof H as Hcall.
  destruct x as [| | |op l r alias p|op e alias p|f args d alias p| |];
    cbn [rewriteNonNullCounts] in H; pass_inv; try apply same_column_refl; try by split.
  apply (rewrite_call cat s rows) in Hcall as (args' & -> & Hargs).
  split; try done. intros f' args0 d' a' p' [= <- <- <- <- <-]. exists args'. split; [done|].
  intros Hf. destruct Hargs as [Hargs|(table & column & a0 & p0 & m & -> & -> & -> & _)];
    [done|discriminate Hf].
Qed.

(** ** The metadata rewrites on a whole SELECT *)

Lemma distinct_from_id seen output :
  ForallOrdPairs (λ a b, tupleEqual (o_values a) (o_values b) = false) output →
  (∀ a y, a ∈ output → y ∈ seen → tupleEqual (o_values a) y = false) →
  distinct_from seen output = output.
Proof.
  revert seen. induction output as [|a output IH]; intros seen Hp Hs; [done|]. cbn.
  inversion Hp as [|? ? Ha Hp']; subst.
  destruct (existsb (tupleEqual (o_values a)) seen) eqn:E.
  { apply existsb_exists in E as (y & Hy & E). apply list_elem_of_In in Hy.
    rewrite (Hs a y (list_elem_of_here _ _) Hy) in E. done. }
  f_equal. apply IH; [done|]. intros b y Hb [->|Hy]%elem_of_cons.
  - rewrite Forall_forall in Ha. specialize (Ha b Hb).
    destruct (tupleEqual (o_values b) (o_values a)) eqn:E'; [|done].
    apply tupleEqual_Forall2 in E'.
    assert (tupleEqual (o_values a) (o_values b) = true) as E''; [|congruence].
    apply tupleEqual_Forall2. clear -E'. induction E'; constructor; auto using value_eqb_sym.
  - by apply Hs; [apply list_elem_of_further|].
Qed.

Lemma distinct_short output : (length output ≤ 1)%nat → distinct_from [] output = output.
Proof. by destruct output as [|a [|b output]]; [done|done|cbn; lia]. Qed.

Lemma order_short orders output : (length output ≤ 1)%nat → apply_order orders output = output.
Proof.
  intros H. destruct orders; [done|].
  by destruct output as [|a [|b output]]; [done|done|cbn in H; lia].
Qed.

(** The outputs of rows with different keys differ. *)
Lemma plain_output_distinct s t whole names rows out :
  base_table cat s t → (∀ row, row ∈ rows → base_row cat s t row) → key_unique t rows →
  projectsPrimaryKey (Some cat) s = true → (whole = true → (length rows ≤ 1)%nat) →
  plain_output s whole names rows = Ok out → distinct_from [] out = out.
Proof.
  intros Hbt Hbr Hk Hpk Hwhole H. unfold plain_output in H.
  destruct whole.
  { apply rmap_Ok, Forall2_length in H. apply distinct_short. rewrite <- H. by apply Hwhole. }
  apply distinct_from_id; [|intros a y _ Hy; by apply not_elem_of_nil in Hy].
  eapply (FOP_rmap (λ a b, different_keys t a b ∧ base_row cat s t a ∧ base_row cat s t b));
    [| |exact H].
  - intros r1 r2 o1 o2 (Hd & H1 & H2) E1 E2.
    destruct (project s r1 (Some rows)) as [p1|] eqn:P1; [cbn in E1|done].
    destruct (project s r2 (Some rows)) as [p2|] eqn:P2; [cbn in E2|done].
    destruct (orderKeys s r1 names p1) as [k1|]; [cbn in E1|done].
    destruct (orderKeys s r2 names p2) as [k2|]; [cbn in E2|done].
    injection E1 as <-. injection E2 as <-. cbn.
    destruct (tupleEqual p1 p2) eqn:E; [|done]. exfalso.
    by apply (project_same_key s t r1 r2 (Some rows) p1 p2).
  - clear -Hbr Hk. unfold key_unique in Hk. revert Hbr.
    induction Hk as [|r rows Hr _ IH]; intros Hbr; constructor.
    + rewrite Forall_forall in *. intros r' Hr'. split; [auto|].
      split; apply Hbr; [apply list_elem_of_here|by apply list_elem_of_further].
    + apply IH. intros r' Hr'. by apply Hbr, list_elem_of_further.
Qed.

Lemma result_columns_same s s' whole rows :
  s_columns s' = s_columns s → s_fromTable s' = s_fromTable s →
  s_fromAlias s' = s_fromAlias s → s_joins s' = s_joins s →
  result_columns cat s' whole rows = result_columns cat s whole rows.
Proof.
  intros Ec E1 E2 E3.
  assert (∀ sample, outputNames cat s' sample = outputNames cat s sample) as E.
  { intros sample. unfold outputNames. rewrite Ec.
    apply (output_names_same s s' sample []); try done.
    apply Forall_Forall2_diag, Forall_true. intros x. apply same_column_refl. }
  unfold result_columns. by repeat case_match; rewrite ?E.
Qed.

Lemma drop_distinct_sound s t rows result :
  base_table cat s t → (∀ row, row ∈ rows → base_row cat s t row) → key_unique t rows →
  is_grouped s = false → projectsPrimaryKey (Some cat) s = true →
  executeSelect std_sort iterate cat s rows = Ok result →
  executeSelect std_sort iterate cat (set_distinct s false) rows = Ok result.
Proof.
  intros Hbt Hbr Hk Hg Hpk H. unfold executeSelect, select_output in *.
  change (is_grouped (set_distinct s false)) with (is_grouped s).
  change (apply_biggest (set_distinct s false)) with (apply_biggest s). cbn [s_where
    s_orderBy s_limit s_offset s_distinct set_distinct]. rewrite Hg in *.
  destruct (filter_rows (s_where s) rows) as [kept|] eqn:Hf; [cbn [rbind] in *|done].
  apply filter_rows_Ok in Hf as [Hin Hfop].
  destruct (apply_biggest s kept) as [[out whole]|] eqn:Hb; [cbn [rbind] in *|done].
  apply apply_biggest_sub in Hb as (Hsub & Hone & Hsame).
  change (plain_output (set_distinct s false)) with (plain_output s).
  rewrite (result_columns_same s (set_distinct s false)) by done.
  destruct (plain_output s whole _ out) as [output|] eqn:Hp; [cbn [rbind] in *|done].
  rewrite Forall_forall in Hin.
  replace (apply_distinct (s_distinct s) output) with output in H; [exact H|].
  unfold apply_distinct. destruct (s_distinct s); [|done]. symmetry.
  eapply plain_output_distinct; [exact Hbt| | |exact Hpk|exact Hone|exact Hp].
  - intros r Hr. by apply Hbr, Hin, Hsub.
  - destruct whole.
    + destruct out as [|r1 [|r2 out]]; [constructor|by repeat constructor|].
      specialize (Hone eq_refl). cbn in Hone. lia.
    + rewrite Hsame by done. by apply Hfop.
Qed.

Lemma plain_output_values s s' whole names rows out :
  s_columns s' = s_columns s → s_orderBy s' = [] → plain_output s whole names rows = Ok out →
  ∃ out', plain_output s' whole names rows = Ok out' ∧ map o_values out' = map o_values out.
Proof.
  intros Hc Ho H. unfold plain_output in *.
  assert (∀ l out, rmap (λ source,
      let* row := if whole then Ok (values source) else project s source (Some rows) in
      let* keys := orderKeys s source names row in Ok (mkOutput row keys)) l = Ok out →
    ∃ out', rmap (λ source,
      let* row := if whole then Ok (values source) else project s' source (Some rows) in
      let* keys := orderKeys s' source names row in Ok (mkOutput row keys)) l = Ok out' ∧
      map o_values out' = map o_values out) as Hl; [|by apply Hl].
  clear H out. induction l as [|r l IH]; intros out H; cbn in *; [by injection H as <-; eexists|].
  assert (project s' r (Some rows) = project s r (Some rows)) as ->
    by (unfold project; by rewrite Hc).
  destruct (if whole then Ok (values r) else project s r (Some rows)) as [row|];
    [cbn [rbind] in *|done].
  destruct (orderKeys s r names row) as [keys|]; [cbn [rbind] in *|done].
  unfold orderKeys at 1. rewrite Ho. cbn [rmap rbind].
  destruct (rmap _ l) as [rest|] eqn:E in H; [cbn in H|done]. injection H as <-.
  destruct (IH rest E) as (rest' & -> & Hmap). eexists. split; [done|]. cbn. by rewrite Hmap.
Qed.

Lemma apply_limit_values limit offset out out' :
  map o_values out' = map o_values out →
  apply_limit limit offset out' = apply_limit limit offset out.
Proof.
  intros H. unfold apply_limit.
  destruct (integerLiteral offset 0) as [n|]; [cbn [rbind]|done].
  assert (map o_values (drop (Z.to_nat n) out') = map o_values (drop (Z.to_nat n) out)) as E.
  { change map with (@fmap list _) in *. by rewrite !fmap_drop, H. }
  destruct limit; [|by rewrite E].
  destruct (integerLiteral (Some n0) 0); [cbn [rbind]|done].
  change map with (@fmap list _) in *. by rewrite !fmap_take, E.
Qed.

Lemma apply_limit_one offset out p :
  (length out ≤ 1)%nat →
  apply_limit (Some (Literal (LInt 1) p)) offset out = apply_limit None offset out.
Proof.
  intros H. unfold apply_limit. destruct (integerLiteral offset 0) as [n|]; [cbn|done].
  rewrite take_ge; [done|]. rewrite length_drop. lia.
Qed.

(** The result does not depend on ORDER BY when there is at most one row. *)
Lemma lookup_rewrites_sound s t rows notes s' notes' result :
  base_table cat s t → (∀ row, row ∈ rows → base_row cat s t row) → key_unique t rows →
  is_grouped s = false →
  lookup_rewrites (Some cat) s notes = Ok (s', notes') →
  executeSelect std_sort iterate cat s rows = Ok result →
  executeSelect std_sort iterate cat s' rows = Ok result.
Proof.
  intros Hbt Hbr Hk Hg Hl H. unfold lookup_rewrites in Hl.
  destruct (point_lookup (Some cat) s) eqn:Hp; [|by pass_inv].
  set (limit := match s_limit s with
                | Some l => Some l | None => Some (Literal (LInt 1) (s_loc s)) end).
  assert (s' = set_limit (set_orderBy s []) limit) as ->.
  { subst limit. clear -Hl. destruct s as [d c ft fa j w g h o li off p].
    cbn [s_orderBy s_limit set_orderBy set_limit s_distinct s_columns s_fromTable s_fromAlias
      s_joins s_where s_groupBy s_having s_offset s_loc] in *.
    destruct o; pass_inv; cbn [s_limit set_orderBy] in *; destruct li; by pass_inv. }
  clear Hl. unfold executeSelect, select_output in *.
  change (is_grouped (set_limit (set_orderBy s []) limit)) with (is_grouped s).
  change (apply_biggest (set_limit (set_orderBy s []) limit)) with (apply_biggest s).
  cbn [s_where s_orderBy s_limit s_offset s_distinct set_orderBy set_limit]. rewrite Hg in *.
  destruct (filter_rows (s_where s) rows) as [kept|] eqn:Hf; [cbn [rbind] in *|done].
  pose proof (point_lookup_one s t rows kept Hbt Hbr Hk Hp Hf) as Hlen.
  destruct (apply_biggest s kept) as [[out whole]|] eqn:Hb; [cbn [rbind] in *|done].
  apply apply_biggest_sub in Hb as (_ & Hone & Hsame).
  assert (length out ≤ 1)%nat as Hout by (destruct whole; [auto|by rewrite Hsame]).
  rewrite (result_columns_same s (set_limit (set_orderBy s []) limit)) by done.
  destruct (plain_output s whole _ out) as [output|] eqn:Hpo; [cbn [rbind] in *|done].
  destruct (plain_output_values s (set_limit (set_orderBy s []) limit) _ _ _ _
              eq_refl eq_refl Hpo) as (output' & -> & Hmap). cbn [rbind].
  pose proof Hpo as Hlo. apply rmap_Ok, Forall2_length in Hlo.
  assert (length output' = length output) as Hlo'.
  { by rewrite <- (length_map o_values output'), Hmap, length_map. }
  assert (∀ d (o : list OutputRow), (length o ≤ 1)%nat → apply_distinct d o = o) as Hd.
  { intros [] o Ho; [by apply distinct_short|done]. }
  rewrite Hd, order_short in H by (rewrite ?Hd; lia).
  rewrite Hd, order_short by (rewrite ?Hd; lia).
  assert (apply_limit limit (s_offset s) output' = apply_limit (s_limit s) (s_offset s) output)
    as ->; [|exact H].
  rewrite (apply_limit_values _ _ output output') by done. subst limit.
  destruct (s_limit s); [done|]. apply apply_limit_one. lia.
Qed.

(** ** The whole optimizer *)

Definition literal_or_none (o : option Node) : Prop :=
  match o with None | Some (Literal _ _) => True | _ => False end.

Lemma fold_literal_or_none o o' :
  literal_or_none o → option_Forall2 (λ x y, ∃ n n', foldConstants x n = Ok (y, n')) o o' →
  o' = o.
Proof.
  intros Ho HF. revert Ho. destruct HF as [x y (n & n' & H)|]; [|done].
  destruct x; try done. intros _.
  cbn [foldConstants] in H. by pass_inv.
Qed.

Lemma is_grouped_same s s' rows :
  is_grouped s = false → s_groupBy s' = s_groupBy s →
  Forall2 (same_column rows) (s_columns s) (s_columns s') →
  match s_having s' with Some e => hasAggregate e | None => false end =
  match s_having s with Some e => hasAggregate e | None => false end →
  is_grouped s' = false.
Proof.
  unfold is_grouped, selectHasAggregate. intros Hg -> Hc ->.
  by rewrite (Forall2_same_existsb rows _ _ Hc).
Qed.

Lemma having_same (f : Node → pass Node) o o' :
  (∀ x n y n', f x n = Ok (y, n') → hasAggregate y = hasAggregate x) →
  option_Forall2 (λ x y, ∃ n n', f x n = Ok (y, n')) o o' →
  match o' with Some e => hasAggregate e | None => false end =
  match o with Some e => hasAggregate e | None => false end.
Proof. intros Hf [x y (n & n' & H)|]; [|done]. eauto. Qed.

(** The conditions under which a SELECT of one table means the same after the
    optimizer: those of the data (the schema's constraints hold of the rows) and
    those of the expressions. *)
Record optimizable (s : Select_) (t : TableMeta) (rows : list EvalRow) : Prop := {
  op_table : base_table cat s t;
  op_rows : ∀ row, row ∈ rows → base_row cat s t row;
  op_key : key_unique t rows;
  op_plain : is_grouped s = false;
  op_where : ∀ e, s_where s = Some e →
    literals_ok e ∧ ∀ row, row ∈ rows → no_nan_ordering row e;
  op_columns : Forall (λ x, column_no_nan rows x ∧ unaliased x) (s_columns s);
  op_limit : literal_or_none (s_limit s);
  op_offset : literal_or_none (s_offset s);
}.

Lemma fold_select_sound s t rows notes s' notes' :
  optimizable s t rows → foldConstants (Select s) notes = Ok (Select s', notes') →
  executeSelect std_sort iterate cat s' rows = executeSelect std_sort iterate cat s rows ∧
  base_table cat s' t ∧ (∀ row, row ∈ rows → base_row cat s' t row) ∧
  is_grouped s' = false ∧ (∀ e, s_where s' = Some e → literals_ok e).
Proof.
  intros [[Ht Hnd] Hrows Hk Hg Hw Hc Hli Hof] H.
  apply fold_select in H as (cols & wh & hv & li & off & [= ->] & HC & HW & HH & HL & HO).
  apply fold_literal_or_none in HL as ->; [|done].
  apply fold_literal_or_none in HO as ->; [|done].
  assert (Forall2 (same_column rows) (s_columns s) cols) as Hcols.
  { clear -HC Hc. induction HC as [|x y xs ys (m & m' & Hxy) _ IH]; [constructor|].
    inversion Hc as [|? ? [Hx Hxa] Hxs]; subst. constructor; [|auto].
    by eapply fold_same_column. }
  assert (match hv with Some e => hasAggregate e | None => false end =
          match s_having s with Some e => hasAggregate e | None => false end) as Hhav
    by (eapply having_same; [apply fold_hasAggregate|done]).
  assert ((∀ row, row ∈ rows → keeps wh row = keeps (s_where s) row) ∧
          ∀ e, wh = Some e → literals_ok e) as [Hkeep Hlit].
  { inversion HW as [e e' (m & m' & He) E1 E2|E1 E2]; [|split; [done|discriminate]].
    destruct (Hw e (eq_sym E1)) as [Hl Hn]. split.
    - intros row Hr. cbn. by rewrite (foldConstants_eval e row m e' m') by auto.
    - intros ? [= <-]. by eapply foldConstants_ok. }
  set (folded := mkSelect _ cols _ _ _ _ _ _ _ _ _ _).
  assert (is_grouped folded = false) as Hg' by (by eapply is_grouped_same).
  split; [by apply executeSelect_ext|]. split; [by split|]. split_and!; try done.
  intros row Hr. by eapply base_row_fields; [| |apply Hrows].
Qed.

Lemma count_rewrites_sound s rows notes s' notes' :
  is_grouped s = false → count_rewrites (Some cat) s notes = Ok (s', notes') →
  executeSelect std_sort iterate cat s' rows = executeSelect std_sort iterate cat s rows ∧
  is_grouped s' = false.
Proof.
  intros Hg H. unfold count_rewrites in H. pass_inv.
  match goal with
  | Hc : pmap _ _ _ = Ok (?c, _), Hh : popt _ _ _ = Ok (?h, _) |- _ =>
      apply pmap_Ok in Hc; apply popt_Ok in Hh;
      set (s1 := set_having (set_columns s c) h);
      assert (Forall2 (same_column rows) (s_columns s) (s_columns s1)) as Hcols;
      [eapply Forall2_impl; [exact Hc|]; intros x y (k & k' & Hxy);
       by eapply rewrite_same_column|];
      assert (is_grouped s1 = false) as Hg'
  end.
  { eapply is_grouped_same; [done|done|done|]. cbn.
    eapply having_same; [|done]. intros x k y k'. apply rewrite_hasAggregate. }
  split; [by apply executeSelect_ext|done].
Qed.

Lemma metadata_sound s t rows notes s' notes' result :
  base_table cat s t → (∀ row, row ∈ rows → base_row cat s t row) → key_unique t rows →
  is_grouped s = false →
  applyMetadataOptimizations (Some cat) (Select s) notes = Ok (Select s', notes') →
  executeSelect std_sort iterate cat s rows = Ok result →
  executeSelect std_sort iterate cat s' rows = Ok result ∧ is_grouped s' = false.
Proof.
  intros Hbt Hbr Hk Hg H Hres. cbn [applyMetadataOptimizations] in H.
  rewrite (proj1 Hbt) in H. destruct (no_joins s); pass_inv;
    match goal with H : Select _ = Select s' |- _ => injection H as <- end; [|done].
  match goal with
  | Hc : count_rewrites _ _ _ = Ok (?a, _), Hd : drop_distinct _ ?a _ = Ok (?b, _),
    Hl : lookup_rewrites _ ?b _ = Ok (?c, _) |- _ =>
      rename Hc into HC, Hd into HD, Hl into HL, a into s1, b into s2, c into s3
  end.
  assert (s_fromTable s1 = s_fromTable s ∧ s_fromAlias s1 = s_fromAlias s) as [Et Ea].
  { unfold count_rewrites in HC. by pass_inv. }
  apply (count_rewrites_sound s rows) in HC as [E Hg1]; [|done]. rewrite <- E in Hres.
  assert (base_table cat s1 t) as Hbt1 by (destruct Hbt; split; [cbn; by rewrite Et|done]).
  assert (∀ row, row ∈ rows → base_row cat s1 t row) as Hbr1.
  { intros row Hr. by eapply base_row_fields; [| |apply Hbr]. }
  assert (executeSelect std_sort iterate cat s2 rows = Ok result ∧ is_grouped s2 = false ∧
          s_fromTable s2 = s_fromTable s1 ∧ s_fromAlias s2 = s_fromAlias s1)
    as (Hres2 & Hg2 & Et2 & Ea2).
  { unfold drop_distinct in HD. destruct (s_distinct s1 && _) eqn:Ed; pass_inv; [|done].
    apply andb_prop in Ed as [_ Epk]. split; [|done]. by eapply drop_distinct_sound. }
  assert (base_table cat s2 t) as Hbt2 by (destruct Hbt1; split; [cbn; by rewrite Et2|done]).
  assert (∀ row, row ∈ rows → base_row cat s2 t row) as Hbr2.
  { intros row Hr. by eapply base_row_fields; [| |apply Hbr1]. }
  split; [by eapply lookup_rewrites_sound|].
  clear -HL Hg2. unfold lookup_rewrites in HL. repeat (case_match; pass_inv); done.
Qed.

Lemma eliminate_sound s rows notes s' notes' :
  is_grouped s = false → (∀ e, s_where s = Some e → literals_ok e) →
  eliminateDeadCode (Select s) notes = Ok (Select s', notes') →
  executeSelect std_sort iterate cat s' rows = executeSelect std_sort iterate cat s rows.
Proof.
  intros Hg Hlit H. cbn [eliminateDeadCode] in H. pass_inv.
  match goal with H : Select _ = Select s' |- _ => injection H as <- end.
  match goal with
  | Hw : eliminate_condition "WHERE" _ _ = _, Hh : eliminate_condition "HAVING" _ _ = _ |- _ =>
      rename Hw into HW, Hh into HH
  end.
  assert (Forall2 (same_column rows) (s_columns s) (s_columns s)) as Hc.
  { apply Forall_Forall2_diag, Forall_true. intros x. apply same_column_refl. }
  apply executeSelect_ext; try done.
  - intros row _. by eapply eliminate_condition_keeps.
  - eapply is_grouped_same; [exact Hg|done|exact Hc|]. cbn.
    unfold eliminate_condition in HH. repeat (case_match; pass_inv); done.
Qed.

Lemma optimize_sound s t rows notes s' notes' result :
  optimizable s t rows → optimize (Some cat) (Select s) notes = Ok (Select s', notes') →
  executeSelect std_sort iterate cat s rows = Ok result →
  executeSelect std_sort iterate cat s' rows = Ok result.
Proof.
  intros Hopt H Hres. apply optimize_select in H
    as (folded & s1 & s2 & n1 & n2 & n3 & Hf & Hm & He & [= ->]).
  destruct (fold_select_sound _ _ _ _ _ _ Hopt Hf) as (E & Hbt & Hbr & Hg & Hlit).
  rewrite <- E in Hres. pose proof Hm as Hm'.
  apply (metadata_sound folded t rows _ _ _ result) in Hm as [Hres1 Hg1];
    [|done|done|apply Hopt|done|done].
  apply metadata_where in Hm' as (s1' & [= <-] & Ew).
  rewrite (eliminate_sound s1 rows _ _ _ Hg1 ltac:(by rewrite Ew) He). exact Hres1.
Qed.
End Sound.

(** * Theorems *)

(** C9: The optimizer does not change the result of an [optimizable] query.  For a
    SELECT of one table without grouping, over rows that satisfy the table's constraints
    (one value per column, no null in a column declared NOT NULL, no repeated
    primary key), if the engine's execution of the statement as parsed gives
    a result, then the execution of the optimized statement gives the same
    column names and the same rows in the same order: constant folding, the
    COUNT rewrite, the removal of DISTINCT and of ORDER BY, the added LIMIT 1 and
    the removal of a true WHERE together.  The conditions on the expressions
    exclude what the code does get wrong: a [<=] or [>=] on a NaN
    ([fold_nan_comparison]) and an alias on a projected operation
    ([fold_drops_alias]); LIMIT and OFFSET are literals or absent. *)
Theorem optimize_preserves_result std_sort iterate (cat : Catalog) s t rows notes s' notes'
    result :
  optimizable cat s t rows →
  optimize (Some cat) (Select s) notes = Ok (Select s', notes') →
  executeSelect std_sort iterate cat s rows = Ok result →
  executeSelect std_sort iterate cat s' rows = Ok result.
Proof. apply optimize_sound. Qed.

(** C34: The optimizer does not change an aggregation.  For a SELECT of one table,
    in every non-empty group of rows that satisfy the table's constraints, the
    optimized columns evaluate to the same values - in particular
    [headcount(column)] rewritten to [headcount] of all rows counts the same -
    and the group passes HAVING exactly when it did.  No [<=] or [>=] compares a
    NaN.  The empty group of an aggregation over no rows is different: see
    [having_true_on_no_rows]. *)
Theorem optimize_preserves_groups std_sort (cat : Catalog) s t rows notes s' notes' :
  base_table cat s t → rows ≠ [] → (∀ row, row ∈ rows → base_row cat s t row) →
  Forall (no_nan_grouped std_sort rows) (s_columns s) →
  (∀ e, s_having s = Some e → no_nan_grouped std_sort rows e ∧ literals_ok e) →
  optimize (Some cat) (Select s) notes = Ok (Select s', notes') →
  projectGrouped std_sort s' rows = projectGrouped std_sort s rows ∧
  keepsGrouped std_sort (s_having s') rows = keepsGrouped std_sort (s_having s) rows.
Proof. apply optimize_grouped_same. Qed.

(** Folding once is folding completely: the result of constant folding
    folds to itself, without a note, in an expression or a SELECT of any shape. *)
Theorem foldConstants_idempotent n notes n' notes' :
  foldConstants n notes = Ok (n', notes') →
  ∀ more, foldConstants n' more = Ok (n', more).
Proof. apply foldConstants_folded. Qed.

(** ** A concrete table and query *)

Module Demo.

Definition at_ : loc := Loc 1 1.
Definition id_column : ColumnMeta := mkColumnMeta "id" "INTEGER" true true "" "".
Definition name_column : ColumnMeta := mkColumnMeta "name" "TEXT" false false "" "".
Definition table : TableMeta := mkTableMeta "t" [id_column; name_column].
Definition catalog : Catalog := addTable emptyCatalog table.
Definition schema : list BoundColumn := [mkBound "t" "" "id"; mkBound "t" "" "name"].
Definition row (id : Z) (name : Value) : EvalRow := mkRow (Some schema) [VInteger id; name].
Definition rows : list EvalRow := [row 1 (VText "a"); row 2 VNull; row 3 (VText "c")].

Definition id_ref : Node := ColumnRef "" "id" "" at_.

(** slay distinct id, name from t where id = 1 + 1 order by name *)
Definition query : Select_ :=
  mkSelect true [id_ref; ColumnRef "" "name" "" at_] "t" "" []
    (Some (BinaryOp "=" id_ref
             (BinaryOp "+" (Literal (LInt 1) at_) (Literal (LInt 1) at_) "" at_) "" at_))
    [] None [mkOrderItem (ColumnRef "" "name" "" at_) true] None None at_.

(** slay headcount(id) from t *)
Definition count_query : Select_ :=
  mkSelect false [FunctionCall "headcount" [id_ref] false "" at_] "t" "" [] None [] None []
    None None at_.

Lemma base_table_demo s : s_fromTable s = "t" → base_table catalog s table.
Proof.
  intros H. split; [cbn; rewrite H; vm_compute; reflexivity|].
  apply (bool_decide_unpack _). vm_compute. exact I.
Qed.

Lemma base_row_demo s id name :
  s_fromTable s = "t" → s_fromAlias s = "" → base_row catalog s table (row id name).
Proof.
  intros H1 H2. split; [|done|].
  - exists schema. rewrite H1, H2. split; [vm_compute; reflexivity|done].
  - intros [|[|i]] m v Hm Hv Hn; [by injection Hv as <-| |destruct i; discriminate Hm].
    injection Hm as <-. discriminate Hn.
Qed.

Lemma rows_demo s : s_fromTable s = "t" → s_fromAlias s = "" →
  ∀ r, r ∈ rows → base_row catalog s table r.
Proof.
  intros H1 H2 r Hr. unfold rows in Hr.
  repeat (apply elem_of_cons in Hr as [->|Hr]; [by apply base_row_demo|]).
  by apply not_elem_of_nil in Hr.
Qed.

Lemma different_rows i j n1 n2 : value_eqb (VInteger i) (VInteger j) = false →
  different_keys table (row i n1) (row j n2).
Proof.
  intros H [|[|k]] m v1 v2 Hm Hpk H1 H2; [|by injection Hm as <-|destruct k; discriminate Hm].
  injection H1 as <-. by injection H2 as <-.
Qed.

Lemma key_unique_demo : key_unique table rows.
Proof.
  repeat constructor; apply different_rows; vm_compute; reflexivity.
Qed.

Lemma optimizable_demo : optimizable catalog query table rows.
Proof.
  split.
  - by apply base_table_demo.
  - by apply rows_demo.
  - apply key_unique_demo.
  - reflexivity.
  - intros e [= <-]. split; [repeat split; discriminate || reflexivity|].
    intros r _. cbn. split_and!; try exact I; intros [E|E]; discriminate E.
  - repeat constructor; intros; exact I.
  - exact I.
  - exact I.
Qed.

End Demo.

Example optimize_preserves_result_witness :
  ∃ optimized notes,
    optimize (Some Demo.catalog) (Select Demo.query) [] = Ok (Select optimized, notes) ∧
    s_orderBy optimized = [] ∧ s_distinct optimized = false ∧
    executeSelect (λ l, l) (λ A l, l) Demo.catalog optimized Demo.rows =
      Ok (["id"; "name"], [[VInteger 2; VNull]]).
Proof.
  destruct (optimize (Some Demo.catalog) (Select Demo.query) []) as [[n notes]|] eqn:E;
    [|vm_compute in E; discriminate E].
  destruct n as [| | | | | | |optimized]; try (vm_compute in E; discriminate E).
  exists optimized, notes. split; [reflexivity|].
  pose proof (optimize_preserves_result (λ l, l) (λ A l, l) Demo.catalog Demo.query Demo.table
                Demo.rows [] optimized notes (["id"; "name"], [[VInteger 2; VNull]])
                Demo.optimizable_demo E ltac:(vm_compute; reflexivity)) as H.
  split; [|split; [|exact H]]; vm_compute in E; injection E as <- _; reflexivity.
Defined.

Example optimize_preserves_groups_witness :
  ∃ optimized notes,
    optimize (Some Demo.catalog) (Select Demo.count_query) [] = Ok (Select optimized, notes) ∧
    s_columns optimized =
      [FunctionCall "headcount" [Wildcard "" "" Demo.at_] false "" Demo.at_] ∧
    projectGrouped (λ l, l) optimized Demo.rows = Ok [VInteger 3].
Proof.
  destruct (optimize (Some Demo.catalog) (Select Demo.count_query) []) as [[n notes]|] eqn:E;
    [|vm_compute in E; discriminate E].
  destruct n as [| | | | | | |optimized]; try (vm_compute in E; discriminate E).
  exists optimized, notes. split; [reflexivity|]. split.
  - vm_compute in E. injection E as <- _. reflexivity.
  - destruct (optimize_preserves_groups (λ l, l) Demo.catalog Demo.count_query Demo.table
                Demo.rows [] optimized notes (Demo.base_table_demo Demo.count_query eq_refl)
                ltac:(discriminate)
                (Demo.rows_demo Demo.count_query eq_refl eq_refl)) as [-> _].
    + repeat constructor.
    + intros e H. discriminate H.
    + exact E.
    + vm_compute. reflexivity.
Defined.

Example foldConstants_idempotent_witness :
  foldConstants (Literal (LInt 3) Demo.at_) ["done"] = Ok (Literal (LInt 3) Demo.at_, ["done"]).
Proof.
  refine (foldConstants_idempotent
    (BinaryOp "+" (Literal (LInt 1) Demo.at_) (Literal (LInt 2) Demo.at_) "" Demo.at_)
    [] (Literal (LInt 3) Demo.at_) ["Constant folding: 1.000000 + 2.000000"] _ ["done"]).
  vm_compute. reflexivity.
Defined.

(** Folding an operation on two integer literals loses the alias of a
    projected expression: [slay 1 + 2 lowkey total] names its column [total]
    before and [expr1] after the optimizer. *)
Theorem fold_drops_alias (a b : Z) (alias : string) (p q r : loc) notes i :
  i64 (a + b) → alias ≠ "" →
  let e := BinaryOp "+" (Literal (LInt a) p) (Literal (LInt b) q) alias r in
  expressionAlias e i = alias ∧
  ∃ folded notes', foldConstants e notes = Ok (folded, notes') ∧
    expressionAlias folded i = "expr" +:+ dec_unsigned (Z.of_nat (i + 1)).
Proof.
  intros Hz Ha e. split.
  - cbn. by destruct (String.eqb_spec alias "").
  - exists (Literal (LInt (a + b)) r). eexists. split; [|done].
    cbn -[of_int add]. unfold pbind, makeInt. cbn -[of_int]. by rewrite decide_True.
Qed.

Example fold_drops_alias_witness :
  expressionAlias (BinaryOp "+" (Literal (LInt 1) Demo.at_) (Literal (LInt 2) Demo.at_)
                     "total" Demo.at_) 0 = "total".
Proof.
  refine (proj1 (fold_drops_alias 1 2 "total" Demo.at_ Demo.at_ Demo.at_ [] 0 _ _)).
  - split; [discriminate|reflexivity].
  - discriminate.
Defined.

Definition huge : Node := Literal (LFloat (of_int (10 ^ 18))) Demo.at_.
Fixpoint power (n : nat) : Node :=
  match n with O => huge | S n => BinaryOp "*" (power n) (power n) "" Demo.at_ end.
(** (10^18)^(2^7) is infinite, and infinity minus infinity is a NaN. *)
Definition nan_comparison : Node :=
  BinaryOp "<=" (BinaryOp "-" (power 7) (power 7) "" Demo.at_)
    (Literal (LInt 1) Demo.at_) "" Demo.at_.

(** On a NaN the optimizer and the engine disagree: a constant [NaN <= 1]
    folds to false, while the engine, which compares through
    [Value::compare], evaluates it to true. *)
Theorem fold_nan_comparison :
  (∃ notes, foldConstants nan_comparison [] = Ok (Literal (LBool false) Demo.at_, notes)) ∧
  ∀ row, eval nan_comparison row = Ok (VBoolean true).
Proof.
  split.
  - eexists. vm_compute. reflexivity.
  - intros row. vm_compute. reflexivity.
Qed.

(** A constant integer operation that overflows is undefined behaviour of the
    compiler itself: [a + b], [a - b] and [a * b] of two literals whose exact
    result does not fit [int64_t] make constant folding, which runs before any
    row is read, overflow a signed integer. *)
Theorem fold_overflow (a b : Z) (p q r : loc) alias notes :
  let fold op := foldConstants (BinaryOp op (Literal (LInt a) p) (Literal (LInt b) q) alias r)
                   notes in
  let overflow := Err (Undefined "signed integer overflow") in
  (¬ i64 (a + b) → fold "+" = overflow) ∧
  (¬ i64 (a - b) → fold "-" = overflow) ∧
  (¬ i64 (a * b) → fold "*" = overflow).
Proof.
  cbn zeta. split_and!; intros H; cbn -[of_int add]; unfold pbind, makeInt; cbn -[of_int];
    by rewrite decide_False.
Qed.

(** slay headcount(id) from t bussin-only 1 = 1 *)
Definition having_query : Select_ :=
  mkSelect false [FunctionCall "headcount" [Demo.id_ref] false "" Demo.at_] "t" "" [] None []
    (Some (BinaryOp "=" (Literal (LInt 1) Demo.at_) (Literal (LInt 1) Demo.at_) "" Demo.at_)) []
    None None Demo.at_.

(** On no rows the optimizer and the engine disagree about a constant HAVING.
    The one group of an aggregation without GROUP BY is then empty, in an empty
    group every literal is evaluated to NULL, and [1 = 1] with them: the engine
    drops the group and answers no row.  The optimizer folds the condition to
    true and removes it, and the answer is the row of the count, 0. *)
Theorem having_true_on_no_rows :
  let run s := executeSelect (λ l, l) (λ A l, l) Demo.catalog s [] in
  run having_query = Ok (["headcount"], []) ∧
  ∃ optimized notes,
    optimize (Some Demo.catalog) (Select having_query) [] = Ok (Select optimized, notes) ∧
    run optimized = Ok (["headcount"], [[VInteger 0]]).
Proof.
  cbn zeta. split; [vm_compute; reflexivity|].
  destruct (optimize (Some Demo.catalog) (Select having_query) []) as [[n notes]|] eqn:E;
    vm_compute in E; [|discriminate E].
  injection E as <- <-. do 2 eexists. split; [reflexivity|vm_compute; reflexivity].
Qed.
