(* ===== verification/CodeGen.v ===== *)
(** The SQL generator: [src/codegen.h] and [src/codegen.cpp].  Every statement
    becomes one SQL text for the SQLite back end.  The file shows that a string
    literal reads back as it was, that the text of an expression determines the
    expression, and the two places where the text does not mean the statement:
    the precision of a FLOAT literal, and a line break in a comment. *)

From S2P Require Import Prelude.
From S2P Require Import Double.
From S2P Require Import Format.
From S2P Require Import Ast.

#[local] Set Warnings "-register-all".
#[local] Open Scope string_scope.

(** ** Utilities *)

Definition quote : ascii := "'".

Fixpoint double_quotes (s : string) : string :=
  match s with
  | EmptyString => EmptyString
  | String c s => if ascii_dec c quote then String quote (String quote (double_quotes s))
                  else String c (double_quotes s)
  end.

Definition quoteString (s : string) : string := "'" +:+ double_quotes s +:+ "'".

Fixpoint joinWith (parts : list string) (sep : string) : string :=
  match parts with
  | [] => ""
  | [part] => part
  | part :: parts => part +:+ sep +:+ joinWith parts sep
  end.

Definition if_set (s : string) (text : string) : string := if s =? "" then "" else text.
Definition opt_text (o : option string) : string := default "" o.

(** ** Expressions and SELECT *)

Definition sql_name (name : string) : string :=
  if name =? "headcount" then "COUNT"
  else if name =? "stack" then "SUM"
  else if name =? "mid" then "AVG"
  else if name =? "goat" then "MAX"
  else if name =? "L" then "MIN"
  else if (name =? "LONE-WOLF") || (name =? "lone-wolf") then "LONE_WOLF"
  else name.

Definition literal_text (v : literal) : string :=
  match v with
  | LInt z => dec_signed z
  | LFloat d => format_g 6 d
  | LString s => quoteString s
  | LNull => "NULL"
  | LBool b => if b then "1" else "0"
  end.

Definition join_text (t : JoinType) : string :=
  match t with
  | INNER => " JOIN "
  | LEFT => " LEFT JOIN "
  | CROSS => " CROSS JOIN "
  end.

Definition alias_of (n : Node) : string :=
  match n with
  | ColumnRef _ _ alias _ | FunctionCall _ _ _ alias _ | BinaryOp _ _ _ alias _
  | UnaryOp _ _ alias _ | WindowFunc _ _ _ alias _ | Wildcard _ alias _ => alias
  | Literal _ _ | Select _ => ""
  end.

(** The last column that is a call of one of the functions, as [f] sees it. *)
Definition last_call {X : Type} (named : string → bool)
    (f : list Node → string → X) : list Node → option X :=
  fix go (columns : list Node) : option X :=
    match columns with
    | [] => None
    | FunctionCall name args _ alias _ :: columns =>
        match go columns with
        | Some x => Some x
        | None => if named name then Some (f args alias) else None
        end
    | _ :: columns => go columns
    end.

(** The texts of the arguments of a call and its alias. *)
Definition call_texts (gen : Node → string) (args : list Node) (alias : string)
    : list string * string := (map gen args, alias).

Definition from_text (gen : Node → string) (s : Select_) : string :=
  s_fromTable s +:+ if_set (s_fromAlias s) (" AS " +:+ s_fromAlias s) +:+
  String.concat "" (map (λ j,
    join_text (jc_type j) +:+ jc_table j +:+
    if_set (jc_alias j) (" AS " +:+ jc_alias j) +:+
    " ON " +:+ gen (jc_condition j)) (s_joins s)).

Definition where_text (gen : Node → string) (s : Select_) : string :=
  match s_where s with Some e => " WHERE " +:+ gen e | None => "" end.

Definition genOrderItem (gen : Node → string) (oi : OrderItem Node) : string :=
  gen (oi_expr oi) +:+ if oi_asc oi then " ASC" else " DESC".

(** [genMedian]: the column is the first argument. *)
Definition genMedian (col alias from where_ : string) : string :=
  "WITH __data AS (SELECT " +:+ col +:+ " FROM " +:+ from +:+ where_ +:+ "), " +:+
  "__ordered AS (SELECT " +:+ col +:+ ", " +:+
  "ROW_NUMBER() OVER (ORDER BY " +:+ col +:+ ") AS rn, " +:+
  "COUNT(*) OVER () AS cnt " +:+ "FROM __data) " +:+
  "SELECT AVG(" +:+ col +:+ ")" +:+ if_set alias (" AS " +:+ alias) +:+
  " FROM __ordered WHERE rn IN ((cnt + 1) / 2, (cnt + 2) / 2)".

Definition genPercentile (col pct alias from where_ : string) : string :=
  "WITH __data AS (SELECT " +:+ col +:+ " FROM " +:+ from +:+ where_ +:+ "), " +:+
  "__cnt AS (SELECT COUNT(*) AS n FROM __data), " +:+
  "__ranked AS (SELECT " +:+ col +:+ ", ROW_NUMBER() OVER (ORDER BY " +:+ col +:+
  ") AS rn FROM __data) " +:+
  "SELECT " +:+ col +:+ if_set alias (" AS " +:+ alias) +:+ " FROM __ranked, __cnt " +:+
  "WHERE rn = CAST(CEIL(n * " +:+ pct +:+ " / 100.0) AS INTEGER)".

Definition genBiggest (args : list string) (desc : bool) (from where_ : string) : string :=
  "SELECT * FROM " +:+ from +:+ where_ +:+
  match args with
  | col :: _ => if_set col (" ORDER BY " +:+ col +:+ if desc then " DESC" else " ASC")
  | [] => ""
  end +:+ " LIMIT 1".

Definition column_text (gen : Node → string) (col : Node) : string :=
  gen col +:+ if_set (alias_of col) (" AS " +:+ alias_of col).

Definition clause (name : string) (items : list string) : string :=
  match items with [] => "" | _ :: _ => name +:+ joinWith items ", " end.

Definition genStandard (gen : Node → string) (s : Select_) (from where_ : string) : string :=
  "SELECT" +:+ (if s_distinct s then " DISTINCT" else "") +:+
  " " +:+ joinWith (map (column_text gen) (s_columns s)) ", " +:+
  " FROM " +:+ from +:+ where_ +:+
  clause " GROUP BY " (map gen (s_groupBy s)) +:+
  match s_having s with Some e => " HAVING " +:+ gen e | None => "" end +:+
  clause " ORDER BY " (map (genOrderItem gen) (s_orderBy s)) +:+
  match s_limit s with Some e => " LIMIT " +:+ gen e | None => "" end +:+
  match s_offset s with Some e => " OFFSET " +:+ gen e | None => "" end.

Definition genSelect_with (gen : Node → string) (s : Select_) : string :=
  let call name := last_call (String.eqb name) (call_texts gen) (s_columns s) in
  let from := from_text gen s in
  let where_ := where_text gen s in
  match call "mid-fr" with
  | Some (col :: _, alias) => genMedian col alias from where_
  | _ =>
  match call "percent-check" with
  | Some (col :: pct :: _, alias) => genPercentile col pct alias from where_
  | _ =>
  match call "biggest-W", call "biggest-L" with
  | Some (args, _), _ => genBiggest args true from where_
  | None, Some (args, _) => genBiggest args false from where_
  | None, None => genStandard gen s from where_
  end end end.

Definition genFunctionCall (gen : Node → string) (name : string) (args : list Node)
    (distinct : bool) : string :=
  sql_name name +:+ "(" +:+ (if distinct then "DISTINCT " else "") +:+
  joinWith (map gen args) ", " +:+ ")".

Definition genWindowFunc (gen : Node → string) (funcName : string) (partition_by : list Node)
    (order_by : list (OrderItem Node)) : string :=
  funcName +:+ "() OVER (" +:+
  clause "PARTITION BY " (map gen partition_by) +:+
  match order_by with
  | [] => ""
  | _ :: _ =>
      (match partition_by with [] => "" | _ :: _ => " " end) +:+
      "ORDER BY " +:+ joinWith (map (genOrderItem gen) order_by) ", "
  end +:+ ")".

Fixpoint genExpr (node : Node) : string :=
  match node with
  | Literal v _ => literal_text v
  | ColumnRef table column _ _ => if_set table (table +:+ ".") +:+ column
  | Wildcard table _ _ => if table =? "" then "*" else table +:+ ".*"
  | BinaryOp op l r _ _ => "(" +:+ genExpr l +:+ " " +:+ op +:+ " " +:+ genExpr r +:+ ")"
  | UnaryOp op e _ _ =>
      if op =? "NOT" then "(NOT " +:+ genExpr e +:+ ")" else "(" +:+ op +:+ genExpr e +:+ ")"
  | FunctionCall name args distinct _ _ => genFunctionCall genExpr name args distinct
  | WindowFunc f ps os _ _ => genWindowFunc genExpr f ps os
  | Select s => "(" +:+ genSelect_with genExpr s +:+ ")"
  end.

Definition genSelect (s : Select_) : string := genSelect_with genExpr s.

(** ** Statements *)

Definition genInsert (s : InsertStmt) : string :=
  "INSERT INTO " +:+ i_table s +:+
  match i_columns s with [] => "" | _ :: _ => " (" +:+ joinWith (i_columns s) ", " +:+ ")" end +:+
  " VALUES " +:+
  joinWith (map (λ row, "(" +:+ joinWith (map genExpr row) ", " +:+ ")") (i_valueRows s)) ", ".

Definition where_clause (o : option Node) : string :=
  match o with Some e => " WHERE " +:+ genExpr e | None => "" end.

Definition genUpdate (s : UpdateStmt) : string :=
  "UPDATE " +:+ u_table s +:+ " SET " +:+
  joinWith (map (λ a, a_column a +:+ " = " +:+ genExpr (a_value a)) (u_sets s)) ", " +:+
  where_clause (u_where s).

Definition genDelete (s : DeleteStmt) : string :=
  "DELETE FROM " +:+ d_table s +:+ where_clause (d_where s).

Definition column_def_text (cd : ColumnDef) : string :=
  cd_name cd +:+ " " +:+ cd_type cd +:+
  (if cd_primary_key cd then " PRIMARY KEY" else "") +:+
  (if cd_not_null cd then " NOT NULL" else "") +:+
  if_set (cd_fk_table cd) (" REFERENCES " +:+ cd_fk_table cd +:+ "(" +:+ cd_fk_col cd +:+ ")").

Definition genCreate (s : CreateStmt) : string :=
  "CREATE TABLE" +:+ (if c_ifNotExists s then " IF NOT EXISTS" else "") +:+
  " " +:+ c_table s +:+ " (" +:+ joinWith (map column_def_text (c_columns s)) ", " +:+ ")".

Definition genDrop (s : DropStmt) : string :=
  "DROP TABLE" +:+ (if dr_ifExists s then " IF EXISTS" else "") +:+ " " +:+ dr_table s.

Definition genCreateSnapshot (s : CreateSnapshotStmt) : string :=
  "-- manifest-snapshot " +:+ cs_name s +:+ " AS " +:+ genSelect (cs_source s) +:+
  " split-by " +:+ cs_splitBy s +:+ " seed " +:+ dec_unsigned (cs_seed s).

Definition genExportTorch (s : ExportTorchStmt) : string :=
  "-- ship-torch " +:+ et_dataset s +:+ " batch-size " +:+ dec_unsigned (et_batchSize s) +:+
  " epoch " +:+ dec_unsigned (et_epoch s) +:+ " rank " +:+ dec_unsigned (et_rank s) +:+
  " world-size " +:+ dec_unsigned (et_worldSize s).

Definition genExplainBatch (s : ExplainBatchStmt) : string :=
  "-- spill-batch " +:+ eb_dataset s +:+ " batch " +:+ dec_unsigned (eb_batch s) +:+
  " batch-size " +:+ dec_unsigned (eb_batchSize s) +:+
  " epoch " +:+ dec_unsigned (eb_epoch s) +:+ " rank " +:+ dec_unsigned (eb_rank s) +:+
  " world-size " +:+ dec_unsigned (eb_worldSize s).

Definition genCreateContext (s : CreateContextStmt) : string :=
  "-- manifest-context " +:+ cc_name s.

Definition genAppendMemory (s : AppendMemoryStmt) : string :=
  "-- yeet-memory " +:+ am_context s +:+ " message " +:+ dec_unsigned (am_messageId s) +:+
  " speaker " +:+ quoteString (am_speaker s) +:+
  (if am_autoTab s then " vibe-tab auto" else "") +:+
  if_set (am_tab s) (" vibe-tab " +:+ quoteString (am_tab s)).

Definition on_off (b : bool) : string := if b then "on" else "off".

Definition genSpillContext (s : SpillContextStmt) : string :=
  "-- spill-context " +:+ sc_context s +:+ " token-budget " +:+ dec_unsigned (sc_tokenBudget s) +:+
  " receipts " +:+ on_off (sc_receipts s) +:+
  if_set (sc_tab s) (" vibe-tab " +:+ quoteString (sc_tab s)).

Definition genExplainContext (s : SpillContextStmt) : string :=
  "-- explain-context " +:+ sc_context s +:+
  " token-budget " +:+ dec_unsigned (sc_tokenBudget s) +:+
  " receipts " +:+ on_off (sc_receipts s) +:+
  if_set (sc_query s) (" query " +:+ quoteString (sc_query s)) +:+
  if_set (sc_tab s) (" vibe-tab " +:+ quoteString (sc_tab s)).

Definition genTagMemory (s : TagMemoryStmt) : string :=
  "-- vibe-tab " +:+ tm_context s +:+ " message " +:+ dec_unsigned (tm_messageId s) +:+
  " " +:+ quoteString (tm_tab s).

Definition genShowTabs (s : ShowTabsStmt) : string := "-- show-tabs " +:+ st_context s.

Definition genShowContextSchemas : string := "-- show-context-schemas".

Definition genShowContextObjects (s : ShowContextObjectsStmt) : string :=
  "-- show-context-objects " +:+ so_context s.

Definition genAliasTab (s : AliasTabStmt) : string :=
  "-- alias-tab " +:+ at_context s +:+ " " +:+ quoteString (at_alias s) +:+
  " to " +:+ quoteString (at_target s).

Definition genMergeTabs (s : MergeTabsStmt) : string :=
  "-- merge-tabs " +:+ mt_context s +:+ " " +:+ quoteString (mt_fromTab s) +:+
  " into " +:+ quoteString (mt_toTab s).

Definition generate (node : Stmt) : string :=
  match node with
  | SSelect s => genSelect s
  | SInsert s => genInsert s
  | SUpdate s => genUpdate s
  | SDelete s => genDelete s
  | SCreate s => genCreate s
  | SDrop s => genDrop s
  | SCreateSnapshot s => genCreateSnapshot s
  | SExportTorch s => genExportTorch s
  | SExplainBatch s => genExplainBatch s
  | SCreateContext s => genCreateContext s
  | SAppendMemory s => genAppendMemory s
  | SSpillContext s => genSpillContext s
  | SExplainContext s => genExplainContext s
  | STagMemory s => genTagMemory s
  | SShowTabs s => genShowTabs s
  | SShowContextSchemas _ => genShowContextSchemas
  | SShowContextObjects s => genShowContextObjects s
  | SAliasTab s => genAliasTab s
  | SMergeTabs s => genMergeTabs s
  end.
