(* ===== verification/Sql.v ===== *)
(** What the generated SQL says: a reader of SQL string literals and of SQL
    expressions (numbers, strings, NULL, columns, calls, and operators with their
    parentheses), and the theorems that the texts of [CodeGen.v] read back as
    the expressions they were made of. *)

From S2P Require Import Prelude.
From S2P Require Import Double.
From S2P Require Import Format.
From S2P Require Import Ast.
From S2P Require Import CodeGen.

#[local] Set Warnings "-register-all".
#[local] Open Scope string_scope.

(** * String literals *)

(** The literal whose opening quote is read: its characters up to the closing
    quote, a doubled quote standing for one, and the text after it. *)
Fixpoint read_quoted (s : string) : option (string * string) :=
  match s with
  | EmptyString => None
  | String c r =>
      if ascii_dec c quote then
        match r with
        | String c' r' =>
            if ascii_dec c' quote then
              match read_quoted r' with
              | Some (t, rest) => Some (String quote t, rest)
              | None => None
              end
            else Some ("", r)
        | EmptyString => Some ("", "")
        end
      else
        match read_quoted r with
        | Some (t, rest) => Some (String c t, rest)
        | None => None
        end
  end.

(** A text after which no literal goes on. *)
Definition no_quote (rest : string) : Prop := ∀ r, rest ≠ String quote r.

Lemma read_double_quotes s rest : no_quote rest →
  read_quoted (double_quotes s +:+ String quote rest) = Some (s, rest).
Proof.
  intros Hr. induction s as [|c s IH].
  - change (double_quotes "" +:+ String quote rest) with (String quote rest).
    cbn [read_quoted]. destruct (ascii_dec quote quote); [|done].
    destruct rest as [|c r]; [done|]. destruct (ascii_dec c quote) as [->|]; [|done].
    by destruct (Hr r).
  - cbn [double_quotes]. destruct (ascii_dec c quote) as [->|Hc].
    + rewrite !string_app_cons. cbn [read_quoted]. destruct (ascii_dec quote quote); [|done].
      by rewrite IH.
    + rewrite string_app_cons. cbn [read_quoted]. destruct (ascii_dec c quote); [done|].
      by rewrite IH.
Qed.

Lemma quoteString_text s rest :
  quoteString s +:+ rest = String quote (double_quotes s +:+ String quote rest).
Proof.
  unfold quoteString. rewrite !string_app_assoc. change "'" with (String quote "").
  by rewrite !string_app_cons, !string_app_nil_l.
Qed.

(** * Expressions *)

Definition nowhere : loc := Loc 0 0.

(** The characters of a name, a qualified name or a wildcard. *)
Definition name_char (c : ascii) : bool :=
  isalnum c || bool_decide (c ∈ ["_"; "-"; "."; "*"]%char).

Fixpoint span_chars (p : ascii → bool) (s : string) : string * string :=
  match s with
  | EmptyString => ("", "")
  | String c s' => if p c then let '(a, b) := span_chars p s' in (String c a, b) else ("", s)
  end.

Fixpoint split_dot (s : string) : option (string * string) :=
  match s with
  | EmptyString => None
  | String c s =>
      if ascii_dec c "." then Some ("", s)
      else match split_dot s with Some (a, b) => Some (String c a, b) | None => None end
  end.

(** What a name that is not called stands for. *)
Definition named (w : string) : Node :=
  if w =? "NULL" then Literal LNull nowhere
  else match split_dot w with
  | Some (t, c) =>
      if c =? "*" then Wildcard t "" nowhere else ColumnRef t c "" nowhere
  | None => if w =? "*" then Wildcard "" "" nowhere else ColumnRef "" w "" nowhere
  end.

Fixpoint drop_prefix (p s : string) : option string :=
  match p, s with
  | EmptyString, _ => Some s
  | String a p, String b s => if ascii_dec a b then drop_prefix p s else None
  | String _ _, EmptyString => None
  end.

(** The arguments of a call after its first, and the closing parenthesis. *)
Fixpoint read_more (read : string → option (Node * string)) (fuel : nat) (s : string)
    : option (list Node * string) :=
  match fuel with
  | O => None
  | S fuel =>
      match drop_prefix ")" s with
      | Some s => Some ([], s)
      | None =>
          match drop_prefix ", " s with
          | None => None
          | Some s =>
              match read s with
              | None => None
              | Some (e, s) =>
                  match read_more read fuel s with
                  | Some (es, s) => Some (e :: es, s)
                  | None => None
                  end
              end
          end
      end
  end.

Definition read_args (read : string → option (Node * string)) (fuel : nat) (s : string)
    : option (list Node * string) :=
  match drop_prefix ")" s with
  | Some s => Some ([], s)
  | None =>
      match read s with
      | None => None
      | Some (e, s) =>
          match read_more read fuel s with
          | Some (es, s) => Some (e :: es, s)
          | None => None
          end
      end
  end.

Definition not_space (c : ascii) : bool := negb (bool_decide (c = " "%char)).

(** What follows an opening parenthesis. *)
Definition read_group (read : string → option (Node * string)) (s : string)
    : option (Node * string) :=
  match drop_prefix "NOT " s with
  | Some s =>
      match read s with
      | None => None
      | Some (e, s) =>
          match drop_prefix ")" s with
          | Some s => Some (UnaryOp "NOT" e "" nowhere, s)
          | None => None
          end
      end
  | None =>
      match read s with
      | None => None
      | Some (l, s) =>
          match drop_prefix ")" s with
          | Some s => Some (l, s)
          | None =>
              match drop_prefix " " s with
              | None => None
              | Some s =>
                  let '(op, s) := span_chars not_space s in
                  match drop_prefix " " s with
                  | None => None
                  | Some s =>
                      match read s with
                      | None => None
                      | Some (r, s) =>
                          match drop_prefix ")" s with
                          | Some s => Some (BinaryOp op l r "" nowhere, s)
                          | None => None
                          end
                      end
                  end
              end
          end
      end
  end.

(** A call, its name read, or the name alone. *)
Definition read_named (read : string → option (Node * string)) (fuel : nat) (w s : string)
    : option (Node * string) :=
  match drop_prefix "(" s with
  | None => Some (named w, s)
  | Some s =>
      let '(distinct, s) :=
        match drop_prefix "DISTINCT " s with Some s => (true, s) | None => (false, s) end in
      match read_args read fuel s with
      | Some (args, s) => Some (FunctionCall w args distinct "" nowhere, s)
      | None => None
      end
  end.

(** An expression at the start of a text, and the text after it. *)
Fixpoint read_sql (fuel : nat) (s : string) : option (Node * string) :=
  match fuel with
  | O => None
  | S fuel =>
      match s with
      | EmptyString => None
      | String c r =>
          if ascii_dec c quote then
            match read_quoted r with
            | Some (t, rest) => Some (Literal (LString t) nowhere, rest)
            | None => None
            end
          else if ascii_dec c "-" then
            match read_sql fuel r with
            | Some (e, rest) => Some (UnaryOp "-" e "" nowhere, rest)
            | None => None
            end
          else if ascii_dec c "(" then read_group (read_sql fuel) r
          else if isdigit c then
            let '(ds, rest) := span_digits s in
            Some (Literal (LInt (dec_value ds)) nowhere, rest)
          else
            let '(w, rest) := span_chars name_char s in
            if w =? "" then None else read_named (read_sql fuel) fuel w rest
      end
  end.

(** * What is printed reads back *)

(** A name of a column or a table, and the name of a function. *)
Definition word_char (c : ascii) : bool := isalnum c || bool_decide (c = "_"%char).
Definition name_start (c : ascii) : bool := isalpha c || bool_decide (c = "_"%char).
Definition starts_name (s : string) : bool :=
  match s with String c _ => name_start c | EmptyString => false end.
Definition word (s : string) : bool := starts_name s && all_chars word_char s.
Definition call_char (c : ascii) : bool := word_char c || bool_decide (c = "-"%char).
Definition callable (s : string) : bool := starts_name s && all_chars call_char s.
Definition qualifier (t : string) : bool := (t =? "") || word t.

Definition negative (e : Node) : bool :=
  match e with Literal (LInt z) _ => (z <? 0)%Z | _ => false end.

(** The expressions whose SQL text is exact: no FLOAT literal, no window and no
    subquery; identifiers, and operators as the parser makes them. *)
Fixpoint sql_ok (e : Node) : bool :=
  match e with
  | Literal (LFloat _) _ => false
  | Literal _ _ => true
  | ColumnRef t c _ _ => qualifier t && word c && negb (c =? "NULL") && negb (c =? "NOT")
  | Wildcard t _ _ => qualifier t
  | BinaryOp op l r _ _ => negb (op =? "") && all_chars not_space op && sql_ok l && sql_ok r
  | UnaryOp op e _ _ => ((op =? "NOT") || ((op =? "-") && negb (negative e))) && sql_ok e
  | FunctionCall name args _ _ _ => callable (sql_name name) && forallb sql_ok args
  | WindowFunc _ _ _ _ _ | Select _ => false
  end.

(** The expression SQL sees: a negative number is a minus applied to a number,
    a boolean is 0 or 1, the functions have their SQL names, and aliases and
    positions are gone. *)
Fixpoint sql_meaning (e : Node) : Node :=
  match e with
  | Literal v _ =>
      match v with
      | LInt z =>
          if (z <? 0)%Z then UnaryOp "-" (Literal (LInt (- z)) nowhere) "" nowhere
          else Literal v nowhere
      | LBool b => Literal (LInt (if b then 1 else 0)) nowhere
      | _ => Literal v nowhere
      end
  | ColumnRef t c _ _ => ColumnRef t c "" nowhere
  | Wildcard t _ _ => Wildcard t "" nowhere
  | BinaryOp op l r _ _ => BinaryOp op (sql_meaning l) (sql_meaning r) "" nowhere
  | UnaryOp op e _ _ => UnaryOp op (sql_meaning e) "" nowhere
  | FunctionCall name args d _ _ =>
      FunctionCall (sql_name name) (map sql_meaning args) d "" nowhere
  | _ => e
  end.

(** A text an expression can be followed by. *)
Definition delimited (rest : string) : Prop :=
  match rest with
  | EmptyString => True
  | String c _ => c = " "%char ∨ c = ")"%char ∨ c = ","%char
  end.

Lemma span_chars_app p w rest :
  all_chars p w = true →
  match rest with String c _ => p c = false | EmptyString => True end →
  span_chars p (w +:+ rest) = (w, rest).
Proof.
  intros Hw Hr. induction w as [|c w IH].
  - rewrite string_app_nil_l. destruct rest as [|c r]; [done|]. cbn. by rewrite Hr.
  - cbn in Hw. apply andb_prop in Hw as [Hc Hw]. rewrite string_app_cons. cbn.
    by rewrite Hc, IH.
Qed.

Lemma span_digits_chars s : span_digits s = span_chars isdigit s.
Proof. induction s as [|c s IH]; [done|]. cbn. by rewrite IH. Qed.

Lemma char_implies (p q : ascii → bool) :
  forallb (λ c, implb (p c) (q c)) all_ascii = true → ∀ c, p c = true → q c = true.
Proof.
  intros H c Hc. pose proof (ascii_forallb _ H c) as Hi. cbn in Hi. rewrite Hc in Hi. done.
Qed.

Ltac by_char_implies :=
  match goal with
  | |- ?p ?c = true → ?q = true =>
      let f := eval pattern c in q in
      match f with ?q' _ => apply (char_implies p q') end
  end; vm_compute; reflexivity.

Lemma word_is_name c : word_char c = true → name_char c = true.
Proof. by_char_implies. Qed.
Lemma call_is_name c : call_char c = true → name_char c = true.
Proof. by_char_implies. Qed.
Lemma word_not_dot c : word_char c = true → negb (bool_decide (c = "."%char)) = true.
Proof. by_char_implies. Qed.
Lemma name_not_space c : name_char c = true → not_space c = true.
Proof. by_char_implies. Qed.

(** The first character of a name is no other start of an expression. *)
Definition other_start (c : ascii) : bool :=
  bool_decide (c = quote) || bool_decide (c = "-"%char) || bool_decide (c = "("%char) ||
  isdigit c || bool_decide (c = ")"%char).

Lemma name_start_only c : name_start c = true → negb (other_start c) = true.
Proof. by_char_implies. Qed.
Lemma name_start_name c : name_start c = true → name_char c = true.
Proof. by_char_implies. Qed.

Lemma delimited_not_name rest p :
  p " "%char = false → p ")"%char = false → p ","%char = false → delimited rest →
  match rest with String c _ => p c = false | EmptyString => True end.
Proof. destruct rest as [|c r]; [done|]. by intros H1 H2 H3 [->|[->| ->]]. Qed.

Lemma read_sql_digits fuel n rest :
  (0 ≤ n)%Z → delimited rest →
  read_sql (S fuel) (dec_unsigned n +:+ rest) = Some (Literal (LInt n) nowhere, rest).
Proof.
  intros Hn Hr. destruct (dec_unsigned_digits n Hn) as [Hd Hne].
  pose proof (dec_value_unsigned n Hn) as Hv.
  destruct (dec_unsigned n) as [|c s] eqn:E; [done|].
  assert (isdigit c = true) as Hc by (by cbn in Hd; apply andb_prop in Hd as [? _]).
  assert (span_digits (String c s +:+ rest) = (String c s, rest)) as Hspan.
  { rewrite span_digits_chars. apply span_chars_app; [done|]. by apply delimited_not_name. }
  rewrite string_app_cons in *. cbn [read_sql].
  destruct (ascii_dec c quote) as [->|]; [done|].
  destruct (ascii_dec c "-") as [->|]; [done|].
  destruct (ascii_dec c "(") as [->|]; [done|].
  rewrite Hc, Hspan. by rewrite Hv.
Qed.

Lemma read_sql_name fuel w rest :
  starts_name w = true → all_chars name_char w = true →
  match rest with String c _ => name_char c = false | EmptyString => True end →
  read_sql (S fuel) (w +:+ rest) = read_named (read_sql fuel) fuel w rest.
Proof.
  intros Hs Hw Hr. destruct w as [|c w]; [done|]. cbn in Hs.
  pose proof (span_chars_app _ _ _ Hw Hr) as Hspan. rewrite string_app_cons in *.
  pose proof (name_start_only c Hs) as Ho. unfold other_start in Ho.
  rewrite !negb_orb in Ho. repeat (apply andb_prop in Ho as [Ho ?]).
  repeat match goal with H : negb _ = true |- _ => apply negb_true_iff in H end.
  repeat match goal with H : bool_decide _ = false |- _ => apply bool_decide_eq_false in H end.
  cbn [read_sql].
  destruct (ascii_dec c quote); [done|]. destruct (ascii_dec c "-"); [done|].
  destruct (ascii_dec c "("); [done|].
  match goal with H : isdigit c = false |- _ => rewrite H end. by rewrite Hspan.
Qed.

(** ** Names *)

Lemma word_parts w : word w = true → starts_name w = true ∧ all_chars word_char w = true.
Proof. intros H. by apply andb_prop in H. Qed.

Lemma word_name w : all_chars word_char w = true → all_chars name_char w = true.
Proof. apply all_chars_impl, word_is_name. Qed.

Lemma split_dot_word w : all_chars word_char w = true → split_dot w = None.
Proof.
  induction w as [|c w IH]; [done|]. cbn. intros H. apply andb_prop in H as [Hc Hw].
  destruct (ascii_dec c ".") as [->|]; [done|]. by rewrite IH.
Qed.

Lemma split_dot_qualified t c :
  all_chars word_char t = true → split_dot (t +:+ "." +:+ c) = Some (t, c).
Proof.
  intros Ht. induction t as [|a t IH]; [done|]. rewrite string_app_cons. cbn in Ht |- *.
  apply andb_prop in Ht as [Ha Ht]. destruct (ascii_dec a ".") as [->|]; [done|].
  by rewrite IH.
Qed.

Lemma word_not_star c : word c = true → (c =? "*") = false.
Proof.
  intros H. apply String.eqb_neq. intros ->. discriminate H.
Qed.

Definition column_text_of (t c : string) : string := if_set t (t +:+ ".") +:+ c.

Lemma qualified_not_null t c : (t +:+ "." +:+ c =? "NULL") = false.
Proof.
  apply String.eqb_neq. intros H. apply (f_equal (all_chars word_char)) in H.
  rewrite all_chars_app in H. cbn in H. by rewrite andb_false_r in H.
Qed.

Lemma named_column t c :
  qualifier t = true → word c = true → c ≠ "NULL" →
  named (column_text_of t c) = ColumnRef t c "" nowhere.
Proof.
  intros Ht Hc Hn. unfold column_text_of, if_set, named. unfold qualifier in Ht.
  pose proof (word_parts c Hc) as [_ Hcw].
  destruct (String.eqb_spec t "") as [->|Hne]; cbn [orb] in Ht.
  - rewrite string_app_nil_l. apply String.eqb_neq in Hn as ->.
    by rewrite split_dot_word, word_not_star.
  - apply word_parts in Ht as [_ Ht]. rewrite string_app_assoc, qualified_not_null.
    by rewrite split_dot_qualified, word_not_star.
Qed.

Lemma column_text_name t c :
  qualifier t = true → word c = true →
  starts_name (column_text_of t c) = true ∧ all_chars name_char (column_text_of t c) = true.
Proof.
  intros Ht Hc. unfold column_text_of, if_set, qualifier in *.
  apply word_parts in Hc as [Hs Hc]. apply word_name in Hc.
  destruct (String.eqb_spec t "") as [->|Hne]; cbn [orb] in Ht; [by rewrite string_app_nil_l|].
  apply word_parts in Ht as [Hts Ht]. apply word_name in Ht.
  rewrite string_app_assoc, !all_chars_app, Ht, Hc. split; [|done].
  by destruct t.
Qed.

Definition wildcard_text (t : string) : string := if t =? "" then "*" else t +:+ ".*".

Lemma read_wildcard fuel t rest :
  qualifier t = true → delimited rest →
  read_sql (S fuel) (wildcard_text t +:+ rest) = Some (Wildcard t "" nowhere, rest).
Proof.
  intros Ht Hr. unfold wildcard_text, qualifier in *.
  assert (drop_prefix "(" rest = None) as Hparen.
  { destruct rest as [|a r]; [done|]. by destruct Hr as [->|[->| ->]]. }
  destruct (String.eqb_spec t "") as [->|Hne]; cbn [orb] in Ht.
  - rewrite string_app_cons, string_app_nil_l. cbn [read_sql].
    destruct (ascii_dec "*" quote); [done|]. destruct (ascii_dec "*" "-"); [done|].
    destruct (ascii_dec "*" "("); [done|]. change (isdigit "*") with false. cbn iota.
    pose proof (span_chars_app name_char "*" rest eq_refl
      (delimited_not_name rest name_char eq_refl eq_refl eq_refl Hr)) as Hs.
    rewrite string_app_cons, string_app_nil_l in Hs. rewrite Hs.
    unfold read_named. by rewrite Hparen.
  - apply word_parts in Ht as [Hts Ht].
    rewrite read_sql_name.
    + unfold read_named. rewrite Hparen. unfold named.
      replace (t +:+ ".*") with (t +:+ "." +:+ "*") by done.
      by rewrite qualified_not_null, split_dot_qualified.
    + by destruct t.
    + rewrite all_chars_app, (word_name t Ht). done.
    + by apply delimited_not_name.
Qed.

Lemma read_column fuel t c rest :
  qualifier t = true → word c = true → c ≠ "NULL" → delimited rest →
  read_sql (S fuel) (column_text_of t c +:+ rest) = Some (ColumnRef t c "" nowhere, rest).
Proof.
  intros Ht Hc Hn Hr. destruct (column_text_name t c Ht Hc) as [Hs Hw].
  rewrite read_sql_name by (done || by apply delimited_not_name). unfold read_named.
  assert (drop_prefix "(" rest = None) as ->.
  { destruct rest as [|a r]; [done|]. by destruct Hr as [->|[->| ->]]. }
  by rewrite named_column.
Qed.

(** ** Operators and calls *)

(** A text that begins with [NOT ] begins with the word NOT. *)
Lemma drop_not w rest :
  all_chars not_space w = true → w ≠ "NOT" →
  match rest with String c _ => c = " "%char ∨ c = "("%char | EmptyString => False end →
  starts_name w = true →
  drop_prefix "NOT " (w +:+ rest) = None.
Proof.
  intros Hw Hn Hr Hs. destruct rest as [|d rest]; [done|].
  destruct w as [|c1 [|c2 [|c3 [|c4 w]]]]; [done|..];
    rewrite ?string_app_cons, ?string_app_nil_l; cbn [drop_prefix];
    repeat match goal with |- context [ascii_dec ?a ?b] => destruct (ascii_dec a b) as [<-|]; try done end;
    try (by destruct Hr).
Qed.

Lemma name_no_space w : all_chars name_char w = true → all_chars not_space w = true.
Proof. apply all_chars_impl, name_not_space. Qed.

Lemma read_op op fuel_rest :
  all_chars not_space op = true →
  span_chars not_space (op +:+ " " +:+ fuel_rest) = (op, " " +:+ fuel_rest).
Proof. intros H. by apply span_chars_app. Qed.

(** The text of an operand does not look like a NOT. *)
Lemma text_not_NOT e rest :
  sql_ok e = true → drop_prefix "NOT " (genExpr e +:+ " " +:+ rest) = None.
Proof.
  intros H. destruct e as [v p|t c a p|t a p|op l r a p|op e a p|name args d a p|f|s];
    try done; cbn [sql_ok] in H.
  - cbn [genExpr literal_text].
    destruct v as [z|d|s| |b]; [|done|by cbn [literal_text]; rewrite quoteString_text|done|by destruct b].
    cbn [literal_text]. unfold dec_signed. destruct (z <? 0)%Z eqn:Hz; [done|].
    apply Z.ltb_ge in Hz. destruct (dec_unsigned_digits z Hz) as [Hd Hne].
    destruct (dec_unsigned z) as [|ch s]; [done|]. cbn in Hd.
    apply andb_prop in Hd as [Hd _]. rewrite string_app_cons. cbn [drop_prefix].
    by destruct (ascii_dec "N" ch) as [<-|].
  - repeat (apply andb_prop in H as [H ?]).
    repeat match goal with H : negb _ = true |- _ => apply negb_true_iff, String.eqb_neq in H end.
    change (genExpr (ColumnRef t c a p)) with (column_text_of t c).
    destruct (column_text_name t c) as [Hs Hw]; [done|done|].
    apply drop_not; [by apply name_no_space| |by left|done].
    unfold column_text_of, if_set. destruct (t =? "") eqn:Et; [done|].
    intros Heq. apply (f_equal (all_chars word_char)) in Heq.
    rewrite !all_chars_app in Heq. cbn in Heq. by rewrite !andb_false_r in Heq.
  - change (genExpr (Wildcard t a p)) with (wildcard_text t). unfold wildcard_text, qualifier in *.
    destruct (t =? "") eqn:Et; [done|]. cbn [orb] in H. apply word_parts in H as [Hs Hw].
    apply drop_not.
    + rewrite all_chars_app, name_no_space; [done|by apply word_name].
    + intros Heq. apply (f_equal (all_chars word_char)) in Heq.
      rewrite all_chars_app in Heq. cbn in Heq. by rewrite andb_false_r in Heq.
    + by left.
    + by destruct t.
  - cbn [genExpr]. destruct (op =? "NOT"); by rewrite string_app_cons.
  - cbn [genExpr]. unfold genFunctionCall. apply andb_prop in H as [Hc _].
    apply andb_prop in Hc as [Hs Hc]. rewrite string_app_assoc.
    destruct (String.eqb_spec (sql_name name) "NOT") as [->|Hn]; [done|].
    apply drop_not; [|done|by right|done].
    apply name_no_space. by eapply all_chars_impl; [apply call_is_name|].
Qed.

(** ** The expressions *)

Definition reads (e : Node) : Prop :=
  sql_ok e = true → ∀ fuel rest, (2 * node_size e ≤ fuel)%nat → delimited rest →
  read_sql fuel (genExpr e +:+ rest) = Some (sql_meaning e, rest).

Lemma read_literal v p : reads (Literal v p).
Proof.
  intros H [|[|fuel]] rest Hf Hr; cbn [node_size] in Hf; [lia..|].
  destruct v as [z|d|s| |b]; [|done|..].
  - cbn [genExpr literal_text sql_meaning]. unfold dec_signed.
    destruct (z <? 0)%Z eqn:Hz.
    + apply Z.ltb_lt in Hz. rewrite string_app_cons.
      change (read_sql (S (S fuel)) (String "-" (dec_unsigned (- z) +:+ rest))) with
        match read_sql (S fuel) (dec_unsigned (- z) +:+ rest) with
        | Some (e, rest) => Some (UnaryOp "-" e "" nowhere, rest)
        | None => None
        end.
      by rewrite read_sql_digits by (lia || done).
    + apply Z.ltb_ge in Hz. by apply read_sql_digits.
  - cbn [genExpr literal_text]. rewrite quoteString_text. cbn [read_sql].
    destruct (ascii_dec quote quote); [|done]. rewrite read_double_quotes; [done|].
    intros r ->. by destruct Hr as [?|[?|?]].
  - cbn [genExpr literal_text]. rewrite read_sql_name; [|done..|by apply delimited_not_name].
    unfold read_named. destruct rest as [|a r]; [done|]. by destruct Hr as [->|[->| ->]].
  - cbn [genExpr literal_text sql_meaning].
    destruct b; [apply (read_sql_digits _ 1)|apply (read_sql_digits _ 0)]; lia || done.
Qed.

Lemma read_paren fuel s :
  read_sql (S fuel) ("(" +:+ s) = read_group (read_sql fuel) s.
Proof. done. Qed.

Lemma read_binary op l r a p : reads l → reads r → reads (BinaryOp op l r a p).
Proof.
  intros Hl Hr H [|fuel] rest Hf Hd; cbn [node_size] in Hf; [lia|].
  cbn [sql_ok] in H. repeat (apply andb_prop in H as [H ?]).
  cbn [genExpr sql_meaning]. rewrite !string_app_assoc, read_paren. unfold read_group.
  rewrite text_not_NOT by done. rewrite Hl by (done || lia || by left).
  rewrite string_app_cons, string_app_nil_l. cbn [drop_prefix].
  destruct (ascii_dec ")" " "); [done|]. destruct (ascii_dec " " " "); [|done].
  rewrite read_op by done. rewrite string_app_cons, string_app_nil_l. cbn [drop_prefix].
  destruct (ascii_dec " " " "); [|done].
  rewrite Hr by (done || lia || by right; left).
  rewrite string_app_cons, string_app_nil_l. cbn [drop_prefix].
  by destruct (ascii_dec ")" ")").
Qed.

Lemma read_unary op e a p : reads e → reads (UnaryOp op e a p).
Proof.
  intros He H [|[|fuel]] rest Hf Hd; cbn [node_size] in Hf; [lia..|].
  cbn [sql_ok] in H. apply andb_prop in H as [Hop H]. cbn [genExpr sql_meaning].
  destruct (String.eqb_spec op "NOT") as [->|_]; cbn [orb] in Hop.
  - rewrite !string_app_assoc.
    change ("(NOT " +:+ genExpr e +:+ ")" +:+ rest) with
      ("(" +:+ "NOT " +:+ genExpr e +:+ ")" +:+ rest).
    rewrite read_paren. unfold read_group.
    change (drop_prefix "NOT " ("NOT " +:+ genExpr e +:+ ")" +:+ rest)) with
      (Some (genExpr e +:+ ")" +:+ rest)). cbn iota.
    rewrite He by (done || lia || by right; left).
    rewrite string_app_cons, string_app_nil_l. cbn [drop_prefix].
    by destruct (ascii_dec ")" ")").
  - apply andb_prop in Hop as [->%String.eqb_eq _]. rewrite !string_app_assoc, read_paren.
    unfold read_group. change (drop_prefix "NOT " ("-" +:+ genExpr e +:+ ")" +:+ rest)) with
      (@None string). cbn iota.
    change (read_sql (S fuel) ("-" +:+ genExpr e +:+ ")" +:+ rest)) with
      match read_sql fuel (genExpr e +:+ ")" +:+ rest) with
      | Some (e, rest) => Some (UnaryOp "-" e "" nowhere, rest)
      | None => None
      end.
    rewrite He by (done || lia || by right; left).
    rewrite string_app_cons, string_app_nil_l. cbn [drop_prefix].
    by destruct (ascii_dec ")" ")").
Qed.

(** A word is not the keyword [q] and a space when no space follows it. *)
Lemma drop_keyword q w c r :
  all_chars isalnum q = true → all_chars not_space w = true →
  c = ","%char ∨ c = ")"%char ∨ c = "("%char →
  drop_prefix (q +:+ " ") (w +:+ String c r) = None.
Proof.
  intros Hq Hw Hc. revert w Hw. induction q as [|b q IH]; intros [|a w] Hw;
    rewrite ?string_app_cons, ?string_app_nil_l; cbn [drop_prefix].
  - destruct (ascii_dec " " c) as [<-|]; [|done]. by destruct Hc as [|[|]].
  - cbn in Hw. by destruct (ascii_dec " " a) as [<-|].
  - destruct (ascii_dec b c) as [->|]; [|done]. cbn in Hq.
    by destruct Hc as [->|[->| ->]].
  - cbn in Hq, Hw. apply andb_prop in Hq as [_ Hq]. apply andb_prop in Hw as [_ Hw].
    destruct (ascii_dec b a); [|done]. by apply IH.
Qed.

(** An operand that is not a name starts with a sign, a digit, a quote or a
    parenthesis. *)
Lemma text_of_operand e :
  sql_ok e = true →
  (∃ w, starts_name w = true ∧ all_chars name_char w = true ∧
        (genExpr e = w ∨ ∃ t, genExpr e = w +:+ "(" +:+ t)) ∨
  (∃ c t, genExpr e = String c t ∧
          (c = quote ∨ c = "-"%char ∨ c = "("%char ∨ c = "*"%char ∨ isdigit c = true)).
Proof.
  intros H. destruct e as [v p|t c a p|t a p|op l r a p|op e a p|name args d a p|f|s];
    try done; cbn [sql_ok] in H.
  - cbn [genExpr]. destruct v as [z|d|s| |b]; [|done|..]; cbn [literal_text].
    + right. unfold dec_signed. destruct (z <? 0)%Z eqn:Hz; [by eauto 10|].
      apply Z.ltb_ge in Hz. destruct (dec_unsigned_digits z Hz) as [Hd Hne].
      destruct (dec_unsigned z) as [|c s]; [done|]. cbn in Hd.
      apply andb_prop in Hd as [Hd _]. by eauto 10.
    + right. exists quote, (double_quotes s +:+ "'"). auto.
    + left. exists "NULL". auto.
    + right. destruct b; [exists "1"%char|exists "0"%char]; exists ""; auto 10.
  - repeat (apply andb_prop in H as [H ?]). left. exists (column_text_of t c).
    destruct (column_text_name t c); auto.
  - cbn [genExpr]. unfold qualifier in H. destruct (t =? "") eqn:Et; cbn [orb] in H.
    + right. exists "*"%char, "". auto 10.
    + left. apply word_parts in H as [Hs Hw]. exists (t +:+ ".*"). split; [by destruct t|].
      split; [|auto]. rewrite all_chars_app, word_name by done. done.
  - right. cbn [genExpr]. rewrite string_app_cons. eauto 10.
  - right. cbn [genExpr]. destruct (op =? "NOT"); rewrite string_app_cons; eauto 10.
  - left. cbn [genExpr]. unfold genFunctionCall. apply andb_prop in H as [Hc _].
    apply andb_prop in Hc as [Hs Hc]. exists (sql_name name). split; [done|].
    split; [eapply all_chars_impl; [apply call_is_name|done]|]. right. eauto.
Qed.

(** A text that goes on after an argument. *)
Definition after_argument (rest : string) : Prop :=
  ∃ c r, rest = String c r ∧ (c = ","%char ∨ c = ")"%char).

Lemma after_delimited rest : after_argument rest → delimited rest.
Proof. intros (c & r & -> & [->| ->]); [by right; right|by right; left]. Qed.

Lemma argument_keyword e rest :
  sql_ok e = true → after_argument rest →
  drop_prefix "DISTINCT " (genExpr e +:+ rest) = None ∧
  drop_prefix ")" (genExpr e +:+ rest) = None.
Proof.
  intros H (d & r & -> & Hd). change "DISTINCT " with ("DISTINCT" +:+ " ").
  destruct (text_of_operand e H) as [(w & Hs & Hw & Ht)|(c & t & -> & Hc)].
  - split.
    + apply name_no_space in Hw. destruct Ht as [->|[t ->]].
      * apply (drop_keyword "DISTINCT" w d r); naive_solver.
      * rewrite !string_app_assoc. apply (drop_keyword "DISTINCT" w "("); auto.
    + assert (∃ c t, genExpr e = String c t ∧ name_start c = true) as (c & t & -> & Hc).
      { destruct w as [|c w]; [done|]. destruct Ht as [->|[t ->]]; [by eauto|].
        rewrite string_app_cons. eauto. }
      rewrite string_app_cons. cbn [drop_prefix]. by destruct (ascii_dec ")" c) as [<-|].
  - rewrite !string_app_cons. split; cbn [drop_prefix];
      match goal with |- context [ascii_dec ?a c] => destruct (ascii_dec a c) as [<-|] end;
      try done; by destruct Hc as [|[|[|[|]]]].
Qed.

(** The arguments after the first. *)
Fixpoint more_text (args : list Node) : string :=
  match args with [] => "" | e :: es => ", " +:+ genExpr e +:+ more_text es end.

Lemma joinWith_args e es : joinWith (map genExpr (e :: es)) ", " = genExpr e +:+ more_text es.
Proof.
  revert e. induction es as [|e' es IH]; intros e; [by cbn; rewrite string_app_nil_r|].
  change (joinWith (map genExpr (e :: e' :: es)) ", ") with
    (genExpr e +:+ ", " +:+ joinWith (map genExpr (e' :: es)) ", ").
  by rewrite IH.
Qed.

Lemma more_after es rest : after_argument (more_text es +:+ ")" +:+ rest).
Proof.
  destruct es as [|e es]; [exists ")"%char, rest; auto|].
  cbn [more_text]. rewrite !string_app_cons. exists ","%char. eauto.
Qed.

Lemma read_more_text fuel k es rest :
  Forall reads es → forallb sql_ok es = true → (2 * sum (map node_size es) ≤ fuel)%nat →
  (length es < k)%nat →
  read_more (read_sql fuel) k (more_text es +:+ ")" +:+ rest) = Some (map sql_meaning es, rest).
Proof.
  intros Hr. revert k. induction Hr as [|e es He _ IH]; intros [|k] Hok Hf Hk; try done;
    try (cbn in Hk; lia).
  cbn in Hok, Hf, Hk. apply andb_prop in Hok as [Hoke Hok]. cbn [more_text].
  rewrite !string_app_assoc. cbn [read_more].
  change (drop_prefix ")" (", " +:+ genExpr e +:+ more_text es +:+ ")" +:+ rest)) with
    (@None string).
  change (drop_prefix ", " (", " +:+ genExpr e +:+ more_text es +:+ ")" +:+ rest)) with
    (Some (genExpr e +:+ more_text es +:+ ")" +:+ rest)). cbn iota.
  rewrite He by (done || lia || apply after_delimited, more_after).
  by rewrite IH by (done || lia).
Qed.

Lemma length_le_sum es : (length es ≤ sum (map node_size es))%nat.
Proof. induction es as [|e es IH]; [done|]. cbn. destruct e; cbn; lia. Qed.

Lemma read_args_text fuel args rest :
  Forall reads args → forallb sql_ok args = true → (2 * sum (map node_size args) ≤ fuel)%nat →
  (0 < fuel)%nat →
  read_args (read_sql fuel) fuel (joinWith (map genExpr args) ", " +:+ ")" +:+ rest) =
  Some (map sql_meaning args, rest).
Proof.
  intros Hr Hok Hf H0. destruct Hr as [|e es He Hes]; [done|].
  cbn in Hok, Hf. apply andb_prop in Hok as [Hoke Hok].
  rewrite joinWith_args, string_app_assoc. unfold read_args.
  rewrite (proj2 (argument_keyword e _ Hoke (more_after es rest))).
  rewrite He by (done || lia || apply after_delimited, more_after).
  pose proof (length_le_sum es). destruct e; cbn in Hf; by rewrite read_more_text by (done || lia).
Qed.

Lemma args_keyword args rest :
  forallb sql_ok args = true →
  drop_prefix "DISTINCT " (joinWith (map genExpr args) ", " +:+ ")" +:+ rest) = None.
Proof.
  destruct args as [|e es]; [done|]. cbn [forallb]. intros H. apply andb_prop in H as [H _].
  rewrite joinWith_args, string_app_assoc. apply argument_keyword; [done|apply more_after].
Qed.

Lemma read_call name args d a p : Forall reads args → reads (FunctionCall name args d a p).
Proof.
  intros Hr H [|fuel] rest Hf Hd; rewrite node_size_children in Hf; cbn [children] in Hf; [lia|].
  cbn [sql_ok] in H. apply andb_prop in H as [Hc Hok]. apply andb_prop in Hc as [Hs Hc].
  cbn [genExpr sql_meaning]. unfold genFunctionCall. rewrite !string_app_assoc.
  rewrite read_sql_name; [|done|by eapply all_chars_impl; [apply call_is_name|]|done].
  unfold read_named.
  change (drop_prefix "(" ("(" +:+ ?s)) with (Some s).
  cbn iota. destruct d.
  - change (drop_prefix "DISTINCT " ("DISTINCT " +:+ ?s)) with (Some s). cbn iota.
    by rewrite read_args_text by (done || lia).
  - rewrite string_app_nil_l, args_keyword by done. by rewrite read_args_text by (done || lia).
Qed.

Lemma expression_reads e : reads e.
Proof.
  induction e as [e IH] using Node_children_ind.
  destruct e as [v p|t c a p|t a p|op l r a p|op e a p|name args d a p|f|s]; cbn in IH.
  - apply read_literal.
  - intros H [|fuel] rest Hf Hr; cbn in Hf; [lia|]. cbn [sql_ok] in H.
    repeat (apply andb_prop in H as [H ?]).
    match goal with H : negb (c =? "NULL") = true |- _ =>
      apply negb_true_iff, String.eqb_neq in H end.
    by apply read_column.
  - intros H [|fuel] rest Hf Hr; cbn in Hf; [lia|]. by apply read_wildcard.
  - apply read_binary; apply IH; set_solver.
  - apply read_unary; apply IH; set_solver.
  - apply read_call. apply Forall_forall. intros x Hx. by apply IH.
  - done.
  - done.
Qed.

(** * Theorems *)

(** A string literal means the string.  Whatever characters it has, quotes
    included, the quoted text of a string reads back as that string and ends
    where the generator ended it, when no quote follows. *)
Theorem quoteString_reads_back (s rest : string) :
  no_quote rest →
  ∃ t, quoteString s +:+ rest = String quote t ∧ read_quoted t = Some (s, rest).
Proof.
  intros Hr. eexists. split; [apply quoteString_text|]. by apply read_double_quotes.
Qed.

Example quoteString_reads_back_witness :
  ∃ t, quoteString "it's" +:+ ")" = String quote t ∧ read_quoted t = Some ("it's", ")").
Proof. apply (quoteString_reads_back "it's" ")"). intros r H. discriminate H. Defined.

(** C39: The text of an expression determines the expression.  Reading the SQL of
    an expression without FLOAT literal, window or subquery gives the expression
    again with its operators nested as they were: the parentheses are enough
    whatever SQL's precedences are, and no operand is lost.  Two expressions with
    one text differ at most in what [sql_meaning] identifies: aliases, positions,
    the names of functions that SQL does not tell apart, true and 1, false and 0,
    a negative literal and the negation of a literal. *)
Theorem genExpr_reads_back (e : Node) :
  sql_ok e = true → read_sql (2 * node_size e) (genExpr e) = Some (sql_meaning e, "").
Proof.
  intros H. rewrite <- (string_app_nil_r (genExpr e)). by apply expression_reads.
Qed.

Example genExpr_reads_back_witness :
  let at_ := Loc 1 1 in
  let e := BinaryOp "*" (BinaryOp "+" (ColumnRef "t" "x" "" at_) (Literal (LInt (-1)) at_) "" at_)
             (FunctionCall "stack" [ColumnRef "" "y" "" at_; Literal (LString "it's") at_] true
                "s" at_) "" at_ in
  genExpr e = "((t.x + -1) * SUM(DISTINCT y, 'it''s'))" ∧
  read_sql (2 * node_size e) (genExpr e) = Some (sql_meaning e, "").
Proof. cbn zeta. split; [vm_compute; reflexivity|]. apply genExpr_reads_back. vm_compute. reflexivity. Defined.

(** A FLOAT literal does not survive code generation: it is printed with six
    significant digits, so 16777217.0 becomes 1.67772e+07, which SQL reads as
    16777200.0. *)
Theorem float_literal_loses_digits (p : loc) :
  stod "16777217.0" = Ok (of_int 16777217) ∧
  genExpr (Literal (LFloat (of_int 16777217)) p) = "1.67772e+07" ∧
  stod "1.67772e+07" = Ok (of_int 16777200).
Proof. vm_compute. auto. Qed.

(** ** Comments *)

Definition newline : ascii := "010"%char.

(** What SQL executes of a text that starts with a comment: what follows the
    first line break. *)
Fixpoint after_line (s : string) : string :=
  match s with
  | EmptyString => ""
  | String c s => if ascii_dec c newline then s else after_line s
  end.

Definition one_line (s : string) : bool := all_chars (λ c, negb (bool_decide (c = newline))) s.

Lemma after_line_app s t : one_line s = true → after_line (s +:+ t) = after_line t.
Proof.
  unfold one_line. induction s as [|c s IH]; [done|]. rewrite string_app_cons. cbn.
  intros H. apply andb_prop in H as [Hc Hs]. apply negb_true_iff, bool_decide_eq_false in Hc.
  destruct (ascii_dec c newline); [done|]. by apply IH.
Qed.

Lemma after_line_none s : one_line s = true → after_line s = "".
Proof. intros H. rewrite <- (string_app_nil_r s). by rewrite after_line_app. Qed.

Lemma dec_digits_one_line fuel n acc :
  (0 ≤ n < 2 ^ Z.of_nat fuel)%Z →
  one_line acc = true → one_line (dec_digits fuel n acc) = true.
Proof.
  intros Hn Hacc. destruct (dec_digits_spec fuel n acc Hn) as (s & -> & Hs & _).
  unfold one_line. rewrite all_chars_app. unfold one_line in Hacc. rewrite Hacc, andb_true_r.
  eapply all_chars_impl; [|exact Hs].
  apply (char_implies isdigit (λ c, negb (bool_decide (c = newline)))). vm_compute. reflexivity.
Qed.

Lemma double_quotes_one_line s : one_line s = true → one_line (double_quotes s) = true.
Proof.
  unfold one_line. induction s as [|c s IH]; [done|]. cbn. intros H.
  apply andb_prop in H as [Hc Hs]. destruct (ascii_dec c quote) as [->|]; cbn.
  - by apply IH.
  - by rewrite Hc, IH.
Qed.

Lemma double_quotes_app s t : double_quotes (s +:+ t) = double_quotes s +:+ double_quotes t.
Proof.
  induction s as [|c s IH]; [done|]. rewrite string_app_cons. cbn [double_quotes].
  destruct (ascii_dec c quote); by rewrite IH, ?string_app_cons.
Qed.

(** The statements SQL does not know become comments, and a comment ends at a
    line break.  Of a memory whose speaker has a line break, everything
    the speaker says after it is outside of the comment: SQL executes the
    user's text. *)
Theorem comment_ends_at_line_break s first payload :
  (0 ≤ am_messageId s)%Z → one_line (am_context s) = true → one_line first = true →
  am_speaker s = first +:+ String newline payload → am_autoTab s = false → am_tab s = "" →
  after_line (genAppendMemory s) = double_quotes payload +:+ "'".
Proof.
  intros Hid Hctx Hf Hs Ha Ht. unfold genAppendMemory. rewrite Ha, Ht, Hs. cbn [if_set String.eqb].
  assert (one_line (dec_unsigned (am_messageId s)) = true) as Hm.
  { unfold dec_unsigned. apply dec_digits_one_line; [|done]. split; [done|]. by apply log2_fuel. }
  do 5 (rewrite after_line_app by done).
  unfold quoteString. rewrite double_quotes_app, !string_app_assoc, after_line_app by done.
  rewrite after_line_app by (by apply double_quotes_one_line).
  change (double_quotes (String newline payload)) with (String newline (double_quotes payload)).
  rewrite string_app_cons. cbn [after_line]. destruct (ascii_dec newline newline); [|done].
  by rewrite !string_app_nil_r.
Qed.

Example comment_ends_at_line_break_witness :
  after_line (genAppendMemory (mkAppendMemory "chat" 1
    ("eve" +:+ String newline "DROP TABLE users; --") "hi" "" false (Loc 1 1))) =
  "DROP TABLE users; --'".
Proof.
  refine (comment_ends_at_line_break _ "eve" "DROP TABLE users; --" _ _ _ _ _ _); try reflexivity.
  discriminate.
Defined.
