(* ===== verification/Cache.v ===== *)
(** The compilation cache: [src/cache.h] and [src/cache.cpp].  The cache is a list
    of entries, the most recently used first, and a hash multimap from the hash
    of a key to the list node of its entry.  A list node is a number, given out
    in order; the multimap is a list of pairs, in the order a walk of one bucket
    meets them.  The capacities of strings and vectors and the sizes of the
    structures, which the implementation chooses, are parameters.

    The file shows that list and multimap agree after any calls, that the limits
    hold, and that the cache is a bounded list of the most recent entries. *)

From S2P Require Import Prelude.
From S2P Require Import Hash.
From S2P Require Import Ast.

#[local] Set Warnings "-register-all".

Record CachedStatement : Type := mkCachedStatement {
  cst_sql : string;
  cst_optimizationNotes : list string;
  cst_schemaChanging : bool;
  cst_ast : Stmt;
}.

(** [CachedCompilation::statements]; a handle shares an immutable one. *)
Definition CachedCompilation : Type := list CachedStatement.

Record Entry : Type := mkEntry {
  e_source : string;
  e_schemaFingerprint : Z;
  e_hash : Z;
  e_value : CachedCompilation;
  e_bytes : Z;
}.

Record CompilationCache : Type := mkCache {
  maxEntries_ : Z;
  maxBytes_ : Z;
  bytes_ : Z;
  hits_ : Z;
  misses_ : Z;
  evictions_ : Z;
  lru_ : list (nat * Entry);
  entries_ : list (Z * nat);
  next_node : nat;
}.

Definition newCache (maxEntries maxBytes : Z) : CompilationCache :=
  mkCache maxEntries maxBytes 0 0 0 0 [] [] 0.

(** The eight bytes of the fingerprint, the lowest first. *)
Definition hashKey (source : string) (schemaFingerprint : Z) : Z :=
  fold_left (λ hash shift,
      fnv1a64AppendByte hash (byte.of_Z (Z.land (Z.shiftr schemaFingerprint shift) 0xff)))
    [0; 8; 16; 24; 32; 40; 48; 56] (fnv1a64 (bytes_of source)).

#[global] Arguments hashKey : simpl never.

Section Cache.
Context (string_capacity : string → Z) (notes_capacity : list string → Z).
Context (sizeof_Entry sizeof_string : Z).

Definition statement_bytes (bytes : Z) (statement : CachedStatement) : Z :=
  let bytes := wrap64 (bytes + (string_capacity (cst_sql statement) + 1)) in
  let bytes :=
    wrap64 (bytes + notes_capacity (cst_optimizationNotes statement) * sizeof_string) in
  fold_left (λ bytes note, wrap64 (bytes + (string_capacity note + 1)))
    (cst_optimizationNotes statement) bytes.

Definition estimateBytes (source : string) (value : CachedCompilation) : Z :=
  fold_left statement_bytes value (wrap64 (string_capacity source + 1 + sizeof_Entry)).

Definition matches (source : string) (schemaFingerprint : Z) (e : Entry) : bool :=
  bool_decide (e_schemaFingerprint e = schemaFingerprint) &&
  bool_decide (e_source e = source).

Definition node (n : nat) (lru : list (nat * Entry)) : option Entry :=
  snd <$> List.find (λ p, bool_decide (p.1 = n)) lru.

(** The first entry of the bucket that has the key. *)
Fixpoint find_in (range : list (Z * nat)) (lru : list (nat * Entry)) (source : string)
    (schemaFingerprint hash : Z) : option (nat * Entry) :=
  match range with
  | [] => None
  | (h, n) :: range =>
      match node n lru with
      | Some e =>
          if bool_decide (h = hash) && matches source schemaFingerprint e then Some (n, e)
          else find_in range lru source schemaFingerprint hash
      | None => find_in range lru source schemaFingerprint hash
      end
  end.

Definition find (c : CompilationCache) (source : string) (schemaFingerprint hash : Z)
    : option (nat * Entry) :=
  find_in (entries_ c) (lru_ c) source schemaFingerprint hash.

Definition remove_node (n : nat) (lru : list (nat * Entry)) : list (nat * Entry) :=
  List.filter (λ p, negb (bool_decide (p.1 = n))) lru.

(** Removes the pair of the node from the bucket. *)
Fixpoint remove_index (hash : Z) (n : nat) (entries : list (Z * nat)) : list (Z * nat) :=
  match entries with
  | [] => []
  | (h, m) :: entries =>
      if bool_decide (h = hash) && bool_decide (m = n) then entries
      else (h, m) :: remove_index hash n entries
  end.

Definition erase (c : CompilationCache) (n : nat) (e : Entry) : CompilationCache :=
  mkCache (maxEntries_ c) (maxBytes_ c) (wrap64 (bytes_ c - e_bytes e)) (hits_ c) (misses_ c)
    (evictions_ c) (remove_node n (lru_ c)) (remove_index (e_hash e) n (entries_ c))
    (next_node c).

Definition count_hit (c : CompilationCache) (lru : list (nat * Entry)) : CompilationCache :=
  mkCache (maxEntries_ c) (maxBytes_ c) (bytes_ c) (wrap64 (hits_ c + 1)) (misses_ c)
    (evictions_ c) lru (entries_ c) (next_node c).
Definition count_miss (c : CompilationCache) : CompilationCache :=
  mkCache (maxEntries_ c) (maxBytes_ c) (bytes_ c) (hits_ c) (wrap64 (misses_ c + 1))
    (evictions_ c) (lru_ c) (entries_ c) (next_node c).
Definition count_eviction (c : CompilationCache) : CompilationCache :=
  mkCache (maxEntries_ c) (maxBytes_ c) (bytes_ c) (hits_ c) (misses_ c)
    (wrap64 (evictions_ c + 1)) (lru_ c) (entries_ c) (next_node c).

Definition get (c : CompilationCache) (source : string) (schemaFingerprint : Z)
    : CompilationCache * option CachedCompilation :=
  match find c source schemaFingerprint (hashKey source schemaFingerprint) with
  | None => (count_miss c, None)
  | Some (n, e) => (count_hit c ((n, e) :: remove_node n (lru_ c)), Some (e_value e))
  end.

Definition evictOldest (c : CompilationCache) : CompilationCache :=
  match last (lru_ c) with
  | None => c
  | Some (n, e) => count_eviction (erase c n e)
  end.

Definition over_limit (c : CompilationCache) : bool :=
  (maxEntries_ c <? Z.of_nat (length (entries_ c))) || (maxBytes_ c <? bytes_ c).

(** The eviction loop; [None] when the fuel does not last. *)
Fixpoint evict (fuel : nat) (c : CompilationCache) : option CompilationCache :=
  if over_limit c then
    match fuel with
    | O => None
    | S fuel => evict fuel (evictOldest c)
    end
  else Some c.

Definition push_front (c : CompilationCache) (e : Entry) : CompilationCache :=
  mkCache (maxEntries_ c) (maxBytes_ c) (wrap64 (bytes_ c + e_bytes e)) (hits_ c) (misses_ c)
    (evictions_ c) ((next_node c, e) :: lru_ c) ((e_hash e, next_node c) :: entries_ c)
    (S (next_node c)).

Definition put (c : CompilationCache) (source : string) (schemaFingerprint : Z)
    (value : CachedCompilation) : option CompilationCache :=
  if (maxEntries_ c =? 0) || (maxBytes_ c =? 0) then Some c
  else
    let hash := hashKey source schemaFingerprint in
    let c := match find c source schemaFingerprint hash with
             | Some (n, e) => erase c n e
             | None => c
             end in
    let itemBytes := estimateBytes source value in
    if maxBytes_ c <? itemBytes then Some c
    else
      let c := push_front c (mkEntry source schemaFingerprint hash value itemBytes) in
      evict (length (lru_ c)) c.

Definition clear (c : CompilationCache) : CompilationCache :=
  mkCache (maxEntries_ c) (maxBytes_ c) 0 (hits_ c) (misses_ c) (evictions_ c) [] []
    (next_node c).

Definition resetStats (c : CompilationCache) : CompilationCache :=
  mkCache (maxEntries_ c) (maxBytes_ c) (bytes_ c) 0 0 0 (lru_ c) (entries_ c) (next_node c).

Record CacheStats : Type := mkStats {
  cs_hits : Z; cs_misses : Z; cs_evictions : Z; cs_entries : Z; cs_bytes : Z;
}.
Definition stats (c : CompilationCache) : CacheStats :=
  mkStats (hits_ c) (misses_ c) (evictions_ c) (Z.of_nat (length (entries_ c))) (bytes_ c).
End Cache.

(** * The list and the multimap agree *)

Definition key (e : Entry) : string * Z := (e_source e, e_schemaFingerprint e).
Definition index_of (lru : list (nat * Entry)) : list (Z * nat) :=
  map (λ p, (e_hash p.2, p.1)) lru.
Definition contents (c : CompilationCache) : list Entry := map snd (lru_ c).
Definition total (l : list Entry) : Z := foldr (λ e t, e_bytes e + t) 0 l.

(** Everything but the limits, which [put] exceeds until it has evicted. *)
Record cache_wf (c : CompilationCache) : Prop := {
  wf_limits : 0 ≤ maxEntries_ c ∧ 0 ≤ maxBytes_ c < 2 ^ 63;
  wf_nodes : NoDup (map fst (lru_ c));
  wf_next : Forall (λ p, (p.1 < next_node c)%nat) (lru_ c);
  wf_index : entries_ c ≡ₚ index_of (lru_ c);
  wf_hash : Forall (λ e, e_hash e = hashKey (e_source e) (e_schemaFingerprint e)) (contents c);
  wf_keys : NoDup (map key (contents c));
  wf_sizes : Forall (λ e, 0 ≤ e_bytes e) (contents c);
  wf_bytes : bytes_ c = total (contents c);
  wf_total : total (contents c) < 2 ^ 64;
}.

Definition within (c : CompilationCache) : Prop :=
  Z.of_nat (length (lru_ c)) ≤ maxEntries_ c ∧ bytes_ c ≤ maxBytes_ c.

Definition cache_ok (c : CompilationCache) : Prop := cache_wf c ∧ within c.

Lemma total_nonneg l : Forall (λ e, 0 ≤ e_bytes e) l → 0 ≤ total l.
Proof. unfold total. induction 1; cbn; lia. Qed.

Lemma total_perm l l' : l ≡ₚ l' → total l = total l'.
Proof. unfold total. induction 1; cbn; lia. Qed.

Lemma node_Some n lru e : NoDup (map fst lru) → node n lru = Some e ↔ (n, e) ∈ lru.
Proof.
  unfold node. induction lru as [|[m e'] lru IH]; intros Hnd; cbn.
  { split; [done|]. intros H. by apply not_elem_of_nil in H. }
  cbn in Hnd. apply NoDup_cons in Hnd as [Hm Hnd]. case_bool_decide as Heq; cbn in *; subst.
  - split; [intros [= ->]; apply list_elem_of_here|].
    intros [[= ->]|H]%elem_of_cons; [done|]. destruct Hm.
    by apply (list_elem_of_fmap_2 fst) in H.
  - rewrite IH by done. split; [by right|]. intros [[= -> ->]|H]%elem_of_cons; [done|done].
Qed.

Lemma remove_node_perm n e lru :
  NoDup (map fst lru) → (n, e) ∈ lru → lru ≡ₚ (n, e) :: remove_node n lru.
Proof.
  induction lru as [|[m e'] lru IH]; intros Hnd H; [by apply not_elem_of_nil in H|].
  cbn in Hnd. apply NoDup_cons in Hnd as [Hm Hnd]. cbn.
  apply elem_of_cons in H as [[= <- <-]|H].
  - rewrite bool_decide_eq_true_2 by done. cbn. f_equiv.
    clear IH Hnd. induction lru as [|[m e'] lru IH]; [done|]. cbn in Hm |- *.
    apply not_elem_of_cons in Hm as [Hne Hm]. rewrite bool_decide_eq_false_2 by done. cbn.
    by rewrite <- IH.
  - rewrite bool_decide_eq_false_2; cbn.
    + rewrite IH at 1 by done. apply Permutation_swap.
    + intros ->. destruct Hm. by apply (list_elem_of_fmap_2 fst) in H.
Qed.

Lemma remove_index_perm h n entries :
  (h, n) ∈ entries → entries ≡ₚ (h, n) :: remove_index h n entries.
Proof.
  induction entries as [|[g m] entries IH]; intros H; [by apply not_elem_of_nil in H|]. cbn.
  destruct (bool_decide (g = h) && bool_decide (m = n)) eqn:E.
  - apply andb_prop in E as [->%bool_decide_eq_true ->%bool_decide_eq_true]. done.
  - apply elem_of_cons in H as [[= <- <-]|H].
    { by rewrite !bool_decide_eq_true_2 in E by done. }
    rewrite IH at 1 by done. apply Permutation_swap.
Qed.

Lemma index_elem lru n e : (n, e) ∈ lru → (e_hash e, n) ∈ index_of lru.
Proof. intros H. by apply (list_elem_of_fmap_2 (λ p, (e_hash p.2, p.1))) in H. Qed.

Lemma find_in_Some range lru s f h n e :
  NoDup (map fst lru) → find_in range lru s f h = Some (n, e) →
  (n, e) ∈ lru ∧ key e = (s, f).
Proof.
  intros Hnd. induction range as [|[g m] range IH]; [done|]. cbn.
  destruct (node m lru) as [e'|] eqn:En; [|done].
  destruct (bool_decide (g = h) && matches s f e') eqn:Em; [|done].
  intros [= <- <-]. apply node_Some in En; [|done]. split; [done|].
  apply andb_prop in Em as [_ Em].
  by apply andb_prop in Em as [<-%bool_decide_eq_true <-%bool_decide_eq_true].
Qed.

Lemma find_in_None range lru s f h n e :
  NoDup (map fst lru) → find_in range lru s f h = None →
  (h, n) ∈ range → (n, e) ∈ lru → key e ≠ (s, f).
Proof.
  intros Hnd. induction range as [|[g m] range IH]; intros H Hr He.
  { by apply not_elem_of_nil in Hr. }
  cbn in H. apply elem_of_cons in Hr as [[= <- <-]|Hr].
  - rewrite (proj2 (node_Some n lru e Hnd) He) in H.
    rewrite bool_decide_eq_true_2 in H by done. cbn in H.
    destruct (matches s f e) eqn:Em; [done|]. intros [= <- <-].
    unfold matches in Em. by rewrite !bool_decide_eq_true_2 in Em by done.
  - apply IH; [|done|done]. destruct (node m lru); [|done]. by destruct (_ && _).
Qed.

Section Wf.
Context (c : CompilationCache) (Hwf : cache_wf c).

Lemma find_Some s f n e :
  find c s f (hashKey s f) = Some (n, e) → (n, e) ∈ lru_ c ∧ key e = (s, f).
Proof. apply find_in_Some, Hwf. Qed.

Lemma contents_elem n e : (n, e) ∈ lru_ c → e ∈ contents c.
Proof. intros H. by apply (list_elem_of_fmap_2 snd) in H. Qed.

Lemma entry_hash e :
  e ∈ contents c → e_hash e = hashKey (e_source e) (e_schemaFingerprint e).
Proof. pose proof (wf_hash c Hwf) as Hf. rewrite Forall_forall in Hf. apply Hf. Qed.

Lemma find_None s f e :
  find c s f (hashKey s f) = None → e ∈ contents c → key e ≠ (s, f).
Proof.
  intros H He Hk. pose proof (entry_hash e He) as Hh. injection Hk as Hs Hf.
  rewrite Hs, Hf in Hh. apply list_elem_of_fmap in He as ([n e'] & -> & He).
  cbn [snd] in *. eapply find_in_None; [apply Hwf|exact H| |exact He|unfold key; congruence].
  rewrite (wf_index c Hwf), <- Hh. by apply (index_elem (lru_ c) n e').
Qed.

Lemma contents_remove n e :
  (n, e) ∈ lru_ c → contents c ≡ₚ e :: map snd (remove_node n (lru_ c)).
Proof.
  intros H. unfold contents. rewrite (remove_node_perm n e) at 1 by (done || apply Hwf). done.
Qed.

(** The entries with another key, in order. *)
Definition others (k : string * Z) (l : list Entry) : list Entry :=
  List.filter (λ e, negb (bool_decide (key e = k))) l.

Lemma remove_node_others n e :
  (n, e) ∈ lru_ c → map snd (remove_node n (lru_ c)) = others (key e) (contents c).
Proof.
  intros H. pose proof (wf_nodes c Hwf) as Hn. pose proof (wf_keys c Hwf) as Hk.
  unfold contents, others, remove_node in *. revert H Hn Hk.
  induction (lru_ c) as [|[m e'] lru IH]; [done|]; intros H Hn Hk. cbn in *.
  apply NoDup_cons in Hn as [Hm Hn]. apply NoDup_cons in Hk as [Hk' Hk].
  apply elem_of_cons in H as [[= <- <-]|H].
  - rewrite !bool_decide_eq_true_2 by done. cbn. clear IH Hn Hk.
    induction lru as [|[m e'] lru IH]; [done|]. cbn in *.
    apply not_elem_of_cons in Hm as [Hm1 Hm]. apply not_elem_of_cons in Hk' as [Hk1 Hk'].
    rewrite !bool_decide_eq_false_2 by done. cbn. by rewrite IH.
  - assert (m ≠ n) as Hmn by (intros ->; by apply (list_elem_of_fmap_2 fst) in H).
    assert (key e' ≠ key e) as Hke.
    { intros Heq. rewrite Heq in Hk'. destruct Hk'. rewrite map_map.
      by apply (list_elem_of_fmap_2 (λ p, key p.2)) in H. }
    rewrite !bool_decide_eq_false_2 by done. cbn. by rewrite IH.
Qed.

Lemma erase_wf n e :
  (n, e) ∈ lru_ c → cache_wf (erase c n e) ∧ contents (erase c n e) = others (key e) (contents c).
Proof.
  intros H. split; [|by apply remove_node_others].
  pose proof (contents_remove n e H) as Hc.
  pose proof (remove_node_perm n e (lru_ c) (wf_nodes c Hwf) H) as Hp.
  destruct Hwf as [Hl Hn Hnx Hi Hh Hk Hs Hb Ht].
  assert (total (contents c) = e_bytes e + total (contents (erase c n e))) as Htot
    by apply (total_perm _ _ Hc).
  assert (Forall (λ e, 0 ≤ e_bytes e) (e :: contents (erase c n e))) as Hsz
    by (change (contents (erase c n e)) with (map snd (remove_node n (lru_ c))); by rewrite <- Hc).
  apply Forall_cons in Hsz as [Hse Hsz]. pose proof (total_nonneg _ Hsz).
  split; cbn [erase maxEntries_ maxBytes_ bytes_ lru_ entries_ next_node]; try done.
  - rewrite Hp in Hn. cbn in Hn. by apply NoDup_cons in Hn as [_ Hn].
  - rewrite Hp in Hnx. by apply Forall_cons in Hnx as [_ Hnx].
  - apply (Permutation_cons_inv (a := (e_hash e, n))).
    rewrite <- remove_index_perm by (rewrite Hi; by apply index_elem).
    rewrite Hi. unfold index_of. rewrite Hp at 1. done.
  - unfold contents in *. rewrite Hc in Hh. by apply Forall_cons in Hh as [_ Hh].
  - unfold contents in *. rewrite Hc in Hk. cbn in Hk. by apply NoDup_cons in Hk as [_ Hk].
  - rewrite Hb, Htot, wrap_small; [lia|]. unfold uint. lia.
  - lia.
Qed.
End Wf.

(** * The specification: a bounded list of the most recent entries *)

(** The longest beginning of a list that the limits allow. *)
Fixpoint recent (entries bytes : Z) (l : list Entry) : list Entry :=
  match l with
  | [] => []
  | e :: l =>
      if (entries <? 1) || (bytes <? e_bytes e) then []
      else e :: recent (entries - 1) (bytes - e_bytes e) l
  end.

Definition lookup_key (k : string * Z) (l : list Entry) : option Entry :=
  List.find (λ e, bool_decide (key e = k)) l.

Definition spec_get (k : string * Z) (l : list Entry) : list Entry :=
  match lookup_key k l with
  | Some e => e :: others k l
  | None => l
  end.

(** Both limits of the cache, and the entry to put. *)
Definition spec_put (maxEntries maxBytes : Z) (e : Entry) (l : list Entry) : list Entry :=
  if (maxEntries =? 0) || (maxBytes =? 0) then l
  else if maxBytes <? e_bytes e then others (key e) l
  else recent maxEntries maxBytes (e :: others (key e) l).

Lemma recent_within l entries bytes :
  Forall (λ e, 0 ≤ e_bytes e) l → Z.of_nat (length l) ≤ entries → total l ≤ bytes →
  recent entries bytes l = l.
Proof.
  intros Hs. revert entries bytes. induction Hs as [|e l He Hl IH]; intros n b Hn Hb; [done|].
  cbn [length] in Hn. change (total (e :: l)) with (e_bytes e + total l) in Hb.
  pose proof (total_nonneg l Hl). cbn [recent].
  rewrite (proj2 (orb_false_iff _ _)) by (split; apply Z.ltb_ge; lia).
  f_equal. apply IH; lia.
Qed.

Lemma total_app l l' : total (l ++ l') = total l + total l'.
Proof. unfold total. induction l as [|e l IH]; cbn; lia. Qed.

Lemma recent_over l x entries bytes :
  entries < Z.of_nat (length (l ++ [x])) ∨ bytes < total (l ++ [x]) →
  recent entries bytes (l ++ [x]) = recent entries bytes l.
Proof.
  revert entries bytes. induction l as [|e l IH]; intros n b H.
  - cbn in H |- *. rewrite (proj2 (orb_true_iff _ _)); [done|].
    rewrite !Z.ltb_lt. destruct H; [left|right]; lia.
  - cbn [app recent]. destruct (_ || _); [done|]. f_equal. apply IH.
    cbn [app length] in H. change (total (e :: l ++ [x])) with (e_bytes e + total (l ++ [x])) in H.
    lia.
Qed.

Lemma recent_bounds l entries bytes :
  0 ≤ entries → 0 ≤ bytes →
  Z.of_nat (length (recent entries bytes l)) ≤ entries ∧ total (recent entries bytes l) ≤ bytes.
Proof.
  revert entries bytes. induction l as [|e l IH]; intros n b Hn Hb; [by cbn; lia|].
  cbn [recent]. destruct (_ || _) eqn:E; [by cbn; lia|].
  apply orb_false_iff in E as [H1%Z.ltb_ge H2%Z.ltb_ge].
  specialize (IH (n - 1) (b - e_bytes e) ltac:(lia) ltac:(lia)). cbn [length].
  change (total (?x :: ?l)) with (e_bytes x + total l). lia.
Qed.

Lemma contents_length c : length (contents c) = length (lru_ c).
Proof. apply length_map. Qed.

Lemma index_length c : cache_wf c → length (entries_ c) = length (contents c).
Proof.
  intros H. rewrite (wf_index c H). unfold index_of, contents. by rewrite !length_map.
Qed.

Lemma over_limit_spec c :
  cache_wf c →
  over_limit c = true ↔
  maxEntries_ c < Z.of_nat (length (contents c)) ∨ maxBytes_ c < total (contents c).
Proof.
  intros H. unfold over_limit. rewrite orb_true_iff, !Z.ltb_lt, index_length by done.
  by rewrite (wf_bytes c H).
Qed.

Lemma count_eviction_wf c : cache_wf c → cache_wf (count_eviction c).
Proof. by intros [? ? ? ? ? ? ? ? ?]. Qed.

Lemma others_last l x :
  NoDup (map key (l ++ [x])) → others (key x) (l ++ [x]) = l.
Proof.
  induction l as [|e l IH]; cbn; intros H.
  - by rewrite bool_decide_eq_true_2.
  - apply NoDup_cons in H as [He H]. rewrite bool_decide_eq_false_2.
    + cbn. f_equal. by apply IH.
    + intros Heq. destruct He. rewrite map_app, Heq. cbn. set_solver.
Qed.

Lemma evictOldest_ok c :
  cache_wf c → contents c ≠ [] →
  cache_wf (evictOldest c) ∧ ∃ x, contents c = contents (evictOldest c) ++ [x].
Proof.
  intros Hwf Hne. unfold evictOldest.
  destruct (last (lru_ c)) as [[n e]|] eqn:E.
  - apply last_Some in E as [l E].
    assert ((n, e) ∈ lru_ c) as Hin by (rewrite E; set_solver).
    destruct (erase_wf c Hwf n e Hin) as [Hwf' Hc].
    split; [by apply count_eviction_wf|]. exists e.
    change (contents (count_eviction ?c)) with (contents c). rewrite Hc.
    pose proof (wf_keys c Hwf) as Hk. unfold contents in *. rewrite E, map_app in *.
    cbn [map snd app] in *. by rewrite others_last.
  - apply last_None in E. destruct Hne. unfold contents. by rewrite E.
Qed.

Lemma evictOldest_limits c :
  maxEntries_ (evictOldest c) = maxEntries_ c ∧ maxBytes_ (evictOldest c) = maxBytes_ c.
Proof. unfold evictOldest. by destruct (last (lru_ c)) as [[]|]. Qed.

Lemma not_over_within c : cache_wf c → over_limit c = false → within c.
Proof.
  intros Hwf Ho. unfold within. rewrite <- contents_length, (wf_bytes c Hwf).
  destruct (over_limit_spec c Hwf) as [_ H].
  destruct (decide (Z.of_nat (length (contents c)) ≤ maxEntries_ c ∧
                    total (contents c) ≤ maxBytes_ c)) as [|Hn]; [done|].
  rewrite H in Ho; [done|lia].
Qed.

Lemma evict_ok fuel c :
  cache_wf c → (length (contents c) ≤ fuel)%nat →
  ∃ c', evict fuel c = Some c' ∧ cache_ok c' ∧
        contents c' = recent (maxEntries_ c) (maxBytes_ c) (contents c) ∧
        maxEntries_ c' = maxEntries_ c ∧ maxBytes_ c' = maxBytes_ c.
Proof.
  assert (∀ c, cache_wf c → over_limit c = false →
          cache_ok c ∧ contents c = recent (maxEntries_ c) (maxBytes_ c) (contents c)) as Hstop.
  { clear c. intros c Hwf Ho. pose proof (not_over_within c Hwf Ho) as Hin. split; [done|].
    destruct Hin as [H1 H2]. rewrite <- contents_length in H1. rewrite (wf_bytes c Hwf) in H2.
    by rewrite recent_within by (done || apply Hwf). }
  revert c. induction fuel as [|fuel IH]; intros c Hwf Hf; cbn [evict];
    destruct (over_limit c) eqn:Ho;
    try (destruct (Hstop c Hwf Ho); by eauto 10).
  - apply over_limit_spec in Ho; [|done]. pose proof (wf_limits c Hwf).
    destruct (contents c); cbn in Ho, Hf; lia.
  - apply over_limit_spec in Ho; [|done]. pose proof (wf_limits c Hwf).
    destruct (evictOldest_ok c Hwf) as [Hwf' [x Hx]].
    { intros E. rewrite E in Ho. cbn in Ho. lia. }
    destruct (evictOldest_limits c) as [E1 E2].
    destruct (IH _ Hwf') as (c' & Hev & Hok & Hc & H1 & H2).
    { rewrite Hx, length_app in Hf. cbn in Hf. lia. }
    exists c'. rewrite Hc, E1, E2, Hx, recent_over by (by rewrite <- Hx).
    by rewrite H1, H2, E1, E2.
Qed.

(** ** The operations *)

Lemma lookup_key_Some k l e : lookup_key k l = Some e → e ∈ l ∧ key e = k.
Proof.
  unfold lookup_key. intros H. apply find_some in H as [H Hk].
  split; [by apply list_elem_of_In|by apply bool_decide_eq_true in Hk].
Qed.

Lemma lookup_key_elem e l : NoDup (map key l) → e ∈ l → lookup_key (key e) l = Some e.
Proof.
  unfold lookup_key. induction l as [|e' l IH]; intros Hn He; [by apply not_elem_of_nil in He|].
  cbn in Hn |- *. apply NoDup_cons in Hn as [Hk Hn].
  apply elem_of_cons in He as [->|He]; [by rewrite bool_decide_eq_true_2|].
  rewrite bool_decide_eq_false_2; [by apply IH|].
  intros Heq. rewrite Heq in Hk. destruct Hk. by apply (list_elem_of_fmap_2 key) in He.
Qed.

Lemma find_is_lookup c s f :
  cache_wf c → snd <$> find c s f (hashKey s f) = lookup_key (s, f) (contents c).
Proof.
  intros Hwf. destruct (find c s f (hashKey s f)) as [[n e]|] eqn:E; cbn.
  - apply find_Some in E as [Hin Hk]; [|done]. rewrite <- Hk. symmetry.
    apply lookup_key_elem; [apply Hwf|]. by eapply contents_elem.
  - destruct (lookup_key (s, f) (contents c)) as [e|] eqn:El; [|done].
    apply lookup_key_Some in El as [Hin Hk]. by destruct (find_None c Hwf s f e E Hin).
Qed.

Lemma others_none k l : lookup_key k l = None → others k l = l.
Proof.
  unfold lookup_key, others. induction l as [|e l IH]; [done|]. cbn.
  destruct (bool_decide (key e = k)); [done|]. cbn. intros H. by rewrite IH.
Qed.

Lemma get_ok c s f :
  cache_ok c →
  let '(c', r) := get c s f in
  cache_ok c' ∧ r = e_value <$> lookup_key (s, f) (contents c) ∧
  contents c' = spec_get (s, f) (contents c).
Proof.
  intros [Hwf Hin]. unfold get, spec_get. rewrite <- find_is_lookup by done.
  destruct (find c s f (hashKey s f)) as [[n e]|] eqn:E; cbn [fmap option_fmap option_map snd];
    [|split; [|done]; split; [by destruct Hwf|done]].
  apply find_Some in E as [He Hk]; [|done].
  pose proof (remove_node_perm n e (lru_ c) (wf_nodes c Hwf) He) as Hp.
  split; [|split; [done|]].
  - assert (total (contents c) = total (map snd ((n, e) :: remove_node n (lru_ c)))) as Htot.
    { apply total_perm. unfold contents. by rewrite <- Hp. }
    destruct Hwf as [Hl Hn Hnx Hi Hh Hks Hs Hb Ht].
    split; [split|]; unfold contents in *; cbn [count_hit maxEntries_ maxBytes_ bytes_ lru_ entries_ next_node].
    all: rewrite <- ?Htot; try done; unfold within, index_of; cbn [count_hit maxEntries_ maxBytes_ bytes_ lru_ entries_ next_node]; try (by rewrite <- Hp).
  - rewrite <- Hk. cbn. f_equal. by apply remove_node_others.
Qed.

Lemma push_front_wf c e :
  cache_wf c → total (contents c) ≤ maxBytes_ c → 0 ≤ e_bytes e ≤ maxBytes_ c →
  e_hash e = hashKey (e_source e) (e_schemaFingerprint e) →
  (∀ x, x ∈ contents c → key x ≠ key e) →
  cache_wf (push_front c e) ∧ contents (push_front c e) = e :: contents c.
Proof.
  intros Hwf Htot He Hh Hkey. split; [|done].
  pose proof (total_nonneg _ (wf_sizes c Hwf)) as H0.
  destruct Hwf as [Hl Hn Hnx Hi Hhs Hks Hs Hb Ht].
  assert (total (contents (push_front c e)) = e_bytes e + total (contents c)) as Ht' by done.
  split; cbn [push_front maxEntries_ maxBytes_ bytes_ lru_ entries_ next_node]; try done.
  - cbn. apply NoDup_cons. split; [|done]. intros Hin.
    apply list_elem_of_fmap in Hin as ([m e'] & Heq & Hin).
    rewrite Forall_forall in Hnx. specialize (Hnx _ Hin). cbn in *. lia.
  - constructor; [cbn; lia|]. eapply Forall_impl; [exact Hnx|]. cbn. lia.
  - cbn. by rewrite Hi.
  - by constructor.
  - cbn. apply NoDup_cons. split; [|done]. intros Hin.
    apply list_elem_of_fmap in Hin as (x & Heq & Hin). by destruct (Hkey x Hin).
  - constructor; [apply He|done].
  - rewrite Ht', Hb, wrap_small; [lia|]. unfold uint. lia.
  - rewrite Ht'. lia.
Qed.

Lemma others_elem k x l : x ∈ others k l → x ∈ l ∧ key x ≠ k.
Proof.
  unfold others. rewrite !list_elem_of_In, filter_In. intros [H Hk]. split; [done|].
  by apply negb_true_iff, bool_decide_eq_false in Hk.
Qed.

Lemma others_total k l : Forall (λ e, 0 ≤ e_bytes e) l → total (others k l) ≤ total l.
Proof.
  unfold others, total. induction 1 as [|e l He _ IH]; cbn; [done|].
  destruct (negb _); cbn; lia.
Qed.

Lemma others_length k l : (length (others k l) ≤ length l)%nat.
Proof. apply List.filter_length_le. Qed.

(** Taking the entry of a key out, when there is one. *)
Lemma drop_key_ok c s f :
  cache_ok c →
  let c1 := match find c s f (hashKey s f) with Some (n, e) => erase c n e | None => c end in
  cache_ok c1 ∧ contents c1 = others (s, f) (contents c) ∧
  maxEntries_ c1 = maxEntries_ c ∧ maxBytes_ c1 = maxBytes_ c.
Proof.
  intros [Hwf [Hn Hb]]. cbn zeta.
  pose proof (find_is_lookup c s f Hwf) as Hl.
  destruct (find c s f (hashKey s f)) as [[n e]|] eqn:E; cbn in Hl.
  - apply find_Some in E as [He Hk]; [|done].
    destruct (erase_wf c Hwf n e He) as [Hwf' Hc]. rewrite Hk in Hc.
    split; [|done]. split; [done|]. unfold within.
    rewrite <- contents_length, (wf_bytes _ Hwf'), Hc.
    rewrite <- contents_length in Hn. rewrite (wf_bytes c Hwf) in Hb.
    pose proof (others_length (s, f) (contents c)).
    pose proof (others_total (s, f) _ (wf_sizes c Hwf)).
    cbn [erase maxEntries_ maxBytes_]. lia.
  - split; [done|]. symmetry in Hl. by rewrite others_none.
Qed.

Section Put.
Context (string_capacity : string → Z) (notes_capacity : list string → Z).
Context (sizeof_Entry sizeof_string : Z).
Abbreviation estimate := (estimateBytes string_capacity notes_capacity sizeof_Entry sizeof_string).
Abbreviation put_ := (put string_capacity notes_capacity sizeof_Entry sizeof_string).

Lemma fold_statement_uint value bytes :
  u64 bytes →
  u64 (fold_left (statement_bytes string_capacity notes_capacity sizeof_string) value bytes).
Proof.
  revert bytes. induction value as [|st value IH]; intros bytes Hb; [done|]. cbn. apply IH.
  assert (∀ l b, u64 b → u64 (fold_left (λ bytes note,
    wrap64 (bytes + (string_capacity note + 1))) l b)) as Hnotes.
  { intros l. induction l as [|x l IHl]; intros b Hb'; [done|]. cbn. apply IHl, wrap_uint. lia. }
  unfold statement_bytes. apply Hnotes, wrap_uint. lia.
Qed.

Lemma estimate_nonneg s value : 0 ≤ estimate s value.
Proof. apply fold_statement_uint, wrap_uint. lia. Qed.

Definition new_entry (s : string) (f : Z) (value : CachedCompilation) : Entry :=
  mkEntry s f (hashKey s f) value (estimate s value).

Lemma put_ok c s f value :
  cache_ok c →
  ∃ c', put_ c s f value = Some c' ∧ cache_ok c' ∧
        contents c' = spec_put (maxEntries_ c) (maxBytes_ c) (new_entry s f value) (contents c) ∧
        maxEntries_ c' = maxEntries_ c ∧ maxBytes_ c' = maxBytes_ c.
Proof.
  intros Hok. unfold put, spec_put. cbn [new_entry e_bytes].
  change (key (new_entry s f value)) with (s, f).
  destruct (_ || _) eqn:E0; [by exists c|].
  destruct (drop_key_ok c s f Hok) as ([Hwf [Hn Hb]] & Hc & E1 & E2).
  set (c1 := match find c s f (hashKey s f) with Some _ => _ | None => c end) in *.
  rewrite E2. destruct (maxBytes_ c <? estimate s value) eqn:Ei; [by exists c1|].
  apply Z.ltb_ge in Ei. rewrite (wf_bytes c1 Hwf) in Hb.
  destruct (push_front_wf c1 (new_entry s f value) Hwf Hb) as [Hwf2 Hc2].
  - cbn. rewrite E2. split; [apply estimate_nonneg|done].
  - done.
  - intros x Hx. rewrite Hc in Hx. by apply others_elem in Hx as [_ Hx].
  - destruct (evict_ok (length (lru_ (push_front c1 (new_entry s f value)))) _ Hwf2)
      as (c' & Hev & Hok' & Hc' & H1 & H2); [by rewrite contents_length|].
    exists c'. split; [exact Hev|]. split; [done|]. rewrite Hc', Hc2, Hc. cbn in H1, H2 |- *.
    by rewrite H1, H2, E1, E2.
Qed.
End Put.

Lemma clear_ok c : cache_ok c → cache_ok (clear c) ∧ contents (clear c) = [].
Proof.
  intros [[Hl _ _ _ _ _ _ _ _] _]. split; [|done].
  split; [split; cbn; try done; by constructor|]. unfold within. cbn. lia.
Qed.

Lemma resetStats_ok c : cache_ok c → cache_ok (resetStats c) ∧ contents (resetStats c) = contents c.
Proof. by intros [[? ? ? ? ? ? ? ? ?] ?]. Qed.

Lemma newCache_ok maxEntries maxBytes :
  0 ≤ maxEntries → 0 ≤ maxBytes < 2 ^ 63 → cache_ok (newCache maxEntries maxBytes).
Proof.
  intros H1 H2. split; [split; cbn; try done; by constructor|]. unfold within. cbn. lia.
Qed.

(** * Theorems *)

Section Theorems.
Context (string_capacity : string → Z) (notes_capacity : list string → Z).
Context (sizeof_Entry sizeof_string : Z).
Abbreviation put_ := (put string_capacity notes_capacity sizeof_Entry sizeof_string).

(** One call of the cache. *)
Inductive cache_step : CompilationCache → CompilationCache → Prop :=
  | step_get c source f : cache_step c (get c source f).1
  | step_put c source f value c' : put_ c source f value = Some c' → cache_step c c'
  | step_clear c : cache_step c (clear c)
  | step_reset c : cache_step c (resetStats c).

Lemma cache_step_ok c c' :
  cache_step c c' → cache_ok c →
  cache_ok c' ∧ maxEntries_ c' = maxEntries_ c ∧ maxBytes_ c' = maxBytes_ c.
Proof.
  intros [c0 s f|c0 s f v c1 Hp|c0|c0] Hok.
  - pose proof (get_ok c0 s f Hok) as H. unfold get in *.
    destruct (find _ _ _ _) as [[]|]; cbn in *; by destruct H as [H _].
  - destruct (put_ok string_capacity notes_capacity sizeof_Entry sizeof_string c0 s f v Hok)
      as (c2 & Hp' & H & _ & E). rewrite Hp in Hp'. by injection Hp' as ->.
  - by destruct (clear_ok c0 Hok).
  - by destruct (resetStats_ok c0 Hok).
Qed.

Definition cache_reachable (maxEntries maxBytes : Z) (c : CompilationCache) : Prop :=
  rtc cache_step (newCache maxEntries maxBytes) c.

Lemma reachable_ok n b c :
  0 ≤ n → 0 ≤ b < 2 ^ 63 → cache_reachable n b c →
  cache_ok c ∧ maxEntries_ c = n ∧ maxBytes_ c = b.
Proof.
  intros Hn Hb H. unfold cache_reachable in H. remember (newCache n b) as c0 eqn:E.
  assert (cache_ok c0 ∧ maxEntries_ c0 = n ∧ maxBytes_ c0 = b) as H0
    by (rewrite E; split; [by apply newCache_ok|done]). clear E. revert H0.
  induction H as [c|c c1 c2 Hs _ IH]; [done|]. intros (Hok & E1 & E2). apply IH.
  destruct (cache_step_ok c c1 Hs Hok) as (Hok' & -> & ->). auto.
Qed.
End Theorems.

(** After any calls the list and the hash multimap of the cache agree.  The
    multimap has exactly one node per entry of the list under the hash of its
    key, no two entries have the same key, the reported number of bytes is the
    sum over the entries although it is kept incrementally in a 64-bit counter,
    and both limits hold. *)
Theorem cache_structures_agree string_capacity notes_capacity sizeof_Entry sizeof_string
    maxEntries maxBytes c :
  0 ≤ maxEntries → 0 ≤ maxBytes < 2 ^ 63 →
  cache_reachable string_capacity notes_capacity sizeof_Entry sizeof_string
    maxEntries maxBytes c →
  entries_ c ≡ₚ map (λ p, (hashKey (e_source p.2) (e_schemaFingerprint p.2), p.1)) (lru_ c) ∧
  NoDup (map fst (lru_ c)) ∧ NoDup (map key (contents c)) ∧
  bytes_ c = total (contents c) ∧ total (contents c) ≤ maxBytes ∧
  Z.of_nat (length (lru_ c)) ≤ maxEntries.
Proof.
  intros Hn Hb Hr. apply reachable_ok in Hr as ([Hwf [H1 H2]] & E1 & E2); [|done..].
  rewrite E1 in H1. rewrite E2, (wf_bytes c Hwf) in H2.
  split_and!; try apply Hwf; try done.
  rewrite (wf_index c Hwf). unfold index_of.
  rewrite (map_ext_in (λ p : nat * Entry, (e_hash p.2, p.1))
    (λ p, (hashKey (e_source p.2) (e_schemaFingerprint p.2), p.1))); [done|].
  intros [n e] Hin. cbn. f_equal. apply (entry_hash c Hwf).
  by apply (contents_elem c n), list_elem_of_In.
Qed.

(** C38: The cache is the bounded list of its most recent entries.  In every
    reachable state a lookup finds the entry of its key exactly when there is
    one and moves it to the front; storing puts the entry in front of those
    of other keys and keeps the longest beginning that both limits allow (all of
    the others when the entry alone is too large), and the eviction loop ends. *)
Theorem cache_is_recency_list string_capacity notes_capacity sizeof_Entry sizeof_string
    maxEntries maxBytes c source f :
  0 ≤ maxEntries → 0 ≤ maxBytes < 2 ^ 63 →
  cache_reachable string_capacity notes_capacity sizeof_Entry sizeof_string
    maxEntries maxBytes c →
  (get c source f).2 = e_value <$> lookup_key (source, f) (contents c) ∧
  contents (get c source f).1 = spec_get (source, f) (contents c) ∧
  ∀ value, ∃ c',
    put string_capacity notes_capacity sizeof_Entry sizeof_string c source f value = Some c' ∧
    contents c' = spec_put maxEntries maxBytes
      (mkEntry source f (hashKey source f) value
        (estimateBytes string_capacity notes_capacity sizeof_Entry sizeof_string source value))
      (contents c).
Proof.
  intros Hn Hb Hr. apply reachable_ok in Hr as (Hok & E1 & E2); [|done..].
  pose proof (get_ok c source f Hok) as Hg. destruct (get c source f) as [c1 r].
  destruct Hg as (_ & Hget & Hfront). split_and!; [exact Hget|exact Hfront|]. intros value.
  destruct (put_ok string_capacity notes_capacity sizeof_Entry sizeof_string c source f value Hok)
    as (c' & Hp & _ & Hc & _). exists c'. by rewrite E1, E2 in Hc.
Qed.

Module Demo.
Definition statement (sql : string) : CachedStatement :=
  mkCachedStatement sql [] false (SShowContextSchemas (Loc 1 1)).
Definition capacity (s : string) : Z := Z.max 15 (Z.of_nat (String.length s)).
Definition put_ := put capacity (λ l, Z.of_nat (length l)) 100 32.
(** Two entries at most; three are stored, the first is asked for in between. *)
Definition filled : option CompilationCache :=
  c ← put_ (newCache 2 1000) "a" 7 [statement "A"];
  c ← put_ c "b" 7 [statement "B"];
  put_ (get c "a" 7).1 "c" 7 [statement "C"].

Definition full : CompilationCache := default (newCache 2 1000) filled.

Lemma full_reachable :
  cache_reachable capacity (λ l, Z.of_nat (length l)) 100 32 2 1000 full.
Proof.
  eapply rtc_l; [eapply (step_put _ _ _ _ _ "a" 7 [statement "A"]); vm_compute; reflexivity|].
  eapply rtc_l; [eapply (step_put _ _ _ _ _ "b" 7 [statement "B"]); vm_compute; reflexivity|].
  eapply rtc_l; [apply (step_get _ _ _ _ _ "a" 7)|].
  eapply rtc_l; [eapply (step_put _ _ _ _ _ "c" 7 [statement "C"]); vm_compute; reflexivity|].
  vm_compute. apply rtc_refl.
Qed.
End Demo.

Example cache_structures_agree_witness :
  map e_source (contents Demo.full) = ["c"; "a"] ∧ bytes_ Demo.full = total (contents Demo.full).
Proof.
  split; [vm_compute; reflexivity|].
  apply (cache_structures_agree _ _ _ _ 2 1000 Demo.full ltac:(done) ltac:(done)
           Demo.full_reachable).
Defined.

Example cache_is_recency_list_witness :
  (get Demo.full "b" 7).2 = None ∧ (get Demo.full "a" 7).2 = Some [Demo.statement "A"].
Proof.
  split.
  - rewrite (proj1 (cache_is_recency_list _ _ _ _ 2 1000 Demo.full "b" 7 ltac:(done) ltac:(done)
                      Demo.full_reachable)). vm_compute. reflexivity.
  - rewrite (proj1 (cache_is_recency_list _ _ _ _ 2 1000 Demo.full "a" 7 ltac:(done) ltac:(done)
                      Demo.full_reachable)). vm_compute. reflexivity.
Defined.
