(* ===== verification/Compiler.v ===== *)
(** The query compiler: [src/compiler.h] and [src/compiler.cpp].  Source text is
    lexed, parsed, optimized against the catalog and turned into SQL; the
    result is kept in the cache under the text and the catalog's fingerprint.
    The file shows that the cache is transparent and that every request is answered. *)

From S2P Require Import Prelude.
From S2P Require Import Lexer.
From S2P Require Import Ast.
From S2P Require Import Parser.
From S2P Require Import Catalog.
From S2P Require Import Optimizer.
From S2P Require Import OptimizerProofs.
From S2P Require Import CodeGen.
From S2P Require Import Cache.

#[local] Set Warnings "-register-all".

(** Why a compilation gives no result: an exception of the lexer or the parser,
    undefined behaviour of the optimizer, or (never) a loop without end. *)
Inductive compile_error : Type :=
  | LexerFails (e : LexerError)
  | ParserFails (e : perror)
  | OptimizerFails (e : failure)
  | Diverges.

Abbreviation compiles A := (result compile_error A).

(** The AST is absent in a result taken from the cache. *)
Record CompiledStatement : Type := mkCompiledStatement {
  cmp_ast : option Stmt;
  cmp_sql : string;
  cmp_notes : list string;
}.

Record CompilationResult : Type := mkCompilationResult {
  cr_tokens : list Token;
  cr_statements : list CompiledStatement;
  cr_cacheHit : bool;
  cr_cacheable : bool;
}.

Record FastCompilationResult : Type := mkFastResult {
  fr_output : CachedCompilation;
  fr_detailed : CompilationResult;
  fr_cacheHit : bool;
  fr_cacheable : bool;
}.

Definition noResult : CompilationResult := mkCompilationResult [] [] false false.

(** ** Without the cache *)

(** A lexer or parser run that gave no answer is not a value of the code. *)
Definition lex (source : string) : compiles (list Token) :=
  match tokenize source with
  | Some (Ok tokens) => Ok tokens
  | Some (Err e) => Err (LexerFails e)
  | None => Err Diverges
  end.

Definition parse (tokens : list Token) : compiles (list Stmt) :=
  match parseAll tokens with
  | Ok (statements, _) => Ok statements
  | Err OutOfFuel => Err Diverges
  | Err e => Err (ParserFails e)
  end.

Definition changes_schema (ast : Stmt) : bool :=
  match ast with
  | SCreate _ | SDrop _ | SCreateSnapshot _ | SCreateContext _ | SAppendMemory _
  | STagMemory _ | SAliasTab _ | SMergeTabs _ => true
  | _ => false
  end.

(** [Optimizer(false, &catalog).optimize]: a statement that is not a SELECT
    is no operator, call or literal either, and every pass leaves it as it is. *)
Definition optimize_statement (catalog : Catalog) (ast : Stmt) : compiles (Stmt * list string) :=
  match ast with
  | SSelect s =>
      match optimize (Some catalog) (Select s) [] with
      | Ok (Select s, notes) => Ok (SSelect s, notes)
      | Ok _ => Err (OptimizerFails (Throw "not a SELECT"))
      | Err e => Err (OptimizerFails e)
      end
  | _ => Ok (ast, [])
  end.

Definition compile_statement (catalog : Catalog) (ast : Stmt)
    : compiles (CompiledStatement * CachedStatement) :=
  let* (optimized, notes) := optimize_statement catalog ast in
  let sql := generate optimized in
  Ok (mkCompiledStatement (Some optimized) sql notes,
      mkCachedStatement sql notes (changes_schema ast) optimized).

Definition compileUncached (source : string) (catalog : Catalog)
    : compiles (CompilationResult * CachedCompilation) :=
  let* tokens := lex source in
  let* statements := parse tokens in
  let* compiled := rmap (compile_statement catalog) statements in
  let schemaChanging := existsb changes_schema statements in
  let cacheable := negb schemaChanging && negb (bool_decide (compiled = [])) in
  Ok (mkCompilationResult tokens (map fst compiled) false cacheable, map snd compiled).

(** ** With the cache *)

Section Compiler.
Context (string_capacity : string → Z) (notes_capacity : list string → Z).
Context (sizeof_Entry sizeof_string : Z).
Abbreviation put_ := (put string_capacity notes_capacity sizeof_Entry sizeof_string).

Definition lookup (cache_ : CompilationCache) (source : string) (catalog : Catalog)
    (useCache : bool) : CompilationCache * option CachedCompilation :=
  if useCache then get cache_ source (schemaFingerprint_ catalog) else (cache_, None).

Definition from_cache (cached : CachedCompilation) : CompilationResult :=
  mkCompilationResult []
    (map (λ st, mkCompiledStatement None (cst_sql st) (cst_optimizationNotes st)) cached)
    true true.

Definition compile (cache_ : CompilationCache) (source : string) (catalog : Catalog)
    (useCache : bool) : CompilationCache * compiles CompilationResult :=
  match lookup cache_ source catalog useCache with
  | (cache_, Some cached) => (cache_, Ok (from_cache cached))
  | (cache_, None) =>
      match compileUncached source catalog with
      | Err e => (cache_, Err e)
      | Ok (result, cacheValue) =>
          if useCache && cr_cacheable result then
            match put_ cache_ source (schemaFingerprint_ catalog) cacheValue with
            | Some cache_ => (cache_, Ok result)
            | None => (cache_, Err Diverges)
            end
          else (cache_, Ok result)
      end
  end.

Definition compileFast (cache_ : CompilationCache) (source : string) (catalog : Catalog)
    (useCache : bool) : CompilationCache * compiles FastCompilationResult :=
  match lookup cache_ source catalog useCache with
  | (cache_, Some cached) => (cache_, Ok (mkFastResult cached noResult true true))
  | (cache_, None) =>
      match compileUncached source catalog with
      | Err e => (cache_, Err e)
      | Ok (detailed, cacheValue) =>
          let result := mkFastResult cacheValue detailed false (cr_cacheable detailed) in
          if useCache && cr_cacheable detailed then
            match put_ cache_ source (schemaFingerprint_ catalog) cacheValue with
            | Some cache_ => (cache_, Ok result)
            | None => (cache_, Err Diverges)
            end
          else (cache_, Ok result)
      end
  end.

Definition clearCache (cache_ : CompilationCache) : CompilationCache := clear cache_.
Definition cacheStats (cache_ : CompilationCache) : CacheStats := stats cache_.
Definition resetCacheStats (cache_ : CompilationCache) : CompilationCache := resetStats cache_.
End Compiler.

(** * The optimizer sees only the tables of a catalog *)

Lemma optimize_statement_tables c1 c2 ast :
  tables c1 = tables c2 → optimize_statement c1 ast = optimize_statement c2 ast.
Proof.
  destruct c1 as [t s c r f], c2 as [t' s' c' r' f']. cbn. intros ->. reflexivity.
Qed.

Lemma compileUncached_tables source c1 c2 :
  tables c1 = tables c2 → compileUncached source c1 = compileUncached source c2.
Proof.
  intros H. unfold compileUncached. destruct (lex source) as [ts|]; [|done]. cbn.
  destruct (parse ts) as [ss|]; [|done]. cbn.
  rewrite (rmap_ext_in (compile_statement c2) (compile_statement c1)); [done|].
  intros ast _. unfold compile_statement. by rewrite (optimize_statement_tables c1 c2).
Qed.

(** * The cache is transparent *)

Section Transparent.
Context (string_capacity : string → Z) (notes_capacity : list string → Z).
Context (sizeof_Entry sizeof_string : Z).
Abbreviation put_ := (put string_capacity notes_capacity sizeof_Entry sizeof_string).
Abbreviation compile_ := (compile string_capacity notes_capacity sizeof_Entry sizeof_string).
Abbreviation compileFast_ :=
  (compileFast string_capacity notes_capacity sizeof_Entry sizeof_string).
(** The catalogs the compiler is used with. *)
Context (used : Catalog → Prop).

(** A call of the compiler. *)
Inductive compiler_step : CompilationCache → CompilationCache → Prop :=
  | step_compile c source catalog useCache :
      used catalog → compiler_step c (compile_ c source catalog useCache).1
  | step_compileFast c source catalog useCache :
      used catalog → compiler_step c (compileFast_ c source catalog useCache).1
  | step_clearCache c : compiler_step c (clearCache c)
  | step_resetStats c : compiler_step c (resetCacheStats c).

Definition compiler_reachable (maxEntries maxBytes : Z) (c : CompilationCache) : Prop :=
  rtc compiler_step (newCache maxEntries maxBytes) c.

(** What is stored was compiled. *)
Definition compiled_entry (e : Entry) : Prop :=
  ∃ catalog res, used catalog ∧ schemaFingerprint_ catalog = e_schemaFingerprint e ∧
    compileUncached (e_source e) catalog = Ok (res, e_value e) ∧ cr_cacheable res = true.

Definition compiler_ok (c : CompilationCache) : Prop :=
  cache_ok c ∧ Forall compiled_entry (contents c).

Lemma lookup_ok c source catalog useCache :
  compiler_ok c →
  let '(c', r) := lookup c source catalog useCache in
  compiler_ok c' ∧ match r with
                   | Some v => ∃ e, compiled_entry e ∧ e_source e = source ∧ e_value e = v ∧
                                    e_schemaFingerprint e = schemaFingerprint_ catalog
                   | None => True
                   end.
Proof.
  intros [Hok Hent]. unfold lookup. destruct useCache; [|done].
  pose proof (get_ok c source (schemaFingerprint_ catalog) Hok) as H.
  destruct (get c source (schemaFingerprint_ catalog)) as [c' r]. destruct H as (Hok' & -> & Hc).
  assert (Forall compiled_entry (contents c')) as Hent'.
  { rewrite Hc. unfold spec_get. destruct (lookup_key _ _) as [e|] eqn:E; [|done].
    apply lookup_key_Some in E as [E _]. rewrite Forall_forall in *. intros x Hx.
    apply elem_of_cons in Hx as [->|Hx]; [auto|]. apply others_elem in Hx as [Hx _]. auto. }
  split; [done|]. destruct (lookup_key _ _) as [e|] eqn:E; cbn; [|done].
  apply lookup_key_Some in E as [E [= Hs Hf]]. rewrite Forall_forall in Hent. eauto 10.
Qed.

Lemma recent_elem n b l x : x ∈ recent n b l → x ∈ l.
Proof.
  revert n b. induction l as [|e l IH]; intros n b; [done|]. cbn.
  destruct (_ || _); [by intros H%not_elem_of_nil|].
  intros [->|H]%elem_of_cons; [apply list_elem_of_here|].
  by apply list_elem_of_further, (IH _ _ H).
Qed.

Lemma put_compiler_ok c source catalog res value :
  compiler_ok c → used catalog → compileUncached source catalog = Ok (res, value) →
  cr_cacheable res = true →
  ∃ c', put_ c source (schemaFingerprint_ catalog) value = Some c' ∧ compiler_ok c'.
Proof.
  intros [Hok Hent] Hu Hcomp Hca.
  destruct (put_ok string_capacity notes_capacity sizeof_Entry sizeof_string c source
              (schemaFingerprint_ catalog) value Hok) as (c' & Hp & Hok' & Hc & _).
  exists c'. split; [done|]. split; [done|]. rewrite Hc. unfold spec_put.
  assert (∀ k, Forall compiled_entry (others k (contents c))) as Hoth.
  { intros k. rewrite Forall_forall in *. intros x Hx. apply others_elem in Hx as [Hx _]. auto. }
  destruct (_ || _); [done|]. destruct (_ <? _); [apply Hoth|].
  apply Forall_forall. intros x Hx. apply recent_elem in Hx.
  apply elem_of_cons in Hx as [->|Hx].
  - exists catalog, res. by cbn.
  - pose proof (Hoth (key (new_entry string_capacity notes_capacity sizeof_Entry sizeof_string
      source (schemaFingerprint_ catalog) value))) as H. rewrite Forall_forall in H. auto.
Qed.

(** Catalogs with one fingerprint have the same tables. *)
Definition fingerprints_distinguish : Prop :=
  ∀ c1 c2, used c1 → used c2 → schemaFingerprint_ c1 = schemaFingerprint_ c2 →
  tables c1 = tables c2.

Lemma hit_is_uncached e source catalog :
  fingerprints_distinguish → used catalog → compiled_entry e → e_source e = source →
  e_schemaFingerprint e = schemaFingerprint_ catalog →
  ∃ res, compileUncached source catalog = Ok (res, e_value e) ∧ cr_cacheable res = true.
Proof.
  intros Hd Hu (catalog' & res & Hu' & Hf & Hc & Hca) <- Hf'. exists res.
  rewrite (compileUncached_tables _ catalog catalog'); [done|]. apply Hd; congruence.
Qed.

(** What a request may be answered, and that it leaves the cache in order. *)
Lemma compileFast_ok c source catalog useCache :
  fingerprints_distinguish → used catalog → compiler_ok c →
  let '(c', r) := compileFast_ c source catalog useCache in
  compiler_ok c' ∧
  match r with
  | Ok fast => ∃ res, compileUncached source catalog = Ok (res, fr_output fast) ∧
                      cr_cacheable res = fr_cacheable fast
  | Err e => compileUncached source catalog = Err e
  end.
Proof.
  intros Hd Hu Hok. unfold compileFast.
  pose proof (lookup_ok c source catalog useCache Hok) as Hl.
  destruct (lookup c source catalog useCache) as [c1 [v|]]; destruct Hl as [Hok1 Hl].
  - destruct Hl as (e & He & Hs & <- & Hf). split; [done|]. cbn.
    by apply hit_is_uncached.
  - destruct (compileUncached source catalog) as [[res value]|e] eqn:Hc; [|done].
    destruct (useCache && cr_cacheable res) eqn:Hca; [|cbn; eauto].
    apply andb_prop in Hca as [_ Hca].
    destruct (put_compiler_ok c1 source catalog res value) as (c2 & -> & Hok2); [done..|].
    cbn. eauto.
Qed.

(** The texts of the statements of a result. *)
Definition texts (res : CompilationResult) : list (string * list string) :=
  map (λ st, (cmp_sql st, cmp_notes st)) (cr_statements res).

Lemma uncached_texts source catalog res value :
  compileUncached source catalog = Ok (res, value) →
  texts res = map (λ st, (cst_sql st, cst_optimizationNotes st)) value.
Proof.
  intros H. unfold compileUncached in H. res_inv. subst res value. unfold texts. cbn.
  rewrite !map_map. apply rmap_Ok in Ha1. clear Ha0.
  induction Ha1 as [|ast [cs ct] l l' Hc _ IH]; [done|]. cbn. rewrite IH.
  unfold compile_statement in Hc. destruct (optimize_statement catalog ast) as [[o n]|]; [|done].
  by injection Hc as <- <-.
Qed.

Lemma compile_ok c source catalog useCache :
  fingerprints_distinguish → used catalog → compiler_ok c →
  let '(c', r) := compile_ c source catalog useCache in
  compiler_ok c' ∧
  match r with
  | Ok res => ∃ res' value, compileUncached source catalog = Ok (res', value) ∧
                texts res = texts res' ∧ cr_cacheable res = cr_cacheable res'
  | Err e => compileUncached source catalog = Err e
  end.
Proof.
  intros Hd Hu Hok. unfold compile.
  pose proof (lookup_ok c source catalog useCache Hok) as Hl.
  destruct (lookup c source catalog useCache) as [c1 [v|]]; destruct Hl as [Hok1 Hl].
  - destruct Hl as (e & He & Hs & <- & Hf). split; [done|].
    destruct (hit_is_uncached e source catalog) as (res & Hc & Hca); [done..|].
    exists res, (e_value e). split; [done|]. split; [|done].
    rewrite (uncached_texts _ _ _ _ Hc). unfold texts, from_cache. cbn. by rewrite map_map.
  - destruct (compileUncached source catalog) as [[res value]|e] eqn:Hc; [|done].
    destruct (useCache && cr_cacheable res) eqn:Hca; [|cbn; eauto 10].
    apply andb_prop in Hca as [_ Hca].
    destruct (put_compiler_ok c1 source catalog res value) as (c2 & -> & Hok2); [done..|].
    cbn. eauto 10.
Qed.

Lemma compiler_step_ok c c' :
  fingerprints_distinguish → compiler_step c c' → compiler_ok c → compiler_ok c'.
Proof.
  intros Hd [c0 source catalog b Hu|c0 source catalog b Hu|c0|c0] Hok.
  - pose proof (compile_ok c0 source catalog b Hd Hu Hok) as H.
    destruct (compile_ _ _ _ _). apply H.
  - pose proof (compileFast_ok c0 source catalog b Hd Hu Hok) as H.
    destruct (compileFast_ _ _ _ _). apply H.
  - destruct Hok as [Hok _]. apply clear_ok in Hok as [Hok Hc]. split; [done|].
    unfold clearCache. by rewrite Hc.
  - destruct Hok as [Hok He]. apply resetStats_ok in Hok as [Hok Hc]. split; [done|].
    unfold resetCacheStats. by rewrite Hc.
Qed.

Lemma compiler_reachable_ok n b c :
  fingerprints_distinguish → 0 ≤ n → 0 ≤ b < 2 ^ 63 → compiler_reachable n b c → compiler_ok c.
Proof.
  intros Hd Hn Hb H. unfold compiler_reachable in H.
  assert (compiler_ok (newCache n b)) as H0 by (split; [by apply newCache_ok|by constructor]).
  revert H0. induction H as [c|c c1 c2 Hs _ IH]; [done|]. intros H0. apply IH.
  by apply (compiler_step_ok c c1).
Qed.
End Transparent.

(** * Theorems *)

(** C37: The compilation cache is transparent.  After any calls of the compiler, with
    any catalogs that the fingerprint tells apart, a request is answered as if
    there were no cache: [compileFast] returns exactly the compilation of the
    text against the catalog it is given, or the same exception; [compile]
    returns the same SQL and the same notes.  A result of another text, of an
    earlier schema, or one that was evicted or replaced is never returned. *)
Theorem cache_transparent string_capacity notes_capacity sizeof_Entry sizeof_string
    (used : Catalog → Prop) maxEntries maxBytes c source catalog useCache :
  0 ≤ maxEntries → 0 ≤ maxBytes < 2 ^ 63 → fingerprints_distinguish used →
  compiler_reachable string_capacity notes_capacity sizeof_Entry sizeof_string used
    maxEntries maxBytes c →
  used catalog →
  match (compileFast string_capacity notes_capacity sizeof_Entry sizeof_string c source catalog
           useCache).2 with
  | Ok fast => ∃ res, compileUncached source catalog = Ok (res, fr_output fast) ∧
                      cr_cacheable res = fr_cacheable fast
  | Err e => compileUncached source catalog = Err e
  end ∧
  match (compile string_capacity notes_capacity sizeof_Entry sizeof_string c source catalog
           useCache).2 with
  | Ok res => ∃ res' value, compileUncached source catalog = Ok (res', value) ∧
                texts res = texts res' ∧ cr_cacheable res = cr_cacheable res'
  | Err e => compileUncached source catalog = Err e
  end.
Proof.
  intros Hn Hb Hd Hr Hu. apply compiler_reachable_ok in Hr as Hok; [|done..].
  pose proof (compileFast_ok string_capacity notes_capacity sizeof_Entry sizeof_string used
                c source catalog useCache Hd Hu Hok) as Hf.
  pose proof (compile_ok string_capacity notes_capacity sizeof_Entry sizeof_string used
                c source catalog useCache Hd Hu Hok) as Hc.
  destruct (compileFast _ _ _ _ _ _ _ _), (compile _ _ _ _ _ _ _ _). split; [apply Hf|apply Hc].
Qed.

(** Every request is answered: lexing, parsing, optimizing and generating the
    SQL of any source text against any catalog ends, with the statements or with
    the exception the code throws. *)
Theorem compile_answers source catalog :
  compileUncached source catalog ≠ Err Diverges.
Proof.
  unfold compileUncached, lex.
  destruct (tokenize_loop_total (tokenize_fuel source) (Lexer source)) as [[ts|e] E];
    [unfold tokenize_fuel; cbn; lia| |unfold tokenize; by rewrite E].
  unfold tokenize. rewrite E. cbn. apply tokenize_loop_reads in E. apply reads_eof in E.
  pose proof (parseAll_wp ts E) as H. unfold wp in H. unfold parse.
  destruct (parseAll ts) as [[ss rest]|[]]; try done. cbn.
  enough (rmap (compile_statement catalog) ss ≠ Err Diverges) as Hm
    by (destruct (rmap (compile_statement catalog) ss); [done|intros [= ->]; by destruct Hm]).
  clear. induction ss as [|ast ss IH]; [done|]. cbn.
  assert (compile_statement catalog ast ≠ Err Diverges) as Ha.
  { unfold compile_statement, optimize_statement.
    destruct ast; try done. by destruct (optimize _ _ _) as [[[]]|]. }
  destruct (compile_statement catalog ast); [|intros [= ->]; by destruct Ha]. cbn.
  destruct (rmap (compile_statement catalog) ss); [done|intros [= ->]; by destruct IH].
Qed.

Module Demo.
Definition capacity (s : string) : Z := Z.max 15 (Z.of_nat (String.length s)).
Definition source : string := "slay id no-cap t only-if id = 1 + 1".
Definition before : Catalog := emptyCatalog.
Definition after : Catalog :=
  addTable emptyCatalog (mkTableMeta "t" [mkColumnMeta "id" "INTEGER" true true "" ""]).
Definition used (c : Catalog) : Prop := c = before ∨ c = after.
(** The text compiled before the table exists. *)
Definition compiled : CompilationCache :=
  (compileFast capacity (λ l, Z.of_nat (length l)) 100 32 (newCache 8 10000) source before true).1.

Lemma used_distinguished : fingerprints_distinguish used.
Proof.
  assert (schemaFingerprint_ before ≠ schemaFingerprint_ after) as H by (vm_compute; discriminate).
  intros c1 c2 [->| ->] [->| ->] E;
    [reflexivity|destruct (H E)|destruct (H (eq_sym E))|reflexivity].
Qed.

Lemma compiled_reachable :
  compiler_reachable capacity (λ l, Z.of_nat (length l)) 100 32 used 8 10000 compiled.
Proof. apply rtc_once. apply step_compileFast. left. reflexivity. Qed.

Lemma entries_limit : 0 ≤ 8. Proof. lia. Qed.
Lemma bytes_limit : 0 ≤ 10000 < 2 ^ 63. Proof. split; [lia|reflexivity]. Qed.
Lemma used_after : used after. Proof. right. reflexivity. Qed.

Lemma answer :
  match (compileFast capacity (λ l, Z.of_nat (length l)) 100 32 compiled source after true).2 with
  | Ok fast => map cst_sql (fr_output fast) = ["SELECT id FROM t WHERE (id = 2) LIMIT 1"]
  | Err _ => False
  end.
Proof. vm_compute. reflexivity. Qed.
End Demo.

Example cache_transparent_witness :
  ∃ fast, (compileFast Demo.capacity (λ l, Z.of_nat (length l)) 100 32 Demo.compiled Demo.source
             Demo.after true).2 = Ok fast ∧
  map cst_sql (fr_output fast) = ["SELECT id FROM t WHERE (id = 2) LIMIT 1"] ∧
  ∃ res, compileUncached Demo.source Demo.after = Ok (res, fr_output fast).
Proof.
  pose proof (cache_transparent Demo.capacity (λ l, Z.of_nat (length l)) 100 32 Demo.used
    8 10000 Demo.compiled Demo.source Demo.after true Demo.entries_limit Demo.bytes_limit
    Demo.used_distinguished Demo.compiled_reachable Demo.used_after) as H.
  pose proof Demo.answer as Ha. revert H Ha.
  generalize (compile Demo.capacity (λ l, Z.of_nat (length l)) 100 32 Demo.compiled
                Demo.source Demo.after true).2.
  generalize (compileFast Demo.capacity (λ l, Z.of_nat (length l)) 100 32 Demo.compiled
                Demo.source Demo.after true).2.
  intros [fast|e] r [H _] Ha; [|destruct Ha]. destruct H as (res & H & _).
  exists fast. split; [reflexivity|]. split; [exact Ha|]. exists res. exact H.
Defined.
