(* ===== verification/Wal.v ===== *)
(** The undo log: [NativeWal] of [src/native_wal.cpp] and the part of
    [NativeEngine] that drives it (transactions and statements of
    [src/native_engine.cpp]).  The database directory is a map from the path of
    a file relative to the root to its bytes; opening, reading and writing a
    file succeed.  A crash may happen between any two writes and in the middle
    of an append to the log; the file shows that recovery then gives back the
    directory the transaction started from, or the one it committed. *)

From S2P Require Import Prelude.
From S2P Require Import Catalog.

Abbreviation disk := (gmap string bytes) (only parsing).

Definition kBegin : byte := "B"%byte.
Definition kFileBefore : byte := "F"%byte.
Definition kCommit : byte := "C"%byte.

(** [NativeWal::walPath], relative to [root_]. *)
Definition walPath : string := "skibidi.wal".

Record WalFileImage : Type := mkImage { wi_existed : bool; wi_bytes : bytes }.

(** ** Writing *)

Definition writePod (n : nat) (z : Z) : bytes := le_bytes n z.

(** What [appendRecord] writes. *)
Record WalRecord : Type := mkRecord {
  wr_type : byte;
  wr_transactionId : Z;
  wr_path : string;
  wr_existed : bool;
  wr_bytes : bytes;
}.

Definition record_bytes (r : WalRecord) : bytes :=
  wr_type r ::
  writePod 8 (wr_transactionId r) ++
  writePod 4 (wrap32 (Z.of_nat (String.length (wr_path r)))) ++
  writePod 8 (Z.of_nat (length (wr_bytes r))) ++
  [if wr_existed r then Byte.x01 else Byte.x00] ++
  bytes_of (wr_path r) ++ wr_bytes r.

(** [std::ios::app] creates a missing file. *)
Definition append_bytes (bs : bytes) (d : disk) : disk :=
  <[walPath := default [] (d !! walPath) ++ bs]> d.

Definition appendRecord (r : WalRecord) (d : disk) : disk :=
  append_bytes (record_bytes r) d.

Definition begin_record (id : Z) : WalRecord := mkRecord kBegin id "" false [].
Definition before_record (id : Z) (path : string) (before : option bytes) : WalRecord :=
  mkRecord kFileBefore id path (bool_decide (is_Some before)) (default [] before).
Definition commit_record (id : Z) : WalRecord := mkRecord kCommit id "" false [].

(** [begin]: the identifier comes from the clock and a process-wide counter. *)
Definition begin_ (id : Z) (d : disk) : disk := appendRecord (begin_record id) d.
Definition logBefore (id : Z) (path : string) (before : option bytes) (d : disk) : disk :=
  appendRecord (before_record id path before) d.
Definition commit (id : Z) (d : disk) : disk := appendRecord (commit_record id) d.
Definition checkpoint (d : disk) : disk := delete walPath d.

(** ** Recovery *)

(** [input.read] of [n] bytes; [None] when the stream ends before. *)
Definition read_exact (n : nat) (input : bytes) : option (bytes * bytes) :=
  if decide (length input < n)%nat then None
  else Some (take n input, drop n input).

Definition readPod (n : nat) (input : bytes) : option (Z * bytes) :=
  p ← read_exact n input; Some (le_value p.1, p.2).

(** One turn of the loop of [recover]: [None] is a [break].  A vector of more
    than [max_size] bytes cannot be made. *)
Definition readRecord (input : bytes) : exec (option (WalRecord * bytes)) :=
  match
    type ← read_exact 1 input;
    id ← readPod 8 type.2;
    pathSize ← readPod 4 id.2;
    dataSize ← readPod 8 pathSize.2;
    existed ← readPod 1 dataSize.2;
    path ← read_exact (Z.to_nat pathSize.1) existed.2;
    Some (type.1, id.1, path.1, negb (existed.1 =? 0), dataSize.1, path.2)
  with
  | None => Ok None
  | Some (type, id, path, existed, dataSize, input) =>
      if decide (2 ^ 63 ≤ dataSize) then
        Err (Throw "cannot create std::vector larger than max_size()")
      else
        match read_exact (Z.to_nat dataSize) input with
        | None => Ok None
        | Some (data, input) =>
            Ok (Some (mkRecord (default Byte.x00 (head type)) id (string_of path)
                        existed data, input))
        end
  end.

Record Transaction : Type := mkTransaction {
  committed : bool;
  beforeImages : gmap string WalFileImage;
}.

(** [transactions[transactionId]] and the record's effect on it;
    [emplace] keeps an image that is already there. *)
Definition apply_record (ts : gmap Z Transaction) (r : WalRecord) : gmap Z Transaction :=
  let t := default (mkTransaction false ∅) (ts !! wr_transactionId r) in
  <[wr_transactionId r :=
      if decide (wr_type r = kCommit) then mkTransaction true (beforeImages t)
      else if decide (wr_type r = kFileBefore ∧ wr_path r ≠ "") then
        mkTransaction (committed t)
          (match beforeImages t !! wr_path r with
           | Some _ => beforeImages t
           | None => <[wr_path r := mkImage (wr_existed r) (wr_bytes r)]> (beforeImages t)
           end)
      else t]> ts.

Fixpoint read_log (fuel : nat) (input : bytes) (ts : gmap Z Transaction)
    : exec (gmap Z Transaction) :=
  match fuel with
  | O => Ok ts
  | S fuel' =>
      let* r := readRecord input in
      match r with
      | None => Ok ts
      | Some (r, input) => read_log fuel' input (apply_record ts r)
      end
  end.

Definition restoreFile (d : disk) (path : string) (image : WalFileImage) : disk :=
  if wi_existed image then <[path := wi_bytes image]> d else delete path d.

(** The files of one transaction, in the order the reverse iteration over the
    [std::map] restores them. *)
Definition undo_files (t : Transaction) : list (string * WalFileImage) :=
  if committed t then []
  else omap (λ path, (λ image, (path, image)) <$> beforeImages t !! path)
         (reverse (sortedNames (beforeImages t))).

Definition sorted_ids (ts : gmap Z Transaction) : list Z :=
  merge_sort Z.le (map fst (map_to_list ts)).

Definition undo_list (ts : gmap Z Transaction) : list (string * WalFileImage) :=
  concat (map (λ id, default [] (undo_files <$> ts !! id)) (sorted_ids ts)).

Definition restore_all (files : list (string * WalFileImage)) (d : disk) : disk :=
  fold_left (λ d f, restoreFile d f.1 f.2) files d.

Definition recover (d : disk) : exec disk :=
  match d !! walPath with
  | None => Ok d
  | Some input =>
      let* ts := read_log (S (length input)) input ∅ in
      Ok (checkpoint (restore_all (undo_list ts) d))
  end.

(** ** The engine's side: [walTransactionId_] and [walLoggedFiles_] *)

Record walState : Type := mkWalState {
  walTransactionId_ : Z;
  walLoggedFiles_ : gset string;
}.
Definition idle : walState := mkWalState 0 ∅.

Definition beginWalTransaction (id : Z) (s : walState) (d : disk) : walState * disk :=
  if walTransactionId_ s =? 0 then (mkWalState id ∅, begin_ id d) else (s, d).

Definition recordWalBefore (path : string) (s : walState) (d : disk) : walState * disk :=
  if walTransactionId_ s =? 0 then (s, d)
  else if decide (path ∈ walLoggedFiles_ s) then (s, d)
  else (mkWalState (walTransactionId_ s) ({[path]} ∪ walLoggedFiles_ s),
        logBefore (walTransactionId_ s) path (d !! path) d).

Definition commitWalTransaction (s : walState) (d : disk) : walState * disk :=
  if walTransactionId_ s =? 0 then (s, d) else (idle, commit (walTransactionId_ s) d).

Definition discardWalTransaction (s : walState) (d : disk) : exec (walState * disk) :=
  if walTransactionId_ s =? 0 then Ok (s, d)
  else let* d := recover d in Ok (idle, d).

(** [NativeEngine::execute] around a statement that changes files, and
    [commitTransaction]: flush, commit, checkpoint. *)
Definition finish (s : walState) (d : disk) : walState * disk :=
  let (s, d) := commitWalTransaction s d in (s, checkpoint d).

(** [beginTransaction], after the flush: every regular file is remembered. *)
Record transaction : Type := mkActive {
  transactionSnapshot_ : gmap string bytes;
  ta_wal : walState;
}.

Definition beginTransaction (id : Z) (s : walState) (d : disk) : transaction * disk :=
  let (s, d') := beginWalTransaction id s d in (mkActive d s, d').

(** [rollbackTransaction]: the directory after each of its steps, up to the
    [checkpoint]; [order] is the order of the unordered map. *)
Definition write_back (t : transaction) (d : disk) (path : string) : disk :=
  match transactionSnapshot_ t !! path with
  | Some bs => <[path := bs]> d
  | None => d
  end.

Definition rollback_after (t : transaction) (paths : list string) : disk :=
  fold_left (write_back t) paths ∅.

Definition rollbackTransaction (t : transaction) (order : list string)
    : walState * disk :=
  (idle, checkpoint (rollback_after t order)).

(** ** What is read back *)

Definition record_ok (r : WalRecord) : Prop :=
  u64 (wr_transactionId r) ∧ Z.of_nat (String.length (wr_path r)) < 2 ^ 32 ∧
  Z.of_nat (length (wr_bytes r)) < 2 ^ 63.

Lemma read_exact_app n a b : length a = n → read_exact n (a ++ b) = Some (a, b).
Proof.
  intros <-. unfold read_exact. rewrite decide_False by (rewrite length_app; lia).
  by rewrite take_app_length, drop_app_length.
Qed.

Lemma read_exact_short n input : (length input < n)%nat → read_exact n input = None.
Proof. intros H. unfold read_exact. by rewrite decide_True. Qed.

Lemma pod_read_app n z rest :
  uint (8 * Z.of_nat n) z → readPod n (writePod n z ++ rest) = Some (z, rest).
Proof.
  intros Hz. unfold readPod, writePod. rewrite read_exact_app by apply length_le_bytes.
  cbn. rewrite le_value_bytes; [done|]. unfold uint in Hz. by rewrite Z.mul_comm.
Qed.

Lemma read_existed b rest :
  readPod 1 ((if b : bool then Byte.x01 else Byte.x00) :: rest) =
  Some (if b then 1 else 0, rest).
Proof. by destruct b. Qed.

Lemma readRecord_record r rest :
  record_ok r → readRecord (record_bytes r ++ rest) = Ok (Some (r, rest)).
Proof.
  destruct r as [ty id path ex bs]. intros (Hid & Hp & Hb). cbn in Hid, Hp, Hb.
  unfold readRecord, record_bytes. cbn [wr_type wr_transactionId wr_path wr_existed wr_bytes].
  change (ty :: ?x ++ ?y) with ([ty] ++ (x ++ y)). rewrite <- !app_assoc.
  rewrite (read_exact_app 1 [ty]) by done. cbn [mbind option_bind fst snd].
  rewrite pod_read_app by exact Hid. cbn [mbind option_bind fst snd].
  rewrite pod_read_app by (apply wrap_uint; lia). cbn [mbind option_bind fst snd].
  rewrite pod_read_app by (change (u64 (Z.of_nat (length bs))); unfold uint; lia).
  cbn [mbind option_bind fst snd app].
  rewrite read_existed. cbn [mbind option_bind fst snd].
  rewrite (wrap_small 32) by (unfold uint; lia). rewrite Nat2Z.id.
  rewrite read_exact_app by apply length_bytes_of. cbn [mbind option_bind fst snd].
  rewrite decide_False by lia. rewrite Nat2Z.id, read_exact_app by done.
  rewrite string_of_bytes_of. destruct ex; reflexivity.
Qed.

(** More input does not change what has been read. *)
Lemma read_exact_more n p s a b :
  read_exact n p = Some (a, b) → read_exact n (p ++ s) = Some (a, b ++ s).
Proof.
  unfold read_exact. case_decide as H; [done|]. intros [= <- <-].
  rewrite decide_False by (rewrite length_app; lia).
  rewrite take_app_le, drop_app_le by lia. done.
Qed.

Lemma readPod_more n p s z b :
  readPod n p = Some (z, b) → readPod n (p ++ s) = Some (z, b ++ s).
Proof.
  unfold readPod. intros H. apply bind_Some in H as ([a b'] & H & [= <- <-]).
  by rewrite (read_exact_more _ _ s _ _ H).
Qed.

Lemma readRecord_more p s :
  match readRecord p with
  | Ok None => True
  | Ok (Some (r, rest)) => readRecord (p ++ s) = Ok (Some (r, rest ++ s))
  | Err e => readRecord (p ++ s) = Err e
  end.
Proof.
  unfold readRecord.
  destruct (read_exact 1 p) as [[ty p1]|] eqn:E1; [|done].
  rewrite (read_exact_more _ _ s _ _ E1). cbn [mbind option_bind fst snd].
  destruct (readPod 8 p1) as [[id p2]|] eqn:E2; [|done].
  rewrite (readPod_more _ _ s _ _ E2). cbn [mbind option_bind fst snd].
  destruct (readPod 4 p2) as [[ps p3]|] eqn:E3; [|done].
  rewrite (readPod_more _ _ s _ _ E3). cbn [mbind option_bind fst snd].
  destruct (readPod 8 p3) as [[ds p4]|] eqn:E4; [|done].
  rewrite (readPod_more _ _ s _ _ E4). cbn [mbind option_bind fst snd].
  destruct (readPod 1 p4) as [[ex p5]|] eqn:E5; [|done].
  rewrite (readPod_more _ _ s _ _ E5). cbn [mbind option_bind fst snd].
  destruct (read_exact (Z.to_nat ps) p5) as [[path p6]|] eqn:E6; [|done].
  rewrite (read_exact_more _ _ s _ _ E6). cbn [mbind option_bind fst snd].
  case_decide; [done|].
  destruct (read_exact (Z.to_nat ds) p6) as [[data p7]|] eqn:E7; [|done].
  by rewrite (read_exact_more _ _ s _ _ E7).
Qed.

(** A record whose writing was interrupted ends the reading. *)
Lemma readRecord_torn r p s :
  record_ok r → record_bytes r = p ++ s → s ≠ [] → readRecord p = Ok None.
Proof.
  intros Hr Hps Hs. pose proof (readRecord_record r [] Hr) as Hfull.
  rewrite app_nil_r, Hps in Hfull. pose proof (readRecord_more p s) as Hmore.
  destruct (readRecord p) as [[[r' rest]|]|e]; [|done|congruence].
  rewrite Hmore in Hfull. injection Hfull as _ Hnil.
  by destruct (app_eq_nil _ _ Hnil).
Qed.

Definition log_bytes (rs : list WalRecord) : bytes := concat (record_bytes <$> rs).

Lemma record_bytes_cons r : ∃ c bs, record_bytes r = c :: bs.
Proof. unfold record_bytes. eauto. Qed.

(** Reading a log, complete but for an interrupted last record. *)
Lemma read_log_log rs torn ts fuel :
  Forall record_ok rs → readRecord torn = Ok None →
  (length (log_bytes rs ++ torn) < fuel)%nat →
  read_log fuel (log_bytes rs ++ torn) ts = Ok (fold_left apply_record rs ts).
Proof.
  intros Hrs Htorn. revert ts fuel.
  induction Hrs as [|r rs Hr _ IH]; intros ts [|fuel] Hfuel; try lia.
  - cbn. by rewrite Htorn.
  - unfold log_bytes in *. cbn [fmap list_fmap concat read_log] in *.
    rewrite <- app_assoc, readRecord_record by done. cbn [rbind].
    rewrite IH; [done|]. destruct (record_bytes_cons r) as (c & bs & Hc).
    rewrite Hc, <- app_assoc, length_app in Hfuel. cbn in Hfuel. lia.
Qed.

Lemma log_bytes_snoc rs r : log_bytes (rs ++ [r]) = log_bytes rs ++ record_bytes r.
Proof.
  unfold log_bytes. rewrite fmap_app, concat_app. cbn [fmap list_fmap concat].
  by rewrite app_nil_r.
Qed.

(** The reading ends with this fuel on any input. *)
Lemma readRecord_shorter input r rest :
  readRecord input = Ok (Some (r, rest)) → (length rest < length input)%nat.
Proof.
  assert (Hre : ∀ n p a b, read_exact n p = Some (a, b) → length p = (n + length b)%nat).
  { intros n p a b. unfold read_exact. case_decide; [done|]. intros [= <- <-].
    rewrite length_drop. lia. }
  assert (Hrp : ∀ n p a b, readPod n p = Some (a, b) → length p = (n + length b)%nat).
  { intros n p z b H. unfold readPod in H. apply bind_Some in H as ([a b'] & H & [= <- <-]).
    by apply Hre in H. }
  unfold readRecord. intros H.
  destruct (read_exact 1 input) as [[ty p1]|] eqn:E1; [|done]. apply Hre in E1. cbn in H.
  destruct (readPod 8 p1) as [[id p2]|] eqn:E2; [|done]. apply Hrp in E2. cbn in H.
  destruct (readPod 4 p2) as [[ps p3]|] eqn:E3; [|done]. apply Hrp in E3. cbn in H.
  destruct (readPod 8 p3) as [[ds p4]|] eqn:E4; [|done]. apply Hrp in E4. cbn in H.
  destruct (readPod 1 p4) as [[ex p5]|] eqn:E5; [|done]. apply Hrp in E5. cbn in H.
  destruct (read_exact (Z.to_nat ps) p5) as [[path p6]|] eqn:E6; [|done].
  apply Hre in E6. cbn in H. case_decide; [done|].
  destruct (read_exact (Z.to_nat ds) p6) as [[data p7]|] eqn:E7; [|done].
  apply Hre in E7. injection H as <- <-. lia.
Qed.

Lemma read_log_fuel input ts f g :
  (length input < f)%nat → (length input < g)%nat →
  read_log f input ts = read_log g input ts.
Proof.
  revert input ts g. induction f as [|f IH]; intros input ts [|g] Hf Hg; try lia.
  cbn. destruct (readRecord input) as [[[r rest]|]|e] eqn:E; [|done..]. cbn.
  apply readRecord_shorter in E. apply IH; lia.
Qed.

(** ** Restoring *)

Definition image_of (f : option bytes) : WalFileImage :=
  mkImage (bool_decide (is_Some f)) (default [] f).
Definition content_of (i : WalFileImage) : option bytes :=
  if wi_existed i then Some (wi_bytes i) else None.

Lemma content_image f : content_of (image_of f) = f.
Proof. by destruct f. Qed.

Lemma restoreFile_lookup d path i k :
  restoreFile d path i !! k = if decide (k = path) then content_of i else d !! k.
Proof.
  unfold restoreFile, content_of. destruct (wi_existed i); case_decide; subst.
  - by rewrite lookup_insert_eq.
  - by rewrite lookup_insert_ne.
  - by rewrite lookup_delete_eq.
  - by rewrite lookup_delete_ne.
Qed.

(** The last restoration of a file decides; other files are as before. *)
Lemma restore_all_lookup files d k :
  restore_all files d !! k =
  match last (filter (λ f, f.1 = k) files) with
  | Some f => content_of f.2
  | None => d !! k
  end.
Proof.
  revert d. induction files as [|[p i] files IH] using rev_ind; intros d; [done|].
  unfold restore_all in *. rewrite fold_left_app. cbn [fold_left fst snd].
  rewrite restoreFile_lookup, filter_app. cbn. case_decide as Hk.
  - rewrite decide_True by done. by rewrite last_snoc.
  - rewrite decide_False by done. by rewrite app_nil_r, IH.
Qed.

Lemma last_restored files k :
  k ∈ files.*1 ↔ is_Some (last (filter (λ f : string * WalFileImage, f.1 = k) files)).
Proof.
  split.
  - intros (f & -> & Hf)%list_elem_of_fmap.
    destruct (last _) as [g|] eqn:E; [eauto|]. apply last_None in E.
    assert (f ∈ filter (λ g, g.1 = f.1) files) as Hin by by apply list_elem_of_filter.
    rewrite E in Hin. by apply not_elem_of_nil in Hin.
  - intros [f Hf]. apply last_Some in Hf as [l Hl].
    assert (f ∈ filter (λ g, g.1 = k) files) as [<- Hin]%list_elem_of_filter.
    { rewrite Hl. apply elem_of_app. right. apply list_elem_of_here. }
    by apply list_elem_of_fmap_2.
Qed.

Lemma restore_all_other files d k :
  k ∉ files.*1 → restore_all files d !! k = d !! k.
Proof.
  intros Hk. rewrite restore_all_lookup. rewrite last_restored in Hk.
  destruct (last _); [|done]. destruct Hk. eauto.
Qed.

Lemma restore_all_ext files d d' :
  (∀ k, k ∉ files.*1 → d !! k = d' !! k) → restore_all files d = restore_all files d'.
Proof.
  intros H. apply map_eq. intros k. rewrite !restore_all_lookup.
  destruct (last _) as [f|] eqn:E; [done|]. apply H. rewrite last_restored, E.
  by intros [? [=]].
Qed.

Lemma elem_of_undo_files t k i :
  (k, i) ∈ undo_files t ↔ committed t = false ∧ beforeImages t !! k = Some i.
Proof.
  unfold undo_files. destruct (committed t).
  - rewrite elem_of_nil. split; [done|]. by intros [? _].
  - rewrite list_elem_of_omap. split.
    + intros (j & _ & Hj). apply fmap_Some in Hj as (i0 & Hi & [= -> ->]). done.
    + intros [_ H]. exists k. rewrite H. split; [|done].
      apply elem_of_reverse, sortedNames_elem. eauto.
Qed.

(** Undoing an uncommitted transaction puts every image back. *)
Lemma undo_lookup t d k :
  committed t = false →
  restore_all (undo_files t) d !! k =
  match beforeImages t !! k with Some i => content_of i | None => d !! k end.
Proof.
  intros Ht. rewrite restore_all_lookup. destruct (last _) as [[k' i]|] eqn:E.
  - apply last_Some in E as [l Hl].
    assert ((k', i) ∈ filter (λ f, f.1 = k) (undo_files t)) as [Hk Hi]%list_elem_of_filter.
    { rewrite Hl. apply elem_of_app. right. apply list_elem_of_here. }
    cbn in Hk. subst k'. apply elem_of_undo_files in Hi as [_ ->]. done.
  - destruct (beforeImages t !! k) as [i|] eqn:Hi; [|done].
    assert (k ∈ (undo_files t).*1) as Hin.
    { apply (list_elem_of_fmap_2 fst _ (k, i)). by apply elem_of_undo_files. }
    apply last_restored in Hin as [? Hin]. congruence.
Qed.

Lemma undo_list_singleton id t : undo_list {[id := t]} = undo_files t.
Proof.
  unfold undo_list, sorted_ids. rewrite map_to_list_singleton. cbn.
  rewrite lookup_singleton_eq. cbn. apply app_nil_r.
Qed.

(** The files recovery is going to restore. *)
Definition recovery_plan (d : disk) : exec (list (string * WalFileImage)) :=
  match d !! walPath with
  | None => Ok []
  | Some input => let* ts := read_log (S (length input)) input ∅ in Ok (undo_list ts)
  end.

Lemma recover_plan_eq d :
  recover d = let* files := recovery_plan d in Ok (checkpoint (restore_all files d)).
Proof.
  unfold recover, recovery_plan. destruct (d !! walPath) eqn:E.
  - by rewrite rbind_assoc.
  - cbn. unfold checkpoint. by rewrite delete_id.
Qed.

(** Recovery itself may be interrupted, between two files or inside one. *)
Inductive recovery_crash (d : disk) : disk → Prop :=
  | crash_between files l l' :
      recovery_plan d = Ok files → files = l ++ l' →
      recovery_crash d (restore_all l d)
  | crash_inside files l path image l' f :
      recovery_plan d = Ok files → files = l ++ (path, image) :: l' →
      recovery_crash d (partial_alter (λ _, f) path (restore_all l d)).

Lemma recovery_crash_same d d' files :
  recovery_plan d = Ok files → walPath ∉ (files.*1) → recovery_crash d d' →
  recovery_plan d' = Ok files ∧ restore_all files d' = restore_all files d.
Proof.
  intros Hplan Hwal Hcrash.
  assert (∀ k, k ∉ files.*1 → d' !! k = d !! k) as Hsame.
  { intros k Hk. inversion Hcrash as [fs l l' Hp Hl|fs l path i l' f Hp Hl]; subst d';
      rewrite Hp in Hplan; injection Hplan as ->; subst files;
      rewrite fmap_app, elem_of_app in Hk; [|rewrite lookup_partial_alter_ne];
      try (apply restore_all_other; tauto).
    intros ->. apply Hk. right. apply list_elem_of_here. }
  split.
  - unfold recovery_plan in *. by rewrite (Hsame _ Hwal).
  - by apply restore_all_ext.
Qed.

Lemma recovery_crashes_same d d' files :
  recovery_plan d = Ok files → walPath ∉ (files.*1) → rtc recovery_crash d d' →
  recover d' = recover d.
Proof.
  intros Hplan Hwal Hcrash. revert files Hplan Hwal.
  induction Hcrash as [|d d1 d' H _ IH]; intros files Hplan Hwal; [done|].
  destruct (recovery_crash_same _ _ _ Hplan Hwal H) as [Hplan1 Hsame].
  rewrite (IH _ Hplan1 Hwal), !recover_plan_eq, Hplan, Hplan1. cbn. by rewrite Hsame.
Qed.

(** ** A transaction and its log *)

Section transaction.
Context (id : Z) (d0 : disk).
Hypothesis Hid : u64 id.
Hypothesis Hnz : id ≠ 0.
Hypothesis Hclean : d0 !! walPath = None.
Hypothesis Hsmall : map_Forall (λ _ bs, Z.of_nat (length bs) < 2 ^ 63) d0.

Definition path_ok (path : string) : Prop :=
  path ≠ walPath ∧ path ≠ "" ∧ Z.of_nat (String.length path) < 2 ^ 32.

(** What an open transaction may do: log a file before it changes it, and
    change the files it has logged in any way. *)
Inductive running : walState → disk → Prop :=
  | run_begin :
      running (beginWalTransaction id idle d0).1 (beginWalTransaction id idle d0).2
  | run_record s d path :
      running s d → path_ok path →
      running (recordWalBefore path s d).1 (recordWalBefore path s d).2
  | run_change s d path f :
      running s d → path ∈ walLoggedFiles_ s →
      running s (partial_alter (λ _, f) path d).

(** What a crash before the commit marker is complete leaves behind. *)
Inductive crashed : disk → Prop :=
  | crash_before : crashed d0
  | crash_begin p q :
      record_bytes (begin_record id) = p ++ q → q ≠ [] → crashed (append_bytes p d0)
  | crash_running s d : running s d → crashed d
  | crash_append s d r p q :
      running s d → record_ok r → record_bytes r = p ++ q → q ≠ [] →
      crashed (append_bytes p d).

Definition logged_records (paths : list string) : list WalRecord :=
  begin_record id :: map (λ path, before_record id path (d0 !! path)) paths.

Definition running_inv (s : walState) (d : disk) : Prop :=
  ∃ paths,
    walTransactionId_ s = id ∧
    d !! walPath = Some (log_bytes (logged_records paths)) ∧
    Forall path_ok paths ∧
    (∀ path, path ∈ walLoggedFiles_ s ↔ path ∈ paths) ∧
    ∀ k, k ≠ walPath → k ∉ paths → d !! k = d0 !! k.

Lemma logged_records_snoc paths path :
  logged_records (paths ++ [path]) =
  logged_records paths ++ [before_record id path (d0 !! path)].
Proof. unfold logged_records. by rewrite map_app. Qed.

Lemma running_ok s d : running s d → running_inv s d.
Proof.
  induction 1 as [|s d path Hrun (paths & Hs & Hlog & Hok & Hin & Hd) Hpath
                 |s d path f Hrun (paths & Hs & Hlog & Hok & Hin & Hd) Hlogged].
  - unfold beginWalTransaction, idle. cbn. exists []. split; [done|].
    unfold begin_, appendRecord, append_bytes. rewrite Hclean, lookup_insert_eq.
    split.
    { unfold logged_records, log_bytes. cbn [map fmap list_fmap concat default].
      by rewrite app_nil_r. }
    split; [constructor|]. split.
    + intros path. cbn. rewrite elem_of_nil. set_solver.
    + intros k Hk _. by rewrite lookup_insert_ne.
  - unfold recordWalBefore. rewrite Hs. replace (id =? 0) with false by lia.
    case_decide as Hl; [by exists paths|]. exists (paths ++ [path]). cbn [walTransactionId_ walLoggedFiles_ fst snd].
    assert (path ∉ paths) as Hnew by by rewrite <- Hin.
    split; [done|]. unfold logBefore, appendRecord, append_bytes.
    rewrite lookup_insert_eq, Hlog, logged_records_snoc, log_bytes_snoc, Hd
      by (done || apply Hpath).
    split; [done|]. split; [apply Forall_app; auto|]. split.
    + intros p. rewrite elem_of_union, elem_of_singleton, elem_of_app, Hin,
        list_elem_of_singleton. tauto.
    + intros k Hk Hk'. rewrite lookup_insert_ne by done. apply Hd; [done|].
      intros ?. apply Hk', elem_of_app. auto.
  - exists paths. apply Hin in Hlogged.
    assert (path_ok path) as (Hne & _) by by eapply Forall_forall.
    split; [done|]. rewrite lookup_partial_alter_ne by done.
    split; [done|]. split; [done|]. split; [done|]. intros k Hk Hk'.
    rewrite lookup_partial_alter_ne; [by apply Hd|]. by intros ->.
Qed.

Lemma logged_records_ok paths : Forall path_ok paths → Forall record_ok (logged_records paths).
Proof.
  intros H. constructor; [by split_and!|]. apply Forall_fmap.
  eapply Forall_impl; [exact H|]. intros path (_ & _ & Hlen). split_and!; [done..|].
  cbn. destruct (d0 !! path) as [bs|] eqn:E; [|done]. exact (Hsmall path bs E).
Qed.

(** The images the log of an open transaction holds. *)
Lemma logged_images paths :
  Forall path_ok paths →
  ∃ images,
    fold_left apply_record (logged_records paths) ∅ = {[id := mkTransaction false images]} ∧
    ∀ k, images !! k = if decide (k ∈ paths) then Some (image_of (d0 !! k)) else None.
Proof.
  induction paths as [|path paths IH] using rev_ind; intros Hok.
  - exists ∅. split; [done|]. intros k. rewrite lookup_empty. by rewrite decide_False
      by apply not_elem_of_nil.
  - apply Forall_app in Hok as [Hok Hp]. apply Forall_singleton in Hp as (_ & Hne & _).
    destruct (IH Hok) as (images & Hfold & Himg).
    exists (match images !! path with
            | Some _ => images
            | None => <[path := image_of (d0 !! path)]> images end).
    rewrite logged_records_snoc, fold_left_app, Hfold. split.
    + cbn. unfold apply_record. cbn. rewrite lookup_singleton_eq. cbn.
      rewrite insert_singleton_eq. rewrite (decide_True (P := _ ∧ _)) by done. done.
    + intros k. pose proof (Himg path) as Hpath. pose proof (Himg k) as Hk.
      destruct (decide (k = path)) as [->|Hkp].
      * rewrite (decide_True (P := path ∈ paths ++ [path])) by
          (apply elem_of_app; right; apply list_elem_of_here).
        destruct (images !! path) eqn:E; [|by rewrite lookup_insert_eq].
        rewrite E. by destruct (decide (path ∈ paths)).
      * assert (k ∈ paths ++ [path] ↔ k ∈ paths) as Hiff.
        { rewrite elem_of_app, list_elem_of_singleton. tauto. }
        rewrite (decide_ext _ _ _ _ Hiff), <- Hk.
        by destruct (images !! path); rewrite ?lookup_insert_ne.
Qed.

(** Recovery from the log of an open transaction, torn tail included. *)
Lemma running_plan s d torn :
  running s d → readRecord torn = Ok None →
  let d' := <[walPath := default [] (d !! walPath) ++ torn]> d in
  ∃ files, recovery_plan d' = Ok files ∧ (walPath ∉ files.*1) ∧
    checkpoint (restore_all files d') = d0.
Proof.
  intros (paths & Hs & Hlog & Hok & Hin & Hd)%running_ok Htorn.
  destruct (logged_images paths Hok) as (images & Hfold & Himg). cbv zeta.
  unfold recovery_plan. rewrite lookup_insert_eq, Hlog. cbn [default Datatypes.id].
  rewrite read_log_log by (apply logged_records_ok, Hok || done || lia).
  cbn [rbind]. rewrite Hfold, undo_list_singleton.
  exists (undo_files (mkTransaction false images)). split; [done|]. split.
  - intros (f & Hf & Hin')%list_elem_of_fmap. destruct f as [k i]. cbn in Hf. subst k.
    apply elem_of_undo_files in Hin' as [_ Hi]. cbn in Hi. rewrite Himg in Hi.
    case_decide as Hk; [|done]. by apply (proj1 (Forall_forall _ _) Hok) in Hk as [].
  - apply map_eq. intros k. unfold checkpoint. destruct (decide (k = walPath)) as [->|Hk].
    + by rewrite lookup_delete_eq.
    + rewrite lookup_delete_ne by done. rewrite undo_lookup by done. cbn.
      rewrite Himg. case_decide as Hkp; [apply content_image|].
      rewrite lookup_insert_ne by done. by apply Hd.
Qed.

Lemma crashed_plan d :
  crashed d →
  ∃ files, recovery_plan d = Ok files ∧ (walPath ∉ files.*1) ∧
    checkpoint (restore_all files d) = d0.
Proof.
  intros [|p q Hpq Hq|s d' Hrun|s d' r p q Hrun Hr Hpq Hq].
  - exists []. unfold recovery_plan. rewrite Hclean. split; [done|].
    split; [apply not_elem_of_nil|]. unfold checkpoint. by rewrite delete_id.
  - exists []. unfold recovery_plan, append_bytes. rewrite lookup_insert_eq, Hclean.
    cbn [default Datatypes.id app].
    assert (record_ok (begin_record id)) as Hok by by split_and!.
    pose proof (readRecord_torn _ _ _ Hok Hpq Hq) as Htorn.
    cbn [read_log]. rewrite Htorn. cbn [rbind]. split; [done|].
    split; [apply not_elem_of_nil|]. unfold restore_all, checkpoint. cbn [fold_left].
    by rewrite delete_insert_id.
  - pose proof (running_ok _ _ Hrun) as (paths & _ & Hlog & _).
    pose proof (running_plan s d' [] Hrun eq_refl) as Hplan. revert Hplan.
    rewrite app_nil_r, Hlog. cbn [default Datatypes.id]. by rewrite insert_id.
  - apply (running_plan s); [done|]. by apply (readRecord_torn r _ q).
Qed.

(** A commit marker makes recovery keep the changes. *)
Lemma recover_committed s d :
  running s d →
  commitWalTransaction s d = (idle, commit id d) ∧
  recover (commit id d) = Ok (delete walPath d).
Proof.
  intros (paths & Hs & Hlog & Hok & Hin & Hd)%running_ok.
  unfold commitWalTransaction. rewrite Hs. replace (id =? 0) with false by lia.
  split; [done|]. destruct (logged_images paths Hok) as (images & Hfold & Himg).
  rewrite recover_plan_eq. unfold recovery_plan, commit, appendRecord, append_bytes.
  rewrite lookup_insert_eq, Hlog. cbn [default Datatypes.id].
  rewrite <- log_bytes_snoc.
  replace (log_bytes _) with (log_bytes (logged_records paths ++ [commit_record id]) ++ [])
    by apply app_nil_r.
  rewrite read_log_log; [|apply Forall_app; split;
    [by apply logged_records_ok|apply Forall_singleton; by split_and!]|done|lia].
  rewrite fold_left_app, Hfold. cbn [fold_left]. unfold apply_record. cbn [wr_transactionId].
  rewrite lookup_singleton_eq, insert_singleton_eq, decide_True by done.
  cbn [rbind]. rewrite undo_list_singleton. unfold undo_files, restore_all, checkpoint.
  cbn [committed fold_left rbind]. by rewrite delete_insert_eq.
Qed.

End transaction.

(** ** Rolling back *)

Lemma rollback_lookup t paths k :
  rollback_after t paths !! k =
  if decide (k ∈ paths) then transactionSnapshot_ t !! k else None.
Proof.
  unfold rollback_after. induction paths as [|p paths IH] using rev_ind; [done|].
  rewrite fold_left_app. cbn. unfold write_back at 1.
  assert (k ∈ paths ++ [p] ↔ k ∈ paths ∨ k = p) as Hiff.
  { by rewrite elem_of_app, list_elem_of_singleton. }
  rewrite (decide_ext _ _ _ _ Hiff).
  destruct (transactionSnapshot_ t !! p) as [bs|] eqn:E.
  - destruct (decide (k = p)) as [->|Hk].
    + rewrite lookup_insert_eq, decide_True by auto. done.
    + rewrite lookup_insert_ne, IH by done. by repeat case_decide; tauto.
  - rewrite IH. repeat case_decide; try tauto. destruct_or?; try tauto. by subst.
Qed.

Definition rollback_order (t : transaction) (order : list string) : Prop :=
  ∀ path, path ∈ order ↔ is_Some (transactionSnapshot_ t !! path).

Lemma rollback_restores_snapshot t order :
  rollback_order t order → transactionSnapshot_ t !! walPath = None →
  rollbackTransaction t order = (idle, transactionSnapshot_ t).
Proof.
  intros Horder Hwal. unfold rollbackTransaction, checkpoint. f_equal. apply map_eq.
  intros k. destruct (decide (k = walPath)) as [->|Hk]; [by rewrite lookup_delete_eq|].
  rewrite lookup_delete_ne, rollback_lookup by done. case_decide as Hin; [done|].
  destruct (transactionSnapshot_ t !! k) eqn:E; [|done]. destruct Hin. by apply Horder; rewrite E.
Qed.

(** * Properties *)

(** C11: a transaction over the directory [d0] is all or nothing.  Whatever it
    has logged and changed, and wherever a crash stops it before its commit
    marker is complete, in the middle of an append included, recovery gives
    back exactly [d0], also when recovery is itself stopped and started again
    any number of times; an error that discards the transaction does so
    too.  From the commit marker on recovery keeps every change, and the
    checkpoint leaves the changed directory without a log. *)
Theorem transaction_atomic (id : Z) (d0 : disk) :
  u64 id → id ≠ 0 → d0 !! walPath = None →
  map_Forall (λ _ bs, Z.of_nat (length bs) < 2 ^ 63) d0 →
  (∀ d d', crashed id d0 d → rtc recovery_crash d d' → recover d' = Ok d0) ∧
  (∀ s d, running id d0 s d →
     discardWalTransaction s d = Ok (idle, d0) ∧
     recover (commitWalTransaction s d).2 = Ok (delete walPath d) ∧
     finish s d = (idle, delete walPath d)).
Proof.
  intros Hid Hnz Hclean Hsmall.
  assert (∀ d d', crashed id d0 d → rtc recovery_crash d d' → recover d' = Ok d0) as Hcrash.
  { intros d d' Hd Hdd.
    destruct (crashed_plan id d0 Hid Hnz Hclean Hsmall d Hd) as (files & Hplan & Hwal & Hd0).
    rewrite (recovery_crashes_same d d' files) by done.
    rewrite recover_plan_eq, Hplan. cbn [rbind]. by rewrite Hd0. }
  split; [done|]. intros s d Hrun.
  destruct (recover_committed id d0 Hid Hnz Hclean Hsmall s d Hrun) as [Hcommit Hrec].
  split; [|split].
  - unfold discardWalTransaction.
    pose proof (running_ok id d0 Hid Hnz Hclean Hsmall s d Hrun) as (? & -> & _).
    replace (id =? 0) with false by lia. by rewrite (Hcrash d d) by eauto using crashed, rtc.
  - by rewrite Hcommit.
  - unfold finish. rewrite Hcommit. unfold checkpoint, commit, appendRecord, append_bytes.
    by rewrite delete_insert_eq.
Qed.

(** A transaction over one table file that has written a new version of it. *)
Lemma transaction_atomic_witness :
  let d0 : disk := {["tables/t.tbl" := [Byte.x01]]} in
  ∃ s d, running 7 d0 s d ∧ d !! "tables/t.tbl" = Some [Byte.x02] ∧ recover d = Ok d0.
Proof.
  intros d0. set (s1 := beginWalTransaction 7 idle d0).
  set (s2 := recordWalBefore "tables/t.tbl" s1.1 s1.2).
  assert (running 7 d0 s2.1 (partial_alter (λ _, Some [Byte.x02]) "tables/t.tbl" s2.2))
    as Hrun.
  { apply run_change; [apply run_record; [apply run_begin|by split_and!]|]. set_solver. }
  eexists _, _. split; [exact Hrun|]. split; [by rewrite lookup_partial_alter_eq|].
  destruct (transaction_atomic 7 d0) as [Hcrash _].
  - by split.
  - done.
  - done.
  - by apply map_Forall_singleton.
  - eapply Hcrash; [by eapply crash_running|apply rtc_refl].
Defined.

(** C22: rolling an explicit transaction back restores the directory it began
    with, but it is not protected against a crash.  [rollbackTransaction]
    removes the whole directory, the log with it, before it writes the
    remembered files back; stopped after it has written the files [l], recovery
    leaves those and every other file is gone. *)
Theorem rollback_not_crash_safe (id : Z) (d0 : disk) (order l rest : list string) :
  d0 !! walPath = None →
  let t := (beginTransaction id idle d0).1 in
  rollback_order t order → order = l ++ rest → NoDup order →
  rollbackTransaction t order = (idle, d0) ∧
  (∃ d, recover (rollback_after t l) = Ok d ∧
     (∀ k, k ∈ l → d !! k = d0 !! k) ∧
     (∀ k, k ∈ rest → is_Some (d0 !! k) ∧ d !! k = None)).
Proof.
  intros Hclean t Horder -> Hdup.
  assert (transactionSnapshot_ t = d0) as Ht.
  { unfold t, beginTransaction. by destruct (beginWalTransaction id idle d0). }
  split; [rewrite rollback_restores_snapshot by (done || by rewrite Ht); by rewrite Ht|].
  exists (rollback_after t l). split.
  - unfold recover. rewrite rollback_lookup. case_decide as Hin; [|done].
    by rewrite Ht, Hclean.
  - split; intros k Hk; rewrite rollback_lookup, Ht.
    + by rewrite decide_True.
    + apply NoDup_app in Hdup as (_ & Hdisj & _). rewrite decide_False by naive_solver.
      split; [|done]. rewrite <- Ht. apply Horder, elem_of_app. auto.
Qed.

Lemma rollback_not_crash_safe_witness :
  let d0 : disk := {["tables/t.tbl" := [Byte.x01]]} in
  let t := (beginTransaction 7 idle d0).1 in
  rollbackTransaction t ["tables/t.tbl"] = (idle, d0) ∧
  ∃ d, recover (rollback_after t []) = Ok d ∧ d !! "tables/t.tbl" = None.
Proof.
  intros d0 t.
  destruct (rollback_not_crash_safe 7 d0 ["tables/t.tbl"] [] ["tables/t.tbl"])
    as [Hback (d & Hd & _ & Hlost)].
  - done.
  - intros k. rewrite list_elem_of_singleton. cbn. unfold d0.
    rewrite lookup_singleton_is_Some. naive_solver.
  - done.
  - apply NoDup_singleton.
  - split; [exact Hback|]. exists d. split; [exact Hd|].
    apply Hlost, list_elem_of_here.
Defined.
