(* ===== verification/Lock.v ===== *)
(** Statement locks: [NativeLockManager] of [src/native_lock.cpp] and
    [acquireStatementLocks] of [src/native_engine.cpp].  A shared mutex is the
    set of the threads that hold it and how; the registry creates a mutex the
    first time its resource is named, so every resource has exactly one.
    Threads are a transition system: a call of [acquireAll] takes the locks of
    its plan one by one, blocking on each, and the guards are released one by
    one.  The file shows that the plan is ordered and free of duplicates, that
    holders exclude each other, that no calls of threads that hold nothing can
    block for ever, that a writer runs alone, and how a call of a thread that
    keeps the guard of a transaction can block. *)

From S2P Require Import Prelude.
From S2P Require Import Catalog.
From S2P Require Import Ast.

Inductive NativeLockMode : Type := Shared | Exclusive.

#[global] Instance NativeLockMode_eq_dec : EqDecision NativeLockMode.
Proof. solve_decision. Defined.

Record NativeLockRequest : Type := mkRequest {
  resource : string;
  mode : NativeLockMode;
}.

#[global] Instance NativeLockRequest_eq_dec : EqDecision NativeLockRequest.
Proof. solve_decision. Defined.

(** ** [acquireAll]: the plan *)

Definition request_le (l r : NativeLockRequest) : Prop := string_le (resource l) (resource r).

#[global] Instance request_le_dec l r : Decision (request_le l r).
Proof. unfold request_le. apply _. Defined.

(** One turn of the loop over the sorted requests. *)
Definition dedupe (deduped : list NativeLockRequest) (request : NativeLockRequest)
    : list NativeLockRequest :=
  if decide (resource request = "") then deduped
  else
    match last deduped with
    | Some back =>
        if decide (resource back = resource request) then
          match mode request with
          | Exclusive => removelast deduped ++ [mkRequest (resource back) Exclusive]
          | Shared => deduped
          end
        else deduped ++ [request]
    | None => deduped ++ [request]
    end.

Definition lock_plan (requests : list NativeLockRequest) : list NativeLockRequest :=
  fold_left dedupe (merge_sort request_le requests) [].

(** ** The requests of a statement *)

Definition statementMutatesPersistentState (s : Stmt) : bool :=
  match s with
  | SCreate _ | SDrop _ | SInsert _ | SUpdate _ | SDelete _ | SCreateSnapshot _
  | SCreateContext _ | SAppendMemory _ | STagMemory _ | SAliasTab _ | SMergeTabs _ => true
  | _ => false
  end.

(** [scoped]; [root] is [root_.generic_string()]. *)
Definition scoped (root name : string) : string := root +:+ "|" +:+ name.
Definition tableResource (root table : string) : string := scoped root ("table:" +:+ table).

Definition catalog_lock (root : string) (m : NativeLockMode) : list NativeLockRequest :=
  [mkRequest (scoped root "catalog") m].
Definition table_lock (root name : string) (m : NativeLockMode) : list NativeLockRequest :=
  if decide (name = "") then [] else [mkRequest (tableResource root name) m].

Definition statement_requests (root : string) (s : Stmt) : list NativeLockRequest :=
  mkRequest (scoped root "!database")
    (if statementMutatesPersistentState s then Exclusive else Shared) ::
  match s with
  | SSelect s =>
      catalog_lock root Shared ++ table_lock root (s_fromTable s) Shared ++
      concat (map (λ j, table_lock root (jc_table j) Shared) (s_joins s))
  | SInsert s => catalog_lock root Shared ++ table_lock root (i_table s) Exclusive
  | SUpdate s => catalog_lock root Shared ++ table_lock root (u_table s) Exclusive
  | SDelete s => catalog_lock root Shared ++ table_lock root (d_table s) Exclusive
  | SCreate s => catalog_lock root Exclusive ++ table_lock root (c_table s) Exclusive
  | SDrop s => catalog_lock root Exclusive ++ table_lock root (dr_table s) Exclusive
  | SCreateSnapshot s =>
      catalog_lock root Exclusive ++ table_lock root (s_fromTable (cs_source s)) Shared
  | SExportTorch _ | SExplainBatch _ | SSpillContext _ | SExplainContext _ | SShowTabs _
  | SShowContextSchemas _ | SShowContextObjects _ => catalog_lock root Shared
  | SCreateContext _ | SAppendMemory _ | STagMemory _ | SAliasTab _ | SMergeTabs _ =>
      catalog_lock root Exclusive
  end.

Definition acquireStatementLocks (root : string) (s : Stmt) : list NativeLockRequest :=
  lock_plan (statement_requests root s).

(** What takes the locks of a database as one unit: a statement, and an explicit
    transaction, which keeps the guard of [beginTransaction] until it ends.
    While an engine has a transaction its statements take no locks of their
    own. *)
Inductive operation : Type := RunStatement (s : Stmt) | OpenTransaction.

Definition transaction_requests (root : string) : list NativeLockRequest :=
  [mkRequest (scoped root "!database") Exclusive].

Definition operation_locks (root : string) (o : operation) : list NativeLockRequest :=
  match o with
  | RunStatement s => acquireStatementLocks root s
  | OpenTransaction => lock_plan (transaction_requests root)
  end.

Definition operation_writes (o : operation) : bool :=
  match o with RunStatement s => statementMutatesPersistentState s | OpenTransaction => true end.

(** ** Threads

    [waiting]: the locks of the running call of [acquireAll] that it still has
    to take; [holding]: the guards taken. *)
Record thread : Type := mkThread {
  waiting : list NativeLockRequest;
  holding : list NativeLockRequest;
}.
Definition at_rest : thread := mkThread [] [].
Abbreviation system := (list thread) (only parsing).

(** Two locks of one mutex that cannot be held together. *)
Definition conflict (a b : NativeLockRequest) : bool :=
  bool_decide (resource a = resource b) &&
  (bool_decide (mode a = Exclusive) || bool_decide (mode b = Exclusive)).

(** A shared mutex may let a waiting writer go before new readers. *)
Definition writer_waits (r : NativeLockRequest) (t : thread) : bool :=
  match waiting t with
  | w :: _ => bool_decide (resource w = resource r) && bool_decide (mode w = Exclusive)
  | [] => false
  end.

Section threads.
Context (writers_first : bool).

(** [lock()] / [lock_shared()] of request [r] returns. *)
Definition available (sys : system) (r : NativeLockRequest) : bool :=
  forallb (λ t, forallb (λ h, negb (conflict r h)) (holding t)) sys &&
  (negb (writers_first && bool_decide (mode r = Shared)) ||
   forallb (λ t, negb (writer_waits r t)) sys).

(** A thread takes the next lock of its plan, or releases a guard. *)
Inductive advance (sys : system) : system → Prop :=
  | acquire i r rest held :
      sys !! i = Some (mkThread (r :: rest) held) → available sys r = true →
      advance sys (<[i := mkThread rest (held ++ [r])]> sys)
  | unlock i guard held :
      sys !! i = Some (mkThread [] (guard :: held)) →
      advance sys (<[i := mkThread [] held]> sys).

(** A thread that holds nothing calls [acquireAll].  Statements give their guards
    back at their end, and an engine with an open transaction takes no further
    locks, so only a program with several engines calls it otherwise; see
    [nested_call]. *)
Inductive call (sys : system) : system → Prop :=
  | acquireAll i requests :
      sys !! i = Some at_rest →
      call sys (<[i := mkThread (lock_plan requests) []]> sys).

Definition lock_step (sys sys' : system) : Prop := advance sys sys' ∨ call sys sys'.

Definition reachable (sys : system) : Prop :=
  ∃ n, rtc lock_step (replicate n at_rest) sys.

(** The other kind of call: the thread keeps the guard of a transaction of one
    engine and calls [acquireAll] for another engine.  [reachable] is about
    programs without it; [nested_call_blocks] is about programs with it. *)
Inductive nested_call (sys : system) : system → Prop :=
  | acquireAll_nested i requests held :
      sys !! i = Some (mkThread [] held) →
      nested_call sys (<[i := mkThread (lock_plan requests) held]> sys).
End threads.

(** Steps left until every thread is at rest. *)
Definition thread_work (t : thread) : nat := (2 * length (waiting t) + length (holding t))%nat.
Definition work (sys : system) : nat := sum_list_with thread_work sys.

(** ** The plan *)

Definition string_lt (s t : string) : Prop := string_le s t ∧ s ≠ t.

Lemma string_le_refl s : string_le s s.
Proof. by destruct (total string_le s s). Qed.

#[export] Instance string_lt_trans : Transitive string_lt.
Proof.
  intros s t u [Hst Hne] [Htu _]. split; [by transitivity t|]. intros <-.
  apply Hne. by apply (anti_symm string_le).
Qed.

Definition plan_of (requests plan : list NativeLockRequest) : Prop :=
  StronglySorted string_lt (resource <$> plan) ∧
  (∀ name, name ∈ resource <$> plan ↔ name ≠ "" ∧ name ∈ resource <$> requests) ∧
  (∀ p, p ∈ plan → mode p = Exclusive ↔
     ∃ q, q ∈ requests ∧ resource q = resource p ∧ mode q = Exclusive).

Lemma StronglySorted_snoc {A} (R : A → A → Prop) l x :
  StronglySorted R (l ++ [x]) ↔ StronglySorted R l ∧ ∀ y, y ∈ l → R y x.
Proof.
  rewrite StronglySorted_app. split.
  - intros (H2 & H1 & _). split; [done|]. intros y Hy.
    apply H2; [done|]. apply list_elem_of_here.
  - intros [H1 H2]. split_and!; [|done|repeat constructor].
    intros y z Hy ->%list_elem_of_singleton. auto.
Qed.

Lemma elem_of_snoc {A} (x y : A) l : x ∈ l ++ [y] ↔ x ∈ l ∨ x = y.
Proof. by rewrite elem_of_app, list_elem_of_singleton. Qed.

Lemma plan_of_same l x acc :
  plan_of l acc → resource x = "" ∨ resource x ∈ resource <$> acc ∧ mode x = Shared →
  plan_of (l ++ [x]) acc.
Proof.
  intros (Hsort & Hnames & Hmode) Hx. split; [done|]. split.
  - intros name. rewrite fmap_app. cbn. rewrite elem_of_snoc, Hnames.
    destruct Hx as [->|[Hin _]]; [tauto|]. apply Hnames in Hin.
    split; [tauto|]. intros [Hne [H| ->]]; tauto.
  - intros p Hp. rewrite Hmode by done. apply (list_elem_of_fmap_2 resource) in Hp.
    apply Hnames in Hp as [Hne _]. split.
    + intros (q & Hq & H). exists q. rewrite elem_of_snoc. auto.
    + intros (q & [Hq| ->]%elem_of_snoc & Hres & Hex); [eauto|].
      destruct Hx as [Hx|[_ Hx]]; congruence.
Qed.

Lemma dedupe_plan l x acc :
  plan_of l acc → (∀ y, y ∈ l → request_le y x) → plan_of (l ++ [x]) (dedupe acc x).
Proof.
  intros Hplan Hle. unfold dedupe. case_decide as Hempty; [apply plan_of_same; auto|].
  pose proof Hplan as (Hsort & Hnames & Hmode).
  assert (Hnew : (∀ name, name ∈ resource <$> acc → name ≠ resource x) →
    plan_of (l ++ [x]) (acc ++ [x])).
  { intros Hfresh. split; [|split].
    - rewrite fmap_app. cbn. apply StronglySorted_snoc. split; [done|]. intros name Hname.
      split; [|by apply Hfresh]. apply Hnames in Hname as [_ (q & -> & Hq)%list_elem_of_fmap].
      by apply Hle.
    - intros name. rewrite !fmap_app. cbn. rewrite !elem_of_snoc, Hnames.
      split; [intros [?| ->]; tauto|tauto].
    - intros p [Hp|Hp]%elem_of_snoc.
      + rewrite Hmode by done. split; intros (q & Hq & Hres & Hex).
        * exists q. rewrite elem_of_snoc. auto.
        * apply elem_of_snoc in Hq as [Hq| ->]; [eauto|].
          destruct (Hfresh (resource p)); [by apply list_elem_of_fmap_2|done].
      + subst p. split; [intros Hex; exists x; rewrite elem_of_snoc; auto|].
        intros (q & [Hq| ->]%elem_of_snoc & Hres & Hex); [|done].
        destruct (Hfresh (resource x)); [|done]. apply Hnames. split; [done|].
        rewrite <- Hres. by apply list_elem_of_fmap_2. }
  destruct (last acc) as [b|] eqn:Hlast.
  2:{ apply Hnew. apply last_None in Hlast as ->. by intros ? ?%elem_of_nil. }
  apply last_Some in Hlast as [a ->]. rewrite fmap_app in Hsort. cbn in Hsort.
  pose proof (proj1 (StronglySorted_snoc _ _ _) Hsort) as [_ Hlt].
  case_decide as Hb.
  - destruct (mode x) eqn:Hx.
    + apply plan_of_same; [done|]. right. split; [|done]. rewrite <- Hb.
      apply list_elem_of_fmap_2, elem_of_snoc. auto.
    + rewrite removelast_last. split; [by rewrite fmap_app|]. split.
      * intros name. rewrite !fmap_app in *. cbn in *. rewrite Hnames, elem_of_snoc, <- Hb.
        split; [tauto|]. intros [Hne [Hin| ->]]; [done|]. apply Hnames.
        apply elem_of_snoc. auto.
      * intros p [Hp| ->]%elem_of_snoc.
        -- rewrite Hmode by (apply elem_of_snoc; auto).
           split; intros (q & Hq & Hres & Hex).
           ++ exists q. rewrite elem_of_snoc. auto.
           ++ apply elem_of_snoc in Hq as [Hq| ->]; [eauto|].
              destruct (Hlt (resource p)) as [_ []]; [by apply list_elem_of_fmap_2|].
              congruence.
        -- cbn. split; [|done]. intros _. exists x. rewrite elem_of_snoc. auto.
  - apply Hnew. intros name Hname ->. rewrite fmap_app in Hname. cbn in Hname.
    apply elem_of_snoc in Hname as [Hname|Hname]; [|congruence].
    apply Hlt in Hname as [Hle' Hne]. apply Hb. apply (anti_symm string_le); [|done].
    assert (resource b ∈ resource <$> l) as (q & -> & Hq)%list_elem_of_fmap; [|by apply Hle].
    apply Hnames. rewrite fmap_app. cbn. apply elem_of_snoc. auto.
Qed.

Lemma lock_plan_ok requests : plan_of requests (lock_plan requests).
Proof.
  assert (Hall : ∀ l, StronglySorted request_le l → plan_of l (fold_left dedupe l [])).
  { induction l as [|x l IH] using rev_ind; intros Hsort.
    - split; [constructor|]. split.
      + intros name. cbn. rewrite elem_of_nil. tauto.
      + by intros p ?%elem_of_nil.
    - apply StronglySorted_snoc in Hsort as [Hsort Hle]. rewrite fold_left_app.
      by apply dedupe_plan; [apply IH|]. }
  unfold lock_plan. set (l := merge_sort request_le requests).
  assert (l ≡ₚ requests) as Hperm by apply merge_sort_Permutation.
  destruct (Hall l) as (Hsort & Hnames & Hmode).
  { apply StronglySorted_merge_sort.
    - intros x y z. unfold request_le. apply transitivity.
    - intros x y. unfold request_le. apply total, _. }
  split; [done|]. split.
  - intros name. by rewrite Hnames, Hperm.
  - intros p Hp. rewrite Hmode by done. by setoid_rewrite Hperm.
Qed.

(** ** Reachable systems *)

Definition ordered (t : thread) : Prop :=
  StronglySorted string_lt (resource <$> (holding t ++ waiting t)).

Definition exclusive (sys : system) : Prop :=
  ∀ i j s t g h, i ≠ j → sys !! i = Some s → sys !! j = Some t →
    g ∈ holding s → h ∈ holding t → conflict g h = false.

Definition system_ok (sys : system) : Prop := Forall ordered sys ∧ exclusive sys.

Lemma conflict_sym g h : conflict g h = conflict h g.
Proof.
  unfold conflict. rewrite (orb_comm (bool_decide (mode g = _))). f_equal.
  apply bool_decide_ext. done.
Qed.

Lemma available_spec wf sys r :
  available wf sys r = true →
  ∀ i t h, sys !! i = Some t → h ∈ holding t → conflict r h = false.
Proof.
  unfold available. intros [H _]%andb_prop i t h Hi Hh.
  apply (proj1 (forallb_forall _ _)) with (x := t) in H;
    [|by eapply list_elem_of_In, list_elem_of_lookup_2].
  apply (proj1 (forallb_forall _ _)) with (x := h) in H; [|by apply list_elem_of_In].
  by apply negb_true_iff in H.
Qed.

(** Changing one thread keeps the holders exclusive when what it holds anew
    conflicts with nobody else. *)
Lemma exclusive_insert sys i t t' :
  exclusive sys → sys !! i = Some t →
  (∀ g, g ∈ holding t' → g ∈ holding t ∨
     ∀ j s h, sys !! j = Some s → h ∈ holding s → conflict g h = false) →
  exclusive (<[i := t']> sys).
Proof.
  intros Hex Hi Hnew j k s u g h Hjk Hj Hk Hg Hh.
  apply list_lookup_insert_Some in Hj as [(<- & <- & _)|[Hij Hj]];
    apply list_lookup_insert_Some in Hk as [(<- & <- & _)|[Hik Hk]]; [done| | |].
  - destruct (Hnew g Hg) as [Hg'|Hg']; [|by eapply Hg']. by eapply (Hex i k).
  - rewrite conflict_sym. destruct (Hnew h Hh) as [Hh'|Hh']; [|by eapply Hh'].
    by eapply (Hex i j).
  - by eapply (Hex j k).
Qed.

Lemma advance_ok wf sys sys' : advance wf sys sys' → system_ok sys → system_ok sys'.
Proof.
  intros Hstep [Hord Hex].
  destruct Hstep as [i r rest held Hi Hav|i guard held Hi];
    pose proof (Forall_lookup_1 _ _ _ _ Hord Hi) as Ht; unfold ordered in Ht; cbn in Ht.
  - split.
    + apply Forall_insert; [done|]. unfold ordered. cbn. by rewrite <- app_assoc.
    + eapply exclusive_insert; [done..|]. cbn. intros g [Hg| ->]%elem_of_snoc; [auto|].
      right. by apply (available_spec wf).
  - split.
    + apply Forall_insert; [done|]. unfold ordered. cbn. by inversion Ht.
    + eapply exclusive_insert; [done..|]. cbn. intros g Hg. left.
      by apply list_elem_of_further.
Qed.

Lemma call_ok sys sys' : call sys sys' → system_ok sys → system_ok sys'.
Proof.
  intros [i requests Hi] [Hord Hex]. split.
  - apply Forall_insert; [done|]. apply (lock_plan_ok requests).
  - eapply exclusive_insert; [done..|]. cbn. by intros g ?%elem_of_nil.
Qed.

Lemma system_reachable_ok wf sys : reachable wf sys → system_ok sys.
Proof.
  intros [n Hrun].
  assert (system_ok (replicate n at_rest)) as Hinit.
  { split; [apply Forall_replicate; constructor|].
    intros i j s t g h _ [-> _]%lookup_replicate _ Hg. by apply elem_of_nil in Hg. }
  revert Hinit. induction Hrun as [|s1 s2 s3 [H|H] _ IH]; intros Hok; [done|..];
    apply IH; [by eapply advance_ok|by eapply call_ok].
Qed.

(** ** Progress *)

Lemma greatest (l : list NativeLockRequest) :
  l ≠ [] → ∃ r, r ∈ l ∧ ∀ q, q ∈ l → request_le q r.
Proof.
  induction l as [|x l IH]; intros Hne; [done|]. destruct l as [|y l].
  - exists x. split; [apply list_elem_of_here|].
    intros q ->%list_elem_of_singleton. apply string_le_refl.
  - destruct IH as (r & Hr & Hmax); [done|].
    destruct (total string_le (resource x) (resource r)) as [H|H].
    + exists r. split; [by apply list_elem_of_further|].
      intros q [->|Hq]%elem_of_cons; [exact H|auto].
    + exists x. split; [apply list_elem_of_here|].
      intros q [->|Hq]%elem_of_cons; [apply string_le_refl|].
      unfold request_le. transitivity (resource r); [by apply Hmax|done].
Qed.

(** When no thread can release, the holders of a mutex all wait for a later
    one, so the latest mutex waited for has no holder. *)
Lemma latest_is_free sys r :
  Forall ordered sys → (∀ t, t ∈ sys → waiting t = [] → holding t = []) →
  (∀ t w ws, t ∈ sys → waiting t = w :: ws → request_le w r) →
  forallb (λ t, forallb (λ h, negb (conflict r h)) (holding t)) sys = true.
Proof.
  intros Hord Hrest Hmax. apply forallb_forall. intros t Ht%list_elem_of_In.
  apply forallb_forall. intros h Hh%list_elem_of_In.
  apply negb_true_iff. unfold conflict. rewrite bool_decide_eq_false_2; [done|]. intros Heq.
  destruct (waiting t) as [|w ws] eqn:Hw.
  - rewrite (Hrest t Ht Hw) in Hh. by apply elem_of_nil in Hh.
  - pose proof (proj1 (Forall_forall _ _) Hord t Ht) as Hsorted. unfold ordered in Hsorted.
    rewrite Hw, fmap_app in Hsorted. cbn in Hsorted.
    assert (string_lt (resource h) (resource w)) as [Hle Hne].
    { eapply StronglySorted_app_1_elem_of; [exact Hsorted|by apply list_elem_of_fmap_2|].
      apply list_elem_of_here. }
    apply Hne. apply (anti_symm string_le); [done|]. rewrite <- Heq. by eapply Hmax.
Qed.

(** The thread that waits for the latest mutex goes on, or the writer the
    mutex prefers to it. *)
Lemma latest_goes wf sys r :
  (∀ r', resource r' = resource r →
     forallb (λ t, forallb (λ h, negb (conflict r' h)) (holding t)) sys = true) →
  (∃ t ws, t ∈ sys ∧ waiting t = r :: ws) →
  ∃ sys', advance wf sys sys'.
Proof.
  intros Hfree Hr.
  assert (Hgo : ∀ w t ws, t ∈ sys → waiting t = w :: ws → available wf sys w = true →
    ∃ sys', advance wf sys sys').
  { intros w [ws' hs] ws Ht Hw Hav. cbn in Hw. subst ws'.
    apply list_elem_of_lookup in Ht as [i Hi]. eexists. by eapply acquire. }
  destruct (decide (Exists (λ t, writer_waits r t = true) sys)) as [Hwriter|Hnone].
  - apply Exists_exists in Hwriter as (t & Ht & Hw).
    unfold writer_waits in Hw. destruct (waiting t) as [|w ws] eqn:E; [done|].
    apply andb_prop in Hw as [Hres%bool_decide_eq_true Hmode%bool_decide_eq_true].
    eapply Hgo; [done..|]. unfold available. rewrite Hfree by done.
    rewrite Hmode. by rewrite andb_false_r.
  - destruct Hr as (t & ws & Ht & Hw). eapply Hgo; [done..|]. unfold available.
    rewrite Hfree by done. apply orb_true_intro. right. apply forallb_forall.
    intros u Hu%list_elem_of_In. apply negb_true_iff, not_true_iff_false. intros Hwu.
    apply Hnone, Exists_exists. eauto.
Qed.

Lemma progress wf sys :
  Forall ordered sys → Forall (.= at_rest) sys ∨ ∃ sys', advance wf sys sys'.
Proof.
  intros Hord.
  destruct (decide (Exists (λ t, waiting t = [] ∧ holding t ≠ []) sys)) as [Hex|Hno].
  { apply Exists_exists in Hex as ([ws hs] & Hin & Hw & Hh). cbn in Hw, Hh. subst ws.
    apply list_elem_of_lookup in Hin as [i Hi]. destruct hs as [|h hs]; [done|].
    right. eexists. by eapply unlock. }
  assert (∀ t, t ∈ sys → waiting t = [] → holding t = []) as Hrest.
  { intros t Ht Hw. destruct (holding t) eqn:Hh; [done|]. destruct Hno.
    apply Exists_exists. exists t. by rewrite Hh. }
  clear Hno. set (heads := omap (λ t, head (waiting t)) sys).
  assert (∀ w, w ∈ heads ↔ ∃ t ws, t ∈ sys ∧ waiting t = w :: ws) as Hheads.
  { intros w. unfold heads. rewrite list_elem_of_omap. split.
    - intros (t & Ht & Hw). destruct (waiting t) eqn:E; [done|]. injection Hw as ->. eauto.
    - intros (t & ws & Ht & Hw). exists t. by rewrite Hw. }
  destruct (decide (heads = [])) as [Hnil|Hne].
  - left. apply Forall_forall. intros [ws hs] Ht. specialize (Hrest _ Ht). cbn in Hrest.
    destruct ws as [|w ws]; [by rewrite Hrest|].
    assert (w ∈ heads) as Hw by (apply Hheads; eauto). rewrite Hnil in Hw.
    by apply elem_of_nil in Hw.
  - right. destruct (greatest heads Hne) as (r & Hr & Hmax).
    apply (latest_goes wf sys r); [|by apply Hheads].
    intros r' Hres. apply latest_is_free; [done..|]. intros t w ws Ht Hw.
    unfold request_le. rewrite Hres. apply Hmax, Hheads. eauto.
Qed.

Lemma work_insert sys i t t' :
  sys !! i = Some t →
  (work (<[i := t']> sys) + thread_work t = work sys + thread_work t')%nat.
Proof.
  revert i. induction sys as [|s sys IH]; intros [|i] Hi; try done.
  - injection Hi as ->. unfold work. cbn. lia.
  - specialize (IH i Hi). unfold work in *.
    change (<[S i := t']> (s :: sys)) with (s :: <[i := t']> sys).
    cbn [sum_list_with]. lia.
Qed.

Lemma advance_work wf sys sys' : advance wf sys sys' → work sys = S (work sys').
Proof.
  intros [i r rest held Hi _|i guard held Hi];
    match goal with |- context [<[i := ?t']> sys] => pose proof (work_insert _ _ _ t' Hi) as H end;
    unfold thread_work in H; cbn in H; rewrite ?length_app in H; cbn in H; lia.
Qed.

(** * Properties *)

(** C14: calls of [acquireAll] never block each other for ever, whatever they
    ask for and whether a shared mutex prefers readers or writers.  From every
    state that any number of threads can reach, each schedule of lock and
    unlock operations ends after at most [work] of them, and it can only end
    with every call returned and every guard released: there is no deadlock.
    Threads call while they hold nothing ([call]); [nested_call_blocks] shows
    that they must. *)
Theorem acquireAll_returns (writers_first : bool) (sys : system) :
  reachable writers_first sys →
  ∀ k sys', nsteps (advance writers_first) k sys sys' →
    (k ≤ work sys)%nat ∧
    (Forall (.= at_rest) sys' ∨ ∃ sys'', advance writers_first sys' sys'').
Proof.
  intros Hreach%system_reachable_ok k sys' Hsteps. revert Hreach.
  induction Hsteps as [sys|k s1 s2 s3 Hstep _ IH]; intros Hok.
  - split; [lia|]. apply progress, Hok.
  - destruct (IH (advance_ok _ _ _ Hstep Hok)) as [Hk Hend].
    apply advance_work in Hstep. split; [lia|done].
Qed.

(** ** The lock of the database comes first *)

Lemma plan_head requests plan name :
  plan_of requests plan → name ≠ "" → name ∈ resource <$> requests →
  (∀ q, q ∈ requests → string_le name (resource q)) →
  ∃ g rest, plan = g :: rest ∧ resource g = name ∧
    (mode g = Exclusive ↔ ∃ q, q ∈ requests ∧ resource q = name ∧ mode q = Exclusive).
Proof.
  intros (Hsort & Hnames & Hmode) Hne Hin Hleast.
  assert (name ∈ resource <$> plan) as Hname by (by apply Hnames).
  destruct plan as [|g rest]; [by apply elem_of_nil in Hname|]. cbn in Hsort, Hname.
  assert (resource g = name) as Hg.
  { apply elem_of_cons in Hname as [|Hname]; [done|].
    apply StronglySorted_inv in Hsort as [_ Hlt]. rewrite Forall_forall in Hlt.
    destruct (Hlt name Hname) as [Hle _]. apply (anti_symm string_le); [done|].
    destruct (proj1 (Hnames (resource g))) as [_ (q & -> & Hq)%list_elem_of_fmap];
      [apply list_elem_of_here|by apply Hleast]. }
  exists g, rest. split_and!; [done..|]. rewrite <- Hg. apply Hmode, list_elem_of_here.
Qed.

Lemma table_lock_resource root name m q :
  q ∈ table_lock root name m → ∃ s, resource q = scoped root ("table:" +:+ s).
Proof.
  unfold table_lock. case_decide; [by intros ?%elem_of_nil|].
  intros ->%list_elem_of_singleton. by exists name.
Qed.

Lemma statement_request_resource root s q :
  q ∈ statement_requests root s →
  resource q = scoped root "!database" ∨ resource q = scoped root "catalog" ∨
  ∃ n, resource q = scoped root ("table:" +:+ n).
Proof.
  intros [->|Hq]%elem_of_cons; [by left|right].
  assert (Hcatalog : ∀ m rest, q ∈ catalog_lock root m ++ rest →
    resource q = scoped root "catalog" ∨ q ∈ rest).
  { intros m rest [->%list_elem_of_singleton|]%elem_of_app; auto. }
  destruct s; cbv beta iota in Hq; try (apply Hcatalog in Hq as [|Hq]; [by left|right]);
    try (by eapply table_lock_resource);
    try (by apply elem_of_nil in Hq).
  apply elem_of_app in Hq as [Hq|Hq]; [by eapply table_lock_resource|].
  apply list_elem_of_In, in_concat in Hq as (l & Hl & Hq%list_elem_of_In).
  apply in_map_iff in Hl as (j & <- & _). by eapply table_lock_resource.
Qed.

Lemma database_lock_least root s q :
  q ∈ statement_requests root s → string_le (scoped root "!database") (resource q).
Proof.
  intros [->|[->|[n ->]]]%statement_request_resource; unfold scoped; do 2 apply string_le_app;
    [apply string_le_refl|discriminate..].
Qed.

(** Whatever takes the locks of a database takes its own lock first. *)
Lemma database_lock_first root o :
  ∃ g rest, operation_locks root o = g :: rest ∧ resource g = scoped root "!database" ∧
    (operation_writes o = true → mode g = Exclusive).
Proof.
  assert (Hne : scoped root "!database" ≠ "") by (by destruct root).
  destruct o as [s|].
  - destruct (plan_head _ _ (scoped root "!database") (lock_plan_ok (statement_requests root s)))
      as (g & rest & Hplan & Hg & Hmode); [done|apply list_elem_of_here|apply database_lock_least|].
    exists g, rest. split_and!; [done..|]. cbn [operation_writes]. intros Hw. apply Hmode.
    eexists. split; [apply list_elem_of_here|]. by rewrite Hw.
  - destruct (plan_head _ _ (scoped root "!database") (lock_plan_ok (transaction_requests root)))
      as (g & rest & Hplan & Hg & Hmode); [done|apply list_elem_of_here| |].
    + intros q ->%list_elem_of_singleton. apply string_le_refl.
    + exists g, rest. split_and!; [done..|]. intros _. apply Hmode.
      eexists. split; [apply list_elem_of_here|done].
Qed.

(** An operation that has taken some of its locks holds that of its database. *)
Lemma holds_database_lock root o held w :
  held ++ w = operation_locks root o → held ≠ [] →
  ∃ g, g ∈ held ∧ resource g = scoped root "!database" ∧
    (operation_writes o = true → mode g = Exclusive).
Proof.
  destruct (database_lock_first root o) as (g & rest & -> & Hg & Hmode).
  destruct held as [|h held]; [done|]. intros [= -> _] _.
  exists g. split; [apply list_elem_of_here|done].
Qed.

(** C15: a statement that changes persistent state, or an explicit transaction,
    runs alone.  From the moment it has taken its first lock until it begins to
    release them, every other statement or transaction on the same directory has
    either not taken any of its locks yet or begun to release them: none is
    running, and none is between its first lock and its last. *)
Theorem writers_run_alone (writers_first : bool) (sys : system) (i j : nat)
    (root : string) (o o' : operation) (held w held' w' : list NativeLockRequest) :
  reachable writers_first sys → i ≠ j → operation_writes o = true →
  sys !! i = Some (mkThread w held) → held ++ w = operation_locks root o → held ≠ [] →
  sys !! j = Some (mkThread w' held') → held' ++ w' = operation_locks root o' →
  held' = [].
Proof.
  intros [_ Hex]%system_reachable_ok Hij Hw Hi Hlocks Hheld Hj Hlocks'.
  destruct (decide (held' = [])) as [|Hheld']; [done|exfalso].
  destruct (holds_database_lock _ _ _ _ Hlocks Hheld) as (g & Hg & Hgr & Hgm).
  destruct (holds_database_lock _ _ _ _ Hlocks' Hheld') as (h & Hh & Hhr & _).
  specialize (Hex i j _ _ g h Hij Hi Hj Hg Hh). unfold conflict in Hex.
  by rewrite Hgr, Hhr, Hgm, !bool_decide_eq_true_2 in Hex.
Qed.

(** An explicit transaction, and a reader that has just called. *)
Lemma writers_run_alone_witness :
  let s := SShowContextSchemas (Loc 1 1) in
  let sys := [mkThread [] (operation_locks "db" OpenTransaction);
              mkThread (operation_locks "db" (RunStatement s)) []] in
  reachable true sys ∧
  ∀ held' w', sys !! 1%nat = Some (mkThread w' held') → held' = [].
Proof.
  intros s sys.
  assert (reachable true sys) as Hreach.
  { exists 2%nat.
    eapply rtc_l. { right. apply (acquireAll _ 0 (transaction_requests "db")). reflexivity. }
    eapply rtc_l. { left. eapply (acquire true _ 0); vm_compute; reflexivity. }
    eapply rtc_l. { right. apply (acquireAll _ 1 (statement_requests "db" s)). reflexivity. }
    apply rtc_refl. }
  split; [exact Hreach|]. intros held' w' Hj.
  apply (writers_run_alone true sys 0 1 "db" OpenTransaction (RunStatement s)
    (operation_locks "db" OpenTransaction) [] held' w');
    [exact Hreach|discriminate|reflexivity|reflexivity|reflexivity|vm_compute; discriminate|exact Hj|].
  injection Hj as <- <-. reflexivity.
Defined.

(** Without the restriction on calls locks can block for ever: a thread that
    opens a transaction with one engine and executes a statement with another
    engine on the same directory waits for the lock it holds itself. *)
Theorem nested_call_blocks (writers_first : bool) (root : string) (s : Stmt) :
  ∃ sys, reachable writers_first sys ∧
    sys = [mkThread [] (operation_locks root OpenTransaction)] ∧
    ∃ sys', nested_call sys sys' ∧
      sys' = [mkThread (acquireStatementLocks root s) (operation_locks root OpenTransaction)] ∧
      ∀ sys'', ¬ advance writers_first sys' sys''.
Proof.
  assert (Hlocks : operation_locks root OpenTransaction = transaction_requests root).
  { cbn. unfold dedupe. cbn [resource]. by rewrite decide_False by (by destruct root). }
  rewrite Hlocks. exists [mkThread [] (transaction_requests root)].
  split; [|split; [reflexivity|]].
  - exists 1%nat. eapply rtc_l.
    { right. apply (acquireAll _ 0 (transaction_requests root)). reflexivity. }
    change (lock_plan (transaction_requests root)) with (operation_locks root OpenTransaction).
    rewrite Hlocks. eapply rtc_l; [|apply rtc_refl]. left.
    apply (acquire writers_first [mkThread (transaction_requests root) []] 0
             (mkRequest (scoped root "!database") Exclusive) [] []); [reflexivity|].
    unfold available. cbn. by rewrite andb_false_r.
  - exists [mkThread (acquireStatementLocks root s) (transaction_requests root)].
    split; [by apply (acquireAll_nested [mkThread [] (transaction_requests root)] 0
      (statement_requests root s) (transaction_requests root))|].
    split; [reflexivity|].
    destruct (database_lock_first root (RunStatement s)) as (g & rest & Hplan & Hg & _).
    cbn [operation_locks] in Hplan. rewrite Hplan. intros sys'' Hstep.
    inversion Hstep as [i r rest' held Hi Hav|i guard held Hi]; subst;
      destruct i; simplify_eq/=.
    pose proof (available_spec _ _ _ Hav 0%nat _ _ eq_refl (list_elem_of_here _ _)) as Hc.
    revert Hc. unfold conflict. cbn [resource mode].
    rewrite Hg, !bool_decide_eq_true_2 by done. by rewrite orb_true_r.
Qed.

(** A reader and a writer that have both just called. *)
Lemma acquireAll_returns_witness :
  let sys := [mkThread (lock_plan [mkRequest "t" Exclusive]) [];
              mkThread (lock_plan [mkRequest "t" Shared]) []] in
  reachable true sys ∧ (Forall (.= at_rest) sys ∨ ∃ sys', advance true sys sys').
Proof.
  intros sys.
  assert (reachable true sys) as Hreach.
  { exists 2%nat.
    eapply rtc_l. { right. apply (acquireAll _ 0 [mkRequest "t" Exclusive]). reflexivity. }
    eapply rtc_l. { right. apply (acquireAll _ 1 [mkRequest "t" Shared]). reflexivity. }
    apply rtc_refl. }
  split; [exact Hreach|].
  apply (acquireAll_returns true sys Hreach 0 sys). apply nsteps_O.
Defined.
