(* ===== verification/BTree.v ===== *)
(** The primary-key index: class [BPlusTree] of [src/native_index.h] and
    [src/native_index.cpp].  A leaf carries the address it was allocated at, and
    [next] is the address of another leaf of the tree: following it looks the
    address up among the leaves.  The file shows that on the values of one
    column the tree is the sorted list of its entries: [insert], [find] and
    [range] answer as that list, the tree stays balanced and its height is
    logarithmic. *)

From S2P Require Import Prelude.
From S2P Require Import Value.
From S2P Require Import Tuple.

Record leaf : Type := mkLeaf {
  address : Z;
  lkeys : list Value;
  rows : list RowId;
  next : option Z;
}.

#[local] Set Warnings "-register-all".

(** [Node]: an inner node owns its children. *)
Inductive node : Type :=
  | Leaf (l : leaf)
  | Inner (keys : list Value) (children : list node).

(** [Split] *)
Record split : Type := mkSplit { separator : Value; right : node }.

(** [allocated]: an address no leaf has been given yet. *)
Record BPlusTree : Type := mkTree {
  maxKeys_ : nat;
  size_ : nat;
  root_ : node;
  allocated : Z;
}.

(** ** [std::lower_bound] and [std::upper_bound]: the binary search *)

Fixpoint bisect (fuel : nat) (before : Value → bool) (keys : list Value)
    (first len : nat) : nat :=
  match fuel with
  | O => first
  | S fuel' =>
      if decide (len = 0)%nat then first
      else
        let half := Nat.div len 2 in
        match keys !! (first + half)%nat with
        | Some mid =>
            if before mid then
              bisect fuel' before keys (S (first + half)) (len - half - 1)
            else bisect fuel' before keys first half
        | None => first
        end
  end.

Definition lowerBound (keys : list Value) (key : Value) : nat :=
  bisect (S (length keys)) (λ k, compare k key <? 0) keys 0 (length keys).
Definition upperBound (keys : list Value) (key : Value) : nat :=
  bisect (S (length keys)) (λ k, negb (compare key k <? 0)) keys 0 (length keys).

(** [vector::insert] before position [i]. *)
Definition insert_at {A} (i : nat) (x : A) (l : list A) : list A := take i l ++ x :: drop i l.

(** ** Construction *)

Definition new_leaf : leaf := mkLeaf 0 [] [] None.
Definition newTree (maxKeys : nat) : BPlusTree := mkTree (Nat.max 3 maxKeys) 0 (Leaf new_leaf) 1.
Definition clear (t : BPlusTree) : BPlusTree := newTree (maxKeys_ t).

(** ** Access to [children[i]] *)

Definition visit {A} (f : node → exec A) : list node → nat → exec A :=
  fix go cs i :=
    match cs, i with
    | c :: _, O => f c
    | _ :: cs', S i' => go cs' i'
    | [], _ => Err (Undefined "children out of range")
    end.

(** The children after [f] has changed child [i], with the result of [f]. *)
Definition change {A} (f : node → exec (node * A)) : list node → nat → exec (list node * A) :=
  fix go cs i :=
    match cs, i with
    | c :: cs', O => let* (c', a) := f c in Ok (c' :: cs', a)
    | c :: cs', S i' => let* (cs'', a) := go cs' i' in Ok (c :: cs'', a)
    | [], _ => Err (Undefined "children out of range")
    end.

(** ** Insertion *)

(** The leaf with its new keys and rows, split when they are too many. *)
Definition leaf_put (maxKeys : nat) (fresh : Z) (l : leaf) (ks : list Value)
    (rs : list RowId) : exec (node * option split) :=
  if decide (length ks ≤ maxKeys)%nat then
    Ok (Leaf (mkLeaf (address l) ks rs (next l)), None)
  else
    let middle := Nat.div (length ks) 2 in
    match drop middle ks with
    | [] => Err (Undefined "front of an empty vector")
    | front :: _ =>
        Ok (Leaf (mkLeaf (address l) (take middle ks) (take middle rs) (Some fresh)),
            Some (mkSplit front
              (Leaf (mkLeaf fresh (drop middle ks) (drop middle rs) (next l)))))
    end.

Definition leaf_insert (maxKeys : nat) (fresh : Z) (l : leaf) (key : Value) (row : RowId)
    : exec (node * option split) :=
  let position := lowerBound (lkeys l) key in
  if match lkeys l !! position with
     | Some k => compare k key =? 0
     | None => false
     end
  then Err (Throw "Duplicate B+ tree key")
  else
    leaf_put maxKeys fresh l (insert_at position key (lkeys l))
      (insert_at position row (rows l)).

(** An inner node with its new separators and children, split when they are
    too many. *)
Definition inner_put (maxKeys : nat) (keys : list Value) (children : list node)
    : exec (node * option split) :=
  if decide (length keys ≤ maxKeys)%nat then Ok (Inner keys children, None)
  else
    let middle := Nat.div (length keys) 2 in
    match keys !! middle with
    | None => Err (Undefined "keys out of range")
    | Some sep =>
        Ok (Inner (take middle keys) (take (middle + 1) children),
            Some (mkSplit sep
              (Inner (drop (middle + 1) keys) (drop (middle + 1) children))))
    end.

Definition inner_insert (maxKeys childIndex : nat) (keys : list Value)
    (children : list node) (s : option split) : exec (node * option split) :=
  match s with
  | None => Ok (Inner keys children, None)
  | Some s =>
      inner_put maxKeys (insert_at childIndex (separator s) keys)
        (insert_at (childIndex + 1) (right s) children)
  end.

Fixpoint insert_node (maxKeys : nat) (fresh : Z) (key : Value) (row : RowId) (n : node)
    : exec (node * option split) :=
  match n with
  | Leaf l => leaf_insert maxKeys fresh l key row
  | Inner keys children =>
      let childIndex := upperBound keys key in
      let* (children, s) :=
        change (insert_node maxKeys fresh key row) children childIndex in
      inner_insert maxKeys childIndex keys children s
  end.

Definition insert (t : BPlusTree) (key : Value) (row : RowId) : exec BPlusTree :=
  let* (root, s) := insert_node (maxKeys_ t) (allocated t) key row (root_ t) in
  let root :=
    match s with
    | Some s => Inner [separator s] [root; right s]
    | None => root
    end in
  Ok (mkTree (maxKeys_ t) (S (size_ t)) root (allocated t + 1)).

(** ** Search *)

Fixpoint findLeaf (key : Value) (n : node) : exec leaf :=
  match n with
  | Leaf l => Ok l
  | Inner keys children => visit (findLeaf key) children (upperBound keys key)
  end.

Definition find (t : BPlusTree) (key : Value) : exec (option RowId) :=
  let* l := findLeaf key (root_ t) in
  let position := lowerBound (lkeys l) key in
  match lkeys l !! position with
  | None => Ok None
  | Some k =>
      if compare k key =? 0 then
        match rows l !! position with
        | Some r => Ok (Some r)
        | None => Err (Undefined "rows out of range")
        end
      else Ok None
  end.

Fixpoint firstLeaf (n : node) : exec leaf :=
  match n with
  | Leaf l => Ok l
  | Inner _ children => visit firstLeaf children 0
  end.

Fixpoint leaves (n : node) : list leaf :=
  match n with
  | Leaf l => [l]
  | Inner _ children => concat (map leaves children)
  end.

(** What the pointer [next] points to. *)
Definition deref (root : node) (a : Z) : exec leaf :=
  match List.find (λ l, address l =? a) (leaves root) with
  | Some l => Ok l
  | None => Err (Undefined "dangling next pointer")
  end.

(** The inner loop of [range]; [true] when it met the upper bound. *)
Fixpoint collect (upper : option Value) (keys : list Value) (rs : list RowId)
    : exec (list RowId * bool) :=
  match keys, rs with
  | [], _ => Ok ([], false)
  | k :: keys', r :: rs' =>
      if match upper with Some u => 0 <? compare k u | None => false end then Ok ([], true)
      else let* (out, stop) := collect upper keys' rs' in Ok (r :: out, stop)
  | _ :: _, [] => Err (Undefined "rows out of range")
  end.

Fixpoint range_from (fuel : nat) (root : node) (upper : option Value) (l : leaf) (start : nat)
    : exec (list RowId) :=
  match fuel with
  | O => Ok []
  | S fuel' =>
      let* (out, stop) := collect upper (drop start (lkeys l)) (drop start (rows l)) in
      if stop then Ok out
      else
        match next l with
        | None => Ok out
        | Some a =>
            let* l := deref root a in
            let* rest := range_from fuel' root upper l 0 in
            Ok (out ++ rest)
        end
  end.

Definition range (t : BPlusTree) (lower upper : option Value) : exec (list RowId) :=
  let fuel := length (leaves (root_ t)) in
  match lower with
  | Some k =>
      let* l := findLeaf k (root_ t) in
      range_from fuel (root_ t) upper l (lowerBound (lkeys l) k)
  | None =>
      let* l := firstLeaf (root_ t) in
      range_from fuel (root_ t) upper l 0
  end.

Fixpoint node_height (n : node) : nat :=
  match n with
  | Leaf _ => 1
  | Inner _ children => match children with c :: _ => S (node_height c) | [] => 1 end
  end.

Definition height (t : BPlusTree) : nat := node_height (root_ t).
Definition size (t : BPlusTree) : nat := size_ t.

(** ** The binary search *)

Lemma bisect_spec before l1 l2 fuel first len :
  Forall (λ k, before k = true) l1 → Forall (λ k, before k = false) l2 →
  (first ≤ length l1 ≤ first + len)%nat → (first + len ≤ length (l1 ++ l2))%nat →
  (len < fuel)%nat →
  bisect fuel before (l1 ++ l2) first len = length l1.
Proof.
  intros H1 H2. revert first len.
  induction fuel as [|fuel IH]; intros first len Hfirst Hlen Hfuel; [lia|]. cbn [bisect].
  case_decide as Hzero; [lia|].
  assert (Nat.div len 2 < len)%nat as Hhalf by (apply Nat.div_lt; lia).
  set (half := Nat.div len 2) in *. clearbody half.
  destruct (lookup_lt_is_Some_2 (l1 ++ l2) (first + half)) as [mid Hmid]; [lia|].
  rewrite Hmid. destruct (decide (first + half < length l1)%nat) as [Hlt|Hge].
  - rewrite lookup_app_l in Hmid by done.
    rewrite (Forall_lookup_1 _ _ _ _ H1 Hmid). apply IH; lia.
  - rewrite lookup_app_r in Hmid by lia.
    rewrite (Forall_lookup_1 _ _ _ _ H2 Hmid). apply IH; lia.
Qed.

Lemma partition_sorted {A} (R : A → A → Prop) (p : A → bool) l :
  StronglySorted R l → (∀ a b, a ∈ l → b ∈ l → R a b → p b = true → p a = true) →
  ∃ l1 l2, l = l1 ++ l2 ∧ Forall (λ k, p k = true) l1 ∧ Forall (λ k, p k = false) l2.
Proof.
  induction 1 as [|x l Hsort IH Hx]; intros Hdown; [by exists [], []|].
  destruct (p x) eqn:Hp.
  - destruct IH as (l1 & l2 & -> & H1 & H2).
    { intros a b Ha Hb. apply Hdown; by apply list_elem_of_further. }
    exists (x :: l1), l2. split_and!; [done|by constructor|done].
  - exists [], (x :: l). split_and!; [done|constructor|]. constructor; [done|].
    apply Forall_forall. intros y Hy. apply not_true_iff_false. intros Hpy.
    apply (proj1 (Forall_forall _ _) Hx) in Hy as Hxy.
    rewrite (Hdown x y) in Hp; [done|apply list_elem_of_here| |done|done].
    by apply list_elem_of_further.
Qed.

Lemma insert_at_app {A} (x : A) l1 l2 : insert_at (length l1) x (l1 ++ l2) = l1 ++ x :: l2.
Proof. unfold insert_at. by rewrite take_app_length, drop_app_length. Qed.

(** ** Well-formed trees of the values of one column *)

Section tree.
Context (f : family).
Abbreviation P := (well_ordered f).

Definition lt (a b : Value) : Prop := compare a b < 0.
Definition le (a b : Value) : Prop := compare a b ≤ 0.

Definition above (lo : option Value) (v : Value) : Prop :=
  match lo with Some l => le l v | None => True end.
Definition below (hi : option Value) (v : Value) : Prop :=
  match hi with Some h => lt v h | None => True end.

Definition over (lo : option Value) (v : Value) : Prop :=
  match lo with Some l => lt l v | None => True end.
Definition bound_ok (b : option Value) : Prop := match b with Some v => P v | None => True end.

(** The keys of [l] lie in [lo, hi). *)
Definition leaf_ok (lo hi : option Value) (l : leaf) : Prop :=
  length (lkeys l) = length (rows l) ∧ Forall P (lkeys l) ∧
  StronglySorted lt (lkeys l) ∧ Forall (above lo) (lkeys l) ∧ Forall (below hi) (lkeys l).

(** What a node that is not the root holds at least. *)
Definition minimal (n : node) : Prop :=
  match n with Leaf l => (2 ≤ length (lkeys l))%nat | Inner _ _ => True end.

Inductive wf (maxKeys : nat) : nat → option Value → option Value → node → Prop :=
  | wf_leaf lo hi l :
      leaf_ok lo hi l → (length (lkeys l) ≤ maxKeys)%nat → wf maxKeys 1 lo hi (Leaf l)
  | wf_inner h lo hi keys cs :
      wf_children maxKeys h lo hi keys cs → (1 ≤ length keys ≤ maxKeys)%nat →
      wf maxKeys (S h) lo hi (Inner keys cs)
with wf_children (maxKeys : nat) :
    nat → option Value → option Value → list Value → list node → Prop :=
  | wf_last h lo hi c :
      wf maxKeys h lo hi c → minimal c → wf_children maxKeys h lo hi [] [c]
  | wf_sep h lo hi k keys c cs :
      wf maxKeys h lo (Some k) c → minimal c → P k → over lo k → below hi k →
      wf_children maxKeys h (Some k) hi keys cs →
      wf_children maxKeys h lo hi (k :: keys) (c :: cs).

Scheme wf_mut := Minimality for wf Sort Prop
  with wf_children_mut := Minimality for wf_children Sort Prop.
Combined Scheme wf_both from wf_mut, wf_children_mut.

Definition entries_of (ls : list leaf) : list (Value * RowId) :=
  concat (map (λ l, zip (lkeys l) (rows l)) ls).
Definition split_leaves (s : option split) : list leaf :=
  match s with Some s => leaves (right s) | None => [] end.

Lemma upperBound_app l1 l2 key :
  Forall (λ k, le k key) l1 → Forall (λ k, lt key k) l2 →
  Forall P (l1 ++ l2) → P key →
  upperBound (l1 ++ l2) key = length l1.
Proof.
  intros H1 H2 [HP1 HP2]%Forall_app Hkey. unfold upperBound.
  apply bisect_spec; rewrite ?length_app; try lia.
  - eapply Forall_impl; [apply Forall_and; split; [exact H1|exact HP1]|].
    intros k [Hk HPk]. unfold le in Hk.
    apply (cmp_flip_le (P:=P)) in Hk; [|done..]. apply negb_true_iff. lia.
  - eapply Forall_impl; [exact H2|]. unfold lt. intros k Hk. apply negb_false_iff. lia.
Qed.

Lemma lowerBound_app l1 l2 key :
  Forall (λ k, lt k key) l1 → Forall (λ k, le key k) l2 →
  Forall P (l1 ++ l2) → P key →
  lowerBound (l1 ++ l2) key = length l1.
Proof.
  intros H1 H2 [HP1 HP2]%Forall_app Hkey. unfold lowerBound.
  apply bisect_spec; rewrite ?length_app; try lia.
  - eapply Forall_impl; [exact H1|]. unfold lt. intros k Hk. lia.
  - eapply Forall_impl; [apply Forall_and; split; [exact H2|exact HP2]|].
    intros k [Hk HPk]. unfold le in Hk.
    apply (cmp_flip_le (P:=P)) in Hk; [|done..]. lia.
Qed.

(** ** The order *)

Lemma lt_trans a b c : P a → P b → P c → lt a b → lt b c → lt a c.
Proof. unfold lt. intros Ha Hb Hc H1 H2. eapply (cmp_lt_le_trans (P:=P) a b c); auto; lia. Qed.
Lemma lt_le_trans a b c : P a → P b → P c → lt a b → le b c → lt a c.
Proof. intros Ha Hb Hc. by apply (cmp_lt_le_trans (P:=P)). Qed.
Lemma le_lt_trans a b c : P a → P b → P c → le a b → lt b c → lt a c.
Proof. intros Ha Hb Hc. by apply (cmp_le_lt_trans (P:=P)). Qed.
Lemma le_trans a b c : P a → P b → P c → le a b → le b c → le a c.
Proof. intros Ha Hb Hc. by apply (cmp_le_trans (P:=P)). Qed.
Lemma lt_le a b : lt a b → le a b.
Proof. unfold lt, le. lia. Qed.
Lemma lt_irrefl a : P a → ¬ lt a a.
Proof. intros Ha. unfold lt. rewrite (cmp_refl (P:=P)) by done. lia. Qed.
Lemma le_or_lt a b : P a → P b → le a b ∨ lt b a.
Proof. intros Ha Hb. unfold le, lt. rewrite (cmp_flip_lt (P:=P) b a) by done. lia. Qed.

Lemma over_above lo v : over lo v → above lo v.
Proof. destruct lo; [apply lt_le|done]. Qed.
Lemma over_trans lo a b : bound_ok lo → P a → P b → over lo a → lt a b → over lo b.
Proof. destruct lo; cbn; [apply lt_trans|done]. Qed.
Lemma above_lt_over lo a b : bound_ok lo → P a → P b → above lo a → lt a b → over lo b.
Proof. destruct lo; cbn; [apply le_lt_trans|done]. Qed.
Lemma above_trans lo a b : bound_ok lo → P a → P b → above lo a → le a b → above lo b.
Proof. destruct lo; cbn; [apply le_trans|done]. Qed.
Lemma below_trans hi a b : bound_ok hi → P a → P b → lt a b → below hi b → below hi a.
Proof. destruct hi; cbn; [intros; by apply (lt_trans a b)|done]. Qed.

(** ** The separators of an inner node *)

Lemma wf_children_keys m h lo hi keys cs :
  wf_children m h lo hi keys cs → bound_ok lo → bound_ok hi →
  Forall P keys ∧ StronglySorted lt keys ∧ Forall (over lo) keys ∧ Forall (below hi) keys.
Proof.
  induction 1 as [h lo hi c _ _|h lo hi k keys c cs _ _ Hk Hlo Hhi _ IH]; intros Hblo Hbhi.
  { by repeat constructor. }
  destruct (IH Hk Hbhi) as (HP & Hsort & Hover & Hbelow). split_and!; constructor; try done.
  eapply Forall_impl; [apply Forall_and; split; [exact Hover|exact HP]|].
  intros k' [Hkk HPk]. by apply (over_trans lo k).
Qed.

(** The separators up to [key] and those after it. *)
Lemma separators_around m h lo hi keys cs key :
  wf_children m h lo hi keys cs → bound_ok lo → bound_ok hi → P key →
  ∃ k1 k2, keys = k1 ++ k2 ∧ Forall (λ k, le k key) k1 ∧ Forall (λ k, lt key k) k2 ∧
    upperBound keys key = length k1.
Proof.
  intros Hwf Hlo Hhi Hkey. destruct (wf_children_keys _ _ _ _ _ _ Hwf Hlo Hhi) as (HP & Hsort & _).
  destruct (partition_sorted lt (λ k, negb (compare key k <? 0)) keys Hsort)
    as (k1 & k2 & -> & H1 & H2).
  { intros a b Ha Hb Hab Hp%negb_true_iff. apply negb_true_iff.
    pose proof (proj1 (Forall_forall _ _) HP _ Ha).
    pose proof (proj1 (Forall_forall _ _) HP _ Hb).
    apply Z.ltb_ge in Hp. apply Z.ltb_ge. apply (cmp_flip_le (P:=P)); [done..|].
    apply lt_le. eapply lt_le_trans; [..|exact Hab|]; [done..|]. unfold le.
    by apply (cmp_flip_le (P:=P)). }
  exists k1, k2. apply Forall_app in HP as [HP1 HP2].
  assert (Forall (λ k, le k key) k1) as H1'.
  { eapply Forall_impl; [apply Forall_and; split; [exact H1|exact HP1]|].
    intros k [Hk%negb_true_iff HPk]. apply Z.ltb_ge in Hk. unfold le.
    by apply (cmp_flip_le (P:=P)). }
  assert (Forall (λ k, lt key k) k2) as H2'.
  { eapply Forall_impl; [exact H2|]. intros k Hk%negb_false_iff. unfold lt. lia. }
  split_and!; [done..|]. apply upperBound_app; [done..| |done]. by apply Forall_app.
Qed.

(** Cutting the children at a separator. *)
Lemma wf_children_split m h lo hi a sep b cs :
  wf_children m h lo hi (a ++ sep :: b) cs → bound_ok lo → bound_ok hi →
  ∃ c1 c2, cs = c1 ++ c2 ∧ length c1 = S (length a) ∧
    wf_children m h lo (Some sep) a c1 ∧ wf_children m h (Some sep) hi b c2 ∧
    P sep ∧ over lo sep ∧ below hi sep.
Proof.
  revert lo cs. induction a as [|k a IH]; intros lo cs Hwf Hlo Hhi;
    inversion Hwf as [|? ? ? ? ? c cs' Hc Hmin HPk Hover Hbelow Hcs]; subst.
  - exists [c], cs'. split_and!; try done. by constructor.
  - destruct (IH (Some k) cs' Hcs HPk Hhi)
      as (c1 & c2 & -> & Hlen & H1 & H2 & HPs & Hks & Hsb).
    exists (c :: c1), c2. split_and!; try done; [cbn; lia|by constructor|].
    by apply (over_trans lo k).
Qed.

Lemma entries_of_app l1 l2 : entries_of (l1 ++ l2) = entries_of l1 ++ entries_of l2.
Proof. unfold entries_of. by rewrite map_app, concat_app. Qed.

Lemma entries_of_cons l ls : entries_of (l :: ls) = zip (lkeys l) (rows l) ++ entries_of ls.
Proof. done. Qed.

Lemma leaves_inner keys cs : leaves (Inner keys cs) = concat (map leaves cs).
Proof. done. Qed.

(** Every key of a subtree lies within its bounds, and the keys ascend. *)
Definition entries_ok (lo hi : option Value) (es : list (Value * RowId)) : Prop :=
  Forall (λ e, P e.1 ∧ above lo e.1 ∧ below hi e.1) es ∧
  StronglySorted (λ e1 e2, lt e1.1 e2.1) es.

Lemma zip_keys_ok lo hi ks (rs : list RowId) :
  length ks = length rs → Forall P ks → StronglySorted lt ks →
  Forall (above lo) ks → Forall (below hi) ks →
  entries_ok lo hi (zip ks rs).
Proof.
  revert rs. induction ks as [|k ks IH]; intros [|r rs] Hlen HP Hs Ha Hb; try done.
  { split; constructor. }
  inversion HP; inversion Hs as [|? ? Hs' Hlt]; inversion Ha; inversion Hb; subst.
  destruct (IH rs) as [Hall Hsort]; [by injection Hlen|done..|].
  split; constructor; try done. clear - Hlt. revert rs.
  induction Hlt; intros [|? ?]; constructor; auto.
Qed.

Lemma entries_ok_app lo k hi es1 es2 :
  bound_ok lo → bound_ok hi → P k → above lo k → below hi k →
  entries_ok lo (Some k) es1 → entries_ok (Some k) hi es2 → entries_ok lo hi (es1 ++ es2).
Proof.
  intros Hlo Hhi Hk Hak Hbk [H1 S1] [H2 S2]. split.
  - apply Forall_app. split.
    + eapply Forall_impl; [exact H1|]. intros e (He & Ha & Hb). split_and!; [done..|].
      by apply (below_trans hi _ k).
    + eapply Forall_impl; [exact H2|]. intros e (He & Ha & Hb). split_and!; [done| |done].
      by apply (above_trans lo k).
  - apply StronglySorted_app. split_and!; [|done..]. intros e1 e2 He1 He2.
    apply (proj1 (Forall_forall _ _) H1) in He1 as (? & _ & ?).
    apply (proj1 (Forall_forall _ _) H2) in He2 as (? & ? & _).
    by apply (lt_le_trans _ k).
Qed.

Lemma wf_entries m :
  (∀ h lo hi n, wf m h lo hi n → bound_ok lo → bound_ok hi →
     entries_ok lo hi (entries_of (leaves n))) ∧
  (∀ h lo hi keys cs, wf_children m h lo hi keys cs → bound_ok lo → bound_ok hi →
     entries_ok lo hi (entries_of (concat (map leaves cs)))).
Proof.
  apply wf_both.
  - intros lo hi l (Hlen & HP & Hs & Ha & Hb) _ _ _. cbn. unfold entries_of. cbn.
    rewrite app_nil_r. by apply zip_keys_ok.
  - intros h lo hi keys cs _ IH _. exact IH.
  - intros h lo hi c _ IH _ Hlo Hhi. cbn. rewrite app_nil_r. auto.
  - intros h lo hi k keys c cs _ IHc _ HPk Hover Hbelow _ IHcs Hlo Hhi.
    cbn [map concat]. rewrite entries_of_app. apply (entries_ok_app lo k); auto using over_above.
Qed.

(** ** One leaf *)

(** The leaves that replace a leaf: the leaf itself, or its two halves, the
    second one at the new address. *)
Definition relinked (fresh : Z) (l : leaf) (ls : list leaf) : Prop :=
  (∃ l', ls = [l'] ∧ address l' = address l ∧ next l' = next l) ∨
  (∃ l1 l2, ls = [l1; l2] ∧ address l1 = address l ∧ next l1 = Some fresh ∧
     address l2 = fresh ∧ next l2 = next l).

(** An insertion has replaced [n] by [n'] and perhaps a right sibling. *)
Definition grown (m h : nat) (lo hi : option Value) (n n' : node) (s : option split) : Prop :=
  match s with
  | None => wf m h lo hi n' ∧ (minimal n → minimal n')
  | Some s =>
      wf m h lo (Some (separator s)) n' ∧ wf m h (Some (separator s)) hi (right s) ∧
      minimal n' ∧ minimal (right s) ∧
      P (separator s) ∧ over lo (separator s) ∧ below hi (separator s)
  end.

Lemma keys_around (keys : list Value) key :
  Forall P keys → StronglySorted lt keys → P key →
  ∃ k1 k2, keys = k1 ++ k2 ∧ Forall (λ k, lt k key) k1 ∧ Forall (λ k, le key k) k2 ∧
    lowerBound keys key = length k1.
Proof.
  intros HP Hsort Hkey.
  destruct (partition_sorted lt (λ k, compare k key <? 0) keys Hsort)
    as (k1 & k2 & -> & H1 & H2).
  { intros a b Ha Hb Hab Hp%Z.ltb_lt. apply Z.ltb_lt.
    pose proof (proj1 (Forall_forall _ _) HP _ Ha).
    pose proof (proj1 (Forall_forall _ _) HP _ Hb). by apply (lt_trans a b key). }
  exists k1, k2. pose proof HP as [HP1 HP2]%Forall_app.
  assert (Forall (λ k, lt k key) k1) as H1'.
  { eapply Forall_impl; [exact H1|]. intros k Hk%Z.ltb_lt. exact Hk. }
  assert (Forall (λ k, le key k) k2) as H2'.
  { eapply Forall_impl; [apply Forall_and; split; [exact H2|exact HP2]|].
    intros k [Hk HPk]. apply Z.ltb_ge in Hk. unfold le.
    by apply (cmp_flip_le (P:=P)). }
  split_and!; [done..|]. by apply lowerBound_app.
Qed.

Lemma StronglySorted_middle {A} (R : A → A → Prop) l1 x l2 :
  StronglySorted R (l1 ++ l2) → (∀ y, y ∈ l1 → R y x) → (∀ y, y ∈ l2 → R x y) →
  StronglySorted R (l1 ++ x :: l2).
Proof.
  intros Hsort H1 H2. apply StronglySorted_app in Hsort as (H & Hs1 & Hs2).
  apply StronglySorted_app. split_and!; [|done|].
  - intros y z Hy [->|Hz]%elem_of_cons; auto.
  - constructor; [done|]. by apply Forall_forall.
Qed.

(** An entry put between the smaller and the greater keys of a leaf. *)
Lemma leaf_ok_insert lo hi a a' nx nx' k1 k2 r1 r2 key row :
  leaf_ok lo hi (mkLeaf a (k1 ++ k2) (r1 ++ r2) nx) →
  Forall (λ k, lt k key) k1 → Forall (λ k, lt key k) k2 →
  P key → above lo key → below hi key →
  leaf_ok lo hi (mkLeaf a' (k1 ++ key :: k2) (r1 ++ row :: r2) nx').
Proof.
  intros (Hlen & HP & Hs & Ha & Hb) H1 H2 HPk Hak Hbk. cbn in *.
  rewrite !Forall_app in HP, Ha, Hb.
  destruct HP, Ha, Hb. split_and!; cbn; [rewrite !length_app in *; cbn; lia| | | |];
    try (apply Forall_app; split; [done|by constructor]).
  apply StronglySorted_middle; [done|by apply Forall_forall..].
Qed.

Lemma leaf_ok_split lo hi a a1 a2 nx nx1 nx2 ks1 front ks2 rs :
  leaf_ok lo hi (mkLeaf a (ks1 ++ front :: ks2) rs nx) → ks1 ≠ [] → bound_ok lo →
  leaf_ok lo (Some front) (mkLeaf a1 ks1 (take (length ks1) rs) nx1) ∧
  leaf_ok (Some front) hi (mkLeaf a2 (front :: ks2) (drop (length ks1) rs) nx2) ∧
  P front ∧ over lo front ∧ below hi front.
Proof.
  intros (Hlen & HP & Hs & Ha & Hb) Hne Hlo. cbn in *. rewrite length_app in Hlen. cbn in Hlen.
  rewrite !Forall_app, !Forall_cons in HP, Ha, Hb.
  destruct HP as (HP1 & HPf & HP2), Ha as (Ha1 & Haf & Ha2), Hb as (Hb1 & Hbf & Hb2).
  apply StronglySorted_app in Hs as (Hlt & Hs1 & Hs2).
  inversion Hs2 as [|? ? Hs2' Hf]; subst. split; [|split; [|split; [done|split; [|done]]]].
  - split_and!; cbn; try done; [rewrite length_take; lia|]. apply Forall_forall.
    intros k Hk. apply Hlt; [done|apply list_elem_of_here].
  - split_and!; cbn; try done; [rewrite length_drop; lia|by constructor| |by constructor].
    constructor; [cbn; unfold le; rewrite (cmp_refl (P:=P)); [lia|done]|].
    eapply Forall_impl; [exact Hf|]. intros k. apply lt_le.
  - destruct ks1 as [|k ks1]; [done|]. inversion Ha1; inversion HP1; subst.
    apply (above_lt_over lo k); auto. apply Hlt; apply list_elem_of_here.
Qed.

Lemma zip_app_entries {A B} (l1 l2 : list A) (r1 r2 : list B) :
  length l1 = length r1 → zip (l1 ++ l2) (r1 ++ r2) = zip l1 r1 ++ zip l2 r2.
Proof. intros H. by apply zip_with_app. Qed.

Lemma Forall_zip_keys (Q : Value → Prop) ks (rs : list RowId) :
  Forall Q ks → Forall (λ e, Q e.1) (zip ks rs).
Proof. intros H. revert rs. induction H; intros [|? ?]; constructor; auto. Qed.

Definition duplicate_of (key : Value) (es : list (Value * RowId)) : Prop :=
  ∃ e, e ∈ es ∧ compare e.1 key = 0.

Lemma leaf_put_spec m fresh lo hi l ks rs :
  (3 ≤ m)%nat → (∀ a nx, leaf_ok lo hi (mkLeaf a ks rs nx)) → bound_ok lo →
  (length (lkeys l) ≤ length ks ≤ S m)%nat →
  ∃ n' s, leaf_put m fresh l ks rs = Ok (n', s) ∧
    grown m 1 lo hi (Leaf l) n' s ∧ relinked fresh l (leaves n' ++ split_leaves s) ∧
    entries_of (leaves n' ++ split_leaves s) = zip ks rs.
Proof.
  intros Hm Hok Hlo Hlen. unfold leaf_put. case_decide as Hfit.
  { eexists _, None. split; [done|]. split_and!.
    - split; [by constructor|]. cbn. lia.
    - left. eexists. split_and!; done.
    - unfold entries_of. cbn. by rewrite app_nil_r. }
  set (middle := Nat.div (length ks) 2).
  assert (2 ≤ middle ∧ middle + 2 ≤ length ks ∧ middle ≤ m ∧ length ks - middle ≤ m)%nat as Hmid.
  { unfold middle. pose proof (Nat.div_mod (length ks) 2 ltac:(lia)).
    pose proof (Nat.mod_upper_bound (length ks) 2 ltac:(lia)). lia. }
  clearbody middle. destruct (drop middle ks) as [|front ks2] eqn:Hdrop.
  { apply (f_equal length) in Hdrop. rewrite length_drop in Hdrop. cbn in Hdrop. lia. }
  assert (length (take middle ks) = middle) as Htake by (rewrite length_take; lia).
  assert (length (front :: ks2) = length ks - middle)%nat as Hdlen
    by (rewrite <- Hdrop, length_drop; lia).
  specialize (Hok 0 None). pose proof Hok as (Hrows & _). cbn in Hrows.
  rewrite <- (take_drop middle ks), Hdrop in Hok.
  assert (take middle ks ≠ []) as Hne by (intros E; rewrite E in Htake; cbn in Htake; lia).
  destruct (leaf_ok_split _ _ 0 (address l) fresh None (Some fresh) (next l) _ _ _ _ Hok Hne Hlo)
    as (Hl & Hr & HPf & Hover & Hbelow).
  rewrite Htake in Hl, Hr. eexists _, (Some _). split; [done|]. split_and!.
  - cbn [grown separator right minimal lkeys]. rewrite Htake. split_and!; try done; try lia.
    + constructor; [done|cbn; lia].
    + constructor; [done|cbn in *; lia].
  - right. eexists _, _. split_and!; done.
  - unfold entries_of. cbn [leaves split_leaves right app map concat lkeys rows].
    rewrite app_nil_r, <- Hdrop, <- zip_app_entries, !take_drop; [done|].
    rewrite !length_take. lia.
Qed.

(** The first key not below [key] decides whether [key] is present. *)
Lemma first_not_less key ks :
  Forall P ks → StronglySorted lt ks → P key → Forall (λ k, le key k) ks →
  let found := match ks !! 0%nat with Some k => compare k key =? 0 | None => false end in
  (found = true ∧ ∃ k ks', ks = k :: ks' ∧ compare k key = 0) ∨
  (found = false ∧ Forall (λ k, lt key k) ks).
Proof.
  intros HP Hs Hkey Hle. destruct ks as [|k ks]; [by right; repeat constructor|]. cbn.
  inversion HP as [|? ? HPk HPks]; inversion Hs as [|? ? _ Hkk]; inversion Hle as [|? ? Hk _].
  subst. destruct (compare k key =? 0) eqn:E.
  - left. split; [done|]. exists k, ks. split; [done|lia].
  - right. split; [done|]. assert (lt key k) as Hlt.
    { unfold lt, le in *. pose proof (cmp_flip_eq (P:=P) k key HPk Hkey). lia. }
    constructor; [done|].
    eapply Forall_impl; [apply Forall_and; split; [exact Hkk|exact HPks]|].
    intros k' [Hk' HPk']. by apply (lt_trans key k k').
Qed.

Lemma leaf_insert_spec m fresh lo hi l key row :
  (3 ≤ m)%nat → leaf_ok lo hi l → (length (lkeys l) ≤ m)%nat →
  bound_ok lo → P key → above lo key → below hi key →
  let es := zip (lkeys l) (rows l) in
  match leaf_insert m fresh l key row with
  | Err e => e = Throw "Duplicate B+ tree key" ∧ duplicate_of key es
  | Ok (n', s) =>
      grown m 1 lo hi (Leaf l) n' s ∧ relinked fresh l (leaves n' ++ split_leaves s) ∧
      ∃ es1 es2, es = es1 ++ es2 ∧
        Forall (λ e, lt e.1 key) es1 ∧ Forall (λ e, lt key e.1) es2 ∧
        entries_of (leaves n' ++ split_leaves s) = es1 ++ (key, row) :: es2
  end.
Proof.
  destruct l as [a ks rs nx]. intros Hm Hok Hlen Hlo HPk Hak Hbk. cbn in Hlen.
  pose proof Hok as (Hrows & HP & Hs & _). cbn in Hrows, HP, Hs.
  destruct (keys_around ks key HP Hs HPk) as (k1 & k2 & -> & H1 & H2 & Hpos).
  rewrite length_app in Hrows. rewrite <- (take_drop (length k1) rs).
  assert (length (take (length k1) rs) = length k1) as Hr1 by (rewrite length_take; lia).
  rewrite <- (take_drop (length k1) rs) in Hok.
  set (r1 := take (length k1) rs) in *. set (r2 := drop (length k1) rs) in *.
  clearbody r1 r2. clear Hrows rs.
  unfold leaf_insert. cbn [lkeys rows address next]. rewrite Hpos, lookup_app_r, Nat.sub_diag by lia.
  rewrite zip_app_entries by done.
  apply Forall_app in HP as [HP1 HP2]. apply StronglySorted_app in Hs as (_ & _ & Hs2).
  destruct (first_not_less key k2 HP2 Hs2 HPk H2) as [(-> & k & k2' & -> & Heq)|[-> H2']].
  { split; [done|]. destruct Hok as (Hlen' & _). cbn in Hlen'.
    rewrite !length_app in Hlen'. cbn in Hlen'. destruct r2 as [|r r2]; [cbn in Hlen'; lia|].
    exists (k, r). split; [|done]. apply elem_of_app. right. apply list_elem_of_here. }
  rewrite insert_at_app. rewrite <- Hr1, insert_at_app.
  pose proof (λ a' nx', leaf_ok_insert _ _ _ a' _ nx' _ _ _ _ key row Hok H1 H2' HPk Hak Hbk)
    as Hnew.
  assert (zip (k1 ++ key :: k2) (r1 ++ row :: r2) = zip k1 r1 ++ (key, row) :: zip k2 r2) as Hzip
    by (by rewrite zip_app_entries).
  assert (Hes : ∃ es1 es2, zip k1 r1 ++ zip k2 r2 = es1 ++ es2 ∧
        Forall (λ e, lt e.1 key) es1 ∧ Forall (λ e, lt key e.1) es2 ∧
        zip (k1 ++ key :: k2) (r1 ++ row :: r2) = es1 ++ (key, row) :: es2).
  { eexists _, _. split; [done|].
    split; [by apply (Forall_zip_keys (λ k, lt k key))|].
    split; [by apply (Forall_zip_keys (lt key))|done]. }
  destruct (leaf_put_spec m fresh lo hi (mkLeaf a (k1 ++ k2) (r1 ++ r2) nx)
    (k1 ++ key :: k2) (r1 ++ row :: r2) Hm Hnew Hlo) as (n' & s & -> & Hgrown & Hrel & ->).
  { cbn. rewrite !length_app in *. cbn. lia. }
  split_and!; done.
Qed.

(** ** The way down *)

Lemma wf_children_length m h lo hi keys cs :
  wf_children m h lo hi keys cs → length cs = S (length keys).
Proof. induction 1; cbn; congruence. Qed.

Lemma inner_put_spec m h lo hi n keys cs :
  (3 ≤ m)%nat → wf_children m h lo hi keys cs → bound_ok lo → bound_ok hi →
  (1 ≤ length keys ≤ S m)%nat →
  ∃ n' s, inner_put m keys cs = Ok (n', s) ∧ grown m (S h) lo hi n n' s ∧
    leaves n' ++ split_leaves s = concat (map leaves cs).
Proof.
  intros Hm Hwf Hlo Hhi Hlen. unfold inner_put. case_decide as Hfit.
  { eexists _, None. split; [done|]. split; [|apply app_nil_r].
    split; [|done]. constructor; [done|lia]. }
  set (middle := Nat.div (length keys) 2).
  assert (2 ≤ middle ∧ middle + 2 ≤ length keys)%nat as Hmid.
  { unfold middle. pose proof (Nat.div_mod (length keys) 2 ltac:(lia)).
    pose proof (Nat.mod_upper_bound (length keys) 2 ltac:(lia)). lia. }
  clearbody middle. destruct (keys !! middle) as [sep|] eqn:Hsep.
  2:{ apply lookup_ge_None in Hsep. lia. }
  rewrite <- (take_drop_middle _ _ _ Hsep) in Hwf.
  destruct (wf_children_split _ _ _ _ _ _ _ _ Hwf Hlo Hhi)
    as (c1 & c2 & -> & Hc1 & H1 & H2 & HPs & Hover & Hbelow).
  assert (length (take middle keys) = middle) as Ht by (rewrite length_take; lia).
  rewrite Ht in Hc1. rewrite Nat.add_1_r.
  rewrite take_app_length', drop_app_length' by done.
  eexists _, (Some _). split; [done|]. split; [|by rewrite map_app, concat_app].
  cbn [grown separator right]. split_and!; try done; constructor; try done;
    rewrite ?length_take, ?length_drop; lia.
Qed.

(** [l] is the leaf of [ls] where [key] belongs. *)
Definition located (m : nat) (key : Value) (ls : list leaf) (found : exec leaf)
    (pre : list leaf) (l : leaf) (post : list leaf) : Prop :=
  ls = pre ++ l :: post ∧ found = Ok l ∧
  Forall (λ e, lt e.1 key) (entries_of pre) ∧ Forall (λ e, lt key e.1) (entries_of post) ∧
  ∃ lo hi, leaf_ok lo hi l ∧ bound_ok lo ∧ above lo key ∧ below hi key ∧
    (length (lkeys l) ≤ m)%nat.

Definition keys_after (i : nat) (keys : list Value) (s : option split) : list Value :=
  match s with Some s => insert_at i (separator s) keys | None => keys end.
Definition children_after (i : nat) (cs : list node) (s : option split) : list node :=
  match s with Some s => insert_at (i + 1) (right s) cs | None => cs end.

Section insertion.
Context (m : nat) (key : Value) (row : RowId) (fresh : Z).
Hypothesis Hm : (3 ≤ m)%nat.
Hypothesis Hkey : P key.

Definition inserts (h : nat) (lo hi : option Value) (n : node) : Prop :=
  bound_ok lo → bound_ok hi → above lo key → below hi key →
  ∃ pre l post, located m key (leaves n) (findLeaf key n) pre l post ∧
    match leaf_insert m fresh l key row with
    | Err e => insert_node m fresh key row n = Err e
    | Ok (n0, s0) =>
        ∃ n' s, insert_node m fresh key row n = Ok (n', s) ∧ grown m h lo hi n n' s ∧
          leaves n' ++ split_leaves s = pre ++ (leaves n0 ++ split_leaves s0) ++ post
    end.

Definition inserts_children (h : nat) (lo hi : option Value) (keys : list Value)
    (cs : list node) : Prop :=
  ∀ k1 k2, bound_ok lo → bound_ok hi → above lo key → below hi key →
  keys = k1 ++ k2 → Forall (λ k, le k key) k1 → Forall (λ k, lt key k) k2 →
  let i := length k1 in
  ∃ pre l post,
    located m key (concat (map leaves cs)) (visit (findLeaf key) cs i) pre l post ∧
    match leaf_insert m fresh l key row with
    | Err e => change (insert_node m fresh key row) cs i = Err e
    | Ok (n0, s0) =>
        ∃ cs' s, change (insert_node m fresh key row) cs i = Ok (cs', s) ∧
          wf_children m h lo hi (keys_after i keys s) (children_after i cs' s) ∧
          concat (map leaves (children_after i cs' s)) =
            pre ++ (leaves n0 ++ split_leaves s0) ++ post
    end.

Lemma inserts_leaf lo hi l :
  leaf_ok lo hi l → (length (lkeys l) ≤ m)%nat → inserts 1 lo hi (Leaf l).
Proof.
  intros Hok Hlen Hlo Hhi Ha Hb. exists [], l, []. split.
  { split_and!; try done; [constructor..|]. by exists lo, hi. }
  pose proof (leaf_insert_spec m fresh lo hi l key row Hm Hok Hlen Hlo Hkey Ha Hb) as H.
  cbn [insert_node]. destruct (leaf_insert m fresh l key row) as [[n0 s0]|e]; [|done].
  destruct H as (Hgrown & _). exists n0, s0. by rewrite app_nil_r.
Qed.

Lemma inserts_inner h lo hi keys cs :
  wf_children m h lo hi keys cs → (1 ≤ length keys ≤ m)%nat →
  inserts_children h lo hi keys cs → inserts (S h) lo hi (Inner keys cs).
Proof.
  intros Hwf Hlen Hcs Hlo Hhi Ha Hb.
  destruct (separators_around _ _ _ _ _ _ key Hwf Hlo Hhi Hkey) as (k1 & k2 & Hk & H1 & H2 & Hi).
  destruct (Hcs k1 k2 Hlo Hhi Ha Hb Hk H1 H2) as (pre & l & post & Hloc & Hins).
  exists pre, l, post. cbn [findLeaf insert_node leaves]. rewrite Hi. split; [done|].
  destruct (leaf_insert m fresh l key row) as [[n0 s0]|e]; [|by rewrite Hins].
  destruct Hins as (cs' & s & -> & Hwf' & Hleaves). cbn [rbind].
  destruct s as [s|]; cbn [inner_insert keys_after children_after] in *.
  - destruct (inner_put_spec m h lo hi (Inner keys cs) _ _ Hm Hwf' Hlo Hhi)
      as (n' & s' & -> & Hgrown & Hl).
    { rewrite Hk. rewrite insert_at_app, length_app. subst keys.
      rewrite length_app in Hlen. cbn. lia. }
    exists n', s'. by rewrite Hl.
  - exists (Inner keys cs'), None. split; [done|]. split; [|by rewrite app_nil_r].
    split; [|done]. by constructor.
Qed.

Lemma inserts_last h lo hi c :
  minimal c → inserts h lo hi c → inserts_children h lo hi [] [c].
Proof.
  intros Hmin Hc k1 k2 Hlo Hhi Ha Hb Hk H1 H2.
  symmetry in Hk. apply app_eq_nil in Hk as [-> ->]. cbn [length].
  destruct (Hc Hlo Hhi Ha Hb) as (pre & l & post & Hloc & Hins).
  exists pre, l, post. cbn [map concat visit change]. rewrite app_nil_r. split; [done|].
  destruct (leaf_insert m fresh l key row) as [[n0 s0]|e]; [|by rewrite Hins].
  destruct Hins as (n' & s & -> & Hgrown & Hl). cbn [rbind]. exists [n'], s. split; [done|].
  destruct s as [s|]; cbn [keys_after children_after grown] in *.
  - destruct Hgrown as (Hw1 & Hw2 & Hm1 & Hm2 & HPs & Hov & Hbe).
    rewrite <- Hl. split; [|cbn; by rewrite app_nil_r]. apply wf_sep; try done. by apply wf_last.
  - destruct Hgrown as [Hw Hm']. split; [|done]. apply wf_last; auto.
Qed.

Lemma entries_below_key h lo k c :
  wf m h lo (Some k) c → bound_ok lo → P k → le k key →
  Forall (λ e, lt e.1 key) (entries_of (leaves c)).
Proof.
  intros Hwf Hlo HPk Hle. destruct (wf_entries m) as [Hent _].
  destruct (Hent _ _ _ _ Hwf Hlo HPk) as [H _]. eapply Forall_impl; [exact H|].
  intros e (He & _ & Hb). by apply (lt_le_trans _ k).
Qed.

Lemma entries_above_key h k hi keys cs :
  wf_children m h (Some k) hi keys cs → bound_ok hi → P k → lt key k →
  Forall (λ e, lt key e.1) (entries_of (concat (map leaves cs))).
Proof.
  intros Hwf Hhi HPk Hlt. destruct (wf_entries m) as [_ Hent].
  destruct (Hent _ _ _ _ _ Hwf HPk Hhi) as [H _]. eapply Forall_impl; [exact H|].
  intros e (He & Ha & _). by apply (lt_le_trans _ k).
Qed.

Lemma inserts_sep h lo hi k keys c cs :
  wf m h lo (Some k) c → minimal c → P k → over lo k → below hi k →
  wf_children m h (Some k) hi keys cs →
  inserts h lo (Some k) c → inserts_children h (Some k) hi keys cs →
  inserts_children h lo hi (k :: keys) (c :: cs).
Proof.
  intros Hwc Hmin HPk Hover Hbelow Hwcs Hc Hcs k1 k2 Hlo Hhi Ha Hb Hk H1 H2.
  destruct k1 as [|k' k1]; [destruct k2 as [|k' k2]; [done|]|];
    injection Hk as <- ->; cbn [length visit change map concat].
  - inversion H2 as [|? ? Hkk _]; subst.
    destruct (Hc Hlo HPk Ha Hkk) as (pre & l & post & (Hls & Hf & Hpre & Hpost & Hl) & Hins).
    exists pre, l, (post ++ concat (map leaves cs)). split.
    { rewrite Hls, <- app_assoc. split_and!; try done. rewrite entries_of_app.
      apply Forall_app. split; [done|]. by eapply entries_above_key. }
    destruct (leaf_insert m fresh l key row) as [[n0 s0]|e]; [|by rewrite Hins].
    destruct Hins as (n' & s & -> & Hgrown & Hl'). cbn [rbind]. exists (n' :: cs), s.
    split; [done|].
    replace (pre ++ (leaves n0 ++ split_leaves s0) ++ post ++ concat (map leaves cs))
      with ((leaves n' ++ split_leaves s) ++ concat (map leaves cs))
      by (by rewrite Hl', <- !app_assoc).
    destruct s as [s|]; cbn [keys_after children_after grown split_leaves] in *.
    + destruct Hgrown as (Hw1 & Hw2 & Hm1 & Hm2 & HPs & Hov & Hbe).
      split; [|cbn; by rewrite <- !app_assoc].
      apply wf_sep; try done; [by apply (below_trans hi _ k)|]. by apply wf_sep.
    + destruct Hgrown as [Hw Hm']. split; [|cbn; by rewrite app_nil_r].
      apply wf_sep; auto.
  - inversion H1 as [|? ? Hkk H1']; subst.
    destruct (Hcs k1 k2 HPk Hhi Hkk Hb eq_refl H1' H2)
      as (pre & l & post & (Hls & Hf & Hpre & Hpost & Hl) & Hins).
    exists (leaves c ++ pre), l, post. split.
    { rewrite Hls. split_and!; [by rewrite <- app_assoc|done| |done..].
      rewrite entries_of_app. apply Forall_app. split; [by eapply entries_below_key|done]. }
    destruct (leaf_insert m fresh l key row) as [[n0 s0]|e]; [|by rewrite Hins].
    destruct Hins as (cs' & s & -> & Hwf' & Hl'). cbn [rbind]. exists (c :: cs'), s.
    split; [done|].
    assert (keys_after (S (length k1)) (k :: k1 ++ k2) s = k :: keys_after (length k1) (k1 ++ k2) s)
      as -> by by destruct s.
    assert (children_after (S (length k1)) (c :: cs') s = c :: children_after (length k1) cs' s)
      as -> by by destruct s.
    split; [by apply wf_sep|]. cbn [map concat]. by rewrite Hl', !app_assoc.
Qed.

Lemma insert_node_spec h lo hi n : wf m h lo hi n → inserts h lo hi n.
Proof.
  intros Hwf. revert h lo hi n Hwf.
  apply (wf_mut m inserts inserts_children).
  - apply inserts_leaf.
  - intros h lo hi keys cs Hwf IH Hlen. by apply inserts_inner.
  - intros h lo hi c Hwf IH Hmin. by apply inserts_last.
  - intros h lo hi k keys c cs Hwc IHc Hmin HPk Hov Hbe Hwcs IHcs. by apply inserts_sep.
Qed.
End insertion.

(** ** The chain of leaves *)

Definition first_address (ls : list leaf) (after : option Z) : option Z :=
  match ls with l :: _ => Some (address l) | [] => after end.

(** Each leaf points to the one after it, the last to [after]. *)
Fixpoint linked (ls : list leaf) (after : option Z) : Prop :=
  match ls with
  | [] => True
  | l :: ls' => next l = first_address ls' after ∧ linked ls' after
  end.

Lemma linked_app a b after :
  linked (a ++ b) after ↔ linked a (first_address b after) ∧ linked b after.
Proof.
  induction a as [|l a IH]; [cbn; tauto|]. cbn [app linked]. rewrite IH.
  destruct a; cbn; tauto.
Qed.

Lemma relinked_ok fresh pre l post ls :
  relinked fresh l ls → linked (pre ++ l :: post) None →
  NoDup (map address (pre ++ l :: post)) → fresh ∉ map address (pre ++ l :: post) →
  linked (pre ++ ls ++ post) None ∧ NoDup (map address (pre ++ ls ++ post)) ∧
  ∀ a, a ∈ map address (pre ++ ls ++ post) → a = fresh ∨ a ∈ map address (pre ++ l :: post).
Proof.
  intros Hrel Hlink Hdup Hfresh. apply linked_app in Hlink as [Hpre [Hl Hpost]].
  change map with (@fmap list _) in *. rewrite !fmap_app in *. cbn [fmap list_fmap] in *.
  assert (Hadd : NoDup ((address <$> pre) ++ [address l; fresh] ++ (address <$> post))).
  { apply NoDup_app in Hdup as (Hd1 & Hd2 & Hd3). apply NoDup_cons in Hd3 as [Hn Hd3].
    rewrite elem_of_app, elem_of_cons in Hfresh. cbn in Hpre. cbn [app].
    rewrite NoDup_app, !NoDup_cons, elem_of_cons. split_and!; [done| |intros [?|?]; [subst; tauto|tauto]|tauto..].
    intros x Hx. specialize (Hd2 x Hx). rewrite elem_of_cons in Hd2.
    rewrite !elem_of_cons. intros [->|[->|Hp]]; tauto. }
  destruct Hrel as [(l' & -> & Ha & Hn)|(l1 & l2 & -> & Ha1 & Hn1 & Ha2 & Hn2)]; cbn [app].
  - rewrite linked_app. cbn [linked first_address fmap list_fmap]. rewrite Ha, Hn.
    split; [auto|]. split; [done|]. auto.
  - rewrite linked_app. cbn [linked first_address fmap list_fmap].
    rewrite Ha1, Hn1, Ha2, Hn2. split; [auto|]. split; [done|].
    intros a. rewrite !elem_of_app, !elem_of_cons, elem_of_nil. tauto.
Qed.

(** Following a pointer of the chain. *)
Lemma deref_next root pre l l' post :
  leaves root = pre ++ l :: l' :: post → linked (leaves root) None →
  NoDup (map address (leaves root)) →
  ∃ a, next l = Some a ∧ deref root a = Ok l'.
Proof.
  intros Hls Hlink Hdup. exists (address l'). unfold deref. rewrite Hls in *.
  apply linked_app in Hlink as [_ [Hn _]]. split; [done|].
  replace (pre ++ l :: l' :: post) with ((pre ++ [l]) ++ l' :: post) in *
    by (by rewrite <- app_assoc).
  change map with (@fmap list _) in *. rewrite fmap_app in Hdup.
  apply NoDup_app in Hdup as (_ & Hdisj & _). clear Hls Hn.
  induction (pre ++ [l]) as [|x xs IH]; cbn; [by rewrite Z.eqb_refl|].
  assert (address x ≠ address l') as Hne.
  { intros Heq. apply (Hdisj (address x)); [apply list_elem_of_here|].
    rewrite Heq. apply list_elem_of_here. }
  apply Z.eqb_neq in Hne as ->. apply IH. intros y Hy. apply Hdisj.
  by apply list_elem_of_further.
Qed.

(** ** The tree *)

Definition entries (t : BPlusTree) : list (Value * RowId) := entries_of (leaves (root_ t)).

Definition tree_ok (t : BPlusTree) : Prop :=
  (3 ≤ maxKeys_ t)%nat ∧ (∃ h, wf (maxKeys_ t) h None None (root_ t)) ∧
  size_ t = length (entries t) ∧
  linked (leaves (root_ t)) None ∧ NoDup (map address (leaves (root_ t))) ∧
  (∀ a, a ∈ map address (leaves (root_ t)) → a < allocated t).

Lemma newTree_ok maxKeys : tree_ok (newTree maxKeys).
Proof.
  split; [cbn; lia|]. split.
  { exists 1%nat. constructor; [|cbn; lia]. split_and!; done || constructor. }
  split; [done|]. split; [done|]. split; [apply NoDup_singleton|].
  cbn. intros a ->%list_elem_of_singleton. lia.
Qed.

Definition sorted_around (key : Value) (es es1 es2 : list (Value * RowId)) : Prop :=
  es = es1 ++ es2 ∧ Forall (λ e, lt e.1 key) es1 ∧ Forall (λ e, lt key e.1) es2.

Lemma insert_spec t key row :
  tree_ok t → P key →
  match insert t key row with
  | Err e => e = Throw "Duplicate B+ tree key" ∧ duplicate_of key (entries t)
  | Ok t' => tree_ok t' ∧ ∃ es1 es2, sorted_around key (entries t) es1 es2 ∧
      entries t' = es1 ++ (key, row) :: es2
  end.
Proof.
  destruct t as [m size root alloc]. intros (Hm & (h & Hwf) & Hsize & Hlink & Hdup & Halloc) HPk.
  unfold entries in *. cbn [maxKeys_ size_ root_ allocated] in *.
  destruct (insert_node_spec m key row alloc Hm HPk h None None root Hwf I I I I)
    as (pre & l & post & (Hls & _ & Hpre & Hpost & lo & hi & Hok & Hlo & Ha & Hb & Hlen) & Hins).
  pose proof (leaf_insert_spec m alloc lo hi l key row Hm Hok Hlen Hlo HPk Ha Hb) as Hleaf.
  unfold insert. cbn [maxKeys_ size_ root_ allocated].
  destruct (leaf_insert m alloc l key row) as [[n0 s0]|e].
  2:{ rewrite Hins. cbn. destruct Hleaf as [-> (e' & He & Hc)]. split; [done|].
      exists e'. split; [|done]. rewrite Hls, entries_of_app, entries_of_cons.
      apply elem_of_app. right. apply elem_of_app. by left. }
  destruct Hins as (n' & s & -> & Hgrown & Hl'). cbn [rbind].
  destruct Hleaf as (_ & Hrel & es1 & es2 & Hes & He1 & He2 & Hz).
  set (root' := match s with Some s => Inner [separator s] [n'; right s] | None => n' end).
  assert (leaves root' = pre ++ (leaves n0 ++ split_leaves s0) ++ post) as Hroot.
  { rewrite <- Hl'. unfold root'. destruct s; cbn; by rewrite app_nil_r. }
  assert (Hent : entries_of (leaves root') =
    (entries_of pre ++ es1) ++ (key, row) :: es2 ++ entries_of post).
  { rewrite Hroot, !entries_of_app, <- (entries_of_app (leaves n0)), Hz.
    by rewrite <- !app_assoc. }
  rewrite Hls in Hlink, Hdup, Halloc, Hsize.
  destruct (relinked_ok alloc pre l post _ Hrel Hlink Hdup) as (Hlink' & Hdup' & Hin').
  { intros Hin%Halloc. lia. }
  rewrite <- Hroot in Hlink', Hdup', Hin'.
  assert (entries_of (pre ++ l :: post) = (entries_of pre ++ es1) ++ es2 ++ entries_of post) as Hold.
  { rewrite entries_of_app, entries_of_cons, Hes. by rewrite <- !app_assoc. }
  split.
  - split; [done|]. unfold entries. cbn [maxKeys_ size_ root_ allocated]. split.
    { unfold root'. destruct s as [s|]; cbn [grown] in Hgrown; [|exists h; apply Hgrown].
      destruct Hgrown as (Hw1 & Hw2 & Hm1 & Hm2 & HPs & Hov & Hbe). exists (S h).
      constructor; [|cbn; lia]. apply wf_sep; try done. by apply wf_last. }
    split; [rewrite Hent, Hsize, Hold, !length_app; cbn; rewrite length_app; lia|].
    split; [done|]. split; [done|]. intros a [->|Ha']%Hin'; [lia|].
    apply Halloc in Ha'. lia.
  - exists (entries_of pre ++ es1), (es2 ++ entries_of post). split; [|done].
    rewrite Hls, Hold. split; [done|]. by split; apply Forall_app.
Qed.

(** ** The specification: the ascending list of the entries *)

Definition spec_insert (es : list (Value * RowId)) (key : Value) (row : RowId)
    : exec (list (Value * RowId)) :=
  if existsb (λ e, compare e.1 key =? 0) es then Err (Throw "Duplicate B+ tree key")
  else Ok (List.filter (λ e, compare e.1 key <? 0) es ++
           (key, row) :: List.filter (λ e, negb (compare e.1 key <? 0)) es).

Definition spec_find (es : list (Value * RowId)) (key : Value) : option RowId :=
  snd <$> List.find (λ e, compare e.1 key =? 0) es.

Definition from (lower : option Value) (e : Value * RowId) : bool :=
  match lower with Some l => negb (compare e.1 l <? 0) | None => true end.
Definition upto (upper : option Value) (e : Value * RowId) : bool :=
  match upper with Some u => negb (0 <? compare e.1 u) | None => true end.

Definition spec_range (es : list (Value * RowId)) (lower upper : option Value) : list RowId :=
  map snd (List.filter (upto upper) (List.filter (from lower) es)).

Lemma not_before key es :
  P key → Forall (λ e : Value * RowId, P e.1) es → Forall (λ e, lt key e.1) es →
  Forall (λ e, (compare e.1 key <? 0) = false ∧ (compare e.1 key =? 0) = false ∧
    compare e.1 key > 0) es.
Proof.
  intros HPk HP H. eapply Forall_impl; [apply Forall_and; split; [exact HP|exact H]|].
  intros e [HPe He]. apply (cmp_flip_lt (P:=P)) in He; [lia|done..].
Qed.

Lemma spec_insert_around es es1 es2 key row :
  P key → Forall (λ e, P e.1) es → sorted_around key es es1 es2 →
  spec_insert es key row = Ok (es1 ++ (key, row) :: es2).
Proof.
  intros HPk HP (-> & H1 & H2). apply Forall_app in HP as [_ HP2].
  pose proof (not_before key es2 HPk HP2 H2) as H2'. unfold spec_insert.
  replace (existsb _ _) with false.
  - rewrite !List.filter_app.
    rewrite (filter_true _ es1), (filter_false _ es2), app_nil_r.
    + rewrite (filter_false _ es1), (filter_true _ es2); [done|..].
      * eapply Forall_impl; [exact H2'|]. by intros e (-> & _).
      * eapply Forall_impl; [exact H1|]. intros e He. apply negb_false_iff. unfold lt in He. lia.
    + eapply Forall_impl; [exact H2'|]. by intros e (-> & _).
    + eapply Forall_impl; [exact H1|]. intros e He. unfold lt in He. lia.
  - symmetry. apply not_true_iff_false. rewrite existsb_exists.
    intros (e & He & Heq). apply list_elem_of_In, elem_of_app in He as [He|He].
    + apply (proj1 (Forall_forall _ _) H1) in He. unfold lt in He. lia.
    + apply (proj1 (Forall_forall _ _) H2') in He. lia.
Qed.

Lemma tree_entries_ok t :
  tree_ok t → Forall (λ e, P e.1) (entries t) ∧ StronglySorted (λ e1 e2, lt e1.1 e2.1) (entries t).
Proof.
  intros (_ & (h & Hwf) & _). destruct (proj1 (wf_entries _) _ _ _ _ Hwf I I) as [H Hs].
  split; [|done]. eapply Forall_impl; [exact H|]. by intros e (He & _).
Qed.

(** The leaf a key belongs to, and the two halves of it. *)
Lemma locate t key :
  tree_ok t → P key →
  ∃ pre l post k1 k2 r1 r2,
    leaves (root_ t) = pre ++ l :: post ∧ findLeaf key (root_ t) = Ok l ∧
    lkeys l = k1 ++ k2 ∧ rows l = r1 ++ r2 ∧ length k1 = length r1 ∧ length k2 = length r2 ∧
    lowerBound (lkeys l) key = length k1 ∧
    Forall (λ e, lt e.1 key) (entries_of pre ++ zip k1 r1) ∧
    Forall P k2 ∧ StronglySorted lt k2 ∧ Forall (λ k, le key k) k2 ∧
    Forall (λ e, lt key e.1) (entries_of post).
Proof.
  intros (Hm & (h & Hwf) & _) HPk.
  destruct (insert_node_spec _ key (mkRowId 0 0) 0 Hm HPk h None None _ Hwf I I I I)
    as (pre & l & post & (Hls & Hf & Hpre & Hpost & lo & hi & (Hlen & HP & Hs & _) & _) & _).
  destruct (keys_around (lkeys l) key HP Hs HPk) as (k1 & k2 & Hk & H1 & H2 & Hpos).
  exists pre, l, post, k1, k2, (take (length k1) (rows l)), (drop (length k1) (rows l)).
  rewrite Hk in HP, Hs. apply Forall_app in HP as [_ HP2].
  apply StronglySorted_app in Hs as (_ & _ & Hs2).
  rewrite Hk, length_app in Hlen. split_and!; try done.
  - by rewrite take_drop.
  - rewrite length_take. lia.
  - rewrite length_drop. lia.
  - apply Forall_app. split; [done|]. by apply (Forall_zip_keys (λ k, lt k key)).
Qed.

Lemma find_skip {A} (p : A → bool) l1 l2 :
  Forall (λ x, p x = false) l1 → List.find p (l1 ++ l2) = List.find p l2.
Proof. induction 1 as [|x l Hx _ IH]; [done|]. cbn. by rewrite Hx. Qed.

Lemma entries_split pre l post k1 k2 r1 r2 :
  lkeys l = k1 ++ k2 → rows l = r1 ++ r2 → length k1 = length r1 →
  entries_of (pre ++ l :: post) = (entries_of pre ++ zip k1 r1) ++ zip k2 r2 ++ entries_of post.
Proof.
  intros Hk Hr Hlen. rewrite entries_of_app, entries_of_cons, Hk, Hr, zip_app_entries by done.
  by rewrite <- !app_assoc.
Qed.

Lemma find_spec t key : tree_ok t → P key → find t key = Ok (spec_find (entries t) key).
Proof.
  intros Hok HPk. destruct (tree_entries_ok t Hok) as [HPe _].
  destruct (locate t key Hok HPk)
    as (pre & l & post & k1 & k2 & r1 & r2 & Hls & Hf & Hk & Hr & Hl1 & Hl2 & Hpos & H1 & HP2 & Hs2 & H2 & Hpost).
  unfold find, entries, spec_find in *. rewrite Hf. cbn [rbind].
  rewrite Hls, (entries_split _ _ _ _ _ _ _ Hk Hr Hl1) in *. rewrite Hpos, Hk, Hr.
  rewrite find_skip.
  2:{ eapply Forall_impl; [exact H1|]. intros e He. unfold lt in He. lia. }
  rewrite lookup_app_r, Nat.sub_diag by lia. rewrite lookup_app_r, Hl1, Nat.sub_diag by lia.
  destruct (first_not_less key k2 HP2 Hs2 HPk H2) as [(Hfound & k & k2' & -> & Heq)|[Hfound Hgt]].
  - destruct r2 as [|r r2]; [done|]. cbn in *. by rewrite Hfound.
  - apply Forall_app in HPe as [_ HPe].
    rewrite <- (app_nil_r (zip k2 r2 ++ _)), find_skip.
    + cbn. destruct (k2 !! 0%nat); [by rewrite Hfound|done].
    + eapply Forall_impl; [apply (not_before key); [done|exact HPe|]|by intros e (_ & -> & _)].
      apply Forall_app. split; [by apply (Forall_zip_keys (lt key))|done].
Qed.

(** ** Ranges *)

Definition ascending (es : list (Value * RowId)) : Prop :=
  Forall (λ e, P e.1) es ∧ StronglySorted (λ e1 e2, lt e1.1 e2.1) es.

Lemma ascending_app es1 es2 : ascending (es1 ++ es2) → ascending es1 ∧ ascending es2.
Proof.
  intros [[H1 H2]%Forall_app (_ & Hs1 & Hs2)%StronglySorted_app]. by split; split.
Qed.

(** Once a key is past the upper bound, so are all after it. *)
Lemma past_upper u e es :
  P u → ascending (e :: es) → 0 < compare e.1 u →
  List.filter (upto (Some u)) (e :: es) = [].
Proof.
  intros Hu [HP Hs] He. inversion HP as [|? ? HPe HPes]; inversion Hs as [|? ? _ Hlt]; subst.
  apply filter_false. constructor; [cbn; apply negb_false_iff; lia|].
  eapply Forall_impl; [apply Forall_and; split; [exact Hlt|exact HPes]|].
  intros e' [Hlt' HPe']. cbn. apply negb_false_iff, Z.ltb_lt.
  apply (cmp_flip_lt (P:=P)); [done..|]. apply (lt_trans u e.1); [done..| |done].
  unfold lt. by apply (cmp_flip_lt (P:=P)).
Qed.

Lemma collect_spec upper ks rs tail :
  bound_ok upper → length ks = length rs → ascending (zip ks rs ++ tail) →
  ∃ stop, collect upper ks rs = Ok (map snd (List.filter (upto upper) (zip ks rs)), stop) ∧
    (stop = true → List.filter (upto upper) tail = []).
Proof.
  intros Hu. revert rs. induction ks as [|k ks IH]; intros [|r rs] Hlen Hasc; try done.
  { by exists false. }
  cbn [collect zip zip_with List.filter map] in *.
  destruct (IH rs) as (stop & Hcol & Hstop);
    [by injection Hlen|destruct Hasc as [HP Hs]; inversion HP; inversion Hs; by split|].
  destruct upper as [u|]; cbn [upto fst].
  - destruct (0 <? compare k u) eqn:Hk; cbn [negb].
    + exists true. apply Z.ltb_lt in Hk.
      pose proof (past_upper u (k, r) (zip ks rs ++ tail) Hu Hasc Hk) as Hnil.
      cbn [List.filter upto fst] in Hnil. rewrite (proj2 (Z.ltb_lt _ _) Hk) in Hnil.
      cbn [negb] in Hnil. rewrite List.filter_app in Hnil.
      apply app_eq_nil in Hnil as [Hnil1 Hnil2].
      cbn [upto] in Hnil1. rewrite Hnil1. done.
    + exists stop. by rewrite Hcol.
  - exists stop. by rewrite Hcol.
Qed.

Lemma wf_rows m :
  (∀ h lo hi n, wf m h lo hi n →
     Forall (λ l, length (lkeys l) = length (rows l)) (leaves n) ∧
     ∃ l post, leaves n = l :: post ∧ firstLeaf n = Ok l) ∧
  (∀ h lo hi keys cs, wf_children m h lo hi keys cs →
     Forall (λ l, length (lkeys l) = length (rows l)) (concat (map leaves cs)) ∧
     ∃ l post, concat (map leaves cs) = l :: post ∧ visit firstLeaf cs 0 = Ok l).
Proof.
  apply wf_both.
  - intros lo hi l (Hlen & _) _. split; [by constructor|]. by exists l, [].
  - intros h lo hi keys cs _ IH _. exact IH.
  - intros h lo hi c _ IH _. cbn. rewrite app_nil_r. exact IH.
  - intros h lo hi k keys c cs _ (Hc & l & post & Hl & Hf) _ _ _ _ _ (Hcs & _).
    cbn [map concat visit]. split; [by apply Forall_app|]. exists l, (post ++ concat (map leaves cs)).
    by rewrite Hl.
Qed.

Lemma range_from_spec root upper fuel pre l post start :
  leaves root = pre ++ l :: post → linked (leaves root) None →
  NoDup (map address (leaves root)) →
  Forall (λ l, length (lkeys l) = length (rows l)) (leaves root) → bound_ok upper →
  let es := zip (drop start (lkeys l)) (drop start (rows l)) ++ entries_of post in
  ascending es → (length (l :: post) ≤ fuel)%nat →
  range_from fuel root upper l start = Ok (map snd (List.filter (upto upper) es)).
Proof.
  cbv zeta. intros Hls Hlink Hdup Hrows Hu. revert pre l start fuel Hls.
  induction post as [|l' post IH]; intros pre l start [|fuel] Hls Hasc Hfuel; cbn in Hfuel; try lia;
    cbn [range_from]; pose proof Hrows as Hl; rewrite Hls in Hl;
    apply Forall_app in Hl as [_ Hl]; inversion Hl as [|? ? Hlen _]; subst;
    destruct (collect_spec upper (drop start (lkeys l)) (drop start (rows l)) _ Hu
      ltac:(rewrite !length_drop; lia) Hasc) as (stop & -> & Hstop); cbn [rbind].
  - cbn [entries_of map concat]. rewrite app_nil_r.
    destruct stop; [done|]. rewrite Hls in Hlink. apply linked_app in Hlink as [_ [Hn _]].
    by rewrite Hn.
  - rewrite List.filter_app, map_app. destruct stop.
    + by rewrite Hstop, app_nil_r.
    + destruct (deref_next root pre l l' post Hls Hlink Hdup) as (a & -> & ->). cbn [rbind].
      apply ascending_app in Hasc as [_ Hasc]. rewrite entries_of_cons in Hasc.
      rewrite (IH (pre ++ [l]) l' 0%nat fuel).
      * cbn [rbind]. by rewrite entries_of_cons.
      * by rewrite <- app_assoc.
      * exact Hasc.
      * cbn. lia.
Qed.

Lemma range_spec t lower upper :
  tree_ok t → bound_ok lower → bound_ok upper →
  range t lower upper = Ok (spec_range (entries t) lower upper).
Proof.
  intros Hok Hlo Hu. pose proof (tree_entries_ok t Hok) as Hasc. fold (ascending (entries t)) in Hasc.
  pose proof Hok as (_ & (h & Hwf) & _ & Hlink & Hdup & _).
  destruct (proj1 (wf_rows _) _ _ _ _ Hwf) as (Hrows & l0 & post0 & Hl0 & Hf0).
  unfold range, spec_range. destruct lower as [key|].
  - destruct (locate t key Hok Hlo)
      as (pre & l & post & k1 & k2 & r1 & r2 & Hls & Hf & Hk & Hr & Hl1 & Hl2 & Hpos & H1 & HP2 & Hs2 & H2 & Hpost).
    rewrite Hf. cbn [rbind]. unfold entries in *.
    rewrite Hls, (entries_split _ _ _ _ _ _ _ Hk Hr Hl1) in Hasc |- *.
    pose proof (ascending_app _ _ Hasc) as [[HPx _] Hasc2].
    rewrite List.filter_app, (filter_false _ (entries_of pre ++ _)), app_nil_l.
    2:{ eapply Forall_impl; [exact H1|]. intros e He. cbn. unfold lt in He.
        apply negb_false_iff. lia. }
    rewrite (filter_true _ (zip k2 r2 ++ _)).
    2:{ destruct Hasc2 as [[HPz HPp]%Forall_app _]. apply Forall_app. split.
        - eapply Forall_impl; [apply Forall_and; split;
            [apply (Forall_zip_keys (le key)), H2|exact HPz]|].
          intros e [He HPe]. cbn. apply negb_true_iff, Z.ltb_ge.
          by apply (cmp_flip_le (P:=P)).
        - eapply Forall_impl; [apply (not_before key); [done|exact HPp|exact Hpost]|].
          intros e (He & _). cbn. by rewrite He. }
    assert (drop (length k1) (lkeys l) = k2) as Hdk by (by rewrite Hk, drop_app_length).
    assert (drop (length k1) (rows l) = r2) as Hdr by (by rewrite Hr, Hl1, drop_app_length).
    rewrite Hpos. rewrite <- Hdk, <- Hdr in Hasc2 |- *. rewrite <- Hls.
    apply (range_from_spec _ _ _ pre l post); try done. rewrite Hls, length_app. lia.
  - rewrite Hf0. cbn [rbind]. rewrite (filter_true (from None)) by by apply Forall_forall.
    unfold entries in *. rewrite Hl0, entries_of_cons in Hasc |- *. rewrite <- Hl0.
    apply (range_from_spec _ _ _ [] l0 post0); try done. by rewrite Hl0.
Qed.
End tree.

(** ** Height *)

Lemma wf_height f m :
  (∀ h lo hi n, wf f m h lo hi n → node_height n = h ∧ (1 ≤ h)%nat ∧
     (minimal n → (2 ^ h ≤ length (entries_of (leaves n)))%nat) ∧
     ((1 < h)%nat → (2 ^ h ≤ length (entries_of (leaves n)))%nat)) ∧
  (∀ h lo hi keys cs, wf_children f m h lo hi keys cs →
     (∃ c cs', cs = c :: cs' ∧ node_height c = h) ∧ (1 ≤ h)%nat ∧
     (length cs * 2 ^ h ≤ length (entries_of (concat (map leaves cs))))%nat).
Proof.
  apply wf_both.
  - intros lo hi l (Hlen & _) _. split; [done|]. split; [lia|]. split; [|lia].
    cbn. unfold entries_of. cbn. rewrite app_nil_r, length_zip_with. lia.
  - intros h lo hi keys cs Hwf ((c & cs' & -> & Hc) & Hh & Hcount) Hlen.
    apply wf_children_length in Hwf. cbn [length] in Hwf.
    assert (2 ^ S h ≤ length (entries_of (leaves (Inner keys (c :: cs')))))%nat as Hbig.
    { rewrite leaves_inner, Nat.pow_succ_r'. cbn [length] in Hcount. nia. }
    split; [cbn; by rewrite Hc|]. split; [lia|]. done.
  - intros h lo hi c _ (Hc & Hh & Hmin & _) Hm. split; [eauto|]. split; [done|].
    specialize (Hmin Hm). cbn [map concat length]. rewrite app_nil_r. lia.
  - intros h lo hi k keys c cs _ (Hc & Hh & Hmin & _) Hm _ _ _ _ (_ & _ & Hcount).
    split; [eauto|]. split; [done|]. specialize (Hmin Hm).
    cbn [map concat length]. rewrite entries_of_app, length_app. lia.
Qed.

(** ** Sequences of insertions *)

(** The calls [insert(key, row)] in order; one that throws changes nothing. *)
Definition insert_all (t : BPlusTree) (ops : list (Value * RowId)) : BPlusTree :=
  fold_left (λ t op, match insert t op.1 op.2 with Ok t' => t' | Err _ => t end) ops t.

Definition spec_insert_all (es : list (Value * RowId)) (ops : list (Value * RowId))
    : list (Value * RowId) :=
  fold_left (λ es op, match spec_insert es op.1 op.2 with Ok es' => es' | Err _ => es end)
    ops es.

Lemma spec_insert_duplicate es key row :
  duplicate_of key es → spec_insert es key row = Err (Throw "Duplicate B+ tree key").
Proof.
  intros (e & He & Hc). unfold spec_insert. replace (existsb _ _) with true; [done|].
  symmetry. apply existsb_exists. exists e. split; [by apply list_elem_of_In|lia].
Qed.

(** One insertion, against the specification. *)
Lemma insert_refines f t key row :
  tree_ok f t → well_ordered f key →
  match insert t key row with
  | Ok t' => tree_ok f t' ∧ spec_insert (entries t) key row = Ok (entries t')
  | Err e => spec_insert (entries t) key row = Err e
  end.
Proof.
  intros Hok HPk. pose proof (insert_spec f t key row Hok HPk) as H.
  destruct (insert t key row) as [t'|e].
  - destruct H as (Hok' & es1 & es2 & Haround & ->). split; [done|].
    apply (spec_insert_around f); [done|apply (tree_entries_ok f t Hok)|done].
  - destruct H as [-> Hdup]. by apply spec_insert_duplicate.
Qed.

Lemma insert_all_refines f t ops :
  tree_ok f t → Forall (λ op, well_ordered f op.1) ops →
  tree_ok f (insert_all t ops) ∧
  entries (insert_all t ops) = spec_insert_all (entries t) ops.
Proof.
  unfold insert_all, spec_insert_all. intros Hok Hops. revert t Hok.
  induction Hops as [|[key row] ops Hop _ IH]; intros t Hok; [done|]. cbn [fold_left fst snd].
  pose proof (insert_refines f t key row Hok Hop) as H.
  destruct (insert t key row) as [t'|e].
  - destruct H as [Hok' ->]. apply IH, Hok'.
  - rewrite H. apply IH, Hok.
Qed.

(** * Properties *)

(** C13: on the values of one column (well ordered under [Value::compare]) the
    B+ tree is the ascending list of its entries.  After any insertions into a
    new tree of any order, with a duplicate key refused and without effect,
    every further insertion is refused exactly when its key is present and
    otherwise puts the entry in its place, [find] answers for every key and
    [range] for every pair of optional bounds as the list does; no access is out
    of bounds and no [next] pointer dangles. *)
Theorem btree_refines_sorted_list (f : family) (maxKeys : nat) (ops : list (Value * RowId)) :
  Forall (λ op, well_ordered f op.1) ops →
  let t := insert_all (newTree maxKeys) ops in
  let es := spec_insert_all [] ops in
  StronglySorted (λ e1 e2, compare e1.1 e2.1 < 0) es ∧
  size t = length es ∧
  (∀ key row, well_ordered f key →
     match insert t key row with
     | Ok t' => spec_insert es key row = Ok (entries t')
     | Err e => spec_insert es key row = Err e
     end) ∧
  (∀ key, well_ordered f key → find t key = Ok (spec_find es key)) ∧
  (∀ lower upper, bound_ok f lower → bound_ok f upper →
     range t lower upper = Ok (spec_range es lower upper)).
Proof.
  intros Hops t es.
  destruct (insert_all_refines f (newTree maxKeys) ops (newTree_ok f maxKeys) Hops) as [Hok Hes].
  change (entries (newTree maxKeys)) with (@nil (Value * RowId)) in Hes.
  fold t in Hok, Hes. fold es in Hes. rewrite <- Hes. split; [apply (tree_entries_ok f t Hok)|].
  split; [apply Hok|]. split.
  - intros key row Hkey. pose proof (insert_refines f t key row Hok Hkey) as H.
    destruct (insert t key row); [by destruct H|done].
  - split; intros; [by apply (find_spec f)|by apply (range_spec f)].
Qed.

(** Seven keys in a tree of order three, one of them twice. *)
Lemma btree_refines_sorted_list_witness :
  let ops := (λ n, (VInteger n, mkRowId 0 n)) <$> [5; 3; 9; 3; 7; 1; 8; 2] in
  let t := insert_all (newTree 3) ops in
  size t = 7%nat ∧ find t (VInteger 8) = Ok (Some (mkRowId 0 8)) ∧
  range t (Some (VInteger 3)) (Some (VInteger 7)) = Ok [mkRowId 0 3; mkRowId 0 5; mkRowId 0 7].
Proof.
  intros ops t.
  destruct (btree_refines_sorted_list WithText 3 ops) as (_ & Hsize & _ & Hfind & Hrange).
  { repeat constructor; cbn; unfold sint; lia. }
  unfold t. split; [rewrite Hsize; reflexivity|]. split.
  - rewrite Hfind; [reflexivity|]. cbn. unfold sint. lia.
  - rewrite Hrange; [reflexivity|..]; cbn; unfold sint; lia.
Defined.

(** C21: the tree is balanced and shallow.  All its leaves lie at the same depth,
    which [height] reports, and a tree of height [h] above one holds at least
    [2 ^ h] keys, whatever was inserted: [height] is at most the logarithm of
    [size]. *)
Theorem btree_height_logarithmic (f : family) (maxKeys : nat) (ops : list (Value * RowId)) :
  Forall (λ op, well_ordered f op.1) ops →
  let t := insert_all (newTree maxKeys) ops in
  (1 < height t)%nat → (2 ^ height t ≤ size t)%nat ∧ (height t ≤ Nat.log2 (size t))%nat.
Proof.
  intros Hops t Hh.
  destruct (insert_all_refines f (newTree maxKeys) ops (newTree_ok f maxKeys) Hops)
    as [(_ & (h & Hwf) & Hsize & _) _].
  fold t in Hwf, Hsize. destruct (proj1 (wf_height f _) _ _ _ _ Hwf) as (Hheight & _ & _ & Hbig).
  unfold height, size in *. rewrite Hheight in *. unfold entries in Hsize.
  rewrite Hsize. specialize (Hbig Hh). split; [done|]. apply Nat.log2_le_pow2; [|done].
  pose proof (Nat.pow_nonzero 2 h ltac:(lia)). lia.
Qed.

Lemma btree_height_logarithmic_witness :
  let ops := (λ n, (VInteger n, mkRowId 0 n)) <$> [5; 3; 9; 4; 7; 1; 8; 2] in
  let t := insert_all (newTree 3) ops in
  (1 < height t)%nat ∧ (2 ^ height t ≤ size t)%nat.
Proof.
  intros ops t. assert (1 < height t)%nat as Hh by (vm_compute; lia). split; [exact Hh|].
  apply (btree_height_logarithmic WithText 3 ops); [|exact Hh].
  repeat constructor; cbn; unfold sint; lia.
Defined.
