(* ===== verification/Storage.v ===== *)
(** The buffer pool: class [BufferPool] of [src/native_storage.h] and
    [src/native_storage.cpp].  Files are named by their canonical paths; the
    disk maps them to their bytes.  The pool keeps the frames it holds and their
    order of use; a frame is found again by its key, where the code keeps a
    pointer.  The file shows that the pool is invisible: whatever it evicts, a
    page has the contents it was last given. *)

From S2P Require Import Prelude.
From S2P Require Import Config.
From S2P Require Import Page.

Abbreviation disk := (gmap string bytes) (only parsing).

(** [PageKey] *)
Abbreviation PageKey := (string * Z)%type (only parsing).

Record Frame : Type := mkFrame {
  f_bytes : bytes;
  f_dirty : bool;
  f_pins : nat;
}.

Record BufferPool : Type := mkPool {
  capacityPages_ : nat;
  frames_ : gmap PageKey Frame;
  lru_ : list PageKey;
  pageReads_ : nat;
  evictions_ : nat;
}.

(** The pool with the disk below it. *)
Record storage : Type := mkStorage { pool : BufferPool; files : disk }.

Definition newPool (capacityPages : nat) : BufferPool :=
  mkPool (Nat.max 1 capacityPages) ∅ [] 0 0.

Definition set_frames (f : gmap PageKey Frame → gmap PageKey Frame) (s : storage) : storage :=
  let p := pool s in
  mkStorage (mkPool (capacityPages_ p) (f (frames_ p)) (lru_ p) (pageReads_ p) (evictions_ p))
    (files s).
Definition set_lru (f : list PageKey → list PageKey) (s : storage) : storage :=
  let p := pool s in
  mkStorage (mkPool (capacityPages_ p) (frames_ p) (f (lru_ p)) (pageReads_ p) (evictions_ p))
    (files s).
Definition count_read (s : storage) : storage :=
  let p := pool s in
  mkStorage (mkPool (capacityPages_ p) (frames_ p) (lru_ p) (S (pageReads_ p)) (evictions_ p))
    (files s).
Definition count_eviction (s : storage) : storage :=
  let p := pool s in
  mkStorage (mkPool (capacityPages_ p) (frames_ p) (lru_ p) (pageReads_ p) (S (evictions_ p)))
    (files s).
Definition set_files (f : disk → disk) (s : storage) : storage :=
  mkStorage (pool s) (f (files s)).

(** ** Page-sized file access *)

Definition PAGE : nat := Z.to_nat PAGE_SIZE.
Definition zero_page : bytes := repeat Byte.x00 PAGE.

Definition page_of_file (content : bytes) (number : Z) : bytes :=
  take PAGE (drop (Z.to_nat number * PAGE) content).

(** Writing beyond the end of a file fills the gap with zeros. *)
Definition write_at (content : bytes) (off : nat) (bs : bytes) : bytes :=
  let content := content ++ repeat Byte.x00 (off - length content) in
  take off content ++ bs ++ drop (off + length bs) content.

Definition readPage (key : PageKey) (create : bool) (d : disk) : exec bytes :=
  match d !! key.1 with
  | None =>
      if create then Ok zero_page
      else Err (Throw ("Cannot open heap file: " +:+ key.1))
  | Some content =>
      let bs := page_of_file content key.2 in
      if decide (length bs = 0)%nat then Ok zero_page
      else if decide (length bs = PAGE) then Ok bs
      else Err (Throw ("Partial page in heap file: " +:+ key.1))
  end.

Definition writePage (key : PageKey) (bs : bytes) (d : disk) : disk :=
  <[key.1 := write_at (default [] (d !! key.1)) (Z.to_nat key.2 * PAGE) bs]> d.

(** ** Frames *)

Definition flush (key : PageKey) : action storage () := λ s,
  match frames_ (pool s) !! key with
  | Some f =>
      if f_dirty f then
        (Ok (), set_frames (λ fs, <[key := mkFrame (f_bytes f) false (f_pins f)]> fs)
                  (set_files (writePage key (f_bytes f)) s))
      else (Ok (), s)
  | None => (Ok (), s)
  end.

Definition touch (key : PageKey) : action storage () :=
  modify (set_lru (λ lru, key :: List.filter (λ k, negb (bool_decide (k = key))) lru)).

Definition unpinned (s : storage) (key : PageKey) : bool :=
  match frames_ (pool s) !! key with
  | Some f => bool_decide (f_pins f = 0)%nat
  | None => false
  end.

(** The least recently used frame that nobody uses. *)
Definition evictOne : action storage () := λ s,
  match List.find (unpinned s) (rev (lru_ (pool s))) with
  | None => (Err (Throw "All buffer pool pages are pinned"), s)
  | Some key =>
      (_ ← flush key;
       _ ← modify (set_lru (List.filter (λ k, negb (bool_decide (k = key)))));
       _ ← modify (set_frames (delete key));
       modify count_eviction) s
  end.

(** [while (frames_.size() >= capacityPages_) evictOne();] *)
Fixpoint make_room (fuel : nat) : action storage () := λ s,
  match fuel with
  | O => (Ok (), s)
  | S fuel' =>
      if decide (capacityPages_ (pool s) ≤ size (frames_ (pool s)))%nat then
        (_ ← evictOne; make_room fuel') s
      else (Ok (), s)
  end.

Definition add_pin (f : Frame) : Frame := mkFrame (f_bytes f) (f_dirty f) (S (f_pins f)).

(** [fetch]: afterwards the frame is resident and pinned once more. *)
Definition fetch (file : string) (pageNumber : Z) (create : bool) : action storage () := λ s,
  let key := (file, pageNumber) in
  match frames_ (pool s) !! key with
  | Some f =>
      (_ ← modify (set_frames (λ fs, <[key := add_pin f]> fs)); touch key) s
  | None =>
      (_ ← make_room (S (size (frames_ (pool s))));
       d ← gets files;
       bs ← lift (readPage key create d);
       _ ← modify count_read;
       _ ← modify (set_lru (cons key));
       modify (set_frames (λ fs, <[key := mkFrame bs false 1]> fs))) s
  end.

(** [unpin], called when a guard is released. *)
Definition unpin (key : PageKey) : action storage () := λ s,
  match frames_ (pool s) !! key with
  | Some f =>
      match f_pins f with
      | O => (Err (Throw "Buffer pool pin underflow"), s)
      | S n => (Ok (), set_frames (λ fs, <[key := mkFrame (f_bytes f) (f_dirty f) n]> fs) s)
      end
  | None => (Err (Undefined "guard of a frame that is gone"), s)
  end.

(** [guard.bytes()], its assignment and [markDirty]. *)
Definition guard_bytes (key : PageKey) : action storage bytes := λ s,
  match frames_ (pool s) !! key with
  | Some f => (Ok (f_bytes f), s)
  | None => (Err (Throw "Invalid page guard"), s)
  end.

Definition set_bytes (key : PageKey) (bs : bytes) : action storage () := λ s,
  match frames_ (pool s) !! key with
  | Some f => (Ok (), set_frames (λ fs, <[key := mkFrame bs (f_dirty f) (f_pins f)]> fs) s)
  | None => (Err (Throw "Invalid page guard"), s)
  end.

Definition markDirty (key : PageKey) : action storage () := λ s,
  match frames_ (pool s) !! key with
  | Some f => (Ok (), set_frames (λ fs, <[key := mkFrame (f_bytes f) true (f_pins f)]> fs) s)
  | None => (Err (Throw "Invalid page guard"), s)
  end.

(** The scope of a [PageGuard]: the frame is released when [body] returns or
    throws. *)
Definition with_page {A} (file : string) (pageNumber : Z) (create : bool)
    (body : PageKey → action storage A) : action storage A :=
  _ ← fetch file pageNumber create;
  let key := (file, pageNumber) in
  a ← cleanup (body key) (unpin key);
  _ ← unpin key;
  mret a.

(** ** Whole files *)

Definition resident_keys (s : storage) : list PageKey := map fst (map_to_list (frames_ (pool s))).
Definition file_keys (file : string) (s : storage) : list PageKey :=
  List.filter (λ k : PageKey, bool_decide (k.1 = file)) (resident_keys s).

Definition flushAll : action storage () := λ s, for_each flush (resident_keys s) s.
Definition flushFile (file : string) : action storage () := λ s,
  for_each flush (file_keys file s) s.

Definition discardAll : action storage () := λ s,
  if forallb (unpinned s) (resident_keys s) then
    (Ok (), set_lru (λ _, []) (set_frames (λ _, ∅) s))
  else (Err (Throw "Cannot discard buffer pool with pinned pages"), s).

(** One turn of the loop of [invalidateFile]. *)
Definition invalidate (key : PageKey) : action storage () := λ s,
  if unpinned s key then
    (Ok (), set_frames (delete key)
              (set_lru (List.filter (λ k, negb (bool_decide (k = key)))) s))
  else (Err (Throw "Cannot invalidate pinned page"), s).
Definition invalidateFile (file : string) : action storage () := λ s,
  for_each invalidate (file_keys file s) s.

Definition residentPages (s : storage) : nat := size (frames_ (pool s)).

(** ** Pages of a file *)

Lemma PAGE_pos : (0 < PAGE)%nat.
Proof. unfold PAGE. change PAGE_SIZE with 4096. lia. Qed.

#[global] Opaque PAGE.

Lemma length_write_at c off bs :
  length (write_at c off bs) = Nat.max (length c) (off + length bs).
Proof.
  unfold write_at. rewrite !length_app, length_take, length_drop, length_app, repeat_length. lia.
Qed.

Lemma page_write_eq c n bs :
  length bs = PAGE → page_of_file (write_at c (n * PAGE) bs) (Z.of_nat n) = bs.
Proof.
  intros Hbs. unfold page_of_file, write_at. rewrite Nat2Z.id.
  rewrite drop_app_length'.
  - by rewrite take_app_length'.
  - rewrite length_take, length_app, repeat_length. lia.
Qed.

Lemma page_write_ne c n m bs :
  length bs = PAGE → n ≠ m → (S m * PAGE ≤ length c)%nat →
  page_of_file (write_at c (n * PAGE) bs) (Z.of_nat m) = page_of_file c (Z.of_nat m).
Proof.
  intros Hbs Hne Hlen. unfold page_of_file, write_at. rewrite !Nat2Z.id.
  pose proof PAGE_pos. destruct (decide (n < m)%nat) as [Hlt|Hge].
  - replace (n * PAGE - length c)%nat with O by nia. cbn [repeat]. rewrite app_nil_r.
    rewrite drop_app_ge, length_take by (rewrite length_take; nia).
    rewrite drop_app_ge by nia. rewrite drop_drop. do 2 f_equal. nia.
  - set (z := repeat Byte.x00 _). rewrite drop_app_le.
    2:{ rewrite length_take, length_app. nia. }
    rewrite take_app_le.
    2:{ rewrite length_drop, length_take, length_app. nia. }
    rewrite take_drop_commute, take_take.
    replace (Nat.min (m * PAGE + PAGE) (n * PAGE)) with (m * PAGE + PAGE)%nat by nia.
    rewrite <- take_drop_commute, drop_app_le, take_app_le; [done|..].
    + rewrite length_drop. nia.
    + nia.
Qed.

Lemma length_page_of_file c n :
  length (page_of_file c (Z.of_nat n)) = Nat.min PAGE (length c - n * PAGE).
Proof. unfold page_of_file. by rewrite Nat2Z.id, length_take, length_drop. Qed.

(** ** The invariant

    [A] is what the heap files hold: the directory of every page.  A frame that
    is not dirty agrees with the file only as far as the directory goes, since
    an insertion that found no room may have compacted the page without marking
    it.  A page beyond the last one may have been read: it is a clean page of
    zeros. *)

Abbreviation directory := (list (option bytes)) (only parsing).
Abbreviation heaps := (gmap string (list directory)) (only parsing).

Definition frame_ok (content : bytes) (n : nat) (d : directory) (fr : option Frame) : Prop :=
  match fr with
  | Some fr =>
      page_ok (f_bytes fr) d ∧
      (f_dirty fr = false → page_ok (page_of_file content (Z.of_nat n)) d)
  | None => page_ok (page_of_file content (Z.of_nat n)) d
  end.

Definition file_ok (exact : Prop) (s : storage) (f : string) (pages : list directory) : Prop :=
  ∃ content k, files s !! f = Some content ∧ length content = (k * PAGE)%nat ∧
    (k ≤ length pages)%nat ∧ (exact → k = length pages) ∧
    ∀ n d, pages !! n = Some d → frame_ok content n d (frames_ (pool s) !! (f, Z.of_nat n)).

(** A file for which [E] holds is as long as its pages; any other may still lack
    pages that are only in the pool. *)
Record storage_ok (E : string → Prop) (A : heaps) (s : storage) : Prop := StorageOk {
  so_nodup : NoDup (lru_ (pool s));
  so_lru : ∀ key, key ∈ lru_ (pool s) ↔ is_Some (frames_ (pool s) !! key);
  so_capacity : (1 ≤ capacityPages_ (pool s))%nat;
  so_room : (size (frames_ (pool s)) ≤ capacityPages_ (pool s))%nat;
  so_files : ∀ f pages, A !! f = Some pages → file_ok (E f) s f pages;
  so_frames : ∀ key fr, frames_ (pool s) !! key = Some fr →
    ∃ pages n, A !! key.1 = Some pages ∧ key.2 = Z.of_nat n ∧
      ((length pages ≤ n)%nat → f_bytes fr = zero_page ∧ f_dirty fr = false);
  so_known : ∀ f, is_Some (files s !! f) → is_Some (A !! f);
}.

Definition no_pins (s : storage) : Prop :=
  ∀ key fr, frames_ (pool s) !! key = Some fr → f_pins fr = 0%nat.

Lemma page_ok_length p d : page_ok p d → length p = PAGE.
Proof.
  intros (fin & t & [[Hlen _ _ _] _ _ _ _] & _).
  replace PAGE with (Z.to_nat PAGE_SIZE) by reflexivity. lia.
Qed.

Lemma page_on_file content n d :
  page_ok (page_of_file content (Z.of_nat n)) d → (S n * PAGE ≤ length content)%nat.
Proof.
  intros H%page_ok_length. rewrite length_page_of_file in H. pose proof PAGE_pos. nia.
Qed.

Definition clean (f : Frame) : Frame := mkFrame (f_bytes f) false (f_pins f).

Lemma clean_dirty f : f_dirty f = false → clean f = f.
Proof. destruct f. cbn. by intros ->. Qed.

(** Writing a dirty page back. *)
Lemma file_ok_write (exact : Prop) s f pages n fr content k :
  files s !! f = Some content → length content = (k * PAGE)%nat → (k ≤ length pages)%nat →
  (exact → k = length pages) → (n < length pages)%nat → length (f_bytes fr) = PAGE →
  frames_ (pool s) !! (f, Z.of_nat n) = Some fr →
  (∀ n d, pages !! n = Some d → frame_ok content n d (frames_ (pool s) !! (f, Z.of_nat n))) →
  file_ok exact (set_frames (alter clean (f, Z.of_nat n))
    (set_files (writePage (f, Z.of_nat n) (f_bytes fr)) s)) f pages.
Proof.
  intros Hc Hlen Hk Hex Hn Hfr Hlook Hok. exists (write_at content (n * PAGE) (f_bytes fr)), (Nat.max k (S n)).
  cbn. unfold writePage. cbn. rewrite lookup_insert_eq, Nat2Z.id, Hc. cbn.
  split; [done|]. split; [rewrite length_write_at, Hlen, Hfr; nia|]. split; [lia|].
  split; [intros Hx; specialize (Hex Hx); lia|].
  intros m d Hd. specialize (Hok m d Hd). destruct (decide (m = n)) as [->|Hne].
  - rewrite lookup_alter_eq, Hlook in *. cbn in *. split; [apply Hok|]. intros _.
    rewrite page_write_eq by done. apply Hok.
  - rewrite lookup_alter_ne by (intros [=]; lia).
    assert (Hold : page_ok (page_of_file content (Z.of_nat m)) d →
      page_ok (page_of_file (write_at content (n * PAGE) (f_bytes fr)) (Z.of_nat m)) d).
    { intros Hp. rewrite page_write_ne; [done..|lia|]. by eapply page_on_file. }
    destruct (frames_ (pool s) !! (f, Z.of_nat m)); cbn in *; [|auto].
    split; [apply Hok|]. intros Hclean. by apply Hold, Hok.
Qed.

Lemma file_ok_other (exact : Prop) s s' f pages :
  files s' !! f = files s !! f →
  (∀ n, frames_ (pool s') !! (f, Z.of_nat n) = frames_ (pool s) !! (f, Z.of_nat n)) →
  file_ok exact s f pages → file_ok exact s' f pages.
Proof.
  intros Hf Hfr (content & k & Hc & Hlen & Hk & Hex & Hok). exists content, k.
  rewrite Hf. split_and!; try done. intros n d Hd. rewrite Hfr. auto.
Qed.

Lemma flush_ok E A s key :
  storage_ok E A s →
  ∃ s', flush key s = (Ok (), s') ∧ storage_ok E A s' ∧
    frames_ (pool s') = alter clean key (frames_ (pool s)) ∧
    lru_ (pool s') = lru_ (pool s) ∧ capacityPages_ (pool s') = capacityPages_ (pool s) ∧
    (∀ f, f ≠ key.1 → files s' !! f = files s !! f).
Proof.
  intros Hs. unfold flush. destruct (frames_ (pool s) !! key) as [fr|] eqn:Hfr.
  2:{ exists s. split_and!; try done. symmetry. apply map_eq. intros k.
      destruct (decide (k = key)) as [->|]; [|by rewrite lookup_alter_ne].
      by rewrite lookup_alter_eq, Hfr. }
  destruct (f_dirty fr) eqn:Hdirty.
  2:{ exists s. split_and!; try done. symmetry. apply map_eq. intros k.
      destruct (decide (k = key)) as [->|]; [|by rewrite lookup_alter_ne].
      rewrite lookup_alter_eq, Hfr. cbn. by rewrite clean_dirty. }
  assert (Heq : <[key:=mkFrame (f_bytes fr) false (f_pins fr)]> (frames_ (pool s)) =
    alter clean key (frames_ (pool s))).
  { apply map_eq. intros k. destruct (decide (k = key)) as [->|].
    - by rewrite lookup_insert_eq, lookup_alter_eq, Hfr.
    - by rewrite lookup_insert_ne, lookup_alter_ne. }
  eexists. split; [done|]. split; [|split; [exact Heq|]].
  2:{ split_and!; try done. intros f Hf. cbn. unfold writePage. by rewrite lookup_insert_ne. }
  destruct Hs as [Hnd Hlru Hcap Hroom Hfiles Hframes Hknown]. split; cbn in *; try done.
  - intros k. rewrite Heq, Hlru, lookup_alter_is_Some. done.
  - by rewrite map_size_insert_Some by eauto.
  - intros f pages Hf. specialize (Hfiles f pages Hf).
    destruct (decide (f = key.1)) as [->|Hne].
    + destruct (Hframes key fr Hfr) as (pages' & n & Hp & Hn & Hbeyond).
      rewrite Hf in Hp. injection Hp as <-. destruct key as [f z]. cbn in *. subst z.
      destruct Hfiles as (content & k & Hc & Hlen & Hk & Hex & Hok).
      assert (n < length pages)%nat as Hlt.
      { destruct (decide (n < length pages)%nat) as [|Hge]; [done|].
        destruct Hbeyond as [_ Hb]; [lia|congruence]. }
      destruct (lookup_lt_is_Some_2 pages n Hlt) as [d Hd]. pose proof (Hok n d Hd) as Hfok.
      rewrite Hfr in Hfok. destruct Hfok as [Hpage _].
      pose proof (file_ok_write (E f) s f pages n fr content k Hc Hlen Hk Hex Hlt
        (page_ok_length _ _ Hpage) Hfr Hok) as Hnew.
      unfold set_frames in *. cbn in *. by rewrite Heq.
    + eapply file_ok_other; [..|exact Hfiles].
      * cbn. unfold writePage. by rewrite lookup_insert_ne.
      * intros n. cbn. rewrite lookup_insert_ne; [done|]. intros ->. done.
  - intros k fr' Hk. rewrite Heq in Hk. apply lookup_alter_Some in Hk
      as [(-> & fr0 & Hk & ->)|[_ Hk]]; [|by apply Hframes].
    destruct (Hframes _ _ Hk) as (pages & n & ? & ? & Hb). exists pages, n. split_and!; try done.
    intros Hge. split; [by apply Hb|done].
  - intros f Hf. unfold writePage in Hf. destruct (decide (f = key.1)) as [->|Hne].
    + destruct (Hframes key fr Hfr) as (pages & _ & Hp & _). eauto.
    + rewrite lookup_insert_ne in Hf by done. by apply Hknown.
Qed.

Definition without (key : PageKey) : list PageKey → list PageKey :=
  List.filter (λ k, negb (bool_decide (k = key))).

Lemma elem_of_without k key l : k ∈ without key l ↔ k ∈ l ∧ k ≠ key.
Proof.
  unfold without. rewrite !list_elem_of_In, List.filter_In, negb_true_iff, bool_decide_eq_false.
  done.
Qed.

Lemma NoDup_without key l : NoDup l → NoDup (without key l).
Proof.
  induction 1 as [|k l Hk _ IH]; [constructor|]. cbn. case_bool_decide; cbn; [done|].
  constructor; [|done]. change (k ∉ without key l). rewrite elem_of_without. tauto.
Qed.

(** Forgetting a frame that the file agrees with. *)
Lemma drop_frame_ok E A s key fr :
  storage_ok E A s → frames_ (pool s) !! key = Some fr → f_dirty fr = false →
  storage_ok E A (set_frames (delete key) (set_lru (without key) s)).
Proof.
  intros [Hnd Hlru Hcap Hroom Hfiles Hframes Hknown] Hfr Hclean. split; cbn.
  - by apply NoDup_without.
  - intros k. rewrite elem_of_without, Hlru, lookup_delete_is_Some. split; intros [? ?]; auto.
  - done.
  - rewrite map_size_delete_Some by eauto. lia.
  - intros f pages Hf. destruct (Hfiles f pages Hf) as (content & k & Hc & Hlen & Hk & Hex & Hok).
    exists content, k. split_and!; try done. intros n d Hd. specialize (Hok n d Hd). cbn.
    destruct (decide ((f, Z.of_nat n) = key)) as [<-|Hne].
    + rewrite lookup_delete_eq. rewrite Hfr in Hok. by apply Hok.
    + by rewrite lookup_delete_ne.
  - intros k fr' Hk. apply lookup_delete_Some in Hk as [_ Hk]. by apply Hframes.
  - apply Hknown.
Qed.

Lemma find_unpinned E A s :
  storage_ok E A s → no_pins s → frames_ (pool s) ≠ ∅ →
  ∃ key fr, List.find (unpinned s) (rev (lru_ (pool s))) = Some key ∧
    frames_ (pool s) !! key = Some fr.
Proof.
  intros Hs Hpins Hne. apply map_choose in Hne as (k & fr & Hk).
  destruct (List.find _ _) as [key|] eqn:Hfind.
  - apply List.find_some in Hfind as [Hin _]. apply in_rev, list_elem_of_In in Hin.
    apply (so_lru _ _ _ Hs) in Hin as [fr' Hfr']. eauto.
  - assert (unpinned s k = false) as Hno.
    { apply (List.find_none _ _ Hfind), in_rev. rewrite rev_involutive.
      apply list_elem_of_In, (so_lru _ _ _ Hs). eauto. }
    unfold unpinned in Hno. rewrite Hk in Hno. apply bool_decide_eq_false in Hno.
    destruct Hno. by eapply Hpins.
Qed.

Lemma evictOne_ok E A s :
  storage_ok E A s → no_pins s → frames_ (pool s) ≠ ∅ →
  ∃ s', evictOne s = (Ok (), s') ∧ storage_ok E A s' ∧ no_pins s' ∧
    S (size (frames_ (pool s'))) = size (frames_ (pool s)) ∧
    capacityPages_ (pool s') = capacityPages_ (pool s) ∧
    ∀ k, frames_ (pool s) !! k = None → frames_ (pool s') !! k = None.
Proof.
  intros Hs Hpins Hne. destruct (find_unpinned E A s Hs Hpins Hne) as (key & fr & Hfind & Hfr).
  unfold evictOne. rewrite Hfind.
  destruct (flush_ok E A s key Hs) as (s1 & Hflush & Hs1 & Hframes & Hlru & Hcap & _).
  unfold mbind, action_bind, modify. rewrite Hflush.
  assert (frames_ (pool s1) !! key = Some (clean fr)) as Hfr1.
  { by rewrite Hframes, lookup_alter_eq, Hfr. }
  eexists. split; [done|].
  pose proof (drop_frame_ok E A s1 key (clean fr) Hs1 Hfr1 eq_refl) as [? ? ? ? ? ?].
  split; [by split|]. cbn. split; [|split; [|split; [done|]]].
  - intros k fr' Hk. cbn in Hk. apply lookup_delete_Some in Hk as [_ Hk].
    rewrite Hframes in Hk. apply lookup_alter_Some in Hk as [(-> & fr0 & Hk & ->)|[_ Hk]];
      [apply (Hpins _ _ Hk)|by eapply Hpins].
  - rewrite map_size_delete_Some by eauto.
    assert (size (frames_ (pool s1)) = size (frames_ (pool s))) as Hsz.
    { rewrite Hframes, <- !(size_dom (D:=gset PageKey)). by rewrite dom_alter_L. }
    assert (size (frames_ (pool s)) ≠ 0)%nat by (by apply map_size_non_empty_iff). lia.
  - intros k Hk. apply lookup_delete_None. right. rewrite Hframes.
    by apply lookup_alter_None.
Qed.

Lemma make_room_ok E A fuel s :
  storage_ok E A s → no_pins s → (size (frames_ (pool s)) < fuel)%nat →
  ∃ s', make_room fuel s = (Ok (), s') ∧ storage_ok E A s' ∧ no_pins s' ∧
    (size (frames_ (pool s')) < capacityPages_ (pool s'))%nat ∧
    ∀ k, frames_ (pool s) !! k = None → frames_ (pool s') !! k = None.
Proof.
  revert s. induction fuel as [|fuel IH]; intros s Hs Hpins Hfuel; [lia|]. cbn [make_room].
  case_decide as Hfull; [|exists s; split_and!; done || lia].
  pose proof (so_capacity _ _ _ Hs) as Hcap.
  destruct (evictOne_ok E A s Hs Hpins) as (s1 & Hev & Hs1 & Hpins1 & Hsize & Hcap1 & Hnone).
  { intros Hnil. rewrite Hnil, map_size_empty in *. lia. }
  unfold mbind, action_bind. rewrite Hev.
  destruct (IH s1 Hs1 Hpins1) as (s' & Hrun & Hs' & Hpins' & Hroom & Hnone'); [lia|].
  exists s'. split_and!; try done. auto.
Qed.

(** The frame of [key] is the only one in use. *)
Definition only_pin (key : PageKey) (s : storage) : Prop :=
  ∃ fr, frames_ (pool s) !! key = Some fr ∧ f_pins fr = 1%nat ∧
    ∀ k fr', k ≠ key → frames_ (pool s) !! k = Some fr' → f_pins fr' = 0%nat.

(** Replacing a frame by one the invariant admits. *)
Lemma set_frame_ok E A s f n pages fr fr' :
  storage_ok E A s → frames_ (pool s) !! (f, Z.of_nat n) = Some fr → A !! f = Some pages →
  (∀ d, pages !! n = Some d → page_ok (f_bytes fr') d) →
  (f_dirty fr' = false → f_dirty fr = false) →
  ((length pages ≤ n)%nat → f_bytes fr' = zero_page ∧ f_dirty fr' = false) →
  storage_ok E A (set_frames (λ fs, <[(f, Z.of_nat n) := fr']> fs) s).
Proof.
  intros [Hnd Hlru Hcap Hroom Hfiles Hframes Hknown] Hfr HA Hpage Hdirty Hbeyond. split; cbn; try done.
  - intros k. rewrite Hlru, lookup_insert_is_Some. destruct (decide (k = (f, Z.of_nat n))) as [->|].
    + rewrite Hfr. naive_solver.
    + naive_solver.
  - by rewrite map_size_insert_Some by eauto.
  - intros g gpages Hg. destruct (Hfiles g gpages Hg) as (content & k & Hc & Hlen & Hk & Hex & Hok).
    exists content, k. split_and!; try done. intros m d Hd. specialize (Hok m d Hd). cbn.
    destruct (decide ((g, Z.of_nat m) = (f, Z.of_nat n))) as [Heq|Hne].
    + injection Heq as -> ->%Nat2Z.inj. rewrite lookup_insert_eq. rewrite Hfr in Hok.
      rewrite HA in Hg. injection Hg as ->. split; [auto|]. intros Hclean.
      apply Hok. auto.
    + by rewrite lookup_insert_ne.
  - intros k fr0 Hk. apply lookup_insert_Some in Hk as [[<- <-]|[_ Hk]]; [|by apply Hframes].
    by exists pages, n.
Qed.

Lemma touch_frame_ok E A s key :
  storage_ok E A s → is_Some (frames_ (pool s) !! key) →
  storage_ok E A (set_lru (λ lru, key :: without key lru) s).
Proof.
  intros [Hnd Hlru Hcap Hroom Hfiles Hframes Hknown] Hkey. split; cbn; try done.
  - constructor; [|by apply NoDup_without]. rewrite elem_of_without. tauto.
  - intros k. rewrite elem_of_cons, elem_of_without, Hlru.
    destruct (decide (k = key)) as [->|]; tauto.
Qed.

Lemma readPage_ok E A s f pages n create :
  storage_ok E A s → A !! f = Some pages → frames_ (pool s) !! (f, Z.of_nat n) = None →
  ∃ bs, readPage (f, Z.of_nat n) create (files s) = Ok bs ∧
    (∀ d, pages !! n = Some d → page_ok bs d ∧
       ∀ content, files s !! f = Some content → page_ok (page_of_file content (Z.of_nat n)) d) ∧
    ((length pages ≤ n)%nat → bs = zero_page).
Proof.
  intros Hs HA Hnone. destruct (so_files _ _ _ Hs f pages HA) as (content & k & Hc & Hlen & Hk & Hex & Hok).
  unfold readPage. cbn [fst snd]. rewrite Hc, length_page_of_file, Hlen. pose proof PAGE_pos.
  destruct (decide (n < length pages)%nat) as [Hlt|Hge].
  - destruct (lookup_lt_is_Some_2 pages n Hlt) as [d Hd]. pose proof (Hok n d Hd) as Hfok.
    rewrite Hnone in Hfok. cbn in Hfok. pose proof (page_on_file _ _ _ Hfok) as Hin.
    rewrite Hlen in Hin. rewrite decide_False by nia. rewrite decide_True by nia.
    eexists. split; [done|]. split; [|lia]. intros d' Hd'. rewrite Hd in Hd'.
    injection Hd' as <-. split; [done|]. by intros content' [= <-].
  - rewrite decide_True by nia. eexists. split; [done|]. split; [|done].
    intros d Hd. apply lookup_lt_Some in Hd. lia.
Qed.

Lemma fetch_ok E A s f pages n create :
  storage_ok E A s → no_pins s → A !! f = Some pages →
  ∃ s', fetch f (Z.of_nat n) create s = (Ok (), s') ∧ storage_ok E A s' ∧
    only_pin (f, Z.of_nat n) s'.
Proof.
  intros Hs Hpins HA. unfold fetch. destruct (frames_ (pool s) !! (f, Z.of_nat n)) as [fr|] eqn:Hfr.
  - eexists. split; [done|]. split.
    + apply touch_frame_ok; [|by cbn; rewrite lookup_insert_eq].
      eapply set_frame_ok; [done..| | |]; cbn.
      * intros d Hd. destruct (so_files _ _ _ Hs f pages HA) as (content & k & _ & _ & _ & _ & Hok).
        specialize (Hok n d Hd). rewrite Hfr in Hok. apply Hok.
      * done.
      * intros Hge. destruct (so_frames _ _ _ Hs _ _ Hfr) as (pages' & n' & HA' & Hn & Hb).
        cbn in *. rewrite HA in HA'. injection HA' as <-. apply Nat2Z.inj in Hn as <-. auto.
    + exists (add_pin fr). cbn. rewrite lookup_insert_eq. split; [done|].
      split; [by rewrite (Hpins _ _ Hfr)|]. intros k fr' Hk Hl.
      rewrite lookup_insert_ne in Hl by done. by eapply Hpins.
  - destruct (make_room_ok E A (S (size (frames_ (pool s)))) s Hs Hpins ltac:(lia))
      as (s1 & Hroom & Hs1 & Hpins1 & Hfit & Hnone).
    destruct (readPage_ok E A s1 f pages n create Hs1 HA (Hnone _ Hfr)) as (bs & Hread & Hbs & Hzero).
    unfold mbind, action_bind, gets, lift, modify. rewrite Hroom, Hread. eexists. split; [done|].
    destruct Hs1 as [Hnd Hlru Hcap Hsize Hfiles Hframes Hknown]. specialize (Hnone _ Hfr).
    split; [split; cbn; try done|].
    + constructor; [|done]. rewrite Hlru, Hnone. by intros [? [=]].
    + intros k. rewrite elem_of_cons, Hlru, lookup_insert_is_Some.
      destruct (decide (k = (f, Z.of_nat n))) as [->|]; naive_solver.
    + rewrite map_size_insert_None by done. lia.
    + intros g gpages Hg. destruct (Hfiles g gpages Hg) as (content & k & Hc & Hlen & Hk & Hex & Hok).
      exists content, k. split_and!; try done. intros m d Hd. specialize (Hok m d Hd). cbn.
      destruct (decide ((g, Z.of_nat m) = (f, Z.of_nat n))) as [Heq|Hne].
      * injection Heq as -> ->%Nat2Z.inj. rewrite lookup_insert_eq. rewrite HA in Hg.
        injection Hg as ->. destruct (Hbs d Hd) as [Hp Hdisk]. split; [done|]. intros _.
        by apply Hdisk.
      * by rewrite lookup_insert_ne.
    + intros k fr0 Hk. apply lookup_insert_Some in Hk as [[<- <-]|[_ Hk]]; [|by apply Hframes].
      exists pages, n. split_and!; try done. intros Hge. by rewrite Hzero.
    + eexists. cbn. rewrite lookup_insert_eq. split; [done|]. split; [done|].
      intros k fr' Hk Hl. rewrite lookup_insert_ne in Hl by done. by eapply Hpins1.
Qed.

(** ** Changing a page, and adding one *)

Lemma lookup_frame_insert s key fr fr' k :
  frames_ (pool s) !! key = Some fr →
  is_Some ((<[key := fr']> (frames_ (pool s))) !! k) ↔ is_Some (frames_ (pool s) !! k).
Proof.
  intros Hfr. rewrite lookup_insert_is_Some. destruct (decide (k = key)) as [->|].
  - split; [eauto|auto].
  - split; [intros [?|[_ ?]]; [congruence|done]|auto].
Qed.

Lemma put_frame_ok E A s f n pages d' fr fr' :
  storage_ok E A s → frames_ (pool s) !! (f, Z.of_nat n) = Some fr → A !! f = Some pages →
  (n < length pages)%nat → page_ok (f_bytes fr') d' →
  (f_dirty fr' = false → ∀ content, files s !! f = Some content →
     page_ok (page_of_file content (Z.of_nat n)) d') →
  storage_ok E (<[f := <[n := d']> pages]> A)
    (set_frames (λ fs, <[(f, Z.of_nat n) := fr']> fs) s).
Proof.
  intros [Hnd Hlru Hcap Hroom Hfiles Hframes Hknown] Hfr HA Hn Hpage Hclean. split; cbn; try done.
  - intros k. rewrite Hlru. symmetry. by eapply lookup_frame_insert.
  - by rewrite map_size_insert_Some by eauto.
  - intros g gpages Hg. apply lookup_insert_Some in Hg as [[<- <-]|[Hfg Hg]].
    + destruct (Hfiles f pages HA) as (content & k & Hc & Hlen & Hk & Hex & Hok).
      exists content, k. rewrite length_insert. split_and!; try done. intros m d Hd. cbn.
      apply list_lookup_insert_Some in Hd as [(<- & <- & _)|[Hne Hd]].
      * rewrite lookup_insert_eq. split; [done|]. intros Hd. by apply Hclean.
      * rewrite lookup_insert_ne by (intros [=]; lia). by apply Hok.
    + pose proof (Hfiles g gpages Hg) as Hgok. eapply file_ok_other; [..|exact Hgok]; [done|].
      intros m. cbn. rewrite lookup_insert_ne; [done|]. intros Heq. apply Hfg. congruence.
  - intros k fr0 Hk. apply lookup_insert_Some in Hk as [[<- <-]|[Hne Hk]].
    + exists (<[n:=d']> pages), n. cbn. rewrite lookup_insert_eq, length_insert.
      split_and!; try done. lia.
    + destruct (Hframes k fr0 Hk) as (gpages & m & HA' & Hm & Hb).
      destruct (decide (k.1 = f)) as [Heq|Hne'].
      * exists (<[n:=d']> pages), m. rewrite Heq, lookup_insert_eq, length_insert.
        rewrite Heq, HA in HA'. injection HA' as <-. done.
      * exists gpages, m. by rewrite lookup_insert_ne.
  - intros g Hg%Hknown. rewrite lookup_insert_is_Some. destruct (decide (f = g)); auto.
Qed.

Lemma add_page_ok E A s f pages d' fr fr' :
  storage_ok E A s → frames_ (pool s) !! (f, Z.of_nat (length pages)) = Some fr →
  A !! f = Some pages → page_ok (f_bytes fr') d' → f_dirty fr' = true →
  storage_ok (λ g, E g ∧ g ≠ f) (<[f := pages ++ [d']]> A)
    (set_frames (λ fs, <[(f, Z.of_nat (length pages)) := fr']> fs) s).
Proof.
  intros [Hnd Hlru Hcap Hroom Hfiles Hframes Hknown] Hfr HA Hpage Hdirty. split; cbn; try done.
  - intros k. rewrite Hlru. symmetry. by eapply lookup_frame_insert.
  - by rewrite map_size_insert_Some by eauto.
  - intros g gpages Hg. apply lookup_insert_Some in Hg as [[<- <-]|[Hfg Hg]].
    + destruct (Hfiles f pages HA) as (content & k & Hc & Hlen & Hk & Hex & Hok).
      exists content, k. rewrite length_app. cbn. split_and!; try done; [lia|tauto|].
      intros m d Hd. apply lookup_app_Some in Hd as [Hd|[Hm Hd]].
      * apply lookup_lt_Some in Hd as Hlt. rewrite lookup_insert_ne by (intros [=]; lia).
        by apply Hok.
      * apply list_lookup_singleton_Some in Hd as [Hm0 <-].
        replace m with (length pages) by lia. rewrite lookup_insert_eq. cbn.
        split; [done|congruence].
    + destruct (Hfiles g gpages Hg) as (content & k & Hc & Hlen & Hk & Hex & Hok).
      exists content, k. split_and!; try done; [tauto|]. intros m d Hd. cbn.
      rewrite lookup_insert_ne; [by apply Hok|]. intros [=]; done.
  - intros k fr0 Hk. apply lookup_insert_Some in Hk as [[<- <-]|[Hne Hk]].
    + exists (pages ++ [d']), (length pages). cbn. rewrite lookup_insert_eq, length_app.
      split_and!; try done. cbn. lia.
    + destruct (Hframes k fr0 Hk) as (gpages & m & HA' & Hm & Hb).
      destruct (decide (k.1 = f)) as [Heq|Hne'].
      * exists (pages ++ [d']), m. rewrite Heq, lookup_insert_eq, length_app.
        rewrite Heq, HA in HA'. injection HA' as <-. split_and!; try done. cbn. intros ?.
        apply Hb. lia.
      * exists gpages, m. by rewrite lookup_insert_ne.
  - intros g Hg%Hknown. rewrite lookup_insert_is_Some. destruct (decide (f = g)); auto.
Qed.

(** ** Flushing a file *)

Lemma flush_all_ok E A keys s :
  storage_ok E A s →
  ∃ s', for_each flush keys s = (Ok (), s') ∧ storage_ok E A s' ∧
    (∀ k, frames_ (pool s') !! k =
       (if bool_decide (k ∈ keys) then clean else λ f, f) <$> frames_ (pool s) !! k) ∧
    (∀ f, (∀ k, k ∈ keys → k.1 ≠ f) → files s' !! f = files s !! f).
Proof.
  revert s. induction keys as [|key keys IH]; intros s Hs.
  { exists s. split_and!; try done. intros k. rewrite bool_decide_eq_false_2
      by apply not_elem_of_nil. by destruct (frames_ (pool s) !! k). }
  destruct (flush_ok E A s key Hs) as (s1 & Hf1 & Hs1 & Hfr1 & _ & _ & Hd1).
  destruct (IH s1 Hs1) as (s' & Hf & Hs' & Hfr & Hd). exists s'.
  cbn [for_each]. unfold mbind, action_bind. rewrite Hf1. split; [done|]. split; [done|]. split.
  - intros k. rewrite Hfr, Hfr1. destruct (decide (k = key)) as [->|Hne].
    + rewrite lookup_alter_eq, (bool_decide_eq_true_2 (key ∈ key :: keys))
        by apply list_elem_of_here.
      destruct (frames_ (pool s) !! key); [|done]. cbn. by case_bool_decide.
    + rewrite lookup_alter_ne by done. rewrite (bool_decide_ext (k ∈ key :: keys) (k ∈ keys));
        [done|]. rewrite elem_of_cons. tauto.
  - intros f Hf'. rewrite Hd, Hd1; [done| |].
    + intros Heq. apply (Hf' key); [apply list_elem_of_here|done].
    + intros k Hk. by apply Hf', list_elem_of_further.
Qed.

Lemma elem_of_file_keys f s k :
  k ∈ file_keys f s ↔ k.1 = f ∧ is_Some (frames_ (pool s) !! k).
Proof.
  unfold file_keys, resident_keys. rewrite list_elem_of_In, List.filter_In, bool_decide_eq_true.
  rewrite <- list_elem_of_In. change map with (@fmap list _). rewrite list_elem_of_fmap.
  split.
  - intros [([k' fr] & -> & Hin) Hf]. apply elem_of_map_to_list in Hin. cbn in *. eauto.
  - intros [Hf [fr Hfr]]. split; [|done]. exists (k, fr). by rewrite elem_of_map_to_list.
Qed.

(** Two pools with the same frames up to their dirty flags. *)
Definition same_frames (s s' : storage) : Prop :=
  ∀ k, (λ f, (f_bytes f, f_pins f)) <$> frames_ (pool s') !! k =
       (λ f, (f_bytes f, f_pins f)) <$> frames_ (pool s) !! k.

Lemma flushFile_ok E A s f :
  storage_ok E A s →
  ∃ s', flushFile f s = (Ok (), s') ∧ storage_ok (λ g, E g ∨ g = f) A s' ∧ same_frames s s' ∧
    (∀ k fr, frames_ (pool s') !! k = Some fr → k.1 = f → f_dirty fr = false) ∧
    (∀ g, g ≠ f → files s' !! g = files s !! g).
Proof.
  intros Hs. destruct (flush_all_ok E A (file_keys f s) s Hs) as (s' & Hrun & Hs' & Hfr & Hd).
  exists s'. split; [done|].
  assert (Hclean : ∀ k fr, frames_ (pool s') !! k = Some fr → k.1 = f → f_dirty fr = false).
  { intros k fr Hk Hf. rewrite Hfr in Hk. apply fmap_Some in Hk as (fr0 & Hk & ->).
    rewrite bool_decide_eq_true_2; [done|]. apply elem_of_file_keys. eauto. }
  split; [|split; [|split; [done|]]].
  - destruct Hs' as [Hnd Hlru Hcap Hroom Hfiles Hframes Hknown]. split; try done.
    intros g pages Hg. destruct (Hfiles g pages Hg) as (content & k & Hc & Hlen & Hk & Hex & Hok).
    exists content, k. split_and!; try done. intros [?| ->]; [auto|].
    destruct (decide (length pages = 0%nat)) as [|Hne]; [lia|].
    destruct (lookup_lt_is_Some_2 pages (length pages - 1)) as [d Hdir]; [lia|].
    specialize (Hok _ _ Hdir).
    assert (page_ok (page_of_file content (Z.of_nat (length pages - 1))) d) as Hp.
    { destruct (frames_ (pool s') !! (f, Z.of_nat (length pages - 1))) as [fr|] eqn:E0; [|done].
      apply Hok. by eapply Hclean. }
    apply page_on_file in Hp. pose proof PAGE_pos. nia.
  - intros k. rewrite Hfr. destruct (frames_ (pool s) !! k); [|done]. cbn.
    by case_bool_decide.
  - intros g Hg. apply Hd. intros k Hk%elem_of_file_keys. destruct Hk as [-> _]. done.
Qed.

Lemma same_frames_no_pins s s' : same_frames s s' → no_pins s → no_pins s'.
Proof.
  intros Hsame Hpins k fr Hk. specialize (Hsame k). rewrite Hk in Hsame. cbn in Hsame.
  destruct (frames_ (pool s) !! k) as [fr0|] eqn:Hk0; [|done]. injection Hsame as _ ->.
  by eapply Hpins.
Qed.

Lemma same_frames_only_pin s s' key : same_frames s s' → only_pin key s → only_pin key s'.
Proof.
  intros Hsame (fr & Hfr & Hpin & Hothers). pose proof (Hsame key) as Hkey. rewrite Hfr in Hkey.
  destruct (frames_ (pool s') !! key) as [fr'|] eqn:Hfr'; [|done]. injection Hkey as _ Hp.
  exists fr'. split; [done|]. split; [congruence|]. intros k fr0 Hk Hk0. specialize (Hsame k).
  rewrite Hk0 in Hsame. destruct (frames_ (pool s) !! k) as [fr1|] eqn:Hk1; [|done].
  injection Hsame as _ ->. by eapply Hothers.
Qed.
