(* ===== verification/Heap.v ===== *)
(** Heap files: class [HeapFile] of [src/native_storage.h] and
    [src/native_storage.cpp], on the buffer pool.  A heap file is a sequence of
    slotted pages; rows are found by page and slot.  Page numbers are not
    reduced to 32 bits: the theorems are about files of fewer than 2^32 pages.
    Callbacks are results: a scan returns the batches it would have passed to
    its visitor.  The file shows that a heap file is a finite map from row
    identifiers to rows and that a scan lists it. *)

From S2P Require Import Prelude.
From S2P Require Import Config.
From S2P Require Import Page.
From S2P Require Import Value.
From S2P Require Import Tuple.
From S2P Require Import Storage.

(** The members of a [HeapFile] object, with the storage it works on. *)
Record HeapFile : Type := mkHeapFile {
  path_ : string;
  insertPageHint_ : option nat;
  knownPageCount_ : option nat;
}.

Definition heap (path : string) : HeapFile := mkHeapFile path None None.

Abbreviation heap_action := (action (HeapFile * storage)) (only parsing).

Definition on_storage {A} (m : action storage A) : heap_action A :=
  zoom snd (λ s hs, (hs.1, s)) m.
Definition set_hint (hint : option nat) : heap_action () :=
  modify (λ hs, (mkHeapFile (path_ hs.1) hint (knownPageCount_ hs.1), hs.2)).
Definition set_count (count : option nat) : heap_action () :=
  modify (λ hs, (mkHeapFile (path_ hs.1) (insertPageHint_ hs.1) count, hs.2)).

(** A use of one page: [g] computes on its bytes and says whether they are to
    be marked dirty; [k] goes on before the page is released. *)
Definition on_page {A B} (file : string) (number : nat) (create : bool)
    (g : bytes → exec (A * bytes * bool)) (k : A → action storage B) : action storage B :=
  with_page file (Z.of_nat number) create (λ key,
    bs ← guard_bytes key;
    r ← lift (g bs);
    let '(a, bs', dirty) := r in
    _ ← set_bytes key bs';
    _ ← (if (dirty : bool) then markDirty key else mret ());
    k a).

Definition exists_ : heap_action bool :=
  gets (λ hs, bool_decide (is_Some (files hs.2 !! path_ hs.1))).

Definition create : heap_action () :=
  e ← exists_;
  if (e : bool) then mret ()
  else
    _ ← modify (λ hs, (hs.1, set_files (<[path_ hs.1 := []]>) hs.2));
    set_count (Some 0%nat).

Definition drop_file : heap_action () :=
  h ← gets fst;
  _ ← on_storage (flushFile (path_ h));
  _ ← on_storage (invalidateFile (path_ h));
  _ ← modify (λ hs, (hs.1, set_files (delete (path_ h)) hs.2));
  _ ← set_count (Some 0%nat);
  set_hint None.

(** The file's size in pages, rounded up. *)
Definition file_pages (s : storage) (path : string) : nat :=
  match files s !! path with
  | Some content => Nat.div (length content + PAGE - 1) PAGE
  | None => 0
  end.

Definition pageCount : heap_action nat := λ hs,
  match knownPageCount_ hs.1 with
  | Some n => (Ok n, hs)
  | None =>
      let n := file_pages hs.2 (path_ hs.1) in
      (_ ← set_count (Some n); mret n) hs
  end.

(** ** Insertion *)

(** The body of the loop over the pages. *)
Definition try_insert (encoded : bytes) (bs : bytes) : exec (option Z * bytes * bool) :=
  let* v := valid bs in
  let* bs := if v then Ok bs else initialize bs in
  let* (slot, bs) := Page.insert bs encoded in
  Ok (slot, bs, bool_decide (is_Some slot)).

Fixpoint insert_loop (path : string) (encoded : bytes) (numbers : list nat)
    : action storage (option (nat * Z)) :=
  match numbers with
  | [] => mret None
  | n :: numbers' =>
      slot ← on_page path n false (try_insert encoded) mret;
      match slot with
      | Some slot => mret (Some (n, slot))
      | None => insert_loop path encoded numbers'
      end
  end.

(** The first row of a new page. *)
Definition first_insert (encoded : bytes) (bs : bytes) : exec (Z * bytes * bool) :=
  let* bs := initialize bs in
  let* (slot, bs) := Page.insert bs encoded in
  match slot with
  | Some slot => Ok (slot, bs, true)
  | None => Err (Throw "Could not insert tuple")
  end.

Definition first_page (hint : option nat) (pages : nat) : nat :=
  match hint with
  | Some h => if decide (h < pages)%nat then h else pages - 1
  | None => pages - 1
  end.

Definition insert (tuple : Tuple) : heap_action RowId :=
  _ ← create;
  encoded ← lift (encodeTuple tuple);
  if decide (PAGE_SIZE < len encoded + 22) then raise (Throw "Tuple exceeds page size")
  else
    pages ← pageCount;
    h ← gets fst;
    let first := first_page (insertPageHint_ h) pages in
    found ← on_storage (insert_loop (path_ h) encoded (seq first (pages - first)));
    match found with
    | Some (page, slot) =>
        _ ← set_hint (Some page);
        mret (mkRowId (Z.of_nat page) slot)
    | None =>
        slot ← on_storage (on_page (path_ h) pages true (first_insert encoded)
                  (λ slot, _ ← flushFile (path_ h); mret slot));
        _ ← set_hint (Some pages);
        _ ← set_count (Some (S pages));
        mret (mkRowId (Z.of_nat pages) slot)
    end.

(** ** Scans *)

(** The rows of one page that [visit] finds, in slot order. *)
Fixpoint page_rows {A} (visit : Z → exec (option A)) (slots : list Z) : exec (list (Z * A)) :=
  match slots with
  | [] => Ok []
  | slot :: slots' =>
      let* row := visit slot in
      let* rest := page_rows visit slots' in
      Ok (match row with Some a => (slot, a) :: rest | None => rest end)
  end.

(** The row in a slot, read with [reader] and decoded. *)
Definition read_row {A} (reader : bytes → Z → exec (option bytes)) (decode : bytes → exec A)
    (bs : bytes) (slot : Z) : exec (option A) :=
  let* row := reader bs slot in
  match row with
  | None => Ok None
  | Some row => let* a := decode row in Ok (Some a)
  end.

Definition scan_page {A} (reader : bytes → Z → exec (option bytes)) (decode : bytes → exec A)
    (bs : bytes) : exec (list (Z * A)) :=
  let* v := valid bs in
  if negb v then Ok []
  else
    let* n := slotCount bs in
    page_rows (read_row reader decode bs) (seqZ 0 n).

(** All rows of the pages [numbers], in page and slot order. *)
Fixpoint scan_pages {A} (path : string) (decode : bytes → exec A) (numbers : list nat)
    : action storage (list (RowId * A)) :=
  match numbers with
  | [] => mret []
  | n :: numbers' =>
      rows ← on_page path n false
               (λ bs, let* rows := scan_page Page.read decode bs in Ok (rows, bs, false)) mret;
      rest ← scan_pages path decode numbers';
      mret (((λ r : Z * A, (mkRowId (Z.of_nat n) r.1, r.2)) <$> rows) ++ rest)
  end.

(** [rows] is handed over each time it has [batchSize] elements. *)
Fixpoint batches {A} (batchSize : nat) (rows : list A) (l : list A) : list (list A) :=
  match l with
  | [] => match rows with [] => [] | _ :: _ => [rows] end
  | x :: l' =>
      let rows := rows ++ [x] in
      if decide (length rows = batchSize) then rows :: batches batchSize [] l'
      else batches batchSize rows l'
  end.

Definition scan_all {A} (decode : bytes → exec A) : heap_action (list (RowId * A)) :=
  pages ← pageCount;
  h ← gets fst;
  on_storage (scan_pages (path_ h) decode (seq 0 pages)).

Definition stored (r : RowId * Tuple) : StoredRow := mkStoredRow r.1 r.2.

Definition scanBatches (batchSize : nat) : heap_action (list (list StoredRow)) :=
  if decide (batchSize = 0%nat) then
    raise (Throw "Heap scan batch size must be positive")
  else
    rows ← scan_all decodeTuple;
    mret (batches batchSize [] (stored <$> rows)).

Definition scanProjectedBatches (columns : list nat) (batchSize : nat)
    : heap_action (list (list StoredRow)) :=
  if decide (batchSize = 0%nat) then
    raise (Throw "Heap scan batch size must be positive")
  else if negb (is_sorted columns) || has_adjacent_equal columns then
    raise (Throw "Projected heap columns must be sorted and unique")
  else
    rows ← scan_all (λ bs, decodeTupleProjected bs columns);
    mret (batches batchSize [] (stored <$> rows)).

(** [scan]; [batchRows] is [vectorBatchRows()]. *)
Definition scan (batchRows : nat) : heap_action (list StoredRow) :=
  bs ← scanBatches batchRows; mret (concat bs).

Definition scanRawRows : heap_action (list (RowId * bytes)) := scan_all Ok.

(** ** Single rows *)

(** The row is read with [reader] on the bytes of its page. *)
Definition read_at {A} (reader : bytes → Z → exec (option A)) (row : RowId)
    : heap_action (option A) :=
  h ← gets fst;
  on_storage (on_page (path_ h) (Z.to_nat (rowPage row)) false
    (λ bs, let* r := reader bs (rowSlot row) in Ok (r, bs, false)) mret).

Definition read (row : RowId) : heap_action (option StoredRow) :=
  r ← read_at (read_row Page.read decodeTuple) row;
  mret (mkStoredRow row <$> r).

(** [readRawRowFast]: the bytes it hands to its visitor. *)
Definition readRawRow (row : RowId) : heap_action (option bytes) :=
  read_at (λ bs slot,
    let* v := valid bs in
    if negb v then Ok None else read_row Page.read Ok bs slot) row.

Definition erase (row : RowId) : heap_action bool :=
  pages ← pageCount;
  if decide (Z.of_nat pages ≤ rowPage row) then mret false
  else
    h ← gets fst;
    on_storage (on_page (path_ h) (Z.to_nat (rowPage row)) false
      (λ bs, let* (b, bs) := Page.erase bs (rowSlot row) in Ok (b, bs, b)) mret).

Definition update (row : RowId) (tuple : Tuple) : heap_action RowId :=
  encoded ← lift (encodeTuple tuple);
  pages ← pageCount;
  h ← gets fst;
  in_place ←
    (if decide (rowPage row < Z.of_nat pages) then
       on_storage (on_page (path_ h) (Z.to_nat (rowPage row)) false
         (λ bs, let* (b, bs) := Page.update bs (rowSlot row) encoded in Ok (b, bs, b)) mret)
     else mret false);
  if (in_place : bool) then mret row
  else
    erased ← erase row;
    if (erased : bool) then insert tuple
    else raise (Throw "Row no longer exists").

Definition flush_heap : heap_action () :=
  h ← gets fst; on_storage (flushFile (path_ h)).

(** ** The mapped view: [MappedHeapFile] reads the file itself *)

Definition read_mapped (bs : bytes) (slot : Z) : exec (option bytes) :=
  let* s := liveSlot bs slot in
  match s with
  | None => Ok None
  | Some (offset, length) =>
      if PAGE_SIZE <? offset + length then Err (Throw "Corrupt mapped slotted page")
      else let* row := load bs offset length in Ok (Some row)
  end.

Definition mapped_page (content : bytes) (n : nat) : bytes := page_of_file content (Z.of_nat n).

Fixpoint mapped_scan {A} (decode : bytes → exec A) (content : bytes) (numbers : list nat)
    : exec (list (RowId * A)) :=
  match numbers with
  | [] => Ok []
  | n :: numbers' =>
      let* rows := scan_page read_mapped decode (mapped_page content n) in
      let* rest := mapped_scan decode content numbers' in
      Ok (((λ r : Z * A, (mkRowId (Z.of_nat n) r.1, r.2)) <$> rows) ++ rest)
  end.

Definition scanMapped {A} (decode : bytes → exec A) (content : bytes) : exec (list (RowId * A)) :=
  mapped_scan decode content (seq 0 (Nat.div (length content) PAGE)).

Definition readMapped {A} (decode : bytes → exec A) (content : bytes) (row : RowId)
    : exec (option A) :=
  if decide (Z.of_nat (Nat.div (length content) PAGE) ≤ rowPage row) then Ok None
  else read_row read_mapped decode (mapped_page content (Z.to_nat (rowPage row))) (rowSlot row).

(** ** One page *)

(** Every frame is free and every file complete. *)
Definition store_ok (A : heaps) (s : storage) : Prop :=
  storage_ok (λ _, True) A s ∧ no_pins s.

Lemma storage_weaken (E E' : string → Prop) A s :
  (∀ f, E' f → E f) → storage_ok E A s → storage_ok E' A s.
Proof.
  intros HE [? ? ? ? Hfiles ? ?]. split; try done. intros f pages Hf.
  destruct (Hfiles f pages Hf) as (content & k & ? & ? & ? & Hex & ?).
  exists content, k. split_and!; auto.
Qed.

(** The state while the guard of a page is held, after its bytes were replaced. *)
Definition held (s : storage) (key : PageKey) (fr : Frame) (bs : bytes) (dirty : bool)
    : storage :=
  set_frames (λ fs, <[key := mkFrame bs (dirty || f_dirty fr) (f_pins fr)]> fs) s.

Lemma set_frames_twice s (key : PageKey) (a b : Frame) :
  set_frames (λ fs, <[key := b]> fs) (set_frames (λ fs, <[key := a]> fs) s) =
  set_frames (λ fs, <[key := b]> fs) s.
Proof. unfold set_frames. cbn. by rewrite insert_insert_eq. Qed.

(** [on_page] up to its continuation, and the release of the page. *)
Lemma on_page_run {A B} file n create (g : bytes → exec (A * bytes * bool))
    (k : A → action storage B) s s1 s2 fr fr2 a b bs dirty :
  let key := (file, Z.of_nat n) in
  fetch file (Z.of_nat n) create s = (Ok (), s1) →
  frames_ (pool s1) !! key = Some fr → g (f_bytes fr) = Ok (a, bs, dirty) →
  k a (held s1 key fr bs dirty) = (Ok b, s2) →
  frames_ (pool s2) !! key = Some fr2 → f_pins fr2 = 1%nat →
  on_page file n create g k s =
    (Ok b, set_frames (λ fs, <[key := mkFrame (f_bytes fr2) (f_dirty fr2) 0]> fs) s2).
Proof.
  cbv zeta. intros Hfetch Hfr Hg Hk Hfr2 Hpin. unfold on_page, with_page.
  unfold mbind, action_bind, mret, action_ret. rewrite Hfetch. unfold cleanup, lift, guard_bytes.
  rewrite Hfr, Hg. unfold set_bytes. rewrite Hfr.
  assert (Hhold : (if dirty
    then markDirty (file, Z.of_nat n)
    else λ s, (Ok (), s))
      (set_frames (λ fs, <[(file, Z.of_nat n) := mkFrame bs (f_dirty fr) (f_pins fr)]> fs) s1) =
    (Ok (), held s1 (file, Z.of_nat n) fr bs dirty)).
  { unfold held. destruct dirty; [|done]. unfold markDirty. cbn. rewrite lookup_insert_eq.
    cbn. by rewrite set_frames_twice. }
  rewrite Hhold, Hk. unfold unpin. by rewrite Hfr2, Hpin.
Qed.

Lemma only_pin_released key s fr' :
  only_pin key s → f_pins fr' = 0%nat →
  no_pins (set_frames (λ fs, <[key := fr']> fs) s).
Proof.
  intros (fr & _ & _ & Hothers) Hp k fr0 Hk. cbn in Hk.
  apply lookup_insert_Some in Hk as [[<- <-]|[Hne Hk]]; [done|]. by eapply Hothers.
Qed.

(** Working on a page of the file. *)
Lemma on_page_ok {X} A s f pages n d create (g : bytes → exec (X * bytes * bool))
    (R : X → directory → Prop) :
  store_ok A s → A !! f = Some pages → pages !! n = Some d →
  (∀ bs, page_ok bs d → ∃ a bs' dirty d', g bs = Ok (a, bs', dirty) ∧ page_ok bs' d' ∧
     (dirty = false → d' = d) ∧ R a d') →
  ∃ a d' s', on_page f n create g mret s = (Ok a, s') ∧ R a d' ∧
    store_ok (<[f := <[n := d']> pages]> A) s'.
Proof.
  intros [Hs Hpins] HA Hd Hg.
  destruct (fetch_ok _ A s f pages n create Hs Hpins HA) as (s1 & Hfetch & Hs1 & Hpin).
  pose proof Hpin as (fr & Hfr & Hp1 & _).
  destruct (so_files _ _ _ Hs1 f pages HA) as (content & k & Hc & _ & _ & _ & Hok).
  specialize (Hok n d Hd). rewrite Hfr in Hok. destruct Hok as [Hpage Hdisk].
  destruct (Hg _ Hpage) as (a & bs & dirty & d' & Hrun & Hbs & Hsame & HR).
  exists a, d'. eexists. split; [|split; [exact HR|]].
  - eapply on_page_run; [exact Hfetch|exact Hfr|exact Hrun|reflexivity| |].
    + cbn. rewrite lookup_insert_eq. reflexivity.
    + exact Hp1.
  - cbn [f_bytes f_dirty]. unfold held. rewrite set_frames_twice. split.
    + eapply put_frame_ok; [done..|by eapply lookup_lt_Some|done|]. cbn.
      intros [Hdirty Hfd]%orb_false_iff content' Hc'. rewrite Hc in Hc'. injection Hc' as <-.
      rewrite (Hsame Hdirty). auto.
    + apply only_pin_released; done.
Qed.

(** Adding a page and writing it out. *)
Lemma new_page_ok {X} A s f pages (g : bytes → exec (X * bytes * bool)) a bs d' :
  store_ok A s → A !! f = Some pages →
  g zero_page = Ok (a, bs, true) → page_ok bs d' →
  ∃ s', on_page f (length pages) true g (λ a, _ ← flushFile f; mret a) s = (Ok a, s') ∧
    store_ok (<[f := pages ++ [d']]> A) s'.
Proof.
  intros [Hs Hpins] HA Hg Hbs. set (n := length pages).
  destruct (fetch_ok _ A s f pages n true Hs Hpins HA) as (s1 & Hfetch & Hs1 & Hpin).
  pose proof Hpin as (fr & Hfr & Hp1 & Hothers).
  destruct (so_frames _ _ _ Hs1 _ _ Hfr) as (pages' & m & HA' & Hm & Hzero). cbn in HA', Hm.
  rewrite HA in HA'. injection HA' as <-. apply Nat2Z.inj in Hm as <-.
  destruct Hzero as [Hzero Hclean]; [unfold n; lia|].
  set (s2 := held s1 (f, Z.of_nat n) fr bs true).
  assert (storage_ok (λ g, True ∧ g ≠ f) (<[f := pages ++ [d']]> A) s2) as Hs2.
  { apply (add_page_ok (λ _, True)) with fr; done. }
  assert (only_pin (f, Z.of_nat n) s2) as Hpin2.
  { exists (mkFrame bs true (f_pins fr)). cbn. rewrite lookup_insert_eq. split_and!; try done.
    intros k fr' Hk Hl. rewrite lookup_insert_ne in Hl by done. by eapply Hothers. }
  destruct (flushFile_ok _ _ s2 f Hs2) as (s3 & Hflush & Hs3 & Hsame & Hflushed & _).
  pose proof (same_frames_only_pin _ _ _ Hsame Hpin2) as (fr3 & Hfr3 & Hp3 & _).
  exists (set_frames (λ fs, <[(f, Z.of_nat n) := mkFrame (f_bytes fr3) (f_dirty fr3) 0]> fs) s3).
  split.
  - eapply on_page_run; [exact Hfetch|exact Hfr|by rewrite Hzero| |exact Hfr3|exact Hp3].
    unfold mbind, action_bind, mret, action_ret. fold s2. by rewrite Hflush.
  - apply (storage_weaken _ (λ _, True)) in Hs3.
    2:{ intros g' _. destruct (decide (g' = f)); tauto. }
    assert (Hlast : (pages ++ [d']) !! n = Some d') by by rewrite list_lookup_middle.
    destruct (so_files _ _ _ Hs3 f (pages ++ [d'])) as (content & k & Hc & _ & _ & _ & Hok);
      [by rewrite lookup_insert_eq|]. specialize (Hok n d' Hlast). rewrite Hfr3 in Hok.
    destruct Hok as [Hpage3 Hdisk3]. split.
    + eapply set_frame_ok; [exact Hs3|exact Hfr3|by rewrite lookup_insert_eq|..]; cbn; try done.
      * intros d0 Hd0. rewrite Hlast in Hd0. by injection Hd0 as <-.
      * rewrite length_app. cbn. unfold n. lia.
    + apply only_pin_released; [|done]. by eapply same_frames_only_pin.
Qed.

(** ** The rows of the pages, in scan order *)

Fixpoint dir_rows (n i : nat) (d : directory) : list (RowId * bytes) :=
  match d with
  | [] => []
  | Some row :: d' => (mkRowId (Z.of_nat n) (Z.of_nat i), row) :: dir_rows n (S i) d'
  | None :: d' => dir_rows n (S i) d'
  end.

Fixpoint rows_from (n : nat) (pages : list directory) : list (RowId * bytes) :=
  match pages with
  | [] => []
  | d :: pages' => dir_rows n 0 d ++ rows_from (S n) pages'
  end.

Definition heap_rows (pages : list directory) : list (RowId * bytes) := rows_from 0 pages.

Definition slot_row (n i : nat) (e : option bytes) : list (RowId * bytes) :=
  match e with Some row => [(mkRowId (Z.of_nat n) (Z.of_nat i), row)] | None => [] end.

Lemma dir_rows_app n i d1 d2 :
  dir_rows n i (d1 ++ d2) = dir_rows n i d1 ++ dir_rows n (i + length d1) d2.
Proof.
  revert i. induction d1 as [|[row|] d1 IH]; intros i; cbn; [by rewrite Nat.add_0_r|..];
    rewrite IH; by replace (S i + length d1)%nat with (i + S (length d1))%nat by lia.
Qed.

Lemma rows_from_app n p1 p2 :
  rows_from n (p1 ++ p2) = rows_from n p1 ++ rows_from (n + length p1) p2.
Proof.
  revert n. induction p1 as [|d p1 IH]; intros n; cbn; [by rewrite Nat.add_0_r|].
  rewrite IH, app_assoc.
  by replace (S n + length p1)%nat with (n + S (length p1))%nat by lia.
Qed.

Lemma dir_rows_slot n i e d' : dir_rows n i (e :: d') = slot_row n i e ++ dir_rows n (S i) d'.
Proof. by destruct e. Qed.

(** What stands around the row of one slot. *)
Lemma heap_rows_around pages n d1 e d2 :
  pages !! n = Some (d1 ++ e :: d2) →
  ∃ L R, heap_rows pages = L ++ slot_row n (length d1) e ++ R ∧
    ∀ e', heap_rows (<[n := d1 ++ e' :: d2]> pages) = L ++ slot_row n (length d1) e' ++ R.
Proof.
  intros Hd. exists (rows_from 0 (take n pages) ++ dir_rows n 0 d1),
    (dir_rows n (S (length d1)) d2 ++ rows_from (S n) (drop (S n) pages)).
  assert (length (take n pages) = n) as Hn.
  { apply lookup_lt_Some in Hd. rewrite length_take. lia. }
  assert (Hmid : ∀ e', rows_from 0 (take n pages ++ (d1 ++ e' :: d2) :: drop (S n) pages) =
    (rows_from 0 (take n pages) ++ dir_rows n 0 d1) ++ slot_row n (length d1) e' ++
    dir_rows n (S (length d1)) d2 ++ rows_from (S n) (drop (S n) pages)).
  { intros e'. rewrite rows_from_app, Hn. cbn [rows_from Nat.add].
    rewrite dir_rows_app, dir_rows_slot. by rewrite <- !app_assoc. }
  split.
  - rewrite <- (take_drop_middle pages n _ Hd) at 1. apply Hmid.
  - intros e'. rewrite insert_take_drop by (by eapply lookup_lt_Some). apply Hmid.
Qed.

Lemma slot_around pages n d i e :
  pages !! n = Some d → d !! i = Some e →
  ∃ L R, heap_rows pages = L ++ slot_row n i e ++ R ∧
    ∀ e', heap_rows (<[n := <[i := e']> d]> pages) = L ++ slot_row n i e' ++ R.
Proof.
  intros Hd Hi. pose proof Hd as Hd'. rewrite <- (take_drop_middle d i e Hi) in Hd'.
  destruct (heap_rows_around _ _ _ _ _ Hd') as (L & R & Hold & Hnew).
  assert (length (take i d) = i) as Hlen.
  { apply lookup_lt_Some in Hi. rewrite length_take. lia. }
  rewrite Hlen in *. exists L, R. split; [done|]. intros e'.
  rewrite (insert_take_drop d i) by (by eapply lookup_lt_Some). apply Hnew.
Qed.

Lemma heap_rows_new_slot pages n d row :
  pages !! n = Some d →
  ∃ L R, heap_rows pages = L ++ R ∧
    heap_rows (<[n := d ++ [Some row]]> pages) =
      L ++ (mkRowId (Z.of_nat n) (Z.of_nat (length d)), row) :: R.
Proof.
  intros Hd. exists (rows_from 0 (take n pages) ++ dir_rows n 0 d),
    (rows_from (S n) (drop (S n) pages)).
  assert (length (take n pages) = n) as Hn.
  { apply lookup_lt_Some in Hd. rewrite length_take. lia. }
  unfold heap_rows. split.
  - rewrite <- (take_drop_middle pages n _ Hd) at 1. rewrite rows_from_app, Hn.
    cbn [rows_from Nat.add]. by rewrite <- app_assoc.
  - rewrite insert_take_drop by (by eapply lookup_lt_Some). rewrite rows_from_app, Hn.
    cbn [rows_from Nat.add]. rewrite dir_rows_app. cbn. by rewrite <- !app_assoc.
Qed.

(** A row is found at its identifier and nowhere else. *)
Definition row_at (pages : list directory) (r : RowId) : option bytes :=
  if decide (0 ≤ rowPage r ∧ 0 ≤ rowSlot r) then
    d ← pages !! Z.to_nat (rowPage r); dir_read d (Z.to_nat (rowSlot r))
  else None.

Lemma elem_of_dir_rows n i d r row :
  (r, row) ∈ dir_rows n i d ↔
  ∃ j, r = mkRowId (Z.of_nat n) (Z.of_nat (i + j)) ∧ d !! j = Some (Some row).
Proof.
  revert i. induction d as [|e d IH]; intros i.
  - cbn. rewrite elem_of_nil. split; [done|]. by intros (j & _ & Hj).
  - rewrite dir_rows_slot, elem_of_app, IH. split.
    + intros [He|(j & -> & Hj)].
      * destruct e as [row'|]; cbn in He; [|by apply elem_of_nil in He].
        apply list_elem_of_singleton in He as [= -> ->]. exists 0%nat. by rewrite Nat.add_0_r.
      * exists (S j). split; [f_equal; lia|done].
    + intros ([|j] & -> & Hj).
      * injection Hj as ->. left. cbn. rewrite Nat.add_0_r. apply list_elem_of_singleton.
        done.
      * right. exists j. split; [f_equal; lia|done].
Qed.

Lemma elem_of_rows_from n pages r row :
  (r, row) ∈ rows_from n pages ↔
  ∃ m d i, r = mkRowId (Z.of_nat (n + m)) (Z.of_nat i) ∧ pages !! m = Some d ∧
    d !! i = Some (Some row).
Proof.
  revert n. induction pages as [|d pages IH]; intros n; cbn.
  - rewrite elem_of_nil. split; [done|]. by intros (m & d & i & _ & Hm & _).
  - rewrite elem_of_app, elem_of_dir_rows, IH. split.
    + intros [(j & -> & Hj)|(m & d' & i & -> & Hm & Hi)].
      * exists 0%nat, d, j. by rewrite Nat.add_0_r.
      * exists (S m), d', i. split; [|done]. f_equal. lia.
    + intros ([|m] & d' & i & -> & Hm & Hi).
      * injection Hm as ->. left. exists i. by rewrite Nat.add_0_r.
      * right. exists m, d', i. split; [|done]. f_equal. lia.
Qed.

Lemma row_at_rows pages r row : row_at pages r = Some row ↔ (r, row) ∈ heap_rows pages.
Proof.
  unfold heap_rows. rewrite elem_of_rows_from. unfold row_at. split.
  - destruct r as [p i]. cbn. case_decide as Hpos; [|done]. intros H.
    apply bind_Some in H as (d & Hd & Hi). unfold dir_read in Hi.
    exists (Z.to_nat p), d, (Z.to_nat i). split_and!; [f_equal; lia|done|].
    destruct (d !! Z.to_nat i) as [[row'|]|]; cbn in Hi; congruence.
  - intros (m & d & i & -> & Hd & Hi). cbn. rewrite decide_True by lia.
    rewrite !Nat2Z.id, Hd. cbn. unfold dir_read. by rewrite Hi.
Qed.

Lemma heap_rows_NoDup pages : NoDup (heap_rows pages).*1.
Proof.
  assert (Hdir : ∀ n d i, NoDup (dir_rows n i d).*1).
  { intros n d. induction d as [|[row|] d IH]; intros i; cbn; [constructor| |done].
    constructor; [|done]. intros ([r row'] & Hr & Hin)%list_elem_of_fmap. cbn in Hr. subst r.
    apply elem_of_dir_rows in Hin as (j & [=] & _). lia. }
  unfold heap_rows. generalize 0%nat. induction pages as [|d pages IH]; intros n; cbn.
  { constructor. }
  rewrite fmap_app. apply NoDup_app. split; [done|]. split; [|done].
  intros r ([r1 row1] & -> & H1)%list_elem_of_fmap ([r2 row2] & Hr & H2)%list_elem_of_fmap.
  cbn in Hr. subst r2. apply elem_of_dir_rows in H1 as (j & -> & _).
  apply elem_of_rows_from in H2 as (m & d' & i & [=] & _). lia.
Qed.

(** ** Operations of a heap file object *)

Record at_heap (A : heaps) (f : string) (pages : list directory) (hs : HeapFile * storage)
    : Prop := AtHeap {
  ah_store : store_ok A hs.2;
  ah_path : path_ hs.1 = f;
  ah_pages : A !! f = Some pages;
  ah_known : ∀ n, knownPageCount_ hs.1 = Some n → n = length pages;
}.

Lemma file_pages_ok A s f pages :
  store_ok A s → A !! f = Some pages → file_pages s f = length pages.
Proof.
  intros [Hs _] HA. destruct (so_files _ _ _ Hs f pages HA) as (c & k & Hc & Hlen & _ & Hk & _).
  unfold file_pages. rewrite Hc, Hlen, (Hk I). pose proof PAGE_pos. symmetry.
  apply (Nat.div_unique _ _ _ (PAGE - 1)); lia.
Qed.

Lemma exists_ok A f pages hs : at_heap A f pages hs → exists_ hs = (Ok true, hs).
Proof.
  intros [[Hs _] Hp HA _]. destruct (so_files _ _ _ Hs f pages HA) as (c & k & Hc & _).
  unfold exists_, gets. rewrite Hp, Hc. by rewrite bool_decide_eq_true_2.
Qed.

Lemma create_existing A f pages hs : at_heap A f pages hs → create hs = (Ok (), hs).
Proof.
  intros H. unfold create, mbind, action_bind. by rewrite (exists_ok A f pages hs H).
Qed.

Lemma pageCount_ok A f pages hs :
  at_heap A f pages hs →
  ∃ hs', pageCount hs = (Ok (length pages), hs') ∧ at_heap A f pages hs' ∧
    hs'.2 = hs.2 ∧ insertPageHint_ hs'.1 = insertPageHint_ hs.1.
Proof.
  intros [Hs Hp HA Hknown]. destruct hs as [h s]. cbn in *. unfold pageCount. cbn.
  destruct (knownPageCount_ h) as [n|] eqn:E.
  - exists (h, s). rewrite (Hknown n eq_refl). split; [done|]. split; [|done].
    split; cbn; try done. intros m Hm. rewrite E in Hm. injection Hm as <-. auto.
  - rewrite Hp, (file_pages_ok A s f pages Hs HA). eexists. split; [done|].
    split; [|done]. split; cbn; try done. by intros m [= <-].
Qed.

(** A change of the storage under an object that keeps its page count. *)
Lemma at_heap_store A A' f pages pages' h s s' :
  at_heap A f pages (h, s) → store_ok A' s' → A' !! f = Some pages' →
  length pages' = length pages → at_heap A' f pages' (h, s').
Proof.
  intros [_ Hp _ Hknown] Hs' HA' Hlen. split; try done. intros n Hn. rewrite Hlen. auto.
Qed.

Lemma dir_insert_cases d row i d' :
  dir_insert d row = Some (i, d') →
  (d !! i = Some None ∧ d' = <[i := Some row]> d) ∨ (i = length d ∧ d' = d ++ [Some row]).
Proof.
  unfold dir_insert. destruct (first_free d) as [j|] eqn:Hfree; case_decide; try done;
    intros [= <- <-]; [left|by right]. split; [by apply first_free_spec|done].
Qed.

(** The row went into a slot that was free. *)
Definition inserted (pages pages' : list directory) (r : RowId) (row : bytes) : Prop :=
  ∃ L R, heap_rows pages = L ++ R ∧ heap_rows pages' = L ++ (r, row) :: R.

Lemma inserted_slot pages n d row i d' :
  pages !! n = Some d → dir_insert d row = Some (i, d') →
  inserted pages (<[n := d']> pages) (mkRowId (Z.of_nat n) (Z.of_nat i)) row.
Proof.
  intros Hd [[Hi ->]|[-> ->]]%dir_insert_cases.
  - rewrite <- (take_drop_middle d i None Hi) in Hd.
    destruct (heap_rows_around _ _ _ _ _ Hd) as (L & R & Hold & Hnew).
    assert (length (take i d) = i) as Hlen.
    { apply lookup_lt_Some in Hi. rewrite length_take. lia. }
    exists L, R. split; [exact Hold|]. rewrite (insert_take_drop d i) by (by eapply lookup_lt_Some).
    rewrite Hnew, Hlen. done.
  - destruct (heap_rows_new_slot pages n d row Hd) as (L & R & ? & ?). by exists L, R.
Qed.

Lemma inserted_page pages row :
  inserted pages (pages ++ [[Some row]]) (mkRowId (Z.of_nat (length pages)) 0) row.
Proof.
  exists (heap_rows pages), []. rewrite app_nil_r. split; [done|].
  unfold heap_rows. by rewrite rows_from_app.
Qed.

Lemma try_insert_ok row bs d :
  len row + 22 ≤ PAGE_SIZE → page_ok bs d →
  ∃ slot bs' d', try_insert row bs = Ok (slot, bs', bool_decide (is_Some slot)) ∧
    page_ok bs' d' ∧
    (slot = None ∧ d' = d ∨ ∃ i, slot = Some (Z.of_nat i) ∧ dir_insert d row = Some (i, d')).
Proof.
  intros Hrow Hbs. pose proof Hbs as (fin & t & Hrep & _).
  unfold try_insert. rewrite (header_valid _ _ (rep_header _ _ _ Hrep)). cbn [rbind].
  change PAGE_SIZE with 4096 in Hrow.
  pose proof (insert_rep bs d row Hbs ltac:(lia)) as Hins.
  destruct (dir_insert d row) as [[i d']|]; destruct Hins as (bs' & -> & Hbs'); cbn [rbind].
  - exists (Some (Z.of_nat i)), bs', d'. split_and!; try done. right. eauto.
  - exists None, bs', d. split_and!; try done. by left.
Qed.

Lemma insert_loop_ok A s f pages row numbers :
  store_ok A s → A !! f = Some pages → len row + 22 ≤ PAGE_SIZE →
  Forall (λ n, n < length pages)%nat numbers →
  ∃ found s', insert_loop f row numbers s = (Ok found, s') ∧
    match found with
    | None => store_ok A s'
    | Some (n, slot) => ∃ pages', store_ok (<[f := pages']> A) s' ∧
        length pages' = length pages ∧ (n < length pages)%nat ∧
        inserted pages pages' (mkRowId (Z.of_nat n) slot) row
    end.
Proof.
  intros Hs HA Hrow Hnums. revert s Hs.
  induction Hnums as [|n numbers Hn _ IH]; intros s Hs; [by exists None, s|].
  destruct (lookup_lt_is_Some_2 pages n Hn) as [d Hd].
  destruct (on_page_ok A s f pages n d false (try_insert row)
    (λ slot d', slot = None ∧ d' = d ∨ ∃ i, slot = Some (Z.of_nat i) ∧ dir_insert d row = Some (i, d'))
    Hs HA Hd) as (slot & d' & s1 & Hrun & HR & Hs1).
  { intros bs Hbs. destruct (try_insert_ok row bs d Hrow Hbs) as (slot & bs' & d' & -> & Hbs' & HR).
    exists slot, bs', (bool_decide (is_Some slot)), d'. split_and!; try done.
    intros Hnone%bool_decide_eq_false. destruct HR as [[_ ->]|(i & -> & _)]; [done|].
    destruct Hnone. eauto. }
  cbn [insert_loop]. unfold mbind, action_bind. rewrite Hrun.
  destruct HR as [[-> ->]|(i & -> & Hins)].
  - rewrite list_insert_id, insert_id in Hs1 by done. by apply IH.
  - exists (Some (n, Z.of_nat i)), s1. split; [done|]. exists (<[n := d']> pages).
    rewrite length_insert. split_and!; try done. by apply (inserted_slot _ _ d).
Qed.

Lemma first_insert_ok row :
  len row + 22 ≤ PAGE_SIZE →
  ∃ bs, first_insert row zero_page = Ok (0, bs, true) ∧ page_ok bs [Some row].
Proof.
  intros Hrow. change PAGE_SIZE with 4096 in Hrow.
  destruct (initialize_rep zero_page) as (p & Hinit & Hp).
  { unfold zero_page. rewrite repeat_length. reflexivity. }
  unfold first_insert. rewrite Hinit. cbn [rbind].
  pose proof (insert_rep p [] row Hp ltac:(lia)) as Hins. unfold dir_insert in Hins.
  cbn [first_free length live_bytes] in Hins. rewrite decide_True in Hins
    by (change PAGE_SIZE with 4096; lia).
  destruct Hins as (p' & -> & Hp'). cbn [rbind]. by exists p'.
Qed.

Lemma bind_run {S A B} (m : action S A) (k : A → action S B) s a s' :
  m s = (Ok a, s') → (m ≫= k) s = k a s'.
Proof. unfold mbind, action_bind. by intros ->. Qed.

Lemma on_storage_run {A} (m : action storage A) h s r s' :
  m s = (r, s') → on_storage m (h, s) = (r, (h, s')).
Proof. unfold on_storage, zoom. cbn. by intros ->. Qed.

Lemma insert_encoded A f pages hs t row :
  at_heap A f pages hs → encodeTuple t = Ok row → len row + 22 ≤ PAGE_SIZE →
  ∃ rid pages' hs', insert t hs = (Ok rid, hs') ∧
    at_heap (<[f := pages']> A) f pages' hs' ∧ inserted pages pages' rid row.
Proof.
  intros Hat Henc Hrow. unfold insert.
  rewrite (bind_run _ _ _ _ _ (create_existing _ _ _ _ Hat)).
  rewrite (bind_run (lift (encodeTuple t)) _ hs row hs) by (unfold lift; by rewrite Henc).
  rewrite decide_False by lia.
  destruct (pageCount_ok _ _ _ _ Hat) as ([h s] & Hcount & Hat' & _ & Hhint).
  rewrite (bind_run _ _ _ _ _ Hcount). cbn in Hhint. clear Hcount Hat hs Hhint.
  rewrite (bind_run (gets fst) _ (h, s) h (h, s)) by done.
  pose proof Hat' as [Hs Hp HA Hknown]. cbn in Hs, Hp, Hknown. rewrite Hp.
  set (first := first_page (insertPageHint_ h) (length pages)).
  destruct (insert_loop_ok A s f pages row (seq first (length pages - first)) Hs HA Hrow)
    as (found & s1 & Hloop & Hfound).
  { apply Forall_forall. intros n Hn%elem_of_seq. lia. }
  rewrite (bind_run _ _ _ _ _ (on_storage_run _ h s _ _ Hloop)).
  destruct found as [[n slot]|].
  - destruct Hfound as (pages' & Hs1 & Hlen & Hn & Hins).
    exists (mkRowId (Z.of_nat n) slot), pages'. eexists. split; [done|]. split; [|done].
    split; cbn; try done; [by rewrite lookup_insert_eq|]. intros m Hm. rewrite Hlen. auto.
  - destruct (first_insert_ok row Hrow) as (bs & Hg & Hbs).
    destruct (new_page_ok A s1 f pages (first_insert row) 0 bs [Some row] Hfound HA Hg Hbs)
      as (s2 & Hnew & Hs2).
    rewrite (bind_run _ _ _ _ _ (on_storage_run _ h s1 _ _ Hnew)).
    exists (mkRowId (Z.of_nat (length pages)) 0), (pages ++ [[Some row]]).
    eexists. split; [done|]. split; [|apply inserted_page].
    split; cbn; try done; [by rewrite lookup_insert_eq|]. intros m [= <-].
    rewrite length_app. cbn. lia.
Qed.

(** Reading a page that the file does not have. *)
Lemma on_page_beyond {X} A s f pages n create (g : bytes → exec (X * bytes * bool)) a :
  store_ok A s → A !! f = Some pages → (length pages ≤ n)%nat →
  g zero_page = Ok (a, zero_page, false) →
  ∃ s', on_page f n create g mret s = (Ok a, s') ∧ store_ok A s'.
Proof.
  intros [Hs Hpins] HA Hn Hg.
  destruct (fetch_ok _ A s f pages n create Hs Hpins HA) as (s1 & Hfetch & Hs1 & Hpin).
  pose proof Hpin as (fr & Hfr & Hp1 & _).
  destruct (so_frames _ _ _ Hs1 _ _ Hfr) as (pages' & m & HA' & Hm & Hzero). cbn in HA', Hm.
  rewrite HA in HA'. injection HA' as <-. apply Nat2Z.inj in Hm as <-.
  destruct (Hzero Hn) as [Hbytes Hclean]. eexists. split.
  - eapply on_page_run; [exact Hfetch|exact Hfr|rewrite Hbytes; exact Hg|reflexivity| |].
    + cbn. rewrite lookup_insert_eq. reflexivity.
    + exact Hp1.
  - unfold held. rewrite set_frames_twice. split; [|by apply only_pin_released].
    eapply set_frame_ok; [exact Hs1|exact Hfr|exact HA|..]; cbn; try done.
    intros d Hd%lookup_lt_Some. lia.
Qed.

Lemma zero_page_read slot : Page.read zero_page slot = Ok None.
Proof. reflexivity. Qed.

Definition rid_ok (r : RowId) : Prop := 0 ≤ rowPage r ∧ 0 ≤ rowSlot r.

Lemma rid_nat r : rid_ok r → ∃ n i, r = mkRowId (Z.of_nat n) (Z.of_nat i).
Proof.
  destruct r as [p i]. intros [Hp Hi]. cbn in *. exists (Z.to_nat p), (Z.to_nat i). f_equal; lia.
Qed.

Lemma page_ok_read bs d i : page_ok bs d → Page.read bs (Z.of_nat i) = Ok (dir_read d i).
Proof. intros (fin & t & Hrep & ->). by apply (read_rep bs fin). Qed.

Lemma row_at_nat pages n i :
  row_at pages (mkRowId (Z.of_nat n) (Z.of_nat i)) = d ← pages !! n; dir_read d i.
Proof.
  unfold row_at. cbn [rowPage rowSlot]. rewrite decide_True by lia. by rewrite !Nat2Z.id.
Qed.

(** An access to one page, wherever it would be; [edit] is what it does to the
    directory of the page. *)
Lemma on_any_page {X} A f pages h s n (g : bytes → exec (X * bytes * bool)) x0
    (edit : directory → X * option directory) :
  at_heap A f pages (h, s) → g zero_page = Ok (x0, zero_page, false) →
  (∀ bs d, pages !! n = Some d → page_ok bs d → match edit d with
     | (x, Some d') => ∃ bs', g bs = Ok (x, bs', true) ∧ page_ok bs' d'
     | (x, None) => g bs = Ok (x, bs, false)
     end) →
  let '(x, pages') := match edit <$> pages !! n with
    | Some (x, Some d') => (x, <[n := d']> pages)
    | Some (x, None) => (x, pages)
    | None => (x0, pages)
    end in
  ∃ s', on_page f n false g mret s = (Ok x, s') ∧ at_heap (<[f := pages']> A) f pages' (h, s').
Proof.
  intros Hat Hzero Hedit. pose proof Hat as [Hs Hp HA Hk]. cbn in Hs, Hp.
  destruct (pages !! n) as [d|] eqn:Hd; cbn.
  2:{ destruct (on_page_beyond A s f pages n false g x0 Hs HA)
        as (s' & Hrun & Hs'); [by apply lookup_ge_None|done|].
      exists s'. split; [done|]. rewrite insert_id by done. by eapply at_heap_store. }
  destruct (edit d) as [x [d'|]] eqn:Hed.
  - destruct (on_page_ok A s f pages n d false g (λ x' dd, x' = x ∧ dd = d') Hs HA Hd)
      as (x' & dd & s' & Hrun & [-> ->] & Hs').
    { intros bs Hbs. specialize (Hedit bs d eq_refl Hbs). rewrite Hed in Hedit.
      destruct Hedit as (bs' & Hg & Hbs'). exists x, bs', true, d'. by split_and!. }
    exists s'. split; [done|]. eapply at_heap_store; [exact Hat|exact Hs'| |].
    + apply lookup_insert_eq.
    + apply length_insert.
  - destruct (on_page_ok A s f pages n d false g (λ x' dd, x' = x ∧ dd = d) Hs HA Hd)
      as (x' & dd & s' & Hrun & [-> ->] & Hs').
    { intros bs Hbs. specialize (Hedit bs d eq_refl Hbs). rewrite Hed in Hedit.
      exists x, bs, false, d. by split_and!. }
    exists s'. rewrite list_insert_id, insert_id in Hs' by done.
    split; [done|]. rewrite insert_id by done. by eapply at_heap_store.
Qed.

Lemma read_at_ok {B} A f pages h s r (reader : bytes → Z → exec (option B)) (dec : bytes → option B) :
  at_heap A f pages (h, s) → rid_ok r →
  (∀ slot, reader zero_page slot = Ok None) →
  (∀ bs d i, page_ok bs d → row_at pages r = dir_read d i →
     reader bs (Z.of_nat i) = Ok (row ← dir_read d i; dec row)) →
  ∃ s', read_at reader r (h, s) = (Ok (row ← row_at pages r; dec row), (h, s')) ∧
    at_heap A f pages (h, s').
Proof.
  intros Hat (n & i & ->)%rid_nat Hzero Hread. pose proof (ah_path _ _ _ _ Hat) as Hp. cbn in Hp.
  unfold read_at. rewrite (bind_run (gets fst) _ (h, s) h (h, s)) by done. rewrite Hp.
  cbn [rowPage rowSlot]. rewrite Nat2Z.id.
  set (g := λ bs, let* r := reader bs (Z.of_nat i) in Ok (r, bs, false)).
  pose proof (on_any_page A f pages h s n g None (λ d, (row ← dir_read d i; dec row, None)) Hat) as Hpage.
  rewrite row_at_nat in *. destruct (pages !! n) as [d|] eqn:Hd; cbn in Hpage, Hread |- *.
  - destruct Hpage as (s' & Hrun & Hat').
    { unfold g. by rewrite Hzero. }
    { intros bs d0 [= <-] Hbs. unfold g. by rewrite (Hread bs d i Hbs eq_refl). }
    rewrite insert_id in Hat' by apply Hat. exists s'. split; [|done].
    by rewrite (on_storage_run _ h s _ _ Hrun).
  - destruct Hpage as (s' & Hrun & Hat'); [unfold g; by rewrite Hzero|done|].
    rewrite insert_id in Hat' by apply Hat. exists s'. split; [|done].
    by rewrite (on_storage_run _ h s _ _ Hrun).
Qed.

Lemma read_ok A f pages h s r :
  at_heap A f pages (h, s) → rid_ok r →
  (∀ row, row_at pages r = Some row → is_ok (decodeTuple row) = true) →
  ∃ s', read r (h, s) = (Ok (row ← row_at pages r; t ← ok_value (decodeTuple row);
                             Some (mkStoredRow r t)), (h, s')) ∧
    at_heap A f pages (h, s').
Proof.
  intros Hat Hr Hdec.
  destruct (read_at_ok A f pages h s r (read_row Page.read decodeTuple)
    (λ row, ok_value (decodeTuple row)) Hat Hr) as (s' & Hrun & Hat').
  { intros slot. unfold read_row. by rewrite zero_page_read. }
  { intros bs d i Hbs Hrow. unfold read_row. rewrite (page_ok_read bs d i Hbs). cbn [rbind].
    destruct (dir_read d i) as [row|]; [|done]. specialize (Hdec row Hrow). cbn.
    by destruct (decodeTuple row). }
  exists s'. split; [|done]. unfold read. rewrite (bind_run _ _ _ _ _ Hrun).
  destruct (row_at pages r) as [row|]; [|done]. cbn. by destruct (decodeTuple row).
Qed.

Lemma readRawRow_ok A f pages h s r :
  at_heap A f pages (h, s) → rid_ok r →
  ∃ s', readRawRow r (h, s) = (Ok (row_at pages r), (h, s')) ∧ at_heap A f pages (h, s').
Proof.
  intros Hat Hr.
  destruct (read_at_ok A f pages h s r (λ bs slot,
    let* v := valid bs in if negb v then Ok None else read_row Page.read Ok bs slot)
    Some Hat Hr) as (s' & Hrun & Hat').
  { intros slot. done. }
  { intros bs d i Hbs _. pose proof Hbs as (fin & t & Hrep & _).
    rewrite (header_valid _ _ (rep_header _ _ _ Hrep)). cbn [rbind negb]. unfold read_row.
    rewrite (page_ok_read bs d i Hbs). by destruct (dir_read d i). }
  exists s'. split; [|done]. unfold readRawRow. rewrite Hrun. by destruct (row_at pages r).
Qed.

Lemma dir_read_Some d i row : dir_read d i = Some row → d !! i = Some (Some row).
Proof. unfold dir_read. destruct (d !! i) as [[]|]; cbn; congruence. Qed.

Lemma erase_ok A f pages hs r :
  at_heap A f pages hs → rid_ok r →
  ∃ b pages' hs', erase r hs = (Ok b, hs') ∧ at_heap (<[f := pages']> A) f pages' hs' ∧
    match row_at pages r with
    | Some row => b = true ∧ inserted pages' pages r row
    | None => b = false ∧ pages' = pages
    end.
Proof.
  intros Hat (n & i & ->)%rid_nat. unfold erase.
  destruct (pageCount_ok _ _ _ _ Hat) as ([h s] & Hcount & Hat' & _ & _).
  rewrite (bind_run _ _ _ _ _ Hcount). clear Hat hs Hcount. rename Hat' into Hat.
  pose proof (ah_path _ _ _ _ Hat) as Hp. cbn in Hp. cbn [rowPage rowSlot].
  rewrite row_at_nat. destruct (decide (Z.of_nat (length pages) ≤ Z.of_nat n)) as [Hn|Hn].
  { exists false, pages, (h, s). rewrite insert_id by apply Hat.
    by rewrite lookup_ge_None_2 by lia. }
  rewrite (bind_run (gets fst) _ (h, s) h (h, s)) by done. rewrite Hp, Nat2Z.id.
  set (g := λ bs, let* (b, bs) := Page.erase bs (Z.of_nat i) in Ok (b, bs, b)).
  pose proof (on_any_page A f pages h s n g false
    (λ d, (bool_decide (is_Some (dir_erase d i)), dir_erase d i)) Hat) as Hpage.
  destruct (lookup_lt_is_Some_2 pages n) as [d Hd]; [lia|].
  rewrite Hd in *. cbn in Hpage |- *. pose proof (erase_rep) as Hrep.
  unfold dir_erase in *. destruct (dir_read d i) as [row|] eqn:Hrow; cbn in Hpage.
  - destruct Hpage as (s' & Hrun & Hat'); [done|..].
    { intros bs d0 [= <-] Hbs. unfold g. specialize (Hrep bs d i Hbs). rewrite Hrow in *.
      cbn in Hrep |- *. destruct Hrep as (bs' & -> & Hbs'). by exists bs'. }
    exists true, (<[n := <[i := None]> d]> pages), (h, s'). split; [by apply on_storage_run|].
    split; [done|]. split; [done|].
    destruct (slot_around pages n d i (Some row) Hd) as (L & R & Hold & Hnew);
      [by apply dir_read_Some|]. exists L, R. by rewrite Hnew.
  - destruct Hpage as (s' & Hrun & Hat'); [done|..].
    { intros bs d0 [= <-] Hbs. unfold g. specialize (Hrep bs d i Hbs). rewrite Hrow in *.
      cbn in Hrep |- *. by rewrite Hrep. }
    exists false, pages, (h, s'). split; [by apply on_storage_run|]. done.
Qed.

(** [HeapFile::update] when the row stays where it is. *)
Definition updated (pages pages' : list directory) (r : RowId) (old row : bytes) : Prop :=
  ∃ L R, heap_rows pages = L ++ (r, old) :: R ∧ heap_rows pages' = L ++ (r, row) :: R.

Lemma update_in_place A f pages h s n i row :
  at_heap A f pages (h, s) →
  let old := row_at pages (mkRowId (Z.of_nat n) (Z.of_nat i)) in
  ∃ b pages' s', on_page f n false
      (λ bs, let* (b, bs) := Page.update bs (Z.of_nat i) row in Ok (b, bs, b)) mret s
      = (Ok b, s') ∧ at_heap (<[f := pages']> A) f pages' (h, s') ∧
    match old with
    | Some old => if decide (len row ≤ len old)
        then b = true ∧ updated pages pages' (mkRowId (Z.of_nat n) (Z.of_nat i)) old row
        else b = false ∧ pages' = pages
    | None => b = false ∧ pages' = pages
    end.
Proof.
  intros Hat. cbv zeta. rewrite row_at_nat.
  set (g := λ bs, let* (b, bs) := Page.update bs (Z.of_nat i) row in Ok (b, bs, b)).
  pose proof (on_any_page A f pages h s n g false
    (λ d, (bool_decide (is_Some (dir_update d i row)), dir_update d i row)) Hat) as Hpage.
  pose proof (λ bs d, update_rep bs d i row) as Hrep. unfold dir_update in *.
  destruct (pages !! n) as [d|] eqn:Hd; cbn in Hpage |- *.
  2:{ destruct Hpage as (s' & Hrun & Hat'); [done..|]. by exists false, pages, s'. }
  destruct (dir_read d i) as [old|] eqn:Hold; cbn in Hpage |- *; [case_decide as Hle|].
  - destruct Hpage as (s' & Hrun & Hat'); [done|..].
    { intros bs d0 [= <-] Hbs. unfold g. specialize (Hrep bs d Hbs). rewrite Hold in *.
      cbn in Hrep |- *. rewrite decide_True in * by done.
      destruct Hrep as (bs' & -> & Hbs'). by exists bs'. }
    exists true, (<[n := <[i := Some row]> d]> pages), s'. split_and!; [done..|].
    destruct (slot_around pages n d i (Some old) Hd) as (L & R & HL & Hnew);
      [by apply dir_read_Some|]. exists L, R. by rewrite Hnew.
  - destruct Hpage as (s' & Hrun & Hat'); [done|..].
    { intros bs d0 [= <-] Hbs. unfold g. specialize (Hrep bs d Hbs). rewrite Hold in *.
      cbn in Hrep |- *. rewrite decide_False in * by done. by rewrite Hrep. }
    by exists false, pages, s'.
  - destruct Hpage as (s' & Hrun & Hat'); [done|..].
    { intros bs d0 [= <-] Hbs. unfold g. specialize (Hrep bs d Hbs). rewrite Hold in *.
      cbn in Hrep |- *. by rewrite Hrep. }
    by exists false, pages, s'.
Qed.
