(* ===== verification/HeapSpec.v ===== *)
(** What a heap file promises: it is a finite map from row identifiers to rows
    with an order of its own, the order of a scan.  The operations of [Heap.v],
    on any number of files that share one buffer pool of any capacity, refine
    it; the mapped view sees the same rows as the pool. *)

From S2P Require Import Prelude.
From S2P Require Import Config.
From S2P Require Import Page.
From S2P Require Import Value.
From S2P Require Import Tuple.
From S2P Require Import Storage.
From S2P Require Import Heap.

(** ** Scans *)

Section scans.
  Context {A : Type} (decode : bytes → exec A) (dec : bytes → A).

(** The rows that are there can be decoded. *)
Definition decodes (rows : list (RowId * bytes)) : Prop :=
  Forall (λ r, decode r.2 = Ok (dec r.2)) rows.

Definition decoded (r : RowId * bytes) : RowId * A := (r.1, dec r.2).

Lemma page_rows_ok reader bs n d :
  (∀ i, reader bs (Z.of_nat i) = Ok (dir_read d i)) → decodes (dir_rows n 0 d) →
  ∃ rows, page_rows (read_row reader decode bs) (seqZ 0 (len d)) = Ok rows ∧
    (λ r : Z * A, (mkRowId (Z.of_nat n) r.1, r.2)) <$> rows = decoded <$> dir_rows n 0 d.
Proof.
  intros Hread. assert (Hall : ∀ i e, d !! i = Some e → reader bs (Z.of_nat (0 + i)) = Ok e).
  { intros i e Hi. cbn [Nat.add]. rewrite Hread. unfold dir_read. by rewrite Hi. }
  clear Hread. change (seqZ 0) with (seqZ (Z.of_nat 0)). generalize dependent 0%nat.
  induction d as [|e d IH]; intros k Hall Hdec.
  { exists []. done. }
  rewrite length_cons, seqZ_cons by lia. cbn [page_rows].
  rewrite dir_rows_slot in *. apply Forall_app in Hdec as [Hhead Htail].
  destruct (IH (S k)) as (rows & Hrun & Hrows); [|done|].
  { intros i e' Hi. rewrite <- (Hall (S i) e' Hi). do 2 f_equal. lia. }
  replace (Z.succ (Z.of_nat k)) with (Z.of_nat (S k)) by lia.
  replace (Z.pred (Z.of_nat (S (length d)))) with (Z.of_nat (length d)) by lia.
  unfold read_row at 1. pose proof (Hall 0%nat e eq_refl) as He. rewrite Nat.add_0_r in He.
  rewrite He. cbn [rbind]. rewrite Hrun. destruct e as [row|]; cbn [rbind].
  - apply Forall_cons_1 in Hhead as [Hhead _]. cbn in Hhead. rewrite Hhead. cbn [rbind].
    eexists. split; [done|]. cbn. by rewrite Hrows.
  - eexists. split; [done|]. done.
Qed.

Lemma scan_page_ok reader bs n d :
  page_ok bs d → (∀ i, reader bs (Z.of_nat i) = Ok (dir_read d i)) →
  decodes (dir_rows n 0 d) →
  ∃ rows, scan_page reader decode bs = Ok rows ∧
    (λ r : Z * A, (mkRowId (Z.of_nat n) r.1, r.2)) <$> rows = decoded <$> dir_rows n 0 d.
Proof.
  intros (fin & t & Hrep & Hd) Hread Hdec. pose proof (rep_header _ _ _ Hrep) as Hh.
  unfold scan_page. rewrite (header_valid _ _ Hh), (header_slotCount _ _ Hh). cbn [rbind negb].
  destruct (page_rows_ok reader bs n d Hread Hdec) as (rows & Hrun & Hrows).
  exists rows. split; [|done]. rewrite <- Hrun. do 2 f_equal. subst d. by rewrite length_rows_of.
Qed.

Lemma scan_pages_ok H f pages n k s :
  store_ok H s → H !! f = Some pages → (n + k = length pages)%nat →
  decodes (rows_from n (drop n pages)) →
  ∃ s', scan_pages f decode (seq n k) s = (Ok (decoded <$> rows_from n (drop n pages)), s') ∧
    store_ok H s'.
Proof.
  intros Hs HA. revert n s Hs. induction k as [|k IH]; intros n s Hs Hlen Hdec.
  { exists s. rewrite drop_ge by lia. done. }
  destruct (lookup_lt_is_Some_2 pages n) as [d Hd]; [lia|].
  rewrite (drop_S pages d n Hd) in *. cbn [rows_from] in *.
  apply Forall_app in Hdec as [Hpage Hrest]. cbn [seq scan_pages].
  destruct (on_page_ok H s f pages n d false
    (λ bs, let* rows := scan_page Page.read decode bs in Ok (rows, bs, false))
    (λ rows d', d' = d ∧ (λ r : Z * A, (mkRowId (Z.of_nat n) r.1, r.2)) <$> rows =
                decoded <$> dir_rows n 0 d) Hs HA Hd) as (rows & d' & s1 & Hrun & [-> Hrows] & Hs1).
  { intros bs Hbs. destruct (scan_page_ok Page.read bs n d Hbs) as (rows & -> & Hrows);
      [intros i; by apply page_ok_read|done|]. by exists rows, bs, false, d. }
  rewrite (bind_run _ _ _ _ _ Hrun). rewrite list_insert_id, insert_id in Hs1 by done.
  destruct (IH (S n) s1 Hs1) as (s' & Hrun' & Hs'); [lia|done|]. exists s'. split; [|done].
  rewrite (bind_run _ _ _ _ _ Hrun'), Hrows, fmap_app. done.
Qed.

Lemma scan_all_ok H f pages hs :
  at_heap H f pages hs → decodes (heap_rows pages) →
  ∃ hs', scan_all decode hs = (Ok (decoded <$> heap_rows pages), hs') ∧ at_heap H f pages hs'.
Proof.
  intros Hat Hdec. unfold scan_all.
  destruct (pageCount_ok _ _ _ _ Hat) as ([h s] & Hcount & Hat' & _ & _).
  rewrite (bind_run _ _ _ _ _ Hcount). clear Hat hs Hcount.
  rewrite (bind_run (gets fst) _ (h, s) h (h, s)) by done.
  pose proof Hat' as [Hs Hp HA _]. cbn in Hs, Hp. rewrite Hp.
  destruct (scan_pages_ok H f pages 0 (length pages) s Hs HA eq_refl Hdec) as (s' & Hrun & Hs').
  exists (h, s'). rewrite (on_storage_run _ h s _ _ Hrun). split; [done|]. by eapply at_heap_store.
Qed.

(** *** The mapped view *)

Lemma read_mapped_ok bs d i :
  page_ok bs d → read_mapped bs (Z.of_nat i) = Ok (dir_read d i).
Proof.
  intros Hbs. rewrite <- (page_ok_read bs d i Hbs). unfold read_mapped, Page.read, readView.
  destruct (liveSlot bs (Z.of_nat i)) as [[[o l]|]|] eqn:Hl; cbn [rbind]; try done.
  destruct Hbs as (fin & t & Hrep & _). rewrite (liveSlot_ok bs fin t i Hrep) in Hl.
  unfold extent in Hl. destruct (t !! i) as [[[o' row]|]|] eqn:Hi; cbn in Hl; try done.
  injection Hl as -> <-. destruct Hrep as [_ _ _ _ [Heach _]].
  destruct (Heach _ _ Hi) as (_ & _ & _ & _ & Hhi & _).
  by destruct (Z.ltb_spec PAGE_SIZE (o + len row)); [lia|].
Qed.

Lemma mapped_scan_ok content pages n k :
  (∀ m d, pages !! m = Some d → page_ok (page_of_file content (Z.of_nat m)) d) →
  (n + k = length pages)%nat → decodes (rows_from n (drop n pages)) →
  mapped_scan decode content (seq n k) = Ok (decoded <$> rows_from n (drop n pages)).
Proof.
  intros Hfile. revert n. induction k as [|k IH]; intros n Hlen Hdec.
  { by rewrite drop_ge by lia. }
  destruct (lookup_lt_is_Some_2 pages n) as [d Hd]; [lia|].
  rewrite (drop_S pages d n Hd) in *. cbn [rows_from] in *.
  apply Forall_app in Hdec as [Hpage Hrest]. cbn [seq mapped_scan].
  destruct (scan_page_ok read_mapped (mapped_page content n) n d) as (rows & -> & Hrows);
    [by apply Hfile|intros i; apply read_mapped_ok; by apply Hfile|done|].
  cbn [rbind]. rewrite IH by (done || lia). cbn [rbind]. by rewrite Hrows, fmap_app.
Qed.
End scans.

(** ** The specification *)

(** Why a row cannot be stored. *)
Definition store_error (t : Tuple) : option failure :=
  match encodeTuple t with
  | Err e => Some e
  | Ok bs => if decide (PAGE_SIZE < len bs + 22) then Some (Throw "Tuple exceeds page size") else None
  end.

Definition row_bytes (t : Tuple) : Z :=
  match encodeTuple t with Ok bs => len bs | Err _ => 0 end.

Inductive heap_op : Type :=
  | Insert (t : Tuple)
  | Erase (r : RowId)
  | Update (r : RowId) (t : Tuple)
  | Read (r : RowId)
  | Scan (batchSize : nat)
  | MappedScan.

Inductive heap_reply : Type :=
  | Row (r : RowId)
  | Flag (b : bool)
  | Found (row : option StoredRow)
  | Batches (bs : list (list StoredRow))
  | Rows (rows : list (RowId * Tuple)).

(** The rows of a file in scan order, before and after. *)
Abbreviation rows := (list (RowId * Tuple)) (only parsing).

Inductive heap_spec (rs : rows) : heap_op → exec heap_reply → rows → Prop :=
  | spec_insert t L R r :
      store_error t = None → rs = L ++ R → r ∉ rs.*1 →
      heap_spec rs (Insert t) (Ok (Row r)) (L ++ (r, t) :: R)
  | spec_insert_fails t e :
      store_error t = Some e → heap_spec rs (Insert t) (Err e) rs
  | spec_erase r t L R :
      rs = L ++ (r, t) :: R → heap_spec rs (Erase r) (Ok (Flag true)) (L ++ R)
  | spec_erase_nothing r :
      r ∉ rs.*1 → heap_spec rs (Erase r) (Ok (Flag false)) rs
  | spec_update_in_place r t old L R :
      is_ok (encodeTuple t) = true → rs = L ++ (r, old) :: R → row_bytes t ≤ row_bytes old →
      heap_spec rs (Update r t) (Ok (Row r)) (L ++ (r, t) :: R)
  | spec_update_moves r t old L R r' L' R' :
      store_error t = None → rs = L ++ (r, old) :: R → row_bytes old < row_bytes t →
      L ++ R = L' ++ R' → r' ∉ (L ++ R).*1 →
      heap_spec rs (Update r t) (Ok (Row r')) (L' ++ (r', t) :: R')
  | spec_update_loses r t old L R e :
      is_ok (encodeTuple t) = true → store_error t = Some e →
      rs = L ++ (r, old) :: R → row_bytes old < row_bytes t →
      heap_spec rs (Update r t) (Err e) (L ++ R)
  | spec_update_nothing r t :
      is_ok (encodeTuple t) = true → r ∉ rs.*1 →
      heap_spec rs (Update r t) (Err (Throw "Row no longer exists")) rs
  | spec_update_fails r t e :
      encodeTuple t = Err e → heap_spec rs (Update r t) (Err e) rs
  | spec_read r t :
      (r, t) ∈ rs → heap_spec rs (Read r) (Ok (Found (Some (mkStoredRow r t)))) rs
  | spec_read_nothing r :
      r ∉ rs.*1 → heap_spec rs (Read r) (Ok (Found None)) rs
  | spec_scan n bs :
      concat bs = stored <$> rs → Forall (λ b, (0 < length b ≤ n)%nat) bs →
      Forall (λ b, length b = n) (removelast bs) →
      heap_spec rs (Scan n) (Ok (Batches bs)) rs
  | spec_scan_fails :
      heap_spec rs (Scan 0) (Err (Throw "Heap scan batch size must be positive")) rs
  | spec_mapped : heap_spec rs MappedScan (Ok (Rows rs)) rs.

(** ** The operations of [Heap.v] *)

Definition file_content : heap_action bytes :=
  gets (λ hs, default [] (files hs.2 !! path_ hs.1)).

Definition heap_call (op : heap_op) : heap_action heap_reply :=
  match op with
  | Insert t => r ← insert t; mret (Row r)
  | Erase r => b ← erase r; mret (Flag b)
  | Update r t => r' ← update r t; mret (Row r')
  | Read r => row ← read r; mret (Found row)
  | Scan n => bs ← scanBatches n; mret (Batches bs)
  | MappedScan =>
      _ ← flush_heap; content ← file_content;
      rows ← lift (scanMapped decodeTuple content); mret (Rows rows)
  end.

(** Rows that can be stored at all, and identifiers as their type has them. *)
Definition op_ok (op : heap_op) : Prop :=
  match op with
  | Insert t => Forall scalar t
  | Update r t => rid_ok r ∧ Forall scalar t
  | Erase r | Read r => rid_ok r
  | Scan _ | MappedScan => True
  end.

(** [bs] is the row [t] as a page holds it. *)
Definition kept (t : Tuple) (bs : bytes) : Prop :=
  encodeTuple t = Ok bs ∧ Forall storable t ∧ len bs ≤ PAGE_SIZE.

Definition row_holds (p : RowId * bytes) (r : RowId * Tuple) : Prop :=
  p.1 = r.1 ∧ kept r.2 p.2.

Definition holds (pages : list directory) (rs : rows) : Prop :=
  Forall2 row_holds (heap_rows pages) rs.

Lemma encoded_decodes t bs :
  encodeTuple t = Ok bs → Forall storable t → decodeTuple bs = Ok t.
Proof.
  unfold encodeTuple. case_decide as Hlen; [done|]. intros Hbs Ht.
  assert (bs = appendPod 2 (len t) ++ concat (encodeField <$> t) ++ []) as ->.
  { rewrite app_nil_r. congruence. }
  apply decodeTuple_encoded; [done|lia].
Qed.

Lemma kept_decodes t bs : kept t bs → decodeTuple bs = Ok t.
Proof. intros (Henc & Ht & _). by apply encoded_decodes. Qed.

(** What fits in a page is short enough for its length prefixes. *)
Lemma kept_intro t bs :
  encodeTuple t = Ok bs → Forall scalar t → len bs ≤ PAGE_SIZE → kept t bs.
Proof.
  intros Henc Ht Hlen. split; [done|]. split; [|done]. unfold encodeTuple in Henc.
  case_decide; [done|].
  assert (len (concat (encodeField <$> t)) ≤ 4096) as Hsize.
  { assert (bs = appendPod 2 (len t) ++ concat (encodeField <$> t)) as -> by congruence.
    rewrite length_app in Hlen. change PAGE_SIZE with 4096 in Hlen. lia. }
  clear Henc Hlen. induction Ht as [|v t Hv _ IH]; [done|].
  rewrite fmap_cons in Hsize. cbn [concat] in Hsize. rewrite length_app in Hsize.
  constructor; [|apply IH; cbn [length] in *; lia]. clear IH.
  destruct v; cbn in Hv |- *; try done; unfold encodeField in Hsize;
    rewrite length_cons, length_app, ?length_bytes_of in Hsize; lia.
Qed.

Lemma row_holds_fst l rs : Forall2 row_holds l rs → l.*1 = rs.*1.
Proof. induction 1 as [|p r l rs [Heq _] _ IH]; [done|]. cbn. by rewrite Heq, IH. Qed.

Lemma rows_same (rs : rows) x y : NoDup rs.*1 → x ∈ rs → y ∈ rs → x.1 = y.1 → x = y.
Proof.
  intros Hnd [i Hi]%list_elem_of_lookup [j Hj]%list_elem_of_lookup Heq.
  assert (i = j) as ->; [|congruence]. eapply NoDup_lookup; [exact Hnd|..];
    rewrite list_lookup_fmap; [by rewrite Hi|rewrite Hj; cbn; congruence].
Qed.

Definition dec_row (bs : bytes) : Tuple := default [] (ok_value (decodeTuple bs)).

Lemma holds_decodes l rs :
  Forall2 row_holds l rs → decodes decodeTuple dec_row l ∧ decoded dec_row <$> l = rs.
Proof.
  induction 1 as [|[r bs] [r' t] l rs [Heq Ht] _ [IH1 IH2]]; [by split; constructor|].
  cbn in Heq, Ht. subst r'. pose proof (kept_decodes t bs Ht) as Hdec. split.
  - constructor; [|done]. cbn. unfold dec_row. by rewrite Hdec.
  - rewrite fmap_cons, IH2. unfold decoded, dec_row. cbn. by rewrite Hdec.
Qed.

Lemma holds_row_at pages rs r :
  holds pages rs →
  match row_at pages r with
  | Some bs => ∃ t, (r, t) ∈ rs ∧ kept t bs
  | None => r ∉ rs.*1
  end.
Proof.
  intros Hrs. destruct (row_at pages r) as [bs|] eqn:Hr.
  - apply row_at_rows, list_elem_of_lookup in Hr as [i Hi].
    destruct (Forall2_lookup_l _ _ _ _ _ Hrs Hi) as ([r' t] & Ht & Heq & Hst).
    cbn in *. subst r'. exists t. split; [|done]. apply list_elem_of_lookup. eauto.
  - rewrite <- (row_holds_fst _ _ Hrs). intros ([r' bs] & -> & Hin)%list_elem_of_fmap.
    apply row_at_rows in Hin. cbn in *. congruence.
Qed.

Lemma holds_inserted pages pages' rs r t row :
  holds pages rs → inserted pages pages' r row → kept t row →
  ∃ L R, rs = L ++ R ∧ r ∉ rs.*1 ∧ holds pages' (L ++ (r, t) :: R).
Proof.
  intros Hrs (L0 & R0 & Hold & Hnew) Ht. unfold holds in *.
  pose proof (heap_rows_NoDup pages') as Hnd. rewrite Hnew in Hnd. rewrite Hold in Hrs.
  apply Forall2_app_inv_l in Hrs as (L & R & HL & HR & ->). exists L, R. split; [done|].
  split.
  - rewrite fmap_app, <- (row_holds_fst _ _ HL), <- (row_holds_fst _ _ HR), <- fmap_app.
    rewrite fmap_app, fmap_cons in Hnd. apply NoDup_app in Hnd as (_ & Hd & Hnd).
    apply NoDup_cons in Hnd as [Hr _]. rewrite fmap_app, elem_of_app. intros [Hin|Hin].
    + apply (Hd _ Hin). apply list_elem_of_here.
    + done.
  - rewrite Hnew. apply Forall2_app; [done|]. constructor; [|done]. done.
Qed.

Lemma holds_middle pages rs L0 R0 r bs :
  holds pages rs → heap_rows pages = L0 ++ (r, bs) :: R0 →
  ∃ L R t, rs = L ++ (r, t) :: R ∧ kept t bs ∧
    Forall2 row_holds L0 L ∧ Forall2 row_holds R0 R.
Proof.
  unfold holds. intros Hrs Hold. rewrite Hold in Hrs.
  apply Forall2_app_inv_l in Hrs as (L & R1 & HL & HR & ->).
  apply Forall2_cons_inv_l in HR as ([r' t] & R & [Heq Ht] & HR & ->).
  cbn in *. subst r'. by exists L, R, t.
Qed.

(** ** Each operation does what the specification says *)

Section one_file.
  Context (H : heaps) (f : string).

(** The outcome of [m] on the file, whose rows were [rs]. *)
Definition outcome {A} (rs : rows) (m : exec A * (HeapFile * storage))
    (P : exec A → rows → Prop) : Prop :=
  ∃ r pages' rs' hs', m = (r, hs') ∧ at_heap (<[f := pages']> H) f pages' hs' ∧
    holds pages' rs' ∧ P r rs'.

Lemma unchanged {A} pages rs hs' (r : exec A) m (P : exec A → rows → Prop) :
  m = (r, hs') → at_heap H f pages hs' → holds pages rs → P r rs → outcome rs m P.
Proof.
  intros Hm Hat Hrs HP. exists r, pages, rs, hs'. rewrite insert_id by apply Hat. done.
Qed.

Lemma insert_outcome pages rs t hs :
  at_heap H f pages hs → holds pages rs → Forall scalar t →
  outcome rs (insert t hs) (λ r rs',
    match store_error t with
    | Some e => r = Err e ∧ rs' = rs
    | None => ∃ rid L R, r = Ok rid ∧ rs = L ++ R ∧ rid ∉ rs.*1 ∧ rs' = L ++ (rid, t) :: R
    end).
Proof.
  intros Hat Hrs Ht. unfold store_error. destruct (encodeTuple t) as [row|e] eqn:Henc;
    [case_decide as Hbig|].
  3:{ eapply (unchanged _ _ hs); [|done..]. unfold insert.
      rewrite (bind_run _ _ _ _ _ (create_existing _ _ _ _ Hat)).
      unfold mbind, action_bind, lift. by rewrite Henc. }
  - eapply (unchanged _ _ hs); [|done..]. unfold insert.
    rewrite (bind_run _ _ _ _ _ (create_existing _ _ _ _ Hat)).
    rewrite (bind_run (lift (encodeTuple t)) _ hs row hs) by (unfold lift; by rewrite Henc).
    by rewrite decide_True.
  - destruct (insert_encoded H f pages hs t row Hat Henc) as (rid & pages' & hs' & Hrun & Hat' & Hins);
      [lia|].
    destruct (holds_inserted _ _ _ _ _ _ Hrs Hins (kept_intro t row Henc Ht ltac:(lia))) as (L & R & -> & Hnew & Hrs').
    exists (Ok rid), pages', (L ++ (rid, t) :: R), hs'. split_and!; try done. eauto 8.
Qed.

Lemma erase_outcome pages rs r hs :
  at_heap H f pages hs → holds pages rs → rid_ok r →
  outcome rs (erase r hs) (λ b rs',
    (∃ L R t bs, rs = L ++ (r, t) :: R ∧ b = Ok true ∧ rs' = L ++ R ∧
       row_at pages r = Some bs ∧ kept t bs) ∨
    (row_at pages r = None ∧ r ∉ rs.*1 ∧ b = Ok false ∧ rs' = rs)).
Proof.
  intros Hat Hrs Hr. destruct (erase_ok H f pages hs r Hat Hr) as (b & pages' & hs' & Hrun & Hat' & Hb).
  pose proof (holds_row_at _ _ r Hrs) as Hrow. destruct (row_at pages r) as [bs|].
  - destruct Hb as (-> & L0 & R0 & Hnew & Hold).
    destruct (holds_middle _ _ _ _ _ _ Hrs Hold) as (L & R & t & -> & Ht & HL & HR).
    exists (Ok true), pages', (L ++ R), hs'. split_and!; try done.
    + unfold holds. rewrite Hnew. by apply Forall2_app.
    + left. by exists L, R, t, bs.
  - destruct Hb as [-> ->]. rewrite insert_id in Hat' by apply Hat.
    eapply (unchanged _ _ hs'); [done..|]. by right.
Qed.

Lemma read_outcome pages rs r hs :
  at_heap H f pages hs → holds pages rs → rid_ok r →
  outcome rs (read r hs) (λ row rs', rs' = rs ∧
    ((∃ t, (r, t) ∈ rs ∧ row = Ok (Some (mkStoredRow r t))) ∨ (r ∉ rs.*1 ∧ row = Ok None))).
Proof.
  intros Hat Hrs Hr. destruct hs as [h s]. pose proof (holds_row_at _ _ r Hrs) as Hrow.
  destruct (read_ok H f pages h s r Hat Hr) as (s' & Hrun & Hat').
  { intros bs Hbs. rewrite Hbs in Hrow. destruct Hrow as (t & _ & Ht).
    by rewrite (kept_decodes t bs Ht). }
  eapply (unchanged _ _ (h, s')); [done..|]. split; [done|].
  destruct (row_at pages r) as [bs|]; [|by right]. destruct Hrow as (t & Hin & Ht).
  left. exists t. split; [done|]. cbn. by rewrite (kept_decodes t bs Ht).
Qed.

Lemma batches_ok {A} n (l acc : list A) :
  (length acc < n)%nat →
  concat (batches n acc l) = acc ++ l ∧
  Forall (λ b, (0 < length b ≤ n)%nat) (batches n acc l) ∧
  Forall (λ b, length b = n) (removelast (batches n acc l)).
Proof.
  revert acc. induction l as [|x l IH]; intros acc Hacc; cbn [batches].
  - destruct acc as [|a acc]; cbn in *; [by repeat constructor|].
    rewrite !app_nil_r. split; [done|]. split; [|by constructor]. constructor; [cbn; lia|constructor].
  - case_decide as Hlen.
    + destruct (IH []) as (Hc & Hf & Hl); [cbn; lia|]. cbn [concat]. rewrite Hc, <- app_assoc.
      split; [done|]. split; [constructor; [lia|done]|]. cbn [removelast].
      destruct (batches n [] l); [constructor|]. by constructor.
    + rewrite length_app in Hlen. cbn in Hlen.
      destruct (IH (acc ++ [x])) as (Hc & Hf & Hl); [rewrite length_app; cbn; lia|].
      rewrite Hc, <- app_assoc. done.
Qed.

Lemma scan_outcome pages rs n hs :
  at_heap H f pages hs → holds pages rs → (0 < n)%nat →
  outcome rs (scanBatches n hs) (λ bs rs', rs' = rs ∧ bs = Ok (batches n [] (stored <$> rs))).
Proof.
  intros Hat Hrs Hn. destruct (holds_decodes _ _ Hrs) as [Hdec Heq].
  destruct (scan_all_ok decodeTuple dec_row H f pages hs Hat Hdec) as (hs' & Hrun & Hat').
  eapply (unchanged _ _ hs'); [|done..]. unfold scanBatches. rewrite decide_False by lia.
  rewrite (bind_run _ _ _ _ _ Hrun). by rewrite Heq.
Qed.
End one_file.

Section updates.
  Context (H : heaps) (f : string).

(** The first half of [update]. *)
Lemma try_update_ok pages h s r row :
  at_heap H f pages (h, s) → rid_ok r →
  ∃ b pages' s',
    (if decide (rowPage r < len pages) then
       on_storage (on_page f (Z.to_nat (rowPage r)) false
         (λ bs, let* (b, bs) := Page.update bs (rowSlot r) row in Ok (b, bs, b)) mret)
     else mret false) (h, s) = (Ok b, (h, s')) ∧
    at_heap (<[f := pages']> H) f pages' (h, s') ∧
    match row_at pages r with
    | Some old => if decide (len row ≤ len old) then b = true ∧ updated pages pages' r old row
                  else b = false ∧ pages' = pages
    | None => b = false ∧ pages' = pages
    end.
Proof.
  intros Hat (n & i & ->)%rid_nat. cbn [rowPage rowSlot]. rewrite Nat2Z.id.
  case_decide as Hn.
  - destruct (update_in_place H f pages h s n i row Hat) as (b & pages' & s' & Hrun & Hat' & Hb).
    exists b, pages', s'. split; [by apply on_storage_run|done].
  - exists false, pages, s. rewrite row_at_nat, lookup_ge_None_2, insert_id by (lia || apply Hat).
    done.
Qed.

Lemma update_outcome pages rs r t hs :
  at_heap H f pages hs → holds pages rs → rid_ok r → Forall scalar t →
  outcome H f rs (update r t hs) (λ r' rs',
    heap_spec rs (Update r t) (let* a := r' in Ok (Row a)) rs').
Proof.
  intros Hat Hrs Hr Ht. destruct (encodeTuple t) as [row|e] eqn:Henc.
  2:{ eapply (unchanged _ _ _ _ hs); [unfold update, mbind, action_bind, lift; by rewrite Henc|done..|].
      by apply spec_update_fails. }
  unfold update. rewrite (bind_run (lift (encodeTuple t)) _ hs row hs)
    by (unfold lift; by rewrite Henc).
  destruct (pageCount_ok _ _ _ _ Hat) as ([h s] & Hcount & Hat' & _ & _).
  rewrite (bind_run _ _ _ _ _ Hcount). clear Hat hs Hcount. rename Hat' into Hat.
  rewrite (bind_run (gets fst) _ (h, s) h (h, s)) by done.
  pose proof (ah_path _ _ _ _ Hat) as Hp. cbn [fst] in Hp. rewrite Hp.
  destruct (try_update_ok pages h s r row Hat Hr) as (b & pages1 & s1 & Hrun & Hat1 & Hb).
  rewrite (bind_run _ _ _ _ _ Hrun). clear Hrun.
  assert (Hok : is_ok (encodeTuple t) = true) by by rewrite Henc.
  assert (Hbytes : row_bytes t = len row) by (unfold row_bytes; by rewrite Henc).
  destruct (row_at pages r) as [old|] eqn:Hold; [case_decide as Hle|].
  - destruct Hb as [-> (L0 & R0 & Hpages & Hpages1)].
    destruct (holds_middle _ _ _ _ _ _ Hrs Hpages) as (L & R & u & -> & (Hu & _ & Hsize) & HL & HR).
    exists (Ok r), pages1, (L ++ (r, t) :: R), (h, s1). split_and!; try done.
    + unfold holds. rewrite Hpages1. apply Forall2_app; [done|]. constructor; [|done].
      split; [done|]. apply kept_intro; [done..|]. cbn. lia.
    + eapply spec_update_in_place; [done..|]. rewrite Hbytes. unfold row_bytes. by rewrite Hu.
  - destruct Hb as [-> ->]. rewrite insert_id in Hat1 by apply Hat.
    destruct (erase_outcome H f pages rs r (h, s1) Hat1 Hrs Hr)
      as (b & pages2 & rs2 & hs2 & Hrun & Hat2 & Hrs2 & Hb).
    rewrite Hold in Hb. destruct Hb as [(L & R & u & bs & -> & -> & -> & [= <-] & (Hu & _))|[? _]]; [|done].
    rewrite (bind_run _ _ _ _ _ Hrun).
    assert (Hgrow : row_bytes u < row_bytes t).
    { rewrite Hbytes. unfold row_bytes. rewrite Hu. lia. }
    destruct (insert_outcome _ f pages2 (L ++ R) t hs2 Hat2 Hrs2 Ht)
      as (r' & pages3 & rs3 & hs3 & Hins & Hat3 & Hrs3 & Hspec).
    exists r', pages3, rs3, hs3. rewrite insert_insert_eq in Hat3.
    split_and!; try done.
    destruct (store_error t) as [e|] eqn:Hse.
    + destruct Hspec as [-> ->]. by eapply spec_update_loses.
    + destruct Hspec as (r1 & L1 & R1 & -> & HLR & Hnew & ->). by eapply spec_update_moves.
  - destruct Hb as [-> ->]. rewrite insert_id in Hat1 by apply Hat.
    destruct (erase_outcome H f pages rs r (h, s1) Hat1 Hrs Hr)
      as (b & pages2 & rs2 & hs2 & Hrun & Hat2 & Hrs2 & Hb).
    rewrite Hold in Hb. destruct Hb as [(L & R & u & bs & _ & _ & _ & ? & _)|(_ & Hnot & -> & ->)];
      [done|].
    exists (Err (Throw "Row no longer exists")), pages2, rs, hs2.
    split_and!; [|done..|by apply spec_update_nothing].
    by rewrite (bind_run _ _ _ _ _ Hrun).
Qed.
End updates.

(** After a flush the file itself holds the pages. *)
Lemma flush_heap_ok H f pages h s :
  at_heap H f pages (h, s) →
  ∃ s' content, flush_heap (h, s) = (Ok (), (h, s')) ∧ at_heap H f pages (h, s') ∧
    files s' !! f = Some content ∧ Nat.div (length content) PAGE = length pages ∧
    ∀ n d, pages !! n = Some d → page_ok (page_of_file content (Z.of_nat n)) d.
Proof.
  intros Hat. pose proof Hat as [[Hs Hpins] Hp HA Hk]. cbn in Hs, Hp, Hk.
  destruct (flushFile_ok _ H s f Hs) as (s' & Hrun & Hs' & Hsame & Hclean & _).
  apply (storage_weaken _ (λ _, True)) in Hs'; [|by auto].
  destruct (so_files _ _ _ Hs' f pages HA) as (content & k & Hc & Hlen & _ & Hex & Hok).
  exists s', content. split_and!.
  - unfold flush_heap. rewrite (bind_run (gets fst) _ (h, s) h (h, s)) by done. rewrite Hp.
    by apply on_storage_run.
  - eapply at_heap_store; [done| |done..]. split; [done|]. by eapply same_frames_no_pins.
  - done.
  - rewrite Hlen, (Hex I). apply Nat.div_mul. pose proof PAGE_pos. lia.
  - intros n d Hd. specialize (Hok n d Hd). unfold frame_ok in Hok.
    destruct (frames_ (pool s') !! (f, Z.of_nat n)) as [fr|] eqn:Hfr; [|done].
    apply Hok. by eapply Hclean.
Qed.

Lemma mapped_outcome H f pages rs hs :
  at_heap H f pages hs → holds pages rs →
  outcome H f rs (heap_call MappedScan hs) (λ r rs', rs' = rs ∧ r = Ok (Rows rs)).
Proof.
  intros Hat Hrs. destruct hs as [h s].
  destruct (flush_heap_ok H f pages h s Hat) as (s' & c & Hrun & Hat' & Hc & Hlen & Hpages).
  eapply (unchanged _ _ _ _ (h, s')); [|done..]. cbn [heap_call].
  pose proof (ah_path _ _ _ _ Hat) as Hp. cbn [fst] in Hp.
  rewrite (bind_run _ _ _ _ _ Hrun), (bind_run file_content _ (h, s') c (h, s'))
    by (unfold file_content, gets; cbn; by rewrite Hp, Hc).
  destruct (holds_decodes _ _ Hrs) as [Hdec Heq].
  pose proof (mapped_scan_ok decodeTuple dec_row c pages 0 (length pages) Hpages eq_refl Hdec)
    as Hscan. unfold scanMapped. rewrite Hlen.
  unfold mbind, action_bind, lift. rewrite Hscan. cbn [drop]. by rewrite <- Heq.
Qed.

Lemma outcome_call {A} H f rs hs (m : heap_action A) (k : A → heap_reply) P op :
  outcome H f rs (m hs) P →
  (∀ r rs', P r rs' → heap_spec rs op (let* a := r in Ok (k a)) rs') →
  outcome H f rs ((a ← m; mret (k a)) hs) (heap_spec rs op).
Proof.
  intros (r & pages' & rs' & hs' & Hrun & Hat & Hrs & HP) Hspec.
  exists (let* a := r in Ok (k a)), pages', rs', hs'. split_and!; [|done..|by apply Hspec].
  unfold mbind, action_bind. rewrite Hrun. by destruct r.
Qed.

Lemma insert_spec_of rs t r rs' :
  match store_error t with
  | Some e => r = Err e ∧ rs' = rs
  | None => ∃ rid L R, r = Ok rid ∧ rs = L ++ R ∧ rid ∉ rs.*1 ∧ rs' = L ++ (rid, t) :: R
  end → heap_spec rs (Insert t) (let* a := r in Ok (Row a)) rs'.
Proof.
  destruct (store_error t) as [e|] eqn:Hse.
  - intros [-> ->]. by apply spec_insert_fails.
  - intros (rid & L & R & -> & HLR & Hnew & ->). by apply spec_insert.
Qed.

Lemma erase_spec_of pages rs r b rs' :
  (∃ L R t bs, rs = L ++ (r, t) :: R ∧ b = Ok true ∧ rs' = L ++ R ∧
     row_at pages r = Some bs ∧ kept t bs) ∨
  (row_at pages r = None ∧ r ∉ rs.*1 ∧ b = Ok false ∧ rs' = rs) →
  heap_spec rs (Erase r) (let* a := b in Ok (Flag a)) rs'.
Proof.
  intros [(L & R & t & bs & HLR & -> & -> & _)|(_ & Hnot & -> & ->)].
  - by eapply spec_erase.
  - by apply spec_erase_nothing.
Qed.

Lemma heap_call_ok H f pages rs op hs :
  at_heap H f pages hs → holds pages rs → op_ok op →
  outcome H f rs (heap_call op hs) (heap_spec rs op).
Proof.
  intros Hat Hrs Hop. destruct op as [t|r|r t|r|n|]; cbn in Hop.
  - eapply outcome_call; [by eapply insert_outcome|apply insert_spec_of].
  - eapply outcome_call; [by eapply erase_outcome|apply erase_spec_of].
  - destruct Hop. eapply outcome_call; [by eapply update_outcome|]. done.
  - eapply outcome_call; [by eapply read_outcome|].
    intros row rs' [-> [(t & Hin & ->)|[Hnot ->]]].
    + by apply spec_read.
    + by apply spec_read_nothing.
  - destruct (decide (n = 0%nat)) as [->|Hn].
    { eapply (unchanged _ _ _ _ hs); [done..|apply spec_scan_fails]. }
    eapply outcome_call; [eapply scan_outcome; [done..|lia]|]. intros bs rs' [-> ->].
    destruct (batches_ok n (stored <$> rs) []) as (Hc & Hf & Hl); [cbn; lia|].
    by apply spec_scan.
  - destruct (mapped_outcome H f pages rs hs Hat Hrs)
      as (r & pages' & rs' & hs' & Hrun & Hat' & Hrs' & -> & ->).
    exists (Ok (Rows rs)), pages', rs, hs'. split_and!; try done. apply spec_mapped.
Qed.

(** ** Several heap files on one pool *)

Abbreviation handles := (gmap string HeapFile) (only parsing).

(** An operation on the heap file at path [f]; its object is made when it is
    first used. *)
Definition file_call (f : string) (op : heap_op) : action (handles * storage) heap_reply :=
  zoom (λ st, (default (heap f) (st.1 !! f), st.2)) (λ hs st, (<[f := hs.1]> st.1, hs.2))
    (heap_call op).

(** The calls one after another; a call that throws does not end the run. *)
Fixpoint run_calls (ops : list (string * heap_op)) (st : handles * storage)
    : list (exec heap_reply) * (handles * storage) :=
  match ops with
  | [] => ([], st)
  | (f, op) :: ops' =>
      let (r, st) := file_call f op st in
      let (rs, st) := run_calls ops' st in (r :: rs, st)
  end.

Inductive spec_calls : gmap string rows → list (string * heap_op) →
    list (exec heap_reply) → gmap string rows → Prop :=
  | calls_nil M : spec_calls M [] [] M
  | calls_cons M M' f op ops rs rs' r replies :
      M !! f = Some rs → heap_spec rs op r rs' →
      spec_calls (<[f := rs']> M) ops replies M' →
      spec_calls M ((f, op) :: ops) (r :: replies) M'.

(** The files of [names], created and empty. *)
Definition empty_files (capacityPages : nat) (names : gset string) : handles * storage :=
  (∅, mkStorage (newPool capacityPages) (gset_to_gmap [] names)).

(** The simulation relation. *)
Definition simulates (M : gmap string rows) (st : handles * storage) : Prop :=
  ∃ H : heaps, store_ok H st.2 ∧
    ∀ f rs, M !! f = Some rs → ∃ pages, holds pages rs ∧
      at_heap H f pages (default (heap f) (st.1 !! f), st.2).

Lemma simulates_step M st f op rs :
  simulates M st → M !! f = Some rs → op_ok op →
  ∃ r st' rs', file_call f op st = (r, st') ∧ heap_spec rs op r rs' ∧
    simulates (<[f := rs']> M) st'.
Proof.
  intros (H & Hs & Hfiles) HM Hop. destruct (Hfiles f rs HM) as (pages & Hrs & Hat).
  destruct (heap_call_ok H f pages rs op _ Hat Hrs Hop)
    as (r & pages' & rs' & [h' s'] & Hrun & Hat' & Hrs' & Hspec).
  exists r, (<[f := h']> st.1, s'), rs'. split; [|split; [done|]].
  { unfold file_call, zoom. by rewrite Hrun. }
  exists (<[f := pages']> H). cbn [fst snd]. split; [apply Hat'|]. intros g gs Hg.
  apply lookup_insert_Some in Hg as [[<- <-]|[Hne Hg]].
  { exists pages'. by rewrite lookup_insert_eq. }
  destruct (Hfiles g gs Hg) as (gpages & Hgs & [_ Hp HA Hk]). exists gpages. split; [done|].
  rewrite lookup_insert_ne by done. split; cbn [fst snd]; [apply Hat'|done| |done].
  by rewrite lookup_insert_ne.
Qed.

Lemma empty_store_ok cap names :
  store_ok (gset_to_gmap [] names) (mkStorage (newPool cap) (gset_to_gmap [] names)).
Proof.
  split; [|by intros k fr Hk]. split; cbn.
  - constructor.
  - intros key. rewrite elem_of_nil, lookup_empty. by split; [|intros []].
  - lia.
  - rewrite map_size_empty. lia.
  - intros f pages [Hf <-]%lookup_gset_to_gmap_Some. exists [], 0%nat. cbn.
    split_and!; try done. by apply lookup_gset_to_gmap_Some.
  - intros key fr. by rewrite lookup_empty.
  - intros f [c [Hf _]%lookup_gset_to_gmap_Some]. exists []. by apply lookup_gset_to_gmap_Some.
Qed.

Lemma simulates_empty cap names :
  simulates (gset_to_gmap [] names) (empty_files cap names).
Proof.
  exists (gset_to_gmap [] names). cbn [fst snd empty_files].
  pose proof (empty_store_ok cap names) as Hs.
  split; [done|]. intros f rs [Hf <-]%lookup_gset_to_gmap_Some. exists []. split; [constructor|].
  split; cbn; [done|..]; rewrite ?lookup_empty; try done. by apply lookup_gset_to_gmap_Some.
Qed.

Lemma simulates_run ops : ∀ M st,
  simulates M st → Forall (λ o, o.1 ∈ dom M ∧ op_ok o.2) ops →
  ∃ replies st' M', run_calls ops st = (replies, st') ∧ spec_calls M ops replies M' ∧
    simulates M' st'.
Proof.
  induction ops as [|[f op] ops IH]; intros M st Hsim Hops.
  { exists [], st, M. split_and!; [done|constructor|done]. }
  apply Forall_cons in Hops as [[[rs HM]%elem_of_dom Hop] Hops]. cbn in Hop.
  destruct (simulates_step M st f op rs Hsim HM Hop) as (r & st1 & rs' & Hrun & Hspec & Hsim1).
  destruct (IH _ _ Hsim1) as (replies & st' & M' & Hruns & Hcalls & Hsim').
  { eapply Forall_impl; [exact Hops|]. intros o [Ho ?]. split; [|done].
    apply dom_insert. set_solver. }
  exists (r :: replies), st', M'. cbn [run_calls]. rewrite Hrun, Hruns.
  split_and!; [done| |done]. by eapply calls_cons.
Qed.

(** C12: any sequence of insertions, deletions, updates, reads, scans and mapped
    scans on any number of heap files that share a buffer pool of any capacity
    answers as the files would if each were an ordered map from row identifiers
    to rows of its own: evictions, compactions and rows that move are invisible,
    a mapped scan of the flushed file sees what the pool sees, and the pool ends
    within its capacity with nothing pinned. *)
Theorem heap_files_refine (capacityPages : nat) (names : gset string)
    (ops : list (string * heap_op)) :
  Forall (λ o, o.1 ∈ names ∧ op_ok o.2) ops →
  ∃ replies st M, run_calls ops (empty_files capacityPages names) = (replies, st) ∧
    spec_calls (gset_to_gmap [] names) ops replies M ∧
    (residentPages st.2 ≤ capacityPages_ (pool st.2))%nat ∧ no_pins st.2.
Proof.
  intros Hops. destruct (simulates_run ops _ _ (simulates_empty capacityPages names))
    as (replies & st & M & Hrun & Hspec & H & [Hs Hpins] & _).
  { by rewrite dom_gset_to_gmap. }
  exists replies, st, M. split_and!; try done. apply Hs.
Qed.

Example heap_files_refine_witness :
  let row := mkRowId 0 0 in
  let ops := [("a", Insert [VInteger 7; VText "x"]); ("b", Insert [VNull]);
              ("a", Update row [VInteger 8; VText "longer"]); ("b", Erase row);
              ("a", Scan 10); ("a", MappedScan)] in
  let names : gset string := {["a"; "b"]} in
  Forall (λ o, o.1 ∈ names ∧ op_ok o.2) ops ∧
  ∃ replies st M, run_calls ops (empty_files 1 names) = (replies, st) ∧
    spec_calls (gset_to_gmap [] names) ops replies M ∧
    (residentPages st.2 ≤ capacityPages_ (pool st.2))%nat ∧ no_pins st.2.
Proof.
  intros row ops names.
  assert (Hops : Forall (λ o, o.1 ∈ names ∧ op_ok o.2) ops).
  { unfold ops, names, row. repeat constructor; try set_solver; vm_compute; done. }
  split; [exact Hops | exact (heap_files_refine 1 names ops Hops)].
Defined.

(** The replies of that run. *)
Example heap_run :
  let row := mkRowId 0 0 in
  (run_calls [("a", Insert [VInteger 7; VText "x"]); ("b", Insert [VNull]);
              ("a", Update row [VInteger 8; VText "longer"]); ("b", Erase row);
              ("b", Read row); ("a", MappedScan)] (empty_files 1 {["a"; "b"]})).1 =
  [Ok (Row row); Ok (Row row); Ok (Row row); Ok (Flag true); Ok (Found None);
   Ok (Rows [(row, [VInteger 8; VText "longer"])])].
Proof. vm_compute. reflexivity. Qed.
