(* ===== verification/Store.v ===== *)
(** What the engine needs of its heap files, as an interface: the operations of
    [HeapFile] it calls together with [readFile], [restoreFile] and
    [invalidateFile] around them ([HeapFiles]), and what they promise about the
    rows of each file ([HeapFilesLaws]).  The files of [Heap.v] on the buffer
    pool of [Storage.v] implement it, whatever the capacity of the pool. *)

From S2P Require Import Prelude.
From S2P Require Import Config.
From S2P Require Import Page.
From S2P Require Import Value.
From S2P Require Import Tuple.
From S2P Require Import Storage.
From S2P Require Import Heap.
From S2P Require Import HeapSpec.

(** ** The interface

    [S] is the state of the storage, [F] a [HeapFile] object; an operation of an
    object changes both. *)
Class HeapFiles (S F : Type) : Type := {
  open_heap : string → F;
  heap_scan : action (F * S) (list StoredRow);
  heap_read : RowId → action (F * S) (option StoredRow);
  heap_read_raw : RowId → action (F * S) (option bytes);
  heap_scan_raw : action (F * S) (list (RowId * bytes));
  heap_scan_projected : list nat → action (F * S) (list (list StoredRow));
  heap_insert : Tuple → action (F * S) RowId;
  heap_update : RowId → Tuple → action (F * S) RowId;
  heap_erase : RowId → action (F * S) bool;
  heap_create : action (F * S) ();
  heap_drop : action (F * S) ();
  heap_flush : action (F * S) ();
  file_image : string → S → option bytes;
  restore_image : string → option bytes → action S ();
}.

(** [heap_outcome M f rs op m]: [m] ran on the file [f] of the heap files [M]
    as the specification has it. *)
Definition heap_outcome {S F A} (stores : gmap string rows → S → Prop)
    (attached : string → F → S → Prop) (M : gmap string rows) (f : string) (rs : rows)
    (op : heap_op) (k : A → heap_reply) (m : exec A * (F * S)) : Prop :=
  ∃ r h' s' rs', m = (r, (h', s')) ∧ heap_spec rs op (let* a := r in Ok (k a)) rs' ∧
    stores (<[f := rs']> M) s' ∧ attached f h' s'.

(** The bytes of a row and the row. *)
Definition raw_holds (p : RowId * bytes) (r : RowId * Tuple) : Prop :=
  p.1 = r.1 ∧ decodeTuple p.2 = Ok r.2.

(** The fields of a row in the given columns, and the row with only these. *)
Definition selected (columns : list nat) (t : Tuple) : Tuple := omap (λ c, t !! c) columns.

Definition projected (columns : list nat) (r : RowId * Tuple) : StoredRow :=
  mkStoredRow r.1 (selected columns r.2).

(** [stores M s]: the heap files are those of [M], with these rows in this
    order.  [attached f h s]: the object [h] is up to date with the file [f].
    [image c rs]: the bytes [c] hold the rows [rs]. *)
Class HeapFilesLaws (S F : Type) `{HeapFiles S F} : Type := {
  stores : gmap string rows → S → Prop;
  attached : string → F → S → Prop;
  image : bytes → rows → Prop;
  open_law M f rs s : stores M s → M !! f = Some rs → attached f (open_heap f) s;
  scan_law M f rs h s :
    stores M s → M !! f = Some rs → attached f h s →
    ∃ h' s', heap_scan (h, s) = (Ok (stored <$> rs), (h', s')) ∧ stores M s' ∧
      attached f h' s' ∧ ∀ g k, attached g k s → attached g k s';
  read_law M f rs h s r :
    stores M s → M !! f = Some rs → attached f h s → r ∈ rs.*1 →
    heap_outcome stores attached M f rs (Read r) Found (heap_read r (h, s));
  read_raw_law M f rs h s r t :
    stores M s → M !! f = Some rs → attached f h s → (r, t) ∈ rs →
    ∃ bs h' s', heap_read_raw r (h, s) = (Ok (Some bs), (h', s')) ∧ decodeTuple bs = Ok t ∧
      stores M s' ∧ attached f h' s';
  scan_raw_law M f rs h s :
    stores M s → M !! f = Some rs → attached f h s →
    ∃ raw h' s', heap_scan_raw (h, s) = (Ok raw, (h', s')) ∧ Forall2 raw_holds raw rs ∧
      stores M s' ∧ attached f h' s';
  scan_projected_law M f rs h s columns :
    stores M s → M !! f = Some rs → attached f h s →
    is_sorted columns = true → has_adjacent_equal columns = false →
    (∀ x, x ∈ rs → Forall (λ c, c < length x.2)%nat columns) →
    ∃ parts h' s', heap_scan_projected columns (h, s) = (Ok parts, (h', s')) ∧
      concat parts = projected columns <$> rs ∧ stores M s' ∧ attached f h' s';
  insert_law M f rs h s t :
    stores M s → M !! f = Some rs → attached f h s → Forall scalar t →
    heap_outcome stores attached M f rs (Insert t) Row (heap_insert t (h, s));
  update_law M f rs h s r t :
    stores M s → M !! f = Some rs → attached f h s → r ∈ rs.*1 → Forall scalar t →
    heap_outcome stores attached M f rs (Update r t) Row (heap_update r t (h, s));
  erase_law M f rs h s r :
    stores M s → M !! f = Some rs → attached f h s → r ∈ rs.*1 →
    heap_outcome stores attached M f rs (Erase r) Flag (heap_erase r (h, s));
  create_law M f s :
    stores M s → M !! f = None →
    ∃ h' s', heap_create (open_heap f, s) = (Ok (), (h', s')) ∧ stores (<[f := []]> M) s';
  drop_law M f rs s :
    stores M s → M !! f = Some rs →
    ∃ h' s', heap_drop (open_heap f, s) = (Ok (), (h', s')) ∧ stores (delete f M) s';
  flush_law M f rs h s :
    stores M s → M !! f = Some rs → attached f h s →
    ∃ h' s' c, heap_flush (h, s) = (Ok (), (h', s')) ∧ stores M s' ∧ attached f h' s' ∧
      file_image f s' = Some c ∧ image c rs;
  restore_law M f rs c s :
    stores M s → is_Some (M !! f) → image c rs →
    ∃ s', restore_image f (Some c) s = (Ok (), s') ∧ stores (<[f := rs]> M) s';
  stored_once M f rs s : stores M s → M !! f = Some rs → NoDup rs.*1;
}.

(** ** Forgetting a file *)

(** The pool without the frames of the keys [p] holds for. *)
Definition forgotten (p : PageKey → bool) (s s' : storage) : Prop :=
  (∀ k, frames_ (pool s') !! k = if p k then None else frames_ (pool s) !! k) ∧
  lru_ (pool s') = List.filter (λ k, negb (p k)) (lru_ (pool s)) ∧
  capacityPages_ (pool s') = capacityPages_ (pool s) ∧ files s' = files s.

Lemma invalidate_all_ok keys s :
  no_pins s → NoDup keys → (∀ k, k ∈ keys → is_Some (frames_ (pool s) !! k)) →
  ∃ s', for_each invalidate keys s = (Ok (), s') ∧ no_pins s' ∧
    forgotten (λ k, bool_decide (k ∈ keys)) s s'.
Proof.
  revert s. induction keys as [|key keys IH]; intros s Hpins Hnd Hin.
  { exists s. split; [done|]. split; [done|]. split_and!; try done.
    symmetry. apply filter_true. apply Forall_forall. intros k _.
    by rewrite bool_decide_eq_false_2 by apply not_elem_of_nil. }
  apply NoDup_cons in Hnd as [Hkey Hnd].
  destruct (Hin key (list_elem_of_here _ _)) as [fr Hfr].
  set (s1 := set_frames (delete key) (set_lru (without key) s)).
  destruct (IH s1) as (s' & Hrun & Hpins' & Hframes & Hlru & Hcap & Hfiles).
  { intros k fr' Hk. cbn in Hk. apply lookup_delete_Some in Hk as [_ Hk]. by eapply Hpins. }
  { done. }
  { intros k Hk. cbn. rewrite lookup_delete_ne by (intros ->; done). by apply Hin, list_elem_of_further. }
  exists s'. cbn [for_each]. unfold mbind, action_bind, invalidate at 1.
  unfold unpinned. rewrite Hfr, bool_decide_eq_true_2 by (by eapply Hpins).
  fold (without key). fold s1. split; [done|]. split; [done|]. split_and!.
  - intros k. rewrite Hframes. cbn. destruct (decide (k = key)) as [->|Hne].
    + rewrite lookup_delete_eq, (bool_decide_eq_true_2 (key ∈ key :: keys))
        by apply list_elem_of_here. by case_match.
    + rewrite lookup_delete_ne by done.
      by rewrite (bool_decide_ext (k ∈ key :: keys) (k ∈ keys)) by (rewrite elem_of_cons; tauto).
  - rewrite Hlru. cbn. unfold without. rewrite filter_filter. apply List.filter_ext. intros k.
    rewrite <- negb_orb, <- bool_decide_or. f_equal. apply bool_decide_ext.
    rewrite elem_of_cons. tauto.
  - done.
  - done.
Qed.

Lemma resident_keys_NoDup s : NoDup (resident_keys s).
Proof. apply NoDup_fst_map_to_list. Qed.

Lemma file_keys_NoDup f s : NoDup (file_keys f s).
Proof. apply NoDup_ListNoDup, List.NoDup_filter, NoDup_ListNoDup, resident_keys_NoDup. Qed.

Lemma invalidateFile_ok f s :
  no_pins s → NoDup (lru_ (pool s)) →
  (∀ key, key ∈ lru_ (pool s) ↔ is_Some (frames_ (pool s) !! key)) →
  ∃ s', invalidateFile f s = (Ok (), s') ∧ no_pins s' ∧
    forgotten (λ k, bool_decide (k.1 = f)) s s'.
Proof.
  intros Hpins Hnd Hlru.
  destruct (invalidate_all_ok (file_keys f s) s Hpins (file_keys_NoDup f s))
    as (s' & Hrun & Hpins' & Hframes & Hl & Hcap & Hfiles).
  { intros k Hk%elem_of_file_keys. tauto. }
  exists s'. split; [done|]. split; [done|]. split_and!; try done.
  - intros k. rewrite Hframes. destruct (frames_ (pool s) !! k) eqn:Hk.
    + rewrite (bool_decide_ext (k ∈ file_keys f s) (k.1 = f)); [done|].
      rewrite elem_of_file_keys, Hk. naive_solver.
    + by do 2 case_match.
  - rewrite Hl. apply List.filter_ext_in. intros k Hk%list_elem_of_In%Hlru. f_equal.
    apply bool_decide_ext. rewrite elem_of_file_keys. tauto.
Qed.

(** ** Replacing a file under the pool *)

Definition disk_pages (c : bytes) (pages : list directory) : Prop :=
  length c = (length pages * PAGE)%nat ∧
  ∀ n d, pages !! n = Some d → page_ok (page_of_file c (Z.of_nat n)) d.

(** The file [f] is put in the state [o]: gone, or with these bytes. *)
Lemma replace_file_ok A s s' f (o : option (bytes * list directory)) :
  storage_ok (λ _, True) A s → forgotten (λ k, bool_decide (k.1 = f)) s s' →
  (∀ c pages, o = Some (c, pages) → disk_pages c pages) →
  storage_ok (λ _, True) (partial_alter (λ _, snd <$> o) f A)
    (set_files (partial_alter (λ _, fst <$> o) f) s').
Proof.
  intros [Hnd Hlru Hcap Hroom Hfiles Hframes Hknown] (Hfr & Hl & Hc & Hd) Ho.
  split; cbn [pool files set_files].
  - rewrite Hl. by apply NoDup_ListNoDup, List.NoDup_filter, NoDup_ListNoDup.
  - intros key. rewrite Hl, list_elem_of_In, List.filter_In, <- list_elem_of_In, Hlru, Hfr.
    case_bool_decide; cbn; [|naive_solver]. split; [naive_solver|by intros []].
  - by rewrite Hc.
  - rewrite Hc. etrans; [|exact Hroom]. apply map_subseteq_size, map_subseteq_spec.
    intros k fr. rewrite Hfr.
    by case_bool_decide.
  - intros g gpages Hg. destruct (decide (g = f)) as [->|Hne].
    + rewrite lookup_partial_alter_eq in Hg. destruct o as [[c pages]|]; [|done].
      injection Hg as <-. destruct (Ho c pages eq_refl) as [Hlen Hpages].
      exists c, (length pages). cbn. rewrite lookup_partial_alter_eq. split_and!; try done.
      intros n d Hn. rewrite Hfr. cbn. rewrite bool_decide_eq_true_2 by done. by apply Hpages.
    + rewrite lookup_partial_alter_ne in Hg by done.
      eapply file_ok_other; [..|by apply Hfiles]; cbn.
      * rewrite lookup_partial_alter_ne by done. by rewrite Hd.
      * intros n. rewrite Hfr. cbn. by rewrite bool_decide_eq_false_2.
  - intros key fr Hk. rewrite Hfr in Hk. case_bool_decide as Hf; [done|].
    destruct (Hframes key fr Hk) as (pages & n & HA & ?). exists pages, n.
    by rewrite lookup_partial_alter_ne.
  - intros g Hg. destruct (decide (g = f)) as [->|Hne].
    + pose proof (lookup_partial_alter_eq (M:=gmap string) (λ _ : option bytes, fst <$> o) (files s') f) as Heq.
      rewrite Heq in Hg. rewrite lookup_partial_alter_eq. destruct o; [by eexists|by destruct Hg].
    + pose proof (lookup_partial_alter_ne (M:=gmap string) (λ _ : option bytes, fst <$> o) (files s') f g
        (not_eq_sym Hne)) as Heq.
      rewrite Heq, Hd in Hg. rewrite lookup_partial_alter_ne by done. by apply Hknown.
Qed.

Lemma no_pins_files g s : no_pins s → no_pins (set_files g s).
Proof. done. Qed.

(** A file that does not exist has no frames. *)
Lemma forgotten_none E A s f :
  storage_ok E A s → A !! f = None → forgotten (λ k, bool_decide (k.1 = f)) s s.
Proof.
  intros [_ Hlru _ _ _ Hframes _] Hf.
  assert (Hnone : ∀ k : PageKey, k.1 = f → frames_ (pool s) !! k = None).
  { intros k Hk. destruct (frames_ (pool s) !! k) as [fr|] eqn:Hfr; [|done].
    destruct (Hframes k fr Hfr) as (pages & _ & HA & _). congruence. }
  split_and!; try done.
  - intros k. case_bool_decide; [by apply Hnone|done].
  - symmetry. apply filter_true, Forall_forall. intros k Hk%Hlru. case_bool_decide as Hf'; [|done].
    rewrite (Hnone k Hf') in Hk. by destruct Hk.
Qed.

(** ** The heap files implement the interface *)

Section implementation.
  (** [vectorBatchRows()], at least one. *)
  Context (batchRows : nat) (Hbatch : (0 < batchRows)%nat).

#[local] Instance heap_files : HeapFiles storage HeapFile := {
  open_heap := heap;
  heap_scan := scan batchRows;
  heap_read := read;
  heap_read_raw := readRawRow;
  heap_scan_raw := scanRawRows;
  heap_scan_projected columns := scanProjectedBatches columns batchRows;
  heap_insert := insert;
  heap_update := update;
  heap_erase := erase;
  heap_create := create;
  heap_drop := drop_file;
  heap_flush := flush_heap;
  file_image f s := files s !! f;
  restore_image f content :=
    _ ← invalidateFile f;
    modify (set_files (partial_alter (λ _, content) f));
}.

Definition stores_rows (M : gmap string rows) (s : storage) : Prop :=
  ∃ H : heaps, store_ok H s ∧
    ∀ f, match M !! f with
         | Some rs => ∃ pages, H !! f = Some pages ∧ holds pages rs
         | None => H !! f = None
         end.

Definition up_to_date (f : string) (h : HeapFile) (s : storage) : Prop :=
  path_ h = f ∧ ∀ n, knownPageCount_ h = Some n → n = file_pages s f.

Definition holds_image (c : bytes) (rs : rows) : Prop :=
  ∃ pages, disk_pages c pages ∧ holds pages rs.

Lemma stores_at_heap M f rs h s :
  stores_rows M s → M !! f = Some rs → up_to_date f h s →
  ∃ H pages, at_heap H f pages (h, s) ∧ holds pages rs ∧
    ∀ g, match M !! g with
         | Some rs => ∃ pages, H !! g = Some pages ∧ holds pages rs
         | None => H !! g = None
         end.
Proof.
  intros (H & Hs & HM) Hf [Hp Hk]. pose proof (HM f) as Hfile. rewrite Hf in Hfile.
  destruct Hfile as (pages & HA & Hrs). exists H, pages. split; [|done]. split; try done.
  intros n Hn. rewrite <- (file_pages_ok H s f pages) by done. by apply Hk.
Qed.

Lemma at_heap_up_to_date H f pages h s : at_heap H f pages (h, s) → up_to_date f h s.
Proof.
  intros [Hs Hp HA Hk]. cbn in *. split; [done|]. intros n Hn.
  rewrite (file_pages_ok H s f pages) by done. by apply Hk.
Qed.

Lemma at_heap_stores M H f pages rs h s :
  at_heap (<[f := pages]> H) f pages (h, s) → holds pages rs →
  (∀ g, g ≠ f → match M !! g with
         | Some rs => ∃ pages, H !! g = Some pages ∧ holds pages rs
         | None => H !! g = None
         end) →
  stores_rows (<[f := rs]> M) s.
Proof.
  intros [Hs _ HA _] Hrs HM. exists (<[f := pages]> H). split; [done|]. intros g.
  destruct (decide (g = f)) as [->|Hne]; [rewrite lookup_insert_eq; eauto|].
  rewrite !lookup_insert_ne by done. by apply HM.
Qed.

Lemma outcome_stores {A} M H f rs h s op (m : heap_action A) (k : A → heap_reply) P :
  (∀ g, match M !! g with
         | Some rs => ∃ pages, H !! g = Some pages ∧ holds pages rs
         | None => H !! g = None
         end) →
  outcome H f rs (m (h, s)) P →
  (∀ r rs', P r rs' → heap_spec rs op (let* a := r in Ok (k a)) rs') →
  heap_outcome stores_rows up_to_date M f rs op k (m (h, s)).
Proof.
  intros HM (r & pages & rs' & [h' s'] & Hrun & Hat & Hrs & HP) Hspec.
  exists r, h', s', rs'. split; [done|]. split; [by apply Hspec|]. split.
  - eapply at_heap_stores; [done..|]. intros g _. apply HM.
  - by eapply at_heap_up_to_date.
Qed.

Lemma same_pages H s s' :
  store_ok H s → store_ok H s' → ∀ g k, up_to_date g k s → up_to_date g k s'.
Proof.
  intros Hs Hs' g k [Hp Hk]. split; [done|]. intros n Hn. rewrite (Hk n Hn).
  destruct (H !! g) as [pages|] eqn:Hg.
  - by rewrite (file_pages_ok H s g pages), (file_pages_ok H s' g pages).
  - assert (Hnone : ∀ s, store_ok H s → files s !! g = None).
    { intros s0 [[_ _ _ _ _ _ Hknown] _]. destruct (files s0 !! g) eqn:E; [|done].
      destruct (Hknown g) as [? ?]; [eauto|congruence]. }
    unfold file_pages. by rewrite !Hnone.
Qed.

Lemma stores_replace M H s s1 f (o : option (bytes * list directory * rows)) :
  store_ok H s → (∀ g, g ≠ f → match M !! g with
         | Some rs => ∃ pages, H !! g = Some pages ∧ holds pages rs
         | None => H !! g = None
         end) →
  no_pins s1 → forgotten (λ k, bool_decide (k.1 = f)) s s1 →
  (∀ c pages rs, o = Some (c, pages, rs) → disk_pages c pages ∧ holds pages rs) →
  stores_rows (partial_alter (λ _, snd <$> o) f M)
    (set_files (partial_alter (λ _, (λ x, x.1.1) <$> o) f) s1).
Proof.
  intros [Hs _] HM Hpins Hforgot Ho.
  pose proof (replace_file_ok H s s1 f (fst <$> o) Hs Hforgot) as Hnew.
  rewrite <- !option_fmap_compose in Hnew. exists (partial_alter (λ _, snd <$> (fst <$> o)) f H).
  split; [split; [|done]|].
  - rewrite <- option_fmap_compose. apply Hnew. intros c pages. destruct o as [[[c' pages'] rs]|]; [|done].
    cbn. intros [= -> ->]. by apply (Ho c pages rs).
  - intros g. destruct (decide (g = f)) as [->|Hne].
    + rewrite !lookup_partial_alter_eq. destruct o as [[[c pages] rs]|]; cbn; [|done].
      exists pages. split; [done|]. by apply (Ho c pages rs).
    + rewrite !lookup_partial_alter_ne by done. by apply HM.
Qed.

Lemma heap_create_ok M f s :
  stores_rows M s → M !! f = None →
  ∃ h' s', create (heap f, s) = (Ok (), (h', s')) ∧ stores_rows (<[f := []]> M) s'.
Proof.
  intros (H & Hs & HM) Hf. pose proof (HM f) as Hnone. rewrite Hf in Hnone.
  pose proof Hs as [Hsk Hpins]. eexists _, _. split.
  - unfold create, exists_, gets, mbind, action_bind. cbn [heap path_ fst snd].
    destruct (files s !! f) as [c|] eqn:Hc.
    { destruct (so_known _ _ _ Hsk f) as [? ?]; [eauto|congruence]. }
    rewrite bool_decide_eq_false_2 by (by intros []). reflexivity.
  - cbn. apply (stores_replace M H s s f (Some ([], [], []))); try done.
    + intros g _. apply HM.
    + by eapply forgotten_none.
    + intros c pages rs [= <- <- <-]. split; [by split|constructor].
Qed.

(** Dropping a file or putting other bytes in its place. *)
Lemma invalidate_then M f s (o : option (bytes * list directory * rows)) :
  stores_rows M s →
  (∀ c pages rs, o = Some (c, pages, rs) → disk_pages c pages ∧ holds pages rs) →
  ∃ s', invalidateFile f s = (Ok (), s') ∧
    stores_rows (partial_alter (λ _, snd <$> o) f M)
      (set_files (partial_alter (λ _, (λ x, x.1.1) <$> o) f) s').
Proof.
  intros (H & [Hs Hpins] & HM) Ho.
  destruct (invalidateFile_ok f s Hpins (so_nodup _ _ _ Hs) (so_lru _ _ _ Hs))
    as (s' & Hrun & Hpins' & Hforgot).
  exists s'. split; [done|]. apply (stores_replace M H s s' f o); try done. intros g _. apply HM.
Qed.

Lemma heap_drop_ok M f rs s :
  stores_rows M s → M !! f = Some rs →
  ∃ h' s', drop_file (heap f, s) = (Ok (), (h', s')) ∧ stores_rows (delete f M) s'.
Proof.
  intros (H & [Hs Hpins] & HM) Hf.
  destruct (flushFile_ok _ H s f Hs) as (s1 & Hflush & Hs1 & Hsame & _).
  apply (storage_weaken _ (λ _, True)) in Hs1; [|by auto].
  destruct (invalidate_then M f s1 None) as (s2 & Hinv & Hst); [|done|].
  { exists H. split; [|done]. split; [done|]. by eapply same_frames_no_pins. }
  eexists _, _. split; [|exact Hst]. unfold drop_file.
  rewrite (bind_run (gets fst) _ (heap f, s) (heap f) (heap f, s)) by done. cbn [path_ heap].
  rewrite (bind_run _ _ _ _ _ (on_storage_run _ (heap f) s _ _ Hflush)).
  rewrite (bind_run _ _ _ _ _ (on_storage_run _ (heap f) s1 _ _ Hinv)). reflexivity.
Qed.

Lemma heap_flush_ok M f rs h s :
  stores_rows M s → M !! f = Some rs → up_to_date f h s →
  ∃ h' s' c, flush_heap (h, s) = (Ok (), (h', s')) ∧ stores_rows M s' ∧ up_to_date f h' s' ∧
    files s' !! f = Some c ∧ holds_image c rs.
Proof.
  intros Hst Hf Hh. destruct (stores_at_heap M f rs h s Hst Hf Hh) as (H & pages & Hat & Hrs & HM).
  destruct (flush_heap_ok H f pages h s Hat) as (s' & c & Hrun & Hat' & Hc & Hlen & Hpages).
  exists h, s', c. split; [done|]. split; [|split; [by eapply at_heap_up_to_date|split; [done|]]].
  - exists H. split; [apply Hat'|done].
  - exists pages. split; [|done]. split; [|done]. pose proof Hat' as [[Hs _] _ HA _]. cbn in Hs.
    destruct (so_files _ _ _ Hs f pages HA) as (c' & k & Hc' & Hl & _ & Hk & _).
    rewrite Hc in Hc'. injection Hc' as <-. by rewrite Hl, (Hk I).
Qed.

Lemma heap_scan_ok M f rs h s :
  stores_rows M s → M !! f = Some rs → up_to_date f h s →
  ∃ h' s', scan batchRows (h, s) = (Ok (stored <$> rs), (h', s')) ∧ stores_rows M s' ∧
    up_to_date f h' s' ∧ ∀ g k, up_to_date g k s → up_to_date g k s'.
Proof.
  intros Hst Hf Hh. destruct (stores_at_heap M f rs h s Hst Hf Hh) as (H & pages & Hat & Hrs & HM).
  destruct (holds_decodes _ _ Hrs) as [Hdec Heq].
  destruct (scan_all_ok decodeTuple dec_row H f pages (h, s) Hat Hdec) as ([h' s'] & Hrun & Hat').
  exists h', s'. split; [|split; [|split]].
  - unfold scan. rewrite (bind_run _ _ (h, s) (batches batchRows [] (stored <$> rs)) (h', s')).
    + destruct (batches_ok batchRows (stored <$> rs) []) as (Hc & _); [cbn; lia|].
      unfold mret, action_ret. by rewrite Hc.
    + unfold scanBatches. rewrite decide_False by lia. rewrite (bind_run _ _ _ _ _ Hrun).
      by rewrite Heq.
  - exists H. split; [apply Hat'|done].
  - by eapply at_heap_up_to_date.
  - apply (same_pages H); [apply Hat|apply Hat'].
Qed.

Lemma holds_rid pages rs r : holds pages rs → r ∈ rs.*1 → rid_ok r.
Proof.
  intros Hrs Hr. rewrite <- (row_holds_fst _ _ Hrs) in Hr.
  apply list_elem_of_fmap in Hr as ([r' row] & -> & Hin). apply row_at_rows in Hin.
  unfold row_at in Hin. by case_decide.
Qed.

Lemma heap_read_raw_ok M f rs h s r t :
  stores_rows M s → M !! f = Some rs → up_to_date f h s → (r, t) ∈ rs →
  ∃ bs h' s', readRawRow r (h, s) = (Ok (Some bs), (h', s')) ∧ decodeTuple bs = Ok t ∧
    stores_rows M s' ∧ up_to_date f h' s'.
Proof.
  intros Hst Hf Hh Hin.
  destruct (stores_at_heap M f rs h s Hst Hf Hh) as (H & pages & Hat & Hrs & HM).
  assert (Hr : r ∈ rs.*1) by (by apply (list_elem_of_fmap_2 fst _ (r, t))).
  destruct (readRawRow_ok H f pages h s r Hat (holds_rid _ _ _ Hrs Hr)) as (s' & Hrun & Hat').
  pose proof (holds_row_at _ _ r Hrs) as Hrow. destruct (row_at pages r) as [bs|]; [|done].
  destruct Hrow as (t' & Hin' & Hkept). exists bs, h, s'. split; [done|]. split.
  - rewrite (kept_decodes t' bs Hkept). f_equal.
    assert (Hnd : NoDup rs.*1) by (rewrite <- (row_holds_fst _ _ Hrs); apply heap_rows_NoDup).
    exact (f_equal snd (rows_same rs (r, t') (r, t) Hnd Hin' Hin eq_refl)).
  - split; [exists H; split; [apply Hat'|done]|by eapply at_heap_up_to_date].
Qed.

Lemma heap_scan_raw_ok M f rs h s :
  stores_rows M s → M !! f = Some rs → up_to_date f h s →
  ∃ raw h' s', scanRawRows (h, s) = (Ok raw, (h', s')) ∧ Forall2 raw_holds raw rs ∧
    stores_rows M s' ∧ up_to_date f h' s'.
Proof.
  intros Hst Hf Hh.
  destruct (stores_at_heap M f rs h s Hst Hf Hh) as (H & pages & Hat & Hrs & HM).
  destruct (scan_all_ok Ok id H f pages (h, s) Hat) as ([h' s'] & Hrun & Hat').
  { by apply Forall_forall. }
  exists (decoded id <$> heap_rows pages), h', s'. split; [exact Hrun|]. split.
  - apply Forall2_fmap_l. eapply Forall2_impl; [exact Hrs|]. intros [r bs] [r' t] [Heq Hk].
    split; [done|]. by apply kept_decodes.
  - split; [exists H; split; [apply Hat'|done]|by eapply at_heap_up_to_date].
Qed.

Lemma decodes_selected columns t bs :
  decodeTuple bs = Ok t → is_sorted columns = true → has_adjacent_equal columns = false →
  Forall (λ c, c < length t)%nat columns →
  decodeTupleProjected bs columns = Ok (selected columns t).
Proof.
  intros Hdec Hs Ha Hc. destruct (decide (columns = [])) as [->|Hne]; [done|].
  destruct (decodeTupleProjected_selects bs t columns Hdec Hne Hs Ha Hc) as (vs & Hvs & Hsel).
  rewrite Hvs. f_equal. clear -Hsel. unfold selected.
  induction Hsel as [|c v columns vs Hv _ IH]; [done|]. cbn. by rewrite Hv, IH.
Qed.

Definition dec_selected (columns : list nat) (bs : bytes) : Tuple := selected columns (dec_row bs).

Lemma holds_selected columns l rs :
  Forall2 row_holds l rs →
  is_sorted columns = true → has_adjacent_equal columns = false →
  (∀ x, x ∈ rs → Forall (λ c, c < length x.2)%nat columns) →
  decodes (λ bs, decodeTupleProjected bs columns) (dec_selected columns) l ∧
  stored <$> (decoded (dec_selected columns) <$> l) = projected columns <$> rs.
Proof.
  intros Hrs Hsort Hadj.
  induction Hrs as [|[r bs] [r' t] l rs [Heq Hk] _ IH]; intros Hwide; [by split; constructor|].
  cbn in Heq, Hk. subst r'. pose proof (kept_decodes t bs Hk) as Hd.
  destruct IH as [IH1 IH2]; [intros x Hx; by apply Hwide, list_elem_of_further|].
  assert (Hrow : dec_row bs = t) by (unfold dec_row; by rewrite Hd).
  split.
  - constructor; [|done]. unfold dec_selected. cbn [snd]. rewrite Hrow.
    apply decodes_selected; [done..|]. apply (Hwide (r, t)), list_elem_of_here.
  - rewrite !fmap_cons, IH2. f_equal. unfold decoded, dec_selected, stored, projected. cbn [fst snd].
    by rewrite Hrow.
Qed.

Lemma heap_scan_projected_ok M f rs h s columns :
  stores_rows M s → M !! f = Some rs → up_to_date f h s →
  is_sorted columns = true → has_adjacent_equal columns = false →
  (∀ x, x ∈ rs → Forall (λ c, c < length x.2)%nat columns) →
  ∃ parts h' s', scanProjectedBatches columns batchRows (h, s) = (Ok parts, (h', s')) ∧
    concat parts = projected columns <$> rs ∧ stores_rows M s' ∧ up_to_date f h' s'.
Proof.
  intros Hst Hf Hh Hsort Hadj Hwide.
  destruct (stores_at_heap M f rs h s Hst Hf Hh) as (H & pages & Hat & Hrs & HM).
  destruct (holds_selected columns (heap_rows pages) rs Hrs Hsort Hadj Hwide) as [Hdec Heq].
  destruct (scan_all_ok (λ bs, decodeTupleProjected bs columns) (dec_selected columns) H f pages (h, s) Hat Hdec)
    as ([h' s'] & Hrun & Hat').
  exists (batches batchRows [] (projected columns <$> rs)), h', s'. split; [|split; [|split]].
  - unfold scanProjectedBatches. rewrite decide_False by lia. rewrite Hsort, Hadj. cbn [negb orb].
    rewrite (bind_run _ _ _ _ _ Hrun). by rewrite Heq.
  - destruct (batches_ok batchRows (projected columns <$> rs) []) as (Hc & _); [cbn; lia|]. done.
  - exists H. split; [apply Hat'|done].
  - by eapply at_heap_up_to_date.
Qed.

#[local] Instance heap_files_laws : HeapFilesLaws storage HeapFile.
Proof.
  refine {| stores := stores_rows; attached := up_to_date; image := holds_image |}.
  - done.
  - exact heap_scan_ok.
  - intros M f rs h s r Hst Hf Hh Hr.
    destruct (stores_at_heap M f rs h s Hst Hf Hh) as (H & pages & Hat & Hrs & HM).
    eapply outcome_stores; [done|by eapply read_outcome, holds_rid|].
    intros row rs' [-> [(t & Hin & ->)|[Hnot ->]]]; by constructor.
  - exact heap_read_raw_ok.
  - exact heap_scan_raw_ok.
  - exact heap_scan_projected_ok.
  - intros M f rs h s t Hst Hf Hh Ht.
    destruct (stores_at_heap M f rs h s Hst Hf Hh) as (H & pages & Hat & Hrs & HM).
    eapply outcome_stores; [done|by eapply insert_outcome|]. by apply insert_spec_of.
  - intros M f rs h s r t Hst Hf Hh Hr Ht.
    destruct (stores_at_heap M f rs h s Hst Hf Hh) as (H & pages & Hat & Hrs & HM).
    eapply outcome_stores; [done|by eapply update_outcome; [..|eapply holds_rid|]|]. done.
  - intros M f rs h s r Hst Hf Hh Hr.
    destruct (stores_at_heap M f rs h s Hst Hf Hh) as (H & pages & Hat & Hrs & HM).
    eapply outcome_stores; [done|by eapply erase_outcome, holds_rid|]. apply erase_spec_of.
  - exact heap_create_ok.
  - exact heap_drop_ok.
  - exact heap_flush_ok.
  - intros M f rs c s Hst _ (pages & Hc & Hrs).
    destruct (invalidate_then M f s (Some (c, pages, rs))) as (s' & Hrun & Hst'); [done| |].
    { by intros ??? [= <- <- <-]. }
    eexists. split; [|exact Hst']. cbn. unfold mbind, action_bind. by rewrite Hrun.
  - intros M f rs s (H & _ & HM) Hf. specialize (HM f). rewrite Hf in HM.
    destruct HM as (pages & _ & Hrs). rewrite <- (row_holds_fst _ _ Hrs). apply heap_rows_NoDup.
Defined.
End implementation.
