(* ===== verification/Engine.v ===== *)
(** The native engine's data definition and manipulation
    ([src/native_engine.cpp]): [executeCreate], [executeDrop], [executeInsert],
    [executeUpdate], [executeDelete], [scanTable], [primaryIndex],
    [lookupPrimaryKey] and the validation of rows.  The engine works on the heap
    files of [Store.v], whatever implements them.

    The name of a table stands for the path of its file.  The counters of
    [NativeEngineStats], the cache [mappedHeaps_], the log records of
    [recordWalBefore] and the writing of the catalog file are not modelled: the
    log is the subject of [Wal.v], the cache [tableStatistics_] of [Stats.v], and
    the handlers that only a failure of the catalog file can reach are left out. *)

From S2P Require Import Prelude.
From S2P Require Import Format.
From S2P Require Import Value.
From S2P Require Import Tuple.
From S2P Require Import Ast.
From S2P Require Import Catalog.
From S2P Require Import Eval.
From S2P Require Import Select.
From S2P Require Import BTree.
From S2P Require Import HeapSpec.
From S2P Require Import Store.

#[local] Open Scope string_scope.

(** What a statement reports: [NativeQueryResult] without a result set. *)
Record NativeQueryResult : Type := mkResult {
  rowsAffected : nat;
  message : string;
}.

Definition no_result : NativeQueryResult := mkResult 0 "".

Record ScanRow : Type := mkScanRow { sc_id : RowId; sc_row : EvalRow }.

Section Engine.
Context {D F : Type} `{HeapFiles D F}.

Record engine : Type := mkEngine {
  catalog_ : Catalog;
  storage_ : D;
  primaryIndexes_ : gmap string BPlusTree;
}.

Definition set_catalog (f : Catalog → Catalog) : action engine () :=
  modify (λ e, mkEngine (f (catalog_ e)) (storage_ e) (primaryIndexes_ e)).
Definition set_indexes (f : gmap string BPlusTree → gmap string BPlusTree) : action engine () :=
  modify (λ e, mkEngine (catalog_ e) (storage_ e) (f (primaryIndexes_ e))).

Definition on_files {A} (m : action D A) : action engine A :=
  zoom storage_ (λ s e, mkEngine (catalog_ e) s (primaryIndexes_ e)) m.

(** A call on the [HeapFile] object [file]; also the object afterwards. *)
Definition on_heap {A} (file : F) (m : action (F * D) A) : action engine (A * F) := λ e,
  let '(r, (file, s)) := m (file, storage_ e) in
  (let* a := r in Ok (a, file), mkEngine (catalog_ e) s (primaryIndexes_ e)).

(** A table's name is safe to be the name of a file. *)
Definition safe_name (table : string) : bool :=
  forallb (λ ch, isalnum ch || bool_decide (ch = "_"%char)) (String.list_ascii_of_string table).

Definition tablePath (table : string) : exec string :=
  if safe_name table then Ok table else Err (Throw ("Unsafe table name: " +:+ table)).

Definition heap (table : string) : exec F :=
  let* path := tablePath table in Ok (open_heap path).

Definition known_table (table : string) : action engine TableMeta :=
  c ← gets catalog_;
  match getTable c table with
  | Some metadata => mret metadata
  | None => raise (Throw ("Unknown table: " +:+ table))
  end.

(** [heap(table).scan()] *)
Definition scan_heap (table : string) : action engine (list StoredRow) :=
  file ← lift (heap table);
  r ← on_heap file heap_scan;
  mret r.1.

Definition bind_rows (table : string) (width : nat) (cols : list BoundColumn)
    : list StoredRow → exec (list ScanRow) :=
  fix go rows :=
    match rows with
    | [] => Ok []
    | row :: rows =>
        if decide (length (storedValues row) ≠ width) then
          Err (Throw ("Tuple/schema width mismatch in " +:+ table))
        else
          let* rest := go rows in
          Ok (mkScanRow (storedId row) (mkRow (Some cols) (storedValues row)) :: rest)
    end.

Definition scanTable (table alias : string) : action engine (list ScanRow) :=
  metadata ← known_table table;
  rows ← scan_heap table;
  c ← gets catalog_;
  cols ← lift (boundSchema c table alias);
  lift (bind_rows table (length (t_columns metadata)) cols rows).

(** ** The primary index *)

Definition is_primary (column : ColumnMeta) : bool := cm_primary_key column.

(** [std::find_if(columns.begin(), columns.end(), p)] as a position. *)
Fixpoint column_position (p : ColumnMeta → bool) (columns : list ColumnMeta) : option nat :=
  match columns with
  | [] => None
  | column :: columns => if p column then Some O else S <$> column_position p columns
  end.

Definition named (name : string) (column : ColumnMeta) : bool := bool_decide (cm_name column = name).

Fixpoint build_index (position : nat) (index : BPlusTree) (rows : list StoredRow)
    : exec BPlusTree :=
  match rows with
  | [] => Ok index
  | row :: rows =>
      let* key := nth_value (storedValues row) position in
      let* index := BTree.insert index key (storedId row) in
      build_index position index rows
  end.

(** The default order of a [BPlusTree]. *)
Definition defaultMaxKeys : nat := 32.

Definition primaryIndex (table : string) : action engine BPlusTree :=
  indexes ← gets primaryIndexes_;
  match indexes !! table with
  | Some index => mret index
  | None =>
      metadata ← known_table table;
      match column_position is_primary (t_columns metadata) with
      | None => raise (Throw ("Table has no primary key index: " +:+ table))
      | Some position =>
          rows ← scan_heap table;
          index ← lift (build_index position (newTree defaultMaxKeys) rows);
          _ ← set_indexes (λ indexes, <[table := index]> indexes);
          mret index
      end
  end.

(** [primaryIndex(table).insert(key, row)] *)
Definition index_row (table : string) (key : Value) (row : RowId) : action engine () :=
  index ← primaryIndex table;
  index ← lift (BTree.insert index key row);
  set_indexes (λ indexes, <[table := index]> indexes).

(** The index may name a row that is gone; it is then built anew. *)
Fixpoint lookupPrimaryKey (fuel : nat) (table alias : string) (key : Value)
    : action engine (list ScanRow) :=
  match fuel with
  | O => raise (Undefined "unbounded recursion")
  | S fuel =>
      metadata ← known_table table;
      index ← primaryIndex table;
      found ← lift (BTree.find index key);
      match found with
      | None => mret []
      | Some rowId =>
          file ← lift (heap table);
          r ← on_heap file (heap_read rowId);
          match r.1 with
          | None =>
              _ ← set_indexes (λ indexes, delete table indexes);
              lookupPrimaryKey fuel table alias key
          | Some row =>
              c ← gets catalog_;
              cols ← lift (boundSchema c table alias);
              mret [mkScanRow (storedId row) (mkRow (Some cols) (storedValues row))]
          end
      end
  end.

(** ** Validation of a row *)

Definition is_integer_type (t : string) : bool := (t =? "INTEGER") || (t =? "INT").
Definition is_real_type (t : string) : bool := (t =? "REAL") || (t =? "FLOAT") || (t =? "DOUBLE").
Definition is_text_type (t : string) : bool := (t =? "TEXT") || (t =? "VARCHAR") || (t =? "STRING").

Definition coerceValue (column : ColumnMeta) (value : Value) : exec Value :=
  if isNull value then Ok value
  else
    let type := upper (cm_type column) in
    if is_integer_type type then
      if isNumeric value then let* z := asInteger value in Ok (VInteger z)
      else Err (Throw ("Expected INTEGER for " +:+ cm_name column))
    else if is_real_type type then
      if isNumeric value then let* d := asReal value in Ok (VReal d)
      else Err (Throw ("Expected REAL for " +:+ cm_name column))
    else if is_text_type type then Ok (VText (toString value))
    else if type =? "BLOB" then
      if decide (Value.type value = Blob) then Ok value
      else Err (Throw ("Expected BLOB for " +:+ cm_name column))
    else Err (Throw ("Unsupported column type: " +:+ cm_type column)).

Fixpoint coerce_values (columns : list ColumnMeta) (tuple : Tuple) : exec Tuple :=
  match columns, tuple with
  | column :: columns, value :: tuple =>
      let* value := coerceValue column value in
      if (cm_not_null column || cm_primary_key column) && isNull value then
        Err (Throw ("NULL violates constraint on " +:+ cm_name column))
      else
        let* rest := coerce_values columns tuple in
        Ok (value :: rest)
  | _, _ => Ok []
  end.

(** [row.values[position] == value] in some row of the scan, [row.id] not being
    [except]. *)
Fixpoint scan_has (except : option RowId) (position : nat) (value : Value)
    (rows : list StoredRow) : exec bool :=
  match rows with
  | [] => Ok false
  | row :: rows =>
      if bool_decide (except = Some (storedId row)) then scan_has except position value rows
      else
        let* v := nth_value (storedValues row) position in
        if value_eqb v value then Ok true else scan_has except position value rows
  end.

(** One column of the key loop of [validateAndCoerce]. *)
Definition check_key (table : TableMeta) (tuple : Tuple) (replacing : option RowId)
    (column : nat) : action engine () :=
  key ← lift (nth_value tuple column);
  duplicate ←
    match replacing with
    | None =>
        index ← primaryIndex (t_name table);
        found ← lift (BTree.find index key);
        mret (bool_decide (is_Some found))
    | Some row =>
        rows ← scan_heap (t_name table);
        lift (scan_has (Some row) column key rows)
    end;
  if (duplicate : bool) then
    raise (Throw ("Duplicate primary key for table " +:+ t_name table))
  else mret ().

(** The numbers of the columns [p] holds for. *)
Fixpoint columns_where (p : ColumnMeta → bool) (index : nat) (columns : list ColumnMeta)
    : list nat :=
  match columns with
  | [] => []
  | column :: columns =>
      if p column then index :: columns_where p (S index) columns
      else columns_where p (S index) columns
  end.

(** One column of [validateForeignKeys]. *)
Definition check_reference (table : TableMeta) (tuple : Tuple) (index : nat)
    : action engine () :=
  match t_columns table !! index with
  | None => mret ()
  | Some column =>
      value ← lift (nth_value tuple index);
      if isNull value then mret ()
      else
        c ← gets catalog_;
        match getTable c (cm_fk_table column) with
        | None => raise (Throw ("Foreign key table does not exist: " +:+ cm_fk_table column))
        | Some foreign =>
            match column_position (named (cm_fk_col column)) (t_columns foreign) with
            | None => raise (Throw ("Foreign key column does not exist: " +:+ cm_fk_col column))
            | Some position =>
                rows ← scan_heap (t_name foreign);
                found ← lift (scan_has None position value rows);
                if (found : bool) then mret ()
                else raise (Throw ("Foreign key constraint failed on " +:+ cm_name column))
            end
        end
  end.

Definition is_foreign (column : ColumnMeta) : bool := negb (cm_fk_table column =? "").

Definition validateForeignKeys (table : TableMeta) (tuple : Tuple) : action engine () :=
  for_each (check_reference table tuple) (columns_where is_foreign 0 (t_columns table)).

Definition validateAndCoerce (table : TableMeta) (tuple : Tuple) (replacing : option RowId)
    : action engine Tuple :=
  if decide (length tuple ≠ length (t_columns table)) then
    raise (Throw "Tuple width does not match schema")
  else
    tuple ← lift (coerce_values (t_columns table) tuple);
    _ ← for_each (check_key table tuple replacing) (columns_where is_primary 0 (t_columns table));
    _ ← validateForeignKeys table tuple;
    mret tuple.

(** A scan for references to a value that is about to go. *)
Fixpoint scan_refers (position : nat) (value : Value) (rows : list StoredRow) : exec bool :=
  match rows with
  | [] => Ok false
  | row :: rows =>
      let* v := nth_value (storedValues row) position in
      if negb (isNull v) && value_eqb v value then Ok true
      else scan_refers position value rows
  end.

(** One column of one table in [validateNoIncomingReferences]. *)
Definition check_incoming (table : TableMeta) (tuple : Tuple) (replacement : option Tuple)
    (referencing : TableMeta) (foreignIndex : nat) : action engine () :=
  match t_columns referencing !! foreignIndex with
  | None => mret ()
  | Some foreignColumn =>
      match column_position (named (cm_fk_col foreignColumn)) (t_columns table) with
      | None => mret ()
      | Some targetIndex =>
          value ← lift (nth_value tuple targetIndex);
          same ← match replacement with
                 | None => mret false
                 | Some replacement =>
                     v ← lift (nth_value replacement targetIndex);
                     mret (value_eqb value v)
                 end;
          if (same : bool) then mret ()
          else
            rows ← scan_heap (t_name referencing);
            found ← lift (scan_refers foreignIndex value rows);
            if (found : bool) then
              raise (Throw ("Row is referenced by " +:+ t_name referencing +:+ "." +:+
                            cm_name foreignColumn))
            else mret ()
      end
  end.

Definition refers_to (table : string) (column : ColumnMeta) : bool :=
  bool_decide (cm_fk_table column = table).

Definition check_table_incoming (table : TableMeta) (tuple : Tuple) (replacement : option Tuple)
    (name : string) : action engine () :=
  c ← gets catalog_;
  match getTable c name with
  | None => mret ()
  | Some referencing =>
      for_each (check_incoming table tuple replacement referencing)
        (columns_where (refers_to (t_name table)) 0 (t_columns referencing))
  end.

Definition validateNoIncomingReferences (table : TableMeta) (tuple : Tuple)
    (replacement : option Tuple) : action engine () :=
  c ← gets catalog_;
  for_each (check_table_incoming table tuple replacement) (tableNames c).

(** ** CREATE and DROP *)

Definition supported_type (t : string) : bool :=
  is_integer_type t || is_real_type t || is_text_type t || (t =? "BLOB").

Definition check_target (fk_table fk_col : string) (c : Catalog) : exec () :=
  if fk_table =? "" then Ok ()
  else
    match getTable c fk_table with
    | None => Err (Throw ("Foreign key table does not exist: " +:+ fk_table))
    | Some foreign =>
        if existsb (named fk_col) (t_columns foreign) then Ok ()
        else Err (Throw ("Foreign key column does not exist: " +:+ fk_col))
    end.

(** The loop over the column definitions. *)
Fixpoint define_columns (c : Catalog) (names : list string) (primaryKeys : nat)
    (definitions : list ColumnDef) : exec (list ColumnMeta) :=
  match definitions with
  | [] => Ok []
  | d :: definitions =>
      if decide (cd_name d ∈ names) then Err (Throw ("Duplicate column: " +:+ cd_name d))
      else
        let type := upper (cd_type d) in
        if negb (supported_type type) then
          Err (Throw ("Unsupported column type: " +:+ cd_type d))
        else
          let primaryKeys := if cd_primary_key d then S primaryKeys else primaryKeys in
          if cd_primary_key d && (1 <? primaryKeys)%nat then
            Err (Throw "Only one primary key column is supported")
          else
            let* _ := check_target (cd_fk_table d) (cd_fk_col d) c in
            let* rest := define_columns c (cd_name d :: names) primaryKeys definitions in
            Ok (mkColumnMeta (cd_name d) type (cd_primary_key d)
                  (cd_not_null d || cd_primary_key d) (cd_fk_table d) (cd_fk_col d) :: rest)
  end.

Definition executeCreate (s : CreateStmt) : action engine NativeQueryResult :=
  c ← gets catalog_;
  if hasTable c (c_table s) then
    (if c_ifNotExists s then mret no_result
     else raise (Throw ("Table already exists: " +:+ c_table s)))
  else
    columns ← lift (define_columns c [] 0 (c_columns s));
    file ← lift (heap (c_table s));
    _ ← on_heap file heap_create;
    _ ← set_catalog (λ c, addTable c (mkTableMeta (c_table s) columns));
    _ ← set_indexes (λ indexes, delete (c_table s) indexes);
    mret (mkResult 0 ("created table " +:+ c_table s)).

(** Another table refers to [table]. *)
Definition is_referenced (c : Catalog) (table : string) : bool :=
  existsb (λ name,
    match getTable c name with
    | Some candidate =>
        negb (bool_decide (t_name candidate = table)) &&
        existsb (refers_to table) (t_columns candidate)
    | None => false
    end) (tableNames c).

Definition executeDrop (s : DropStmt) : action engine NativeQueryResult :=
  c ← gets catalog_;
  match getTable c (dr_table s) with
  | None =>
      if dr_ifExists s then mret no_result
      else raise (Throw ("Unknown table: " +:+ dr_table s))
  | Some _ =>
      if is_referenced c (dr_table s) then
        raise (Throw ("Cannot drop referenced table " +:+ dr_table s))
      else
        file ← lift (heap (dr_table s));
        _ ← on_heap file heap_flush;
        _ ← on_heap file heap_drop;
        _ ← set_indexes (λ indexes, delete (dr_table s) indexes);
        _ ← set_catalog (λ c, removeTable c (dr_table s));
        mret (mkResult 0 ("dropped table " +:+ dr_table s))
  end.

(** ** INSERT *)

(** [EvalRow{}] *)
Definition empty_row : EvalRow := mkRow None [].

Fixpoint eval_all (row : EvalRow) (exprs : list Node) : exec (list Value) :=
  match exprs with
  | [] => Ok []
  | e :: exprs =>
      let* v := eval e row in
      let* vs := eval_all row exprs in
      Ok (v :: vs)
  end.

(** The assignments [tuple[column] = eval(value, row)], in order. *)
Fixpoint assign_values (columns : list ColumnMeta) (row : EvalRow)
    (sets : list (string * Node)) (tuple : Tuple) : exec Tuple :=
  match sets with
  | [] => Ok tuple
  | (name, e) :: sets =>
      match column_position (named name) columns with
      | None => Err (Throw ("Unknown column: " +:+ name))
      | Some position =>
          let* v := eval e row in
          assign_values columns row sets (<[position := v]> tuple)
      end
  end.

Definition insert_tuple (columns : list ColumnMeta) (names : list string) (valueRow : list Node)
    : exec Tuple :=
  match names with
  | [] =>
      if decide (length valueRow ≠ length columns) then
        Err (Throw "INSERT value count does not match table schema")
      else eval_all empty_row valueRow
  | _ :: _ =>
      if decide (length valueRow ≠ length names) then
        Err (Throw "INSERT value count does not match column list")
      else assign_values columns empty_row (zip names valueRow) (repeat VNull (length columns))
  end.

Definition insert_row (table : TableMeta) (names : list string) (file : F)
    (valueRow : list Node) : action engine F :=
  tuple ← lift (insert_tuple (t_columns table) names valueRow);
  tuple ← validateAndCoerce table tuple None;
  r ← on_heap file (heap_insert tuple);
  let '(rowId, file) := r in
  _ ← match column_position is_primary (t_columns table) with
      | None => mret ()
      | Some position =>
          key ← lift (nth_value tuple position);
          index_row (t_name table) key rowId
      end;
  mret file.

Fixpoint insert_rows (table : TableMeta) (names : list string) (file : F) (count : nat)
    (valueRows : list (list Node)) : action engine (F * nat) :=
  match valueRows with
  | [] => mret (file, count)
  | valueRow :: valueRows =>
      file ← insert_row table names file valueRow;
      insert_rows table names file (S count) valueRows
  end.

(** The work on the file of a statement: flushed at the end, and the file put
    back when the work throws. *)
Definition with_undo {A} (path : string) (before : option bytes) (on_error : action engine ())
    (work : action engine (F * A)) : action engine A :=
  cleanup
    (r ← work;
     let '(file, a) := r in
     _ ← on_heap file heap_flush;
     mret a)
    (_ ← on_error; on_files (restore_image path before)).

Definition rows_message (verb : string) (count : nat) : string :=
  verb +:+ " " +:+ dec_unsigned (Z.of_nat count) +:+ " row(s)".

Definition executeInsert (s : InsertStmt) : action engine NativeQueryResult :=
  table ← known_table (i_table s);
  file ← lift (heap (i_table s));
  r ← on_heap file heap_flush;
  path ← lift (tablePath (i_table s));
  before ← gets (λ e, file_image path (storage_ e));
  count ← with_undo path before (set_indexes (λ indexes, delete (i_table s) indexes))
            (insert_rows table (i_columns s) r.2 0 (i_valueRows s));
  mret (mkResult count (rows_message "inserted" count)).

(** ** UPDATE and DELETE *)

(** [readFile]: no bytes when there is no file. *)
Definition read_file (path : string) (s : D) : option bytes := Some (default [] (file_image path s)).

Definition update_row (table : TableMeta) (s : UpdateStmt) (file : F) (count : nat)
    (scanned : ScanRow) : action engine (F * nat) :=
  keep ← lift (keeps (u_where s) (sc_row scanned));
  if negb keep then mret (file, count)
  else
    updated ← lift (assign_values (t_columns table) (sc_row scanned)
                      (map (λ a, (a_column a, a_value a)) (u_sets s)) (values (sc_row scanned)));
    updated ← validateAndCoerce table updated (Some (sc_id scanned));
    _ ← validateNoIncomingReferences table (values (sc_row scanned)) (Some updated);
    r ← on_heap file (heap_update (sc_id scanned) updated);
    mret (r.2, S count).

Definition delete_row (table : TableMeta) (s : DeleteStmt) (file : F) (count : nat)
    (scanned : ScanRow) : action engine (F * nat) :=
  keep ← lift (keeps (d_where s) (sc_row scanned));
  if negb keep then mret (file, count)
  else
    _ ← validateNoIncomingReferences table (values (sc_row scanned)) None;
    r ← on_heap file (heap_erase (sc_id scanned));
    let '(erased, file) := r in
    mret (file, if (erased : bool) then S count else count).

Fixpoint change_rows (change : F → nat → ScanRow → action engine (F * nat))
    (file : F) (count : nat) (rows : list ScanRow) : action engine (F * nat) :=
  match rows with
  | [] => mret (file, count)
  | row :: rows =>
      r ← change file count row;
      change_rows change r.1 r.2 rows
  end.

(** What the two statements share: [change] on every row of a scan.  The index
    is built anew when it is next used. *)
Definition change_table (name : string) (change : TableMeta → F → nat → ScanRow → action engine (F * nat))
    : action engine nat :=
  table ← known_table name;
  file ← lift (heap name);
  r ← on_heap file heap_flush;
  path ← lift (tablePath name);
  before ← gets (λ e, read_file path (storage_ e));
  count ← with_undo path before (mret ())
            (rows ← scanTable name name; change_rows (change table) r.2 0 rows);
  _ ← set_indexes (λ indexes, delete name indexes);
  mret count.

Definition executeUpdate (s : UpdateStmt) : action engine NativeQueryResult :=
  count ← change_table (u_table s) (λ table, update_row table s);
  mret (mkResult count (rows_message "updated" count)).

Definition executeDelete (s : DeleteStmt) : action engine NativeQueryResult :=
  count ← change_table (d_table s) (λ table, delete_row table s);
  mret (mkResult count (rows_message "deleted" count)).

(** The statements of [NativeEngine::execute] that this file models. *)
Inductive data_stmt : Type :=
  | Create (s : CreateStmt)
  | Drop (s : DropStmt)
  | Insert_ (s : InsertStmt)
  | Update_ (s : UpdateStmt)
  | Delete_ (s : DeleteStmt).

Definition execute (s : data_stmt) : action engine NativeQueryResult :=
  match s with
  | Create s => executeCreate s
  | Drop s => executeDrop s
  | Insert_ s => executeInsert s
  | Update_ s => executeUpdate s
  | Delete_ s => executeDelete s
  end.
End Engine.
