(* ===== verification/Snapshot.v ===== *)
(** Dataset snapshots ([src/native_engine.cpp]): [executeCreateSnapshot], which
    assigns every row of a table to a split by the hash of its key, and
    [executeExportTorch] and [executeExplainBatch], which deal the rows of the
    train split out to ranks and batches.  Sizes are 64 bits wide, and their
    sums and products wrap around.  The order in which a hash map is walked is a
    parameter; writing the catalog file is not modelled.

    The file shows that the batches of all ranks are the rows of the train split,
    each once, as long as the sizes do not wrap around, and that no key is ever
    in two splits. *)

From S2P Require Import Prelude.
From S2P Require Import Hash.
From S2P Require Import Format.
From S2P Require Import Config.
From S2P Require Import Value.
From S2P Require Import Tuple.
From S2P Require Import Ast.
From S2P Require Import Catalog.
From S2P Require Import Eval.
From S2P Require Import Select.
From S2P Require Import CodeGen.
From S2P Require Import Store.
From S2P Require Import Engine.

#[local] Open Scope string_scope.

(** ** Row identifiers as text *)

Definition rowIdString (row : RowId) : string :=
  dec_unsigned (rowPage row) +:+ ":" +:+ dec_unsigned (rowSlot row).

(** [std::stoul]; the whole text need not be a number. *)
Definition stoul (s : string) : exec Z :=
  match strtoull s with
  | None => Err (Throw "stoul")
  | Some (_, true, _) => Err (Throw "stoul")
  | Some (v, false, _) => Ok v
  end.

(** The text before and after the first colon. *)
Fixpoint split_colon (s : string) : option (string * string) :=
  match s with
  | EmptyString => None
  | String c s =>
      if Ascii.eqb c ":" then Some ("", s)
      else match split_colon s with
           | Some (a, b) => Some (String c a, b)
           | None => None
           end
  end.

Definition parseRowIdString (text : string) : exec RowId :=
  match split_colon text with
  | None => Err (Throw ("Malformed snapshot row id: " +:+ text))
  | Some (page, slot) =>
      let* page := stoul page in
      let* slot := stoul slot in
      Ok (mkRowId (wrap 32 page) (wrap 16 slot))
  end.

(** ** Splits *)

Definition snapshotHash (seed epoch : Z) (key : string) : Z :=
  avalanche64 (Z.lxor (Z.lxor seed (wrap64 (epoch * kGoldenRatio64))) (fnv1a64 (bytes_of key))).

Definition splitForKey (seed : Z) (key : string) : string :=
  let bucket := snapshotHash seed 0 key mod kSnapshotSplitBuckets in
  if (bucket <? kDefaultTrainSplitPercent)%Z then "train"
  else if (bucket <? kDefaultTrainSplitPercent + kDefaultValidationSplitPercent)%Z then "validation"
  else "test".

(** ** The rows of a rank *)

(** The comparison of [plannedSnapshotRows]. *)
Definition planned_before (seed epoch : Z) (left right : SnapshotRowMeta) : bool :=
  let leftHash := snapshotHash seed epoch (sr_rowid left) in
  let rightHash := snapshotHash seed epoch (sr_rowid right) in
  if (leftHash =? rightHash)%Z then
    bool_decide (bytes_compare (bytes_of (sr_rowid left)) (bytes_of (sr_rowid right)) = Lt)
  else (leftHash <? rightHash)%Z.

(** Every [worldSize]-th row, the first at [rank]. *)
Fixpoint shard {A} (index : nat) (worldSize rank : Z) (rows : list A) : list A :=
  match rows with
  | [] => []
  | row :: rows =>
      if (Z.of_nat index mod worldSize =? rank)%Z then row :: shard (S index) worldSize rank rows
      else shard (S index) worldSize rank rows
  end.

Definition in_split (split : string) (row : SnapshotRowMeta) : bool := sr_split row =? split.

Definition sorted_rows (snapshot : DatasetSnapshotMeta) (epoch : Z) (split : string)
    : list SnapshotRowMeta :=
  stable_sort (planned_before (ds_seed snapshot) epoch)
    (List.filter (in_split split) (ds_rows snapshot)).

Definition plannedSnapshotRows (snapshot : DatasetSnapshotMeta) (epoch rank worldSize : Z)
    (split : string) : exec (list SnapshotRowMeta) :=
  if (worldSize =? 0)%Z then Err (Throw "world-size must be greater than zero")
  else if (worldSize <=? rank)%Z then Err (Throw "rank must be smaller than world-size")
  else Ok (shard 0 worldSize rank (sorted_rows snapshot epoch split)).

(** ** Reports *)

Record Report : Type := mkReport {
  rp_columns : list string;
  rp_rows : list Tuple;
  rp_message : string;
}.

(** [addKeyValue] *)
Definition key_value (field value : string) : Tuple := [VText field; VText value].

Fixpoint joinStrings (values : list string) (separator : string) : string :=
  match values with
  | [] => ""
  | [v] => v
  | v :: values => v +:+ separator +:+ joinStrings values separator
  end.

(** [std::to_string] of a [size_t] *)
Definition size_text {A} (l : list A) : string := dec_unsigned (Z.of_nat (length l)).

Definition tableColumnIndex (table : TableMeta) (name : string) : option nat :=
  column_position (named name) (t_columns table).

(** ** [manifest-snapshot] *)

(** The columns of the source query: is there a wildcard, and the named ones. *)
Fixpoint selected_columns (exprs : list Node) : exec (bool * list string) :=
  match exprs with
  | [] => Ok (false, [])
  | e :: exprs =>
      match e with
      | Wildcard _ _ _ =>
          let* rest := selected_columns exprs in Ok (true, rest.2)
      | ColumnRef _ column _ _ =>
          let* rest := selected_columns exprs in Ok (rest.1, column :: rest.2)
      | _ => Err (Throw "manifest-snapshot features must be projected columns")
      end
  end.

Definition label_name (label : string) (wildcard : bool) (selected : list string)
    (table : TableMeta) : string :=
  if label =? "" then
    match last selected with
    | Some column => column
    | None => if wildcard then default "" (cm_name <$> last (t_columns table)) else ""
    end
  else label.

Definition snapshot_features (features : list FeatureSpec) (label : string) (wildcard : bool)
    (selected : list string) (table : TableMeta) : list SnapshotFeatureMeta :=
  match features with
  | [] =>
      map (λ name, mkSnapshotFeature name "")
        (List.filter (λ name, negb (name =? label))
           (if wildcard then map cm_name (t_columns table) else selected))
  | _ :: _ => map (λ f, mkSnapshotFeature (f_name f) (f_spec f)) features
  end.

Definition known_feature (table : TableMeta) (feature : SnapshotFeatureMeta) : exec () :=
  match tableColumnIndex table (sf_name feature) with
  | Some _ => Ok ()
  | None => Err (Throw ("Unknown feature column: " +:+ sf_name feature))
  end.

Fixpoint known_features (table : TableMeta) (features : list SnapshotFeatureMeta) : exec () :=
  match features with
  | [] => Ok ()
  | f :: features => let* _ := known_feature table f in known_features table features
  end.

Definition by_row (splitBy : string) : bool := (splitBy =? "row") || (splitBy =? "rowid").

(** The snapshot before it has rows. *)
Definition describe_snapshot (c : Catalog) (s : CreateSnapshotStmt) (table : TableMeta)
    : exec DatasetSnapshotMeta :=
  let source := cs_source s in
  let* cols := selected_columns (s_columns source) in
  let '(wildcard, selected) := cols in
  let splitBy := if cs_splitBy s =? "" then "row" else cs_splitBy s in
  let label := label_name (f_name (cs_label s)) wildcard selected table in
  let features := snapshot_features (cs_features s) label wildcard selected table in
  if decide (features = []) then
    Err (Throw "manifest-snapshot requires at least one feature")
  else if label =? "" then Err (Throw "manifest-snapshot requires a label")
  else
    let* _ := known_features table features in
    match tableColumnIndex table label with
    | None => Err (Throw ("Unknown label column: " +:+ label))
    | Some _ =>
        if negb (by_row splitBy) && negb (bool_decide (is_Some (tableColumnIndex table splitBy))) then
          Err (Throw ("Unknown split key column: " +:+ splitBy))
        else
          Ok (mkSnapshotMeta (cs_name s) (generate (SSelect source)) (s_fromTable source)
                (dec_unsigned (schemaFingerprint_ c)) (dec_unsigned (revision_ c)) splitBy
                (cs_seed s) features (mkSnapshotFeature label (f_spec (cs_label s))) [] [])
    end.

(** The splits seen for every key and for every user. *)
Abbreviation splits := (gmap string (gset string)) (only parsing).

Definition add_split (key split : string) (m : splits) : splits :=
  <[key := {[split]} ∪ default ∅ (m !! key)]> m.

Record SplitState : Type := mkSplitState {
  sp_rows : list SnapshotRowMeta;
  splitKeySplits : gmap string (gset string);
  userIdSplits : gmap string (gset string);
}.

(** The text a row is split by. *)
Definition split_key (snapshot : DatasetSnapshotMeta) (scanned : ScanRow) : exec string :=
  if by_row (ds_splitBy snapshot) then Ok (rowIdString (sc_id scanned))
  else
    let* v := resolveColumn "" (ds_splitBy snapshot) (sc_row scanned) in Ok (toString v).

Definition split_row (snapshot : DatasetSnapshotMeta) (userIdIndex : option nat)
    (scanned : ScanRow) (state : SplitState) : exec SplitState :=
  let rowid := rowIdString (sc_id scanned) in
  let* splitKey := split_key snapshot scanned in
  let split := splitForKey (ds_seed snapshot) splitKey in
  let keys := if by_row (ds_splitBy snapshot) then splitKeySplits state
              else add_split splitKey split (splitKeySplits state) in
  let users :=
    match userIdIndex with
    | Some i =>
        match values (sc_row scanned) !! i with
        | Some v =>
            if negb (ds_splitBy snapshot =? "user_id")
            then add_split (toString v) split (userIdSplits state)
            else userIdSplits state
        | None => userIdSplits state
        end
    | None => userIdSplits state
    end in
  Ok (mkSplitState (sp_rows state ++ [mkSnapshotRow rowid split])%list keys users).

Fixpoint split_rows (snapshot : DatasetSnapshotMeta) (condition : option Node)
    (userIdIndex : option nat) (rows : list ScanRow) (state : SplitState) : exec SplitState :=
  match rows with
  | [] => Ok state
  | scanned :: rows =>
      let* keep := keeps condition (sc_row scanned) in
      if keep : bool then
        let* state := split_row snapshot userIdIndex scanned state in
        split_rows snapshot condition userIdIndex rows state
      else split_rows snapshot condition userIdIndex rows state
  end.

Section statements.
Context {D F : Type} `{HeapFiles D F}.

(** The order in which a hash map is walked. *)
Context (order : gmap string (gset string) → list (string * gset string)).

(** The warning about the first key met that is in several splits. *)
Definition leak (m : splits) (warning : string → string) : list string :=
  match List.find (λ entry, (1 <? size entry.2)%nat) (order m) with
  | Some entry => [warning entry.1]
  | None => []
  end.

Definition key_warning (key : string) : string :=
  "leakage-check sus: split key '" +:+ key +:+ "' appears in multiple splits".
Definition user_warning (key : string) : string :=
  "leakage-check sus: user_id '" +:+ key +:+
  "' appears in multiple splits; prefer split-by user_id".

Definition leak_warnings (state : SplitState) : list string :=
  (leak (splitKeySplits state) key_warning ++ leak (userIdSplits state) user_warning)%list.

Definition snapshot_report (snapshot : DatasetSnapshotMeta) : Report :=
  let count split := size_text (List.filter (in_split split) (ds_rows snapshot)) in
  mkReport ["field"; "value"]
    ([key_value "snapshot" (ds_name snapshot);
      key_value "rows" (size_text (ds_rows snapshot));
      key_value "train_rows" (count "train");
      key_value "validation_rows" (count "validation");
      key_value "test_rows" (count "test");
      key_value "split_by" (ds_splitBy snapshot);
      key_value "seed" (dec_unsigned (ds_seed snapshot));
      key_value "features" (joinStrings (map sf_name (ds_features snapshot)) ",");
      key_value "label" (sf_name (ds_label snapshot))] ++
     match ds_warnings snapshot with
     | [] => []
     | warnings => [key_value "warning" (joinStrings warnings " | ")]
     end)%list
    ("manifested snapshot " +:+ ds_name snapshot).

Definition plain_source (source : Select_) : bool :=
  bool_decide (s_joins source = []) && bool_decide (s_groupBy source = []) &&
  negb (bool_decide (is_Some (s_having source))) &&
  negb (bool_decide (is_Some (s_limit source))) && negb (bool_decide (is_Some (s_offset source))).

Definition with_rows (snapshot : DatasetSnapshotMeta) (state : SplitState) : DatasetSnapshotMeta :=
  mkSnapshotMeta (ds_name snapshot) (ds_queryText snapshot) (ds_sourceTable snapshot)
    (ds_schemaFingerprint snapshot) (ds_tableVersion snapshot) (ds_splitBy snapshot)
    (ds_seed snapshot) (ds_features snapshot) (ds_label snapshot) (sp_rows state)
    (leak_warnings state).

Definition executeCreateSnapshot (s : CreateSnapshotStmt) : action engine Report :=
  c ← gets catalog_;
  if hasSnapshot c (cs_name s) then raise (Throw ("Snapshot already exists: " +:+ cs_name s))
  else
    let source := cs_source s in
    if negb (plain_source source) then
      raise (Throw "manifest-snapshot currently supports one table with an optional filter")
    else
      match getTable c (s_fromTable source) with
      | None => raise (Throw ("Unknown source table: " +:+ s_fromTable source))
      | Some table =>
          snapshot ← lift (describe_snapshot c s table);
          rows ← scanTable (s_fromTable source) (s_fromAlias source);
          state ← lift (split_rows snapshot (s_where source) (tableColumnIndex table "user_id")
                          rows (mkSplitState [] ∅ ∅));
          let snapshot := with_rows snapshot state in
          _ ← set_catalog (λ c, addSnapshot c snapshot);
          mret (snapshot_report snapshot)
      end.

(** ** [export-torch] and [explain-batch] *)

Definition known_snapshot (c : Catalog) (name : string) : exec DatasetSnapshotMeta :=
  match getSnapshot c name with
  | Some snapshot => Ok snapshot
  | None => Err (Throw ("Unknown snapshot: " +:+ name))
  end.

(** [(planned.size() + batchSize - 1) / batchSize] *)
Definition batch_count (planned batchSize : Z) : Z :=
  wrap64 (wrap64 (planned + batchSize) - 1) / batchSize.

Definition double_quote : string := String (ascii_of_nat 34) "".

Definition torch_report (s : ExportTorchStmt) (name : string) (planned : nat) : Report :=
  let samples := Z.of_nat planned in
  mkReport ["field"; "value"]
    [key_value "snapshot" name;
     key_value "torch_dataset" "from tensorql import TensorQLDataset";
     key_value "python" ("TensorQLDataset(db_path, dataset=" +:+ double_quote +:+ name +:+ double_quote +:+
                         ", batch_size=" +:+ dec_unsigned (et_batchSize s) +:+ ")");
     key_value "samples" (dec_unsigned samples);
     key_value "batches" (dec_unsigned (batch_count samples (et_batchSize s)));
     key_value "batch_size" (dec_unsigned (et_batchSize s));
     key_value "shuffle" (if et_deterministicShuffle s then "deterministic" else "off");
     key_value "epoch" (dec_unsigned (et_epoch s));
     key_value "rank" (dec_unsigned (et_rank s));
     key_value "world_size" (dec_unsigned (et_worldSize s))]
    ("torch export plan ready for " +:+ name).

Definition executeExportTorch (s : ExportTorchStmt) : action (engine (D:=D)) Report :=
  c ← gets catalog_;
  snapshot ← lift (known_snapshot c (et_dataset s));
  if (et_batchSize s =? 0)%Z then raise (Throw "batch-size must be greater than zero")
  else
    planned ← lift (plannedSnapshotRows snapshot (et_epoch s) (et_rank s) (et_worldSize s) "train");
    mret (torch_report s (ds_name snapshot) (length planned)).

(** The rows from [start] up to [end_]; a range that ends before it starts is
    undefined. *)
Definition batch_rows {A} (planned : list A) (batch batchSize : Z) : exec (list A) :=
  let size := Z.of_nat (length planned) in
  let start := wrap64 (batch * batchSize) in
  let end_ := Z.min size (wrap64 (start + batchSize)) in
  if (start <? size)%Z then
    if (end_ <? start)%Z then Err (Undefined "invalid range")
    else Ok (take (Z.to_nat (end_ - start)) (drop (Z.to_nat start) planned))
  else Ok [].

(** The labels of the rows that are still there. *)
Fixpoint count_labels (file : F) (label : nat) (rows : list SnapshotRowMeta)
    (counts : gmap string nat) : action engine (gmap string nat) :=
  match rows with
  | [] => mret counts
  | row :: rows =>
      rowId ← lift (parseRowIdString (sr_rowid row));
      r ← on_heap file (heap_read rowId);
      let '(stored, file) := r in
      match v ← storedValues <$> stored; v !! label with
      | None => count_labels file label rows counts
      | Some v => count_labels file label rows (partial_alter (λ n, Some (S (default O n))) (toString v) counts)
      end
  end.

(** [std::map] iterates in the order of its keys. *)
Definition label_parts (counts : gmap string nat) : list string :=
  map (λ key, key +:+ "=" +:+ dec_unsigned (Z.of_nat (default O (counts !! key))))
    (sortedNames counts).

Definition source_range (rowids : list string) : list Tuple :=
  match head rowids, last rowids with
  | Some front, Some back => [key_value "source_range" (front +:+ "-" +:+ back)]
  | _, _ => []
  end.

Definition batch_report (s : ExplainBatchStmt) (snapshot : DatasetSnapshotMeta)
    (rowids labels : list string) : Report :=
  mkReport ["field"; "value"]
    ([key_value "snapshot" (ds_name snapshot);
      key_value "batch" (dec_unsigned (eb_batch s));
      key_value "samples" (size_text rowids);
      key_value "source_rows" (joinStrings rowids ",")] ++
     source_range rowids ++
     [key_value "feature_columns" (joinStrings (map sf_name (ds_features snapshot)) ",");
      key_value "label_distribution" (joinStrings labels ",");
      key_value "split" "train";
      key_value "seed" (dec_unsigned (ds_seed snapshot));
      key_value "epoch" (dec_unsigned (eb_epoch s));
      key_value "rank" (dec_unsigned (eb_rank s) +:+ "/" +:+ dec_unsigned (eb_worldSize s));
      key_value "worker" "0";
      key_value "resume_token"
        (ds_name snapshot +:+ ":epoch=" +:+ dec_unsigned (eb_epoch s) +:+ ":batch=" +:+
         dec_unsigned (eb_batch s) +:+ ":rank=" +:+ dec_unsigned (eb_rank s))])%list
    ("spilled batch provenance for " +:+ ds_name snapshot).

Definition executeExplainBatch (s : ExplainBatchStmt) : action engine Report :=
  c ← gets catalog_;
  snapshot ← lift (known_snapshot c (eb_dataset s));
  if (eb_batchSize s =? 0)%Z then raise (Throw "batch-size must be greater than zero")
  else
    planned ← lift (plannedSnapshotRows snapshot (eb_epoch s) (eb_rank s) (eb_worldSize s) "train");
    rows ← lift (batch_rows planned (eb_batch s) (eb_batchSize s));
    match getTable c (ds_sourceTable snapshot) with
    | None => raise (Throw ("Snapshot source table disappeared: " +:+ ds_sourceTable snapshot))
    | Some table =>
        match tableColumnIndex table (sf_name (ds_label snapshot)) with
        | None => raise (Throw ("Snapshot label column disappeared: " +:+ sf_name (ds_label snapshot)))
        | Some label =>
            file ← lift (heap (ds_sourceTable snapshot));
            counts ← count_labels file label rows ∅;
            mret (batch_report s snapshot (map sr_rowid rows) (label_parts counts))
        end
    end.
End statements.
