(* ===== verification/Shards.v ===== *)
(** Dataset snapshots ([Snapshot.v]): the batches of all the ranks are the rows of
    the train split, each once; a key is in one split only; and a row identifier
    reads back from its text. *)

From S2P Require Import Prelude.
From S2P Require Import Hash.
From S2P Require Import Format.
From S2P Require Import Config.
From S2P Require Import Page.
From S2P Require Import Value.
From S2P Require Import Tuple.
From S2P Require Import Ast.
From S2P Require Import Catalog.
From S2P Require Import Eval.
From S2P Require Import Select.
From S2P Require Import Store.
From S2P Require Import Engine.
From S2P Require Import Snapshot.

(** ** Row identifiers *)

Lemma strtoull_dec n : 0 ≤ n < 2 ^ 64 → strtoull (dec_unsigned n) = Some (n, false, "").
Proof.
  intros Hn. destruct (dec_unsigned_digits n (proj1 Hn)) as [Hd Hne].
  pose proof (dec_value_unsigned n (proj1 Hn)) as Hv.
  destruct (dec_unsigned n) as [|c s] eqn:E; [done|].
  assert (isdigit c = true) as Hc.
  { unfold all_digits in Hd. cbn in Hd. by apply andb_prop in Hd as [? _]. }
  unfold strtoull. cbn [skip_space]. rewrite (digit_not_space c Hc), (digit_no_sign c s Hc).
  rewrite (proj2 (span_digits_all _ _) (conj eq_refl Hd)), Hv. rewrite decide_False by lia. done.
Qed.

Lemma split_colon_app s t :
  all_digits s = true → split_colon (s +:+ ":" +:+ t) = Some (s, t).
Proof.
  unfold all_digits. induction s as [|c s IH]; [done|]. rewrite string_app_cons. cbn. intros [Hc Hs]%andb_prop.
  destruct (Ascii.eqb c ":") eqn:Heq; [|by rewrite IH].
  apply Ascii.eqb_eq in Heq. by subst c.
Qed.

Lemma parseRowIdString_rowIdString r :
  0 ≤ rowPage r < 2 ^ 32 → 0 ≤ rowSlot r < 2 ^ 16 →
  parseRowIdString (rowIdString r) = Ok r.
Proof.
  destruct r as [page slot]. cbn [rowPage rowSlot]. intros Hp Hs.
  unfold parseRowIdString, rowIdString. cbn [rowPage rowSlot].
  rewrite split_colon_app by (apply dec_unsigned_digits; lia).
  unfold stoul. rewrite !strtoull_dec by lia. cbn [rbind].
  by rewrite !wrap_small by (unfold uint; lia).
Qed.

(** ** Shards *)

Lemma stable_insert_perm {A} less (x : A) l : stable_insert less x l ≡ₚ x :: l.
Proof.
  induction l as [|y l IH]; [done|]. cbn. destruct (less y x); [|done].
  by rewrite IH, Permutation_swap.
Qed.

Lemma stable_sort_perm {A} less (l : list A) : stable_sort less l ≡ₚ l.
Proof. induction l as [|x l IH]; [done|]. cbn. by rewrite stable_insert_perm, IH. Qed.

(** One of the lists gets one more element. *)
Lemma concat_add {A} (f g : Z → list A) x k ranks :
  NoDup ranks → k ∈ ranks → f k = x :: g k → (∀ r, r ∈ ranks → r ≠ k → f r = g r) →
  concat (map f ranks) ≡ₚ x :: concat (map g ranks).
Proof.
  induction ranks as [|r ranks IH]; intros Hnd Hk Hf Hg; [by apply elem_of_nil in Hk|].
  apply NoDup_cons in Hnd as [Hr Hnd]. cbn. apply elem_of_cons in Hk as [->|Hk].
  - rewrite Hf. cbn. f_equiv. f_equiv. rewrite (map_ext_in f g); [done|].
    intros r' Hr'%list_elem_of_In. apply Hg; [by right|]. intros ->. done.
  - rewrite (Hg r); [|apply list_elem_of_here|intros ->; done].
    rewrite (IH Hnd Hk Hf); [by rewrite Permutation_middle|].
    intros r' Hr'. apply Hg. by right.
Qed.

Lemma shards_partition {A} w (l : list A) i :
  0 < w → concat (map (λ r, shard i w r l) (seqZ 0 w)) ≡ₚ l.
Proof.
  intros Hw. revert i. induction l as [|x l IH]; intros i.
  { cbn [shard]. by induction (seqZ 0 w). }
  pose proof (Z.mod_pos_bound (Z.of_nat i) w Hw) as Hk.
  rewrite (concat_add _ (λ r, shard (S i) w r l) x (Z.of_nat i mod w)); [by rewrite IH| | | |].
  - apply NoDup_seqZ.
  - apply elem_of_seqZ. lia.
  - cbn [shard]. by rewrite Z.eqb_refl.
  - intros r _ Hne. cbn [shard]. by rewrite (proj2 (Z.eqb_neq _ _)).
Qed.

(** The ranks get as many rows as each other, up to one. *)
Lemma shard_length {A} w r (l : list A) i :
  0 ≤ r < w → (Z.of_nat i + w - 1 - r) / w + Z.of_nat (length (shard i w r l)) =
  (Z.of_nat i + Z.of_nat (length l) + w - 1 - r) / w.
Proof.
  intros Hr. revert i. induction l as [|x l IH]; intros i; cbn [shard length].
  { cbn. rewrite Z.add_0_r. f_equal. lia. }
  assert (Hstep : (Z.of_nat (S i) + w - 1 - r) / w =
    (Z.of_nat i + w - 1 - r) / w + (if (Z.of_nat i mod w =? r)%Z then 1 else 0)).
  { pose proof (Z.div_mod (Z.of_nat i) w ltac:(lia)) as Hdm.
    pose proof (Z.mod_pos_bound (Z.of_nat i) w ltac:(lia)) as Hb.
    set (q := Z.of_nat i / w) in *. set (m := Z.of_nat i mod w) in *.
    replace (Z.of_nat (S i) + w - 1 - r) with (q * w + (m + w - r)) by lia.
    replace (Z.of_nat i + w - 1 - r) with (q * w + (m + w - 1 - r)) by lia.
    rewrite !Z.div_add_l by lia. destruct (Z.eqb_spec m r) as [->|Hne].
    - replace (r + w - r) with w by lia. rewrite Z.div_same, (Z.div_small (r + w - 1 - r)) by lia. lia.
    - destruct (decide (m < r)).
      + rewrite !Z.div_small by lia. lia.
      + replace (m + w - r) with (1 * w + (m - r)) by lia.
        replace (m + w - 1 - r) with (1 * w + (m - 1 - r)) by lia.
        rewrite !Z.div_add_l, !Z.div_small by lia. lia. }
  specialize (IH (S i)). destruct (Z.of_nat i mod w =? r)%Z; cbn [length];
    rewrite Hstep in IH; replace (Z.of_nat i + Z.of_nat (S (length l)) + w - 1 - r)
      with (Z.of_nat (S i) + Z.of_nat (length l) + w - 1 - r) by lia; lia.
Qed.

(** ** Batches *)

Lemma batch_count_spec n b :
  0 ≤ n → 0 < b → n + b ≤ 2 ^ 64 → batch_count n b = (n + b - 1) / b.
Proof.
  intros Hn Hb Hsum. unfold batch_count. f_equal.
  destruct (decide (n + b = 2 ^ 64)) as [->|].
  - unfold wrap64, wrap. rewrite Z.mod_same by lia. done.
  - rewrite (wrap_small 64 (n + b)) by (unfold uint; lia). apply wrap_small. unfold uint. lia.
Qed.

Lemma batch_count_lt n b k :
  0 ≤ n → 0 < b → n + b ≤ 2 ^ 64 → (k < batch_count n b ↔ k * b < n).
Proof.
  intros Hn Hb Hsum. rewrite batch_count_spec by done. split; intros Hk.
  - apply Z.lt_le_trans with ((k + 1) * b - b + 1); [lia|].
    assert ((k + 1) * b ≤ n + b - 1); [|lia].
    pose proof (Z.mul_div_le (n + b - 1) b Hb). nia.
  - assert (k + 1 ≤ (n + b - 1) / b); [|lia]. apply Z.div_le_lower_bound; [done|]. lia.
Qed.

Lemma batch_rows_ok {A} (planned : list A) k b :
  0 < b → len planned + b ≤ 2 ^ 64 → 0 ≤ k → k * b < len planned →
  batch_rows planned k b = Ok (take (Z.to_nat b) (drop (Z.to_nat (k * b)) planned)).
Proof.
  intros Hb Hsum Hk Hlt. unfold batch_rows.
  rewrite (wrap_small 64 (k * b)) by (unfold uint; lia).
  rewrite (proj2 (Z.ltb_lt _ _) Hlt).
  assert (Hend : Z.min (len planned) (wrap64 (k * b + b)) = Z.min (len planned) (k * b + b)).
  { rewrite wrap_small; [done|]. unfold uint. lia. }
  rewrite Hend. destruct (Z.ltb_spec (Z.min (len planned) (k * b + b)) (k * b)); [lia|]. f_equal.
  destruct (decide (k * b + b ≤ len planned)).
  - do 2 f_equal. lia.
  - rewrite !take_ge by (rewrite length_drop; lia). done.
Qed.

Lemma batches_from {A} (planned : list A) b m k :
  0 < b → len planned + b ≤ 2 ^ 64 → 0 ≤ k → k + Z.of_nat m = batch_count (len planned) b →
  ∃ chunks, rmap (λ k, batch_rows planned k b) (seqZ k (Z.of_nat m)) = Ok chunks ∧
    concat chunks = drop (Z.to_nat (k * b)) planned ∧
    Forall (λ chunk, 0 < len chunk ≤ b) chunks.
Proof.
  intros Hb Hsum. revert k. induction m as [|m IH]; intros k Hk Hm.
  { exists []. split; [done|]. split; [|constructor]. rewrite drop_ge; [done|].
    pose proof (batch_count_lt (len planned) b k ltac:(lia) Hb Hsum). lia. }
  assert (Hlt : k * b < len planned) by (apply batch_count_lt; lia).
  destruct (IH (k + 1)) as (chunks & Hrun & Hconcat & Hall); [lia..|].
  rewrite seqZ_cons by lia. cbn [rmap]. rewrite batch_rows_ok by done. cbn [rbind].
  replace (Z.succ k) with (k + 1) by lia. replace (Z.pred (Z.of_nat (S m))) with (Z.of_nat m) by lia.
  rewrite Hrun. cbn [rbind]. eexists. split; [done|]. cbn [concat]. rewrite Hconcat. split.
  - replace (Z.to_nat ((k + 1) * b)) with (Z.to_nat (k * b) + Z.to_nat b)%nat by nia.
    rewrite <- drop_drop, take_drop. done.
  - constructor; [|done]. rewrite length_take, length_drop. lia.
Qed.

(** C32: however many ranks and whatever the batch size, the batches of all the
    ranks together are the rows of the train split, each row exactly once; every
    batch has between one and [batchSize] rows, the batches of a rank put
    together are its rows in order, and no rank has more than one row more than
    another.  The number of rows and the batch size add up to at most 2^64. *)
Theorem batches_partition_train_rows (snapshot : DatasetSnapshotMeta) (epoch worldSize batchSize : Z) :
  0 < worldSize → 0 < batchSize → len (ds_rows snapshot) + batchSize ≤ 2 ^ 64 →
  ∃ shards,
    rmap (λ rank, plannedSnapshotRows snapshot epoch rank worldSize "train") (seqZ 0 worldSize)
      = Ok shards ∧
    concat shards ≡ₚ List.filter (in_split "train") (ds_rows snapshot) ∧
    Forall (λ planned, ∃ batches,
      rmap (λ batch, batch_rows planned batch batchSize)
        (seqZ 0 (batch_count (len planned) batchSize)) = Ok batches ∧
      concat batches = planned ∧ Forall (λ rows, 0 < len rows ≤ batchSize) batches) shards ∧
    ∀ a b, a ∈ shards → b ∈ shards → len a ≤ len b + 1.
Proof.
  intros Hw Hb Hsum. set (l := sorted_rows snapshot epoch "train").
  assert (Hperm : l ≡ₚ List.filter (in_split "train") (ds_rows snapshot)) by apply stable_sort_perm.
  assert (Hlen : len l ≤ len (ds_rows snapshot)).
  { rewrite Hperm. apply Nat2Z.inj_le. apply List.filter_length_le. }
  exists (map (λ r, shard 0 worldSize r l) (seqZ 0 worldSize)). split; [|split; [|split]].
  - assert (Hin : ∀ r, r ∈ seqZ 0 worldSize → r < worldSize) by (intros r Hr%elem_of_seqZ; lia).
    induction (seqZ 0 worldSize) as [|r ranks IH]; [done|]. cbn [rmap map].
    unfold plannedSnapshotRows at 1. rewrite (proj2 (Z.eqb_neq _ _)) by lia.
    rewrite (proj2 (Z.leb_gt _ _)) by apply Hin, list_elem_of_here. cbn [rbind].
    rewrite IH; [done|]. intros r' Hr'. by apply Hin, list_elem_of_further.
  - by rewrite shards_partition.
  - apply Forall_forall. intros planned Hp. apply list_elem_of_In, in_map_iff in Hp as (r & <- & Hr).
    apply list_elem_of_In, elem_of_seqZ in Hr.
    set (planned := shard 0 worldSize r l).
    assert (Hshard : len planned ≤ len l).
    { unfold planned. clear. generalize 0%nat as i. induction l as [|x l IH]; intros i; [done|].
      cbn [shard]. specialize (IH (S i)). case_match; cbn [length]; lia. }
    pose proof (batch_count_spec (len planned) batchSize ltac:(lia) Hb ltac:(lia)) as Hcount.
    pose proof (Z.div_pos (len planned + batchSize - 1) batchSize ltac:(lia) Hb) as Hpos.
    destruct (batches_from planned batchSize (Z.to_nat (batch_count (len planned) batchSize)) 0)
      as (batches & Hrun & Hconcat & Hall); [done|lia|done|lia|].
    rewrite Z2Nat.id in Hrun by lia. exists batches. by split_and!.
  - intros a b Ha Hb'. apply list_elem_of_In, in_map_iff in Ha as (r & <- & Hr).
    apply list_elem_of_In, in_map_iff in Hb' as (r' & <- & Hr').
    apply list_elem_of_In, elem_of_seqZ in Hr, Hr'.
    pose proof (shard_length worldSize r l 0 ltac:(lia)) as H1.
    pose proof (shard_length worldSize r' l 0 ltac:(lia)) as H2.
    change (Z.of_nat 0) with 0 in *. rewrite !Z.add_0_l in H1, H2.
    rewrite (Z.div_small (worldSize - 1 - r)) in H1 by lia.
    rewrite (Z.div_small (worldSize - 1 - r')) in H2 by lia.
    assert ((len l + worldSize - 1 - r) / worldSize ≤ (len l + worldSize - 1 - r') / worldSize + 1); [|lia].
    rewrite <- (Z.div_add _ 1 worldSize) by lia. apply Z.div_le_mono; lia.
Qed.

(** ** Splits *)

Section splits.
Context (snapshot : DatasetSnapshotMeta) (condition : option Node) (userIdIndex : option nat).

(** The row of the snapshot for a row of the table. *)
Definition row_split (scanned : ScanRow) (row : SnapshotRowMeta) : Prop :=
  ∃ key, split_key snapshot scanned = Ok key ∧
    row = mkSnapshotRow (rowIdString (sc_id scanned)) (splitForKey (ds_seed snapshot) key).

(** Every key has been seen in its own split only. *)
Definition keys_once (state : SplitState) : Prop :=
  ∀ key set, splitKeySplits state !! key = Some set → set = {[splitForKey (ds_seed snapshot) key]}.

Lemma split_row_ok scanned state state' :
  split_row snapshot userIdIndex scanned state = Ok state' → keys_once state →
  keys_once state' ∧ ∃ row, row_split scanned row ∧ sp_rows state' = sp_rows state ++ [row].
Proof.
  unfold split_row. destruct (split_key snapshot scanned) as [key|] eqn:Hkey; [|done].
  cbn [rbind]. intros [= <-] Honce. split; [|eexists; split; [by exists key|done]].
  unfold keys_once. cbn [splitKeySplits]. case_match; [done|].
  intros key' set. unfold add_split. destruct (decide (key' = key)) as [->|Hne].
  - rewrite lookup_insert_eq. intros [= <-].
    destruct (splitKeySplits state !! key) as [seen|] eqn:Hseen; cbn; [|set_solver].
    rewrite (Honce _ _ Hseen). set_solver.
  - rewrite lookup_insert_ne by done. apply Honce.
Qed.

(** The rows the condition holds for. *)
Definition kept_rows (rows : list ScanRow) : list ScanRow :=
  List.filter (λ r, match keeps condition (sc_row r) with Ok b => b | Err _ => false end) rows.

Lemma split_rows_ok rows state state' :
  split_rows snapshot condition userIdIndex rows state = Ok state' → keys_once state →
  keys_once state' ∧ ∃ added, Forall2 row_split (kept_rows rows) added ∧
    sp_rows state' = sp_rows state ++ added.
Proof.
  revert state. induction rows as [|r rows IH]; intros state; cbn [split_rows].
  { intros [= <-] Honce. split; [done|]. exists []. by rewrite app_nil_r. }
  unfold kept_rows in *. cbn [List.filter].
  destruct (keeps condition (sc_row r)) as [[]|] eqn:Hkeep; cbn [rbind]; [| |done].
  - destruct (split_row snapshot userIdIndex r state) as [state1|] eqn:Hrow; [|done]. cbn [rbind].
    intros Hrows Honce. destruct (split_row_ok _ _ _ Hrow Honce) as (Honce1 & row & Hsplit & Hsp).
    destruct (IH state1 Hrows Honce1) as (Honce' & added & Hadded & Hsp').
    split; [done|]. exists (row :: added). split; [by constructor|]. by rewrite Hsp', Hsp, <- app_assoc.
  - apply IH.
Qed.
End splits.

(** A hash map is walked over its own entries. *)
Definition walks (order : gmap string (gset string) → list (string * gset string)) : Prop :=
  ∀ m x, x ∈ order m → m !! x.1 = Some x.2.

Lemma keys_once_no_leak order snapshot state warning :
  walks order → keys_once snapshot state → leak order (splitKeySplits state) warning = [].
Proof.
  intros Hwalk Honce. unfold leak. destruct (List.find _ _) as [entry|] eqn:Hf; [|done].
  apply List.find_some in Hf as [Hin Hsize]. apply list_elem_of_In, Hwalk, Honce in Hin.
  rewrite Hin, size_singleton in Hsize. done.
Qed.

Lemma key_warning_not_user key key' : key_warning key ≠ user_warning key'.
Proof. done. Qed.

(** C33: a snapshot that is made holds, in the order of a scan, exactly the rows
    of the table the condition of its query holds for; the split of a row depends
    on the seed and on the text of its split key alone, so that rows with the
    same key are never in two splits, and the warning about a split key in
    several splits is never given. *)
Theorem snapshot_splits_by_key {D F : Type} `{HeapFiles D F}
    (order : gmap string (gset string) → list (string * gset string))
    (s : CreateSnapshotStmt) (e e' : engine (D:=D)) (report : Report) :
  walks order → executeCreateSnapshot order s e = (Ok report, e') →
  ∃ rows e1 snapshot,
    scanTable (s_fromTable (cs_source s)) (s_fromAlias (cs_source s)) e = (Ok rows, e1) ∧
    getSnapshot (catalog_ e') (cs_name s) = Some snapshot ∧
    ds_seed snapshot = cs_seed s ∧
    Forall2 (row_split snapshot) (kept_rows (s_where (cs_source s)) rows) (ds_rows snapshot) ∧
    (∀ key, key_warning key ∉ ds_warnings snapshot) ∧
    (∀ a b x y, row_split snapshot a x → row_split snapshot b y →
       split_key snapshot a = split_key snapshot b → sr_split x = sr_split y).
Proof.
  intros Hwalk. unfold executeCreateSnapshot, mbind, action_bind, gets.
  destruct (hasSnapshot (catalog_ e) (cs_name s)); [done|].
  destruct (negb (plain_source (cs_source s))); [done|].
  destruct (getTable (catalog_ e) (s_fromTable (cs_source s))) as [table|]; [|done].
  unfold lift. destruct (describe_snapshot (catalog_ e) s table) as [snapshot0|] eqn:Hdesc; [|done].
  assert (Hseed : ds_seed snapshot0 = cs_seed s ∧ ds_name snapshot0 = cs_name s).
  { revert Hdesc. unfold describe_snapshot. destruct (selected_columns _) as [[wild sel]|]; [|done].
    cbn [rbind]. case_decide; [done|]. case_match; [done|].
    destruct (known_features _ _); [|done]. cbn [rbind]. case_match; [|done].
    case_match; [done|]. by intros [= <-]. }
  destruct Hseed as [Hseed Hname].
  destruct (scanTable _ _ e) as [[rows|] e1]; [|done].
  destruct (split_rows _ _ _ _ _) as [state|] eqn:Hrows; [|done].
  intros [= _ <-]. cbn [set_catalog modify catalog_].
  destruct (split_rows_ok snapshot0 _ _ _ _ _ Hrows) as (Honce & added & Hadded & Hsp); [done|].
  exists rows, e1, (with_rows order snapshot0 state). split; [done|]. split; [|split; [done|split; [|split]]].
  - unfold getSnapshot, addSnapshot. cbn. rewrite Hname. apply lookup_insert_eq.
  - cbn [ds_rows with_rows]. rewrite Hsp. cbn [sp_rows app].
    eapply Forall2_impl; [exact Hadded|]. intros r row (key & Hk & ->). by exists key.
  - intros key. cbn [ds_warnings with_rows]. unfold leak_warnings.
    rewrite (keys_once_no_leak order snapshot0) by done. cbn [app]. unfold leak.
    case_match; [|by intros ?%elem_of_nil]. intros Hk%list_elem_of_singleton. by apply key_warning_not_user in Hk.
  - intros a b x y (key & Ha & ->) (key' & Hb & ->) Heq. cbn. congruence.
Qed.

(** ** Sizes that wrap around *)

(** A batch number near 2^64 reads an invalid range; another one gives the first
    batch again. *)
Lemma batch_wraps {A} (planned : list A) :
  2 ≤ len planned < 2 ^ 63 →
  batch_rows planned (2 ^ 64 - 1) (2 ^ 64 - 1) = Err (Undefined "invalid range") ∧
  batch_rows planned (2 ^ 63) 2 = batch_rows planned 0 2.
Proof.
  intros Hlen. unfold batch_rows. split; [|done].
  replace (wrap64 ((2 ^ 64 - 1) * (2 ^ 64 - 1))) with 1 by done.
  replace (wrap64 (1 + (2 ^ 64 - 1))) with 0 by done.
  rewrite (proj2 (Z.ltb_lt 1 (len planned))) by lia.
  by rewrite (proj2 (Z.ltb_lt (Z.min (len planned) 0) 1)) by lia.
Qed.

(** ** An example *)

#[local] Open Scope string_scope.

Definition here : loc := Loc 1 1.
Definition sample_rows : list SnapshotRowMeta :=
  [mkSnapshotRow "0:0" "train"; mkSnapshotRow "0:1" "test"; mkSnapshotRow "0:2" "train";
   mkSnapshotRow "0:3" "train"].
Definition sample_snapshot : DatasetSnapshotMeta :=
  mkSnapshotMeta "s" "" "t" "" "" "row" 7 [] (mkSnapshotFeature "y" "") sample_rows [].

Lemma batches_partition_train_rows_witness :
  ∃ shards,
    rmap (λ rank, plannedSnapshotRows sample_snapshot 1 rank 2 "train") (seqZ 0 2) = Ok shards ∧
    concat shards ≡ₚ List.filter (in_split "train") sample_rows ∧
    Forall (λ planned, ∃ batches,
      rmap (λ batch, batch_rows planned batch 1) (seqZ 0 (batch_count (len planned) 1)) = Ok batches ∧
      concat batches = planned ∧ Forall (λ rows, 0 < len rows ≤ 1)%Z batches) shards ∧
    ∀ a b, a ∈ shards → b ∈ shards → (len a ≤ len b + 1)%Z.
Proof.
  apply (batches_partition_train_rows sample_snapshot 1 2 1); [lia|lia|]. cbn. lia.
Defined.

Definition sample_statements : list data_stmt :=
  [Create (mkCreate "t" [mkColumnDef "user_id" "int" false false "" "";
                         mkColumnDef "y" "text" false false "" ""] false here);
   Insert_ (mkInsert "t" []
     (map (λ n, [Literal (LInt n) here; Literal (LString "a") here]) [1; 2; 1; 3; 2]) here)].

Definition sample_engine : engine (D:=Storage.storage) :=
  fold_left (λ e s, (execute (H:=heap_files 1) s e).2) sample_statements
    (mkEngine emptyCatalog (Storage.mkStorage (Storage.newPool 2) ∅) ∅).

Definition sample_create : CreateSnapshotStmt :=
  mkSnapshot "s" (mkSelect false [Wildcard "" "" here] "t" "" [] None [] None [] None None here)
    "user_id" 3 [] (mkFeature "" "") here.

Definition sample_run : exec Report * engine (D:=Storage.storage) :=
  executeCreateSnapshot (H:=heap_files 1) map_to_list sample_create sample_engine.
Definition sample_report : Report := default (mkReport [] [] "") (ok_value sample_run.1).

Example sample_splits :
  (sr_split <$> default [] (ds_rows <$> getSnapshot (catalog_ sample_run.2) "s"),
   option_map sf_name (ds_label <$> getSnapshot (catalog_ sample_run.2) "s")) =
  (["train"; "test"; "train"; "train"; "test"], Some "y").
Proof. vm_compute. reflexivity. Qed.

Lemma walks_map_to_list : walks map_to_list.
Proof. intros m [k v] Hx. by apply elem_of_map_to_list in Hx. Qed.

Lemma sample_run_ok : sample_run = (Ok sample_report, sample_run.2).
Proof. vm_compute. reflexivity. Qed.

Lemma snapshot_splits_by_key_witness :
  ∃ rows e1 snapshot,
    scanTable (H:=heap_files 1) "t" "" sample_engine = (Ok rows, e1) ∧
    getSnapshot (catalog_ sample_run.2) "s" = Some snapshot ∧
    ds_seed snapshot = 3 ∧
    Forall2 (row_split snapshot) (kept_rows None rows) (ds_rows snapshot) ∧
    (∀ key, key_warning key ∉ ds_warnings snapshot) ∧
    (∀ a b x y, row_split snapshot a x → row_split snapshot b y →
       split_key snapshot a = split_key snapshot b → sr_split x = sr_split y).
Proof.
  exact (snapshot_splits_by_key (H:=heap_files 1) map_to_list sample_create sample_engine
    sample_run.2 sample_report walks_map_to_list sample_run_ok).
Defined.
