(* ===== verification/Constraints.v ===== *)
(** What the statements of [Engine.v] guarantee: the rows of every table have
    the types of their columns, respect NOT NULL and the primary key, and every
    foreign key finds its row; a statement that fails changes nothing; one that
    succeeds does what it says.  Everything is proved against the interface of
    [Store.v] and so holds for the heap files of [Heap.v]. *)

From S2P Require Import Prelude.
From S2P Require Import Double.
From S2P Require Import Format.
From S2P Require Import Value.
From S2P Require Import Tuple.
From S2P Require Import Ast.
From S2P Require Import Catalog.
From S2P Require Import Eval.
From S2P Require Import Select.
From S2P Require Import BTree.
From S2P Require Import Storage.
From S2P Require Import Heap.
From S2P Require Import HeapSpec.
From S2P Require Import Store.
From S2P Require Import Engine.


(** * The constraints *)

(** A value a column may hold. *)
Definition value_ok (column : ColumnMeta) (v : Value) : Prop :=
  match v with
  | VNull => cm_not_null column = false ∧ cm_primary_key column = false
  | VInteger z => is_integer_type (cm_type column) = true ∧ i64 z
  | VReal d => is_real_type (cm_type column) = true ∧ u64 d
  | VText _ => is_text_type (cm_type column) = true
  | VBoolean _ => False
  | VBlob _ => cm_type column = "BLOB"
  end.

Definition row_ok (t : TableMeta) (tuple : Tuple) : Prop :=
  Forall2 value_ok (t_columns t) tuple.

(** No two rows have the same key. *)
Definition keys_unique (p : nat) (rs : rows) : Prop :=
  ∀ x y v w, x ∈ rs → y ∈ rs → x.1 ≠ y.1 → x.2 !! p = Some v → y.2 !! p = Some w →
    value_eqb v w = false.

(** [v] is the value of the column a foreign key names, in some row. *)
Definition present (c : Catalog) (M : gmap string rows) (table column : string) (v : Value)
    : Prop :=
  ∃ ft p frs y w, tables c !! table = Some ft ∧
    column_position (named column) (t_columns ft) = Some p ∧
    M !! table = Some frs ∧ y ∈ frs ∧ y.2 !! p = Some w ∧ value_eqb w v = true.

Definition column_ok (column : ColumnMeta) : Prop :=
  supported_type (cm_type column) = true ∧ upper (cm_type column) = cm_type column ∧
  (cm_primary_key column = true → is_real_type (cm_type column) = false).

Definition target_ok (c : Catalog) (name : string) (column : ColumnMeta) : Prop :=
  is_foreign column = true → cm_fk_table column ≠ name ∧
  ∃ ft p, tables c !! cm_fk_table column = Some ft ∧
    column_position (named (cm_fk_col column)) (t_columns ft) = Some p.

Record table_ok (c : Catalog) (name : string) (t : TableMeta) : Prop := {
  to_name : t_name t = name;
  to_safe : safe_name name = true;
  to_columns : Forall column_ok (t_columns t);
  to_distinct : NoDup (cm_name <$> t_columns t);
  to_primary : ∀ i j a b, t_columns t !! i = Some a → t_columns t !! j = Some b →
    cm_primary_key a = true → cm_primary_key b = true → i = j;
  to_targets : Forall (target_ok c name) (t_columns t);
}.

(** The rows of one table. *)
Record contents_ok (c : Catalog) (M : gmap string rows) (t : TableMeta) (rs : rows) : Prop := {
  co_rows : ∀ x, x ∈ rs → row_ok t x.2;
  co_keys : ∀ p, column_position is_primary (t_columns t) = Some p → keys_unique p rs;
  co_references : ∀ i column x v, t_columns t !! i = Some column → is_foreign column = true →
    x ∈ rs → x.2 !! i = Some v → isNull v = false →
    present c M (cm_fk_table column) (cm_fk_col column) v;
}.

Record database_ok (c : Catalog) (M : gmap string rows) : Prop := {
  do_dom : ∀ n, is_Some (M !! n) ↔ is_Some (tables c !! n);
  do_tables : ∀ n t, tables c !! n = Some t → table_ok c n t;
  do_contents : ∀ n t rs, tables c !! n = Some t → M !! n = Some rs → contents_ok c M t rs;
}.

(** ** Columns and positions *)

Lemma column_position_Some p cols i :
  column_position p cols = Some i → ∃ col, cols !! i = Some col ∧ p col = true.
Proof.
  revert i. induction cols as [|col cols IH]; intros i; cbn; [done|].
  destruct (p col) eqn:Hp; [intros [= <-]; by exists col|].
  destruct (column_position p cols) as [j|]; [|done]. cbn. intros [= <-].
  destruct (IH j eq_refl) as (col' & ? & ?). by exists col'.
Qed.

Lemma column_position_None p cols :
  column_position p cols = None → ∀ i col, cols !! i = Some col → p col = false.
Proof.
  induction cols as [|col cols IH]; cbn; [done|]. destruct (p col) eqn:Hp; [done|].
  destruct (column_position p cols); [done|]. intros _ [|i] col' Hi; [by injection Hi as <-|].
  by eapply IH.
Qed.

Lemma elem_of_columns_where p k cols i :
  i ∈ columns_where p k cols ↔ ∃ j col, i = (k + j)%nat ∧ cols !! j = Some col ∧ p col = true.
Proof.
  revert k. induction cols as [|col cols IH]; intros k; cbn.
  - rewrite elem_of_nil. split; [done|]. by intros (j & ? & _ & ? & _).
  - assert (Hrest : i ∈ columns_where p (S k) cols ↔
      ∃ j col', i = (k + S j)%nat ∧ (col :: cols) !! S j = Some col' ∧ p col' = true).
    { rewrite IH. split; intros (j & col' & -> & ? & ?); exists j, col'; split_and!; done || lia. }
    destruct (p col) eqn:Hp; [rewrite elem_of_cons|]; rewrite Hrest; split.
    + intros [->|(j & col' & -> & Hj)]; [exists 0%nat, col; split_and!; done || lia|].
      by exists (S j), col'.
    + intros ([|j] & col' & -> & Hj & Hc); [left; lia|right; by exists j, col'].
    + intros (j & col' & -> & Hj). by exists (S j), col'.
    + intros ([|j] & col' & -> & Hj & Hc); [injection Hj as <-; congruence|by exists j, col'].
Qed.

Lemma elem_of_columns p cols i :
  i ∈ columns_where p 0 cols ↔ ∃ col, cols !! i = Some col ∧ p col = true.
Proof.
  rewrite elem_of_columns_where. split.
  - intros (j & col & -> & ?). by exists col.
  - intros (col & ?). by exists i, col.
Qed.

Lemma columns_where_NoDup p k cols : NoDup (columns_where p k cols).
Proof.
  revert k. induction cols as [|col cols IH]; intros k; cbn; [constructor|].
  case_match; [|done]. constructor; [|done]. rewrite elem_of_columns_where.
  intros (j & ? & ? & _). lia.
Qed.

(** The key columns of a table are the one [find_if] finds. *)
Lemma primary_columns c n t :
  table_ok c n t →
  columns_where is_primary 0 (t_columns t) =
  match column_position is_primary (t_columns t) with Some p => [p] | None => [] end.
Proof.
  intros Ht. destruct (column_position is_primary (t_columns t)) as [p|] eqn:Hp.
  - destruct (column_position_Some _ _ _ Hp) as (col & Hcol & Hprim).
    assert (Hin : p ∈ columns_where is_primary 0 (t_columns t)) by (apply elem_of_columns; eauto).
    apply Permutation_singleton_r, NoDup_Permutation; [apply columns_where_NoDup|apply NoDup_singleton|].
    intros i. rewrite elem_of_columns, list_elem_of_singleton. split.
    + intros (col' & Hi & Hprim'). by eapply (to_primary _ _ _ Ht).
    + intros ->. eauto.
  - destruct (columns_where is_primary 0 (t_columns t)) as [|i l] eqn:Hl; [done|].
    assert (Hin : i ∈ columns_where is_primary 0 (t_columns t)) by (rewrite Hl; apply list_elem_of_here).
    apply elem_of_columns in Hin as (col & Hi & Hprim).
    by rewrite (column_position_None _ _ Hp i col Hi) in Hprim.
Qed.

Lemma row_ok_lookup t tuple i v :
  row_ok t tuple → tuple !! i = Some v →
  ∃ col, t_columns t !! i = Some col ∧ value_ok col v.
Proof. intros Hrow Hv. by apply (Forall2_lookup_r _ _ _ _ _ Hrow Hv). Qed.

Lemma row_ok_column t tuple i col :
  row_ok t tuple → t_columns t !! i = Some col → ∃ v, tuple !! i = Some v ∧ value_ok col v.
Proof. intros Hrow Hv. by apply (Forall2_lookup_l _ _ _ _ _ Hrow Hv). Qed.

(** A key is not a NaN and not a boolean. *)
Lemma key_well_ordered col v :
  column_ok col → cm_primary_key col = true → value_ok col v → well_ordered WithText v.
Proof.
  intros (_ & _ & Hreal) Hprim Hv. specialize (Hreal Hprim). destruct v; cbn in *; try done.
  - by destruct Hv.
  - destruct Hv. congruence.
Qed.

Lemma row_key c n t p tuple :
  table_ok c n t → column_position is_primary (t_columns t) = Some p → row_ok t tuple →
  ∃ key, tuple !! p = Some key ∧ well_ordered WithText key.
Proof.
  intros Ht Hp Hrow. destruct (column_position_Some _ _ _ Hp) as (col & Hcol & Hprim).
  destruct (row_ok_column t tuple p col Hrow Hcol) as (v & Hv & Hok).
  exists v. split; [done|]. eapply key_well_ordered; [|exact Hprim|exact Hok].
  eapply Forall_lookup_1; [apply (to_columns _ _ _ Ht)|done].
Qed.

Lemma value_ok_scalar col v : value_ok col v → scalar v.
Proof. destruct v; cbn; tauto. Qed.

Lemma row_ok_scalar t tuple : row_ok t tuple → Forall scalar tuple.
Proof.
  intros Hrow. apply Forall_lookup. intros i v Hv.
  destruct (row_ok_lookup t tuple i v Hrow Hv) as (col & _ & Hok). by eapply value_ok_scalar.
Qed.

(** * The primary index *)

(** The tree has the keys of the rows. *)
Definition indexed (p : nat) (rs : rows) (tree : BPlusTree) : Prop :=
  tree_ok WithText tree ∧
  ∀ e, e ∈ entries tree ↔ ∃ x, x ∈ rs ∧ x.2 !! p = Some e.1 ∧ x.1 = e.2.

Lemma indexed_empty p m : indexed p [] (newTree m).
Proof.
  split; [apply newTree_ok|]. intros e. cbn. rewrite elem_of_nil. split; [done|].
  intros (x & Hx & _). by apply elem_of_nil in Hx.
Qed.

Lemma indexed_insert p rs rs' tree tree' key r tuple :
  indexed p rs tree → well_ordered WithText key → tuple !! p = Some key →
  (∀ x, x ∈ rs' ↔ x = (r, tuple) ∨ x ∈ rs) →
  BTree.insert tree key r = Ok tree' → indexed p rs' tree'.
Proof.
  intros [Hok Hent] Hkey Hp Hrs Hins. pose proof (insert_spec WithText tree key r Hok Hkey) as Hspec.
  rewrite Hins in Hspec. destruct Hspec as (Hok' & es1 & es2 & (Hes & _) & Hes').
  split; [done|]. intros e. rewrite Hes', elem_of_app, elem_of_cons.
  specialize (Hent e). rewrite Hes, elem_of_app in Hent. split.
  - intros Hin. destruct (decide (e = (key, r))) as [->|Hne].
    + exists (r, tuple). rewrite Hrs. by split; [left|].
    + destruct (proj1 Hent) as (x & Hx & Hk); [tauto|]. exists x. by rewrite Hrs; split; [right|].
  - intros (x & [->|Hx]%Hrs & Hk & Hr).
    + destruct e as [k r']. cbn in *. right. left. congruence.
    + assert (e ∈ es1 ∨ e ∈ es2) by (apply Hent; eauto). tauto.
Qed.

Lemma build_index_ok c n t p acc rs tree tree' :
  table_ok c n t → column_position is_primary (t_columns t) = Some p →
  (∀ x, x ∈ rs → row_ok t x.2) →
  indexed p acc tree → build_index p tree (stored <$> rs) = Ok tree' →
  indexed p (acc ++ rs) tree'.
Proof.
  intros Ht Hp. revert acc tree. induction rs as [|[r tuple] rs IH]; intros acc tree Hrows Hacc.
  { rewrite app_nil_r. by intros [= <-]. }
  rewrite fmap_cons. cbn [build_index stored storedValues storedId fst snd].
  destruct (row_key c n t p tuple Ht Hp) as (key & Hkey & Hord); [apply (Hrows (r, tuple)), list_elem_of_here|].
  unfold nth_value. rewrite Hkey. cbn [rbind].
  destruct (BTree.insert tree key r) as [tree1|] eqn:Hins; [|done]. cbn [rbind]. intros Hrest.
  replace (acc ++ (r, tuple) :: rs) with ((acc ++ [(r, tuple)]) ++ rs) by by rewrite <- app_assoc.
  eapply IH; [|eapply indexed_insert; [exact Hacc|exact Hord|exact Hkey| |exact Hins]|exact Hrest].
  - intros x Hx. by apply Hrows, list_elem_of_further.
  - intros x. rewrite elem_of_app, list_elem_of_singleton. tauto.
Qed.

Lemma indexed_find p rs tree key :
  indexed p rs tree → well_ordered WithText key →
  ∃ o, BTree.find tree key = Ok o ∧
    (o = None → ∀ x v, x ∈ rs → x.2 !! p = Some v → value_eqb v key = false) ∧
    (∀ r, o = Some r → ∃ x v, x ∈ rs ∧ x.1 = r ∧ x.2 !! p = Some v ∧ value_eqb v key = true).
Proof.
  intros [Hok Hent] Hkey. exists (spec_find (entries tree) key).
  split; [by apply (find_spec WithText)|].
  pose proof (proj1 (tree_entries_ok WithText tree Hok)) as Hord. rewrite Forall_forall in Hord.
  unfold spec_find. split.
  - intros Hnone x v Hx Hv. destruct (List.find _ _) as [|] eqn:Hf in Hnone; [done|].
    pose proof (List.find_none _ _ Hf (v, x.1)) as Hz.
    assert (Hin : (v, x.1) ∈ entries tree) by (apply Hent; eauto).
    specialize (Hz (proj1 (list_elem_of_In _ _) Hin)). cbn in Hz.
    apply not_true_iff_false. intros Heq%(value_eqb_compare WithText); [lia|by apply (Hord (v, x.1))|done].
  - intros r Hsome. destruct (List.find _ _) as [[v r']|] eqn:Hf in Hsome; [|done].
    cbn in Hsome. injection Hsome as ->. apply List.find_some in Hf as [Hin Hz]. cbn in Hz.
    apply list_elem_of_In in Hin as Hin'. pose proof (Hord _ Hin') as Hvo.
    apply Hent in Hin' as (x & Hx & Hv & Hr). exists x, v. split_and!; try done.
    apply (value_eqb_compare WithText); [done..|lia].
Qed.

(** ** Scans for a value *)

Lemma scan_has_ok except p v rs b :
  scan_has except p v (stored <$> rs) = Ok b →
  if b then ∃ x w, x ∈ rs ∧ x.2 !! p = Some w ∧ value_eqb w v = true
  else ∀ x w, x ∈ rs → except ≠ Some x.1 → x.2 !! p = Some w → value_eqb w v = false.
Proof.
  induction rs as [|[r tuple] rs IH]; rewrite ?fmap_cons; cbn [scan_has stored storedId storedValues fst snd fmap list_fmap].
  { intros [= <-] x w Hx. by apply elem_of_nil in Hx. }
  case_bool_decide as Hex; [|unfold nth_value; destruct (tuple !! p) as [w|] eqn:Hw; [|done]; cbn [rbind];
    destruct (value_eqb w v) eqn:Heq].
  - intros Hb%IH. destruct b.
    + destruct Hb as (x & w & Hx & ?). exists x, w. by split; [apply list_elem_of_further|].
    + intros x w Hx Hne. apply elem_of_cons in Hx as [->|Hx]; [done|by apply Hb].
  - intros [= <-]. exists (r, tuple), w. by split; [apply list_elem_of_here|].
  - intros Hb%IH. destruct b.
    + destruct Hb as (x & w' & Hx & ?). exists x, w'. by split; [apply list_elem_of_further|].
    + intros x w' Hx Hne Hw'. apply elem_of_cons in Hx as [->|Hx]; [|by eapply Hb].
      cbn in Hw'. congruence.
Qed.

Lemma scan_refers_ok p v rs :
  scan_refers p v (stored <$> rs) = Ok false →
  ∀ x w, x ∈ rs → x.2 !! p = Some w → isNull w = false → value_eqb w v = false.
Proof.
  induction rs as [|[r tuple] rs IH]; rewrite ?fmap_cons; cbn [scan_refers stored storedValues fst snd fmap list_fmap].
  { intros _ x w Hx. by apply elem_of_nil in Hx. }
  unfold nth_value. destruct (tuple !! p) as [u|] eqn:Hu; [|done]. cbn [rbind].
  destruct (negb (isNull u) && value_eqb u v) eqn:Hhit; [done|]. intros Hb x w Hx Hw Hnull.
  apply elem_of_cons in Hx as [->|Hx]; [|by eapply IH].
  cbn in Hw. rewrite Hu in Hw. injection Hw as <-. rewrite Hnull in Hhit. done.
Qed.

(** ** Coercion *)

Lemma supported_exclusive ty :
  (is_integer_type ty = true → is_real_type ty = false ∧ is_text_type ty = false) ∧
  (is_real_type ty = true → is_text_type ty = false).
Proof.
  unfold is_integer_type, is_real_type, is_text_type. rewrite !orb_true_iff, !orb_false_iff, !String.eqb_eq.
  split; [intros [->| ->]|intros [[->| ->]| ->]]; done.
Qed.

Lemma coerceValue_ok col v w :
  column_ok col → scalar v → coerceValue col v = Ok w →
  w = VNull ∨ value_ok col w.
Proof.
  intros (_ & Hup & _) Hv. unfold coerceValue. rewrite Hup.
  destruct (isNull v) eqn:Hnull; [intros [= <-]; left; by destruct v|].
  destruct (is_integer_type (cm_type col)) eqn:Hi.
  { case_match; [|done]. destruct (asInteger v) as [z|] eqn:Hz; [|done]. intros [= <-]. right.
    split; [done|]. by eapply asInteger_i64. }
  destruct (is_real_type (cm_type col)) eqn:Hr.
  { case_match; [|done]. destruct (asReal v) as [d|] eqn:Hd; [|done]. intros [= <-]. right.
    split; [done|]. by eapply asReal_u64. }
  destruct (is_text_type (cm_type col)) eqn:Ht; [intros [= <-]; by right|].
  destruct (cm_type col =? "BLOB")%string eqn:Hb; [|done]. apply String.eqb_eq in Hb.
  case_decide as Htype; [|done]. intros [= <-]. right. by destruct v.
Qed.

Lemma coerce_values_ok cols tuple tuple' :
  Forall column_ok cols → Forall scalar tuple → length tuple = length cols →
  coerce_values cols tuple = Ok tuple' → Forall2 value_ok cols tuple'.
Proof.
  intros Hcols Htuple. revert cols Hcols tuple'.
  induction Htuple as [|v tuple Hv _ IH]; intros [|col cols] Hcols tuple' Hlen; try done.
  { intros [= <-]. constructor. }
  apply Forall_cons in Hcols as [Hcol Hcols]. cbn [coerce_values].
  destruct (coerceValue col v) as [w|] eqn:Hw; [cbn [rbind]|done].
  destruct ((cm_not_null col || cm_primary_key col) && isNull w) eqn:Hnull; [done|].
  destruct (coerce_values cols tuple) as [rest|] eqn:Hrest; [cbn [rbind]|done]. intros [= <-].
  constructor; [|by apply IH; [..|cbn in Hlen; lia|]].
  destruct (coerceValue_ok col v w Hcol Hv Hw) as [->|]; [|done].
  cbn in Hnull. rewrite andb_true_r in Hnull. by apply orb_false_iff in Hnull.
Qed.

(** * Reading the engine's state *)

Section engine.
Context {D F : Type} `{HeapFilesLaws D F}.

(** The index of every table but [skip] is up to date. *)
Definition indexes_ok (skip : option string) (c : Catalog) (M : gmap string rows)
    (indexes : gmap string BPlusTree) : Prop :=
  ∀ n tree, indexes !! n = Some tree → skip ≠ Some n →
    ∃ t p rs, tables c !! n = Some t ∧ column_position is_primary (t_columns t) = Some p ∧
      M !! n = Some rs ∧ indexed p rs tree.

Definition engine_ok (skip : option string) (c : Catalog) (M : gmap string rows) (e : engine)
    : Prop :=
  catalog_ e = c ∧ stores M (storage_ e) ∧ indexes_ok skip c M (primaryIndexes_ e).

(** Reading keeps every [HeapFile] object up to date and may add indexes. *)
Definition extends (e e' : engine) : Prop :=
  (∀ g k, attached g k (storage_ e) → attached g k (storage_ e')) ∧
  primaryIndexes_ e ⊆ primaryIndexes_ e'.

#[local] Instance extends_refl : Reflexive extends.
Proof. intros e. by split. Qed.
#[local] Instance extends_trans : Transitive extends.
Proof.
  intros e1 e2 e3 [Ha Hi] [Ha' Hi']. split; [by auto|by transitivity (primaryIndexes_ e2)].
Qed.

(** [m] reads a database with the tables [M]; [scans] says that it leaves the
    indexes alone.  A result has the property [Q]. *)
Definition reads {A} (scans : bool) (skip : option string) (c : Catalog) (M : gmap string rows)
    (e : engine) (m : action engine A) (Q : A → engine → Prop) : Prop :=
  ∃ r e', m e = (r, e') ∧ engine_ok skip c M e' ∧ extends e e' ∧
    (scans = true → primaryIndexes_ e' = primaryIndexes_ e) ∧ ∀ a, r = Ok a → Q a e'.

Lemma reads_pure {A} scans skip c M e (r : exec A) (Q : A → engine → Prop) m :
  m e = (r, e) → engine_ok skip c M e → (∀ a, r = Ok a → Q a e) →
  reads scans skip c M e m Q.
Proof. intros Hm He HQ. exists r, e. by split_and!. Qed.

Lemma reads_ret {A} scans skip c M e (a : A) (Q : A → engine → Prop) :
  engine_ok skip c M e → Q a e → reads scans skip c M e (mret a) Q.
Proof. intros He HQ. eapply reads_pure; [done..|]. by intros ? [= <-]. Qed.

Lemma reads_raise {A} scans skip c M e f (Q : A → engine → Prop) :
  engine_ok skip c M e → reads scans skip c M e (raise f) Q.
Proof. intros He. by eapply reads_pure. Qed.

Lemma reads_lift {A} scans skip c M e (r : exec A) (Q : A → engine → Prop) :
  engine_ok skip c M e → (∀ a, r = Ok a → Q a e) → reads scans skip c M e (lift r) Q.
Proof. intros He HQ. by eapply reads_pure. Qed.

Lemma reads_gets {A} scans skip c M e (f : engine → A) (Q : A → engine → Prop) :
  engine_ok skip c M e → Q (f e) e → reads scans skip c M e (gets f) Q.
Proof. intros He HQ. eapply reads_pure; [done..|]. by intros ? [= <-]. Qed.

Lemma reads_bind {A B} scans skip c M e (m : action engine A) (k : A → action engine B) Q R :
  reads scans skip c M e m Q →
  (∀ a e', engine_ok skip c M e' → extends e e' → Q a e' → reads scans skip c M e' (k a) R) →
  reads scans skip c M e (m ≫= k) R.
Proof.
  intros (r & e1 & Hm & He1 & Hext & Hidx & HQ) Hk. unfold reads, mbind, action_bind.
  rewrite Hm. destruct r as [a|f].
  - destruct (Hk a e1 He1 Hext (HQ a eq_refl)) as (r & e2 & Hrun & He2 & Hext2 & Hidx2 & HR).
    exists r, e2. split_and!; try done; [by etrans|]. intros Hs. by rewrite Hidx2, Hidx.
  - exists (Err f), e1. by split_and!.
Qed.

Lemma reads_mono {A} scans skip c M e (m : action engine A) (Q R : A → engine → Prop) :
  reads scans skip c M e m Q → (∀ a e', extends e e' → Q a e' → R a e') →
  reads scans skip c M e m R.
Proof.
  intros (r & e1 & Hm & He1 & Hext & Hidx & HQ) HR. exists r, e1. split_and!; try done.
  intros a Ha. by apply HR, HQ.
Qed.

Lemma reads_scans {A} scans skip c M e (m : action engine A) (Q : A → engine → Prop) :
  reads true skip c M e m Q →
  reads scans skip c M e m (λ a e', Q a e' ∧ primaryIndexes_ e' = primaryIndexes_ e).
Proof.
  intros (r & e1 & Hm & He1 & Hext & Hidx & HQ). exists r, e1. split_and!; try done.
  - intros _. by apply Hidx.
  - intros a Ha. split; [by apply HQ|by apply Hidx].
Qed.

Lemma reads_for_each {A} scans skip c M e (f : A → action engine ()) l (Q : A → Prop) :
  engine_ok skip c M e →
  (∀ a e', a ∈ l → engine_ok skip c M e' → reads scans skip c M e' (f a) (λ _ _, Q a)) →
  reads scans skip c M e (for_each f l) (λ _ _, ∀ a, a ∈ l → Q a).
Proof.
  revert e. induction l as [|x l IH]; intros e He Hf; cbn [for_each].
  { apply reads_ret; [done|]. by intros a Ha%elem_of_nil. }
  eapply reads_bind; [apply Hf; [apply list_elem_of_here|done]|]. intros [] e1 He1 _ Hx.
  eapply reads_mono; [apply IH; [done|]|].
  - intros a e' Ha. by apply Hf, list_elem_of_further.
  - intros [] e2 _ Hall a Ha. apply elem_of_cons in Ha as [Ha|Ha]; [by rewrite Ha|auto].
Qed.

(** ** Scans *)

(** A database: the constraints hold in [M], whose rows are those of [e]. *)
Context (c : Catalog) (M : gmap string rows).

Lemma heap_known n : safe_name n = true → heap n = Ok (open_heap (F:=F) n).
Proof. intros Hn. unfold heap, tablePath. by rewrite Hn. Qed.

Lemma reads_scan_heap skip e n rs :
  engine_ok skip c M e → safe_name n = true → M !! n = Some rs →
  reads true skip c M e (scan_heap n) (λ l _, l = stored <$> rs).
Proof.
  intros (Hc & Hst & Hidx) Hn Hrs. unfold scan_heap. rewrite (heap_known n Hn).
  destruct (scan_law M n rs (open_heap n) (storage_ e) Hst Hrs) as (h' & s' & Hscan & Hst' & _ & Hatt).
  { by eapply open_law. }
  unfold reads, mbind, action_bind, lift, on_heap. rewrite Hscan. cbn [rbind mret action_ret].
  eexists _, _. split; [reflexivity|]. split; [by split|]. split; [by split|]. split; [done|].
  by intros l [= <-].
Qed.

Lemma reads_known_table scans skip e n :
  engine_ok skip c M e →
  reads scans skip c M e (known_table n) (λ t _, tables c !! n = Some t).
Proof.
  intros He. unfold known_table. eapply reads_bind; [by apply (reads_gets _ _ _ _ _ _ (λ x _, x = c)), He|].
  intros a e' He' _ ->. unfold getTable. destruct (tables c !! n) eqn:Hn.
  - by apply reads_ret.
  - by apply reads_raise.
Qed.

Context (Hdb : ∀ n t, tables c !! n = Some t → table_ok c n t).
Context (Hrows : ∀ n t rs, tables c !! n = Some t → M !! n = Some rs → ∀ x, x ∈ rs → row_ok t x.2).

Lemma reads_primaryIndex skip e n t rs p :
  engine_ok skip c M e → skip ≠ Some n → tables c !! n = Some t → M !! n = Some rs →
  column_position is_primary (t_columns t) = Some p →
  reads false skip c M e (primaryIndex n)
    (λ tree e', indexed p rs tree ∧ primaryIndexes_ e' !! n = Some tree).
Proof.
  intros He Hskip Ht Hrs Hp. unfold primaryIndex.
  eapply reads_bind; [by apply (reads_gets _ _ _ _ _ _ (λ x e, x = primaryIndexes_ e))|].
  intros indexes e' He' _ ->. destruct (primaryIndexes_ e' !! n) as [tree|] eqn:Hn.
  - apply reads_ret; [done|]. destruct He' as (_ & _ & Hidx).
    destruct (Hidx n tree Hn Hskip) as (t' & p' & rs' & Ht' & Hp' & Hrs' & Hin).
    split; [|done]. congruence.
  - eapply reads_bind; [by apply reads_scans, reads_known_table|]. intros t' e1 He1 _ [Ht' Hi1].
    rewrite Ht in Ht'. injection Ht' as <-. rewrite Hp. pose proof (Hdb n t Ht) as Htab.
    eapply reads_bind; [by apply reads_scans, reads_scan_heap, Hrs; [|apply Htab]|].
    intros l e2 He2 _ [-> Hi2].
    eapply reads_bind; [apply (reads_lift _ _ _ _ _ _ (λ tree e3, indexed p rs tree ∧ e3 = e2)); [done|]|].
    { intros tree Hb. split; [|done].
      apply (build_index_ok c n t p [] rs (newTree defaultMaxKeys) tree Htab Hp); [|apply indexed_empty|done].
      by apply (Hrows n). }
    intros tree e3 (Hc & Hst & Hidx) _ [Hin ->]. eexists _, _. split; [reflexivity|].
    assert (Hnone : primaryIndexes_ e2 !! n = None) by by rewrite Hi2, Hi1.
    split; [split; [done|split; [done|]]|split; [split; [done|]|split; [done|]]].
    + cbn. intros m tree' Hm Hm'. apply lookup_insert_Some in Hm as [[<- <-]|[_ Hm]]; [|by apply Hidx].
      by exists t, p, rs.
    + cbn. by apply insert_subseteq.
    + intros ? [= <-]. split; [done|]. cbn. apply lookup_insert_eq.
Qed.

(** ** The checks of a new row *)

Lemma reads_check_key_new skip e n t rs p tuple key :
  engine_ok skip c M e → skip ≠ Some n → tables c !! n = Some t → M !! n = Some rs →
  column_position is_primary (t_columns t) = Some p →
  tuple !! p = Some key → well_ordered WithText key →
  reads false skip c M e (check_key t tuple None p)
    (λ _ e', is_Some (primaryIndexes_ e' !! n) ∧
       ∀ x v, x ∈ rs → x.2 !! p = Some v → value_eqb v key = false).
Proof.
  intros He Hskip Ht Hrs Hp Hkey Hord. unfold check_key, nth_value. rewrite Hkey.
  rewrite (to_name _ _ _ (Hdb n t Ht)).
  eapply reads_bind; [by apply (reads_lift _ _ _ _ _ _ (λ k _, k = key)); [|intros ? [= <-]]|].
  intros ? e1 He1 _ ->.
  eapply (reads_bind _ _ _ _ _ _ _ (λ b e', is_Some (primaryIndexes_ e' !! n) ∧
    (b = false → ∀ x v, x ∈ rs → x.2 !! p = Some v → value_eqb v key = false))).
  - eapply reads_bind; [by eapply reads_primaryIndex|]. intros tree e2 He2 _ [Hin Hidx].
    destruct (indexed_find p rs tree key Hin Hord) as (o & Hfind & Hnone & _). rewrite Hfind.
    eapply reads_bind; [by apply (reads_lift _ _ _ _ _ _ (λ x e', x = o ∧ e' = e2)); [|intros ? [= <-]]|].
    intros ? e3 He3 _ [-> ->]. apply reads_ret; [done|]. split; [eauto|].
    intros Hb%bool_decide_eq_false. apply Hnone. destruct o; [|done]. destruct Hb. eauto.
  - intros b e2 He2 _ [Hidx Hb]. destruct b; [by apply reads_raise|]. apply reads_ret; [done|].
    split; [done|]. by apply Hb.
Qed.

Lemma reads_check_key_old skip e n t rs p tuple key r :
  engine_ok skip c M e → tables c !! n = Some t → M !! n = Some rs →
  tuple !! p = Some key →
  reads true skip c M e (check_key t tuple (Some r) p)
    (λ _ _, ∀ x v, x ∈ rs → x.1 ≠ r → x.2 !! p = Some v → value_eqb v key = false).
Proof.
  intros He Ht Hrs Hkey. unfold check_key, nth_value. rewrite Hkey.
  pose proof (Hdb n t Ht) as Htab. rewrite (to_name _ _ _ Htab).
  eapply reads_bind; [by apply (reads_lift _ _ _ _ _ _ (λ k _, k = key)); [|intros ? [= <-]]|].
  intros ? e1 He1 _ ->.
  eapply (reads_bind _ _ _ _ _ _ _ (λ b e', b = false →
    ∀ x v, x ∈ rs → x.1 ≠ r → x.2 !! p = Some v → value_eqb v key = false)).
  - eapply reads_bind; [by apply reads_scan_heap, Hrs; [|apply Htab]|].
    intros l e2 He2 _ ->. apply reads_lift; [done|]. intros b Hb%scan_has_ok ->.
    intros x v Hx Hne. apply Hb; [done|congruence].
  - intros b e2 He2 _ Hb. destruct b; [by apply reads_raise|]. apply reads_ret; [done|]. by apply Hb.
Qed.

Lemma reads_check_reference skip e t tuple i :
  (∀ n, is_Some (M !! n) ↔ is_Some (tables c !! n)) →
  engine_ok skip c M e →
  reads true skip c M e (check_reference t tuple i)
    (λ _ _, ∀ col v, t_columns t !! i = Some col → tuple !! i = Some v → isNull v = false →
       present c M (cm_fk_table col) (cm_fk_col col) v).
Proof.
  intros Hdom He. unfold check_reference. destruct (t_columns t !! i) as [col|] eqn:Hcol.
  2:{ by apply reads_ret. }
  unfold nth_value. destruct (tuple !! i) as [v|] eqn:Hv.
  2:{ eapply reads_bind; [by apply (reads_lift _ _ _ _ _ _ (λ _ _, False))|done]. }
  eapply reads_bind; [by apply (reads_lift _ _ _ _ _ _ (λ k _, k = v)); [|intros ? [= <-]]|].
  intros ? e1 He1 _ ->. destruct (isNull v) eqn:Hnull; [apply reads_ret; [done|]; intros; congruence|].
  eapply reads_bind; [by apply (reads_gets _ _ _ _ _ _ (λ x _, x = c)), He1|]. intros ? e2 He2 _ ->.
  unfold getTable. destruct (tables c !! cm_fk_table col) as [ft|] eqn:Hft; [|by apply reads_raise].
  destruct (column_position (named (cm_fk_col col)) (t_columns ft)) as [p|] eqn:Hp; [|by apply reads_raise].
  pose proof (Hdb _ _ Hft) as Htab. rewrite (to_name _ _ _ Htab).
  destruct (proj2 (Hdom (cm_fk_table col))) as [frs Hfrs]; [eauto|].
  eapply reads_bind; [by apply reads_scan_heap, Hfrs; [|apply Htab]|]. intros l e3 He3 _ ->.
  eapply reads_bind; [apply (reads_lift _ _ _ _ _ _ (λ b _, b = true → present c M (cm_fk_table col) (cm_fk_col col) v)); [done|]|].
  { intros b Hb%scan_has_ok ->. destruct Hb as (x & w & Hx & Hw & Heq).
    by exists ft, p, frs, x, w. }
  intros b e4 He4 _ Hb. destruct b; [|by apply reads_raise]. apply reads_ret; [done|].
  intros col' v' [= <-] [= <-] _. by apply Hb.
Qed.

Context (Hdom : ∀ n, is_Some (M !! n) ↔ is_Some (tables c !! n)).

(** What [validateAndCoerce] makes sure of; the row may take the place of the
    row [replacing]. *)
Record accepted (t : TableMeta) (rs : rows) (replacing : option RowId) (tuple : Tuple) : Prop := {
  ac_row : row_ok t tuple;
  ac_key : ∀ p x v key, column_position is_primary (t_columns t) = Some p →
    x ∈ rs → replacing ≠ Some x.1 → x.2 !! p = Some v → tuple !! p = Some key →
    value_eqb v key = false;
  ac_references : ∀ i col v, t_columns t !! i = Some col → is_foreign col = true →
    tuple !! i = Some v → isNull v = false → present c M (cm_fk_table col) (cm_fk_col col) v;
}.

(** The index has been built, where it was consulted. *)
Definition key_index (n : string) (t : TableMeta) (replacing : option RowId) (e : engine (D:=D)) : Prop :=
  replacing = None → is_Some (column_position is_primary (t_columns t)) →
  is_Some (primaryIndexes_ e !! n).

Definition no_index (replacing : option RowId) : bool :=
  match replacing with None => false | Some _ => true end.

Lemma reads_check_key skip e n t rs p replacing tuple :
  engine_ok skip c M e → (replacing = None → skip ≠ Some n) →
  tables c !! n = Some t → M !! n = Some rs → row_ok t tuple →
  column_position is_primary (t_columns t) = Some p →
  reads (no_index replacing) skip c M e (check_key t tuple replacing p)
    (λ _ e', key_index n t replacing e' ∧
       ∀ x v key, x ∈ rs → replacing ≠ Some x.1 → x.2 !! p = Some v → tuple !! p = Some key →
         value_eqb v key = false).
Proof.
  intros He Hskip Ht Hrs Hrow Hp.
  destruct (row_key c n t p tuple (Hdb n t Ht) Hp Hrow) as (key & Hkey & Hord).
  destruct replacing as [r|].
  - eapply reads_mono; [by apply (reads_check_key_old _ _ _ _ _ _ _ _ r He Ht Hrs Hkey)|].
    intros [] e' _ HQ. split; [done|]. intros x v key' Hx Hne Hv Hk.
    assert (key' = key) as -> by congruence. apply (HQ x v Hx); [congruence|done].
  - eapply reads_mono; [by eapply reads_check_key_new; [..|exact Hkey|]; eauto|].
    intros [] e' _ [Hsome HQ]. split; [by intros _ _|]. intros x v key' Hx _ Hv Hk.
    assert (key' = key) as -> by congruence. by apply (HQ x v).
Qed.

Lemma key_index_extends n t replacing e e' :
  primaryIndexes_ e ⊆ primaryIndexes_ e' → key_index n t replacing e →
  key_index n t replacing e'.
Proof.
  intros Hsub Hkey Hnone Hp. destruct (Hkey Hnone Hp) as [tree Htree].
  exists tree. by eapply lookup_weaken.
Qed.

Lemma reads_weaken {A} scans skip e (m : action engine A) (Q : A → engine → Prop) :
  reads true skip c M e m Q → reads scans skip c M e m Q.
Proof.
  intros (r & e1 & Hm & He1 & Hext & Hidx & HQ). exists r, e1. split_and!; try done.
  intros _. by apply Hidx.
Qed.

Lemma reads_check_keys skip e n t rs replacing tuple :
  engine_ok skip c M e → (replacing = None → skip ≠ Some n) →
  tables c !! n = Some t → M !! n = Some rs → row_ok t tuple →
  reads (no_index replacing) skip c M e
    (for_each (check_key t tuple replacing) (columns_where is_primary 0 (t_columns t)))
    (λ _ e', key_index n t replacing e' ∧
       ∀ p x v key, column_position is_primary (t_columns t) = Some p → x ∈ rs →
         replacing ≠ Some x.1 → x.2 !! p = Some v → tuple !! p = Some key →
         value_eqb v key = false).
Proof.
  intros He Hskip Ht Hrs Hrow. rewrite (primary_columns c n t (Hdb n t Ht)).
  destruct (column_position is_primary (t_columns t)) as [p|] eqn:Hp; cbn [for_each].
  - eapply reads_bind; [by eapply reads_check_key|]. intros [] e1 He1 _ [Hidx HQ].
    apply reads_ret; [done|]. split; [done|]. intros p' x v key [= <-]. by apply HQ.
  - apply reads_ret; [done|]. split; [|done]. intros _ Hsome. rewrite Hp in Hsome.
    by destruct Hsome.
Qed.

Lemma reads_validateForeignKeys skip e t tuple :
  engine_ok skip c M e →
  reads true skip c M e (validateForeignKeys t tuple)
    (λ _ _, ∀ i col v, t_columns t !! i = Some col → is_foreign col = true →
       tuple !! i = Some v → isNull v = false → present c M (cm_fk_table col) (cm_fk_col col) v).
Proof.
  intros He. eapply reads_mono; [apply (reads_for_each _ _ _ _ _ _ _ (λ i, ∀ col v,
    t_columns t !! i = Some col → tuple !! i = Some v → isNull v = false →
    present c M (cm_fk_table col) (cm_fk_col col) v) He)|].
  - intros i e' _ He'. by apply reads_check_reference.
  - intros [] e' _ HQ i col v Hcol Hfor. apply HQ; [|done]. apply elem_of_columns. eauto.
Qed.

Lemma reads_validateAndCoerce skip e n t rs replacing tuple :
  engine_ok skip c M e → (replacing = None → skip ≠ Some n) →
  tables c !! n = Some t → M !! n = Some rs → Forall scalar tuple →
  reads (no_index replacing) skip c M e (validateAndCoerce t tuple replacing)
    (λ tuple' e', coerce_values (t_columns t) tuple = Ok tuple' ∧
       accepted t rs replacing tuple' ∧ key_index n t replacing e').
Proof.
  intros He Hskip Ht Hrs Hsc. pose proof (Hdb n t Ht) as Htab. unfold validateAndCoerce.
  case_decide as Hlen; [by apply reads_raise|].
  eapply reads_bind; [apply (reads_lift _ _ _ _ _ _ (λ tuple' _,
    coerce_values (t_columns t) tuple = Ok tuple' ∧ row_ok t tuple')); [done|]|].
  { intros tuple' Htuple. split; [done|]. by eapply coerce_values_ok; [apply (to_columns _ _ _ Htab)|..]. }
  intros tuple' e1 He1 _ [Hcoerce Hrow].
  eapply reads_bind; [by eapply reads_check_keys|]. intros [] e2 He2 _ [Hidx Hkey].
  eapply reads_bind; [by apply reads_weaken, reads_scans, reads_validateForeignKeys|].
  intros [] e3 He3 _ [Href Heq].
  apply reads_ret; [done|]. split; [done|]. split; [done|].
  by eapply key_index_extends; [|exact Hidx]; rewrite Heq.
Qed.

(** ** The rows that refer to a row *)

(** No row refers to the row [tuple], except through values it keeps. *)
Definition unreferenced (t : TableMeta) (tuple : Tuple) (replacement : option Tuple) : Prop :=
  ∀ m rt rrs i col q v, tables c !! m = Some rt → M !! m = Some rrs →
    t_columns rt !! i = Some col → cm_fk_table col = t_name t →
    column_position (named (cm_fk_col col)) (t_columns t) = Some q → tuple !! q = Some v →
    (∃ new w, replacement = Some new ∧ new !! q = Some w ∧ value_eqb v w = true) ∨
    ∀ x w, x ∈ rrs → x.2 !! i = Some w → isNull w = false → value_eqb w v = false.

Lemma reads_check_incoming skip e t tuple replacement m rt rrs i :
  engine_ok skip c M e → tables c !! m = Some rt → M !! m = Some rrs →
  reads true skip c M e (check_incoming t tuple replacement rt i)
    (λ _ _, ∀ col q v, t_columns rt !! i = Some col →
       column_position (named (cm_fk_col col)) (t_columns t) = Some q → tuple !! q = Some v →
       (∃ new w, replacement = Some new ∧ new !! q = Some w ∧ value_eqb v w = true) ∨
       ∀ x w, x ∈ rrs → x.2 !! i = Some w → isNull w = false → value_eqb w v = false).
Proof.
  intros He Hrt Hrrs. unfold check_incoming.
  destruct (t_columns rt !! i) as [col|]; [|by apply reads_ret].
  destruct (column_position (named (cm_fk_col col)) (t_columns t)) as [q|] eqn:Hq;
    [|apply reads_ret; [done|]; intros; congruence].
  eapply reads_bind; [apply (reads_lift _ _ _ _ _ _ (λ v _, tuple !! q = Some v)); [done|]|].
  { intros v. unfold nth_value. destruct (tuple !! q); [|done]. by intros [= <-]. }
  intros v e1 He1 _ Hv.
  eapply (reads_bind _ _ _ _ _ _ _ (λ b _, b = true → ∃ new w, replacement = Some new ∧
    new !! q = Some w ∧ value_eqb v w = true)).
  { destruct replacement as [new|]; [|by apply reads_ret].
    eapply reads_bind; [apply (reads_lift _ _ _ _ _ _ (λ w _, new !! q = Some w)); [done|]|].
    - intros w. unfold nth_value. destruct (new !! q); [|done]. by intros [= <-].
    - intros w e2 He2 _ Hw. apply reads_ret; [done|]. intros Heq. by exists new, w. }
  intros same e2 He2 _ Hsame. destruct same.
  { apply reads_ret; [done|]. intros col' q' v' [= <-] Hq' Hv'. left.
    assert (q' = q) as -> by congruence. assert (v' = v) as -> by congruence. auto. }
  pose proof (Hdb m rt Hrt) as Htab. rewrite (to_name _ _ _ Htab).
  eapply reads_bind; [by apply reads_scan_heap, Hrrs; [|apply Htab]|]. intros l e3 He3 _ ->.
  eapply reads_bind; [apply (reads_lift _ _ _ _ _ _ (λ b _, b = false → ∀ x w, x ∈ rrs →
    x.2 !! i = Some w → isNull w = false → value_eqb w v = false)); [done|]|].
  { intros b Hb ->. by apply scan_refers_ok. }
  intros b e4 He4 _ Hb. destruct b; [by apply reads_raise|]. apply reads_ret; [done|].
  intros col' q' v' [= <-] Hq' Hv'. right.
  assert (q' = q) as -> by congruence. assert (v' = v) as -> by congruence. by apply Hb.
Qed.

Lemma elem_of_tableNames n : n ∈ tableNames c ↔ is_Some (tables c !! n).
Proof.
  unfold tableNames. rewrite list_elem_of_fmap. split.
  - intros ([m t] & -> & Hm%elem_of_map_to_list). cbn. eauto.
  - intros [t Ht]. exists (n, t). by rewrite elem_of_map_to_list.
Qed.

Lemma reads_validateNoIncomingReferences skip e t tuple replacement :
  engine_ok skip c M e →
  reads true skip c M e (validateNoIncomingReferences t tuple replacement)
    (λ _ _, unreferenced t tuple replacement).
Proof.
  intros He. unfold validateNoIncomingReferences.
  eapply reads_bind; [by apply (reads_gets _ _ _ _ _ _ (λ x _, x = c)), He|]. intros ? e1 He1 _ ->.
  eapply reads_mono; [apply (reads_for_each _ _ _ _ _ _ _ (λ m, ∀ rt rrs i col q v,
    tables c !! m = Some rt → M !! m = Some rrs →
    t_columns rt !! i = Some col → cm_fk_table col = t_name t →
    column_position (named (cm_fk_col col)) (t_columns t) = Some q → tuple !! q = Some v →
    (∃ new w, replacement = Some new ∧ new !! q = Some w ∧ value_eqb v w = true) ∨
    ∀ x w, x ∈ rrs → x.2 !! i = Some w → isNull w = false → value_eqb w v = false) He1)|].
  - intros m e2 _ He2. unfold check_table_incoming.
    eapply reads_bind; [by apply (reads_gets _ _ _ _ _ _ (λ x _, x = c)), He2|]. intros ? e3 He3 _ ->.
    unfold getTable. destruct (tables c !! m) as [rt|] eqn:Hrt; [|by apply reads_ret].
    destruct (proj2 (Hdom m)) as [rrs Hrrs]; [eauto|].
    eapply reads_mono; [apply (reads_for_each _ _ _ _ _ _ _ (λ i, ∀ col q v,
      t_columns rt !! i = Some col →
      column_position (named (cm_fk_col col)) (t_columns t) = Some q → tuple !! q = Some v →
      (∃ new w, replacement = Some new ∧ new !! q = Some w ∧ value_eqb v w = true) ∨
      ∀ x w, x ∈ rrs → x.2 !! i = Some w → isNull w = false → value_eqb w v = false) He3)|].
    + intros i e4 _ He4. by eapply reads_check_incoming.
    + intros [] e4 _ HQ rt' rrs' i col q v Hrt' Hrrs' Hcol Hfk.
      assert (rt' = rt) as -> by congruence. assert (rrs' = rrs) as -> by congruence.
      apply HQ; [|done]. apply elem_of_columns. exists col. split; [done|].
      by apply bool_decide_eq_true.
  - intros [] e2 _ HQ m rt rrs i col q v Hrt. apply HQ; [|done]. apply elem_of_tableNames. eauto.
Qed.
End engine.
