(* ===== verification/Integrity.v ===== *)
(** The statements of [Engine.v] keep the constraints of [Constraints.v].  A
    statement replaces rows of one table, one at a time; each step is checked
    before it is made, and the file is put back when a check fails. *)

From S2P Require Import Prelude.
From S2P Require Import Double.
From S2P Require Import Format.
From S2P Require Import Value.
From S2P Require Import Tuple.
From S2P Require Import Ast.
From S2P Require Import Catalog.
From S2P Require Import Eval.
From S2P Require Import Select.
From S2P Require Import BTree.
From S2P Require Import Storage.
From S2P Require Import Heap.
From S2P Require Import HeapSpec.
From S2P Require Import Store.
From S2P Require Import Engine.
From S2P Require Import Constraints.

(** * Replacing a row *)

(** The row [old] gives way to the row [new]. *)
Definition replaced (rs rs' : rows) (old : option RowId) (new : option (RowId * Tuple)) : Prop :=
  ∀ x, x ∈ rs' ↔ new = Some x ∨ (x ∈ rs ∧ old ≠ Some x.1).

Section replace.
Context (c : Catalog) (M : gmap string rows) (Hdb : database_ok c M).
Context (n : string) (t : TableMeta) (rs rs' : rows).
Context (Ht : tables c !! n = Some t) (Hrs : M !! n = Some rs).

Lemma present_other table column v :
  table ≠ n → present c M table column v → present c (<[n := rs']> M) table column v.
Proof.
  intros Hne (ft & p & frs & y & w & Hft & Hp & Hfrs & Hy). exists ft, p, frs, y, w.
  by rewrite lookup_insert_ne.
Qed.

(** The rows of one table change: its own references and those to it must hold. *)
Lemma database_ok_rows :
  (∀ x, x ∈ rs' → row_ok t x.2) →
  (∀ p, column_position is_primary (t_columns t) = Some p → keys_unique p rs') →
  (∀ i column x v, t_columns t !! i = Some column → is_foreign column = true →
     x ∈ rs' → x.2 !! i = Some v → isNull v = false →
     present c M (cm_fk_table column) (cm_fk_col column) v) →
  (∀ m rt rrs i column x v, m ≠ n → tables c !! m = Some rt → M !! m = Some rrs →
     t_columns rt !! i = Some column → is_foreign column = true → cm_fk_table column = n →
     x ∈ rrs → x.2 !! i = Some v → isNull v = false →
     present c (<[n := rs']> M) n (cm_fk_col column) v) →
  database_ok c (<[n := rs']> M).
Proof.
  intros Hrows Hkeys Hout Hin. destruct Hdb as [Hdom Htables Hcontents]. split; [|done|].
  { intros m. rewrite <- Hdom. destruct (decide (m = n)) as [->|Hne];
      [by rewrite lookup_insert_eq, Hrs|by rewrite lookup_insert_ne]. }
  intros m mt mrs Hmt Hmrs. destruct (decide (m = n)) as [->|Hne].
  - rewrite lookup_insert_eq in Hmrs. injection Hmrs as <-.
    assert (mt = t) as -> by congruence. split; [done..|].
    intros i column x v Hcol Hfor Hx Hv Hnull. apply present_other; [|by eapply Hout].
    by eapply (Forall_lookup_1 _ _ _ _ (to_targets _ _ _ (Htables n t Ht)) Hcol).
  - rewrite lookup_insert_ne in Hmrs by done.
    destruct (Hcontents m mt mrs Hmt Hmrs) as [Hr Hk Href]. split; [done..|].
    intros i column x v Hcol Hfor Hx Hv Hnull.
    destruct (decide (cm_fk_table column = n)) as [Hfk|Hfk].
    + rewrite Hfk. by eapply Hin.
    + apply present_other; [done|]. by eapply Href.
Qed.

Lemma database_ok_replaced old new :
  replaced rs rs' old new →
  (∀ x, new = Some x → accepted c M t rs old x.2) →
  (∀ r tuple, old = Some r → (r, tuple) ∈ rs → unreferenced c M t tuple (snd <$> new)) →
  database_ok c (<[n := rs']> M).
Proof.
  intros Hrep Hacc Hunref. pose proof (do_contents _ _ Hdb n t rs Ht Hrs) as [Hr Hk Href].
  apply database_ok_rows.
  - intros x [Hx|[Hx _]]%Hrep; [apply (ac_row _ _ _ _ _ _ (Hacc x Hx))|by apply Hr].
  - intros p Hp x y v w Hx%Hrep Hy%Hrep Hne Hv Hw.
    destruct Hx as [Hx|[Hx Hx']], Hy as [Hy|[Hy Hy']]; [congruence| | |by eapply (Hk p Hp x y)].
    + rewrite value_eqb_comm. by apply (ac_key _ _ _ _ _ _ (Hacc x Hx) p y).
    + by apply (ac_key _ _ _ _ _ _ (Hacc y Hy) p x).
  - intros i column x v Hcol Hfor [Hx|[Hx _]]%Hrep Hv Hnull.
    + by eapply (ac_references _ _ _ _ _ _ (Hacc x Hx)).
    + by eapply Href.
  - intros m rt rrs i column x v Hne Hrt Hrrs Hcol Hfor Hfk Hx Hv Hnull.
    pose proof (do_tables _ _ Hdb n t Ht) as Htab.
    destruct (co_references _ _ _ _ (do_contents _ _ Hdb m rt rrs Hrt Hrrs) i column x v Hcol Hfor
      Hx Hv Hnull) as (ft & p & frs & y & w & Hft & Hp & Hfrs & Hy & Hw & Heq).
    rewrite Hfk in Hft, Hfrs. assert (ft = t) as -> by congruence.
    assert (frs = rs) as -> by congruence.
    assert (Hfound : ∀ y' w', y' ∈ rs' → y'.2 !! p = Some w' → value_eqb w' v = true →
      present c (<[n := rs']> M) n (cm_fk_col column) v).
    { intros y' w' Hy' Hw' Heq'. exists t, p, rs', y', w'. by rewrite lookup_insert_eq. }
    destruct (decide (old = Some y.1)) as [Hold|Hold].
    + assert (Hyrs : (y.1, y.2) ∈ rs) by by destruct y.
      destruct (Hunref y.1 y.2 Hold Hyrs m rt rrs i column p w Hrt Hrrs Hcol) as
        [(newt & w' & Hnew & Hw' & Heq')|Hnone]; [by rewrite (to_name _ _ _ Htab)|done..| |].
      * apply fmap_Some in Hnew as (z & Hz & ->). apply (Hfound z w'); [apply Hrep; by left|done|].
        apply value_eqb_trans with w; [by rewrite value_eqb_comm|done].
      * specialize (Hnone x v Hx Hv Hnull). rewrite value_eqb_comm in Hnone. congruence.
    + apply (Hfound y w); [|done..]. apply Hrep. by right.
Qed.
End replace.

(** ** The values of a statement *)

Lemma eval_all_scalar row exprs vs :
  Forall scalar (values row) → Forall literals_scalar exprs → eval_all row exprs = Ok vs →
  Forall scalar vs.
Proof.
  intros Hrow Hlit. revert vs. induction Hlit as [|e exprs He _ IH]; intros vs; cbn [eval_all].
  { by intros [= <-]. }
  destruct (eval e row) as [v|] eqn:Hv; [|done]. cbn [rbind].
  destruct (eval_all row exprs) as [vs'|]; [|done]. intros [= <-].
  constructor; [by eapply eval_scalar|by apply IH].
Qed.

Lemma assign_values_scalar columns row sets tuple tuple' :
  Forall scalar (values row) → Forall (λ s, literals_scalar s.2) sets → Forall scalar tuple →
  assign_values columns row sets tuple = Ok tuple' → Forall scalar tuple'.
Proof.
  intros Hrow Hlit. revert tuple. induction Hlit as [|[name e] sets He _ IH]; intros tuple Ht;
    cbn [assign_values]; [by intros [= <-]|].
  destruct (column_position (named name) columns) as [p|]; [|done].
  destruct (eval e row) as [v|] eqn:Hv; [|done]. cbn [rbind]. apply IH.
  apply Forall_insert; [done|]. by eapply eval_scalar.
Qed.

Lemma insert_tuple_scalar columns names valueRow tuple :
  Forall literals_scalar valueRow → insert_tuple columns names valueRow = Ok tuple →
  Forall scalar tuple.
Proof.
  intros Hlit. unfold insert_tuple. destruct names as [|name names]; case_decide; try done.
  - by apply eval_all_scalar.
  - apply assign_values_scalar; [done| |]; apply Forall_forall.
    + intros [name' e] He%elem_of_zip_r. by eapply Forall_forall.
    + intros v Hv%list_elem_of_In%List.repeat_spec. by rewrite Hv.
Qed.

(** The row a list of values makes. *)
Definition row_of (t : TableMeta) (names : list string) (valueRow : list Node) (tuple : Tuple)
    : Prop :=
  ∃ given, insert_tuple (t_columns t) names valueRow = Ok given ∧
    coerce_values (t_columns t) given = Ok tuple.

(** * Writing *)

Section writing.
Context {D F : Type} `{HeapFilesLaws D F}.

(** The file of [n] has the rows [rs]; the other files are those of [M]. *)
Context (c : Catalog) (M : gmap string rows) (n : string).

(** [m] works on the rows of [n]; [scans] says that it leaves the indexes
    alone.  The index of [n] may be out of date. *)
Definition writes {A} (scans : bool) (e : engine (D:=D)) (m : action engine A)
    (Q : A → rows → engine → Prop) : Prop :=
  ∃ r e' rs', m e = (r, e') ∧ engine_ok (Some n) c (<[n := rs']> M) e' ∧
    (scans = true → primaryIndexes_ e' = primaryIndexes_ e) ∧ ∀ a, r = Ok a → Q a rs' e'.

Lemma engine_ok_skip skip rs e :
  engine_ok None c (<[n := rs]> M) e → engine_ok skip c (<[n := rs]> M) e.
Proof. intros (Hc & Hst & Hidx). split; [done|]. split; [done|]. intros m tree Hm _. by apply Hidx. Qed.

(** The rows of [n] do not matter to the other indexes. *)
Lemma indexes_ok_others rs rs' indexes :
  indexes_ok (Some n) c (<[n := rs]> M) indexes → indexes_ok (Some n) c (<[n := rs']> M) indexes.
Proof.
  intros Hidx m tree Hm Hne. destruct (Hidx m tree Hm Hne) as (t & p & mrs & Ht & Hp & Hmrs & Hin).
  exists t, p, mrs. rewrite lookup_insert_ne in Hmrs |- * by congruence. done.
Qed.

Lemma writes_ret {A} scans e rs (a : A) (Q : A → rows → engine → Prop) :
  engine_ok (Some n) c (<[n := rs]> M) e → Q a rs e → writes scans e (mret a) Q.
Proof. intros He HQ. exists (Ok a), e, rs. split_and!; try done. by intros ? [= <-]. Qed.

Lemma writes_bind {A B} scans e (m : action engine A) (k : A → action engine B) Q R :
  writes scans e m Q →
  (∀ a rs e', engine_ok (Some n) c (<[n := rs]> M) e' → Q a rs e' → writes scans e' (k a) R) →
  writes scans e (m ≫= k) R.
Proof.
  intros (r & e1 & rs1 & Hm & He1 & Hidx & HQ) Hk. unfold writes, mbind, action_bind.
  rewrite Hm. destruct r as [a|f].
  - destruct (Hk a rs1 e1 He1 (HQ a eq_refl)) as (r & e2 & rs2 & Hrun & He2 & Hidx2 & HR).
    exists r, e2, rs2. split_and!; try done. intros Hs. by rewrite Hidx2, Hidx.
  - exists (Err f), e1, rs1. by split_and!.
Qed.

Lemma writes_mono {A} scans e (m : action engine A) (Q R : A → rows → engine → Prop) :
  writes scans e m Q → (∀ a rs e', Q a rs e' → R a rs e') → writes scans e m R.
Proof.
  intros (r & e1 & rs1 & Hm & He1 & Hidx & HQ) HR. exists r, e1, rs1. split_and!; try done.
  intros a Ha. by apply HR, HQ.
Qed.

Lemma writes_reads {A} scans skip e rs (m : action engine A) (Q : A → engine → Prop) :
  (skip = None ∨ skip = Some n) →
  reads scans skip c (<[n := rs]> M) e m Q →
  writes scans e m (λ a rs' e', rs' = rs ∧ engine_ok skip c (<[n := rs]> M) e' ∧ extends e e' ∧
    (scans = true → primaryIndexes_ e' = primaryIndexes_ e) ∧ Q a e').
Proof.
  intros Hskip (r & e1 & Hm & He1 & Hext & Hidx & HQ). exists r, e1, rs.
  split; [done|]. split; [|split; [done|]].
  - destruct Hskip as [->| ->]; [by apply engine_ok_skip|done].
  - intros a Ha. split_and!; auto.
Qed.

(** A pure step. *)
Lemma writes_lift {A} scans e rs (r : exec A) :
  engine_ok (Some n) c (<[n := rs]> M) e →
  writes scans e (lift r) (λ a rs' e', rs' = rs ∧ e' = e ∧ r = Ok a).
Proof. intros He. exists r, e, rs. by split_and!. Qed.

(** A call on the file. *)
Lemma writes_heap {A} scans e rs file op (k : A → heap_reply) (m : action (F * D) A) :
  engine_ok (Some n) c (<[n := rs]> M) e →
  heap_outcome stores attached (<[n := rs]> M) n rs op k (m (file, storage_ e)) →
  writes scans e (on_heap file m) (λ p rs' e', heap_spec rs op (Ok (k p.1)) rs' ∧
    attached n p.2 (storage_ e') ∧ primaryIndexes_ e' = primaryIndexes_ e).
Proof.
  intros (Hc & Hst & Hidx) (r & h' & s' & rs' & Hm & Hspec & Hst' & Hatt).
  unfold writes, on_heap. rewrite Hm. rewrite insert_insert_eq in Hst'.
  eexists _, _, rs'. split; [reflexivity|]. split; [|split; [done|]].
  - split; [done|]. split; [done|]. by eapply indexes_ok_others.
  - intros a Ha. destruct r as [b|]; [|done]. cbn in Ha. injection Ha as <-. done.
Qed.

(** The file is flushed when the work is done, and put back when it throws. *)
Lemma with_undo_ok {A} scans skip e rs before (on_error : action engine ())
    (work : action engine (F * A)) (Q : A → rows → engine → Prop) :
  image before rs →
  writes scans e work (λ p rs' e', engine_ok skip c (<[n := rs']> M) e' ∧
    attached n p.1 (storage_ e') ∧ (∀ e'', engine_ok skip c (<[n := rs']> M) e'' → Q p.2 rs' e'')) →
  (∀ e', (scans = true → primaryIndexes_ e' = primaryIndexes_ e) → catalog_ e' = c →
     indexes_ok (Some n) c (<[n := rs]> M) (primaryIndexes_ e') →
     ∃ e'', on_error e' = (Ok (), e'') ∧ storage_ e'' = storage_ e' ∧
       catalog_ e'' = c ∧ indexes_ok None c (<[n := rs]> M) (primaryIndexes_ e'')) →
  ∃ r e', with_undo n (Some before) on_error work e = (r, e') ∧
    match r with
    | Ok a => ∃ rs', engine_ok skip c (<[n := rs']> M) e' ∧ Q a rs' e'
    | Err _ => engine_ok None c (<[n := rs]> M) e'
    end.
Proof.
  intros Hbefore (r & e1 & rs1 & Hm & He1 & Hscans & HQ) Herr.
  unfold with_undo, cleanup, mbind, action_bind at 1. rewrite Hm. destruct r as [[file a]|f].
  - destruct (HQ _ eq_refl) as ((Hc & Hst & Hidx) & Hatt & HQ'). cbn [fst snd] in *.
    destruct (flush_law (<[n := rs1]> M) n rs1 file (storage_ e1)) as (h' & s' & b & Hflush & Hst' & _);
      [done|apply lookup_insert_eq|done|].
    unfold action_bind, on_heap. rewrite Hflush. cbn [rbind mret action_ret].
    eexists _, _. split; [reflexivity|]. exists rs1.
    assert (engine_ok skip c (<[n := rs1]> M) (mkEngine (catalog_ e1) s' (primaryIndexes_ e1))) by done.
    split; [done|]. by apply HQ'.
  - destruct He1 as (Hc & Hst & Hidx).
    destruct (Herr e1 Hscans Hc (indexes_ok_others _ _ _ Hidx)) as (e2 & Hrun & Hs2 & Hc2 & Hi2).
    destruct (restore_law (<[n := rs1]> M) n rs before (storage_ e2)) as (s' & Hrest & Hst');
      [by rewrite Hs2|rewrite lookup_insert_eq; eauto|done|].
    unfold action_bind. rewrite Hrun. unfold on_files, zoom. rewrite Hrest.
    eexists _, _. split; [reflexivity|]. rewrite insert_insert_eq in Hst'. done.
Qed.

Context (t : TableMeta) (Ht : tables c !! n = Some t).

(** Between two steps: the object is up to date, the constraints hold. *)
Definition working (skip : option string) (rs : rows) (file : F) (e : engine (D:=D)) : Prop :=
  engine_ok skip c (<[n := rs]> M) e ∧ attached n file (storage_ e) ∧
  database_ok c (<[n := rs]> M).

Lemma engine_ok_unskip rs e :
  engine_ok (Some n) c (<[n := rs]> M) e →
  (∀ tree, primaryIndexes_ e !! n = Some tree → ∃ p,
     column_position is_primary (t_columns t) = Some p ∧ indexed p rs tree) →
  engine_ok None c (<[n := rs]> M) e.
Proof.
  intros (Hc & Hst & Hidx) Hn. split; [done|]. split; [done|]. intros m tree Hm _.
  destruct (decide (m = n)) as [->|Hne]; [|apply Hidx; [done|congruence]].
  destruct (Hn tree Hm) as (p & Hp & Hin). exists t, p, rs. by rewrite lookup_insert_eq.
Qed.

Lemma rows_replaced rs rs' old new :
  database_ok c (<[n := rs]> M) → replaced rs rs' old new →
  (∀ x, new = Some x → accepted c (<[n := rs]> M) t rs old x.2) →
  (∀ r tuple, old = Some r → (r, tuple) ∈ rs →
     unreferenced c (<[n := rs]> M) t tuple (snd <$> new)) →
  database_ok c (<[n := rs']> M).
Proof.
  intros Hdb Hrep Hacc Hun. rewrite <- (insert_insert_eq M n rs' rs).
  by eapply (database_ok_replaced c _ Hdb n t rs rs' Ht (lookup_insert_eq _ _ _) old new).
Qed.

(** ** INSERT *)

Lemma writes_index_row e rs rs' tree p key r tuple :
  engine_ok (Some n) c (<[n := rs']> M) e →
  column_position is_primary (t_columns t) = Some p →
  primaryIndexes_ e !! n = Some tree → indexed p rs tree →
  tuple !! p = Some key → well_ordered WithText key →
  replaced rs rs' None (Some (r, tuple)) →
  writes false e (index_row n key r) (λ _ rs1 e', rs1 = rs' ∧
    engine_ok None c (<[n := rs']> M) e' ∧ storage_ e' = storage_ e).
Proof.
  intros He Hp Htree Hin Hkey Hord Hrep. unfold index_row, primaryIndex.
  unfold writes, mbind, action_bind, gets. rewrite Htree. cbn [mret action_ret].
  unfold lift. destruct (BTree.insert tree key r) as [tree'|f] eqn:Hins.
  - eexists _, _, rs'. split; [reflexivity|].
    assert (Hok : engine_ok None c (<[n := rs']> M)
      (mkEngine (catalog_ e) (storage_ e) (<[n := tree']> (primaryIndexes_ e)))).
    { apply engine_ok_unskip.
      - destruct He as (Hc & Hst & Hidx). split; [done|]. split; [done|]. intros m tm Hm Hne.
        cbn in Hm. rewrite lookup_insert_ne in Hm by congruence. by apply Hidx.
      - intros tn Hn. cbn in Hn. rewrite lookup_insert_eq in Hn. injection Hn as <-.
        exists p. split; [done|]. eapply (indexed_insert p rs rs' tree tree'); try done.
        intros x. rewrite (Hrep x). naive_solver. }
    split; [by apply engine_ok_skip|]. split; [done|]. by intros ? [= <-].
  - eexists _, _, rs'. split; [reflexivity|]. by split_and!.
Qed.

Lemma writes_insert_row e rs file names valueRow :
  working None rs file e → Forall literals_scalar valueRow →
  writes false e (insert_row t names file valueRow) (λ file' rs' e', working None rs' file' e' ∧
    ∃ tuple L R r, row_of t names valueRow tuple ∧ rs = L ++ R ∧ rs' = L ++ (r, tuple) :: R).
Proof.
  intros (He & Hatt & Hdb) Hlit. unfold insert_row.
  eapply writes_bind; [by apply writes_lift, engine_ok_skip|].
  intros given ? ? _ (-> & -> & Hgiven).
  assert (Hsc : Forall scalar given) by by eapply insert_tuple_scalar.
  assert (Hrs : <[n := rs]> M !! n = Some rs) by apply lookup_insert_eq.
  eapply writes_bind.
  { apply (writes_reads false None e rs); [by left|].
    eapply (reads_validateAndCoerce _ _ (do_tables _ _ Hdb)
      (λ m mt mrs Hm Hmrs, co_rows _ _ _ _ (do_contents _ _ Hdb m mt mrs Hm Hmrs))
      (do_dom _ _ Hdb) None e n t rs None given); done. }
  intros tuple ? e1 _ (-> & He1 & [Hatt1 _] & _ & Hcoerce & Hacc & Hkidx).
  pose proof (ac_row _ _ _ _ _ _ Hacc) as Hrow.
  eapply writes_bind.
  { eapply (writes_heap false e1 rs file (HeapSpec.Insert tuple)); [by apply engine_ok_skip|].
    apply insert_law; [apply He1|done|by apply Hatt1|by eapply row_ok_scalar]. }
  intros [r file'] rs' e2 He2 (Hspec & Hatt2 & Hidx2). cbn [fst snd] in *.
  inversion Hspec as [? L R ? Hstore HL Hr| | | | | | | | | | | | |]; subst.
  set (rs' := L ++ (r, tuple) :: R) in *. set (rs := L ++ R) in *.
  assert (Hrep : replaced rs rs' None (Some (r, tuple))).
  { intros x. unfold rs, rs'. rewrite !elem_of_app, elem_of_cons. naive_solver. }
  assert (Hdb' : database_ok c (<[n := rs']> M)).
  { eapply (rows_replaced rs rs'); [done|exact Hrep| |done]. by intros ? [= <-]. }
  eapply (writes_bind _ _ _ _ (λ _ rs1 e', rs1 = rs' ∧ engine_ok None c (<[n := rs']> M) e' ∧
    attached n file' (storage_ e'))).
  - destruct (column_position is_primary (t_columns t)) as [p|] eqn:Hp.
    + destruct (row_key c n t p tuple (do_tables _ _ Hdb n t Ht) Hp Hrow) as (key & Hkey & Hord).
      unfold nth_value. rewrite Hkey. rewrite (to_name _ _ _ (do_tables _ _ Hdb n t Ht)).
      eapply writes_bind; [by apply writes_lift|]. intros ? ? ? _ (-> & -> & [= <-]).
      destruct Hkidx as [tree Htree]; [done|by rewrite Hp|].
      destruct He1 as (_ & _ & Hidx1). destruct (Hidx1 n tree Htree) as (t' & p' & rs1 & Ht' & Hp' & Hrs1 & Hin); [done|].
      assert (t' = t) as -> by congruence. assert (p' = p) as -> by congruence.
      assert (rs1 = rs) as -> by congruence.
      eapply writes_mono; [eapply (writes_index_row e2 rs rs' tree p key r tuple); try done; congruence|].
      intros _ rs1 e' (-> & Hok & ->). done.
    + apply writes_ret with rs'; [done|]. split; [done|]. split; [|done].
      apply engine_ok_unskip; [done|]. intros tree Htree. rewrite Hidx2 in Htree.
      destruct He1 as (_ & _ & Hidx1). destruct (Hidx1 n tree Htree) as (t' & p' & rs1 & Ht' & Hp' & _); [done|].
      congruence.
  - intros [] ? e3 He3 (-> & Hok & Hatt3). apply writes_ret with rs'; [done|].
    split; [done|]. exists tuple, L, R, r. split; [|done]. by exists given.
Qed.

(** The rows of a statement are added, the others stay as they are. *)
Definition rows_added (names : list string) (valueRows : list (list Node)) (rs rs' : rows) : Prop :=
  ∃ new, rs' ≡ₚ rs ++ new ∧ rs `sublist_of` rs' ∧ Forall2 (row_of t names) valueRows new.*2.

Lemma writes_insert_rows e rs file names count valueRows :
  working None rs file e → Forall (Forall literals_scalar) valueRows →
  writes false e (insert_rows t names file count valueRows) (λ p rs' e', working None rs' p.1 e' ∧
    p.2 = (count + length valueRows)%nat ∧ rows_added names valueRows rs rs').
Proof.
  intros Hw Hlit. revert e rs file count Hw.
  induction Hlit as [|valueRow valueRows Hrow _ IH]; intros e rs file count Hw; cbn [insert_rows].
  { apply writes_ret with rs; [by apply engine_ok_skip, Hw|]. cbn. split; [done|].
    split; [lia|]. exists []. rewrite app_nil_r. by split_and!. }
  eapply writes_bind; [by apply (writes_insert_row e rs)|].
  intros file' rs1 e1 _ [Hw1 (tuple & L & R & r & Hof & -> & ->)].
  eapply writes_mono; [by apply IH|]. intros [file'' count'] rs2 e2 (Hw2 & Hcount & Hadd).
  cbn [fst snd] in *. split; [done|]. split; [cbn [length]; lia|].
  destruct Hadd as (new & Hperm & Hsub & Hnew). exists ((r, tuple) :: new). split_and!.
  - rewrite Hperm, <- !app_assoc. cbn. by rewrite !Permutation_middle.
  - etrans; [|exact Hsub]. apply sublist_app; [done|]. by apply sublist_cons.
  - rewrite fmap_cons. by constructor.
Qed.

(** ** UPDATE and DELETE *)

(** A row as [scanTable] gives it. *)
Definition scanned (cols : list BoundColumn) (x : RowId * Tuple) : ScanRow :=
  mkScanRow x.1 (mkRow (Some cols) x.2).

Lemma rows_others (L R : rows) x :
  NoDup (L ++ x :: R).*1 → ∀ y, y ∈ L ++ R ↔ y ∈ L ++ x :: R ∧ Some x.1 ≠ Some y.1.
Proof.
  rewrite fmap_app, fmap_cons. intros Hnd y. apply NoDup_app in Hnd as (_ & Hd & Hnd).
  apply NoDup_cons in Hnd as [Hx _]. rewrite !elem_of_app, elem_of_cons. split.
  - intros Hy. split; [tauto|]. intros [= Heq]. destruct Hy as [Hy|Hy].
    + apply (Hd x.1); [|apply list_elem_of_here]. rewrite Heq. by apply list_elem_of_fmap_2.
    + apply Hx. rewrite Heq. by apply list_elem_of_fmap_2.
  - intros [[Hy|[->|Hy]] Hne]; by auto.
Qed.

(** One row of the scan is handled: [x] becomes the rows [ys], the others stay. *)
Definition row_changed (P : RowId * Tuple → bool → list Tuple → Prop) (x : RowId * Tuple)
    (count count' : nat) (rs rs' : rows) : Prop :=
  ∃ hit ys rest, P x hit ys.*2 ∧ count' = (if hit then S count else count) ∧
    rs ≡ₚ x :: rest ∧ rs' ≡ₚ ys ++ rest.

(** The rows after the statement. *)
Inductive rows_changed (P : RowId * Tuple → bool → list Tuple → Prop)
    : rows → nat → list Tuple → Prop :=
  | changed_nil : rows_changed P [] 0 []
  | changed_cons x rs hit ys count tuples :
      P x hit ys → rows_changed P rs count tuples →
      rows_changed P (x :: rs) (if hit then S count else count) (ys ++ tuples).

Lemma change_rows_ok P change cols e rs done todo file count :
  (∀ e rs file count x, working (Some n) rs file e → x ∈ rs →
     writes true e (change file count (scanned cols x)) (λ p rs' e', working (Some n) rs' p.1 e' ∧
       row_changed P x count p.2 rs rs')) →
  working (Some n) rs file e → rs ≡ₚ done ++ todo →
  writes true e (change_rows change file count (scanned cols <$> todo)) (λ p rs' e',
    working (Some n) rs' p.1 e' ∧ ∃ k tuples, rows_changed P todo k tuples ∧
      p.2 = (count + k)%nat ∧ rs'.*2 ≡ₚ done.*2 ++ tuples).
Proof.
  intros Hstep. revert e rs done file count. induction todo as [|x todo IH]; intros e rs don file count Hw Hrs.
  { apply writes_ret with rs; [apply Hw|]. split; [done|]. exists 0%nat, []. split; [constructor|].
    split; [cbn; lia|]. rewrite !app_nil_r in *. by rewrite Hrs. }
  rewrite fmap_cons. cbn [change_rows].
  eapply writes_bind; [apply Hstep; [done|]|].
  { rewrite Hrs, elem_of_app, elem_of_cons. auto. }
  intros [file' count'] rs1 e1 _ (Hw1 & hit & ys & rest & HP & Hcount & Hrest & Hrs1).
  cbn [fst snd] in *. assert (Hperm : rest ≡ₚ don ++ todo).
  { apply (Permutation_cons_inv (a:=x)). by rewrite <- Hrest, Hrs, Permutation_middle. }
  eapply writes_mono; [apply (IH e1 rs1 (ys ++ don)); [done|]|].
  { by rewrite Hrs1, Hperm, app_assoc. }
  intros [file'' count''] rs2 e2 (Hw2 & k & tuples & Hch & Hk & Hrs2). cbn [fst snd] in *.
  split; [done|]. exists (if hit then S k else k), (ys.*2 ++ tuples).
  split; [by constructor|]. split; [destruct hit; lia|].
  rewrite Hrs2, fmap_app, <- !app_assoc. by rewrite Permutation_app_swap_app.
Qed.

(** What DELETE and UPDATE make of a row of the table. *)
Definition row_deleted (condition : option Node) (cols : list BoundColumn) (x : RowId * Tuple)
    (hit : bool) (ys : list Tuple) : Prop :=
  keeps condition (mkRow (Some cols) x.2) = Ok hit ∧ ys = (if hit then [] else [x.2]).

Definition row_updated (condition : option Node) (sets : list (string * Node))
    (cols : list BoundColumn) (x : RowId * Tuple) (hit : bool) (ys : list Tuple) : Prop :=
  keeps condition (mkRow (Some cols) x.2) = Ok hit ∧
  if hit then
    ∃ given tuple, assign_values (t_columns t) (mkRow (Some cols) x.2) sets x.2 = Ok given ∧
      coerce_values (t_columns t) given = Ok tuple ∧ ys = [tuple]
  else ys = [x.2].

(** A row the condition does not hold for. *)
Lemma row_kept P rs (x : RowId * Tuple) count :
  x ∈ rs → P x false [x.2] → row_changed P x count count rs rs.
Proof.
  intros [rest Hrest]%elem_of_Permutation HP. exists false, [x], rest. by rewrite Hrest.
Qed.

Lemma working_known skip rs file e :
  working skip rs file e → <[n := rs]> M !! n = Some rs.
Proof. intros _. apply lookup_insert_eq. Qed.

Lemma working_NoDup skip rs file e : working skip rs file e → NoDup rs.*1.
Proof. intros ((_ & Hst & _) & _ & _). eapply stored_once; [exact Hst|apply lookup_insert_eq]. Qed.

Lemma heap_spec_erased rs x b rs' :
  NoDup rs.*1 → x ∈ rs → heap_spec rs (HeapSpec.Erase x.1) (Ok (Flag b)) rs' →
  b = true ∧ ∃ L R, rs = L ++ x :: R ∧ rs' = L ++ R.
Proof.
  intros Hnd Hx Hspec. inversion Hspec as [| |? tx L R HL|? Hr| | | | | | | | | |]; subst.
  - split; [done|]. exists L, R. split; [|done]. do 2 f_equal.
    eapply rows_same; [exact Hnd|..]; [|done|done]. apply elem_of_app; right; apply list_elem_of_here.
  - destruct Hr. by apply list_elem_of_fmap_2.
Qed.

Lemma heap_spec_updated rs x tuple r' rs' :
  NoDup rs.*1 → x ∈ rs → heap_spec rs (HeapSpec.Update x.1 tuple) (Ok (Row r')) rs' →
  ∃ L R, rs = L ++ x :: R ∧ rs' ≡ₚ (r', tuple) :: L ++ R.
Proof.
  intros Hnd Hx Hspec.
  assert (Hsplit : ∀ L R old, rs = L ++ (x.1, old) :: R → rs = L ++ x :: R).
  { intros L R old ->. do 2 f_equal. eapply rows_same; [exact Hnd|..]; [|done|done].
    apply elem_of_app; right; apply list_elem_of_here. }
  inversion Hspec as [| | | |? ? old L R ? HL|? ? old L R ? L' R' ? HL ? HL'| | | | | | | |]; subst.
  - exists L, R. split; [by eapply Hsplit|]. by rewrite Permutation_middle.
  - exists L, R. split; [by eapply Hsplit|]. rewrite HL'. by rewrite Permutation_middle.
Qed.

Lemma writes_delete_row s cols e rs file count x :
  working (Some n) rs file e → x ∈ rs →
  writes true e (delete_row t s file count (scanned cols x)) (λ p rs' e',
    working (Some n) rs' p.1 e' ∧ row_changed (row_deleted (d_where s) cols) x count p.2 rs rs').
Proof.
  intros Hw Hx. pose proof (working_NoDup _ _ _ _ Hw) as Hnd. pose proof Hw as (He & Hatt & Hdb).
  unfold delete_row. eapply writes_bind; [by apply writes_lift|].
  intros keep ? ? _ (-> & -> & Hkeep). cbn [sc_row sc_id scanned values] in *. destruct keep; cbn [negb].
  2:{ apply writes_ret with rs; [done|]. split; [done|]. by apply row_kept. }
  eapply writes_bind.
  { apply (writes_reads true (Some n) e rs); [by right|].
    by apply (reads_validateNoIncomingReferences _ _ (do_tables _ _ Hdb) (do_dom _ _ Hdb)). }
  intros [] ? e1 _ (-> & He1 & [Hatt1 _] & _ & Hun).
  eapply writes_bind.
  { eapply (writes_heap true e1 rs file (HeapSpec.Erase x.1)); [done|].
    apply erase_law; [apply He1|apply lookup_insert_eq|by apply Hatt1|by apply list_elem_of_fmap_2]. }
  intros [b file'] rs' e2 He2 (Hspec & Hatt2 & _). cbn [fst snd] in *.
  destruct (heap_spec_erased rs x b rs' Hnd Hx Hspec) as (-> & L & R & -> & ->).
  apply writes_ret with (L ++ R); [done|]. cbn [fst snd]. split; [split; [done|split; [done|]]|].
  - eapply (rows_replaced _ _ (Some x.1) None Hdb); [|done|].
    + intros y. rewrite (rows_others L R x Hnd). split; [by right|by intros [|]].
    + intros r tuple [= <-] Hr. assert (tuple = x.2) as ->; [|done].
      exact (f_equal snd (rows_same _ _ _ Hnd Hr Hx eq_refl)).
  - exists true, [], (L ++ R). split; [done|]. split; [done|].
    split; [|done]. by rewrite Permutation_middle.
Qed.

Lemma writes_update_row s cols e rs file count x :
  Forall (λ a, literals_scalar (a_value a)) (u_sets s) →
  working (Some n) rs file e → x ∈ rs →
  writes true e (update_row t s file count (scanned cols x)) (λ p rs' e',
    working (Some n) rs' p.1 e' ∧
    row_changed (row_updated (u_where s) (map (λ a, (a_column a, a_value a)) (u_sets s)) cols)
      x count p.2 rs rs').
Proof.
  intros Hlit Hw Hx. pose proof (working_NoDup _ _ _ _ Hw) as Hnd. pose proof Hw as (He & Hatt & Hdb).
  pose proof (working_known _ _ _ _ Hw) as Hrs.
  unfold update_row. eapply writes_bind; [by apply writes_lift|].
  intros keep ? ? _ (-> & -> & Hkeep). cbn [sc_row sc_id scanned values] in *. destruct keep; cbn [negb].
  2:{ apply writes_ret with rs; [done|]. split; [done|]. by apply row_kept. }
  eapply writes_bind; [by apply writes_lift|]. intros given ? ? _ (-> & -> & Hgiven).
  assert (Hrow : Forall scalar x.2).
  { eapply row_ok_scalar. by eapply (co_rows _ _ _ _ (do_contents _ _ Hdb n t rs Ht Hrs)). }
  assert (Hsc : Forall scalar given).
  { eapply assign_values_scalar; [..|exact Hgiven]; [done| |done]. apply Forall_forall.
    intros a Ha%list_elem_of_fmap. destruct Ha as (b & -> & Hb). by eapply Forall_forall in Hlit. }
  eapply writes_bind.
  { apply (writes_reads true (Some n) e rs); [by right|].
    eapply (reads_validateAndCoerce _ _ (do_tables _ _ Hdb)
      (λ m mt mrs Hm Hmrs, co_rows _ _ _ _ (do_contents _ _ Hdb m mt mrs Hm Hmrs))
      (do_dom _ _ Hdb) (Some n) e n t rs (Some x.1) given); done. }
  intros tuple ? e1 _ (-> & He1 & [Hatt1 _] & _ & Hcoerce & Hacc & _).
  eapply writes_bind.
  { apply (writes_reads true (Some n) e1 rs); [by right|].
    by apply (reads_validateNoIncomingReferences _ _ (do_tables _ _ Hdb) (do_dom _ _ Hdb)). }
  intros [] ? e2 _ (-> & He2 & [Hatt2 _] & _ & Hun).
  eapply writes_bind.
  { eapply (writes_heap true e2 rs file (HeapSpec.Update x.1 tuple)); [done|].
    apply update_law; [apply He2|done|by apply Hatt2, Hatt1|by apply list_elem_of_fmap_2|].
    by eapply row_ok_scalar, ac_row. }
  intros [r' file'] rs' e3 He3 (Hspec & Hatt3 & _). cbn [fst snd] in *.
  destruct (heap_spec_updated rs x tuple r' rs' Hnd Hx Hspec) as (L & R & -> & Hrs').
  apply writes_ret with rs'; [done|]. cbn [fst snd]. split; [split; [done|split; [done|]]|].
  - eapply (rows_replaced _ _ (Some x.1) (Some (r', tuple)) Hdb).
    + intros y. rewrite Hrs', elem_of_cons, (rows_others L R x Hnd).
      split; (intros [Hy|Hy]; [left; congruence|by right]).
    + by intros ? [= <-].
    + intros r old [= <-] Hr. assert (old = x.2) as ->; [|done].
      exact (f_equal snd (rows_same _ _ _ Hnd Hr Hx eq_refl)).
  - exists true, [(r', tuple)], (L ++ R). split; [|split; [done|split; [by rewrite Permutation_middle|done]]].
    split; [done|]. by exists given, tuple.
Qed.
End writing.
