(* ===== verification/Statements.v ===== *)
(** The statements of [Engine.v] as a whole: what each does to the catalog and
    to the rows when it succeeds ([outcome]), that it changes nothing when it
    fails, and that the constraints of [Constraints.v] hold after any sequence of
    statements from an empty database. *)

From S2P Require Import Prelude.
From S2P Require Import Double.
From S2P Require Import Format.
From S2P Require Import Config.
From S2P Require Import Page.
From S2P Require Import Value.
From S2P Require Import Tuple.
From S2P Require Import Ast.
From S2P Require Import Catalog.
From S2P Require Import Eval.
From S2P Require Import Select.
From S2P Require Import BTree.
From S2P Require Import Storage.
From S2P Require Import Heap.
From S2P Require Import HeapSpec.
From S2P Require Import Store.
From S2P Require Import Engine.
From S2P Require Import Constraints.
From S2P Require Import Integrity.

(** ** Definitions of columns *)

Lemma upper_idempotent s : upper (upper s) = upper s.
Proof.
  unfold upper. induction s as [|c s IH]; [done|]. cbn. rewrite IH. f_equal.
  apply (bool_decide_eq_true_1 _). clear. by_all_ascii c.
Qed.

(** No key of a floating point type: a NaN has no place in an index. *)
Definition no_real_key (definitions : list ColumnDef) : Prop :=
  Forall (λ d, cd_primary_key d = true → is_real_type (upper (cd_type d)) = false) definitions.

(** The column a definition makes. *)
Definition column_of (d : ColumnDef) : ColumnMeta :=
  mkColumnMeta (cd_name d) (upper (cd_type d)) (cd_primary_key d)
    (cd_not_null d || cd_primary_key d) (cd_fk_table d) (cd_fk_col d).

Lemma define_columns_of c names k definitions columns :
  define_columns c names k definitions = Ok columns →
  columns = column_of <$> definitions ∧
  Forall (λ d, supported_type (upper (cd_type d)) = true) definitions ∧
  Forall (λ d, check_target (cd_fk_table d) (cd_fk_col d) c = Ok ()) definitions ∧
  (∀ i j a b, columns !! i = Some a → columns !! j = Some b →
     cm_primary_key a = true → cm_primary_key b = true → i = j ∧ k = O).
Proof.
  revert names k columns. induction definitions as [|d definitions IH]; intros names k columns.
  { intros [= <-]. split_and!; try constructor; done. }
  cbn [define_columns]. case_decide; [done|].
  destruct (supported_type (upper (cd_type d))) eqn:Hsup; [|done]. cbn [negb].
  destruct (cd_primary_key d && _) eqn:Hmany; [done|].
  destruct (check_target _ _ c) as [[]|] eqn:Htarget; [|done]. cbn [rbind].
  destruct (define_columns c _ _ definitions) as [rest|] eqn:Hrest; [|done]. intros [= <-].
  destruct (IH _ _ _ Hrest) as (-> & Hs & Ht & Hone).
  split; [done|]. split; [by constructor|]. split; [by constructor|].
  intros [|i] [|j] a b Hi Hj Ha Hb; cbn in Hi, Hj.
  - split; [done|]. injection Hi as <-. cbn in Ha. rewrite Ha in Hmany. by destruct k.
  - injection Hi as <-. cbn in Ha. rewrite Ha in Hone. by destruct (Hone j j b b Hj Hj Hb Hb).
  - injection Hj as <-. cbn in Hb. rewrite Hb in Hone. by destruct (Hone i i a a Hi Hi Ha Ha).
  - destruct (Hone i j a b Hi Hj Ha Hb) as [-> Hk]. split; [done|]. by destruct (cd_primary_key d).
Qed.

(** Column names are distinct. *)
Lemma define_columns_distinct c names k definitions columns :
  define_columns c names k definitions = Ok columns →
  NoDup (cm_name <$> columns) ∧ Forall (λ column, cm_name column ∉ names) columns.
Proof.
  revert names k columns. induction definitions as [|d definitions IH]; intros names k columns.
  { intros [= <-]. split; constructor. }
  cbn [define_columns]. case_decide as Hnew; [done|]. case_match; [done|]. case_match; [done|].
  destruct (check_target _ _ c) as [[]|]; [|done]. cbn [rbind].
  destruct (define_columns c _ _ definitions) as [rest|] eqn:Hrest; [|done]. intros [= <-].
  destruct (IH _ _ _ Hrest) as [Hnd Hnot]. rewrite Forall_forall in Hnot. split.
  - rewrite fmap_cons. constructor; [|done]. intros (column & Hname & Hin)%list_elem_of_fmap.
    apply (Hnot column Hin). rewrite <- Hname. apply list_elem_of_here.
  - constructor; [done|]. apply Forall_forall. intros column Hin Hname.
    by apply (Hnot column Hin), list_elem_of_further.
Qed.

Lemma column_position_existsb p cols :
  existsb p cols = true → ∃ i, column_position p cols = Some i.
Proof.
  induction cols as [|col cols IH]; [done|]. cbn. destruct (p col); [by exists 0%nat|].
  cbn. intros Hex. destruct (IH Hex) as [i Hi]. exists (S i). by rewrite Hi.
Qed.

Lemma define_columns_ok c name definitions columns :
  (∀ n t, tables c !! n = Some t → table_ok c n t) → tables c !! name = None →
  safe_name name = true → no_real_key definitions →
  define_columns c [] 0 definitions = Ok columns →
  table_ok (addTable c (mkTableMeta name columns)) name (mkTableMeta name columns).
Proof.
  intros Hdb Hname Hsafe Hreal Hdef.
  pose proof (define_columns_distinct _ _ _ _ _ Hdef) as [Hdistinct _].
  destruct (define_columns_of _ _ _ _ _ Hdef) as (-> & Hs & Ht & Hone).
  split; cbn [t_name t_columns]; [done|done| |done| |].
  - apply Forall_fmap, Forall_forall. intros d Hd. unfold compose, column_ok, column_of. cbn.
    split; [by eapply Forall_forall in Hs|]. split; [apply upper_idempotent|].
    by eapply Forall_forall in Hreal.
  - intros i j a b Hi Hj Ha Hb. by apply (Hone i j a b).
  - apply Forall_fmap, Forall_forall. intros d Hd. unfold compose, target_ok, is_foreign. cbn.
    intros Hfor. eapply Forall_forall in Ht; [|exact Hd]. unfold check_target in Ht.
    apply negb_true_iff in Hfor. rewrite Hfor in Ht. unfold getTable in Ht.
    destruct (tables c !! cd_fk_table d) as [ft|] eqn:Hft; [|done].
    assert (cd_fk_table d ≠ name) as Hne by congruence. split; [done|].
    destruct (existsb _ _) eqn:Hex; [|done]. destruct (column_position_existsb _ _ Hex) as [p Hp].
    exists ft, p. by rewrite lookup_insert_ne.
Qed.

(** ** What a statement does *)

(** The catalog and the rows after a statement that reports [res]. *)
Inductive effect (c : Catalog) (M : gmap string rows)
    : data_stmt → NativeQueryResult → Catalog → gmap string rows → Prop :=
  | table_exists s :
      hasTable c (c_table s) = true → c_ifNotExists s = true →
      effect c M (Create s) no_result c M
  | table_created s columns :
      hasTable c (c_table s) = false → safe_name (c_table s) = true →
      define_columns c [] 0 (c_columns s) = Ok columns →
      effect c M (Create s) (mkResult 0 ("created table " +:+ c_table s))
        (addTable c (mkTableMeta (c_table s) columns)) (<[c_table s := []]> M)
  | no_table s :
      hasTable c (dr_table s) = false → dr_ifExists s = true →
      effect c M (Drop s) no_result c M
  | table_dropped s :
      hasTable c (dr_table s) = true → is_referenced c (dr_table s) = false →
      effect c M (Drop s) (mkResult 0 ("dropped table " +:+ dr_table s))
        (removeTable c (dr_table s)) (delete (dr_table s) M)
  | rows_inserted s t rs rs' :
      getTable c (i_table s) = Some t → M !! i_table s = Some rs →
      rows_added t (i_columns s) (i_valueRows s) rs rs' →
      effect c M (Insert_ s)
        (mkResult (length (i_valueRows s)) (rows_message "inserted" (length (i_valueRows s))))
        c (<[i_table s := rs']> M)
  | rows_updated s t cols rs rs' k tuples :
      getTable c (u_table s) = Some t → M !! u_table s = Some rs →
      boundSchema c (u_table s) (u_table s) = Ok cols →
      rows_changed (row_updated t (u_where s) (map (λ a, (a_column a, a_value a)) (u_sets s)) cols)
        rs k tuples →
      rs'.*2 ≡ₚ tuples →
      effect c M (Update_ s) (mkResult k (rows_message "updated" k)) c (<[u_table s := rs']> M)
  | rows_deleted s t cols rs rs' k tuples :
      getTable c (d_table s) = Some t → M !! d_table s = Some rs →
      boundSchema c (d_table s) (d_table s) = Ok cols →
      rows_changed (row_deleted (d_where s) cols) rs k tuples →
      rs'.*2 ≡ₚ tuples →
      effect c M (Delete_ s) (mkResult k (rows_message "deleted" k)) c (<[d_table s := rs']> M).

(** The statements the theorems are about: no key of a floating point type, and
    literals as the lexer makes them. *)
Definition stmt_ok (s : data_stmt) : Prop :=
  match s with
  | Create s => no_real_key (c_columns s)
  | Drop _ => True
  | Insert_ s => Forall (Forall literals_scalar) (i_valueRows s)
  | Update_ s => Forall (λ a, literals_scalar (a_value a)) (u_sets s)
  | Delete_ _ => True
  end.

Section statements.
Context {D F : Type} `{HeapFilesLaws D F}.

(** The engine holds this database. *)
Definition holds_database (c : Catalog) (M : gmap string rows) (e : engine (D:=D)) : Prop :=
  engine_ok None c M e ∧ database_ok c M.

(** [m] has the effect it should have, or none. *)
Definition has_effect (s : data_stmt) (c : Catalog) (M : gmap string rows) (e : engine (D:=D))
    (m : action engine NativeQueryResult) : Prop :=
  ∃ r e', m e = (r, e') ∧
    match r with
    | Ok res => ∃ c' M', effect c M s res c' M' ∧ holds_database c' M' e'
    | Err _ => holds_database c M e'
    end.

Lemma bind_rows_ok table width cols (rs : rows) l :
  bind_rows table width cols (stored <$> rs) = Ok l → l = scanned cols <$> rs.
Proof.
  revert l. induction rs as [|[r tuple] rs IH]; intros l; [by intros [= <-]|].
  rewrite !fmap_cons. cbn [bind_rows stored storedValues storedId fst snd]. case_decide; [done|].
  destruct (bind_rows _ _ _ _) as [rest|] eqn:Hrest; [|done]. intros [= <-].
  by rewrite (IH rest eq_refl).
Qed.

Lemma reads_scanTable skip c M e n rs :
  engine_ok skip c M e → (∀ n t, tables c !! n = Some t → table_ok c n t) →
  M !! n = Some rs →
  reads true skip c M e (scanTable n n)
    (λ l _, ∃ cols, boundSchema c n n = Ok cols ∧ l = scanned cols <$> rs).
Proof.
  intros He Hdb Hrs. unfold scanTable.
  eapply reads_bind; [by apply reads_known_table|]. intros t e1 He1 _ Ht.
  eapply reads_bind; [by apply reads_scan_heap, Hrs; [|apply (to_safe _ _ _ (Hdb n t Ht))]|].
  intros l e2 He2 _ ->.
  eapply reads_bind; [by apply (reads_gets _ _ _ _ _ _ (λ x _, x = c)), He2|]. intros ? e3 He3 _ ->.
  eapply reads_bind; [by apply (reads_lift _ _ _ _ _ _ (λ cols _, boundSchema c n n = Ok cols))|].
  intros cols e4 He4 _ Hcols. apply reads_lift; [done|]. intros l Hl.
  exists cols. split; [done|]. by eapply bind_rows_ok.
Qed.

Context (c : Catalog) (M : gmap string rows).

Lemma fails_unchanged s e f :
  holds_database c M e → has_effect s c M e (λ e, (Err f, e)).
Proof. intros He. by exists (Err f), e. Qed.

Lemma known_table_run e n :
  engine_ok None c M e →
  known_table n e = (match tables c !! n with
                     | Some t => Ok t
                     | None => Err (Throw ("Unknown table: " +:+ n))
                     end, e).
Proof.
  intros (Hc & _). unfold known_table, mbind, action_bind, gets, getTable. rewrite Hc.
  by destruct (tables c !! n).
Qed.

(** The file is flushed before the work on it. *)
Lemma flush_open e n rs :
  engine_ok None c M e → M !! n = Some rs →
  ∃ h e1 b, on_heap (open_heap n) heap_flush e = (Ok ((), h), e1) ∧ engine_ok None c M e1 ∧
    attached n h (storage_ e1) ∧ file_image n (storage_ e1) = Some b ∧ image b rs ∧
    primaryIndexes_ e1 = primaryIndexes_ e.
Proof.
  intros (Hc & Hst & Hidx) Hrs.
  destruct (flush_law M n rs (open_heap n) (storage_ e)) as (h & s' & b & Hrun & Hst' & Hatt & Hb & Hi);
    [done|done|by eapply open_law|].
  unfold on_heap. rewrite Hrun. eexists h, _, b. by split_and!.
Qed.

(** Dropping the index of [n] makes the others right again. *)
Lemma engine_ok_delete n rs e :
  engine_ok (Some n) c (<[n := rs]> M) e →
  engine_ok None c (<[n := rs]> M)
    (mkEngine (catalog_ e) (storage_ e) (delete n (primaryIndexes_ e))).
Proof.
  intros (Hc & Hst & Hidx). split; [done|]. split; [done|]. cbn. intros m tree Hm _.
  apply lookup_delete_Some in Hm as [Hne Hm]. apply Hidx; [done|congruence].
Qed.

Lemma executeInsert_effect s e :
  holds_database c M e → Forall (Forall literals_scalar) (i_valueRows s) →
  has_effect (Insert_ s) c M e (executeInsert s).
Proof.
  intros [He Hdb] Hlit. unfold has_effect, executeInsert, mbind, action_bind.
  rewrite (known_table_run e (i_table s) He).
  destruct (tables c !! i_table s) as [t|] eqn:Ht; [|by eexists _, _].
  pose proof (do_tables _ _ Hdb _ t Ht) as Htab. set (n := i_table s) in *.
  destruct (proj2 (do_dom _ _ Hdb n)) as [rs Hrs]; [eauto|].
  rewrite (heap_known n (to_safe _ _ _ Htab)). unfold lift.
  destruct (flush_open e n rs He Hrs) as (h & e1 & b & Hflush & He1 & Hatt & Hb & Himg & _).
  rewrite Hflush. unfold tablePath. rewrite (to_safe _ _ _ Htab). unfold gets. rewrite Hb.
  rewrite <- (insert_id M n rs Hrs) in He1, Hdb.
  destruct (with_undo_ok c M n false None e1 rs b (set_indexes (λ i, delete n i))
    (insert_rows t (i_columns s) h 0 (i_valueRows s))
    (λ k rs' e', k = length (i_valueRows s) ∧ database_ok c (<[n := rs']> M) ∧
       rows_added t (i_columns s) (i_valueRows s) rs rs') Himg)
    as (r & e2 & Hrun & Hr).
  { eapply writes_mono; [by apply (writes_insert_rows c M n t Ht e1 rs)|].
    intros [file k] rs' e' ((Hok & Hatt' & Hdb') & Hk & Hadd). by split_and!. }
  { intros e' _ Hc' Hi'. eexists. split; [reflexivity|]. cbn. split; [done|]. split; [done|].
    intros m tree Hm _. apply lookup_delete_Some in Hm as [Hne Hm]. apply Hi'; [done|congruence]. }
  cbn [snd]. rewrite Hrun. destruct r as [k|f].
  - destruct Hr as (rs' & Hok & -> & Hdb' & Hadd). eexists _, _. split; [reflexivity|].
    exists c, (<[n := rs']> M). split; [by eapply rows_inserted|done].
  - eexists _, _. split; [reflexivity|]. rewrite insert_id in Hr, Hdb by done. done.
Qed.

(** ** UPDATE and DELETE *)

(** [change] handles a row of the table as [P] has it. *)
Lemma change_table_ok n t rs e
    (change : TableMeta → F → nat → ScanRow → action engine (F * nat)) P :
  engine_ok None c M e → database_ok c M → tables c !! n = Some t → M !! n = Some rs →
  (∀ cols e rs file count x, working c M n (Some n) rs file e → x ∈ rs →
     writes c M n true e (change t file count (scanned cols x)) (λ p rs' e',
       working c M n (Some n) rs' p.1 e' ∧ row_changed (P cols) x count p.2 rs rs')) →
  ∃ r e', change_table n change e = (r, e') ∧
    match r with
    | Ok k => ∃ cols rs' tuples, boundSchema c n n = Ok cols ∧ rows_changed (P cols) rs k tuples ∧
        rs'.*2 ≡ₚ tuples ∧ holds_database c (<[n := rs']> M) e'
    | Err _ => engine_ok None c M e'
    end.
Proof.
  intros He Hdb Ht Hrs Hstep. pose proof (do_tables _ _ Hdb n t Ht) as Htab.
  unfold change_table, mbind, action_bind at 1. rewrite (known_table_run e n He), Ht.
  rewrite (heap_known n (to_safe _ _ _ Htab)). unfold action_bind at 1, lift at 1.
  destruct (flush_open e n rs He Hrs) as (h & e1 & b & Hflush & He1 & Hatt & Hb & Himg & Hidx).
  unfold action_bind at 1. rewrite Hflush. unfold tablePath. rewrite (to_safe _ _ _ Htab).
  unfold action_bind at 1, lift at 1, action_bind at 1, gets at 1, read_file. rewrite Hb. cbn [default id].
  assert (He1' : engine_ok None c (<[n := rs]> M) e1) by by rewrite insert_id.
  assert (Hdb' : database_ok c (<[n := rs]> M)) by by rewrite insert_id.
  destruct (with_undo_ok c M n true (Some n) e1 rs b (mret ())
    (rows ← scanTable n n; change_rows (change t) h 0 rows)
    (λ k rs' e', ∃ cols tuples, boundSchema c n n = Ok cols ∧ rows_changed (P cols) rs k tuples ∧
       rs'.*2 ≡ₚ tuples ∧ database_ok c (<[n := rs']> M)) Himg) as (r & e2 & Hrun & Hr).
  { eapply writes_bind.
    { apply (writes_reads c M n true (Some n) e1 rs); [by right|]. eapply reads_scanTable.
      - by apply engine_ok_skip.
      - apply Hdb'.
      - apply lookup_insert_eq. }
    intros l ? e' _ (-> & He' & [Hatt' _] & _ & cols & Hcols & ->).
    eapply writes_mono; [apply (change_rows_ok c M n (P cols) (change t) cols e' rs [] rs h 0);
      [by apply Hstep| |done]; by split_and!; [..|apply Hatt'|]|].
    intros [file k] rs' e'' ((Hok & Hatt'' & Hdb'') & k' & tuples & Hch & Hk & Hrs').
    cbn [fst snd] in *. assert (k = k') as -> by lia. split_and!; [done..|].
    intros e3 _. by exists cols, tuples. }
  { intros e' Hi Hc' _. eexists. split; [reflexivity|]. split; [done|]. split; [done|].
    rewrite (Hi eq_refl). apply He1'. }
  unfold action_bind at 1. cbn [snd]. unfold mbind in Hrun. rewrite Hrun. destruct r as [k|f].
  - destruct Hr as (rs' & Hok & cols & tuples & Hcols & Hch & Hrs' & Hdb'').
    eexists _, _. split; [reflexivity|]. exists cols, rs', tuples.
    split; [done|]. split; [done|]. split; [done|]. split; [by apply engine_ok_delete|done].
  - eexists _, _. split; [reflexivity|]. by rewrite insert_id in Hr.
Qed.

Lemma executeUpdate_effect s e :
  holds_database c M e → Forall (λ a, literals_scalar (a_value a)) (u_sets s) →
  has_effect (Update_ s) c M e (executeUpdate s).
Proof.
  intros [He Hdb] Hlit. unfold has_effect, executeUpdate. set (n := u_table s) in *.
  unfold mbind, action_bind. destruct (tables c !! n) as [t|] eqn:Ht.
  2:{ unfold change_table, mbind, action_bind at 1. rewrite (known_table_run e n He), Ht.
      by eexists _, _. }
  destruct (proj2 (do_dom _ _ Hdb n)) as [rs Hrs]; [eauto|].
  destruct (change_table_ok n t rs e (λ table, update_row table s)
    (row_updated t (u_where s) (map (λ a, (a_column a, a_value a)) (u_sets s))) He Hdb Ht Hrs)
    as (r & e' & Hrun & Hr).
  { intros cols e1 rs1 file count x. by apply writes_update_row. }
  rewrite Hrun. destruct r as [k|f]; [|by eexists _, _].
  destruct Hr as (cols & rs' & tuples & Hcols & Hch & Hrs' & Hok).
  eexists _, _. split; [reflexivity|]. exists c, (<[n := rs']> M). split; [|done].
  by eapply rows_updated.
Qed.

Lemma executeDelete_effect s e :
  holds_database c M e → has_effect (Delete_ s) c M e (executeDelete s).
Proof.
  intros [He Hdb]. unfold has_effect, executeDelete. set (n := d_table s) in *.
  unfold mbind, action_bind. destruct (tables c !! n) as [t|] eqn:Ht.
  2:{ unfold change_table, mbind, action_bind at 1. rewrite (known_table_run e n He), Ht.
      by eexists _, _. }
  destruct (proj2 (do_dom _ _ Hdb n)) as [rs Hrs]; [eauto|].
  destruct (change_table_ok n t rs e (λ table, delete_row table s) (row_deleted (d_where s))
    He Hdb Ht Hrs) as (r & e' & Hrun & Hr).
  { intros cols e1 rs1 file count x. by apply writes_delete_row. }
  rewrite Hrun. destruct r as [k|f]; [|by eexists _, _].
  destruct Hr as (cols & rs' & tuples & Hcols & Hch & Hrs' & Hok).
  eexists _, _. split; [reflexivity|]. exists c, (<[n := rs']> M). split; [|done].
  by eapply rows_deleted.
Qed.

(** ** CREATE and DROP *)

(** Another catalog with the tables the references need. *)
Lemma contents_ok_mono c' M' t rs :
  (∀ m ft, (∃ i column, t_columns t !! i = Some column ∧ is_foreign column = true ∧
       cm_fk_table column = m) → tables c !! m = Some ft → tables c' !! m = Some ft ∧
     M' !! m = M !! m) →
  contents_ok c M t rs → contents_ok c' M' t rs.
Proof.
  intros Hmono [Hr Hk Href]. split; [done..|].
  intros i column x v Hcol Hfor Hx Hv Hnull.
  destruct (Href i column x v Hcol Hfor Hx Hv Hnull) as (ft & p & frs & y & w & Hft & Hp & Hfrs & Hy).
  destruct (Hmono (cm_fk_table column) ft) as [Hft' HM']; [by exists i, column|done|].
  exists ft, p, frs, y, w. by rewrite HM'.
Qed.

Lemma table_ok_mono c' n t :
  (∀ m ft, (∃ i column, t_columns t !! i = Some column ∧ is_foreign column = true ∧
       cm_fk_table column = m) → tables c !! m = Some ft → tables c' !! m = Some ft) →
  table_ok c n t → table_ok c' n t.
Proof.
  intros Hmono [Hname Hsafe Hcols Hdistinct Hprim Htargets]. split; [done..|].
  apply Forall_lookup. intros i column Hcol Hfor.
  destruct (Forall_lookup_1 _ _ _ _ Htargets Hcol Hfor) as (Hne & ft & p & Hft & Hp).
  split; [done|]. exists ft, p. split; [|done]. apply Hmono; [by exists i, column|done].
Qed.

Lemma database_ok_created n t :
  database_ok c M → tables c !! n = None → t_name t = n → table_ok (addTable c t) n t →
  database_ok (addTable c t) (<[n := []]> M).
Proof.
  intros [Hdom Htables Hcontents] Hn Hname Ht.
  assert (Htab : ∀ m ft, tables c !! m = Some ft → tables (addTable c t) !! m = Some ft).
  { intros m ft Hm. cbn. rewrite Hname, lookup_insert_ne by congruence. done. }
  split.
  - intros m. cbn. rewrite Hname. destruct (decide (m = n)) as [->|Hne];
      [by rewrite !lookup_insert_eq|by rewrite !lookup_insert_ne].
  - intros m mt. cbn. rewrite Hname. destruct (decide (m = n)) as [->|Hne].
    + rewrite lookup_insert_eq. by intros [= <-].
    + rewrite lookup_insert_ne by done. intros Hm. eapply table_ok_mono; [|by apply Htables]. auto.
  - intros m mt mrs. cbn. rewrite Hname. destruct (decide (m = n)) as [->|Hne].
    + rewrite !lookup_insert_eq. intros [= <-] [= <-]. split.
      * by intros x Hx%elem_of_nil.
      * by intros p _ x y v w Hx%elem_of_nil.
      * by intros i column x v _ _ Hx%elem_of_nil.
    + rewrite !lookup_insert_ne by done. intros Hm Hrs. eapply contents_ok_mono; [|by eapply Hcontents].
      intros m' ft _ Hft. split; [by apply Htab|]. apply lookup_insert_ne. congruence.
Qed.

Lemma not_referenced n m mt i column :
  (∀ n t, tables c !! n = Some t → table_ok c n t) → is_referenced c n = false →
  tables c !! m = Some mt → m ≠ n → t_columns mt !! i = Some column → cm_fk_table column ≠ n.
Proof.
  intros Hdb Hno Hm Hne Hcol Hfk. apply not_true_iff_false in Hno. apply Hno.
  apply existsb_exists. exists m. split; [apply list_elem_of_In, elem_of_tableNames; eauto|].
  unfold getTable. rewrite Hm, (to_name _ _ _ (Hdb m mt Hm)), bool_decide_eq_false_2 by done.
  apply existsb_exists. exists column. split; [by eapply list_elem_of_In, list_elem_of_lookup_2|].
  by apply bool_decide_eq_true.
Qed.

Lemma tables_removeTable n : tables (removeTable c n) = delete n (tables c).
Proof.
  unfold removeTable, hasTable. case_bool_decide as Hn; [done|].
  symmetry. apply delete_id. by apply eq_None_not_Some.
Qed.

Lemma database_ok_dropped n :
  database_ok c M → is_referenced c n = false →
  database_ok (removeTable c n) (delete n M).
Proof.
  intros [Hdom Htables Hcontents] Hno.
  assert (Htab : ∀ m mt, tables (removeTable c n) !! m = Some mt → m ≠ n ∧ tables c !! m = Some mt).
  { intros m mt. rewrite tables_removeTable, lookup_delete_Some. naive_solver. }
  assert (Hkept : ∀ m mt, m ≠ n → tables c !! m = Some mt → ∀ m' ft,
    (∃ i column, t_columns mt !! i = Some column ∧ is_foreign column = true ∧
       cm_fk_table column = m') → tables c !! m' = Some ft →
    tables (removeTable c n) !! m' = Some ft ∧ delete n M !! m' = M !! m').
  { intros m mt Hne Hm m' ft (i & column & Hcol & _ & Hfk) Hft.
    assert (n ≠ m') as Hne'.
    { intros ->. by apply (not_referenced m' m mt i column Htables Hno Hm Hne Hcol). }
    by rewrite tables_removeTable, !lookup_delete_ne. }
  split.
  - intros m. rewrite tables_removeTable. destruct (decide (m = n)) as [->|Hne];
      [by rewrite !lookup_delete_eq|by rewrite !lookup_delete_ne].
  - intros m mt [Hne Hm]%Htab. eapply table_ok_mono; [|by apply Htables].
    intros m' ft Href Hft. by apply (Hkept m mt).
  - intros m mt mrs [Hne Hm]%Htab Hrs. rewrite lookup_delete_ne in Hrs by done.
    eapply contents_ok_mono; [by apply (Hkept m mt)|by eapply Hcontents].
Qed.

Lemma executeCreate_effect s e :
  holds_database c M e → no_real_key (c_columns s) →
  has_effect (Create s) c M e (executeCreate s).
Proof.
  intros [He Hdb] Hreal. pose proof He as (Hc & Hst & Hidx). set (n := c_table s) in *.
  unfold has_effect, executeCreate, mbind, action_bind, gets. fold n. rewrite Hc.
  destruct (hasTable c n) eqn:Hhas.
  { destruct (c_ifNotExists s) eqn:Hif; [|by eexists _, _].
    eexists _, _. split; [reflexivity|]. exists c, M. split; [by constructor|done]. }
  unfold lift. destruct (define_columns c [] 0 (c_columns s)) as [columns|f] eqn:Hdef; [|by eexists _, _].
  destruct (safe_name n) eqn:Hsafe.
  2:{ unfold heap, tablePath. rewrite Hsafe. by eexists _, _. }
  assert (Hn : tables c !! n = None) by (apply eq_None_not_Some; exact (bool_decide_eq_false_1 _ Hhas)).
  assert (HMn : M !! n = None).
  { apply eq_None_not_Some. rewrite (do_dom _ _ Hdb n), Hn. by intros []. }
  rewrite (heap_known n Hsafe). destruct (create_law M n (storage_ e) Hst HMn) as (h' & s' & Hrun & Hst').
  unfold on_heap. rewrite Hrun. cbn [rbind set_catalog set_indexes modify].
  eexists _, _. split; [reflexivity|].
  exists (addTable c (mkTableMeta n columns)), (<[n := []]> M). split; [by constructor|].
  split; [split; [by rewrite Hc|split; [done|]]|].
  - cbn. intros m tree Hm _. apply lookup_delete_Some in Hm as [Hne Hm].
    destruct (Hidx m tree Hm) as (t & p & rs & Ht & Hp & Hrs & Hin); [done|].
    exists t, p, rs. cbn. by rewrite !lookup_insert_ne.
  - apply database_ok_created; [done..|]. eapply define_columns_ok; try done. apply Hdb.
Qed.

Lemma executeDrop_effect s e :
  holds_database c M e → has_effect (Drop s) c M e (executeDrop s).
Proof.
  intros [He Hdb]. pose proof He as (Hc & Hst & Hidx). set (n := dr_table s) in *.
  unfold has_effect, executeDrop, mbind, action_bind, gets, getTable. fold n. rewrite Hc.
  destruct (tables c !! n) as [t|] eqn:Ht.
  2:{ assert (hasTable c n = false) by (apply bool_decide_eq_false; by rewrite Ht; intros []).
      destruct (dr_ifExists s) eqn:Hif; [|by eexists _, _].
      eexists _, _. split; [reflexivity|]. exists c, M. split; [by constructor|done]. }
  destruct (is_referenced c n) eqn:Hno; [by eexists _, _|].
  destruct (proj2 (do_dom _ _ Hdb n)) as [rs Hrs]; [eauto|].
  pose proof (do_tables _ _ Hdb n t Ht) as Htab. unfold lift. rewrite (heap_known n (to_safe _ _ _ Htab)).
  destruct (flush_open e n rs He Hrs) as (h & e1 & b & Hflush & (Hc1 & Hst1 & Hidx1) & _ & _ & _ & Hi1).
  rewrite Hflush. destruct (drop_law M n rs (storage_ e1) Hst1 Hrs) as (h' & s' & Hrun & Hst').
  unfold on_heap. rewrite Hrun. cbn [rbind set_catalog set_indexes modify].
  eexists _, _. split; [reflexivity|]. exists (removeTable c n), (delete n M). split.
  { apply table_dropped; [apply bool_decide_eq_true; eauto|done]. }
  split; [split; [by rewrite <- Hc1|split; [done|]]|by apply database_ok_dropped].
  cbn. intros m tree Hm _. apply lookup_delete_Some in Hm as [Hne Hm].
  destruct (Hidx1 m tree Hm) as (t' & p & mrs & Ht' & Hp & Hmrs & Hin); [done|].
  exists t', p, mrs. by rewrite tables_removeTable, !lookup_delete_ne.
Qed.

Lemma execute_effect s e :
  holds_database c M e → stmt_ok s → has_effect s c M e (execute s).
Proof.
  intros He Hs. destruct s; cbn [execute stmt_ok] in *.
  - by apply executeCreate_effect.
  - by apply executeDrop_effect.
  - by apply executeInsert_effect.
  - by apply executeUpdate_effect.
  - by apply executeDelete_effect.
Qed.
End statements.

(** ** Looking up a key *)

Section lookup.
Context {D F : Type} `{HeapFilesLaws D F}.

(** The rows whose key is [key], as a scan finds them. *)
Definition rows_with (p : nat) (key : Value) (x : RowId * Tuple) : bool :=
  match x.2 !! p with Some v => value_eqb v key | None => false end.

Lemma unique_filter (P : RowId * Tuple → bool) (rs : rows) x :
  NoDup rs.*1 → x ∈ rs → P x = true → (∀ y, y ∈ rs → P y = true → y.1 = x.1) →
  List.filter P rs = [x].
Proof.
  induction rs as [|y rs IH]; intros Hnd Hx HPx Hone; [by apply elem_of_nil in Hx|].
  cbn in Hnd. apply NoDup_cons in Hnd as [Hy Hnd]. cbn [List.filter].
  assert (Hothers : x ∈ rs → P y = false).
  { intros Hin. apply not_true_iff_false. intros HPy. apply Hy.
    rewrite (Hone y (list_elem_of_here _ _) HPy). by apply list_elem_of_fmap_2. }
  apply elem_of_cons in Hx as [->|Hx].
  - rewrite HPx. f_equal. apply filter_false, Forall_forall. intros z Hz.
    apply not_true_iff_false. intros HPz. apply Hy.
    rewrite <- (Hone z (list_elem_of_further _ _ _ Hz) HPz). by apply list_elem_of_fmap_2.
  - rewrite (Hothers Hx). apply IH; [done..|]. intros z Hz. by apply Hone, list_elem_of_further.
Qed.

(** Unique keys can be indexed. *)
Lemma build_index_total c n t p acc rs tree :
  table_ok c n t → column_position is_primary (t_columns t) = Some p →
  (∀ x, x ∈ acc ++ rs → row_ok t x.2) → NoDup (acc ++ rs).*1 → keys_unique p (acc ++ rs) →
  indexed p acc tree → ∃ tree', build_index p tree (stored <$> rs) = Ok tree'.
Proof.
  intros Ht Hp. revert acc tree. induction rs as [|[r tuple] rs IH]; intros acc tree Hrows Hnd Hkeys Hacc.
  { by exists tree. }
  rewrite fmap_cons. cbn [build_index stored storedValues storedId fst snd].
  destruct (row_key c n t p tuple Ht Hp) as (key & Hkey & Hord).
  { apply (Hrows (r, tuple)). rewrite elem_of_app, elem_of_cons. auto. }
  unfold nth_value. rewrite Hkey. cbn [rbind].
  pose proof (insert_spec WithText tree key r (proj1 Hacc) Hord) as Hspec.
  destruct (BTree.insert tree key r) as [tree1|f] eqn:Hins; cbn [rbind].
  - rewrite cons_middle, app_assoc in Hrows, Hnd, Hkeys.
    apply (IH (acc ++ [(r, tuple)])); [done..|].
    eapply indexed_insert; [exact Hacc|exact Hord|exact Hkey| |exact Hins].
    intros x. rewrite elem_of_app, list_elem_of_singleton. tauto.
  - destruct Hspec as [_ (e & He & Hc)].
    pose proof (proj1 (tree_entries_ok WithText tree (proj1 Hacc))) as Hall.
    rewrite Forall_forall in Hall. specialize (Hall e He).
    apply (proj2 Hacc) in He as (x & Hx & Hv & _).
    assert (Hne : x.1 ≠ r).
    { rewrite fmap_app in Hnd. apply NoDup_app in Hnd as (_ & Hd & _). intros <-.
      apply (Hd x.1); [by apply list_elem_of_fmap_2|]. rewrite fmap_cons. apply list_elem_of_here. }
    assert (Hfalse : value_eqb e.1 key = false).
    { apply (Hkeys x (r, tuple)); try done; rewrite elem_of_app, ?elem_of_cons; auto. }
    assert (Htrue : value_eqb e.1 key = true); [|congruence].
    by apply (value_eqb_compare WithText); [..|lia].
Qed.

Lemma scan_heap_run skip c M e n rs :
  engine_ok skip c M e → safe_name n = true → M !! n = Some rs →
  ∃ e', scan_heap n e = (Ok (stored <$> rs), e') ∧ engine_ok skip c M e' ∧
    primaryIndexes_ e' = primaryIndexes_ e.
Proof.
  intros (Hc & Hst & Hidx) Hn Hrs. unfold scan_heap. rewrite (heap_known n Hn).
  destruct (scan_law M n rs (open_heap n) (storage_ e) Hst Hrs) as (h' & s' & Hscan & Hst' & _).
  { by eapply open_law. }
  unfold mbind, action_bind, lift, on_heap. rewrite Hscan. cbn [rbind mret action_ret].
  eexists. split; [reflexivity|]. by split.
Qed.

Lemma primaryIndex_run c M e n t rs p :
  holds_database c M e → tables c !! n = Some t → M !! n = Some rs →
  column_position is_primary (t_columns t) = Some p →
  ∃ tree e', primaryIndex n e = (Ok tree, e') ∧ engine_ok None c M e' ∧ indexed p rs tree.
Proof.
  intros [He Hdb] Ht Hrs Hp.
  destruct (reads_primaryIndex c M (do_tables _ _ Hdb)
    (λ m mt mrs Hm Hmrs, co_rows _ _ _ _ (do_contents _ _ Hdb m mt mrs Hm Hmrs))
    None e n t rs p He ltac:(done) Ht Hrs Hp) as (r & e' & Hrun & He' & _ & _ & HQ).
  destruct r as [tree|f]; [exists tree, e'; by destruct (HQ tree eq_refl)|exfalso].
  revert Hrun. unfold primaryIndex, mbind, action_bind, gets.
  destruct (primaryIndexes_ e !! n); [done|]. rewrite (known_table_run c M e n He), Ht, Hp.
  pose proof (do_tables _ _ Hdb n t Ht) as Htab.
  destruct (scan_heap_run None c M e n rs He (to_safe _ _ _ Htab) Hrs) as (e1 & -> & He1 & _).
  pose proof (do_contents _ _ Hdb n t rs Ht Hrs) as [Hr Hk _].
  destruct (build_index_total c n t p [] rs (newTree defaultMaxKeys) Htab Hp) as [tree Hb];
    [done|by eapply stored_once; [apply He|]|by apply Hk|apply indexed_empty|].
  unfold lift. by rewrite Hb.
Qed.

(** What the index finds. *)
Lemma find_rows c M n t rs p tree key :
  database_ok c M → tables c !! n = Some t → M !! n = Some rs →
  column_position is_primary (t_columns t) = Some p → NoDup rs.*1 →
  indexed p rs tree → well_ordered WithText key →
  ∃ o, BTree.find tree key = Ok o ∧
    match o with
    | None => List.filter (rows_with p key) rs = []
    | Some r => ∃ x, x ∈ rs ∧ x.1 = r ∧ List.filter (rows_with p key) rs = [x]
    end.
Proof.
  intros Hdb Ht Hrs Hp Hnd Hin Hkey.
  destruct (indexed_find p rs tree key Hin Hkey) as (o & Ho & Hnone & Hsome). exists o. split; [done|].
  destruct o as [r|].
  - destruct (Hsome r eq_refl) as (x & v & Hx & Hr & Hv & Heq). exists x. split; [done|]. split; [done|].
    apply unique_filter; [done|done| |].
    + unfold rows_with. by rewrite Hv.
    + intros y Hy Hmatch. unfold rows_with in Hmatch.
      destruct (y.2 !! p) as [w|] eqn:Hw; [|done]. destruct (decide (y.1 = x.1)); [done|].
      assert (value_eqb w v = false).
      { by apply (co_keys _ _ _ _ (do_contents _ _ Hdb n t rs Ht Hrs) p Hp y x). }
      assert (value_eqb w v = true); [|congruence].
      apply value_eqb_trans with key; [done|by rewrite value_eqb_comm].
  - apply filter_false, Forall_forall. intros x Hx.
    unfold rows_with. destruct (x.2 !! p) as [v|] eqn:Hv; [|done]. by eapply Hnone.
Qed.

Lemma lookup_run c M e n alias t rs p key fuel :
  holds_database c M e → tables c !! n = Some t → M !! n = Some rs →
  column_position is_primary (t_columns t) = Some p → well_ordered WithText key →
  ∃ e', lookupPrimaryKey (S fuel) n alias key e =
    (let* cols := boundSchema c n alias in Ok (scanned cols <$> List.filter (rows_with p key) rs), e') ∧
    holds_database c M e'.
Proof.
  intros Hdb Ht Hrs Hp Hkey. destruct (primaryIndex_run c M e n t rs p Hdb Ht Hrs Hp)
    as (tree & e1 & Hidx & He1 & Hin).
  pose proof (do_tables _ _ (proj2 Hdb) n t Ht) as Htab.
  assert (Hnd : NoDup rs.*1) by (eapply stored_once; [apply He1|done]).
  cbn [lookupPrimaryKey]. unfold mbind, action_bind at 1. rewrite (known_table_run c M e n (proj1 Hdb)), Ht.
  unfold action_bind at 1. rewrite Hidx. unfold action_bind at 1, lift at 1.
  destruct (find_rows c M n t rs p tree key (proj2 Hdb) Ht Hrs Hp Hnd Hin Hkey) as (o & -> & Ho).
  unfold boundSchema, getTable. rewrite Ht. cbn [rbind]. destruct o as [r|].
  - destruct Ho as (x & Hx & Hr & ->).
    rewrite (heap_known n (to_safe _ _ _ Htab)). unfold action_bind at 1, lift at 1.
    pose proof He1 as (Hc1 & Hst1 & _).
    destruct (read_law M n rs (open_heap n) (storage_ e1) r Hst1 Hrs) as (row & h' & s' & rs' & Hread & Hspec & Hst' & _);
      [by eapply open_law|subst r; by apply list_elem_of_fmap_2|].
    unfold action_bind at 1, on_heap. rewrite Hread.
    assert (row = Ok (Some (stored x)) ∧ rs' = rs) as [-> ->].
    { inversion Hspec as [| | | | | | | | |r' t' Hin' Heq'|? Hnot| | |]; subst.
      - destruct row as [row|]; [|done]. cbn in *.
        assert ((x.1, t') = x) as Hsame by (eapply rows_same; [exact Hnd|done..]).
        unfold stored. destruct x. cbn in *. split; congruence.
      - destruct Hnot. by apply list_elem_of_fmap_2. }
    rewrite insert_id in Hst' by done.
    cbn [rbind fst]. unfold action_bind, gets, lift, mret, action_ret. cbn [catalog_]. rewrite Hc1, Ht.
    exists (mkEngine c s' (primaryIndexes_ e1)).
    split; [|split; [split; [done|split; [exact Hst'|apply He1]]|apply Hdb]].
    done.
  - rewrite Ho. eexists. split; [reflexivity|]. by split; [|apply Hdb].
Qed.

Lemma bind_rows_total table width cols (rs : rows) :
  (∀ x, x ∈ rs → length x.2 = width) →
  bind_rows table width cols (stored <$> rs) = Ok (scanned cols <$> rs).
Proof.
  induction rs as [|[r tuple] rs IH]; intros Hlen; [done|].
  rewrite !fmap_cons. cbn [bind_rows stored storedValues storedId fst snd].
  rewrite decide_False by (intros []; apply (Hlen (r, tuple)), list_elem_of_here).
  rewrite IH; [done|]. intros x Hx. by apply Hlen, list_elem_of_further.
Qed.

Lemma scanTable_run c M e n alias t rs :
  holds_database c M e → tables c !! n = Some t → M !! n = Some rs →
  ∃ e', scanTable n alias e =
    (let* cols := boundSchema c n alias in Ok (scanned cols <$> rs), e') ∧ holds_database c M e'.
Proof.
  intros [He Hdb] Ht Hrs. pose proof (do_tables _ _ Hdb n t Ht) as Htab.
  unfold scanTable, mbind, action_bind. rewrite (known_table_run c M e n He), Ht.
  destruct (scan_heap_run None c M e n rs He (to_safe _ _ _ Htab) Hrs) as (e1 & -> & He1 & _).
  unfold gets. rewrite (proj1 He1). unfold lift, boundSchema, getTable. rewrite Ht. cbn [rbind].
  exists e1. split; [|done]. rewrite bind_rows_total; [done|]. intros x Hx.
  by rewrite (Forall2_length _ _ _ (co_rows _ _ _ _ (do_contents _ _ Hdb n t rs Ht Hrs) x Hx)).
Qed.
End lookup.

(** * From an empty database *)

Section database.
Context (batchRows capacity : nat) (Hbatch : (0 < batchRows)%nat).
#[local] Existing Instance heap_files.
#[local] Existing Instance heap_files_laws.

#[local] Instance files : HeapFiles storage HeapFile := heap_files batchRows.
#[local] Instance laws : HeapFilesLaws storage HeapFile := heap_files_laws batchRows Hbatch.

Abbreviation Engine := (engine (D:=storage)).

(** A database without tables, on a pool of [capacity] pages. *)
Definition start : Engine := mkEngine emptyCatalog (mkStorage (newPool capacity) ∅) ∅.

Definition execute_on (s : data_stmt) : action Engine NativeQueryResult :=
  execute (H:=heap_files batchRows) s.

(** The state after some statements, whatever each of them reports. *)
Definition after (ss : list data_stmt) : Engine :=
  fold_left (λ e s, (execute_on s e).2) ss start.

(** The catalog and the rows one sees in [e]. *)
Definition observed (c : Catalog) (M : gmap string rows) (e : Engine) : Prop :=
  catalog_ e = c ∧ ∀ n,
    match M !! n with
    | Some rs => is_Some (getTable c n) ∧
        (scan_heap (H:=heap_files batchRows) n e).1 = Ok (stored <$> rs)
    | None => getTable c n = None
    end.

Lemma holds_observed c M e : holds_database c M e → observed c M e.
Proof.
  intros [He Hdb]. split; [apply He|]. intros n. unfold getTable.
  destruct (M !! n) as [rs|] eqn:Hn.
  - destruct (proj1 (do_dom _ _ Hdb n)) as [t Ht]; [eauto|]. split; [eauto|].
    destruct (scan_heap_run None c M e n rs He (to_safe _ _ _ (do_tables _ _ Hdb n t Ht)) Hn)
      as (e' & Hrun & _).
    change (scan_heap n e).1 with (scan_heap (H:=files) n e).1. by rewrite Hrun.
  - apply eq_None_not_Some. intros [rs Hrs]%(do_dom _ _ Hdb). congruence.
Qed.

Lemma start_holds : holds_database emptyCatalog ∅ start.
Proof.
  split; [split; [done|split]|].
  - exists ∅. split; [|done]. pose proof (empty_store_ok capacity ∅) as Hok.
    by rewrite gset_to_gmap_empty in Hok.
  - by intros n tree Hn.
  - split; [by intros n; split; intros []|by intros n t Hn|by intros n t rs Hn].
Qed.

Lemma after_holds ss :
  Forall stmt_ok ss → ∃ M, holds_database (catalog_ (after ss)) M (after ss).
Proof.
  intros Hss. unfold after. assert (Hstart : ∃ M, holds_database (catalog_ start) M start).
  { exists ∅. apply start_holds. }
  revert Hstart. generalize start as e. induction Hss as [|s ss Hs _ IH]; intros e [M He]; [by exists M|].
  apply IH. destruct (execute_effect _ M s e He Hs) as (r & e' & Hrun & Hr).
  assert (Hrun' : execute_on s e = (r, e')) by exact Hrun. rewrite Hrun'. cbn [snd].
  assert (Hsame : ∀ c' M', holds_database c' M' e' → ∃ M', holds_database (catalog_ e') M' e').
  { intros c' M' Hok. exists M'. by rewrite (proj1 (proj1 Hok)). }
  destruct r as [res|f]; [|by eapply Hsame]. destruct Hr as (c' & M' & _ & Hok). by eapply Hsame.
Qed.
End database.

(** C1: whatever CREATE, DROP, INSERT, UPDATE and DELETE statements run on an
    empty database, and whether they succeed or not, every row that a scan of a
    table then returns has a value of its column's type in every column and no
    NULL where NOT NULL or PRIMARY KEY forbids it, two rows of a table have
    different primary keys, and every foreign key finds its row in the table it
    names.  No key column may be of a floating point type. *)
Theorem constraints_always_hold (batchRows capacity : nat) (ss : list data_stmt) :
  (0 < batchRows)%nat → Forall stmt_ok ss →
  ∃ M, observed batchRows (catalog_ (after batchRows capacity ss)) M (after batchRows capacity ss) ∧
    database_ok (catalog_ (after batchRows capacity ss)) M.
Proof.
  intros Hbatch Hss. destruct (after_holds batchRows capacity Hbatch ss Hss) as [M HM].
  exists M. split; [by apply (holds_observed batchRows Hbatch)|apply HM].
Qed.

(** C2: a statement that succeeds has exactly the effect its text describes on
    the catalog and the rows one sees, and reports the number of rows it
    changed; a statement that fails, at any row, leaves the catalog and the rows
    of every table as they were. *)
Theorem statements_refine (batchRows capacity : nat) (ss : list data_stmt) (s : data_stmt) :
  (0 < batchRows)%nat → Forall stmt_ok ss → stmt_ok s →
  ∃ r e' M, execute_on batchRows s (after batchRows capacity ss) = (r, e') ∧
    observed batchRows (catalog_ (after batchRows capacity ss)) M (after batchRows capacity ss) ∧
    match r with
    | Ok res => ∃ c' M', effect (catalog_ (after batchRows capacity ss)) M s res c' M' ∧
        observed batchRows c' M' e'
    | Err _ => observed batchRows (catalog_ (after batchRows capacity ss)) M e'
    end.
Proof.
  intros Hbatch Hss Hs. destruct (after_holds batchRows capacity Hbatch ss Hss) as [M HM].
  destruct (execute_effect _ M s _ HM Hs) as (r & e' & Hrun & Hr). exists r, e', M.
  split; [exact Hrun|]. split; [by apply (holds_observed batchRows Hbatch)|].
  destruct r as [res|f]; [|by apply (holds_observed batchRows Hbatch)].
  destruct Hr as (c' & M' & Heff & Hok). exists c', M'. split; [done|].
  by apply (holds_observed batchRows Hbatch).
Qed.


(** ** A small database *)

#[local] Open Scope string_scope.

Definition here : loc := Loc 1 1.
Definition int_literal (z : Z) : Node := Literal (LInt z) here.
Definition column (name : string) : Node := ColumnRef "" name "" here.

(** [orders.user] refers to [users.id]. *)
Definition demo_tables : list data_stmt :=
  [Create (mkCreate "users" [mkColumnDef "id" "int" true false "" "";
                             mkColumnDef "name" "text" false true "" ""] false here);
   Create (mkCreate "orders" [mkColumnDef "id" "integer" true false "" "";
                              mkColumnDef "user" "int" false false "users" "id"] false here);
   Insert_ (mkInsert "users" [] [[int_literal 1; int_literal 7]; [int_literal 2; int_literal 8]] here);
   Insert_ (mkInsert "orders" ["user"; "id"]
              [[int_literal 1; int_literal 10]; [Literal LNull here; int_literal 11]] here)].

(** The second row refers to a user there is not. *)
Definition demo_bad_insert : data_stmt :=
  Insert_ (mkInsert "orders" [] [[int_literal 12; int_literal 2]; [int_literal 13; int_literal 3]] here).

Definition demo_statements : list data_stmt :=
  [demo_bad_insert;
   Delete_ (mkDelete "users" None here);
   Drop (mkDrop "users" false here);
   Update_ (mkUpdate "users" [mkAssignment "name" (column "id")]
              (Some (BinaryOp "=" (column "id") (int_literal 2) "" here)) here);
   Delete_ (mkDelete "orders" (Some (BinaryOp "=" (column "id") (int_literal 10) "" here)) here);
   Delete_ (mkDelete "users" None here)].

(** What the statements report, run one after the other. *)
Fixpoint reports (batchRows : nat) (ss : list data_stmt) (e : engine (D:=storage))
    : list (exec NativeQueryResult) :=
  match ss with
  | [] => []
  | s :: ss => let (r, e') := execute_on batchRows s e in r :: reports batchRows ss e'
  end.

Definition visible (e : engine (D:=storage)) (n : string) : exec (list (list Value)) :=
  let* rows := (scan_heap (H:=heap_files 1) n e).1 in Ok (storedValues <$> rows).

Example demo_reports :
  reports 1 (demo_tables ++ demo_statements) (start 2) =
  [Ok (mkResult 0 "created table users"); Ok (mkResult 0 "created table orders");
   Ok (mkResult 2 "inserted 2 row(s)"); Ok (mkResult 2 "inserted 2 row(s)");
   Err (Throw "Foreign key constraint failed on user");
   Err (Throw "Row is referenced by orders.user");
   Err (Throw "Cannot drop referenced table users");
   Ok (mkResult 1 "updated 1 row(s)"); Ok (mkResult 1 "deleted 1 row(s)");
   Ok (mkResult 2 "deleted 2 row(s)")].
Proof. vm_compute. reflexivity. Qed.

Example demo_visible :
  (visible (after 1 2 (demo_tables ++ [demo_bad_insert])) "users",
   visible (after 1 2 (demo_tables ++ [demo_bad_insert])) "orders") =
  (Ok [[VInteger 1; VText "7"]; [VInteger 2; VText "8"]],
   Ok [[VInteger 10; VInteger 1]; [VInteger 11; VNull]]).
Proof. vm_compute. reflexivity. Qed.

Lemma demo_tables_ok : Forall stmt_ok demo_tables.
Proof. repeat constructor; cbn; try done; repeat constructor; cbn; unfold i64; try lia; done. Qed.

Lemma demo_bad_insert_ok : stmt_ok demo_bad_insert.
Proof. repeat constructor; cbn; unfold i64; lia. Qed.

Lemma constraints_always_hold_witness :
  ∃ M, observed 1 (catalog_ (after 1 2 demo_tables)) M (after 1 2 demo_tables) ∧
    database_ok (catalog_ (after 1 2 demo_tables)) M.
Proof. exact (constraints_always_hold 1 2 demo_tables (le_n 1) demo_tables_ok). Defined.

Lemma statements_refine_witness :
  ∃ r e' M, execute_on 1 demo_bad_insert (after 1 2 demo_tables) = (r, e') ∧
    observed 1 (catalog_ (after 1 2 demo_tables)) M (after 1 2 demo_tables) ∧
    match r with
    | Ok res => ∃ c' M', effect (catalog_ (after 1 2 demo_tables)) M demo_bad_insert res c' M' ∧
        observed 1 c' M' e'
    | Err _ => observed 1 (catalog_ (after 1 2 demo_tables)) M e'
    end.
Proof.
  exact (statements_refine 1 2 demo_tables demo_bad_insert (le_n 1) demo_tables_ok demo_bad_insert_ok).
Defined.

Definition demo_orders : TableMeta :=
  mkTableMeta "orders" [mkColumnMeta "id" "INTEGER" true true "" "";
                        mkColumnMeta "user" "INT" false false "users" "id"].

Lemma demo_orders_known : getTable (catalog_ (after 1 2 demo_tables)) "orders" = Some demo_orders.
Proof. vm_compute. reflexivity. Qed.


Example demo_lookup :
  (lookupPrimaryKey (H:=heap_files 1) 1 "orders" "o" (VReal (of_int 11))
     (after 1 2 demo_tables)).1 =
  Ok [mkScanRow (mkRowId 0 1)
        (mkRow (Some [mkBound "orders" "o" "id"; mkBound "orders" "o" "user"]) [VInteger 11; VNull])].
Proof. vm_compute. reflexivity. Qed.

(** *** A NaN as a key

    The condition on the statements is needed: a NaN compares equal to every
    number, so that a table with the key NaN takes no other row. *)
Definition infinity : Node :=
  BinaryOp "*" (Literal (LFloat (of_int (10 ^ 300))) here)
    (Literal (LFloat (of_int (10 ^ 300))) here) "" here.

Definition nan_key_statements : list data_stmt :=
  [Create (mkCreate "t" [mkColumnDef "x" "real" true false "" ""] false here);
   Insert_ (mkInsert "t" [] [[BinaryOp "-" infinity infinity "" here]] here);
   Insert_ (mkInsert "t" [] [[int_literal 5]] here)].

Example nan_key_blocks :
  reports 1 nan_key_statements (start 2) =
  [Ok (mkResult 0 "created table t"); Ok (mkResult 1 "inserted 1 row(s)");
   Err (Throw "Duplicate primary key for table t")].
Proof. vm_compute. reflexivity. Qed.
