(* ===== verification/Vector.v ===== *)
(** The vectorised SELECT ([src/native_vectorized.cpp]): [TypedVector], a column
    of values of one type with a bitmap of its nulls; [evalVector], which
    evaluates an expression on a batch of rows; and [executeVectorizedSelect],
    which scans a table in batches of its needed columns and filters, projects
    or groups them.  A scan returns the batches it would have passed to its
    visitor; the counters are not modelled.  The order in which the hash map of
    the groups is walked is a parameter. *)

From S2P Require Import Prelude.
From S2P Require Import Double.
From S2P Require Import Value.
From S2P Require Import Tuple.
From S2P Require Import Ast.
From S2P Require Import Catalog.
From S2P Require Import Eval.
From S2P Require Import Select.
From S2P Require Import Store.
From S2P Require Import Engine.

#[local] Open Scope string_scope.

(** ** [TypedVector] *)

(** The [std::variant]; a boolean is a byte. *)
Inductive Storage : Type :=
  | NoStorage
  | Integers (l : list Z)
  | Reals (l : list double)
  | Texts (l : list string)
  | Booleans (l : list Z)
  | Blobs (l : list bytes).

Record TypedVector : Type := mkVector {
  v_type : ValueType;
  v_nulls : list Z;
  v_storage : Storage;
  v_size : nat;
}.

(** The storage of [n] values that are not there. *)
Definition empty_storage (t : ValueType) (n : nat) : Storage :=
  match t with
  | Null => NoStorage
  | Integer => Integers (replicate n 0%Z)
  | Real => Reals (replicate n dzero)
  | Text => Texts (replicate n "")
  | Boolean => Booleans (replicate n 0%Z)
  | Blob => Blobs (replicate n [])
  end.

Definition newVector (t : ValueType) : TypedVector := mkVector t [] (empty_storage t 0) 0.

(** [std::get] of another alternative *)
Definition bad_variant {A} : exec A := Err (Throw "std::get: wrong index for variant").

Definition null_bit (row : nat) : Z := Z.shiftl 1 (Z.of_nat (row mod 64)).

(** The bitmap with one more row, null or not. *)
Definition grow_nulls (nulls : list Z) (size : nat) (null : bool) : exec (list Z) :=
  let nulls := if (length nulls <=? size / 64)%nat then (nulls ++ [0%Z])%list else nulls in
  if null then
    match nulls !! (size / 64)%nat with
    | Some word => Ok (<[(size / 64)%nat := Z.lor word (null_bit size)]> nulls)
    | None => Err (Undefined "vector index out of range")
    end
  else Ok nulls.

(** Type and storage before the value is pushed: a vector takes the type of its
    first value, and a vector of integers becomes one of reals. *)
Definition adapt (v : TypedVector) (input : Value) : exec (ValueType * Storage) :=
  if isNull input then Ok (v_type v, v_storage v)
  else if decide (v_type v = Null) then
    Ok (Value.type input, empty_storage (Value.type input) (v_size v))
  else if decide (v_type v = Integer ∧ Value.type input = Real) then
    match v_storage v with
    | Integers l => Ok (Real, Reals (of_int <$> l))
    | _ => bad_variant
    end
  else Ok (v_type v, v_storage v).

Definition push (t : ValueType) (storage : Storage) (input : Value) : exec Storage :=
  let null := isNull input in
  match t, storage with
  | Null, _ => Ok storage
  | Integer, Integers l =>
      let* z := if null then Ok 0%Z else asInteger input in Ok (Integers (l ++ [z])%list)
  | Real, Reals l =>
      let* d := if null then Ok dzero else asReal input in Ok (Reals (l ++ [d])%list)
  | Text, Texts l => Ok (Texts (l ++ [if null then "" else toString input])%list)
  | Boolean, Booleans l =>
      Ok (Booleans (l ++ [if negb null && asBoolean input then 1%Z else 0%Z])%list)
  | Blob, Blobs l =>
      let* b := if null then Ok [] else asBlob input in Ok (Blobs (l ++ [b])%list)
  | _, _ => bad_variant
  end.

Definition append (v : TypedVector) (input : Value) : exec TypedVector :=
  let* nulls := grow_nulls (v_nulls v) (v_size v) (isNull input) in
  let* (t, storage) := adapt v input in
  let* storage := push t storage input in
  Ok (mkVector t nulls storage (S (v_size v))).

Definition is_null (v : TypedVector) (index : nat) : exec bool :=
  if (v_size v <=? index)%nat then Err (Throw "Vector row out of range")
  else
    match v_nulls v !! (index / 64)%nat with
    | Some word => Ok (negb (Z.land word (null_bit index) =? 0)%Z)
    | None => Err (Undefined "vector index out of range")
    end.

(** The value stored for a row, null or not. *)
Definition stored_value (v : TypedVector) (index : nat) : exec Value :=
  let found {A} (l : list A) (f : A → Value) : exec Value :=
    match l !! index with
    | Some a => Ok (f a)
    | None => Err (Undefined "vector index out of range")
    end in
  match v_type v, v_storage v with
  | Integer, Integers l => found l VInteger
  | Real, Reals l => found l VReal
  | Text, Texts l => found l VText
  | Boolean, Booleans l => found l (λ b, VBoolean (negb (b =? 0)%Z))
  | Blob, Blobs l => found l VBlob
  | Null, _ => Ok VNull
  | _, _ => bad_variant
  end.

Definition value_at (v : TypedVector) (index : nat) : exec Value :=
  let* null := is_null v index in
  if (null : bool) || bool_decide (v_type v = Null) then Ok VNull else stored_value v index.

(** ** What can be vectorised *)

Fixpoint supported (expression : Node) (allowAggregate : bool) : bool :=
  match expression with
  | Literal _ _ | ColumnRef _ _ _ _ | Wildcard _ _ _ => true
  | BinaryOp _ l r _ _ => supported l false && supported r false
  | UnaryOp _ e _ _ => supported e false
  | FunctionCall name args _ _ _ =>
      allowAggregate &&
      ((name =? "headcount") || (name =? "stack") || (name =? "mid") || (name =? "goat") ||
       (name =? "L")) &&
      match args with
      | [] => name =? "headcount"
      | argument :: _ =>
          match argument with
          | Wildcard _ _ _ => name =? "headcount"
          | _ => supported argument false
          end
      end
  | WindowFunc _ _ _ _ _ | Select _ => false
  end.

Definition is_call (n : Node) : bool :=
  match n with FunctionCall _ _ _ _ _ => true | _ => false end.

Definition none {A} (o : option A) : bool := match o with None => true | Some _ => false end.
Definition is_nil {A} (l : list A) : bool := match l with [] => true | _ :: _ => false end.

Definition canVectorize (s : Select_) : bool :=
  is_nil (s_joins s) && negb (s_distinct s) && is_nil (s_orderBy s) && none (s_limit s) &&
  none (s_offset s) && none (s_having s) &&
  match s_where s with None => true | Some e => supported e false end &&
  forallb (λ e, supported e false) (s_groupBy s) &&
  forallb (λ e, supported e true && (negb (hasAggregate e) || is_call e)) (s_columns s).

(** ** Evaluation on a batch *)

Record VectorBatch : Type := mkBatch {
  rowCount : nat;
  batch_columns : list BoundColumn;
  batch_values : list TypedVector;
}.

Fixpoint vector_column (table column : string) (candidates : list BoundColumn) (index : nat)
    (result : option nat) : exec (option nat) :=
  match candidates with
  | [] => Ok result
  | candidate :: rest =>
      if negb (bool_decide (bc_name candidate = column)) ||
         negb (qualifier_matches table candidate)
      then vector_column table column rest (S index) result
      else if bool_decide (is_Some result) && bool_decide (table = "") then
        Err (Throw ("Ambiguous column: " +:+ column))
      else vector_column table column rest (S index) (Some index)
  end.

Definition resolveVectorColumn (table column : string) (batch : VectorBatch) : exec nat :=
  let* result := vector_column table column (batch_columns batch) 0 None in
  match result with
  | Some index => Ok index
  | None =>
      Err (Throw ("Unknown column: " +:+
             (if bool_decide (table = "") then "" else table +:+ ".") +:+ column))
  end.

Definition batch_column (table column : string) (batch : VectorBatch) : exec TypedVector :=
  let* index := resolveVectorColumn table column batch in
  match batch_values batch !! index with
  | Some v => Ok v
  | None => Err (Undefined "vector index out of range")
  end.

(** A vector with [f row] for each row of the batch. *)
Definition build (t : ValueType) (rowCount : nat) (f : nat → exec Value) : exec TypedVector :=
  rfold (λ v row, let* x := f row in append v x) (seq 0 rowCount) (newVector t).

Definition comparison_op (op : string) : bool :=
  (op =? "=") || (op =? "!=") || (op =? "<") || (op =? ">") || (op =? "<=") || (op =? ">=").

(** A comparison of a column with a literal: is the column on the left? *)
Definition column_and_literal (l r : Node) : option (bool * (string * string) * Value) :=
  match l, r with
  | ColumnRef table column _ _, Literal v _ => Some (true, (table, column), literal_value v)
  | Literal v _, ColumnRef table column _ _ => Some (false, (table, column), literal_value v)
  | _, _ => None
  end.

(** The number in a row of a vector that is not of texts or blobs. *)
Definition number_at (v : TypedVector) (row : nat) : exec double :=
  let found {A} (l : list A) (f : A → double) : exec double :=
    match l !! row with
    | Some a => Ok (f a)
    | None => Err (Undefined "vector index out of range")
    end in
  match v_type v, v_storage v with
  | Integer, Integers l => found l of_int
  | Real, Reals l => found l (λ d, d)
  | Integer, _ | Real, _ => bad_variant
  | _, Booleans l => found l (λ b, if (b =? 0)%Z then of_int 0 else of_int 1)
  | _, _ => bad_variant
  end.

Definition order_matches (op : string) (order : Z) : bool :=
  if op =? "=" then (order =? 0)%Z
  else if op =? "!=" then negb (order =? 0)%Z
  else if op =? "<" then (order <? 0)%Z
  else if op =? ">" then (0 <? order)%Z
  else if op =? "<=" then (order <=? 0)%Z
  else (0 <=? order)%Z.

Definition vector_numeric (v : TypedVector) (scalar : Value) : bool :=
  negb (bool_decide (v_type v = Text)) && negb (bool_decide (v_type v = Blob)) &&
  negb (bool_decide (v_type v = Null)) && isNumeric scalar.

Definition compare_row (op : string) (columnOnLeft : bool) (values : TypedVector) (scalar : Value)
    (row : nat) : exec Value :=
  let* null := is_null values row in
  if (null : bool) || isNull scalar then Ok VNull
  else
    let* order :=
      if vector_numeric values scalar then
        let* current := number_at values row in
        let* constant := asReal scalar in
        Ok (if dltb current constant then -1 else if dgtb current constant then 1 else 0)%Z
      else let* v := value_at values row in Ok (compare v scalar) in
    let order := if columnOnLeft then order else (- order)%Z in
    Ok (VBoolean (order_matches op order)).

Fixpoint evalVector (expression : Node) (batch : VectorBatch) : exec TypedVector :=
  match expression with
  | ColumnRef table column _ _ => batch_column table column batch
  | Literal v _ =>
      let value := literal_value v in
      build (Value.type value) (rowCount batch) (λ _, Ok value)
  | BinaryOp op l r _ _ =>
      match (if comparison_op op then column_and_literal l r else None) with
      | Some (columnOnLeft, (table, column), scalar) =>
          let* values := batch_column table column batch in
          build Boolean (rowCount batch) (compare_row op columnOnLeft values scalar)
      | None =>
          let* lv := evalVector l batch in
          let* rv := evalVector r batch in
          build Null (rowCount batch) (λ row,
            let* x := value_at lv row in
            let* y := value_at rv row in
            applyBinary op x y)
      end
  | UnaryOp op e _ _ =>
      let* values := evalVector e batch in
      build Null (rowCount batch) (λ row,
        let* x := value_at values row in applyUnary op x)
  | _ => Err (Throw "Unsupported vector expression")
  end.

Definition declaredValueType (column : ColumnMeta) : exec ValueType :=
  let type := upper (cm_type column) in
  if is_integer_type type then Ok Integer
  else if is_real_type type then Ok Real
  else if is_text_type type then Ok Text
  else if type =? "BLOB" then Ok Blob
  else Err (Throw ("Unsupported column type: " +:+ cm_type column)).

(** ** The columns a statement needs *)

(** Insertion into a [std::set]. *)
Fixpoint set_insert (n : nat) (set : list nat) : list nat :=
  match set with
  | [] => [n]
  | m :: rest =>
      if (n <? m)%nat then n :: set
      else if (n =? m)%nat then set
      else m :: set_insert n rest
  end.

Section Vectorized.
Context {D F : Type} `{HeapFiles D F}.
(** The order in which a hash map of groups is walked. *)
Context (iterate : ∀ A : Type, list (tuple * A) → list (tuple * A)).

Section Statement.
Context (s : Select_) (metadata : TableMeta).

Definition requireColumn (table column : string) (required : list nat) : exec (list nat) :=
  if negb (table =? "") && negb (table =? s_fromTable s) && negb (table =? s_fromAlias s) then
    Err (Throw ("Unknown table qualifier: " +:+ table))
  else
    match column_position (named column) (t_columns metadata) with
    | Some index => Ok (set_insert index required)
    | None => Err (Throw ("Unknown column: " +:+ column))
    end.

(** [headcount] without an argument or of a wildcard. *)
Definition counts_rows (name : string) (args : list Node) : bool :=
  (name =? "headcount") && match args with [] => true | a :: _ => is_wildcard a end.

Fixpoint collectColumns (expression : Node) (required : list nat) : exec (list nat) :=
  match expression with
  | ColumnRef table column _ _ => requireColumn table column required
  | Wildcard _ _ _ =>
      Ok (fold_left (λ set index, set_insert index set) (seq 0 (length (t_columns metadata))) required)
  | BinaryOp _ l r _ _ =>
      let* required := collectColumns l required in
      collectColumns r required
  | UnaryOp _ e _ _ => collectColumns e required
  | FunctionCall name args _ _ _ =>
      if counts_rows name args then Ok required
      else
        (fix go (args : list Node) (required : list nat) : exec (list nat) :=
           match args with
           | [] => Ok required
           | argument :: args =>
               let* required := collectColumns argument required in go args required
           end) args required
  | _ => Ok required
  end.

Definition requiredColumns : exec (list nat) :=
  let* required := match s_where s with
                   | Some e => collectColumns e []
                   | None => Ok []
                   end in
  let* required := rfold (λ required e, collectColumns e required) (s_groupBy s) required in
  rfold (λ required e, collectColumns e required) (s_columns s) required.

(** ** Batches *)

Definition required_meta (required : list nat) : list ColumnMeta :=
  omap (λ c, t_columns metadata !! c) required.

Fixpoint append_row (vectors : list TypedVector) (row : list Value) : exec (list TypedVector) :=
  match vectors, row with
  | v :: vectors, x :: row =>
      let* v := append v x in
      let* vectors := append_row vectors row in
      Ok (v :: vectors)
  | _, _ => Ok []
  end.

Definition load_batch (required : list nat) (stored : list StoredRow) : exec VectorBatch :=
  let columns := required_meta required in
  let* types := rmap declaredValueType columns in
  let* vectors := rfold (λ vectors row,
    if negb (length (storedValues row) =? length required)%nat then
      Err (Throw ("Projected tuple width mismatch in " +:+ s_fromTable s))
    else append_row vectors (storedValues row)) stored (newVector <$> types) in
  Ok (mkBatch (length stored)
        ((λ c, mkBound (s_fromTable s) (s_fromAlias s) (cm_name c)) <$> columns) vectors).

Definition predicate_vector (batch : VectorBatch) : exec TypedVector :=
  match s_where s with
  | Some e => evalVector e batch
  | None => build Boolean (rowCount batch) (λ _, Ok (VBoolean true))
  end.

(** The vector of a projected expression or of the argument of its aggregate. *)
Definition projected_vector (batch : VectorBatch) (expression : Node) : exec (option TypedVector) :=
  match expression with
  | FunctionCall _ args _ _ _ =>
      match args with
      | argument :: _ =>
          if is_wildcard argument then Ok None
          else let* v := evalVector argument batch in Ok (Some v)
      | [] => Ok None
      end
  | Wildcard _ _ _ => Ok None
  | _ => let* v := evalVector expression batch in Ok (Some v)
  end.

(** [projected[index]->...] *)
Definition pointed {A} (p : option A) : exec A :=
  match p with Some a => Ok a | None => Err (Undefined "null pointer") end.

(** The rows of the batch for which the predicate holds. *)
Definition passing (predicate : TypedVector) (rowCount : nat) : exec (list nat) :=
  let* flags := rmap (λ row, let* v := value_at predicate row in Ok (row, asBoolean v))
                  (seq 0 rowCount) in
  Ok (fst <$> List.filter snd flags).

Fixpoint wildcard_cells (table : string) (columns : list BoundColumn) (vectors : list TypedVector)
    (row : nat) : exec (list Value) :=
  match columns, vectors with
  | column :: columns, v :: vectors =>
      if wildcard_matches table column then
        let* x := value_at v row in
        let* rest := wildcard_cells table columns vectors row in
        Ok (x :: rest)
      else wildcard_cells table columns vectors row
  | _, _ => Ok []
  end.

Definition output_cells (batch : VectorBatch) (row : nat) (column : Node * option TypedVector)
    : exec (list Value) :=
  match column.1 with
  | Wildcard table _ _ => wildcard_cells table (batch_columns batch) (batch_values batch) row
  | _ =>
      let* v := pointed column.2 in
      let* x := value_at v row in Ok [x]
  end.

Definition output_row (batch : VectorBatch) (projected : list (option TypedVector)) (row : nat)
    : exec tuple :=
  let* parts := rmap (output_cells batch row) (zip (s_columns s) projected) in
  Ok (concat parts).

(** The rows one batch adds to the result of a statement without groups.  Every
    vector is computed, also those of groups, before the first row is tested. *)
Definition plain_batch (required : list nat) (stored : list StoredRow) : exec (list tuple) :=
  let* batch := load_batch required stored in
  let* predicate := predicate_vector batch in
  let* projected := rmap (projected_vector batch) (s_columns s) in
  let* rows := passing predicate (rowCount batch) in
  rmap (output_row batch projected) rows.

(** ** Groups *)

Record AggregateState : Type := mkAggregate {
  ag_count : Z;
  ag_sum : double;
  ag_allIntegers : bool;
  ag_extremum : option Value;
  ag_distinct : list Value;
}.

(** The representative and the aggregate of one projected column. *)
Abbreviation cell := (Value * AggregateState)%type.

Definition new_group : list cell :=
  map (λ _, (VNull, mkAggregate 0 dzero true None [])) (s_columns s).

(** A value that is not null enters an aggregate. *)
Definition enter_value (name : string) (state : AggregateState) (value : Value)
    : exec AggregateState :=
  let '(mkAggregate count sum allIntegers ext seen) := state in
  let count := (count + 1)%Z in
  if name =? "headcount" then Ok (mkAggregate count sum allIntegers ext seen)
  else if (name =? "stack") || (name =? "mid") then
    if negb (isNumeric value) then Err (Throw "Numeric aggregate on non-number")
    else
      let* d := asReal value in
      Ok (mkAggregate count (dadd sum d)
            (allIntegers && bool_decide (Value.type value = Integer)) ext seen)
  else
    match ext with
    | None => Ok (mkAggregate count sum allIntegers (Some value) seen)
    | Some best =>
        let comparison := compare value best in
        let better := ((name =? "goat") && (0 <? comparison)%Z) ||
                      ((name =? "L") && (comparison <? 0)%Z) in
        Ok (mkAggregate count sum allIntegers (Some (if better then value else best)) seen)
    end.

Definition is_number_type (t : ValueType) : bool :=
  bool_decide (t = Integer) || bool_decide (t = Real) || bool_decide (t = Boolean).

(** A row of the argument's vector enters an aggregate. *)
Definition enter_row (name : string) (distinct : bool) (vector : TypedVector) (row : nat)
    (state : AggregateState) : exec AggregateState :=
  let* null := is_null vector row in
  if (null : bool) then Ok state
  else
    let '(mkAggregate count sum allIntegers ext seen) := state in
    if negb distinct && (name =? "headcount") then
      Ok (mkAggregate (count + 1)%Z sum allIntegers ext seen)
    else if negb distinct && ((name =? "stack") || (name =? "mid")) &&
            is_number_type (v_type vector) then
      let* d := number_at vector row in
      Ok (mkAggregate (count + 1)%Z (dadd sum d)
            (allIntegers && bool_decide (v_type vector = Integer)) ext seen)
    else
      let* value := value_at vector row in
      if distinct then
        if existsb (λ x, value_eqb x value) seen then Ok state
        else enter_value name (mkAggregate count sum allIntegers ext (value :: seen)) value
      else enter_value name state value.

Definition enter_cell (row : nat) (column : Node * option TypedVector) (c : cell) : exec cell :=
  let '(representative, state) := c in
  match column.1 with
  | FunctionCall name args distinct _ _ =>
      if counts_rows name args then
        Ok (representative,
            mkAggregate (ag_count state + 1)%Z (ag_sum state) (ag_allIntegers state)
              (ag_extremum state) (ag_distinct state))
      else
        let* vector := pointed column.2 in
        let* state := enter_row name distinct vector row state in
        Ok (representative, state)
  | _ =>
      if isNull representative then
        let* vector := pointed column.2 in
        let* v := value_at vector row in
        Ok (v, state)
      else Ok c
  end.

Fixpoint enter_cells (row : nat) (columns : list (Node * option TypedVector)) (cells : list cell)
    : exec (list cell) :=
  match columns, cells with
  | column :: columns, c :: cells =>
      let* c := enter_cell row column c in
      let* cells := enter_cells row columns cells in
      Ok (c :: cells)
  | _, _ => Ok []
  end.

(** What one batch does to the groups. *)
Definition group_batch (required : list nat) (groups : list (tuple * list cell))
    (stored : list StoredRow) : exec (list (tuple * list cell)) :=
  let* batch := load_batch required stored in
  let* predicate := predicate_vector batch in
  let* keys := rmap (λ e, evalVector e batch) (s_groupBy s) in
  let* projected := rmap (projected_vector batch) (s_columns s) in
  let* rows := passing predicate (rowCount batch) in
  rfold (λ groups row,
    let* key := rmap (λ v, value_at v row) keys in
    group_update key new_group (enter_cells row (zip (s_columns s) projected)) groups) rows groups.

Definition cell_result (column : Node) (c : cell) : exec Value :=
  let '(representative, state) := c in
  match column with
  | FunctionCall name _ _ _ _ =>
      if name =? "headcount" then Ok (VInteger (ag_count state))
      else if (ag_count state =? 0)%Z then Ok VNull
      else if name =? "mid" then Ok (VReal (ddiv (ag_sum state) (of_int (ag_count state))))
      else if name =? "stack" then
        if ag_allIntegers state then
          match to_int (ag_sum state) with
          | Some z => Ok (VInteger z)
          | None => Err (Undefined "double to int64_t conversion out of range")
          end
        else Ok (VReal (ag_sum state))
      else Ok (default VNull (ag_extremum state))
  | _ => Ok representative
  end.

Fixpoint cell_results (columns : list Node) (cells : list cell) : exec tuple :=
  match columns, cells with
  | column :: columns, c :: cells =>
      let* v := cell_result column c in
      let* vs := cell_results columns cells in
      Ok (v :: vs)
  | _, _ => Ok []
  end.

(** The rows of the result, from the batches of the scan. *)
Definition vector_rows (required : list nat) (parts : list (list StoredRow)) : exec (list tuple) :=
  if is_grouped s then
    let start := match s_groupBy s with [] => [([], new_group)] | _ :: _ => [] end in
    let* groups := rfold (group_batch required) parts start in
    rmap (λ g, cell_results (s_columns s) g.2) (iterate _ groups)
  else
    let* outputs := rmap (plain_batch required) parts in
    Ok (concat outputs).
End Statement.

(** ** [executeVectorizedSelect] *)

Definition executeVectorizedSelect (s : Select_)
    : action (engine (D:=D)) (option (list string * list tuple)) :=
  if negb (canVectorize s) then mret None
  else
    metadata ← known_table (s_fromTable s);
    c ← gets catalog_;
    let names := outputNames c s None in
    required ← lift (requiredColumns s metadata);
    file ← lift (heap (s_fromTable s));
    r ← on_heap file (heap_scan_projected required);
    rows ← lift (vector_rows s metadata required r.1);
    mret (Some (names, rows)).
End Vectorized.
