(* ===== verification/VectorSpec.v ===== *)
(** The vectorised SELECT answers as the row-at-a-time one: a typed vector is
    the list of the values appended to it; an expression of typed columns has one
    type, so that its vector is the list of its values in the rows; and what
    [executeVectorizedSelect] answers, [executeSelect] answers on the scanned
    rows. *)

From S2P Require Import Prelude.
From S2P Require Import Double.
From S2P Require Import Value.
From S2P Require Import Tuple.
From S2P Require Import Ast.
From S2P Require Import Catalog.
From S2P Require Import Eval.
From S2P Require Import Select.
From S2P Require Import Streaming.
From S2P Require Import Heap.
From S2P Require Import HeapSpec.
From S2P Require Import Store.
From S2P Require Import Engine.
From S2P Require Import Constraints.
From S2P Require Import Integrity.
From S2P Require Import Statements.
From S2P Require Import Vector.

#[local] Set Warnings "-register-all".

(** * A vector is a list of values *)

(** ** The bitmap *)

Definition bit (nulls : list Z) (i : nat) : bool :=
  match nulls !! (i / 64)%nat with
  | Some w => Z.testbit w (Z.of_nat (i mod 64))
  | None => false
  end.

(** The bitmap of these values: the rows past the last are not marked. *)
Definition null_at (l : list Value) (i : nat) : bool :=
  match l !! i with Some x => isNull x | None => false end.

Definition nulls_ok (nulls : list Z) (l : list Value) : Prop :=
  length nulls = ((length l + 63) / 64)%nat ∧ ∀ i, bit nulls i = null_at l i.

Lemma bit_push nulls i : bit (nulls ++ [0%Z]) i = bit nulls i.
Proof.
  unfold bit. destruct (nulls !! (i / 64)%nat) as [w|] eqn:Hw.
  - by rewrite (lookup_app_l_Some _ _ _ _ Hw).
  - rewrite lookup_app_r by (by apply lookup_ge_None).
    destruct (i / 64 - length nulls)%nat as [|k]; cbn; [apply Z.bits_0|done].
Qed.

Lemma null_at_snoc l x i :
  null_at (l ++ [x]) i = if decide (i = length l) then isNull x else null_at l i.
Proof.
  unfold null_at. case_decide as Hi.
  - by rewrite Hi, list_lookup_middle.
  - destruct (decide (i < length l)%nat).
    + by rewrite lookup_app_l.
    + rewrite lookup_ge_None_2 by (rewrite length_app; cbn; lia).
      by rewrite lookup_ge_None_2 by lia.
Qed.

Lemma bit_mark nulls n w i :
  nulls !! (n / 64)%nat = Some w →
  bit (<[(n / 64)%nat := Z.lor w (null_bit n)]> nulls) i = bit nulls i || bool_decide (i = n).
Proof.
  intros Hw. unfold bit. destruct (decide (i / 64 = n / 64)%nat) as [He|Hne].
  - rewrite He, list_lookup_insert_eq by (by eapply lookup_lt_Some). rewrite Hw, Z.lor_spec.
    unfold null_bit. rewrite testbit_single. f_equal. apply bool_decide_ext. split; [|by intros ->].
    intros Hm. rewrite (Nat.div_mod_eq i 64), (Nat.div_mod_eq n 64). lia.
  - rewrite list_lookup_insert_ne by done. rewrite bool_decide_eq_false_2 by (by intros ->).
    by rewrite orb_false_r.
Qed.

Lemma words_of n :
  ((n mod 64 = 0 ∧ (n + 63) / 64 = n / 64) ∨ (n + 63) / 64 = S (n / 64))%nat.
Proof.
  pose proof (Nat.div_mod_eq n 64). pose proof (Nat.mod_upper_bound n 64).
  destruct (decide (n mod 64 = 0)%nat) as [Hz|Hz].
  - left. split; [done|]. symmetry. apply Nat.div_unique with 63%nat; lia.
  - right. symmetry. apply Nat.div_unique with (n mod 64 - 1)%nat; lia.
Qed.

Lemma words_of_next n : ((n + 1 + 63) / 64 = S (n / 64))%nat.
Proof.
  pose proof (Nat.div_mod_eq n 64). pose proof (Nat.mod_upper_bound n 64).
  symmetry. apply Nat.div_unique with (n mod 64)%nat; lia.
Qed.

Lemma grow_nulls_ok nulls l x :
  nulls_ok nulls l →
  ∃ nulls', grow_nulls nulls (length l) (isNull x) = Ok nulls' ∧ nulls_ok nulls' (l ++ [x]).
Proof.
  intros [Hlen Hbits]. unfold grow_nulls.
  set (nulls1 := if (length nulls <=? length l / 64)%nat then (nulls ++ [0%Z])%list else nulls).
  assert (length nulls1 = S (length l / 64) ∧ ∀ i, bit nulls1 i = null_at l i) as [Hlen1 Hbits1].
  { subst nulls1. destruct (Nat.leb_spec (length nulls) (length l / 64)).
    - split; [|intros i; by rewrite bit_push]. rewrite length_app. cbn [length].
      destruct (words_of (length l)) as [[_ ?]|?]; lia.
    - split; [|done]. destruct (words_of (length l)) as [[_ ?]|?]; lia. }
  assert (Hsize : ((length (l ++ [x]) + 63) / 64 = S (length l / 64))%nat)
    by (rewrite length_app; apply words_of_next).
  destruct (isNull x) eqn:Hx.
  - destruct (lookup_lt_is_Some_2 nulls1 (length l / 64)) as [w Hw]; [lia|]. rewrite Hw.
    eexists. split; [done|]. split; [by rewrite length_insert, Hsize|]. intros i.
    rewrite bit_mark, Hbits1, null_at_snoc, Hx by done.
    case_decide as Hi; [by rewrite bool_decide_eq_true_2, orb_true_r|].
    by rewrite bool_decide_eq_false_2, orb_false_r.
  - exists nulls1. split; [done|]. split; [by rewrite Hsize|]. intros i.
    rewrite Hbits1, null_at_snoc, Hx. case_decide as Hi; [|done]. subst i. unfold null_at.
    by rewrite lookup_ge_None_2.
Qed.

(** ** The storage *)

Definition int_of (x : Value) : Z := match x with VInteger z => z | _ => 0%Z end.
Definition real_of (x : Value) : double := match x with VReal d => d | _ => dzero end.
Definition text_of (x : Value) : string := match x with VText s => s | _ => ""%string end.
Definition flag_of (x : Value) : Z := match x with VBoolean true => 1%Z | _ => 0%Z end.
Definition blob_of (x : Value) : bytes := match x with VBlob b => b | _ => [] end.

Definition storage_of (t : ValueType) (l : list Value) : Storage :=
  match t with
  | Null => NoStorage
  | Integer => Integers (int_of <$> l)
  | Real => Reals (real_of <$> l)
  | Text => Texts (text_of <$> l)
  | Boolean => Booleans (flag_of <$> l)
  | Blob => Blobs (blob_of <$> l)
  end.

(** A value of a vector of type [t]. *)
Definition fits (t : ValueType) (x : Value) : Prop := isNull x = true ∨ Value.type x = t.

Record represents (v : TypedVector) (l : list Value) : Prop := {
  re_size : v_size v = length l;
  re_nulls : nulls_ok (v_nulls v) l;
  re_storage : v_storage v = storage_of (v_type v) l;
  re_fits : Forall (fits (v_type v)) l;
}.

Lemma isNull_true x : isNull x = true → x = VNull.
Proof. by destruct x. Qed.

Lemma newVector_ok t : represents (newVector t) [].
Proof. split; [done| |by destruct t|constructor]. by split. Qed.

Lemma fits_null t : fits t VNull.
Proof. by left. Qed.

Lemma fits_Null x : fits Null x → isNull x = true.
Proof. intros [?|H]; [done|]. by destruct x. Qed.

(** The storage of a vector without a value. *)
Lemma empty_storage_ok t l :
  Forall (fits Null) l → empty_storage t (length l) = storage_of t l.
Proof.
  intros Hl. assert (Hr : ∀ A (f : Value → A), replicate (length l) (f VNull) = f <$> l).
  { intros A f. induction Hl as [|x l Hx _ IH]; [done|]. apply fits_Null, isNull_true in Hx as ->.
    cbn. by rewrite IH. }
  destruct t; cbn; [done|f_equal; apply (Hr _ int_of)|f_equal; apply (Hr _ real_of)|
    f_equal; apply (Hr _ text_of)|f_equal; apply (Hr _ flag_of)|f_equal; apply (Hr _ blob_of)].
Qed.

Lemma adapt_ok v l x :
  represents v l → v_type v = Null ∨ fits (v_type v) x →
  ∃ t, adapt v x = Ok (t, storage_of t l) ∧ t = (if isNull x then v_type v else Value.type x) ∧
    Forall (fits t) (l ++ [x]).
Proof.
  intros [Hsize _ Hst Hfits] Hx. unfold adapt. destruct (isNull x) eqn:Hnull.
  - exists (v_type v). rewrite Hst. split_and!; [done..|].
    apply Forall_app_2; [done|]. apply Forall_singleton. by left.
  - exists (Value.type x). case_decide as Ht.
    + rewrite Hsize, empty_storage_ok by (by rewrite <- Ht). split_and!; [done..|].
      apply Forall_app_2; [|apply Forall_singleton; by right].
      eapply Forall_impl; [exact Hfits|]. rewrite Ht. intros y Hy. left. by apply fits_Null.
    + destruct Hx as [|[|Hx]]; [done|congruence|]. rewrite decide_False by (intros [? ?]; congruence).
      rewrite Hst, Hx. split_and!; [done..|]. apply Forall_app_2; [done|]. apply Forall_singleton. by right.
Qed.

Lemma push_ok t l x : fits t x → push t (storage_of t l) x = Ok (storage_of t (l ++ [x])).
Proof.
  intros Hx. unfold push. destruct (isNull x) eqn:Hnull.
  - apply isNull_true in Hnull as ->. destruct t; cbn; by rewrite ?fmap_app.
  - destruct Hx as [|<-]; [congruence|]. by destruct x; cbn; rewrite ?fmap_app.
Qed.

(** Appending a value that fits. *)
Lemma append_ok v l x :
  represents v l → v_type v = Null ∨ fits (v_type v) x →
  ∃ v', append v x = Ok v' ∧ represents v' (l ++ [x]) ∧
    v_type v' = if isNull x then v_type v else Value.type x.
Proof.
  intros Hv Hx. unfold append. pose proof Hv as [Hsize Hnulls Hst Hfits].
  destruct (grow_nulls_ok _ _ x Hnulls) as (nulls & Hgrow & Hnulls').
  rewrite Hsize, Hgrow. cbn [rbind].
  destruct (adapt_ok v l x Hv Hx) as (t & Hadapt & Ht & Hall). rewrite Hadapt. cbn [rbind].
  assert (fits t x) as Htx by (apply Forall_app in Hall as [_ Hall]; by inversion Hall).
  rewrite push_ok by done. cbn [rbind]. eexists. split; [done|]. split; [|done].
  split; cbn; [by rewrite length_app, Nat.add_comm|done..].
Qed.

Lemma append_same v l x :
  represents v l → fits (v_type v) x →
  ∃ v', append v x = Ok v' ∧ represents v' (l ++ [x]) ∧ v_type v' = v_type v.
Proof.
  intros Hv Hx. destruct (append_ok v l x Hv (or_intror Hx)) as (v' & Happ & Hv' & Ht).
  exists v'. split_and!; [done..|]. rewrite Ht. destruct (isNull x) eqn:Hn; [done|].
  destruct Hx; [congruence|done].
Qed.

(** ** Reading a vector *)

Lemma is_null_ok v l i x : represents v l → l !! i = Some x → is_null v i = Ok (isNull x).
Proof.
  intros [Hsize [Hlen Hbits] _ _] Hi. pose proof (lookup_lt_Some _ _ _ Hi) as Hlt.
  unfold is_null. rewrite Hsize, (proj2 (Nat.leb_gt _ _)) by lia.
  specialize (Hbits i). unfold bit, null_at in Hbits. rewrite Hi in Hbits.
  destruct (lookup_lt_is_Some_2 (v_nulls v) (i / 64)) as [w Hw].
  { rewrite Hlen. pose proof (Nat.div_mod_eq i 64). apply Nat.Div0.div_lt_upper_bound.
    pose proof (Nat.div_mod_eq (length l + 63) 64). pose proof (Nat.mod_upper_bound (length l + 63) 64). lia. }
  rewrite Hw in Hbits |- *. unfold null_bit. by rewrite bit_set, negb_involutive, Hbits by lia.
Qed.

Lemma value_at_ok v l i x : represents v l → l !! i = Some x → value_at v i = Ok x.
Proof.
  intros Hv Hi. unfold value_at. rewrite (is_null_ok v l i x Hv Hi). cbn [rbind].
  destruct (isNull x) eqn:Hnull; cbn [orb]; [by apply isNull_true in Hnull as ->|].
  pose proof Hv as [_ _ Hst Hfits]. destruct (Forall_lookup_1 _ _ _ _ Hfits Hi) as [|Ht]; [congruence|].
  unfold stored_value. rewrite Hst, <- Ht.
  destruct x; try done; cbn; rewrite list_lookup_fmap, Hi; cbn; try done. by destruct value.
Qed.

(** The number the loops read from the storage themselves. *)
Lemma number_at_ok v l i x :
  represents v l → l !! i = Some x → isNull x = false → is_number_type (v_type v) = true →
  number_at v i = asReal x.
Proof.
  intros [_ _ Hst Hfits] Hi Hnull Hnum. destruct (Forall_lookup_1 _ _ _ _ Hfits Hi) as [|Ht]; [congruence|].
  unfold number_at. rewrite Hst, <- Ht in *.
  destruct x; try done; cbn; rewrite list_lookup_fmap, Hi; cbn; try done. by destruct value.
Qed.

(** ** Building a vector *)

Lemma build_from (f : nat → exec Value) t u rows v0 l0 v :
  represents v0 l0 → v_type v0 = Null ∨ v_type v0 = u →
  (∀ row x, row ∈ rows → f row = Ok x → fits u x) →
  rfold (λ v row, let* x := f row in append v x) rows v0 = Ok v →
  ∃ l, represents v (l0 ++ l) ∧ Forall2 (λ row x, f row = Ok x) rows l ∧
    (v_type v0 = t → t = u → v_type v = t).
Proof.
  revert v0 l0. induction rows as [|row rows IH]; intros v0 l0 Hv0 Ht Hf Hfold.
  { injection Hfold as <-. exists []. rewrite app_nil_r. split; [done|]. by split. }
  cbn [rfold] in Hfold. destruct (f row) as [x|] eqn:Hx; [|done]. cbn [rbind] in Hfold.
  assert (fits u x) as Hux by (eapply Hf; [apply list_elem_of_here|done]).
  destruct (append_ok v0 l0 x Hv0) as (v1 & Happ & Hv1 & Ht1).
  { destruct Ht as [|Ht]; [by left|right; by rewrite Ht]. }
  rewrite Happ in Hfold. cbn [rbind] in Hfold.
  destruct (IH v1 (l0 ++ [x])) as (l & Hv & Hl & Htype); [done| | |exact Hfold|].
  - rewrite Ht1. destruct (isNull x) eqn:Hn; [done|]. destruct Hux; [congruence|by right].
  - intros r y Hr. apply Hf. by apply list_elem_of_further.
  - exists (x :: l). rewrite <- app_assoc in Hv. split; [done|]. split; [by constructor|].
    intros H0 Hu. apply Htype; [|done]. rewrite Ht1. destruct (isNull x) eqn:Hn; [done|].
    destruct Hux; congruence.
Qed.

(** The values of the rows, if they have one type. *)
Lemma build_ok f t u n v :
  t = Null ∨ t = u → (∀ row x, (row < n)%nat → f row = Ok x → fits u x) →
  build t n f = Ok v →
  ∃ l, represents v l ∧ length l = n ∧ ∀ i x, l !! i = Some x → f i = Ok x.
Proof.
  intros Ht Hf Hbuild. unfold build in Hbuild.
  destruct (build_from f t u (seq 0 n) (newVector t) [] v) as (l & Hv & Hl & _);
    [apply newVector_ok|done|intros row x Hr; apply Hf; apply elem_of_seq in Hr; lia|done|].
  exists l. split; [done|]. split; [by rewrite <- (Forall2_length _ _ _ Hl), length_seq|].
  intros i x Hi. destruct (Forall2_lookup_r _ _ _ _ _ Hl Hi) as (row & Hrow & Hx).
  apply lookup_seq in Hrow as [-> _]. done.
Qed.

(** * The type of an expression *)

(** Not a NaN. *)
Definition ordered (v : Value) : Prop :=
  match v with
  | VInteger z => i64 z
  | VReal d => is_nan d = false
  | _ => True
  end.

#[local] Open Scope string_scope.

Definition is_logical (op : string) : bool := (op =? "AND") || (op =? "OR").
Definition is_concat (op : string) : bool := op =? "||".

(** The type of the values a binary operator makes. *)
Definition binary_type (op : string) (t u : ValueType) : ValueType :=
  if is_logical op || comparison_op op then Boolean
  else if is_concat op then Text
  else if decide (t = Integer ∧ u = Integer) then Integer
  else Real.

Definition unary_type (op : string) (t : ValueType) : ValueType :=
  if op =? "NOT" then Boolean else if decide (t = Integer) then Integer else Real.

#[local] Close Scope string_scope.

Lemma arithmetic_type f g x y v :
  isNull x = false → isNull y = false → arithmetic f g x y = Ok v →
  Value.type v = if decide (Value.type x = Integer ∧ Value.type y = Integer) then Integer else Real.
Proof.
  intros _ _. unfold arithmetic, int_value.
  destruct x, y; cbn; intros Hv; repeat case_decide; try done; try (by injection Hv as <-);
    destruct_and?; tauto || congruence.
Qed.

Ltac operator s op :=
  destruct (op =? s)%string; cbn [orb]; [try (by intros [= <-]; right)|].

Lemma divide_type x y v :
  isNull x = false → isNull y = false → divide x y = Ok v →
  fits (if decide (Value.type x = Integer ∧ Value.type y = Integer) then Integer else Real) v.
Proof.
  intros Hx Hy. rewrite divide_guarded. destruct (asReal y); [|done]. cbn [rbind].
  case_match; [intros [= <-]; by left|]. intros Hv. right. by eapply arithmetic_type.
Qed.

Lemma applyBinary_fits op x y v t u :
  fits t x → fits u y → applyBinary op x y = Ok v → fits (binary_type op t u) v.
Proof.
  intros Hx Hy. unfold applyBinary, binary_type, is_logical, comparison_op, is_concat.
  operator "AND"%string op. operator "OR"%string op.
  destruct (isNull x) eqn:Hnx; cbn [orb]; [intros [= <-]; by left|].
  destruct (isNull y) eqn:Hny; cbn [orb]; [intros [= <-]; by left|].
  destruct Hx as [|<-]; [congruence|]. destruct Hy as [|<-]; [congruence|].
  operator "="%string op. operator "!="%string op. operator "<"%string op. operator ">"%string op.
  operator "<="%string op. operator ">="%string op. operator "||"%string op.
  case_match; [done|].
  repeat (case_match; [intros Hv; first [right; by eapply arithmetic_type|by apply divide_type]|]).
  done.
Qed.

Lemma applyUnary_fits op x v t : fits t x → applyUnary op x = Ok v → fits (unary_type op t) v.
Proof.
  intros Hx. unfold applyUnary, unary_type. operator "NOT"%string op.
  destruct (isNull x) eqn:Hnx; [intros [= <-]; by left|].
  destruct Hx as [|<-]; [congruence|]. case_match; [|done].
  destruct x; cbn; try done; unfold int_value; repeat case_decide; try done;
    intros Hv; simplify_eq; by right.
Qed.

(** ** Comparing with a literal *)

Lemma family_of x y :
  ordered x → ordered y →
  (∃ f, well_ordered f x ∧ well_ordered f y) ∨
  (Value.type x = Text ∧ Value.type y = Boolean) ∨ (Value.type x = Boolean ∧ Value.type y = Text).
Proof.
  destruct x, y; cbn; intros Hx Hy; eauto;
    left; first [by exists WithText|by exists WithBoolean].
Qed.

Lemma compare_zero x y : ordered x → ordered y → (compare x y =? 0)%Z = value_eqb x y.
Proof.
  intros Hx Hy. apply eq_true_iff_eq. rewrite Z.eqb_eq.
  destruct (family_of x y Hx Hy) as [(f & Hfx & Hfy)|Htypes].
  - by rewrite (value_eqb_compare f).
  - destruct x, y; try done; cbn in Htypes; by destruct Htypes as [[]|[]].
Qed.

Lemma compare_flip x y : ordered x → ordered y → compare y x = (- compare x y)%Z.
Proof.
  intros Hx Hy. destruct (family_of x y Hx Hy) as [(f & Hfx & Hfy)|Htypes].
  - pose proof (cmp_antisym (P:=well_ordered f) x y Hfx Hfy) as H1.
    by rewrite !(compare_key f), !sgn_sign_of in * by done.
  - destruct x, y; try done; cbn in Htypes; by destruct Htypes as [[]|[]].
Qed.

(** A comparison as the order of its operands tells it. *)
Lemma applyBinary_comparison op x y :
  comparison_op op = true → isNull x = false → isNull y = false → ordered x → ordered y →
  applyBinary op x y = Ok (VBoolean (order_matches op (compare x y))).
Proof.
  intros Hop Hx Hy Hox Hoy. unfold applyBinary, order_matches. rewrite Hx, Hy, compare_zero by done.
  cbn [orb]. unfold comparison_op in Hop.
  destruct (String.eqb_spec op "AND") as [->|_]; [done|].
  destruct (String.eqb_spec op "OR") as [->|_]; [done|].
  repeat (case_match; [done|]). done.
Qed.

Lemma applyBinary_null op x y :
  comparison_op op = true → isNull x = true ∨ isNull y = true → applyBinary op x y = Ok VNull.
Proof.
  intros Hop Hnull. unfold applyBinary.
  destruct (String.eqb_spec op "AND") as [->|_]; [done|].
  destruct (String.eqb_spec op "OR") as [->|_]; [done|].
  by destruct Hnull as [->| ->]; rewrite ?orb_true_r.
Qed.

Lemma compare_as_numbers x y a b :
  asReal x = Ok a → asReal y = Ok b →
  compare x y = (if dltb a b then -1 else if dgtb a b then 1 else 0)%Z.
Proof. intros Ha Hb. unfold compare. rewrite Ha, Hb. destruct x, y; done. Qed.

Lemma vector_numeric_ok v l i x c :
  represents v l → l !! i = Some x → isNull x = false → vector_numeric v c = true →
  number_at v i = asReal x ∧ is_ok (asReal x) = true ∧ is_ok (asReal c) = true.
Proof.
  intros Hv Hi Hnull Hnum. unfold vector_numeric in Hnum.
  rewrite !andb_true_iff, !negb_true_iff, !bool_decide_eq_false in Hnum.
  destruct Hnum as [[[Ht Hb] Hn] Hc].
  destruct (Forall_lookup_1 _ _ _ _ (re_fits _ _ Hv) Hi) as [|Htype]; [congruence|].
  rewrite (number_at_ok v l i x Hv Hi Hnull); [|rewrite <- Htype in *; by destruct x].
  rewrite <- Htype in *. split; [done|]. split; [by destruct x|by destruct c].
Qed.

(** A row of the comparison of a column with a literal. *)
Lemma compare_row_ok op onLeft v l i x c :
  comparison_op op = true → represents v l → l !! i = Some x → ordered x → ordered c →
  compare_row op onLeft v c i = applyBinary op (if onLeft then x else c) (if onLeft then c else x).
Proof.
  intros Hop Hv Hi Hx Hc. unfold compare_row. rewrite (is_null_ok v l i x Hv Hi). cbn [rbind].
  destruct (isNull x || isNull c) eqn:Hnull.
  { rewrite applyBinary_null; [done..|]. destruct onLeft; apply orb_true_iff in Hnull; tauto. }
  apply orb_false_iff in Hnull as [Hnx Hnc].
  assert ((if vector_numeric v c then
        let* current := number_at v i in
        let* constant := asReal c in
        Ok (if dltb current constant then -1 else if dgtb current constant then 1 else 0)%Z
      else let* v := value_at v i in Ok (compare v c)) = Ok (compare x c)) as ->.
  { destruct (vector_numeric v c) eqn:Hnum.
    - destruct (vector_numeric_ok v l i x c Hv Hi Hnx Hnum) as (-> & Hax & Hac).
      destruct (asReal x) as [a|] eqn:Ha; [|done]. destruct (asReal c) as [b|] eqn:Hb; [|done].
      cbn [rbind]. by rewrite (compare_as_numbers x c a b).
    - by rewrite (value_at_ok v l i x Hv Hi). }
  cbn [rbind]. destruct onLeft; rewrite applyBinary_comparison by done; [done|].
  by rewrite (compare_flip x c).
Qed.

(** * Sets of columns *)

Abbreviation increasing := (StronglySorted lt).

Lemma set_insert_elem n set x : x ∈ set_insert n set ↔ x = n ∨ x ∈ set.
Proof.
  induction set as [|m rest IH]; cbn [set_insert]; [rewrite list_elem_of_singleton, elem_of_nil; tauto|].
  destruct (Nat.ltb_spec n m); [apply elem_of_cons|].
  destruct (Nat.eqb_spec n m) as [->|]; rewrite !elem_of_cons, ?IH; tauto.
Qed.

Lemma set_insert_increasing n set : increasing set → increasing (set_insert n set).
Proof.
  induction 1 as [|m rest Hrest IH Hm]; cbn [set_insert]; [repeat constructor|].
  destruct (Nat.ltb_spec n m).
  - constructor; [by constructor|]. constructor; [done|]. eapply Forall_impl; [exact Hm|]. lia.
  - destruct (Nat.eqb_spec n m); [by constructor|]. constructor; [done|].
    apply Forall_forall. intros x Hx. apply set_insert_elem in Hx as [->|Hx]; [lia|].
    by apply (proj1 (Forall_forall _ _) Hm).
Qed.

Lemma increasing_sorted l : increasing l → is_sorted l = true ∧ has_adjacent_equal l = false.
Proof.
  induction 1 as [|x l _ [IH1 IH2] Hx]; [done|]. destruct Hx as [|y l Hxy _]; [done|].
  cbn [is_sorted has_adjacent_equal].
  by rewrite (proj2 (Nat.leb_le x y)), (proj2 (Nat.eqb_neq x y)) by lia.
Qed.

Lemma increasing_seq k n : increasing (seq k n).
Proof.
  revert k. induction n as [|n IH]; intros k; cbn; constructor; [done|].
  apply Forall_forall. intros x Hx. apply elem_of_seq in Hx. lia.
Qed.

(** All the columns there are. *)
Lemma increasing_all l n :
  increasing l → (∀ x, x ∈ l → x < n)%nat → (∀ x, x < n → x ∈ l)%nat → l = seq 0 n.
Proof.
  intros Hl Hlt Hall. apply (StronglySorted_unique_strong lt).
  - intros x y _ _ Hxy Hyx. lia.
  - done.
  - apply increasing_seq.
  - apply NoDup_Permutation; [|apply NoDup_seq|].
    + clear Hlt Hall. induction Hl as [|x l _ IH Hx]; constructor; [|done].
      intros Hin. rewrite Forall_forall in Hx. specialize (Hx x Hin). lia.
    + intros x. rewrite elem_of_seq. split; [intros Hx; split; [lia|by apply Hlt]|intros [_ Hx]; by apply Hall].
Qed.

(** * A batch of rows *)

Section statement.
Context (s : Select_) (metadata : TableMeta).

Abbreviation table := (s_fromTable s).
Abbreviation alias := (s_fromAlias s).
Abbreviation metas := (t_columns metadata).

Context (Hdistinct : NoDup (cm_name <$> metas)) (Hcolumns : Forall column_ok metas).

(** The schema of the rows of the table. *)
Definition schema : list BoundColumn := (λ column, mkBound table alias (cm_name column)) <$> metas.

Definition table_row (t : Tuple) : EvalRow := mkRow (Some schema) t.

Definition field (c : nat) (t : Tuple) : Value := default VNull (t !! c).

(** A row of the table, without NaNs. *)
Definition typed_row (t : Tuple) : Prop := Forall2 value_ok metas t ∧ Forall ordered t.

(** The vector of the column [c] on these rows. *)
Definition column_vector (ts : list Tuple) (c : nat) (v : TypedVector) : Prop :=
  represents v (field c <$> ts) ∧ ∃ column, metas !! c = Some column ∧
    declaredValueType column = Ok (v_type v).

Lemma value_ok_fits column v t :
  column_ok column → value_ok column v → declaredValueType column = Ok t → fits t v.
Proof.
  intros (_ & Hup & _) Hv. unfold declaredValueType. rewrite Hup.
  destruct (supported_exclusive (cm_type column)) as [Hint Hreal].
  destruct v; cbn in Hv.
  - intros _. by left.
  - destruct Hv as [-> _]. intros [= <-]. by right.
  - destruct Hv as [Hr _]. destruct (is_integer_type (cm_type column)).
    + destruct (Hint eq_refl). congruence.
    + rewrite Hr. intros [= <-]. by right.
  - destruct (is_integer_type (cm_type column)); [destruct (Hint eq_refl); congruence|].
    destruct (is_real_type (cm_type column)); [specialize (Hreal eq_refl); congruence|].
    rewrite Hv. intros [= <-]. by right.
  - done.
  - rewrite Hv. intros [= <-]. by right.
Qed.

Lemma field_lookup c t v : t !! c = Some v → field c t = v.
Proof. unfold field. by intros ->. Qed.

Lemma typed_field t c column :
  typed_row t → metas !! c = Some column →
  t !! c = Some (field c t) ∧ value_ok column (field c t) ∧ ordered (field c t).
Proof.
  intros [Hok Hord] Hc. destruct (Forall2_lookup_l _ _ _ _ _ Hok Hc) as (v & Hv & Hvok).
  rewrite (field_lookup c t v Hv). split; [done|]. split; [done|]. by eapply Forall_lookup_1 in Hv.
Qed.

Lemma selected_fields required t :
  typed_row t → Forall (λ c, is_Some (metas !! c)) required →
  selected required t = (λ c, field c t) <$> required.
Proof.
  intros Ht. induction 1 as [|c required [column Hc] _ IH]; [done|].
  destruct (typed_field t c column Ht Hc) as (Hf & _). unfold selected in *. cbn.
  by rewrite Hf, IH.
Qed.

Lemma append_row_ok ts t required vectors :
  typed_row t → Forall2 (column_vector ts) required vectors →
  ∃ vectors', append_row vectors ((λ c, field c t) <$> required) = Ok vectors' ∧
    Forall2 (column_vector (ts ++ [t])) required vectors'.
Proof.
  intros Ht. induction 1 as [|c v required vectors [Hv (column & Hc & Htype)] _ IH];
    [by exists []|].
  destruct IH as (vectors' & Happ & Hall).
  destruct (typed_field t c column Ht Hc) as (_ & Hok & _).
  destruct (append_same v (field c <$> ts) (field c t) Hv) as (v' & Hv1 & Hv' & Htype').
  { eapply value_ok_fits; [|done..]. by eapply Forall_lookup_1 in Hc. }
  exists (v' :: vectors'). rewrite fmap_cons. cbn [append_row]. rewrite Hv1. cbn [rbind].
  rewrite Happ. split; [done|]. constructor; [|done]. split; [by rewrite fmap_app|].
  exists column. by rewrite Htype'.
Qed.

(** A batch of the columns [required] of these rows. *)
Record batch_ok (required : list nat) (batch : VectorBatch) (ts : list Tuple) : Prop := {
  ba_rows : rowCount batch = length ts;
  ba_columns : Forall2 (λ c b, schema !! c = Some b) required (batch_columns batch);
  ba_values : Forall2 (column_vector ts) required (batch_values batch);
}.

Lemma load_rows_ok required ts ts0 vectors stored :
  Forall typed_row ts → Forall (λ c, is_Some (metas !! c)) required →
  Forall2 (column_vector ts0) required vectors →
  storedValues <$> stored = selected required <$> ts →
  ∃ vectors', rfold (λ vectors row,
      if negb (length (storedValues row) =? length required)%nat then
        Err (Throw ("Projected tuple width mismatch in " +:+ table))
      else append_row vectors (storedValues row)) stored vectors = Ok vectors' ∧
    Forall2 (column_vector (ts0 ++ ts)) required vectors'.
Proof.
  intros Hts Hreq. revert ts0 vectors stored.
  induction Hts as [|t ts Ht _ IH]; intros ts0 vectors stored Hvec Hst.
  { destruct stored; [|done]. exists vectors. by rewrite app_nil_r. }
  destruct stored as [|row stored]; [done|]. rewrite !fmap_cons in Hst.
  injection Hst as Hrow Hst. cbn [rfold].
  rewrite Hrow, selected_fields, length_fmap, Nat.eqb_refl by done. cbn [negb].
  destruct (append_row_ok ts0 t required vectors Ht Hvec) as (v1 & Happ & Hv1).
  rewrite Happ. cbn [rbind]. destruct (IH _ _ _ Hv1 Hst) as (v2 & Hfold & Hv2).
  exists v2. by rewrite <- app_assoc in Hv2.
Qed.

Lemma required_meta_ok required :
  Forall (λ c, is_Some (metas !! c)) required →
  Forall2 (λ c column, metas !! c = Some column) required (required_meta metadata required).
Proof.
  unfold required_meta. induction 1 as [|c required [column Hc] _ IH]; [constructor|].
  cbn. rewrite Hc. by constructor.
Qed.

Lemma load_batch_ok required ts stored batch :
  Forall typed_row ts → Forall (λ c, is_Some (metas !! c)) required →
  storedValues <$> stored = selected required <$> ts →
  load_batch s metadata required stored = Ok batch → batch_ok required batch ts.
Proof.
  intros Hts Hreq Hst. unfold load_batch. pose proof (required_meta_ok required Hreq) as Hmeta.
  destruct (rmap declaredValueType _) as [types|] eqn:Htypes; [|done]. cbn [rbind].
  apply rmap_Ok in Htypes.
  destruct (load_rows_ok required ts [] (newVector <$> types) stored Hts Hreq) as (vectors & -> & Hvec);
    [|done|].
  { clear -Hmeta Htypes. revert types Htypes.
    induction Hmeta as [|c column required columns Hc _ IH]; intros types Htypes; inversion_clear Htypes;
      [constructor|]. constructor; [|by apply IH]. split; [apply newVector_ok|]. by exists column. }
  cbn [rbind]. intros [= <-]. split; cbn; [|clear -Hmeta|done].
  - by rewrite <- (length_fmap storedValues), Hst, length_fmap.
  - induction Hmeta as [|c column required columns Hc _ IH]; [constructor|]. constructor; [|done].
    unfold schema. by rewrite list_lookup_fmap, Hc.
Qed.

(** ** Resolving a column *)

Lemma vector_column_hit q name candidates k result i :
  vector_column q name candidates k result = Ok (Some i) →
  result = Some i ∨ ∃ j candidate, i = (k + j)%nat ∧ candidates !! j = Some candidate ∧
    bc_name candidate = name ∧ qualifier_matches q candidate = true.
Proof.
  revert k result. induction candidates as [|b candidates IH]; intros k result; cbn.
  { intros [= ->]. by left. }
  assert (Hnext : ∀ result', vector_column q name candidates (S k) result' = Ok (Some i) →
    (result' = Some i → result = Some i ∨ i = k ∧ bc_name b = name ∧ qualifier_matches q b = true) →
    result = Some i ∨ ∃ j candidate, i = (k + j)%nat ∧ (b :: candidates) !! j = Some candidate ∧
      bc_name candidate = name ∧ qualifier_matches q candidate = true).
  { intros result' H1 H2. destruct (IH _ _ H1) as [Hr|(j & candidate & -> & ?)].
    - destruct (H2 Hr) as [|(-> & ?)]; [by left|]. right. exists 0%nat, b. split; [lia|done].
    - right. exists (S j), candidate. split; [lia|done]. }
  destruct (negb (bool_decide (bc_name b = name)) || negb (qualifier_matches q b)) eqn:Hskip.
  { intros H1. apply (Hnext result); auto. }
  case_match; [done|]. intros H1. apply (Hnext _ H1). intros [= ->]. right. split; [done|].
  apply orb_false_iff in Hskip as [Hn Hq]. rewrite negb_false_iff in Hn, Hq.
  by apply bool_decide_eq_true in Hn.
Qed.

Lemma resolve_loop_absent q name row candidates k result :
  name ∉ bc_name <$> candidates → resolve_loop q name row candidates k result = Ok result.
Proof.
  revert k. induction candidates as [|b candidates IH]; intros k Hnot; [done|]. cbn.
  rewrite fmap_cons, not_elem_of_cons in Hnot. destruct Hnot as [Hb Hrest].
  rewrite bool_decide_eq_false_2 by done. by apply IH.
Qed.

Lemma resolve_loop_hit q name row candidates k j b v :
  NoDup (bc_name <$> candidates) → candidates !! j = Some b → bc_name b = name →
  qualifier_matches q b = true → row !! (k + j)%nat = Some v →
  resolve_loop q name row candidates k None = Ok (Some v).
Proof.
  revert k j. induction candidates as [|b' candidates IH]; intros k j Hnd Hj Hname Hq Hv; [done|].
  rewrite fmap_cons in Hnd. apply NoDup_cons in Hnd as [Hb' Hnd]. cbn. destruct j as [|j].
  - injection Hj as ->. rewrite bool_decide_eq_true_2, Hq by done. cbn.
    rewrite Nat.add_0_r in Hv. unfold nth_value. rewrite Hv. cbn [rbind].
    apply resolve_loop_absent. by rewrite <- Hname.
  - cbn in Hj. rewrite bool_decide_eq_false_2.
    + apply (IH (S k) j); [done..|]. by rewrite <- Nat.add_succ_comm in Hv.
    + intros Heq. apply Hb'. rewrite Heq, <- Hname. apply list_elem_of_fmap_2.
      by eapply list_elem_of_lookup_2.
Qed.

Lemma schema_names : bc_name <$> schema = cm_name <$> metas.
Proof. unfold schema. by rewrite <- list_fmap_compose. Qed.

(** A column of the batch is the column of the rows. *)
Lemma batch_column_ok q name required batch ts v :
  batch_ok required batch ts → Forall typed_row ts → batch_column q name batch = Ok v →
  ∃ c, column_vector ts c v ∧ ∀ t, t ∈ ts → resolveColumn q name (table_row t) = Ok (field c t).
Proof.
  intros [_ Hcols Hvals] Hts. unfold batch_column, resolveVectorColumn.
  destruct (vector_column _ _ _ _ _) as [[i|]|] eqn:Hi; [|done..]. cbn [rbind].
  destruct (vector_column_hit _ _ _ _ _ _ Hi) as [|(j & b & Hij & Hb & Hname & Hq)]; [done|].
  cbn in Hij. subst i. destruct (batch_values batch !! j) as [v'|] eqn:Hv; [|done]. intros [= ->].
  destruct (Forall2_lookup_r _ _ _ _ _ Hcols Hb) as (c & Hc & Hcb).
  destruct (Forall2_lookup_lr _ _ _ _ _ _ Hvals Hc Hv) as (Hvec & column & Hcol & Htype).
  exists c. split; [split; [done|by exists column]|]. intros t Ht.
  rewrite Forall_forall in Hts. destruct (typed_field t c column (Hts t Ht) Hcol) as (Hf & _).
  unfold resolveColumn. cbn [Eval.columns table_row Eval.values].
  erewrite resolve_loop_hit; [done| |exact Hcb|done|done|exact Hf]. by rewrite schema_names.
Qed.

(** ** Evaluation *)

(** No literal is a NaN. *)
Fixpoint exact (e : Node) : Prop :=
  match e with
  | Literal v _ => ordered (literal_value v)
  | BinaryOp _ l r _ _ => exact l ∧ exact r
  | UnaryOp _ e _ _ => exact e
  | FunctionCall _ (argument :: _) _ _ _ => exact argument
  | _ => True
  end.

(** [v] holds the values of [e] in the rows. *)
Definition evaluates (e : Node) (ts : list Tuple) (v : TypedVector) : Prop :=
  ∃ l, represents v l ∧ Forall2 (λ t x, eval e (table_row t) = Ok x) ts l.

Lemma evaluates_row e ts v i t :
  evaluates e ts v → ts !! i = Some t →
  ∃ x, eval e (table_row t) = Ok x ∧ value_at v i = Ok x ∧ is_null v i = Ok (isNull x) ∧
    fits (v_type v) x ∧
    (isNull x = false → is_number_type (v_type v) = true → number_at v i = asReal x).
Proof.
  intros (l & Hv & Hl) Ht. destruct (Forall2_lookup_l _ _ _ _ _ Hl Ht) as (x & Hx & He).
  exists x. split; [done|]. split; [by apply (value_at_ok v l)|]. split; [by apply (is_null_ok v l)|].
  split; [by eapply Forall_lookup_1; [apply (re_fits _ _ Hv)|]|].
  intros Hn Hnum. by apply (number_at_ok v l).
Qed.

(** A vector built from what the rows evaluate to. *)
Lemma build_evaluates e ts f t u v :
  t = Null ∨ t = u →
  (∀ i row x, ts !! i = Some row → f i = Ok x → eval e (table_row row) = Ok x ∧ fits u x) →
  build t (length ts) f = Ok v → evaluates e ts v.
Proof.
  intros Ht Hf Hbuild. destruct (build_ok f t u (length ts) v Ht) as (l & Hv & Hlen & Hl); [|done|].
  - intros i x Hi Hx. destruct (lookup_lt_is_Some_2 ts i Hi) as [row Hrow]. by eapply Hf.
  - exists l. split; [done|]. apply Forall2_same_length_lookup_2; [done|].
    intros i row x Hrow Hx. by eapply Hf; [|apply Hl].
Qed.

Lemma column_vector_evaluates q name a p ts c v :
  column_vector ts c v → (∀ t, t ∈ ts → resolveColumn q name (table_row t) = Ok (field c t)) →
  evaluates (ColumnRef q name a p) ts v.
Proof.
  intros [Hv _] Hr. exists (field c <$> ts). split; [done|]. apply Forall2_fmap_r, Forall_Forall2_diag.
  apply Forall_forall. intros t Ht. by apply Hr.
Qed.

Lemma column_and_literal_Some l r onLeft q name scalar row x y :
  column_and_literal l r = Some (onLeft, (q, name), scalar) →
  eval l row = Ok x → eval r row = Ok y →
  resolveColumn q name row = Ok (if onLeft then x else y) ∧ scalar = if onLeft then y else x.
Proof.
  destruct l, r; cbn; try done; intros [= <- <- <- <-] Hx Hy; simplify_eq; done.
Qed.

Lemma column_and_literal_eval l r onLeft q name scalar row x :
  column_and_literal l r = Some (onLeft, (q, name), scalar) → resolveColumn q name row = Ok x →
  eval l row = Ok (if onLeft then x else scalar) ∧ eval r row = Ok (if onLeft then scalar else x).
Proof. destruct l, r; cbn; try done; by intros [= <- <- <- <-] ->. Qed.

Lemma column_and_literal_exact l r onLeft q name scalar :
  column_and_literal l r = Some (onLeft, (q, name), scalar) → exact l → exact r → ordered scalar.
Proof. destruct l, r; cbn; try done; by intros [= <- <- <- <-]. Qed.

Lemma evalVector_ok e required batch ts v :
  batch_ok required batch ts → Forall typed_row ts → exact e → evalVector e batch = Ok v →
  evaluates e ts v.
Proof.
  intros Hb Hts. pose proof (ba_rows _ _ _ Hb) as Hn. revert v.
  induction e as [lit p|q name a p| |op l IHl r IHr a p|op e IHe a p| | |]; intros v Hex; cbn [evalVector];
    try done.
  - rewrite Hn. apply (build_evaluates _ _ _ _ (Value.type (literal_value lit))); [by right|].
    intros i row x _ [= <-]. split; [done|by right].
  - intros Hc. destruct (batch_column_ok _ _ _ _ _ _ Hb Hts Hc) as (c & Hv & Hr).
    by eapply column_vector_evaluates.
  - destruct Hex as [Hl Hr]. destruct (if comparison_op op then _ else _) as [[[onLeft [q name]] c]|] eqn:Hcl.
    + destruct (comparison_op op) eqn:Hop; [|done].
      destruct (batch_column q name batch) as [w|] eqn:Hw; [|done]. cbn [rbind]. rewrite Hn.
      destruct (batch_column_ok _ _ _ _ _ _ Hb Hts Hw) as (i & [Hrep (column & Hcol & _)] & Hres).
      apply (build_evaluates _ _ _ _ Boolean); [by right|]. intros k row x Hrow.
      assert (Hin : row ∈ ts) by (by eapply list_elem_of_lookup_2).
      destruct (column_and_literal_eval l r onLeft q name c (table_row row) _ Hcl (Hres row Hin)) as [El Er].
      destruct (typed_field row i column) as (_ & _ & Hord);
        [by apply (proj1 (Forall_forall _ _) Hts)|done|].
      assert (Hk : (field i <$> ts) !! k = Some (field i row)) by (by rewrite list_lookup_fmap, Hrow).
      assert (Hc : ordered c) by (by eapply column_and_literal_exact).
      rewrite (compare_row_ok op onLeft w (field i <$> ts) k (field i row) c) by done.
      intros Hx. split; [cbn [eval]; by rewrite El, Er|].
      generalize (applyBinary_fits op _ _ x _ _ (or_intror eq_refl) (or_intror eq_refl) Hx). unfold binary_type. by rewrite Hop, orb_true_r.
    + clear Hcl. destruct (evalVector l batch) as [lv|]; [|done]. cbn [rbind].
      destruct (evalVector r batch) as [rv|]; [|done]. cbn [rbind]. rewrite Hn.
      specialize (IHl lv Hl eq_refl). specialize (IHr rv Hr eq_refl).
      apply (build_evaluates _ _ _ _ (binary_type op (v_type lv) (v_type rv))); [by left|].
      intros i row x Hrow.
      destruct (evaluates_row l ts lv i row IHl Hrow) as (y & Ey & -> & _ & Hy & _).
      destruct (evaluates_row r ts rv i row IHr Hrow) as (z & Ez & -> & _ & Hz & _).
      cbn [rbind eval]. rewrite Ey, Ez. cbn [rbind]. intros Hx. split; [done|].
      by eapply applyBinary_fits.
  - destruct (evalVector e batch) as [w|]; [|done]. cbn [rbind]. rewrite Hn.
    specialize (IHe w Hex eq_refl).
    apply (build_evaluates _ _ _ _ (unary_type op (v_type w))); [by left|]. intros i row x Hrow.
    destruct (evaluates_row e ts w i row IHe Hrow) as (y & Ey & -> & _ & Hy & _).
    cbn [rbind eval]. rewrite Ey. cbn [rbind]. intros Hx. split; [done|]. by eapply applyUnary_fits.
Qed.

(** ** The rows that pass *)

Lemma predicate_ok required batch ts p i t :
  batch_ok required batch ts → Forall typed_row ts → from_option exact True (s_where s) →
  predicate_vector s batch = Ok p → ts !! i = Some t →
  ∃ x, value_at p i = Ok x ∧ keeps (s_where s) (table_row t) = Ok (asBoolean x).
Proof.
  intros Hb Hts Hex. unfold predicate_vector, keeps. destruct (s_where s) as [e|]; intros Hp Hi.
  - destruct (evaluates_row e ts p i t) as (x & Hx & Hv & _); [by eapply evalVector_ok|done|].
    exists x. by rewrite Hx.
  - rewrite (ba_rows _ _ _ Hb) in Hp.
    destruct (build_ok (λ _, Ok (VBoolean true)) Boolean Boolean (length ts) p) as (l & Hl & Hlen & Hall);
      [by right| |done|].
    { intros ? ? _ [= <-]. by right. }
    destruct (lookup_lt_is_Some_2 l i) as [x Hx]; [rewrite Hlen; by eapply lookup_lt_Some|].
    exists x. split; [by apply (value_at_ok p l)|]. by injection (Hall i x Hx) as <-.
Qed.

(** [rows] are the positions of the rows [kept] of the batch. *)
Definition positions (ts : list Tuple) (rows : list nat) (kept : list Tuple) : Prop :=
  Forall2 (λ i t, ts !! i = Some t) rows kept.

Lemma passing_ok p ts rows :
  (∀ i t, ts !! i = Some t →
     ∃ x, value_at p i = Ok x ∧ keeps (s_where s) (table_row t) = Ok (asBoolean x)) →
  passing p (length ts) = Ok rows →
  ∃ kept, filter_rows (s_where s) (table_row <$> ts) = Ok (table_row <$> kept) ∧
    positions ts rows kept.
Proof.
  intros Hp. unfold passing. destruct (rmap _ _) as [flags|] eqn:Hflags; [|done].
  cbn [rbind]. intros [= <-]. revert flags Hflags.
  assert (Hgen : ∀ todo k flags, (∀ i t, todo !! i = Some t → ts !! (k + i)%nat = Some t) →
    rmap (λ row, let* v := value_at p row in Ok (row, asBoolean v)) (seq k (length todo)) = Ok flags →
    ∃ kept, filter_rows (s_where s) (table_row <$> todo) = Ok (table_row <$> kept) ∧
      positions ts (fst <$> List.filter snd flags) kept); [|intros flags; by apply (Hgen ts 0%nat)].
  induction todo as [|t todo IH]; intros k flags Hin; cbn [length seq rmap].
  { intros [= <-]. exists []. split; [done|constructor]. }
  assert (Hk : ts !! k = Some t) by (rewrite <- (Nat.add_0_r k); by apply Hin).
  destruct (Hp k t Hk) as (x & Hx & Hkeep). rewrite Hx. cbn [rbind].
  destruct (rmap _ (seq (S k) _)) as [rest|] eqn:Hrest; [|done]. cbn [rbind]. intros [= <-].
  destruct (IH (S k) rest) as (kept & Hfilter & Hpos); [|done|].
  { intros i t' Hi. rewrite Nat.add_succ_comm. by apply Hin. }
  rewrite fmap_cons. cbn [filter_rows]. rewrite Hkeep, Hfilter. cbn [rbind List.filter snd].
  destruct (asBoolean x); [|by exists kept]. exists (t :: kept). split; [done|]. by constructor.
Qed.

(** ** The projected vectors *)

Definition projected_ok (ts : list Tuple) (e : Node) (p : option TypedVector) : Prop :=
  match e with
  | FunctionCall _ args _ _ _ =>
      match args with
      | argument :: _ =>
          if is_wildcard argument then p = None else ∃ v, p = Some v ∧ evaluates argument ts v
      | [] => p = None
      end
  | Wildcard _ _ _ => p = None
  | _ => ∃ v, p = Some v ∧ evaluates e ts v
  end.

Lemma projected_vector_ok required batch ts e p :
  batch_ok required batch ts → Forall typed_row ts → exact e →
  projected_vector batch e = Ok p → projected_ok ts e p.
Proof.
  intros Hb Hts Hex.
  assert (Hone : ∀ e', exact e' → (let* v := evalVector e' batch in Ok (Some v)) = Ok p →
    ∃ v, p = Some v ∧ evaluates e' ts v).
  { intros e' He'. destruct (evalVector e' batch) as [v|] eqn:Hv; [|done]. intros [= <-].
    exists v. split; [done|]. by eapply evalVector_ok. }
  destruct e as [| | | | |name args distinct a loc| |]; cbn [projected_vector projected_ok];
    try (by apply Hone); [by intros [= <-]|].
  destruct args as [|argument args]; [by intros [= <-]|].
  destruct (is_wildcard argument); [by intros [= <-]|]. by apply Hone.
Qed.

(** ** Rows of a SELECT without groups *)

Lemma wildcard_cells_ok q ts cols vectors k m i t :
  Forall2 (λ c b, schema !! c = Some b) (seq k m) cols →
  Forall2 (column_vector ts) (seq k m) vectors → ts !! i = Some t → typed_row t →
  wildcard_cells q cols vectors i = expand_wildcard q cols t k.
Proof.
  intros Hcols Hvec Hi Ht. revert k cols vectors Hcols Hvec.
  induction m as [|m IH]; intros k cols vectors Hcols Hvec; cbn [seq] in *.
  { apply Forall2_nil_inv_l in Hcols as ->. by apply Forall2_nil_inv_l in Hvec as ->. }
  apply Forall2_cons_inv_l in Hcols as (b & cols' & Hb & Hcols & ->).
  apply Forall2_cons_inv_l in Hvec as (v & vectors' & [Hv (column & Hc & _)] & Hvec & ->).
  cbn [wildcard_cells expand_wildcard]. rewrite (IH (S k) cols' vectors' Hcols Hvec).
  case_match; [|done].
  rewrite (value_at_ok v (field k <$> ts) i (field k t) Hv) by (by rewrite list_lookup_fmap, Hi).
  unfold nth_value. by rewrite (proj1 (typed_field t k column Ht Hc)).
Qed.

(** A column of a statement without groups. *)
Definition plain_column (e : Node) : bool :=
  match e with
  | Literal _ _ | ColumnRef _ _ _ _ | Wildcard _ _ _ | BinaryOp _ _ _ _ _ | UnaryOp _ _ _ _ => true
  | _ => false
  end.

Definition has_wildcard (columns : list Node) : bool := existsb is_wildcard columns.

Lemma output_cells_ok required batch ts e p i t xs all :
  batch_ok required batch ts → Forall typed_row ts → plain_column e = true →
  (is_wildcard e = true → required = seq 0 (length metas)) →
  projected_ok ts e p → ts !! i = Some t →
  output_cells batch i (e, p) = Ok xs → project_one (table_row t) all e = Ok xs.
Proof.
  intros [_ Hcols Hvals] Hts Hplain Hwild Hp Hi. unfold output_cells. cbn [fst snd].
  assert (Ht : typed_row t) by (by eapply Forall_lookup_1 in Hi).
  assert (Hone : ∀ e', (∃ v, p = Some v ∧ evaluates e' ts v) →
    (let* v := pointed p in let* x := value_at v i in Ok [x]) = Ok xs →
    (let* v := eval e' (table_row t) in Ok [v]) = Ok xs).
  { intros e' (v & -> & Hv). destruct (evaluates_row e' ts v i t Hv Hi) as (x & -> & Hx & _).
    cbn [pointed rbind]. by rewrite Hx. }
  destruct e; try done; try (by apply Hone).
  rewrite (Hwild eq_refl) in Hcols, Hvals. cbn [project_one table_row Eval.columns Eval.values].
  rewrite (wildcard_cells_ok _ ts _ _ 0%nat _ i t Hcols Hvals Hi Ht).
  assert (batch_columns batch = schema) as ->; [|done].
  apply list_eq. intros j. destruct (batch_columns batch !! j) as [b|] eqn:Hb.
  - destruct (Forall2_lookup_r _ _ _ _ _ Hcols Hb) as (c & Hc & <-).
    by apply lookup_seq in Hc as [-> _].
  - symmetry. apply lookup_ge_None. apply lookup_ge_None in Hb.
    rewrite <- (Forall2_length _ _ _ Hcols), length_seq in Hb. unfold schema. by rewrite length_fmap.
Qed.

Lemma output_row_ok required batch ts projected i t out all :
  batch_ok required batch ts → Forall typed_row ts → forallb plain_column (s_columns s) = true →
  (has_wildcard (s_columns s) = true → required = seq 0 (length metas)) →
  Forall2 (projected_ok ts) (s_columns s) projected → ts !! i = Some t →
  output_row s batch projected i = Ok out → project s (table_row t) all = Ok out.
Proof.
  intros Hb Hts Hplain Hwild Hproj Hi. unfold output_row, project.
  enough (Hparts : ∀ parts, rmap (output_cells batch i) (zip (s_columns s) projected) = Ok parts →
    rmap (project_one (table_row t) all) (s_columns s) = Ok parts).
  { destruct (rmap (output_cells _ _) _) as [parts|]; [|done]. by rewrite (Hparts parts eq_refl). }
  unfold has_wildcard in Hwild. induction Hproj as [|e p es ps He _ IH]; [done|]. intros parts.
  cbn [forallb] in Hplain. apply andb_true_iff in Hplain as [Hpe Hplain]. cbn [existsb] in Hwild.
  change (zip (e :: es) (p :: ps)) with ((e, p) :: zip es ps). cbn [rmap].
  destruct (output_cells batch i (e, p)) as [xs|] eqn:Hxs; [|done]. cbn [rbind].
  destruct (rmap _ (zip es ps)) as [rest|] eqn:Hrest; [|done]. cbn [rbind]. intros [= <-].
  rewrite (output_cells_ok required batch ts e p i t xs all) by (done || (intros Hw; apply Hwild; by rewrite Hw)).
  cbn [rbind]. rewrite (IH Hplain) with (parts := rest); [done| |done].
  intros Hw. apply Hwild. by rewrite Hw, orb_true_r.
Qed.

(** ** The columns a statement needs *)

(** A set of columns of the table, with more columns. *)
Definition grown (r r' : list nat) : Prop :=
  increasing r → (∀ x, x ∈ r → x < length metas)%nat →
  increasing r' ∧ (∀ x, x ∈ r' → x < length metas)%nat ∧ r ⊆ r'.

Lemma grown_refl r : grown r r.
Proof. by intros Hr Hlt. Qed.

Lemma grown_trans r1 r2 r3 : grown r1 r2 → grown r2 r3 → grown r1 r3.
Proof.
  intros H12 H23 Hr Hlt. destruct (H12 Hr Hlt) as (Hr2 & Hlt2 & Hsub).
  destruct (H23 Hr2 Hlt2) as (Hr3 & Hlt3 & Hsub3). split_and!; [done..|by etrans].
Qed.

Lemma grown_insert c r : (c < length metas)%nat → grown r (set_insert c r).
Proof.
  intros Hc Hr Hlt. split; [by apply set_insert_increasing|]. split.
  - intros x [->|Hx]%set_insert_elem; auto.
  - intros x Hx. apply set_insert_elem. by right.
Qed.

Lemma grown_fold {A} (f : list nat → A → exec (list nat)) l r r' :
  (∀ a r r', a ∈ l → f r a = Ok r' → grown r r') → rfold f l r = Ok r' → grown r r'.
Proof.
  revert r. induction l as [|a l IH]; intros r Hf; cbn [rfold]; [intros [= <-]; apply grown_refl|].
  destruct (f r a) as [r1|] eqn:Hr1; [|done]. cbn [rbind]. intros Hfold.
  eapply grown_trans; [by eapply Hf; [apply list_elem_of_here|]|].
  apply IH; [|done]. intros b ? ? Hb. by apply Hf, list_elem_of_further.
Qed.

Lemma insert_all_keeps l x r : x ∈ r → x ∈ fold_left (λ set index, set_insert index set) l r.
Proof.
  revert r. induction l as [|z l IH]; intros r Hin; [done|].
  cbn. apply IH, set_insert_elem. by right.
Qed.

Lemma insert_all_ok l r :
  (∀ x, x ∈ l → x < length metas)%nat →
  grown r (fold_left (λ set index, set_insert index set) l r) ∧
  l ⊆ fold_left (λ set index, set_insert index set) l r.
Proof.
  revert r. induction l as [|x l IH]; intros r Hl; cbn [fold_left];
    [split; [apply grown_refl|by intros y Hy%elem_of_nil]|].
  destruct (IH (set_insert x r)) as [Hg Hsub]; [intros y Hy; by apply Hl, list_elem_of_further|].
  split.
  - eapply grown_trans; [|exact Hg]. apply grown_insert, Hl, list_elem_of_here.
  - intros y Hy. apply elem_of_cons in Hy as [->|Hy]; [|by apply Hsub].
    apply insert_all_keeps, set_insert_elem. by left.
Qed.

Lemma collectColumns_grown e : ∀ r r', collectColumns s metadata e r = Ok r' → grown r r'.
Proof.
  revert e. fix IH 1. intros e.
  destruct e as [| | |op l rhs a p|op operand a p|name args distinct a p| |];
    intros r r'; cbn [collectColumns]; try (by intros [= <-]; apply grown_refl).
  - unfold requireColumn. case_match; [done|].
    destruct (column_position _ _) as [c|] eqn:Hc; [|done]. intros [= <-].
    apply grown_insert. destruct (column_position_Some _ _ _ Hc) as (meta & Hcol & _).
    by eapply lookup_lt_Some.
  - intros [= <-]. apply insert_all_ok. intros x Hx%elem_of_seq. lia.
  - destruct (collectColumns s metadata l r) as [r1|] eqn:Hl; [|done]. cbn [rbind]. intros Hr.
    eapply grown_trans; [by apply (IH l)|by apply (IH rhs)].
  - apply (IH operand).
  - case_match; [by intros [= <-]; apply grown_refl|]. clear H.
    revert r. induction args as [|argument args IHargs]; intros r; [intros [= <-]; apply grown_refl|].
    destruct (collectColumns s metadata argument r) as [r1|] eqn:Ha; [|done]. cbn [rbind]. intros Hr.
    eapply grown_trans; [by apply (IH argument)|by apply IHargs].
Qed.

Lemma collect_all_wildcard columns r r' :
  rfold (λ required e, collectColumns s metadata e required) columns r = Ok r' →
  has_wildcard columns = true → increasing r → (∀ x, x ∈ r → x < length metas)%nat →
  r' = seq 0 (length metas).
Proof.
  intros Hfold Hw Hr Hlt. revert r Hfold Hw Hr Hlt.
  induction columns as [|e columns IH]; intros r; cbn [rfold has_wildcard existsb]; [done|].
  destruct (collectColumns s metadata e r) as [r1|] eqn:He; [|done]. cbn [rbind].
  intros Hfold Hw Hr Hlt. destruct (collectColumns_grown _ _ _ He Hr Hlt) as (Hr1 & Hlt1 & _).
  destruct (is_wildcard e) eqn:Hwe; [|by apply (IH r1)].
  destruct e; try done. cbn [collectColumns] in He. injection He as <-.
  destruct (insert_all_ok (seq 0 (length metas)) r) as [_ Hall]; [intros x Hx%elem_of_seq; lia|].
  destruct (grown_fold _ _ _ _ (λ e r r' _, collectColumns_grown e r r') Hfold Hr1 Hlt1) as (Hr' & Hlt' & Hsub).
  apply increasing_all; [done..|]. intros x Hx. apply Hsub, Hall, elem_of_seq. lia.
Qed.

Lemma requiredColumns_ok required :
  requiredColumns s metadata = Ok required →
  increasing required ∧ Forall (λ c, is_Some (metas !! c)) required ∧
  (has_wildcard (s_columns s) = true → required = seq 0 (length metas)).
Proof.
  unfold requiredColumns.
  destruct (match s_where s with Some e => _ | None => _ end) as [r1|] eqn:Hr1; [|done]. cbn [rbind].
  destruct (rfold _ (s_groupBy s) r1) as [r2|] eqn:Hr2; [|done]. cbn [rbind]. intros Hr3.
  assert (H1 : grown [] r1).
  { destruct (s_where s); [by eapply collectColumns_grown|]. injection Hr1 as <-. apply grown_refl. }
  assert (H2 : grown r1 r2) by exact (grown_fold _ _ _ _ (λ e r r' _, collectColumns_grown e r r') Hr2).
  assert (H3 : grown r2 required) by exact (grown_fold _ _ _ _ (λ e r r' _, collectColumns_grown e r r') Hr3).
  destruct (grown_trans _ _ _ H1 H2) as (Hi2 & Hlt2 & _); [constructor|by intros x Hx%elem_of_nil|].
  destruct (H3 Hi2 Hlt2) as (Hi & Hlt & _). split; [done|]. split.
  - apply Forall_forall. intros c Hc. apply lookup_lt_is_Some. by apply Hlt.
  - intros Hw. by eapply collect_all_wildcard.
Qed.

(** ** Groups *)

(** The cell of the row-at-a-time aggregation. *)
Definition to_stream (c : Value * AggregateState) : stream_cell :=
  (c.1, mkStreamState (ag_count c.2) (ag_sum c.2) (ag_allIntegers c.2) (ag_extremum c.2) []).

(** An aggregate the vectors know. *)
Definition vector_aggregate (name : string) : bool :=
  ((name =? "headcount") || (name =? "stack") || (name =? "mid") || (name =? "goat") ||
   (name =? "L"))%string.

Lemma enter_value_ok name c st st' x v :
  vector_aggregate name = true → isNull x = false →
  enter_value name st x = Ok st' →
  stream_add (stream_kind name) x (to_stream (c, st)).2 = Ok (to_stream (v, st')).2.
Proof.
  intros Hname Hnull. destruct st as [count sum allI ext seen].
  unfold enter_value, stream_add, to_stream, stream_kind, vector_aggregate in *. cbn in *. rewrite Hnull.
  destruct (String.eqb_spec name "headcount") as [->|_]; [by intros [= <-]|].
  destruct (String.eqb_spec name "stack") as [->|_]; cbn;
    [|destruct (String.eqb_spec name "mid") as [->|_]; cbn];
    [destruct (isNumeric x); cbn; [|done]; destruct (asReal x) as [d|]; cbn; [|done]; by intros [= <-]..|].
  destruct (String.eqb_spec name "goat") as [->|_]; cbn;
    [|destruct (String.eqb_spec name "L") as [->|_]; cbn; [|done]];
    (destruct ext as [best|]; intros [= <-]; cbn; [|done]); rewrite ?orb_false_r; done.
Qed.

Lemma enter_row_ok name ts e v i t c st st' :
  vector_aggregate name = true → evaluates e ts v → ts !! i = Some t →
  enter_row name false v i st = Ok st' →
  ∃ x, eval e (table_row t) = Ok x ∧
    stream_add (stream_kind name) x (to_stream (c, st)).2 = Ok (to_stream (c, st')).2.
Proof.
  intros Hname Hv Hi. destruct (evaluates_row e ts v i t Hv Hi) as (x & Hx & Hval & Hnull & Hfits & Hnum).
  unfold enter_row. rewrite Hnull. cbn [rbind]. intros Hrow. exists x. split; [done|].
  destruct (isNull x) eqn:Hn.
  { injection Hrow as <-. unfold stream_add. destruct st. cbn. by rewrite Hn. }
  destruct Hfits as [|Hfits]; [congruence|]. specialize (Hnum eq_refl).
  rewrite Hval in Hrow. destruct st as [count sum allI ext seen]. cbn [negb andb rbind] in Hrow.
  destruct (String.eqb_spec name "headcount") as [->|_].
  { injection Hrow as <-. unfold stream_add, to_stream, stream_kind. cbn. by rewrite Hn. }
  destruct ((name =? "stack") || (name =? "mid"))%string eqn:Hsum; cbn [andb] in Hrow;
    [|by eapply (enter_value_ok name c (mkAggregate count sum allI ext seen))].
  destruct (is_number_type (v_type v)) eqn:Htype;
    [|by eapply (enter_value_ok name c (mkAggregate count sum allI ext seen))].
  rewrite (Hnum eq_refl) in Hrow. destruct (asReal x) as [d|] eqn:Hd; [|done]. cbn [rbind] in Hrow.
  injection Hrow as <-. apply (enter_value_ok name c (mkAggregate count sum allI ext seen)); [done..|].
  unfold enter_value. rewrite Hsum, Hd. apply orb_true_iff in Hsum as [Hs|Hs];
    apply String.eqb_eq in Hs as ->; rewrite <- Hfits in *; by destruct x.
Qed.

(** A column of a statement with groups, and how the streaming aggregation
    projects it. *)
Definition group_column (e : Node) : bool := supported e true && (negb (hasAggregate e) || is_call e).

Lemma enter_cell_ok ts e p proj i t c c' :
  group_column e = true → stream_projection e = Some proj → projected_ok ts e p →
  ts !! i = Some t → enter_cell i (e, p) c = Ok c' →
  stream_step (table_row t) proj (to_stream c) = Ok (to_stream c').
Proof.
  intros Hcol Hproj Hp Hi. destruct c as [rep st]. unfold enter_cell. cbn [fst snd].
  assert (Hrep : (∃ v, p = Some v ∧ evaluates e ts v) ∨ p = None →
    (if isNull rep then let* v := pointed p in let* x := value_at v i in Ok (x, st) else Ok (rep, st)) = Ok c' →
    stream_step (table_row t) (Representative e) (to_stream (rep, st)) = Ok (to_stream c')).
  { cbn [stream_step to_stream fst snd]. destruct (isNull rep); [|by intros _ [= <-]].
    intros [(v & -> & Hv)| ->]; [|done]. cbn [pointed rbind].
    destruct (evaluates_row e ts v i t Hv Hi) as (x & -> & -> & _). cbn [rbind]. by intros [= <-]. }
  unfold group_column in Hcol. apply andb_true_iff in Hcol as [Hsup _].
  destruct e as [| | | | |name args distinct a loc| |]; cbn [stream_projection] in Hproj; try done;
    try (clear Hsup; repeat case_match; simplify_eq; apply Hrep; cbn in Hp; tauto).
  destruct distinct; [done|]. destruct (isSimpleAggregateName name) eqn:Hsimple; [|done].
  cbn [orb negb] in Hproj. cbn [supported andb] in Hsup.
  fold (vector_aggregate name) in Hsup. apply andb_true_iff in Hsup as [Hname Hargs].
  unfold counts_rows.
  destruct ((name =? "headcount")%string && match args with [] => true | a :: _ => is_wildcard a end) eqn:Hcount.
  { injection Hproj as <-. by intros [= <-]. }
  destruct args as [|argument [|]]; try done. injection Hproj as <-. cbn [projected_ok] in Hp.
  destruct (is_wildcard argument) eqn:Hwild.
  { destruct argument; try done. by rewrite Hargs in Hcount. }
  destruct Hp as (v & -> & Hv). cbn [pointed rbind].
  destruct (enter_row name false v i st) as [st'|] eqn:Hrow; [|done]. cbn [rbind]. intros [= <-].
  destruct (enter_row_ok name ts argument v i t rep st st' Hname Hv Hi Hrow) as (x & Hx & Hadd).
  unfold to_stream, stream_step. cbn [fst snd]. rewrite Hx. cbn [rbind].
  unfold to_stream in Hadd. cbn [fst snd] in Hadd. by rewrite Hadd.
Qed.

Lemma enter_cells_ok ts es ps projs i t cells cells' :
  forallb group_column es = true → stream_projections es = Some projs →
  Forall2 (projected_ok ts) es ps → ts !! i = Some t →
  enter_cells i (zip es ps) cells = Ok cells' →
  stream_row (table_row t) projs (to_stream <$> cells) = Ok (to_stream <$> cells').
Proof.
  intros Hcols Hprojs Hps Hi. revert projs Hcols Hprojs cells cells'.
  induction Hps as [|e p es ps He _ IH]; intros projs Hcols Hprojs cells cells'.
  { injection Hprojs as <-. by intros [= <-]. }
  cbn [forallb stream_projections] in *. apply andb_true_iff in Hcols as [Hcol Hcols].
  destruct (stream_projection e) as [proj|] eqn:Hproj; [|done].
  destruct (stream_projections es) as [projs'|]; [|done]. injection Hprojs as <-.
  destruct cells as [|c cells]; [by intros [= <-]|].
  change (zip (e :: es) (p :: ps)) with ((e, p) :: zip es ps). cbn [enter_cells].
  destruct (enter_cell i (e, p) c) as [c'|] eqn:Hc; [|done]. cbn [rbind].
  destruct (enter_cells i (zip es ps) cells) as [rest|] eqn:Hrest; [|done]. cbn [rbind]. intros [= <-].
  rewrite !fmap_cons. cbn [stream_row].
  rewrite (enter_cell_ok ts e p proj i t c c') by done. cbn [rbind].
  by rewrite (IH projs' Hcols eq_refl cells rest).
Qed.

Lemma cell_result_ok e proj c x :
  group_column e = true → stream_projection e = Some proj → cell_result e c = Ok x →
  stream_result proj (to_stream c) = Ok x.
Proof.
  intros Hcol Hproj. destruct c as [rep st].
  unfold group_column in Hcol. apply andb_true_iff in Hcol as [Hsup _].
  destruct e as [| | | | |name args distinct a loc| |]; cbn [stream_projection] in Hproj; try done;
    try (clear Hsup; repeat case_match; by simplify_eq).
  destruct distinct; [done|]. destruct (isSimpleAggregateName name) eqn:Hsimple; [|done].
  cbn [orb negb] in Hproj. cbn [supported andb] in Hsup.
  apply andb_true_iff in Hsup as [Hname Hargs]. unfold cell_result.
  destruct (String.eqb_spec name "headcount") as [->|Hne].
  { cbn [andb] in Hproj. case_match; [by injection Hproj as <-|].
    destruct args as [|argument [|]]; try done. by injection Hproj as <-. }
  cbn [andb orb] in *. destruct args as [|argument [|]]; try done. injection Hproj as <-.
  unfold stream_result, to_stream, stream_kind. cbn [fst snd sa_count sa_sum sa_allIntegers sa_extremum].
  rewrite (proj2 (String.eqb_neq _ _) Hne).
  destruct (String.eqb_spec name "stack") as [->|_]; [done|].
  destruct (String.eqb_spec name "mid") as [->|_]; [done|].
  destruct (String.eqb_spec name "goat") as [->|_]; [done|].
  by destruct (String.eqb_spec name "L") as [->|_].
Qed.

Lemma cell_results_ok es projs cells row :
  forallb group_column es = true → stream_projections es = Some projs →
  cell_results es cells = Ok row → stream_results projs (to_stream <$> cells) = Ok row.
Proof.
  revert projs cells row.
  induction es as [|e es IH]; intros projs cells row Hcols Hprojs; cbn [stream_projections] in Hprojs.
  { injection Hprojs as <-. by intros [= <-]. }
  cbn [forallb] in Hcols. apply andb_true_iff in Hcols as [Hcol Hcols].
  destruct (stream_projection e) as [proj|] eqn:Hproj; [|done].
  destruct (stream_projections es) as [projs'|]; [|done]. injection Hprojs as <-.
  destruct cells as [|c cells]; [by intros [= <-]|]. cbn [cell_results].
  destruct (cell_result e c) as [x|] eqn:Hx; [|done]. cbn [rbind].
  destruct (cell_results es cells) as [rest|] eqn:Hrest; [|done]. cbn [rbind]. intros [= <-].
  rewrite fmap_cons. cbn [stream_results]. rewrite (cell_result_ok e proj c x) by done. cbn [rbind].
  by rewrite (IH projs' cells rest).
Qed.

Abbreviation vector_groups := (list (tuple * list (Value * AggregateState))).

Definition to_streams (groups : vector_groups) : list (tuple * list stream_cell) :=
  (λ g : tuple * list (Value * AggregateState), (g.1, to_stream <$> g.2)) <$> groups.

Lemma group_update_ok key f g (groups groups' : vector_groups) projs :
  (∀ cells cells', f cells = Ok cells' → g (to_stream <$> cells) = Ok (to_stream <$> cells')) →
  to_stream <$> new_group s = stream_cells projs →
  group_update key (new_group s) f groups = Ok groups' →
  group_update key (stream_cells projs) g (to_streams groups) = Ok (to_streams groups').
Proof.
  intros Hf Hnew. revert groups'. induction groups as [|[k cells] groups IH]; intros groups'; cbn.
  - destruct (f (new_group s)) as [cells|] eqn:Hcells; [|done]. intros [= <-].
    by rewrite <- Hnew, (Hf _ _ Hcells).
  - destruct (tupleEqual k key).
    + destruct (f cells) as [cells'|] eqn:Hcells; [|done]. intros [= <-]. by rewrite (Hf _ _ Hcells).
    + destruct (group_update key (new_group s) f groups) as [rest|]; [|done]. intros [= <-].
      fold (to_streams groups). by rewrite (IH rest eq_refl).
Qed.

Lemma new_group_ok projs :
  stream_projections (s_columns s) = Some projs → to_stream <$> new_group s = stream_cells projs.
Proof.
  unfold new_group, stream_cells. revert projs.
  induction (s_columns s) as [|e es IH]; intros projs; cbn; [by intros [= <-]|].
  destruct (stream_projection e); [|done]. destruct (stream_projections es); [|done].
  intros [= <-]. cbn. by rewrite (IH _ eq_refl).
Qed.

Lemma vector_keys_ok ts keys i t key :
  Forall2 (λ e v, evaluates e ts v) (s_groupBy s) keys → ts !! i = Some t →
  rmap (λ v, value_at v i) keys = Ok key → group_key (s_groupBy s) (table_row t) = Ok key.
Proof.
  intros Hkeys Hi. unfold group_key. intros <-. symmetry. apply rmap_ext.
  eapply Forall2_impl; [exact Hkeys|]. intros e v Hv.
  by destruct (evaluates_row e ts v i t Hv Hi) as (x & -> & -> & _).
Qed.

(** The streaming aggregation over more rows. *)
Definition stream_more projs (rows : list EvalRow) (groups : list (tuple * list stream_cell)) :=
  rfold (λ groups row,
    let* key := group_key (s_groupBy s) row in
    group_update key (stream_cells projs) (stream_row row projs) groups) rows groups.

Lemma group_loop_ok ts keys projected projs rows kept groups groups' :
  forallb group_column (s_columns s) = true → stream_projections (s_columns s) = Some projs →
  Forall2 (λ e v, evaluates e ts v) (s_groupBy s) keys →
  Forall2 (projected_ok ts) (s_columns s) projected → positions ts rows kept →
  rfold (λ groups row,
    let* key := rmap (λ v, value_at v row) keys in
    group_update key (new_group s) (enter_cells row (zip (s_columns s) projected)) groups) rows groups
    = Ok groups' →
  stream_more projs (table_row <$> kept) (to_streams groups) = Ok (to_streams groups').
Proof.
  intros Hcols Hprojs Hkeys Hproj Hpos. unfold stream_more. revert groups.
  induction Hpos as [|i t rows kept Hi _ IH]; intros groups; [by intros [= <-]|].
  rewrite fmap_cons. cbn [rfold]. destruct (rmap _ keys) as [key|] eqn:Hkey; [|done]. cbn [rbind].
  rewrite (vector_keys_ok ts keys i t key) by done. cbn [rbind].
  destruct (group_update _ _ _ groups) as [groups1|] eqn:Hup; [|done]. cbn [rbind]. intros Hrest.
  erewrite group_update_ok; [cbn [rbind]; by apply IH| |by apply new_group_ok|exact Hup].
  intros cells cells' Hcells. by eapply enter_cells_ok.
Qed.

(** ** A batch *)

Context (Hwhere : from_option exact True (s_where s)).
Context (Hgroup : Forall exact (s_groupBy s)) (Hproject : Forall exact (s_columns s)).

Lemma projected_vectors_ok required batch ts projected :
  batch_ok required batch ts → Forall typed_row ts →
  rmap (projected_vector batch) (s_columns s) = Ok projected →
  Forall2 (projected_ok ts) (s_columns s) projected.
Proof.
  intros Hb Hts Hp%rmap_Ok. apply Forall2_same_length_lookup_2; [by eapply Forall2_length|].
  intros i e p He Hpi. eapply projected_vector_ok; [done..| |].
  - by eapply Forall_lookup_1 in Hproject.
  - by eapply Forall2_lookup_lr in Hp.
Qed.

Lemma key_vectors_ok required batch ts keys :
  batch_ok required batch ts → Forall typed_row ts →
  rmap (λ e, evalVector e batch) (s_groupBy s) = Ok keys →
  Forall2 (λ e v, evaluates e ts v) (s_groupBy s) keys.
Proof.
  intros Hb Hts Hp%rmap_Ok. apply Forall2_same_length_lookup_2; [by eapply Forall2_length|].
  intros i e p He Hpi. eapply evalVector_ok; [done..| |].
  - by eapply Forall_lookup_1 in Hgroup.
  - by eapply Forall2_lookup_lr in Hp.
Qed.

Lemma passing_rows_ok required batch ts p rows :
  batch_ok required batch ts → Forall typed_row ts → predicate_vector s batch = Ok p →
  passing p (rowCount batch) = Ok rows →
  ∃ kept, filter_rows (s_where s) (table_row <$> ts) = Ok (table_row <$> kept) ∧
    positions ts rows kept.
Proof.
  intros Hb Hts Hp. rewrite (ba_rows _ _ _ Hb). apply passing_ok. intros i t Hi.
  by eapply predicate_ok.
Qed.

(** These rows of the table as the scan has them. *)
Definition loads (required : list nat) (stored : list StoredRow) (ts : list Tuple) : Prop :=
  Forall typed_row ts ∧ storedValues <$> stored = selected required <$> ts.

Lemma plain_batch_ok required stored ts outs :
  requiredColumns s metadata = Ok required → loads required stored ts →
  forallb plain_column (s_columns s) = true →
  plain_batch s metadata required stored = Ok outs →
  ∃ kept, filter_rows (s_where s) (table_row <$> ts) = Ok (table_row <$> kept) ∧
    Forall2 (λ t out, ∀ all, project s (table_row t) all = Ok out) kept outs.
Proof.
  intros Hreq [Hts Hst] Hplain. destruct (requiredColumns_ok required Hreq) as (_ & Hin & Hwild).
  unfold plain_batch. destruct (load_batch _ _ _ _) as [batch|] eqn:Hload; [|done]. cbn [rbind].
  pose proof (load_batch_ok required ts stored batch Hts Hin Hst Hload) as Hb.
  destruct (predicate_vector s batch) as [p|] eqn:Hp; [|done]. cbn [rbind].
  destruct (rmap _ (s_columns s)) as [projected|] eqn:Hproj; [|done]. cbn [rbind].
  destruct (passing p _) as [rows|] eqn:Hrows; [|done]. cbn [rbind].
  destruct (passing_rows_ok required batch ts p rows Hb Hts Hp Hrows) as (kept & Hkept & Hpos).
  intros Houts%rmap_Ok. exists kept. split; [done|].
  pose proof (projected_vectors_ok required batch ts projected Hb Hts Hproj) as Hpv.
  clear -Hb Hts Hplain Hwild Hpos Houts Hpv Hdistinct Hcolumns. revert outs Houts.
  induction Hpos as [|i t rows kept Hi _ IH]; intros outs Houts; inversion_clear Houts; [constructor|].
  constructor; [|by apply IH]. intros all. by eapply output_row_ok.
Qed.

Lemma group_batch_ok required stored ts groups groups' projs :
  requiredColumns s metadata = Ok required → loads required stored ts →
  forallb group_column (s_columns s) = true → stream_projections (s_columns s) = Some projs →
  group_batch s metadata required groups stored = Ok groups' →
  ∃ kept, filter_rows (s_where s) (table_row <$> ts) = Ok (table_row <$> kept) ∧
    stream_more projs (table_row <$> kept) (to_streams groups) = Ok (to_streams groups').
Proof.
  intros Hreq [Hts Hst] Hcols Hprojs. destruct (requiredColumns_ok required Hreq) as (_ & Hin & _).
  unfold group_batch. destruct (load_batch _ _ _ _) as [batch|] eqn:Hload; [|done]. cbn [rbind].
  pose proof (load_batch_ok required ts stored batch Hts Hin Hst Hload) as Hb.
  destruct (predicate_vector s batch) as [p|] eqn:Hp; [|done]. cbn [rbind].
  destruct (rmap _ (s_groupBy s)) as [keys|] eqn:Hkeys; [|done]. cbn [rbind].
  destruct (rmap _ (s_columns s)) as [projected|] eqn:Hproj; [|done]. cbn [rbind].
  destruct (passing p _) as [rows|] eqn:Hrows; [|done]. cbn [rbind].
  destruct (passing_rows_ok required batch ts p rows Hb Hts Hp Hrows) as (kept & Hkept & Hpos).
  intros Hloop. exists kept. split; [done|]. eapply group_loop_ok; [done..| | |exact Hpos|exact Hloop].
  - by eapply key_vectors_ok.
  - by eapply projected_vectors_ok.
Qed.

(** ** All batches *)

Lemma filter_rows_app c a b :
  filter_rows c (a ++ b) = let* x := filter_rows c a in let* y := filter_rows c b in Ok (x ++ y).
Proof.
  induction a as [|row a IH]; cbn [app filter_rows rbind].
  - by destruct (filter_rows c b).
  - destruct (keeps c row) as [keep|]; [|done]. cbn [rbind]. rewrite IH.
    destruct (filter_rows c a) as [x|]; [|done]. cbn [rbind].
    destruct (filter_rows c b) as [y|]; [|done]. cbn [rbind]. by destruct keep.
Qed.

Lemma loads_split required stored parts ts :
  loads required (stored ++ parts) ts →
  ∃ ts1 ts2, ts = ts1 ++ ts2 ∧ loads required stored ts1 ∧ loads required parts ts2.
Proof.
  intros [Hts Hst]. rewrite fmap_app in Hst. symmetry in Hst.
  apply fmap_app_inv in Hst as (ts1 & ts2 & H1 & H2 & ->).
  apply Forall_app in Hts as [Hts1 Hts2]. by exists ts1, ts2.
Qed.

Lemma plain_rows_ok required parts ts outs :
  requiredColumns s metadata = Ok required → loads required (concat parts) ts →
  forallb plain_column (s_columns s) = true →
  rmap (plain_batch s metadata required) parts = Ok outs →
  ∃ kept, filter_rows (s_where s) (table_row <$> ts) = Ok (table_row <$> kept) ∧
    Forall2 (λ t out, ∀ all, project s (table_row t) all = Ok out) kept (concat outs).
Proof.
  intros Hreq. revert ts outs. induction parts as [|stored parts IH]; intros ts outs Hload Hplain Houts.
  { injection Houts as <-. destruct Hload as [_ Hst]. symmetry in Hst. apply fmap_nil_inv in Hst as ->.
    exists []. split; [done|constructor]. }
  cbn [concat rmap] in *. apply loads_split in Hload as (ts1 & ts2 & -> & Hload1 & Hload2).
  destruct (plain_batch _ _ _ stored) as [out|] eqn:Hout; [|done]. cbn [rbind] in Houts.
  destruct (rmap _ parts) as [rest|] eqn:Hrest; [|done]. injection Houts as <-.
  destruct (plain_batch_ok required stored ts1 out Hreq Hload1 Hplain Hout) as (kept1 & Hk1 & Hp1).
  destruct (IH ts2 rest Hload2 Hplain eq_refl) as (kept2 & Hk2 & Hp2).
  exists (kept1 ++ kept2). rewrite fmap_app, filter_rows_app, Hk1, Hk2. cbn [rbind concat].
  rewrite fmap_app. split; [done|]. by apply Forall2_app.
Qed.

Lemma group_rows_all_ok required parts ts groups groups' projs :
  requiredColumns s metadata = Ok required → loads required (concat parts) ts →
  forallb group_column (s_columns s) = true → stream_projections (s_columns s) = Some projs →
  rfold (group_batch s metadata required) parts groups = Ok groups' →
  ∃ kept, filter_rows (s_where s) (table_row <$> ts) = Ok (table_row <$> kept) ∧
    stream_more projs (table_row <$> kept) (to_streams groups) = Ok (to_streams groups').
Proof.
  intros Hreq Hload Hcols Hprojs. revert ts Hload groups.
  induction parts as [|stored parts IH]; intros ts Hload groups Hfold.
  { injection Hfold as <-. destruct Hload as [_ Hst]. symmetry in Hst. apply fmap_nil_inv in Hst as ->.
    by exists []. }
  cbn [concat rfold] in *. apply loads_split in Hload as (ts1 & ts2 & -> & Hload1 & Hload2).
  destruct (group_batch _ _ _ _ stored) as [groups1|] eqn:Hg; [|done]. cbn [rbind] in Hfold.
  destruct (group_batch_ok required stored ts1 groups groups1 projs Hreq Hload1 Hcols Hprojs Hg)
    as (kept1 & Hk1 & Hs1).
  destruct (IH ts2 Hload2 groups1 Hfold) as (kept2 & Hk2 & Hs2).
  exists (kept1 ++ kept2). rewrite fmap_app, filter_rows_app, Hk1, Hk2. cbn [rbind].
  split; [by rewrite fmap_app|]. unfold stream_more in *. by rewrite fmap_app, rfold_app, Hs1.
Qed.

(** ** The whole statement *)

Lemma supported_columns :
  forallb (λ e, supported e true && (negb (hasAggregate e) || is_call e)) (s_columns s) = true →
  existsb hasAggregate (s_columns s) = false → forallb plain_column (s_columns s) = true.
Proof.
  clear Hproject. induction (s_columns s) as [|e es IH]; [done|]. cbn [forallb existsb].
  rewrite !andb_true_iff, orb_false_iff. intros [[Hsup _] Hes] [Hagg Haggs]. split; [|by apply IH].
  destruct e as [| | | | |name args distinct a loc| |]; try done.
  cbn [supported andb] in Hsup. apply andb_true_iff in Hsup as [Hname _].
  cbn [hasAggregate] in Hagg. unfold aggregate_name in Hagg.
  destruct (name =? "headcount")%string, (name =? "stack")%string, (name =? "mid")%string,
    (name =? "goat")%string, (name =? "L")%string; done.
Qed.

Lemma no_biggest :
  forallb (λ e, supported e true && (negb (hasAggregate e) || is_call e)) (s_columns s) = true →
  find_biggest (s_columns s) = None.
Proof.
  clear Hproject. induction (s_columns s) as [|e es IH]; [done|]. cbn [forallb].
  rewrite !andb_true_iff. intros [[Hsup _] Hes].
  destruct e as [| | | | |name args distinct a loc| |]; try (by apply IH).
  cbn [supported andb find_biggest] in *. apply andb_true_iff in Hsup as [Hname _].
  unfold is_biggest. destruct (String.eqb_spec name "biggest-W") as [->|_]; [done|].
  destruct (String.eqb_spec name "biggest-L") as [->|_]; [done|]. by apply IH.
Qed.

Record simple_select : Prop := {
  ss_joins : s_joins s = [];
  ss_distinct : s_distinct s = false;
  ss_orderBy : s_orderBy s = [];
  ss_limit : s_limit s = None;
  ss_offset : s_offset s = None;
  ss_having : s_having s = None;
}.

Lemma canVectorize_ok :
  canVectorize s = true →
  simple_select ∧
  forallb (λ e, supported e true && (negb (hasAggregate e) || is_call e)) (s_columns s) = true.
Proof.
  unfold canVectorize. rewrite !andb_true_iff.
  intros [[[[[[[[H1 H2] H3] H4] H5] H6] _] _] H7]. split; [|done].
  split; [by destruct (s_joins s)|by destruct (s_distinct s)|by destruct (s_orderBy s)|
    by destruct (s_limit s)|by destruct (s_offset s)|by destruct (s_having s)].
Qed.

Lemma names_ok catalog :
  getTable catalog table = Some metadata → s_joins s = [] →
  outputNames catalog s (Some schema) = outputNames catalog s None.
Proof.
  intros Hget Hjoins. unfold outputNames. clear Hproject. generalize 0%nat.
  induction (s_columns s) as [|e es IH]; intros k; [done|]. cbn [output_names_from].
  rewrite IH. f_equal. destruct e as [| |q a p| | | | |]; try done.
  unfold wildcard_names, table_names. rewrite Hget, Hjoins. cbn [map concat]. rewrite app_nil_r.
  clear. unfold schema, wildcard_matches.
  rewrite <- (negb_involutive (q =? "")%string).
  induction metas as [|column cols IH]; [by repeat case_match|]. cbn [fmap list_fmap List.filter bc_table bc_alias].
  destruct (q =? "")%string, (q =? table)%string, (q =? alias)%string; cbn in *; by rewrite ?IH.
Qed.

Lemma result_columns_ok catalog ts :
  getTable catalog table = Some metadata → s_joins s = [] →
  result_columns catalog s false (table_row <$> ts) = outputNames catalog s None.
Proof. intros Hget Hjoins. destruct ts; [done|]. cbn. by rewrite names_ok. Qed.

Context (std_sort : list Value → list Value).
Context (iterate : ∀ A : Type, list (tuple * A) → list (tuple * A)) (Hwalk : hash_walk iterate).

(** What the groups give. *)
Lemma group_output_ok projs groups outs :
  forallb group_column (s_columns s) = true → stream_projections (s_columns s) = Some projs →
  rmap (λ g, cell_results (s_columns s) g.2) (iterate _ groups) = Ok outs →
  rmap (λ g, let* values := stream_results projs g.2 in Ok (mkOutput values []))
    (iterate _ (to_streams groups)) = Ok (Streaming.row_of <$> outs).
Proof.
  intros Hcols Hprojs Houts%rmap_Ok. apply rmap_Ok.
  assert (Hw : Forall2 (λ x y, x.1 = y.1 ∧ y.2 = to_stream <$> x.2)
    (iterate _ groups) (iterate _ (to_streams groups))).
  { apply (walk_keys _ Hwalk _ _ (λ a b, b = to_stream <$> a)). unfold to_streams.
    apply Forall2_fmap_r, Forall_Forall2_diag, Forall_forall. by intros g _. }
  revert Hw. generalize (iterate _ (to_streams groups)). 
  induction Houts as [|g out gs outs Hout _ IH]; intros gs' Hw; inversion_clear Hw as [|? g' ? ? [_ Hg]]; [constructor|].
  constructor; [|by apply IH]. rewrite Hg. by rewrite (cell_results_ok (s_columns s) projs g.2 out).
Qed.

Lemma apply_simple outs :
  simple_select →
  apply_limit (s_limit s) (s_offset s)
    (apply_order (s_orderBy s) (apply_distinct (s_distinct s) (Streaming.row_of <$> outs))) = Ok outs.
Proof.
  intros Hsimple. rewrite (ss_distinct Hsimple), (ss_orderBy Hsimple), (ss_limit Hsimple), (ss_offset Hsimple).
  cbn [apply_distinct apply_order apply_limit integerLiteral rbind]. rewrite drop_0. f_equal.
  induction outs as [|out outs IH]; [done|]. rewrite fmap_cons. cbn [map]. by rewrite IH.
Qed.

(** What the batches give, the rows give. *)
Lemma vector_rows_ok catalog required parts ts out :
  getTable catalog table = Some metadata → canVectorize s = true →
  (is_grouped s = true → is_Some (stream_projections (s_columns s))) →
  requiredColumns s metadata = Ok required → loads required (concat parts) ts →
  vector_rows iterate s metadata required parts = Ok out →
  executeSelect std_sort iterate catalog s (table_row <$> ts) = Ok (outputNames catalog s None, out).
Proof.
  intros Hget Hcan Hone Hreq Hload. destruct (canVectorize_ok Hcan) as [Hsimple Hcols].
  unfold vector_rows, executeSelect, apply_biggest, select_output. rewrite no_biggest by done.
  destruct (is_grouped s) eqn:Hgrouped.
  - destruct (Hone eq_refl) as [projs Hprojs]. rewrite Hprojs.
    assert (streamable s = true) as ->.
    { unfold streamable. by rewrite (ss_having Hsimple), (ss_distinct Hsimple), (ss_orderBy Hsimple),
        (ss_limit Hsimple), (ss_offset Hsimple). }
    destruct (rfold _ parts _) as [groups|] eqn:Hfold; [|done]. cbn [rbind]. intros Hout.
    destruct (group_rows_all_ok required parts ts _ groups projs Hreq Hload Hcols Hprojs Hfold)
      as (kept & Hkept & Hmore).
    rewrite Hkept. cbn [rbind]. rewrite result_columns_ok by (done || apply Hsimple).
    unfold stream_output, stream_groups.
    assert (to_streams (match s_groupBy s with [] => [([], new_group s)] | _ :: _ => [] end) =
      match s_groupBy s with [] => [([], stream_cells projs)] | _ :: _ => [] end) as Hstart.
    { destruct (s_groupBy s); [|done]. cbn. by rewrite (new_group_ok projs). }
    rewrite Hstart in Hmore. unfold stream_more in Hmore. rewrite Hmore. cbn [rbind].
    rewrite (group_output_ok projs groups out) by done. cbn [rbind]. by rewrite apply_simple.
  - assert (Hplain : forallb plain_column (s_columns s) = true).
    { apply supported_columns; [done|]. unfold is_grouped, selectHasAggregate in Hgrouped.
      destruct (s_groupBy s); [|done]. by apply orb_false_iff in Hgrouped as [? _]. }
    destruct (rmap _ parts) as [outs|] eqn:Houts; [|done]. cbn [rbind]. intros [= <-].
    destruct (plain_rows_ok required parts ts outs Hreq Hload Hplain Houts) as (kept & Hkept & Hproj).
    rewrite Hkept. cbn [rbind]. rewrite result_columns_ok by (done || apply Hsimple).
    assert (∀ all, rmap (λ source,
        let* row := project s source (Some all) in
        let* keys := orderKeys s source (outputNames catalog s None) row in
        Ok (mkOutput row keys)) (table_row <$> kept) = Ok (Streaming.row_of <$> concat outs)) as Hall.
    { intros all. apply rmap_Ok. apply Forall2_fmap_2. eapply Forall2_impl; [exact Hproj|].
      intros t o Ho. cbn. rewrite Ho. cbn [rbind]. unfold orderKeys. by rewrite (ss_orderBy Hsimple). }
    unfold plain_output. rewrite Hall. cbn [rbind]. by rewrite apply_simple.
Qed.
End statement.

(** * The engine *)

Definition no_nan (v : Value) : Prop :=
  match v with VReal d => is_nan d = false | _ => True end.

#[global] Instance no_nan_dec v : Decision (no_nan v).
Proof. destruct v; cbn; apply _. Defined.

Lemma value_ok_ordered column v : value_ok column v → no_nan v → ordered v.
Proof. destruct v; cbn; tauto. Qed.

(** The literals of a statement are not NaNs. *)
Definition exact_select (s : Select_) : Prop :=
  from_option exact True (s_where s) ∧ Forall exact (s_groupBy s) ∧ Forall exact (s_columns s).

(** A statement with groups can be answered in one pass. *)
Definition one_pass (s : Select_) : Prop :=
  is_grouped s = true → is_Some (stream_projections (s_columns s)).

Section engine.
Context {D F : Type} `{HeapFilesLaws D F}.
Context (std_sort : list Value → list Value).
Context (iterate : ∀ A : Type, list (tuple * A) → list (tuple * A)) (Hwalk : hash_walk iterate).

Lemma typed_rows c M n t (rs : rows) :
  database_ok c M → tables c !! n = Some t → M !! n = Some rs →
  (∀ x, x ∈ rs → Forall no_nan x.2) → Forall (typed_row t) rs.*2.
Proof.
  intros Hdb Ht Hrs Hnan. apply Forall_fmap, Forall_forall. intros x Hx.
  pose proof (co_rows _ _ _ _ (do_contents _ _ Hdb n t rs Ht Hrs) x Hx) as Hok. split; [done|].
  apply Forall_lookup. intros i v Hv. destruct (row_ok_lookup t x.2 i v Hok Hv) as (column & _ & Hval).
  eapply value_ok_ordered; [done|]. by eapply Forall_lookup_1; [apply (Hnan x Hx)|].
Qed.

Lemma executeVectorizedSelect_run c M e s t rs answer e' :
  holds_database c M e → tables c !! s_fromTable s = Some t → M !! s_fromTable s = Some rs →
  (∀ x, x ∈ rs → Forall no_nan x.2) → exact_select s → one_pass s →
  executeVectorizedSelect iterate s e = (Ok (Some answer), e') →
  holds_database c M e' ∧
  executeSelect std_sort iterate c s (table_row s t <$> rs.*2) = Ok answer.
Proof.
  intros [He Hdb] Ht Hrs Hnan (Hw & Hg & Hp) Hone. unfold executeVectorizedSelect.
  destruct (canVectorize s) eqn:Hcan; [cbn [negb]|by intros [=]].
  pose proof (do_tables _ _ Hdb _ t Ht) as Htab.
  pose proof (typed_rows c M _ t rs Hdb Ht Hrs Hnan) as Htyped.
  unfold mbind, action_bind. rewrite (known_table_run c M e _ He), Ht.
  unfold gets. rewrite (proj1 He). unfold lift.
  destruct (requiredColumns s t) as [required|] eqn:Hreq; [|by intros [=]].
  rewrite (heap_known _ (to_safe _ _ _ Htab)). unfold on_heap.
  destruct (requiredColumns_ok s t required Hreq)
    as (Hinc & Hin & _).
  destruct (increasing_sorted required Hinc) as [Hsorted Hadj]. pose proof He as (Hc & Hst & Hidx).
  destruct (scan_projected_law M _ rs (open_heap (s_fromTable s)) (storage_ e) required Hst Hrs)
    as (parts & h' & s' & Hscan & Hparts & Hst' & _); [by eapply open_law|done|done| |].
  { intros x Hx. eapply Forall_impl; [exact Hin|]. intros i [column Hi].
    rewrite <- (Forall2_length _ _ _ (co_rows _ _ _ _ (do_contents _ _ Hdb _ t rs Ht Hrs) x Hx)).
    by eapply lookup_lt_Some. }
  rewrite Hscan. cbn [rbind fst].
  destruct (vector_rows iterate s t required parts) as [out|] eqn:Hout; [|by intros [=]].
  cbn [mret action_ret]. intros [= <- <-].
  split; [split; [split; [done|by split]|done]|].
  eapply (vector_rows_ok s t); [apply (to_distinct _ _ _ Htab)|apply (to_columns _ _ _ Htab)|done..| |exact Hout].
  split; [exact Htyped|]. rewrite Hparts, <- !list_fmap_compose. done.
Qed.
End engine.

(** What a scan of the table finds. *)
Lemma scan_gives_rows batchRows (Hbatch : (0 < batchRows)%nat) c M e (s : Select_) l :
  holds_database (H0:=heap_files_laws batchRows Hbatch) c M e →
  (scanTable (H:=heap_files batchRows) (s_fromTable s) (s_fromAlias s) e).1 = Ok l →
  ∃ t rs, tables c !! s_fromTable s = Some t ∧ M !! s_fromTable s = Some rs ∧
    sc_row <$> l = table_row s t <$> rs.*2.
Proof.
  intros HM Hscan. destruct (tables c !! s_fromTable s) as [t|] eqn:Ht.
  2: { revert Hscan. unfold scanTable, mbind, action_bind.
       rewrite (known_table_run (H0:=heap_files_laws batchRows Hbatch) c M e _ (proj1 HM)), Ht. done. }
  destruct (proj2 (do_dom _ _ (proj2 HM) (s_fromTable s))) as [rs Hrs]; [eauto|]. exists t, rs.
  destruct (scanTable_run (H0:=heap_files_laws batchRows Hbatch) c M e _ (s_fromAlias s) t rs HM Ht Hrs)
    as (e1 & Hscan1 & _).
  rewrite Hscan1 in Hscan. unfold boundSchema, getTable in Hscan. rewrite Ht in Hscan.
  cbn [rbind fst] in Hscan. injection Hscan as <-. split; [done|]. split; [done|].
  rewrite <- !list_fmap_compose. done.
Qed.

(** A property of the values of the scanned rows. *)
Lemma scanned_values P s t (l : list ScanRow) (rs : rows) :
  sc_row <$> l = table_row s t <$> rs.*2 → Forall (λ r, Forall P (values (sc_row r))) l →
  ∀ x, x ∈ rs → Forall P x.2.
Proof.
  intros Hl HP x Hx.
  assert (Forall (λ row, Forall P (values row)) (sc_row <$> l)) as Hall by (by apply Forall_fmap).
  rewrite Hl, !Forall_fmap, Forall_forall in Hall. exact (Hall x Hx).
Qed.

(** C6: what the vectorised SELECT answers, the row-at-a-time SELECT answers on
    the rows a scan of the table gives, with the same names and the same rows in
    the same order, after any statements, whatever the size of a batch; and it
    leaves the tables as they are.  With groups every projected column is one
    aggregate without DISTINCT, or contains no aggregate ([one_pass]; see
    [distinct_sum_depends_on_path]).  No value of a row and no literal is a NaN
    ([exact_select]; see [nan_equals_in_vectors]). *)
Theorem vectorised_select_is_row_select (batchRows capacity : nat) (ss : list data_stmt)
    (std_sort : list Value → list Value)
    (iterate : ∀ A : Type, list (tuple * A) → list (tuple * A))
    (s : Select_) (l : list ScanRow) answer e' :
  (0 < batchRows)%nat → Forall stmt_ok ss → hash_walk iterate → exact_select s → one_pass s →
  (scanTable (H:=heap_files batchRows) (s_fromTable s) (s_fromAlias s)
     (after batchRows capacity ss)).1 = Ok l →
  Forall (λ r, Forall no_nan (values (sc_row r))) l →
  executeVectorizedSelect (H:=heap_files batchRows) iterate s (after batchRows capacity ss) =
    (Ok (Some answer), e') →
  executeSelect std_sort iterate (catalog_ (after batchRows capacity ss)) s (sc_row <$> l) = Ok answer ∧
  ∃ M, observed batchRows (catalog_ (after batchRows capacity ss)) M (after batchRows capacity ss) ∧
    observed batchRows (catalog_ (after batchRows capacity ss)) M e'.
Proof.
  intros Hbatch Hss Hwalk Hexact Hone Hscan Hnan Hrun.
  destruct (after_holds batchRows capacity Hbatch ss Hss) as [M HM]. set (e := after batchRows capacity ss) in *.
  destruct (scan_gives_rows batchRows Hbatch _ M e s l HM Hscan) as (t & rs & Ht & Hrs & Hl).
  destruct (executeVectorizedSelect_run (H0:=heap_files_laws batchRows Hbatch) std_sort iterate Hwalk
    _ M e s t rs answer e' HM Ht Hrs) as [He' Hselect]; [by eapply scanned_values|done..|].
  rewrite Hl. split; [done|]. exists M. split; by apply (holds_observed batchRows Hbatch).
Qed.

#[local] Open Scope string_scope.

(** ** A grouped statement over two batches *)

Definition vector_tables : list data_stmt :=
  demo_tables ++ [Insert_ (mkInsert "orders" [] [[int_literal 12; int_literal 1]] here)].

Definition call (name : string) (distinct : bool) (argument : Node) : Node :=
  FunctionCall name [argument] distinct "" here.

(** slay user, stack(id), headcount from orders where id > 9 squad by user *)
Definition vector_query : Select_ :=
  mkSelect false [column "user"; call "stack" false (column "id"); FunctionCall "headcount" [] false "" here]
    "orders" "" [] (Some (BinaryOp "<" (int_literal 9) (column "id") "" here))
    [column "user"] None [] None None here.

Definition vector_answer : list string * list tuple :=
  (["user"; "stack"; "headcount"],
   [[VInteger 1; VInteger 22; VInteger 2]; [VNull; VInteger 11; VInteger 1]]).

Lemma vector_tables_ok : Forall stmt_ok vector_tables.
Proof.
  apply Forall_app_2; [exact demo_tables_ok|]. repeat constructor; cbn; unfold i64; lia.
Qed.

Lemma vector_query_exact : exact_select vector_query.
Proof. split; [cbn; unfold i64; lia|]. by repeat constructor. Qed.

Lemma run_result {A B} (m : A * B) a : m.1 = a → m = (a, m.2).
Proof. intros <-. by destruct m. Qed.

Definition vector_scan : list ScanRow :=
  match (scanTable (H:=heap_files 1) "orders" "" (after 1 2 vector_tables)).1 with
  | Ok l => l
  | Err _ => []
  end.

Lemma vectorised_select_is_row_select_witness :
  executeSelect (λ l, l) (λ A l, l) (catalog_ (after 1 2 vector_tables)) vector_query
    (sc_row <$> vector_scan) = Ok vector_answer.
Proof.
  destruct (vectorised_select_is_row_select 1 2 vector_tables (λ l, l) (λ A l, l) vector_query
    vector_scan vector_answer
    (executeVectorizedSelect (H:=heap_files 1) (λ A l, l) vector_query (after 1 2 vector_tables)).2
    (le_n 1) vector_tables_ok Demo.walk_in_order vector_query_exact) as [Hanswer _].
  - intros _. eexists. vm_compute. reflexivity.
  - vm_compute. reflexivity.
  - apply (bool_decide_unpack _). vm_compute. exact I.
  - apply run_result. vm_compute. reflexivity.
  - exact Hanswer.
Defined.

(** ** Where the two paths differ *)

Definition vectorised (s : Select_) (ss : list data_stmt) : exec (option (list string * list tuple)) :=
  (executeVectorizedSelect (H:=heap_files 1) (λ A l, l) s (after 1 2 ss)).1.

Definition row_at_a_time (s : Select_) (ss : list data_stmt) : exec (list string * list tuple) :=
  let* l := (scanTable (H:=heap_files 1) (s_fromTable s) (s_fromAlias s) (after 1 2 ss)).1 in
  executeSelect (λ l, l) (λ A l, l) (catalog_ (after 1 2 ss)) s (sc_row <$> l).

Definition select_where (columns : list Node) (table : string) (condition : option Node) : Select_ :=
  mkSelect false columns table "" [] condition [] None [] None None here.

Definition nan_rows : list data_stmt :=
  [Create (mkCreate "t" [mkColumnDef "n" "int" true false "" ""; mkColumnDef "x" "real" false false "" ""]
             false here);
   Insert_ (mkInsert "t" [] [[int_literal 1; BinaryOp "-" infinity infinity "" here];
                             [int_literal 2; int_literal 5]; [int_literal 3; int_literal 5]] here)].

(** A NaN equals every number in a vector and none in a row. *)
Theorem nan_equals_in_vectors :
  vectorised (select_where [column "n"] "t" (Some (BinaryOp "=" (column "x") (int_literal 5) "" here)))
    nan_rows = Ok (Some (["n"], [[VInteger 1]; [VInteger 2]; [VInteger 3]])) ∧
  row_at_a_time (select_where [column "n"] "t" (Some (BinaryOp "=" (column "x") (int_literal 5) "" here)))
    nan_rows = Ok (["n"], [[VInteger 2]; [VInteger 3]]).
Proof. split; vm_compute; reflexivity. Qed.

(** The vectorised [stack(unique-fr x)] adds each value once; the
    row-at-a-time aggregates ignore the word, except [headcount]. *)
Theorem distinct_sum_depends_on_path :
  vectorised (select_where [call "stack" true (column "x")] "t"
    (Some (BinaryOp "<" (int_literal 1) (column "n") "" here))) nan_rows =
    Ok (Some (["stack"], [[VReal (of_int 5)]])) ∧
  row_at_a_time (select_where [call "stack" true (column "x")] "t"
    (Some (BinaryOp "<" (int_literal 1) (column "n") "" here))) nan_rows =
    Ok (["stack"], [[VReal (of_int 10)]]).
Proof. split; vm_compute; reflexivity. Qed.

(** A wildcard next to an aggregate has no vector: the vectorised SELECT
    dereferences a null pointer for the first row, where the row-at-a-time SELECT
    reports an error. *)
Theorem wildcard_without_vector :
  vectorised (select_where [Wildcard "" "" here; FunctionCall "headcount" [] false "" here] "t" None)
    nan_rows = Err (Undefined "null pointer") ∧
  row_at_a_time (select_where [Wildcard "" "" here; FunctionCall "headcount" [] false "" here] "t" None)
    nan_rows = Err (Throw "Wildcard is not a scalar expression").
Proof. split; vm_compute; reflexivity. Qed.
