(* ===== verification/Stats.v ===== *)
(** Column statistics ([NativeEngine::ensureColumnRange] of
    [src/native_engine.cpp] and [TableStatistics] of [src/native_engine.h]): one
    raw scan of a table gives the least and the greatest value of a column, the
    number of its values, how often each occurs while there are few of them,
    five power sums and a histogram.  The direct aggregates answer from these,
    and the vectorised scans and the joins skip work with them. *)

From S2P Require Import Prelude.
From S2P Require Import Double.
From S2P Require Import Config.
From S2P Require Import Value.
From S2P Require Import Tuple.
From S2P Require Import Ast.
From S2P Require Import Catalog.
From S2P Require Import Eval.
From S2P Require Import Raw.
From S2P Require Import HeapSpec.
From S2P Require Import Store.
From S2P Require Import Engine.

#[local] Open Scope string_scope.

Record ColumnRange : Type := mkRange {
  present : bool;
  range_min : Value;
  range_max : Value;
  nonNullCount : nat;
  range_numeric : bool;
  rawMoments : list double;
  buckets : list nat;
  bucketMin : double;
  bucketMax : double;
  valueCountsExact : bool;
  (** A hash map: each value with the number of its occurrences. *)
  valueCounts : list (Value * nat);
}.

Definition bucket_count : nat := Z.to_nat kStatisticsBucketCount.

Definition empty_range : ColumnRange :=
  mkRange false VNull VNull 0 false (replicate 5 dzero) (replicate bucket_count 0%nat)
    dzero dzero false [].

Record TableStatistics : Type := mkStatistics {
  rowCount : nat;
  distinctCounts : gmap string nat;
  columnRanges : gmap string ColumnRange;
}.

Definition empty_statistics : TableStatistics := mkStatistics 0 ∅ ∅.

(** [++valueCounts[value]] *)
Fixpoint count_value (value : Value) (counts : list (Value * nat)) : list (Value * nat) :=
  match counts with
  | [] => [(value, 1%nat)]
  | (v, n) :: counts =>
      if value_eqb v value then (v, S n) :: counts else (v, n) :: count_value value counts
  end.

(** [for (double& moment : rawMoments) { moment += power; power *= numeric; }] *)
Fixpoint add_moments (numeric power : double) (moments : list double) : list double :=
  match moments with
  | [] => []
  | moment :: moments => dadd moment power :: add_moments numeric (dmul power numeric) moments
  end.

(** What the scan keeps: the range, the numbers met and whether the counts are
    still exact. *)
Record range_scan : Type := mkScan {
  sc_range : ColumnRange;
  sc_samples : list double;
  sc_exact : bool;
}.

Definition add_count (limit : Z) (value : Value) (s : range_scan) : range_scan :=
  if sc_exact s then
    let r := sc_range s in
    let counts := count_value value (valueCounts r) in
    let full := bool_decide (limit < Z.of_nat (length counts)) in
    mkScan (mkRange (present r) (range_min r) (range_max r) (nonNullCount r) (range_numeric r)
              (rawMoments r) (buckets r) (bucketMin r) (bucketMax r) (valueCountsExact r)
              (if full then [] else counts))
      (sc_samples s) (negb full)
  else s.

(** The least and the greatest value and their number. *)
Definition add_bounds (value : Value) (r : ColumnRange) : ColumnRange :=
  let first := negb (present r) in
  mkRange true
    (if first || (compare value (range_min r) <? 0)%Z then value else range_min r)
    (if first || (0 <? compare value (range_max r))%Z then value else range_max r)
    (S (nonNullCount r)) (range_numeric r) (rawMoments r) (buckets r) (bucketMin r) (bucketMax r)
    (valueCountsExact r) (valueCounts r).

Definition add_number (numeric : double) (s : range_scan) : range_scan :=
  let r := sc_range s in
  mkScan (mkRange (present r) (range_min r) (range_max r) (nonNullCount r) true
            (add_moments numeric numeric (rawMoments r)) (buckets r) (bucketMin r) (bucketMax r)
            (valueCountsExact r) (valueCounts r))
    (sc_samples s ++ [numeric])%list (sc_exact s).

(** The visitor of the scan, on one row. *)
Definition range_step (limit : Z) (column : nat) (s : range_scan) (data : bytes)
    : exec range_scan :=
  let* field := decodeRawColumn data column in
  if rf_isNull field then Ok s
  else
    let value := toValue field in
    let s := add_count limit value s in
    let s := mkScan (add_bounds value (sc_range s)) (sc_samples s) (sc_exact s) in
    if raw_numeric field then
      let* numeric := raw_asReal field in
      Ok (add_number numeric s)
    else Ok s.

(** [static_cast<std::size_t>(d)] *)
Definition to_size (d : double) : option Z :=
  match SF_of d with
  | S754_zero _ => Some 0
  | S754_finite s m e =>
      let a := if decide (0 ≤ e)%Z then (Zpos m * 2 ^ e)%Z else (Zpos m `div` 2 ^ (- e))%Z in
      let z := if s then (- a)%Z else a in
      if decide (u64 z) then Some z else None
  | _ => None
  end.

(** [std::min(a, b)] *)
Definition dmin (a b : double) : double := if dltb b a then b else a.

Fixpoint fill_buckets (minimum width : double) (samples : list double) (counts : list nat)
    : exec (list nat) :=
  match samples with
  | [] => Ok counts
  | value :: samples =>
      match to_size (dmul (ddiv (dsub value minimum) width) (of_int kStatisticsBucketCount)) with
      | None => Err (Undefined "double to size_t conversion out of range")
      | Some bucket =>
          let bucket := Nat.min (Z.to_nat bucket) (bucket_count - 1) in
          fill_buckets minimum width samples (alter S bucket counts)
      end
  end.

(** The histogram of the numbers. *)
Definition make_histogram (r : ColumnRange) (samples : list double) : exec ColumnRange :=
  match samples with
  | [] => Ok r
  | first :: _ =>
      if range_numeric r then
        let minimum := fold_left dmin samples first in
        let maximum := fold_left dmax samples first in
        let* counts :=
          if deqb minimum maximum then Ok (<[0%nat := length samples]> (buckets r))
          else fill_buckets minimum (dsub maximum minimum) samples (buckets r) in
        Ok (mkRange (present r) (range_min r) (range_max r) (nonNullCount r) true (rawMoments r)
              counts minimum maximum (valueCountsExact r) (valueCounts r))
      else Ok r
  end.

(** The statistics of a column from the bytes of the rows. *)
Definition column_range (limit : Z) (column : nat) (rows : list bytes) : exec ColumnRange :=
  let* s := rfold (range_step limit column) rows (mkScan empty_range [] true) in
  let r := sc_range s in
  make_histogram
    (mkRange (present r) (range_min r) (range_max r) (nonNullCount r) (range_numeric r)
       (rawMoments r) (buckets r) (bucketMin r) (bucketMax r) (sc_exact s) (valueCounts r))
    (sc_samples s).

(** ** The cache of the engine *)

Section Planner.
Context {D F : Type} `{HeapFiles D F}.
Context (getenv : string → option string).

Record planner : Type := mkPlanner {
  engine_ : engine (D:=D);
  tableStatistics_ : gmap string TableStatistics;
}.

Definition on_engine {A} (m : action (engine (D:=D)) A) : action planner A :=
  zoom engine_ (λ e p, mkPlanner e (tableStatistics_ p)) m.

(** [tableStatistics_[table]], which is made when there is none. *)
Definition statistics_of (table : string) (p : planner) : TableStatistics :=
  default empty_statistics (tableStatistics_ p !! table).

Definition set_statistics (table : string) (s : TableStatistics) : action planner () :=
  modify (λ p, mkPlanner (engine_ p) (<[table := s]> (tableStatistics_ p))).

(** The rows of a table as bytes: [heap(table).scanRawRowsFast]. *)
Definition scan_raw (table : string) : action (engine (D:=D)) (list bytes) :=
  file ← lift (heap table);
  r ← on_heap file heap_scan_raw;
  mret r.1.*2.

Definition ensureColumnRange (table columnName : string) : action planner ColumnRange :=
  metadata ← on_engine (known_table table);
  cached ← gets (statistics_of table);
  _ ← set_statistics table cached;
  match columnRanges cached !! columnName with
  | Some range => mret range
  | None =>
      match column_position (named columnName) (t_columns metadata) with
      | None => raise (Throw ("Unknown statistics column: " +:+ columnName))
      | Some column =>
          rows ← on_engine (scan_raw table);
          range ← lift (column_range (exactValueCountLimit getenv) column rows);
          let cached :=
            if bool_decide (rowCount cached ≠ 0%nat) && bool_decide (rowCount cached ≠ length rows)
            then empty_statistics else cached in
          _ ← set_statistics table
            (mkStatistics (length rows) (distinctCounts cached)
               (<[columnName := range]> (columnRanges cached)));
          mret range
      end
  end.

(** The statement reaches the line that erases the statistics of its table. *)
Definition erases (s : data_stmt) (c : Catalog) : option string :=
  match s with
  | Create s => if hasTable c (c_table s) then None else Some (c_table s)
  | Drop s => if hasTable c (dr_table s) then Some (dr_table s) else None
  | Insert_ s => Some (i_table s)
  | Update_ s => Some (u_table s)
  | Delete_ s => Some (d_table s)
  end.

(** A data statement; one that throws keeps the statistics. *)
Definition execute_data (s : data_stmt) : action planner NativeQueryResult :=
  c ← gets (λ p, catalog_ (engine_ p));
  result ← on_engine (execute s);
  _ ← modify (λ p,
        match erases s c with
        | Some table => mkPlanner (engine_ p) (delete table (tableStatistics_ p))
        | None => p
        end);
  mret result.
End Planner.

(** ** What the scan computes *)

#[local] Close Scope string_scope.

Definition not_null (vs : list Value) : list Value := filter (λ v, isNull v = false) vs.

(** The value is counted once more. *)
Definition occurrences (v : Value) (vs : list Value) : nat :=
  length (filter (λ w, value_eqb v w = true) vs).

(** How often a hash map says [v] occurs. *)
Fixpoint counted (v : Value) (counts : list (Value * nat)) : nat :=
  match counts with
  | [] => 0%nat
  | (w, n) :: counts => if value_eqb w v then n else counted v counts
  end.

Lemma counted_count_value v w counts :
  counted w (count_value v counts)
  = (if value_eqb v w then S (counted w counts) else counted w counts).
Proof.
  induction counts as [|[u n] counts IH]; cbn; [done|].
  destruct (value_eqb u v) eqn:Huv; cbn.
  - destruct (value_eqb v w) eqn:Hvw.
    + by rewrite (value_eqb_trans u v w).
    + destruct (value_eqb u w) eqn:Huw; [|done].
      rewrite (value_eqb_trans v u w) in Hvw; [done|by rewrite value_eqb_comm|done].
  - rewrite IH. destruct (value_eqb u w) eqn:Huw; [|done].
    destruct (value_eqb v w) eqn:Hvw; [|done].
    rewrite (value_eqb_trans u w v) in Huv; [done|done|by rewrite value_eqb_comm].
Qed.

Section Scan.
Context (fam : family) (limit : Z) (column : nat).

(** The bytes of a row whose column has the value [v]. *)
Definition column_holds (data : bytes) (v : Value) : Prop :=
  ∃ f, decodeRawColumn data column = Ok f ∧ raw_wf f ∧ toValue f = v.

Definition numbers (vs : list Value) : list double :=
  omap (λ v, ok_value (asReal v)) vs.

(** The range after the values [vs] that are not null. *)
Record range_spec (vs : list Value) (r : ColumnRange) : Prop := {
  rs_present : present r = bool_decide (vs ≠ []);
  rs_bounds : vs ≠ [] →
    range_min r ∈ vs ∧ range_max r ∈ vs ∧
    ∀ v, v ∈ vs → compare (range_min r) v ≤ 0 ∧ compare v (range_max r) ≤ 0;
  rs_count : nonNullCount r = length vs;
  rs_numeric : range_numeric r = bool_decide (numbers vs ≠ []);
}.

Definition counts_spec (vs : list Value) (exact : bool) (r : ColumnRange) : Prop :=
  if exact then
    (∀ v, counted v (valueCounts r) = occurrences v vs) ∧
    Z.of_nat (length (valueCounts r)) ≤ Z.max 0 limit
  else valueCounts r = [].

Definition scan_spec (vs : list Value) (s : range_scan) : Prop :=
  range_spec vs (sc_range s) ∧ counts_spec vs (sc_exact s) (sc_range s) ∧
  sc_samples s = numbers vs ∧ buckets (sc_range s) = replicate bucket_count 0%nat.

Lemma numbers_app vs ws : numbers (vs ++ ws) = (numbers vs ++ numbers ws)%list.
Proof. apply omap_app. Qed.

Lemma occurrences_app v vs ws : occurrences v (vs ++ ws) = (occurrences v vs + occurrences v ws)%nat.
Proof. unfold occurrences. by rewrite filter_app, length_app. Qed.

Lemma range_add_bounds vs r v :
  well_ordered fam v → Forall (well_ordered fam) vs → range_spec vs r →
  let r' := add_bounds v r in
  present r' = true ∧ nonNullCount r' = length (vs ++ [v]) ∧
  range_min r' ∈ (vs ++ [v])%list ∧ range_max r' ∈ (vs ++ [v])%list ∧
  ∀ w, w ∈ (vs ++ [v])%list → compare (range_min r') w ≤ 0 ∧ compare w (range_max r') ≤ 0.
Proof.
  intros Hv Hvs [Hp Hb Hc _]. cbn. split; [done|]. split; [rewrite Hc, length_app; cbn; lia|].
  rewrite Hp. destruct vs as [|u vs].
  { cbn. split_and!; try apply list_elem_of_here. intros w ->%list_elem_of_singleton.
    rewrite (cmp_refl (P:=well_ordered fam)) by done. lia. }
  rewrite bool_decide_eq_true_2 by done. cbn [negb orb].
  destruct (Hb ltac:(done)) as (Hmin & Hmax & Hall). set (l := u :: vs) in *.
  rewrite Forall_forall in Hvs. pose proof (Hvs _ Hmin) as Hwmin. pose proof (Hvs _ Hmax) as Hwmax.
  assert (Hin : ∀ w, w ∈ (l ++ [v])%list → (w ∈ l ∧ well_ordered fam w) ∨ w = v).
  { intros w [Hw| ->%list_elem_of_singleton]%elem_of_app; [left|by right]. split; [done|by apply Hvs]. }
  split_and!.
  - destruct (_ <? _)%Z; apply elem_of_app; [right; apply list_elem_of_here|by left].
  - destruct (_ <? _)%Z; apply elem_of_app; [right; apply list_elem_of_here|by left].
  - intros w Hw. split.
    + destruct (Z.ltb_spec (compare v (range_min r)) 0) as [Hlt|Hge];
        destruct (Hin w Hw) as [[Hw' Hwo]|Hwv].
      * apply (cmp_le_trans (P:=well_ordered fam) v (range_min r)); try done; [lia|by apply Hall].
      * rewrite Hwv, (cmp_refl (P:=well_ordered fam)) by done. lia.
      * by apply Hall.
      * rewrite Hwv. apply (cmp_flip_le (P:=well_ordered fam)); [done..|lia].
    + destruct (Z.ltb_spec 0 (compare v (range_max r))) as [Hlt|Hge];
        destruct (Hin w Hw) as [[Hw' Hwo]|Hwv].
      * apply (cmp_le_trans (P:=well_ordered fam) w (range_max r)); try done; [by apply Hall|].
        apply (cmp_flip_le (P:=well_ordered fam)); [done..|lia].
      * rewrite Hwv, (cmp_refl (P:=well_ordered fam)) by done. lia.
      * by apply Hall.
      * rewrite Hwv. lia.
Qed.

Lemma counts_add vs s v :
  counts_spec vs (sc_exact s) (sc_range s) →
  let s' := add_count limit v s in
  counts_spec (vs ++ [v]) (sc_exact s') (sc_range s') ∧ sc_samples s' = sc_samples s ∧
  ∀ ws, range_spec ws (sc_range s) → range_spec ws (sc_range s') .
Proof.
  intros Hc. unfold add_count. destruct (sc_exact s) eqn:He; [|by rewrite He].
  cbn in Hc |- *. destruct Hc as [Hc Hlen].
  split; [|split; [done|intros ws []; by split]].
  case_bool_decide as Hfull; cbn; [done|]. split; [|lia].
  intros w. rewrite counted_count_value, Hc, occurrences_app. unfold occurrences at 4.
  rewrite filter_cons. rewrite (value_eqb_comm v w).
  destruct (value_eqb w v) eqn:Hwv.
  - rewrite decide_True by done. cbn. lia.
  - rewrite decide_False by congruence. cbn. lia.
Qed.

Lemma scan_step vs s data v :
  column_holds data v → well_ordered fam v → Forall (well_ordered fam) vs → scan_spec vs s →
  ∃ s', range_step limit column s data = Ok s' ∧
    scan_spec (if isNull v then vs else vs ++ [v])%list s'.
Proof.
  intros (f & Hf & Hwf & Hv) Hwo Hvs (Hr & Hc & Hs & Hb). unfold range_step. rewrite Hf. cbn [rbind].
  assert (Hnull : rf_isNull f = isNull v).
  { rewrite <- Hv. unfold raw_wf in Hwf. unfold toValue, isNull. rewrite Hwf.
    by destruct (rf_type f). }
  rewrite Hnull. destruct (isNull v) eqn:Hn; [by exists s|]. rewrite Hv.
  destruct (counts_add vs s v Hc) as (Hc' & Hs' & Hr'). specialize (Hr' vs Hr).
  assert (Hb' : buckets (sc_range (add_count limit v s)) = replicate bucket_count 0%nat).
  { unfold add_count. by destruct (sc_exact s). }
  set (s1 := add_count limit v s) in *.
  destruct (range_add_bounds vs (sc_range s1) v Hwo Hvs Hr') as (Hp & Hcnt & Hmin & Hmax & Hall).
  assert (Hne : (vs ++ [v])%list ≠ []) by (by destruct vs).
  rewrite raw_numeric_spec, Hv by done. pose proof (rs_numeric _ _ Hr') as Hnum.
  assert (Hreal : isNumeric v = true → ∃ d, asReal v = Ok d ∧ raw_asReal f = Ok d).
  { rewrite <- Hv. unfold toValue, raw_asReal. destruct (rf_isNull f); [done|].
    by destruct (rf_type f); cbn; eauto. }
  destruct (isNumeric v) eqn:Hisn.
  - destruct (Hreal eq_refl) as (d & Hd & ->). cbn [rbind]. eexists. split; [done|].
    assert (Hnums : numbers (vs ++ [v]) = (numbers vs ++ [d])%list).
    { rewrite numbers_app. unfold numbers at 2. cbn. by rewrite Hd. }
    split; [|split; [|split]]; cbn; try done.
    + split; cbn; try done; [by rewrite bool_decide_eq_true_2|].
      rewrite Hnums, bool_decide_eq_true_2; [done|]. by destruct (numbers vs).
    + by rewrite Hs', Hs, Hnums.
  - eexists. split; [done|].
    assert (Hnums : numbers (vs ++ [v]) = numbers vs).
    { rewrite numbers_app. unfold numbers at 2. cbn.
      destruct v; try done; cbn; by rewrite app_nil_r. }
    split; [|split; [|split]]; cbn; try done.
    + split; cbn; try done; [by rewrite bool_decide_eq_true_2|]. by rewrite Hnums.
    + by rewrite Hs', Hs, Hnums.
Qed.

Lemma scan_rows rows vs s ws :
  Forall2 column_holds rows vs → Forall (well_ordered fam) vs → Forall (well_ordered fam) ws →
  scan_spec ws s →
  ∃ s', rfold (range_step limit column) rows s = Ok s' ∧ scan_spec (ws ++ not_null vs) s'.
Proof.
  intros Hrows. revert s ws. induction Hrows as [|data v rows vs Hd _ IH]; intros s ws Hvs Hws Hs.
  { exists s. unfold not_null. cbn. by rewrite app_nil_r. }
  apply Forall_cons in Hvs as [Hv Hvs]. cbn [rfold].
  destruct (scan_step ws s data v Hd Hv Hws Hs) as (s1 & -> & Hs1). cbn [rbind].
  unfold not_null. rewrite filter_cons. destruct (isNull v) eqn:Hn.
  - rewrite decide_False by done. by apply IH.
  - rewrite decide_True by done. destruct (IH s1 (ws ++ [v]) Hvs) as (s' & Hrun & Hs').
    + apply Forall_app. by repeat constructor.
    + done.
    + exists s'. split; [done|]. by rewrite <- app_assoc in Hs'.
Qed.

Lemma empty_scan_spec : scan_spec [] (mkScan empty_range [] true).
Proof.
  split; [|split; [|done]]; [split; done|]. split; [done|]. cbn. lia.
Qed.

Lemma sum_list_alter (l : list nat) i : (i < length l)%nat → sum_list (alter S i l) = S (sum_list l).
Proof.
  revert i. induction l as [|x l IH]; intros i Hi; cbn in Hi; [lia|].
  destruct i as [|i]; [done|].
  change (alter S (S i) (x :: l)) with (x :: alter S i l). cbn. rewrite IH by lia. lia.
Qed.

Lemma fill_buckets_sum minimum width samples counts :
  length counts = bucket_count →
  match fill_buckets minimum width samples counts with
  | Ok counts' => sum_list counts' = (sum_list counts + length samples)%nat
  | Err e => e = Undefined "double to size_t conversion out of range"
  end.
Proof.
  revert counts. induction samples as [|x samples IH]; intros counts Hlen; cbn [fill_buckets].
  { cbn. lia. }
  destruct (to_size _) as [bucket|]; [|done].
  set (i := Nat.min _ _). assert (Hi : (i < length counts)%nat).
  { rewrite Hlen. unfold i, bucket_count, kStatisticsBucketCount. lia. }
  specialize (IH (alter S i counts)). rewrite length_alter in IH. specialize (IH Hlen).
  destruct (fill_buckets _ _ _ _); [|done]. rewrite IH, sum_list_alter by done. cbn. lia.
Qed.

Lemma fold_pick {A} (f : A → A → A) l x :
  (∀ a b, f a b = a ∨ f a b = b) → fold_left f l x = x ∨ fold_left f l x ∈ l.
Proof.
  intros Hf. revert x. induction l as [|y l IH]; intros x; cbn; [by left|].
  destruct (IH (f x y)) as [->|Hin]; [|by right; apply list_elem_of_further].
  destruct (Hf x y) as [->| ->]; [by left|right; apply list_elem_of_here].
Qed.

Lemma fold_pick_head {A} (f : A → A → A) l x :
  (∀ a b, f a b = a ∨ f a b = b) → x ∈ l → fold_left f l x ∈ l.
Proof. intros Hf Hx. by destruct (fold_pick f l x Hf) as [->|]. Qed.

Lemma dmin_pick a b : dmin a b = a ∨ dmin a b = b.
Proof. unfold dmin. destruct (dltb b a); auto. Qed.
Lemma dmax_pick a b : dmax a b = a ∨ dmax a b = b.
Proof. unfold dmax. destruct (dltb a b); auto. Qed.

(** What the statistics say of a column that holds [vs]. *)
Definition exact_statistics (vs : list Value) (r : ColumnRange) : Prop :=
  range_spec (not_null vs) r ∧ sum_list (buckets r) = length (numbers (not_null vs)) ∧
  if valueCountsExact r
  then ∀ v, counted v (valueCounts r) = occurrences v (not_null vs)
  else valueCounts r = [].

Lemma make_histogram_ok ws r samples :
  range_spec ws r → samples = numbers ws → buckets r = replicate bucket_count 0%nat →
  (∃ r', make_histogram r samples = Ok r' ∧ range_spec ws r' ∧
     sum_list (buckets r') = length (numbers ws) ∧ valueCountsExact r' = valueCountsExact r ∧
     valueCounts r' = valueCounts r) ∨
  (make_histogram r samples = Err (Undefined "double to size_t conversion out of range") ∧
   ∃ x y, x ∈ numbers ws ∧ y ∈ numbers ws ∧ deqb x y = false).
Proof.
  intros Hr -> Hb. unfold make_histogram. pose proof (rs_numeric _ _ Hr) as Hnum.
  destruct (numbers ws) as [|first rest] eqn:Hws.
  { left. exists r. split_and!; try done. by rewrite Hb. }
  rewrite Hnum, bool_decide_eq_true_2 by done. set (samples := first :: rest) in *.
  assert (Hfirst : first ∈ samples) by apply list_elem_of_here.
  pose proof (fold_pick_head dmin samples first dmin_pick Hfirst) as Hmin.
  pose proof (fold_pick_head dmax samples first dmax_pick Hfirst) as Hmax.
  assert (Hspec : ∀ counts lo hi, range_spec ws (mkRange (present r) (range_min r) (range_max r)
    (nonNullCount r) true (rawMoments r) counts lo hi (valueCountsExact r) (valueCounts r))).
  { intros counts lo hi. destruct Hr. split; cbn; try done.
    by rewrite Hws, bool_decide_eq_true_2. }
  destruct (deqb (fold_left dmin samples first) (fold_left dmax samples first)) eqn:Heq; cbn [rbind].
  - left. eexists. split; [done|]. split; [done|]. split; [|done]. cbn [buckets].
    rewrite Hb. unfold samples. change bucket_count with 16%nat. cbn. lia.
  - pose proof (fill_buckets_sum (fold_left dmin samples first)
      (dsub (fold_left dmax samples first) (fold_left dmin samples first)) samples (buckets r)) as Hfill.
    rewrite Hb in *. specialize (Hfill ltac:(by rewrite length_replicate)).
    destruct (fill_buckets _ _ _ _) as [counts|e]; cbn [rbind].
    + left. eexists. split; [done|]. split; [done|]. split; [|done]. exact Hfill.
    + right. split; [by rewrite Hfill|]. eauto.
Qed.

Lemma column_range_ok rows vs :
  Forall2 column_holds rows vs → Forall (well_ordered fam) vs →
  (∃ r, column_range limit column rows = Ok r ∧ exact_statistics vs r) ∨
  (column_range limit column rows = Err (Undefined "double to size_t conversion out of range") ∧
   ∃ x y, x ∈ numbers (not_null vs) ∧ y ∈ numbers (not_null vs) ∧ deqb x y = false).
Proof.
  intros Hrows Hvs. unfold column_range.
  destruct (scan_rows rows vs _ [] Hrows Hvs ltac:(done) empty_scan_spec)
    as (s & -> & Hr & Hc & Hs & Hb). cbn [rbind app] in *.
  edestruct (make_histogram_ok (not_null vs)) as [(r & -> & Hr' & Hsum & Hex & Hcnt)|[-> Hxy]];
    [|exact Hs| | |by right].
  - destruct Hr. split; eassumption.
  - exact Hb.
  - left. exists r. split; [done|]. split; [done|]. split; [done|]. rewrite Hex, Hcnt. cbn.
    unfold counts_spec in Hc. destruct (sc_exact s); [apply Hc|done].
Qed.
End Scan.
