(* ===== verification/Ranges.v ===== *)
(** The statistics of [Stats.v] in a running engine: whatever data statements
    run and whatever statistics are asked for in between, what the cache says of
    a column is what a scan of the rows of the moment would say. *)

From S2P Require Import Prelude.
From S2P Require Import Double.
From S2P Require Import Config.
From S2P Require Import Value.
From S2P Require Import Tuple.
From S2P Require Import Ast.
From S2P Require Import Catalog.
From S2P Require Import Eval.
From S2P Require Import Select.
From S2P Require Import Raw.
From S2P Require Import BTree.
From S2P Require Import Storage.
From S2P Require Import Heap.
From S2P Require Import HeapSpec.
From S2P Require Import Store.
From S2P Require Import Engine.
From S2P Require Import Constraints.
From S2P Require Import Integrity.
From S2P Require Import Statements.
From S2P Require Import Stats.

(** The values of a column. *)
Definition column_values (position : nat) (rs : rows) : list Value :=
  omap (λ x : RowId * Tuple, x.2 !! position) rs.

(** The statistics are exact when the values can be ordered. *)
Definition statistics_of_values (vs : list Value) (r : ColumnRange) : Prop :=
  ∀ fam, Forall (well_ordered fam) vs → exact_statistics vs r.

Definition table_of (s : data_stmt) : string :=
  match s with
  | Create s => c_table s
  | Drop s => dr_table s
  | Insert_ s => i_table s
  | Update_ s => u_table s
  | Delete_ s => d_table s
  end.

(** A statement changes the table it names and no other. *)
Lemma effect_other c M s res c' M' n :
  effect c M s res c' M' → n ≠ table_of s → tables c' !! n = tables c !! n ∧ M' !! n = M !! n.
Proof.
  destruct 1; cbn; intros Hne; rewrite ?lookup_insert_ne, ?lookup_delete_ne by done; try done.
  rewrite tables_removeTable, lookup_delete_ne by done. done.
Qed.

Lemma effect_kept c M s res c' M' :
  effect c M s res c' M' → erases s c = None → c' = c ∧ M' = M.
Proof.
  destruct 1 as [s Hhas Hif|s columns Hhas| s Hhas Hif|s Hhas| | |]; cbn; rewrite ?Hhas; done.
Qed.

Lemma erases_table s c n : erases s c = Some n → n = table_of s.
Proof. destruct s; cbn; try case_match; congruence. Qed.

Section planner.
Context {D F : Type} `{HeapFilesLaws D F}.
Context (getenv : string → option string).

(** Every range in the cache is that of a column of the rows [M]. *)
Definition ranges_ok (c : Catalog) (M : gmap string rows) (stats : gmap string TableStatistics) : Prop :=
  ∀ n st name r, stats !! n = Some st → columnRanges st !! name = Some r →
    ∃ t rs position, tables c !! n = Some t ∧ M !! n = Some rs ∧
      column_position (named name) (t_columns t) = Some position ∧
      statistics_of_values (column_values position rs) r.

Definition planner_ok (c : Catalog) (M : gmap string rows) (p : planner (D:=D)) : Prop :=
  holds_database c M (engine_ p) ∧ ranges_ok c M (tableStatistics_ p).

(** *** The raw scan *)

Lemma scan_raw_run c M e n t rs :
  holds_database c M e → tables c !! n = Some t → M !! n = Some rs →
  ∃ raw e', scan_raw n e = (Ok raw.*2, e') ∧ Forall2 raw_holds raw rs ∧ holds_database c M e'.
Proof.
  intros [(Hc & Hst & Hidx) Hdb] Ht Hrs. pose proof (do_tables _ _ Hdb n t Ht) as Htab.
  unfold scan_raw. rewrite (heap_known n (to_safe _ _ _ Htab)).
  destruct (scan_raw_law M n rs (open_heap n) (storage_ e) Hst Hrs)
    as (raw & h' & s' & Hscan & Hraw & Hst' & _); [by eapply open_law|].
  unfold mbind, action_bind, lift, on_heap. rewrite Hscan. cbn [rbind mret action_ret].
  eexists _, _. split; [reflexivity|]. split; [done|]. by split.
Qed.

Lemma raw_column_holds t raw (rs : rows) position :
  Forall2 raw_holds raw rs → (∀ x, x ∈ rs → row_ok t x.2) →
  (position < length (t_columns t))%nat →
  Forall2 (column_holds position) raw.*2 (column_values position rs).
Proof.
  intros Hraw Hrows Hpos. induction Hraw as [|[r bs] [r' tuple] raw rs [_ Hdec] _ IH]; [constructor|].
  assert (Hlen : length tuple = length (t_columns t)).
  { symmetry. eapply Forall2_length, (Hrows (r', tuple)), list_elem_of_here. }
  destruct (lookup_lt_is_Some_2 tuple position) as [v Hv]; [lia|].
  unfold column_values. cbn. rewrite Hv. constructor.
  - destruct (raw_column_of_row bs tuple position v Hdec Hv) as (f & Hf & Hwf & Hfv). by exists f.
  - apply IH. intros x Hx. by apply Hrows, list_elem_of_further.
Qed.

Lemma column_position_lt p cols i : column_position p cols = Some i → (i < length cols)%nat.
Proof.
  intros Hp. apply column_position_Some in Hp as (col & Hcol & _). by eapply lookup_lt_Some.
Qed.

Lemma column_range_statistics limit position rows vs r :
  Forall2 (column_holds position) rows vs → column_range limit position rows = Ok r →
  statistics_of_values vs r.
Proof.
  intros Hrows Hr fam Hwo.
  destruct (column_range_ok fam limit position rows vs Hrows Hwo) as [(r' & Hr' & Hex)|[Hr' _]];
    congruence.
Qed.

Lemma ranges_ok_insert c M stats n st :
  ranges_ok c M stats →
  (∀ name r, columnRanges st !! name = Some r →
    ∃ t rs position, tables c !! n = Some t ∧ M !! n = Some rs ∧
      column_position (named name) (t_columns t) = Some position ∧
      statistics_of_values (column_values position rs) r) →
  ranges_ok c M (<[n := st]> stats).
Proof.
  intros Hs Hst m st' name r. destruct (decide (m = n)) as [->|Hne].
  - rewrite lookup_insert_eq. intros [= <-]. apply Hst.
  - rewrite lookup_insert_ne by done. apply Hs.
Qed.

Lemma ranges_ok_default c M p n name r :
  planner_ok c M p → columnRanges (statistics_of n p) !! name = Some r →
  ∃ t rs position, tables c !! n = Some t ∧ M !! n = Some rs ∧
    column_position (named name) (t_columns t) = Some position ∧
    statistics_of_values (column_values position rs) r.
Proof.
  intros [_ Hs]. unfold statistics_of. destruct (tableStatistics_ p !! n) as [st|] eqn:Hst; cbn.
  - by apply Hs.
  - by rewrite lookup_empty.
Qed.

(** What is asked of the cache and what it answers. *)
Definition answers (c : Catalog) (M : gmap string rows) (n name : string) (r : exec ColumnRange)
    : Prop :=
  ∀ t rs position fam, tables c !! n = Some t → M !! n = Some rs →
    column_position (named name) (t_columns t) = Some position →
    Forall (well_ordered fam) (column_values position rs) →
    let vs := column_values position rs in
    (∃ range, r = Ok range ∧ exact_statistics vs range) ∨
    (r = Err (Undefined "double to size_t conversion out of range") ∧
     ∃ x y, x ∈ numbers (not_null vs) ∧ y ∈ numbers (not_null vs) ∧ deqb x y = false).

Lemma ensureColumnRange_ok c M p n name :
  planner_ok c M p →
  ∃ r p', ensureColumnRange getenv n name p = (r, p') ∧ planner_ok c M p' ∧ answers c M n name r.
Proof.
  intros Hp. pose proof Hp as [He Hstats]. unfold ensureColumnRange, mbind, action_bind.
  unfold on_engine at 1, zoom. rewrite (known_table_run c M (engine_ p) n (proj1 He)).
  destruct (tables c !! n) as [t|] eqn:Ht.
  2:{ eexists _, _. split; [reflexivity|]. split; [by split|]. intros t rs position fam. congruence. }
  destruct (proj2 (do_dom _ _ (proj2 He) n)) as [rs Hrs]; [eauto|].
  cbn -[statistics_of]. destruct p as [e stats]. cbn -[statistics_of] in *.
  set (cached := statistics_of n (mkPlanner e stats)).
  assert (Hcached : ∀ name r, columnRanges cached !! name = Some r →
    ∃ t rs position, tables c !! n = Some t ∧ M !! n = Some rs ∧
      column_position (named name) (t_columns t) = Some position ∧
      statistics_of_values (column_values position rs) r).
  { intros name' r. by apply ranges_ok_default. }
  pose proof (ranges_ok_insert c M stats n cached Hstats Hcached) as Hstats1.
  destruct (columnRanges cached !! name) as [range|] eqn:Hrange.
  { eexists _, _. split; [reflexivity|]. split; [by split|].
    intros t' rs' position fam Ht' Hrs' Hpos Hwo. left. exists range. split; [done|].
    destruct (Hcached name range Hrange) as (t2 & rs2 & pos2 & Ht2 & Hrs2 & Hpos2 & Hex).
    simplify_eq. by apply (Hex fam). }
  destruct (column_position (named name) (t_columns t)) as [position|] eqn:Hpos.
  2:{ eexists _, _. split; [reflexivity|]. split; [by split|]. intros t' rs' position fam. congruence. }
  unfold on_engine, zoom. cbn [engine_].
  destruct (scan_raw_run c M e n t rs He Ht Hrs) as (raw & e1 & -> & Hraw & He1). cbn.
  pose proof (raw_column_holds t raw rs position Hraw
    (co_rows _ _ _ _ (do_contents _ _ (proj2 He) n t rs Ht Hrs))
    (column_position_lt _ _ _ Hpos)) as Hholds.
  destruct (column_range _ position raw.*2) as [range|f] eqn:Hr.
  - eexists _, _. split; [reflexivity|]. split.
    + split; [done|]. apply ranges_ok_insert; [done|]. cbn. intros name' r'.
      destruct (decide (name' = name)) as [->|Hne].
      * rewrite lookup_insert_eq. intros [= <-]. exists t, rs, position. split_and!; try done.
        by eapply column_range_statistics.
      * rewrite lookup_insert_ne by done. case_match; [cbn; by rewrite lookup_empty|apply Hcached].
    + intros t' rs' position' fam Ht' Hrs' Hpos' Hwo. simplify_eq. left. exists range. split; [done|].
      by apply (column_range_statistics _ _ _ _ _ Hholds Hr fam).
  - eexists _, _. split; [reflexivity|]. split; [by split|].
    intros t' rs' position' fam Ht' Hrs' Hpos' Hwo. simplify_eq. right.
    destruct (column_range_ok fam (exactValueCountLimit getenv) position _ _ Hholds Hwo) as [(r' & Hr' & _)|[Hr' Hxy]]; [congruence|].
    split; [congruence|done].
Qed.

Lemma execute_data_ok c M p s :
  planner_ok c M p → stmt_ok s →
  ∃ r p' c' M', execute_data s p = (r, p') ∧ planner_ok c' M' p' ∧
    match r with Ok res => effect c M s res c' M' | Err _ => c' = c ∧ M' = M end.
Proof.
  intros [He Hstats] Hs. destruct p as [e stats]. cbn [engine_ tableStatistics_] in *.
  destruct (execute_effect c M s e He Hs) as (r & e' & Hrun & Hr).
  unfold execute_data, mbind, action_bind, gets, on_engine, zoom. cbn [engine_]. rewrite Hrun.
  destruct r as [res|f]; [|by eexists _, _, c, M].
  destruct Hr as (c' & M' & Heff & He'). eexists _, _, c', M'. split; [reflexivity|].
  split; [|done]. rewrite (proj1 (proj1 He)).
  destruct (erases s c) as [n|] eqn:Hn.
  - split; [done|]. apply erases_table in Hn as ->. cbn. intros m st name range Hm Hrange.
    apply lookup_delete_Some in Hm as [Hne Hm].
    destruct (Hstats m st name range Hm Hrange) as (t & rs & position & Ht & Hrs & Hpos & Hex).
    destruct (effect_other c M s res c' M' m Heff) as [Ht' HM']; [done|].
    exists t, rs, position. by rewrite Ht', HM'.
  - destruct (effect_kept _ _ _ _ _ _ Heff Hn) as [-> ->]. by split.
Qed.
End planner.

(** * From an empty database *)

(** A data statement, or a question about a column. *)
Inductive planner_op : Type :=
  | Statement (s : data_stmt)
  | Statistics (table column : string).

Definition op_ok (o : planner_op) : Prop :=
  match o with Statement s => stmt_ok s | Statistics _ _ => True end.

Section database.
Context (getenv : string → option string).
Context (batchRows capacity : nat) (Hbatch : (0 < batchRows)%nat).

Abbreviation Planner := (planner (D:=storage)).

#[local] Instance files : HeapFiles storage HeapFile := heap_files batchRows.
#[local] Instance laws : HeapFilesLaws storage HeapFile := heap_files_laws batchRows Hbatch.

Definition planner_start : Planner := mkPlanner (start capacity) ∅.

Definition planner_do (o : planner_op) (p : Planner) : Planner :=
  match o with
  | Statement s => (execute_data (H:=heap_files batchRows) s p).2
  | Statistics n name => (ensureColumnRange (H:=heap_files batchRows) getenv n name p).2
  end.

Definition planner_after (ops : list planner_op) : Planner :=
  fold_left (λ p o, planner_do o p) ops planner_start.

Lemma planner_after_ok ops :
  Forall op_ok ops → ∃ c M, planner_ok c M (planner_after ops).
Proof.
  intros Hops. unfold planner_after.
  assert (Hstart : ∃ c M, planner_ok c M planner_start).
  { exists emptyCatalog, ∅. split; [by apply (start_holds batchRows capacity Hbatch)|].
    intros n st name r Hn. cbn in Hn. by rewrite lookup_empty in Hn. }
  revert Hstart. generalize planner_start as p.
  induction Hops as [|o ops Ho _ IH]; intros p (c & M & Hp); [by exists c, M|]. cbn. apply IH.
  destruct o as [s|n name]; cbn [planner_do op_ok] in *.
  - destruct (execute_data_ok c M p s Hp Ho) as (r & p' & c' & M' & Hrun & Hp' & _).
    change (execute_data (H:=files) s p) with (execute_data (H:=heap_files batchRows) s p) in Hrun.
    rewrite Hrun. by exists c', M'.
  - destruct (ensureColumnRange_ok getenv c M p n name Hp) as (r & p' & Hrun & Hp' & _).
    change (ensureColumnRange (H:=files) getenv n name p)
      with (ensureColumnRange (H:=heap_files batchRows) getenv n name p) in Hrun.
    rewrite Hrun. by exists c, M.
Qed.
End database.


(** The statistics of [users.id], asked for before and after the inserts. *)
Definition demo_ops : list planner_op :=
  (Statement <$> demo_tables) ++ [Statistics "users" "id"; Statement demo_bad_insert].

Lemma demo_ops_ok : Forall op_ok demo_ops.
Proof.
  apply Forall_app. split.
  - apply Forall_fmap, (Forall_impl stmt_ok); [exact demo_tables_ok|done].
  - constructor; [done|]. constructor; [exact demo_bad_insert_ok|constructor].
Qed.

Definition demo_users : TableMeta :=
  mkTableMeta "users" [mkColumnMeta "id" "INT" true true "" "";
                       mkColumnMeta "name" "TEXT" false true "" ""].

Definition demo_planner : planner (D:=storage) := planner_after (λ _, None) 1 2 demo_ops.

Lemma demo_users_known : getTable (catalog_ (engine_ demo_planner)) "users" = Some demo_users.
Proof. vm_compute. reflexivity. Qed.


(** Two numbers whose difference overflows: the histogram is undefined. *)
Example histogram_overflow :
  let huge := 9218868437227405311 in
  make_histogram
    (mkRange true (VReal huge) (VReal huge) 2 true [] (replicate bucket_count 0%nat) dzero dzero true [])
    [huge; dopp huge] = Err (Undefined "double to size_t conversion out of range").
Proof. vm_compute. reflexivity. Qed.

Example demo_statistics :
  (let* r := (ensureColumnRange (H:=heap_files 1) (λ _, None) "users" "id" demo_planner).1 in
   Ok (range_min r, range_max r, nonNullCount r, buckets r, valueCounts r))
  = Ok (VInteger 1, VInteger 2, 2%nat, [1; 0; 0; 0; 0; 0; 0; 0; 0; 0; 0; 0; 0; 0; 0; 1]%nat,
        [(VInteger 1, 1%nat); (VInteger 2, 1%nat)]).
Proof. vm_compute. reflexivity. Qed.
