(* ===== verification/Direct.v ===== *)
(** Aggregates computed from the bytes of the rows
    ([src/native_aggregates.cpp]): [executeDirectAggregateSelect] plans a
    statement over the columns of one table, lets the column statistics prove
    that no row passes or count the rows that do, and else folds the raw rows
    into a scalar group, a hash map of groups, or an array of groups indexed by a
    small range of integers.  The counters are not modelled. *)

From S2P Require Import Prelude.
From S2P Require Import Double.
From S2P Require Import Config.
From S2P Require Import Value.
From S2P Require Import Tuple.
From S2P Require Import Raw.
From S2P Require Import Ast.
From S2P Require Import Catalog.
From S2P Require Import Eval.
From S2P Require Import Select.
From S2P Require Import Store.
From S2P Require Import Engine.
From S2P Require Import Stats.
From S2P Require Import Vector.

#[local] Open Scope string_scope.

(** [return std::nullopt] on the way to a plan. *)
#[local] Notation "'let?' p ':=' m 'in' k" :=
  (rbind m (λ o, match o with Some p => k | None => Ok None end))
  (at level 10, p pattern, m at level 100, k at level 200).

(** ** The plan *)

Section Plan.
Context (s : Select_) (metadata : TableMeta).

Fixpoint column_index (table column : string) (columns : list ColumnMeta) (index : nat)
    (result : option nat) : exec (option nat) :=
  match columns with
  | [] => Ok result
  | candidate :: columns =>
      if negb (bool_decide (cm_name candidate = column)) then
        column_index table column columns (S index) result
      else if bool_decide (is_Some result) && (table =? "") then
        Err (Throw ("Ambiguous column: " +:+ column))
      else column_index table column columns (S index) (Some index)
  end.

Definition resolveColumnIndex (table column : string) : exec nat :=
  if negb (table =? "") && negb (table =? s_fromTable s) && negb (table =? s_fromAlias s) then
    Err (Throw ("Unknown table qualifier: " +:+ table))
  else
    let* result := column_index table column (t_columns metadata) 0 None in
    match result with
    | Some index => Ok index
    | None =>
        Err (Throw ("Unknown column: " +:+ (if table =? "" then "" else table +:+ ".") +:+ column))
    end.

Record PredicatePlan : Type := mkPredicate {
  pp_column : nat;
  pp_op : string;
  pp_literal : Value;
  pp_columnOnLeft : bool;
}.

(** A condition that compares a column with a literal, or none. *)
Definition direct_predicate : exec (option (option PredicatePlan)) :=
  match s_where s with
  | None => Ok (Some None)
  | Some (BinaryOp op l r _ _) =>
      if negb (comparison_op op) then Ok None
      else
        match column_and_literal l r with
        | Some (columnOnLeft, (table, column), literal) =>
            let* index := resolveColumnIndex table column in
            Ok (Some (Some (mkPredicate index op literal columnOnLeft)))
        | None => Ok None
        end
  | Some _ => Ok None
  end.

Inductive AggregateKind : Type := Count | Sum | Average | Max | Min | LoneWolf.

Inductive ProjectionPlan : Type :=
  | RepresentativeColumn (column : nat)
  | AggregatePlan (kind : AggregateKind) (argumentColumn : option nat).

Definition aggregate_kind (name : string) : option AggregateKind :=
  if name =? "headcount" then Some Count
  else if name =? "stack" then Some Sum
  else if name =? "mid" then Some Average
  else if name =? "goat" then Some Max
  else if name =? "L" then Some Min
  else if isLoneWolfName name then Some LoneWolf
  else None.

Fixpoint direct_groups (groupBy : list Node) : exec (option (list nat)) :=
  match groupBy with
  | [] => Ok (Some [])
  | ColumnRef table column _ _ :: groupBy =>
      let* index := resolveColumnIndex table column in
      let? groups := direct_groups groupBy in
      Ok (Some (index :: groups))
  | _ :: _ => Ok None
  end.

Definition direct_projection (groupColumns : list nat) (expression : Node)
    : exec (option ProjectionPlan) :=
  match expression with
  | FunctionCall name args distinct _ _ =>
      if distinct then Ok None
      else
        match aggregate_kind name with
        | None => Ok None
        | Some kind =>
            if counts_rows name args then Ok (Some (AggregatePlan kind None))
            else
              match args with
              | [ColumnRef table column _ _] =>
                  let* index := resolveColumnIndex table column in
                  Ok (Some (AggregatePlan kind (Some index)))
              | _ => Ok None
              end
        end
  | ColumnRef table column _ _ =>
      let* index := resolveColumnIndex table column in
      if bool_decide (index ∈ groupColumns) then Ok (Some (RepresentativeColumn index)) else Ok None
  | _ => Ok None
  end.

Fixpoint direct_projections (groupColumns : list nat) (columns : list Node)
    : exec (option (list ProjectionPlan)) :=
  match columns with
  | [] => Ok (Some [])
  | expression :: columns =>
      let? projection := direct_projection groupColumns expression in
      let? projections := direct_projections groupColumns columns in
      Ok (Some (projection :: projections))
  end.

Record DirectPlan : Type := mkDirectPlan {
  dp_predicate : option PredicatePlan;
  dp_groups : list nat;
  dp_projections : list ProjectionPlan;
}.

Definition is_aggregate (p : ProjectionPlan) : bool :=
  match p with AggregatePlan _ _ => true | RepresentativeColumn _ => false end.

Definition direct_plan : exec (option DirectPlan) :=
  let? predicate := direct_predicate in
  let? groups := direct_groups (s_groupBy s) in
  let? projections := direct_projections groups (s_columns s) in
  if existsb is_aggregate projections then Ok (Some (mkDirectPlan predicate groups projections))
  else Ok None.
End Plan.

(** The statement may have a plan. *)
Definition direct_candidate (s : Select_) : bool :=
  is_nil (s_joins s) && negb (s_distinct s) && none (s_having s) && is_nil (s_orderBy s) &&
  none (s_limit s) && none (s_offset s) && selectHasAggregate s.

Definition projection_column (p : ProjectionPlan) : option nat :=
  match p with
  | RepresentativeColumn column => Some column
  | AggregatePlan _ argumentColumn => argumentColumn
  end.

(** The columns the plan decodes. *)
Definition plan_required (plan : DirectPlan) : list nat :=
  fold_left (λ set column, set_insert column set)
    (option_list (pp_column <$> dp_predicate plan) ++ dp_groups plan ++
     omap projection_column (dp_projections plan))%list [].

(** ** Rows and groups

    [AggregateState] has the members of [StreamAggregateState]. *)

(** [fieldPositions] *)
Fixpoint field_position (column : nat) (required : list nat) (position : nat) : option nat :=
  match required with
  | [] => None
  | c :: required =>
      if (c =? column)%nat then Some position else field_position column required (S position)
  end.

Definition fieldAt (required : list nat) (fields : list RawField) (column : nat) : exec RawField :=
  match field_position column required 0 ≫= λ position, fields !! position with
  | Some field => Ok field
  | None => Err (Throw "Direct aggregate column was not decoded")
  end.

(** The comparison of a field with the literal of the plan. *)
Definition field_matches (plan : PredicatePlan) (field : RawField) : exec bool :=
  if rf_isNull field || isNull (pp_literal plan) then Ok false
  else
    let* order := compareRawToValue field (pp_literal plan) in
    comparisonMatches (pp_op plan) (if pp_columnOnLeft plan then order else (- order)%Z).

Definition predicateMatches (predicate : option PredicatePlan) (required : list nat)
    (fields : list RawField) : exec bool :=
  match predicate with
  | None => Ok true
  | Some plan => let* field := fieldAt required fields (pp_column plan) in field_matches plan field
  end.

(** A field enters an aggregate. *)
Definition enter_field (kind : AggregateKind) (field : RawField) (state : StreamAggregateState)
    : exec StreamAggregateState :=
  let '(mkStreamState count sum allIntegers ext samples) := state in
  if rf_isNull field then Ok state
  else
    match kind with
    | Count => Ok (mkStreamState (count + 1) sum allIntegers ext samples)
    | Sum | Average | LoneWolf =>
        if negb (raw_numeric field) then Err (Throw "Numeric aggregate on non-number")
        else
          let* numeric := raw_asReal field in
          Ok (mkStreamState (count + 1) (dadd sum numeric)
                (allIntegers && bool_decide (rf_type field = Integer)) ext
                (match kind with LoneWolf => samples ++ [numeric] | _ => samples end)%list)
    | Max | Min =>
        let value := toValue field in
        let better comparison :=
          match kind with Max => (0 <? comparison)%Z | _ => (comparison <? 0)%Z end in
        let ext := match ext with
                   | None => value
                   | Some best => if better (compare value best) then value else best
                   end in
        Ok (mkStreamState (count + 1) sum allIntegers (Some ext) samples)
    end.

Definition count_row (state : StreamAggregateState) : StreamAggregateState :=
  mkStreamState (sa_count state + 1) (sa_sum state) (sa_allIntegers state) (sa_extremum state)
    (sa_samples state).

(** A row enters a projected column of its group. *)
Definition direct_cell (required : list nat) (fields : list RawField) (projection : ProjectionPlan)
    (cell : stream_cell) : exec stream_cell :=
  let '(representative, state) := cell in
  match projection with
  | RepresentativeColumn column =>
      if isNull representative then
        let* field := fieldAt required fields column in Ok (toValue field, state)
      else Ok cell
  | AggregatePlan kind argumentColumn =>
      match argumentColumn with
      | None => Ok (representative, count_row state)
      | Some column =>
          let* field := fieldAt required fields column in
          let* state := enter_field kind field state in
          Ok (representative, state)
      end
  end.

Fixpoint direct_cells (required : list nat) (fields : list RawField)
    (projections : list ProjectionPlan) (cells : list stream_cell) : exec (list stream_cell) :=
  match projections, cells with
  | p :: projections, c :: cells =>
      let* c := direct_cell required fields p c in
      let* cells := direct_cells required fields projections cells in
      Ok (c :: cells)
  | _, _ => Ok []
  end.

(** [initializeGroup] *)
Definition direct_start (projections : list ProjectionPlan) : list stream_cell :=
  map (λ _, (VNull, stream_start)) projections.

(** The visitor of the scan.  The scalar group is the group of the empty key. *)
Definition direct_row (plan : DirectPlan) (groups : list (tuple * list stream_cell)) (data : bytes)
    : exec (list (tuple * list stream_cell)) :=
  let required := plan_required plan in
  let* fields := decodeRawProjectedInto data required in
  let* passes := predicateMatches (dp_predicate plan) required fields in
  if (passes : bool) then
    let* key := rmap (λ column, let* field := fieldAt required fields column in Ok (toValue field))
                  (dp_groups plan) in
    group_update key (direct_start (dp_projections plan))
      (direct_cells required fields (dp_projections plan)) groups
  else Ok groups.

(** The value of an aggregate. *)
Definition aggregate_result (kind : AggregateKind) (state : StreamAggregateState) : exec Value :=
  match kind with
  | Count => Ok (VInteger (sa_count state))
  | LoneWolf => Ok (VInteger (countLoneWolves (sa_samples state)))
  | _ =>
      if (sa_count state =? 0)%Z then Ok VNull
      else
        match kind with
        | Average => Ok (VReal (ddiv (sa_sum state) (of_int (sa_count state))))
        | Sum =>
            if sa_allIntegers state then
              match to_int (sa_sum state) with
              | Some z => Ok (VInteger z)
              | None => Err (Undefined "double to int64_t conversion out of range")
              end
            else Ok (VReal (sa_sum state))
        | _ => Ok (default VNull (sa_extremum state))
        end
  end.

Definition direct_result (projection : ProjectionPlan) (cell : stream_cell) : exec Value :=
  match projection with
  | RepresentativeColumn _ => Ok cell.1
  | AggregatePlan kind _ => aggregate_result kind cell.2
  end.

(** [makeOutput] *)
Fixpoint makeOutput (projections : list ProjectionPlan) (cells : list stream_cell) : exec tuple :=
  match projections, cells with
  | p :: projections, c :: cells =>
      let* v := direct_result p c in
      let* vs := makeOutput projections cells in
      Ok (v :: vs)
  | _, _ => Ok []
  end.

Definition scalar_start (plan : DirectPlan) : list (tuple * list stream_cell) :=
  match dp_groups plan with [] => [([], direct_start (dp_projections plan))] | _ :: _ => [] end.

(** ** What the statistics prove *)

(** The last tests of [minMaxProvesEmpty]. *)
Definition range_excludes (plan : PredicatePlan) (range : ColumnRange) : bool :=
  if isNull (pp_literal plan) || negb (present range) then true
  else
    let op := normalizeColumnPredicateOp (pp_op plan) (pp_columnOnLeft plan) in
    let literal := pp_literal plan in
    if op =? "=" then
      (compare literal (range_min range) <? 0)%Z || (0 <? compare literal (range_max range))%Z
    else if op =? "!=" then
      (compare (range_min range) literal =? 0)%Z && (compare (range_max range) literal =? 0)%Z
    else if op =? "<" then (0 <=? compare (range_min range) literal)%Z
    else if op =? "<=" then (0 <? compare (range_min range) literal)%Z
    else if op =? ">" then (compare (range_max range) literal <=? 0)%Z
    else if op =? ">=" then (compare (range_max range) literal <? 0)%Z
    else false.

(** The only projected column is a count: its argument. *)
Definition lone_count (plan : DirectPlan) : option (option nat) :=
  match dp_groups plan, dp_projections plan with
  | [], [AggregatePlan Count argumentColumn] => Some argumentColumn
  | _, _ => None
  end.

(** The exact counts of the values answer an equality. *)
Definition counts_answer (predicate : option PredicatePlan) (argumentColumn : option nat)
    : option PredicatePlan :=
  match predicate with
  | None => None
  | Some plan =>
      if (normalizeColumnPredicateOp (pp_op plan) (pp_columnOnLeft plan) =? "=") &&
         match argumentColumn with None => true | Some column => (column =? pp_column plan)%nat end &&
         negb (isNull (pp_literal plan))
      then Some plan else None
  end.

(** The visitor of the counting scan. *)
Definition count_step (predicate : option PredicatePlan) (argumentColumn : option nat) (count : Z)
    (data : bytes) : exec Z :=
  let counted_by (predicateField : option RawField) : exec Z :=
    match argumentColumn with
    | None => Ok (count + 1)%Z
    | Some column =>
        let* field :=
          match predicate, predicateField with
          | Some plan, Some field =>
              if (column =? pp_column plan)%nat then Ok field else decodeRawColumn data column
          | _, _ => decodeRawColumn data column
          end in
        Ok (if rf_isNull field then count else count + 1)%Z
    end in
  match predicate with
  | None => counted_by None
  | Some plan =>
      let* field := decodeRawColumn data (pp_column plan) in
      let* passes := field_matches plan field in
      if (passes : bool) then counted_by (Some field) else Ok count
  end.

(** ** Groups in an array *)

Record DenseGroup : Type := mkDense {
  dg_present : bool;
  dg_key : Value;
  dg_states : list StreamAggregateState;
}.

Definition dense_projection (column : nat) (projection : ProjectionPlan) : bool :=
  match projection with
  | RepresentativeColumn c => (c =? column)%nat
  | AggregatePlan kind _ => match kind with Count | Sum | Average => true | _ => false end
  end.

(** The group column, if its values may index an array. *)
Definition dense_column (metadata : TableMeta) (plan : DirectPlan) : exec (option nat) :=
  match dp_groups plan with
  | [column] =>
      match t_columns metadata !! column with
      | None => Err (Undefined "vector index out of range")
      | Some meta =>
          let* groupType := declaredValueType meta in
          Ok (if cm_not_null meta &&
                 (bool_decide (groupType = Integer) || bool_decide (groupType = Boolean)) &&
                 forallb (dense_projection column) (dp_projections plan)
              then Some column else None)
      end
  | _ => Ok None
  end.

(** The least and the greatest key of the array. *)
Definition dense_bounds (range : ColumnRange) : exec (option (Z * Z)) :=
  if present range && isNumeric (range_min range) && isNumeric (range_max range) then
    let* minimum := asInteger (range_min range) in
    let* maximum := asInteger (range_max range) in
    if decide (i64 (maximum - minimum)) then
      Ok (if (minimum <=? maximum)%Z && (maximum - minimum <? kDenseGroupMaxDomainSpan)%Z
          then Some (minimum, maximum) else None)
    else Err (Undefined "signed integer overflow")
  else Ok None.

Fixpoint dense_states (required : list nat) (fields : list RawField)
    (projections : list ProjectionPlan) (states : list StreamAggregateState)
    : exec (list StreamAggregateState) :=
  match projections, states with
  | p :: projections, state :: states =>
      let* state :=
        match p with
        | RepresentativeColumn _ => Ok state
        | AggregatePlan kind argumentColumn =>
            match argumentColumn with
            | None => Ok (count_row state)
            | Some column =>
                let* field := fieldAt required fields column in enter_field kind field state
            end
        end in
      let* states := dense_states required fields projections states in
      Ok (state :: states)
  | _, _ => Ok []
  end.

Definition dense_start (projections : list ProjectionPlan) : DenseGroup :=
  mkDense false VNull (map (λ _, stream_start) projections).

(** The value of a field that indexes the array. *)
Definition dense_value (field : RawField) : Z :=
  if bool_decide (rf_type field = Boolean) then (if rf_boolean field then 1 else 0)%Z
  else rf_integer field.

Definition dense_row (plan : DirectPlan) (column : nat) (minimum maximum : Z)
    (groups : list DenseGroup) (data : bytes) : exec (list DenseGroup) :=
  let required := plan_required plan in
  let* fields := decodeRawProjectedInto data required in
  let* passes := predicateMatches (dp_predicate plan) required fields in
  if negb (passes : bool) then Ok groups
  else
    let* groupField := fieldAt required fields column in
    if rf_isNull groupField || negb (raw_numeric groupField) then Ok groups
    else
      let groupValue := dense_value groupField in
      if (groupValue <? minimum)%Z || (maximum <? groupValue)%Z then Ok groups
      else
        let index := Z.to_nat (groupValue - minimum) in
        match groups !! index with
        | None => Err (Undefined "vector index out of range")
        | Some group =>
            let key := if isNull (dg_key group) then toValue groupField else dg_key group in
            let* states := dense_states required fields (dp_projections plan) (dg_states group) in
            Ok (<[index := mkDense true key states]> groups)
        end.

Fixpoint dense_output (projections : list ProjectionPlan) (key : Value)
    (states : list StreamAggregateState) : exec tuple :=
  match projections, states with
  | p :: projections, state :: states =>
      let* v := match p with
                | RepresentativeColumn _ => Ok key
                | AggregatePlan kind _ => aggregate_result kind state
                end in
      let* vs := dense_output projections key states in
      Ok (v :: vs)
  | _, _ => Ok []
  end.

Definition dense_rows (plan : DirectPlan) (column : nat) (minimum maximum : Z) (rows : list bytes)
    : exec (list tuple) :=
  let* groups := rfold (dense_row plan column minimum maximum) rows
    (replicate (Z.to_nat (maximum - minimum) + 1) (dense_start (dp_projections plan))) in
  rmap (λ group, dense_output (dp_projections plan) (dg_key group) (dg_states group))
    (List.filter dg_present groups).

(** ** [executeDirectAggregateSelect] *)

Section Direct.
Context {D F : Type} `{HeapFiles D F}.
Context (getenv : string → option string).
(** The order in which a hash map of groups is walked. *)
Context (iterate : ∀ A : Type, list (tuple * A) → list (tuple * A)).

(** The names of the columns are those of the table. *)
Definition column_range_at (s : Select_) (metadata : TableMeta) (column : nat)
    : action (planner (D:=D)) ColumnRange :=
  meta ← lift (match t_columns metadata !! column with
               | Some meta => Ok meta
               | None => Err (Undefined "vector index out of range")
               end);
  ensureColumnRange getenv (s_fromTable s) (cm_name meta).

Definition minMaxProvesEmpty (s : Select_) (metadata : TableMeta) (predicate : option PredicatePlan)
    : action (planner (D:=D)) bool :=
  match predicate with
  | None => mret false
  | Some plan =>
      range ← column_range_at s metadata (pp_column plan);
      mret (range_excludes plan range)
  end.

(** The groups of a scan, and their rows. *)
Definition scan_groups (s : Select_) (plan : DirectPlan) : action (planner (D:=D)) (list tuple) :=
  rows ← on_engine (scan_raw (s_fromTable s));
  groups ← lift (rfold (direct_row plan) rows (scalar_start plan));
  lift (rmap (λ group, makeOutput (dp_projections plan) group.2) (iterate _ groups)).

(** The only aggregate is a count. *)
Definition count_rows (s : Select_) (metadata : TableMeta) (plan : DirectPlan)
    (argumentColumn : option nat) : action (planner (D:=D)) (list tuple) :=
  known ← (match counts_answer (dp_predicate plan) argumentColumn with
           | None => mret None
           | Some predicate =>
               range ← column_range_at s metadata (pp_column predicate);
               mret (if valueCountsExact range
                     then Some (counted (pp_literal predicate) (valueCounts range)) else None)
           end);
  match known with
  | Some count => mret [[VInteger (Z.of_nat count)]]
  | None =>
      rows ← on_engine (scan_raw (s_fromTable s));
      count ← lift (rfold (count_step (dp_predicate plan) argumentColumn) rows 0%Z);
      mret [[VInteger count]]
  end.

(** The groups in an array, when the range of their keys is small. *)
Definition try_dense (s : Select_) (metadata : TableMeta) (plan : DirectPlan)
    : action (planner (D:=D)) (option (list tuple)) :=
  column ← lift (dense_column metadata plan);
  match column with
  | None => mret None
  | Some column =>
      range ← column_range_at s metadata column;
      bounds ← lift (dense_bounds range);
      match bounds with
      | None => mret None
      | Some (minimum, maximum) =>
          rows ← on_engine (scan_raw (s_fromTable s));
          output ← lift (dense_rows plan column minimum maximum rows);
          mret (Some output)
      end
  end.

Definition direct_rows (s : Select_) (metadata : TableMeta) (plan : DirectPlan)
    : action (planner (D:=D)) (list tuple) :=
  empty ← minMaxProvesEmpty s metadata (dp_predicate plan);
  if (empty : bool) then
    match dp_groups plan with
    | [] =>
        row ← lift (makeOutput (dp_projections plan) (direct_start (dp_projections plan)));
        mret [row]
    | _ :: _ => mret []
    end
  else
    match lone_count plan with
    | Some argumentColumn => count_rows s metadata plan argumentColumn
    | None =>
        dense ← try_dense s metadata plan;
        match dense with
        | Some output => mret output
        | None => scan_groups s plan
        end
    end.

Definition executeDirectAggregateSelect (s : Select_)
    : action (planner (D:=D)) (option (list string * list tuple)) :=
  if negb (direct_candidate s) then mret None
  else
    metadata ← on_engine (known_table (s_fromTable s));
    plan ← lift (direct_plan s metadata);
    match plan with
    | None => mret None
    | Some plan =>
        rows ← direct_rows s metadata plan;
        c ← gets (λ p, catalog_ (engine_ p));
        mret (Some (outputNames c s None, rows))
    end.
End Direct.
