(* ===== verification/DirectSpec.v ===== *)
(** The plans and the scans of the direct aggregates: a plan means what the
    statement says, reading the columns of a plan from the bytes of a row gives
    the fields of the row, a field enters an aggregate as its value does, and so
    the scan of the raw rows answers as the row-at-a-time aggregation.  What the
    statistics and the array of groups answer is in [DirectSound.v]. *)

From S2P Require Import Prelude.
From S2P Require Import Double.
From S2P Require Import Config.
From S2P Require Import Value.
From S2P Require Import Tuple.
From S2P Require Import Raw.
From S2P Require Import Ast.
From S2P Require Import Catalog.
From S2P Require Import Eval.
From S2P Require Import Select.
From S2P Require Import Streaming.
From S2P Require Import Storage.
From S2P Require Import Heap.
From S2P Require Import HeapSpec.
From S2P Require Import Store.
From S2P Require Import Engine.
From S2P Require Import Constraints.
From S2P Require Import Integrity.
From S2P Require Import Statements.
From S2P Require Import Stats.
From S2P Require Import Ranges.
From S2P Require Import Vector.
From S2P Require Import VectorSpec.
From S2P Require Import Direct.

#[local] Set Warnings "-register-all".

(** * Fields of the bytes of a row *)

Lemma decodeRawFields_wf n index columns projected fields rest fields' :
  Forall raw_wf fields → decodeRawFields n index columns projected fields rest = Ok fields' →
  Forall raw_wf fields'.
Proof.
  revert index projected fields rest.
  induction n as [|n IH]; intros index projected fields rest Hwf; cbn [decodeRawFields];
    [by intros [= <-]|].
  intros Hd. apply rbind_Ok in Hd as ([f r1] & Hf & Hd).
  assert (Hf' : Forall raw_wf (<[projected := f]> fields)).
  { apply Forall_insert; [done|]. by eapply decodeRawField_wf. }
  case_bool_decide; [case_decide; [by injection Hd as <-|]|]; (eapply IH; [|exact Hd]; done).
Qed.

Lemma decodeRawProjectedInto_wf data columns fields :
  decodeRawProjectedInto data columns = Ok fields → Forall raw_wf fields.
Proof.
  unfold decodeRawProjectedInto. destruct (last columns); [|intros [= <-]; constructor].
  intros Hd. apply rbind_Ok in Hd as ([count rest] & _ & Hd). case_match; [done|].
  eapply decodeRawFields_wf; [|exact Hd]. by apply Forall_replicate.
Qed.

Lemma field_position_at column required k :
  column ∈ required →
  ∃ i, field_position column required k = Some (k + i)%nat ∧ required !! i = Some column.
Proof.
  revert k. induction required as [|c required IH]; intros k Hin; [by apply elem_of_nil in Hin|].
  cbn [field_position]. destruct (Nat.eqb_spec c column) as [->|Hne].
  { exists 0%nat. by rewrite Nat.add_0_r. }
  apply elem_of_cons in Hin as [->|Hin]; [done|]. destruct (IH (S k) Hin) as (i & Hi & Hr).
  exists (S i). by rewrite <- Nat.add_succ_comm.
Qed.

(** [fields] are the fields of the row [t] in the columns [required]. *)
Definition fields_of (required : list nat) (t : Tuple) (fields : list RawField) : Prop :=
  ∀ column, column ∈ required →
    ∃ f, fieldAt required fields column = Ok f ∧ raw_wf f ∧ toValue f = field column t.

Lemma group_update_ext {A} key (empty : A) f g groups :
  (∀ a, f a = g a) → group_update key empty f groups = group_update key empty g groups.
Proof.
  intros Hfg. induction groups as [|[k a] groups IH]; cbn; [by rewrite Hfg|].
  by rewrite Hfg, IH.
Qed.

Section statement.
Context (s : Select_) (metadata : TableMeta).

Abbreviation metas := (t_columns metadata).

(** Columns of the table in increasing order. *)
Definition columns_ok (required : list nat) : Prop :=
  increasing required ∧ Forall (λ c, is_Some (metas !! c)) required.

Lemma direct_fields data t required :
  decodeTuple data = Ok t → typed_row metadata t → columns_ok required →
  ∃ fields, decodeRawProjectedInto data required = Ok fields ∧ fields_of required t fields.
Proof.
  intros Hdec Ht [Hinc Hin]. destruct (decide (required = [])) as [->|Hne].
  { exists []. split; [done|]. by intros c Hc%elem_of_nil. }
  destruct (increasing_sorted required Hinc) as [Hsorted Hadj].
  destruct (raw_fields_of_row data t required Hdec Hne Hsorted Hadj) as (fields & Hf & Hall).
  { eapply Forall_impl; [exact Hin|]. intros c [column Hc].
    destruct (typed_field metadata t c column Ht Hc) as (Hfc & _). by eapply lookup_lt_Some. }
  exists fields. split; [done|]. intros c Hc.
  destruct (field_position_at c required 0 Hc) as (i & Hi & Hr).
  destruct (Forall2_lookup_l _ _ _ _ _ Hall Hr) as (f & Hfi & Htv).
  exists f. unfold fieldAt. rewrite Hi. cbn. rewrite Hfi. split; [done|]. split.
  - eapply Forall_lookup_1; [by eapply decodeRawProjectedInto_wf|done].
  - symmetry. by apply field_lookup.
Qed.

(** * What the plan means *)

Lemma column_index_hit name columns k result i :
  (∃ q, column_index q name columns k result = Ok (Some i)) →
  result = Some i ∨ ∃ j meta, i = (k + j)%nat ∧ columns !! j = Some meta ∧ cm_name meta = name.
Proof.
  intros [q Hq]. revert k result Hq.
  induction columns as [|m columns IH]; intros k result; cbn [column_index].
  { intros [= ->]. by left. }
  assert (Hnext : ∀ result', column_index q name columns (S k) result' = Ok (Some i) →
    (result' = Some i → result = Some i ∨ i = k ∧ cm_name m = name) →
    result = Some i ∨ ∃ j meta, i = (k + j)%nat ∧ (m :: columns) !! j = Some meta ∧ cm_name meta = name).
  { intros result' H1 H2. destruct (IH _ _ H1) as [Hr|(j & meta & -> & ?)].
    - destruct (H2 Hr) as [|[-> ?]]; [by left|]. right. exists 0%nat, m. split; [lia|done].
    - right. exists (S j), meta. split; [lia|done]. }
  case_bool_decide as Hname; cbn [negb]; [|intros H1; apply (Hnext result); auto].
  case_match; [done|]. intros H1. apply (Hnext _ H1). intros [= ->]. by right.
Qed.

Context (Hdistinct : NoDup (cm_name <$> metas)).

(** The column a reference means. *)
Definition means (e : Node) (c : nat) : Prop :=
  is_Some (metas !! c) ∧ ∀ t, typed_row metadata t → eval e (table_row s metadata t) = Ok (field c t).

(** A qualified or plain reference to a column means this column. *)
Lemma column_means q name a p c meta :
  metas !! c = Some meta → name = cm_name meta →
  negb (q =? "")%string && negb (q =? s_fromTable s)%string && negb (q =? s_fromAlias s)%string = false →
  means (ColumnRef q name a p) c.
Proof.
  intros Hc -> Hq. split; [by eexists|]. intros t Ht.
  destruct (typed_field metadata t c meta Ht Hc) as (Hf & _).
  cbn [eval]. unfold resolveColumn. cbn [columns table_row values].
  erewrite resolve_loop_hit; [done|by rewrite schema_names| | | |exact Hf].
  - unfold schema. by rewrite list_lookup_fmap, Hc.
  - done.
  - unfold qualifier_matches. cbn [bc_table bc_alias].
    rewrite !andb_false_iff, !negb_false_iff, !String.eqb_eq in Hq.
    destruct (decide (q = ""%string)) as [->|Hne]; [done|].
    rewrite !orb_true_iff, !bool_decide_eq_true, andb_true_iff, negb_true_iff, !bool_decide_eq_true,
      bool_decide_eq_false. destruct Hq as [[Hq|Hq]|Hq]; [done|auto|right]. split; congruence.
Qed.

Lemma resolveColumnIndex_ok q name a p c :
  resolveColumnIndex s metadata q name = Ok c → means (ColumnRef q name a p) c.
Proof.
  unfold resolveColumnIndex. destruct (_ && _ && _) eqn:Hq; [done|]. intros Hc.
  apply rbind_Ok in Hc as ([i|] & Hi & Hc); [|done]. injection Hc as ->.
  destruct (column_index_hit name metas 0 None c) as [|(j & meta & -> & Hj & Hname)]; [by eexists|done|].
  by apply (column_means _ _ _ _ _ meta).
Qed.

(** The condition on the columns of a row. *)
Definition plan_passes (plan : PredicatePlan) (v : Value) : bool :=
  if isNull v || isNull (pp_literal plan) then false
  else
    let order := compare v (pp_literal plan) in
    order_matches (pp_op plan) (if pp_columnOnLeft plan then order else (- order)%Z).

Definition row_passes (predicate : option PredicatePlan) (t : Tuple) : bool :=
  match predicate with
  | None => true
  | Some plan => plan_passes plan (field (pp_column plan) t)
  end.

Definition predicate_valid (predicate : option PredicatePlan) : Prop :=
  match predicate with
  | None => True
  | Some plan =>
      is_Some (metas !! pp_column plan) ∧ comparison_op (pp_op plan) = true ∧ ordered (pp_literal plan)
  end.

Context (Hwhere : from_option exact True (s_where s)).

Lemma direct_predicate_ok predicate :
  direct_predicate s metadata = Ok (Some predicate) →
  predicate_valid predicate ∧
  ∀ t, typed_row metadata t → keeps (s_where s) (table_row s metadata t) = Ok (row_passes predicate t).
Proof.
  unfold direct_predicate, keeps. destruct (s_where s) as [e|]; [|by intros [= <-]].
  destruct e as [| | |op l r a p| | | |]; try done. destruct (comparison_op op) eqn:Hop; [cbn [negb]|done].
  destruct (column_and_literal l r) as [[[onLeft [q name]] c]|] eqn:Hcl; [|done].
  intros Hi. apply rbind_Ok in Hi as (i & Hi & [= <-]). destruct Hwhere as [Hl Hr].
  pose proof (column_and_literal_exact l r onLeft q name c Hcl Hl Hr) as Hc.
  destruct (resolveColumnIndex_ok q name ""%string p i Hi) as [Hmeta Hmeans].
  split; [done|]. intros t Ht. specialize (Hmeans t Ht). cbn [eval] in Hmeans.
  destruct (column_and_literal_eval l r onLeft q name c _ _ Hcl Hmeans) as [El Er].
  cbn [eval]. rewrite El, Er. cbn [rbind row_passes pp_column]. unfold plan_passes.
  cbn [pp_literal pp_op pp_columnOnLeft]. destruct Hmeta as [meta Hmeta].
  destruct (typed_field metadata t i meta Ht Hmeta) as (_ & _ & Ho). set (v := field i t) in *.
  destruct (isNull v || isNull c) eqn:Hnull.
  { apply orb_true_iff in Hnull. by rewrite applyBinary_null by (done || (destruct onLeft; tauto)). }
  apply orb_false_iff in Hnull as [Hnv Hnc].
  destruct onLeft; rewrite applyBinary_comparison by done; cbn [rbind asBoolean]; [done|].
  by rewrite (compare_flip v c).
Qed.

Lemma comparisonMatches_ok op order :
  comparison_op op = true → comparisonMatches op order = Ok (order_matches op order).
Proof.
  unfold comparison_op, comparisonMatches, order_matches. intros Hop.
  repeat (case_match; [done|]). done.
Qed.

Lemma raw_isNull f : raw_wf f → rf_isNull f = isNull (toValue f).
Proof. unfold raw_wf, toValue, isNull. intros ->. by destruct (rf_type f). Qed.

Lemma field_matches_ok plan f :
  comparison_op (pp_op plan) = true → raw_wf f →
  field_matches plan f = Ok (plan_passes plan (toValue f)).
Proof.
  intros Hop Hf. unfold field_matches, plan_passes. rewrite raw_isNull by done. case_match; [done|].
  rewrite compareRawToValue_spec by done. cbn [rbind]. by rewrite comparisonMatches_ok.
Qed.

Lemma predicateMatches_ok predicate required t fields :
  predicate_valid predicate → (∀ plan, predicate = Some plan → pp_column plan ∈ required) →
  fields_of required t fields →
  predicateMatches predicate required fields = Ok (row_passes predicate t).
Proof.
  intros Hvalid Hreq Hfields. destruct predicate as [plan|]; [|done]. cbn.
  destruct (Hfields (pp_column plan) (Hreq plan eq_refl)) as (f & -> & Hf & Hv). cbn [rbind].
  destruct Hvalid as (_ & Hop & _). by rewrite field_matches_ok, Hv.
Qed.

Lemma filter_rows_by P ts :
  (∀ t, typed_row metadata t → keeps (s_where s) (table_row s metadata t) = Ok (P t)) →
  Forall (typed_row metadata) ts →
  filter_rows (s_where s) (table_row s metadata <$> ts) = Ok (table_row s metadata <$> List.filter P ts).
Proof.
  intros Hkeeps. induction 1 as [|t ts Ht _ IH]; [done|]. rewrite fmap_cons. cbn [filter_rows List.filter].
  rewrite (Hkeeps t Ht), IH. cbn [rbind]. by destruct (P t).
Qed.

(** * Groups and projections *)

Lemma opt_Ok {A B} (m : exec (option A)) (k : A → exec (option B)) b :
  rbind m (λ o, match o with Some a => k a | None => Ok None end) = Ok (Some b) →
  ∃ a, m = Ok (Some a) ∧ k a = Ok (Some b).
Proof. intros H1. apply rbind_Ok in H1 as ([a|] & Hm & Hk); [by exists a|done]. Qed.

Lemma direct_groups_ok groupBy groups :
  direct_groups s metadata groupBy = Ok (Some groups) → Forall2 means groupBy groups.
Proof.
  revert groups. induction groupBy as [|e groupBy IH]; intros groups; [intros [= <-]; constructor|].
  destruct e as [|q name a p| | | | | |]; try done. cbn [direct_groups]. intros H1.
  apply rbind_Ok in H1 as (i & Hi & H1). apply opt_Ok in H1 as (rest & Hrest & [= <-]).
  constructor; [by apply resolveColumnIndex_ok|by apply IH].
Qed.

Lemma direct_key groupBy groups t :
  Forall2 means groupBy groups → typed_row metadata t →
  group_key groupBy (table_row s metadata t) = Ok ((λ c, field c t) <$> groups).
Proof.
  intros Hg Ht. unfold group_key. apply rmap_Ok. apply Forall2_fmap_r. eapply Forall2_impl; [exact Hg|].
  intros e c [_ He]. by apply He.
Qed.

Definition stream_of (kind : AggregateKind) : StreamAggregateKind :=
  match kind with
  | Count => StreamCount | Sum => StreamSum | Average => StreamAverage
  | Max => StreamMax | Min => StreamMin | LoneWolf => StreamLoneWolf
  end.

(** The projection of the one-pass aggregation. *)
Definition projects (proj : ProjectionPlan) (p : StreamProjection) : Prop :=
  match proj, p with
  | RepresentativeColumn c, Representative e => means e c
  | AggregatePlan Count None, CountRows => True
  | AggregatePlan kind (Some c), Aggregate k e => k = stream_of kind ∧ means e c
  | _, _ => False
  end.

Lemma aggregate_kind_ok name kind :
  aggregate_kind name = Some kind →
  isSimpleAggregateName name = true ∧ stream_kind name = stream_of kind ∧ is_biggest name = false ∧
  aggregate_name name = true ∧ ((name =? "headcount")%string = true → kind = Count).
Proof.
  unfold aggregate_kind, isSimpleAggregateName, stream_kind, is_biggest, aggregate_name.
  destruct (String.eqb_spec name "headcount") as [->|_]; [by intros [= <-]|].
  destruct (String.eqb_spec name "stack") as [->|_]; [by intros [= <-]|].
  destruct (String.eqb_spec name "mid") as [->|_]; [by intros [= <-]|].
  destruct (String.eqb_spec name "goat") as [->|_]; [by intros [= <-]|].
  destruct (String.eqb_spec name "L") as [->|_]; [by intros [= <-]|].
  unfold isLoneWolfName. destruct (String.eqb_spec name "LONE-WOLF") as [->|_]; [by intros [= <-]|].
  destruct (String.eqb_spec name "lone-wolf") as [->|_]; [by intros [= <-]|]. done.
Qed.

Lemma direct_projection_ok groups e proj :
  direct_projection s metadata groups e = Ok (Some proj) →
  (∃ p, stream_projection e = Some p ∧ projects proj p) ∧ find_biggest [e] = None ∧
  (is_aggregate proj = true → hasAggregate e = true).
Proof.
  destruct e as [|q name a p| | | |name args distinct a p| |]; cbn [direct_projection]; try done.
  - intros H1. apply rbind_Ok in H1 as (i & Hi & H1). case_bool_decide; [|done]. injection H1 as <-.
    split; [|done]. eexists. split; [done|]. by apply resolveColumnIndex_ok.
  - destruct distinct; [done|]. destruct (aggregate_kind name) as [kind|] eqn:Hkind; [|done].
    destruct (aggregate_kind_ok name kind Hkind) as (Hsimple & Hstream & Hbig & Hagg & Hcount).
    unfold counts_rows. cbn [stream_projection find_biggest hasAggregate]. rewrite Hsimple, Hbig, Hagg.
    cbn [orb negb]. destruct ((name =? "headcount")%string && _) eqn:Hc.
    + intros [= <-]. split; [|done]. exists CountRows. split; [done|].
      apply andb_true_iff in Hc as [Hname _]. by rewrite (Hcount Hname).
    + destruct args as [|argument [|]]; [done| |by destruct argument].
      destruct argument as [|q n a' p'| | | | | |]; try done. intros H1.
      apply rbind_Ok in H1 as (i & Hi & [= <-]). split; [|done]. eexists. split; [done|].
      cbn [projects]. rewrite Hstream. destruct kind; (split; [done|by apply resolveColumnIndex_ok]).
Qed.

Lemma direct_projections_ok groups es projs :
  direct_projections s metadata groups es = Ok (Some projs) →
  (∃ ps, stream_projections es = Some ps ∧ Forall2 projects projs ps) ∧ find_biggest es = None ∧
  (existsb is_aggregate projs = true → existsb hasAggregate es = true).
Proof.
  revert projs. induction es as [|e es IH]; intros projs; cbn [direct_projections].
  { intros [= <-]. split; [|done]. exists []. split; [done|constructor]. }
  intros H1. apply opt_Ok in H1 as (proj & Hproj & H1). apply opt_Ok in H1 as (rest & Hrest & [= <-]).
  destruct (direct_projection_ok groups e proj Hproj) as ((p & Hp & Hpp) & Hbig & Hagg).
  destruct (IH rest Hrest) as ((ps & Hps & Hall) & Hbigs & Haggs). split; [|split].
  - exists (p :: ps). cbn [stream_projections]. rewrite Hp, Hps. split; [done|]. by constructor.
  - destruct e; try done. cbn [find_biggest] in *. by case_match.
  - cbn [existsb]. rewrite !orb_true_iff. tauto.
Qed.

(** A field enters an aggregate as its value does. *)
Lemma enter_field_ok kind f state :
  raw_wf f → enter_field kind f state = stream_add (stream_of kind) (toValue f) state.
Proof.
  intros Hf. unfold enter_field, stream_add. destruct state as [count sum allI ext samples].
  rewrite raw_isNull, raw_numeric_spec by done. destruct (isNull (toValue f)) eqn:Hn; [done|].
  assert (Hreal : isNumeric (toValue f) = true →
    raw_asReal f = asReal (toValue f) ∧ bool_decide (rf_type f = Integer) = is_integer (toValue f)).
  { unfold toValue, raw_asReal, is_integer in *. destruct (rf_isNull f); [done|].
    by destruct (rf_type f). }
  destruct kind; cbn [stream_of]; try done;
    (destruct (isNumeric (toValue f)); [|done]); destruct (Hreal eq_refl) as [-> ->]; cbn [negb]; done.
Qed.

Lemma direct_cell_ok required t fields proj p cell :
  typed_row metadata t → projects proj p → (∀ c, projection_column proj = Some c → c ∈ required) →
  fields_of required t fields →
  direct_cell required fields proj cell = stream_step (table_row s metadata t) p cell.
Proof.
  intros Ht Hp Hreq Hf. destruct cell as [rep state].
  destruct proj as [c|kind [c|]], p as [e| |k e]; cbn in Hp; try (by destruct Hp);
    try (by destruct kind); cbn [direct_cell stream_step].
  - destruct (isNull rep); [|done]. destruct (Hf c (Hreq c eq_refl)) as (f & -> & _ & Hv). cbn [rbind].
    destruct Hp as [_ He]. by rewrite (He t Ht), Hv.
  - assert (Hk : k = stream_of kind ∧ means e c) by (by destruct kind).
    destruct Hk as [-> [_ He]]. destruct (Hf c (Hreq c eq_refl)) as (f & -> & Hwf & Hv). cbn [rbind].
    rewrite (He t Ht). cbn [rbind]. by rewrite enter_field_ok, Hv.
Qed.

Definition projections_in (required : list nat) (projs : list ProjectionPlan) : Prop :=
  Forall (λ proj, ∀ c, projection_column proj = Some c → c ∈ required) projs.

Lemma direct_cells_ok required t fields projs ps cells :
  typed_row metadata t → Forall2 projects projs ps → projections_in required projs →
  fields_of required t fields →
  direct_cells required fields projs cells = stream_row (table_row s metadata t) ps cells.
Proof.
  intros Ht Hps Hreq Hf. revert cells.
  induction Hps as [|proj p projs ps Hp _ IH]; intros [|c cells]; try done.
  apply Forall_cons in Hreq as [Hproj Hreq]. cbn [direct_cells stream_row].
  rewrite (direct_cell_ok required t fields proj p c) by done.
  destruct (stream_step _ p c); [|done]. cbn [rbind]. by rewrite IH.
Qed.

Lemma makeOutput_ok projs ps cells :
  Forall2 projects projs ps → makeOutput projs cells = stream_results ps cells.
Proof.
  intros Hps. revert cells.
  induction Hps as [|proj p projs ps Hp _ IH]; intros [|[rep state] cells]; try done.
  cbn [makeOutput stream_results]. rewrite IH. f_equal.
  destruct proj as [c|kind [c|]], p as [e| |k e]; cbn in Hp; try done;
    destruct kind; try done; by destruct Hp as [-> _].
Qed.

Lemma direct_start_ok projs ps : Forall2 projects projs ps → direct_start projs = stream_cells ps.
Proof. induction 1 as [|? ? ? ? _ _ IH]; [done|]. unfold direct_start, stream_cells in *. cbn. by rewrite IH. Qed.

(** ** The plan *)

Record plan_ok (plan : DirectPlan) (ps : list StreamProjection) : Prop := {
  po_predicate : predicate_valid (dp_predicate plan);
  po_keeps : ∀ t, typed_row metadata t →
    keeps (s_where s) (table_row s metadata t) = Ok (row_passes (dp_predicate plan) t);
  po_groups : Forall2 means (s_groupBy s) (dp_groups plan);
  po_columns : stream_projections (s_columns s) = Some ps;
  po_projections : Forall2 projects (dp_projections plan) ps;
  po_biggest : find_biggest (s_columns s) = None;
  po_grouped : is_grouped s = true;
}.

Lemma direct_plan_ok plan :
  direct_plan s metadata = Ok (Some plan) → ∃ ps, plan_ok plan ps.
Proof.
  unfold direct_plan. intros Hplan. apply opt_Ok in Hplan as (predicate & Hpred & Hplan).
  apply opt_Ok in Hplan as (groups & Hgroups & Hplan).
  apply opt_Ok in Hplan as (projs & Hprojs & Hplan).
  destruct (existsb is_aggregate projs) eqn:Hagg; [|done]. injection Hplan as <-.
  destruct (direct_predicate_ok predicate Hpred) as [Hvalid Hkeeps].
  destruct (direct_projections_ok groups _ projs Hprojs) as ((ps & Hps & Hall) & Hbig & Haggs).
  exists ps. split; try done; [by apply direct_groups_ok|].
  unfold is_grouped, selectHasAggregate. rewrite (Haggs Hagg). by destruct (s_groupBy s).
Qed.

Section plan.
Context (plan : DirectPlan) (ps : list StreamProjection) (Hplan : plan_ok plan ps).

Lemma projects_column proj p c :
  projects proj p → projection_column proj = Some c → is_Some (metas !! c).
Proof.
  destruct proj as [c'|kind [c'|]], p as [e| |k e]; cbn; try done; intros Hp [= ->];
    try (by destruct kind); [apply Hp|]. by destruct kind, Hp as [_ [? _]].
Qed.

Lemma plan_columns_in c :
  c ∈ (option_list (pp_column <$> dp_predicate plan) ++ dp_groups plan ++
       omap projection_column (dp_projections plan))%list → is_Some (metas !! c).
Proof.
  rewrite !elem_of_app. intros [Hc|[Hc|Hc]].
  - pose proof (po_predicate _ _ Hplan) as Hv. destruct (dp_predicate plan) as [pred|]; cbn in Hc.
    + apply list_elem_of_singleton in Hc as ->. apply Hv.
    + by apply elem_of_nil in Hc.
  - apply list_elem_of_lookup in Hc as [i Hi].
    destruct (Forall2_lookup_r _ _ _ _ _ (po_groups _ _ Hplan) Hi) as (e & _ & [Hm _]). done.
  - apply list_elem_of_omap in Hc as (proj & Hin & Hc). apply list_elem_of_lookup in Hin as [i Hi].
    destruct (Forall2_lookup_l _ _ _ _ _ (po_projections _ _ Hplan) Hi) as (p & _ & Hp).
    by eapply projects_column.
Qed.

Lemma plan_required_ok :
  columns_ok (plan_required plan) ∧
  (∀ pred, dp_predicate plan = Some pred → pp_column pred ∈ plan_required plan) ∧
  Forall (λ c, c ∈ plan_required plan) (dp_groups plan) ∧
  projections_in (plan_required plan) (dp_projections plan).
Proof.
  unfold plan_required. set (l := (option_list _ ++ _)%list).
  destruct (insert_all_ok metadata l []) as [Hgrown Hsub].
  { intros c Hc. apply lookup_lt_is_Some. by apply plan_columns_in. }
  destruct Hgrown as (Hinc & Hlt & _); [constructor|by intros x Hx%elem_of_nil|].
  split; [split; [done|]|split; [|split]].
  - apply Forall_forall. intros c Hc. apply lookup_lt_is_Some. by apply Hlt.
  - intros pred Hpred. apply Hsub. subst l. rewrite Hpred. apply list_elem_of_here.
  - apply Forall_forall. intros c Hc. apply Hsub. subst l. rewrite !elem_of_app. auto.
  - apply Forall_forall. intros proj Hproj c Hc. apply Hsub. subst l. rewrite !elem_of_app.
    right. right. apply list_elem_of_omap. by exists proj.
Qed.

(** The bytes of some rows of the table. *)
Definition raw_rows (raws : list bytes) (ts : list Tuple) : Prop :=
  Forall2 (λ data t, decodeTuple data = Ok t ∧ typed_row metadata t) raws ts.

Lemma direct_row_ok data t groups :
  decodeTuple data = Ok t → typed_row metadata t →
  direct_row plan groups data =
  if row_passes (dp_predicate plan) t then
    let* key := group_key (s_groupBy s) (table_row s metadata t) in
    group_update key (stream_cells ps) (stream_row (table_row s metadata t) ps) groups
  else Ok groups.
Proof.
  intros Hdec Ht. destruct plan_required_ok as (Hcols & Hpred & Hgroups & Hprojs).
  destruct (direct_fields data t _ Hdec Ht Hcols) as (fields & Hf & Hfields).
  unfold direct_row. rewrite Hf. cbn [rbind].
  rewrite (predicateMatches_ok (dp_predicate plan) _ t fields (po_predicate _ _ Hplan) Hpred Hfields).
  cbn [rbind]. case_match; [|done].
  rewrite (direct_key _ _ t (po_groups _ _ Hplan) Ht). cbn [rbind].
  assert (rmap (λ column, let* field := fieldAt (plan_required plan) fields column in Ok (toValue field))
    (dp_groups plan) = Ok ((λ c, field c t) <$> dp_groups plan)) as ->.
  { apply rmap_Ok, Forall2_fmap_r, Forall_Forall2_diag. eapply Forall_impl; [exact Hgroups|].
    intros c Hc. destruct (Hfields c Hc) as (f & -> & _ & Hv). cbn. by rewrite Hv. }
  cbn [rbind]. rewrite (direct_start_ok _ ps (po_projections _ _ Hplan)).
  apply group_update_ext. intros cells.
  apply direct_cells_ok; [done|apply (po_projections _ _ Hplan)|done|done].
Qed.

Lemma direct_scan_ok raws ts groups :
  raw_rows raws ts →
  rfold (direct_row plan) raws groups =
  stream_more s ps (table_row s metadata <$> List.filter (row_passes (dp_predicate plan)) ts) groups.
Proof.
  intros Hraw. unfold stream_more. revert groups.
  induction Hraw as [|data t raws ts [Hdec Ht] _ IH]; intros groups; [done|]. cbn [rfold List.filter].
  rewrite (direct_row_ok data t groups Hdec Ht). case_match; [|by cbn [rbind]].
  rewrite fmap_cons. cbn [rfold].
  match goal with |- rbind ?m _ = rbind ?m _ => destruct m as [groups'|] eqn:Hg end; cbn [rbind];
    [by rewrite IH|done].
Qed.

Lemma scalar_start_ok :
  scalar_start plan = match s_groupBy s with [] => [([], stream_cells ps)] | _ :: _ => [] end.
Proof.
  unfold scalar_start. rewrite (direct_start_ok _ ps (po_projections _ _ Hplan)).
  by destruct (po_groups _ _ Hplan).
Qed.

(** ** The answer of the scan is that of the statement *)

Context (std_sort : list Value → list Value).
Context (iterate : ∀ A : Type, list (tuple * A) → list (tuple * A)).

(** What the rows [kept] of the table give. *)
Definition answer_of (kept : list Tuple) : exec (list tuple) :=
  let* groups := stream_more s ps (table_row s metadata <$> kept) (scalar_start plan) in
  rmap (λ group, makeOutput (dp_projections plan) group.2) (iterate _ groups).

Lemma answer_select catalog ts out :
  getTable catalog (s_fromTable s) = Some metadata → simple_select s → Forall (typed_row metadata) ts →
  answer_of (List.filter (row_passes (dp_predicate plan)) ts) = Ok out →
  executeSelect std_sort iterate catalog s (table_row s metadata <$> ts) =
    Ok (outputNames catalog s None, out).
Proof.
  intros Hget Hsimple Hts. unfold answer_of, executeSelect, apply_biggest, select_output.
  rewrite (filter_rows_by _ _ (po_keeps _ _ Hplan) Hts). cbn [rbind].
  rewrite (po_biggest _ _ Hplan). cbn [rbind]. rewrite (po_grouped _ _ Hplan), (po_columns _ _ Hplan).
  assert (streamable s = true) as ->.
  { unfold streamable. by rewrite (ss_having _ Hsimple), (ss_distinct _ Hsimple),
      (ss_orderBy _ Hsimple), (ss_limit _ Hsimple), (ss_offset _ Hsimple). }
  rewrite result_columns_ok by (done || apply Hsimple). unfold stream_output, stream_groups, stream_more.
  rewrite scalar_start_ok. destruct (rfold _ _ _) as [groups|]; [|done]. cbn [rbind]. intros Hout.
  assert (rmap (λ group, let* values := stream_results ps group.2 in Ok (mkOutput values []))
    (iterate _ groups) = Ok (Streaming.row_of <$> out)) as ->.
  { apply rmap_Ok, Forall2_fmap_r. apply rmap_Ok in Hout. eapply Forall2_impl; [exact Hout|].
    intros g row Hg. cbn beta in Hg. rewrite (makeOutput_ok _ ps) in Hg by apply (po_projections _ _ Hplan).
    unfold compose. by rewrite Hg. }
  cbn [rbind]. by rewrite apply_simple.
Qed.
End plan.
End statement.
