(* ===== verification/DirectSound.v ===== *)
(** What [executeDirectAggregateSelect] answers is what the row-at-a-time SELECT
    answers, whichever way it takes: the bounds of a column prove that no row
    passes only when none does, the counts of the values count the rows that
    pass, and the groups of an array are, in some order, those of the hash map. *)

From S2P Require Import Prelude.
From S2P Require Import Double.
From S2P Require Import Config.
From S2P Require Import Value.
From S2P Require Import Tuple.
From S2P Require Import Raw.
From S2P Require Import Ast.
From S2P Require Import Catalog.
From S2P Require Import Eval.
From S2P Require Import Select.
From S2P Require Import Streaming.
From S2P Require Import Storage.
From S2P Require Import Heap.
From S2P Require Import HeapSpec.
From S2P Require Import Store.
From S2P Require Import Engine.
From S2P Require Import Constraints.
From S2P Require Import Integrity.
From S2P Require Import Statements.
From S2P Require Import Stats.
From S2P Require Import Ranges.
From S2P Require Import Vector.
From S2P Require Import VectorSpec.
From S2P Require Import Direct.
From S2P Require Import DirectSpec.

#[local] Set Warnings "-register-all".

(** * The order of the values of a column *)

Lemma compare_sign a b : ordered a → ordered b → (-1 ≤ compare a b ≤ 1)%Z.
Proof.
  intros Ha Hb. destruct (family_of a b Ha Hb) as [(f & Hfa & Hfb)|Htypes].
  - rewrite (compare_key f) by done. unfold sign_of. case_match; lia.
  - destruct a, b; try done; cbn in Htypes; try (by destruct Htypes as [[]|[]]); cbn; lia.
Qed.

(** A greater value of a column compares with [c] no lower. *)
Lemma compare_monotone a b c :
  Value.type a = Value.type b → Value.type a ≠ Boolean → ordered a → ordered b → ordered c →
  (compare a b ≤ 0)%Z → (compare a c ≤ compare b c)%Z.
Proof.
  intros Htype Hbool Ha Hb Hc Hab.
  assert ((∃ f, well_ordered f a ∧ well_ordered f b ∧ well_ordered f c) ∨ compare a c = compare b c)
    as [(f & Hfa & Hfb & Hfc)|Heq]; [|pose proof (compare_sign a c Ha Hc)|lia].
  { destruct a, b; try done; destruct c; cbn in *;
      solve [right; done|left; exists WithText; done|left; exists WithBoolean; done]. }
  pose proof (compare_sign a c Ha Hc). pose proof (compare_sign b c Hb Hc).
  pose proof (compare_flip a c Ha Hc). pose proof (compare_flip b c Hb Hc).
  pose proof (cmp_le_trans (P:=well_ordered f) a b c Hfa Hfb Hfc Hab).
  pose proof (cmp_le_trans (P:=well_ordered f) c a b Hfc Hfa Hfb). lia.
Qed.

Lemma comparison_cases op :
  comparison_op op = true →
  op = "="%string ∨ op = "!="%string ∨ op = "<"%string ∨ op = ">"%string ∨ op = "<="%string ∨ op = ">="%string.
Proof. unfold comparison_op. rewrite !orb_true_iff, !String.eqb_eq. tauto. Qed.

Lemma order_matches_normalized op onLeft order :
  comparison_op op = true →
  order_matches (normalizeColumnPredicateOp op onLeft) order =
  order_matches op (if onLeft then order else (- order)%Z).
Proof.
  intros Hop. destruct onLeft; [done|].
  destruct (comparison_cases op Hop) as [->|[->|[->|[->|[->| ->]]]]]; cbn; lia.
Qed.

Lemma normalized_comparison op onLeft :
  comparison_op op = true → comparison_op (normalizeColumnPredicateOp op onLeft) = true.
Proof.
  intros Hop. by destruct (comparison_cases op Hop) as [->|[->|[->|[->|[->| ->]]]]], onLeft.
Qed.

(** * What the bounds of a column prove *)

Section column.
Context (plan : PredicatePlan) (Hop : comparison_op (pp_op plan) = true).
Context (Hliteral : ordered (pp_literal plan)).

Abbreviation normal_op := (normalizeColumnPredicateOp (pp_op plan) (pp_columnOnLeft plan)).

Lemma plan_passes_normal v :
  isNull v = false → isNull (pp_literal plan) = false →
  plan_passes plan v = order_matches normal_op (compare v (pp_literal plan)).
Proof.
  intros Hv Hl. unfold plan_passes. rewrite Hv, Hl. cbn [orb]. by rewrite order_matches_normalized.
Qed.

(** Values of one type, which a column of the table may have. *)
Definition column_type (ty : ValueType) (v : Value) : Prop :=
  isNull v = true ∨ (Value.type v = ty ∧ ty ≠ Boolean ∧ ordered v).

Lemma range_excludes_ok ty range vs :
  Forall (column_type ty) vs → range_spec (not_null vs) range →
  range_excludes plan range = true → Forall (λ v, plan_passes plan v = false) vs.
Proof.
  intros Hvs [Hpresent Hbounds _ _]. unfold range_excludes.
  destruct (isNull (pp_literal plan)) eqn:Hnl.
  { intros _. apply Forall_forall. intros v _. unfold plan_passes. by rewrite Hnl, orb_true_r. }
  intros Hex. apply Forall_forall. intros v Hv.
  destruct (isNull v) eqn:Hnv; [by unfold plan_passes; rewrite Hnv|].
  rewrite plan_passes_normal by done.
  assert (Hin : v ∈ not_null vs) by (apply list_elem_of_filter; done).
  assert (Hpres : present range = true).
  { rewrite Hpresent. apply bool_decide_eq_true. intros Hnil. rewrite Hnil in Hin. by apply elem_of_nil in Hin. }
  rewrite Hpres in Hex. cbn [negb orb] in Hex.
  destruct Hbounds as (Hmin & Hmax & Hall); [by intros Hnil; rewrite Hnil in Hin; apply elem_of_nil in Hin|].
  destruct (Hall v Hin) as [Hlow Hhigh].
  assert (Htyped : ∀ w, w ∈ not_null vs → Value.type w = ty ∧ ty ≠ Boolean ∧ ordered w).
  { intros w Hw. apply list_elem_of_filter in Hw as [Hnw Hw]. rewrite Forall_forall in Hvs.
    destruct (Hvs w Hw) as [?|?]; [congruence|done]. }
  destruct (Htyped v Hin) as (Htv & Hb & Hov).
  destruct (Htyped _ Hmin) as (Htmin & _ & Homin). destruct (Htyped _ Hmax) as (Htmax & _ & Homax).
  set (c := pp_literal plan) in *.
  pose proof (compare_monotone (range_min range) v c ltac:(congruence) ltac:(congruence) Homin Hov Hliteral Hlow).
  pose proof (compare_monotone v (range_max range) c ltac:(congruence) ltac:(congruence) Hov Homax Hliteral Hhigh).
  rewrite (compare_flip (range_min range) c), (compare_flip (range_max range) c) in Hex by done.
  destruct (comparison_cases normal_op (normalized_comparison _ _ Hop)) as [E|[E|[E|[E|[E|E]]]]];
    rewrite E in Hex |- *; cbn in Hex |- *; lia.
Qed.

(** The counts of the values count the rows that pass an equality. *)
Lemma counted_passes vs :
  isNull (pp_literal plan) = false → normal_op = "="%string → Forall (λ v, isNull v = true ∨ ordered v) vs →
  occurrences (pp_literal plan) (not_null vs) = length (List.filter (plan_passes plan) vs).
Proof.
  intros Hnl Heq. induction 1 as [|v vs Hv _ IH]; [done|]. cbn [List.filter].
  unfold occurrences, not_null in *. rewrite !filter_cons. case_decide as Hnv.
  - rewrite plan_passes_normal by done. rewrite Heq. cbn [order_matches String.eqb].
    rewrite filter_cons. destruct Hv as [?|Hv]; [congruence|].
    replace (order_matches "=" (compare v (pp_literal plan))) with (value_eqb (pp_literal plan) v)
      by (rewrite value_eqb_comm, <- compare_zero; done).
    case_decide as Hd; [rewrite Hd|rewrite (not_true_is_false _ Hd)]; cbn [length]; by rewrite IH.
  - apply not_false_is_true in Hnv. unfold plan_passes at 1. by rewrite Hnv.
Qed.
End column.

(** * The plan on the rows of the table *)

Section statement.
Context (s : Select_) (metadata : TableMeta) (plan : DirectPlan) (ps : list StreamProjection).
Context (Hplan : plan_ok s metadata plan ps) (Hcolumns : Forall column_ok (t_columns metadata)).

Abbreviation metas := (t_columns metadata).

(** The rows that pass. *)
Definition passing (ts : list Tuple) : list Tuple := List.filter (row_passes (dp_predicate plan)) ts.

Lemma column_typed c column ts :
  metas !! c = Some column → Forall (typed_row metadata) ts →
  ∃ ty, declaredValueType column = Ok ty ∧ Forall (column_type ty) (field c <$> ts).
Proof.
  intros Hc Hts. pose proof (Forall_lookup_1 _ _ _ _ Hcolumns Hc) as Hcol.
  destruct (declaredValueType column) as [ty|] eqn:Hty.
  - exists ty. split; [done|]. apply Forall_fmap. eapply Forall_impl; [exact Hts|]. intros t Ht.
    destruct (typed_field metadata t c column Ht Hc) as (_ & Hok & Ho). cbn.
    destruct (value_ok_fits column _ ty Hcol Hok Hty) as [Hnull|Htype]; [by left|right].
    split; [done|]. split; [|done]. intros ->. by destruct (field c t).
  - exfalso. destruct Hcol as (Hsup & Hup & _). unfold declaredValueType in Hty. rewrite Hup in Hty.
    unfold supported_type in Hsup. repeat (case_match; try done).
Qed.

(** No row passes: the answer is that of an empty table. *)
Lemma excluded_rows predicate range ts :
  dp_predicate plan = Some predicate → Forall (typed_row metadata) ts →
  range_spec (not_null (field (pp_column predicate) <$> ts)) range →
  range_excludes predicate range = true → passing ts = [].
Proof.
  intros Hpred Hts Hrange Hex. unfold passing. rewrite Hpred.
  pose proof (po_predicate _ _ _ _ Hplan) as Hvalid. rewrite Hpred in Hvalid.
  destruct Hvalid as ([column Hc] & Hop & Hlit).
  destruct (column_typed _ column ts Hc Hts) as (ty & _ & Htyped).
  pose proof (range_excludes_ok predicate Hop Hlit ty range _ Htyped Hrange Hex) as Hnone.
  rewrite Forall_fmap in Hnone. clear -Hnone. induction Hnone as [|t ts Ht _ IH]; [done|].
  cbn in *. by rewrite Ht.
Qed.

(** ** A lone count *)

Definition counts_field (argument : option nat) (t : Tuple) : bool :=
  match argument with None => true | Some c => negb (isNull (field c t)) end.

Lemma raw_column data t c column :
  decodeTuple data = Ok t → typed_row metadata t → metas !! c = Some column →
  ∃ f, decodeRawColumn data c = Ok f ∧ raw_wf f ∧ toValue f = field c t.
Proof.
  intros Hdec Ht Hc. destruct (typed_field metadata t c column Ht Hc) as (Hf & _).
  by apply (raw_column_of_row data t).
Qed.

Lemma count_step_ok argument count data t :
  (∀ c, argument = Some c → is_Some (metas !! c)) →
  decodeTuple data = Ok t → typed_row metadata t →
  count_step (dp_predicate plan) argument count data =
  Ok (if row_passes (dp_predicate plan) t && counts_field argument t then count + 1 else count)%Z.
Proof.
  intros Harg Hdec Ht. pose proof (po_predicate _ _ _ _ Hplan) as Hvalid. unfold count_step.
  assert (∀ c, argument = Some c →
    ∃ f, decodeRawColumn data c = Ok f ∧ raw_wf f ∧ toValue f = field c t) as Hargument.
  { intros c Hc. destruct (Harg c Hc) as [column Hcol]. by apply (raw_column data t c column). }
  destruct (dp_predicate plan) as [pred|]; cbn [row_passes].
  - destruct Hvalid as ([column Hc] & Hop & _).
    destruct (raw_column data t _ column Hdec Ht Hc) as (f & Hf & Hwf & Hv). rewrite Hf.
    cbn [rbind]. rewrite field_matches_ok, Hv by done. cbn [rbind].
    destruct (plan_passes pred _) eqn:Hpass; [|done]. cbn [andb counts_field].
    destruct argument as [c|]; [|done]. destruct (Hargument c eq_refl) as (g & Hg & Hgwf & Hgv).
    case (c =? pp_column pred)%nat eqn:Heq.
    + apply Nat.eqb_eq in Heq as ->. cbn [rbind counts_field]. rewrite raw_isNull, Hv by done.
      by destruct (isNull _).
    + rewrite Hg. cbn [rbind counts_field]. rewrite raw_isNull, Hgv by done. by destruct (isNull _).
  - destruct argument as [c|]; [|done]. destruct (Hargument c eq_refl) as (g & -> & Hgwf & Hgv).
    cbn [rbind counts_field andb]. rewrite raw_isNull, Hgv by done. by destruct (isNull _).
Qed.

Lemma count_rows_ok argument raws ts count :
  (∀ c, argument = Some c → is_Some (metas !! c)) → raw_rows metadata raws ts →
  rfold (count_step (dp_predicate plan) argument) raws count =
  Ok (count + Z.of_nat (length (List.filter (counts_field argument) (passing ts))))%Z.
Proof.
  intros Harg Hraw. revert count. unfold passing. induction Hraw as [|data t raws ts [Hdec Ht] _ IH]; intros count.
  - cbn. by rewrite Z.add_0_r.
  - cbn [rfold List.filter]. rewrite (count_step_ok argument count data t) by done. cbn [rbind].
    rewrite IH. destruct (row_passes _ t); cbn [andb List.filter]; [|done].
    destruct (counts_field argument t); cbn [length]; [|done]. f_equal. lia.
Qed.

(** What the scan of the statement counts. *)
Definition counted_state (n : nat) : StreamAggregateState := mkStreamState (Z.of_nat n) dzero true None [].

Lemma lone_count_step argument row p n t :
  projects s metadata (AggregatePlan Count argument) p → typed_row metadata t →
  row = table_row s metadata t →
  stream_step row p (VNull, counted_state n) =
  Ok (VNull, counted_state (if counts_field argument t then S n else n)).
Proof.
  intros Hp Ht ->. unfold counted_state.
  assert (Z.of_nat n + 1 = Z.of_nat (S n))%Z as Hn by lia.
  destruct argument as [c|], p as [e| |k e]; cbn in Hp; try done.
  - destruct Hp as [-> [_ He]]. cbn. rewrite (He t Ht). cbn. by destruct (isNull (field c t)); rewrite ?Hn.
  - cbn. by rewrite Hn.
Qed.

Lemma lone_count_groups argument p ts n :
  s_groupBy s = [] → projects s metadata (AggregatePlan Count argument) p →
  Forall (typed_row metadata) ts →
  stream_more s [p] (table_row s metadata <$> ts) [([], [(VNull, counted_state n)])] =
  Ok [([], [(VNull, counted_state (n + length (List.filter (counts_field argument) ts)))])].
Proof.
  intros Hg Hp Hts. unfold stream_more. rewrite Hg. revert n.
  induction Hts as [|t ts Ht _ IH]; intros n; [by rewrite Nat.add_0_r|].
  rewrite fmap_cons. cbn [rfold group_key rmap group_update tupleEqual stream_row List.filter rbind].
  rewrite (lone_count_step argument _ p n t Hp Ht eq_refl). cbn [rbind].
  rewrite IH. destruct (counts_field argument t); cbn [length]; [|done].
  by rewrite Nat.add_succ_r.
Qed.

Context (iterate : ∀ A : Type, list (tuple * A) → list (tuple * A)) (Hwalk : hash_walk iterate).

Lemma walk_one {A} (g : tuple * A) : iterate A [g] = [g].
Proof. apply Permutation_singleton_r, (walk_all _ Hwalk). Qed.

Lemma lone_count_answer argument ts :
  lone_count plan = Some argument → Forall (typed_row metadata) ts →
  answer_of s metadata plan ps iterate (passing ts) =
  Ok [[VInteger (Z.of_nat (length (List.filter (counts_field argument) (passing ts))))]].
Proof.
  intros Hlone Hts. unfold lone_count in Hlone.
  pose proof (po_groups _ _ _ _ Hplan) as Hgroups. pose proof (po_projections _ _ _ _ Hplan) as Hprojs.
  unfold answer_of, scalar_start. destruct (dp_groups plan); [|done].
  destruct (dp_projections plan) as [|[|[] arg] [|]]; try done. injection Hlone as ->.
  destruct ps as [|p [|]]; try (by inversion Hprojs; subst; match goal with H : Forall2 _ _ _ |- _ => inversion H end).
  inversion_clear Hprojs as [|? ? ? ? Hp _].
  inversion Hgroups as [Hnil|]. symmetry in Hnil.
  cbn [direct_start map]. change stream_start with (counted_state 0).
  rewrite (lone_count_groups argument p _ 0 Hnil Hp).
  - cbn [rbind]. rewrite walk_one. done.
  - eapply List.incl_Forall; [apply List.incl_filter|done].
Qed.

Lemma lone_count_argument argument c :
  lone_count plan = Some argument → argument = Some c → is_Some (metas !! c).
Proof.
  intros Hlone ->. pose proof (po_projections _ _ _ _ Hplan) as Hprojs. unfold lone_count in Hlone.
  destruct (dp_groups plan); [|done]. destruct (dp_projections plan) as [|[|[] arg] [|]]; try done.
  injection Hlone as ->. inversion_clear Hprojs as [|? p ? ? Hp _].
  destruct p; try done. apply Hp.
Qed.

(** The counts of the values answer an equality with a literal. *)
Lemma counts_answer_ok argument predicate ts :
  counts_answer (dp_predicate plan) argument = Some predicate → Forall (typed_row metadata) ts →
  is_Some (metas !! pp_column predicate) ∧
  occurrences (pp_literal predicate) (not_null (field (pp_column predicate) <$> ts)) =
  length (List.filter (counts_field argument) (passing ts)).
Proof.
  intros Hans Hts. pose proof (po_predicate _ _ _ _ Hplan) as Hvalid. unfold passing.
  destruct (dp_predicate plan) as [pred|]; [|done]. unfold counts_answer in Hans.
  case_match eqn:Hconds; [|done]. injection Hans as ->.
  rewrite !andb_true_iff, negb_true_iff, String.eqb_eq in Hconds. destruct Hconds as [[Heq Harg] Hnull].
  destruct Hvalid as ([column Hc] & Hop & Hlit). split; [done|].
  rewrite counted_passes; [|done..|].
  - assert (Hcol : ∀ t, plan_passes predicate (field (pp_column predicate) t) = true → counts_field argument t = true).
    { intros t. unfold plan_passes. destruct argument as [c|]; [|done]. apply Nat.eqb_eq in Harg as ->.
      cbn [counts_field]. by destruct (isNull (field (pp_column predicate) t)). }
    clear -Hcol. induction ts as [|t ts IH]; [done|]. rewrite fmap_cons. cbn.
    destruct (plan_passes predicate (field (pp_column predicate) t)) eqn:Hp; [|done]. cbn.
    rewrite (Hcol t Hp). cbn [length]. by f_equal.
  - apply Forall_fmap. eapply Forall_impl; [exact Hts|]. intros t Ht. right.
    by destruct (typed_field metadata t _ column Ht Hc) as (_ & _ & ?).
Qed.
End statement.

(** * Groups in an array *)

(** The integers a double holds exactly: equal ones have equal doubles. *)
Definition exact_integer (v : Value) : Prop :=
  match v with VInteger z => (- 2 ^ 53 ≤ z ≤ 2 ^ 53)%Z | _ => True end.

#[global] Instance exact_integer_dec v : Decision (exact_integer v).
Proof. destruct v; cbn; apply _. Defined.

Lemma exact_integers_eqb a b :
  exact_integer (VInteger a) → exact_integer (VInteger b) →
  value_eqb (VInteger a) (VInteger b) = (a =? b)%Z.
Proof.
  cbn. intros Ha Hb. rewrite <- compare_zero by (cbn; unfold i64; lia).
  rewrite compare_integers by done. destruct (Z.compare_spec a b); cbn; lia.
Qed.

Lemma exact_integers_compare a b :
  exact_integer (VInteger a) → exact_integer (VInteger b) →
  (compare (VInteger a) (VInteger b) ≤ 0)%Z → (a ≤ b)%Z.
Proof.
  cbn. intros Ha Hb. rewrite compare_integers by done. destruct (Z.compare_spec a b); cbn; lia.
Qed.

(** ** Updating a group of a hash map *)

Section groups.
Context {A : Type}.
Implicit Types groups rest : list (tuple * A).

Definition other_key (key : tuple) (g : tuple * A) : Prop := tupleEqual g.1 key = false.

Lemma group_update_absent key empty f groups a :
  Forall (other_key key) groups → f empty = Ok a →
  group_update key empty f groups = Ok (groups ++ [(key, a)]).
Proof.
  intros Hother Hf. induction Hother as [|[k b] groups Hk _ IH]; cbn; [by rewrite Hf|].
  unfold other_key in Hk. cbn in Hk. by rewrite Hk, IH.
Qed.

Lemma group_update_found key empty f groups rest k a a' :
  groups ≡ₚ (k, a) :: rest → tupleEqual k key = true → Forall (other_key key) rest → f a = Ok a' →
  ∃ groups', group_update key empty f groups = Ok groups' ∧ groups' ≡ₚ (k, a') :: rest.
Proof.
  intros Hperm Hk Hother Hf.
  assert ((k, a) ∈ groups) as (g1 & g2 & ->)%list_elem_of_split by (rewrite Hperm; apply list_elem_of_here).
  rewrite <- Permutation_middle in Hperm. apply Permutation.Permutation_cons_inv in Hperm.
  exists (g1 ++ (k, a') :: g2). split; [|by rewrite <- Permutation_middle, Hperm].
  rewrite <- Hperm in Hother. apply Forall_app in Hother as [Hother _]. clear Hperm.
  induction Hother as [|[k0 b] g1 Hk0 _ IH]; cbn; [by rewrite Hk, Hf|].
  unfold other_key in Hk0. cbn in Hk0. by rewrite Hk0, IH.
Qed.
End groups.

(** ** The array *)

Section dense.
Context (projs : list ProjectionPlan) (column : nat).
Context (Hdense : forallb (dense_projection column) projs = true).
Context (minimum maximum : Z).
Context (Hmin : exact_integer (VInteger minimum)) (Hmax : exact_integer (VInteger maximum)).

(** The cells of a group of the array. *)
Definition cells_of (key : Value) (states : list StreamAggregateState) : list stream_cell :=
  zip_with (λ p state, match p with
                       | RepresentativeColumn _ => (key, state)
                       | AggregatePlan _ _ => (VNull, state)
                       end) projs states.

Definition entry (g : DenseGroup) : tuple * list stream_cell :=
  ([dg_key g], cells_of (dg_key g) (dg_states g)).

(** The groups that are present are those of the hash map. *)
Record dense_groups (dense : list DenseGroup) (groups : list (tuple * list stream_cell)) : Prop := {
  dn_length : length dense = (Z.to_nat (maximum - minimum) + 1)%nat;
  dn_key : ∀ i g, dense !! i = Some g →
    if dg_present g then dg_key g = VInteger (minimum + Z.of_nat i) else g = dense_start projs;
  dn_entries : groups ≡ₚ entry <$> List.filter dg_present dense;
}.

Lemma cells_of_start : cells_of VNull (dg_states (dense_start projs)) = direct_start projs.
Proof.
  unfold cells_of, dense_start, direct_start. cbn [dg_states]. clear Hdense.
  induction projs as [|p l IH]; [done|]. cbn. rewrite IH. by destruct p.
Qed.

Lemma dense_others dense i :
  (minimum ≤ maximum)%Z → length dense = (Z.to_nat (maximum - minimum) + 1)%nat →
  (∀ j g, dense !! j = Some g → dg_present g = true → dg_key g = VInteger (minimum + Z.of_nat j)) →
  (i < length dense)%nat →
  Forall (other_key [VInteger (minimum + Z.of_nat i)])
    (entry <$> List.filter dg_present (take i dense ++ drop (S i) dense)).
Proof.
  intros Hle Hlen Hkeys Hi. apply Forall_fmap, Forall_forall. intros g Hg.
  apply list_elem_of_In, List.filter_In in Hg as [Hg%list_elem_of_In Hpres].
  assert (∃ j, dense !! j = Some g ∧ j ≠ i) as (j & Hj & Hne).
  { apply elem_of_app in Hg as [Hg|Hg]; apply list_elem_of_lookup in Hg as [k Hk].
    - apply lookup_take_Some in Hk as [Hk Hlt]. exists k. split; [done|lia].
    - rewrite lookup_drop in Hk. exists (S i + k)%nat. split; [done|lia]. }
  pose proof (lookup_lt_Some _ _ _ Hj). cbn in Hmin, Hmax. unfold compose, other_key, entry. cbn [fst tupleEqual].
  rewrite (Hkeys j g Hj Hpres), exact_integers_eqb by (cbn; lia). rewrite andb_true_r. lia.
Qed.

(** A row enters the group of its key, in the array as in the hash map. *)
Lemma dense_update dense groups i g f states :
  (minimum ≤ maximum)%Z → dense_groups dense groups → dense !! i = Some g →
  f (cells_of (dg_key g) (dg_states g)) = Ok (cells_of (VInteger (minimum + Z.of_nat i)) states) →
  ∃ groups',
    group_update [VInteger (minimum + Z.of_nat i)] (direct_start projs) f groups = Ok groups' ∧
    dense_groups (<[i := mkDense true (VInteger (minimum + Z.of_nat i)) states]> dense) groups'.
Proof.
  intros Hle [Hlen Hkeys Hentries] Hi Hf. set (key := VInteger (minimum + Z.of_nat i)) in *.
  set (new := mkDense true key states). pose proof (lookup_lt_Some _ _ _ Hi) as Hlt.
  assert (Forall (other_key [key]) (entry <$> List.filter dg_present (take i dense ++ drop (S i) dense)))
    as Hothers.
  { apply dense_others; try done. intros j h Hj Hp. specialize (Hkeys j h Hj). by rewrite Hp in Hkeys. }
  assert (∀ groups', groups' ≡ₚ entry new :: (entry <$> List.filter dg_present (take i dense ++ drop (S i) dense)) →
    dense_groups (<[i := new]> dense) groups') as Hnew.
  { intros groups' Hperm. split; [by rewrite length_insert| |].
    - intros j h. destruct (decide (j = i)) as [->|Hne].
      + rewrite list_lookup_insert_eq by done. by intros [= <-].
      + rewrite list_lookup_insert_ne by done. apply Hkeys.
    - rewrite Hperm, insert_take_drop by done. rewrite !List.filter_app, !fmap_app. cbn [List.filter].
      change (dg_present new) with true. cbn match. rewrite fmap_cons. by rewrite <- Permutation_middle. }
  rewrite <- (take_drop_middle _ _ _ Hi), List.filter_app, fmap_app in Hentries. cbn [List.filter] in Hentries.
  pose proof (Hkeys i g Hi) as Hg. destruct (dg_present g) eqn:Hpres.
  - rewrite fmap_cons, <- Permutation_middle, <- fmap_app, <- List.filter_app in Hentries.
    assert (tupleEqual [dg_key g] [key] = true) as Hk.
    { rewrite Hg. unfold key. cbn [tupleEqual]. rewrite exact_integers_eqb, Z.eqb_refl; [done|cbn in *; lia..]. }
    destruct (group_update_found [key] (direct_start projs) f groups _ [dg_key g] _ _ Hentries Hk Hothers Hf)
      as (groups' & Hup & Hperm).
    exists groups'. split; [done|]. apply Hnew. rewrite Hperm. by rewrite Hg.
  - rewrite <- fmap_app, <- List.filter_app in Hentries. rewrite Hg in Hf.
    change (dg_key (dense_start projs)) with VNull in Hf. rewrite cells_of_start in Hf.
    eexists. split; [apply group_update_absent; [by rewrite Hentries|exact Hf]|].
    apply Hnew. rewrite Hentries. symmetry. apply Permutation_cons_append.
Qed.

(** The cells of a row. *)
Lemma dense_states_ok required fields key f z states states' :
  (key = VNull ∨ key = VInteger z) → fieldAt required fields column = Ok f → toValue f = VInteger z →
  dense_states required fields projs states = Ok states' →
  direct_cells required fields projs (cells_of key states) = Ok (cells_of (VInteger z) states').
Proof.
  intros Hkey Hf Hz. unfold cells_of. revert Hdense states states'.
  induction projs as [|p l IH]; intros Hd [|state states] states'; cbn [dense_states zip_with direct_cells];
    try (by intros [= <-]).
  cbn [forallb] in Hd. apply andb_true_iff in Hd as [Hp Hd]. intros Hs.
  apply rbind_Ok in Hs as (state' & Hs & Hrest). apply rbind_Ok in Hrest as (rest & Hrest & [= <-]).
  specialize (IH Hd states rest Hrest). cbn [zip_with].
  destruct p as [c|kind [c|]]; cbn [direct_cell dense_projection] in *.
  - apply Nat.eqb_eq in Hp as ->. injection Hs as ->.
    destruct Hkey as [->| ->]; cbn [isNull]; rewrite ?Hf; cbn [rbind]; by rewrite ?Hz, IH.
  - apply rbind_Ok in Hs as (g & -> & Hs). cbn [rbind]. rewrite Hs. cbn [rbind]. by rewrite IH.
  - injection Hs as <-. cbn [rbind]. by rewrite IH.
Qed.

(** The rows of the groups. *)
Lemma dense_output_ok key states :
  dense_output projs key states = makeOutput projs (cells_of key states).
Proof.
  unfold cells_of. clear Hdense. revert states.
  induction projs as [|p l IH]; intros [|state states]; try done.
  cbn [dense_output makeOutput zip_with]. rewrite IH. by destruct p.
Qed.

Lemma dense_outputs dense groups out groups' :
  dense_groups dense groups → groups' ≡ₚ groups →
  rmap (λ group, dense_output projs (dg_key group) (dg_states group)) (List.filter dg_present dense) = Ok out →
  ∃ out', rmap (λ group, makeOutput projs group.2) groups' = Ok out' ∧ out ≡ₚ out'.
Proof.
  intros Hd Hwalk Hout. apply rmap_Ok in Hout.
  assert (Forall2 (λ group row, makeOutput projs group.2 = Ok row) (entry <$> List.filter dg_present dense) out)
    as Hall.
  { apply Forall2_fmap_l. eapply Forall2_impl; [exact Hout|]. intros g row Hrow. cbn beta in Hrow.
    by rewrite dense_output_ok in Hrow. }
  assert (entry <$> List.filter dg_present dense ≡ₚ groups') as Hentries.
  { rewrite Hwalk. symmetry. apply (dn_entries _ _ Hd). }
  destruct (Permutation_Forall2 Hentries Hall) as (out' & Hperm & Hall').
  exists out'. split; [by apply rmap_Ok|done].
Qed.
End dense.

Section array.
Context (s : Select_) (metadata : TableMeta) (plan : DirectPlan) (ps : list StreamProjection).
Context (Hplan : plan_ok s metadata plan ps) (Hcolumns : Forall column_ok (t_columns metadata)).

Abbreviation metas := (t_columns metadata).

Lemma dense_column_ok column :
  dense_column metadata plan = Ok (Some column) →
  dp_groups plan = [column] ∧ forallb (dense_projection column) (dp_projections plan) = true ∧
  ∃ meta, metas !! column = Some meta ∧
    ∀ t, typed_row metadata t → ∃ z, field column t = VInteger z.
Proof.
  unfold dense_column. destruct (dp_groups plan) as [|c [|]]; try done.
  destruct (metas !! c) as [meta|] eqn:Hc; [|done]. intros Hd.
  apply rbind_Ok in Hd as (ty & Hty & Hd). case_match eqn:Hconds; [|done]. injection Hd as <-.
  rewrite !andb_true_iff, orb_true_iff, !bool_decide_eq_true in Hconds.
  destruct Hconds as [[Hnn Hkind] Hprojs]. split_and!; [done..|]. exists meta. split; [done|].
  intros t Ht. destruct (typed_field metadata t c meta Ht Hc) as (_ & Hok & _).
  pose proof (value_ok_fits meta _ ty (Forall_lookup_1 _ _ _ _ Hcolumns Hc) Hok Hty) as Hfits.
  destruct (field c t) as [|z|d|x|b|bs]; cbn in Hok; [|by exists z|..].
  { destruct Hok as [Hok _]. congruence. }
  all: destruct Hfits as [Hfits|Hfits]; [done|]; cbn in Hfits; subst ty; first [done|by destruct Hkind].
Qed.

Lemma dense_field f z :
  raw_wf f → toValue f = VInteger z → rf_isNull f = false ∧ raw_numeric f = true ∧ dense_value f = z.
Proof.
  intros Hwf Hv. pose proof (raw_numeric_spec f Hwf) as Hnum. rewrite Hv in Hnum.
  pose proof (raw_isNull f Hwf) as Hnull. rewrite Hv in Hnull. split_and!; [done..|].
  unfold toValue in Hv. rewrite Hnull in Hv. unfold dense_value.
  destruct (rf_type f); cbn in Hv; try done. rewrite bool_decide_eq_false_2 by done.
  by injection Hv.
Qed.

Section bounds.
Context (column : nat) (meta : ColumnMeta) (minimum maximum : Z).
Context (Hgroups : dp_groups plan = [column]) (Hmeta : metas !! column = Some meta).
Context (Hdense : forallb (dense_projection column) (dp_projections plan) = true).
Context (Hmin : exact_integer (VInteger minimum)) (Hmax : exact_integer (VInteger maximum)).

Abbreviation array_groups := (dense_groups (dp_projections plan) minimum maximum).

Lemma dense_row_ok data t z dense groups dense' :
  decodeTuple data = Ok t → typed_row metadata t → field column t = VInteger z →
  (minimum ≤ z ≤ maximum)%Z → array_groups dense groups →
  dense_row plan column minimum maximum dense data = Ok dense' →
  ∃ groups', direct_row plan groups data = Ok groups' ∧ array_groups dense' groups'.
Proof.
  intros Hdec Ht Hz Hrange Hd.
  destruct (plan_required_ok _ _ _ _ Hplan) as (Hcols & Hpred & Hg & Hprojs).
  destruct (direct_fields metadata data t _ Hdec Ht Hcols) as (fields & Hf & Hfields).
  unfold dense_row, direct_row. rewrite Hf. cbn [rbind].
  rewrite (predicateMatches_ok metadata (dp_predicate plan) _ t fields) by
    (done || apply (po_predicate _ _ _ _ Hplan)).
  cbn [rbind]. destruct (row_passes (dp_predicate plan) t); cbn [negb];
    [|intros [= <-]; by exists groups].
  rewrite Hgroups in Hg |- *. rewrite Forall_singleton in Hg. cbn [rmap].
  destruct (Hfields column Hg) as (f & Hfield & Hwf & Hv). rewrite Hfield. cbn [rbind].
  rewrite Hz in Hv. destruct (dense_field f z Hwf Hv) as (-> & -> & ->). cbn [negb orb].
  destruct ((z <? minimum) || (maximum <? z))%Z eqn:Hout; [lia|].
  set (i := Z.to_nat (z - minimum)). assert (Hi : z = (minimum + Z.of_nat i)%Z) by lia.
  destruct (dense !! i) as [g|] eqn:Hlookup; [|done]. intros Hrun.
  apply rbind_Ok in Hrun as (states & Hstates & [= <-]).
  assert (dg_key g = VNull ∨ dg_key g = VInteger z) as Hkey.
  { destruct Hd as [_ Hk _]. specialize (Hk i g Hlookup). destruct (dg_present g);
      [right; by rewrite Hk, <- Hi|left; by rewrite Hk]. }
  assert ((if isNull (dg_key g) then toValue f else dg_key g) = VInteger z) as ->.
  { rewrite Hv. by destruct Hkey as [-> | ->]. }
  rewrite Hv, Hi. apply (dense_update (dp_projections plan) minimum maximum Hmin Hmax _ _ i g); [lia|done..|].
  rewrite <- Hi. by apply (dense_states_ok _ column Hdense _ _ _ f).
Qed.

Lemma dense_rows_ok raws ts dense groups dense' :
  raw_rows metadata raws ts →
  Forall (λ t, ∃ z, field column t = VInteger z ∧ (minimum ≤ z ≤ maximum)%Z) ts →
  array_groups dense groups →
  rfold (dense_row plan column minimum maximum) raws dense = Ok dense' →
  ∃ groups', rfold (direct_row plan) raws groups = Ok groups' ∧ array_groups dense' groups'.
Proof.
  intros Hraw. revert dense groups.
  induction Hraw as [|data t raws ts [Hdec Ht] _ IH]; intros dense groups Hz Hd; cbn [rfold].
  { intros [= <-]. by exists groups. }
  inversion_clear Hz as [|? ? (z & Hz1 & Hrange) Hzs]. intros Hrun.
  apply rbind_Ok in Hrun as (dense1 & Hrow & Hrun).
  destruct (dense_row_ok data t z dense groups dense1 Hdec Ht Hz1 Hrange Hd Hrow) as (groups1 & -> & Hd1).
  cbn [rbind]. by apply (IH dense1).
Qed.

Lemma dense_start_ok :
  array_groups (replicate (Z.to_nat (maximum - minimum) + 1) (dense_start (dp_projections plan))) [].
Proof.
  split; [apply length_replicate| |].
  - intros i g Hg. apply lookup_replicate in Hg as [-> _]. done.
  - generalize (Z.to_nat (maximum - minimum) + 1)%nat as n. induction n as [|n IH]; [done|exact IH].
Qed.
End bounds.
End array.

(** * The engine *)

Lemma bind_Ok {S A B} (m : action S A) (k : A → action S B) p b p' :
  (m ≫= k) p = (Ok b, p') → ∃ a p1, m p = (Ok a, p1) ∧ k a p1 = (Ok b, p').
Proof.
  unfold mbind, action_bind. destruct (m p) as [[a|e] p1]; [|done]. intros Hk. by exists a, p1.
Qed.

Lemma lift_Ok {S A} (m : exec A) (p : S) a p' : lift m p = (Ok a, p') → m = Ok a ∧ p' = p.
Proof. unfold lift. by intros [= -> ->]. Qed.

Section engine.
Context {D F : Type} `{HeapFilesLaws D F}.
Context (getenv : string → option string).
Context (iterate : ∀ A : Type, list (tuple * A) → list (tuple * A)) (Hwalk : hash_walk iterate).

Section table.
Context (c : Catalog) (M : gmap string rows) (s : Select_) (t : TableMeta) (rs : rows).
Context (Ht : tables c !! s_fromTable s = Some t) (Hrs : M !! s_fromTable s = Some rs).
Context (Htab : table_ok c (s_fromTable s) t) (Htyped : Forall (typed_row t) rs.*2).

Abbreviation Planner := (planner (D:=D)).
Implicit Types p : Planner.

Lemma column_values_field i column :
  t_columns t !! i = Some column → column_values i rs = field i <$> rs.*2.
Proof.
  intros Hi. unfold column_values. rewrite Forall_fmap in Htyped. clear Hrs.
  induction Htyped as [|[r row] l Hrow _ IH]; [done|]. cbn.
  destruct (typed_field t row i column Hrow Hi) as (Hf & _). rewrite Hf. by f_equal.
Qed.

Lemma column_position_at i column :
  t_columns t !! i = Some column → column_position (named (cm_name column)) (t_columns t) = Some i.
Proof.
  intros Hi. destruct (column_position _ _) as [j|] eqn:Hj.
  - apply column_position_Some in Hj as (other & Hj & Hname). unfold named in Hname.
    apply bool_decide_eq_true in Hname. f_equal. eapply (NoDup_lookup _ _ _ (cm_name column) (to_distinct _ _ _ Htab));
      rewrite list_lookup_fmap, ?Hj, ?Hi; cbn; congruence.
  - pose proof (column_position_None _ _ Hj i column Hi) as Hn. unfold named in Hn.
    by rewrite bool_decide_eq_true_2 in Hn.
Qed.

Lemma column_well_ordered i column :
  t_columns t !! i = Some column → Forall (well_ordered WithText) (field i <$> rs.*2).
Proof.
  intros Hi. apply Forall_fmap. eapply Forall_impl; [exact Htyped|]. intros row Hrow. cbn.
  destruct (typed_field t row i column Hrow Hi) as (_ & Hok & Ho).
  by destruct (field i row); cbn in *.
Qed.

(** What the statistics of a column say. *)
Lemma column_range_at_ok p i range p' :
  planner_ok c M p → column_range_at getenv s t i p = (Ok range, p') →
  planner_ok c M p' ∧ exact_statistics (field i <$> rs.*2) range.
Proof.
  intros Hp Hrun. unfold column_range_at in Hrun. apply bind_Ok in Hrun as (column & p1 & Hcol & Hrun).
  apply lift_Ok in Hcol as [Hcol ->]. destruct (t_columns t !! i) as [meta|] eqn:Hi; [|done].
  injection Hcol as <-.
  destruct (ensureColumnRange_ok getenv c M p (s_fromTable s) (cm_name meta) Hp) as (r & p2 & Hens & Hp2 & Hans).
  rewrite Hrun in Hens. injection Hens as <- <-. split; [done|].
  pose proof (column_values_field i meta Hi) as Hvs.
  destruct (Hans t rs i WithText Ht Hrs (column_position_at i meta Hi)) as [(r & [= <-] & Hr)|[Hr _]]; [| |done].
  - rewrite Hvs. by eapply column_well_ordered.
  - by rewrite Hvs in Hr.
Qed.

(** The bytes of the rows. *)
Lemma scan_raw_ok p raws p' :
  planner_ok c M p → on_engine (scan_raw (s_fromTable s)) p = (Ok raws, p') →
  planner_ok c M p' ∧ raw_rows t raws rs.*2.
Proof.
  intros [He Hstats] Hrun.
  destruct (scan_raw_run c M (engine_ p) _ t rs He Ht Hrs) as (raw & e1 & Hscan & Hraw & He1).
  unfold on_engine, zoom in Hrun. rewrite Hscan in Hrun. injection Hrun as <- <-. split; [by split|].
  unfold raw_rows. rewrite Forall_fmap in Htyped. clear -Hraw Htyped.
  induction Hraw as [|[r data] [r' row] raw rs [_ Hdec] _ IH]; [constructor|].
  inversion_clear Htyped as [|? ? Hrow Hrest]. constructor; [done|by apply IH].
Qed.

Section plan.
Context (plan : DirectPlan) (ps : list StreamProjection) (Hplan : plan_ok s t plan ps).

Abbreviation kept := (passing plan rs.*2).
Abbreviation answer := (answer_of s t plan ps iterate).

Lemma minMax_ok p empty p' :
  planner_ok c M p → minMaxProvesEmpty getenv s t (dp_predicate plan) p = (Ok empty, p') →
  planner_ok c M p' ∧ (empty = true → kept = []).
Proof.
  intros Hp Hrun. unfold minMaxProvesEmpty in Hrun. destruct (dp_predicate plan) as [pred|] eqn:Hpred.
  - apply bind_Ok in Hrun as (range & p1 & Hrange & [= <- <-]).
    destruct (column_range_at_ok _ _ _ _ Hp Hrange) as [Hp1 [Hspec _]]. split; [done|].
    by apply (excluded_rows s t plan ps Hplan (to_columns _ _ _ Htab) pred range).
  - injection Hrun as <- <-. done.
Qed.

Lemma empty_answer :
  answer [] = match dp_groups plan with
              | [] => let* row := makeOutput (dp_projections plan) (direct_start (dp_projections plan)) in Ok [row]
              | _ :: _ => Ok []
              end.
Proof.
  unfold answer_of, stream_more, scalar_start. cbn [fmap list_fmap rfold rbind].
  destruct (dp_groups plan).
  - rewrite (walk_one iterate Hwalk). cbn. by destruct (makeOutput _ _).
  - by rewrite (proj1 (Permutation_nil_r _) (walk_all _ Hwalk _ [])).
Qed.

Lemma count_rows_run p argument out p' :
  lone_count plan = Some argument → planner_ok c M p →
  count_rows getenv s t plan argument p = (Ok out, p') →
  planner_ok c M p' ∧ answer kept = Ok out.
Proof.
  intros Hlone Hp Hrun. unfold count_rows in Hrun. apply bind_Ok in Hrun as (known & p1 & Hknown & Hrun).
  rewrite (lone_count_answer s t plan ps Hplan iterate Hwalk argument _ Hlone Htyped).
  assert (planner_ok c M p1 ∧ (∀ n, known = Some n →
    n = length (List.filter (counts_field argument) kept))) as [Hp1 Hn].
  { destruct (counts_answer _ _) as [pred|] eqn:Hans; [|by injection Hknown as <- <-].
    apply bind_Ok in Hknown as (range & p2 & Hrange & [= <- <-]).
    destruct (column_range_at_ok _ _ _ _ Hp Hrange) as [Hp2 (_ & _ & Hcounts)]. split; [done|].
    destruct (counts_answer_ok s t plan ps Hplan argument pred _ Hans Htyped) as [_ Hocc].
    intros n. destruct (valueCountsExact range); [|done]. intros [= <-]. by rewrite Hcounts. }
  destruct known as [n|].
  - injection Hrun as <- <-. split; [done|]. by rewrite <- (Hn n).
  - apply bind_Ok in Hrun as (raws & p2 & Hscan & Hrun).
    destruct (scan_raw_ok _ _ _ Hp1 Hscan) as [Hp2 Hraws].
    apply bind_Ok in Hrun as (count & p3 & Hcount & [= <- <-]). apply lift_Ok in Hcount as [Hcount ->].
    split; [done|]. rewrite (count_rows_ok s t plan ps Hplan argument raws rs.*2 0) in Hcount;
      [|intros i; by apply (lone_count_argument s t plan ps Hplan)|exact Hraws].
    injection Hcount as <-. by rewrite Z.add_0_l.
Qed.

Context (Hexact : Forall (Forall exact_integer) rs.*2).

(** The bounds of the array hold the keys of the rows. *)
Lemma dense_bounds_ok column meta range minimum maximum :
  t_columns t !! column = Some meta → (∀ row, typed_row t row → ∃ z, field column row = VInteger z) →
  exact_statistics (field column <$> rs.*2) range → dense_bounds range = Ok (Some (minimum, maximum)) →
  exact_integer (VInteger minimum) ∧ exact_integer (VInteger maximum) ∧
  Forall (λ row, ∃ z, field column row = VInteger z ∧ (minimum ≤ z ≤ maximum)%Z) rs.*2.
Proof.
  intros Hmeta Hint [[Hpresent Hbounds _ _] _] Hb. unfold dense_bounds in Hb.
  case_match eqn:Hconds; [|done]. rewrite !andb_true_iff in Hconds. destruct Hconds as [[Hpres _] _].
  apply rbind_Ok in Hb as (lo & Hlo & Hb). apply rbind_Ok in Hb as (hi & Hhi & Hb).
  case_decide; [|done]. case_match; [|done]. injection Hb as <- <-.
  rewrite Hpresent in Hpres. apply bool_decide_eq_true in Hpres.
  destruct (Hbounds Hpres) as (Hmin & Hmax & Hall).
  assert (∀ v, v ∈ not_null (field column <$> rs.*2) → ∃ z, v = VInteger z ∧ exact_integer v) as Hkey.
  { intros v Hv. apply list_elem_of_filter in Hv as [_ Hv].
    apply list_elem_of_fmap in Hv as (row & -> & Hrow). rewrite Forall_forall in Htyped, Hexact.
    destruct (Hint row (Htyped row Hrow)) as [z Hz]. exists z. split; [done|].
    destruct (typed_field t row column meta (Htyped row Hrow) Hmeta) as (Hf & _).
    by eapply Forall_lookup_1; [apply (Hexact row Hrow)|]. }
  destruct (Hkey _ Hmin) as (z1 & Hz1 & He1). destruct (Hkey _ Hmax) as (z2 & Hz2 & He2).
  rewrite Hz1 in Hlo, He1. rewrite Hz2 in Hhi, He2. cbn in Hlo, Hhi. injection Hlo as <-. injection Hhi as <-.
  split; [done|]. split; [done|]. apply Forall_forall. intros row Hrow.
  destruct (Hint row) as [z Hz]; [by rewrite Forall_forall in Htyped; apply Htyped|].
  exists z. split; [done|].
  assert (VInteger z ∈ not_null (field column <$> rs.*2)) as Hin.
  { apply list_elem_of_filter. split; [done|]. rewrite <- Hz. by apply list_elem_of_fmap_2. }
  destruct (Hkey _ Hin) as (? & _ & He). destruct (Hall _ Hin) as [Hlow Hhigh].
  rewrite Hz1 in Hlow. rewrite Hz2 in Hhigh. split; by apply exact_integers_compare.
Qed.

Lemma scan_answer raws groups out :
  raw_rows t raws rs.*2 → rfold (direct_row plan) raws (scalar_start plan) = Ok groups →
  rmap (λ group, makeOutput (dp_projections plan) group.2) (iterate _ groups) = Ok out →
  answer kept = Ok out.
Proof.
  intros Hraws Hfold Hout. unfold answer_of. rewrite (direct_scan_ok s t plan ps Hplan raws rs.*2) in Hfold by done.
  unfold passing. by rewrite Hfold.
Qed.

Lemma try_dense_ok p result p' :
  planner_ok c M p → try_dense getenv s t plan p = (Ok result, p') →
  planner_ok c M p' ∧ ∀ out, result = Some out → ∃ out', answer kept = Ok out' ∧ out ≡ₚ out'.
Proof.
  intros Hp Hrun. unfold try_dense in Hrun. apply bind_Ok in Hrun as (column & p1 & Hcol & Hrun).
  apply lift_Ok in Hcol as [Hcol ->]. destruct column as [column|]; [|by injection Hrun as <- <-].
  destruct (dense_column_ok t plan (to_columns _ _ _ Htab) column Hcol)
    as (Hgroups & Hdense & meta & Hmeta & Hint).
  apply bind_Ok in Hrun as (range & p2 & Hrange & Hrun).
  destruct (column_range_at_ok _ _ _ _ Hp Hrange) as [Hp2 Hstat].
  apply bind_Ok in Hrun as (bounds & p3 & Hbounds & Hrun). apply lift_Ok in Hbounds as [Hbounds ->].
  destruct bounds as [[minimum maximum]|]; [|by injection Hrun as <- <-].
  apply bind_Ok in Hrun as (raws & p4 & Hscan & Hrun).
  destruct (scan_raw_ok _ _ _ Hp2 Hscan) as [Hp4 Hraws].
  apply bind_Ok in Hrun as (out & p5 & Hout & [= <- <-]). apply lift_Ok in Hout as [Hout ->].
  split; [done|]. intros out' [= <-].
  destruct (dense_bounds_ok column meta range minimum maximum Hmeta Hint Hstat Hbounds) as (Hmin & Hmax & Hkeys).
  unfold dense_rows in Hout. apply rbind_Ok in Hout as (dense & Hfold & Hout).
  destruct (dense_rows_ok s t plan ps Hplan column minimum maximum Hgroups Hdense Hmin Hmax raws rs.*2 _ []
    dense Hraws Hkeys (dense_start_ok plan minimum maximum) Hfold) as (groups & Hgroups' & Hd).
  destruct (dense_outputs (dp_projections plan) minimum maximum dense groups out (iterate _ groups) Hd
    (walk_all _ Hwalk _ _) Hout) as (out' & Hout' & Hperm).
  exists out'. split; [|done]. eapply scan_answer; [done| |done].
  unfold scalar_start. by rewrite Hgroups.
Qed.

Lemma direct_rows_ok p out p' :
  planner_ok c M p → direct_rows getenv iterate s t plan p = (Ok out, p') →
  planner_ok c M p' ∧ ∃ out', answer kept = Ok out' ∧ out ≡ₚ out'.
Proof.
  intros Hp Hrun. unfold direct_rows in Hrun. apply bind_Ok in Hrun as (empty & p1 & Hempty & Hrun).
  destruct (minMax_ok _ _ _ Hp Hempty) as [Hp1 Hkept]. destruct empty.
  { rewrite (Hkept eq_refl), empty_answer. destruct (dp_groups plan).
    - apply bind_Ok in Hrun as (row & p2 & Hrow & [= <- <-]). apply lift_Ok in Hrow as [-> ->].
      cbn [rbind]. eauto.
    - injection Hrun as <- <-. eauto. }
  destruct (lone_count plan) as [argument|] eqn:Hlone.
  { destruct (count_rows_run _ _ _ _ Hlone Hp1 Hrun) as [? ?]. eauto. }
  apply bind_Ok in Hrun as (dense & p2 & Hdense & Hrun).
  destruct (try_dense_ok _ _ _ Hp1 Hdense) as [Hp2 Hout]. destruct dense as [rows|].
  { injection Hrun as <- <-. split; [done|by apply Hout]. }
  unfold scan_groups in Hrun. apply bind_Ok in Hrun as (raws & p3 & Hscan & Hrun).
  destruct (scan_raw_ok _ _ _ Hp2 Hscan) as [Hp3 Hraws].
  apply bind_Ok in Hrun as (groups & p4 & Hgroups & Hrun). apply lift_Ok in Hgroups as [Hgroups ->].
  apply lift_Ok in Hrun as [Hrun ->]. split; [done|]. exists out. split; [|done]. by eapply scan_answer.
Qed.
End plan.
End table.

Context (std_sort : list Value → list Value).

Lemma direct_simple s : direct_candidate s = true → simple_select s.
Proof.
  unfold direct_candidate. rewrite !andb_true_iff. intros [[[[[[H1 H2] H3] H4] H5] H6] _].
  split; [by destruct (s_joins s)|by destruct (s_distinct s)|by destruct (s_orderBy s)|
    by destruct (s_limit s)|by destruct (s_offset s)|by destruct (s_having s)].
Qed.

Lemma executeDirectAggregateSelect_run c M p s t rs names out p' :
  planner_ok c M p → tables c !! s_fromTable s = Some t → M !! s_fromTable s = Some rs →
  (∀ x, x ∈ rs → Forall no_nan x.2) → (∀ x, x ∈ rs → Forall exact_integer x.2) →
  from_option exact True (s_where s) →
  executeDirectAggregateSelect getenv iterate s p = (Ok (Some (names, out)), p') →
  planner_ok c M p' ∧
  ∃ out', executeSelect std_sort iterate c s (table_row s t <$> rs.*2) = Ok (names, out') ∧ out ≡ₚ out'.
Proof.
  intros Hp Ht Hrs Hnan Hints Hwhere. unfold executeDirectAggregateSelect.
  destruct (direct_candidate s) eqn:Hcan; [cbn [negb]|by intros [=]]. intros Hrun.
  pose proof (proj1 Hp) as [He Hdb]. pose proof (do_tables _ _ Hdb _ t Ht) as Htab.
  pose proof (typed_rows c M _ t rs Hdb Ht Hrs Hnan) as Htyped.
  apply bind_Ok in Hrun as (metadata & p1 & Hmeta & Hrun).
  unfold on_engine, zoom in Hmeta. rewrite (known_table_run c M (engine_ p) _ He), Ht in Hmeta.
  injection Hmeta as <- <-. 
  assert (planner_ok c M (mkPlanner (engine_ p) (tableStatistics_ p))) as Hp1 by (by destruct p).
  apply bind_Ok in Hrun as (plan & p2 & Hplan & Hrun). apply lift_Ok in Hplan as [Hplan ->].
  destruct plan as [plan|]; [|by injection Hrun].
  destruct (direct_plan_ok s t (to_distinct _ _ _ Htab) Hwhere plan Hplan) as [ps Hok].
  apply bind_Ok in Hrun as (rows & p3 & Hrows & Hrun).
  assert (Forall (Forall exact_integer) rs.*2) as Hexact by (by apply Forall_fmap, Forall_forall).
  destruct (direct_rows_ok c M s t rs Ht Hrs Htab Htyped plan ps Hok Hexact _ _ _ Hp1 Hrows)
    as (Hp3 & out' & Hanswer & Hperm).
  apply bind_Ok in Hrun as (c' & p4 & [= <- <-] & [= <- <- <-]). split; [done|]. exists out'.
  rewrite (proj1 (proj1 (proj1 Hp3))). split; [|done].
  apply (answer_select s t plan ps Hok std_sort iterate c); [done|by apply direct_simple|done|done].
Qed.
End engine.

(** C8: what the fused aggregation answers, the row-at-a-time SELECT answers on
    the rows a scan of the table gives, with the same names and the same rows up
    to their order, after any statements and any questions about statistics:
    when the bounds of a column prove that no row passes, when the counts of its
    values answer an equality, when the groups are in an array and when they are
    in a hash map; and it leaves the tables as they are.  No literal of the
    condition and no value of a row is a NaN, and the integers of the rows are at
    most 2^53 in magnitude, so that doubles hold them exactly (see
    [array_loses_rounded_keys]). *)
Theorem fused_aggregation_is_row_select (getenv : string → option string) (batchRows capacity : nat)
    (ops : list planner_op) (std_sort : list Value → list Value)
    (iterate : ∀ A : Type, list (tuple * A) → list (tuple * A))
    (s : Select_) (l : list ScanRow) names out p' :
  (0 < batchRows)%nat → Forall op_ok ops → hash_walk iterate → from_option exact True (s_where s) →
  let p := planner_after getenv batchRows capacity ops in
  (scanTable (H:=heap_files batchRows) (s_fromTable s) (s_fromAlias s) (engine_ p)).1 = Ok l →
  Forall (λ r, Forall (λ v, no_nan v ∧ exact_integer v) (values (sc_row r))) l →
  executeDirectAggregateSelect (H:=heap_files batchRows) getenv iterate s p = (Ok (Some (names, out)), p') →
  (∃ out', executeSelect std_sort iterate (catalog_ (engine_ p)) s (sc_row <$> l) = Ok (names, out') ∧
     out ≡ₚ out') ∧
  ∃ M, observed batchRows (catalog_ (engine_ p)) M (engine_ p) ∧
    observed batchRows (catalog_ (engine_ p)) M (engine_ p').
Proof.
  intros Hbatch Hops Hwalk Hwhere p Hscan Hvals Hrun.
  destruct (planner_after_ok getenv batchRows capacity Hbatch ops Hops) as (c & M & Hp).
  fold p in Hp. pose proof (proj1 Hp) as HM. rewrite (proj1 (proj1 HM)).
  destruct (scan_gives_rows batchRows Hbatch c M (engine_ p) s l HM Hscan) as (t & rs & Ht & Hrs & Hl).
  pose proof (scanned_values _ s t l rs Hl Hvals) as Hall.
  destruct (executeDirectAggregateSelect_run (H0:=heap_files_laws batchRows Hbatch) getenv iterate Hwalk
    std_sort c M p s t rs names out p' Hp Ht Hrs) as [Hp' (out' & Hselect & Hperm)]; [| |done..|].
  - intros x Hx. eapply Forall_impl; [exact (Hall x Hx)|]. by intros v [? _].
  - intros x Hx. eapply Forall_impl; [exact (Hall x Hx)|]. by intros v [_ ?].
  - rewrite Hl. split; [by exists out'|].
    exists M. split; apply (holds_observed batchRows Hbatch); [done|apply Hp'].
Qed.

#[local] Open Scope string_scope.

(** ** A grouped statement with its groups in an array *)

Definition points_table : data_stmt :=
  Create (mkCreate "points" [mkColumnDef "team" "int" false true "" ""; mkColumnDef "score" "int" false false "" ""]
            false here).

Definition points (rows : list (Z * Z)) : planner_op :=
  Statement (Insert_ (mkInsert "points" []
    ((λ r : Z * Z, [int_literal r.1; int_literal r.2]) <$> rows) here)).

Definition points_ops : list planner_op :=
  [Statement points_table; points [(5, 1); (3, 2); (5, 4)]; Statistics "points" "score"].

(** slay team, stack(score), headcount from points where 1 < score squad by team *)
Definition points_query (low : Z) : Select_ :=
  mkSelect false [column "team"; call "stack" false (column "score"); FunctionCall "headcount" [] false "" here]
    "points" "" [] (Some (BinaryOp "<=" (int_literal low) (column "score") "" here))
    [column "team"] None [] None None here.

Definition fused (ops : list planner_op) (s : Select_) : exec (option (list string * list tuple)) :=
  (executeDirectAggregateSelect (H:=heap_files 1) (λ _, None) (λ A l, l) s
     (planner_after (λ _, None) 1 2 ops)).1.

(** The same statement on the rows of a scan. *)
Definition row_by_row (ops : list planner_op) (s : Select_) : exec (list string * list tuple) :=
  let e := engine_ (planner_after (λ _, None) 1 2 ops) in
  let* l := (scanTable (H:=heap_files 1) (s_fromTable s) (s_fromAlias s) e).1 in
  executeSelect (λ l, l) (λ A l, l) (catalog_ e) s (sc_row <$> l).

Definition points_scan : list ScanRow :=
  match (scanTable (H:=heap_files 1) "points" "" (engine_ (planner_after (λ _, None) 1 2 points_ops))).1 with
  | Ok l => l
  | Err _ => []
  end.

Definition points_answer : list tuple :=
  [[VInteger 3; VInteger 2; VInteger 1]; [VInteger 5; VInteger 4; VInteger 1]].

Lemma points_ops_ok : Forall op_ok points_ops.
Proof. repeat constructor; cbn; unfold i64; lia. Qed.

Lemma fused_aggregation_is_row_select_witness :
  ∃ out', executeSelect (λ l, l) (λ A l, l)
    (catalog_ (engine_ (planner_after (λ _, None) 1 2 points_ops))) (points_query 2)
    (sc_row <$> points_scan) = Ok (["team"; "stack"; "headcount"], out') ∧ points_answer ≡ₚ out'.
Proof.
  destruct (fused_aggregation_is_row_select (λ _, None) 1 2 points_ops (λ l, l) (λ A l, l) (points_query 2)
    points_scan ["team"; "stack"; "headcount"] points_answer
    (executeDirectAggregateSelect (H:=heap_files 1) (λ _, None) (λ A l, l) (points_query 2)
       (planner_after (λ _, None) 1 2 points_ops)).2
    (le_n 1) points_ops_ok Demo.walk_in_order) as [Hanswer _].
  - cbn. unfold i64. lia.
  - vm_compute. reflexivity.
  - apply (bool_decide_unpack _). vm_compute. exact I.
  - apply run_result. vm_compute. reflexivity.
  - exact Hanswer.
Defined.

(** The array holds the groups in the order of their keys, the hash map in the
    order of their rows. *)
Example array_orders_groups :
  fused points_ops (points_query 1) =
    Ok (Some (["team"; "stack"; "headcount"],
              [[VInteger 3; VInteger 2; VInteger 1]; [VInteger 5; VInteger 5; VInteger 2]])) ∧
  row_by_row points_ops (points_query 1) =
    Ok (["team"; "stack"; "headcount"],
        [[VInteger 5; VInteger 5; VInteger 2]; [VInteger 3; VInteger 2; VInteger 1]]).
Proof. split; vm_compute; reflexivity. Qed.

(** ** Where the two answers differ *)

(** The bounds compare integers as doubles, the array indexes them exactly: the
    row of 2^53 + 1 is beyond the greatest key 2^53 and is lost. *)
Theorem array_loses_rounded_keys :
  let ops := [Statement points_table; points [(2 ^ 53, 1); (2 ^ 53 + 1, 2)]]%Z in
  fused ops (points_query 0) =
    Ok (Some (["team"; "stack"; "headcount"], [[VInteger (2 ^ 53); VInteger 1; VInteger 1]])) ∧
  row_by_row ops (points_query 0) =
    Ok (["team"; "stack"; "headcount"], [[VInteger (2 ^ 53); VInteger 3; VInteger 2]]).
Proof. split; vm_compute; reflexivity. Qed.

(** The span of the keys overflows before it is compared with the limit. *)
Theorem array_span_overflows :
  let ops := [Statement points_table; points [(2 ^ 63 - 1, 1); (-2, 2)]]%Z in
  fused ops (points_query 0) = Err (Undefined "signed integer overflow") ∧
  row_by_row ops (points_query 0) =
    Ok (["team"; "stack"; "headcount"],
        [[VInteger (2 ^ 63 - 1); VInteger 1; VInteger 1]; [VInteger (-2); VInteger 2; VInteger 1]]).
Proof. split; vm_compute; reflexivity. Qed.
