(* ===== verification/Point.v ===== *)
(** The SELECT of one table, whichever way it takes: [executeRawPointSelect]
    ([src/native_fast_paths.cpp]) reads the bytes of the row of a primary key, and
    [executeSelect] ([src/native_engine.cpp]) tries it first, then the fused
    aggregation, then the vectors, and else evaluates the rows of a key lookup or
    of a scan one at a time.  A statement without joins never reaches the
    aggregation over row-identifier seeks nor the planned joins, which refuse it,
    and its joins in source order are none.  The counters are not modelled. *)

From S2P Require Import Prelude.
From S2P Require Import Value.
From S2P Require Import Tuple.
From S2P Require Import Raw.
From S2P Require Import Ast.
From S2P Require Import Catalog.
From S2P Require Import Eval.
From S2P Require Import Select.
From S2P Require Import BTree.
From S2P Require Import Store.
From S2P Require Import Engine.
From S2P Require Import Stats.
From S2P Require Import Vector.
From S2P Require Import Direct.

#[local] Open Scope string_scope.

(** ** The key a condition asks for *)

Section Key.
Context (table alias : string) (primary : ColumnMeta).

(** [match] *)
Definition match_key (columnNode valueNode : Node) : exec (option Value) :=
  match columnNode, valueNode with
  | ColumnRef qualifier name _ _, Literal _ _ =>
      if negb (bool_decide (name = cm_name primary)) then Ok None
      else if negb (qualifier =? "") && negb (qualifier =? table) && negb (qualifier =? alias) then
        Ok None
      else
        let* v := eval valueNode (mkRow None []) in
        let* key := coerceValue primary v in
        Ok (Some key)
  | _, _ => Ok None
  end.

Fixpoint key_of (expression : Node) : exec (option Value) :=
  match expression with
  | BinaryOp op l r _ _ =>
      if op =? "AND" then
        let* result := key_of l in
        match result with
        | Some key => Ok (Some key)
        | None => key_of r
        end
      else if negb (op =? "=") then Ok None
      else
        let* result := match_key l r in
        match result with
        | Some key => Ok (Some key)
        | None => match_key r l
        end
  | _ => Ok None
  end.
End Key.

Definition primaryKeyPredicate (catalog : Catalog) (table alias : string) (expression : option Node)
    : exec (option Value) :=
  match getTable catalog table, expression with
  | Some metadata, Some e =>
      match List.find is_primary (t_columns metadata) with
      | Some primary => key_of table alias primary e
      | None => Ok None
      end
  | _, _ => Ok None
  end.

(** ** [executeRawPointSelect] *)

(** The statement may be answered by the row of one key. *)
Definition point_candidate (s : Select_) : exec bool :=
  let* positiveLimit :=
    match s_limit s with
    | None => Ok true
    | Some _ => let* limit := integerLiteral (s_limit s) (-1) in Ok (0 <? limit)%Z
    end in
  Ok (is_nil (s_joins s) && negb (s_distinct s) && none (s_having s) && is_nil (s_orderBy s) &&
      positiveLimit && none (s_offset s) && is_nil (s_groupBy s) && negb (selectHasAggregate s)).

Section Columns.
Context (s : Select_) (metadata : TableMeta).

(** The columns one projected expression names; [resolveColumnIndex] is the
    function of [Direct.v], whose text the two C++ functions share. *)
Definition point_column (expression : Node) : exec (option (list nat)) :=
  match expression with
  | Wildcard qualifier _ _ =>
      if negb (qualifier =? "") && negb (qualifier =? s_fromTable s) &&
         negb (qualifier =? s_fromAlias s)
      then Ok None
      else Ok (Some (seq 0 (length (t_columns metadata))))
  | ColumnRef qualifier name _ _ =>
      let* index := resolveColumnIndex s metadata qualifier name in Ok (Some [index])
  | _ => Ok None
  end.

(** [projectionColumns] *)
Fixpoint point_columns (columns : list Node) : exec (option (list nat)) :=
  match columns with
  | [] => Ok (Some [])
  | expression :: columns =>
      let* here := point_column expression in
      match here with
      | None => Ok None
      | Some indexes =>
          let* rest := point_columns columns in
          match rest with
          | None => Ok None
          | Some others => Ok (Some (indexes ++ others)%list)
          end
      end
  end.
End Columns.

Definition point_required (projectionColumns : list nat) : list nat :=
  fold_left (λ set column, set_insert column set) projectionColumns [].

Definition point_value (required : list nat) (fields : list RawField) (column : nat) : exec Value :=
  match field_position column required 0 ≫= λ position, fields !! position with
  | Some field => Ok (toValue field)
  | None => Err (Throw "Raw point column was not decoded")
  end.

Section Point.
Context {D F : Type} `{HeapFiles D F}.

(** The row of the key, if there is one. *)
Definition point_rows (s : Select_) (projectionColumns : list nat) (key : Value)
    : action (engine (D:=D)) (option (list tuple)) :=
  let required := point_required projectionColumns in
  index ← primaryIndex (s_fromTable s);
  found ← lift (BTree.find index key);
  match found with
  | None => mret (Some [])
  | Some rowId =>
      file ← lift (heap (s_fromTable s));
      read ← on_heap file (heap_read_raw rowId);
      match read.1 with
      | None => _ ← set_indexes (λ indexes, delete (s_fromTable s) indexes); mret None
      | Some data =>
          fields ← lift (decodeRawProjectedInto data required);
          row ← lift (rmap (point_value required fields) projectionColumns);
          mret (Some [row])
      end
  end.

Definition executeRawPointSelect (s : Select_)
    : action (engine (D:=D)) (option (list string * list tuple)) :=
  candidate ← lift (point_candidate s);
  if negb candidate then mret None
  else
    match s_where s with
    | Some (BinaryOp op _ _ _ _) =>
        if negb (op =? "=") then mret None
        else
          c ← gets catalog_;
          key ← lift (primaryKeyPredicate c (s_fromTable s) (s_fromAlias s) (s_where s));
          match key with
          | None => mret None
          | Some key =>
              metadata ← known_table (s_fromTable s);
              projection ← lift (point_columns s metadata (s_columns s));
              match projection with
              | None => mret None
              | Some projectionColumns =>
                  rows ← point_rows s projectionColumns key;
                  mret ((λ rows, (outputNames c s None, rows)) <$> rows)
              end
          end
    | _ => mret None
    end.

(** ** [executeSelect] *)

Context (getenv : string → option string).
Context (std_sort : list Value → list Value).
(** The order in which a hash map of groups is walked. *)
Context (iterate : ∀ A : Type, list (tuple * A) → list (tuple * A)).

(** The rows of the table that may pass the condition. *)
Definition base_rows (s : Select_) : action (engine (D:=D)) (list EvalRow) :=
  c ← gets catalog_;
  pointKey ← lift (primaryKeyPredicate c (s_fromTable s) (s_fromAlias s) (s_where s));
  base ← (match pointKey with
          | Some key => lookupPrimaryKey 2 (s_fromTable s) (s_fromAlias s) key
          | None => scanTable (s_fromTable s) (s_fromAlias s)
          end);
  mret (sc_row <$> base).

(** The paths that read no row twice, when no key is asked for. *)
Definition fast_select (s : Select_)
    : action (planner (D:=D)) (option (list string * list tuple)) :=
  c ← gets (λ p, catalog_ (engine_ p));
  pointKey ← lift (primaryKeyPredicate c (s_fromTable s) (s_fromAlias s) (s_where s));
  match pointKey with
  | Some _ => mret None
  | None =>
      direct ← executeDirectAggregateSelect getenv iterate s;
      match direct with
      | Some _ => mret direct
      | None => on_engine (executeVectorizedSelect iterate s)
      end
  end.

(** A statement without joins. *)
Definition executeTableSelect (s : Select_) : action (planner (D:=D)) (list string * list tuple) :=
  rawPoint ← on_engine (executeRawPointSelect s);
  match rawPoint with
  | Some answer => mret answer
  | None =>
      fast ← fast_select s;
      match fast with
      | Some answer => mret answer
      | None =>
          rows ← on_engine (base_rows s);
          c ← gets (λ p, catalog_ (engine_ p));
          lift (executeSelect std_sort iterate c s rows)
      end
  end.
End Point.
