(* ===== verification/PointSpec.v ===== *)
(** The SELECT of one table answers as the row-at-a-time SELECT on a scan of the
    table, whichever way it takes: the rows of a key are the rows that pass an
    equality with this key, and of more conditions they miss only rows that
    fail; the other ways are the subject of [VectorSpec.v] and [DirectSound.v]. *)

From S2P Require Import Prelude.
From S2P Require Import Double.
From S2P Require Import Config.
From S2P Require Import Value.
From S2P Require Import Tuple.
From S2P Require Import Raw.
From S2P Require Import Ast.
From S2P Require Import Catalog.
From S2P Require Import Eval.
From S2P Require Import Select.
From S2P Require Import Streaming.
From S2P Require Import BTree.
From S2P Require Import Storage.
From S2P Require Import Heap.
From S2P Require Import HeapSpec.
From S2P Require Import Store.
From S2P Require Import Engine.
From S2P Require Import Constraints.
From S2P Require Import Integrity.
From S2P Require Import Statements.
From S2P Require Import Stats.
From S2P Require Import Ranges.
From S2P Require Import Vector.
From S2P Require Import VectorSpec.
From S2P Require Import Direct.
From S2P Require Import DirectSpec.
From S2P Require Import DirectSound.
From S2P Require Import Point.

#[local] Set Warnings "-register-all".

(** * The key a condition asks for *)

Section key.
Context (table alias : string) (primary : ColumnMeta).

(** The literal that [match_key] compares the primary key with. *)
Definition literal_for (columnNode valueNode : Node) : option Value :=
  match columnNode, valueNode with
  | ColumnRef qualifier name _ _, Literal v _ =>
      if bool_decide (name = cm_name primary) &&
         ((qualifier =? "")%string || (qualifier =? table)%string || (qualifier =? alias)%string)
      then Some (literal_value v) else None
  | _, _ => None
  end.

Fixpoint key_literal (expression : Node) : option Value :=
  match expression with
  | BinaryOp op l r _ _ =>
      if (op =? "AND")%string then
        match key_literal l with Some v => Some v | None => key_literal r end
      else if (op =? "=")%string then
        match literal_for l r with Some v => Some v | None => literal_for r l end
      else None
  | _ => None
  end.

Definition coerced (o : option Value) : exec (option Value) :=
  match o with
  | Some literal => let* key := coerceValue primary literal in Ok (Some key)
  | None => Ok None
  end.

Lemma match_key_ok l r : match_key table alias primary l r = coerced (literal_for l r).
Proof.
  destruct l as [|q name a p| | | | | |], r; try done. cbn [match_key literal_for eval rbind].
  case_bool_decide; [cbn [negb andb]|done].
  destruct (q =? "")%string, (q =? table)%string, (q =? alias)%string; done.
Qed.

Lemma key_of_ok : ∀ e, key_of table alias primary e = coerced (key_literal e).
Proof.
  fix IH 1. intros e. destruct e as [| | |op l r a p| | | |]; try reflexivity. cbn [key_of key_literal].
  destruct (op =? "AND")%string; [|destruct (op =? "=")%string; [cbn [negb]|reflexivity]].
  - rewrite (IH l). destruct (key_literal l) as [v|]; cbn [coerced]; [|apply (IH r)].
    by destruct (coerceValue primary v).
  - rewrite !match_key_ok. destruct (literal_for l r) as [v|]; cbn [coerced rbind]; [|done].
    by destruct (coerceValue primary v).
Qed.
End key.

Lemma find_column_position p columns column :
  List.find p columns = Some column ↔
  ∃ i, column_position p columns = Some i ∧ columns !! i = Some column.
Proof.
  induction columns as [|c columns IH]; cbn; [naive_solver|]. destruct (p c).
  - split; [intros [= ->]; by exists 0%nat|by intros (i & [= <-] & [= ->])].
  - rewrite IH. split.
    + intros (i & -> & Hi). by exists (S i).
    + intros (i & Hi & Hc). destruct (column_position p columns) as [j|]; [|done].
      injection Hi as <-. by exists j.
Qed.

(** * The rows of the key *)

Section statement.
Context (s : Select_) (metadata : TableMeta) (Hdistinct : NoDup (cm_name <$> t_columns metadata)).
Context (p : nat) (primary : ColumnMeta).
Context (Hp : t_columns metadata !! p = Some primary) (Hprimary : cm_primary_key primary = true).

Abbreviation metas := (t_columns metadata).
Abbreviation row := (table_row s metadata).
Abbreviation literal_of := (key_literal (s_fromTable s) (s_fromAlias s) primary).

Lemma key_column t :
  typed_row metadata t → t !! p = Some (field p t) ∧ isNull (field p t) = false ∧ ordered (field p t).
Proof.
  intros Ht. destruct (typed_field metadata t p primary Ht Hp) as (Hf & Hok & Ho).
  split; [done|]. split; [|done]. destruct (field p t); cbn in Hok; try done. destruct Hok. congruence.
Qed.

Lemma literal_for_ok l r lit t :
  literal_for (s_fromTable s) (s_fromAlias s) primary l r = Some lit → typed_row metadata t →
  eval l (row t) = Ok (field p t) ∧ eval r (row t) = Ok lit.
Proof.
  destruct l as [|q name a loc| | | | | |], r as [v loc'| | | | | | |]; try done. cbn [literal_for].
  case_match eqn:Hq; [|done]. intros [= <-] Ht. split; [|done].
  rewrite andb_true_iff, bool_decide_eq_true, !orb_true_iff, !String.eqb_eq in Hq. destruct Hq as [Hname Hq].
  apply (column_means s metadata Hdistinct q name a loc p primary); [done..| |done].
  rewrite !andb_false_iff, !negb_false_iff, !String.eqb_eq. tauto.
Qed.

(** The condition is true only where the key is the literal. *)
Lemma key_literal_ok t : ∀ e lit v,
  literal_of e = Some lit → typed_row metadata t → eval e (row t) = Ok v → asBoolean v = true →
  value_eqb (field p t) lit = true.
Proof.
  fix IH 1. intros e lit v. destruct e as [| | |op l r a loc| | | |]; try (intros ?; discriminate).
  cbn [key_literal eval]. intros Hlit Ht Hv Htrue.
  apply rbind_Ok in Hv as (x & Hx & Hv). apply rbind_Ok in Hv as (y & Hy & Hv).
  destruct (op =? "AND")%string eqn:Hand.
  - unfold applyBinary in Hv. rewrite Hand in Hv. injection Hv as <-. apply andb_true_iff in Htrue as [Htx Hty].
    destruct (literal_of l) as [w|] eqn:Hl; [injection Hlit as ->; by apply (IH l lit x)|by apply (IH r lit y)].
  - destruct (op =? "=")%string eqn:Heq; [|done]. apply String.eqb_eq in Heq as ->.
    assert (value_eqb x y = true) as Hxy.
    { cbn in Hv. destruct (isNull x || isNull y); [injection Hv as <-; done|]. by injection Hv as <-. }
    destruct (literal_for _ _ _ l r) as [w|] eqn:Hl.
    + injection Hlit as ->. destruct (literal_for_ok l r lit t Hl Ht) as [El Er]. congruence.
    + destruct (literal_for_ok r l lit t Hlit Ht) as [Er El]. rewrite value_eqb_comm. congruence.
Qed.

(** An equality with the literal is true exactly there. *)
Lemma key_equality_ok l r a loc lit t :
  literal_of (BinaryOp "=" l r a loc) = Some lit → typed_row metadata t →
  keeps (Some (BinaryOp "=" l r a loc)) (row t) = Ok (value_eqb (field p t) lit).
Proof.
  cbn [key_literal String.eqb]. intros Hlit Ht. cbn in Hlit. unfold keeps. cbn [eval].
  destruct (key_column t Ht) as (_ & Hnull & _).
  assert (Hnulls : isNull lit = true → value_eqb (field p t) lit = false).
  { intros Hl. unfold value_eqb. by rewrite Hnull, Hl. }
  destruct (literal_for _ _ _ l r) as [w|] eqn:Hl.
  - injection Hlit as ->. destruct (literal_for_ok l r lit t Hl Ht) as [-> ->]. cbn [rbind].
    unfold applyBinary. cbn. rewrite Hnull. cbn [orb]. destruct (isNull lit); cbn; [by rewrite Hnulls|done].
  - destruct (literal_for_ok r l lit t Hlit Ht) as [-> ->]. cbn [rbind].
    unfold applyBinary. cbn. rewrite Hnull, orb_false_r. destruct (isNull lit); cbn; [by rewrite Hnulls|].
    by rewrite value_eqb_comm.
Qed.

(** ** Rows that fail may be left out *)

Lemma filter_rows_fewer c P rows kept :
  (∀ r, r ∈ rows → keeps c r = Ok true → P r = true) → filter_rows c rows = Ok kept →
  filter_rows c (List.filter P rows) = Ok kept.
Proof.
  revert kept. induction rows as [|r rows IH]; intros kept HP; [done|]. cbn [filter_rows List.filter].
  intros Hf. apply rbind_Ok in Hf as (keep & Hk & Hf). apply rbind_Ok in Hf as (rest & Hrest & [= <-]).
  specialize (IH rest ltac:(intros x Hx; by apply HP, list_elem_of_further) Hrest).
  destruct (P r) eqn:HPr.
  - cbn [filter_rows]. by rewrite Hk, IH.
  - destruct keep; [|done]. by rewrite (HP r (list_elem_of_here _ _) Hk) in HPr.
Qed.

Lemma executeSelect_kept std_sort iterate catalog rows rows' kept :
  filter_rows (s_where s) rows = Ok kept → filter_rows (s_where s) rows' = Ok kept →
  executeSelect std_sort iterate catalog s rows = executeSelect std_sort iterate catalog s rows'.
Proof. intros H1 H2. unfold executeSelect. by rewrite H1, H2. Qed.

(** * The columns of a point select *)

Lemma expand_all q t k :
  (q =? "")%string = true ∨ (q =? s_fromTable s)%string = true ∨ (q =? s_fromAlias s)%string = true →
  ∀ cols, (k + length cols)%nat = length t →
  expand_wildcard q ((λ column, mkBound (s_fromTable s) (s_fromAlias s) (cm_name column)) <$> cols) t k =
  Ok (drop k t).
Proof.
  intros Hq cols. revert k. induction cols as [|column cols IH]; intros k Hlen; cbn [length] in Hlen.
  - rewrite drop_ge by lia. done.
  - rewrite fmap_cons. cbn [expand_wildcard]. unfold wildcard_matches. cbn [bc_table bc_alias].
    assert ((q =? "")%string || (q =? s_fromTable s)%string || (q =? s_fromAlias s)%string = true) as ->.
    { rewrite !orb_true_iff. tauto. }
    destruct (lookup_lt_is_Some_2 t k) as [v Hv]; [lia|]. unfold nth_value. rewrite Hv. cbn [rbind].
    rewrite IH by lia. cbn [rbind]. by rewrite (drop_S t v k).
Qed.

Lemma row_fields t : typed_row metadata t → (λ c, field c t) <$> seq 0 (length metas) = t.
Proof.
  intros [Hok _]. apply (list_eq_same_length _ _ (length metas)).
  - by symmetry; eapply Forall2_length.
  - by rewrite length_fmap, length_seq.
  - intros i x y Hi Hx Hy. rewrite list_lookup_fmap in Hx.
    rewrite lookup_seq_lt in Hx by done. injection Hx as <-. unfold field. cbn. by rewrite Hy.
Qed.

Lemma point_column_in e cols :
  point_column s metadata e = Ok (Some cols) → Forall (λ c, is_Some (metas !! c)) cols.
Proof.
  destruct e as [|q name a loc|q a loc| | | | |]; try done; cbn [point_column]; intros Hc.
  - apply rbind_Ok in Hc as (i & Hi & [= <-]). constructor; [|constructor].
    by apply (resolveColumnIndex_ok s metadata Hdistinct q name a loc i Hi).
  - case_match; [done|]. injection Hc as <-.
    apply Forall_forall. intros c Hc%elem_of_seq. apply lookup_lt_is_Some. lia.
Qed.

Lemma point_column_ok e cols t all :
  point_column s metadata e = Ok (Some cols) → typed_row metadata t →
  project_one (row t) all e = Ok ((λ c, field c t) <$> cols).
Proof.
  destruct e as [|q name a loc|q a loc| | | | |]; try done; cbn [point_column]; intros Hc Ht.
  - apply rbind_Ok in Hc as (i & Hi & [= <-]).
    destruct (resolveColumnIndex_ok s metadata Hdistinct q name a loc i Hi) as [_ Hmeans].
    cbn [project_one]. by rewrite (Hmeans t Ht).
  - case_match eqn:Hq; [done|]. injection Hc as <-.
    rewrite !andb_false_iff, !negb_false_iff in Hq.
    cbn [project_one columns table_row values]. rewrite row_fields by done.
    unfold schema. rewrite (expand_all q t 0); [done|tauto|]. by eapply Forall2_length, Ht.
Qed.

(** Each expression has its part of the columns. *)
Lemma point_columns_parts es cols :
  point_columns s metadata es = Ok (Some cols) →
  ∃ parts, cols = concat parts ∧ Forall2 (λ e part, point_column s metadata e = Ok (Some part)) es parts.
Proof.
  revert cols. induction es as [|e es IH]; intros cols; cbn [point_columns].
  { intros [= <-]. by exists []. }
  intros Hc. apply rbind_Ok in Hc as ([here|] & He & Hc); [|done].
  apply rbind_Ok in Hc as ([rest|] & Hrest & Hc); [|done]. injection Hc as <-.
  destruct (IH rest Hrest) as (parts & -> & Hparts). exists (here :: parts). by split; [|constructor].
Qed.

Lemma point_columns_in es cols :
  point_columns s metadata es = Ok (Some cols) → Forall (λ c, is_Some (metas !! c)) cols.
Proof.
  intros (parts & -> & Hparts)%point_columns_parts.
  induction Hparts as [|e part es parts He _ IH]; cbn; [constructor|].
  apply Forall_app. split; [by eapply point_column_in|done].
Qed.

Lemma point_columns_ok es cols t all :
  point_columns s metadata es = Ok (Some cols) → typed_row metadata t →
  ∃ parts, rmap (project_one (row t) all) es = Ok parts ∧ concat parts = (λ c, field c t) <$> cols.
Proof.
  intros (parts & -> & Hparts)%point_columns_parts Ht.
  exists ((λ part : list nat, (λ c, field c t) <$> part) <$> parts). split.
  - apply rmap_Ok, Forall2_fmap_r. eapply Forall2_impl; [exact Hparts|]. intros e part He.
    by apply point_column_ok.
  - clear. induction parts as [|part parts IH]; [done|]. rewrite fmap_cons. cbn [concat].
    by rewrite fmap_app, IH.
Qed.

Lemma point_no_biggest es cols :
  point_columns s metadata es = Ok (Some cols) → find_biggest es = None.
Proof.
  intros (parts & -> & Hparts)%point_columns_parts.
  induction Hparts as [|e part es parts He _ IH]; [done|]. by destruct e.
Qed.

(** The values of the columns, read from the bytes of the row. *)
Lemma point_values_ok data t cols :
  decodeTuple data = Ok t → typed_row metadata t → Forall (λ c, is_Some (metas !! c)) cols →
  (let* fields := decodeRawProjectedInto data (point_required cols) in
   rmap (point_value (point_required cols) fields) cols) = Ok ((λ c, field c t) <$> cols).
Proof.
  intros Hdec Ht Hcols. unfold point_required.
  destruct (insert_all_ok metadata cols []) as [Hgrown Hsub].
  { intros c Hc. apply lookup_lt_is_Some. rewrite Forall_forall in Hcols. by apply Hcols. }
  destruct Hgrown as (Hinc & Hlt & _); [constructor|by intros x Hx%elem_of_nil|].
  set (required := fold_left _ _ _) in *.
  destruct (direct_fields metadata data t required Hdec Ht) as (fields & -> & Hfields).
  { split; [done|]. apply Forall_forall. intros c Hc. apply lookup_lt_is_Some. by apply Hlt. }
  cbn [rbind]. apply rmap_Ok, Forall2_fmap_r, Forall_Forall2_diag, Forall_forall. intros c Hc.
  destruct (Hfields c (Hsub c Hc)) as (f & Hf & _ & Hv). unfold fieldAt in Hf. unfold point_value, compose.
  destruct (_ ≫= _); [|done]. injection Hf as ->. by rewrite Hv.
Qed.

(** ** The answer *)

Lemma point_candidate_ok :
  point_candidate s = Ok true →
  s_joins s = [] ∧ s_distinct s = false ∧ s_having s = None ∧ s_orderBy s = [] ∧ s_offset s = None ∧
  is_grouped s = false ∧
  ∀ output : list OutputRow, (length output ≤ 1)%nat →
    apply_limit (s_limit s) (s_offset s) output = Ok (o_values <$> output).
Proof.
  unfold point_candidate. intros Hc. apply rbind_Ok in Hc as (positive & Hpos & Hc). injection Hc as Hc.
  rewrite !andb_true_iff, !negb_true_iff in Hc. destruct Hc as [[[[[[[H1 H2] H3] H4] H5] H6] H7] H8].
  assert (Hoffset : s_offset s = None) by by destruct (s_offset s).
  split_and!; [by destruct (s_joins s)|done|by destruct (s_having s)|by destruct (s_orderBy s)|done| |].
  - unfold is_grouped. by destruct (s_groupBy s).
  - intros output Hlen. rewrite Hoffset. unfold apply_limit. cbn [integerLiteral rbind]. rewrite drop_0.
    destruct (s_limit s) as [limit|]; [|done]. subst positive.
    apply rbind_Ok in Hpos as (z & Hz & Hpos). injection Hpos as Hpos.
    assert (integerLiteral (Some limit) 0 = Ok z) as ->.
    { revert Hz. destruct limit as [[]| | | | | | |]; cbn; try done; intros [= <-]; done. }
    cbn [rbind]. rewrite take_ge by lia. done.
Qed.

Lemma point_answer std_sort iterate catalog cols rows ts :
  point_candidate s = Ok true → getTable catalog (s_fromTable s) = Some metadata →
  point_columns s metadata (s_columns s) = Ok (Some cols) → Forall (typed_row metadata) ts →
  filter_rows (s_where s) rows = Ok (row <$> ts) → (length ts ≤ 1)%nat →
  executeSelect std_sort iterate catalog s rows =
  Ok (outputNames catalog s None, (λ t, (λ c, field c t) <$> cols) <$> ts).
Proof.
  intros Hcan Hget Hcols Hts Hfilter Hlen.
  destruct (point_candidate_ok Hcan) as (Hj & Hd & Hh & Ho & Hoff & Hg & Hlimit).
  unfold executeSelect, apply_biggest, select_output. rewrite Hfilter. cbn [rbind].
  rewrite (point_no_biggest _ cols Hcols). cbn [rbind]. rewrite Hg.
  rewrite result_columns_ok by done. unfold plain_output.
  assert (∀ all, rmap (λ source,
      let* r := project s source (Some all) in
      let* keys := orderKeys s source (outputNames catalog s None) r in
      Ok (mkOutput r keys)) (row <$> ts) =
    Ok ((λ t, mkOutput ((λ c, field c t) <$> cols) []) <$> ts)) as Hall.
  { intros all. apply rmap_Ok, Forall2_fmap_2, Forall_Forall2_diag. eapply Forall_impl; [exact Hts|].
    intros t Ht. destruct (point_columns_ok _ cols t (Some all) Hcols Ht) as (parts & Hparts & Hcat).
    unfold project. rewrite Hparts. cbn [rbind]. rewrite Hcat. unfold orderKeys. by rewrite Ho. }
  rewrite Hall. cbn [rbind]. rewrite Hd, Ho. cbn [apply_distinct apply_order].
  rewrite Hlimit by by rewrite length_fmap. cbn [rbind]. by rewrite <- list_fmap_compose.
Qed.
End statement.

(** * The engine *)

(** The key a literal is coerced to is equal to the literal. *)
Definition key_fits (catalog : Catalog) (s : Select_) : bool :=
  match getTable catalog (s_fromTable s), s_where s with
  | Some metadata, Some e =>
      match List.find is_primary (t_columns metadata) with
      | Some primary =>
          match key_literal (s_fromTable s) (s_fromAlias s) primary e with
          | Some literal =>
              match coerceValue primary literal with
              | Ok key => value_eqb key literal
              | Err _ => true
              end
          | None => true
          end
      | None => true
      end
  | _, _ => true
  end.

Lemma key_literal_ordered table alias primary : ∀ e literal,
  exact e → key_literal table alias primary e = Some literal → ordered literal.
Proof.
  assert (∀ l r literal, exact l → exact r → literal_for table alias primary l r = Some literal → ordered literal)
    as Hfor.
  { intros l r literal Hl Hr. destruct l, r; try done. cbn [literal_for]. case_match; [|done]. by intros [= <-]. }
  fix IH 1. intros e literal. destruct e as [| | |op l r a loc| | | |]; try (intros ? ?; discriminate).
  cbn [exact key_literal]. intros [Hl Hr]. destruct (op =? "AND")%string.
  - destruct (key_literal table alias primary l) as [w|] eqn:Hw.
    + intros [= ->]. by apply (IH l).
    + by apply (IH r).
  - destruct (op =? "=")%string; [|done].
    destruct (literal_for table alias primary l r) as [w|] eqn:Hw; [intros [= ->]; by apply (Hfor l r)|by apply Hfor].
Qed.

Lemma to_int_i64 d z : to_int d = Some z → i64 z.
Proof.
  unfold to_int. destruct (SF_of d); try done.
  - intros [= <-]. unfold i64. lia.
  - cbn zeta. match goal with |- context [decide (i64 ?n)] => destruct (decide (i64 n)) as [Hn|] end; [|done].
    intros [= <-]. exact Hn.
Qed.

Lemma coerced_well_ordered column v w :
  column_ok column → ordered v → coerceValue column v = Ok w → well_ordered WithText w.
Proof.
  intros (_ & Hup & _) Hv. unfold coerceValue. rewrite Hup.
  destruct (isNull v) eqn:Hnull; [intros [= <-]; by destruct v|].
  destruct (is_integer_type (cm_type column)).
  { case_match; [|done]. destruct (asInteger v) as [z|] eqn:Hz; [|done]. intros [= <-]. cbn.
    destruct v as [|n|d|x|b|bs]; cbn in Hz, Hv; try done.
    - by injection Hz as <-.
    - destruct (to_int d) as [n|] eqn:Hto; [|done]. injection Hz as <-. by eapply to_int_i64.
    - injection Hz as <-. unfold i64. destruct b; lia. }
  destruct (is_real_type (cm_type column)).
  { case_match; [|done]. destruct (asReal v) as [d|] eqn:Hd; [|done]. intros [= <-]. cbn.
    destruct v as [|n|x|x|b|bs]; cbn in Hd, Hv; try done; injection Hd as <-; [by apply of_int_not_nan|done|].
    by destruct b. }
  destruct (is_text_type (cm_type column)); [by intros [= <-]|]. case_match; [|done]. case_decide; [|done].
  intros [= <-]. by destruct v.
Qed.

Section engine.
Context {D F : Type} `{HeapFilesLaws D F}.
Context (getenv : string → option string).
Context (std_sort : list Value → list Value).
Context (iterate : ∀ A : Type, list (tuple * A) → list (tuple * A)) (Hwalk : hash_walk iterate).

Section table.
Context (c : Catalog) (M : gmap string rows) (s : Select_) (t : TableMeta) (rs : rows).
Context (Ht : tables c !! s_fromTable s = Some t) (Hrs : M !! s_fromTable s = Some rs).
Context (Htyped : Forall (typed_row t) rs.*2) (Hdb : database_ok c M).
Context (Hwhere : from_option exact True (s_where s)) (Hfits : key_fits c s = true).

Abbreviation select rows := (executeSelect std_sort iterate c s rows).
Abbreviation all_rows := (table_row s t <$> rs.*2).

(** What a key in the condition tells. *)
Record point_key (e : Node) (key : Value) : Prop := {
  pk_where : s_where s = Some e;
  pk_column : ∃ p primary literal,
    column_position is_primary (t_columns t) = Some p ∧ t_columns t !! p = Some primary ∧
    cm_primary_key primary = true ∧
    key_literal (s_fromTable s) (s_fromAlias s) primary e = Some literal ∧
    value_eqb key literal = true ∧ well_ordered WithText key;
}.

Lemma primaryKeyPredicate_ok key :
  primaryKeyPredicate c (s_fromTable s) (s_fromAlias s) (s_where s) = Ok (Some key) →
  ∃ e, point_key e key.
Proof.
  unfold primaryKeyPredicate, getTable. rewrite Ht. destruct (s_where s) as [e|] eqn:He; [|done].
  destruct (List.find is_primary (t_columns t)) as [primary|] eqn:Hfind; [|done].
  rewrite key_of_ok. destruct (key_literal _ _ primary e) as [literal|] eqn:Hlit; [|done]. cbn [coerced].
  destruct (coerceValue primary literal) as [k|] eqn:Hk; [|done]. intros [= ->]. exists e. split; [done|].
  pose proof Hfind as Hf. apply find_column_position in Hf as (p & Hp & Hcol). exists p, primary, literal.
  split_and!; try done.
  - by apply column_position_Some in Hp as (col & Hcol' & Hprim); simplify_eq.
  - revert Hfits. unfold key_fits, getTable. by rewrite Ht, He, Hfind, Hlit, Hk.
  - eapply coerced_well_ordered; [|by eapply key_literal_ordered|exact Hk].
    by eapply Forall_lookup_1; [apply (to_columns _ _ _ (do_tables _ _ Hdb _ t Ht))|].
Qed.

(** The rows with the key are those with the literal. *)
Lemma rows_with_literal p primary key literal :
  t_columns t !! p = Some primary → cm_primary_key primary = true → value_eqb key literal = true →
  List.filter (λ tuple, value_eqb (field p tuple) literal) rs.*2 = (List.filter (rows_with p key) rs).*2.
Proof.
  intros Hp Hprim Heq. rewrite Forall_fmap in Htyped. clear Hrs.
  induction Htyped as [|[r tuple] l Hrow _ IH]; [done|]. rewrite fmap_cons. cbn [List.filter fst snd].
  destruct (key_column t p primary Hp Hprim tuple Hrow) as (Hf & _ & _).
  unfold rows_with at 1. cbn [snd]. rewrite Hf, IH.
  assert (value_eqb (field p tuple) literal = value_eqb (field p tuple) key) as ->.
  { apply eq_true_iff_eq. split; intros Hv; eapply value_eqb_trans; [exact Hv| |exact Hv|done].
    by rewrite value_eqb_comm. }
  by destruct (value_eqb (field p tuple) key).
Qed.

Lemma point_rows_ok e p projectionColumns key result e' :
  engine_ok None c M e → column_position is_primary (t_columns t) = Some p → well_ordered WithText key →
  Forall (λ i, is_Some (t_columns t !! i)) projectionColumns →
  point_rows s projectionColumns key e = (Ok result, e') →
  engine_ok None c M e' ∧ (length (List.filter (rows_with p key) rs) ≤ 1)%nat ∧
  ∀ out, result = Some out →
    out = (λ tuple, (λ i, field i tuple) <$> projectionColumns) <$> (List.filter (rows_with p key) rs).*2.
Proof.
  intros He Hp Hkey Hcols Hrun.
  pose proof (do_tables _ _ Hdb _ t Ht) as Htab. unfold point_rows in Hrun.
  apply bind_Ok in Hrun as (tree & e1 & Hidx & Hrun).
  destruct (primaryIndex_run c M e _ t rs p (conj He Hdb) Ht Hrs Hp) as (tree' & e1' & Hidx' & He1 & Hin).
  rewrite Hidx in Hidx'. injection Hidx' as <- <-.
  assert (Hnd : NoDup rs.*1) by (eapply stored_once; [apply He1|done]).
  destruct (find_rows c M _ t rs p tree key Hdb Ht Hrs Hp Hnd Hin Hkey) as (o & Hfind & Ho).
  apply bind_Ok in Hrun as (o' & e2 & Ho' & Hrun). apply lift_Ok in Ho' as [Ho' ->].
  rewrite Hfind in Ho'. injection Ho' as <-. destruct o as [r|].
  2: { injection Hrun as <- <-. rewrite Ho. split; [done|]. split; [cbn; lia|]. by intros out [= <-]. }
  destruct Ho as (x & Hx & Hr & ->). rewrite (heap_known _ (to_safe _ _ _ Htab)) in Hrun.
  apply bind_Ok in Hrun as (file & e3 & Hfile & Hrun). apply lift_Ok in Hfile as [[= <-] ->].
  apply bind_Ok in Hrun as (read & e4 & Hread & Hrun). pose proof He1 as (Hc1 & Hst1 & Hidx1).
  destruct (read_raw_law M _ rs (open_heap (s_fromTable s)) (storage_ e1) x.1 x.2 Hst1 Hrs)
    as (data & h' & s' & Hraw & Hdec & Hst' & _); [by eapply open_law|by destruct x|].
  unfold on_heap in Hread. rewrite <- Hr, Hraw in Hread. injection Hread as <- <-. cbn [fst] in Hrun.
  apply bind_Ok in Hrun as (fields & e5 & Hfields & Hrun). apply lift_Ok in Hfields as [Hfields ->].
  apply bind_Ok in Hrun as (row & e6 & Hrow & Hrun). apply lift_Ok in Hrow as [Hrow ->].
  injection Hrun as <- <-. split; [by split|]. split; [done|]. intros out [= <-].
  assert (Hxt : typed_row t x.2).
  { rewrite Forall_fmap, Forall_forall in Htyped. by apply (Htyped x). }
  pose proof (point_values_ok t data x.2 projectionColumns Hdec Hxt Hcols) as Hvalues.
  rewrite Hfields in Hvalues. cbn [rbind] in Hvalues. rewrite Hrow in Hvalues. by injection Hvalues as ->.
Qed.

Lemma point_run e result e' :
  engine_ok None c M e → executeRawPointSelect s e = (Ok result, e') →
  engine_ok None c M e' ∧ ∀ answer, result = Some answer → select all_rows = Ok answer.
Proof.
  intros He Hrun. unfold executeRawPointSelect in Hrun.
  apply bind_Ok in Hrun as (candidate & e1 & Hcan & Hrun). apply lift_Ok in Hcan as [Hcan ->].
  destruct candidate; [cbn [negb] in Hrun|by injection Hrun as <- <-].
  remember (s_where s) as w eqn:Hw in Hrun. symmetry in Hw.
  destruct w as [n|]; [|by injection Hrun as <- <-].
  destruct n as [| | |op l r a loc| | | |]; try (by injection Hrun as <- <-).
  destruct (String.eqb_spec op "=") as [->|_]; [cbn [negb] in Hrun|by injection Hrun as <- <-].
  apply bind_Ok in Hrun as (c' & e1 & Hc & Hrun). injection Hc as <- <-. rewrite (proj1 He) in Hrun.
  apply bind_Ok in Hrun as (key & e1 & Hkey & Hrun). apply lift_Ok in Hkey as [Hkey ->].
  destruct key as [key|]; [|by injection Hrun as <- <-]. rewrite <- Hw in Hkey.
  destruct (primaryKeyPredicate_ok key Hkey) as (n & Hn & p & primary & literal & Hp & Hcol & Hprim & Hlit & Heq & Hord).
  rewrite Hw in Hn. injection Hn as <-.
  apply bind_Ok in Hrun as (metadata & e1 & Hmeta & Hrun). rewrite (known_table_run c M e _ He), Ht in Hmeta.
  injection Hmeta as <- <-. apply bind_Ok in Hrun as (projection & e1 & Hproj & Hrun).
  apply lift_Ok in Hproj as [Hproj ->]. destruct projection as [cols|]; [|by injection Hrun as <- <-].
  pose proof (to_distinct _ _ _ (do_tables _ _ Hdb _ t Ht)) as Hdistinct.
  apply bind_Ok in Hrun as (rows & e1 & Hrows & Hrun). injection Hrun as <- <-.
  assert (Hcols : Forall (λ i, is_Some (t_columns t !! i)) cols).
  { by eapply point_columns_in. }
  destruct (point_rows_ok e p cols key rows e1 He Hp Hord Hcols Hrows) as (He1 & Hlen & Hout).
  split; [done|]. destruct rows as [out|]; [|done]. intros answer [= <-]. rewrite (Hout out eq_refl).
  pose proof (rows_with_literal p primary key literal Hcol Hprim Heq) as Hkept.
  apply (point_answer s t Hdistinct std_sort iterate c cols); [done..| | |by rewrite length_fmap].
  - rewrite <- Hkept. eapply List.incl_Forall; [apply List.incl_filter|done].
  - rewrite <- Hkept. apply (filter_rows_by s t); [|done]. intros tuple Htuple. rewrite Hw.
    by apply (key_equality_ok s t Hdistinct p primary).
Qed.

(** What the rows of the key give, all rows give, or evaluating the condition on
    another row fails. *)
Definition agrees (answer : list string * list tuple) : Prop :=
  select all_rows = Ok answer ∨
  (∃ key, primaryKeyPredicate c (s_fromTable s) (s_fromAlias s) (s_where s) = Ok (Some key)) ∧
  ∃ f, select all_rows = Err f.

Lemma scanned_rows cols (l : rows) :
  boundSchema c (s_fromTable s) (s_fromAlias s) = Ok cols →
  sc_row <$> (scanned cols <$> l) = table_row s t <$> l.*2.
Proof.
  unfold boundSchema, getTable. rewrite Ht. cbn [rbind]. intros [= <-].
  by rewrite <- !list_fmap_compose.
Qed.

Lemma lookup_agrees p primary key literal e answer :
  t_columns t !! p = Some primary → cm_primary_key primary = true → s_where s = Some e →
  key_literal (s_fromTable s) (s_fromAlias s) primary e = Some literal → value_eqb key literal = true →
  primaryKeyPredicate c (s_fromTable s) (s_fromAlias s) (s_where s) = Ok (Some key) →
  select (table_row s t <$> (List.filter (rows_with p key) rs).*2) = Ok answer → agrees answer.
Proof.
  intros Hcol Hprim Hw Hlit Heq Hkey Hsel.
  destruct (filter_rows (s_where s) all_rows) as [kept|f] eqn:Hkept.
  2: { right. split; [by exists key|]. exists f. unfold executeSelect. by rewrite Hkept. }
  left. rewrite <- Hsel. apply (executeSelect_kept s std_sort iterate c _ _ kept Hkept).
  set (P r := match values r !! p with Some v => value_eqb v literal | None => false end).
  assert (List.filter P all_rows = table_row s t <$> (List.filter (rows_with p key) rs).*2) as <-.
  { rewrite <- (rows_with_literal p primary key literal Hcol Hprim Heq). clear Hkept Hsel. generalize Htyped.
    generalize (rs.*2) as l. induction 1 as [|tuple l Hrow _ IH]; [done|]. rewrite fmap_cons. cbn [List.filter]. rewrite IH.
    destruct (key_column t p primary Hcol Hprim tuple Hrow) as (Hf & _ & _).
    unfold P at 1. cbn [table_row values]. rewrite Hf. by destruct (value_eqb (field p tuple) literal). }
  apply filter_rows_fewer; [|done]. intros r Hr Hkeep.
  apply list_elem_of_fmap in Hr as (tuple & -> & Htuple). rewrite Forall_forall in Htyped.
  destruct (key_column t p primary Hcol Hprim tuple (Htyped tuple Htuple)) as (Hf & _ & _).
  unfold P. cbn [table_row values]. rewrite Hf. rewrite Hw in Hkeep. unfold keeps in Hkeep.
  apply rbind_Ok in Hkeep as (v & Hv & [= Htrue]).
  by apply (key_literal_ok s t (to_distinct _ _ _ (do_tables _ _ Hdb _ t Ht)) p primary Hcol tuple e literal v);
    [|apply Htyped|..].
Qed.

Lemma base_rows_ok e l e' :
  engine_ok None c M e → base_rows s e = (Ok l, e') →
  engine_ok None c M e' ∧ ∀ answer, select l = Ok answer → agrees answer.
Proof.
  intros He Hrun. unfold base_rows in Hrun. apply bind_Ok in Hrun as (c' & e1 & Hc & Hrun).
  injection Hc as <- <-. rewrite (proj1 He) in Hrun.
  apply bind_Ok in Hrun as (key & e1 & Hkey & Hrun). apply lift_Ok in Hkey as [Hkey ->].
  apply bind_Ok in Hrun as (base & e1 & Hbase & Hrun). injection Hrun as <- <-.
  destruct key as [key|].
  - destruct (primaryKeyPredicate_ok key Hkey)
      as (n & Hw & p & primary & literal & Hp & Hcol & Hprim & Hlit & Heq & Hord).
    destruct (lookup_run c M e _ (s_fromAlias s) t rs p key 1 (conj He Hdb) Ht Hrs Hp Hord) as (e2 & Hlook & He2).
    rewrite Hlook in Hbase. destruct (boundSchema c _ _) as [cols|] eqn:Hcols; [|done].
    injection Hbase as <- <-. split; [apply He2|]. intros answer. rewrite scanned_rows by done.
    by apply (lookup_agrees p primary key literal n).
  - destruct (scanTable_run c M e _ (s_fromAlias s) t rs (conj He Hdb) Ht Hrs) as (e2 & Hscan & He2).
    rewrite Hscan in Hbase. destruct (boundSchema c _ _) as [cols|] eqn:Hcols; [|done].
    injection Hbase as <- <-. split; [apply He2|]. intros answer. rewrite scanned_rows by done. by left.
Qed.
End table.

(** ** The ways of [executeSelect] *)

Abbreviation Planner := (planner (D:=D)).
Implicit Types p : Planner.

Lemma on_engine_Ok {A} (m : action (engine (D:=D)) A) p a p' :
  on_engine m p = (Ok a, p') → ∃ e', m (engine_ p) = (Ok a, e') ∧ p' = mkPlanner e' (tableStatistics_ p).
Proof. unfold on_engine, zoom. destruct (m (engine_ p)) as [r e']. intros [= -> <-]. by exists e'. Qed.

Lemma planner_engine c M p e :
  planner_ok c M p → engine_ok None c M e → planner_ok c M (mkPlanner e (tableStatistics_ p)).
Proof. intros [[_ Hdb] Hs] He. by split. Qed.

Lemma direct_none c M s t p p' :
  planner_ok c M p → tables c !! s_fromTable s = Some t →
  executeDirectAggregateSelect getenv iterate s p = (Ok None, p') → planner_ok c M p'.
Proof.
  intros Hp Ht. unfold executeDirectAggregateSelect. destruct (direct_candidate s); cbn [negb];
    [|intros Hr; by injection Hr as <-]. intros Hrun. apply bind_Ok in Hrun as (metadata & p1 & Hmeta & Hrun).
  apply on_engine_Ok in Hmeta as (e1 & Hknown & ->).
  rewrite (known_table_run c M _ _ (proj1 (proj1 Hp))), Ht in Hknown. injection Hknown as <- <-.
  apply bind_Ok in Hrun as (plan & p2 & Hplan & Hrun). apply lift_Ok in Hplan as [_ ->].
  destruct plan as [plan|]; [|injection Hrun as <-; apply planner_engine; [done|apply Hp]].
  apply bind_Ok in Hrun as (rows & p3 & _ & Hrun). apply bind_Ok in Hrun as (c' & p4 & _ & Hrun).
  by injection Hrun.
Qed.

Lemma vectorised_none s (e e' : engine (D:=D)) :
  executeVectorizedSelect iterate s e = (Ok None, e') → e' = e.
Proof.
  unfold executeVectorizedSelect. destruct (canVectorize s); cbn [negb]; [|intros Hr; by injection Hr as <-].
  intros Hrun. do 6 (apply bind_Ok in Hrun as (? & ? & _ & Hrun)). by injection Hrun.
Qed.

(** The rows of a statement, in some order. *)
Definition same_rows (answer answer' : list string * list tuple) : Prop :=
  answer.1 = answer'.1 ∧ answer.2 ≡ₚ answer'.2.

Section table_select.
Context (c : Catalog) (M : gmap string rows) (s : Select_) (t : TableMeta) (rs : rows).
Context (Ht : tables c !! s_fromTable s = Some t) (Hrs : M !! s_fromTable s = Some rs).
Context (Hnan : ∀ x, x ∈ rs → Forall no_nan x.2) (Hints : ∀ x, x ∈ rs → Forall exact_integer x.2).
Context (Hexact : exact_select s) (Hone : one_pass s) (Hfits : key_fits c s = true).

Abbreviation all_rows := (table_row s t <$> rs.*2).

Lemma fast_select_ok p result p' :
  planner_ok c M p → fast_select getenv iterate s p = (Ok result, p') →
  planner_ok c M p' ∧ ∀ answer, result = Some answer →
    ∃ answer', executeSelect std_sort iterate c s all_rows = Ok answer' ∧ same_rows answer answer'.
Proof.
  intros Hp Hrun. unfold fast_select in Hrun. apply bind_Ok in Hrun as (c' & p1 & [= <- <-] & Hrun).
  apply bind_Ok in Hrun as (key & p1 & Hkey & Hrun). apply lift_Ok in Hkey as [_ ->].
  destruct key as [key|]; [by injection Hrun as <- <-|].
  apply bind_Ok in Hrun as (direct & p1 & Hdirect & Hrun). destruct direct as [[names out]|].
  - injection Hrun as <- <-.
    destruct (executeDirectAggregateSelect_run getenv iterate Hwalk std_sort c M p s t rs names out p1
      Hp Ht Hrs Hnan Hints (proj1 Hexact) Hdirect) as [Hp1 (out' & Hsel & Hperm)].
    split; [done|]. intros answer [= <-]. by exists (names, out').
  - pose proof (direct_none c M s t p p1 Hp Ht Hdirect) as Hp1.
    apply on_engine_Ok in Hrun as (e2 & Hvec & ->). destruct result as [answer|].
    + destruct (executeVectorizedSelect_run std_sort iterate Hwalk c M (engine_ p1) s t rs answer e2
        (proj1 Hp1) Ht Hrs Hnan Hexact Hone Hvec) as [He2 Hsel].
      split; [apply planner_engine; [done|apply He2]|]. intros answer' [= <-]. by exists answer.
    + apply vectorised_none in Hvec as ->. split; [|done]. apply planner_engine; [done|apply Hp1].
Qed.

Lemma executeTableSelect_run p answer p' :
  planner_ok c M p → executeTableSelect getenv std_sort iterate s p = (Ok answer, p') →
  planner_ok c M p' ∧
  ((∃ answer', executeSelect std_sort iterate c s all_rows = Ok answer' ∧ same_rows answer answer') ∨
   (∃ key, primaryKeyPredicate c (s_fromTable s) (s_fromAlias s) (s_where s) = Ok (Some key)) ∧
   ∃ f, executeSelect std_sort iterate c s all_rows = Err f).
Proof.
  intros Hp Hrun. pose proof (proj2 (proj1 Hp)) as Hdb. pose proof (proj1 Hexact) as Hwhere.
  pose proof (typed_rows c M _ t rs Hdb Ht Hrs Hnan) as Htyped.
  unfold executeTableSelect in Hrun. apply bind_Ok in Hrun as (point & p1 & Hpoint & Hrun).
  apply on_engine_Ok in Hpoint as (e1 & Hpoint & ->).
  destruct (point_run c M s t rs Ht Hrs Htyped Hdb Hwhere Hfits (engine_ p) point e1
    (proj1 (proj1 Hp)) Hpoint) as [He1 Hpa].
  pose proof (planner_engine c M p e1 Hp He1) as Hp1. destruct point as [a|].
  { injection Hrun as <- <-. split; [done|]. left. exists a. split; [by apply Hpa|done]. }
  apply bind_Ok in Hrun as (fast & p2 & Hfast & Hrun).
  destruct (fast_select_ok _ _ _ Hp1 Hfast) as [Hp2 Hfa]. destruct fast as [a|].
  { injection Hrun as <- <-. split; [done|]. left. by apply Hfa. }
  apply bind_Ok in Hrun as (l & p3 & Hbase & Hrun). apply on_engine_Ok in Hbase as (e3 & Hbase & ->).
  destruct (base_rows_ok c M s t rs Ht Hrs Htyped Hdb Hwhere Hfits (engine_ p2) l e3
    (proj1 (proj1 Hp2)) Hbase) as [He3 Hla].
  pose proof (planner_engine c M p2 e3 Hp2 He3) as Hp3.
  apply bind_Ok in Hrun as (c' & p4 & [= <- <-] & Hrun). apply lift_Ok in Hrun as [Hrun ->].
  split; [done|]. cbn [engine_] in Hrun. rewrite (proj1 He3) in Hrun.
  destruct (Hla answer Hrun) as [Hsel|Herr]; [|by right]. left. by exists answer.
Qed.
End table_select.
End engine.

(** C7: a SELECT of one table answers as the row-at-a-time SELECT does on the
    rows a scan of the table gives, with the same names and the same rows up to
    their order, after any statements, whichever way the engine takes: the bytes
    of the row of a key, the statistics, an array or a hash map of groups,
    vectors, a lookup of the key or a scan.  Only where the condition names a
    key may the row-at-a-time SELECT fail instead, on a row the lookup does not
    read.  The conditions: no literal and no value is a NaN ([exact_select]), the
    integers of the rows are at most 2^53 in magnitude, with groups every
    projected column is one aggregate without DISTINCT or contains none
    ([one_pass]), and coercing the key to the type of its column keeps its value
    ([key_fits]; see [point_select_coerces_key] and [point_select_rejects_text]). *)
Theorem table_select_is_row_select (getenv : string → option string) (batchRows capacity : nat)
    (ops : list planner_op) (std_sort : list Value → list Value)
    (iterate : ∀ A : Type, list (tuple * A) → list (tuple * A))
    (s : Select_) (l : list ScanRow) answer p' :
  (0 < batchRows)%nat → Forall op_ok ops → hash_walk iterate →
  s_joins s = [] → exact_select s → one_pass s →
  let p := planner_after getenv batchRows capacity ops in
  key_fits (catalog_ (engine_ p)) s = true →
  (scanTable (H:=heap_files batchRows) (s_fromTable s) (s_fromAlias s) (engine_ p)).1 = Ok l →
  Forall (λ r, Forall (λ v, no_nan v ∧ exact_integer v) (values (sc_row r))) l →
  executeTableSelect (H:=heap_files batchRows) getenv std_sort iterate s p = (Ok answer, p') →
  ((∃ answer', executeSelect std_sort iterate (catalog_ (engine_ p)) s (sc_row <$> l) = Ok answer' ∧
     same_rows answer answer') ∨
   (∃ key, primaryKeyPredicate (catalog_ (engine_ p)) (s_fromTable s) (s_fromAlias s) (s_where s)
             = Ok (Some key)) ∧
   ∃ f, executeSelect std_sort iterate (catalog_ (engine_ p)) s (sc_row <$> l) = Err f) ∧
  ∃ M, observed batchRows (catalog_ (engine_ p)) M (engine_ p) ∧
    observed batchRows (catalog_ (engine_ p)) M (engine_ p').
Proof.
  intros Hbatch Hops Hwalk _ Hexact Hone p Hfits Hscan Hvals Hrun.
  destruct (planner_after_ok getenv batchRows capacity Hbatch ops Hops) as (c & M & Hp).
  fold p in Hp. pose proof (proj1 Hp) as HM. rewrite (proj1 (proj1 HM)) in Hfits |- *.
  destruct (scan_gives_rows batchRows Hbatch c M (engine_ p) s l HM Hscan) as (t & rs & Ht & Hrs & Hl).
  pose proof (scanned_values _ s t l rs Hl Hvals) as Hall.
  destruct (executeTableSelect_run (H0:=heap_files_laws batchRows Hbatch) getenv std_sort iterate Hwalk
    c M s t rs Ht Hrs) with (6 := Hp) (7 := Hrun) as [Hp' Hanswer]; [| |done..|].
  - intros x Hx. eapply Forall_impl; [exact (Hall x Hx)|]. by intros v [? _].
  - intros x Hx. eapply Forall_impl; [exact (Hall x Hx)|]. by intros v [_ ?].
  - rewrite Hl. split; [exact Hanswer|].
    exists M. split; apply (holds_observed batchRows Hbatch); [done|apply Hp'].
Qed.

#[local] Open Scope string_scope.

(** ** A row by its key *)

Definition user_ops : list planner_op := Statement <$> demo_tables.

(** slay name, id from users where [key] = id *)
Definition user_query (key : literal) : Select_ :=
  mkSelect false [column "name"; column "id"] "users" "" []
    (Some (BinaryOp "=" (Literal key here) (column "id") "" here)) [] None [] None None here.

Definition dispatched (ops : list planner_op) (s : Select_) : exec (list string * list tuple) :=
  (executeTableSelect (H:=heap_files 1) (λ _, None) (λ l, l) (λ A l, l) s
     (planner_after (λ _, None) 1 2 ops)).1.

Definition user_scan : list ScanRow :=
  match (scanTable (H:=heap_files 1) "users" "" (engine_ (planner_after (λ _, None) 1 2 user_ops))).1 with
  | Ok l => l
  | Err _ => []
  end.

Lemma user_ops_ok : Forall op_ok user_ops.
Proof. apply Forall_fmap. exact demo_tables_ok. Qed.

Definition user_answer : list string * list tuple := (["name"; "id"], [[VText "8"; VInteger 2]]).

Lemma table_select_is_row_select_witness :
  ((∃ answer', executeSelect (λ l, l) (λ A l, l)
      (catalog_ (engine_ (planner_after (λ _, None) 1 2 user_ops))) (user_query (LInt 2))
      (sc_row <$> user_scan) = Ok answer' ∧ same_rows user_answer answer') ∨
   (∃ key, primaryKeyPredicate (catalog_ (engine_ (planner_after (λ _, None) 1 2 user_ops))) "users" ""
             (s_where (user_query (LInt 2))) = Ok (Some key)) ∧
   ∃ f, executeSelect (λ l, l) (λ A l, l)
      (catalog_ (engine_ (planner_after (λ _, None) 1 2 user_ops))) (user_query (LInt 2))
      (sc_row <$> user_scan) = Err f).
Proof.
  destruct (table_select_is_row_select (λ _, None) 1 2 user_ops (λ l, l) (λ A l, l) (user_query (LInt 2))
    user_scan user_answer
    (executeTableSelect (H:=heap_files 1) (λ _, None) (λ l, l) (λ A l, l) (user_query (LInt 2))
       (planner_after (λ _, None) 1 2 user_ops)).2
    (le_n 1) user_ops_ok Demo.walk_in_order eq_refl) as [Hanswer _].
  - split; [cbn; unfold i64; lia|]. by repeat constructor.
  - by intros [=].
  - vm_compute. reflexivity.
  - vm_compute. reflexivity.
  - apply (bool_decide_unpack _). vm_compute. exact I.
  - apply run_result. vm_compute. reflexivity.
  - exact Hanswer.
Defined.

(** The key of the condition is coerced to the type of its column and the
    condition is not checked on the row that is found: [id = 1.5] answers the row
    of 1.  With DISTINCT the condition is checked, and no row passes. *)
Theorem point_select_coerces_key :
  dispatched user_ops (user_query (LFloat (ddiv (of_int 3) (of_int 2)))) =
    Ok (["name"; "id"], [[VText "7"; VInteger 1]]) ∧
  row_by_row user_ops (user_query (LFloat (ddiv (of_int 3) (of_int 2)))) = Ok (["name"; "id"], []) ∧
  dispatched user_ops
    (mkSelect true [column "name"; column "id"] "users" "" []
      (s_where (user_query (LFloat (ddiv (of_int 3) (of_int 2))))) [] None [] None None here) =
    Ok (["name"; "id"], []).
Proof. split_and!; vm_compute; reflexivity. Qed.

(** A text compared with an INTEGER key is an error, not false. *)
Theorem point_select_rejects_text :
  dispatched user_ops (user_query (LString "x")) = Err (Throw "Expected INTEGER for id") ∧
  row_by_row user_ops (user_query (LString "x")) = Ok (["name"; "id"], []).
Proof. split; vm_compute; reflexivity. Qed.
