(* ===== verification/Join.v ===== *)
(** The joins of a SELECT ([src/native_joins.cpp]): [executeSourceOrderJoins]
    joins the tables as they are written, with a hash table and a Bloom filter
    where the condition is an equality of two columns and with nested loops
    otherwise; [executeCostBasedJoins] picks an order for three and more tables by
    dynamic programming over the sets of tables.  The counters of
    [NativeEngineStats] are left out. *)

From S2P Require Import Prelude.
From S2P Require Import Hash.
From S2P Require Import Double.
From S2P Require Import Config.
From S2P Require Import Value.
From S2P Require Import Tuple.
From S2P Require Import Ast.
From S2P Require Import Catalog.
From S2P Require Import Eval.
From S2P Require Import Select.
From S2P Require Import Bloom.
From S2P Require Import HeapSpec.
From S2P Require Import Store.
From S2P Require Import Engine.
From S2P Require Import Stats.

#[local] Open Scope string_scope.

(** A [ColumnRef]: its qualifier and its column. *)
Abbreviation column_key := (string * string)%type (only parsing).

Definition column_ref (n : Node) : option column_key :=
  match n with ColumnRef table column _ _ => Some (table, column) | _ => None end.

Definition resolve_key (key : column_key) (row : EvalRow) : exec Value :=
  resolveColumn key.1 key.2 row.

(** [belongsToRight] *)
Definition belongs_to (join : JoinClause Node) (column : option column_key) : bool :=
  match column with
  | Some (table, _) =>
      negb (table =? "") && ((table =? jc_table join) || (table =? jc_alias join))
  | None => false
  end.

(** The keys of the left and of the right rows, when the condition is an
    equality between them. *)
Definition join_keys (join : JoinClause Node) : option (column_key * column_key) :=
  match jc_condition join with
  | BinaryOp op l r _ _ =>
      if op =? "=" then
        let first := column_ref l in
        let second := column_ref r in
        if belongs_to join first && negb (belongs_to join second) then
          match second, first with Some l, Some r => Some (l, r) | _, _ => None end
        else if belongs_to join second && negb (belongs_to join first) then
          match first, second with Some l, Some r => Some (l, r) | _, _ => None end
        else None
      else None
  | _ => None
  end.

Definition is_left_join (join : JoinClause Node) : bool :=
  match jc_type join with LEFT => true | _ => false end.
Definition is_inner_join (join : JoinClause Node) : bool :=
  match jc_type join with INNER => true | _ => false end.

(** A row of the left followed by one of the right, or by nulls. *)
Definition combine_rows (schema : list BoundColumn) (left right : EvalRow) : EvalRow :=
  mkRow (Some schema) (values left ++ values right)%list.

Definition pad_row (schema : list BoundColumn) (left : EvalRow) (width : nat) : EvalRow :=
  mkRow (Some schema) (values left ++ replicate width VNull)%list.

Definition table_width (c : Catalog) (table : string) : nat :=
  match getTable c table with Some metadata => length (t_columns metadata) | None => 0 end.

(** [!rows.empty() ? rows.front().columns : boundSchema(table, alias)] *)
Definition schema_of (c : Catalog) (rows : list EvalRow) (table alias : string)
    : exec (option (list BoundColumn)) :=
  match rows with
  | row :: _ => Ok (columns row)
  | [] => let* cols := boundSchema c table alias in Ok (Some cols)
  end.

Section Join.
Context {D F : Type} `{HeapFiles D F}.
Context (getenv : string → option string).
Context (std_hash_double : double → Z) (std_hash_string : string → Z).
(** The order in which a hash container yields its elements. *)
Context (walk : ∀ A : Type, list A → list A).

(** A hash multimap from keys to rows. *)
Abbreviation hash_index := (list (Value * EvalRow)) (only parsing).

(** The build side: the rows whose key is not null, and their filter. *)
Fixpoint build_side (key : column_key) (rows : list EvalRow) (bloom : BloomFilter)
    (index : hash_index) : exec (BloomFilter * hash_index) :=
  match rows with
  | [] => Ok (bloom, index)
  | row :: rows =>
      let* k := resolve_key key row in
      if isNull k then build_side key rows bloom index
      else
        let* bloom := bloom_add std_hash_double std_hash_string bloom k in
        build_side key rows bloom (index ++ [(k, row)])%list
  end.

Definition build_index_of (key : column_key) (rows : list EvalRow)
    : exec (BloomFilter * hash_index) :=
  let* bloom := newBloom getenv (Z.of_nat (length rows)) in
  build_side key rows bloom [].

(** [index.equal_range(key)] *)
Definition equal_range (index : hash_index) (key : Value) : list EvalRow :=
  snd <$> walk _ (List.filter (λ entry, value_eqb entry.1 key) index).

(** The rows of the build side that one row of the other side meets. *)
Definition probe (built : BloomFilter * hash_index) (key : column_key) (row : EvalRow)
    : exec (list EvalRow) :=
  let* k := resolve_key key row in
  if isNull k then Ok []
  else
    let* may := mayContain std_hash_double std_hash_string built.1 k in
    if may : bool then Ok (equal_range built.2 k) else Ok [].

(** ** Joins in source order *)

Definition padded (join : JoinClause Node) (schema : list BoundColumn) (left : EvalRow)
    (width : nat) (matches : list EvalRow) : list EvalRow :=
  match matches with
  | [] => if is_left_join join then [pad_row schema left width] else []
  | _ :: _ => matches
  end.

Definition hash_join (c : Catalog) (join : JoinClause Node) (schema : list BoundColumn)
    (leftKey rightKey : column_key) (rows right : list EvalRow) : exec (list EvalRow) :=
  let* built := build_index_of rightKey right in
  let* parts := rmap (λ left,
    let* found := probe built leftKey left in
    Ok (padded join schema left (table_width c (jc_table join))
          (combine_rows schema left <$> found))) rows in
  Ok (concat parts).

Definition nested_matches (join : JoinClause Node) (schema : list BoundColumn) (left : EvalRow)
    (right : list EvalRow) : exec (list EvalRow) :=
  filter_rows (Some (jc_condition join)) (combine_rows schema left <$> right).

Definition nested_width (c : Catalog) (join : JoinClause Node) (right : list EvalRow) : nat :=
  match right with
  | row :: _ => length (values row)
  | [] => table_width c (jc_table join)
  end.

Definition nested_loop_join (c : Catalog) (join : JoinClause Node) (schema : list BoundColumn)
    (rows right : list EvalRow) : exec (list EvalRow) :=
  let* parts := rmap (λ left,
    let* found := nested_matches join schema left right in
    Ok (padded join schema left (nested_width c join right) found)) rows in
  Ok (concat parts).

(** One round of the loop over the joins. *)
Definition source_join (c : Catalog) (s : Select_) (join : JoinClause Node)
    (rows right : list EvalRow) : exec (list EvalRow) :=
  let* leftSchema := schema_of c rows (s_fromTable s) (s_fromAlias s) in
  let* rightSchema := schema_of c right (jc_table join) (jc_alias join) in
  let schema := combineSchemas leftSchema rightSchema in
  match join_keys join with
  | Some (leftKey, rightKey) => hash_join c join schema leftKey rightKey rows right
  | None => nested_loop_join c join schema rows right
  end.

Fixpoint source_joins (s : Select_) (joins : list (JoinClause Node)) (rows : list EvalRow)
    : action (engine (D:=D)) (list EvalRow) :=
  match joins with
  | [] => mret rows
  | join :: joins =>
      right ← scanTable (jc_table join) (jc_alias join);
      c ← gets catalog_;
      rows ← lift (source_join c s join rows (sc_row <$> right));
      source_joins s joins rows
  end.

Definition executeSourceOrderJoins (s : Select_) (rows : list EvalRow)
    : action (engine (D:=D)) (list EvalRow) :=
  source_joins s (s_joins s) rows.

(** ** Joins by cost: the relations *)

Record JoinPredicate : Type := mkPredicate {
  leftRelation : nat;
  rightRelation : nat;
  leftColumn : column_key;
  rightColumn : column_key;
  expression : Node;
}.

Record RelationData : Type := mkRelation {
  rel_table : string;
  rel_alias : string;
  rel_rows : list EvalRow;
  rel_distinct : gmap string nat;
}.

(** The tables of a statement with their aliases. *)
Definition relation_names (s : Select_) : list (string * string) :=
  (s_fromTable s, s_fromAlias s) :: map (λ j, (jc_table j, jc_alias j)) (s_joins s).

Definition names_relation (qualifier : string) (relation : string * string) : bool :=
  (qualifier =? relation.1) || (negb (relation.2 =? "") && (qualifier =? relation.2)).

Fixpoint find_relation (qualifier : string) (relations : list (string * string)) : option nat :=
  match relations with
  | [] => None
  | relation :: relations =>
      if names_relation qualifier relation then Some O
      else S <$> find_relation qualifier relations
  end.

Definition relationFor (relations : list (string * string)) (column : column_key) : option nat :=
  if column.1 =? "" then None else find_relation column.1 relations.

Definition join_predicate (relations : list (string * string)) (join : JoinClause Node)
    : option JoinPredicate :=
  match jc_condition join with
  | BinaryOp op l r _ _ =>
      if op =? "=" then
        leftKey ← column_ref l;
        rightKey ← column_ref r;
        leftIndex ← relationFor relations leftKey;
        rightIndex ← relationFor relations rightKey;
        if decide (leftIndex = rightIndex) then None
        else Some (mkPredicate leftIndex rightIndex leftKey rightKey (jc_condition join))
      else None
  | _ => None
  end.

(** The predicates of a statement that is planned by cost. *)
Definition cost_predicates (s : Select_) : option (list JoinPredicate) :=
  if (length (s_joins s) <? 2)%nat || (64 <=? length (s_joins s))%nat then None
  else if existsb (λ j, negb (is_inner_join j)) (s_joins s) then None
  else if existsb is_wildcard (s_columns s) then None
  else mapM (join_predicate (relation_names s)) (s_joins s).

(** The number of different values, nulls apart. *)
Fixpoint distinct_values (column : nat) (rows : list EvalRow) (seen : list Value)
    : exec (list Value) :=
  match rows with
  | [] => Ok seen
  | row :: rows =>
      let* v := nth_value (values row) column in
      distinct_values column rows
        (if isNull v || existsb (λ w, value_eqb w v) seen then seen else v :: seen)
  end.

(** The columns of a relation that the predicates use. *)
Definition required_columns (relation : nat) (predicates : list JoinPredicate) : list string :=
  walk _ (remove_dups (concat (map (λ p,
    ((if decide (leftRelation p = relation) then [(leftColumn p).2] else []) ++
     (if decide (rightRelation p = relation) then [(rightColumn p).2] else []))%list) predicates))).

Fixpoint count_distinct (metadata : TableMeta) (table : string) (rows : list EvalRow)
    (names : list string) (counts : gmap string nat) : action (planner (D:=D)) (gmap string nat) :=
  match names with
  | [] => mret counts
  | name :: names =>
      cached ← gets (statistics_of table);
      match distinctCounts cached !! name with
      | Some count => count_distinct metadata table rows names (<[name := count]> counts)
      | None =>
          match column_position (named name) (t_columns metadata) with
          | None => raise (Throw ("Unknown statistics column: " +:+ name))
          | Some column =>
              seen ← lift (distinct_values column rows []);
              let count := Nat.max 1 (length seen) in
              _ ← set_statistics table
                    (mkStatistics (rowCount cached) (<[name := count]> (distinctCounts cached))
                       (columnRanges cached));
              count_distinct metadata table rows names (<[name := count]> counts)
          end
      end
  end.

(** One relation: its rows and how many different values its columns have. *)
Definition load_relation (predicates : list JoinPredicate) (index : nat)
    (name : string * string) : action (planner (D:=D)) RelationData :=
  scan ← on_engine (scanTable name.1 name.2);
  let rows := sc_row <$> scan in
  metadata ← on_engine (known_table name.1);
  cached ← gets (statistics_of name.1);
  _ ← set_statistics name.1
        (if decide (rowCount cached ≠ length rows) then mkStatistics (length rows) ∅ ∅ else cached);
  counts ← count_distinct metadata name.1 rows (required_columns index predicates) ∅;
  mret (mkRelation name.1 name.2 rows counts).

Fixpoint load_relations (predicates : list JoinPredicate) (index : nat)
    (names : list (string * string)) : action (planner (D:=D)) (list RelationData) :=
  match names with
  | [] => mret []
  | name :: names =>
      relation ← load_relation predicates index name;
      relations ← load_relations predicates (S index) names;
      mret (relation :: relations)
  end.

(** ** The order of the joins

    A set of relations is the number with their bits. *)
Record Plan : Type := mkPlan {
  plan_cost : double;
  plan_rows : double;
  plan_order : list nat;
}.

(** [plans[mask]] of a valid plan. *)
Abbreviation plan_table := (gmap Z Plan) (only parsing).

Definition size_of (relations : list RelationData) (relation : nat) : nat :=
  match relations !! relation with Some r => length (rel_rows r) | None => 0 end.

Definition distinct_count (relations : list RelationData) (relation : nat) (column : column_key)
    : double :=
  of_int (Z.of_nat
    match relations !! relation with
    | Some r =>
        match rel_distinct r !! column.2 with
        | Some count => count
        | None => Nat.max 1 (length (rel_rows r))
        end
    | None => 1
    end).

Definition has_bit (mask : Z) (relation : nat) : bool := Z.testbit mask (Z.of_nat relation).

(** How the predicates connect [next] with the relations of [mask], and the
    share of the pairs that pass. *)
Definition connect (relations : list RelationData) (predicates : list JoinPredicate)
    (mask : Z) (next : nat) : bool * double :=
  fold_left (λ acc p,
    let larger := dmax (distinct_count relations (leftRelation p) (leftColumn p))
                       (distinct_count relations (rightRelation p) (rightColumn p)) in
    if (bool_decide (leftRelation p = next) && has_bit mask (rightRelation p)) ||
       (bool_decide (rightRelation p = next) && has_bit mask (leftRelation p))
    then (true, dmul acc.2 (ddiv done_ larger))
    else acc) predicates (false, done_).

Definition extend_plan (relations : list RelationData) (predicates : list JoinPredicate)
    (mask : Z) (plans : plan_table) (next : nat) : plan_table :=
  match plans !! mask with
  | None => plans
  | Some plan =>
      if has_bit mask next then plans
      else
        let (connected, selectivity) := connect relations predicates mask next in
        if connected then
          let nextRows := of_int (Z.of_nat (size_of relations next)) in
          let outputRows :=
            dmax (dmul (dmul (plan_rows plan) nextRows) selectivity)
                 (if deqb (plan_rows plan) dzero || deqb nextRows dzero then dzero else done_) in
          let cost := dadd (dadd (dadd (plan_cost plan) (plan_rows plan)) nextRows) outputRows in
          let combined := Z.lor mask (Z.shiftl 1 (Z.of_nat next)) in
          let better :=
            match plans !! combined with
            | None => true
            | Some old => dltb cost (plan_cost old)
            end in
          if better then <[combined := mkPlan cost outputRows (plan_order plan ++ [next])%list]> plans
          else plans
        else plans
  end.

Definition single_plan (relations : list RelationData) (plans : plan_table) (relation : nat)
    : plan_table :=
  let rows := of_int (Z.of_nat (size_of relations relation)) in
  <[Z.shiftl 1 (Z.of_nat relation) := mkPlan rows rows [relation]]> plans.

(** The plans of all sets of relations. *)
Definition all_plans (relations : list RelationData) (predicates : list JoinPredicate)
    : plan_table :=
  let count := length relations in
  fold_left (λ plans mask,
      fold_left (extend_plan relations predicates mask) (seq 0 count) plans)
    (seqZ 1 (2 ^ Z.of_nat count - 1))
    (fold_left (single_plan relations) (seq 0 count) ∅).

(** The order of the best plan for all relations. *)
Definition best_order (relations : list RelationData) (predicates : list JoinPredicate)
    : exec (option (list nat)) :=
  let count := length relations in
  if decide (64 <= count)%nat then Err (Undefined "shift by the width of the type")
  else Ok (plan_order <$> all_plans relations predicates !! (2 ^ Z.of_nat count - 1)%Z).

(** ** Running the plan *)

(** The first predicate between [next] and what is joined: the key of [next]
    and the key of the joined rows. *)
Fixpoint key_predicate (predicates : list JoinPredicate) (joinedMask : Z) (next : nat)
    : option (column_key * column_key) :=
  match predicates with
  | [] => None
  | p :: predicates =>
      if bool_decide (leftRelation p = next) && has_bit joinedMask (rightRelation p) then
        Some (leftColumn p, rightColumn p)
      else if bool_decide (rightRelation p = next) && has_bit joinedMask (leftRelation p) then
        Some (rightColumn p, leftColumn p)
      else key_predicate predicates joinedMask next
  end.

(** The predicates whose relations are both joined hold in the row. *)
Fixpoint passes (predicates : list JoinPredicate) (joinedMask : Z) (row : EvalRow) : exec bool :=
  match predicates with
  | [] => Ok true
  | p :: predicates =>
      if has_bit joinedMask (leftRelation p) && has_bit joinedMask (rightRelation p) then
        let* v := eval (expression p) row in
        if asBoolean v then passes predicates joinedMask row else Ok false
      else passes predicates joinedMask row
  end.

Fixpoint keep_passing (predicates : list JoinPredicate) (joinedMask : Z) (rows : list EvalRow)
    : exec (list EvalRow) :=
  match rows with
  | [] => Ok []
  | row :: rows =>
      let* keep := passes predicates joinedMask row in
      let* rest := keep_passing predicates joinedMask rows in
      Ok (if keep : bool then row :: rest else rest)
  end.

(** The pairs of rows with equal keys; the smaller side is hashed. *)
Definition hash_pairs (schema : list BoundColumn) (joinedKey nextKey : column_key)
    (rows nextRows : list EvalRow) : exec (list EvalRow) :=
  let* parts :=
    if (length rows <=? length nextRows)%nat then
      let* built := build_index_of joinedKey rows in
      rmap (λ next,
        let* found := probe built nextKey next in
        Ok ((λ row, combine_rows schema row next) <$> found)) nextRows
    else
      let* built := build_index_of nextKey nextRows in
      rmap (λ row,
        let* found := probe built joinedKey row in
        Ok (combine_rows schema row <$> found)) rows in
  Ok (concat parts).

Definition relation_at (relations : list RelationData) (relation : nat) : exec RelationData :=
  match relations !! relation with
  | Some r => Ok r
  | None => Err (Undefined "vector index out of range")
  end.

(** Join the relations of [order] to the rows of those in [joinedMask]. *)
Fixpoint join_in_order (c : Catalog) (relations : list RelationData)
    (predicates : list JoinPredicate) (front : RelationData) (joinedMask : Z) (order : list nat)
    (rows : list EvalRow) : exec (option (list EvalRow)) :=
  match order with
  | [] => Ok (Some rows)
  | next :: order =>
      match key_predicate predicates joinedMask next with
      | None => Ok None
      | Some (nextKey, joinedKey) =>
          let* relation := relation_at relations next in
          let* leftSchema := schema_of c rows (rel_table front) (rel_alias front) in
          let* rightSchema := schema_of c (rel_rows relation) (rel_table relation) (rel_alias relation) in
          let schema := combineSchemas leftSchema rightSchema in
          let* joined := hash_pairs schema joinedKey nextKey rows (rel_rows relation) in
          let joinedMask := Z.lor joinedMask (Z.shiftl 1 (Z.of_nat next)) in
          let* rows := keep_passing predicates joinedMask joined in
          join_in_order c relations predicates front joinedMask order rows
      end
  end.

Definition run_plan (c : Catalog) (relations : list RelationData) (predicates : list JoinPredicate)
    (order : list nat) : exec (option (list EvalRow)) :=
  match order with
  | [] => Err (Undefined "front of an empty vector")
  | first :: rest =>
      let* front := relation_at relations first in
      join_in_order c relations predicates front (Z.shiftl 1 (Z.of_nat first)) rest (rel_rows front)
  end.

Definition executeCostBasedJoins (s : Select_) : action (planner (D:=D)) (option (list EvalRow)) :=
  match cost_predicates s with
  | None => mret None
  | Some predicates =>
      relations ← load_relations predicates 0 (relation_names s);
      order ← lift (best_order relations predicates);
      match order with
      | None => mret None
      | Some order =>
          c ← gets (λ p, catalog_ (engine_ p));
          lift (run_plan c relations predicates order)
      end
  end.
End Join.
