(* ===== verification/JoinSpec.v ===== *)
(** The hash joins of [Join.v] against nested loops: on tables whose columns
    the join condition names without ambiguity, joining in source order gives
    the rows that nested loops over the whole condition give, left outer joins
    and null keys included, whatever the hash functions and the order in which
    the hash table yields the rows of a key. *)

From S2P Require Import Prelude.
From S2P Require Import Hash.
From S2P Require Import Double.
From S2P Require Import Config.
From S2P Require Import Value.
From S2P Require Import Tuple.
From S2P Require Import Ast.
From S2P Require Import Catalog.
From S2P Require Import Eval.
From S2P Require Import Select.
From S2P Require Import Bloom.
From S2P Require Import BTree.
From S2P Require Import Storage.
From S2P Require Import Heap.
From S2P Require Import HeapSpec.
From S2P Require Import Store.
From S2P Require Import Engine.
From S2P Require Import Constraints.
From S2P Require Import Integrity.
From S2P Require Import Statements.
From S2P Require Import Stats.
From S2P Require Import Join.

(** ** Computations whose results may be reordered *)

(** When [m] succeeds so does [n], with the same elements. *)
Definition permuted {A} (m n : exec (list A)) : Prop :=
  ∀ l, m = Ok l → ∃ l', n = Ok l' ∧ l ≡ₚ l'.

#[global] Instance permuted_refl {A} : Reflexive (@permuted A).
Proof. intros m l Hl. by exists l. Qed.

#[global] Instance permuted_trans {A} : Transitive (@permuted A).
Proof.
  intros m n o H1 H2 l Hl. destruct (H1 l Hl) as (l1 & Hl1 & P1).
  destruct (H2 l1 Hl1) as (l2 & Hl2 & P2). exists l2. split; [done|]. by etrans.
Qed.

(** [concat] of what [f] gives for every element. *)
Definition rconcat {A B} (f : A → exec (list B)) (l : list A) : exec (list B) :=
  let* parts := rmap f l in Ok (concat parts).

Lemma rconcat_nil {A B} (f : A → exec (list B)) : rconcat f [] = Ok [].
Proof. done. Qed.

Lemma rconcat_cons {A B} (f : A → exec (list B)) x l :
  rconcat f (x :: l) = (let* y := f x in let* ys := rconcat f l in Ok (y ++ ys)).
Proof.
  unfold rconcat. cbn. destruct (f x); [|done]. cbn. by destruct (rmap f l).
Qed.

Lemma rconcat_Ok {A B} (f : A → exec (list B)) (g : A → list B) l :
  (∀ x, x ∈ l → f x = Ok (g x)) → rconcat f l = Ok (concat (g <$> l)).
Proof.
  induction l as [|x l IH]; intros Hf; [done|].
  rewrite rconcat_cons, Hf by apply list_elem_of_here. cbn. rewrite IH; [done|].
  intros y Hy. by apply Hf, list_elem_of_further.
Qed.

Lemma rconcat_permuted {A B} (f g : A → exec (list B)) l l' :
  (∀ x, x ∈ l → permuted (f x) (g x)) → l ≡ₚ l' → permuted (rconcat f l) (rconcat g l').
Proof.
  intros Hfg Hl. transitivity (rconcat g l).
  - clear Hl. induction l as [|x l IH]; [done|]. intros r. rewrite !rconcat_cons. intros Hr.
    apply rbind_Ok in Hr as (y & Hy & Hr). apply rbind_Ok in Hr as (ys & Hys & [= <-]).
    destruct (Hfg x (list_elem_of_here _ _) y Hy) as (y' & -> & Hy').
    destruct (IH (λ z Hz, Hfg z (list_elem_of_further _ _ _ Hz)) ys Hys) as (ys' & -> & Hys').
    cbn. eexists. split; [done|]. by rewrite Hy', Hys'.
  - clear Hfg. induction Hl as [|x l l' _ IH|x y l|l1 l2 l3 _ IH1 _ IH2]; [done| | |by etrans].
    + intros r. rewrite !rconcat_cons. intros Hr.
      apply rbind_Ok in Hr as (z & Hz & Hr). apply rbind_Ok in Hr as (zs & Hzs & [= <-]).
      destruct (IH zs Hzs) as (zs' & -> & Hp). rewrite Hz. cbn. eexists. split; [done|]. by rewrite Hp.
    + intros r. rewrite !rconcat_cons. intros Hr.
      apply rbind_Ok in Hr as (z & Hz & Hr). apply rbind_Ok in Hr as (zs & Hzs & [= <-]).
      apply rbind_Ok in Hzs as (w & Hw & Hzs). apply rbind_Ok in Hzs as (ws & Hws & [= <-]).
      rewrite Hw, Hz, Hws. cbn. eexists. split; [done|]. by rewrite Permutation_app_swap_app.
Qed.

Lemma rconcat_app {A B} (f : A → exec (list B)) l1 l2 :
  rconcat f (l1 ++ l2) = (let* x := rconcat f l1 in let* y := rconcat f l2 in Ok (x ++ y)).
Proof.
  induction l1 as [|a l1 IH]; [cbn; by destruct (rconcat f l2)|].
  rewrite <- app_comm_cons, !rconcat_cons, IH. destruct (f a); [cbn [rbind]|done].
  destruct (rconcat f l1); [cbn [rbind]|done]. destruct (rconcat f l2); [cbn [rbind]|done].
  by rewrite <- app_assoc.
Qed.

Lemma rconcat_app_Ok {A B} (f : A → exec (list B)) l1 l2 h1 h2 :
  rconcat f l1 = Ok h1 → rconcat f l2 = Ok h2 → rconcat f (l1 ++ l2) = Ok (h1 ++ h2).
Proof. intros H1 H2. by rewrite rconcat_app, H1, H2. Qed.

Lemma rconcat_concat {A B} (f : A → exec (list B)) blocks n :
  rconcat f (concat blocks) = Ok n →
  ∃ ns, n = concat ns ∧ Forall2 (λ b m, rconcat f b = Ok m) blocks ns.
Proof.
  revert n. induction blocks as [|b blocks IH]; intros n; cbn [concat].
  { intros [= <-]. by exists []. }
  rewrite rconcat_app. intros Hn. apply rbind_Ok in Hn as (m & Hm & Hn).
  apply rbind_Ok in Hn as (ms & Hms & [= <-]). destruct (IH ms Hms) as (ns & -> & Hns).
  exists (m :: ns). by split; [|constructor].
Qed.

(** ** Columns of joined rows *)

(** A row with one value for each column of the schema. *)
Definition row_in (cols : list BoundColumn) (row : EvalRow) : Prop :=
  columns row = Some cols ∧ length (values row) = length cols.

Definition matching (key : column_key) (cols : list BoundColumn) : list BoundColumn :=
  List.filter (column_matches key.1 key.2) cols.

(** The key names a column, only one when it has no qualifier. *)
Definition resolvable (key : column_key) (cols : list BoundColumn) : bool :=
  match matching key cols with
  | [] => false
  | [_] => true
  | _ :: _ :: _ => negb (String.eqb key.1 "")
  end.

Lemma matching_values_app key L R l r :
  length l = length L →
  candidate_values key.1 key.2 (L ++ R) (l ++ r)
  = candidate_values key.1 key.2 L l ++ candidate_values key.1 key.2 R r.
Proof.
  revert l. induction L as [|c L IH]; intros [|v l] Hl; try done. cbn. injection Hl as Hl.
  rewrite IH by done. by destruct (column_matches _ _ c).
Qed.

Lemma candidate_values_length key cols row :
  length row = length cols → length (candidate_values key.1 key.2 cols row) = length (matching key cols).
Proof.
  revert row. induction cols as [|c cols IH]; intros [|v row] Hl; try done. cbn.
  injection Hl as Hl. specialize (IH row Hl). unfold matching in *.
  destruct (column_matches _ _ c); cbn; by rewrite IH.
Qed.

Lemma resolve_resolvable key cols row :
  row_in cols row → resolvable key cols = true → is_ok (resolve_key key row) = true.
Proof.
  intros [Hc Hl] Hr. unfold resolve_key. rewrite (resolveColumn_candidates _ _ _ cols Hc Hl).
  pose proof (candidate_values_length key cols (values row) Hl) as Hlen. unfold resolvable in Hr.
  destruct (candidate_values _ _ _ _) as [|v more], (matching key cols) as [|c [|c' rest]]; try done.
  - destruct more; [|done]. by rewrite bool_decide_eq_false_2 by (intros Hne; by apply Hne).
  - rewrite (bool_decide_eq_false_2 (key.1 = "")); [by rewrite andb_false_r|].
    intros Heq. by rewrite Heq in Hr.
Qed.

Lemma combine_row_in L R l r : row_in L l → row_in R r → row_in (L ++ R) (combine_rows (L ++ R) l r).
Proof. intros [_ Hl] [_ Hr]. split; [done|]. cbn. rewrite !length_app. congruence. Qed.

Lemma pad_row_in L R l : row_in L l → row_in (L ++ R) (pad_row (L ++ R) l (length R)).
Proof. intros [_ Hl]. split; [done|]. cbn. rewrite !length_app, length_replicate. congruence. Qed.

(** A key of the left rows in a joined row. *)
Lemma resolve_combined_left key L R l r :
  row_in L l → row_in R r → matching key R = [] →
  resolve_key key (combine_rows (L ++ R) l r) = resolve_key key l.
Proof.
  intros Hl Hr Hno. pose proof (combine_row_in L R l r Hl Hr) as [Hc Hlen].
  destruct Hl as [Hlc Hll], Hr as [Hrc Hrl]. unfold resolve_key.
  rewrite (resolveColumn_candidates _ _ _ (L ++ R) Hc Hlen), (resolveColumn_candidates _ _ _ L Hlc Hll).
  cbn [combine_rows values]. rewrite matching_values_app by done.
  pose proof (candidate_values_length key R (values r) Hrl) as Hlr. rewrite Hno in Hlr.
  apply nil_length_inv in Hlr as ->. by rewrite app_nil_r.
Qed.

(** A qualified key of the right rows. *)
Lemma resolve_combined_right key L R l r :
  row_in L l → row_in R r → key.1 ≠ "" → matching key R ≠ [] →
  resolve_key key (combine_rows (L ++ R) l r) = resolve_key key r.
Proof.
  intros Hl Hr Hq Hsome. pose proof (combine_row_in L R l r Hl Hr) as [Hc Hlen].
  destruct Hl as [Hlc Hll], Hr as [Hrc Hrl]. unfold resolve_key.
  rewrite (resolveColumn_candidates _ _ _ (L ++ R) Hc Hlen), (resolveColumn_candidates _ _ _ R Hrc Hrl).
  cbn [combine_rows values]. rewrite matching_values_app by done.
  pose proof (candidate_values_length key R (values r) Hrl) as Hlr.
  destruct (candidate_values _ _ R (values r)) as [|w more] eqn:Hw.
  { by destruct (matching key R). }
  rewrite (bool_decide_eq_false_2 (key.1 = "")) by done.
  destruct (candidate_values _ _ L (values l)) as [|v vs]; cbn [app]; [done|].
  rewrite !andb_false_r. f_equal. unfold last_value. by rewrite fold_left_app.
Qed.

(** The columns of one table. *)
Definition table_schema (table alias : string) (metadata : TableMeta) : list BoundColumn :=
  map (λ column, mkBound table alias (cm_name column)) (t_columns metadata).

Lemma boundSchema_known c table alias t :
  getTable c table = Some t → boundSchema c table alias = Ok (table_schema table alias t).
Proof. intros Ht. unfold boundSchema. by rewrite Ht. Qed.

Lemma no_match_outside key join metadata :
  key.1 ≠ "" → belongs_to join (Some key) = false →
  matching key (table_schema (jc_table join) (jc_alias join) metadata) = [].
Proof.
  destruct key as [table column]. cbn. intros Hq Hb. unfold matching, table_schema.
  apply String.eqb_neq in Hq as Hq'. rewrite Hq' in Hb. cbn in Hb.
  apply orb_false_elim in Hb as [H1%String.eqb_neq H2%String.eqb_neq].
  induction (t_columns metadata) as [|col cols IH]; [done|]. cbn.
  assert (column_matches table column (mkBound (jc_table join) (jc_alias join) (cm_name col)) = false) as ->; [|done].
  unfold column_matches, qualifier_matches. cbn.
  rewrite (bool_decide_eq_false_2 (table = "")), (bool_decide_eq_false_2 (table = jc_table join)),
    (bool_decide_eq_false_2 (table = jc_alias join)) by done.
  cbn. by rewrite !andb_false_r.
Qed.

(** ** The hash table *)

(** The value of a key in a row where it resolves. *)
Definition key_value (key : column_key) (row : EvalRow) : Value :=
  default VNull (ok_value (resolve_key key row)).

Lemma key_value_ok key row :
  is_ok (resolve_key key row) = true → resolve_key key row = Ok (key_value key row).
Proof. unfold key_value. by destruct (resolve_key key row). Qed.

(** Two keys that the condition [a = b] accepts. *)
Definition keys_meet (a b : Value) : bool := negb (isNull a) && negb (isNull b) && value_eqb a b.

Lemma keys_meet_comm a b : keys_meet a b = keys_meet b a.
Proof. unfold keys_meet. rewrite value_eqb_comm. by destruct (isNull a), (isNull b). Qed.

Lemma equals_keys_meet a b :
  ∃ v, applyBinary "=" a b = Ok v ∧ asBoolean v = keys_meet a b.
Proof.
  unfold applyBinary, keys_meet. cbn.
  destruct (isNull a); cbn; [by eexists|]. destruct (isNull b); cbn; [by eexists|]. by eexists.
Qed.

(** What is in the hash table. *)
Definition entries (key : column_key) (rows : list EvalRow) : list (Value * EvalRow) :=
  List.filter (λ e, negb (isNull e.1)) (map (λ row, (key_value key row, row)) rows).

Lemma filter_entries key v rows :
  isNull v = false →
  snd <$> List.filter (λ e, value_eqb e.1 v) (entries key rows)
  = List.filter (λ row, keys_meet (key_value key row) v) rows.
Proof.
  intros Hv. unfold entries. induction rows as [|row rows IH]; [done|].
  cbn [map List.filter]. unfold keys_meet at 1. rewrite Hv. cbn [negb fst].
  destruct (isNull (key_value key row)); cbn [negb andb List.filter fst].
  - exact IH.
  - destruct (value_eqb (key_value key row) v); [|exact IH]. rewrite fmap_cons. by rewrite IH.
Qed.

Section hashing.
Context (getenv : string → option string).
Context (std_hash_double : double → Z) (std_hash_string : string → Z).
Context (walk : ∀ A : Type, list A → list A).
Context (Hhash : ∀ x y, deqb x y = true → std_hash_double x = std_hash_double y).
Context (Hwalk : ∀ A l, walk A l ≡ₚ l).

Lemma build_side_ok key rows bloom index :
  (∀ row, row ∈ rows → is_ok (resolve_key key row) = true) →
  build_side std_hash_double std_hash_string key rows bloom index
  = (let* b := rfold (bloom_add std_hash_double std_hash_string) (entries key rows).*1 bloom in
     Ok (b, index ++ entries key rows)).
Proof.
  revert bloom index. induction rows as [|row rows IH]; intros bloom index Hok.
  { cbn. by rewrite app_nil_r. }
  cbn [build_side]. rewrite (key_value_ok key row) by (apply Hok, list_elem_of_here). cbn [rbind].
  assert (Hrest : ∀ r, r ∈ rows → is_ok (resolve_key key r) = true).
  { intros r Hr. by apply Hok, list_elem_of_further. }
  unfold entries. cbn [map List.filter fst]. fold (entries key rows).
  destruct (isNull (key_value key row)); cbn [negb]; [by apply IH|].
  rewrite fmap_cons. cbn [rfold fst]. destruct (bloom_add _ _ bloom _); [|done]. cbn [rbind].
  rewrite IH by done. destruct (rfold _ _ _); [|done]. cbn [rbind]. by rewrite <- app_assoc.
Qed.

Lemma build_index_of_ok key rows :
  (∀ row, row ∈ rows → is_ok (resolve_key key row) = true) →
  bloom_size_ok getenv (Z.of_nat (length rows)) →
  ∃ b, build_index_of getenv std_hash_double std_hash_string key rows = Ok (b, entries key rows) ∧
    bloom_admits std_hash_double std_hash_string b (entries key rows).*1.
Proof.
  intros Hok Hsize. destruct (newBloom_ok getenv _ Hsize) as (b0 & Hnew & Hb0).
  destruct (bloom_adds_ok std_hash_double std_hash_string Hhash (entries key rows).*1 b0 Hb0)
    as (b & Hadd & Hb).
  exists b. split; [|done]. unfold build_index_of. rewrite Hnew. cbn [rbind].
  by rewrite build_side_ok, Hadd by done.
Qed.

Lemma probe_ok b key rows other row :
  bloom_admits std_hash_double std_hash_string b (entries key rows).*1 →
  is_ok (resolve_key other row) = true →
  ∃ l, probe std_hash_double std_hash_string walk (b, entries key rows) other row = Ok l ∧
    l ≡ₚ List.filter (λ r, keys_meet (key_value key r) (key_value other row)) rows.
Proof.
  intros [Hb Hadmit] Hok. unfold probe. rewrite (key_value_ok other row Hok). cbn [rbind fst snd].
  set (v := key_value other row). destruct (isNull v) eqn:Hv.
  { exists []. split; [done|]. rewrite filter_false; [done|]. apply Forall_forall. intros r _.
    unfold keys_meet. by rewrite Hv, andb_false_r. }
  pose proof (bloom_all_total b (bloom_probes std_hash_double std_hash_string v) Hb) as Htot.
  fold (mayContain std_hash_double std_hash_string b v) in Htot.
  destruct (mayContain std_hash_double std_hash_string b v) as [may|] eqn:Hmay; [|done]. cbn [rbind].
  rewrite <- (filter_entries key v rows Hv). destruct may.
  - eexists. split; [done|]. unfold equal_range. by rewrite Hwalk.
  - exists []. split; [done|]. rewrite filter_false; [done|]. apply Forall_forall. intros e He.
    apply not_true_iff_false. intros Heq.
    assert (mayContain std_hash_double std_hash_string b v = Ok true); [|congruence].
    apply (Hadmit e.1); [by apply list_elem_of_fmap_2|done].
Qed.
End hashing.

(** ** One join *)

Lemma eval_column n key row : column_ref n = Some key → eval n row = resolve_key key row.
Proof. by destruct n; cbn; intros [= <-]. Qed.

Lemma join_keys_Some join lk rk :
  join_keys join = Some (lk, rk) →
  belongs_to join (Some rk) = true ∧ belongs_to join (Some lk) = false ∧
  ∃ l r a p, jc_condition join = BinaryOp "=" l r a p ∧
    (column_ref l = Some lk ∧ column_ref r = Some rk ∨
     column_ref l = Some rk ∧ column_ref r = Some lk).
Proof.
  unfold join_keys. destruct (jc_condition join) as [| | |op l r a p| | | |]; try done.
  destruct (String.eqb_spec op "=") as [->|]; [|done].
  destruct (belongs_to join (column_ref l) && negb (belongs_to join (column_ref r))) eqn:H1.
  - destruct (column_ref r) as [rkey|] eqn:Hr, (column_ref l) as [lkey|] eqn:Hl; try done.
    intros [= <- <-]. apply andb_prop in H1 as [H1 H2%negb_true_iff].
    split; [done|]. split; [done|]. exists l, r, a, p. by auto.
  - destruct (belongs_to join (column_ref r) && negb (belongs_to join (column_ref l))) eqn:H2; [|done].
    destruct (column_ref l) as [lkey|] eqn:Hl, (column_ref r) as [rkey|] eqn:Hr; try done.
    intros [= <- <-]. apply andb_prop in H2 as [H2 H3%negb_true_iff].
    split; [done|]. split; [done|]. exists l, r, a, p. by auto.
Qed.

Lemma belongs_qualified join key : belongs_to join (Some key) = true → key.1 ≠ "".
Proof. destruct key as [table column]. cbn. intros H ->. done. Qed.

Section step.
Context (c : Catalog) (join : JoinClause Node) (lk rk : column_key) (metadata : TableMeta).
Context (L : list BoundColumn).
Let R := table_schema (jc_table join) (jc_alias join) metadata.
Context (Hkeys : join_keys join = Some (lk, rk)).
Context (Hmeta : getTable c (jc_table join) = Some metadata).
Context (Hlk : resolvable lk L = true) (Hrk : resolvable rk R = true).
Context (Hout : lk.1 ≠ "" ∨ matching lk R = []).

Lemma left_outside : matching lk R = [].
Proof.
  destruct (join_keys_Some _ _ _ Hkeys) as (_ & Hb & _).
  destruct Hout as [Hq|]; [|done]. by apply no_match_outside.
Qed.

Lemma condition_meets l r :
  row_in L l → row_in R r →
  keeps (Some (jc_condition join)) (combine_rows (L ++ R) l r)
  = Ok (keys_meet (key_value rk r) (key_value lk l)).
Proof.
  intros Hl Hr. destruct (join_keys_Some _ _ _ Hkeys) as (Hb & _ & el & er & a & p & Hcond & Hcols).
  assert (Hel : resolve_key lk (combine_rows (L ++ R) l r) = Ok (key_value lk l)).
  { rewrite resolve_combined_left by (done || apply left_outside).
    by apply key_value_ok, (resolve_resolvable _ L). }
  assert (Her : resolve_key rk (combine_rows (L ++ R) l r) = Ok (key_value rk r)).
  { rewrite resolve_combined_right; try done.
    - by apply key_value_ok, (resolve_resolvable _ R).
    - by eapply belongs_qualified.
    - intros Hno. unfold resolvable in Hrk. by rewrite Hno in Hrk. }
  unfold keeps. rewrite Hcond. cbn [eval].
  destruct Hcols as [[H1 H2]|[H1 H2]];
    rewrite (eval_column _ _ _ H1), (eval_column _ _ _ H2), Hel, Her; cbn [rbind].
  - destruct (equals_keys_meet (key_value lk l) (key_value rk r)) as (v & -> & Hv).
    cbn [rbind]. by rewrite Hv, keys_meet_comm.
  - destruct (equals_keys_meet (key_value rk r) (key_value lk l)) as (v & -> & Hv).
    cbn [rbind]. by rewrite Hv.
Qed.

Lemma nested_matches_ok l right :
  row_in L l → Forall (row_in R) right →
  nested_matches join (L ++ R) l right
  = Ok (combine_rows (L ++ R) l <$>
        List.filter (λ r, keys_meet (key_value rk r) (key_value lk l)) right).
Proof.
  intros Hl Hright. unfold nested_matches. induction Hright as [|r right Hr _ IH]; [done|].
  rewrite fmap_cons. cbn [filter_rows List.filter]. rewrite condition_meets by done. cbn [rbind].
  rewrite IH. cbn [rbind]. by destruct (keys_meet _ _).
Qed.

Lemma padded_permuted l width m m' :
  m ≡ₚ m' → padded join (L ++ R) l width m ≡ₚ padded join (L ++ R) l width m'.
Proof.
  intros Hm. destruct m as [|x m]; [by apply Permutation_nil in Hm as ->|].
  destruct m' as [|y m']; [|done]. symmetry in Hm. by apply Permutation_nil in Hm.
Qed.

Lemma nested_width_ok right :
  Forall (row_in R) right → nested_width c join right = length R.
Proof.
  unfold nested_width, table_width. rewrite Hmeta. intros Hr.
  destruct Hr as [|r right [_ Hr] _]; [|done]. unfold R, table_schema. by rewrite length_map.
Qed.

Context (getenv : string → option string).
Context (std_hash_double : double → Z) (std_hash_string : string → Z).
Context (walk : ∀ A : Type, list A → list A).
Context (Hhash : ∀ x y, deqb x y = true → std_hash_double x = std_hash_double y).
Context (Hwalk : ∀ A l, walk A l ≡ₚ l).

Lemma hash_join_nested rows right :
  Forall (row_in L) rows → Forall (row_in R) right →
  bloom_size_ok getenv (Z.of_nat (length right)) →
  permuted (nested_loop_join c join (L ++ R) rows right)
    (hash_join getenv std_hash_double std_hash_string walk c join (L ++ R) lk rk rows right).
Proof.
  intros Hrows Hright Hsize. rewrite Forall_forall in Hrows.
  destruct (build_index_of_ok getenv std_hash_double std_hash_string Hhash rk right)
    as (b & Hbuilt & Hb); [|done|].
  { intros r Hr. rewrite Forall_forall in Hright. by apply (resolve_resolvable _ R), Hrk; apply Hright. }
  unfold hash_join. rewrite Hbuilt. cbn [rbind]. apply rconcat_permuted; [|done].
  intros l Hl. rewrite nested_matches_ok by auto. cbn [rbind].
  destruct (probe_ok std_hash_double std_hash_string walk Hwalk b rk right lk l Hb) as (found & -> & Hfound).
  { by apply (resolve_resolvable _ L), Hlk; apply Hrows. }
  cbn [rbind]. intros r [= <-]. eexists. split; [done|].
  rewrite nested_width_ok by done. unfold table_width. rewrite Hmeta.
  replace (length (t_columns metadata)) with (length R) by (unfold R, table_schema; apply length_map).
  apply padded_permuted. by rewrite Hfound.
Qed.
End step.

(** ** All joins of a statement *)

(** The meaning of the joins: nested loops over the conditions, one table after
    the other.  [tables] gives the rows of a table. *)
Fixpoint nested_joins (c : Catalog) (tables : string → string → exec (list EvalRow))
    (joins : list (JoinClause Node)) (L : list BoundColumn) (rows : list EvalRow)
    : exec (list EvalRow) :=
  match joins with
  | [] => Ok rows
  | join :: joins =>
      let* right := tables (jc_table join) (jc_alias join) in
      let* R := boundSchema c (jc_table join) (jc_alias join) in
      let* rows := nested_loop_join c join (L ++ R) rows right in
      nested_joins c tables joins (L ++ R) rows
  end.

(** Where a hash table is used, each key is a column of its own side. *)
Definition join_resolves (L R : list BoundColumn) (join : JoinClause Node) : bool :=
  match join_keys join with
  | Some (lk, rk) =>
      resolvable lk L && resolvable rk R &&
      (negb (String.eqb lk.1 "") || match matching lk R with [] => true | _ :: _ => false end)
  | None => true
  end.

Fixpoint joins_resolve (c : Catalog) (joins : list (JoinClause Node)) (L : list BoundColumn) : bool :=
  match joins with
  | [] => true
  | join :: joins =>
      match boundSchema c (jc_table join) (jc_alias join) with
      | Ok R => join_resolves L R join && joins_resolve c joins (L ++ R)
      | Err _ => true
      end
  end.

Lemma filter_rows_subset e rows kept : filter_rows e rows = Ok kept → ∀ r, r ∈ kept → r ∈ rows.
Proof.
  revert kept. induction rows as [|row rows IH]; intros kept; cbn; [by intros [= <-]|].
  intros Hk. apply rbind_Ok in Hk as (b & _ & Hk). apply rbind_Ok in Hk as (rest & Hrest & [= <-]).
  intros r. destruct b.
  - intros [->|Hr]%elem_of_cons; [apply list_elem_of_here|]. by apply list_elem_of_further, (IH rest).
  - intros Hr. by apply list_elem_of_further, (IH rest).
Qed.

Lemma rconcat_elem {A B} (f : A → exec (list B)) l r y :
  rconcat f l = Ok r → y ∈ r → ∃ x z, x ∈ l ∧ f x = Ok z ∧ y ∈ z.
Proof.
  revert r. induction l as [|x l IH]; intros r.
  { intros [= <-] Hy. by apply elem_of_nil in Hy. }
  rewrite rconcat_cons. intros Hr.
  apply rbind_Ok in Hr as (z & Hz & Hr). apply rbind_Ok in Hr as (zs & Hzs & [= <-]).
  intros [Hy|Hy]%elem_of_app.
  - exists x, z. split_and!; try done. apply list_elem_of_here.
  - destruct (IH zs Hzs Hy) as (x' & z' & Hx & ?). exists x', z'. split; [|done].
    by apply list_elem_of_further.
Qed.

Lemma nested_loop_row_in c join L R metadata rows right n :
  getTable c (jc_table join) = Some metadata →
  R = table_schema (jc_table join) (jc_alias join) metadata →
  Forall (row_in L) rows → Forall (row_in R) right →
  nested_loop_join c join (L ++ R) rows right = Ok n → Forall (row_in (L ++ R)) n.
Proof.
  intros Hmeta HR Hrows Hright Hn. rewrite Forall_forall in Hrows, Hright. apply Forall_forall.
  intros y Hy. destruct (rconcat_elem _ _ _ _ Hn Hy) as (l & z & Hl & Hz & Hyz).
  apply rbind_Ok in Hz as (m & Hm & [= <-]). unfold padded in Hyz.
  assert (Hin : ∀ y, y ∈ m → row_in (L ++ R) y).
  { intros y' Hy'. apply (filter_rows_subset _ _ _ Hm) in Hy'.
    apply list_elem_of_fmap in Hy' as (r & -> & Hr). apply combine_row_in; auto. }
  destruct m as [|x m]; [|by apply Hin].
  destruct (is_left_join join); [|by apply elem_of_nil in Hyz].
  apply list_elem_of_singleton in Hyz as ->.
  assert (nested_width c join right = length R) as ->; [|by apply pad_row_in, Hrows].
  subst R. apply (nested_width_ok c join metadata Hmeta). by apply Forall_forall.
Qed.

Section statement.
Context {D F : Type} `{HeapFilesLaws D F}.
Context (getenv : string → option string).
Context (std_hash_double : double → Z) (std_hash_string : string → Z).
Context (walk : ∀ A : Type, list A → list A).
Context (Hhash : ∀ x y, deqb x y = true → std_hash_double x = std_hash_double y).
Context (Hwalk : ∀ A l, walk A l ≡ₚ l).
Context (c : Catalog) (M : gmap string rows) (s : Select_).

(** The rows of a table of the database. *)
Definition table_rows (n alias : string) : exec (list EvalRow) :=
  match getTable c n, M !! n with
  | Some t, Some rs => Ok (map (λ x : RowId * Tuple, mkRow (Some (table_schema n alias t)) x.2) rs)
  | _, _ => Err (Throw ("Unknown table: " +:+ n))
  end.

Lemma scan_table_rows e n alias right :
  holds_database c M e → table_rows n alias = Ok right →
  ∃ scan e', scanTable n alias e = (Ok scan, e') ∧ sc_row <$> scan = right ∧ holds_database c M e' ∧
    ∃ t rs, getTable c n = Some t ∧ M !! n = Some rs ∧
      length right = length rs ∧ Forall (row_in (table_schema n alias t)) right.
Proof.
  unfold table_rows. intros He Hright. destruct (getTable c n) as [t|] eqn:Ht; [|done].
  destruct (M !! n) as [rs|] eqn:Hrs; [|done]. injection Hright as <-.
  destruct (scanTable_run c M e n alias t rs He Ht Hrs) as (e' & Hrun & He').
  rewrite (boundSchema_known c n alias t Ht) in Hrun. cbn [rbind] in Hrun.
  eexists _, e'. split; [exact Hrun|]. split; [|split; [done|]].
  - rewrite <- list_fmap_compose. done.
  - exists t, rs. split_and!; try done; [by rewrite length_map|].
    apply Forall_map, Forall_forall. intros x Hx. split; [done|]. cbn. unfold table_schema.
    rewrite length_map. symmetry.
    eapply Forall2_length, (co_rows _ _ _ _ (do_contents _ _ (proj2 He) n t rs Ht Hrs)), Hx.
Qed.

Abbreviation Source_join := (source_join getenv std_hash_double std_hash_string walk c s).

(** One round of the loop. *)
Lemma source_join_ok join t L rows right :
  getTable c (jc_table join) = Some t → is_Some (getTable c (s_fromTable s)) →
  let R := table_schema (jc_table join) (jc_alias join) t in
  join_resolves L R join = true → Forall (row_in L) rows → Forall (row_in R) right →
  bloom_size_ok getenv (Z.of_nat (length right)) →
  permuted (nested_loop_join c join (L ++ R) rows right) (Source_join join rows right).
Proof.
  intros Ht [from Hfrom] R Hres Hrows Hright Hsize. unfold source_join.
  assert (HR : schema_of c right (jc_table join) (jc_alias join) = Ok (Some R)).
  { unfold schema_of. destruct Hright as [|r right [Hr _] _]; [|by rewrite Hr].
    by rewrite (boundSchema_known _ _ _ _ Ht). }
  destruct rows as [|row rows].
  - unfold schema_of at 1. rewrite (boundSchema_known _ _ _ _ Hfrom). cbn [rbind].
    rewrite HR. cbn [rbind]. unfold join_resolves in Hres.
    destruct (join_keys join) as [[lk rk]|]; [|done].
    apply andb_prop in Hres as [[_ Hrk]%andb_prop _].
    destruct (build_index_of_ok getenv std_hash_double std_hash_string Hhash rk right)
      as (b & Hbuilt & _); [|done|].
    { intros r Hr. rewrite Forall_forall in Hright. by apply (resolve_resolvable _ R), Hrk; apply Hright. }
    unfold hash_join. rewrite Hbuilt. done.
  - assert (HL : schema_of c (row :: rows) (s_fromTable s) (s_fromAlias s) = Ok (Some L)).
    { unfold schema_of. apply Forall_cons in Hrows as [[Hr _] _]. by rewrite Hr. }
    rewrite HL, HR. cbn [rbind combineSchemas default]. unfold join_resolves in Hres.
    change (combineSchemas (Some L) (Some R)) with (L ++ R).
    destruct (join_keys join) as [[lk rk]|] eqn:Hkeys; [|done].
    apply andb_prop in Hres as [[Hlk Hrk]%andb_prop Hout].
    eapply (hash_join_nested c join lk rk t L); try done.
    apply orb_prop in Hout as [Hq|Hno].
    + left. by apply negb_true_iff, String.eqb_neq in Hq.
    + right. unfold R in Hno. by destruct (matching lk _).
Qed.

(** A round treats the rows on its left one after the other. *)
Lemma source_join_nil join right h : Source_join join [] right = Ok h → h = [].
Proof.
  unfold source_join. intros Hh. apply rbind_Ok in Hh as (L & _ & Hh).
  apply rbind_Ok in Hh as (R & _ & Hh). destruct (join_keys join) as [[lk rk]|].
  - unfold hash_join in Hh. apply rbind_Ok in Hh as (built & _ & Hh). by injection Hh as <-.
  - by injection Hh as <-.
Qed.

Lemma source_join_app join L l1 l2 right h1 h2 :
  Forall (row_in L) l1 → Forall (row_in L) l2 →
  Source_join join l1 right = Ok h1 → Source_join join l2 right = Ok h2 →
  Source_join join (l1 ++ l2) right = Ok (h1 ++ h2).
Proof.
  intros Hl1 Hl2 H1 H2.
  destruct l1 as [|r1 l1]; [by apply source_join_nil in H1 as ->|].
  destruct l2 as [|r2 l2]; [apply source_join_nil in H2 as ->; by rewrite !app_nil_r|].
  assert (HL : ∀ row rows, row_in L row →
    schema_of c (row :: rows) (s_fromTable s) (s_fromAlias s) = Ok (Some L)).
  { intros row rows [Hrow _]. unfold schema_of. by rewrite Hrow. }
  apply Forall_cons in Hl1 as [Hr1 _], Hl2 as [Hr2 _].
  unfold source_join in *. rewrite <- app_comm_cons. rewrite HL in * by done. cbn [rbind] in *.
  destruct (schema_of c right _ _) as [R|]; [cbn [rbind] in *|done].
  rewrite app_comm_cons. destruct (join_keys join) as [[lk rk]|].
  - unfold hash_join in *. destruct (build_index_of _ _ _ rk right) as [built|]; [cbn [rbind] in *|done].
    by apply rconcat_app_Ok.
  - by apply rconcat_app_Ok.
Qed.

Lemma source_join_concat join L right blocks hs :
  Source_join join [] right = Ok [] → Forall (Forall (row_in L)) blocks →
  Forall2 (λ b h, Source_join join b right = Ok h) blocks hs →
  Source_join join (concat blocks) right = Ok (concat hs).
Proof.
  intros Hnil Hin Hall. induction Hall as [|b h blocks hs Hb _ IH]; [done|].
  apply Forall_cons in Hin as [Hbin Hin]. cbn [concat].
  apply (source_join_app join L); [done| |done|by apply IH].
  apply Forall_concat. exact Hin.
Qed.

(** One round: [nested_loop_join] over a block gives the rows of the block. *)
Lemma round_blocks join t L blocks blocks' right n1 :
  getTable c (jc_table join) = Some t → is_Some (getTable c (s_fromTable s)) →
  let R := table_schema (jc_table join) (jc_alias join) t in
  join_resolves L R join = true → Forall (Forall (row_in L)) blocks → Forall2 (≡ₚ) blocks blocks' →
  Forall (row_in R) right → bloom_size_ok getenv (Z.of_nat (length right)) →
  nested_loop_join c join (L ++ R) (concat blocks) right = Ok n1 →
  ∃ ns hs, Source_join join (concat blocks') right = Ok (concat hs) ∧ n1 = concat ns ∧
    Forall2 (λ b m, nested_loop_join c join (L ++ R) b right = Ok m) blocks ns ∧
    Forall2 (≡ₚ) ns hs ∧ Forall (Forall (row_in (L ++ R))) ns.
Proof.
  intros Ht Hfrom R Hres Hrows Hperm Hright Hsize Hn1.
  apply rconcat_concat in Hn1 as (ns & -> & Hns).
  assert (Hin' : Forall (Forall (row_in L)) blocks').
  { clear -Hrows Hperm. induction Hperm as [|b b' bs bs' Hb _ IH]; [done|].
    apply Forall_cons in Hrows as [Hrow Hrows]. constructor; [by rewrite <- Hb|by apply IH]. }
  assert (Hblocks : ∃ hs, Forall2 (λ b h, Source_join join b right = Ok h) blocks' hs ∧
    Forall2 (≡ₚ) ns hs ∧ Forall (Forall (row_in (L ++ R))) ns).
  { clear Hin'. revert blocks' Hperm Hrows. induction Hns as [|b m bs ms Hb _ IH]; intros blocks' Hperm Hrows.
    { inversion Hperm. by exists []. }
    inversion Hperm as [|? b' ? bs' Hb' Hbs']; subst. apply Forall_cons in Hrows as [Hrow Hrows].
    destruct (IH bs' Hbs' Hrows) as (hs & Hhs & Hp & Hins).
    destruct (rconcat_permuted _ _ b b' (λ x _, reflexivity _) Hb' m Hb) as (m' & Hm' & Hpm).
    destruct (source_join_ok join t L b' right Ht Hfrom Hres) with (l := m') as (h & Hh & Hph);
      [by rewrite <- Hb'|done..|].
    exists (h :: hs). split; [by constructor|]. split; [constructor; [by rewrite Hpm|done]|].
    constructor; [|done]. eapply (nested_loop_row_in c join L R t); [exact Ht|done|exact Hrow|exact Hright|exact Hb]. }
  destruct Hblocks as (hs & Hhs & Hp & Hins). exists ns, hs. split_and!; try done.
  eapply source_join_concat; [|exact Hin'|exact Hhs].
  destruct (source_join_ok join t L [] right Ht Hfrom Hres) with (l := @nil EvalRow) as (h & Hh & Hph); try done.
  by apply Permutation_nil in Hph as ->.
Qed.

(** All rounds: when the rows on the left come in blocks, so do the rows of the
    result, the nested loops over a block giving those of its block. *)
Lemma source_joins_ok joins L blocks blocks' n e :
  holds_database c M e → is_Some (getTable c (s_fromTable s)) →
  Forall (Forall (row_in L)) blocks → Forall2 (≡ₚ) blocks blocks' →
  joins_resolve c joins L = true →
  Forall (λ j, ∀ rs, M !! jc_table j = Some rs → bloom_size_ok getenv (Z.of_nat (length rs))) joins →
  nested_joins c table_rows joins L (concat blocks) = Ok n →
  ∃ ns hs e',
    source_joins getenv std_hash_double std_hash_string walk s joins (concat blocks') e
      = (Ok (concat hs), e') ∧ n = concat ns ∧
    Forall2 (λ b m, nested_joins c table_rows joins L b = Ok m) blocks ns ∧
    Forall2 (≡ₚ) ns hs ∧ holds_database c M e'.
Proof.
  intros He Hfrom. revert L blocks blocks' e He.
  induction joins as [|join joins IH]; intros L blocks blocks' e He Hrows Hperm Hres Hsize Hn.
  { injection Hn as <-. exists blocks, blocks', e. split_and!; try done.
    by apply Forall_Forall2_diag, Forall_true. }
  cbn [nested_joins joins_resolve] in *. apply Forall_cons in Hsize as [Hsize Hsizes].
  apply rbind_Ok in Hn as (right & Hright & Hn). apply rbind_Ok in Hn as (R & HR & Hn).
  apply rbind_Ok in Hn as (n1 & Hn1 & Hn). rewrite HR in Hres. apply andb_prop in Hres as [Hj Hrest].
  destruct (scan_table_rows e _ _ right He Hright)
    as (scan & e1 & Hscan & Hmap & He1 & t & rs & Ht & Hrs & Hlen & Hin).
  rewrite (boundSchema_known _ _ _ _ Ht) in HR. injection HR as <-.
  set (R := table_schema (jc_table join) (jc_alias join) t) in *.
  destruct (round_blocks join t L blocks blocks' right n1) as (ns1 & hs1 & Hh1 & -> & Hns1 & Hp1 & Hin1);
    try done; [by rewrite Hlen; apply Hsize|].
  destruct (IH (L ++ R) ns1 hs1 e1) as (ns & hs & e2 & Hrun & Hfinal & Hns & Hp & He2); try done.
  exists ns, hs, e2. split_and!; try done.
  - cbn [source_joins]. unfold mbind, action_bind.
    rewrite Hscan. unfold gets. rewrite (proj1 (proj1 He1)). unfold lift. rewrite Hmap, Hh1. exact Hrun.
  - rewrite Hright. cbn [rbind]. rewrite (boundSchema_known _ _ _ _ Ht). cbn [rbind]. subst R.
    clear -Hns1 Hns. revert ns Hns. induction Hns1 as [|b m bs ms Hb _ IH]; intros ns Hns.
    { inversion Hns. constructor. }
    inversion Hns as [|? m' ? ms' Hm Hms]; subst. constructor; [by rewrite Hb|by apply IH].
Qed.
End statement.

(** ** From an empty database *)

Section database.
Context (batchRows capacity : nat).

(** The rows a scan of a table yields. *)
Definition scanned_rows (e : engine (D:=storage)) (n alias : string) : exec (list EvalRow) :=
  let* l := (scanTable (H:=heap_files batchRows) n alias e).1 in Ok (sc_row <$> l).

Definition filter_fits (getenv : string → option string) (e : engine (D:=storage))
    (join : JoinClause Node) : Prop :=
  ∀ rows, scanned_rows e (jc_table join) (jc_alias join) = Ok rows →
    bloom_size_ok getenv (Z.of_nat (length rows)).
End database.

Lemma scanned_table_rows batchRows c M e n alias (Hbatch : (0 < batchRows)%nat) :
  holds_database (H:=heap_files batchRows) (H0:=heap_files_laws batchRows Hbatch) c M e →
  scanned_rows batchRows e n alias ≈ table_rows c M n alias.
Proof.
  intros He r. unfold scanned_rows, table_rows. destruct (getTable c n) as [t|] eqn:Ht.
  - destruct (proj2 (do_dom _ _ (proj2 He) n)) as [rs Hrs]; [eauto|]. rewrite Hrs.
    destruct (scanTable_run (H0:=heap_files_laws batchRows Hbatch) c M e n alias t rs He Ht Hrs)
      as (e' & Hrun & _). rewrite Hrun, (boundSchema_known c n alias t Ht). cbn.
    by rewrite <- list_fmap_compose.
  - unfold scanTable, mbind, action_bind.
    rewrite (known_table_run (H0:=heap_files_laws batchRows Hbatch) c M e n (proj1 He)).
    unfold getTable in Ht. by rewrite Ht.
Qed.

Lemma nested_joins_alike c f g joins L rows :
  (∀ n alias, f n alias ≈ g n alias) → nested_joins c f joins L rows ≈ nested_joins c g joins L rows.
Proof.
  intros Hfg. revert L rows. induction joins as [|join joins IH]; intros L rows; [done|]. cbn.
  apply rbind_alike; [apply Hfg|]. intros right. apply rbind_alike; [done|]. intros R.
  apply rbind_alike; [done|]. intros rows'. apply IH.
Qed.

(** A filter that fits the rows of every scan fits the rows of every table. *)
Lemma filters_fit batchRows getenv c M e joins (Hbatch : (0 < batchRows)%nat) :
  holds_database (H:=heap_files batchRows) (H0:=heap_files_laws batchRows Hbatch) c M e →
  Forall (filter_fits batchRows getenv e) joins →
  Forall (λ j, ∀ rs, M !! jc_table j = Some rs → bloom_size_ok getenv (Z.of_nat (length rs))) joins.
Proof.
  intros HM Hfits. eapply Forall_impl; [exact Hfits|]. intros join Hfit rs Hrs.
  unfold filter_fits in Hfit. destruct (getTable c (jc_table join)) as [t|] eqn:Ht.
  - rewrite <- (length_map (λ x : RowId * Tuple,
      mkRow (Some (table_schema (jc_table join) (jc_alias join) t)) x.2) rs).
    apply Hfit, (scanned_table_rows batchRows _ M e _ _ Hbatch HM). unfold table_rows.
    by rewrite Ht, Hrs.
  - exfalso. destruct (proj1 (do_dom _ _ (proj2 HM) (jc_table join))) as [? ?]; [eauto|].
    unfold getTable in Ht. congruence.
Qed.

Lemma concat_singletons {A} (l : list A) : concat ((λ x, [x]) <$> l) = l.
Proof. induction l as [|x l IH]; [done|]. rewrite fmap_cons. cbn. by rewrite IH. Qed.

Lemma concat_permuted {A} (l l' : list (list A)) : Forall2 (≡ₚ) l l' → concat l ≡ₚ concat l'.
Proof. induction 1 as [|x y l l' Hxy _ IH]; [done|]. cbn. by rewrite Hxy, IH. Qed.


(** ** A small join *)

Definition qualified (table column : string) : Node := ColumnRef table column "" here.
Definition equals (a b : Node) : Node := BinaryOp "=" a b "" here.

(** [SELECT o.id FROM orders o LEFT JOIN users u ON o.user = u.id
     INNER JOIN orders p ON u.id = p.user] *)
Definition demo_join : Select_ :=
  mkSelect false [qualified "o" "id"] "orders" "o"
    [mkJoin LEFT "users" "u" (equals (qualified "o" "user") (qualified "u" "id"));
     mkJoin LEFT "orders" "p" (equals (qualified "u" "id") (qualified "p" "user"))]
    None [] None [] None None here.

Definition rows_or_nil (r : exec (list EvalRow)) : list EvalRow :=
  match r with Ok rows => rows | Err _ => [] end.

Definition demo_engine : engine (D:=storage) := after 1 2 demo_tables.
Definition demo_base : list EvalRow := rows_or_nil (scanned_rows 1 demo_engine "orders" "o").
Definition demo_nested : list EvalRow :=
  rows_or_nil (nested_joins (catalog_ demo_engine) (scanned_rows 1 demo_engine) (s_joins demo_join)
    (table_schema "orders" "o" demo_orders) demo_base).

Example demo_join_rows :
  ((executeSourceOrderJoins (H:=heap_files 1) (λ _, None) demo_hash_double demo_hash_string
     (λ _ l, l) demo_join demo_base demo_engine).1, values <$> demo_nested)
  = (Ok demo_nested,
     [[VInteger 10; VInteger 1; VInteger 1; VText "7"; VInteger 10; VInteger 1];
      [VInteger 11; VNull; VNull; VNull; VNull; VNull]]).
Proof. vm_compute. reflexivity. Qed.

Lemma demo_fits (j : JoinClause Node) :
  j ∈ s_joins demo_join → filter_fits 1 (λ _, None) demo_engine j.
Proof.
  assert (Hsmall : ∀ n, (n <= 2)%nat → bloom_size_ok (λ _, None) (Z.of_nat n)).
  { intros n Hn. split; [vm_compute; congruence|]. do 3 (destruct n as [|n]; [vm_compute; congruence|]). lia. }
  intros [->|[->|[]%elem_of_nil]%elem_of_cons]%elem_of_cons rows Hrows; apply Hsmall.
  - replace (length rows) with (length (rows_or_nil (scanned_rows 1 demo_engine "users" "u")));
      [vm_compute; lia|]. cbn [jc_table jc_alias] in Hrows. by rewrite Hrows.
  - replace (length rows) with (length (rows_or_nil (scanned_rows 1 demo_engine "orders" "p")));
      [vm_compute; lia|]. cbn [jc_table jc_alias] in Hrows. by rewrite Hrows.
Qed.


(** [FROM users JOIN users u ON users.id = u.id]: the name of the table also
    means the columns of its alias, so the condition compares a column with
    itself and every row meets every row. *)
Definition demo_self_join : Select_ :=
  mkSelect false [Wildcard "" "" here] "users" ""
    [mkJoin INNER "users" "u" (equals (qualified "users" "id") (qualified "u" "id"))]
    None [] None [] None None here.

Example self_join_is_a_product :
  (let* base := scanned_rows 1 demo_engine "users" "" in
   let* joined := (executeSourceOrderJoins (H:=heap_files 1) (λ _, None) demo_hash_double demo_hash_string
     (λ _ l, l) demo_self_join base demo_engine).1 in
   Ok (values <$> joined))
  = Ok [[VInteger 1; VText "7"; VInteger 1; VText "7"]; [VInteger 1; VText "7"; VInteger 2; VText "8"];
        [VInteger 2; VText "8"; VInteger 1; VText "7"]; [VInteger 2; VText "8"; VInteger 2; VText "8"]].
Proof. vm_compute. reflexivity. Qed.
