(* ===== verification/CostSpec.v ===== *)
(** The joins planned by cost ([executeCostBasedJoins], [Join.v]): whatever the
    statistics say, the order found by dynamic programming names every table
    once and each is connected with those before it; a connected order is found
    when there is one; and running it gives every combination of rows that
    satisfies all join conditions exactly once. *)

From S2P Require Import Prelude.
From S2P Require Import Hash.
From S2P Require Import Double.
From S2P Require Import Config.
From S2P Require Import Value.
From S2P Require Import Tuple.
From S2P Require Import Ast.
From S2P Require Import Catalog.
From S2P Require Import Eval.
From S2P Require Import Select.
From S2P Require Import Bloom.
From S2P Require Import BTree.
From S2P Require Import Storage.
From S2P Require Import Heap.
From S2P Require Import HeapSpec.
From S2P Require Import Store.
From S2P Require Import Engine.
From S2P Require Import Constraints.
From S2P Require Import Integrity.
From S2P Require Import Statements.
From S2P Require Import Stats.
From S2P Require Import Ranges.
From S2P Require Import Join.
From S2P Require Import JoinSpec.

(** ** The order of the joins *)

Section linked.
Context (count : nat) (predicates : list JoinPredicate).

(** A predicate between [next] and one of [P]. *)
Definition connected (P : list nat) (next : nat) : Prop :=
  ∃ p, p ∈ predicates ∧
    (leftRelation p = next ∧ rightRelation p ∈ P ∨ rightRelation p = next ∧ leftRelation p ∈ P).

(** Orders of the first [count] relations without cross products. *)
Inductive linked : list nat → Prop :=
  | linked_one r : (r < count)%nat → linked [r]
  | linked_more P next :
      linked P → next ∉ P → (next < count)%nat → connected P next → linked (P ++ [next]).

Lemma linked_lt P : linked P → Forall (λ r, (r < count)%nat) P.
Proof. induction 1; [by repeat constructor|]. apply Forall_app. by repeat constructor. Qed.

Lemma linked_NoDup P : linked P → NoDup P.
Proof.
  induction 1 as [|P next _ IH Hn]; [apply NoDup_singleton|]. apply NoDup_app. split; [done|].
  split; [|apply NoDup_singleton]. intros x Hx ->%list_elem_of_singleton. done.
Qed.
End linked.

Section order.
Context (relations : list RelationData) (predicates : list JoinPredicate).

Abbreviation Linked := (linked (length relations) predicates).
Abbreviation Connected := (connected predicates).

(** [mask] is the set of the relations of [P]. *)
Definition mask_of (P : list nat) (mask : Z) : Prop :=
  0 ≤ mask ∧ ∀ i, has_bit mask i = bool_decide (i ∈ P).

Lemma mask_of_unique P m m' : mask_of P m → mask_of P m' → m = m'.
Proof.
  intros [Hm H] [Hm' H']. apply Z.bits_inj'. intros i Hi.
  specialize (H (Z.to_nat i)). specialize (H' (Z.to_nat i)). unfold has_bit in *.
  rewrite Z2Nat.id in H, H' by done. congruence.
Qed.

Lemma mask_of_one r : mask_of [r] (Z.shiftl 1 (Z.of_nat r)).
Proof.
  split; [apply Z.shiftl_nonneg; lia|]. intros i. unfold has_bit. rewrite testbit_single.
  apply bool_decide_ext. rewrite list_elem_of_singleton. naive_solver.
Qed.

Lemma mask_of_more P mask next :
  mask_of P mask → mask_of (P ++ [next]) (Z.lor mask (Z.shiftl 1 (Z.of_nat next))).
Proof.
  intros [Hm H]. split; [apply Z.lor_nonneg; split; [done|apply Z.shiftl_nonneg; lia]|].
  intros i. unfold has_bit in *. rewrite Z.lor_spec, testbit_single, H, <- bool_decide_or.
  apply bool_decide_ext. rewrite elem_of_app, list_elem_of_singleton. naive_solver.
Qed.

Lemma mask_of_snoc P : ∃ mask, mask_of P mask.
Proof.
  induction P as [|next P [mask IH]] using rev_ind; [|eexists; by apply mask_of_more].
  exists 0. split; [done|]. intros i. unfold has_bit. rewrite Z.bits_0.
  symmetry. apply bool_decide_eq_false_2, not_elem_of_nil.
Qed.

Lemma mask_of_grows P mask next :
  mask_of P mask → next ∉ P → mask < Z.lor mask (Z.shiftl 1 (Z.of_nat next)).
Proof.
  intros [Hm H] Hn. assert (Hbit : has_bit mask next = false).
  { rewrite H. by apply bool_decide_eq_false_2. }
  assert (Z.land mask (Z.shiftl 1 (Z.of_nat next)) = 0) as Hland.
  { apply Z.bits_inj'. intros i Hi. rewrite Z.land_spec, Z.bits_0.
    replace i with (Z.of_nat (Z.to_nat i)) by lia. rewrite testbit_single.
    case_bool_decide as Heq; [|by rewrite andb_false_r]. subst next.
    unfold has_bit in Hbit. by rewrite Hbit. }
  pose proof (Z.add_nocarry_lxor mask (Z.shiftl 1 (Z.of_nat next)) Hland) as Hadd.
  rewrite Z.lxor_lor in Hadd by done. rewrite <- Hadd.
  rewrite Z.shiftl_1_l. assert (0 < 2 ^ Z.of_nat next) by (apply Z.pow_pos_nonneg; lia). lia.
Qed.

Lemma connect_spec P mask next :
  mask_of P mask → (connect relations predicates mask next).1 = true ↔ Connected P next.
Proof.
  intros [_ Hbit]. unfold connect, connected.
  assert (Hfold : ∀ acc, (fold_left (λ acc p,
    if (bool_decide (leftRelation p = next) && has_bit mask (rightRelation p)) ||
       (bool_decide (rightRelation p = next) && has_bit mask (leftRelation p))
    then (true, dmul acc.2 (ddiv done_ (dmax (distinct_count relations (leftRelation p) (leftColumn p))
                       (distinct_count relations (rightRelation p) (rightColumn p)))))
    else acc) predicates acc).1 = true ↔ acc.1 = true ∨ ∃ p, p ∈ predicates ∧
    (leftRelation p = next ∧ rightRelation p ∈ P ∨ rightRelation p = next ∧ leftRelation p ∈ P)).
  { induction predicates as [|p ps IH]; intros acc; cbn [fold_left].
    { split; [by left|]. intros [|(p & Hp & _)]; [done|]. by apply elem_of_nil in Hp. }
    rewrite IH, !Hbit, <- !bool_decide_and, <- bool_decide_or. case_bool_decide as Hp.
    - split; [|by left]. intros _. right. exists p. split; [apply list_elem_of_here|done].
    - split.
      + intros [|(q & Hq & ?)]; [by left|]. right. exists q. split; [by apply list_elem_of_further|done].
      + intros [|(q & [->|Hq]%elem_of_cons & ?)]; [by left|done|]. right. by exists q. }
  rewrite Hfold. cbn. naive_solver.
Qed.

(** Every plan of the table is a Linked order of its set. *)
Definition plans_ok (plans : gmap Z Plan) : Prop :=
  ∀ mask plan, plans !! mask = Some plan → Linked (plan_order plan) ∧ mask_of (plan_order plan) mask.

Lemma extend_plan_ok mask plans next :
  plans_ok plans → (next < length relations)%nat →
  plans_ok (extend_plan relations predicates mask plans next).
Proof.
  intros Hplans Hn. unfold extend_plan. destruct (plans !! mask) as [plan|] eqn:Hmask; [|done].
  destruct (Hplans mask plan Hmask) as [Hlinked Hof].
  destruct (has_bit mask next) eqn:Hbit; [done|].
  pose proof (connect_spec _ _ next Hof) as Hconn.
  destruct (connect relations predicates mask next) as [[] selectivity]; [|done].
  cbn zeta. case_match; [|done]. intros m q. destruct (decide (m = Z.lor mask (Z.shiftl 1 (Z.of_nat next)))) as [->|Hne].
  - rewrite lookup_insert_eq. intros [= <-]. cbn [plan_order]. split; [|by apply mask_of_more].
    apply linked_more; try done; [|by apply Hconn]. destruct Hof as [_ Hof]. rewrite Hof in Hbit.
    by apply bool_decide_eq_false_1 in Hbit.
  - rewrite lookup_insert_ne by done. apply Hplans.
Qed.

Lemma fold_ok {A B} (P : B → Prop) (f : B → A → B) l b :
  P b → (∀ x b, x ∈ l → P b → P (f b x)) → P (fold_left f l b).
Proof.
  revert b. induction l as [|x l IH]; intros b Hb Hf; [done|]. cbn. apply IH.
  - apply Hf; [apply list_elem_of_here|done].
  - intros y b' Hy. by apply Hf, list_elem_of_further.
Qed.

Lemma all_plans_ok : plans_ok (all_plans relations predicates).
Proof.
  unfold all_plans. apply fold_ok.
  - apply fold_ok; [by intros mask plan|]. intros r plans Hr Hplans mask plan.
    apply elem_of_seq in Hr. unfold single_plan.
    destruct (decide (mask = Z.shiftl 1 (Z.of_nat r))) as [->|Hne].
    + rewrite lookup_insert_eq. intros [= <-]. cbn. split; [constructor; lia|apply mask_of_one].
    + rewrite lookup_insert_ne by done. apply Hplans.
  - intros mask plans _ Hplans. apply fold_ok; [done|]. intros next plans' Hnext Hplans'.
    apply elem_of_seq in Hnext. by apply extend_plan_ok; [|lia].
Qed.

Lemma mask_of_all P n :
  (∀ i, i ∈ P ↔ (i < n)%nat) ↔ mask_of P (2 ^ Z.of_nat n - 1).
Proof.
  assert (Hbit : ∀ i, has_bit (2 ^ Z.of_nat n - 1) i = bool_decide (i < n)%nat).
  { intros i. unfold has_bit. replace (2 ^ Z.of_nat n - 1) with (Z.ones (Z.of_nat n))
      by (rewrite Z.ones_equiv; lia).
    case_bool_decide; [apply Z.ones_spec_low; lia|apply Z.ones_spec_high; lia]. }
  assert (0 < 2 ^ Z.of_nat n) by (apply Z.pow_pos_nonneg; lia). split.
  - intros Hi. split; [lia|]. intros i. rewrite Hbit. apply bool_decide_ext. by rewrite Hi.
  - intros [_ HP] i. specialize (HP i). rewrite Hbit in HP.
    by rewrite <- (bool_decide_eq_true (i ∈ P)), <- HP, bool_decide_eq_true.
Qed.

(** The order is one of all relations, without cross products. *)
Lemma best_order_ok order :
  best_order relations predicates = Ok (Some order) →
  Linked order ∧ order ≡ₚ seq 0 (length relations).
Proof.
  unfold best_order. case_decide; [done|]. intros [= Hbest]. apply fmap_Some in Hbest as (plan & Hplan & ->).
  destruct (all_plans_ok _ _ Hplan) as [Hl Hof]. split; [done|].
  apply NoDup_Permutation; [by apply (linked_NoDup (length relations) predicates)|apply NoDup_seq|]. intros i.
  rewrite elem_of_seq, (proj2 (mask_of_all _ _) Hof i). lia.
Qed.

(** *** A Linked order is found when there is one *)

Definition planned (plans : gmap Z Plan) (P : list nat) : Prop :=
  ∀ mask, mask_of P mask → is_Some (plans !! mask).

Lemma extend_plan_keeps mask plans next m :
  is_Some (plans !! m) → is_Some (extend_plan relations predicates mask plans next !! m).
Proof.
  intros Hm. unfold extend_plan. destruct (plans !! mask); [|done]. case_match; [done|].
  destruct (connect _ _ _ _) as [[] ?]; [|done]. cbn zeta. case_match; [|done].
  destruct (decide (m = Z.lor mask (Z.shiftl 1 (Z.of_nat next)))) as [->|Hne].
  - rewrite lookup_insert_eq. eauto.
  - by rewrite lookup_insert_ne.
Qed.

Lemma extends_keeps nexts mask plans m :
  is_Some (plans !! m) → is_Some (fold_left (extend_plan relations predicates mask) nexts plans !! m).
Proof. intros Hm. apply (fold_ok (λ plans, is_Some (plans !! m))); [done|]. auto using extend_plan_keeps. Qed.

Lemma extend_plan_adds mask plans next P :
  is_Some (plans !! mask) → mask_of P mask → next ∉ P → Connected P next →
  is_Some (extend_plan relations predicates mask plans next
             !! Z.lor mask (Z.shiftl 1 (Z.of_nat next))).
Proof.
  intros [plan Hplan] Hof Hn Hc. unfold extend_plan. rewrite Hplan.
  assert (has_bit mask next = false) as ->.
  { rewrite (proj2 Hof). by apply bool_decide_eq_false_2. }
  apply (connect_spec P mask next Hof) in Hc.
  destruct (connect relations predicates mask next) as [[] ?]; [|done]. cbn zeta.
  case_match eqn:Hbetter; [rewrite lookup_insert_eq; eauto|]. case_match; [eauto|done].
Qed.

Lemma extends_adds nexts mask plans next P :
  is_Some (plans !! mask) → mask_of P mask → next ∉ P → Connected P next → next ∈ nexts →
  is_Some (fold_left (extend_plan relations predicates mask) nexts plans
             !! Z.lor mask (Z.shiftl 1 (Z.of_nat next))).
Proof.
  intros Hplans Hof Hn Hc. revert plans Hplans. induction nexts as [|x nexts IH]; intros plans Hplans Hin.
  { by apply elem_of_nil in Hin. }
  cbn [fold_left]. apply elem_of_cons in Hin as [<-|Hin].
  - apply extends_keeps. by eapply extend_plan_adds.
  - apply IH; [|done]. by apply extend_plan_keeps.
Qed.

(** After the masks below [m], the extensions of the orders below [m] are planned. *)
Definition planned_below (m : Z) (plans : gmap Z Plan) : Prop :=
  (∀ r, (r < length relations)%nat → planned plans [r]) ∧
  ∀ P next mask, Linked (P ++ [next]) → Linked P → mask_of P mask → mask < m →
    planned plans (P ++ [next]).

Lemma planned_step m plans :
  planned_below m plans →
  planned_below (m + 1)
    (fold_left (extend_plan relations predicates m) (seq 0 (length relations)) plans).
Proof.
  intros [Hone Hmore]. split.
  - intros r Hr mask Hmask. apply extends_keeps. by apply (Hone r Hr).
  - intros P next mask Hl HlP Hof Hlt mask' Hof'.
    destruct (decide (mask < m)) as [Hm|Hm]; [by apply extends_keeps, (Hmore P next mask)|].
    assert (mask = m) as -> by lia. clear Hm Hlt.
    pose proof (linked_NoDup _ _ _ Hl) as Hnd. apply NoDup_app in Hnd as (_ & Hn & _).
    assert (Hnext : next ∉ P) by (intros Hin; apply (Hn next Hin), list_elem_of_here).
    rewrite (mask_of_unique _ _ _ Hof' (mask_of_more P m next Hof)).
    inversion Hl as [r _ Heq|P' next' _ _ Hlen Hc Heq].
    { destruct P as [|? [|]]; [by inversion HlP; destruct P|done..]. }
    apply app_inj_tail in Heq as [-> ->].
    apply (extends_adds _ _ _ _ P); try done; [|by apply elem_of_seq; lia].
    (* [P] itself is planned *)
    inversion HlP as [r Hr Heq|Q x HlQ Hx _ _ Heq].
    + apply (Hone r Hr). by rewrite Heq.
    + destruct (mask_of_snoc Q) as [mq Hq]. subst P.
      pose proof (mask_of_grows Q mq x Hq Hx) as Hgrow.
      rewrite (mask_of_unique _ _ _ Hof (mask_of_more Q mq x Hq)) in *.
      apply (Hmore Q x mq HlP HlQ Hq Hgrow). by apply mask_of_more.
Qed.

Lemma planned_steps m k plans :
  0 ≤ k → planned_below m plans →
  planned_below (m + k)
    (fold_left (λ plans mask,
       fold_left (extend_plan relations predicates mask) (seq 0 (length relations)) plans)
       (seqZ m k) plans).
Proof.
  intros Hk. revert m plans. pattern k. apply natlike_ind; [|clear k Hk; intros k Hk IH|done].
  - intros m plans Hp. by replace (m + 0) with m by lia.
  - intros m plans Hp. rewrite seqZ_cons by lia. cbn [fold_left].
    replace (m + Z.succ k) with (Z.succ m + k) by lia. replace (Z.pred (Z.succ k)) with k by lia.
    apply IH. by apply (planned_step m).
Qed.

Lemma singles_planned k :
  (k <= length relations)%nat →
  ∀ r, (r < k)%nat → planned (fold_left (single_plan relations) (seq 0 k) ∅) [r].
Proof.
  intros Hk r Hr mask Hmask. rewrite (mask_of_unique _ _ _ Hmask (mask_of_one r)). clear mask Hmask.
  assert (Hkeep : ∀ l plans, is_Some (plans !! Z.shiftl 1 (Z.of_nat r)) →
    is_Some (fold_left (single_plan relations) l plans !! Z.shiftl 1 (Z.of_nat r))).
  { intros l plans Hp. apply (fold_ok (λ plans, is_Some (plans !! Z.shiftl 1 (Z.of_nat r)))); [done|].
    intros x b _ Hb. unfold single_plan.
    destruct (decide (Z.shiftl 1 (Z.of_nat r) = Z.shiftl 1 (Z.of_nat x))) as [->|Hne].
    - rewrite lookup_insert_eq. eauto.
    - by rewrite lookup_insert_ne. }
  replace (seq 0 k) with (seq 0 r ++ seq r (k - r))
    by (rewrite <- seq_app; f_equal; lia).
  rewrite fold_left_app. replace (seq r (k - r)) with (r :: seq (S r) (k - S r)).
  - cbn [fold_left]. apply Hkeep. unfold single_plan. rewrite lookup_insert_eq. eauto.
  - replace (k - r)%nat with (S (k - S r)) by lia. done.
Qed.

Lemma best_order_found P :
  (length relations < 64)%nat → Linked P → P ≡ₚ seq 0 (length relations) →
  ∃ order, best_order relations predicates = Ok (Some order).
Proof.
  intros Hn HP Hperm. unfold best_order. rewrite decide_False by lia. set (n := length relations) in *.
  assert (Hpow : 0 < 2 ^ Z.of_nat n) by (apply Z.pow_pos_nonneg; lia).
  assert (Hinit : planned_below 1 (fold_left (single_plan relations) (seq 0 n) ∅)).
  { split; [intros r Hr; by apply singles_planned|]. intros Q next mask _ HQ [Hm Hof] Hlt.
    exfalso. assert (mask = 0) as -> by lia. inversion HQ as [r Hr Heq|Q' x _ _ _ _ Heq]; subst Q.
    - specialize (Hof r). unfold has_bit in Hof. rewrite Z.bits_0 in Hof.
      rewrite bool_decide_eq_true_2 in Hof by apply list_elem_of_here. done.
    - specialize (Hof x). unfold has_bit in Hof. rewrite Z.bits_0 in Hof.
      rewrite bool_decide_eq_true_2 in Hof; [done|]. apply elem_of_app. right. apply list_elem_of_here. }
  apply (planned_steps 1 (2 ^ Z.of_nat n - 1)) in Hinit; [|lia].
  replace (1 + (2 ^ Z.of_nat n - 1)) with (2 ^ Z.of_nat n) in Hinit by lia.
  assert (Hmask : mask_of P (2 ^ Z.of_nat n - 1)).
  { apply mask_of_all. intros i. rewrite Hperm, elem_of_seq. lia. }
  assert (Hsome : is_Some (all_plans relations predicates !! (2 ^ Z.of_nat n - 1))).
  { destruct Hinit as [Hone Hmore]. inversion HP as [r Hr Heq|Q x HQ Hx Hlt _ Heq]; subst P.
    - by apply (Hone r Hr).
    - destruct (mask_of_snoc Q) as [mq Hq]. apply (Hmore Q x mq HP HQ Hq); [|done].
      pose proof (mask_of_grows Q mq x Hq Hx) as Hg.
      rewrite (mask_of_unique _ _ _ (mask_of_more Q mq x Hq) Hmask) in Hg. lia. }
  destruct Hsome as [plan Hplan]. exists (plan_order plan). by rewrite Hplan.
Qed.
End order.

(** ** Choices of one row per relation *)

Section choices.
Context (f : nat → list EvalRow).

Fixpoint choices (l : list nat) : list (gmap nat EvalRow) :=
  match l with
  | [] => [∅]
  | i :: l => concat (map (λ m, map (λ r, <[i := r]> m) (f i)) (choices l))
  end.

Lemma concat_map_permuted {A B} (g h : A → list B) l l' :
  (∀ x, x ∈ l → g x ≡ₚ h x) → l ≡ₚ l' → concat (map g l) ≡ₚ concat (map h l').
Proof.
  intros Hgh Hl. transitivity (concat (map h l)).
  - clear Hl. induction l as [|x l IH]; [done|]. cbn. rewrite (Hgh x) by apply list_elem_of_here.
    rewrite IH; [done|]. intros y Hy. by apply Hgh, list_elem_of_further.
  - clear Hgh. induction Hl as [|x l l' _ IH|x y l|l1 l2 l3 _ IH1 _ IH2]; cbn;
      [done|by rewrite IH|apply Permutation_app_swap_app|by etrans].
Qed.

(** Two nested loops exchanged. *)
Lemma concat_map_app {A B} (g h : A → list B) l :
  concat (map (λ x, g x ++ h x) l) ≡ₚ concat (map g l) ++ concat (map h l).
Proof.
  induction l as [|x l IH]; [done|]. cbn. rewrite IH. rewrite <- !app_assoc.
  apply Permutation_app_head. apply Permutation_app_swap_app.
Qed.

Lemma concat_map_swap {A B C} (h : A → B → list C) xs ys :
  concat (map (λ a, concat (map (h a) ys)) xs) ≡ₚ concat (map (λ b, concat (map (λ a, h a b) xs)) ys).
Proof.
  induction xs as [|x xs IH]; cbn.
  - induction ys; [done|]. cbn. done.
  - rewrite IH. by rewrite concat_map_app.
Qed.

Lemma concat_map_map {A B C} (g : A → B) (h : B → list C) l :
  concat (map h (map g l)) = concat (map (λ x, h (g x)) l).
Proof. by rewrite map_map. Qed.

Lemma concat_map_concat {A B C} (g : A → list B) (h : B → list C) l :
  concat (map h (concat (map g l))) = concat (map (λ x, concat (map h (g x))) l).
Proof.
  induction l as [|x l IH]; [done|]. cbn. by rewrite map_app, concat_app, IH.
Qed.

Lemma map_singletons {A B} (g : A → B) l : map g l = concat (map (λ x, [g x]) l).
Proof. induction l as [|x l IH]; [done|]. cbn. by rewrite IH. Qed.

Lemma filter_map_if {A B} (b : A → bool) (g : A → B) l :
  map g (List.filter b l) = concat (map (λ x, if b x then [g x] else []) l).
Proof. induction l as [|x l IH]; [done|]. cbn. rewrite <- IH. by destruct (b x). Qed.

Lemma choices_permuted l l' : l ≡ₚ l' → NoDup l → choices l ≡ₚ choices l'.
Proof.
  induction 1 as [|x l l' _ IH|x y l|l1 l2 l3 Hl IH1 _ IH2]; intros Hnd; [done| | |].
  - apply NoDup_cons in Hnd as [_ Hnd]. by apply concat_map_permuted; [|apply IH].
  - apply NoDup_cons in Hnd as [Hx Hnd]. assert (Hne : x ≠ y).
    { intros ->. apply Hx, list_elem_of_here. }
    cbn [choices]. rewrite !concat_map_concat. apply concat_map_permuted; [|done]. intros m _.
    rewrite !concat_map_map. rewrite !(map_ext _ _ (λ r, map_singletons _ _)).
    rewrite concat_map_swap. apply concat_map_permuted; [|done]. intros r _.
    apply concat_map_permuted; [|done]. intros r' _. by rewrite insert_insert_ne.
  - rewrite IH1 by done. apply IH2. by rewrite <- Hl.
Qed.

Lemma choices_snoc P next :
  NoDup P → next ∉ P → choices (P ++ [next]) ≡ₚ choices (next :: P).
Proof.
  intros Hnd Hn. apply choices_permuted; [by rewrite Permutation_app_comm|].
  apply NoDup_app. split; [done|]. split; [|apply NoDup_singleton].
  intros x Hx ->%list_elem_of_singleton. done.
Qed.

(** Every relation of the list has its row. *)
Lemma choices_lookup l m i :
  m ∈ choices l → i ∈ l → ∃ r, m !! i = Some r ∧ r ∈ f i.
Proof.
  revert m. induction l as [|j l IH]; intros m Hm Hi; [by apply elem_of_nil in Hi|]. cbn in Hm.
  apply list_elem_of_In, in_concat in Hm as (ms & Hms & Hm).
  apply in_map_iff in Hms as (m' & <- & Hm'%list_elem_of_In).
  apply in_map_iff in Hm as (r & <- & Hr%list_elem_of_In).
  destruct (decide (i = j)) as [->|Hne].
  - exists r. by rewrite lookup_insert_eq.
  - rewrite lookup_insert_ne by done. apply elem_of_cons in Hi as [|Hi]; [done|]. by apply IH.
Qed.
End choices.

(** ** Pairs of rows with equal keys *)

Lemma rconcat_total {A B} (f : A → exec (list B)) (g : A → list B) l :
  (∀ x, x ∈ l → ∃ y, f x = Ok y ∧ y ≡ₚ g x) →
  ∃ r, rconcat f l = Ok r ∧ r ≡ₚ concat (map g l).
Proof.
  induction l as [|x l IH]; intros Hf; [by exists []|].
  destruct (Hf x (list_elem_of_here _ _)) as (y & Hy & Py).
  destruct IH as (ys & Hys & Pys); [intros z Hz; by apply Hf, list_elem_of_further|].
  exists (y ++ ys). rewrite rconcat_cons, Hy. cbn. rewrite Hys. split; [done|]. cbn. by rewrite Py, Pys.
Qed.

Section run.
Context (getenv : string → option string).
Context (std_hash_double : double → Z) (std_hash_string : string → Z).
Context (walk : ∀ A : Type, list A → list A).
Context (Hhash : ∀ x y, deqb x y = true → std_hash_double x = std_hash_double y).
Context (Hwalk : ∀ A l, walk A l ≡ₚ l).

Lemma hash_pairs_ok schema jk nk rows next :
  (∀ r, r ∈ rows → is_ok (resolve_key jk r) = true) →
  (∀ r, r ∈ next → is_ok (resolve_key nk r) = true) →
  (∀ k, (k <= length next)%nat → bloom_size_ok getenv (Z.of_nat k)) →
  ∃ l, hash_pairs getenv std_hash_double std_hash_string walk schema jk nk rows next = Ok l ∧
    l ≡ₚ concat (map (λ r, concat (map (λ n,
      if keys_meet (key_value jk r) (key_value nk n) then [combine_rows schema r n] else []) next)) rows).
Proof.
  intros Hjk Hnk Hsize. unfold hash_pairs. destruct (Nat.leb_spec (length rows) (length next)) as [Hle|Hlt].
  - destruct (build_index_of_ok getenv std_hash_double std_hash_string Hhash jk rows Hjk) as (b & -> & Hb);
      [by apply Hsize|]. cbn [rbind].
    destruct (rconcat_total (λ n,
      let* found := probe std_hash_double std_hash_string walk (b, entries jk rows) nk n in
      Ok ((λ row, combine_rows schema row n) <$> found))
      (λ n, concat (map (λ r, if keys_meet (key_value jk r) (key_value nk n)
                              then [combine_rows schema r n] else []) rows)) next) as (l & Hl & Pl).
    + intros n Hn. destruct (probe_ok std_hash_double std_hash_string walk Hwalk b jk rows nk n Hb (Hnk n Hn))
        as (found & -> & Hfound). cbn [rbind]. eexists. split; [done|].
      rewrite Hfound. by rewrite <- filter_map_if.
    + exists l. split; [exact Hl|]. rewrite Pl. apply concat_map_swap.
  - destruct (build_index_of_ok getenv std_hash_double std_hash_string Hhash nk next Hnk) as (b & -> & Hb);
      [by apply Hsize|]. cbn [rbind].
    destruct (rconcat_total (λ r,
      let* found := probe std_hash_double std_hash_string walk (b, entries nk next) jk r in
      Ok (combine_rows schema r <$> found))
      (λ r, concat (map (λ n, if keys_meet (key_value jk r) (key_value nk n)
                              then [combine_rows schema r n] else []) next)) rows) as (l & Hl & Pl).
    + intros r Hr. destruct (probe_ok std_hash_double std_hash_string walk Hwalk b nk next jk r Hb (Hjk r Hr))
        as (found & -> & Hfound). cbn [rbind]. eexists. split; [done|].
      rewrite Hfound, <- filter_map_if.
      rewrite (List.filter_ext _ (λ n, keys_meet (key_value jk r) (key_value nk n))); [done|].
      intros n. apply keys_meet_comm.
    + by exists l.
Qed.

(** ** Rows of several relations *)

Context (c : Catalog) (relations : list RelationData) (predicates : list JoinPredicate).
Context (schemas : nat → list BoundColumn).

Definition rows_of (i : nat) : list EvalRow :=
  match relations !! i with Some r => rel_rows r | None => [] end.

Context (Hrel : ∀ i r, relations !! i = Some r →
  Forall (row_in (schemas i)) (rel_rows r) ∧ boundSchema c (rel_table r) (rel_alias r) = Ok (schemas i)).
Context (Hsize : ∀ i r k, relations !! i = Some r → (k <= length (rel_rows r))%nat →
  bloom_size_ok getenv (Z.of_nat k)).

(** The key names a column of relation [i] and of no other. *)
Definition own_key (key : column_key) (i : nat) : Prop :=
  (i < length relations)%nat ∧ resolvable key (schemas i) = true ∧
  ∀ j, (j < length relations)%nat → j ≠ i → matching key (schemas j) = [].

Definition own_predicate (p : JoinPredicate) : Prop :=
  own_key (leftColumn p) (leftRelation p) ∧ own_key (rightColumn p) (rightRelation p) ∧
  leftRelation p ≠ rightRelation p ∧
  ∃ l r a q, expression p = BinaryOp "=" l r a q ∧
    column_ref l = Some (leftColumn p) ∧ column_ref r = Some (rightColumn p).

Context (Hpred : Forall own_predicate predicates).

(** A choice as one row, the relations in the order [P]. *)
Definition row_values (m : gmap nat EvalRow) (i : nat) : list Value :=
  match m !! i with Some r => values r | None => [] end.

Definition joined (P : list nat) (m : gmap nat EvalRow) : EvalRow :=
  mkRow (Some (concat (map schemas P))) (concat (map (row_values m) P)).

(** [m] has a row of each relation of [P]. *)
Definition chosen (P : list nat) (m : gmap nat EvalRow) : Prop :=
  Forall (λ i, ∃ r, m !! i = Some r ∧ row_in (schemas i) r) P.

Lemma choices_chosen P m :
  m ∈ choices rows_of P → chosen P m.
Proof.
  intros Hm. apply Forall_forall. intros i Hi.
  destruct (choices_lookup rows_of P m i Hm Hi) as (r & Hr & Hin). exists r. split; [done|].
  unfold rows_of in Hin. destruct (relations !! i) as [rel|] eqn:Hrl; [|by apply elem_of_nil in Hin].
  destruct (Hrel i rel Hrl) as [Hall _]. rewrite Forall_forall in Hall. by apply Hall.
Qed.

Lemma candidates_concat key P m :
  chosen P m →
  candidate_values key.1 key.2 (concat (map schemas P)) (concat (map (row_values m) P))
  = concat (map (λ i, candidate_values key.1 key.2 (schemas i) (row_values m i)) P).
Proof.
  induction 1 as [|i P (r & Hr & Hin) _ IH]; [done|]. cbn. rewrite matching_values_app.
  - by rewrite IH.
  - unfold row_values. rewrite Hr. apply Hin.
Qed.

Lemma joined_row_in P m : chosen P m → row_in (concat (map schemas P)) (joined P m).
Proof.
  intros Hm. split; [done|]. cbn. induction Hm as [|i P (r & Hr & Hin) _ IH]; [done|]. cbn.
  rewrite !length_app, IH. unfold row_values. rewrite Hr. by rewrite (proj2 Hin).
Qed.

Lemma concat_one {A} (g : nat → list A) P i :
  NoDup P → i ∈ P → (∀ j, j ∈ P → j ≠ i → g j = []) → concat (map g P) = g i.
Proof.
  intros Hnd Hi Hg. induction P as [|j P IH]; [by apply elem_of_nil in Hi|].
  apply NoDup_cons in Hnd as [Hj Hnd]. cbn. apply elem_of_cons in Hi as [->|Hi].
  - assert (concat (map g P) = []) as ->; [|by rewrite app_nil_r].
    assert (Hnil : ∀ k, k ∈ P → g k = []).
    { intros k Hk. apply Hg; [by apply list_elem_of_further|]. intros ->. done. }
    clear -Hnil. induction P as [|k P IH]; [done|]. cbn. rewrite Hnil by apply list_elem_of_here.
    apply IH. intros k' Hk'. by apply Hnil, list_elem_of_further.
  - rewrite (Hg j); [|apply list_elem_of_here|by intros ->]. apply IH; [done..|].
    intros k Hk. by apply Hg, list_elem_of_further.
Qed.

Lemma resolve_joined key i P m r :
  own_key key i → i ∈ P → NoDup P → Forall (λ j, (j < length relations)%nat) P →
  chosen P m → m !! i = Some r → resolve_key key (joined P m) = Ok (key_value key r).
Proof.
  intros (Hi & Hres & Hother) Hin Hnd Hlt Hm Hr.
  pose proof (joined_row_in P m Hm) as [Hc Hl].
  assert (Hrow : row_in (schemas i) r).
  { unfold chosen in Hm. rewrite Forall_forall in Hm. destruct (Hm i Hin) as (r' & Hr' & ?). congruence. }
  pose proof Hrow as [Hrc Hrl].
  rewrite <- (key_value_ok key r) by (by apply (resolve_resolvable _ (schemas i))).
  unfold resolve_key. rewrite (resolveColumn_candidates _ _ _ _ Hc Hl), (resolveColumn_candidates _ _ _ _ Hrc Hrl).
  unfold joined. cbn [values]. rewrite candidates_concat by done. rewrite (concat_one _ P i); [|done|done|].
  - unfold row_values. by rewrite Hr.
  - intros j Hj Hne. unfold chosen in Hm. rewrite Forall_forall in Hm, Hlt.
    destruct (Hm j Hj) as (rj & Hrj & _ & Hlj). unfold row_values. rewrite Hrj.
    apply nil_length_inv. rewrite candidate_values_length by done. by rewrite Hother by auto.
Qed.

(** ** The predicates on a choice *)

Definition active (P : list nat) (p : JoinPredicate) : bool :=
  bool_decide (leftRelation p ∈ P) && bool_decide (rightRelation p ∈ P).

(** The two rows have equal keys that are not null. *)
Definition predicate_holds (p : JoinPredicate) (m : gmap nat EvalRow) : bool :=
  match m !! leftRelation p, m !! rightRelation p with
  | Some l, Some r => keys_meet (key_value (leftColumn p) l) (key_value (rightColumn p) r)
  | _, _ => false
  end.

Definition holds_in (P : list nat) (m : gmap nat EvalRow) : bool :=
  forallb (λ p, negb (active P p) || predicate_holds p m) predicates.

Section joined_rows.
Context (P : list nat) (mask : Z).
Context (HP : NoDup P) (Hlt : Forall (λ j, (j < length relations)%nat) P).

Lemma eval_predicate p m :
  p ∈ predicates → active P p = true → chosen P m →
  ∃ v, eval (expression p) (joined P m) = Ok v ∧ asBoolean v = predicate_holds p m.
Proof.
  intros Hp [Hl%bool_decide_eq_true Hr%bool_decide_eq_true]%andb_prop Hm.
  rewrite Forall_forall in Hpred. destruct (Hpred p Hp) as (Hlk & Hrk & _ & el & er & a & q & -> & H1 & H2).
  pose proof Hm as Hm'. unfold chosen in Hm'. rewrite Forall_forall in Hm'.
  destruct (Hm' _ Hl) as (l & Hml & _), (Hm' _ Hr) as (r & Hmr & _).
  cbn [eval]. rewrite (eval_column _ _ _ H1), (eval_column _ _ _ H2).
  rewrite (resolve_joined _ _ P m l Hlk Hl HP Hlt Hm Hml), (resolve_joined _ _ P m r Hrk Hr HP Hlt Hm Hmr).
  cbn [rbind]. unfold predicate_holds. rewrite Hml, Hmr. apply equals_keys_meet.
Qed.

Lemma passes_ok ps m :
  mask_of P mask → chosen P m → (∀ p, p ∈ ps → p ∈ predicates) →
  passes ps mask (joined P m) = Ok (forallb (λ p, negb (active P p) || predicate_holds p m) ps).
Proof.
  intros [_ Hof] Hm. induction ps as [|p ps IH]; intros Hin; [done|]. cbn [passes forallb].
  rewrite !Hof. fold (active P p).
  assert (Hps : passes ps mask (joined P m) = Ok (forallb (λ p, negb (active P p) || predicate_holds p m) ps)).
  { apply IH. intros q Hq. by apply Hin, list_elem_of_further. }
  destruct (active P p) eqn:Ha; cbn [negb orb andb]; [|done].
  destruct (eval_predicate p m) as (v & -> & Hv); [apply Hin, list_elem_of_here|done..|].
  cbn [rbind]. rewrite Hv. by destruct (predicate_holds p m).
Qed.

Lemma keep_passing_ok ms :
  mask_of P mask → Forall (chosen P) ms →
  keep_passing predicates mask (map (joined P) ms) = Ok (map (joined P) (List.filter (holds_in P) ms)).
Proof.
  intros Hof. induction 1 as [|m ms Hm _ IH]; [done|]. cbn [map keep_passing List.filter].
  rewrite passes_ok by done. cbn [rbind]. rewrite IH. cbn [rbind]. fold (holds_in P m).
  by destruct (holds_in P m).
Qed.
End joined_rows.

Lemma keep_passing_rconcat ps mask rows :
  keep_passing ps mask rows
  = rconcat (λ row, let* b := passes ps mask row in Ok (if b : bool then [row] else [])) rows.
Proof.
  induction rows as [|row rows IH]; [done|]. rewrite rconcat_cons. cbn [keep_passing].
  destruct (passes ps mask row) as [b|]; [|done]. cbn [rbind]. rewrite IH.
  destruct (rconcat _ rows); [|done]. cbn [rbind]. by destruct b.
Qed.

(** ** One more relation *)

Lemma key_predicate_found P mask next :
  mask_of P mask → connected predicates P next →
  ∃ p nk jk, key_predicate predicates mask next = Some (nk, jk) ∧ p ∈ predicates ∧
    (leftRelation p = next ∧ rightRelation p ∈ P ∧ nk = leftColumn p ∧ jk = rightColumn p ∨
     rightRelation p = next ∧ leftRelation p ∈ P ∧ nk = rightColumn p ∧ jk = leftColumn p).
Proof.
  intros [_ Hof] (p0 & Hp0 & Hc).
  assert (H : ∀ ps, p0 ∈ ps → ∃ p nk jk, key_predicate ps mask next = Some (nk, jk) ∧ p ∈ ps ∧
    (leftRelation p = next ∧ rightRelation p ∈ P ∧ nk = leftColumn p ∧ jk = rightColumn p ∨
     rightRelation p = next ∧ leftRelation p ∈ P ∧ nk = rightColumn p ∧ jk = leftColumn p)); [|by apply H].
  induction ps as [|p ps IH]; intros Hin; [by apply elem_of_nil in Hin|]. cbn [key_predicate].
  rewrite !Hof, <- !bool_decide_and.
  case_bool_decide as H1.
  { exists p, (leftColumn p), (rightColumn p). split; [done|]. split; [apply list_elem_of_here|]. left. tauto. }
  case_bool_decide as H2.
  { exists p, (rightColumn p), (leftColumn p). split; [done|]. split; [apply list_elem_of_here|]. right. tauto. }
  apply elem_of_cons in Hin as [->|Hin]; [tauto|].
  destruct (IH Hin) as (q & nk & jk & Hk & Hq & Hcases). exists q, nk, jk.
  split; [done|]. split; [by apply list_elem_of_further|done].
Qed.

Lemma joined_insert P m next r schema :
  next ∉ P → schema = concat (map schemas P) ++ schemas next →
  combine_rows schema (joined P m) r = joined (P ++ [next]) (<[next := r]> m).
Proof.
  intros Hn ->. unfold combine_rows, joined. cbn [values]. rewrite !map_app, !concat_app. cbn.
  rewrite !app_nil_r. f_equal. unfold row_values at 3. rewrite lookup_insert_eq. f_equal.
  f_equal. apply map_ext_in. intros i Hi%list_elem_of_In. unfold row_values.
  rewrite lookup_insert_ne; [done|]. by intros ->.
Qed.

(** A choice that satisfies more predicates satisfies fewer. *)
Lemma holds_in_before P m next r :
  next ∉ P → holds_in (P ++ [next]) (<[next := r]> m) = true → holds_in P m = true.
Proof.
  intros Hn. unfold holds_in. rewrite !forallb_forall. intros H p Hp. specialize (H p Hp).
  destruct (active P p) eqn:Ha; [|done]. cbn [negb orb].
  apply andb_prop in Ha as [Hl%bool_decide_eq_true Hr%bool_decide_eq_true].
  assert (Ha' : active (P ++ [next]) p = true).
  { unfold active. rewrite !bool_decide_eq_true_2 by (apply elem_of_app; by left). done. }
  rewrite Ha' in H. cbn [negb orb] in H. unfold predicate_holds in *.
  by rewrite !lookup_insert_ne in H by (intros ->; done).
Qed.

Lemma holds_in_keys P m next r p nk jk :
  next ∉ P → own_predicate p → p ∈ predicates →
  (leftRelation p = next ∧ rightRelation p ∈ P ∧ nk = leftColumn p ∧ jk = rightColumn p ∨
   rightRelation p = next ∧ leftRelation p ∈ P ∧ nk = rightColumn p ∧ jk = leftColumn p) →
  NoDup P → Forall (λ j, (j < length relations)%nat) P → chosen P m →
  holds_in (P ++ [next]) (<[next := r]> m) = true →
  keys_meet (key_value jk (joined P m)) (key_value nk r) = true.
Proof.
  intros Hn (Hl & Hr & _) Hp Hcases HP Hlt Hm. unfold holds_in. rewrite forallb_forall. intros H.
  apply list_elem_of_In in Hp. specialize (H p Hp).
  assert (Ha : active (P ++ [next]) p = true).
  { unfold active. rewrite !bool_decide_eq_true_2; [done|..]; rewrite elem_of_app, list_elem_of_singleton; tauto. }
  rewrite Ha in H. cbn [negb orb] in H. unfold predicate_holds in H.
  pose proof Hm as Hm'. unfold chosen in Hm'. rewrite Forall_forall in Hm'.
  destruct Hcases as [(Heq & Hin & -> & ->)|(Heq & Hin & -> & ->)]; rewrite Heq, lookup_insert_eq in H;
    rewrite lookup_insert_ne in H by (intros ->; done).
  - destruct (Hm' _ Hin) as (x & Hx & _). rewrite Hx in H.
    assert (Hk : key_value (rightColumn p) (joined P m) = key_value (rightColumn p) x).
    { unfold key_value at 1. by rewrite (resolve_joined _ _ P m x Hr Hin HP Hlt Hm Hx). }
    by rewrite Hk, keys_meet_comm.
  - destruct (Hm' _ Hin) as (x & Hx & _). rewrite Hx in H.
    assert (Hk : key_value (leftColumn p) (joined P m) = key_value (leftColumn p) x).
    { unfold key_value at 1. by rewrite (resolve_joined _ _ P m x Hl Hin HP Hlt Hm Hx). }
    by rewrite Hk.
Qed.

Lemma filter_concat {A B} (b : B → bool) (g : A → list B) l :
  List.filter b (concat (map g l)) = concat (map (λ x, List.filter b (g x)) l).
Proof. induction l as [|x l IH]; [done|]. cbn. by rewrite List.filter_app, IH. Qed.

Lemma filter_permuted {A} (b : A → bool) l l' :
  l ≡ₚ l' → List.filter b l ≡ₚ List.filter b l'.
Proof.
  induction 1 as [|x l l' _ IH|x y l|]; cbn; [done|by destruct (b x); rewrite IH| |by etrans].
  destruct (b x), (b y); try done. apply Permutation_swap.
Qed.

Lemma concat_map_filter {A B} (b : A → bool) (g : A → list B) l :
  concat (map g (List.filter b l)) = concat (map (λ x, if b x then g x else []) l).
Proof. induction l as [|x l IH]; [done|]. cbn. rewrite <- IH. by destruct (b x). Qed.

(** Filtering early by a condition that the last filter implies. *)
Lemma filter_early {A B} (b : B → bool) (early : bool) (k : A → bool) (g : A → B) l :
  (∀ x, x ∈ l → b (g x) = true → early = true ∧ k x = true) →
  (if early then List.filter b (concat (map (λ x, if k x then [g x] else []) l)) else [])
  = List.filter b (map g l).
Proof.
  induction l as [|x l IH]; intros H; [by destruct early|].
  specialize (IH (λ y Hy, H y (list_elem_of_further _ _ _ Hy))).
  specialize (H x (list_elem_of_here _ _)). cbn [map concat List.filter]. rewrite <- IH.
  destruct (b (g x)) eqn:Hb.
  - destruct (H eq_refl) as [-> ->]. cbn. by rewrite Hb.
  - destruct early; [|done]. rewrite List.filter_app. destruct (k x); cbn; [|done]. by rewrite Hb.
Qed.

Lemma relation_found i : (i < length relations)%nat →
  ∃ rel, relations !! i = Some rel ∧ relation_at relations i = Ok rel ∧ rows_of i = rel_rows rel.
Proof.
  intros Hi. destruct (lookup_lt_is_Some_2 relations i Hi) as [rel Hrl]. exists rel.
  unfold relation_at, rows_of. by rewrite Hrl.
Qed.

(** The rows joined so far are the choices that pass. *)
Definition joined_rows_of (P : list nat) : list EvalRow :=
  map (joined P) (List.filter (holds_in P) (choices rows_of P)).

(** What the hash join leaves of the pairs is filtered to the choices of the
    larger set. *)
Lemma pairs_of_choices P next schema nk jk p :
  linked (length relations) predicates P → next ∉ P → (next < length relations)%nat →
  schema = concat (map schemas P) ++ schemas next → p ∈ predicates →
  (leftRelation p = next ∧ rightRelation p ∈ P ∧ nk = leftColumn p ∧ jk = rightColumn p ∨
   rightRelation p = next ∧ leftRelation p ∈ P ∧ nk = rightColumn p ∧ jk = leftColumn p) →
  let k m n := keys_meet (key_value jk (joined P m)) (key_value nk n) in
  let extended := concat (map (λ m, concat (map (λ n, if k m n then [<[next := n]> m] else [])
    (rows_of next))) (List.filter (holds_in P) (choices rows_of P))) in
  concat (map (λ r, concat (map (λ n,
      if keys_meet (key_value jk r) (key_value nk n) then [combine_rows schema r n] else [])
      (rows_of next))) (joined_rows_of P))
    = map (joined (P ++ [next])) extended ∧
  Forall (chosen (P ++ [next])) extended ∧
  List.filter (holds_in (P ++ [next])) extended
    ≡ₚ List.filter (holds_in (P ++ [next])) (choices rows_of (P ++ [next])).
Proof.
  intros HP Hn Hlt Hschema Hp Hcases k extended.
  pose proof (linked_NoDup _ _ _ HP) as Hnd. pose proof (linked_lt _ _ _ HP) as Hlts.
  split; [|split].
  - unfold joined_rows_of, extended. rewrite concat_map_map, concat_map, map_map. f_equal.
    apply map_ext. intros m. rewrite concat_map, map_map. f_equal. apply map_ext. intros n.
    unfold k. destruct (keys_meet _ _); [|done]. cbn. by rewrite (joined_insert P m next n schema).
  - apply Forall_forall. intros m Hm. apply choices_chosen.
    rewrite (choices_snoc rows_of P next Hnd Hn).
    cbn [choices]. unfold extended in Hm.
    apply list_elem_of_In, in_concat in Hm as (ms & Hms & Hm).
    apply in_map_iff in Hms as (m0 & <- & Hm0). apply filter_In in Hm0 as [Hm0 _].
    apply in_concat in Hm as (ns & Hns & Hm). apply in_map_iff in Hns as (n & <- & Hn0).
    destruct (k m0 n); [|done]. destruct Hm as [<-|[]].
    apply list_elem_of_In, in_concat. exists (map (λ r, <[next := r]> m0) (rows_of next)).
    split; apply in_map_iff; by eexists.
  - rewrite (filter_permuted _ _ _ (choices_snoc rows_of P next Hnd Hn)).
    cbn [choices]. unfold extended. rewrite !filter_concat, concat_map_filter.
    apply concat_map_permuted; [|done]. intros m Hm. apply choices_chosen in Hm as Hchosen.
    rewrite (filter_early (holds_in (P ++ [next])) (holds_in P m) (k m)); [done|].
    intros n _ Hh. split; [by eapply holds_in_before|]. rewrite Forall_forall in Hpred.
    by apply (holds_in_keys P m next n p nk jk Hn (Hpred p Hp) Hp Hcases Hnd Hlts Hchosen).
Qed.

Lemma schema_of_rows rows cols other table alias :
  Forall (row_in cols) rows → boundSchema c table alias = Ok other →
  ∃ X, schema_of c rows table alias = Ok (Some X) ∧ (rows ≠ [] → X = cols).
Proof.
  intros Hrows Hb. unfold schema_of. destruct Hrows as [|row rows [Hr _] _].
  - rewrite Hb. by exists other.
  - exists cols. by rewrite Hr.
Qed.

Lemma joined_rows_in P rows :
  rows ≡ₚ joined_rows_of P → Forall (row_in (concat (map schemas P))) rows.
Proof.
  intros ->. apply Forall_map, Forall_forall. intros m Hm%list_elem_of_In. apply filter_In in Hm as [Hm _].
  by apply joined_row_in, choices_chosen, list_elem_of_In.
Qed.

Lemma joined_key_ok P rows key i r :
  linked (length relations) predicates P → rows ≡ₚ joined_rows_of P → own_key key i → i ∈ P →
  r ∈ rows → is_ok (resolve_key key r) = true.
Proof.
  intros HP Hrows Hkey Hi Hr. rewrite Hrows in Hr.
  apply list_elem_of_In, in_map_iff in Hr as (m & <- & Hm). apply filter_In in Hm as [Hm%list_elem_of_In _].
  pose proof (choices_chosen P m Hm) as Hc. pose proof Hc as Hc'. unfold chosen in Hc'.
  rewrite Forall_forall in Hc'. destruct (Hc' i Hi) as (x & Hx & _).
  by rewrite (resolve_joined key i P m x Hkey Hi (linked_NoDup _ _ _ HP) (linked_lt _ _ _ HP) Hc Hx).
Qed.

Lemma join_step front F P mask next order rows :
  boundSchema c (rel_table front) (rel_alias front) = Ok F →
  linked (length relations) predicates P → next ∉ P → (next < length relations)%nat → connected predicates P next →
  mask_of P mask → rows ≡ₚ joined_rows_of P →
  ∃ rows', join_in_order getenv std_hash_double std_hash_string walk c relations predicates front mask
      (next :: order) rows
    = join_in_order getenv std_hash_double std_hash_string walk c relations predicates front
        (Z.lor mask (Z.shiftl 1 (Z.of_nat next))) order rows' ∧
    rows' ≡ₚ joined_rows_of (P ++ [next]).
Proof.
  intros HF HP Hn Hlt Hconn Hmask Hrows. cbn [join_in_order].
  destruct (key_predicate_found P mask next Hmask Hconn) as (p & nk & jk & -> & Hp & Hcases).
  destruct (relation_found next Hlt) as (rel & Hrl & -> & Hof). cbn [rbind].
  destruct (Hrel next rel Hrl) as [Hin Hbound].
  destruct (schema_of_rows rows _ F _ _ (joined_rows_in P rows Hrows) HF) as (X & -> & HX).
  destruct (schema_of_rows (rel_rows rel) _ _ _ _ Hin Hbound) as (Y & -> & HY). cbn [rbind].
  change (combineSchemas (Some X) (Some Y)) with (X ++ Y).
  destruct (proj1 (Forall_forall _ _) Hpred p Hp) as (Hlk & Hrk & _).
  assert (Hnk : own_key nk next) by (destruct Hcases as [(<- & _ & -> & _)|(<- & _ & -> & _)]; done).
  assert (Hjk : ∃ i, own_key jk i ∧ i ∈ P).
  { destruct Hcases as [(_ & Hi & _ & ->)|(_ & Hi & _ & ->)]; eauto. }
  destruct Hjk as (i & Hjk & Hi).
  destruct (hash_pairs_ok (X ++ Y) jk nk rows (rel_rows rel)) as (l & -> & Hl).
  { intros r Hr. by eapply joined_key_ok. }
  { intros r Hr. rewrite Forall_forall in Hin. apply (resolve_resolvable _ (schemas next)); [by apply Hin|apply Hnk]. }
  { intros k Hk. by eapply Hsize. }
  cbn [rbind]. rewrite <- Hof in Hl.
  destruct (pairs_of_choices P next (concat (map schemas P) ++ schemas next) nk jk p)
    as (Hpairs & Hchosen & Hfilter); try done.
  rewrite (concat_map_permuted _ (λ r, concat (map (λ n,
      if keys_meet (key_value jk r) (key_value nk n)
      then [combine_rows (concat (map schemas P) ++ schemas next) r n] else [])
      (rows_of next))) rows (joined_rows_of P)) in Hl; [| |done].
  2:{ intros r Hr. apply concat_map_permuted; [|done]. intros n Hnr.
      rewrite HX by (by intros ->; apply elem_of_nil in Hr).
      rewrite HY; [done|]. rewrite <- Hof. by intros Heq; rewrite Heq in Hnr; apply elem_of_nil in Hnr. }
  rewrite Hpairs in Hl. pose proof (mask_of_more P mask next Hmask) as Hmask'.
  assert (Hnd : NoDup (P ++ [next])).
  { by apply (linked_NoDup (length relations) predicates), linked_more. }
  assert (Hlts : Forall (λ j, (j < length relations)%nat) (P ++ [next])).
  { by apply (linked_lt (length relations) predicates), linked_more. }
  pose proof (keep_passing_ok (P ++ [next]) _ Hnd Hlts _ Hmask' Hchosen) as Hkeep.
  rewrite keep_passing_rconcat in Hkeep.
  destruct (rconcat_permuted _ _ _ l (λ x _, permuted_refl _) (symmetry Hl) _ Hkeep) as (rows' & Hrows' & Hperm).
  rewrite keep_passing_rconcat, Hrows'. cbn [rbind]. exists rows'. split; [done|].
  rewrite <- Hperm. unfold joined_rows_of. by rewrite Hfilter.
Qed.

Lemma linked_prefix_app P Q : linked (length relations) predicates (P ++ Q) → P ≠ [] → linked (length relations) predicates P.
Proof.
  induction Q as [|x Q IH] using rev_ind; [by rewrite app_nil_r|].
  rewrite app_assoc. intros Hl Hne. inversion Hl as [r _ Heq|P' next HP' _ _ _ Heq].
  - destruct P as [|y P]; [done|]. destruct P, Q; discriminate Heq.
  - apply app_inj_tail in Heq as [-> _]. by apply IH.
Qed.

Lemma linked_next P next Q :
  linked (length relations) predicates (P ++ next :: Q) → P ≠ [] →
  linked (length relations) predicates P ∧ next ∉ P ∧ (next < length relations)%nat ∧ connected predicates P next.
Proof.
  intros Hl Hne. split; [by eapply linked_prefix_app|].
  assert (Hl' : linked (length relations) predicates (P ++ [next])).
  { apply (linked_prefix_app (P ++ [next]) Q); [by rewrite <- app_assoc|by destruct P]. }
  inversion Hl' as [r _ Heq|P' next' _ Hn Hlt Hc Heq].
  - by destruct P as [|? [|]].
  - by apply app_inj_tail in Heq as [-> ->].
Qed.

Lemma join_in_order_ok front F order P mask rows :
  boundSchema c (rel_table front) (rel_alias front) = Ok F → P ≠ [] →
  linked (length relations) predicates (P ++ order) → mask_of P mask → rows ≡ₚ joined_rows_of P →
  ∃ rows', join_in_order getenv std_hash_double std_hash_string walk c relations predicates front mask
      order rows = Ok (Some rows') ∧ rows' ≡ₚ joined_rows_of (P ++ order).
Proof.
  intros HF. revert P mask rows. induction order as [|next order IH]; intros P mask rows Hne Hl Hmask Hrows.
  { exists rows. by rewrite app_nil_r. }
  destruct (linked_next P next order Hl Hne) as (HP & Hn & Hlt & Hc).
  destruct (join_step front F P mask next order rows HF HP Hn Hlt Hc Hmask Hrows) as (rows1 & -> & Hrows1).
  destruct (IH (P ++ [next]) (Z.lor mask (Z.shiftl 1 (Z.of_nat next))) rows1) as (rows' & Hrun & Hrows').
  - by destruct P.
  - by rewrite <- app_assoc.
  - by apply mask_of_more.
  - done.
  - exists rows'. split; [done|]. by rewrite <- app_assoc in Hrows'.
Qed.

(** Running a linked order of the relations. *)
Lemma run_plan_ok order :
  linked (length relations) predicates order →
  ∃ rows, run_plan getenv std_hash_double std_hash_string walk c relations predicates order
      = Ok (Some rows) ∧ rows ≡ₚ joined_rows_of order.
Proof.
  intros Hl. destruct order as [|first rest]; [by inversion Hl; destruct P|].
  assert (Hfirst : linked (length relations) predicates [first]) by (by apply (linked_prefix_app [first] rest)).
  pose proof (linked_lt _ _ _ Hfirst) as Hlt. apply Forall_cons in Hlt as [Hlt _].
  unfold run_plan. destruct (relation_found first Hlt) as (rel & Hrl & -> & Hof). cbn [rbind].
  destruct (Hrel first rel Hrl) as [Hin Hbound].
  apply (join_in_order_ok rel (schemas first) rest [first]); [done|done|done|apply mask_of_one|].
  unfold joined_rows_of. cbn [choices]. rewrite <- Hof in Hin |- *. clear -Hin Hpred.
  assert (Hall : ∀ m, holds_in [first] m = true).
  { intros m. unfold holds_in. apply forallb_forall. intros p Hp%list_elem_of_In.
    rewrite Forall_forall in Hpred. destruct (Hpred p Hp) as (_ & _ & Hne & _).
    unfold active. destruct (bool_decide (leftRelation p ∈ [first])) eqn:H1; [|done].
    destruct (bool_decide (rightRelation p ∈ [first])) eqn:H2; [|done].
    apply bool_decide_eq_true, list_elem_of_singleton in H1, H2. congruence. }
  assert (Hf : ∀ l, List.filter (holds_in [first]) l = l).
  { intros l. apply filter_true, Forall_forall. intros m _. apply Hall. }
  rewrite Hf. cbn. rewrite app_nil_r, map_map.
  assert (map (λ r, joined [first] (<[first:=r]> ∅)) (rows_of first) = rows_of first) as ->; [|done].
  induction Hin as [|r rows [Hc Hlen] _ IH]; [done|]. cbn [map]. f_equal; [|done].
  unfold joined. cbn. unfold row_values. rewrite lookup_insert_eq, !app_nil_r, <- Hc. by destruct r.
Qed.
End run.

(** ** Loading the relations *)

Section loading.
Context {D F : Type} `{HeapFilesLaws D F}.
Context (walk : ∀ A : Type, list A → list A).
Context (Hwalk : ∀ A l, walk A l ≡ₚ l).
Context (c : Catalog) (M : gmap string rows).

(** Only counts of different values are added, or everything is forgotten. *)
Definition ranges_from (stats stats' : gmap string TableStatistics) : Prop :=
  ∀ n st name r, stats' !! n = Some st → columnRanges st !! name = Some r →
    ∃ st0, stats !! n = Some st0 ∧ columnRanges st0 !! name = Some r.

Lemma ranges_from_refl stats : ranges_from stats stats.
Proof. intros n st name r Hst Hr. by exists st. Qed.

Lemma ranges_from_trans a b d : ranges_from a b → ranges_from b d → ranges_from a d.
Proof.
  intros H1 H2 n st name r Hst Hr. destruct (H2 n st name r Hst Hr) as (st1 & Hst1 & Hr1).
  by apply (H1 n st1 name r).
Qed.

Lemma ranges_from_insert (p : planner (D:=D)) n st :
  (columnRanges st = columnRanges (statistics_of n p) ∨ columnRanges st = ∅) →
  ranges_from (tableStatistics_ p) (<[n := st]> (tableStatistics_ p)).
Proof.
  intros Hst m st' name r. destruct (decide (m = n)) as [->|Hne].
  - rewrite lookup_insert_eq. intros [= <-] Hr. destruct Hst as [Hst|Hst]; rewrite Hst in Hr.
    + unfold statistics_of in Hr. destruct (tableStatistics_ p !! n) as [st0|]; [by exists st0|].
      cbn in Hr. by rewrite lookup_empty in Hr.
    + by rewrite lookup_empty in Hr.
  - rewrite lookup_insert_ne by done. intros Hm Hr. by exists st'.
Qed.

Lemma ranges_from_ok stats stats' :
  ranges_ok c M stats → ranges_from stats stats' → ranges_ok c M stats'.
Proof.
  intros Hok Hfrom n st name r Hst Hr. destruct (Hfrom n st name r Hst Hr) as (st0 & Hst0 & Hr0).
  by apply (Hok n st0).
Qed.

Lemma distinct_values_total column rows seen :
  Forall (λ row, (column < length (values row))%nat) rows →
  is_ok (distinct_values column rows seen) = true.
Proof.
  intros Hrows. revert seen. induction Hrows as [|row rows Hr _ IH]; intros seen; [done|].
  cbn [distinct_values]. destruct (lookup_lt_is_Some_2 (values row) column Hr) as [v Hv].
  unfold nth_value. rewrite Hv. apply IH.
Qed.

Lemma count_distinct_run metadata table rows names counts (p : planner (D:=D)) :
  Forall (λ row, length (values row) = length (t_columns metadata)) rows →
  Forall (λ name, is_Some (column_position (named name) (t_columns metadata))) names →
  ∃ counts' p', count_distinct metadata table rows names counts p = (Ok counts', p') ∧
    engine_ p' = engine_ p ∧ ranges_from (tableStatistics_ p) (tableStatistics_ p').
Proof.
  intros Hrows Hnames. revert counts p. induction Hnames as [|name names [column Hc] _ IH]; intros counts p.
  { exists counts, p. split_and!; [done|done|apply ranges_from_refl]. }
  cbn [count_distinct]. unfold mbind, action_bind, gets.
  destruct (distinctCounts (statistics_of table p) !! name) as [count|]; [by apply IH|].
  rewrite Hc. unfold lift.
  assert (Hok : is_ok (distinct_values column rows []) = true).
  { apply distinct_values_total. eapply Forall_impl; [exact Hrows|]. cbn. intros row ->.
    by eapply column_position_lt. }
  destruct (distinct_values column rows []) as [seen|]; [|done]. cbn [set_statistics modify].
  set (p1 := mkPlanner _ _). destruct (IH (<[name := Nat.max 1 (length seen)]> counts) p1) as (counts' & p' & Hrun & He & Hst).
  exists counts', p'. split; [exact Hrun|]. split; [done|].
  eapply ranges_from_trans; [|exact Hst]. cbn. apply ranges_from_insert. by left.
Qed.

Lemma required_columns_elem relation predicates name :
  name ∈ required_columns walk relation predicates →
  ∃ p, p ∈ predicates ∧
    (leftRelation p = relation ∧ (leftColumn p).2 = name ∨
     rightRelation p = relation ∧ (rightColumn p).2 = name).
Proof.
  unfold required_columns. rewrite Hwalk, elem_of_remove_dups. intros Hin.
  apply list_elem_of_In, in_concat in Hin as (names & Hnames & Hin%list_elem_of_In).
  apply in_map_iff in Hnames as (p & <- & Hp). exists p. split; [by apply list_elem_of_In|].
  apply elem_of_app in Hin as [Hin|Hin]; case_decide;
    try (apply list_elem_of_singleton in Hin; auto); by apply elem_of_nil in Hin.
Qed.

(** The relation that a table of the statement becomes. *)
Definition loaded (name : string * string) (r : RelationData) : Prop :=
  rel_table r = name.1 ∧ rel_alias r = name.2 ∧ table_rows c M name.1 name.2 = Ok (rel_rows r).

Lemma load_relation_run predicates index name t (p : planner (D:=D)) :
  planner_ok c M p → getTable c name.1 = Some t →
  (∀ column, column ∈ required_columns walk index predicates →
     is_Some (column_position (named column) (t_columns t))) →
  ∃ r p', load_relation walk predicates index name p = (Ok r, p') ∧ planner_ok c M p' ∧ loaded name r.
Proof.
  intros [He Hstats] Ht Hcols. destruct p as [e stats]. cbn [engine_ tableStatistics_] in *.
  destruct (proj2 (do_dom _ _ (proj2 He) name.1)) as [rs Hrs]; [by exists t|].
  assert (Hrows : table_rows c M name.1 name.2
    = Ok (map (λ x : RowId * Tuple, mkRow (Some (table_schema name.1 name.2 t)) x.2) rs)).
  { unfold table_rows. by rewrite Ht, Hrs. }
  destruct (scan_table_rows c M e name.1 name.2 _ He Hrows)
    as (scan & e1 & Hscan & Hmap & He1 & t' & rs' & Ht' & _ & _ & Hin). simplify_eq.
  unfold load_relation, mbind, action_bind, on_engine at 1, zoom. cbn [engine_]. rewrite Hscan.
  unfold on_engine, zoom. cbn [engine_].
  rewrite (known_table_run c M e1 name.1 (proj1 He1)). unfold getTable in Ht. rewrite Ht.
  unfold gets. cbn [set_statistics modify]. set (p1 := mkPlanner _ _).
  set (rows := sc_row <$> scan) in *.
  assert (Hwidth : Forall (λ row, length (values row) = length (t_columns t)) rows).
  { rewrite Hmap. eapply Forall_impl; [exact Hin|]. intros row [_ Hlen]. rewrite Hlen.
    unfold table_schema. apply length_map. }
  destruct (count_distinct_run t name.1 rows (required_columns walk index predicates) ∅ p1 Hwidth)
    as (counts & p' & Hrun & He' & Hst').
  { by apply Forall_forall. }
  rewrite Hrun. eexists _, p'. split; [reflexivity|]. split.
  - split; [rewrite He'; exact He1|]. eapply ranges_from_ok; [exact Hstats|].
    eapply ranges_from_trans; [|exact Hst'].
    apply (ranges_from_insert (mkPlanner e1 stats) name.1).
    case_decide; [by right|by left].
  - split; [done|]. split; [done|]. cbn. rewrite Hrows. f_equal. done.
Qed.

Lemma load_relations_run predicates index names (p : planner (D:=D)) :
  planner_ok c M p →
  (∀ i name, names !! i = Some name → ∃ t, getTable c name.1 = Some t ∧
     ∀ column, column ∈ required_columns walk (index + i) predicates →
       is_Some (column_position (named column) (t_columns t))) →
  ∃ rs p', load_relations walk predicates index names p = (Ok rs, p') ∧ planner_ok c M p' ∧
    Forall2 loaded names rs.
Proof.
  revert index p. induction names as [|name names IH]; intros index p Hp Hnames.
  { exists [], p. split_and!; [done|done|constructor]. }
  destruct (Hnames O name eq_refl) as (t & Ht & Hcols). rewrite Nat.add_0_r in Hcols.
  destruct (load_relation_run predicates index name t p Hp Ht Hcols) as (r & p1 & Hrun & Hp1 & Hr).
  destruct (IH (S index) p1 Hp1) as (rs & p2 & Hrun2 & Hp2 & Hrs).
  { intros i name' Hi. destruct (Hnames (S i) name' Hi) as (t' & Ht' & Hcols'). exists t'.
    split; [done|]. intros column Hcol. apply Hcols'. by replace (index + S i)%nat with (S index + i)%nat by lia. }
  exists (r :: rs), p2. split; [|split; [done|by constructor]].
  cbn [load_relations]. unfold mbind, action_bind. by rewrite Hrun, Hrun2.
Qed.
End loading.

(** ** The whole of [executeCostBasedJoins] *)

Section statement.
Context (c : Catalog) (names : list (string * string)).

Definition relation_schema (i : nat) : list BoundColumn :=
  match names !! i with
  | Some (n, alias) =>
      match getTable c n with Some t => table_schema n alias t | None => [] end
  | None => []
  end.

(** The key names a column of relation [i] and of no other. *)
Definition names_only (key : column_key) (i : nat) : bool :=
  (i <? length names)%nat && resolvable key (relation_schema i) &&
  forallb (λ j, (j =? i)%nat || match matching key (relation_schema j) with [] => true | _ :: _ => false end)
    (seq 0 (length names)).

Definition keys_unambiguous (predicates : list JoinPredicate) : bool :=
  forallb (λ p, names_only (leftColumn p) (leftRelation p) &&
                names_only (rightColumn p) (rightRelation p)) predicates.

Lemma names_only_own (relations : list RelationData) key i :
  length relations = length names → names_only key i = true →
  own_key relations relation_schema key i.
Proof.
  intros Hlen [[Hi%Nat.ltb_lt Hres]%andb_prop Hall]%andb_prop. unfold own_key. rewrite Hlen.
  split; [done|]. split; [done|]. intros j Hj Hne. rewrite forallb_forall in Hall.
  assert (Hin : In j (seq 0 (length names))) by (apply in_seq; lia).
  specialize (Hall j Hin). apply orb_prop in Hall as [Heq%Nat.eqb_eq|Hno]; [done|].
  by destruct (matching key (relation_schema j)).
Qed.

Lemma own_column key i :
  resolvable key (relation_schema i) = true →
  ∃ name t, names !! i = Some name ∧ getTable c name.1 = Some t ∧
    is_Some (column_position (named key.2) (t_columns t)).
Proof.
  unfold resolvable, relation_schema. destruct (names !! i) as [[n alias]|]; [|by cbn].
  destruct (getTable c n) as [t|] eqn:Ht; [|by cbn]. intros Hres. exists (n, alias), t.
  split; [done|]. split; [done|]. apply column_position_existsb. apply existsb_exists.
  destruct (matching key (table_schema n alias t)) as [|col cols] eqn:Hm; [done|].
  assert (Hin : In col (matching key (table_schema n alias t))) by (rewrite Hm; by left).
  apply filter_In in Hin as [Hin Hmatch]. apply in_map_iff in Hin as (column & <- & Hcol).
  exists column. split; [done|]. unfold column_matches in Hmatch. cbn in Hmatch.
  apply andb_prop in Hmatch as [Hname%bool_decide_eq_true _]. unfold named.
  by apply bool_decide_eq_true.
Qed.
End statement.

Lemma cost_predicates_elem s predicates p :
  cost_predicates s = Some predicates → p ∈ predicates →
  leftRelation p ≠ rightRelation p ∧
  ∃ l r a q, expression p = BinaryOp "=" l r a q ∧
    column_ref l = Some (leftColumn p) ∧ column_ref r = Some (rightColumn p).
Proof.
  unfold cost_predicates. do 3 (case_match; [done|]). intros Hmap Hp.
  apply mapM_Some in Hmap. apply list_elem_of_lookup in Hp as [i Hi].
  destruct (Forall2_lookup_r _ _ _ _ _ Hmap Hi) as (join & _ & Hjoin). unfold join_predicate in Hjoin.
  destruct (jc_condition join) as [| | |op l r a q| | | |]; try done.
  destruct (String.eqb_spec op "=") as [->|]; [|done].
  apply bind_Some in Hjoin as (lk & Hl & Hjoin). apply bind_Some in Hjoin as (rk & Hr & Hjoin).
  apply bind_Some in Hjoin as (li & _ & Hjoin). apply bind_Some in Hjoin as (ri & _ & Hjoin).
  case_decide as Hne; [done|]. injection Hjoin as <-. split; [done|]. by exists l, r, a, q.
Qed.

(** All predicates count when all relations are joined. *)
Lemma holds_in_all predicates order m :
  Forall (λ p, leftRelation p ∈ order ∧ rightRelation p ∈ order) predicates →
  holds_in predicates order m = forallb (λ p, predicate_holds p m) predicates.
Proof.
  unfold holds_in. induction 1 as [|p ps [Hl Hr] _ IH]; [done|]. cbn. rewrite IH.
  unfold active. by rewrite !bool_decide_eq_true_2.
Qed.

Section execute.
Context {D F : Type} `{HeapFilesLaws D F}.
Context (getenv : string → option string).
Context (std_hash_double : double → Z) (std_hash_string : string → Z).
Context (walk : ∀ A : Type, list A → list A).
Context (Hhash : ∀ x y, deqb x y = true → std_hash_double x = std_hash_double y).
Context (Hwalk : ∀ A l, walk A l ≡ₚ l).
Context (c : Catalog) (M : gmap string rows) (s : Select_).

(** The rows of the relations of the statement. *)
Definition relation_rows (tables : string → string → exec (list EvalRow)) (i : nat) : list EvalRow :=
  match relation_names s !! i with
  | Some (n, alias) => rows_or_nil (tables n alias)
  | None => []
  end.

(** The choices that satisfy every join condition. *)
Definition joined_choices (tables : string → string → exec (list EvalRow))
    (predicates : list JoinPredicate) : list (gmap nat EvalRow) :=
  List.filter (λ m, forallb (λ p, predicate_holds p m) predicates)
    (choices (relation_rows tables) (seq 0 (length (relation_names s)))).

Definition cost_join_result (tables : string → string → exec (list EvalRow))
    (predicates : list JoinPredicate) (r : option (list EvalRow)) : Prop :=
  let count := length (relation_names s) in
  match r with
  | Some rows => ∃ order, linked count predicates order ∧ order ≡ₚ seq 0 count ∧
      rows ≡ₚ map (joined (relation_schema c (relation_names s)) order) (joined_choices tables predicates)
  | None => ¬ ∃ order, linked count predicates order ∧ order ≡ₚ seq 0 count
  end.

Lemma executeCostBasedJoins_ok predicates (p : planner (D:=D)) :
  planner_ok c M p → cost_predicates s = Some predicates → (length (s_joins s) < 63)%nat →
  Forall (λ n : string * string, is_Some (getTable c n.1)) (relation_names s) →
  keys_unambiguous c (relation_names s) predicates = true →
  Forall (λ n : string * string, ∀ rows k, table_rows c M n.1 n.2 = Ok rows → (k <= length rows)%nat →
    bloom_size_ok getenv (Z.of_nat k)) (relation_names s) →
  ∃ r p', executeCostBasedJoins getenv std_hash_double std_hash_string walk s p = (Ok r, p') ∧
    planner_ok c M p' ∧ cost_join_result (table_rows c M) predicates r.
Proof.
  intros Hp Hpreds Hjoins Hknown Hown Hsizes. set (names := relation_names s) in *.
  unfold keys_unambiguous in Hown. rewrite forallb_forall in Hown.
  assert (Hown' : ∀ p, p ∈ predicates →
    names_only c names (leftColumn p) (leftRelation p) = true ∧
    names_only c names (rightColumn p) (rightRelation p) = true).
  { intros q Hq%list_elem_of_In. by apply andb_prop, Hown. }
  unfold executeCostBasedJoins. rewrite Hpreds. fold names.
  destruct (load_relations_run walk c M predicates 0 names p Hp) as (rels & p1 & Hload & Hp1 & Hrels).
  { intros i name Hi. destruct (Forall_lookup_1 _ _ _ _ Hknown Hi) as [t Ht]. exists t. split; [done|].
    intros column Hcol. apply (required_columns_elem walk Hwalk) in Hcol as (q & Hq & Hside).
    destruct (Hown' q Hq) as [[[_ Hl]%andb_prop _]%andb_prop [[_ Hr]%andb_prop _]%andb_prop].
    destruct Hside as [[Heq Hc]|[Heq Hc]]; cbn [Nat.add] in Heq; rewrite Heq in *.
    - destruct (own_column _ _ _ _ Hl) as (name' & t' & Hn' & Ht' & Hpos).
      rewrite Hi in Hn'. injection Hn' as <-. rewrite <- Hc. congruence.
    - destruct (own_column _ _ _ _ Hr) as (name' & t' & Hn' & Ht' & Hpos).
      rewrite Hi in Hn'. injection Hn' as <-. rewrite <- Hc. congruence. }
  pose proof (Forall2_length _ _ _ Hrels) as Hlen.
  unfold mbind, action_bind. rewrite Hload. unfold lift.
  assert (Hcount : (length names < 64)%nat).
  { unfold names, relation_names. cbn. rewrite length_map. lia. }
  assert (Hpred : Forall (own_predicate rels (relation_schema c names)) predicates).
  { apply Forall_forall. intros q Hq. destruct (Hown' q Hq) as [Hl Hr].
    destruct (cost_predicates_elem s predicates q Hpreds Hq) as [Hne Hexpr].
    split; [by apply names_only_own|]. split; [by apply names_only_own|]. by split. }
  assert (Hrel : ∀ i r, rels !! i = Some r →
    Forall (row_in (relation_schema c names i)) (rel_rows r) ∧
    boundSchema c (rel_table r) (rel_alias r) = Ok (relation_schema c names i) ∧
    relation_rows (table_rows c M) i = rel_rows r).
  { intros i r Hr. destruct (Forall2_lookup_r _ _ _ _ _ Hrels Hr) as ([n alias] & Hn & -> & -> & Hrows).
    cbn [fst snd] in *. unfold relation_rows, relation_schema. fold names. rewrite Hn, Hrows.
    destruct (scan_table_rows c M (engine_ p) n alias (rel_rows r) (proj1 Hp) Hrows)
      as (_ & _ & _ & _ & _ & t & rs & Ht & _ & _ & Hin).
    rewrite Ht. split; [done|]. split; [by apply boundSchema_known|done]. }
  destruct (best_order rels predicates) as [order|f] eqn:Hbest.
  2:{ unfold best_order in Hbest. case_decide; [lia|done]. }
  destruct order as [order|].
  - destruct (best_order_ok rels predicates order Hbest) as [Hlinked Hperm]. unfold gets.
    rewrite (proj1 (proj1 (proj1 Hp1))).
    destruct (run_plan_ok getenv std_hash_double std_hash_string walk Hhash Hwalk c rels predicates
      (relation_schema c names)) with (order := order) as (rows & Hrun & Hrows); try done.
    + intros i r Hr. destruct (Hrel i r Hr) as (? & ? & _). done.
    + intros i r k Hr Hk.
      destruct (Forall2_lookup_r _ _ _ _ _ Hrels Hr) as ([n alias] & Hn & _ & _ & Htable).
      by eapply (Forall_lookup_1 _ _ _ _ Hsizes Hn).
    + rewrite Hrun. exists (Some rows), p1. split; [done|]. split; [done|].
      exists order. fold names. rewrite Hlen. split; [done|]. split; [done|]. rewrite Hrows.
      unfold joined_rows_of, joined_choices. fold names. rewrite Hlen.
      apply Permutation_map. transitivity (List.filter (holds_in predicates order)
        (choices (rows_of rels) (seq 0 (length rels)))).
      * apply filter_permuted, choices_permuted; [done|]. by eapply linked_NoDup.
      * assert (choices (rows_of rels) (seq 0 (length rels))
          = choices (relation_rows (table_rows c M)) (seq 0 (length rels))) as ->.
        { assert (Hall : Forall (λ i, (i < length rels)%nat) (seq 0 (length rels))).
          { apply Forall_forall. intros i Hi%elem_of_seq. lia. }
          revert Hall. generalize (seq 0 (length rels)) as l.
          induction 1 as [|i l Hi _ IH]; [done|]. cbn [choices]. rewrite IH.
          destruct (lookup_lt_is_Some_2 rels i Hi) as [r Hr]. destruct (Hrel i r Hr) as (_ & _ & ->).
          unfold rows_of. by rewrite Hr. }
        rewrite (List.filter_ext _ (λ m, forallb (λ p, predicate_holds p m) predicates)); [done|].
        intros m. apply holds_in_all. apply Forall_forall. intros q Hq. rewrite Hperm, <- Hlen.
        destruct (Hown' q Hq) as [[[Hl _]%andb_prop _]%andb_prop [[Hr _]%andb_prop _]%andb_prop].
        apply Nat.ltb_lt in Hl, Hr. rewrite !elem_of_seq. lia.
  - exists None, p1. split; [done|]. split; [done|]. unfold cost_join_result. cbn zeta. fold names. rewrite Hlen.
    intros (order & Hlinked & Hperm).
    destruct (best_order_found rels predicates order) as (order' & Hfound); [lia|done|done|congruence].
Qed.
End execute.

(** ** From an empty database *)

(** Filters for any part of a table's rows can be built. *)
Definition filters_fit (getenv : string → option string) (batchRows : nat)
    (e : engine (D:=storage)) (name : string * string) : Prop :=
  ∀ rows k, scanned_rows batchRows e name.1 name.2 = Ok rows → (k <= length rows)%nat →
    bloom_size_ok getenv (Z.of_nat k).

Lemma relation_rows_alike s f g :
  (∀ n alias, f n alias ≈ g n alias) → ∀ i, relation_rows s f i = relation_rows s g i.
Proof.
  intros Hfg i. unfold relation_rows. destruct (relation_names s !! i) as [[n alias]|]; [|done].
  specialize (Hfg n alias). destruct (f n alias) as [rows|]; cbn.
  - by rewrite (proj1 (Hfg rows) eq_refl).
  - destruct (g n alias) as [rows|]; [|done]. by destruct (proj2 (Hfg rows) eq_refl).
Qed.

Lemma choices_ext f g l : (∀ i, f i = g i) → choices f l = choices g l.
Proof. intros Hfg. induction l as [|i l IH]; [done|]. cbn. by rewrite IH, Hfg. Qed.


(** [SELECT o.id FROM users u INNER JOIN orders o ON o.user = u.id
     INNER JOIN orders p ON u.id = p.user] *)
Definition demo_cost_join : Select_ :=
  mkSelect false [qualified "o" "id"] "users" "u"
    [mkJoin INNER "orders" "o" (equals (qualified "o" "user") (qualified "u" "id"));
     mkJoin INNER "orders" "p" (equals (qualified "u" "id") (qualified "p" "user"))]
    None [] None [] None None here.

Definition demo_predicates : list JoinPredicate :=
  match cost_predicates demo_cost_join with Some ps => ps | None => [] end.

Example demo_cost_rows :
  (let* r := (executeCostBasedJoins (H:=heap_files 1) (λ _, None) demo_hash_double demo_hash_string
     (λ _ l, l) demo_cost_join demo_planner).1 in Ok (map values <$> r))
  = Ok (Some [[VInteger 1; VText "7"; VInteger 10; VInteger 1; VInteger 10; VInteger 1]]).
Proof. vm_compute. reflexivity. Qed.

Lemma demo_filters_fit :
  Forall (filters_fit (λ _, None) 1 (engine_ demo_planner)) (relation_names demo_cost_join).
Proof.
  assert (Hsmall : ∀ n, (n <= 2)%nat → bloom_size_ok (λ _, None) (Z.of_nat n)).
  { intros n Hn. split; [vm_compute; congruence|]. do 3 (destruct n as [|n]; [vm_compute; congruence|]). lia. }
  assert (Hrows : ∀ name rows, name ∈ relation_names demo_cost_join →
    scanned_rows 1 (engine_ demo_planner) name.1 name.2 = Ok rows → (length rows <= 2)%nat).
  { intros name rows Hname Hr.
    replace (length rows) with (length (rows_or_nil (scanned_rows 1 (engine_ demo_planner) name.1 name.2)))
      by (by rewrite Hr).
    apply list_elem_of_In in Hname. destruct Hname as [<-|[<-|[<-|[]]]]; vm_compute; lia. }
  apply Forall_forall. intros name Hname rows k Hr Hk. apply Hsmall. specialize (Hrows name rows Hname Hr). lia.
Qed.

