(* ===== verification/Prompt.v ===== *)
(** What the engine reads out of the text of a memory
    ([src/native_prompt.cpp], the anonymous namespace): its access labels, the
    entities it mentions, the tags it suggests and the facts ("atoms") it states.
    Text is compared in lower case of the "C" locale; a position in a text is a
    [nat].

    The file shows what the rest relies on: sorting by score keeps every
    suggestion, a text always suggests a tag, and an extracted fact is never
    empty. *)

From S2P Require Import Prelude.
From S2P Require Import Format.
From S2P Require Import Ast.
From S2P Require Import Catalog.

#[local] Open Scope string_scope.

(** ** Text *)

Definition lowerText (value : string) : string := lower value.

Fixpoint lstrip (p : ascii → bool) (s : string) : string :=
  match s with
  | String c s' => if p c then lstrip p s' else s
  | EmptyString => ""
  end.

Fixpoint rstrip (p : ascii → bool) (s : string) : string :=
  match s with
  | EmptyString => ""
  | String c s =>
      match rstrip p s with
      | EmptyString => if p c then "" else String c ""
      | s => String c s
      end
  end.

Definition trimText (value : string) : string := rstrip isspace (lstrip isspace value).

(** [std::string::find]; [None] is [npos]. *)
Fixpoint find_text (needle s : string) : option nat :=
  if String.prefix needle s then Some O
  else match s with
       | EmptyString => None
       | String _ s => S <$> find_text needle s
       end.

Definition contains (s needle : string) : bool :=
  match find_text needle s with Some _ => true | None => false end.

Definition containsAny (lower : string) (needles : list string) : bool :=
  existsb (contains lower) needles.

Definition isWordChar (ch : ascii) : bool := isalnum ch || Ascii.eqb ch "_".

(** An occurrence of [word] in [s] with no word character next to it; [before]
    is the character in front of [s]. *)
Fixpoint word_from (word : string) (before : option ascii) (s : string) : bool :=
  (String.prefix word s &&
   match before with Some ch => negb (isWordChar ch) | None => true end &&
   match drop_string (String.length word) s with
   | String ch _ => negb (isWordChar ch)
   | EmptyString => true
   end) ||
  match s with
  | String ch s => word_from word (Some ch) s
  | EmptyString => false
  end.

Definition containsWord (lower word : string) : bool := word_from word None lower.

Definition ends_sentence (ch : ascii) : bool :=
  existsb (Ascii.eqb ch) ["."; "!"; "?"; ","; ";"]%char.

(** Text before the first of [stops] that occurs in [lower]. *)
Fixpoint cut_before (stops : list string) (lower value : string) : string :=
  match stops with
  | [] => value
  | stop :: stops =>
      match find_text stop lower with
      | Some pos => take_string pos value
      | None => cut_before stops lower value
      end
  end.

Definition cleanAtomValue (value : string) : string :=
  let value := trimText value in
  let value := cut_before [" but "; " because "] (lowerText value) value in
  trimText (rstrip ends_sentence value).

Definition addUnique (values : list string) (value : string) : list string :=
  if value =? "" then values
  else if existsb (String.eqb value) values then values else (values ++ [value])%list.

Definition removeValue (values : list string) (value : string) : list string :=
  filter (λ v, v ≠ value) values.

(** The loop over the characters shared by [tokenizeLower] and
    [queryValueOverlapScore]. *)
Fixpoint tokens_from (token s : string) : list string :=
  match s with
  | EmptyString => if token =? "" then [] else [token]
  | String ch s =>
      if isalnum ch then tokens_from (token +:+ String ch "") s
      else ((if token =? "" then [] else [token]) ++ tokens_from "" s)%list
  end.

Definition tokenizeLower (text : string) : list string := tokens_from "" (lowerText text).

Definition isQueryStopword (token : string) : bool :=
  existsb (String.eqb token)
    ["and"; "are"; "can"; "for"; "find"; "from"; "how";
     "near"; "the"; "this"; "that"; "with"; "you"].

Definition queryValueOverlapScore (lowerValue lowerQuery : string) : Z :=
  let hits := filter (λ token,
    (3 <=? String.length token)%nat && negb (isQueryStopword token) && contains lowerValue token)
    (tokens_from "" lowerQuery) in
  Z.min (20 * Z.of_nat (length hits)) 80.

(** [std::sort] followed by [std::unique] and [erase]. *)
Fixpoint drop_repeats (l : list string) : list string :=
  match l with
  | [] => []
  | x :: l =>
      match drop_repeats l with
      | y :: rest => if x =? y then y :: rest else x :: y :: rest
      | [] => [x]
      end
  end.

Definition sorted_unique (l : list string) : list string := drop_repeats (merge_sort string_le l).

(** [std::stable_sort]: elements that neither precedes stay in their order. *)
Fixpoint stable_insert {A} (before : A → A → bool) (x : A) (l : list A) : list A :=
  match l with
  | [] => [x]
  | y :: l' => if before y x then y :: stable_insert before x l' else x :: l
  end.

Definition stable_sort {A} (before : A → A → bool) (l : list A) : list A :=
  foldr (stable_insert before) [] l.

(** ** Labels and entities *)

Definition inferAccessLabels (text : string) : list string :=
  let lower := lowerText text in
  (["AGENT_INTERNAL"] ++
   (if containsAny lower
        ["password"; "secret"; "api key"; "api token"; "access token"; "auth token";
         "bearer token"; "refresh token"; "session token"; "credential token";
         "ssn"; "social security"; "credit card"; "confidential"; "private key"]
    then ["CONFIDENTIAL_CUSTOMER_DATA"] else []) ++
   (if containsAny lower ["tool call"; "tool trace"; "stack trace"]
    then ["TOOL_TRACE"] else []))%list.

Definition mention (b : bool) (entity : string) (entities : list string) : list string :=
  if b then addUnique entities entity else entities.

Definition about_pets (lower : string) : bool :=
  containsWord lower "dog" || containsWord lower "puppy" || containsWord lower "pet".

Definition inferMentionedEntities (text : string) : list string :=
  let lower := lowerText text in
  let entities := mention (about_pets lower) "dog" [] in
  let entities :=
    mention (containsAny lower ["sqlite"; "sql"; "b-tree"; "btree"]) "sqlite" entities in
  let entities :=
    mention (containsAny lower ["benchmark"; "perf"; "slow"; "latency"]) "performance" entities in
  let entities :=
    mention (containsAny lower ["wal"; "lock"; "recovery"; "transaction"]) "storage-safety" entities in
  let entities :=
    mention (containsAny lower ["readme"; "docs"; "documentation"]) "docs" entities in
  mention (containsAny lower ["pytorch"; "torch"; "dataset"; "training"]) "ml-dataset" entities.

(** ** Suggested tags *)

Definition normalizedTab (tab : string) : string :=
  let cleaned := cleanAtomValue tab in
  if cleaned =? "" then "main" else cleaned.

Record TagSuggestion : Type := mkSuggestion {
  tag : string;
  score : Z;
  reason : string;
}.

Definition raise_suggestion (existing : TagSuggestion) (s : Z) (r : string) : TagSuggestion :=
  mkSuggestion (tag existing) (if (score existing <? s)%Z then s else score existing)
    (if negb (r =? "") && negb (contains (reason existing) r) then
       (if reason existing =? "" then "" else reason existing +:+ "+") +:+ r
     else reason existing).

Fixpoint add_suggestion (suggestions : list TagSuggestion) (t : string) (s : Z) (r : string)
    : list TagSuggestion :=
  match suggestions with
  | [] => [mkSuggestion t s r]
  | existing :: suggestions =>
      if tag existing =? t then raise_suggestion existing s r :: suggestions
      else existing :: add_suggestion suggestions t s r
  end.

Definition addTagSuggestion (suggestions : list TagSuggestion) (t : string) (s : Z) (r : string)
    : list TagSuggestion :=
  add_suggestion suggestions (normalizedTab t) s r.

Definition suggest (b : bool) (t : string) (s : Z) (r : string)
    (suggestions : list TagSuggestion) : list TagSuggestion :=
  if b then addTagSuggestion suggestions t s r else suggestions.

(** The suggestions before the fallback and the sort. *)
Definition matched_suggestions (lower : string) : list TagSuggestion :=
  let l := suggest (about_pets lower) "convo about dog" 90 "matched pet/dog term" [] in
  let l := suggest (containsAny lower ["sqlite"; "b-tree"; "btree"] ||
                    containsWord lower "sql" || containsWord lower "join")
             "debugging sqlite perf" 85 "matched sql/sqlite/join term" l in
  let l := suggest (containsAny lower ["benchmark"; "recall"; "avg tokens"; "average tokens"])
             "benchmarks" 82 "matched benchmark metric term" l in
  let l := suggest (containsAny lower ["mem0"; "rag"; "recency-window"])
             "memory baselines" 80 "matched memory baseline term" l in
  let l := suggest (containsAny lower ["agent"; "context pack"; "current_context"; "dogfood"; "helper"])
             "agent integration" 78 "matched agent/context term" l in
  let l := suggest (containsAny lower ["roadmap"; "next step"; "project"])
             "project roadmap" 76 "matched project planning term" l in
  let l := suggest (containsAny lower ["readme"; "docs"; "documentation"])
             "docs" 74 "matched docs/readme term" l in
  let l := suggest (containsAny lower ["debug this later"; "investigate"; "look into"])
             "debug this later" 95 "matched follow-up marker" l in
  let l := suggest (contains lower "?") "open questions" 92 "contains question mark" l in
  let l := suggest (containsAny lower ["remember that"; "always "; "never "; "don't "; "do not "])
             "constraints" 88 "matched constraint marker" l in
  let l := suggest (containsAny lower ["i like "; "i prefer "])
             "preferences" 86 "matched preference marker" l in
  suggest (containsAny lower ["i need "; "i want "; "todo"])
    "current tasks" 89 "matched task marker" l.

Definition inferContextTagSuggestions (text : string) : list TagSuggestion :=
  let suggestions :=
    match matched_suggestions (lowerText text) with
    | [] => addTagSuggestion [] "main" 1 "fallback"
    | suggestions => suggestions
    end in
  stable_sort (λ l r, (score r <? score l)%Z) suggestions.

(** [std::to_string] of an [int] *)
Definition int_text (z : Z) : string := dec_signed z.

Definition tagsFromSuggestions (suggestions : list TagSuggestion) : list string :=
  fold_left (λ tags s, addUnique tags (tag s)) suggestions [].

Definition reasonsFromSuggestions (suggestions : list TagSuggestion) : list string :=
  fold_left (λ reasons s,
    addUnique reasons (tag s +:+ ":" +:+ int_text (score s) +:+ ":" +:+ reason s)) suggestions [].

Definition suggestionSummary (s : TagSuggestion) : string :=
  tag s +:+ " score=" +:+ int_text (score s) +:+ " reason=" +:+ reason s.

(** ** Facts *)

Record ExtractedValue : Type := mkExtracted {
  ev_value : string;
  ev_sourceStart : Z;
  ev_sourceEnd : Z;
  ev_originalSnippet : string;
}.

Definition ends_fact (ch : ascii) : bool :=
  (code ch =? 10)%Z || (code ch =? 13)%Z || existsb (Ascii.eqb ch) ["!"; "?"; ";"]%char.

(** The position where a fact ends; a point between digits does not end it. *)
Fixpoint boundary_from (before : option ascii) (s : string) : option nat :=
  match s with
  | EmptyString => None
  | String ch s =>
      let decimalPoint :=
        match before, s with
        | Some b, String a _ => isdigit b && isdigit a
        | _, _ => false
        end in
      let sentencePeriod := match s with EmptyString => true | String a _ => isspace a end in
      if ends_fact ch || (Ascii.eqb ch "." && negb decimalPoint && sentencePeriod) then Some O
      else S <$> boundary_from (Some ch) s
  end.

Definition extractAfterMarker (text marker : string) : option ExtractedValue :=
  match find_text marker (lowerText text) with
  | None => None
  | Some pos =>
      let start := (pos + String.length marker)%nat in
      let value := drop_string start text in
      let boundary := boundary_from None value in
      let value := match boundary with Some b => take_string b value | None => value end in
      let originalSnippet := trimText value in
      let value := cleanAtomValue value in
      if value =? "" then None
      else Some (mkExtracted value (Z.of_nat start)
                   (Z.of_nat (start + default (String.length originalSnippet) boundary))
                   originalSnippet)
  end.

Definition isAtomSlugStopword (token : string) : bool :=
  existsb (String.eqb token)
    ["a"; "an"; "and"; "are"; "as"; "at"; "be"; "by"; "for"; "from"; "in"; "inside"; "is"; "it";
     "of"; "on"; "or"; "should"; "that"; "the"; "this"; "to"; "use"; "using"; "we"; "with";
     "also"; "says"; "measured"].

Definition atomTopicSlug (value : string) : string :=
  let kept := take 4 (filter (λ token,
    negb ((String.length token <? 3)%nat || isAtomSlugStopword token)) (tokenizeLower value)) in
  if bool_decide (kept = []) then "general" else String.concat "_" kept.

Definition specificAtomKey (base value : string) : string :=
  let lower := lowerText value in
  if (base =? "user_constraint") &&
     containsAny lower ["password"; "secret"; "api key"; "api token"; "access token";
                        "bearer token"; "private key"; "credit card"; "ssn"]
  then "user_constraint.security"
  else if existsb (String.eqb base)
            ["decision"; "open_question"; "debug_followup"; "current_task"; "user_constraint"]
  then base +:+ "." +:+ atomTopicSlug value
  else base.

Definition suggestContextTab (text : string) : option string :=
  tag <$> head (inferContextTagSuggestions text).

(** ["message_" + std::to_string(messageId)] *)
Definition message_source (messageId : Z) : string := "message_" +:+ dec_unsigned messageId.

(** The closure [add] of [extractContextAtoms]. *)
Definition new_atom (statement : AppendMemoryStmt) (key : string) (extracted : ExtractedValue)
    (type_ rule confidence : string) : list ContextAtomMeta :=
  if ev_value extracted =? "" then []
  else [mkAtom (specificAtomKey key (ev_value extracted)) (ev_value extracted) type_ "active"
          (message_source (am_messageId statement)) "" (normalizedTab (am_tab statement))
          "ContextAtom" "v1" [] [] rule confidence
          (ev_sourceStart extracted) (ev_sourceEnd extracted) (ev_originalSnippet extracted)].

(** The first marker that is followed by a value. *)
Fixpoint first_marker (text : string) (markers : list string) : option (string * ExtractedValue) :=
  match markers with
  | [] => None
  | marker :: markers =>
      match extractAfterMarker text marker with
      | Some extracted => Some (marker, extracted)
      | None => first_marker text markers
      end
  end.

Definition marked_atoms (statement : AppendMemoryStmt) (key type_ : string)
    (markers : list string) : list ContextAtomMeta :=
  match first_marker (am_text statement) markers with
  | Some (marker, extracted) =>
      new_atom statement key extracted type_ ("marker:" +:+ marker) "0.92"
  | None => []
  end.

Definition constraint_atoms (statement : AppendMemoryStmt) (markers : list string)
    : list ContextAtomMeta :=
  match first_marker (am_text statement) markers with
  | Some (marker, extracted) =>
      new_atom statement "user_constraint"
        (mkExtracted (cleanAtomValue (marker +:+ ev_value extracted))
           (ev_sourceStart extracted) (ev_sourceEnd extracted)
           (cleanAtomValue (marker +:+ ev_originalSnippet extracted)))
        "constraint" ("marker:" +:+ marker) "0.92"
  | None => []
  end.

Definition question_atoms (statement : AppendMemoryStmt) : list ContextAtomMeta :=
  let text := am_text statement in
  if contains text "?" then
    let question := cleanAtomValue text in
    if question =? "" then []
    else new_atom statement "open_question"
           (mkExtracted question 0 (Z.of_nat (String.length text)) text)
           "question" "punctuation:question_mark" "0.75"
  else [].

Definition extractContextAtoms (statement : AppendMemoryStmt) : list ContextAtomMeta :=
  (marked_atoms statement "user_location" "fact"
     ["i live in "; "i moved to "; "moved to "; "i am in "; "i'm in "; "my location is ";
      "i live near "] ++
   marked_atoms statement "user_preference" "preference" ["i prefer "; "i like "] ++
   marked_atoms statement "dog_preference" "preference"
     ["my dog likes "; "my dog loves "; "my dog prefers "] ++
   marked_atoms statement "dog_name" "fact" ["my dog is named "; "my dog's name is "] ++
   match extractAfterMarker (am_text statement) "remember that " with
   | Some extracted =>
       new_atom statement "user_constraint" extracted "constraint" "marker:remember that" "0.92"
   | None => []
   end ++
   constraint_atoms statement ["always "; "never "; "do not "; "don't "] ++
   marked_atoms statement "current_task" "task" ["i need "; "i want "] ++
   marked_atoms statement "debug_followup" "debug"
     ["todo: "; "todo "; "debug this later: "; "investigate "; "look into "] ++
   marked_atoms statement "decision" "decision" ["we decided "; "decision: "; "final call: "] ++
   question_atoms statement)%list.

(** ** Lemmas *)

#[local] Close Scope string_scope.

Lemma stable_insert_permutation {A} (before : A → A → bool) x l :
  stable_insert before x l ≡ₚ x :: l.
Proof.
  induction l as [|y l IH]; [done|]. simpl. destruct (before y x); [|done].
  rewrite IH. apply Permutation_swap.
Qed.

Lemma stable_sort_permutation {A} (before : A → A → bool) l : stable_sort before l ≡ₚ l.
Proof.
  induction l as [|x l IH]; [done|]. simpl. by rewrite stable_insert_permutation, IH.
Qed.

(** [std::stable_sort] sorts by a strict weak order. *)
Lemma stable_sort_sorted {A} (before : A → A → bool) l :
  (∀ x y, before y x = true → before x y = false) →
  (∀ x y z, before y x = false → before z y = false → before z x = false) →
  StronglySorted (λ x y, before y x = false) (stable_sort before l).
Proof.
  intros Hasym Htrans. induction l as [|x l IH]; [constructor|].
  change (stable_sort before (x :: l)) with (stable_insert before x (stable_sort before l)).
  revert IH. generalize (stable_sort before l). intros l0 IH.
  induction IH as [|y l' Hl IHl Hy]; [by repeat constructor|]. cbn.
  destruct (before y x) eqn:Hyx.
  - constructor; [done|]. apply Forall_forall. intros z Hz.
    rewrite stable_insert_permutation in Hz. apply elem_of_cons in Hz as [->|Hz]; [by apply Hasym|].
    by apply (proj1 (Forall_forall _ _) Hy).
  - constructor; [by constructor|]. constructor; [done|].
    eapply Forall_impl; [exact Hy|]. intros z Hz. by eapply Htrans.
Qed.

Lemma addUnique_elem values value v :
  v ∈ addUnique values value ↔ v ∈ values ∨ (v = value ∧ value ≠ "").
Proof.
  unfold addUnique. destruct (String.eqb_spec value ""); [naive_solver|].
  destruct (existsb _ _) eqn:E.
  - apply existsb_exists in E as (w & Hw & ->%String.eqb_eq).
    apply list_elem_of_In in Hw. naive_solver.
  - rewrite elem_of_app, list_elem_of_singleton. naive_solver.
Qed.

Lemma suggestions_nonempty text : inferContextTagSuggestions text ≠ [].
Proof.
  unfold inferContextTagSuggestions. intros H.
  destruct (matched_suggestions _) as [|s l].
  - discriminate H.
  - pose proof (stable_sort_permutation (λ l r, (score r <? score l)%Z) (s :: l)) as Hp.
    rewrite H in Hp. by apply Permutation_nil_cons in Hp.
Qed.

(** What every extracted fact starts with. *)
Definition fresh_atom (statement : AppendMemoryStmt) (a : ContextAtomMeta) : Prop :=
  ca_value a ≠ ""%string ∧ ca_status a = "active"%string ∧ ca_invalidatedBy a = ""%string ∧
  ca_source a = message_source (am_messageId statement) ∧
  ca_tab a = normalizedTab (am_tab statement).

Lemma new_atom_fresh statement key extracted type_ rule confidence :
  Forall (fresh_atom statement) (new_atom statement key extracted type_ rule confidence).
Proof.
  unfold new_atom. destruct (String.eqb_spec (ev_value extracted) ""); [by constructor|].
  by repeat constructor.
Qed.

Lemma marked_atoms_fresh statement key type_ markers :
  Forall (fresh_atom statement) (marked_atoms statement key type_ markers).
Proof.
  unfold marked_atoms. destruct (first_marker _ _) as [[marker extracted]|]; [|by constructor].
  apply new_atom_fresh.
Qed.

Lemma extractContextAtoms_fresh statement :
  Forall (fresh_atom statement) (extractContextAtoms statement).
Proof.
  unfold extractContextAtoms, constraint_atoms, question_atoms.
  rewrite !Forall_app. split_and!; try apply marked_atoms_fresh;
    repeat case_match; first [apply new_atom_fresh | by constructor].
Qed.
