(* ===== verification/Context.v ===== *)
(** Conversation contexts ([src/native_prompt.cpp]): the statements that create a
    context, append to it, retag, alias and merge its tabs, and the views of it
    that are kept in a cache.  The part of [NativeEngine] they use is the catalog
    and the cache; writing the catalog file and the counters are not modelled.
    [std::size_t] counts of list elements are [nat]; sums of token costs are 64
    bits wide. *)

From S2P Require Import Prelude.
From S2P Require Import Format.
From S2P Require Import Value.
From S2P Require Import Ast.
From S2P Require Import Catalog.
From S2P Require Import CatalogJson.
From S2P Require Import Snapshot.
From S2P Require Import Prompt.

#[local] Open Scope string_scope.

(** ** Updates of one member *)

Definition retab_message (m : ContextMessageMeta) (tab : string) (tags reasons : list string)
    : ContextMessageMeta :=
  mkMessage (ms_id m) (ms_speaker m) (ms_text m) tab (ms_schemaName m) (ms_schemaVersion m)
    (ms_storageRoute m) (ms_accessLabels m) (ms_mentionedEntities m) tags reasons.

Definition retab_atom (a : ContextAtomMeta) (tab : string) (tags : list string) : ContextAtomMeta :=
  mkAtom (ca_key a) (ca_value a) (ca_type a) (ca_status a) (ca_source a) (ca_invalidatedBy a) tab
    (ca_schemaName a) (ca_schemaVersion a) (ca_accessLabels a) tags (ca_extractorRule a)
    (ca_extractorConfidence a) (ca_sourceStart a) (ca_sourceEnd a) (ca_originalSnippet a).

Definition set_status (a : ContextAtomMeta) (status invalidatedBy : string) : ContextAtomMeta :=
  mkAtom (ca_key a) (ca_value a) (ca_type a) status (ca_source a) invalidatedBy (ca_tab a)
    (ca_schemaName a) (ca_schemaVersion a) (ca_accessLabels a) (ca_tags a) (ca_extractorRule a)
    (ca_extractorConfidence a) (ca_sourceStart a) (ca_sourceEnd a) (ca_originalSnippet a).

(** [storedAtom] of [executeAppendMemory]. *)
Definition label_atom (a : ContextAtomMeta) (labels tags : list string) : ContextAtomMeta :=
  mkAtom (ca_key a) (ca_value a) (ca_type a) (ca_status a) (ca_source a) (ca_invalidatedBy a)
    (ca_tab a) "ContextAtom" "v1" labels tags (ca_extractorRule a)
    (ca_extractorConfidence a) (ca_sourceStart a) (ca_sourceEnd a) (ca_originalSnippet a).

(** ** Tabs and their aliases *)

Fixpoint aliased (aliases : list ContextTabAliasMeta) (current : string) : option string :=
  match aliases with
  | [] => None
  | alias :: aliases =>
      if normalizedTab (ta_alias alias) =? current then Some (normalizedTab (ta_target alias))
      else aliased aliases current
  end.

Fixpoint resolve_hops (hops : nat) (aliases : list ContextTabAliasMeta) (seen : list string)
    (current : string) : string :=
  match hops with
  | O => current
  | S hops =>
      if existsb (String.eqb current) seen then current
      else match aliased aliases current with
           | Some target => resolve_hops hops aliases (current :: seen) target
           | None => current
           end
  end.

Definition resolveContextTab (context : ConversationContextMeta) (tab : string) : string :=
  resolve_hops 32 (cx_tabAliases context) [] (normalizedTab tab).

Definition contextMatchesTab (context : ConversationContextMeta) (primaryTab : string)
    (tags : list string) (tabFilter : string) : bool :=
  (tabFilter =? "") || (resolveContextTab context primaryTab =? tabFilter) ||
  existsb (λ t, resolveContextTab context t =? tabFilter) tags.

Fixpoint put_alias (aliases : list ContextTabAliasMeta) (alias target : string)
    : list ContextTabAliasMeta :=
  match aliases with
  | [] => [mkTabAlias alias target]
  | existing :: aliases =>
      if normalizedTab (ta_alias existing) =? alias then mkTabAlias alias target :: aliases
      else existing :: put_alias aliases alias target
  end.

Definition setContextTabAlias (context : ConversationContextMeta) (aliasValue targetValue : string)
    : ConversationContextMeta :=
  mkContext (cx_name context) (cx_messages context) (cx_atoms context)
    (put_alias (cx_tabAliases context) (normalizedTab aliasValue)
       (resolveContextTab context targetValue)).

Definition contextAliasesForTab (context : ConversationContextMeta) (tab : string) : list string :=
  sorted_unique
    (map (λ alias, normalizedTab (ta_alias alias))
       (filter (λ alias, resolveContextTab context (ta_alias alias) = normalizedTab tab)
          (cx_tabAliases context))).

(** ** Active and invalidated facts *)

(** [newer] invalidates [older] when it states another value for the same key
    and tab. *)
Definition contradicts (newer older : ContextAtomMeta) : bool :=
  (ca_status older =? "active") && (ca_key older =? ca_key newer) &&
  (ca_tab older =? ca_tab newer) && negb (ca_value older =? ca_value newer).

Definition supersede (newer older : ContextAtomMeta) : ContextAtomMeta :=
  if contradicts newer older then set_status older "invalidated" (ca_source newer) else older.

Definition reset_atom (a : ContextAtomMeta) : ContextAtomMeta :=
  set_status (retab_atom a (normalizedTab (ca_tab a)) (sorted_unique (normalizedTab <$> ca_tags a)))
    "active" "".

(** The loop over the atoms; the earlier ones come first in [settled]. *)
Fixpoint settle (settled atoms : list ContextAtomMeta) : list ContextAtomMeta :=
  match atoms with
  | [] => settled
  | atom :: atoms => settle ((supersede atom <$> settled) ++ [atom])%list atoms
  end.

Definition set_atoms (context : ConversationContextMeta) (atoms : list ContextAtomMeta)
    : ConversationContextMeta :=
  mkContext (cx_name context) (cx_messages context) atoms (cx_tabAliases context).

Definition recomputeContextAtomStatus (context : ConversationContextMeta)
    : ConversationContextMeta :=
  set_atoms context (settle [] (reset_atom <$> cx_atoms context)).

(** ** State *)

Record prompt : Type := mkPrompt {
  pr_catalog : Catalog;
  contextResultCache_ : gmap string Report;
}.

(** [catalog_.addContext(context); saveCatalog(); contextResultCache_.clear();] *)
Definition store_context (context : ConversationContextMeta) : action prompt () :=
  modify (λ p, mkPrompt (addContext (pr_catalog p) context) ∅).

Definition known_context (c : Catalog) (name : string) : exec ConversationContextMeta :=
  match getContext c name with
  | Some context => Ok context
  | None => Err (Throw ("Unknown context: " +:+ name))
  end.

Definition nat_text (n : nat) : string := dec_unsigned (Z.of_nat n).

Definition field_report (rows : list (string * string)) (message : string) : Report :=
  mkReport ["field"; "value"] (map (λ r, key_value r.1 r.2) rows) message.

(** ** Statements that change a context *)

Definition executeCreateContext (s : CreateContextStmt) : action prompt Report :=
  c ← gets pr_catalog;
  if hasContext c (cc_name s) then raise (Throw ("Context already exists: " +:+ cc_name s))
  else
    _ ← store_context (mkContext (cc_name s) [] [] []);
    mret (field_report [("context", cc_name s); ("messages", "0"); ("atoms", "0")]
            ("manifested context " +:+ cc_name s)).

Definition storage_route : string :=
  "structured=catalog.contexts.messages; vector=ConversationMessage.content; blob=none".

(** The message that is appended. *)
Definition new_message (context : ConversationContextMeta) (s : AppendMemoryStmt)
    (suggestions : list TagSuggestion) (suggestedTab : string) : ContextMessageMeta :=
  let tab := resolveContextTab context (if am_autoTab s then suggestedTab else am_tab s) in
  let tags := addUnique (tagsFromSuggestions suggestions) tab in
  let reasons := reasonsFromSuggestions suggestions in
  mkMessage (am_messageId s) (am_speaker s) (am_text s) tab "ConversationMessage" "v1"
    storage_route (inferAccessLabels (am_text s)) (inferMentionedEntities (am_text s))
    (sorted_unique (resolveContextTab context <$> tags))
    (if negb (am_autoTab s) && negb (am_tab s =? "")
     then addUnique reasons (tab +:+ ":100:explicit vibe-tab") else reasons).

(** The new atoms enter one by one; the count is that of the atoms they
    invalidate. *)
Fixpoint store_atoms (labels tags : list string) (atoms stored : list ContextAtomMeta)
    (invalidated : nat) : list ContextAtomMeta * nat :=
  match atoms with
  | [] => (stored, invalidated)
  | atom :: atoms =>
      store_atoms labels tags atoms
        ((supersede atom <$> stored) ++ [label_atom atom labels tags])%list
        (invalidated + length (List.filter (contradicts atom) stored))
  end.

Definition with_tab (s : AppendMemoryStmt) (tab : string) : AppendMemoryStmt :=
  mkAppendMemory (am_context s) (am_messageId s) (am_speaker s) (am_text s) tab (am_autoTab s)
    (am_loc s).

Definition bool_text (b : bool) : string := if b then "true" else "false".

Definition append_report (s : AppendMemoryStmt) (message : ContextMessageMeta)
    (suggestion : TagSuggestion) (atoms : list ContextAtomMeta) (invalidated : nat) : Report :=
  let schema := ms_schemaName message +:+ "." +:+ ms_schemaVersion message in
  field_report
    ([("context", am_context s);
      ("message", message_source (am_messageId s));
      ("speaker", am_speaker s);
      ("tab", ms_tab message);
      ("suggested_tab", tag suggestion);
      ("suggested_tab_reason", suggestionSummary suggestion);
      ("auto_tab", bool_text (am_autoTab s));
      ("tags", joinStrings (ms_tags message) ",");
      ("tag_reasons", joinStrings (ms_tagReasons message) " | ");
      ("message_schema", schema);
      ("access_labels", joinStrings (ms_accessLabels message) ",");
      ("mentioned_entities", joinStrings (ms_mentionedEntities message) ",");
      ("storage_route", ms_storageRoute message);
      ("dcf_object", message_source (am_messageId s) +:+ " -> " +:+ schema);
      ("extracted_atoms", nat_text (length atoms));
      ("invalidated_atoms", nat_text invalidated)] ++
     concat (map (λ a,
       [("atom", ca_key a +:+ "=" +:+ ca_value a +:+ " @" +:+ ca_source a);
        ("atom_provenance",
          ca_key a +:+ " rule=" +:+ ca_extractorRule a +:+ " confidence=" +:+
          ca_extractorConfidence a +:+ " span=" +:+ dec_unsigned (ca_sourceStart a) +:+ ":" +:+
          dec_unsigned (ca_sourceEnd a))]) atoms))%list
    ("yeeted memory into " +:+ am_context s).

Definition executeAppendMemory (s : AppendMemoryStmt) : action prompt Report :=
  c ← gets pr_catalog;
  context ← lift (known_context c (am_context s));
  if existsb (λ m, (ms_id m =? am_messageId s)%Z) (cx_messages context) then
    raise (Throw ("Duplicate context message id: " +:+ dec_unsigned (am_messageId s)))
  else
    let suggestions := inferContextTagSuggestions (am_text s) in
    match suggestions with
    | [] => raise (Undefined "front of an empty vector")
    | suggestion :: _ =>
        let message := new_message context s suggestions (tag suggestion) in
        let atoms := extractContextAtoms (with_tab s (ms_tab message)) in
        let '(stored, invalidated) :=
          store_atoms (ms_accessLabels message) (ms_tags message) atoms (cx_atoms context) 0 in
        _ ← store_context (mkContext (cx_name context) (cx_messages context ++ [message])%list
                             stored (cx_tabAliases context));
        mret (append_report s message suggestion atoms invalidated)
    end.

(** The first message with this identifier moves to [tab]. *)
Fixpoint retag_message (context : ConversationContextMeta) (id : Z) (tab : string)
    (messages : list ContextMessageMeta) : option (list ContextMessageMeta) :=
  match messages with
  | [] => None
  | m :: messages =>
      if (ms_id m =? id)%Z then
        let previousTab := resolveContextTab context (ms_tab m) in
        Some (retab_message m tab
                (addUnique (removeValue (ms_tags m) previousTab) tab)
                (addUnique (ms_tagReasons m) (tab +:+ ":100:manual retag")) :: messages)
      else cons m <$> retag_message context id tab messages
  end.

Definition retag_atom (context : ConversationContextMeta) (source tab : string)
    (a : ContextAtomMeta) : ContextAtomMeta :=
  if ca_source a =? source then
    retab_atom a tab (addUnique (removeValue (ca_tags a) (resolveContextTab context (ca_tab a))) tab)
  else a.

Definition executeTagMemory (s : TagMemoryStmt) : action prompt Report :=
  c ← gets pr_catalog;
  context ← lift (known_context c (tm_context s));
  let source := message_source (tm_messageId s) in
  let tab := resolveContextTab context (tm_tab s) in
  match retag_message context (tm_messageId s) tab (cx_messages context) with
  | None => raise (Throw ("Unknown context message id: " +:+ dec_unsigned (tm_messageId s)))
  | Some messages =>
      let retagged := length (filter (λ a, ca_source a = source) (cx_atoms context)) in
      _ ← store_context (recomputeContextAtomStatus
            (mkContext (cx_name context) messages
               (retag_atom context source tab <$> cx_atoms context) (cx_tabAliases context)));
      mret (field_report
              [("context", tm_context s); ("message", source); ("tab", tab);
               ("retagged_atoms", nat_text retagged)]
              ("vibe-tabbed memory in " +:+ tm_context s))
  end.

Definition executeAliasTab (s : AliasTabStmt) : action prompt Report :=
  c ← gets pr_catalog;
  context ← lift (known_context c (at_context s));
  let alias := normalizedTab (at_alias s) in
  let target := resolveContextTab context (at_target s) in
  _ ← store_context (setContextTabAlias context alias target);
  mret (field_report [("context", at_context s); ("alias", alias); ("target", target)]
          ("aliased tab in " +:+ at_context s)).

Definition move_tab (context : ConversationContextMeta) (source target tab : string) : string :=
  if resolveContextTab context tab =? source then target else tab.

Definition move_message (context : ConversationContextMeta) (source target : string)
    (m : ContextMessageMeta) : ContextMessageMeta :=
  retab_message m (move_tab context source target (ms_tab m))
    (sorted_unique (move_tab context source target <$> ms_tags m)) (ms_tagReasons m).

Definition move_atom (context : ConversationContextMeta) (source target : string)
    (a : ContextAtomMeta) : ContextAtomMeta :=
  retab_atom a (move_tab context source target (ca_tab a))
    (sorted_unique (move_tab context source target <$> ca_tags a)).

(** The loop over the aliases: each is resolved with the ones before it already
    moved. *)
Fixpoint move_aliases (context : ConversationContextMeta) (source target : string)
    (moved aliases : list ContextTabAliasMeta) : list ContextTabAliasMeta :=
  match aliases with
  | [] => moved
  | alias :: aliases =>
      let now := mkContext (cx_name context) (cx_messages context) (cx_atoms context)
                   (moved ++ alias :: aliases)%list in
      move_aliases context source target
        (moved ++ [if resolveContextTab now (ta_target alias) =? source
                   then mkTabAlias (ta_alias alias) target else alias])%list aliases
  end.

Definition merge_tabs (context : ConversationContextMeta) (source target : string)
    : ConversationContextMeta :=
  recomputeContextAtomStatus
    (setContextTabAlias
       (mkContext (cx_name context) (move_message context source target <$> cx_messages context)
          (move_atom context source target <$> cx_atoms context)
          (move_aliases context source target [] (cx_tabAliases context)))
       source target).

Definition executeMergeTabs (s : MergeTabsStmt) : action prompt Report :=
  c ← gets pr_catalog;
  context ← lift (known_context c (mt_context s));
  let source := resolveContextTab context (mt_fromTab s) in
  let target := resolveContextTab context (mt_toTab s) in
  let same := source =? target in
  let moved {A} (tab : A → string) (l : list A) :=
    if same then O else length (filter (λ x, resolveContextTab context (tab x) = source) l) in
  _ ← store_context (if same then context else merge_tabs context source target);
  mret (field_report
          [("context", mt_context s); ("from_tab", source); ("to_tab", target);
           ("moved_messages", nat_text (moved ms_tab (cx_messages context)));
           ("moved_atoms", nat_text (moved ca_tab (cx_atoms context)))]
          ("merged tabs in " +:+ mt_context s)).

(** ** Views *)

Definition contextCacheKey (revision : Z) (parts : list string) : string :=
  fold_left (λ key part, key +:+ String (ascii_of_nat 31) part) parts (dec_unsigned revision).

(** A view is looked up in the cache, computed when it is not there, and then
    kept. *)
Definition cached_view (parts : list string) (view : Catalog → exec Report) : action prompt Report :=
  c ← gets pr_catalog;
  cache ← gets contextResultCache_;
  let key := contextCacheKey (revision_ c) parts in
  match cache !! key with
  | Some result => mret result
  | None =>
      result ← lift (view c);
      _ ← modify (λ p, mkPrompt (pr_catalog p) (<[key := result]> (contextResultCache_ p)));
      mret result
  end.
