(* ===== verification/Views.v ===== *)
(** The views of a conversation context ([src/native_prompt.cpp]): its tabs, its
    objects, the schema registry, and the rendering of its facts within a token
    budget ([executeSpillContext]) with its plan ([executeExplainContext]).
    Confidential texts are redacted.  [std::map] is walked in the order of its
    keys; the sums of token costs are 64 bits wide. *)

From S2P Require Import Prelude.
From S2P Require Import Format.
From S2P Require Import Value.
From S2P Require Import Tuple.
From S2P Require Import Ast.
From S2P Require Import Catalog.
From S2P Require Import CatalogJson.
From S2P Require Import Snapshot.
From S2P Require Import Prompt.
From S2P Require Import Context.

#[local] Open Scope string_scope.

(** ** Redaction and rendering *)

Definition shouldRedact (labels : list string) : bool :=
  existsb (String.eqb "CONFIDENTIAL_CUSTOMER_DATA") labels.

Definition redactIfNeeded (value : string) (labels : list string) : string :=
  if shouldRedact labels then "[redacted:CONFIDENTIAL_CUSTOMER_DATA]" else value.

Definition unless_empty (s : string) (text : string) : string := if s =? "" then "" else text.

Definition joined_unless_empty (prefix : string) (l : list string) : string :=
  match l with [] => "" | _ :: _ => prefix +:+ joinStrings l "," end.

Definition receipts_text (a : ContextAtomMeta) : string :=
  " @" +:+ ca_source a +:+
  unless_empty (ca_schemaName a)
    (" schema=" +:+ ca_schemaName a +:+ "." +:+ ca_schemaVersion a) +:+
  joined_unless_empty " labels=" (ca_accessLabels a) +:+
  joined_unless_empty " tags=" (ca_tags a) +:+
  unless_empty (ca_extractorRule a) (" rule=" +:+ ca_extractorRule a) +:+
  unless_empty (ca_extractorConfidence a) (" confidence=" +:+ ca_extractorConfidence a) +:+
  (if (ca_sourceStart a <? ca_sourceEnd a)%Z then
     " span=" +:+ dec_unsigned (ca_sourceStart a) +:+ ":" +:+ dec_unsigned (ca_sourceEnd a)
   else "").

Definition renderContextAtom (a : ContextAtomMeta) (receipts : bool) : string :=
  ca_type a +:+ " " +:+ ca_key a +:+ "=" +:+ redactIfNeeded (ca_value a) (ca_accessLabels a) +:+
  (if receipts then receipts_text a else "").

Definition estimateContextTokens (text : string) : Z :=
  Z.max 1 ((Z.of_nat (String.length text) + 3) / 4).

Definition separator : string := String (ascii_of_nat 31) "".

Definition contextAtomDiversityKey (a : ContextAtomMeta) : string :=
  ca_type a +:+ separator +:+ ca_key a +:+ separator +:+ lowerText (ca_value a).

(** ** Utility *)

Definition when (b : bool) (points : Z) : Z := if b then points else 0%Z.

Definition contextAtomUtilityLower (a : ContextAtomMeta) (lowerQuery : string) : Z :=
  let value := lowerText (ca_value a) in
  let typed := String.eqb (ca_type a) in
  let asked := containsAny lowerQuery in
  let located := ca_key a =? "user_location" in
  (10 +
   when (contains lowerQuery value && negb (String.eqb value "")) 40 +
   queryValueOverlapScore value lowerQuery +
   when (located &&
         asked ["near me"; "nearby"; "restaurant"; "weather"; "location"; "near "]) 100 +
   when (typed "constraint") 80 +
   when (typed "preference" && asked ["recommend"; "choose"; "prefer"]) 60 +
   when (typed "preference" &&
         asked ["restaurant"; "cafe"; "food"; "dinner"; "lunch"] &&
         containsAny value ["restaurant"; "cafe"; "food"; "quiet"; "coffee"]) 90 +
   when (typed "task") 50 +
   when (typed "decision") 70 +
   when (typed "question" && asked ["question"; "open"; "?"]) 70 +
   when (typed "debug" && asked ["debug"; "todo"; "investigate"]) 70)%Z.

(** ** [show-tabs] *)

Record TabStats : Type := mkTabStats {
  tb_messages : nat;
  tb_atoms : nat;
  tb_activeAtoms : nat;
  tb_invalidatedAtoms : nat;
  tb_lastMessage : Z;
  tb_accessLabels : list string;
  tb_tags : list string;
  tb_tagReasons : list string;
}.

Definition no_stats : TabStats := mkTabStats 0 0 0 0 0 [] [] [].

Definition addAll (values new : list string) : list string := fold_left addUnique new values.

(** [auto& entry = stats[tab]] followed by a change of the entry. *)
Definition at_tab (tab : string) (f : TabStats → TabStats) (stats : gmap string TabStats)
    : gmap string TabStats :=
  <[tab := f (default no_stats (stats !! tab))]> stats.

Definition count_message (context : ConversationContextMeta) (stats : gmap string TabStats)
    (m : ContextMessageMeta) : gmap string TabStats :=
  at_tab (resolveContextTab context (ms_tab m)) (λ e,
    mkTabStats (S (tb_messages e)) (tb_atoms e) (tb_activeAtoms e) (tb_invalidatedAtoms e)
      (Z.max (tb_lastMessage e) (ms_id m))
      (addAll (tb_accessLabels e) (ms_accessLabels m))
      (addAll (tb_tags e) (resolveContextTab context <$> ms_tags m))
      (addAll (tb_tagReasons e) (ms_tagReasons m))) stats.

Definition count_atom (context : ConversationContextMeta) (stats : gmap string TabStats)
    (a : ContextAtomMeta) : gmap string TabStats :=
  at_tab (resolveContextTab context (ca_tab a)) (λ e,
    let active := ca_status a =? "active" in
    mkTabStats (tb_messages e) (S (tb_atoms e))
      (if active then S (tb_activeAtoms e) else tb_activeAtoms e)
      (if negb active && (ca_status a =? "invalidated") then S (tb_invalidatedAtoms e)
       else tb_invalidatedAtoms e)
      (tb_lastMessage e)
      (addAll (tb_accessLabels e) (ca_accessLabels a))
      (addAll (tb_tags e) (resolveContextTab context <$> ca_tags a))
      (tb_tagReasons e)) stats.

Definition tab_stats (context : ConversationContextMeta) : gmap string TabStats :=
  let stats := fold_left (count_message context) (cx_messages context) ∅ in
  let stats := fold_left (count_atom context) (cx_atoms context) stats in
  let stats := fold_left (λ stats alias,
    at_tab (resolveContextTab context (ta_target alias)) (λ e, e) stats)
    (cx_tabAliases context) stats in
  if decide (stats = ∅) then {["main" := no_stats]} else stats.

Definition text_row (cells : list string) : Tuple := VText <$> cells.

Definition tab_row (context : ConversationContextMeta) (stats : gmap string TabStats)
    (tab : string) : Tuple :=
  let e := default no_stats (stats !! tab) in
  text_row [tab; nat_text (tb_messages e); nat_text (tb_atoms e); nat_text (tb_activeAtoms e);
    nat_text (tb_invalidatedAtoms e);
    if (tb_lastMessage e =? 0)%Z then "" else dec_unsigned (tb_lastMessage e);
    joinStrings (contextAliasesForTab context tab) ",";
    joinStrings (tb_accessLabels e) ","; joinStrings (tb_tags e) ",";
    joinStrings (tb_tagReasons e) " | "].

Definition executeShowTabs (s : ShowTabsStmt) : action prompt Report :=
  c ← gets pr_catalog;
  context ← lift (known_context c (st_context s));
  let stats := tab_stats context in
  mret (mkReport ["tab"; "messages"; "atoms"; "active_atoms"; "invalidated_atoms"; "last_message";
                  "aliases"; "access_labels"; "tags"; "tag_reasons"]
          (tab_row context stats <$> sortedNames stats)
          ("showed tabs for " +:+ cx_name context)).

(** ** The schema registry ([Catalog::contextSchemas] in [src/metadata.cpp]) *)

Record ContextSchemaMeta : Type := mkSchema {
  sm_name : string;
  sm_version : string;
  sm_ownerAgentId : string;
  sm_sensitivityLevel : string;
  sm_retentionPolicy : string;
  sm_storageBackend : string;
  sm_vectorizationStrategy : string;
  sm_vectorizedFields : list string;
  sm_accessLabels : list string;
  sm_indexedFields : list string;
  sm_relatedSchemas : list string;
}.

Definition contextSchemas : list ContextSchemaMeta := [
  mkSchema "ConversationMessage" "v1" "system" "agent-internal" "conversation-lifetime"
    "structured+vector"
    "embed content for semantic filtering; keep metadata structured" ["content"]
    ["AGENT_INTERNAL"]
    ["conversation_id"; "sender_id"; "sender_type"; "timestamp"; "tab"; "mentioned_entities";
     "access_labels"; "schema_name"; "storage_route"]
    ["ContextAtom"; "TaskState"; "ToolInvocationLog"];
  mkSchema "ContextAtom" "v1" "system" "agent-internal" "conversation-lifetime" "structured"
    "not vectorized; derived from source message content" [] ["AGENT_INTERNAL"]
    ["key"; "type"; "status"; "tab"; "source"; "invalidated_by"; "access_labels"; "schema_name"]
    ["ConversationMessage"];
  mkSchema "TaskState" "v1" "system" "agent-internal" "task-lifetime" "structured"
    "description may be embedded when semantic task lookup lands" ["description"]
    ["AGENT_INTERNAL"] ["task_id"; "status"; "assigned_agent_id"; "last_update_timestamp"]
    ["ConversationMessage"; "ToolInvocationLog"];
  mkSchema "ToolInvocationLog" "v1" "system" "agent-internal" "audit-lifetime" "structured+blob"
    "large tool payloads stay as blob refs; summaries can be embedded" ["summary"]
    ["AGENT_INTERNAL"; "TOOL_TRACE"]
    ["tool_id"; "conversation_id"; "message_id"; "status"; "timestamp"]
    ["ConversationMessage"; "TaskState"];
  mkSchema "UserProfile" "v1" "system" "confidential" "user-lifetime" "structured"
    "selected preference text can be embedded after policy check" ["preferences"]
    ["CONFIDENTIAL_CUSTOMER_DATA"] ["user_id"; "tenant_id"; "access_labels"]
    ["ConversationMessage"]].

Definition schema_row (s : ContextSchemaMeta) : Tuple :=
  text_row [sm_name s; sm_version s; sm_ownerAgentId s; sm_sensitivityLevel s; sm_retentionPolicy s;
    sm_storageBackend s; joinStrings (sm_vectorizedFields s) ",";
    joinStrings (sm_accessLabels s) ","; joinStrings (sm_indexedFields s) ",";
    joinStrings (sm_relatedSchemas s) ","].

Definition schemas_view (c : Catalog) : exec Report :=
  Ok (mkReport ["schema"; "version"; "owner_agent"; "sensitivity"; "retention"; "storage";
                "vectorized_fields"; "access_labels"; "indexed_fields"; "related_schemas"]
        (schema_row <$> contextSchemas) "showed CSR schema registry fr fr").

Definition executeShowContextSchemas : action prompt Report :=
  cached_view ["schemas"] schemas_view.

(** ** [show-context-objects] *)

Definition fallbackLabels (labels : list string) : list string :=
  match labels with [] => ["AGENT_INTERNAL"] | _ :: _ => labels end.

Definition or_default (s default : string) : string := if s =? "" then default else s.

Definition message_object (context : ConversationContextMeta) (m : ContextMessageMeta) : Tuple :=
  let labels := fallbackLabels (ms_accessLabels m) in
  text_row [message_source (ms_id m);
    or_default (ms_schemaName m) "ConversationMessage";
    or_default (ms_schemaVersion m) "v1";
    resolveContextTab context (ms_tab m);
    "active";
    joinStrings labels ",";
    or_default (ms_storageRoute m) storage_route;
    "";
    redactIfNeeded (ms_text m) labels;
    joinStrings (ms_tags m) ",";
    "message";
    "1.00";
    "0:" +:+ nat_text (String.length (ms_text m));
    redactIfNeeded (ms_text m) labels].

Definition atom_object (context : ConversationContextMeta) (index : nat) (a : ContextAtomMeta)
    : Tuple :=
  let labels := fallbackLabels (ca_accessLabels a) in
  text_row ["atom_" +:+ nat_text (S index);
    or_default (ca_schemaName a) "ContextAtom";
    or_default (ca_schemaVersion a) "v1";
    resolveContextTab context (ca_tab a);
    or_default (ca_status a) "active";
    joinStrings labels ",";
    "structured=catalog.contexts.atoms";
    ca_source a;
    ca_type a +:+ " " +:+ ca_key a +:+ "=" +:+ redactIfNeeded (ca_value a) labels;
    joinStrings (ca_tags a) ",";
    ca_extractorRule a;
    ca_extractorConfidence a;
    dec_unsigned (ca_sourceStart a) +:+ ":" +:+ dec_unsigned (ca_sourceEnd a);
    redactIfNeeded (or_default (ca_originalSnippet a) (ca_value a)) labels].

Definition objects_report (context : ConversationContextMeta) : Report :=
  let redacted labels := shouldRedact (fallbackLabels labels) in
  let count :=
    (length (List.filter redacted (ms_accessLabels <$> cx_messages context)) +
     length (List.filter redacted (ca_accessLabels <$> cx_atoms context)))%nat in
  mkReport ["object_id"; "schema"; "version"; "tab"; "status"; "access_labels"; "storage_route";
            "source"; "value"; "tags"; "extractor_rule"; "extractor_confidence"; "source_span";
            "original_snippet"]
    ((message_object context <$> cx_messages context) ++
     imap (atom_object context) (cx_atoms context))%list
    ("showed context objects for " +:+ cx_name context +:+ " (redacted " +:+ nat_text count +:+ ")").

Definition objects_view (s : ShowContextObjectsStmt) (c : Catalog) : exec Report :=
  let* context := known_context c (so_context s) in Ok (objects_report context).

Definition objects_parts (s : ShowContextObjectsStmt) : list string := ["objects"; so_context s].

Definition executeShowContextObjects (s : ShowContextObjectsStmt) : action prompt Report :=
  cached_view (objects_parts s) (objects_view s).

(** ** Spilling a context within a budget

    [executeExplainContext] and [executeSpillContext] scan the context with the
    same loops; each keeps the members it reports. *)

Record RankedAtom : Type := mkRanked {
  ra_atom : ContextAtomMeta;
  ra_utility : Z;
  ra_ordinal : nat;
}.

Record Scan : Type := mkScan {
  scannedMessages : nat;
  prunedTabMessages : nat;
  scannedAtoms : nat;
  prunedTabAtoms : nat;
  prunedInvalidatedAtoms : nat;
  allActiveTokenCost : Z;
  accessLabels : list string;
  mentionedEntities : list string;
  activeAtoms : list RankedAtom;
  invalidatedAtoms : list ContextAtomMeta;
  activeByDiversityKey : gmap string nat;
}.

Definition empty_scan : Scan := mkScan 0 0 0 0 0 0 [] [] [] [] ∅.

Definition scan_message (context : ConversationContextMeta) (tabFilter : string) (v : Scan)
    (m : ContextMessageMeta) : Scan :=
  if contextMatchesTab context (ms_tab m) (ms_tags m) tabFilter then
    mkScan (S (scannedMessages v)) (prunedTabMessages v) (scannedAtoms v) (prunedTabAtoms v)
      (prunedInvalidatedAtoms v) (allActiveTokenCost v)
      (addAll (accessLabels v) (ms_accessLabels m))
      (addAll (mentionedEntities v) (ms_mentionedEntities m))
      (activeAtoms v) (invalidatedAtoms v) (activeByDiversityKey v)
  else
    mkScan (scannedMessages v) (S (prunedTabMessages v)) (scannedAtoms v) (prunedTabAtoms v)
      (prunedInvalidatedAtoms v) (allActiveTokenCost v) (accessLabels v) (mentionedEntities v)
      (activeAtoms v) (invalidatedAtoms v) (activeByDiversityKey v).

Definition atom_cost (receipts : bool) (a : ContextAtomMeta) : Z :=
  estimateContextTokens (renderContextAtom a receipts).

Definition outranks (candidate current : RankedAtom) : bool :=
  (ra_utility current <? ra_utility candidate)%Z ||
  ((ra_utility candidate =? ra_utility current)%Z &&
   (ra_ordinal current <? ra_ordinal candidate)%nat).

(** A candidate becomes active, or replaces the active atom with the same
    diversity key when it outranks it. *)
Definition rank_atom (receipts : bool) (candidate : RankedAtom) (v : Scan)
    : list RankedAtom * gmap string nat * Z :=
  let key := contextAtomDiversityKey (ra_atom candidate) in
  let cost := atom_cost receipts (ra_atom candidate) in
  let unchanged := (activeAtoms v, activeByDiversityKey v, allActiveTokenCost v) in
  match activeByDiversityKey v !! key with
  | None =>
      ((activeAtoms v ++ [candidate])%list,
       <[key := length (activeAtoms v)]> (activeByDiversityKey v),
       wrap64 (allActiveTokenCost v + cost))
  | Some position =>
      match activeAtoms v !! position with
      | None => unchanged
      | Some current =>
          if outranks candidate current then
            (<[position := candidate]> (activeAtoms v), activeByDiversityKey v,
             wrap64 (wrap64 (allActiveTokenCost v - atom_cost receipts (ra_atom current)) + cost))
          else unchanged
      end
  end.

Definition scan_atom (context : ConversationContextMeta) (tabFilter lowerQuery : string)
    (receipts : bool) (index : nat) (v : Scan) (a : ContextAtomMeta) : Scan :=
  if contextMatchesTab context (ca_tab a) (ca_tags a) tabFilter then
    let labels := addAll (accessLabels v) (ca_accessLabels a) in
    if ca_status a =? "active" then
      let '(active, byKey, cost) :=
        rank_atom receipts (mkRanked a (contextAtomUtilityLower a lowerQuery) index) v in
      mkScan (scannedMessages v) (prunedTabMessages v) (S (scannedAtoms v)) (prunedTabAtoms v)
        (prunedInvalidatedAtoms v) cost labels (mentionedEntities v) active (invalidatedAtoms v)
        byKey
    else
      mkScan (scannedMessages v) (prunedTabMessages v) (S (scannedAtoms v)) (prunedTabAtoms v)
        (S (prunedInvalidatedAtoms v)) (allActiveTokenCost v) labels (mentionedEntities v)
        (activeAtoms v)
        (if ca_status a =? "invalidated" then (invalidatedAtoms v ++ [a])%list
         else invalidatedAtoms v)
        (activeByDiversityKey v)
  else
    mkScan (scannedMessages v) (prunedTabMessages v) (scannedAtoms v) (S (prunedTabAtoms v))
      (prunedInvalidatedAtoms v) (allActiveTokenCost v) (accessLabels v) (mentionedEntities v)
      (activeAtoms v) (invalidatedAtoms v) (activeByDiversityKey v).

Fixpoint scan_atoms (context : ConversationContextMeta) (tabFilter lowerQuery : string)
    (receipts : bool) (index : nat) (v : Scan) (atoms : list ContextAtomMeta) : Scan :=
  match atoms with
  | [] => v
  | a :: atoms =>
      scan_atoms context tabFilter lowerQuery receipts (S index)
        (scan_atom context tabFilter lowerQuery receipts index v a) atoms
  end.

Definition tab_filter (context : ConversationContextMeta) (tab : string) : string :=
  if tab =? "" then "" else resolveContextTab context tab.

Definition scan_context (context : ConversationContextMeta) (s : SpillContextStmt) : Scan :=
  let tabFilter := tab_filter context (sc_tab s) in
  scan_atoms context tabFilter (lowerText (sc_query s)) (sc_receipts s) 0
    (fold_left (scan_message context tabFilter) (cx_messages context) empty_scan)
    (cx_atoms context).

(** The comparison of the two [std::stable_sort]s. *)
Definition ranked_before (l r : RankedAtom) : bool :=
  if negb (ra_utility l =? ra_utility r)%Z then (ra_utility r <? ra_utility l)%Z
  else (ra_ordinal r <? ra_ordinal l)%nat.

Definition ranking (v : Scan) : list RankedAtom := stable_sort ranked_before (activeAtoms v).

(** The atoms that fit into the budget, in the order of their rank, and their
    cost. *)
Fixpoint render_within (receipts : bool) (budget : Z) (rendered : list ContextAtomMeta) (cost : Z)
    (ranked : list RankedAtom) : list ContextAtomMeta * Z :=
  match ranked with
  | [] => (rendered, cost)
  | r :: ranked =>
      let more := atom_cost receipts (ra_atom r) in
      let over :=
        match rendered with
        | [] => (budget <? more)%Z
        | _ :: _ => (budget <? wrap64 (cost + more))%Z
        end in
      if over then render_within receipts budget rendered cost ranked
      else render_within receipts budget (rendered ++ [ra_atom r])%list (wrap64 (cost + more)) ranked
  end.

Definition spilled (v : Scan) (s : SpillContextStmt) : list ContextAtomMeta * Z :=
  render_within (sc_receipts s) (sc_tokenBudget s) [] 0 (ranking v).

Definition policy_text (v : Scan) : string :=
  "schema=agent-internal; labels=" +:+
  match accessLabels v with [] => "AGENT_INTERNAL" | labels => joinStrings labels "," end +:+
  "; redaction=on".

Definition redacted_atoms (rendered : list ContextAtomMeta) : nat :=
  length (List.filter (λ a, shouldRedact (ca_accessLabels a)) rendered).

Definition shown_tab (context : ConversationContextMeta) (s : SpillContextStmt) : string :=
  or_default (tab_filter context (sc_tab s)) "all".

Definition spill_report (context : ConversationContextMeta) (s : SpillContextStmt) : Report :=
  let v := scan_context context s in
  let '(rendered, cost) := spilled v s in
  let texts := map (λ a, renderContextAtom a (sc_receipts s)) rendered in
  field_report
    ([("context", cx_name context);
      ("query", sc_query s);
      ("tab", shown_tab context s);
      ("token_budget", dec_unsigned (sc_tokenBudget s));
      ("token_cost", dec_unsigned cost);
      ("messages", nat_text (length (cx_messages context)));
      ("active_atoms", nat_text (length (activeAtoms v)));
      ("rendered_atoms", nat_text (length rendered));
      ("redacted_atoms", nat_text (redacted_atoms rendered));
      ("schema_registry", "CSR: ConversationMessage.v1 + ContextAtom.v1");
      ("dcf_storage_route",
        "structured=catalog.contexts.messages+atoms; vector=ConversationMessage.content; blob=tool/object refs");
      ("access_policy", policy_text v);
      ("mentioned_entities", joinStrings (mentionedEntities v) ",");
      ("indexed_fields",
        "ContextAtom.key,type,status,tab,tags,source,access_labels; ConversationMessage.tab,tags,mentioned_entities,access_labels");
      ("current_context", joinStrings texts " | ")] ++
     map (λ text, ("view_atom", text)) texts ++
     (if sc_receipts s then
        map (λ a, ("invalidated",
          ca_key a +:+ "=" +:+ redactIfNeeded (ca_value a) (ca_accessLabels a) +:+ " @" +:+
          ca_source a +:+ " invalidated_by=" +:+ ca_invalidatedBy a)) (invalidatedAtoms v)
      else []))%list
    ("spilled context view for " +:+ cx_name context).

(** The parts of the cache key of a view with a query. *)
Definition view_parts (kind : string) (s : SpillContextStmt) : list string :=
  [kind; sc_context s; sc_tab s; sc_query s; dec_unsigned (sc_tokenBudget s);
   if sc_receipts s then "receipts:on" else "receipts:off"].

Definition spill_view (s : SpillContextStmt) (c : Catalog) : exec Report :=
  let* context := known_context c (sc_context s) in Ok (spill_report context s).

Definition executeSpillContext (s : SpillContextStmt) : action prompt Report :=
  cached_view (view_parts "spill" s) (spill_view s).

Definition fraction (part whole : nat) : string := nat_text part +:+ "/" +:+ nat_text whole.

Definition ranked_row (r : RankedAtom) : string * string :=
  let a := ra_atom r in
  ("ranked_atom",
   ca_key a +:+ "=" +:+ redactIfNeeded (ca_value a) (ca_accessLabels a) +:+ " utility=" +:+
   int_text (ra_utility r) +:+ " source=" +:+ ca_source a).

Definition explain_report (context : ConversationContextMeta) (s : SpillContextStmt) : Report :=
  let v := scan_context context s in
  let '(rendered, cost) := spilled v s in
  let saved := if (cost <? allActiveTokenCost v)%Z then (allActiveTokenCost v - cost)%Z else 0%Z in
  field_report
    ([("context", cx_name context);
      ("thesis", "SkibidiQL maintains the prompt as a relational view");
      ("materialized_view", "CURRENT_CONTEXT(context,tab,query,token_budget)");
      ("query", sc_query s);
      ("tab", shown_tab context s);
      ("token_budget", dec_unsigned (sc_tokenBudget s));
      ("plan",
        "Scan messages -> Scan atoms -> Prune tab/status/ACL -> Rank utility+recency -> Budget render -> Emit receipts");
      ("scan_messages", fraction (scannedMessages v) (length (cx_messages context)));
      ("scan_atoms", fraction (scannedAtoms v) (length (cx_atoms context)));
      ("pruned_tab_messages", nat_text (prunedTabMessages v));
      ("pruned_tab_atoms", nat_text (prunedTabAtoms v));
      ("pruned_invalidated_atoms", nat_text (prunedInvalidatedAtoms v));
      ("rank_candidates", nat_text (length (activeAtoms v)));
      ("rendered_if_spilled", nat_text (length rendered));
      ("budget_pruned_atoms", nat_text (length (activeAtoms v) - length rendered));
      ("estimated_token_cost", dec_unsigned cost);
      ("estimated_full_token_cost", dec_unsigned (allActiveTokenCost v));
      ("optimizer_saved_tokens", dec_unsigned saved);
      ("redacted_atoms", nat_text (redacted_atoms rendered));
      ("ranker", "query utility + atom type weights + recency tie-break");
      ("context_indexes", "tab,tags,status,key,type,source,access_labels,mentioned_entities");
      ("provenance_model", "git-blame-for-prompts: source message, schema, labels, invalidated_by");
      ("cache_policy",
        "revision-aware prompt view IR cache; invalidated on context/catalog mutation");
      ("schema_registry", "CSR: ConversationMessage.v1 + ContextAtom.v1");
      ("dcf_storage_route",
        "structured=catalog.contexts.messages+atoms; vector=ConversationMessage.content; blob=tool/object refs");
      ("access_policy", policy_text v);
      ("mentioned_entities", joinStrings (mentionedEntities v) ",")] ++
     (if sc_receipts s then map ranked_row (take 5 (ranking v)) else []))%list
    ("explained context view plan for " +:+ cx_name context).

Definition explain_view (s : SpillContextStmt) (c : Catalog) : exec Report :=
  let* context := known_context c (sc_context s) in Ok (explain_report context s).

Definition executeExplainContext (s : SpillContextStmt) : action prompt Report :=
  cached_view (view_parts "explain" s) (explain_view s).

(** ** The statements about contexts ([NativeEngine::execute]) *)

Inductive prompt_stmt : Type :=
  | CreateContext (s : CreateContextStmt)
  | AppendMemory (s : AppendMemoryStmt)
  | SpillContext (s : SpillContextStmt)
  | ExplainContext (s : SpillContextStmt)
  | TagMemory (s : TagMemoryStmt)
  | ShowTabs (s : ShowTabsStmt)
  | ShowContextSchemas
  | ShowContextObjects (s : ShowContextObjectsStmt)
  | AliasTab (s : AliasTabStmt)
  | MergeTabs (s : MergeTabsStmt).

Definition execute_prompt (s : prompt_stmt) : action prompt Report :=
  match s with
  | CreateContext s => executeCreateContext s
  | AppendMemory s => executeAppendMemory s
  | SpillContext s => executeSpillContext s
  | ExplainContext s => executeExplainContext s
  | TagMemory s => executeTagMemory s
  | ShowTabs s => executeShowTabs s
  | ShowContextSchemas => executeShowContextSchemas
  | ShowContextObjects s => executeShowContextObjects s
  | AliasTab s => executeAliasTab s
  | MergeTabs s => executeMergeTabs s
  end.

(** [reloadCatalog]: a new catalog is read from the file; the cache stays. *)
Definition reloadCatalog (file : option string) : action prompt () :=
  modify (λ p, mkPrompt (load file emptyCatalog) (contextResultCache_ p)).
