(* ===== verification/ContextSpec.v ===== *)
(** What the statements about conversation contexts guarantee
    ([src/native_prompt.cpp], modelled in [Prompt.v], [Context.v] and [Views.v]).

    [contexts_always_consistent]: facts that are active together never
    contradict each other, and an invalidated fact names a message that does.
    [views_are_fresh]: the cache of views is invisible, as long as the catalog is
    not reloaded and no name contains the separator of the cache keys; examples
    show that both conditions are needed.  [spill_fits_budget]: the facts that
    are rendered cost at most the budget and none that was left out would still
    fit.  [confidential_values_stay_hidden]: the objects of a context do not
    depend on confidential texts. *)

From S2P Require Import Prelude.
From S2P Require Import Format.
From S2P Require Import Value.
From S2P Require Import Tuple.
From S2P Require Import Ast.
From S2P Require Import Catalog.
From S2P Require Import CatalogJson.
From S2P Require Import Snapshot.
From S2P Require Import Prompt.
From S2P Require Import Context.
From S2P Require Import Views.

(** ** Running statements *)

(** What happens to an engine: a statement about contexts runs, or another
    statement changes the tables or the dataset snapshots. *)
Inductive event : Type :=
  | Run (s : prompt_stmt)
  | TableAdded (t : TableMeta)
  | TableDropped (name : string)
  | SnapshotAdded (s : DatasetSnapshotMeta)
  | SnapshotDropped (name : string).

Definition with_catalog (p : prompt) (op : catalog_op) : prompt :=
  mkPrompt (catalog_step (pr_catalog p) op) (contextResultCache_ p).

Definition happen (p : prompt) (e : event) : prompt :=
  match e with
  | Run s => (execute_prompt s p).2
  | TableAdded t => with_catalog p (AddTable t)
  | TableDropped name => with_catalog p (RemoveTable name)
  | SnapshotAdded s => with_catalog p (AddSnapshot s)
  | SnapshotDropped name => with_catalog p (RemoveSnapshot name)
  end.

Definition new_engine : prompt := mkPrompt emptyCatalog ∅.

Definition after_events (p : prompt) (events : list event) : prompt := fold_left happen events p.

(** The two ways in which the catalog moves: not at all, or one revision on. *)
Inductive moves (P : gmap string ConversationContextMeta → Prop) (c : Catalog) : Catalog → Prop :=
  | moves_not : moves P c c
  | moves_on c' :
      revision_ c' = wrap64 (revision_ c + 1) → P (contexts c') → moves P c c'.

Lemma table_change_moves c op :
  match op with AddContext _ | RemoveContext _ => False | _ => True end →
  moves (λ cs, cs = contexts c) c (catalog_step c op).
Proof.
  intros Hop. destruct op as [t|name|s|name|x|name]; try done; cbn.
  - by apply moves_on.
  - unfold removeTable. case_match; [by apply moves_on|apply moves_not].
  - by apply moves_on.
  - unfold removeSnapshot. case_match; [by apply moves_on|apply moves_not].
Qed.

(** ** What a statement does to the engine *)

Lemma cached_view_run parts view p :
  cached_view parts view p =
  match contextResultCache_ p !! contextCacheKey (revision_ (pr_catalog p)) parts with
  | Some result => (Ok result, p)
  | None =>
      match view (pr_catalog p) with
      | Ok result =>
          (Ok result, mkPrompt (pr_catalog p)
             (<[contextCacheKey (revision_ (pr_catalog p)) parts := result]>
                (contextResultCache_ p)))
      | Err e => (Err e, p)
      end
  end.
Proof.
  unfold cached_view, mbind, action_bind, gets, lift, modify.
  destruct (contextResultCache_ p !! _); [done|]. by destruct (view (pr_catalog p)).
Qed.

(** The context that a statement stores in a catalog. *)
Definition stores (s : prompt_stmt) (c : Catalog) (x : ConversationContextMeta) : Prop :=
  match s with
  | CreateContext s => getContext c (cc_name s) = None ∧ x = mkContext (cc_name s) [] [] []
  | AppendMemory s =>
      ∃ y suggestion rest, getContext c (am_context s) = Some y ∧
        Forall (λ m, ms_id m ≠ am_messageId s) (cx_messages y) ∧
        inferContextTagSuggestions (am_text s) = suggestion :: rest ∧
        let message := new_message y s (suggestion :: rest) (tag suggestion) in
        x = mkContext (cx_name y) (cx_messages y ++ [message])
              (store_atoms (ms_accessLabels message) (ms_tags message)
                 (extractContextAtoms (with_tab s (ms_tab message))) (cx_atoms y) 0).1
              (cx_tabAliases y)
  | TagMemory s =>
      ∃ y messages, getContext c (tm_context s) = Some y ∧
        let tab := resolveContextTab y (tm_tab s) in
        retag_message y (tm_messageId s) tab (cx_messages y) = Some messages ∧
        x = recomputeContextAtomStatus
              (mkContext (cx_name y) messages
                 (retag_atom y (message_source (tm_messageId s)) tab <$> cx_atoms y)
                 (cx_tabAliases y))
  | AliasTab s =>
      ∃ y, getContext c (at_context s) = Some y ∧
        x = setContextTabAlias y (normalizedTab (at_alias s)) (resolveContextTab y (at_target s))
  | MergeTabs s =>
      ∃ y, getContext c (mt_context s) = Some y ∧
        (x = y ∨ x = merge_tabs y (resolveContextTab y (mt_fromTab s))
                       (resolveContextTab y (mt_toTab s)))
  | _ => False
  end.

(** The views a statement asks for: the parts of its key and the computation. *)
Definition view_of (s : prompt_stmt) : option (list string * (Catalog → exec Report)) :=
  match s with
  | SpillContext s => Some (view_parts "spill" s, spill_view s)
  | ExplainContext s => Some (view_parts "explain" s, explain_view s)
  | ShowContextSchemas => Some (["schemas"%string], schemas_view)
  | ShowContextObjects s => Some (objects_parts s, objects_view s)
  | _ => None
  end.

(** A statement stores a context and empties the cache, or fills the cache with
    a view, or does nothing. *)
Definition effect_of (s : prompt_stmt) (p p' : prompt) : Prop :=
  p' = p ∨ (is_Some (view_of s) ∧ ∃ key result,
             p' = mkPrompt (pr_catalog p) (<[key := result]> (contextResultCache_ p))) ∨
  ∃ x, stores s (pr_catalog p) x ∧ p' = mkPrompt (addContext (pr_catalog p) x) ∅.

Lemma existsb_Forall_neq {A} (f : A → Z) l z :
  existsb (λ m, f m =? z) l = false → Forall (λ m, f m ≠ z) l.
Proof.
  intros H. apply Forall_forall. intros m Hm Heq.
  assert (existsb (λ m, f m =? z) l = true); [|congruence].
  apply existsb_exists. exists m. split; [by apply list_elem_of_In|lia].
Qed.

Lemma cached_view_effect s parts view p :
  is_Some (view_of s) → effect_of s p (cached_view parts view p).2.
Proof.
  intros Hs. rewrite cached_view_run. destruct (contextResultCache_ p !! _); [by left|].
  destruct (view (pr_catalog p)) as [result|e]; [|by left]. right; left. cbn. eauto.
Qed.

Ltac run_action :=
  unfold mbind, action_bind, mret, action_ret, gets, lift, raise, store_context, modify.

Lemma prompt_effect s p : effect_of s p (execute_prompt s p).2.
Proof.
  destruct s as [s|s|s|s|s|s| |s|s|s]; cbn [execute_prompt].
  - unfold executeCreateContext, hasContext. run_action. case_bool_decide as Hc; [by left|].
    right; right. eexists. split; [|done]. split; [|done]. by apply eq_None_not_Some.
  - unfold executeAppendMemory, known_context. run_action.
    destruct (getContext _ _) as [y|] eqn:Hy; [|by left].
    destruct (existsb _ _) eqn:Hid; [by left|].
    destruct (inferContextTagSuggestions _) as [|suggestion rest] eqn:Hs; [by left|].
    destruct (store_atoms _ _ _ _ _) as [stored invalidated] eqn:Hst.
    right; right. eexists. split; [|reflexivity]. exists y, suggestion, rest.
    split_and!; [done|by apply existsb_Forall_neq|done|]. cbn zeta. by rewrite Hst.
  - by apply cached_view_effect.
  - by apply cached_view_effect.
  - unfold executeTagMemory, known_context. run_action.
    destruct (getContext _ _) as [y|] eqn:Hy; [|by left].
    destruct (retag_message _ _ _ _) as [messages|] eqn:Hm; [|by left].
    right; right. eexists. split; [|done]. by exists y, messages.
  - unfold executeShowTabs, known_context. run_action. destruct (getContext _ _); by left.
  - by apply cached_view_effect.
  - by apply cached_view_effect.
  - unfold executeAliasTab, known_context. run_action.
    destruct (getContext _ _) as [y|] eqn:Hy; [|by left].
    right; right. eexists. split; [|done]. by exists y.
  - unfold executeMergeTabs, known_context. run_action.
    destruct (getContext _ _) as [y|] eqn:Hy; [|by left].
    right; right. eexists. split; [|done]. exists y. split; [done|].
    case_match; [by left|by right].
Qed.

(** ** Facts that do not contradict each other *)

Definition active (a : ContextAtomMeta) : Prop := ca_status a = "active"%string.

Definition same_subject (a b : ContextAtomMeta) : Prop := ca_key a = ca_key b ∧ ca_tab a = ca_tab b.

(** A fact is active, or it names the source of a fact that contradicts it. *)
Definition accounted (l : list ContextAtomMeta) (a : ContextAtomMeta) : Prop :=
  (active a ∧ ca_invalidatedBy a = ""%string) ∨
  (ca_status a = "invalidated"%string ∧
   ∃ b, b ∈ l ∧ ca_source b = ca_invalidatedBy a ∧ same_subject a b ∧ ca_value b ≠ ca_value a).

Record facts_ok (l : list ContextAtomMeta) : Prop := {
  facts_agree a b :
    a ∈ l → b ∈ l → active a → active b → same_subject a b → ca_value a = ca_value b;
  facts_accounted a : a ∈ l → accounted l a;
}.

(** The members that decide whether facts contradict each other. *)
Definition core (a : ContextAtomMeta) : string * string * string * string :=
  (ca_key a, ca_tab a, ca_value a, ca_source a).

Lemma contradicts_spec newer older :
  contradicts newer older = true ↔
  active older ∧ same_subject older newer ∧ ca_value older ≠ ca_value newer.
Proof.
  unfold contradicts, active, same_subject.
  rewrite !andb_true_iff, negb_true_iff, !String.eqb_eq, String.eqb_neq. tauto.
Qed.

Lemma supersede_core newer a : core (supersede newer a) = core a.
Proof. unfold supersede. by case_match. Qed.

Lemma core_subject a b a' b' :
  core a' = core a → core b' = core b → same_subject a b → same_subject a' b'.
Proof. unfold core, same_subject. intros [= -> -> _ _] [= -> -> _ _]. done. Qed.

Lemma core_value a b : core a = core b → ca_value a = ca_value b.
Proof. by intros [= _ _ -> _]. Qed.

Lemma core_source a b : core a = core b → ca_source a = ca_source b.
Proof. by intros [= _ _ _ ->]. Qed.

Lemma same_subject_sym a b : same_subject a b → same_subject b a.
Proof. intros [Hk Ht]. by split. Qed.

Lemma supersede_active newer a :
  active (supersede newer a) → active a ∧ contradicts newer a = false.
Proof. unfold supersede. destruct (contradicts newer a); [done|by split]. Qed.

Lemma accounted_mono l l' a :
  (∀ b, b ∈ l → ∃ b', b' ∈ l' ∧ core b' = core b) → accounted l a → accounted l' a.
Proof.
  intros Hl [Ha|(Hs & b & Hb & Hsource & Hsub & Hne)]; [by left|right]. split; [done|].
  destruct (Hl b Hb) as (b' & Hb' & Hc). exists b'. split_and!; [done| | |].
  - by rewrite (core_source _ _ Hc).
  - by apply (core_subject a b a b').
  - by rewrite (core_value _ _ Hc).
Qed.

(** A new fact enters: those it contradicts are invalidated. *)
Lemma facts_ok_enter l a a' :
  facts_ok l → active a' → ca_invalidatedBy a' = ""%string → core a' = core a →
  facts_ok ((supersede a <$> l) ++ [a']).
Proof.
  intros [Hagree Hacc] Hact Hinv Hcore.
  assert (Hnew : ∀ x, x ∈ supersede a <$> l → active x → same_subject x a' →
                      ca_value x = ca_value a').
  { intros x (y & -> & Hy)%list_elem_of_fmap Hx Hs. apply supersede_active in Hx as [Hx Hc].
    rewrite (core_value _ _ (supersede_core a y)), (core_value _ _ Hcore).
    destruct (decide (ca_value y = ca_value a)) as [|Hne]; [done|].
    assert (contradicts a y = true); [|congruence]. apply contradicts_spec. split_and!; [done| |done].
    by apply (core_subject (supersede a y) a'); [symmetry; apply supersede_core| |]. }
  split.
  - intros x y [Hx|Hx]%elem_of_app [Hy|Hy]%elem_of_app Hax Hay Hs.
    + apply list_elem_of_fmap in Hx as (x' & -> & Hx). apply list_elem_of_fmap in Hy as (y' & -> & Hy).
      apply supersede_active in Hax as [Hax _]. apply supersede_active in Hay as [Hay _].
      rewrite !(core_value _ _ (supersede_core a _)). apply Hagree; [done..|].
      eapply core_subject, Hs; symmetry; apply supersede_core.
    + apply list_elem_of_singleton in Hy as ->. by apply Hnew.
    + apply list_elem_of_singleton in Hx as ->. symmetry. by apply Hnew, same_subject_sym.
    + by apply list_elem_of_singleton in Hx as ->, Hy as ->.
  - intros x [(y & -> & Hy)%list_elem_of_fmap|Hx%list_elem_of_singleton]%elem_of_app;
      [|by subst; left].
    unfold supersede at 2. destruct (contradicts a y) eqn:Hc.
    + apply contradicts_spec in Hc as (Hay & Hs & Hne). right. split; [done|].
      exists a'. split_and!; [apply elem_of_app; right; by apply list_elem_of_singleton| | |].
      * by rewrite (core_source _ _ Hcore).
      * by apply (core_subject y a).
      * rewrite (core_value _ _ Hcore). cbn. congruence.
    + eapply accounted_mono, Hacc, Hy. intros b Hb. exists (supersede a b).
      split; [|apply supersede_core]. apply elem_of_app. left. by apply list_elem_of_fmap_2.
Qed.

Lemma facts_ok_nil : facts_ok [].
Proof. split; [intros a b Ha|intros a Ha]; by apply elem_of_nil in Ha. Qed.

Lemma settle_ok l settled :
  facts_ok settled → Forall (λ a, active a ∧ ca_invalidatedBy a = ""%string) l →
  facts_ok (settle settled l).
Proof.
  intros Hs Hl. revert settled Hs. induction Hl as [|a l [Ha Hi] _ IH]; intros settled Hs; [done|].
  apply IH. by apply facts_ok_enter.
Qed.

Lemma recompute_ok x : facts_ok (cx_atoms (recomputeContextAtomStatus x)).
Proof.
  apply settle_ok; [apply facts_ok_nil|]. by apply Forall_fmap, Forall_forall.
Qed.

Lemma store_atoms_ok labels tags atoms stored n :
  facts_ok stored → Forall (λ a, active a ∧ ca_invalidatedBy a = ""%string) atoms →
  facts_ok (store_atoms labels tags atoms stored n).1.
Proof.
  intros Hs Hl. revert stored n Hs.
  induction Hl as [|a l [Ha Hi] _ IH]; intros stored n Hs; [done|].
  apply IH. by apply facts_ok_enter.
Qed.

(** ** The invariant of a context *)

Record context_ok (x : ConversationContextMeta) : Prop := {
  ok_ids : NoDup (ms_id <$> cx_messages x);
  ok_facts : facts_ok (cx_atoms x);
  ok_sources : Forall (λ a, ca_source a ∈ message_source <$> (ms_id <$> cx_messages x)) (cx_atoms x);
}.

Lemma settle_sources (P : string → Prop) l settled :
  Forall (P ∘ ca_source) settled → Forall (P ∘ ca_source) l →
  Forall (P ∘ ca_source) (settle settled l).
Proof.
  intros Hs Hl. revert settled Hs. induction Hl as [|a l Ha _ IH]; intros settled Hs; [done|].
  apply IH, Forall_app. split; [|by constructor]. apply Forall_fmap.
  eapply Forall_impl; [exact Hs|]. intros b Hb. unfold compose in *.
  by rewrite (core_source _ _ (supersede_core a b)).
Qed.

Lemma store_atoms_sources (P : string → Prop) labels tags atoms stored n :
  Forall (P ∘ ca_source) stored → Forall (P ∘ ca_source) atoms →
  Forall (P ∘ ca_source) (store_atoms labels tags atoms stored n).1.
Proof.
  intros Hs Hl. revert stored n Hs. induction Hl as [|a l Ha _ IH]; intros stored n Hs; [done|].
  apply IH, Forall_app. split; [|by constructor]. apply Forall_fmap.
  eapply Forall_impl; [exact Hs|]. intros b Hb. unfold compose in *.
  by rewrite (core_source _ _ (supersede_core a b)).
Qed.

Lemma retag_message_ids x id tab messages messages' :
  retag_message x id tab messages = Some messages' → ms_id <$> messages' = ms_id <$> messages.
Proof.
  revert messages'. induction messages as [|m messages IH]; intros messages' H; [done|].
  cbn in H. destruct (ms_id m =? id); [by injection H as <-|].
  apply fmap_Some in H as (rest & Hrest & ->). cbn. f_equal. by apply IH.
Qed.

Lemma retag_atom_source x source tab a : ca_source (retag_atom x source tab a) = ca_source a.
Proof. unfold retag_atom. by destruct (String.eqb _ _). Qed.

(** Retagging and merging keep the sources of the facts and the identifiers of
    the messages, and settle the facts anew. *)
Lemma recomputed_ok x messages aliases atoms :
  context_ok x → ms_id <$> messages = ms_id <$> cx_messages x →
  ca_source <$> atoms = ca_source <$> cx_atoms x →
  context_ok (recomputeContextAtomStatus (mkContext (cx_name x) messages atoms aliases)).
Proof.
  intros [Hids Hfacts Hsrc] Hm Ha. split.
  - cbn. by rewrite Hm.
  - apply recompute_ok.
  - cbn. rewrite Hm. apply (settle_sources (λ s, s ∈ message_source <$> (ms_id <$> cx_messages x)));
      [done|].
    apply Forall_fmap. apply (Forall_fmap ca_source (λ s, s ∈ _)) in Hsrc. rewrite <- Ha in Hsrc.
    by apply Forall_fmap in Hsrc.
Qed.

Lemma stores_ok s c x :
  map_Forall (λ name y, cx_name y = name ∧ context_ok y) (contexts c) →
  stores s c x → context_ok x.
Proof.
  intros Hc Hs. destruct s as [s|s|s|s|s|s| |s|s|s]; try done; cbn in Hs.
  - destruct Hs as [_ ->]. split; cbn; [constructor|apply facts_ok_nil|constructor].
  - destruct Hs as (y & suggestion & rest & Hy & Hid & _ & ->).
    destruct (Hc _ _ Hy) as [_ [Hids Hfacts Hsrc]].
    set (message := new_message y s _ _).
    pose proof (extractContextAtoms_fresh (with_tab s (ms_tab message))) as Hfresh.
    split; cbn [cx_messages cx_atoms].
    + rewrite fmap_app. apply NoDup_app. split_and!; [done| |apply NoDup_singleton].
      intros i (m & -> & Hm)%list_elem_of_fmap Hi%list_elem_of_singleton.
      by apply (proj1 (Forall_forall _ _) Hid m Hm).
    + apply store_atoms_ok; [done|]. eapply Forall_impl; [exact Hfresh|].
      intros a (_ & Ha & Hi & _). done.
    + apply (store_atoms_sources (λ i, i ∈ message_source <$> (ms_id <$> _))).
      * eapply Forall_impl; [exact Hsrc|]. intros a Ha. cbn in Ha |- *.
        rewrite fmap_app, fmap_app. apply elem_of_app. by left.
      * eapply Forall_impl; [exact Hfresh|]. intros a (_ & _ & _ & Ha & _). cbn.
        rewrite fmap_app, fmap_app, Ha. apply elem_of_app. right. by apply list_elem_of_singleton.
  - destruct Hs as (y & messages & Hy & Hm & ->). destruct (Hc _ _ Hy) as [_ Hok].
    apply recomputed_ok; [done|by eapply retag_message_ids|].
    rewrite <- list_fmap_compose. apply list_fmap_ext. intros _ a _. apply retag_atom_source.
  - destruct Hs as (y & Hy & ->). destruct (Hc _ _ Hy) as [_ [Hids Hfacts Hsrc]]. by split.
  - destruct Hs as (y & Hy & [-> | ->]); destruct (Hc _ _ Hy) as [_ Hok]; [done|].
    unfold merge_tabs, setContextTabAlias. cbn [cx_name cx_messages cx_atoms].
    apply recomputed_ok; [done|..]; by rewrite <- list_fmap_compose.
Qed.

Definition contexts_ok (c : Catalog) : Prop :=
  map_Forall (λ name x, cx_name x = name ∧ context_ok x) (contexts c).

Lemma happen_ok p e : contexts_ok (pr_catalog p) → contexts_ok (pr_catalog (happen p e)).
Proof.
  intros Hp. destruct e as [s|t|name|s|name]; cbn [happen].
  - destruct (prompt_effect s p) as [-> |[(_ & key & result & ->)|(x & Hx & ->)]]; [done..|].
    cbn. apply map_Forall_insert_2; [|done]. split; [done|]. by eapply stores_ok.
  - done.
  - cbn. unfold removeTable. by case_match.
  - done.
  - cbn. unfold removeSnapshot. by case_match.
Qed.

Lemma after_events_ok c events :
  contexts_ok c → contexts_ok (pr_catalog (after_events (mkPrompt c ∅) events)).
Proof.
  unfold after_events. intros H. change c with (pr_catalog (mkPrompt c ∅)) in H.
  revert H. generalize (mkPrompt c ∅). induction events as [|e events IH]; intros p Hp; [done|].
  apply IH. by apply happen_ok.
Qed.

(** C17: whatever statements run, in every context the identifiers of the messages
    are different, every fact comes from one of its messages, no two active facts
    stored with the same tab give different values for one key, and each
    invalidated fact names the message of a fact stored with the same tab and key
    with another value - if that was so in the catalog the engine started with.
    The tab is the name stored with the fact; facts of two tabs that [alias-tab]
    joins afterwards may contradict each other ([alias_keeps_contradiction]). *)
Theorem contexts_always_consistent c events name x :
  contexts_ok c → getContext (pr_catalog (after_events (mkPrompt c ∅) events)) name = Some x →
  cx_name x = name ∧ context_ok x.
Proof. intros Hc Hx. by apply (after_events_ok c events Hc). Qed.

(** ** The keys of the cache *)

Definition plain (s : string) : Prop := all_chars (λ ch, negb (code ch =? 31)) s = true.

Fixpoint split_fields (s : string) : list string :=
  match s with
  | EmptyString => [""%string]
  | String ch s =>
      if code ch =? 31 then ""%string :: split_fields s
      else match split_fields s with
           | f :: fs => String ch f :: fs
           | [] => []
           end
  end.

Lemma split_fields_plain s : plain s → split_fields s = [s].
Proof.
  unfold plain. induction s as [|ch s IH]; intros H; [done|]. cbn in H |- *.
  apply andb_true_iff in H as [Hch Hs]. apply negb_true_iff in Hch. by rewrite Hch, IH.
Qed.

Lemma split_fields_nonempty s : split_fields s ≠ [].
Proof.
  induction s as [|ch s IH]; [done|]. cbn [split_fields].
  destruct (code ch =? 31); [done|]. by destruct (split_fields s).
Qed.

Lemma split_fields_snoc s t :
  plain t → split_fields (s +:+ String (ascii_of_nat 31) t) = split_fields s ++ [t].
Proof.
  intros Ht. induction s as [|ch s IH].
  - change (split_fields (String (ascii_of_nat 31) t) = [""%string] ++ [t]).
    cbn [split_fields]. by rewrite split_fields_plain.
  - rewrite string_app_cons. cbn [split_fields]. rewrite IH.
    destruct (code ch =? 31); [done|].
    pose proof (split_fields_nonempty s). by destruct (split_fields s).
Qed.

Lemma cache_key_fields revision parts :
  plain (dec_unsigned revision) → Forall plain parts →
  split_fields (contextCacheKey revision parts) = dec_unsigned revision :: parts.
Proof.
  unfold contextCacheKey. intros Hr Hp.
  assert (H : ∀ key, split_fields (fold_left (λ key part, key +:+ String (ascii_of_nat 31) part)
                                     parts key) = split_fields key ++ parts).
  { induction Hp as [|part parts Hpart _ IH]; intros key; [by rewrite app_nil_r|].
    cbn [fold_left]. rewrite IH, split_fields_snoc by done. by rewrite <- app_assoc. }
  by rewrite H, split_fields_plain.
Qed.

Lemma digits_plain s : all_digits s = true → plain s.
Proof.
  apply all_chars_impl. unfold isdigit, in_range. intros ch H.
  apply andb_true_iff in H as [H _]. change (code "0") with 48 in H. apply negb_true_iff. lia.
Qed.

(** ** The cache of views *)

(** The names of a view contain no separator. *)
Definition plain_stmt (s : prompt_stmt) : Prop :=
  match s with
  | SpillContext s | ExplainContext s =>
      plain (sc_context s) ∧ plain (sc_tab s) ∧ plain (sc_query s) ∧ 0 ≤ sc_tokenBudget s
  | ShowContextObjects s => plain (so_context s)
  | _ => True
  end.

Lemma view_of_run s parts view p :
  view_of s = Some (parts, view) → execute_prompt s p = cached_view parts view p.
Proof. destruct s; try done; by intros [= <- <-]. Qed.

Lemma dec_unsigned_plain n : 0 ≤ n → plain (dec_unsigned n).
Proof. intros Hn. by apply digits_plain, dec_unsigned_digits. Qed.

Lemma dec_unsigned_inj m n : 0 ≤ m → 0 ≤ n → dec_unsigned m = dec_unsigned n → m = n.
Proof. intros Hm Hn H. by rewrite <- (dec_value_unsigned m), H, dec_value_unsigned. Qed.

Lemma view_parts_plain s parts view :
  plain_stmt s → view_of s = Some (parts, view) → Forall plain parts.
Proof.
  intros Hs Hv. destruct s as [s|s|s|s|s|s| |s|s|s]; try done; injection Hv as <- <-.
  1-2: destruct Hs as (Hc & Ht & Hq & Hb); unfold view_parts;
    repeat (apply Forall_cons; split); try done; [by apply dec_unsigned_plain|by destruct (sc_receipts s)].
  - by repeat constructor.
  - by repeat (apply Forall_cons; split).
Qed.

Lemma view_parts_inj kind s s' :
  0 ≤ sc_tokenBudget s → 0 ≤ sc_tokenBudget s' → view_parts kind s = view_parts kind s' →
  spill_view s = spill_view s' ∧ explain_view s = explain_view s'.
Proof.
  destruct s as [context query tab budget receipts l], s' as [context' query' tab' budget' receipts' l'].
  unfold view_parts. cbn [sc_tokenBudget sc_context sc_tab sc_query sc_receipts].
  intros Hb Hb' [= -> -> -> Hbudget Hreceipts]. apply dec_unsigned_inj in Hbudget as ->; [|done..].
  assert (receipts = receipts') as -> by by destruct receipts, receipts'. by split.
Qed.

Lemma some_pair_inj {A B} (a a' : A) (b b' : B) : Some (a, b) = Some (a', b') → a = a' ∧ b = b'.
Proof. by intros [= -> ->]. Qed.

Lemma same_parts_same_view s s' parts view view' :
  plain_stmt s → plain_stmt s' → view_of s = Some (parts, view) → view_of s' = Some (parts, view') →
  view = view'.
Proof.
  intros Hs Hs' Hv Hv'.
  destruct s as [s|s|s|s|s|s| |s|s|s]; try discriminate Hv; injection Hv as <- <-;
    destruct s' as [s'|s'|s'|s'|s'|s'| |s'|s'|s']; try discriminate Hv';
    apply some_pair_inj in Hv' as [Hparts <-]; try discriminate Hparts; try done.
  - by apply (view_parts_inj "spill"%string); [apply Hs|apply Hs'|].
  - by apply (view_parts_inj "explain"%string); [apply Hs|apply Hs'|].
  - destruct s as [context l], s' as [context' l']. injection Hparts as Heq. cbn in Heq. by subst.
Qed.

(** Every entry of the cache is the view of some statement at some revision; at
    the present one it is the view of the present catalog. *)
Definition cache_fresh (p : prompt) : Prop :=
  ∀ key result, contextResultCache_ p !! key = Some result →
    ∃ s r parts view, plain_stmt s ∧ view_of s = Some (parts, view) ∧
      0 ≤ r ≤ revision_ (pr_catalog p) ∧ key = contextCacheKey r parts ∧
      (r = revision_ (pr_catalog p) → view (pr_catalog p) = Ok result).

Lemma key_inj s s' r r' parts parts' view view' :
  plain_stmt s → plain_stmt s' → view_of s = Some (parts, view) →
  view_of s' = Some (parts', view') → 0 ≤ r → 0 ≤ r' →
  contextCacheKey r parts = contextCacheKey r' parts' → r = r' ∧ view = view'.
Proof.
  intros Hs Hs' Hv Hv' Hr Hr' Hkey.
  pose proof (cache_key_fields r parts (dec_unsigned_plain r Hr) (view_parts_plain s _ _ Hs Hv)) as H.
  rewrite Hkey, (cache_key_fields r' parts' (dec_unsigned_plain r' Hr')
                   (view_parts_plain s' _ _ Hs' Hv')) in H.
  injection H as Hd ->. split; [symmetry; by apply dec_unsigned_inj|].
  exact (same_parts_same_view s s' _ _ _ Hs Hs' Hv Hv').
Qed.

(** What is found in the cache is what would be computed. *)
Lemma cache_hit s p parts view result :
  cache_fresh p → 0 ≤ revision_ (pr_catalog p) → plain_stmt s → view_of s = Some (parts, view) →
  contextResultCache_ p !! contextCacheKey (revision_ (pr_catalog p)) parts = Some result →
  view (pr_catalog p) = Ok result.
Proof.
  intros Hp Hr Hs Hv Hhit.
  destruct (Hp _ _ Hhit) as (s' & r & parts' & view' & Hs' & Hv' & Hr' & Hkey & Hview).
  destruct (key_inj s s' _ r parts parts' view view' Hs Hs' Hv Hv' Hr (proj1 Hr') Hkey) as [<- ->].
  by apply Hview.
Qed.

Lemma cached_answer s p parts view :
  cache_fresh p → 0 ≤ revision_ (pr_catalog p) → plain_stmt s → view_of s = Some (parts, view) →
  (execute_prompt s p).1 = view (pr_catalog p).
Proof.
  intros Hp Hr Hs Hv. rewrite (view_of_run s parts view p Hv), cached_view_run.
  destruct (contextResultCache_ p !! _) as [result|] eqn:Hhit.
  - symmetry. by eapply cache_hit.
  - by destruct (view (pr_catalog p)).
Qed.

(** A catalog that is one revision on makes every entry old. *)
Lemma cache_fresh_moves P p c' :
  cache_fresh p → 0 ≤ revision_ (pr_catalog p) → revision_ (pr_catalog p) + 1 < 2 ^ 64 →
  moves P (pr_catalog p) c' →
  cache_fresh (mkPrompt c' (contextResultCache_ p)) ∧
  revision_ (pr_catalog p) ≤ revision_ c' ≤ revision_ (pr_catalog p) + 1.
Proof.
  intros Hp Hr Hmax [|c'' Hrev _]; [split; [done|lia]|].
  rewrite wrap_small in Hrev by (unfold uint; lia). split; [|lia].
  intros key result Hkey. cbn in Hkey |- *.
  destruct (Hp _ _ Hkey) as (s' & r & parts' & view' & Hs' & Hv' & Hr' & -> & _).
  exists s', r, parts', view'. split_and!; [done..|lia|lia|done|]. intros ->. lia.
Qed.

Lemma happen_fresh p s :
  cache_fresh p → 0 ≤ revision_ (pr_catalog p) → revision_ (pr_catalog p) + 1 < 2 ^ 64 →
  plain_stmt s →
  cache_fresh (execute_prompt s p).2 ∧
  revision_ (pr_catalog p) ≤ revision_ (pr_catalog (execute_prompt s p).2)
    ≤ revision_ (pr_catalog p) + 1.
Proof.
  intros Hp Hr Hmax Hs. destruct (view_of s) as [[parts view]|] eqn:Hv.
  - rewrite (view_of_run s parts view p Hv), cached_view_run.
    destruct (contextResultCache_ p !! _); [split; [done|cbn; lia]|].
    destruct (view (pr_catalog p)) as [result|e] eqn:Hresult; [|split; [done|cbn; lia]].
    cbn [snd]. split; [|cbn; lia]. intros key result'. cbn [contextResultCache_ pr_catalog].
    intros [[<- <-]|[_ Hkey]]%lookup_insert_Some; [|by apply Hp].
    exists s, (revision_ (pr_catalog p)), parts, view. by split_and!.
  - destruct (prompt_effect s p) as [-> |[([? Hv'] & _)|(x & _ & ->)]].
    + split; [done|lia].
    + congruence.
    + cbn. rewrite wrap_small by (unfold uint; lia). split; [by intros ??|lia].
Qed.

Definition plain_event (e : event) : Prop :=
  match e with Run s => plain_stmt s | _ => True end.

Lemma change_fresh p op :
  match op with AddContext _ | RemoveContext _ => False | _ => True end →
  cache_fresh p → 0 ≤ revision_ (pr_catalog p) → revision_ (pr_catalog p) + 1 < 2 ^ 64 →
  cache_fresh (with_catalog p op) ∧
  revision_ (pr_catalog p) ≤ revision_ (pr_catalog (with_catalog p op))
    ≤ revision_ (pr_catalog p) + 1.
Proof.
  intros Hop Hp Hr Hmax. by eapply cache_fresh_moves, table_change_moves.
Qed.

Lemma after_events_fresh p events :
  cache_fresh p → 0 ≤ revision_ (pr_catalog p) →
  revision_ (pr_catalog p) + Z.of_nat (length events) < 2 ^ 64 → Forall plain_event events →
  cache_fresh (after_events p events) ∧ 0 ≤ revision_ (pr_catalog (after_events p events)).
Proof.
  unfold after_events. intros Hp Hr Hmax Hevents. revert p Hp Hr Hmax.
  induction Hevents as [|e events He _ IH]; intros p Hp Hr Hmax; [done|]. cbn [length fold_left] in *.
  assert (cache_fresh (happen p e) ∧
          revision_ (pr_catalog p) ≤ revision_ (pr_catalog (happen p e))
            ≤ revision_ (pr_catalog p) + 1) as [Hfresh Hrev].
  { destruct e; first [apply happen_fresh; done || lia | apply change_fresh; done || lia]. }
  apply IH; [done|lia..].
Qed.

(** An answer depends on the cache through what a view finds there. *)
Lemma answer_without_cache s p :
  view_of s = None → (execute_prompt s p).1 = (execute_prompt s (mkPrompt (pr_catalog p) ∅)).1.
Proof.
  intros Hs. destruct s as [s|s|s|s|s|s| |s|s|s]; try discriminate Hs; cbn [execute_prompt];
    [unfold executeCreateContext|unfold executeAppendMemory|unfold executeTagMemory
    |unfold executeShowTabs|unfold executeAliasTab|unfold executeMergeTabs]; run_action;
    cbn [pr_catalog]; repeat (case_match; simplify_eq); done.
Qed.

(** C18: the cache of views is invisible.  Whatever statements ran before, every
    statement answers as it does with an empty cache, as long as the 64-bit
    revision of the catalog has not wrapped around and no name, tab or query
    contains the separator of the keys. *)
Theorem views_are_fresh c events s :
  0 ≤ revision_ c → revision_ c + Z.of_nat (length events) < 2 ^ 64 →
  Forall plain_event events → plain_stmt s →
  let p := after_events (mkPrompt c ∅) events in
  (execute_prompt s p).1 = (execute_prompt s (mkPrompt (pr_catalog p) ∅)).1.
Proof.
  intros Hr Hmax Hevents Hs p.
  destruct (after_events_fresh (mkPrompt c ∅) events) as [Hp Hr']; [done..|].
  destruct (view_of s) as [[parts view]|] eqn:Hv; [|by apply answer_without_cache].
  rewrite !(cached_answer s _ parts view); done.
Qed.

(** ** Ranking *)

(** The active facts of the tab, with their utility and position. *)
Fixpoint candidates (x : ConversationContextMeta) (tabFilter lowerQuery : string) (index : nat)
    (atoms : list ContextAtomMeta) : list RankedAtom :=
  match atoms with
  | [] => []
  | a :: atoms =>
      (if contextMatchesTab x (ca_tab a) (ca_tags a) tabFilter && (ca_status a =? "active")%string
       then [mkRanked a (contextAtomUtilityLower a lowerQuery) index] else []) ++
      candidates x tabFilter lowerQuery (S index) atoms
  end.

Definition key_of (r : RankedAtom) : string := contextAtomDiversityKey (ra_atom r).

(** The ranked atoms are candidates with different keys, and for each candidate
    there is one with its key that it does not outrank. *)
Record best_of (cs ranked : list RankedAtom) : Prop := {
  best_candidates r : r ∈ ranked → r ∈ cs;
  best_distinct : NoDup (key_of <$> ranked);
  best_covers c : c ∈ cs → ∃ r, r ∈ ranked ∧ key_of r = key_of c ∧ outranks c r = false;
}.

(** The map of the keys leads to the atoms with these keys. *)
Definition indexed (v : Scan) : Prop :=
  ∀ key i, activeByDiversityKey v !! key = Some i ↔ key_of <$> activeAtoms v !! i = Some key.

Lemma indexed_distinct v : indexed v → NoDup (key_of <$> activeAtoms v).
Proof.
  intros H. apply NoDup_alt. intros i j key Hi Hj. rewrite list_lookup_fmap in Hi, Hj.
  apply H in Hi, Hj. congruence.
Qed.

Lemma outranks_refl r : outranks r r = false.
Proof. unfold outranks. rewrite Z.ltb_irrefl, Nat.ltb_irrefl. by rewrite andb_false_r. Qed.

Lemma outranks_spec r s :
  outranks r s = true ↔
  ra_utility s < ra_utility r ∨ (ra_utility r = ra_utility s ∧ (ra_ordinal s < ra_ordinal r)%nat).
Proof.
  unfold outranks. rewrite orb_true_iff, andb_true_iff, Z.ltb_lt, Z.eqb_eq, Nat.ltb_lt. done.
Qed.

Lemma outranks_weak c r s : outranks c r = false → outranks s r = true → outranks c s = false.
Proof.
  rewrite <- !not_true_iff_false, !outranks_spec. lia.
Qed.

Lemma indexed_snoc v c :
  indexed v → key_of c ∉ key_of <$> activeAtoms v →
  ∀ key i, <[key_of c := length (activeAtoms v)]> (activeByDiversityKey v) !! key = Some i ↔
    key_of <$> (activeAtoms v ++ [c]) !! i = Some key.
Proof.
  intros Hidx Hnew key i. specialize (Hidx key i).
  rewrite <- list_lookup_fmap in Hidx |- *.
  rewrite lookup_insert_Some, Hidx, fmap_app, lookup_app_Some, length_fmap. cbn [fmap list_fmap].
  rewrite list_lookup_singleton_Some. split.
  - intros [[<- <-]|[_ H]]; [right; split_and!; [lia|lia|done]|by left].
  - intros [H|(H1 & H2 & <-)]; [right|left; split; [done|lia]]. split; [|done].
    intros <-. by apply Hnew, (list_elem_of_lookup_2 _ i).
Qed.

Lemma rank_atom_spec receipts c v cs active byKey cost :
  indexed v → best_of cs (activeAtoms v) →
  rank_atom receipts c v = (active, byKey, cost) →
  (∀ key i, byKey !! key = Some i ↔ key_of <$> active !! i = Some key) ∧ best_of (cs ++ [c]) active.
Proof.
  intros Hidx [Hc Hd Hcov] Hrank. unfold rank_atom in Hrank. fold (key_of c) in Hrank.
  destruct (activeByDiversityKey v !! key_of c) as [position|] eqn:Hkey.
  - pose proof Hkey as Hpos. apply Hidx in Hpos.
    destruct (activeAtoms v !! position) as [current|] eqn:Hcur; [|done].
    injection Hpos as Hpos. assert (Hin : current ∈ activeAtoms v) by by eapply list_elem_of_lookup_2.
    destruct (outranks c current) eqn:Hout; injection Hrank as <- <- <-.
    + assert (Hlen : (position < length (activeAtoms v))%nat) by by eapply lookup_lt_Some.
      assert (Hkeys : key_of <$> <[position := c]> (activeAtoms v) = key_of <$> activeAtoms v).
      { rewrite list_fmap_insert. apply list_insert_id. by rewrite list_lookup_fmap, Hcur, <- Hpos. }
      split; [intros key i|split].
      * rewrite (Hidx key i), <- !list_lookup_fmap. by rewrite Hkeys.
      * intros r [i Hi]%list_elem_of_lookup. apply elem_of_app.
        apply list_lookup_insert_Some in Hi as [(_ & <- & _)|[_ Hi]];
          [right; by apply list_elem_of_singleton|left]. eapply Hc, list_elem_of_lookup_2, Hi.
      * by rewrite Hkeys.
      * assert (Hcin : c ∈ <[position := c]> (activeAtoms v)).
        { apply (list_elem_of_lookup_2 _ position). by apply list_lookup_insert_eq. }
        intros d [Hd'|Hd']%elem_of_app.
        -- destruct (Hcov d Hd') as (r & [i Hr]%list_elem_of_lookup & Hrk & Hro).
           destruct (decide (i = position)) as [->|Hne].
           ++ rewrite Hcur in Hr. injection Hr as <-. exists c. split_and!; [done|congruence|].
              by eapply outranks_weak.
           ++ exists r. split_and!; [|done..]. apply (list_elem_of_lookup_2 _ i).
              by rewrite list_lookup_insert_ne.
        -- apply list_elem_of_singleton in Hd' as ->. exists c.
           split_and!; [done..|apply outranks_refl].
    + split; [done|]. split; [|done|].
      * intros r Hr. apply elem_of_app. left. by apply Hc.
      * intros d [Hd'|Hd']%elem_of_app; [by apply Hcov|].
        apply list_elem_of_singleton in Hd' as ->. exists current. by split_and!.
  - injection Hrank as <- <- <-.
    assert (Hnew : key_of c ∉ key_of <$> activeAtoms v).
    { intros [i Hi]%list_elem_of_lookup. rewrite list_lookup_fmap in Hi. apply Hidx in Hi. congruence. }
    split; [by apply indexed_snoc|split].
    + intros r [Hr|Hr]%elem_of_app; apply elem_of_app; [left; by apply Hc|by right].
    + rewrite fmap_app. apply NoDup_app. split_and!; [done| |apply NoDup_singleton].
      intros key Hk Hk'%list_elem_of_singleton. by subst.
    + intros d [Hd'|Hd']%elem_of_app.
      * destruct (Hcov d Hd') as (r & Hr & ?). exists r. split; [|done]. apply elem_of_app. by left.
      * exists d. split_and!; [apply elem_of_app; by right|done|apply outranks_refl].
Qed.

Lemma scan_atom_spec x tabFilter lowerQuery receipts index v cs a :
  indexed v → best_of cs (activeAtoms v) →
  let v' := scan_atom x tabFilter lowerQuery receipts index v a in
  indexed v' ∧ best_of (cs ++ candidates x tabFilter lowerQuery index [a]) (activeAtoms v').
Proof.
  intros Hidx Hbest v'. unfold v', scan_atom. cbn [candidates]. rewrite app_nil_r.
  destruct (contextMatchesTab _ _ _ _); [|by rewrite app_nil_r].
  destruct (String.eqb _ _); [|by rewrite app_nil_r]. cbn [andb].
  destruct (rank_atom _ _ _) as [[active byKey] cost] eqn:Hrank.
  by eapply rank_atom_spec.
Qed.

Lemma scan_atoms_spec x tabFilter lowerQuery receipts index v cs atoms :
  indexed v → best_of cs (activeAtoms v) →
  let v' := scan_atoms x tabFilter lowerQuery receipts index v atoms in
  best_of (cs ++ candidates x tabFilter lowerQuery index atoms) (activeAtoms v').
Proof.
  revert index v cs. induction atoms as [|a atoms IH]; intros index v cs Hidx Hbest.
  - cbn. by rewrite app_nil_r.
  - destruct (scan_atom_spec x tabFilter lowerQuery receipts index v cs a) as [Hidx' Hbest']; [done..|].
    specialize (IH (S index) _ _ Hidx' Hbest'). cbn [candidates scan_atoms] in IH |- *.
    by rewrite app_nil_r, <- app_assoc in IH.
Qed.

Lemma scan_messages_active x tabFilter messages v :
  activeAtoms v = [] → activeByDiversityKey v = ∅ →
  let v' := fold_left (scan_message x tabFilter) messages v in
  activeAtoms v' = [] ∧ activeByDiversityKey v' = ∅.
Proof.
  revert v. induction messages as [|m messages IH]; intros v Hv Hk; [done|]. cbn.
  apply IH; unfold scan_message; by destruct (contextMatchesTab _ _ _ _).
Qed.

Lemma best_of_permutation cs l l' : l ≡ₚ l' → best_of cs l → best_of cs l'.
Proof.
  intros Hp [Hc Hd Hcov]. split.
  - intros r Hr. apply Hc. by rewrite Hp.
  - by rewrite <- Hp.
  - intros c Hcin. destruct (Hcov c Hcin) as (r & Hr & ?). exists r. by rewrite <- Hp.
Qed.

Definition candidates_of (x : ConversationContextMeta) (s : SpillContextStmt) : list RankedAtom :=
  candidates x (tab_filter x (sc_tab s)) (lowerText (sc_query s)) 0 (cx_atoms x).

Lemma candidates_atoms x tabFilter lowerQuery index atoms r :
  r ∈ candidates x tabFilter lowerQuery index atoms → ra_atom r ∈ atoms.
Proof.
  revert index. induction atoms as [|a atoms IH]; intros index; cbn [candidates];
    [by intros ?%elem_of_nil|].
  intros [Hr|Hr]%elem_of_app; [|by eapply list_elem_of_further, IH].
  destruct (_ && _); [|by apply elem_of_nil in Hr].
  apply list_elem_of_singleton in Hr as ->. apply list_elem_of_here.
Qed.

Lemma ranking_best x s : best_of (candidates_of x s) (ranking (scan_context x s)).
Proof.
  unfold ranking, scan_context. set (v0 := fold_left _ _ _).
  destruct (scan_messages_active x (tab_filter x (sc_tab s)) (cx_messages x) empty_scan) as [Ha Hk];
    [done..|]. fold v0 in Ha, Hk.
  eapply best_of_permutation; [symmetry; apply stable_sort_permutation|].
  change (candidates_of x s) with ([] ++ candidates_of x s). apply scan_atoms_spec.
  - intros key i. rewrite Hk, Ha, lookup_empty, lookup_nil. done.
  - rewrite Ha. split; [done|apply NoDup_nil_2|]. by intros c ?%elem_of_nil.
Qed.

(** The greedy choice: it keeps the order of the ranking, stays within the budget,
    and passes over no atom that would still fit at the end. *)
Definition total_cost (receipts : bool) (rendered : list ContextAtomMeta) : Z :=
  foldr (λ a n, atom_cost receipts a + n) 0 rendered.

Lemma total_cost_app receipts l l' :
  total_cost receipts (l ++ l') = total_cost receipts l + total_cost receipts l'.
Proof. unfold total_cost. induction l as [|a l IH]; [done|]. cbn [foldr app]. rewrite IH. lia. Qed.

Lemma atom_cost_pos receipts a : 1 ≤ atom_cost receipts a.
Proof. unfold atom_cost, estimateContextTokens. lia. Qed.

Lemma render_within_spec receipts budget ranked rendered cost rendered' cost' :
  render_within receipts budget rendered cost ranked = (rendered', cost') →
  Forall (λ r, atom_cost receipts (ra_atom r) < 2 ^ 63) ranked → budget < 2 ^ 63 →
  0 ≤ cost ≤ budget → cost = total_cost receipts rendered →
  (∃ chosen, rendered' = rendered ++ (ra_atom <$> chosen) ∧ chosen `sublist_of` ranked ∧
     ∀ r, r ∈ ranked → r ∈ chosen ∨ budget < cost' + atom_cost receipts (ra_atom r)) ∧
  cost ≤ cost' ≤ budget ∧ cost' = total_cost receipts rendered'.
Proof.
  intros Hrun Hsmall Hbudget. revert rendered cost Hrun.
  induction Hsmall as [|r ranked Hr _ IH]; intros rendered cost Hrun Hcost Htotal.
  { injection Hrun as <- <-. split; [|split; [lia|done]]. exists []. rewrite app_nil_r.
    split_and!; [done..|]. by intros r ?%elem_of_nil. }
  pose proof (atom_cost_pos receipts (ra_atom r)) as Hpos. cbn [render_within] in Hrun.
  change (2 ^ 63) with 9223372036854775808 in *.
  rewrite wrap_small in Hrun by (unfold uint; change (2 ^ 64) with 18446744073709551616; lia).
  assert (Hover : match rendered with
                  | [] => budget <? atom_cost receipts (ra_atom r)
                  | _ :: _ => budget <? cost + atom_cost receipts (ra_atom r)
                  end = (budget <? cost + atom_cost receipts (ra_atom r))).
  { destruct rendered; [|done]. cbn in Htotal. by rewrite Htotal. }
  rewrite Hover in Hrun. destruct (Z.ltb_spec budget (cost + atom_cost receipts (ra_atom r))).
  - destruct (IH _ _ Hrun Hcost Htotal) as ((chosen & -> & Hsub & Hleft) & Hcost' & Htotal').
    split; [|split; [done|done]]. exists chosen. split_and!; [done|by constructor|].
    intros r' [->|Hr']%elem_of_cons; [right; lia|by apply Hleft].
  - destruct (IH _ _ Hrun) as ((chosen & -> & Hsub & Hleft) & Hcost' & Htotal'); [lia| |].
    { rewrite total_cost_app. cbn. lia. }
    split; [|split; [lia|done]]. exists (r :: chosen). rewrite <- app_assoc.
    split_and!; [done|by constructor|].
    intros r' [->|Hr']%elem_of_cons; [left; apply list_elem_of_here|].
    destruct (Hleft r' Hr') as [|]; [left; by apply list_elem_of_further|by right].
Qed.

(** The ranking is sorted by utility, and by recency among equals. *)
Lemma ranking_sorted v :
  StronglySorted (λ r r', ranked_before r' r = false) (ranking v).
Proof.
  apply stable_sort_sorted; intros x y; [|intros z]; unfold ranked_before;
    repeat match goal with |- context [negb (?a =? ?b)] => destruct (Z.eqb_spec a b) end;
    cbn [negb]; rewrite ?Z.ltb_lt, ?Z.ltb_ge, ?Nat.ltb_lt, ?Nat.ltb_ge; lia.
Qed.

(** C20: a spilled context stays within its budget.  The active facts of the tab
    are ranked, one for each type, key and value; the facts rendered are taken in
    the order of the ranking, their cost is the one reported and at most the
    budget, and no ranked fact that was left out would still fit. *)
Theorem spill_fits_budget x s rendered cost :
  Forall (λ a, atom_cost (sc_receipts s) a < 2 ^ 63) (cx_atoms x) →
  0 ≤ sc_tokenBudget s < 2 ^ 63 → spilled (scan_context x s) s = (rendered, cost) →
  let ranked := ranking (scan_context x s) in
  best_of (candidates_of x s) ranked ∧
  StronglySorted (λ r r', ranked_before r' r = false) ranked ∧
  (∃ chosen, rendered = ra_atom <$> chosen ∧ chosen `sublist_of` ranked ∧
     ∀ r, r ∈ ranked → r ∈ chosen ∨ sc_tokenBudget s < cost + atom_cost (sc_receipts s) (ra_atom r)) ∧
  cost = total_cost (sc_receipts s) rendered ∧ cost ≤ sc_tokenBudget s.
Proof.
  intros Hsmall Hbudget Hrun ranked. pose proof (ranking_best x s) as Hbest.
  split; [done|]. split; [apply ranking_sorted|].
  assert (Hcosts : Forall (λ r, atom_cost (sc_receipts s) (ra_atom r) < 2 ^ 63) ranked).
  { apply Forall_forall. intros r Hr. apply (proj1 (Forall_forall _ _) Hsmall).
    by eapply candidates_atoms, best_candidates. }
  assert (Hmax : sc_tokenBudget s < 2 ^ 63) by lia. assert (H0 : 0 ≤ 0 ≤ sc_tokenBudget s) by lia.
  destruct (render_within_spec _ _ _ _ _ _ _ Hrun Hcosts Hmax H0 eq_refl)
    as (Hchosen & Hcost & Htotal).
  split; [exact Hchosen|]. split; [done|lia].
Qed.

(** ** Redaction *)

(** Another message of the same length in place of a confidential one. *)
Definition reworded (m m' : ContextMessageMeta) : Prop :=
  ∃ text, m' = mkMessage (ms_id m) (ms_speaker m) text (ms_tab m) (ms_schemaName m)
                 (ms_schemaVersion m) (ms_storageRoute m) (ms_accessLabels m)
                 (ms_mentionedEntities m) (ms_tags m) (ms_tagReasons m) ∧
    String.length text = String.length (ms_text m) ∧
    (shouldRedact (ms_accessLabels m) = false → text = ms_text m).

(** Another value and snippet in place of those of a confidential fact. *)
Definition revalued (a a' : ContextAtomMeta) : Prop :=
  ∃ value snippet,
    a' = mkAtom (ca_key a) value (ca_type a) (ca_status a) (ca_source a) (ca_invalidatedBy a)
           (ca_tab a) (ca_schemaName a) (ca_schemaVersion a) (ca_accessLabels a) (ca_tags a)
           (ca_extractorRule a) (ca_extractorConfidence a) (ca_sourceStart a) (ca_sourceEnd a)
           snippet ∧
    (shouldRedact (ca_accessLabels a) = false →
     value = ca_value a ∧ snippet = ca_originalSnippet a).

Record disguised (x y : ConversationContextMeta) : Prop := {
  dis_name : cx_name y = cx_name x;
  dis_aliases : cx_tabAliases y = cx_tabAliases x;
  dis_messages : Forall2 reworded (cx_messages x) (cx_messages y);
  dis_atoms : Forall2 revalued (cx_atoms x) (cx_atoms y);
}.

Lemma redact_fallback labels : shouldRedact (fallbackLabels labels) = shouldRedact labels.
Proof. by destruct labels. Qed.

Lemma redact_alike text text' labels :
  (shouldRedact labels = false → text' = text) →
  redactIfNeeded text' labels = redactIfNeeded text labels.
Proof. unfold redactIfNeeded. destruct (shouldRedact labels); [done|]. intros H. by rewrite H. Qed.

Lemma resolve_aliases x y tab :
  cx_tabAliases y = cx_tabAliases x → resolveContextTab y tab = resolveContextTab x tab.
Proof. unfold resolveContextTab. by intros ->. Qed.

Lemma reworded_object x y m m' :
  cx_tabAliases y = cx_tabAliases x → reworded m m' → message_object x m = message_object y m'.
Proof.
  intros Ha (text & -> & Hlen & Hsame). unfold message_object.
  cbn [ms_id ms_text ms_tab ms_schemaName ms_schemaVersion ms_storageRoute ms_accessLabels ms_tags].
  rewrite (resolve_aliases x y), Hlen by done.
  rewrite (redact_alike (ms_text m) text); [done|]. by rewrite redact_fallback.
Qed.

Lemma revalued_object x y index a a' :
  cx_tabAliases y = cx_tabAliases x → revalued a a' → atom_object x index a = atom_object y index a'.
Proof.
  intros Ha (value & snippet & -> & Hsame). unfold atom_object.
  cbn [ca_value ca_tab ca_originalSnippet ca_accessLabels ca_schemaName ca_schemaVersion ca_status
       ca_source ca_type ca_key ca_tags ca_extractorRule ca_extractorConfidence ca_sourceStart
       ca_sourceEnd].
  rewrite (resolve_aliases x y) by done.
  rewrite (redact_alike (ca_value a) value), (redact_alike (or_default (ca_originalSnippet a) (ca_value a))
             (or_default snippet value)); [done| |];
    rewrite redact_fallback; intros H; by destruct (Hsame H) as [-> ->].
Qed.

Lemma revalued_rendered a a' receipts :
  revalued a a' → renderContextAtom a' receipts = renderContextAtom a receipts.
Proof.
  intros (value & snippet & -> & Hsame). unfold renderContextAtom, receipts_text.
  cbn [ca_value ca_accessLabels ca_schemaName ca_schemaVersion ca_source ca_type ca_key ca_tags
       ca_extractorRule ca_extractorConfidence ca_sourceStart ca_sourceEnd].
  rewrite (redact_alike (ca_value a) value); [done|]. intros H. by destruct (Hsame H).
Qed.

Lemma Forall2_imap_eq {A B C} (R : A → B → Prop) (f : nat → A → C) (g : nat → B → C) l l' :
  (∀ i a b, R a b → f i a = g i b) → Forall2 R l l' → imap f l = imap g l'.
Proof.
  intros Hfg H. revert f g Hfg. induction H as [|a b l l' Hab _ IH]; intros f g Hfg; [done|].
  cbn. f_equal; [by apply Hfg|]. apply IH. intros i. by apply Hfg.
Qed.

Lemma Forall2_fmap_eq {A B C} (R : A → B → Prop) (f : A → C) (g : B → C) l l' :
  (∀ a b, R a b → f a = g b) → Forall2 R l l' → f <$> l = g <$> l'.
Proof. intros Hfg. induction 1 as [|a b l l' Hab _ IH]; [done|]. cbn. f_equal; auto. Qed.

(** C19: confidential texts stay hidden.  Replacing the texts of confidential
    messages by others of the same length and the values and snippets of
    confidential facts by any others, while all their other members stay, changes
    nothing in the list of the objects of a context, nor in how any fact is
    rendered for a prompt.  The keys of facts and the entities a message mentions
    are among the members that stay: they are shown, and a key can be made of the
    words of the value ([key_tells_the_secret]). *)
Theorem confidential_values_stay_hidden x y :
  disguised x y →
  objects_report y = objects_report x ∧
  ∀ receipts, (λ a, renderContextAtom a receipts) <$> cx_atoms y =
              (λ a, renderContextAtom a receipts) <$> cx_atoms x.
Proof.
  intros [Hname Haliases Hmessages Hatoms]. split.
  - unfold objects_report. rewrite Hname.
    rewrite (Forall2_fmap_eq _ _ (message_object y) _ _ (λ a b, reworded_object x y a b Haliases) Hmessages).
    rewrite (Forall2_imap_eq _ _ (atom_object y) _ _ (λ i a b, revalued_object x y i a b Haliases) Hatoms).
    rewrite (Forall2_fmap_eq reworded ms_accessLabels ms_accessLabels _ _
               ltac:(by intros m m' (text & -> & _)) Hmessages).
    by rewrite (Forall2_fmap_eq revalued ca_accessLabels ca_accessLabels _ _
               ltac:(by intros a a' (value & snippet & -> & _)) Hatoms).
  - intros receipts. symmetry. eapply Forall2_fmap_eq; [|exact Hatoms].
    intros a a' H. symmetry. by apply revalued_rendered.
Qed.

(** ** Examples and witnesses *)

#[local] Open Scope string_scope.

Definition here : loc := Loc 1 1.

Definition say (id : Z) (text tab : string) : event :=
  Run (AppendMemory (mkAppendMemory "c" id "ada" text tab false here)).

Definition demo_spill (budget : Z) : SpillContextStmt :=
  mkSpillContext "c" "where do I live?" "" budget true here.

Definition demo_talk : list event :=
  [Run (CreateContext (mkCreateContext "c" here));
   say 1 "I live in Berlin. I prefer quiet cafes!" "home";
   Run (SpillContext (demo_spill 100));
   say 2 "I live in Paris. We decided the password is hunter2." "home";
   Run (TagMemory (mkTagMemory "c" 1 "travel" here));
   say 3 "I live in Rome but only in summer." "travel";
   Run (SpillContext (demo_spill 100));
   Run (MergeTabs (mkMergeTabs "c" "travel" "home" here))].

Definition demo_context : ConversationContextMeta :=
  default (mkContext "" [] [] []) (getContext (pr_catalog (after_events new_engine demo_talk)) "c").

(** After the merge only the last of the three places is active. *)
Example demo_facts :
  map (λ a, (ca_key a, ca_value a, ca_status a, ca_invalidatedBy a)) (cx_atoms demo_context) =
  [("user_location", "Berlin", "invalidated", "message_2");
   ("user_preference", "quiet cafes", "active", "");
   ("user_location", "Paris", "invalidated", "message_3");
   ("decision.password_hunter2", "the password is hunter2", "active", "");
   ("user_location", "Rome", "active", "")].
Proof. vm_compute. reflexivity. Qed.

Lemma contexts_always_consistent_witness :
  contexts_ok emptyCatalog ∧
  getContext (pr_catalog (after_events (mkPrompt emptyCatalog ∅) demo_talk)) "c" = Some demo_context ∧
  length (cx_atoms demo_context) = 5%nat ∧
  cx_name demo_context = "c" ∧ context_ok demo_context.
Proof.
  assert (Hc : contexts_ok emptyCatalog) by apply map_Forall_empty.
  assert (Hx : getContext (pr_catalog (after_events (mkPrompt emptyCatalog ∅) demo_talk)) "c" =
               Some demo_context) by (vm_compute; reflexivity).
  split; [exact Hc|]. split; [exact Hx|]. split; [vm_compute; reflexivity|].
  exact (contexts_always_consistent emptyCatalog demo_talk "c" demo_context Hc Hx).
Defined.

Lemma views_are_fresh_witness :
  let p := after_events (mkPrompt emptyCatalog ∅) demo_talk in
  let s := SpillContext (demo_spill 100) in
  is_ok (execute_prompt s p).1 = true ∧
  (execute_prompt s p).1 = (execute_prompt s (mkPrompt (pr_catalog p) ∅)).1.
Proof.
  split; [vm_compute; reflexivity|].
  apply (views_are_fresh emptyCatalog demo_talk (SpillContext (demo_spill 100))).
  - vm_compute; discriminate.
  - vm_compute; reflexivity.
  - repeat constructor; vm_compute; discriminate.
  - repeat constructor; vm_compute; discriminate.
Defined.

(** With twenty tokens two facts fit; a third would not. *)
Lemma spill_fits_budget_witness :
  ∃ rendered cost,
    let s := mkSpillContext "c" "where do I live?" "" 20 false here in
    spilled (scan_context demo_context s) s = (rendered, cost) ∧
    (0 < length rendered < length (ranking (scan_context demo_context s)))%nat ∧
    cost = total_cost (sc_receipts s) rendered ∧ (cost ≤ 20)%Z.
Proof.
  set (s := mkSpillContext "c" "where do I live?" "" 20 false here).
  destruct (spilled (scan_context demo_context s) s) as [rendered cost] eqn:Hrun.
  exists rendered, cost. split; [exact Hrun|]. split.
  - assert (Hlen : length rendered = length (spilled (scan_context demo_context s) s).1) by (rewrite Hrun; reflexivity).
    rewrite Hlen. vm_compute. split; repeat constructor.
  - apply (spill_fits_budget demo_context s rendered cost).
    + apply (bool_decide_unpack _). vm_compute. exact I.
    + split; vm_compute; [discriminate|reflexivity].
    + exact Hrun.
Defined.

Definition secret_context (text value : string) : ConversationContextMeta :=
  mkContext "c"
    [mkMessage 1 "ada" text "main" "ConversationMessage" "v1" storage_route
       ["CONFIDENTIAL_CUSTOMER_DATA"] [] [] []]
    [mkAtom "user_constraint.security" value "constraint" "active" "message_1" "" "main"
       "ContextAtom" "v1" ["CONFIDENTIAL_CUSTOMER_DATA"] [] "" "0.92" 0 9 value] [].

Lemma confidential_values_stay_hidden_witness :
  disguised (secret_context "my password is hunter2" "hunter2")
            (secret_context "my password is qwerty!" "qwerty!") ∧
  objects_report (secret_context "my password is qwerty!" "qwerty!") =
  objects_report (secret_context "my password is hunter2" "hunter2").
Proof.
  assert (H : disguised (secret_context "my password is hunter2" "hunter2")
                        (secret_context "my password is qwerty!" "qwerty!")).
  { split; [reflexivity..| |].
    - constructor; [|constructor]. eexists. split; [reflexivity|]. split; [reflexivity|discriminate].
    - constructor; [|constructor]. do 2 eexists. split; [reflexivity|discriminate]. }
  split; [exact H|]. apply (confidential_values_stay_hidden _ _ H).
Defined.

(** *** What is not guaranteed *)

(** Some cell of the answer contains the word. *)
Definition mentions (word : string) (answer : exec Report) : bool :=
  match answer with
  | Ok r => existsb (existsb (λ v, contains (toString v) word)) (rp_rows r)
  | Err _ => false
  end.

Definition secret_talk : list event :=
  [Run (CreateContext (mkCreateContext "c" here)); say 1 "We decided the password is hunter2." ""].

(** The value of a confidential fact is redacted, but its key is made of the words
    of the value. *)
Example key_tells_the_secret :
  let p := after_events new_engine secret_talk in
  let answer := (execute_prompt (SpillContext (demo_spill 100)) p).1 in
  mentions "[redacted:CONFIDENTIAL_CUSTOMER_DATA]" answer = true ∧ mentions "hunter2" answer = true.
Proof. split; vm_compute; reflexivity. Qed.

Definition before_rollback : prompt :=
  after_events new_engine
    [Run (CreateContext (mkCreateContext "c" here)); say 1 "I live in Berlin." ""].

(** A transaction adds a fact, spills the context and is rolled back: the catalog
    is read again from its file and counts its revisions anew, the cache stays.
    When the revision is reached again the view shows the fact that is gone. *)
Definition after_rollback : prompt :=
  let file := save (pr_catalog before_rollback) in
  let p := after_events before_rollback
             [say 2 "I live in Paris." ""; Run (SpillContext (demo_spill 100))] in
  after_events ((reloadCatalog (Some file) p).2)
    [TableAdded (mkTableMeta "t" []); TableAdded (mkTableMeta "u" [])].

Example stale_view_after_rollback :
  let s := SpillContext (demo_spill 100) in
  mentions "Paris" (execute_prompt s after_rollback).1 = true ∧
  mentions "Paris" (execute_prompt s (mkPrompt (pr_catalog after_rollback) ∅)).1 = false.
Proof. split; vm_compute; reflexivity. Qed.

Definition separated (tab query : string) : SpillContextStmt :=
  mkSpillContext "c" query tab 100 true here.

(** Two statements with one key: the second gets the answer of the first. *)
Example separator_collision :
  let first := separated "home" ("a" +:+ separator +:+ "b") in
  let second := separated ("home" +:+ separator +:+ "a") "b" in
  let p := after_events new_engine [Run (CreateContext (mkCreateContext "c" here));
                                    Run (SpillContext first)] in
  (execute_prompt (SpillContext second) p).1 = (execute_prompt (SpillContext first) p).1 ∧
  mentions ("home" +:+ separator +:+ "a") (execute_prompt (SpillContext second) p).1 = false.
Proof. split; vm_compute; reflexivity. Qed.

(** An alias joins two tabs without settling their facts, and merging them
    afterwards does nothing. *)
Example alias_keeps_contradiction :
  let p := after_events new_engine
    [Run (CreateContext (mkCreateContext "c" here));
     say 1 "I live in Berlin." "home"; say 2 "I live in Rome." "travel";
     Run (AliasTab (mkAliasTab "c" "travel" "home" here));
     Run (MergeTabs (mkMergeTabs "c" "travel" "home" here))] in
  let s := mkSpillContext "c" "" "home" 100 false here in
  mentions "user_location=Berlin" (execute_prompt (SpillContext s) p).1 = true ∧
  mentions "user_location=Rome" (execute_prompt (SpillContext s) p).1 = true.
Proof. split; vm_compute; reflexivity. Qed.
